(* ===== verification/_CoqProject ===== *)
-Q . S2P
Prelude.v
Net.v
Resolver.v
ResolverFacts.v
ResolverTheorems.v
OverlapFacts.v
F64.v
Model.v
FuserCore.v
UnionFind.v
Identity.v
IdentityFacts.v
CorrelateFacts.v
IdentityTheorems.v
Fuser.v
FuserTheorems.v
Topology.v
TopologyTheorems.v
Classifier.v
ClassifierTheorems.v
Sink.v
Codec.v
Timestamp.v
Ports.v
PortTheorems.v
Tee.v
SinkTheorems.v
Kafka.v
Nats.v
BrokerFacts.v
KafkaTheorems.v
NatsTheorems.v
Scheduler.v
SchedulerTheorems.v
CollectionProfile.v
Encoder.v
GnmiPath.v
SinkConfig.v
ProberConfig.v
Selection.v
Udp.v
UdpTheorems.v
Probers.v
ProberTheorems.v
Usm.v
Snmp.v
SnmpTheorems.v
Lldp.v
LldpTheorems.v
Demux.v
Icmp.v
LinkLayer.v
IcmpTheorems.v
LinkTheorems.v
Config.v
Gnmi.v
Checkpoint.v
Pipeline.v
PipelineFacts.v
CheckpointTheorems.v
PipelineTheorems.v
DurabilityTheorems.v
Run.v
Plan.v
RunTheorems.v
Env.v
Secrets.v
SecretsTheorems.v
Cli.v
ServerState.v
ServerHttp.v
SinkProbe.v
Scans.v
ServerMetrics.v
ServerFacts.v
ServerTheorems.v
ProbeTheorems.v
MetricsTheorems.v
Output.v
CliTheorems.v
