(* ===== verification/Prelude.v ===== *)
(** * Verification of rastreo

    [rastreo] discovers network devices. A scenario names targets and probes; the targets are resolved to
    addresses, every address is probed by every prober, what the probers report about an address is fused into a
    device record, the record is classified, encoded and written to sinks. Neighbours that devices announce become
    link records, what gNMI endpoints support becomes collection profiles. The command line ([src/rastreo]) runs
    scenarios from flags or files, the server ([src/rastreo-server]) runs them on request; both call the library
    ([src/rastreo-core], called the core below), and most of this development is about the core.

    The development is a shallow embedding. Pure code is a function; code that fails returns [Result] (or [option]
    where the code would panic); code with effects takes a world [W] and returns it, what it does to the world being an
    operation of a class whose laws are the documented behaviour of the library behind it; tasks that run at the same
    time are steps of a relation or sequences of operations in any order. Strings are lists of Unicode scalar values,
    bytes lists of integers below 256, machine integers are [Z] with wrap-around and saturation written out where the
    code can meet them, binary64 numbers are the Standard Library's executable ones, hash maps are [gmap]s whose order of
    iteration, where it can be seen, is a parameter. Definitions keep the names of the source, with a prefix
    where two parts of the source use one name.

    ** Files

    Paths are below [src/rastreo-core/src/] unless they begin with [src/].

    Foundations.
    - [Prelude]: [Result] and its monad, strings, lists, machine integers, the tactics and the hint database.
    - [Net]: addresses, networks, targets ([model/target.rs]) and the errors of [error.rs].
    - [F64], [Codec], [Timestamp]: binary64; UTF-8 and big-endian integers; [model/serde_iso8601.rs].
    - [Model]: [model/outcome.rs], [device.rs], [link.rs], [scan.rs], [kind_vocabulary.rs], [oid.rs].

    Targets.
    - [Resolver]: [resolver/] with expansion, plans, guards, the allow-list and overlap sweeps, merging of lookups and
      pinned replays. [ResolverFacts], [OverlapFacts] and [ResolverTheorems] are about it.

    Probes.
    - [Ports], [PortTheorems]: [prober/ports.rs], [classify.rs], [tcp_connect.rs] and the shared helpers of
      [prober/mod.rs]: the ports of all targets in waves under one budget.
    - [Udp], [UdpTheorems]: [prober/udp/]; the protocols byte by byte and the receive loop.
    - [Probers], [ProberTheorems]: [prober/dns.rs], [reverse_dns.rs], [ssh.rs], [tls.rs], [http.rs].
    - [Usm], [Snmp], [SnmpTheorems], [Lldp], [LldpTheorems]: [prober/snmp/] and [prober/lldp.rs].
    - [Demux], [Icmp], [IcmpTheorems], [LinkLayer], [LinkTheorems]: [prober/demux.rs], [icmp.rs], [link_layer.rs],
      [arp.rs], [ndp.rs].
    - [GnmiPath], [Gnmi]: [prober/gnmi/mod.rs], and the messages of [generated.rs] it reads.
    - [ProberConfig], [Selection]: [ProberConfig], [create_prober] and the constructors; [prober/selection.rs].
    - [Scheduler], [SchedulerTheorems]: [scheduler/mod.rs]; the scan as a relation on the tasks it runs.

    Records.
    - [FuserCore], [Fuser], [FuserTheorems]: [fuser/mod.rs], [keys.rs], [mib.rs]; the fuser objects.
    - [UnionFind], [Identity], [IdentityFacts], [CorrelateFacts], [IdentityTheorems]: [fuser/identity.rs].
    - [Topology], [TopologyTheorems]: [topology/mod.rs]. [CollectionProfile]: [collection_profile/].
    - [Classifier], [ClassifierTheorems]: [classifier/]. [Encoder]: [encoder/], the table byte by byte.

    Sinks.
    - [Sink], [Tee], [SinkConfig], [SinkTheorems]: [sink/mod.rs], [pending.rs], [retry.rs], [memory.rs], [file.rs],
      [stdout.rs], [tee.rs].
    - [Kafka], [Nats], [BrokerFacts], [KafkaTheorems], [NatsTheorems]: [sink/kafka.rs], [sink/nats.rs], [redact.rs].

    Runs.
    - [Config], [Env], [Secrets], [SecretsTheorems]: [config/], [env.rs], [prober/redacted.rs].
    - [Checkpoint], [CheckpointTheorems]: [checkpoint/mod.rs], [atomic_file.rs].
    - [Pipeline], [PipelineFacts], [PipelineTheorems], [DurabilityTheorems]: [stream_discovery] of [pipeline.rs].
    - [Run], [Plan], [RunTheorems]: [run_discovery] of [pipeline.rs], [plan.rs].

    Programs.
    - [Cli], [CliTheorems]: [src/rastreo/src/cli/discover.rs], [probe_args.rs], [validate.rs], [catalog.rs] and
      [run_report.rs].
    - [Output]: [src/rastreo/src/cli/output/], the texts of errors, the log filter of [src/rastreo/src/main.rs].
    - [ServerState], [ServerHttp], [Scans], [SinkProbe], [ServerMetrics], [ServerFacts], [ServerTheorems],
      [ProbeTheorems], [MetricsTheorems]: [src/rastreo-server/src/].

    ** What is proved

    - Resolution refines a denotation: an address target of a plan streams exactly the addresses it means, each once; a guarded plan never streams an address outside the allow-list or more than the cap.
    - Fusing: the identity fuser merges exactly the connected components of the records that share enough weight,
      equals a brute-force definition, and every configured fuser accounts for every address it was given.
    - Links and classification: one link per unordered pair of chassis, merged from both ends and attributed; the first
      matching rule decides, and fills what is not set, versions apart.
    - Scheduling: every target is probed once by every prober, the concurrency window is never exceeded, results are
      delivered, and the scan ends. Ports: each port of each target is swept under the shared budget, and the sweep ends.
    - Probers: what each prober reports is what was on the wire for its target. UDP replies come from the target; SNMPv3 data
      is authenticated and answers the request; walks collect exactly a subtree; requests are retransmitted within their time; banners do not depend on
      fragmentation; echoes are matched, timed and deregistered; link-layer hosts were announced, and asked from an interface that reaches them;
      the string leaves and the JSON form of an LLDP tree over gNMI agree; the demultiplexer refines its history in every interleaving.
    - Sinks: every record written to Kafka or NATS is acknowledged, dead-lettered or still held, and the loops of NATS end; a tee
      attributes every dead-lettered record to the child that counted it.
    - Durability: a checkpoint is never ahead of what was flushed, survives failed writes, is only resumed by a scan of the
      same targets to the same destination, and a resumed run continues where the scan stopped; records of a run do not depend on the order in
      which probes finish.
    - Configuration: validation is complete (a validated scenario builds), references expand by a grammar, errors do not
      quote secrets.
    - Programs: a file's run reports each scenario, a rehearsal refuses what the run would, what is printed never mixes with
      machine records, timestamps round-trip; the server admits, counts and authenticates as it promises, and withholds
      internal errors on the scan route when it is open to anyone.

    ** Contracts

    Code outside the repository is a parameter, with laws only where a theorem needs them: [IpNetLib] (network types),
    [ForeignErrors] and [IoErrors] (errors of other libraries), [UnicodeCase], [F64Display], [HashOrder], [MibSource],
    [RegexLib], [JsonWriter], [ScanJson], [ScanCodec] and the deserializers of [Secrets] (serde), [WriterLib],
    [SinkStore], [KafkaLib], [NatsLib], [Sleep], [Timeout], [Runtime], [FsLib], [HttpLib], [ProberLib], [BerLib],
    [CryptoLib], [PnetLib], [IpNetworkLib], the date library of [Timestamp] and the colours of [Output].
    [Encoder], [Env], [LinkLayerProtocol], [LawfulResolver], [SinkContract] and [FsContract] are interfaces between
    components, or between a component and the world; clients are proved against them. Theorems with laws among their
    hypotheses have witnesses with concrete instances. The network is scripted: an attempt, an exchange, a lookup, a walk or a
    turn of a reader is what the awaited call gives before its deadline, and theorems quantify over scripts.

    Cargo features are parameters where the code selects by them ([ProbeFeatures], [Features]); the other features are taken
    to be enabled. Operations on state behind a lock (the demultiplexer, the sink of the server) or in atomics (the metrics,
    readiness) are single steps; a step of the server moves one request from a phase of its handler
    to the next ([Scans.moves]).

    ** Bounds

    A loop that is not structural has fuel that its caller computes: the length of the text or bytes left to read
    ([parse_keys], [find_brace], [interpolate_loop], [stun_attributes], [chunks]), the number of records buffered
    ([drain_ready], [publish_stream_loop], [nats_publish_loop]), the number of nodes ([find_loop], [compress_loop]), the
    bytes still wanted ([expand_password], [extend_key], [grow_loop], [push_spaces_loop]), five digits of a port and
    thirty-nine of a 128-bit number. Each turn uses up at least one of what is counted. Where running out would show, the
    result is an [option] and lemmas prove that it never does for the fuel the caller gives; the results of the other loops are
    given by lemmas that do not mention the fuel. The relations ([Scheduler], [Ports]) have no bound;
    that they end is a theorem by a measure.

    ** Not modelled

    Third-party protocol stacks (TLS, SSH and HTTP sessions, the gNMI wire format, brokers' protocols), sockets and
    terminals, clap's parsing and serde's derived code, the building of the system's DNS resolver, tracing and OpenTelemetry
    exporters, signal handling, generated bindings, the JSON schemas and the build tasks of [src/xtask]: each is code of other
    projects, generated, or calls into them, with nothing of the program's own logic left between. *)

From Stdlib Require Export ZArith Lia.
From stdpp Require Export strings sorting numbers gmap prelude.

#[global] Open Scope Z_scope.

(** ** Automation shared by the components *)

Create HintDb rastreo discriminated.

(** Split every conditional and boolean equation in sight. *)
Ltac break_bool :=
  repeat match goal with
  | H : (_ && _)%bool = true |- _ => apply andb_true_iff in H; destruct H
  | H : (_ || _)%bool = false |- _ => apply orb_false_iff in H; destruct H
  | H : negb _ = true |- _ => apply negb_true_iff in H
  | H : negb _ = false |- _ => apply negb_false_iff in H
  | H : Z.leb _ _ = true |- _ => apply Z.leb_le in H
  | H : Z.leb _ _ = false |- _ => apply Z.leb_gt in H
  | H : Z.ltb _ _ = true |- _ => apply Z.ltb_lt in H
  | H : Z.ltb _ _ = false |- _ => apply Z.ltb_ge in H
  | H : Z.eqb _ _ = true |- _ => apply Z.eqb_eq in H
  | H : Z.eqb _ _ = false |- _ => apply Z.eqb_neq in H
  | H : Nat.eqb _ _ = true |- _ => apply Nat.eqb_eq in H
  | H : Nat.eqb _ _ = false |- _ => apply Nat.eqb_neq in H
  | H : bool_decide _ = true |- _ => apply bool_decide_eq_true_1 in H
  | H : bool_decide _ = false |- _ => apply bool_decide_eq_false_1 in H
  end.

(** ** Fallible computations: Rust's [Result] *)

Inductive Result (E A : Type) : Type :=
  | Ok (a : A)
  | Err (e : E).
Arguments Ok {E A} a.
Arguments Err {E A} e.

#[global] Instance Result_ret E : MRet (Result E) := fun A a => Ok a.
#[global] Instance Result_bind E : MBind (Result E) := fun A B f c =>
  match c with Ok a => f a | Err e => Err e end.
#[global] Instance Result_fmap E : FMap (Result E) := fun A B f c =>
  match c with Ok a => Ok (f a) | Err e => Err e end.
#[global] Instance Result_eq_dec E A `{EqDecision E, EqDecision A} : EqDecision (Result E A).
Proof. solve_decision. Defined.

(** [Result::map_err], which is also what [?] does through [From]. *)
Definition map_err {E F A} (f : E → F) (c : Result E A) : Result F A :=
  match c with Ok a => Ok a | Err e => Err (f e) end.

(** [Result::ok]. *)
Definition result_ok {E A} (c : Result E A) : option A :=
  match c with Ok a => Some a | Err _ => None end.

(** [Result::err]. *)
Definition result_err {E A} (c : Result E A) : option E :=
  match c with Ok _ => None | Err e => Some e end.

(** [Option::ok_or]. *)
Definition ok_or {E A} (o : option A) (e : E) : Result E A :=
  match o with Some a => Ok a | None => Err e end.

Definition is_ok {E A} (c : Result E A) : bool :=
  match c with Ok _ => true | Err _ => false end.

Lemma is_ok_Ok {E A} (c : Result E A) : is_ok c = true → ∃ a, c = Ok a.
Proof. destruct c; [eauto|done]. Qed.

Lemma Result_bind_Ok {E A B} (c : Result E A) (f : A → Result E B) b :
  c ≫= f = Ok b ↔ ∃ a, c = Ok a ∧ f a = Ok b.
Proof. destruct c; simpl; naive_solver. Qed.

Lemma Result_bind_Err {E A B} (c : Result E A) (f : A → Result E B) e :
  c ≫= f = Err e ↔ c = Err e ∨ ∃ a, c = Ok a ∧ f a = Err e.
Proof. destruct c; simpl; naive_solver. Qed.

Lemma map_err_Ok {E F A} (f : E → F) (c : Result E A) a :
  map_err f c = Ok a ↔ c = Ok a.
Proof. destruct c; simpl; naive_solver. Qed.

(** Decompose hypotheses about computations that succeeded. *)
Ltac inv_ok :=
  repeat match goal with
  | H : Ok _ = Ok _ |- _ => injection H as H
  | H : Err _ = Ok _ |- _ => discriminate H
  | H : Ok _ = Err _ |- _ => discriminate H
  | H : Err _ = Err _ |- _ => injection H as H
  | H : mret _ = Ok _ |- _ => unfold mret, Result_ret in H
  | H : (_ ≫= _) = Ok _ |- _ =>
      apply Result_bind_Ok in H; destruct H as (? & ? & ?)
  | H : map_err _ _ = Ok _ |- _ => apply map_err_Ok in H
  end.

(** A loop that pushes one fallible result per element succeeds exactly when
    every step does, and then yields the results in order. *)
Lemma mapM_Ok {E A B} (f : A → Result E B) (l : list A) (k : list B) :
  mapM f l = Ok k ↔ Forall2 (λ a b, f a = Ok b) l k.
Proof.
  revert k. induction l as [|a l IH]; intros k; simpl.
  - split; [intros H; inv_ok; subst; constructor | by inversion 1].
  - split.
    + intros H; inv_ok; subst. constructor; [done|]. by apply IH.
    + inversion 1 as [|? b ? k' Hb Hk]; subst. apply IH in Hk.
      rewrite Hb. simpl. rewrite Hk. done.
Qed.

(** The error of such a loop is the error of its first failing element. *)
Lemma mapM_Err {E A B} (f : A → Result E B) (l : list A) e :
  mapM f l = Err e ↔
  ∃ l1 a l2, l = l1 ++ a :: l2 ∧ Forall (λ x, is_ok (f x) = true) l1 ∧ f a = Err e.
Proof.
  induction l as [|a l IH]; simpl.
  - split; [done|]. by intros ([|??] & ? & ? & ? & _).
  - split.
    + intros H. apply Result_bind_Err in H as [H | (b & Hb & H)].
      { exists [], a, l. naive_solver. }
      apply Result_bind_Err in H as [H | (k & Hk & H)]; [|done].
      apply IH in H as (l1 & x & l2 & -> & Hall & Hx).
      exists (a :: l1), x, l2. split_and!; [done| |done].
      constructor; [by rewrite Hb | done].
    + intros ([|a' l1] & x & l2 & Heq & Hall & Hx); simplify_eq/=.
      { by rewrite Hx. }
      apply Forall_cons in Hall as [Ha Hall].
      destruct (f a') as [b|] eqn:Hb; [|done]. simpl.
      assert (mapM f (l1 ++ x :: l2) = Err e) as ->; [|done].
      apply (proj2 IH). eauto 10.
Qed.

(** ** Machine integers, kept in [Z] with their width written out *)

Definition U8_MAX : Z := 2 ^ 8 - 1.
Definition U16_MAX : Z := 2 ^ 16 - 1.
Definition U32_MAX : Z := 2 ^ 32 - 1.
Definition U64_MAX : Z := 2 ^ 64 - 1.
Definition U128_MAX : Z := 2 ^ 128 - 1.
Definition USIZE_MAX : Z := U64_MAX.

Definition wrap (w x : Z) : Z := x mod 2 ^ w.

(** Unsigned [saturating_add], [saturating_sub] and [saturating_mul] at the
    type whose largest value is [m]. *)
Definition saturating_add (m x y : Z) : Z := Z.min m (x + y).
Definition saturating_sub (x y : Z) : Z := Z.max 0 (x - y).
Definition saturating_mul (m x y : Z) : Z := Z.min m (x * y).

(** [x as usize] for an unsigned [x]: truncation to 64 bits. *)
Definition as_usize (x : Z) : Z := wrap 64 x.

Lemma wrap_small w x : 0 ≤ x < 2 ^ w → wrap w x = x.
Proof. apply Z.mod_small. Qed.

Lemma as_usize_small x : 0 ≤ x ≤ USIZE_MAX → as_usize x = x.
Proof. unfold USIZE_MAX, U64_MAX. intros. apply wrap_small. lia. Qed.

(** ** Strings as sequences of Unicode scalar values *)

(** A Rust [str] is a sequence of scalar values; equality and the (bytewise
    UTF-8) order on [str] are equality and lexicographic order on it. *)
Abbreviation Str := (list Z).

Definition lit (s : string) : Str :=
  (λ a, Z.of_N (Ascii.N_of_ascii a)) <$> String.list_ascii_of_string s.

Declare Scope str_scope.
Delimit Scope str_scope with str.
Notation "'s!' x" := (lit x%string) (at level 1, x at level 0, only parsing).

Definition is_empty {A} (l : list A) : bool :=
  match l with [] => true | _ => false end.

Lemma is_empty_true {A} (l : list A) : is_empty l = true ↔ l = [].
Proof. destruct l; naive_solver. Qed.

Definition is_ascii_digit (c : Z) : bool := (48 <=? c) && (c <=? 57).

(** [to_ascii_lowercase] on one scalar value. *)
Definition ascii_lower (c : Z) : Z :=
  if (65 <=? c) && (c <=? 90) then c + 32 else c.

Definition to_ascii_lowercase (s : Str) : Str := ascii_lower <$> s.

Definition eq_ignore_ascii_case (a b : Str) : bool :=
  bool_decide (to_ascii_lowercase a = to_ascii_lowercase b).

(** [char::is_whitespace]: the Unicode [White_Space] property. *)
Definition is_whitespace (c : Z) : bool :=
  ((9 <=? c) && (c <=? 13)) || (c =? 32) || (c =? 133) || (c =? 160) ||
  (c =? 5760) || ((8192 <=? c) && (c <=? 8202)) || (c =? 8232) ||
  (c =? 8233) || (c =? 8239) || (c =? 8287) || (c =? 12288).

Fixpoint drop_while {A} (p : A → bool) (l : list A) : list A :=
  match l with
  | [] => []
  | x :: l' => if p x then drop_while p l' else l
  end.

(** [str::trim]. *)
Definition trim (s : Str) : Str :=
  rev (drop_while is_whitespace (rev (drop_while is_whitespace s))).

(** [str::trim_end_matches] of one character. *)
Definition trim_end_matches (c : Z) (s : Str) : Str := rev (drop_while (Z.eqb c) (rev s)).

(** [str::split] on one character: always at least one piece. *)
Fixpoint split_on (sep : Z) (s : Str) : list Str :=
  match s with
  | [] => [[]]
  | c :: s' =>
      match split_on sep s' with
      | [] => [[]]
      | p :: ps => if c =? sep then [] :: p :: ps else (c :: p) :: ps
      end
  end.

(** [str::strip_prefix]. *)
Fixpoint strip_prefix (p s : Str) : option Str :=
  match p, s with
  | [], _ => Some s
  | a :: p', b :: s' => if a =? b then strip_prefix p' s' else None
  | _ :: _, [] => None
  end.

(** [[String]::join]. *)
Fixpoint join (sep : Str) (ps : list Str) : Str :=
  match ps with
  | [] => []
  | [p] => p
  | p :: ps' => p ++ sep ++ join sep ps'
  end.

(** [&s[..i]] and [&s[i..]] for the first [c] (or the end). *)
Fixpoint take_until (c : Z) (s : Str) : Str * Str :=
  match s with
  | [] => ([], [])
  | x :: s' => if x =? c then ([], s) else let '(a, b) := take_until c s' in (x :: a, b)
  end.

(** What follows the last [c]: [str::rfind]. *)
Fixpoint after_last (c : Z) (s : Str) : option Str :=
  match s with
  | [] => None
  | x :: s' =>
      match after_last c s' with
      | Some r => Some r
      | None => if x =? c then Some s' else None
      end
  end.

(** [str::split_once] on a character: the text before and after its first occurrence,
    as [find] and two slices give them. *)
Fixpoint split_once (c : Z) (s : Str) : option (Str * Str) :=
  match s with
  | [] => None
  | x :: s' =>
      if x =? c then Some ([], s')
      else '(a, b) ← split_once c s'; Some (x :: a, b)
  end.

Lemma split_once_app c a b : c ∉ a → split_once c (a ++ c :: b) = Some (a, b).
Proof.
  induction a as [|x a IH]; intros Ha; simpl; [by rewrite Z.eqb_refl|].
  apply not_elem_of_cons in Ha as [Hx Ha].
  destruct (Z.eqb_spec x c); [congruence|]. by rewrite IH.
Qed.

Lemma split_once_None c s : split_once c s = None ↔ c ∉ s.
Proof.
  induction s as [|x s IH]; simpl; [split; [intros _; apply not_elem_of_nil|done]|].
  rewrite not_elem_of_cons, <-IH. destruct (Z.eqb_spec x c) as [->|Hx]; [naive_solver|].
  destruct (split_once c s) as [[]|]; simpl; naive_solver.
Qed.

Lemma split_once_Some c s a b : split_once c s = Some (a, b) → s = a ++ c :: b ∧ c ∉ a.
Proof.
  revert a b. induction s as [|x s IH]; intros a b; simpl; [done|].
  destruct (Z.eqb_spec x c) as [->|Hx].
  - intros [= <- <-]. split; [done|apply not_elem_of_nil].
  - destruct (split_once c s) as [[a' b']|]; simpl; [|done]. intros [= <- <-].
    destruct (IH a' b' eq_refl) as [-> Ha]. split; [done|]. apply not_elem_of_cons. naive_solver.
Qed.

Lemma strip_prefix_Some p s r : strip_prefix p s = Some r ↔ s = p ++ r.
Proof.
  revert s. induction p as [|a p IH]; intros s; simpl; [naive_solver|].
  destruct s as [|b s]; [naive_solver|].
  destruct (a =? b) eqn:E; break_bool; [subst; rewrite IH; naive_solver|].
  naive_solver.
Qed.

Lemma eq_ignore_ascii_case_sym a b :
  eq_ignore_ascii_case a b = eq_ignore_ascii_case b a.
Proof. unfold eq_ignore_ascii_case. apply bool_decide_ext. naive_solver. Qed.

(** ** Iterator idioms *)

(** [Vec::dedup]: drop every element equal to its predecessor. *)
Fixpoint vec_dedup {A} `{EqDecision A} (l : list A) : list A :=
  match l with
  | x :: (y :: _) as rest => if bool_decide (x = y) then vec_dedup rest else x :: vec_dedup rest
  | _ => l
  end.

(** [Iterator::find_map]. *)
Fixpoint find_map {A B} (f : A → option B) (l : list A) : option B :=
  match l with
  | [] => None
  | x :: l' => match f x with Some b => Some b | None => find_map f l' end
  end.

(** Push each element unless an equal one was pushed before: the
    linear-search deduplication the code repeats for signals and kinds. *)
Definition push_new {A} `{EqDecision A} (acc : list A) (x : A) : list A :=
  if bool_decide (x ∈ acc) then acc else acc ++ [x].

Definition dedup {A} `{EqDecision A} (l : list A) : list A :=
  foldl push_new [] l.

Lemma mjoin_cons {A} (x : list A) (xs : list (list A)) : mjoin (x :: xs) = x ++ mjoin xs.
Proof. done. Qed.

Section iterators.
Context {A B : Type}.

Lemma find_map_Some (f : A → option B) l b :
  find_map f l = Some b ↔
  ∃ l1 a l2, l = l1 ++ a :: l2 ∧ Forall (λ x, f x = None) l1 ∧ f a = Some b.
Proof.
  induction l as [|x l IH]; simpl.
  - split; [done|]. by intros ([|??] & ? & ? & ? & _).
  - destruct (f x) as [b'|] eqn:E.
    + split.
      * intros [= ->]. exists [], x, l. naive_solver.
      * intros ([|y l1] & a & l2 & Heq & Hall & Ha); simplify_eq/=; try done.
        apply Forall_cons in Hall as [? _]. congruence.
    + rewrite IH. split.
      * intros (l1 & a & l2 & -> & Hall & Ha). exists (x :: l1), a, l2. naive_solver.
      * intros ([|y l1] & a & l2 & Heq & Hall & Ha); simplify_eq/=; try congruence.
        apply Forall_cons in Hall as [_ Hall]. eauto 10.
Qed.

Lemma find_map_None (f : A → option B) l :
  find_map f l = None ↔ Forall (λ x, f x = None) l.
Proof.
  induction l as [|x l IH]; simpl; [done|].
  rewrite Forall_cons. destruct (f x); [naive_solver|]. rewrite IH. naive_solver.
Qed.
End iterators.

Lemma filter_ext_elem {A} (P Q : A → Prop) `{!∀ x, Decision (P x), !∀ x, Decision (Q x)}
    (l : list A) :
  (∀ x, x ∈ l → P x ↔ Q x) → filter P l = filter Q l.
Proof.
  induction l as [|x l IH]; intros Hext; [done|]. rewrite !filter_cons.
  rewrite IH by (intros; apply Hext; by right).
  pose proof (Hext x ltac:(by left)). repeat case_decide; naive_solver.
Qed.

Lemma mapM_ext_elem {A B} (f g : A → option B) (l : list A) :
  (∀ x, x ∈ l → f x = g x) → mapM f l = mapM g l.
Proof.
  induction l as [|x l IH]; intros Hext; [done|]. simpl. rewrite (Hext x) by by left.
  by rewrite IH by (intros; apply Hext; by right).
Qed.

Lemma Forall2_elem_l {A B} (P : A → B → Prop) (l : list A) (k : list B) :
  Forall2 P l k → Forall2 (λ a b, a ∈ l ∧ P a b) l k.
Proof.
  induction 1 as [|a b l k Hab _ IH]; [done|]. constructor; [by split; [left|]|].
  eapply Forall2_impl; [done|]. intros a' b' [? ?]. by split; [right|].
Qed.

Lemma length_omap {A B} (f : A → option B) (l : list A) : (length (omap f l) ≤ length l)%nat.
Proof. induction l as [|x l IH]; [done|]. cbn. destruct (f x); cbn; lia. Qed.

Lemma Forall_filter {A} (P : A → Prop) `{!∀ x, Decision (P x)} (l : list A) :
  Forall P (filter P l).
Proof. apply Forall_forall. intros x Hx. by apply list_elem_of_filter in Hx as []. Qed.

(** Counting a disjoint union. *)
Lemma filter_disjoint_length {A} (P Q R : A → Prop)
    `{!∀ x, Decision (P x), !∀ x, Decision (Q x), !∀ x, Decision (R x)} (l : list A) :
  (∀ x, x ∈ l → R x ↔ P x ∨ Q x) → (∀ x, P x → Q x → False) →
  length (filter R l) = (length (filter P l) + length (filter Q l))%nat.
Proof.
  intros Hext Hdis. induction l as [|x l IH]; [done|]. rewrite !filter_cons.
  specialize (IH ltac:(intros; apply Hext; by right)).
  pose proof (Hext x ltac:(by left)). pose proof (Hdis x).
  repeat case_decide; simpl; try lia; naive_solver.
Qed.

Section dedup.
Context {A : Type} `{EqDecision A}.
Implicit Types (x : A) (l acc : list A).

Lemma push_new_elem acc x y : y ∈ push_new acc x ↔ y ∈ acc ∨ y = x.
Proof. unfold push_new. case_bool_decide; set_solver. Qed.

Lemma push_new_NoDup acc x : NoDup acc → NoDup (push_new acc x).
Proof.
  unfold push_new. case_bool_decide; [done|]. intros.
  apply NoDup_app. split_and!; [done|set_solver|apply NoDup_singleton].
Qed.

Lemma foldl_push_new_elem l acc y : y ∈ foldl push_new acc l ↔ y ∈ acc ∨ y ∈ l.
Proof.
  revert acc. induction l as [|x l IH]; intros acc; simpl; [set_solver|].
  rewrite IH, push_new_elem. set_solver.
Qed.

Lemma foldl_push_new_NoDup l acc : NoDup acc → NoDup (foldl push_new acc l).
Proof. revert acc. induction l; simpl; intros; auto using push_new_NoDup. Qed.

Lemma foldl_push_new_prefix l acc : acc `prefix_of` foldl push_new acc l.
Proof.
  revert acc. induction l as [|x l IH]; intros acc; simpl; [done|].
  etrans; [|apply IH]. unfold push_new. case_bool_decide; [done|]. by exists [x].
Qed.

Lemma dedup_elem l y : y ∈ dedup l ↔ y ∈ l.
Proof. unfold dedup. rewrite foldl_push_new_elem. set_solver. Qed.

Lemma dedup_NoDup l : NoDup (dedup l).
Proof. apply foldl_push_new_NoDup, NoDup_nil_2. Qed.

Lemma push_new_fresh acc x : x ∉ acc → push_new acc x = acc ++ [x].
Proof. unfold push_new. by case_bool_decide. Qed.

Lemma foldl_push_new_fresh l acc :
  NoDup (acc ++ l) → foldl push_new acc l = acc ++ l.
Proof.
  revert acc. induction l as [|x l IH]; intros acc Hnd; simpl; [by rewrite app_nil_r|].
  rewrite push_new_fresh.
  - rewrite IH; by rewrite <-(assoc_L (++)).
  - apply NoDup_app in Hnd as (_ & Hd & _). intros Hin. apply (Hd x Hin). set_solver.
Qed.

(** Pushing list after list is pushing their concatenation. *)
Lemma foldl_push_new_join {B} (f : B → list A) (ms : list B) acc :
  foldl (λ acc m, foldl push_new acc (f m)) acc ms = foldl push_new acc (mjoin (f <$> ms)).
Proof.
  revert acc. induction ms as [|m ms IH]; intros acc; [done|].
  rewrite fmap_cons, mjoin_cons, foldl_app. apply IH.
Qed.

Lemma dedup_join_elem {B} (f : B → list A) (ms : list B) y :
  y ∈ foldl (λ acc m, foldl push_new acc (f m)) [] ms ↔ ∃ m, m ∈ ms ∧ y ∈ f m.
Proof.
  rewrite foldl_push_new_join. fold (dedup (mjoin (f <$> ms))). rewrite dedup_elem.
  rewrite list_elem_of_join. setoid_rewrite list_elem_of_fmap. naive_solver.
Qed.

Lemma dedup_join_NoDup {B} (f : B → list A) (ms : list B) :
  NoDup (foldl (λ acc m, foldl push_new acc (f m)) [] ms).
Proof. rewrite foldl_push_new_join. apply foldl_push_new_NoDup, NoDup_nil_2. Qed.

Lemma dedup_id l : NoDup l → dedup l = l.
Proof. intros. by apply foldl_push_new_fresh. Qed.
End dedup.

#[export] Hint Resolve dedup_NoDup push_new_NoDup : rastreo.
