(* ===== verification/Net.v ===== *)
(** * Network data shared by the components

    Internet addresses with the textual forms the standard library gives them,
    the interfaces of the third-party libraries the core calls ([ipnet],
    [hickory-resolver], the Unicode case tables), the [Target] a scenario names
    ([src/rastreo-core/src/model/target.rs]) and the error types of
    [src/rastreo-core/src/error.rs]. *)

From S2P Require Import Prelude.

(** ** Addresses: [std::net::IpAddr] *)

(** An address is its [to_bits] value. *)
Inductive IpAddr : Type :=
  | V4 (bits : Z)
  | V6 (bits : Z).

#[global] Instance IpAddr_eq_dec : EqDecision IpAddr.
Proof. solve_decision. Defined.
#[global] Instance IpAddr_countable : Countable IpAddr.
Proof.
  apply (inj_countable'
    (λ a, match a with V4 b => inl b | V6 b => inr b end)
    (λ s, match s with inl b => V4 b | inr b => V6 b end)).
  by intros [].
Defined.

Definition ip_wf (a : IpAddr) : Prop :=
  match a with
  | V4 b => 0 ≤ b ≤ U32_MAX
  | V6 b => 0 ≤ b ≤ U128_MAX
  end.

(** Digits of [n] in base [r], most significant first; 39 digits write every
    128-bit value in base 10. *)
Fixpoint digits_go (r : Z) (fuel : nat) (n : Z) (acc : list Z) : list Z :=
  match fuel with
  | O => acc
  | S fuel' =>
      let acc' := (n mod r) :: acc in
      if n / r =? 0 then acc' else digits_go r fuel' (n / r) acc'
  end.

Definition digit_char (d : Z) : Z := if d <? 10 then 48 + d else 87 + d.
Definition fmt_dec (n : Z) : Str := digit_char <$> digits_go 10 39 n [].
Definition fmt_hex (n : Z) : Str := digit_char <$> digits_go 16 32 n [].

Definition octet (b i : Z) : Z := (b / 2 ^ (8 * (3 - i))) mod 256.
Definition ipv4_display (b : Z) : Str :=
  join (s! ".") (fmt_dec <$> [octet b 0; octet b 1; octet b 2; octet b 3]).

Definition segments (b : Z) : list Z :=
  (λ i, (b / 2 ^ (16 * (7 - i))) mod 65536) <$> [0; 1; 2; 3; 4; 5; 6; 7].

(** The longest run of zero segments, the first of the longest ones. *)
Fixpoint zero_span (segs : list Z) (i : nat) (longest current : nat * nat) : nat * nat :=
  match segs with
  | [] => longest
  | s :: segs' =>
      if s =? 0 then
        let start := if (current.2 =? 0)%nat then i else current.1 in
        let current' := (start, S current.2) in
        let longest' := if (longest.2 <? current'.2)%nat then current' else longest in
        zero_span segs' (S i) longest' current'
      else zero_span segs' (S i) longest (0%nat, 0%nat)
  end.

Definition ipv6_display (b : Z) : Str :=
  if b / 2 ^ 32 =? 65535 then s! "::ffff:" ++ ipv4_display (b mod 2 ^ 32)
  else
    let segs := segments b in
    let z := zero_span segs 0 (0%nat, 0%nat) (0%nat, 0%nat) in
    let fmt l := join (s! ":") (fmt_hex <$> l) in
    if (1 <? z.2)%nat then fmt (take z.1 segs) ++ s! "::" ++ fmt (drop (z.1 + z.2) segs)
    else fmt segs.

(** [impl Display for IpAddr]. *)
Definition ip_display (a : IpAddr) : Str :=
  match a with V4 b => ipv4_display b | V6 b => ipv6_display b end.

(** *** Parsing: [impl FromStr for IpAddr]

    Each reader takes the unread text and returns the value with the rest, or
    [None] leaving the text unread. *)

Definition to_digit (radix c : Z) : option Z :=
  let d := if (48 <=? c) && (c <=? 57) then c - 48
           else if (97 <=? c) && (c <=? 122) then c - 87
           else if (65 <=? c) && (c <=? 90) then c - 55
           else radix in
  if d <? radix then Some d else None.

Fixpoint read_digits (radix : Z) (s : Str) : list Z * Str :=
  match s with
  | [] => ([], [])
  | c :: s' =>
      match to_digit radix c with
      | None => ([], s)
      | Some d => let '(ds, rest) := read_digits radix s' in (d :: ds, rest)
      end
  end.

Definition read_number (radix : Z) (max_digits : nat) (allow_zero_prefix : bool)
    (limit : Z) (s : Str) : option (Z * Str) :=
  let '(ds, rest) := read_digits radix s in
  let n := length ds in
  let value := foldl (λ acc d, acc * radix + d) 0 ds in
  if (n =? 0)%nat || (max_digits <? n)%nat then None
  else if negb allow_zero_prefix && bool_decide (head ds = Some 0) && (1 <? n)%nat then None
  else if limit <? value then None
  else Some (value, rest).

(** [read_separator]: the separator is expected before every group but the first. *)
Definition read_separator {A} (sep : Z) (index : nat) (inner : Str → option (A * Str))
    (s : Str) : option (A * Str) :=
  match index, s with
  | O, _ => inner s
  | S _, c :: s' => if c =? sep then inner s' else None
  | S _, [] => None
  end.

Definition read_ipv4_addr (s : Str) : option (Z * Str) :=
  let group i := read_separator 46 i (read_number 10 3 false 255) in
  '(a, s) ← group 0%nat s; '(b, s) ← group 1%nat s;
  '(c, s) ← group 2%nat s; '(d, s) ← group 3%nat s;
  Some (a * 2 ^ 24 + b * 2 ^ 16 + c * 2 ^ 8 + d, s).

(** [read_groups] fills at most [i + n] groups, [i] of them read already. *)
Fixpoint read_groups (n : nat) (i : nat) (s : Str) : list Z * bool * Str :=
  match n with
  | O => ([], false, s)
  | S n' =>
      let v4 := if (1 <=? n')%nat then read_separator 58 i read_ipv4_addr s else None in
      match v4 with
      | Some (b, rest) => ([b / 2 ^ 16; b mod 2 ^ 16], true, rest)
      | None =>
          match read_separator 58 i (read_number 16 4 true 65535) s with
          | None => ([], false, s)
          | Some (g, rest) =>
              let '(gs, v, rest') := read_groups n' (S i) rest in (g :: gs, v, rest')
          end
      end
  end.

Definition read_ipv6_addr (s : Str) : option (Z * Str) :=
  let combine gs := foldl (λ acc g, acc * 65536 + g) 0 gs in
  let '(front, front_v4, rest) := read_groups 8 0 s in
  if (length front =? 8)%nat then Some (combine front, rest)
  else if front_v4 then None
  else
    match rest with
    | 58 :: 58 :: rest' =>
        let '(back, _, rest'') := read_groups (7 - length front) 0 rest' in
        Some (combine (front ++ replicate (8 - length front - length back) 0 ++ back), rest'')
    | _ => None
    end.

Definition ip_from_str (s : Str) : option IpAddr :=
  match read_ipv4_addr s with
  | Some (b, rest) => if is_empty rest then Some (V4 b) else None
  | None =>
      match read_ipv6_addr s with
      | Some (b, rest) => if is_empty rest then Some (V6 b) else None
      | None => None
      end
  end.

(** ** Interfaces of the libraries the core calls *)

(** [ipnet]: a network is used through its prefix length, first and last
    address (as [to_bits] values) and its membership test. *)
Class IpNetLib := {
  Ipv4Net : Type;
  Ipv6Net : Type;
  Ipv4Net_eq_dec :: EqDecision Ipv4Net;
  Ipv6Net_eq_dec :: EqDecision Ipv6Net;
  v4_prefix_len : Ipv4Net → Z;
  v4_network : Ipv4Net → Z;
  v4_broadcast : Ipv4Net → Z;
  v4_contains : Ipv4Net → Z → bool;
  v4_net_display : Ipv4Net → Str;
  v6_network : Ipv6Net → Z;
  v6_broadcast : Ipv6Net → Z;
  v6_contains : Ipv6Net → Z → bool;
  v6_net_display : Ipv6Net → Str;
}.

(** What [ipnet] documents: a prefix length counts the fixed leading bits, the
    network and broadcast addresses are the first and last of the block, and
    [contains] tests membership in it. *)
Class IpNetLaws (L : IpNetLib) : Prop := {
  v4_prefix_range n : 0 ≤ v4_prefix_len n ≤ 32;
  v4_network_range n : 0 ≤ v4_network n;
  v4_broadcast_range n : v4_broadcast n ≤ U32_MAX;
  v4_broadcast_eq n : v4_broadcast n = v4_network n + 2 ^ (32 - v4_prefix_len n) - 1;
  v4_contains_iff n a : v4_contains n a = true ↔ v4_network n ≤ a ≤ v4_broadcast n;
  v6_network_range n : 0 ≤ v6_network n;
  v6_broadcast_range n : v6_broadcast n ≤ U128_MAX;
  v6_network_le n : v6_network n ≤ v6_broadcast n;
  v6_contains_iff n a : v6_contains n a = true ↔ v6_network n ≤ a ≤ v6_broadcast n;
}.

Inductive IpNet `{IpNetLib} : Type :=
  | NetV4 (n : Ipv4Net)
  | NetV6 (n : Ipv6Net).
Arguments NetV4 {_}.
Arguments NetV6 {_}.

#[global] Instance IpNet_eq_dec `{IpNetLib} : EqDecision IpNet.
Proof. solve_decision. Defined.

(** [IpNet::contains(&IpAddr)]: false across families. *)
Definition net_contains `{IpNetLib} (net : IpNet) (ip : IpAddr) : bool :=
  match net, ip with
  | NetV4 n, V4 a => v4_contains n a
  | NetV6 n, V6 a => v6_contains n a
  | _, _ => false
  end.

Definition net_display `{IpNetLib} (net : IpNet) : Str :=
  match net with NetV4 n => v4_net_display n | NetV6 n => v6_net_display n end.

(** The error values other libraries hand to the core, kept opaque. *)
Class ForeignErrors := {
  NetError : Type;
  IoError : Type;
  RegexError : Type;
  JsonError : Type;
  is_no_records_found : NetError → bool;
}.

(** Unicode lower-casing, as the standard library's tables define it. *)
Class UnicodeCase := {
  char_to_lowercase : Z → list Z;
  str_to_lowercase : Str → Str;
}.

(** The standard library documents ASCII letters as mapped to their lower-case
    form and every other ASCII character as left alone. *)
Class UnicodeCaseLaws (U : UnicodeCase) : Prop := {
  char_to_lowercase_ascii c : 0 ≤ c < 128 → char_to_lowercase c = [ascii_lower c];
  str_to_lowercase_ascii s :
    Forall (λ c, 0 ≤ c < 128) s → str_to_lowercase s = to_ascii_lowercase s;
  char_to_lowercase_nonempty c : char_to_lowercase c ≠ [];
  (** No character outside ASCII has a hexadecimal digit in its lower-case form. *)
  char_to_lowercase_hex c d :
    d ∈ char_to_lowercase c → (48 ≤ d ≤ 57 ∨ 97 ≤ d ≤ 102) → 0 ≤ c < 128;
}.

(** *** Concrete implementations, at which the hypotheses of the theorems are
    instantiated *)

(** A network as an address and a prefix length. *)
Definition mask (w p a : Z) : Z := a mod 2 ^ w / 2 ^ (w - p) * 2 ^ (w - p).
Definition clamp (lo hi x : Z) : Z := Z.max lo (Z.min hi x).

Definition sample_ipnet : IpNetLib := {|
  Ipv4Net := Z * Z;
  Ipv6Net := Z * Z;
  v4_prefix_len n := clamp 0 32 n.2;
  v4_network n := mask 32 (clamp 0 32 n.2) n.1;
  v4_broadcast n := mask 32 (clamp 0 32 n.2) n.1 + 2 ^ (32 - clamp 0 32 n.2) - 1;
  v4_contains n a :=
    (mask 32 (clamp 0 32 n.2) n.1 <=? a) &&
    (a <=? mask 32 (clamp 0 32 n.2) n.1 + 2 ^ (32 - clamp 0 32 n.2) - 1);
  v4_net_display n := ipv4_display n.1 ++ s! "/" ++ fmt_dec (clamp 0 32 n.2);
  v6_network n := mask 128 (clamp 0 128 n.2) n.1;
  v6_broadcast n := mask 128 (clamp 0 128 n.2) n.1 + 2 ^ (128 - clamp 0 128 n.2) - 1;
  v6_contains n a :=
    (mask 128 (clamp 0 128 n.2) n.1 <=? a) &&
    (a <=? mask 128 (clamp 0 128 n.2) n.1 + 2 ^ (128 - clamp 0 128 n.2) - 1);
  v6_net_display n := ipv6_display n.1 ++ s! "/" ++ fmt_dec (clamp 0 128 n.2);
|}.

Lemma mask_bounds w p a :
  0 ≤ p ≤ w → 0 ≤ mask w p a ∧ mask w p a + 2 ^ (w - p) - 1 ≤ 2 ^ w - 1.
Proof.
  intros Hp. unfold mask.
  assert (2 ^ w = 2 ^ p * 2 ^ (w - p)) as Hw by (rewrite <-Z.pow_add_r by lia; f_equal; lia).
  assert (0 < 2 ^ (w - p)) by (apply Z.pow_pos_nonneg; lia).
  assert (0 < 2 ^ w) by (apply Z.pow_pos_nonneg; lia).
  pose proof (Z.mod_pos_bound a (2 ^ w)) as Hm. specialize (Hm ltac:(lia)).
  set (m := a mod 2 ^ w) in *. set (q := 2 ^ (w - p)) in *.
  pose proof (Z.div_mod m q) as Hdiv. specialize (Hdiv ltac:(lia)).
  pose proof (Z.mod_pos_bound m q ltac:(lia)) as Hr.
  assert (0 ≤ m / q) by (apply Z.div_pos; lia).
  assert (m / q < 2 ^ p) by (apply Z.div_lt_upper_bound; lia).
  nia.
Qed.

Lemma clamp_range lo hi x : lo ≤ hi → lo ≤ clamp lo hi x ≤ hi.
Proof. unfold clamp. lia. Qed.

Lemma sample_ipnet_laws : IpNetLaws sample_ipnet.
Proof.
  split; simpl; intros n; unfold U32_MAX, U128_MAX;
    pose proof (clamp_range 0 32 n.2 ltac:(lia)) as Hc;
    pose proof (mask_bounds 32 (clamp 0 32 n.2) n.1 Hc);
    pose proof (clamp_range 0 128 n.2 ltac:(lia)) as Hd;
    pose proof (mask_bounds 128 (clamp 0 128 n.2) n.1 Hd);
    try (intros a; rewrite andb_true_iff, !Z.leb_le); try lia.
Qed.

(** Lower-casing that folds ASCII letters only. *)
Definition ascii_case : UnicodeCase := {|
  char_to_lowercase c := [ascii_lower c];
  str_to_lowercase := to_ascii_lowercase;
|}.

Lemma ascii_case_laws : UnicodeCaseLaws ascii_case.
Proof.
  split; [done|done|done|].
  intros c d Hd. apply list_elem_of_singleton in Hd as ->. unfold ascii_lower.
  destruct (_ && _) eqn:E; break_bool; lia.
Qed.

(** Foreign errors as numbers, [0] being the empty answer. *)
Definition sample_errors : ForeignErrors := {|
  NetError := nat; IoError := nat; RegexError := nat; JsonError := nat;
  is_no_records_found e := (e =? 0)%nat;
|}.

(** ** Targets: [model/target.rs] *)

Inductive Target `{IpNetLib} : Type :=
  | TIp (ip : IpAddr)
  | TCidr (net : IpNet)
  | TRange (start stop : IpAddr)
  | TDnsName (name : Str).
Arguments TIp {_}.
Arguments TCidr {_}.
Arguments TRange {_}.
Arguments TDnsName {_}.

#[global] Instance Target_eq_dec `{IpNetLib} : EqDecision Target.
Proof. solve_decision. Defined.

(** [impl Display for Target]. *)
Definition target_display `{IpNetLib} (t : Target) : Str :=
  match t with
  | TIp ip => ip_display ip
  | TCidr net => net_display net
  | TRange a b => ip_display a ++ s! "-" ++ ip_display b
  | TDnsName name => name
  end.

Record ResolvedTarget `{IpNetLib} : Type := mkResolvedTarget {
  rt_ip : IpAddr;
  rt_original : Target;
  rt_resolved_at : Z;
}.
Arguments mkResolvedTarget {_}.

(** Values of a target's addresses that the type system guarantees. *)
Definition target_wf `{IpNetLib} (t : Target) : Prop :=
  match t with
  | TIp ip => ip_wf ip
  | TRange a b => ip_wf a ∧ ip_wf b
  | _ => True
  end.

(** ** Errors: [error.rs] *)

Inductive ResolverError `{ForeignErrors} : Type :=
  | DnsLookupFailed (name : Str) (source : NetError)
  | DnsNoRecords (name : Str)
  | UnqueryableTargetName (name : Str)
  | CidrTooLarge (cidr : Str) (hosts limit : Z)
  | RangeTooLarge (start stop : Str) (hosts limit : Z)
  | InvalidRange (start stop : Str)
  | MixedFamilyRange (start stop : Str)
  | TargetNotAllowed (ip : IpAddr)
  | AggregateHostCapExceeded (hosts limit : Z).
Arguments DnsLookupFailed {_}.
Arguments DnsNoRecords {_}.
Arguments UnqueryableTargetName {_}.
Arguments CidrTooLarge {_}.
Arguments RangeTooLarge {_}.
Arguments InvalidRange {_}.
Arguments MixedFamilyRange {_}.
Arguments TargetNotAllowed {_}.
Arguments AggregateHostCapExceeded {_}.

Inductive ConfigError : Type :=
  | InvalidValue (msg : Str)
  | UnknownProbeKind (name available : Str)
  | ProbeKindNotCompiled (kind feature : Str)
  | ProbeKindMissingParam (kind param : Str)
  | EmptyProbeSelection
  | UnknownFuserKind (name available : Str)
  | FuserKindNotCompiled (kind feature : Str)
  | UnknownClassifierKind (name available : Str).

Inductive ProbeErrorKind : Type :=
  | AuthFailed | PermissionDenied | DnsFailed | DecodeFailed | OtherFault.

#[global] Instance ProbeErrorKind_eq_dec : EqDecision ProbeErrorKind.
Proof. solve_decision. Defined.
#[global] Instance ProbeErrorKind_countable : Countable ProbeErrorKind.
Proof.
  apply (inj_countable
    (λ k, match k with AuthFailed => 0%nat | PermissionDenied => 1%nat | DnsFailed => 2%nat
                     | DecodeFailed => 3%nat | OtherFault => 4%nat end)
    (λ n, match n with 0%nat => Some AuthFailed | 1%nat => Some PermissionDenied
                     | 2%nat => Some DnsFailed | 3%nat => Some DecodeFailed
                     | 4%nat => Some OtherFault | _ => None end)).
  by intros [].
Defined.

Inductive ClassifierError `{ForeignErrors} : Type :=
  | InvalidRegex (pattern : Str) (source : RegexError)
  | InvalidPlatformRule (msg : Str)
  | InvalidRoleRule (msg : Str).
Arguments InvalidRegex {_}.
Arguments InvalidPlatformRule {_}.
Arguments InvalidRoleRule {_}.

Inductive ResumeError `{ForeignErrors} : Type :=
  | IdentityFuserNotResumable
  | SecondStreamProberNotResumable (kind : Str)
  | SinkNotResumable (sink : Str)
  | FingerprintMismatch
  | NoCheckpointToResume (path : Str)
  | CorruptCheckpoint (path : Str)
  | UnknownVersion (found expected : Z)
  | CheckpointExists (path : Str)
  | Persist (path : Str) (source : IoError).
Arguments IdentityFuserNotResumable {_}.
Arguments SecondStreamProberNotResumable {_}.
Arguments SinkNotResumable {_}.
Arguments FingerprintMismatch {_}.
Arguments NoCheckpointToResume {_}.
Arguments CorruptCheckpoint {_}.
Arguments UnknownVersion {_}.
Arguments CheckpointExists {_}.
Arguments Persist {_}.

Inductive EncoderError `{ForeignErrors} : Type :=
  | SerializationFailed (source : JsonError)
  | NotSupported (msg : Str)
  | OtherEncoder (msg : Str).
Arguments SerializationFailed {_}.
Arguments NotSupported {_}.
Arguments OtherEncoder {_}.

Inductive RuntimeError : Type :=
  | TaskPanicked (reason : Str)
  | TaskAborted (reason : Str).

(** [sink/mod.rs]: the failure classes and the sink error tagged with one. *)
Inductive SinkErrorClass : Type :=
  | PublishFailure | AckRejection | ProduceFailure | WriteFailure | FlushFailure | OtherSink.

#[global] Instance SinkErrorClass_eq_dec : EqDecision SinkErrorClass.
Proof. solve_decision. Defined.

Record SinkError `{ForeignErrors} : Type := mkSinkError {
  se_class : SinkErrorClass;
  se_source : IoError;
}.
Arguments mkSinkError {_}.

Inductive RastreoError `{ForeignErrors} : Type :=
  | EConfig (e : ConfigError)
  | EProbe (msg : Str)
  | EResolver (e : ResolverError)
  | EEncoder (e : EncoderError)
  | ESink (e : SinkError)
  | ERuntime (e : RuntimeError)
  | EClassifier (e : ClassifierError)
  | EResume (e : ResumeError)
  | EReport (path : Str) (source : IoError).
Arguments EConfig {_}.
Arguments EProbe {_}.
Arguments EResolver {_}.
Arguments EEncoder {_}.
Arguments ESink {_}.
Arguments ERuntime {_}.
Arguments EClassifier {_}.
Arguments EResume {_}.
Arguments EReport {_}.

(** [RastreoError::sink_error_class]. *)
Definition sink_error_class `{ForeignErrors} (e : RastreoError) : option SinkErrorClass :=
  match e with ESink s => Some (se_class s) | _ => None end.

Example ip_display_examples :
  ip_display (V4 (10 * 2^24 + 50 * 2^16 + 11)) = s! "10.50.0.11" ∧
  ip_display (V6 (0x20010db8 * 2^96 + 1)) = s! "2001:db8::1" ∧
  ip_display (V6 0) = s! "::" ∧
  ip_display (V6 (0xffff * 2^32 + 0x01020304)) = s! "::ffff:1.2.3.4".
Proof. by vm_compute. Qed.

Example ip_from_str_examples :
  ip_from_str (s! "10.50.0.11") = Some (V4 (10 * 2^24 + 50 * 2^16 + 11)) ∧
  ip_from_str (s! "2001:db8::1") = Some (V6 (0x20010db8 * 2^96 + 1)) ∧
  ip_from_str (s! "::ffff:1.2.3.4") = Some (V6 (0xffff * 2^32 + 0x01020304)) ∧
  ip_from_str (s! "10.050.0.11") = None ∧
  ip_from_str (s! "switch-1") = None.
Proof. by vm_compute. Qed.
