(* ===== verification/Resolver.v ===== *)
(** * Target resolution: [src/rastreo-core/src/resolver/]

    Expansion of CIDR and range targets into contiguous address blocks, the
    plan a scan streams its targets from, the overlap sweep, the allow-list
    sweep and the guards of [guarded.rs], and the DNS name resolution of
    [HickoryResolver] over the lookups of a DNS library.

    A lazy iterator of targets is the list of what it yields.  [usize] is 64
    bits wide and arithmetic wraps, as in a release build. *)

From S2P Require Import Prelude Net.

Section Resolution.
Context `{IpNetLib, ForeignErrors}.

Definition DEFAULT_HOST_LIMIT : Z := 65536.
Definition SAMPLED_ADDRESSES : nat := 6.
Definition REPORTED_OVERLAPS : nat := 20.

Record ResolvedAddresses : Type := mkResolvedAddresses {
  ra_total : Z;
  ra_sample : list IpAddr;
}.

Inductive SpecContribution : Type :=
  | Addresses (a : ResolvedAddresses)
  | Unresolvable.

Inductive PlannedSpec : Type :=
  | Block (first last : IpAddr) (original : Target)
  | Resolved (ips : list IpAddr) (original : Target).

Record ResolvedPlan : Type := mkPlan {
  specs : list PlannedSpec;
  resolved_at : Z;
}.

Record AddressInterval : Type := mkInterval {
  iv_v6 : bool;
  iv_lo : Z;
  iv_hi : Z;
  iv_spec : nat;
}.

Record Overlaps : Type := mkOverlaps {
  ov_pairs : list (Target * Target);
  ov_more : bool;
}.

(** ** Blocks *)

Definition cidr_bounds (net : IpNet) : IpAddr * IpAddr * Z :=
  match net with
  | NetV4 n =>
      if v4_prefix_len n =? 32 then (V4 (v4_network n), V4 (v4_network n), 1)
      else if v4_prefix_len n =? 31 then
        let base := v4_network n in (V4 base, V4 (wrap 32 (base + 1)), 2)
      else
        let hosts := wrap 32 (v4_broadcast n - v4_network n - 1) in
        (V4 (wrap 32 (v4_network n + 1)), V4 (wrap 32 (v4_broadcast n - 1)), hosts)
  | NetV6 n =>
      let span := wrap 128 (v6_broadcast n - v6_network n) in
      (V6 (v6_network n), V6 (v6_broadcast n), saturating_add U128_MAX span 1)
  end.

Definition range_bounds (start stop : IpAddr) : Result RastreoError (IpAddr * IpAddr * Z) :=
  match start, stop with
  | V4 s, V4 e =>
      if e <? s then Err (EResolver (InvalidRange (ip_display start) (ip_display stop)))
      else Ok (start, stop, wrap 128 (e - s + 1))
  | V6 s, V6 e =>
      if e <? s then Err (EResolver (InvalidRange (ip_display start) (ip_display stop)))
      else Ok (start, stop, saturating_add U128_MAX (wrap 128 (e - s)) 1)
  | s, e => Err (EResolver (MixedFamilyRange (ip_display s) (ip_display e)))
  end.

Definition ensure_target_shape (target : Target) : Result RastreoError () :=
  match target with
  | TIp _ | TCidr _ | TDnsName _ => Ok tt
  | TRange start stop => (λ _, tt) <$> range_bounds start stop
  end.

Definition ip_to_bits (ip : IpAddr) : bool * Z :=
  match ip with V4 a => (false, a) | V6 a => (true, a) end.

Definition block_span (first last : IpAddr) : Z :=
  match first, last with
  | V4 a, V4 b => as_usize (wrap 128 (b - a + 1))
  | V6 a, V6 b => as_usize (wrap 128 (b - a + 1))
  | _, _ => 0
  end.

Definition block_addresses (first last : IpAddr) : list IpAddr :=
  match first, last with
  | V4 a, V4 b => V4 <$> seqZ a (b - a + 1)
  | V6 a, V6 b => V6 <$> seqZ a (b - a + 1)
  | _, _ => []
  end.

Definition block_stream (first last : IpAddr) (original : Target) (now : Z) : list ResolvedTarget :=
  (λ ip, mkResolvedTarget ip original now) <$> block_addresses first last.

(** ** The allow-list sweep *)

Definition start_le (a b : Z * Z) : Prop := a.1 ≤ b.1.
#[global] Instance start_le_dec : RelDecision start_le.
Proof. intros a b. unfold start_le. apply _. Defined.

Fixpoint sweep_uncovered (hi cursor : Z) (ivals : list (Z * Z)) : option Z :=
  match ivals with
  | [] => if cursor <=? hi then Some cursor else None
  | (start, stop) :: rest =>
      if cursor <? start then Some cursor
      else if cursor <=? stop then
        if hi <=? stop then None else sweep_uncovered hi (stop + 1) rest
      else sweep_uncovered hi cursor rest
  end.

Definition uncovered_point (lo hi : Z) (ivals : list (Z * Z)) : option Z :=
  sweep_uncovered hi lo (merge_sort start_le ivals).

Definition v4_interval (net : IpNet) : option (Z * Z) :=
  match net with NetV4 n => Some (v4_network n, v4_broadcast n) | NetV6 _ => None end.
Definition v6_interval (net : IpNet) : option (Z * Z) :=
  match net with NetV6 n => Some (v6_network n, v6_broadcast n) | NetV4 _ => None end.

Definition first_uncovered_ip (first last : IpAddr) (allowlist : list IpNet) : option IpAddr :=
  match first, last with
  | V4 a, V4 b => (λ bits, V4 (wrap 32 bits)) <$> uncovered_point a b (omap v4_interval allowlist)
  | V6 a, V6 b => V6 <$> uncovered_point a b (omap v6_interval allowlist)
  | _, _ => Some first
  end.

(** ** One planned spec: [impl PlannedSpec] *)

Definition spec_hosts (s : PlannedSpec) : Z :=
  match s with
  | Block first last _ => block_span first last
  | Resolved ips _ => Z.of_nat (length ips)
  end.

Definition spec_original (s : PlannedSpec) : Target :=
  match s with Block _ _ original => original | Resolved _ original => original end.

Definition spec_is_unresolvable (s : PlannedSpec) : bool := spec_hosts s =? 0.

Definition spec_sample (s : PlannedSpec) : SpecContribution :=
  if spec_is_unresolvable s then Unresolvable
  else match s with
  | Block first last _ =>
      Addresses (mkResolvedAddresses (block_span first last)
                   (take SAMPLED_ADDRESSES (block_addresses first last)))
  | Resolved ips _ =>
      Addresses (mkResolvedAddresses (Z.of_nat (length ips)) (take SAMPLED_ADDRESSES ips))
  end.

Definition push_intervals (s : PlannedSpec) (spec : nat) (out : list AddressInterval)
    : list AddressInterval :=
  match s with
  | Block first last _ =>
      let '(v6, lo) := ip_to_bits first in
      let '(_, hi) := ip_to_bits last in
      out ++ [mkInterval v6 lo hi spec]
  | Resolved ips _ =>
      out ++ ((λ ip, let '(v6, bits) := ip_to_bits ip in mkInterval v6 bits bits spec) <$> ips)
  end.

(** The loop over resolved addresses stops at the first one no network holds. *)
Definition first_unlisted (allowlist : list IpNet) (ips : list IpAddr) : option IpAddr :=
  find_map (λ ip, if existsb (λ net, net_contains net ip) allowlist then None else Some ip) ips.

Definition spec_check_allowed (s : PlannedSpec) (allowlist : list IpNet) : Result RastreoError () :=
  let refused :=
    match s with
    | Block first last _ => first_uncovered_ip first last allowlist
    | Resolved ips _ => first_unlisted allowlist ips
    end in
  match refused with
  | Some ip => Err (EResolver (TargetNotAllowed ip))
  | None => Ok tt
  end.

Definition spec_into_stream (s : PlannedSpec) (now : Z) : list ResolvedTarget :=
  match s with
  | Block first last original => block_stream first last original now
  | Resolved ips original => (λ ip, mkResolvedTarget ip original now) <$> ips
  end.

(** ** The plan: [impl ResolvedPlan] *)

Definition total_hosts (p : ResolvedPlan) : Z :=
  foldl (λ sum s, saturating_add USIZE_MAX sum (spec_hosts s)) 0 (specs p).

Definition per_target_samples (p : ResolvedPlan) : list (Target * SpecContribution) :=
  (λ s, (spec_original s, spec_sample s)) <$> specs p.

Definition unresolvable_targets (p : ResolvedPlan) : list Target :=
  spec_original <$> List.filter spec_is_unresolvable (specs p).

Definition dns_pin (s : PlannedSpec) : option (Target * list IpAddr) :=
  match s with
  | Resolved ips (TDnsName name) => Some (TDnsName name, ips)
  | _ => None
  end.

Definition dns_pins (p : ResolvedPlan) : list (Target * list IpAddr) := omap dns_pin (specs p).

Definition into_stream (p : ResolvedPlan) : list ResolvedTarget :=
  mjoin ((λ s, spec_into_stream s (resolved_at p)) <$> specs p).

Fixpoint specs_check_allowed (ss : list PlannedSpec) (allowlist : list IpNet)
    : Result RastreoError () :=
  match ss with
  | [] => Ok tt
  | s :: rest => spec_check_allowed s allowlist ≫= λ _, specs_check_allowed rest allowlist
  end.

Definition plan_check_allowed (p : ResolvedPlan) (allowlist : list IpNet) : Result RastreoError () :=
  specs_check_allowed (specs p) allowlist.

(** [from_pinned]: the loop over the targets, consuming the pins in order. *)
Fixpoint pinned_specs (targets : list Target) (pins : list (Target * list IpAddr))
    : Result RastreoError (list PlannedSpec) :=
  match targets with
  | [] => Ok []
  | target :: rest =>
      match target with
      | TIp ip =>
          ss ← pinned_specs rest pins; mret (Block ip ip target :: ss)
      | TCidr net =>
          let '(first, last, _) := cidr_bounds net in
          ss ← pinned_specs rest pins; mret (Block first last target :: ss)
      | TRange start stop =>
          '(first, last, _) ← range_bounds start stop;
          ss ← pinned_specs rest pins; mret (Block first last target :: ss)
      | TDnsName _ =>
          match pins with
          | [] => Err (EResume FingerprintMismatch)
          | (pinned_target, ips) :: pins' =>
              if bool_decide (pinned_target ≠ target) then Err (EResume FingerprintMismatch)
              else ss ← pinned_specs rest pins'; mret (Resolved ips target :: ss)
          end
      end
  end.

Definition from_pinned (now : Z) (targets : list Target) (pins : list (Target * list IpAddr))
    : Result RastreoError ResolvedPlan :=
  ss ← pinned_specs targets pins; mret (mkPlan ss now).

(** *** The overlap sweep *)

(** The derived order on intervals: family, then bounds, then spec. *)
Definition interval_le (a b : AddressInterval) : Prop :=
  (negb (iv_v6 a) && iv_v6 b = true) ∨
  (iv_v6 a = iv_v6 b ∧
   (iv_lo a < iv_lo b ∨
    (iv_lo a = iv_lo b ∧
     (iv_hi a < iv_hi b ∨ (iv_hi a = iv_hi b ∧ (iv_spec a ≤ iv_spec b)%nat))))).
#[global] Instance interval_le_dec : RelDecision interval_le.
Proof. intros a b. unfold interval_le. apply _. Defined.

#[global] Instance AddressInterval_eq_dec : EqDecision AddressInterval.
Proof. solve_decision. Defined.

Fixpoint collect_intervals (ss : list PlannedSpec) (spec : nat) (out : list AddressInterval)
    : list AddressInterval :=
  match ss with
  | [] => out
  | s :: rest => collect_intervals rest (S spec) (push_intervals s spec out)
  end.

Definition sweep_intervals (p : ResolvedPlan) : list AddressInterval :=
  vec_dedup (merge_sort interval_le (collect_intervals (specs p) 0 [])).

(** One interval against the open ones; [true] when the report is full. *)
Fixpoint pair_with (iv : AddressInterval) (active : list AddressInterval)
    (found : list (nat * nat)) : list (nat * nat) * bool :=
  match active with
  | [] => (found, false)
  | open :: rest =>
      if (iv_spec open =? iv_spec iv)%nat then pair_with iv rest found
      else
        let pair := ((iv_spec open `min` iv_spec iv)%nat, (iv_spec open `max` iv_spec iv)%nat) in
        if bool_decide (pair ∈ found) then pair_with iv rest found
        else if (REPORTED_OVERLAPS <=? length found)%nat then (found, true)
        else pair_with iv rest (found ++ [pair])
  end.

Definition still_open (iv open : AddressInterval) : bool :=
  Bool.eqb (iv_v6 open) (iv_v6 iv) && (iv_lo iv <=? iv_hi open).

(** [active] holds the intervals its indices name in the code. *)
Fixpoint sweep (ivs active : list AddressInterval) (found : list (nat * nat))
    : list (nat * nat) * bool :=
  match ivs with
  | [] => (found, false)
  | iv :: rest =>
      let active' := List.filter (still_open iv) active in
      let '(found', more) := pair_with iv active' found in
      if more then (found', true) else sweep rest (active' ++ [iv]) found'
  end.

Definition pair_le (a b : nat * nat) : Prop :=
  (a.1 < b.1)%nat ∨ (a.1 = b.1 ∧ (a.2 ≤ b.2)%nat).
#[global] Instance pair_le_dec : RelDecision pair_le.
Proof. intros a b. unfold pair_le. apply _. Defined.

Definition originals_at (p : ResolvedPlan) (ab : nat * nat) : option (Target * Target) :=
  a ← specs p !! ab.1; b ← specs p !! ab.2; Some (spec_original a, spec_original b).

Definition find_overlaps (p : ResolvedPlan) : Overlaps :=
  let '(found, more) := sweep (sweep_intervals p) [] [] in
  mkOverlaps (omap (originals_at p) (merge_sort pair_le found)) more.

(** ** The resolver interface: [trait Resolver] *)

(** [resolve now target] and [plan now targets], with the clock reading a call
    takes. *)
Record ResolverOps : Type := mkResolver {
  op_resolve : Z → Target → Result RastreoError (list ResolvedTarget);
  op_plan : Z → list Target → Result RastreoError ResolvedPlan;
}.

(** The trait's default [plan]: every target resolved eagerly. *)
Definition default_plan (resolve : Z → Target → Result RastreoError (list ResolvedTarget))
    (now : Z) (targets : list Target) : Result RastreoError ResolvedPlan :=
  ss ← mapM (λ target,
    rts ← resolve now target; mret (Resolved (rt_ip <$> rts) target)) targets;
  mret (mkPlan ss now).

Definition resolve_stream (r : ResolverOps) (now : Z) (targets : list Target)
    : Result RastreoError (list ResolvedTarget) :=
  p ← op_plan r now targets; mret (into_stream p).

Definition resolve_many (r : ResolverOps) (now : Z) (targets : list Target)
    : Result RastreoError (list ResolvedTarget) :=
  resolve_stream r now targets.

(** ** The guards: [guarded.rs] *)

Record GuardedResolver : Type := mkGuarded {
  g_inner : ResolverOps;
  g_allowlist : option (list IpNet);
  g_max_total_hosts : option Z;
}.

Definition guard_check_allowed (g : GuardedResolver) (ip : IpAddr) : Result RastreoError () :=
  match g_allowlist g with
  | Some nets =>
      if existsb (λ net, net_contains net ip) nets then Ok tt
      else Err (EResolver (TargetNotAllowed ip))
  | None => Ok tt
  end.

Definition check_cap (g : GuardedResolver) (hosts : Z) : Result RastreoError () :=
  match g_max_total_hosts g with
  | Some limit =>
      if limit <? hosts then Err (EResolver (AggregateHostCapExceeded hosts limit)) else Ok tt
  | None => Ok tt
  end.

Definition guarded_resolve (g : GuardedResolver) (now : Z) (target : Target)
    : Result RastreoError (list ResolvedTarget) :=
  resolved ← op_resolve (g_inner g) now target;
  _ ← mapM (λ rt, guard_check_allowed g (rt_ip rt)) resolved;
  _ ← check_cap g (Z.of_nat (length resolved));
  mret resolved.

Definition guarded_plan (g : GuardedResolver) (now : Z) (targets : list Target)
    : Result RastreoError ResolvedPlan :=
  p ← op_plan (g_inner g) now targets;
  _ ← match g_allowlist g with Some nets => plan_check_allowed p nets | None => Ok tt end;
  _ ← check_cap g (total_hosts p);
  mret p.

Definition guarded (g : GuardedResolver) : ResolverOps :=
  mkResolver (guarded_resolve g) (guarded_plan g).

(** ** The rehearsal: [ScenarioResolution] *)

Record ScenarioResolution : Type := mkScenarioResolution {
  sr_entries : list (Target * Result RastreoError SpecContribution);
  sr_plan : Result RastreoError ResolvedPlan;
  sr_resume_base : Z;
}.

Definition scenario_total_hosts (s : ScenarioResolution) : Z :=
  match sr_plan s with
  | Ok p => saturating_sub (total_hosts p) (sr_resume_base s)
  | Err _ => 0
  end.

Definition refusal (s : ScenarioResolution) : option RastreoError := result_err (sr_plan s).

Definition contribution_is_unresolvable (e : Target * Result RastreoError SpecContribution) : bool :=
  match e.2 with Ok Unresolvable => true | _ => false end.

Definition scenario_unresolvable_targets (s : ScenarioResolution) : list Target :=
  fst <$> List.filter contribution_is_unresolvable (sr_entries s).

Definition attribute (p : ResolvedPlan) : list (Target * Result RastreoError SpecContribution) :=
  (λ '(target, sample), (target, Ok sample)) <$> per_target_samples p.

Definition resolve_scenario (r : ResolverOps) (now : Z) (targets : list Target)
    : ScenarioResolution :=
  match op_plan r now targets with
  | Ok p => mkScenarioResolution (attribute p) (Ok p) 0
  | Err refusal =>
      mkScenarioResolution
        ((λ target,
            (target,
             (λ planned, match head (per_target_samples planned) with
                         | Some (_, sample) => sample
                         | None => Unresolvable
                         end) <$> op_plan r now [target])) <$> targets)
        (Err refusal) 0
  end.

Definition resolve_pinned_scenario (now : Z) (targets : list Target)
    (pins : list (Target * list IpAddr)) (resume_base : Z)
    : Result RastreoError ScenarioResolution :=
  p ← from_pinned now targets pins;
  mret (mkScenarioResolution (attribute p) (Ok p) resume_base).

(** ** Names: [classify.rs] and the DNS half of [HickoryResolver] *)

Definition answered_with_no_addresses (err : ResolverError) : bool :=
  match err with
  | DnsLookupFailed _ source => is_no_records_found source
  | DnsNoRecords _ => true
  | UnqueryableTargetName _ | CidrTooLarge _ _ _ | RangeTooLarge _ _ _ _
  | InvalidRange _ _ | MixedFamilyRange _ _ | TargetNotAllowed _
  | AggregateHostCapExceeded _ _ => false
  end.

Definition skips_only_this_target (err : ResolverError) : bool :=
  match err with
  | DnsLookupFailed _ _ | DnsNoRecords _ => answered_with_no_addresses err
  | UnqueryableTargetName _ => true
  | CidrTooLarge _ _ _ | RangeTooLarge _ _ _ _ | InvalidRange _ _
  | MixedFamilyRange _ _ | TargetNotAllowed _ | AggregateHostCapExceeded _ _ => false
  end.

(** [Vec::swap]. *)
Definition swap {A} (l : list A) (i j : nat) : list A :=
  match l !! i, l !! j with
  | Some x, Some y => <[i := y]> (<[j := x]> l)
  | _, _ => l
  end.

Definition each_address_once_step (st : list IpAddr * nat) (index : nat) : list IpAddr * nat :=
  let '(ips, kept) := st in
  match ips !! index with
  | Some ip => if bool_decide (ip ∈ take kept ips) then (ips, kept) else (swap ips kept index, S kept)
  | None => (ips, kept)
  end.

Definition each_address_once (ips : list IpAddr) : list IpAddr :=
  let '(ips', kept) := foldl each_address_once_step (ips, 0%nat) (seq 0 (length ips)) in
  take kept ips'.

Definition merge_family_lookups (v6 v4 : Result ResolverError (list IpAddr))
    : Result ResolverError (list IpAddr) :=
  match v6, v4 with
  | Ok sixes, Ok fours => Ok (each_address_once (sixes ++ fours))
  | Ok ips, Err _ | Err _, Ok ips => Ok (each_address_once ips)
  | Err e6, Err e4 => Err (if answered_with_no_addresses e6 then e4 else e6)
  end.

Definition dns_spec (target : Target) (looked_up : Result ResolverError (list IpAddr))
    : Result ResolverError PlannedSpec :=
  match looked_up with
  | Ok ips => Ok (Resolved ips target)
  | Err err => if skips_only_this_target err then Ok (Resolved [] target) else Err err
  end.

Definition addresses_or_no_records (name : Str) (ips : list IpAddr)
    : Result ResolverError (list IpAddr) :=
  if is_empty ips then Err (DnsNoRecords name) else Ok ips.

(** The DNS library: names it accepts, and per family a lookup by the written
    string or by a parsed name. *)
Record DnsLib : Type := mkDnsLib {
  DnsName : Type;
  from_str_relaxed : Str → option DnsName;
  lookup_ip_v6 : Str + DnsName → Result NetError (list IpAddr);
  lookup_ip_v4 : Str + DnsName → Result NetError (list IpAddr);
}.

Inductive QueriedName (D : DnsLib) : Type :=
  | AddressLiteral
  | Name (parsed : DnsName D).
Arguments AddressLiteral {D}.
Arguments Name {D} parsed.

Definition queried_name (D : DnsLib) (written : Str) : Result ResolverError (QueriedName D) :=
  match ip_from_str written with
  | Some _ => Ok AddressLiteral
  | None =>
      match from_str_relaxed D written with
      | Some n => Ok (Name n)
      | None => Err (UnqueryableTargetName written)
      end
  end.

Definition lookup_one_family {D : DnsLib} (lookup_ip : Str + DnsName D → Result NetError (list IpAddr))
    (name : Str) (queried : QueriedName D) : Result ResolverError (list IpAddr) :=
  ips ← map_err (DnsLookupFailed name)
          match queried with
          | AddressLiteral => lookup_ip (inl name)
          | Name parsed => lookup_ip (inr parsed)
          end;
  addresses_or_no_records name ips.

Record HickoryResolver : Type := mkHickory {
  h_dns : DnsLib;
  h_host_limit : Z;
}.

Definition lookup_dns (h : HickoryResolver) (name : Str) : Result ResolverError (list IpAddr) :=
  queried ← queried_name (h_dns h) name;
  merge_family_lookups (lookup_one_family (lookup_ip_v6 (h_dns h)) name queried)
                       (lookup_one_family (lookup_ip_v4 (h_dns h)) name queried).

Definition plan_cidr (h : HickoryResolver) (net : IpNet) (original : Target)
    : Result RastreoError PlannedSpec :=
  let '(first, last, hosts) := cidr_bounds net in
  if h_host_limit h <? hosts
  then Err (EResolver (CidrTooLarge (net_display net) hosts (h_host_limit h)))
  else Ok (Block first last original).

Definition plan_range (h : HickoryResolver) (start stop : IpAddr) (original : Target)
    : Result RastreoError PlannedSpec :=
  '(first, last, hosts) ← range_bounds start stop;
  if h_host_limit h <? hosts
  then Err (EResolver (RangeTooLarge (ip_display start) (ip_display stop) hosts (h_host_limit h)))
  else Ok (Block first last original).

Definition plan_target (h : HickoryResolver) (target : Target) : Result RastreoError PlannedSpec :=
  match target with
  | TIp ip => Ok (Block ip ip target)
  | TCidr net => plan_cidr h net target
  | TRange start stop => plan_range h start stop target
  | TDnsName name => map_err EResolver (dns_spec target (lookup_dns h name))
  end.

Definition hickory_plan (h : HickoryResolver) (now : Z) (targets : list Target)
    : Result RastreoError ResolvedPlan :=
  ss ← mapM (plan_target h) targets; mret (mkPlan ss now).

Definition hickory_resolve (h : HickoryResolver) (now : Z) (target : Target)
    : Result RastreoError (list ResolvedTarget) :=
  p ← hickory_plan h now [target]; mret (into_stream p).

Definition hickory (h : HickoryResolver) : ResolverOps :=
  mkResolver (hickory_resolve h) (hickory_plan h).

End Resolution.
