(* ===== verification/ResolverFacts.v ===== *)
(** * What resolution promises

    Facts about [Resolver]: the blocks a target expands to, the counts a plan
    reports, the allow-list sweep, the guards and the replay of DNS pins. *)

From S2P Require Import Prelude Net Resolver.

Section Facts.
Context `{!IpNetLib, !ForeignErrors}.

(** ** The allow-list sweep finds the least uncovered point *)

Definition covered (ivals : list (Z * Z)) (x : Z) : Prop :=
  ∃ s e, (s, e) ∈ ivals ∧ s ≤ x ≤ e.

(** [c] is the least point of [[lo, hi]] outside the union, if there is one. *)
Definition least_uncovered (lo hi : Z) (ivals : list (Z * Z)) (r : option Z) : Prop :=
  match r with
  | Some c => lo ≤ c ≤ hi ∧ ¬ covered ivals c ∧ ∀ x, lo ≤ x < c → covered ivals x
  | None => ∀ x, lo ≤ x ≤ hi → covered ivals x
  end.

Lemma covered_cons s e ivals x : covered ((s, e) :: ivals) x ↔ s ≤ x ≤ e ∨ covered ivals x.
Proof. unfold covered. set_unfold. naive_solver. Qed.

Lemma covered_perm l l' x : l ≡ₚ l' → covered l x ↔ covered l' x.
Proof. intros Hp. unfold covered. by setoid_rewrite Hp. Qed.

Lemma least_uncovered_perm lo hi l l' r :
  l ≡ₚ l' → least_uncovered lo hi l r → least_uncovered lo hi l' r.
Proof.
  intros Hp. destruct r; simpl; setoid_rewrite (covered_perm l l' _ Hp); naive_solver.
Qed.

Lemma least_uncovered_unique lo hi l r r' :
  least_uncovered lo hi l r → least_uncovered lo hi l r' → r = r'.
Proof.
  destruct r as [c|], r' as [c'|]; simpl; [| | |done].
  - intros (? & Hc & Hlt) (? & Hc' & Hlt'). f_equal.
    destruct (Z.lt_trichotomy c c') as [Hl|[?|Hl]]; [|done|].
    + destruct Hc. apply Hlt'. lia.
    + destruct Hc'. apply Hlt. lia.
  - intros (? & Hc & _) Hall. destruct Hc. apply Hall. lia.
  - intros Hall (? & Hc & _). destruct Hc. apply Hall. lia.
Qed.

Lemma sweep_uncovered_spec hi ivals cursor :
  StronglySorted start_le ivals → cursor ≤ hi →
  least_uncovered cursor hi ivals (sweep_uncovered hi cursor ivals).
Proof.
  intros Hs. revert cursor.
  induction Hs as [|[s e] ivals Hs IH Hfa]; intros cursor Hle; simpl.
  - destruct (cursor <=? hi) eqn:E; break_bool; [|lia]. simpl. split_and!; try lia.
    + by intros (? & ? & ?%not_elem_of_nil & _).
  - assert (∀ x, covered ivals x → s ≤ x) as Hstart.
    { intros x (s' & e' & Hin & ?). rewrite Forall_forall in Hfa.
      specialize (Hfa _ Hin). unfold start_le in Hfa. simpl in Hfa. lia. }
    destruct (cursor <? s) eqn:E1; break_bool.
    { simpl. split_and!; [lia|lia| |lia].
      rewrite covered_cons. intros [?|Hc%Hstart]; lia. }
    destruct (cursor <=? e) eqn:E2; break_bool.
    + destruct (hi <=? e) eqn:E3; break_bool.
      { simpl. intros x ?. rewrite covered_cons. left. lia. }
      specialize (IH (e + 1) ltac:(lia)).
      destruct (sweep_uncovered hi (e + 1) ivals) as [c|]; simpl in *.
      * destruct IH as (? & Hc & Hlt). split_and!; [lia|lia| |].
        { rewrite covered_cons. intros [?|?]; [lia|done]. }
        intros x ?. rewrite covered_cons.
        destruct (decide (x ≤ e)); [left; lia|right; apply Hlt; lia].
      * intros x ?. rewrite covered_cons.
        destruct (decide (x ≤ e)); [left; lia|right; apply IH; lia].
    + specialize (IH cursor Hle).
      destruct (sweep_uncovered hi cursor ivals) as [c|]; simpl in *.
      * destruct IH as (? & Hc & Hlt). split_and!; [lia|lia| |].
        { rewrite covered_cons. intros [?|?]; [lia|done]. }
        intros x ?. rewrite covered_cons. right. apply Hlt. lia.
      * intros x ?. rewrite covered_cons. right. by apply IH.
Qed.

#[global] Instance start_le_total : Total start_le.
Proof. intros a b. unfold start_le. lia. Qed.
#[global] Instance start_le_trans : Transitive start_le.
Proof. intros a b c. unfold start_le. lia. Qed.

Lemma uncovered_point_spec lo hi ivals :
  lo ≤ hi → least_uncovered lo hi ivals (uncovered_point lo hi ivals).
Proof.
  intros Hle. unfold uncovered_point.
  eapply least_uncovered_perm; [apply (merge_sort_Permutation start_le)|].
  apply sweep_uncovered_spec; [|done]. apply (StronglySorted_merge_sort start_le).
Qed.

(** ** Blocks *)

(** What planning establishes of a block: one family, endpoints in order and
    inside the address space. *)
Definition block_wf (first last : IpAddr) : Prop :=
  match first, last with
  | V4 a, V4 b => 0 ≤ a ∧ a ≤ b ∧ b ≤ U32_MAX
  | V6 a, V6 b => 0 ≤ a ∧ a ≤ b ∧ b ≤ U128_MAX
  | _, _ => False
  end.

Definition spec_wf (s : PlannedSpec) : Prop :=
  match s with Block first last _ => block_wf first last | Resolved _ _ => True end.

(** The addresses a spec streams. *)
Definition spec_ips (s : PlannedSpec) : list IpAddr :=
  match s with Block first last _ => block_addresses first last | Resolved ips _ => ips end.

Lemma spec_into_stream_ips s now : rt_ip <$> spec_into_stream s now = spec_ips s.
Proof.
  assert (∀ t (ips : list IpAddr), rt_ip <$> ((λ ip, mkResolvedTarget ip t now) <$> ips) = ips) as Hid.
  { intros t ips. rewrite <-list_fmap_compose. apply list_fmap_id. }
  destruct s; apply Hid.
Qed.

Lemma spec_into_stream_length s now : length (spec_into_stream s now) = length (spec_ips s).
Proof. by rewrite <-(spec_into_stream_ips s now), length_fmap. Qed.

Lemma elem_of_block first last ip :
  block_wf first last →
  ip ∈ block_addresses first last ↔
  match first, last, ip with
  | V4 a, V4 b, V4 x | V6 a, V6 b, V6 x => a ≤ x ≤ b
  | _, _, _ => False
  end.
Proof.
  destruct first, last; simpl; try done; intros Hwf; rewrite list_elem_of_fmap;
    setoid_rewrite elem_of_seqZ; destruct ip; naive_solver lia.
Qed.

Lemma block_length first last :
  block_wf first last →
  Z.of_nat (length (block_addresses first last)) =
  match first, last with V4 a, V4 b | V6 a, V6 b => b - a + 1 | _, _ => 0 end.
Proof.
  destruct first, last; simpl; try done; intros; rewrite length_fmap, length_seqZ; lia.
Qed.

Lemma block_span_exact first last :
  block_wf first last → Z.of_nat (length (block_addresses first last)) ≤ USIZE_MAX →
  block_span first last = Z.of_nat (length (block_addresses first last)).
Proof.
  intros Hwf Hle. rewrite (block_length _ _ Hwf) in *. unfold block_span, USIZE_MAX, U64_MAX in *.
  destruct first, last; simpl in *; try done;
    rewrite (wrap_small 128) by lia; apply as_usize_small; unfold USIZE_MAX, U64_MAX; lia.
Qed.

Section Nets.
Context `{!IpNetLaws _}.

(** The count [cidr_bounds] reports is the length of the block it returns,
    saturated at [u128::MAX]. *)
Lemma cidr_bounds_spec net first last hosts :
  cidr_bounds net = (first, last, hosts) →
  block_wf first last ∧
  hosts = Z.min U128_MAX (Z.of_nat (length (block_addresses first last))).
Proof.
  destruct net as [n|n]; simpl.
  - pose proof (v4_prefix_range n) as Hp. pose proof (v4_network_range n) as Hn.
    pose proof (v4_broadcast_range n) as Hb. pose proof (v4_broadcast_eq n) as He.
    unfold U32_MAX in Hb.
    repeat case_match; break_bool; intros [= <- <- <-].
    + replace (v4_prefix_len n) with 32 in He by lia.
      rewrite block_length; simpl; unfold U32_MAX, U128_MAX; lia.
    + replace (v4_prefix_len n) with 31 in He by lia.
      rewrite (wrap_small 32) by lia.
      rewrite block_length; simpl; unfold U32_MAX, U128_MAX; lia.
    + assert (2 ^ 2 ≤ 2 ^ (32 - v4_prefix_len n)) by (apply Z.pow_le_mono_r; lia).
      rewrite !(wrap_small 32) by lia.
      rewrite block_length; simpl; unfold U32_MAX, U128_MAX; lia.
  - pose proof (v6_network_range n) as Hn. pose proof (v6_broadcast_range n) as Hb.
    pose proof (v6_network_le n) as Hle. unfold U128_MAX in Hb.
    intros [= <- <- <-]. rewrite (wrap_small 128) by lia.
    rewrite block_length; simpl; unfold saturating_add, U128_MAX; lia.
Qed.

Lemma range_bounds_spec start stop first last hosts :
  ip_wf start → ip_wf stop → range_bounds start stop = Ok (first, last, hosts) →
  first = start ∧ last = stop ∧ block_wf first last ∧
  hosts = Z.min U128_MAX (Z.of_nat (length (block_addresses first last))).
Proof.
  intros Hs He. destruct start as [s|s], stop as [e|e]; simpl in *; try done;
    case_match; break_bool; [done| |done|];
    intros [= <- <- <-]; unfold U32_MAX, U128_MAX in *;
    rewrite (wrap_small 128) by lia; rewrite block_length;
    unfold saturating_add; simpl; unfold U32_MAX, U128_MAX; split_and!; try done; lia.
Qed.

(** *** What a target denotes *)

Definition denotes (t : Target) (ip : IpAddr) : Prop :=
  match t, ip with
  | TIp a, _ => ip = a
  | TCidr (NetV4 n), V4 b =>
      if 31 <=? v4_prefix_len n then v4_network n ≤ b ≤ v4_broadcast n
      else v4_network n < b < v4_broadcast n
  | TCidr (NetV6 n), V6 b => v6_network n ≤ b ≤ v6_broadcast n
  | TRange (V4 s) (V4 e), V4 b => s ≤ b ≤ e
  | TRange (V6 s) (V6 e), V6 b => s ≤ b ≤ e
  | _, _ => False
  end.

Lemma cidr_block_denotes net first last hosts ip :
  cidr_bounds net = (first, last, hosts) →
  ip ∈ block_addresses first last ↔ denotes (TCidr net) ip.
Proof.
  intros Hc. destruct (cidr_bounds_spec _ _ _ _ Hc) as [Hwf _].
  rewrite (elem_of_block _ _ _ Hwf). destruct net as [n|n]; simpl in Hc.
  - pose proof (v4_prefix_range n) as Hp. pose proof (v4_network_range n) as Hn.
    pose proof (v4_broadcast_range n) as Hb. pose proof (v4_broadcast_eq n) as He.
    unfold U32_MAX in Hb. simpl.
    destruct (v4_prefix_len n =? 32) eqn:E32; [|destruct (v4_prefix_len n =? 31) eqn:E31];
      break_bool; injection Hc as <- <- <-; destruct ip; try done;
      destruct (31 <=? v4_prefix_len n) eqn:E; break_bool; try lia.
    + replace (v4_prefix_len n) with 32 in He by lia. lia.
    + replace (v4_prefix_len n) with 31 in He by lia. rewrite (wrap_small 32) by lia. lia.
    + assert (2 ^ 2 ≤ 2 ^ (32 - v4_prefix_len n)) by (apply Z.pow_le_mono_r; lia).
      rewrite !(wrap_small 32) by lia. lia.
  - injection Hc as <- <- <-. destruct ip; simpl; done.
Qed.

(** ** Covered blocks *)

Lemma covered_v4 nets x :
  covered (omap v4_interval nets) x ↔ existsb (λ net, net_contains net (V4 x)) nets = true.
Proof.
  unfold covered. rewrite existsb_exists. setoid_rewrite list_elem_of_omap.
  setoid_rewrite <-list_elem_of_In. split.
  - intros (s & e & ([n|n] & Hin & [= <- <-]) & ?). exists (NetV4 n). split; [done|].
    simpl. by apply v4_contains_iff.
  - intros ([n|n] & Hin & Hc); simpl in Hc; [|done]. apply v4_contains_iff in Hc.
    exists (v4_network n), (v4_broadcast n). split; [|done]. by exists (NetV4 n).
Qed.

Lemma covered_v6 nets x :
  covered (omap v6_interval nets) x ↔ existsb (λ net, net_contains net (V6 x)) nets = true.
Proof.
  unfold covered. rewrite existsb_exists. setoid_rewrite list_elem_of_omap.
  setoid_rewrite <-list_elem_of_In. split.
  - intros (s & e & ([n|n] & Hin & [= <- <-]) & ?). exists (NetV6 n). split; [done|].
    simpl. by apply v6_contains_iff.
  - intros ([n|n] & Hin & Hc); simpl in Hc; [done|]. apply v6_contains_iff in Hc.
    exists (v6_network n), (v6_broadcast n). split; [|done]. by exists (NetV6 n).
Qed.

Definition allowed (nets : list IpNet) (ip : IpAddr) : Prop :=
  ∃ net, net ∈ nets ∧ net_contains net ip = true.

Lemma allowed_existsb nets ip :
  allowed nets ip ↔ existsb (λ net, net_contains net ip) nets = true.
Proof. unfold allowed. rewrite existsb_exists. by setoid_rewrite list_elem_of_In. Qed.

(** The first address of the block outside the allow-list, if any. *)
Lemma first_uncovered_ip_spec first last nets :
  block_wf first last →
  match first_uncovered_ip first last nets with
  | Some ip => ip ∈ block_addresses first last ∧ ¬ allowed nets ip
  | None => ∀ ip, ip ∈ block_addresses first last → allowed nets ip
  end.
Proof.
  intros Hwf. destruct first as [a|a], last as [b|b]; simpl in Hwf; try done.
  - pose proof (uncovered_point_spec a b (omap v4_interval nets) ltac:(lia)) as Hu.
    unfold first_uncovered_ip. unfold U32_MAX in Hwf.
    destruct (uncovered_point a b (omap v4_interval nets)) as [c|]; simpl in *.
    + destruct Hu as (? & Hc & _). rewrite (wrap_small 32) by lia.
      rewrite (elem_of_block (V4 a) (V4 b)) by (simpl; unfold U32_MAX; lia).
      split; [done|]. by rewrite allowed_existsb, <-covered_v4.
    + intros ip. rewrite (elem_of_block (V4 a) (V4 b)) by (simpl; unfold U32_MAX; lia).
      destruct ip; [|done]. intros. rewrite allowed_existsb, <-covered_v4. auto.
  - pose proof (uncovered_point_spec a b (omap v6_interval nets) ltac:(lia)) as Hu.
    unfold first_uncovered_ip. unfold U128_MAX in Hwf.
    destruct (uncovered_point a b (omap v6_interval nets)) as [c|]; simpl in *.
    + destruct Hu as (? & Hc & _).
      rewrite (elem_of_block (V6 a) (V6 b)) by (simpl; unfold U128_MAX; lia).
      split; [done|]. by rewrite allowed_existsb, <-covered_v6.
    + intros ip. rewrite (elem_of_block (V6 a) (V6 b)) by (simpl; unfold U128_MAX; lia).
      destruct ip; [done|]. intros. rewrite allowed_existsb, <-covered_v6. auto.
Qed.

Lemma first_unlisted_spec nets ips :
  match first_unlisted nets ips with
  | Some ip => ip ∈ ips ∧ ¬ allowed nets ip
  | None => ∀ ip, ip ∈ ips → allowed nets ip
  end.
Proof.
  unfold first_unlisted. destruct (find_map _ ips) as [ip|] eqn:E.
  - apply find_map_Some in E as (l1 & a & l2 & -> & _ & Ha).
    case_match eqn:Hx; [done|]. injection Ha as ->. split; [set_solver|].
    rewrite allowed_existsb, Hx. done.
  - apply find_map_None in E. rewrite Forall_forall in E. intros ip Hin.
    specialize (E _ Hin). simpl in E. case_match eqn:Hx; [|done]. by apply allowed_existsb.
Qed.

Lemma spec_check_allowed_spec s nets :
  spec_wf s →
  match spec_check_allowed s nets with
  | Ok _ => ∀ ip, ip ∈ spec_ips s → allowed nets ip
  | Err e => ∃ ip, e = EResolver (TargetNotAllowed ip) ∧ ip ∈ spec_ips s ∧ ¬ allowed nets ip
  end.
Proof.
  unfold spec_check_allowed. destruct s as [first last t|ips t]; simpl.
  - intros Hwf. pose proof (first_uncovered_ip_spec first last nets Hwf).
    destruct (first_uncovered_ip first last nets); naive_solver.
  - intros _. pose proof (first_unlisted_spec nets ips).
    destruct (first_unlisted nets ips); naive_solver.
Qed.

Lemma specs_check_allowed_spec ss nets :
  Forall spec_wf ss →
  match specs_check_allowed ss nets with
  | Ok _ => ∀ s ip, s ∈ ss → ip ∈ spec_ips s → allowed nets ip
  | Err e => ∃ s ip, s ∈ ss ∧ e = EResolver (TargetNotAllowed ip) ∧
                     ip ∈ spec_ips s ∧ ¬ allowed nets ip
  end.
Proof.
  induction 1 as [|s ss Hwf Hss IH]; simpl; [set_solver|].
  pose proof (spec_check_allowed_spec s nets Hwf) as Hs.
  destruct (spec_check_allowed s nets); simpl; [|set_solver].
  destruct (specs_check_allowed ss nets); set_solver.
Qed.

End Nets.

(** ** Counting *)

Definition host_sum (ss : list PlannedSpec) : Z := foldr Z.add 0 (spec_hosts <$> ss).

Lemma host_sum_cons s ss : host_sum (s :: ss) = spec_hosts s + host_sum ss.
Proof. done. Qed.

Lemma host_sum_nonneg ss : Forall (λ s, 0 ≤ spec_hosts s) ss → 0 ≤ host_sum ss.
Proof. induction 1; [done|]. rewrite host_sum_cons. lia. Qed.

Lemma total_hosts_sum_go ss acc :
  0 ≤ acc ≤ USIZE_MAX → Forall (λ s, 0 ≤ spec_hosts s) ss →
  foldl (λ sum s, saturating_add USIZE_MAX sum (spec_hosts s)) acc ss =
  Z.min USIZE_MAX (acc + host_sum ss).
Proof.
  intros Hacc Hss. revert acc Hacc.
  induction Hss as [|s ss Hs Hss IH]; intros acc Hacc; simpl; [unfold host_sum; simpl; lia|].
  unfold saturating_add at 2. rewrite IH by lia. rewrite host_sum_cons.
  pose proof (host_sum_nonneg ss Hss). lia.
Qed.

Lemma total_hosts_sum p :
  Forall (λ s, 0 ≤ spec_hosts s) (specs p) →
  total_hosts p = Z.min USIZE_MAX (host_sum (specs p)).
Proof.
  intros. unfold total_hosts. rewrite total_hosts_sum_go; [done| |done].
  unfold USIZE_MAX, U64_MAX. lia.
Qed.

Lemma into_stream_length p :
  Z.of_nat (length (into_stream p)) =
  foldr Z.add 0 ((λ s, Z.of_nat (length (spec_ips s))) <$> specs p).
Proof.
  unfold into_stream. induction (specs p) as [|s ss IH]; [done|].
  rewrite fmap_cons, mjoin_cons, length_app, spec_into_stream_length, Nat2Z.inj_add, IH. done.
Qed.

Lemma elem_of_into_stream p ip :
  ip ∈ rt_ip <$> into_stream p ↔ ∃ s, s ∈ specs p ∧ ip ∈ spec_ips s.
Proof.
  unfold into_stream. induction (specs p) as [|s ss IH]; [set_solver|].
  rewrite fmap_cons, mjoin_cons, fmap_app, elem_of_app, IH, spec_into_stream_ips. set_solver.
Qed.

(** ** The contract of a resolver *)

(** A count that does not lose hosts to truncation. *)
Definition spec_exact (s : PlannedSpec) : Prop :=
  spec_hosts s = Z.of_nat (length (spec_ips s)).

(** What the guards and the pipeline rely on of any resolver. *)
Class LawfulResolver (r : ResolverOps) : Prop := {
  lr_spec_wf now ts p :
    Forall target_wf ts → op_plan r now ts = Ok p → Forall spec_wf (specs p);
  lr_spec_exact now ts p :
    Forall target_wf ts → op_plan r now ts = Ok p → Forall spec_exact (specs p);
  lr_originals now ts p :
    op_plan r now ts = Ok p → spec_original <$> specs p = ts;
}.

Lemma exact_total_hosts p :
  Forall spec_exact (specs p) →
  total_hosts p = Z.min USIZE_MAX (Z.of_nat (length (into_stream p))).
Proof.
  intros Hex. rewrite total_hosts_sum.
  - rewrite into_stream_length. f_equal. unfold host_sum. f_equal.
    induction Hex as [|s ss Hs Hss IH]; [done|]. rewrite !fmap_cons. f_equal; done.
  - eapply Forall_impl; [exact Hex|]. intros s ->. lia.
Qed.

(** ** First-seen order without copies *)

Lemma dedup_snoc (l : list IpAddr) x : dedup (l ++ [x]) = push_new (dedup l) x.
Proof. unfold dedup. by rewrite foldl_app. Qed.

Lemma swap_take_drop (l : list IpAddr) (kept k : nat) ip :
  (kept ≤ k)%nat → l !! k = Some ip →
  take (S kept) (swap l kept k) = take kept l ++ [ip] ∧
  drop (S k) (swap l kept k) = drop (S k) l ∧
  length (swap l kept k) = length l.
Proof.
  intros Hle Hk. pose proof (lookup_lt_Some _ _ _ Hk) as Hlt. unfold swap.
  destruct (lookup_lt_is_Some_2 l kept ltac:(lia)) as [x Hx]. rewrite Hx, Hk.
  split_and!.
  - rewrite (take_S_r _ _ ip).
    + by rewrite !take_insert_ge by lia.
    + apply list_lookup_insert_eq. rewrite length_insert. lia.
  - by rewrite !drop_insert_lt by lia.
  - by rewrite !length_insert.
Qed.

(** The state of the in-place loop after [k] elements. *)
Definition once_inv (ips : list IpAddr) (k : nat) (st : list IpAddr * nat) : Prop :=
  length st.1 = length ips ∧ (st.2 ≤ k)%nat ∧
  take st.2 st.1 = dedup (take k ips) ∧ drop k st.1 = drop k ips.

Lemma once_inv_step ips k st :
  (k < length ips)%nat → once_inv ips k st → once_inv ips (S k) (each_address_once_step st k).
Proof.
  destruct st as [l kept]. intros Hk (Hlen & Hkept & Htake & Hdrop). simpl in *.
  destruct (lookup_lt_is_Some_2 ips k Hk) as [ip Hip].
  assert (l !! k = Some ip) as Hl.
  { rewrite <-(Nat.add_0_r k), <-lookup_drop, Hdrop, lookup_drop, Nat.add_0_r. done. }
  assert (drop (S k) l = drop (S k) ips) as HdropS.
  { by rewrite <-(Nat.add_1_r k), <-!drop_drop, Hdrop. }
  rewrite Hl. unfold once_inv.
  rewrite (take_S_r _ _ _ Hip), dedup_snoc, <-Htake. unfold push_new.
  case_bool_decide; simpl; [split_and!; [done|lia|done|done]|].
  destruct (swap_take_drop l kept k ip Hkept Hl) as (-> & -> & ->).
  split_and!; [done|lia|done|done].
Qed.

Lemma once_inv_foldl ips n :
  (n ≤ length ips)%nat →
  once_inv ips n (foldl each_address_once_step (ips, 0%nat) (seq 0 n)).
Proof.
  induction n as [|n IH]; intros Hn; [by split_and!|].
  rewrite seq_S, foldl_app. apply once_inv_step; [lia|]. apply IH. lia.
Qed.

Lemma each_address_once_eq ips : each_address_once ips = dedup ips.
Proof.
  unfold each_address_once.
  pose proof (once_inv_foldl ips (length ips) ltac:(lia)) as Hinv.
  destruct (foldl _ _ _) as [l kept]. destruct Hinv as (_ & _ & Htake & _). simpl in Htake.
  by rewrite Htake, firstn_all.
Qed.

End Facts.

#[export] Hint Resolve lr_spec_wf lr_spec_exact lr_originals exact_total_hosts : rastreo.
