(* ===== verification/ResolverTheorems.v ===== *)
(** * Theorems about target resolution

    The properties of [Resolver] that a scan and its rehearsal rely on, proved
    from the lemmas of [ResolverFacts]: the guards fail closed, counts and
    streams agree, a resume replays the very same targets, and the DNS half
    skips exactly the names the network says are empty. *)

From S2P Require Import Prelude Net Resolver ResolverFacts.

(** ** Resolvers that meet the contract *)

Section Lawful.
Context `{!IpNetLib, !ForeignErrors, !IpNetLaws _}.

(** [host_limit] is a [usize]. *)
Class HickoryWf (h : HickoryResolver) : Prop := {
  host_limit_range : 0 ≤ h_host_limit h ≤ USIZE_MAX;
}.

Lemma limited_block_exact first last t limit :
  block_wf first last → 0 ≤ limit ≤ USIZE_MAX →
  Z.min U128_MAX (Z.of_nat (length (block_addresses first last))) ≤ limit →
  spec_exact (Block first last t).
Proof.
  intros Hwf Hl Hle. apply block_span_exact; [done|].
  unfold USIZE_MAX, U64_MAX, U128_MAX in *. lia.
Qed.

Lemma dns_spec_Ok t r s : dns_spec t r = Ok s → ∃ ips, s = Resolved ips t.
Proof. unfold dns_spec. intros. repeat case_match; inv_ok; subst; eauto. Qed.

Lemma plan_target_spec h t s :
  HickoryWf h → target_wf t → plan_target h t = Ok s →
  spec_wf s ∧ spec_exact s ∧ spec_original s = t.
Proof.
  intros [Hlim] Hwf. destruct t as [ip|net|a b|name]; simpl in *.
  - intros ?; inv_ok; subst. simpl. split_and!; [destruct ip; simpl in *; lia| |done].
    apply block_span_exact; [destruct ip; simpl in *; lia|].
    rewrite block_length by (destruct ip; simpl in *; lia).
    unfold USIZE_MAX, U64_MAX. destruct ip; lia.
  - unfold plan_cidr. destruct (cidr_bounds net) as [[first last] hosts] eqn:Hc.
    apply cidr_bounds_spec in Hc as [Hb ->].
    case_match; break_bool; [done|]. intros ?; inv_ok; subst.
    split_and!; eauto using limited_block_exact.
  - unfold plan_range. destruct (range_bounds a b) as [[[first last] hosts]|] eqn:Hr; [|done].
    destruct Hwf. apply range_bounds_spec in Hr as (-> & -> & Hb & ->); [|done|done]. simpl.
    case_match; break_bool; [done|]. intros ?; inv_ok; subst.
    split_and!; eauto using limited_block_exact.
  - intros Hs. inv_ok. by apply dns_spec_Ok in Hs as [ips ->].
Qed.

Lemma plan_target_original h t s : plan_target h t = Ok s → spec_original s = t.
Proof.
  destruct t; simpl; unfold plan_cidr, plan_range, dns_spec; intros Hp;
    repeat (case_match || inv_ok); simplify_eq/=; done.
Qed.

Lemma hickory_plan_Ok h now ts p :
  hickory_plan h now ts = Ok p →
  resolved_at p = now ∧ Forall2 (λ t s, plan_target h t = Ok s) ts (specs p).
Proof. unfold hickory_plan. intros ?. inv_ok. subst. simpl. by rewrite <-mapM_Ok. Qed.

#[export] Instance hickory_lawful h : HickoryWf h → LawfulResolver (hickory h).
Proof.
  intros Hh. split; simpl.
  - intros now ts p Hts [_ Hp]%hickory_plan_Ok.
    eapply Forall2_Forall_r; [exact Hp|]. eapply Forall_impl; [exact Hts|].
    simpl. intros t Ht s Hs. by apply (plan_target_spec h t s) in Hs as (? & _).
  - intros now ts p Hts [_ Hp]%hickory_plan_Ok.
    eapply Forall2_Forall_r; [exact Hp|]. eapply Forall_impl; [exact Hts|].
    simpl. intros t Ht s Hs. by apply (plan_target_spec h t s) in Hs as (_ & ? & _).
  - intros now ts p [_ Hp]%hickory_plan_Ok.
    induction Hp as [|t s ts' ss Hs _ IH]; [done|].
    rewrite fmap_cons, IH. f_equal. by eapply plan_target_original.
Qed.

(** A guarded resolver is a resolver in its own right. *)
#[export] Instance guarded_lawful g : LawfulResolver (g_inner g) → LawfulResolver (guarded g).
Proof.
  intros Hl. split; simpl; unfold guarded_plan; intros; inv_ok; subst;
    eauto using lr_spec_wf, lr_spec_exact, lr_originals.
Qed.

(** So is any resolver that keeps the trait's default [plan]. *)
#[export] Instance default_lawful res : LawfulResolver (mkResolver res (default_plan res)).
Proof.
  assert (∀ now ts p, default_plan res now ts = Ok p →
    Forall2 (λ t s, ∃ ips, s = Resolved ips t) ts (specs p)) as Hd.
  { unfold default_plan. intros now ts p Hp. destruct (mapM _ ts) as [ss|] eqn:Hm; [|done].
    simpl in Hp. inv_ok. subst. simpl. apply mapM_Ok in Hm.
    eapply Forall2_impl; [exact Hm|]. simpl. intros. inv_ok. subst. eauto. }
  split; simpl.
  - intros now ts p _ Hp%Hd. clear Hd. induction Hp as [|? ? ? ? [? ->]]; constructor; done.
  - intros now ts p _ Hp%Hd. clear Hd. induction Hp as [|? ? ? ? [? ->]]; constructor; done.
  - intros now ts p Hp%Hd. clear Hd.
    induction Hp as [|? ? ? ? [? ->] _ IH]; [done|]. by rewrite fmap_cons, IH.
Qed.

End Lawful.

(** ** The theorems *)

Section Theorems.
Context `{!IpNetLib, !ForeignErrors, !IpNetLaws _}.

(** C1. The guards fail closed.  When a guarded plan is granted it is the inner
    resolver's plan, every address its stream yields lies in the allow-list, and
    it yields no more targets than the aggregate cap; when it is refused, the
    refusal is the inner resolver's own, or names an address the inner plan
    would have streamed outside the allow-list, or the cap really is exceeded. *)
Theorem guarded_plan_fails_closed g now ts :
  LawfulResolver (g_inner g) → Forall target_wf ts →
  (∀ limit, g_max_total_hosts g = Some limit → limit < USIZE_MAX) →
  match guarded_plan g now ts with
  | Ok p =>
      op_plan (g_inner g) now ts = Ok p ∧
      (∀ nets ip, g_allowlist g = Some nets → ip ∈ rt_ip <$> into_stream p → allowed nets ip) ∧
      (∀ limit, g_max_total_hosts g = Some limit → Z.of_nat (length (into_stream p)) ≤ limit)
  | Err e =>
      op_plan (g_inner g) now ts = Err e ∨
      ∃ p, op_plan (g_inner g) now ts = Ok p ∧
        ((∃ nets ip, g_allowlist g = Some nets ∧ e = EResolver (TargetNotAllowed ip) ∧
            ip ∈ rt_ip <$> into_stream p ∧ ¬ allowed nets ip) ∨
         (∃ limit, g_max_total_hosts g = Some limit ∧
            e = EResolver (AggregateHostCapExceeded (total_hosts p) limit) ∧
            limit < Z.of_nat (length (into_stream p))))
  end.
Proof.
  intros Hl Hts Hcap. unfold guarded_plan.
  destruct (op_plan (g_inner g) now ts) as [p|e] eqn:Hp; simpl; [|by left].
  pose proof (lr_spec_wf _ _ _ Hts Hp) as Hwf.
  pose proof (exact_total_hosts _ (lr_spec_exact _ _ _ Hts Hp)) as Htot.
  assert (match (match g_allowlist g with Some nets => plan_check_allowed p nets | None => Ok tt end) with
    | Ok _ => ∀ nets ip, g_allowlist g = Some nets → ip ∈ rt_ip <$> into_stream p → allowed nets ip
    | Err e => ∃ nets ip, g_allowlist g = Some nets ∧ e = EResolver (TargetNotAllowed ip) ∧
                          ip ∈ rt_ip <$> into_stream p ∧ ¬ allowed nets ip
    end) as Hallow.
  { destruct (g_allowlist g) as [nets|]; simpl; [|done].
    pose proof (specs_check_allowed_spec _ nets Hwf) as Hs. unfold plan_check_allowed.
    destruct (specs_check_allowed (specs p) nets).
    - intros nets' ip [= <-] (s & ? & ?)%elem_of_into_stream. eauto.
    - destruct Hs as (s & ip & ? & -> & ? & ?). exists nets, ip.
      rewrite elem_of_into_stream. eauto 10. }
  destruct (match g_allowlist g with Some _ => _ | None => _ end) as [[]|e]; simpl; [|eauto 10].
  unfold check_cap. destruct (g_max_total_hosts g) as [limit|] eqn:Hm; simpl; [|naive_solver].
  specialize (Hcap _ eq_refl).
  destruct (limit <? total_hosts p) eqn:E; break_bool; simpl.
  - right. exists p. split; [done|]. right. exists limit. split_and!; [done|done|lia].
  - split_and!; [done|done|]. intros ? [= <-]. lia.
Qed.

(** The allow-list sweep finds the least address of the block outside the
    union of the listed networks, whatever order an unstable sort leaves
    networks with equal first addresses in. *)
Theorem uncovered_point_least lo hi ivals ivals' :
  lo ≤ hi → ivals' ≡ₚ ivals → StronglySorted start_le ivals' →
  least_uncovered lo hi ivals (uncovered_point lo hi ivals) ∧
  sweep_uncovered hi lo ivals' = uncovered_point lo hi ivals.
Proof using Type.
  intros Hle Hp Hs. split; [by apply uncovered_point_spec|].
  eapply least_uncovered_unique; [|by apply uncovered_point_spec].
  eapply least_uncovered_perm; [exact Hp|]. by apply sweep_uncovered_spec.
Qed.

(** The pre-flight host count of any plan a contract-abiding resolver builds
    is the number of targets its stream yields, up to saturation at [usize::MAX]:
    no width or cast loses a host. *)
Theorem total_hosts_counts_stream r now ts p :
  LawfulResolver r → Forall target_wf ts → op_plan r now ts = Ok p →
  total_hosts p = Z.min USIZE_MAX (Z.of_nat (length (into_stream p))).
Proof using Type. eauto with rastreo. Qed.

(** C2. The stream of an address target is what the target denotes: the plan
    keeps one spec per target in input order, and an IP, CIDR or range target
    streams exactly the addresses it denotes (host addresses only for an IPv4
    net wider than a point-to-point pair), each once. *)
Theorem hickory_plan_denotes h now ts p i t :
  HickoryWf h → Forall target_wf ts → hickory_plan h now ts = Ok p → ts !! i = Some t →
  ∃ s, specs p !! i = Some s ∧ spec_original s = t ∧
    ((∀ name, t ≠ TDnsName name) →
     NoDup (spec_ips s) ∧ ∀ ip, ip ∈ spec_ips s ↔ denotes t ip).
Proof.
  intros Hh Hts [_ Hp]%hickory_plan_Ok Hi.
  destruct (Forall2_lookup_l _ _ _ _ _ Hp Hi) as (s & Hs & Hpt).
  exists s. split_and!; [done|by eapply plan_target_original|]. intros Hname.
  assert (target_wf t) as Hwf by (by eapply Forall_lookup_1 in Hts).
  destruct (plan_target_spec h t s Hh Hwf Hpt) as (Hsw & _ & _).
  assert (∀ first last t', s = Block first last t' → NoDup (spec_ips s)) as Hnd.
  { intros first last t' ->. simpl. destruct first, last; simpl; try (by apply NoDup_nil_2);
      (apply NoDup_fmap_2; [by intros ?? [=] | apply NoDup_seqZ]). }
  destruct t as [ip|net|a b|name]; simpl in Hpt; [..|by destruct (Hname name)].
  - inv_ok. subst. split; [eauto|]. simpl. intros ip'. simpl in Hsw.
    rewrite (elem_of_block _ _ _ Hsw).
    destruct ip, ip'; (split; [intros; try done; f_equal; lia | intros [=]; lia]).
  - unfold plan_cidr in Hpt. destruct (cidr_bounds net) as [[first last] n] eqn:Hc.
    case_match; inv_ok; subst. split; [eauto|].
    intros ip. exact (cidr_block_denotes _ _ _ _ _ Hc).
  - unfold plan_range in Hpt. destruct (range_bounds a b) as [[[first last] n]|] eqn:Hr; [|done].
    simpl in Hpt. case_match; inv_ok; subst.
    destruct Hwf. apply range_bounds_spec in Hr as (-> & -> & Hb & _); [|done|done].
    split; [eauto|]. intros ip. simpl. rewrite (elem_of_block _ _ _ Hb).
    destruct a, b, ip; simpl in *; try done.
Qed.

(** A resume replays the scan it continues: rebuilding a plan from the DNS
    pins of the plan a run made gives back the same specs, hence the same stream
    of addresses, whatever clock reading the rebuild takes and however DNS would
    answer now. *)
Theorem from_pinned_replays h now now' ts p :
  hickory_plan h now ts = Ok p →
  from_pinned now' ts (dns_pins p) = Ok (mkPlan (specs p) now').
Proof using Type.
  intros [_ Hp]%hickory_plan_Ok. unfold from_pinned, dns_pins.
  assert (pinned_specs ts (omap dns_pin (specs p)) = Ok (specs p)) as ->; [|done].
  induction Hp as [|t s ts' ss Hs _ IH]; [done|]. cbn [omap list_omap] in *.
  destruct t as [ip|net|a b|name]; simpl in Hs.
  - inv_ok. subst. simpl. by rewrite IH.
  - unfold plan_cidr in Hs. destruct (cidr_bounds net) as [[first last] n] eqn:Hc.
    case_match; inv_ok; subst. simpl. by rewrite Hc, IH.
  - unfold plan_range in Hs. destruct (range_bounds a b) as [[[first last] n]|] eqn:Hr; [|done].
    simpl in Hs. case_match; inv_ok; subst. simpl. rewrite Hr. simpl. by rewrite IH.
  - inv_ok. apply dns_spec_Ok in Hs as [ips ->]. simpl.
    rewrite bool_decide_eq_false_2 by naive_solver. by rewrite IH.
Qed.

(** The in-place deduplication of looked-up addresses is first-seen
    deduplication: the swap loop never disturbs what it has yet to read. *)
Theorem each_address_once_first_seen ips :
  each_address_once ips = dedup ips ∧ NoDup (each_address_once ips) ∧
  ∀ ip, ip ∈ each_address_once ips ↔ ip ∈ ips.
Proof using Type. rewrite each_address_once_eq. split_and!; [done|apply dedup_NoDup|apply dedup_elem]. Qed.

Lemma lookup_one_family_nonempty {D : DnsLib} lookup name (q : QueriedName D) ips :
  lookup_one_family lookup name q = Ok ips → ips ≠ [].
Proof using Type.
  unfold lookup_one_family, addresses_or_no_records. intros. inv_ok.
  case_match eqn:E; inv_ok; subst. intros ->. done.
Qed.

(** What becomes of a DNS name.  A name no query can be built from, or one
    both families answered empty for, contributes no address and the plan goes
    on; a family that answered decides alone, and otherwise the scan stops on a
    failure that is not an empty answer. *)
Theorem dns_target_outcome h name :
  let t := TDnsName name in
  match queried_name (h_dns h) name with
  | Err _ => plan_target h t = Ok (Resolved [] t)
  | Ok q =>
      match lookup_one_family (lookup_ip_v6 (h_dns h)) name q,
            lookup_one_family (lookup_ip_v4 (h_dns h)) name q with
      | Err e6, Err e4 =>
          if answered_with_no_addresses e6 && answered_with_no_addresses e4
          then plan_target h t = Ok (Resolved [] t)
          else ∃ e, plan_target h t = Err (EResolver e) ∧ (e = e6 ∨ e = e4) ∧
                    answered_with_no_addresses e = false
      | v6, v4 =>
          let ips := default [] (result_ok v6) ++ default [] (result_ok v4) in
          plan_target h t = Ok (Resolved (dedup ips) t) ∧ dedup ips ≠ []
      end
  end.
Proof using Type.
  assert (∀ ips : list IpAddr, ips ≠ [] → dedup ips ≠ []) as Hne.
  { intros [|x ips] Hn Hd; [done|]. pose proof (dedup_elem (x :: ips) x) as [_ Hin].
    rewrite Hd in Hin. eapply not_elem_of_nil, Hin. by left. }
  simpl. unfold lookup_dns. destruct (queried_name (h_dns h) name) as [q|e] eqn:Hq; simpl.
  2:{ unfold queried_name in Hq. repeat case_match; inv_ok; by subst. }
  destruct (lookup_one_family (lookup_ip_v6 _) name q) as [l6|e6] eqn:E6;
    destruct (lookup_one_family (lookup_ip_v4 _) name q) as [l4|e4] eqn:E4; simpl;
    rewrite ?each_address_once_eq, ?app_nil_r.
  - split; [done|]. apply Hne. apply lookup_one_family_nonempty in E6. by destruct l6.
  - split; [done|]. eauto using lookup_one_family_nonempty.
  - split; [done|]. eauto using lookup_one_family_nonempty.
  - assert (∀ q' lookup e, lookup_one_family (D := h_dns h) lookup name q' = Err e →
      skips_only_this_target e = answered_with_no_addresses e) as Hskip.
    { intros q' lookup e. unfold lookup_one_family, addresses_or_no_records.
      intros [Hm|(? & _ & Hm)]%Result_bind_Err; [|by case_match; inv_ok; subst].
      destruct q'; simpl in Hm; destruct (lookup _); simpl in Hm; inv_ok; by subst. }
    apply Hskip in E6, E4.
    destruct (answered_with_no_addresses e6) eqn:A6, (answered_with_no_addresses e4) eqn:A4;
      simpl; rewrite ?E6, ?E4, ?A6, ?A4; simpl; eauto.
Qed.

Lemma hickory_plan_single h now t :
  hickory_plan h now [t] = (λ s, mkPlan [s] now) <$> plan_target h t.
Proof using Type. unfold hickory_plan. simpl. by destruct (plan_target h t). Qed.

Lemma total_hosts_nonneg p : 0 ≤ total_hosts p.
Proof using Type.
  assert (Forall (λ s, 0 ≤ spec_hosts s) (specs p)) as Hnn.
  { apply Forall_forall. intros s _. destruct s as [first last t|ips t]; simpl; [|lia].
    unfold block_span, as_usize, wrap. destruct first, last; try done; by apply Z.mod_pos_bound. }
  rewrite total_hosts_sum by done. pose proof (host_sum_nonneg _ Hnn).
  unfold USIZE_MAX, U64_MAX. lia.
Qed.

Lemma attributed_unresolvable p :
  scenario_unresolvable_targets (mkScenarioResolution (attribute p) (Ok p) 0) =
  unresolvable_targets p.
Proof using Type.
  unfold scenario_unresolvable_targets, unresolvable_targets, attribute, per_target_samples. simpl.
  induction (specs p) as [|s ss IH]; [done|]. rewrite !fmap_cons. cbn [List.filter].
  assert (contribution_is_unresolvable (spec_original s, Ok (spec_sample s)) = spec_is_unresolvable s)
    as ->.
  { unfold contribution_is_unresolvable, spec_sample. simpl.
    destruct (spec_is_unresolvable s); [done|]. by destruct s. }
  destruct (spec_is_unresolvable s); [|done]. rewrite !fmap_cons. by f_equal.
Qed.

(** A rehearsal tells what the scan would do: it counts the same hosts, names
    the same unresolvable targets and refuses with the same error; and when the
    targets are refused, the first target blamed is the one the scan stops on,
    every target before it being fine on its own. *)
Theorem rehearsal_matches_scan h now ts :
  let s := resolve_scenario (hickory h) now ts in
  (fst <$> sr_entries s) = ts ∧
  match hickory_plan h now ts with
  | Ok p => scenario_total_hosts s = total_hosts p ∧ refusal s = None ∧
            scenario_unresolvable_targets s = unresolvable_targets p
  | Err e =>
      scenario_total_hosts s = 0 ∧ refusal s = Some e ∧
      ∃ before t after, sr_entries s = before ++ (t, Err e) :: after ∧
        Forall (λ entry, is_ok entry.2 = true) before
  end.
Proof using Type.
  simpl. unfold resolve_scenario. simpl.
  destruct (hickory_plan h now ts) as [p|e] eqn:Hp; simpl.
  - apply hickory_plan_Ok in Hp as [_ Hp]. split.
    { unfold attribute, per_target_samples. induction Hp as [|t s ts' ss Hs _ IH]; [done|]. rewrite !fmap_cons. f_equal; [|done].
      by apply plan_target_original in Hs. }
    split_and!; [|done|exact (attributed_unresolvable p)].
    unfold scenario_total_hosts, saturating_sub. simpl. pose proof (total_hosts_nonneg p). lia.
  - rewrite <-list_fmap_compose. split; [apply list_fmap_id|]. split_and!; [done|done|].
    unfold hickory_plan in Hp. apply Result_bind_Err in Hp as [Hp|(? & _ & ?)]; [|done].
    apply mapM_Err in Hp as (l1 & t & l2 & -> & Hok & Ht).
    rewrite fmap_app, fmap_cons, (hickory_plan_single h now t), Ht.
    eexists _, t, _. split; [done|]. apply Forall_fmap. eapply Forall_impl; [exact Hok|].
    intros x. simpl. rewrite hickory_plan_single. by destruct (plan_target h x).
Qed.

End Theorems.

(** ** A concrete resolver, at which the hypotheses are met *)

#[local] Existing Instance sample_ipnet.
#[local] Existing Instance sample_ipnet_laws.
#[local] Existing Instance sample_errors.

(** A name server that knows one name under both families. *)
Definition sample_dns : DnsLib := {|
  DnsName := Str;
  from_str_relaxed n := if is_empty n then None else Some n;
  lookup_ip_v6 q := match q with
    | inr n => if bool_decide (n = s! "sw1") then Ok [V6 1; V6 1] else Err 0%nat
    | inl _ => Err 1%nat end;
  lookup_ip_v4 q := match q with
    | inr n => if bool_decide (n = s! "sw1") then Ok [V4 167772161] else Err 0%nat
    | inl _ => Err 1%nat end;
|}.

Definition sample_hickory : HickoryResolver := mkHickory sample_dns DEFAULT_HOST_LIMIT.

#[local] Instance sample_hickory_wf : HickoryWf sample_hickory.
Proof. split. by vm_compute. Qed.

(** 10.0.0.0/29, a range and a name. *)
Definition sample_lan : IpNet := NetV4 (167772160, 29).

Definition sample_targets : list (Target) :=
  [TCidr sample_lan; TRange (V4 167772170) (V4 167772172); TDnsName (s! "sw1")].

Lemma sample_targets_wf : Forall target_wf sample_targets.
Proof. repeat constructor; by vm_compute. Qed.


(** 10.0.0.0/24 and every IPv6 address, at most 100 hosts. *)
Definition sample_nets : list IpNet := [NetV4 (167772160, 24); NetV6 (0, 0)].
Definition sample_guard : GuardedResolver :=
  mkGuarded (hickory sample_hickory) (Some sample_nets) (Some 100).

Lemma guarded_plan_fails_closed_witness :
  ∃ p, guarded_plan sample_guard 0 sample_targets = Ok p ∧
    (∀ ip, ip ∈ rt_ip <$> into_stream p → allowed sample_nets ip) ∧
    Z.of_nat (length (into_stream p)) ≤ 100.
Proof.
  pose proof (guarded_plan_fails_closed sample_guard 0 sample_targets
    (hickory_lawful _ sample_hickory_wf) sample_targets_wf) as Hw.
  assert (∀ limit, g_max_total_hosts sample_guard = Some limit → limit < USIZE_MAX) as Hlim.
  { intros ? [= <-]. by vm_compute. }
  specialize (Hw Hlim).
  destruct (is_ok_Ok (guarded_plan sample_guard 0 sample_targets) ltac:(by vm_compute)) as [p E].
  rewrite E in Hw. destruct Hw as (_ & Hnets & Hcap). exists p. split; [exact E|].
  split; [intros ip; by apply Hnets|by apply Hcap].
Defined.

Lemma uncovered_point_least_witness :
  least_uncovered 5 20 [(10, 14); (0, 9)] (uncovered_point 5 20 [(10, 14); (0, 9)]) ∧
  sweep_uncovered 20 5 [(0, 9); (10, 14)] = uncovered_point 5 20 [(10, 14); (0, 9)].
Proof.
  apply (uncovered_point_least 5 20 [(10, 14); (0, 9)] [(0, 9); (10, 14)]).
  - lia.
  - apply perm_swap.
  - repeat constructor; unfold start_le; simpl; lia.
Defined.

Lemma total_hosts_counts_stream_witness :
  ∃ p, op_plan (hickory sample_hickory) 0 sample_targets = Ok p ∧ total_hosts p = 11 ∧
       total_hosts p = Z.min USIZE_MAX (Z.of_nat (length (into_stream p))).
Proof.
  destruct (is_ok_Ok (op_plan (hickory sample_hickory) 0 sample_targets) ltac:(by vm_compute)) as [p E].
  exists p. split; [exact E|]. split; [|
  apply (total_hosts_counts_stream (hickory sample_hickory) 0 sample_targets p
    (hickory_lawful _ sample_hickory_wf) sample_targets_wf E)].
  assert ((total_hosts <$> op_plan (hickory sample_hickory) 0 sample_targets) = Ok 11) as Hv by reflexivity.
  rewrite E in Hv. by injection Hv.
Defined.

Lemma hickory_plan_denotes_witness :
  ∃ p s, hickory_plan sample_hickory 0 sample_targets = Ok p ∧ specs p !! 0%nat = Some s ∧
    length (spec_ips s) = 6%nat ∧
    ∀ ip, ip ∈ spec_ips s ↔ denotes (TCidr sample_lan) ip.
Proof.
  destruct (is_ok_Ok (hickory_plan sample_hickory 0 sample_targets) ltac:(by vm_compute)) as [p E].
  destruct (hickory_plan_denotes sample_hickory 0 sample_targets p 0 (TCidr sample_lan)
    sample_hickory_wf sample_targets_wf E eq_refl) as (s & Hs & _ & Hd).
  exists p, s. split_and!; [exact E|exact Hs| |apply Hd; done].
  assert (((λ q, length ∘ spec_ips <$> specs q !! 0%nat) <$> hickory_plan sample_hickory 0 sample_targets)
    = Ok (Some 6%nat)) as Hv by reflexivity.
  rewrite E in Hv. simpl in Hv. rewrite Hs in Hv. by injection Hv.
Defined.

Lemma from_pinned_replays_witness :
  ∃ p, hickory_plan sample_hickory 0 sample_targets = Ok p ∧
       length (dns_pins p) = 1%nat ∧
       from_pinned 7 sample_targets (dns_pins p) = Ok (mkPlan (specs p) 7).
Proof.
  destruct (is_ok_Ok (hickory_plan sample_hickory 0 sample_targets) ltac:(by vm_compute)) as [p E].
  exists p. split_and!; [exact E| |apply (from_pinned_replays sample_hickory 0 7 sample_targets p E)].
  assert (((length ∘ dns_pins) <$> hickory_plan sample_hickory 0 sample_targets) = Ok 1%nat) as Hv
    by reflexivity.
  rewrite E in Hv. by injection Hv.
Defined.
