(* ===== verification/OverlapFacts.v ===== *)
(** * The overlap sweep

    [find_overlaps] of [src/rastreo-core/src/resolver/mod.rs] sorts one interval
    per block and one per resolved address and sweeps them once.  Here: the
    sweep names exactly the pairs of specs that share an address, or twenty of
    them together with the remark that there are more. *)

From S2P Require Import Prelude Net Resolver ResolverFacts.

Section Sweep.

Definition iv_overlap (a b : AddressInterval) : Prop :=
  iv_v6 a = iv_v6 b ∧ iv_lo a ≤ iv_hi b ∧ iv_lo b ≤ iv_hi a.

Definition iv_wf (a : AddressInterval) : Prop := iv_lo a ≤ iv_hi a.

Definition mkpair (a b : AddressInterval) : nat * nat :=
  ((iv_spec a `min` iv_spec b)%nat, (iv_spec a `max` iv_spec b)%nat).

(** [pr] names two specs with overlapping intervals in [l]. *)
Definition conflict (l : list AddressInterval) (pr : nat * nat) : Prop :=
  ∃ a b, a ∈ l ∧ b ∈ l ∧ iv_overlap a b ∧ iv_spec a ≠ iv_spec b ∧ pr = mkpair a b.

Lemma mkpair_sym a b : mkpair a b = mkpair b a.
Proof. unfold mkpair. by rewrite Nat.min_comm, Nat.max_comm. Qed.

Lemma iv_overlap_sym a b : iv_overlap a b → iv_overlap b a.
Proof. unfold iv_overlap. intros (? & ? & ?). split_and!; auto. Qed.

Lemma conflict_mono l l' pr : l ⊆ l' → conflict l pr → conflict l' pr.
Proof.
  intros Hsub (a & b & Ha & Hb & Hr). exists a, b.
  split; [by apply Hsub|]. split; [by apply Hsub|done].
Qed.

(** ** One interval against the open ones *)

Lemma pair_with_spec iv active found found' more :
  pair_with iv active found = (found', more) → NoDup found →
  (length found ≤ REPORTED_OVERLAPS)%nat →
  NoDup found' ∧ (length found' ≤ REPORTED_OVERLAPS)%nat ∧ found ⊆ found' ∧
  (∀ pr, pr ∈ found' → pr ∈ found ∨
     ∃ o, o ∈ active ∧ iv_spec o ≠ iv_spec iv ∧ pr = mkpair o iv) ∧
  (more = false → ∀ o, o ∈ active → iv_spec o ≠ iv_spec iv → mkpair o iv ∈ found') ∧
  (more = true → length found' = REPORTED_OVERLAPS ∧
     ∃ o, o ∈ active ∧ iv_spec o ≠ iv_spec iv ∧ mkpair o iv ∉ found').
Proof.
  revert found. induction active as [|o active IH]; intros found; cbn [pair_with].
  { intros [= <- <-] ? ?. split_and!; auto; [by intros ? ? ?%not_elem_of_nil|done]. }
  (* the skipping branches keep what the rest of the scan establishes *)
  assert (∀ f, pair_with iv active f = (found', more) → NoDup f →
    (length f ≤ REPORTED_OVERLAPS)%nat → found ⊆ f →
    (∀ pr, pr ∈ f → pr ∈ found ∨ (iv_spec o ≠ iv_spec iv ∧ pr = mkpair o iv)) →
    (iv_spec o ≠ iv_spec iv → mkpair o iv ∈ f) →
    NoDup found' ∧ (length found' ≤ REPORTED_OVERLAPS)%nat ∧ found ⊆ found' ∧
    (∀ pr, pr ∈ found' → pr ∈ found ∨
       ∃ o', o' ∈ o :: active ∧ iv_spec o' ≠ iv_spec iv ∧ pr = mkpair o' iv) ∧
    (more = false → ∀ o', o' ∈ o :: active → iv_spec o' ≠ iv_spec iv → mkpair o' iv ∈ found') ∧
    (more = true → length found' = REPORTED_OVERLAPS ∧
       ∃ o', o' ∈ o :: active ∧ iv_spec o' ≠ iv_spec iv ∧ mkpair o' iv ∉ found')) as Hskip.
  { intros f Hp Hnd Hlen Hsub Hf Ho.
    destruct (IH f Hp Hnd Hlen) as (A1 & A2 & A3 & A4 & A5 & A6). split_and!; auto.
    - by etrans.
    - intros pr [[?|[? ->]]%Hf|(o' & ? & ? & ->)]%A4; [by left|right|right].
      + exists o. split; [by left|done].
      + exists o'. split; [by right|done].
    - intros Hm o' [->|?]%elem_of_cons Hne; [by apply A3, Ho|by apply A5].
    - intros Hm. destruct (A6 Hm) as (? & o' & ? & ?). split; [done|].
      exists o'. split; [by right|done]. }
  destruct (iv_spec o =? iv_spec iv)%nat eqn:E; break_bool.
  { intros Hp Hnd Hlen. apply (Hskip _ Hp Hnd Hlen); [done|by left|done]. }
  fold (mkpair o iv). case_bool_decide as Hin.
  { intros Hp Hnd Hlen. apply (Hskip _ Hp Hnd Hlen); [done|by left|done]. }
  destruct (REPORTED_OVERLAPS <=? length found)%nat eqn:El.
  - apply Nat.leb_le in El. intros [= <- <-] Hnd Hlen.
    split_and!; [done|done|done|by left|done|]. intros _. split; [lia|].
    exists o. split; [by left|done].
  - apply Nat.leb_gt in El. intros Hp Hnd Hlen. apply (Hskip _ Hp).
    + apply NoDup_app. split_and!; [done| |apply NoDup_singleton].
      intros x Hx Hs%list_elem_of_singleton. by subst.
    + rewrite length_app. simpl. lia.
    + intros x Hx. apply elem_of_app. by left.
    + intros pr [?|?%list_elem_of_singleton]%elem_of_app; subst; [by left|by right].
    + intros _. apply elem_of_app. right. by apply list_elem_of_singleton.
Qed.

(** ** The sweep *)

(** The sweep's invariant after the prefix [pre]: [found] is the set of its
    conflicts, and every interval no longer open meets nothing to come. *)
Record sweep_inv (pre rest active : list AddressInterval) (found : list (nat * nat)) : Prop := {
  si_nodup : NoDup found;
  si_len : (length found ≤ REPORTED_OVERLAPS)%nat;
  si_found pr : pr ∈ found ↔ conflict pre pr;
  si_active : active ⊆ pre;
  si_closed o iv : o ∈ pre → o ∉ active → iv ∈ rest → ¬ iv_overlap o iv;
}.

Lemma interval_le_family a b :
  interval_le a b → iv_v6 a = iv_v6 b → iv_lo a ≤ iv_lo b.
Proof. unfold interval_le. destruct (iv_v6 a), (iv_v6 b); naive_solver lia. Qed.

Lemma interval_le_v6 a b : interval_le a b → iv_v6 a = true → iv_v6 b = true.
Proof. unfold interval_le. destruct (iv_v6 a), (iv_v6 b); naive_solver. Qed.

Lemma still_open_overlap iv o :
  interval_le o iv → iv_wf iv → still_open iv o = true ↔ iv_overlap o iv.
Proof.
  intros Hle Hwf. unfold still_open, iv_overlap, iv_wf in *.
  rewrite andb_true_iff, Z.leb_le, Bool.eqb_true_iff.
  pose proof (interval_le_family _ _ Hle). naive_solver lia.
Qed.

Lemma closed_forever iv o iv' :
  interval_le o iv → interval_le iv iv' → ¬ still_open iv o = true → ¬ iv_overlap o iv'.
Proof.
  unfold still_open. rewrite andb_true_iff, Z.leb_le, Bool.eqb_true_iff.
  intros H1 H2 Hc (Hf & _ & Hlo).
  destruct (decide (iv_v6 o = iv_v6 iv)) as [E|E].
  - pose proof (interval_le_family _ _ H2 ltac:(congruence)). apply Hc. split; [done|lia].
  - pose proof (interval_le_v6 _ _ H1) as Ho. pose proof (interval_le_v6 _ _ H2) as Hi.
    destruct (iv_v6 o), (iv_v6 iv), (iv_v6 iv'); naive_solver.
Qed.

Lemma conflict_snoc pre iv pr :
  conflict (pre ++ [iv]) pr ↔
  conflict pre pr ∨ ∃ o, o ∈ pre ∧ iv_overlap o iv ∧ iv_spec o ≠ iv_spec iv ∧ pr = mkpair o iv.
Proof.
  split.
  - intros (a & b & Ha & Hb & Ho & Hne & ->).
    apply elem_of_app in Ha as [Ha|Ha%list_elem_of_singleton];
      apply elem_of_app in Hb as [Hb|Hb%list_elem_of_singleton]; subst.
    + left. unfold conflict. eauto 10.
    + right. eauto 10.
    + right. exists b. rewrite mkpair_sym. auto using iv_overlap_sym.
    + done.
  - intros [Hc|(o & Ho & ? & ? & ->)].
    + eapply conflict_mono; [|done]. set_solver.
    + exists o, iv. set_solver.
Qed.

Lemma sweep_inv_step pre iv rest active found found' :
  StronglySorted interval_le (pre ++ iv :: rest) → iv_wf iv →
  sweep_inv pre (iv :: rest) active found →
  pair_with iv (List.filter (still_open iv) active) found = (found', false) →
  sweep_inv (pre ++ [iv]) rest (List.filter (still_open iv) active ++ [iv]) found'.
Proof.
  intros Hs Hwf [Hnd Hlen Hfound Hact Hclosed] Hp.
  destruct (pair_with_spec _ _ _ _ _ Hp Hnd Hlen) as (Hnd' & Hlen' & Hsub & Hnew & Hall & _).
  apply StronglySorted_app in Hs as (Hpre & _ & Hrest).
  apply StronglySorted_cons in Hrest as [Hiv _]. rewrite Forall_forall in Hiv.
  assert (∀ o, o ∈ pre → interval_le o iv) as Hole by set_solver.
  assert (∀ o, o ∈ List.filter (still_open iv) active ↔ o ∈ pre ∧ iv_overlap o iv) as Hopen.
  { intros o. rewrite list_elem_of_In, filter_In, <-list_elem_of_In. split.
    - intros [Ho Hb]. split; [set_solver|]. apply still_open_overlap in Hb; auto.
    - intros [Ho Hb]. split; [|apply still_open_overlap; auto].
      destruct (decide (o ∈ active)); [done|]. by destruct (Hclosed o iv ltac:(done) ltac:(done) ltac:(set_solver)). }
  split; [done|done| |set_solver|].
  - intros pr. rewrite conflict_snoc, <-Hfound. split.
    + intros [?|(o & [? ?]%Hopen & ? & ->)]%Hnew; [by left|right; eauto 10].
    + intros [?|(o & ? & ? & ? & ->)]; [set_solver|]. apply Hall; [done| |done]. by apply Hopen.
  - intros o iv' Ho Hna Hiv'.
    apply elem_of_app in Ho as [Ho|Ho%list_elem_of_singleton]; [|subst; set_solver].
    destruct (decide (o ∈ active)) as [Ha|Ha].
    + eapply closed_forever; [by apply Hole|by apply Hiv|]. intros Hb. apply Hna.
      apply elem_of_app. left. by rewrite list_elem_of_In, filter_In, <-list_elem_of_In.
    + apply Hclosed; [done|done|set_solver].
Qed.

Lemma sweep_spec rest pre active found found' more :
  sweep rest active found = (found', more) →
  StronglySorted interval_le (pre ++ rest) → Forall iv_wf rest →
  sweep_inv pre rest active found →
  NoDup found' ∧ (∀ pr, pr ∈ found' → conflict (pre ++ rest) pr) ∧
  (more = false → ∀ pr, conflict (pre ++ rest) pr → pr ∈ found') ∧
  (more = true → length found' = REPORTED_OVERLAPS ∧
                 ∃ pr, conflict (pre ++ rest) pr ∧ pr ∉ found').
Proof.
  revert pre active found.
  induction rest as [|iv rest IH]; intros pre active found; simpl.
  { intros [= <- <-] _ _ [? ? Hf ? ?]. rewrite app_nil_r. naive_solver. }
  destruct (pair_with iv _ found) as [f1 m1] eqn:Hp. intros Hsw Hs Hwf Hinv.
  apply Forall_cons in Hwf as [Hiv Hwf]. destruct m1.
  - injection Hsw as <- <-.
    destruct (pair_with_spec _ _ _ _ _ Hp (si_nodup _ _ _ _ Hinv) (si_len _ _ _ _ Hinv))
      as (Hnd' & _ & _ & Hnew & _ & Hfull).
    assert (∀ o, o ∈ List.filter (still_open iv) active → iv_spec o ≠ iv_spec iv →
      conflict (pre ++ iv :: rest) (mkpair o iv)) as Hc.
    { intros o [Ho Hb]%list_elem_of_In%filter_In Hne. apply list_elem_of_In in Ho.
      pose proof (si_active _ _ _ _ Hinv) as Hact.
      exists o, iv. split_and!; [set_solver|set_solver| |done|done].
      apply still_open_overlap; [|done|done].
      apply StronglySorted_app in Hs as (Hpre & _ & _). set_solver. }
    split_and!; [done| |done|].
    + intros pr [?%(si_found _ _ _ _ Hinv)|(o & ? & ? & ->)]%Hnew; [|by apply Hc].
      eapply conflict_mono; [|done]. set_solver.
    + intros _. destruct (Hfull eq_refl) as [? (o & ? & ? & ?)]. eauto.
  - rewrite cons_middle, (assoc_L (++)) in Hs |- *.
    eapply IH; [exact Hsw|done|done|].
    eapply sweep_inv_step; [|exact Hiv|exact Hinv|exact Hp].
    by rewrite cons_middle, (assoc_L (++)).
Qed.

Lemma sweep_inv_init l : sweep_inv [] l [] [].
Proof.
  split; [apply NoDup_nil_2|simpl; lia| |done|set_solver].
  unfold conflict. set_solver.
Qed.

#[global] Instance interval_le_total : Total interval_le.
Proof.
  intros a b. unfold interval_le.
  assert ((iv_lo a < iv_lo b ∨ iv_lo a = iv_lo b ∧
             (iv_hi a < iv_hi b ∨ iv_hi a = iv_hi b ∧ (iv_spec a ≤ iv_spec b)%nat)) ∨
          (iv_lo b < iv_lo a ∨ iv_lo b = iv_lo a ∧
             (iv_hi b < iv_hi a ∨ iv_hi b = iv_hi a ∧ (iv_spec b ≤ iv_spec a)%nat))) as H by lia.
  destruct (iv_v6 a), (iv_v6 b); simpl; [|by right; left|by left; left|];
    (destruct H; [left|right]; right; done).
Qed.

#[global] Instance interval_le_trans : Transitive interval_le.
Proof.
  intros a b c. unfold interval_le.
  destruct (iv_v6 a), (iv_v6 b), (iv_v6 c); simpl; naive_solver lia.
Qed.

(** ** [Vec::dedup] *)

Lemma vec_dedup_cons {A} `{EqDecision A} (x : A) l :
  vec_dedup (x :: l) = if bool_decide (head l = Some x) then vec_dedup l else x :: vec_dedup l.
Proof.
  destruct l as [|y l]; [done|]. simpl. do 2 case_bool_decide; naive_solver.
Qed.

Lemma vec_dedup_elem {A} `{EqDecision A} (l : list A) x : x ∈ vec_dedup l ↔ x ∈ l.
Proof.
  induction l as [|y l IH]; [done|]. rewrite vec_dedup_cons.
  case_bool_decide as Hh; rewrite elem_of_cons; [|rewrite elem_of_cons, IH; done].
  rewrite IH. destruct l; simplify_eq/=. set_solver.
Qed.

Lemma vec_dedup_sorted {A} `{EqDecision A} (R : relation A) (l : list A) :
  StronglySorted R l → StronglySorted R (vec_dedup l).
Proof.
  induction 1 as [|x l Hs IH Hfa]; [constructor|]. rewrite vec_dedup_cons.
  case_bool_decide; [done|]. constructor; [done|].
  rewrite Forall_forall in *. intros y. rewrite vec_dedup_elem. auto.
Qed.

End Sweep.

Section Plan.
Context `{!IpNetLib, !ForeignErrors}.

Definition spec_intervals (s : PlannedSpec) (i : nat) : list AddressInterval := push_intervals s i [].

Lemma push_intervals_app s i out : push_intervals s i out = out ++ spec_intervals s i.
Proof.
  unfold spec_intervals. destruct s as [first last t|ips t]; simpl; [|done].
  by destruct (ip_to_bits first), (ip_to_bits last).
Qed.

Lemma collect_intervals_elem ss k out iv :
  iv ∈ collect_intervals ss k out ↔
  iv ∈ out ∨ ∃ i s, ss !! i = Some s ∧ iv ∈ spec_intervals s (k + i).
Proof.
  revert k out. induction ss as [|s ss IH]; intros k out; simpl; [set_solver|].
  rewrite IH, push_intervals_app, elem_of_app. split.
  - intros [[?|?]|(i & s' & ? & ?)]; [by left|right; exists 0%nat, s|right; exists (S i), s'].
    + by rewrite Nat.add_0_r.
    + split; [done|]. by rewrite Nat.add_succ_r.
  - intros [?|([|i] & s' & ? & Hiv)]; simplify_eq/=; [by left; left| |].
    + rewrite Nat.add_0_r in Hiv. by left; right.
    + right. exists i, s'. split; [done|]. by rewrite Nat.add_succ_r in Hiv.
Qed.

Lemma spec_intervals_spec s i iv : iv ∈ spec_intervals s i → iv_spec iv = i.
Proof.
  unfold spec_intervals. destruct s as [first last t|ips t]; simpl.
  - destruct (ip_to_bits first), (ip_to_bits last). set_solver.
  - intros (ip & -> & _)%list_elem_of_fmap. by destruct (ip_to_bits ip).
Qed.

Lemma spec_intervals_wf s i iv : spec_wf s → iv ∈ spec_intervals s i → iv_wf iv.
Proof.
  unfold spec_intervals, iv_wf. destruct s as [first last t|ips t]; simpl.
  - intros Hwf. destruct first, last; simpl in *; try done; intros ?%list_elem_of_singleton;
      subst; simpl; lia.
  - intros _ (ip & -> & _)%list_elem_of_fmap. destruct (ip_to_bits ip). simpl. lia.
Qed.

(** An address is streamed by a spec iff it lies in one of its intervals. *)
Lemma spec_intervals_ips s i ip :
  spec_wf s →
  ip ∈ spec_ips s ↔
  ∃ iv, iv ∈ spec_intervals s i ∧ iv_v6 iv = (ip_to_bits ip).1 ∧
        iv_lo iv ≤ (ip_to_bits ip).2 ≤ iv_hi iv.
Proof.
  unfold spec_intervals. destruct s as [first last t|ips t]; simpl.
  - intros Hwf. rewrite (elem_of_block _ _ _ Hwf).
    destruct first, last; simpl in *; try done; setoid_rewrite list_elem_of_singleton;
      destruct ip; simpl; naive_solver.
  - intros _. setoid_rewrite list_elem_of_fmap. split.
    + intros Hin. destruct (ip_to_bits ip) as [v b] eqn:E.
      exists (mkInterval v b b i). simpl.
      split_and!; [exists ip; by rewrite E|done|lia|lia].
    + intros (iv & (ip' & -> & Hin) & Hv & Hb).
      destruct ip, ip'; simpl in *; try done;
        match goal with |- ?f ?x ∈ _ => match type of Hin with ?f ?y ∈ _ =>
          replace x with y by lia; done end end.
Qed.

(** Two specs of the plan stream a common address. *)
Definition shares_address (p : ResolvedPlan) (i j : nat) : Prop :=
  ∃ si sj ip, specs p !! i = Some si ∧ specs p !! j = Some sj ∧
              ip ∈ spec_ips si ∧ ip ∈ spec_ips sj.

Definition bits_to_ip (v6 : bool) (b : Z) : IpAddr := if v6 then V6 b else V4 b.

Lemma bits_to_ip_bits v6 b : ip_to_bits (bits_to_ip v6 b) = (v6, b).
Proof. by destruct v6. Qed.

Lemma sweep_intervals_elem p iv :
  iv ∈ sweep_intervals p ↔ ∃ i s, specs p !! i = Some s ∧ iv ∈ spec_intervals s i.
Proof.
  unfold sweep_intervals. rewrite vec_dedup_elem, (merge_sort_Permutation interval_le).
  rewrite collect_intervals_elem. set_solver.
Qed.

Lemma conflict_shares p i j :
  Forall spec_wf (specs p) →
  conflict (sweep_intervals p) (i, j) ↔ (i < j)%nat ∧ shares_address p i j.
Proof.
  intros Hwf. unfold conflict. setoid_rewrite sweep_intervals_elem. split.
  - intros (a & b & (ia & sa & Hsa & Ha) & (ib & sb & Hsb & Hb) & (Hf & Hab & Hba) & Hne & Hpr).
    pose proof (spec_intervals_spec _ _ _ Ha) as Ea. pose proof (spec_intervals_spec _ _ _ Hb) as Eb.
    assert (spec_wf sa) as Hwa by (by eapply Forall_lookup_1 in Hwf).
    assert (spec_wf sb) as Hwb by (by eapply Forall_lookup_1 in Hwf).
    pose proof (spec_intervals_wf _ _ _ Hwa Ha). pose proof (spec_intervals_wf _ _ _ Hwb Hb).
    unfold iv_wf in *.
    set (ip := bits_to_ip (iv_v6 a) (Z.max (iv_lo a) (iv_lo b))).
    assert (ip ∈ spec_ips sa) as Hia.
    { apply (spec_intervals_ips _ ia); [done|]. exists a. unfold ip. rewrite bits_to_ip_bits. simpl.
      split_and!; [done|done|lia|lia]. }
    assert (ip ∈ spec_ips sb) as Hib.
    { apply (spec_intervals_ips _ ib); [done|]. exists b. unfold ip. rewrite bits_to_ip_bits. simpl.
      split_and!; [done|done|lia|lia]. }
    unfold mkpair in Hpr. rewrite Ea, Eb in Hpr. rewrite Ea, Eb in Hne. injection Hpr as -> ->.
    destruct (Nat.lt_ge_cases ia ib).
    + rewrite Nat.min_l, Nat.max_r by lia. split; [lia|]. by exists sa, sb, ip.
    + rewrite Nat.min_r, Nat.max_l by lia. split; [lia|]. by exists sb, sa, ip.
  - intros (Hlt & si & sj & ip & Hi & Hj & Hpi & Hpj).
    assert (spec_wf si) as Hwi by (by eapply Forall_lookup_1 in Hwf).
    assert (spec_wf sj) as Hwj by (by eapply Forall_lookup_1 in Hwf).
    apply (spec_intervals_ips _ i) in Hpi as (a & Ha & Hva & Hba); [|done].
    apply (spec_intervals_ips _ j) in Hpj as (b & Hb & Hvb & Hbb); [|done].
    exists a, b. split_and!; [eauto|eauto|..].
    + unfold iv_overlap. split_and!; [congruence|lia|lia].
    + rewrite (spec_intervals_spec _ _ _ Ha), (spec_intervals_spec _ _ _ Hb). lia.
    + unfold mkpair. rewrite (spec_intervals_spec _ _ _ Ha), (spec_intervals_spec _ _ _ Hb).
      by rewrite Nat.min_l, Nat.max_r by lia.
Qed.

#[global] Instance pair_le_total : Total pair_le.
Proof. intros a b. unfold pair_le. lia. Qed.
#[global] Instance pair_le_trans : Transitive pair_le.
Proof. intros a b c. unfold pair_le. lia. Qed.

Lemma originals_at_all p found :
  (∀ ab, ab ∈ found → shares_address p ab.1 ab.2) →
  Forall2 (λ ab tt, originals_at p ab = Some tt) found (omap (originals_at p) found).
Proof.
  induction found as [|ab found IH]; intros Hf; simpl; [constructor|].
  destruct (Hf ab ltac:(set_solver)) as (si & sj & ip & Hi & Hj & _).
  unfold originals_at at 2. rewrite Hi. simpl. rewrite Hj. simpl.
  constructor; [unfold originals_at; by rewrite Hi; simpl; rewrite Hj|]. apply IH. set_solver.
Qed.

(** The overlap warning is exact.  The pairs it names are, in order and each
    once, pairs of specs that stream a common address; when it does not say
    that more pairs overlap it names every such pair, and when it does it names
    twenty and there is one it does not name. *)
Theorem find_overlaps_exact p :
  Forall spec_wf (specs p) →
  ∃ found : list (nat * nat),
    Forall2 (λ ab tt, originals_at p ab = Some tt) found (ov_pairs (find_overlaps p)) ∧
    StronglySorted pair_le found ∧ NoDup found ∧
    (∀ a b, (a, b) ∈ found → (a < b)%nat ∧ shares_address p a b) ∧
    (ov_more (find_overlaps p) = false →
       ∀ a b, (a < b)%nat → shares_address p a b → (a, b) ∈ found) ∧
    (ov_more (find_overlaps p) = true →
       length found = REPORTED_OVERLAPS ∧
       ∃ a b, (a < b)%nat ∧ shares_address p a b ∧ (a, b) ∉ found).
Proof.
  intros Hwf. unfold find_overlaps.
  destruct (sweep (sweep_intervals p) [] []) as [f more] eqn:Hsw. simpl.
  destruct (sweep_spec _ [] _ _ _ _ Hsw) as (Hnd & Hsound & Hcomp & Hfull).
  { apply vec_dedup_sorted, (StronglySorted_merge_sort interval_le). }
  { apply Forall_forall. intros iv (i & s & Hs & Hiv)%sweep_intervals_elem.
    eapply spec_intervals_wf; [|exact Hiv]. by eapply Forall_lookup_1 in Hwf. }
  { apply sweep_inv_init. }
  simpl in *. pose proof (merge_sort_Permutation pair_le f) as Hperm.
  exists (merge_sort pair_le f). split_and!.
  - apply originals_at_all. intros [a b]. rewrite Hperm. intros Hin%Hsound.
    by apply conflict_shares in Hin as [_ ?].
  - apply (StronglySorted_merge_sort pair_le).
  - by rewrite Hperm.
  - intros a b. rewrite Hperm. intros Hin%Hsound. by apply conflict_shares.
  - intros Hm a b Hlt Hsh. rewrite Hperm. apply Hcomp; [done|]. by apply conflict_shares.
  - intros Hm. destruct (Hfull Hm) as (Hlen & [a b] & Hc & Hni).
    apply conflict_shares in Hc as [? ?]; [|done].
    split; [by rewrite Hperm|]. exists a, b. by rewrite Hperm.
Qed.

End Plan.

#[local] Existing Instance sample_ipnet.
#[local] Existing Instance sample_errors.

(** A block, an address inside it and one outside. *)
Definition sample_overlap_plan : ResolvedPlan :=
  mkPlan [Block (V4 10) (V4 20) (TRange (V4 10) (V4 20)); Resolved [V6 15; V4 15] (TDnsName (s! "a"));
          Block (V4 30) (V4 30) (TIp (V4 30))] 0.

Lemma find_overlaps_exact_witness :
  ov_pairs (find_overlaps sample_overlap_plan) = [(TRange (V4 10) (V4 20), TDnsName (s! "a"))] ∧
  ∃ found : list (nat * nat),
    (∀ a b, (a, b) ∈ found → (a < b)%nat ∧ shares_address sample_overlap_plan a b) ∧
    (∀ a b, (a < b)%nat → shares_address sample_overlap_plan a b → (a, b) ∈ found).
Proof.
  split; [reflexivity|].
  destruct (find_overlaps_exact sample_overlap_plan) as (found & _ & _ & _ & Hs & Hc & _).
  { repeat constructor; simpl; unfold U32_MAX; lia. }
  exists found. split; [exact Hs|]. apply Hc. reflexivity.
Defined.
