(* ===== verification/F64.v ===== *)
(** * Binary64 arithmetic

    Rust's [f64] as the Standard Library's executable binary64 ([spec_float]
    with 53 bits of mantissa), the operations the fusers use on confidences and
    weights, and what they preserve: sums and products of non-negative numbers
    stay non-negative and never become NaN, and comparison is a total preorder
    away from NaN. *)

From Stdlib Require Export SpecFloat.
From S2P Require Import Prelude.

Abbreviation f64 := spec_float.

#[global] Instance f64_eq_dec : EqDecision f64.
Proof. solve_decision. Defined.

Definition f64_prec : Z := 53.
Definition f64_emax : Z := 1024.

Definition f64_add : f64 → f64 → f64 := SFadd f64_prec f64_emax.
Definition f64_sub : f64 → f64 → f64 := SFsub f64_prec f64_emax.
Definition f64_mul : f64 → f64 → f64 := SFmul f64_prec f64_emax.
Definition f64_lt (x y : f64) : bool := SFltb x y.
Definition f64_le (x y : f64) : bool := SFleb x y.
Definition f64_eq (x y : f64) : bool := SFeqb x y.

(** [n as f64] for an integer, rounded to nearest, ties to even. *)
Definition f64_of_Z (n : Z) : f64 := binary_normalize f64_prec f64_emax n 0 false.

(** The decimal literal [a/b]: the nearest binary64 to the quotient. *)
Definition f64_ratio (a b : Z) : f64 :=
  SFdiv f64_prec f64_emax (f64_of_Z a) (f64_of_Z b).

Definition f64_zero : f64 := S754_zero false.
Definition f64_one : f64 := f64_of_Z 1.

Definition is_nan (x : f64) : bool := match x with S754_nan => true | _ => false end.

(** [f64::is_finite]. *)
Definition is_finite (x : f64) : bool :=
  match x with S754_zero _ | S754_finite _ _ _ => true | _ => false end.

(** [f64::min]: a NaN loses to the other operand. *)
Definition f64_min (x y : f64) : f64 :=
  if is_nan x then y else if is_nan y then x else if f64_lt y x then y else x.

(** [f64::clamp]: a NaN stays a NaN. *)
Definition f64_clamp (x lo hi : f64) : f64 :=
  let x := if f64_lt x lo then lo else x in
  if f64_lt hi x then hi else x.

(** [(lo..=hi).contains(&x)]. *)
Definition f64_in (lo hi x : f64) : bool := f64_le lo x && f64_le x hi.

(** ** Sign of results *)

(** Not a NaN and not below zero ([-0.0] counts as zero). *)
Definition nonneg (x : f64) : Prop :=
  match x with
  | S754_zero _ => True
  | S754_infinity s | S754_finite s _ _ => s = false
  | S754_nan => False
  end.

Lemma nonneg_not_nan x : nonneg x → is_nan x = false.
Proof. by destruct x. Qed.

Lemma shr_1_nonneg r : 0 ≤ shr_m r → 0 ≤ shr_m (shr_1 r).
Proof. destruct r as [[|[]|[]] ? ?]; simpl; lia. Qed.

Lemma iter_pos_inv {A} (P : A → Prop) (f : A → A) n x :
  (∀ y, P y → P (f y)) → P x → P (SpecFloat.iter_pos f n x).
Proof. intros Hf. revert x. induction n; simpl; auto. Qed.

Lemma shr_record_of_loc_m m l : shr_m (shr_record_of_loc m l) = m.
Proof. by destruct l as [|[]]. Qed.

Lemma shr_fexp_nonneg m e l :
  0 ≤ m → 0 ≤ shr_m (shr_fexp f64_prec f64_emax m e l).1.
Proof.
  intros. unfold shr_fexp, shr.
  assert (0 ≤ shr_m (shr_record_of_loc m l)) by by rewrite shr_record_of_loc_m.
  destruct (_ - _); simpl; [done| |done].
  apply (iter_pos_inv (λ r, 0 ≤ shr_m r)); auto using shr_1_nonneg.
Qed.

Lemma round_nearest_even_nonneg m l : 0 ≤ m → 0 ≤ round_nearest_even m l.
Proof. destruct l as [|[]]; simpl; [lia|destruct (Z.even m); lia|lia|lia]. Qed.

Lemma binary_round_aux_nonneg m e l :
  0 ≤ m → nonneg (binary_round_aux f64_prec f64_emax false m e l).
Proof.
  intros Hm. unfold binary_round_aux.
  destruct (shr_fexp _ _ m e l) as [r e'] eqn:E1.
  assert (0 ≤ shr_m r).
  { pose proof (shr_fexp_nonneg m e l Hm) as H. by rewrite E1 in H. }
  destruct (shr_fexp _ _ _ e' loc_Exact) as [r' e''] eqn:E2.
  assert (0 ≤ shr_m r').
  { pose proof (shr_fexp_nonneg _ e' loc_Exact
      (round_nearest_even_nonneg _ (loc_of_shr_record r) H)) as H'. by rewrite E2 in H'. }
  destruct (shr_m r'); [done| |lia]. by destruct (_ <=? _).
Qed.

Lemma binary_normalize_nonneg m e :
  0 ≤ m → nonneg (binary_normalize f64_prec f64_emax m e false).
Proof.
  intros. destruct m; [done| |lia]. unfold binary_normalize, binary_round.
  destruct (shl_align _ _ _). apply binary_round_aux_nonneg. lia.
Qed.

Lemma f64_of_Z_nonneg n : 0 ≤ n → nonneg (f64_of_Z n).
Proof. apply binary_normalize_nonneg. Qed.

Lemma f64_add_nonneg x y : nonneg x → nonneg y → nonneg (f64_add x y).
Proof.
  unfold f64_add, SFadd.
  destruct x as [sx|sx| |sx mx ex], y as [sy|sy| |sy my ey];
    cbn [nonneg]; intros Hx Hy; subst; try done; try by destruct sx, sy.
  apply binary_normalize_nonneg. unfold cond_Zopp. lia.
Qed.

Lemma f64_mul_nonneg x y :
  nonneg x → nonneg y → is_finite x = true → is_finite y = true → nonneg (f64_mul x y).
Proof.
  unfold f64_mul, SFmul.
  destruct x as [sx|sx| |sx mx ex], y as [sy|sy| |sy my ey];
    simpl; intros Hx Hy ? ?; subst; try done.
  apply binary_round_aux_nonneg. lia.
Qed.

(** Infinity times zero is the one way out of the non-negative numbers. *)
Lemma f64_mul_nan_or_nonneg x y :
  nonneg x → nonneg y → is_nan (f64_mul x y) = true ∨ nonneg (f64_mul x y).
Proof.
  intros Hx Hy. destruct (is_finite x) eqn:Fx, (is_finite y) eqn:Fy.
  1: right; by apply f64_mul_nonneg.
  all: unfold f64_mul, SFmul; destruct x as [sx|sx| |sx mx ex], y as [sy|sy| |sy my ey];
    simpl in *; subst; try done; first [by left|by right].
Qed.

(** ** Comparison *)

(** The place of a float in the order: sign class, then exponent and mantissa. *)
Definition f64_key (x : f64) : Z * Z * Z :=
  match x with
  | S754_zero _ => (0, 0, 0)
  | S754_infinity false => (2, 0, 0)
  | S754_infinity true => (-2, 0, 0)
  | S754_nan => (0, 0, 0)
  | S754_finite false m e => (1, e, Z.pos m)
  | S754_finite true m e => (-1, - e, Z.neg m)
  end.

Definition key_lt (a b : Z * Z * Z) : Prop :=
  a.1.1 < b.1.1 ∨ a.1.1 = b.1.1 ∧ (a.1.2 < b.1.2 ∨ a.1.2 = b.1.2 ∧ a.2 < b.2).

Lemma SFcompare_key x y :
  is_nan x = false → is_nan y = false →
  match SFcompare x y with
  | Some Lt => key_lt (f64_key x) (f64_key y)
  | Some Eq => f64_key x = f64_key y
  | Some Gt => key_lt (f64_key y) (f64_key x)
  | None => False
  end.
Proof.
  unfold key_lt.
  destruct x as [[]|[]| |[] mx ex], y as [[]|[]| |[] my ey]; try done; intros _ _; simpl;
    try lia.
  - change (Pos.compare_cont Eq mx my) with (Pos.compare mx my).
    destruct (Z.compare_spec ex ey); simpl; [|lia|lia].
    destruct (Pos.compare_spec mx my); simpl; subst; [done|lia|lia].
  - change (Pos.compare_cont Eq mx my) with (Pos.compare mx my).
    destruct (Z.compare_spec ex ey); simpl; [|lia|lia].
    destruct (Pos.compare_spec mx my); simpl; subst; [done|lia|lia].
Qed.

Section order.
Context (x y : f64) (Hx : is_nan x = false) (Hy : is_nan y = false).

Lemma f64_lt_key : f64_lt x y = true ↔ key_lt (f64_key x) (f64_key y).
Proof using Hx Hy.
  unfold f64_lt, SFltb. pose proof (SFcompare_key x y Hx Hy) as H. unfold key_lt in *.
  destruct (SFcompare x y) as [[]|]; [rewrite H| | |done]; naive_solver lia.
Qed.

Lemma f64_eq_key : f64_eq x y = true ↔ f64_key x = f64_key y.
Proof using Hx Hy.
  unfold f64_eq, SFeqb. pose proof (SFcompare_key x y Hx Hy) as H. unfold key_lt in *.
  destruct (SFcompare x y) as [[]|]; [by rewrite H| | |done];
    (split; [done|intros E; rewrite E in H; lia]).
Qed.

Lemma f64_le_key : f64_le x y = true ↔ ¬ key_lt (f64_key y) (f64_key x).
Proof using Hx Hy.
  unfold f64_le, SFleb. pose proof (SFcompare_key x y Hx Hy) as H. unfold key_lt in *.
  destruct (SFcompare x y) as [[]|]; [rewrite H| | |done]; naive_solver lia.
Qed.
End order.

Lemma nonneg_le x : is_nan x = false → nonneg x ↔ f64_le f64_zero x = true.
Proof. by destruct x as [[]|[]| |[] ? ?]. Qed.

(** Taking the minimum with [1.0] of a non-negative value, or clamping any
    number, lands in the unit interval. *)
Definition in_unit (x : f64) : bool := is_finite x && f64_in f64_zero f64_one x.

Lemma not_above_one x : nonneg x → f64_lt f64_one x = false → in_unit x = true.
Proof.
  intros Hx Hlt. pose proof (nonneg_not_nan x Hx) as Hn.
  assert (f64_le x f64_one = true) as Hle.
  { apply f64_le_key; [done|done|]. rewrite <-f64_lt_key; [by rewrite Hlt|done|done]. }
  unfold in_unit, f64_in. rewrite Hle, (proj1 (nonneg_le x Hn) Hx).
  by destruct x as [|[]| |[] ? ?].
Qed.

Lemma f64_min_unit x : nonneg x → in_unit (f64_min x f64_one) = true.
Proof.
  intros Hx. unfold f64_min. rewrite (nonneg_not_nan x Hx).
  change (is_nan f64_one) with false. cbv iota.
  destruct (f64_lt f64_one x) eqn:E; [done|]. by apply not_above_one.
Qed.

Lemma f64_min_unit_nan x :
  is_nan x = true ∨ nonneg x → in_unit (f64_min x f64_one) = true.
Proof. intros [Hx|Hx]; [|by apply f64_min_unit]. unfold f64_min. by rewrite Hx. Qed.

Lemma f64_add_nan x y : is_nan y = true → is_nan (f64_add x y) = true.
Proof. by destruct y, x. Qed.

Lemma f64_clamp_unit x : is_nan x = false → in_unit (f64_clamp x f64_zero f64_one) = true.
Proof.
  intros Hn. unfold f64_clamp.
  destruct (f64_lt x f64_zero) eqn:E; [done|].
  destruct (f64_lt f64_one x) eqn:E'; [done|].
  apply not_above_one; [|done]. by destruct x as [[]|[]| |[] ? ?].
Qed.

Lemma in_unit_nonneg x : in_unit x = true → nonneg x.
Proof. by destruct x as [[]|[]| |[] ? ?]. Qed.

#[export] Hint Resolve f64_add_nonneg f64_mul_nonneg f64_of_Z_nonneg in_unit_nonneg
  nonneg_not_nan : rastreo.
