(* ===== verification/Model.v ===== *)
(** * The data model

    Probe kinds, signals, probe outcomes, device and link records
    ([src/rastreo-core/src/model/]), the kind vocabulary macro
    ([kind_vocabulary.rs]) and the object-identifier predicates ([oid.rs]). *)

From S2P Require Import Prelude Net F64.

(** ** Probe kinds: [model/outcome.rs] through [kind_vocabulary!] *)

Inductive ProbeKind : Type :=
  | TcpConnect | Udp | Http | Dns | Snmp | Arp | Ndp | Ssh | Icmp | Tls
  | ReverseDns | Gnmi | Lldp.

#[global] Instance ProbeKind_eq_dec : EqDecision ProbeKind.
Proof. solve_decision. Defined.

Definition probe_kind_all : list ProbeKind :=
  [TcpConnect; Udp; Http; Dns; Snmp; Arp; Ndp; Ssh; Icmp; Tls; ReverseDns; Gnmi; Lldp].

Definition PROBE_KIND_COUNT : nat := length probe_kind_all.

Definition probe_kind_index (k : ProbeKind) : nat :=
  match k with
  | TcpConnect => 0 | Udp => 1 | Http => 2 | Dns => 3 | Snmp => 4 | Arp => 5 | Ndp => 6
  | Ssh => 7 | Icmp => 8 | Tls => 9 | ReverseDns => 10 | Gnmi => 11 | Lldp => 12
  end.

Definition probe_kind_label (k : ProbeKind) : Str :=
  match k with
  | TcpConnect => s! "tcp_connect" | Udp => s! "udp" | Http => s! "http" | Dns => s! "dns"
  | Snmp => s! "snmp" | Arp => s! "arp" | Ndp => s! "ndp" | Ssh => s! "ssh"
  | Icmp => s! "icmp" | Tls => s! "tls" | ReverseDns => s! "reverse_dns"
  | Gnmi => s! "gnmi" | Lldp => s! "lldp"
  end.

(** The arms of the generated [match] are tried in declaration order. *)
Definition probe_kind_from_label (s : Str) : option ProbeKind :=
  find_map (λ k, if bool_decide (probe_kind_label k = s) then Some k else None) probe_kind_all.

(** ** Observations: [model/outcome.rs] *)

Inductive Signal : Type :=
  | OpenPort (port : Z)
  | HttpBanner (v : Str)
  | SnmpSysObjectId (v : Str)
  | SnmpSysDescr (v : Str)
  | Mac (v : Str)
  | DnsHost (v : Str)
  | NtpBanner (v : Str)
  | SipUserAgent (v : Str)
  | MemcachedVersion (v : Str)
  | StunMappedAddress (v : Str)
  | SnmpSysName (v : Str)
  | SshBanner (v : Str)
  | SshHostKey (v : Str)
  | IcmpEchoRttMicros (micros : Z)
  | TlsSubject (v : Str)
  | TlsSanName (v : Str)
  | TlsProtocolVersion (v : Str)
  | TlsCipherSuite (v : Str)
  | TlsAlpn (v : Str)
  | ReverseDnsName (v : Str)
  | GnmiVersion (v : Str)
  | GnmiSupportedModel (v : Str)
  | GnmiSupportedEncoding (v : Str)
  | GnmiState (path value : Str).

#[global] Instance Signal_eq_dec : EqDecision Signal.
Proof. solve_decision. Defined.

Record ProbeFault : Type := mkProbeFault {
  pf_kind : ProbeErrorKind;
  pf_detail : Str;
}.

Record LldpNeighbor : Type := mkLldpNeighbor {
  ln_local_port : Str;
  ln_remote_chassis_id : Str;
  ln_remote_chassis_subtype : Z;
  ln_remote_port_id : Str;
  ln_remote_port_subtype : Z;
  ln_remote_port_desc : option Str;
  ln_remote_sys_name : option Str;
}.

Record LldpObservation : Type := mkLldpObservation {
  lo_local_chassis_id : Str;
  lo_local_chassis_subtype : Z;
  lo_neighbors : list LldpNeighbor;
  lo_discovered_via : Str;
}.

Inductive Transport : Type := TransportTls | TransportPlaintext.

Record GnmiEndpoint : Type := mkGnmiEndpoint {
  ge_port : Z;
  ge_transport : Transport;
  ge_advertised_encodings : list Str;
}.

#[global] Instance ProbeFault_eq_dec : EqDecision ProbeFault.
Proof. solve_decision. Defined.
#[global] Instance LldpNeighbor_eq_dec : EqDecision LldpNeighbor.
Proof. solve_decision. Defined.
#[global] Instance LldpObservation_eq_dec : EqDecision LldpObservation.
Proof. solve_decision. Defined.
#[global] Instance Transport_eq_dec : EqDecision Transport.
Proof. solve_decision. Defined.
#[global] Instance GnmiEndpoint_eq_dec : EqDecision GnmiEndpoint.
Proof. solve_decision. Defined.

(** A [SystemTime] is its distance from the Unix epoch in nanoseconds. *)
Abbreviation SystemTime := Z.
Definition UNIX_EPOCH : SystemTime := 0.

Record ProbeOutcome : Type := mkProbeOutcome {
  po_kind : ProbeKind;
  po_target_ip : IpAddr;
  po_timestamp : SystemTime;
  po_reachable : bool;
  po_signals : list Signal;
  po_fault : option ProbeFault;
  po_lldp : option LldpObservation;
  po_gnmi_endpoint : option GnmiEndpoint;
}.

(** ** Scan provenance: [model/scan.rs] *)

Record ScanMetadata : Type := mkScanMetadata {
  sm_scan_id : Str;
  sm_scenario_name : option Str;
  sm_initiated_at : SystemTime;
  sm_source_config_hash : option Str;
}.

#[global] Instance ScanMetadata_eq_dec : EqDecision ScanMetadata.
Proof. solve_decision. Defined.

Definition scan_metadata_default : ScanMetadata := {|
  sm_scan_id := [];
  sm_scenario_name := None;
  sm_initiated_at := UNIX_EPOCH;
  sm_source_config_hash := None;
|}.

(** [hex_lower]: two digits per byte. *)
Definition hex_lower (bytes : list Z) : Str :=
  mjoin ((λ b, [digit_char (Z.shiftr b 4); digit_char (Z.land b 15)]) <$> bytes).

(** ** Device records: [model/device.rs] *)

Definition CURRENT_SCHEMA_VERSION : Str := s! "v1".
Definition CURRENT_SCHEMA_ID : Str :=
  s! "https://davidban77.github.io/rastreo/schemas/device-record-v1.json".

Abbreviation IdentityKey := Str.

(** [IdentityKey::new]. *)
Definition identity_key_new `{UnicodeCase} (value : Str) : Result ConfigError IdentityKey :=
  let trimmed := trim value in
  if is_empty trimmed then Err (InvalidValue (s! "identity key cannot be empty"))
  else Ok (str_to_lowercase trimmed).

(** How a float is written in an error message. *)
Class F64Display := f64_display : f64 → Str.

Abbreviation Confidence := f64.

(** [Confidence::new]. *)
Definition confidence_new `{F64Display} (v : f64) : Result ConfigError Confidence :=
  if is_finite v && f64_in f64_zero f64_one v then Ok v
  else Err (InvalidValue
    (s! "confidence must be finite and in [0.0, 1.0], got " ++ f64_display v)).

Inductive AltIpRole : Type := Secondary | Loopback | Vrrp | Hsrp | Carp | Anycast | Vip.

#[global] Instance AltIpRole_eq_dec : EqDecision AltIpRole.
Proof. solve_decision. Defined.

Record AltIp : Type := mkAltIp {
  ai_address : IpAddr;
  ai_role : option AltIpRole;
  ai_responded_via : list ProbeKind;
}.

#[global] Instance AltIp_eq_dec : EqDecision AltIp.
Proof. solve_decision. Defined.

(** [AltIp::new]. *)
Definition alt_ip_new (address : IpAddr) : AltIp := mkAltIp address None [].

Record DeviceRecord : Type := mkDeviceRecord {
  dr_identity_key : IdentityKey;
  dr_mgmt_ip : option IpAddr;
  dr_mac : option Str;
  dr_manufacturer : option Str;
  dr_model : option Str;
  dr_product_family : option Str;
  dr_platform : option Str;
  dr_os_version : option Str;
  dr_ssh_version : option Str;
  dr_http_server : option Str;
  dr_http_version : option Str;
  dr_role : option Str;
  dr_confidence : Confidence;
  dr_last_seen : SystemTime;
  dr_signals : list Signal;
  dr_probe_kinds : list ProbeKind;
  dr_schema_version : Str;
  dr_schema_id : Str;
  dr_alt_ips : list AltIp;
  dr_possible_alias_of : option IdentityKey;
  dr_scan_metadata : ScanMetadata;
}.

#[global] Instance DeviceRecord_eq_dec : EqDecision DeviceRecord.
Proof. solve_decision. Defined.

(** Assignments to single fields of a record. *)
Definition set_possible_alias_of (k : option IdentityKey) (r : DeviceRecord) : DeviceRecord :=
  {| dr_identity_key := dr_identity_key r; dr_mgmt_ip := dr_mgmt_ip r; dr_mac := dr_mac r;
     dr_manufacturer := dr_manufacturer r; dr_model := dr_model r;
     dr_product_family := dr_product_family r; dr_platform := dr_platform r;
     dr_os_version := dr_os_version r; dr_ssh_version := dr_ssh_version r;
     dr_http_server := dr_http_server r; dr_http_version := dr_http_version r;
     dr_role := dr_role r; dr_confidence := dr_confidence r; dr_last_seen := dr_last_seen r;
     dr_signals := dr_signals r; dr_probe_kinds := dr_probe_kinds r;
     dr_schema_version := dr_schema_version r; dr_schema_id := dr_schema_id r;
     dr_alt_ips := dr_alt_ips r; dr_possible_alias_of := k;
     dr_scan_metadata := dr_scan_metadata r |}.

Definition set_hardware (manufacturer model product_family : option Str) (r : DeviceRecord)
    : DeviceRecord :=
  {| dr_identity_key := dr_identity_key r; dr_mgmt_ip := dr_mgmt_ip r; dr_mac := dr_mac r;
     dr_manufacturer := manufacturer; dr_model := model;
     dr_product_family := product_family; dr_platform := dr_platform r;
     dr_os_version := dr_os_version r; dr_ssh_version := dr_ssh_version r;
     dr_http_server := dr_http_server r; dr_http_version := dr_http_version r;
     dr_role := dr_role r; dr_confidence := dr_confidence r; dr_last_seen := dr_last_seen r;
     dr_signals := dr_signals r; dr_probe_kinds := dr_probe_kinds r;
     dr_schema_version := dr_schema_version r; dr_schema_id := dr_schema_id r;
     dr_alt_ips := dr_alt_ips r; dr_possible_alias_of := dr_possible_alias_of r;
     dr_scan_metadata := dr_scan_metadata r |}.

Definition set_classification
    (platform os_version ssh_version http_server http_version role : option Str)
    (r : DeviceRecord) : DeviceRecord :=
  {| dr_identity_key := dr_identity_key r; dr_mgmt_ip := dr_mgmt_ip r; dr_mac := dr_mac r;
     dr_manufacturer := dr_manufacturer r; dr_model := dr_model r;
     dr_product_family := dr_product_family r; dr_platform := platform;
     dr_os_version := os_version; dr_ssh_version := ssh_version;
     dr_http_server := http_server; dr_http_version := http_version;
     dr_role := role; dr_confidence := dr_confidence r; dr_last_seen := dr_last_seen r;
     dr_signals := dr_signals r; dr_probe_kinds := dr_probe_kinds r;
     dr_schema_version := dr_schema_version r; dr_schema_id := dr_schema_id r;
     dr_alt_ips := dr_alt_ips r; dr_possible_alias_of := dr_possible_alias_of r;
     dr_scan_metadata := dr_scan_metadata r |}.

Definition set_scan_metadata (m : ScanMetadata) (r : DeviceRecord) : DeviceRecord :=
  {| dr_identity_key := dr_identity_key r; dr_mgmt_ip := dr_mgmt_ip r; dr_mac := dr_mac r;
     dr_manufacturer := dr_manufacturer r; dr_model := dr_model r;
     dr_product_family := dr_product_family r; dr_platform := dr_platform r;
     dr_os_version := dr_os_version r; dr_ssh_version := dr_ssh_version r;
     dr_http_server := dr_http_server r; dr_http_version := dr_http_version r;
     dr_role := dr_role r; dr_confidence := dr_confidence r; dr_last_seen := dr_last_seen r;
     dr_signals := dr_signals r; dr_probe_kinds := dr_probe_kinds r;
     dr_schema_version := dr_schema_version r; dr_schema_id := dr_schema_id r;
     dr_alt_ips := dr_alt_ips r; dr_possible_alias_of := dr_possible_alias_of r;
     dr_scan_metadata := m |}.

(** What every record in circulation satisfies: a confidence in the unit
    interval and no signal or probe kind listed twice. *)
Record record_wf (r : DeviceRecord) : Prop := {
  wf_confidence : in_unit (dr_confidence r) = true;
  wf_signals : NoDup (dr_signals r);
  wf_probe_kinds : NoDup (dr_probe_kinds r);
}.

Lemma confidence_new_Ok `{F64Display} v : in_unit v = true → confidence_new v = Ok v.
Proof. unfold in_unit, confidence_new. by intros ->. Qed.

(** ** Links: [model/link.rs] *)

Definition LINK_SCHEMA_ID : Str :=
  s! "https://davidban77.github.io/rastreo/schemas/link-record-v1.json".
Definition LINK_CURRENT_SCHEMA_VERSION : Str := s! "v1".

Record LinkEndpoint : Type := mkLinkEndpoint {
  le_identity_key : option Str;
  le_chassis_id : Str;
  le_sys_name : option Str;
  le_port : Str;
}.

Record LinkRecord : Type := mkLinkRecord {
  lr_schema_version : Str;
  lr_schema_id : Str;
  lr_a : LinkEndpoint;
  lr_b : LinkEndpoint;
  lr_discovered_via : Str;
  lr_observed_at : SystemTime;
  lr_scan_metadata : ScanMetadata;
}.

#[global] Instance LinkEndpoint_eq_dec : EqDecision LinkEndpoint.
Proof. solve_decision. Defined.
#[global] Instance LinkRecord_eq_dec : EqDecision LinkRecord.
Proof. solve_decision. Defined.

(** ** Object identifiers: [oid.rs] *)

(** The loop over the arcs: the number of arcs, or [None] at the first arc
    that is not a digit run. *)
Fixpoint count_arcs (parts : list Str) (arcs : nat) : option nat :=
  match parts with
  | [] => Some arcs
  | part :: rest =>
      if is_empty part || negb (forallb is_ascii_digit part) then None
      else count_arcs rest (S arcs)
  end.

Definition is_dotted_decimal (s : Str) : bool :=
  match count_arcs (split_on 46 s) 0 with
  | Some arcs => (2 <=? arcs)%nat
  | None => false
  end.

Definition has_arc_prefix (oid prefix : Str) : bool :=
  match strip_prefix prefix oid with
  | Some rest => is_empty rest || bool_decide (head rest = Some 46)
  | None => false
  end.

(** *** Arc prefixes are list prefixes *)

Lemma split_on_nonempty c s : split_on c s ≠ [].
Proof. destruct s as [|x s]; simpl; [done|]. destruct (split_on c s); [done|]. by destruct (_ =? _). Qed.

Lemma split_on_cons c x s :
  split_on c (x :: s) =
  if x =? c then [] :: split_on c s
  else match split_on c s with p :: ps => (x :: p) :: ps | [] => [] end.
Proof.
  simpl. pose proof (split_on_nonempty c s). destruct (split_on c s); [done|].
  by destruct (x =? c).
Qed.

(** Splitting turns the separator between two texts into an append. *)
Lemma split_on_app_sep c s t :
  split_on c (s ++ c :: t) = split_on c s ++ split_on c t.
Proof.
  induction s as [|x s IH]; cbn [app].
  - rewrite split_on_cons, Z.eqb_refl. done.
  - rewrite !split_on_cons, IH. destruct (x =? c); [done|].
    pose proof (split_on_nonempty c s). by destruct (split_on c s).
Qed.

(** Joining the pieces gives the text back. *)
Lemma join_split_on c s : join [c] (split_on c s) = s.
Proof.
  induction s as [|x s IH]; [done|]. rewrite split_on_cons.
  pose proof (split_on_nonempty c s). destruct (split_on c s) as [|p ps] eqn:E; [done|].
  destruct (Z.eqb_spec x c) as [->|]; simpl in *; [by rewrite IH|].
  destruct ps; by rewrite <-IH.
Qed.

Lemma join_snoc (sep p : Str) ps : ps ≠ [] → join sep (ps ++ [p]) = join sep ps ++ sep ++ p.
Proof.
  induction ps as [|q ps IH]; intros Hne; [done|]. destruct ps as [|q' ps]; [done|].
  change (join sep ((q :: q' :: ps) ++ [p])) with (q ++ sep ++ join sep ((q' :: ps) ++ [p])).
  rewrite IH by done. simpl. by rewrite !(assoc_L (++)).
Qed.

(** What precedes an arc list that extends another is that text and a separator. *)
Lemma split_on_prefix c p s rest :
  split_on c s = split_on c p ++ rest → rest = [] ∧ s = p ∨ ∃ t, s = p ++ c :: t.
Proof.
  revert s. induction p as [|x p IH]; intros s E.
  - destruct s as [|y s]; [by destruct rest; [left|]|].
    rewrite split_on_cons in E. pose proof (split_on_nonempty c s).
    destruct (Z.eqb_spec y c) as [->|]; [right; by exists s|].
    destruct (split_on c s); simplify_eq/=.
  - rewrite split_on_cons in E. pose proof (split_on_nonempty c p) as Hp.
    destruct s as [|y s].
    { destruct (x =? c); simpl in E; [destruct (split_on c p); simplify_eq/=|].
      destruct (split_on c p); simplify_eq/=. }
    rewrite split_on_cons in E. pose proof (split_on_nonempty c s) as Hs.
    destruct (Z.eqb_spec x c) as [->|Hx], (Z.eqb_spec y c) as [->|Hy].
    + injection E as E. destruct (IH _ E) as [[-> ->]|[t ->]]; [by left|right; by exists t].
    + destruct (split_on c s); simplify_eq/=.
    + destruct (split_on c p); simplify_eq/=.
    + destruct (split_on c p) as [|q qs] eqn:Ep; [done|].
      destruct (split_on c s) as [|q' qs'] eqn:Es; [done|].
      simplify_eq/=. destruct (IH s) as [[-> ->]|[t ->]]; [by rewrite Es|by left|].
      right; by exists t.
Qed.

(** Textual prefix matching with the arc-boundary check is exactly "equal to the
    prefix or inside its subtree", read on the lists of arcs. *)
Lemma has_arc_prefix_arcs oid prefix :
  has_arc_prefix oid prefix = true ↔
  split_on 46 prefix `prefix_of` split_on 46 oid.
Proof.
  unfold has_arc_prefix. split.
  - destruct (strip_prefix prefix oid) as [rest|] eqn:E; [|done].
    apply strip_prefix_Some in E as ->. destruct rest as [|c rest]; simpl; intros H.
    + rewrite app_nil_r. done.
    + case_bool_decide as Hc; [|done]. injection Hc as ->.
      rewrite split_on_app_sep. by exists (split_on 46 rest).
  - intros [rest E]. apply split_on_prefix in E as [[_ ->]|[t ->]].
    + assert (strip_prefix prefix prefix = Some []) as ->; [|done].
      apply strip_prefix_Some. by rewrite app_nil_r.
    + assert (strip_prefix prefix (prefix ++ 46 :: t) = Some (46 :: t)) as ->; [|done].
      by apply strip_prefix_Some.
Qed.
