(* ===== verification/FuserCore.v ===== *)
(** * Fusers: keys, the direct fuser, MIB enrichment, configuration

    [src/rastreo-core/src/fuser/keys.rs], [mod.rs], [mib.rs], [selection.rs] and
    the hint types and MAC parsing of [identity.rs]. *)

From S2P Require Import Prelude Net F64 Model.

(** ** Correlation keys: [fuser/keys.rs] *)

Section keys.
Context `{UnicodeCase}.

Definition is_mac_separator (c : Z) : bool := (c =? 58) || (c =? 45).

Definition normalize_mac (mac : Str) : Str :=
  mjoin (char_to_lowercase <$> filter (λ c, is_mac_separator c = false) mac).

Definition canonical_mac_str (s : Str) : Str :=
  mjoin (char_to_lowercase <$>
    filter (λ c, is_mac_separator c || (c =? 46) || is_whitespace c = false) s).

Definition normalize_sys_name (name : Str) : Str := to_ascii_lowercase name.

Definition mac_equal (a b : Str) : bool :=
  bool_decide (normalize_mac a = normalize_mac b).
End keys.

(** ** MAC prefixes: [fuser/identity.rs] *)

(** The loop of [parse_mac_prefix]: the bytes written so far, the pending high
    nibble; [inl] is an early return. *)
Fixpoint parse_mac_loop (mac : Str) (bytes : list Z) (hi : option Z)
    : option (list Z) + (list Z * option Z) :=
  match mac with
  | [] => inr (bytes, hi)
  | c :: mac' =>
      if is_mac_separator c then parse_mac_loop mac' bytes hi
      else
        match to_digit 16 c with
        | None => inl None
        | Some nibble =>
            match hi with
            | None => parse_mac_loop mac' bytes (Some nibble)
            | Some h =>
                if (length bytes =? 5)%nat then inl (Some bytes)
                else parse_mac_loop mac'
                  (bytes ++ [Z.lor (wrap 8 (Z.shiftl h 4)) nibble]) None
            end
        end
  end.

Definition parse_mac_prefix (mac : Str) : option (list Z) :=
  let hex_count := length (filter (λ c, is_mac_separator c = false) mac) in
  if negb (hex_count =? 12)%nat then None
  else
    match parse_mac_loop mac [] None with
    | inl r => r
    | inr (bytes, hi) =>
        if negb (length bytes =? 5)%nat || bool_decide (is_Some hi) then None
        else Some bytes
    end.

Definition VRRP_V2_IPV4_PREFIX : list Z := [0x00; 0x00; 0x5E; 0x00; 0x01].
Definition VRRP_V3_IPV6_PREFIX : list Z := [0x00; 0x00; 0x5E; 0x00; 0x02].
Definition HSRP_PREFIX : list Z := [0x00; 0x00; 0x0C; 0x07; 0xAC].

Definition is_virtual_mac (mac : Str) : bool :=
  match parse_mac_prefix mac with
  | None => false
  | Some bytes =>
      bool_decide (bytes = VRRP_V2_IPV4_PREFIX) || bool_decide (bytes = VRRP_V3_IPV6_PREFIX)
      || bool_decide (bytes = HSRP_PREFIX)
  end.

Definition altip_role_from_mac (mac : option Str) : option AltIpRole :=
  match mac ≫= parse_mac_prefix with
  | None => Some Secondary
  | Some bytes =>
      if bool_decide (bytes = VRRP_V2_IPV4_PREFIX) || bool_decide (bytes = VRRP_V3_IPV6_PREFIX)
      then Some Vrrp
      else if bool_decide (bytes = HSRP_PREFIX) then Some Hsrp
      else Some Secondary
  end.

(** ** Hints: [fuser/identity.rs] *)

Record VrrpGroup : Type := mkVrrpGroup {
  vg_virtual_ip : IpAddr;
  vg_virtual_mac : Str;
  vg_members : list IpAddr;
}.

Record IdentityHints : Type := mkIdentityHints {
  ih_vrrp_groups : list VrrpGroup;
  ih_max_correlation_bucket : Z;
}.

Definition default_max_correlation_bucket : Z := 256.

Definition identity_hints_default : IdentityHints := {|
  ih_vrrp_groups := [];
  ih_max_correlation_bucket := default_max_correlation_bucket;
|}.

(** [IdentityHints::new]. *)
Definition identity_hints_new (vrrp_groups : list VrrpGroup) : IdentityHints := {|
  ih_vrrp_groups := vrrp_groups;
  ih_max_correlation_bucket := default_max_correlation_bucket;
|}.

Definition invalid_virtual_mac (mac : Str) : ConfigError :=
  InvalidValue (s! "vrrp_groups virtual_mac '" ++ mac ++ s! "' is not a valid MAC address").

(** [VrrpGroup::new]. *)
Definition vrrp_group_new `{ForeignErrors} (virtual_ip : IpAddr) (virtual_mac : Str)
    (members : list IpAddr) : Result RastreoError VrrpGroup :=
  if bool_decide (parse_mac_prefix virtual_mac = None)
  then Err (EConfig (invalid_virtual_mac virtual_mac))
  else Ok (mkVrrpGroup virtual_ip virtual_mac members).

(** The loop over the declared groups, the same in [IdentityFuser::new] and
    [FuserConfig::validate]. *)
Fixpoint check_vrrp_groups (groups : list VrrpGroup) : Result ConfigError unit :=
  match groups with
  | [] => Ok tt
  | g :: rest =>
      if bool_decide (parse_mac_prefix (vg_virtual_mac g) = None)
      then Err (invalid_virtual_mac (vg_virtual_mac g))
      else check_vrrp_groups rest
  end.

(** ** The direct fuser: [fuser/mod.rs] *)

Record DirectFuser : Type := mkDirectFuser {
  df_confidence_per_signal : f64;
  df_confidence_baseline : f64;
  df_include_unreachable : bool;
}.

Definition DEFAULT_CONFIDENCE_BASELINE : f64 := f64_ratio 1 10.
Definition DEFAULT_CONFIDENCE_PER_SIGNAL : f64 := f64_ratio 1 10.
Definition DEFAULT_INCLUDE_UNREACHABLE : bool := false.

Definition direct_fuser_new : DirectFuser := {|
  df_confidence_per_signal := DEFAULT_CONFIDENCE_PER_SIGNAL;
  df_confidence_baseline := DEFAULT_CONFIDENCE_BASELINE;
  df_include_unreachable := DEFAULT_INCLUDE_UNREACHABLE;
|}.

Definition with_confidence_baseline (v : f64) (f : DirectFuser) : DirectFuser :=
  mkDirectFuser (df_confidence_per_signal f) v (df_include_unreachable f).
Definition with_confidence_per_signal (v : f64) (f : DirectFuser) : DirectFuser :=
  mkDirectFuser v (df_confidence_baseline f) (df_include_unreachable f).
Definition with_include_unreachable (v : bool) (f : DirectFuser) : DirectFuser :=
  mkDirectFuser (df_confidence_per_signal f) (df_confidence_baseline f) v.

(** [Iterator::max] on instants: the last of the greatest. *)
Definition max_time (l : list SystemTime) : option SystemTime :=
  match l with [] => None | t :: l' => Some (foldl Z.max t l') end.

Section direct.
Context `{UnicodeCase, F64Display, ForeignErrors}.

Definition find_mac (signals : list Signal) : option Str :=
  find_map (λ s, match s with Mac m => Some m | _ => None end) signals.

(** [DirectFuser::fuse_one]. *)
Definition fuse_one (f : DirectFuser) (outcomes : list ProbeOutcome)
    : Result RastreoError (option DeviceRecord) :=
  match outcomes with
  | [] => Ok None
  | first :: _ =>
      let any_reachable := existsb po_reachable outcomes in
      if negb any_reachable && negb (df_include_unreachable f) then Ok None
      else
        let mgmt_ip := po_target_ip first in
        let first_mac := find_mac (mjoin (po_signals <$> outcomes)) in
        let identity_value :=
          match first_mac with
          | Some m => s! "mac:" ++ m
          | None => s! "ip:" ++ ip_display mgmt_ip
          end in
        identity_key ← map_err EConfig (identity_key_new identity_value);
        let signals := foldl (λ acc o, foldl push_new acc (po_signals o)) [] outcomes in
        let probe_kinds :=
          foldl (λ acc o, if po_reachable o then push_new acc (po_kind o) else acc)
            [] outcomes in
        let raw := f64_add (df_confidence_baseline f)
          (f64_mul (f64_of_Z (Z.of_nat (length signals))) (df_confidence_per_signal f)) in
        confidence ← map_err EConfig (confidence_new (f64_min raw f64_one));
        let last_seen := default UNIX_EPOCH (max_time (po_timestamp <$> outcomes)) in
        Ok (Some {|
          dr_identity_key := identity_key; dr_mgmt_ip := Some mgmt_ip; dr_mac := first_mac;
          dr_manufacturer := None; dr_model := None; dr_product_family := None;
          dr_platform := None; dr_os_version := None; dr_ssh_version := None;
          dr_http_server := None; dr_http_version := None; dr_role := None;
          dr_confidence := confidence; dr_last_seen := last_seen;
          dr_signals := signals; dr_probe_kinds := probe_kinds;
          dr_schema_version := CURRENT_SCHEMA_VERSION; dr_schema_id := CURRENT_SCHEMA_ID;
          dr_alt_ips := []; dr_possible_alias_of := None;
          dr_scan_metadata := scan_metadata_default |})
  end.

(** [<DirectFuser as Fuser>::ingest] and [finish]. *)
Definition direct_ingest (f : DirectFuser) (outcomes : list ProbeOutcome)
    : Result RastreoError (list DeviceRecord) :=
  r ← fuse_one f outcomes;
  match r with Some record => Ok [record] | None => Ok [] end.

Definition direct_finish (f : DirectFuser) : Result RastreoError (list DeviceRecord) := Ok [].
End direct.

(** ** MIB enrichment: [fuser/mib.rs] *)

Record MibEntry : Type := mkMibEntry {
  me_manufacturer : option Str;
  me_model : option Str;
  me_product_family : option Str;
}.

Abbreviation MibTable := (gmap Str MibEntry).

Inductive MibParseError : Type :=
  | MibLine (line : Z) (message : Str)
  | MibIo (message : Str).

Definition then_some (v : Str) : option Str := if is_empty v then None else Some v.

(** One line of the file: [None] when it is skipped. *)
Definition parse_mib_line (line_no : Z) (raw : Str)
    : Result MibParseError (option (Str * MibEntry)) :=
  let trimmed := trim raw in
  if is_empty trimmed || bool_decide (head trimmed = Some 35) then Ok None
  else
    match split_on 9 trimmed with
    | [c0; c1; c2; c3] =>
        let oid := trim c0 in
        if negb (is_dotted_decimal oid) then
          Err (MibLine line_no (s! "sys_object_id '" ++ oid ++
            s! "' must be dotted-decimal with no leading dot and no whitespace"))
        else
          let manufacturer := trim c1 in
          let model := trim c2 in
          let product_family := trim c3 in
          if is_empty manufacturer && is_empty model && is_empty product_family then
            Err (MibLine line_no
              (s! "at least one of manufacturer, model, product_family must be set"))
          else Ok (Some (oid, mkMibEntry (then_some manufacturer) (then_some model)
                                (then_some product_family)))
    | cols =>
        Err (MibLine line_no
          (s! "expected 4 tab-separated columns (sys_object_id, manufacturer, model, product_family), found "
           ++ fmt_dec (Z.of_nat (length cols))))
    end.

(** [parse_mib] over the lines the reader yields, each either text or the
    message of an I/O error. *)
Fixpoint parse_mib_from (line_no : Z) (lines : list (Result Str Str)) (entries : MibTable)
    : Result MibParseError MibTable :=
  match lines with
  | [] => Ok entries
  | raw :: rest =>
      raw ← map_err MibIo raw;
      row ← parse_mib_line line_no raw;
      parse_mib_from (line_no + 1) rest
        (match row with Some (oid, e) => <[oid := e]> entries | None => entries end)
  end.

Definition parse_mib (lines : list (Result Str Str)) : Result MibParseError MibTable :=
  parse_mib_from 1 lines ∅.

Definition mib_lookup (table : MibTable) (oid : Str) : option MibEntry := table !! oid.

(** What the build bundles and what the file system holds. *)
Class MibSource := {
  bundled_lines : list (Result Str Str);
  open_lines : Str → Result Str (list (Result Str Str));
}.

Definition bundled_error (e : MibParseError) : ConfigError :=
  match e with
  | MibLine line message =>
      InvalidValue (s! "failed to parse bundled MIB identity table: line " ++ fmt_dec line
                    ++ s! ": " ++ message)
  | MibIo msg => InvalidValue (s! "failed to read bundled MIB identity table: " ++ msg)
  end.

(** [MibTable::from_bundled]. *)
Definition from_bundled `{ForeignErrors, MibSource} : Result RastreoError MibTable :=
  map_err (λ e, EConfig (bundled_error e)) (parse_mib bundled_lines).

Definition overlay_error (path : Str) (e : MibParseError) : ConfigError :=
  match e with
  | MibLine line message =>
      InvalidValue (s! "MIB data file '" ++ path ++ s! "' is not a valid mib-identity file: line "
                    ++ fmt_dec line ++ s! ": " ++ message)
  | MibIo msg =>
      InvalidValue (s! "MIB data file '" ++ path ++ s! "' could not be read: " ++ msg)
  end.

(** [MibTable::from_path]: the overlay extends the bundled table. *)
Definition from_path `{ForeignErrors, MibSource} (path : Str) : Result RastreoError MibTable :=
  table ← from_bundled;
  file ← map_err (λ e, EConfig (InvalidValue
           (s! "MIB data file '" ++ path ++ s! "' could not be opened: " ++ e))) (open_lines path);
  overlay ← map_err (λ e, EConfig (overlay_error path e)) (parse_mib file);
  Ok (overlay ∪ table).

(** [fill_if_empty]. *)
Definition fill_if_empty (field value : option Str) : option Str :=
  match field with None => value | Some _ => field end.

Definition find_sys_object_id (signals : list Signal) : option Str :=
  find_map (λ s, match s with SnmpSysObjectId oid => Some oid | _ => None end) signals.

(** [MibEnrichmentFuser::enrich]. *)
Definition enrich (table : MibTable) (r : DeviceRecord) : DeviceRecord :=
  match find_sys_object_id (dr_signals r) with
  | None => r
  | Some oid =>
      match mib_lookup table oid with
      | None => r
      | Some entry =>
          set_hardware (fill_if_empty (dr_manufacturer r) (me_manufacturer entry))
            (fill_if_empty (dr_model r) (me_model entry))
            (fill_if_empty (dr_product_family r) (me_product_family entry)) r
      end
  end.

(** ** Configuration: [fuser/mod.rs] *)

Inductive FuserConfig : Type :=
  | CDirect (include_unreachable : option bool)
      (confidence_baseline confidence_per_signal : option f64)
  | CMibEnrichment (data_path : option Str) (inner : FuserConfig)
  | CIdentity (identity_hints : IdentityHints) (inner : FuserConfig).

Fixpoint subtree_contains_identity (config : FuserConfig) : bool :=
  match config with
  | CDirect _ _ _ => false
  | CMibEnrichment _ inner => subtree_contains_identity inner
  | CIdentity _ _ => true
  end.

Definition reject_nested_identity (inner : FuserConfig) : Result ConfigError unit :=
  if subtree_contains_identity inner then
    Err (InvalidValue
      (s! "identity fuser must be the outermost fuser; it cannot be nested inside another fuser"))
  else Ok tt.

Section config.
Context `{F64Display}.

Definition check_baseline (v : option f64) : Result ConfigError unit :=
  match v with
  | Some v =>
      if negb (is_finite v) || negb (f64_in f64_zero f64_one v) then
        Err (InvalidValue (s! "confidence_baseline must be finite and in [0.0, 1.0], got "
                           ++ f64_display v))
      else Ok tt
  | None => Ok tt
  end.

Definition check_per_signal (v : option f64) : Result ConfigError unit :=
  match v with
  | Some v =>
      if negb (is_finite v) || f64_lt v f64_zero then
        Err (InvalidValue (s! "confidence_per_signal must be finite and non-negative, got "
                           ++ f64_display v))
      else Ok tt
  | None => Ok tt
  end.

(** [FuserConfig::validate]. *)
Fixpoint validate (config : FuserConfig) : Result ConfigError unit :=
  match config with
  | CDirect _ confidence_baseline confidence_per_signal =>
      _ ← check_baseline confidence_baseline;
      check_per_signal confidence_per_signal
  | CMibEnrichment _ inner =>
      _ ← reject_nested_identity inner;
      validate inner
  | CIdentity identity_hints inner =>
      _ ← reject_nested_identity inner;
      _ ← validate inner;
      check_vrrp_groups (ih_vrrp_groups identity_hints)
  end.
End config.

(** ** Selection by name: [fuser/selection.rs] *)

Inductive FuserKind : Type := KDirect | KMibEnrichment | KIdentity.

#[global] Instance FuserKind_eq_dec : EqDecision FuserKind.
Proof. solve_decision. Defined.

Definition fuser_kind_all : list FuserKind := [KDirect; KMibEnrichment; KIdentity].

Definition nesting_rank (kind : FuserKind) : Z :=
  match kind with KDirect => 0 | KMibEnrichment => 1 | KIdentity => 2 end.

Definition rank_le (a b : FuserKind) : Prop := nesting_rank a ≤ nesting_rank b.
#[global] Instance rank_le_dec a b : Decision (rank_le a b).
Proof. unfold rank_le. apply _. Defined.

Definition fuser_kind_label (kind : FuserKind) : Str :=
  match kind with
  | KDirect => s! "direct" | KMibEnrichment => s! "mib_enrichment" | KIdentity => s! "identity"
  end.

Definition fuser_kind_from_label (s : Str) : option FuserKind :=
  find_map (λ k, if bool_decide (fuser_kind_label k = s) then Some k else None) fuser_kind_all.

(** The build's cargo feature. *)
Class Features := feature_mib_enrichment : bool.

Record FuserSelectionOptions : Type := mkFuserSelectionOptions {
  fo_include_unreachable : option bool;
  fo_confidence_baseline : option f64;
  fo_confidence_per_signal : option f64;
}.

Definition base_config (o : FuserSelectionOptions) : FuserConfig :=
  CDirect (fo_include_unreachable o) (fo_confidence_baseline o) (fo_confidence_per_signal o).

Definition default_fuser_config : FuserConfig :=
  base_config (mkFuserSelectionOptions None None None).

Section selection.
Context `{Features, ForeignErrors}.

Definition is_compiled_in (kind : FuserKind) : bool :=
  match kind with KDirect | KIdentity => true | KMibEnrichment => feature_mib_enrichment end.

Definition required_feature (kind : FuserKind) : option Str :=
  match kind with KDirect | KIdentity => None | KMibEnrichment => Some (s! "mib_enrichment") end.

Definition available_fuser_kinds : list FuserKind :=
  filter (λ k, is_compiled_in k = true) fuser_kind_all.

Definition unknown_fuser_kind (name : Str) : RastreoError :=
  EConfig (UnknownFuserKind name (join (s! ", ") (fuser_kind_label <$> available_fuser_kinds))).

Definition not_compiled (kind : FuserKind) : RastreoError :=
  EConfig (FuserKindNotCompiled (fuser_kind_label kind)
    (match required_feature kind with Some f => f | None => fuser_kind_label kind end)).

Fixpoint parse_fuser_selection_from (kinds : list FuserKind) (values : list Str)
    : Result RastreoError (list FuserKind) :=
  match values with
  | [] => Ok kinds
  | value :: rest =>
      match fuser_kind_from_label (trim value) with
      | Some kind => parse_fuser_selection_from (push_new kinds kind) rest
      | None => Err (unknown_fuser_kind (trim value))
      end
  end.

Definition parse_fuser_selection (values : list Str) : Result RastreoError (list FuserKind) :=
  parse_fuser_selection_from [] values.

Definition compose (kind : FuserKind) (inner : FuserConfig) : Result RastreoError FuserConfig :=
  match kind with
  | KDirect => Ok inner
  | KMibEnrichment =>
      if feature_mib_enrichment then Ok (CMibEnrichment None inner) else Err (not_compiled kind)
  | KIdentity => Ok (CIdentity identity_hints_default inner)
  end.

Fixpoint compose_all (config : FuserConfig) (kinds : list FuserKind)
    : Result RastreoError FuserConfig :=
  match kinds with
  | [] => Ok config
  | kind :: rest => config ← compose kind config; compose_all config rest
  end.

(** [expand_fuser_selection]; ranks are distinct, so any sort by rank gives the
    same order once repeats are gone. *)
Definition expand_fuser_selection (kinds : list FuserKind) (options : FuserSelectionOptions)
    : Result RastreoError FuserConfig :=
  let ordered := merge_sort rank_le (dedup kinds) in
  compose_all (base_config options) ordered.
End selection.
