(* ===== verification/UnionFind.v ===== *)
(** * Union-find: [UnionFind] of [src/rastreo-core/src/fuser/identity.rs]

    The parent and rank vectors with path compression and union by rank. An
    index out of range, a loop that does not end and a rank that overflows its
    byte are [None]; the theorems show none of them happens, and that after a
    sequence of unions two elements have one representative exactly when the
    united pairs connect them. *)

From S2P Require Import Prelude.

Record UnionFind : Type := mkUnionFind {
  uf_parent : list nat;
  uf_rank : list Z;
}.

Definition uf_new (n : nat) : UnionFind := mkUnionFind (seq 0 n) (replicate n 0).

(** [while self.parent[cur] != cur { cur = self.parent[cur]; }] *)
Fixpoint find_loop (parent : list nat) (fuel cur : nat) : option nat :=
  match fuel with
  | O => None
  | S fuel' =>
      p ← parent !! cur;
      if (p =? cur)%nat then Some cur else find_loop parent fuel' p
  end.

(** A chain of parents visits no element twice, so the length of the vector
    bounds the number of iterations. *)
Definition uf_find (uf : UnionFind) (x : nat) : option nat :=
  find_loop (uf_parent uf) (S (length (uf_parent uf))) x.

(** [while self.parent[cur] != root { .. self.parent[cur] = root; .. }] *)
Fixpoint compress_loop (root fuel cur : nat) (parent : list nat) : option (list nat) :=
  match fuel with
  | O => None
  | S fuel' =>
      next ← parent !! cur;
      if (next =? root)%nat then Some parent
      else compress_loop root fuel' next (<[cur := root]> parent)
  end.

Definition find_mut (uf : UnionFind) (x : nat) : option (UnionFind * nat) :=
  root ← uf_find uf x;
  parent ← compress_loop root (S (length (uf_parent uf))) x (uf_parent uf);
  Some (mkUnionFind parent (uf_rank uf), root).

(** The end of [union]: the root of the lower rank goes below the other. *)
Definition union_roots (uf : UnionFind) (ra rb : nat) : option UnionFind :=
  rank_a ← uf_rank uf !! ra;
  rank_b ← uf_rank uf !! rb;
  if rank_a <? rank_b then Some (mkUnionFind (<[ra := rb]> (uf_parent uf)) (uf_rank uf))
  else if rank_b <? rank_a then Some (mkUnionFind (<[rb := ra]> (uf_parent uf)) (uf_rank uf))
  else if rank_a + 1 <=? U8_MAX then
    Some (mkUnionFind (<[rb := ra]> (uf_parent uf)) (<[ra := rank_a + 1]> (uf_rank uf)))
  else None.

Definition uf_union (uf : UnionFind) (a b : nat) : option UnionFind :=
  '(uf, ra) ← find_mut uf a;
  '(uf, rb) ← find_mut uf b;
  if (ra =? rb)%nat then Some uf else union_roots uf ra rb.

Definition uf_components (uf : UnionFind) : option (list nat) :=
  mapM (uf_find uf) (seq 0 (length (uf_parent uf))).

(** ** Chains of parents *)

(** [RootN parent d x r]: the chain from [x] ends in the self-parent [r] after
    [d] steps. *)
Inductive RootN (parent : list nat) : nat → nat → nat → Prop :=
  | RootN_self r : parent !! r = Some r → RootN parent 0 r r
  | RootN_step d x p r :
      parent !! x = Some p → p ≠ x → RootN parent d p r → RootN parent (S d) x r.

Definition Root (parent : list nat) (x r : nat) : Prop := ∃ d, RootN parent d x r.

(** Every element has a root. *)
Definition forest (parent : list nat) : Prop :=
  ∀ x, (x < length parent)%nat → ∃ r, Root parent x r.

Section chains.
Implicit Types (parent : list nat) (x y r s d : nat).

Lemma RootN_root parent d x r : RootN parent d x r → parent !! r = Some r.
Proof. by induction 1. Qed.

Lemma RootN_det parent d x r d' s : RootN parent d x r → RootN parent d' x s → d = d' ∧ r = s.
Proof.
  intros H. revert d' s. induction H as [r Hr|d x p r Hp Hne H IH]; inversion 1; simplify_eq/=; try done.
  edestruct IH as [-> ->]; eauto.
Qed.

Lemma Root_det parent x r s : Root parent x r → Root parent x s → r = s.
Proof. intros [d H] [d' H']. by eapply RootN_det. Qed.

Lemma Root_root parent x r : Root parent x r → parent !! r = Some r.
Proof. intros [d H]. by eapply RootN_root. Qed.

Lemma Root_self parent r : parent !! r = Some r → Root parent r r.
Proof. intros. exists 0%nat. by constructor. Qed.

Lemma Root_lt parent x r : Root parent x r → (x < length parent)%nat ∧ (r < length parent)%nat.
Proof.
  intros [d H]. split; [|by eapply lookup_lt_Some, RootN_root].
  destruct H; by eapply lookup_lt_Some.
Qed.

(** The nodes of a chain are distinct, so it is no longer than the vector. *)
Lemma RootN_path parent d x r :
  RootN parent d x r →
  ∃ path, length path = S d ∧ NoDup path ∧
    ∀ y, y ∈ path → (y < length parent)%nat ∧ ∃ d', (d' ≤ d)%nat ∧ RootN parent d' y r.
Proof.
  induction 1 as [r Hr|d x p r Hp Hne H (path & Hlen & Hnd & Hall)].
  - exists [r]. split_and!; [done|apply NoDup_singleton|].
    intros y ->%list_elem_of_singleton. split; [by eapply lookup_lt_Some|].
    exists 0%nat. split; [lia|by constructor].
  - exists (x :: path). assert (RootN parent (S d) x r) as Hx by by econstructor.
    split_and!; [simpl; lia|constructor; [|done]|].
    + intros Hin. destruct (Hall x Hin) as (_ & d' & Hd' & Hr').
      destruct (RootN_det _ _ _ _ _ _ Hx Hr'); lia.
    + intros y [->|Hin]%elem_of_cons; [split; [by eapply lookup_lt_Some|by exists (S d)]|].
      destruct (Hall y Hin) as (? & d' & ? & ?). split; [done|]. exists d'. split; [lia|done].
Qed.

Lemma RootN_depth parent d x r : RootN parent d x r → (d < length parent)%nat.
Proof.
  intros (path & Hlen & Hnd & Hall)%RootN_path.
  assert (path ⊆+ seq 0 (length parent)) as Hsub.
  { apply NoDup_submseteq; [done|]. intros y Hy. apply elem_of_seq. destruct (Hall y Hy); lia. }
  apply submseteq_length in Hsub. rewrite length_seq in Hsub. lia.
Qed.

Lemma find_loop_RootN parent d x r fuel :
  RootN parent d x r → (d < fuel)%nat → find_loop parent fuel x = Some r.
Proof.
  intros H. revert fuel. induction H as [r Hr|d x p r Hp Hne H IH]; intros [|fuel] Hf; try lia; simpl.
  - rewrite Hr. simpl. by rewrite Nat.eqb_refl.
  - rewrite Hp. simpl. rewrite (proj2 (Nat.eqb_neq p x)) by done. apply IH. lia.
Qed.

Lemma find_loop_Root parent fuel x r : find_loop parent fuel x = Some r → Root parent x r.
Proof.
  revert x. induction fuel as [|fuel IH]; intros x; simpl; [done|].
  destruct (parent !! x) as [p|] eqn:Hp; simpl; [|done].
  destruct (Nat.eqb_spec p x) as [->|]; [intros [= ->]; by apply Root_self|].
  intros [d Hd]%IH. exists (S d). by econstructor.
Qed.

(** Pointing an element straight at its root changes no root. *)
Lemma RootN_compress parent y r d x s :
  Root parent y r → y ≠ r → RootN parent d x s →
  ∃ d', (d' ≤ d)%nat ∧ RootN (<[y := r]> parent) d' x s.
Proof.
  intros Hy Hne. pose proof (Root_root _ _ _ Hy) as Hr.
  induction 1 as [s Hs|d x p s Hp Hpx H (d' & Hd' & IH)].
  - exists 0%nat. split; [done|]. constructor. rewrite list_lookup_insert_ne; [done|].
    intros ->. apply Hne. by eapply Root_det; [apply Root_self|].
  - destruct (decide (x = y)) as [->|Hxy].
    + assert (s = r) as -> by (eapply Root_det; [exists (S d); by econstructor|done]).
      exists 1%nat. split; [lia|]. apply (RootN_step _ 0 _ r); [|done|constructor].
      * rewrite list_lookup_insert_eq; [done|]. by eapply lookup_lt_Some.
      * by rewrite list_lookup_insert_ne.
    + exists (S d'). split; [lia|]. econstructor; [|done|done].
      by rewrite list_lookup_insert_ne.
Qed.

Lemma compress_loop_ok root fuel cur parent d :
  RootN parent d cur root → (d < fuel)%nat →
  ∃ parent', compress_loop root fuel cur parent = Some parent' ∧
    length parent' = length parent ∧ ∀ x s, Root parent x s → Root parent' x s.
Proof.
  revert cur parent d. induction fuel as [|fuel IH]; intros cur parent d H Hf; [lia|]. simpl.
  assert (∃ next, parent !! cur = Some next) as [next Hnext] by (inversion H; eauto).
  rewrite Hnext. simpl. destruct (Nat.eqb_spec next root) as [->|Hne]; [eauto|].
  assert (cur ≠ root) as Hcr.
  { intros ->. apply RootN_root in H. congruence. }
  assert (∃ d', (d' < fuel)%nat ∧ RootN parent d' next root) as (d' & Hd' & Hn).
  { inversion H; simplify_eq/=. eexists; split; [|done]. lia. }
  assert (Root parent cur root) as Hcur by by exists d.
  destruct (RootN_compress _ _ _ _ _ _ Hcur Hcr Hn) as (d'' & ? & Hn').
  destruct (IH next (<[cur := root]> parent) d'' Hn' ltac:(lia)) as (parent' & -> & Hlen & Hall).
  exists parent'. split_and!; [done|by rewrite Hlen, length_insert|].
  intros x s [dx Hx]. apply Hall.
  destruct (RootN_compress _ _ _ _ _ _ Hcur Hcr Hx) as (? & _ & ?). by eexists.
Qed.

(** Linking the root [a] below the root [b]. *)
Lemma Root_link parent a b x s :
  parent !! a = Some a → parent !! b = Some b → a ≠ b → Root parent x s →
  Root (<[a := b]> parent) x (if decide (s = a) then b else s).
Proof.
  intros Ha Hb Hab [d H].
  assert (Root (<[a := b]> parent) b b) as [db Hbb].
  { apply Root_self. by rewrite list_lookup_insert_ne. }
  induction H as [s Hs|d x p s Hp Hpx H IH].
  - case_decide as E; [subst s|].
    + exists (S db). econstructor; [|done|done].
      rewrite list_lookup_insert_eq; [done|]. by eapply lookup_lt_Some.
    + apply Root_self. by rewrite list_lookup_insert_ne.
  - destruct IH as [d' IH]. exists (S d'). econstructor; [|done|done].
    rewrite list_lookup_insert_ne; [done|]. congruence.
Qed.
End chains.

(** ** The partition a union-find holds *)

Definition uf_find_Some (uf : UnionFind) (x r : nat) : Prop := Root (uf_parent uf) x r.

(** Two elements with one representative. *)
Definition same_set (uf : UnionFind) (x y : nat) : Prop :=
  ∃ r, Root (uf_parent uf) x r ∧ Root (uf_parent uf) y r.

Lemma uf_find_Root uf x r : uf_find uf x = Some r ↔ Root (uf_parent uf) x r.
Proof.
  split; [apply find_loop_Root|]. intros [d H]. eapply find_loop_RootN; [done|].
  apply RootN_depth in H. lia.
Qed.

(** The number of elements represented by [r]. *)
Definition set_size (uf : UnionFind) (r : nat) : nat :=
  length (filter (λ x, uf_find uf x = Some r) (seq 0 (length (uf_parent uf)))).

(** Well-formedness: a forest, with one rank per element and [2 ^ rank]
    elements at least below every root. *)
Record uf_wf (uf : UnionFind) : Prop := {
  wf_forest : forest (uf_parent uf);
  wf_ranks : length (uf_rank uf) = length (uf_parent uf);
  wf_sizes : ∀ r k, uf_parent uf !! r = Some r → uf_rank uf !! r = Some k →
    0 ≤ k ∧ 2 ^ k ≤ Z.of_nat (set_size uf r);
}.

Section wf.
Implicit Types (uf : UnionFind) (x y r : nat).

(** Equal roots make equal sizes. *)
Lemma set_size_ext uf uf' r :
  length (uf_parent uf') = length (uf_parent uf) →
  (∀ x s, Root (uf_parent uf) x s → Root (uf_parent uf') x s) →
  forest (uf_parent uf) → set_size uf' r = set_size uf r.
Proof.
  intros Hlen Hroots Hf. unfold set_size. rewrite Hlen. f_equal.
  apply filter_ext_elem. intros x Hx%elem_of_seq.
  rewrite !uf_find_Root. split; [|by apply Hroots].
  intros Hr. destruct (Hf x ltac:(lia)) as [s Hs].
  by rewrite (Root_det _ _ _ _ Hr (Hroots _ _ Hs)).
Qed.

(** The two differ in the shape of the chains only. *)
Record same_roots (uf uf' : UnionFind) : Prop := {
  sr_length : length (uf_parent uf') = length (uf_parent uf);
  sr_rank : uf_rank uf' = uf_rank uf;
  sr_roots x s : Root (uf_parent uf) x s → Root (uf_parent uf') x s;
}.

Lemma same_roots_iff uf uf' x s :
  uf_wf uf → same_roots uf uf' → Root (uf_parent uf') x s ↔ Root (uf_parent uf) x s.
Proof.
  intros Hwf Hs. split; [|apply Hs]. intros Hr.
  assert (x < length (uf_parent uf))%nat as Hx.
  { rewrite <-(sr_length _ _ Hs). by apply Root_lt in Hr as []. }
  destruct (wf_forest _ Hwf x Hx) as [t Ht].
  by rewrite (Root_det _ _ _ _ Hr (sr_roots _ _ Hs _ _ Ht)).
Qed.

Lemma same_roots_wf uf uf' : uf_wf uf → same_roots uf uf' → uf_wf uf'.
Proof.
  intros Hwf Hs. pose proof Hs as [Hlen Hrank Hroots]. split.
  - intros x Hx. rewrite Hlen in Hx. destruct (wf_forest _ Hwf x Hx) as [r Hr]. eauto.
  - rewrite Hrank, Hlen. by apply wf_ranks.
  - intros r k Hr Hk. rewrite Hrank in Hk.
    rewrite (set_size_ext uf uf' r Hlen Hroots (wf_forest _ Hwf)).
    apply (wf_sizes _ Hwf); [|done].
    apply (Root_root _ r r), (same_roots_iff uf uf'); [done|done|]. by apply Root_self.
Qed.

Lemma find_mut_ok uf x :
  uf_wf uf → (x < length (uf_parent uf))%nat →
  ∃ uf' r, find_mut uf x = Some (uf', r) ∧ same_roots uf uf' ∧ Root (uf_parent uf) x r.
Proof.
  intros Hwf Hx. destruct (wf_forest _ Hwf x Hx) as [r Hr]. pose proof Hr as [d Hd].
  unfold find_mut. rewrite (proj2 (uf_find_Root uf x r) Hr). simpl.
  destruct (compress_loop_ok r (S (length (uf_parent uf))) x (uf_parent uf) d Hd)
    as (parent' & E & Hlen & Hroots).
  { apply RootN_depth in Hd. lia. }
  cbn [compress_loop] in E. rewrite E. simpl. eexists _, r. split_and!; [done| |done].
  by split.
Qed.

(** Linking the root [a] below the root [b], whose rank becomes [k]. *)
Lemma link_wf uf a b ka kb k :
  uf_wf uf → uf_parent uf !! a = Some a → uf_parent uf !! b = Some b → a ≠ b →
  uf_rank uf !! a = Some ka → uf_rank uf !! b = Some kb →
  0 ≤ k → 2 ^ k ≤ 2 ^ ka + 2 ^ kb →
  uf_wf (mkUnionFind (<[a := b]> (uf_parent uf)) (<[b := k]> (uf_rank uf))).
Proof.
  intros Hwf Ha Hb Hab Hka Hkb Hk Hle.
  set (uf' := mkUnionFind _ _).
  assert (∀ x s, Root (uf_parent uf) x s →
    uf_find uf' x = Some (if decide (s = a) then b else s)) as Hfind.
  { intros. apply uf_find_Root. by apply Root_link. }
  assert (∀ r, r ≠ a → set_size uf' r =
      if decide (r = b) then set_size uf a + set_size uf b else set_size uf r)%nat as Hsize.
  { intros r Hra. unfold set_size. simpl. rewrite length_insert. case_decide as E.
    - subst r. apply filter_disjoint_length; [|naive_solver congruence].
      intros x Hx%elem_of_seq. destruct (wf_forest _ Hwf x ltac:(lia)) as [s Hs].
      rewrite (Hfind x s Hs), (proj2 (uf_find_Root uf x s) Hs).
      case_decide; naive_solver.
    - f_equal. apply filter_ext_elem. intros x Hx%elem_of_seq.
      destruct (wf_forest _ Hwf x ltac:(lia)) as [s Hs].
      rewrite (Hfind x s Hs), (proj2 (uf_find_Root uf x s) Hs).
      case_decide; naive_solver. }
  split; simpl.
  - intros x Hx. rewrite length_insert in Hx. destruct (wf_forest _ Hwf x Hx) as [s Hs].
    eexists. by apply Root_link.
  - rewrite !length_insert. by apply wf_ranks.
  - intros r k' Hr Hk'.
    assert (r ≠ a) as Hra.
    { intros ->. rewrite list_lookup_insert_eq in Hr; [congruence|]. by eapply lookup_lt_Some. }
    rewrite list_lookup_insert_ne in Hr by done. rewrite (Hsize r Hra).
    case_decide as E.
    + subst r. rewrite list_lookup_insert_eq in Hk' by (by eapply lookup_lt_Some).
      injection Hk' as <-.
      destruct (wf_sizes _ Hwf a ka Ha Hka), (wf_sizes _ Hwf b kb Hb Hkb). lia.
    + rewrite list_lookup_insert_ne in Hk' by done. by apply (wf_sizes _ Hwf).
Qed.

(** A rank is at most the binary logarithm of the number of elements. *)
Lemma rank_bound uf r k :
  uf_wf uf → uf_parent uf !! r = Some r → uf_rank uf !! r = Some k →
  0 ≤ k ∧ 2 ^ k ≤ Z.of_nat (length (uf_parent uf)).
Proof.
  intros Hwf Hr Hk. destruct (wf_sizes _ Hwf r k Hr Hk) as [? Hs]. split; [done|].
  etrans; [done|]. unfold set_size. apply inj_le.
  etrans; [apply length_filter|]. by rewrite length_seq.
Qed.

(** Linking merges the two sets and no others. *)
Lemma same_set_link uf uf' a b x y :
  uf_wf uf → uf_parent uf !! a = Some a → uf_parent uf !! b = Some b → a ≠ b →
  uf_parent uf' = <[a := b]> (uf_parent uf) →
  (x < length (uf_parent uf))%nat → (y < length (uf_parent uf))%nat →
  same_set uf' x y ↔
  same_set uf x y ∨ (same_set uf x a ∧ same_set uf b y) ∨ (same_set uf x b ∧ same_set uf a y).
Proof.
  intros Hwf Ha Hb Hab Hp Hx Hy.
  destruct (wf_forest _ Hwf x Hx) as [sx Hsx], (wf_forest _ Hwf y Hy) as [sy Hsy].
  pose proof (Root_link _ _ _ _ _ Ha Hb Hab Hsx) as Lx.
  pose proof (Root_link _ _ _ _ _ Ha Hb Hab Hsy) as Ly.
  rewrite <-Hp in Lx, Ly. pose proof (Root_self _ _ Ha) as Ra. pose proof (Root_self _ _ Hb) as Rb.
  assert (∀ u v su sv, Root (uf_parent u) v su → ∀ w, Root (uf_parent u) w sv →
    same_set u v w ↔ su = sv) as Hsame.
  { intros u v su sv Hv w Hw. split; [|intros ->; by exists sv].
    intros (r & ? & ?). trans r; [|symmetry]; by eapply Root_det. }
  rewrite (Hsame _ _ _ _ Lx _ Ly), (Hsame _ _ _ _ Hsx _ Hsy), (Hsame _ _ _ _ Hsx _ Ra),
    (Hsame _ _ _ _ Rb _ Hsy), (Hsame _ _ _ _ Hsx _ Rb), (Hsame _ _ _ _ Ra _ Hsy).
  repeat case_decide; naive_solver.
Qed.
End wf.

Lemma same_set_same_roots uf uf' x y :
  uf_wf uf → same_roots uf uf' → same_set uf' x y ↔ same_set uf x y.
Proof. intros Hwf Hs. unfold same_set. by setoid_rewrite (same_roots_iff _ _ _ _ Hwf Hs). Qed.

Lemma same_roots_trans uf1 uf2 uf3 : same_roots uf1 uf2 → same_roots uf2 uf3 → same_roots uf1 uf3.
Proof. intros [L1 R1 S1] [L2 R2 S2]. split; [congruence|congruence|auto]. Qed.

Section sets.
Implicit Types (uf : UnionFind) (x y a b : nat).

Lemma same_set_sym uf x y : same_set uf x y ↔ same_set uf y x.
Proof. unfold same_set. naive_solver. Qed.

Lemma same_set_trans uf x y z : same_set uf x y → same_set uf y z → same_set uf x z.
Proof.
  intros (r & ? & H1) (s & H2 & ?). exists r. split; [done|].
  by rewrite (Root_det _ _ _ _ H1 H2).
Qed.

Lemma same_set_root uf x a ra :
  Root (uf_parent uf) a ra → same_set uf x a ↔ same_set uf x ra.
Proof.
  intros Ha. assert (same_set uf a ra).
  { exists ra. split; [done|]. by eapply Root_self, Root_root. }
  split; intros; eapply same_set_trans; try done. by apply same_set_sym.
Qed.

(** The sets of [a] and [b] become one. *)
Definition merged (uf : UnionFind) (a b x y : nat) : Prop :=
  same_set uf x y ∨ (same_set uf x a ∧ same_set uf b y) ∨ (same_set uf x b ∧ same_set uf a y).

Lemma merged_sym uf a b x y : merged uf a b x y ↔ merged uf b a x y.
Proof. unfold merged. naive_solver. Qed.

Lemma merged_roots uf a b ra rb x y :
  Root (uf_parent uf) a ra → Root (uf_parent uf) b rb → merged uf a b x y ↔ merged uf ra rb x y.
Proof.
  intros Ha Hb. unfold merged.
  rewrite (same_set_sym uf b y), (same_set_sym uf a y), (same_set_sym uf rb y),
    (same_set_sym uf ra y).
  by rewrite !(same_set_root _ _ _ _ Ha), !(same_set_root _ _ _ _ Hb).
Qed.

Lemma union_roots_ok uf ra rb :
  uf_wf uf → Z.of_nat (length (uf_parent uf)) ≤ USIZE_MAX →
  uf_parent uf !! ra = Some ra → uf_parent uf !! rb = Some rb → ra ≠ rb →
  ∃ uf', union_roots uf ra rb = Some uf' ∧ uf_wf uf' ∧
    length (uf_parent uf') = length (uf_parent uf) ∧
    ∀ x y, (x < length (uf_parent uf))%nat → (y < length (uf_parent uf))%nat →
      same_set uf' x y ↔ merged uf ra rb x y.
Proof.
  intros Hwf Hn Ra Rb Hne.
  destruct (lookup_lt_is_Some_2 (uf_rank uf) ra) as [ka Hka].
  { rewrite (wf_ranks _ Hwf). by eapply lookup_lt_Some. }
  destruct (lookup_lt_is_Some_2 (uf_rank uf) rb) as [kb Hkb].
  { rewrite (wf_ranks _ Hwf). by eapply lookup_lt_Some. }
  unfold union_roots. rewrite Hka, Hkb. simpl.
  destruct (rank_bound _ _ _ Hwf Ra Hka) as [Ka Ba], (rank_bound _ _ _ Hwf Rb Hkb) as [Kb Bb].
  destruct (Z.ltb_spec ka kb); [|destruct (Z.ltb_spec kb ka)].
  - eexists. split_and!; [done| |by simpl; rewrite length_insert|by intros; apply same_set_link].
    rewrite <-(list_insert_id (uf_rank uf) rb kb Hkb). eapply link_wf; try done. nia.
  - eexists. split_and!; [done| |by simpl; rewrite length_insert|].
    + rewrite <-(list_insert_id (uf_rank uf) ra ka Hka). eapply link_wf; try done. nia.
    + intros x y ? ?. rewrite merged_sym. by apply same_set_link.
  - assert (ka = kb) as <- by lia.
    assert (ka ≤ 64).
    { destruct (Z.le_gt_cases ka 64); [done|]. exfalso.
      assert (2 ^ 65 ≤ 2 ^ ka) by (apply Z.pow_le_mono_r; lia).
      unfold USIZE_MAX, U64_MAX in Hn. lia. }
    rewrite (proj2 (Z.leb_le (ka + 1) U8_MAX)) by (unfold U8_MAX; lia).
    eexists. split_and!; [done| |by simpl; rewrite length_insert|].
    + eapply link_wf; try done; [lia|]. rewrite Z.pow_add_r by lia. lia.
    + intros x y ? ?. rewrite merged_sym. by apply same_set_link.
Qed.

(** A union succeeds and merges the sets of its two arguments. *)
Lemma uf_union_ok uf a b :
  uf_wf uf → Z.of_nat (length (uf_parent uf)) ≤ USIZE_MAX →
  (a < length (uf_parent uf))%nat → (b < length (uf_parent uf))%nat →
  ∃ uf', uf_union uf a b = Some uf' ∧ uf_wf uf' ∧
    length (uf_parent uf') = length (uf_parent uf) ∧
    ∀ x y, (x < length (uf_parent uf))%nat → (y < length (uf_parent uf))%nat →
      same_set uf' x y ↔ merged uf a b x y.
Proof.
  intros Hwf Hn Ha Hb. unfold uf_union.
  destruct (find_mut_ok uf a Hwf Ha) as (uf1 & ra & -> & Hs1 & Hra). simpl.
  pose proof (same_roots_wf _ _ Hwf Hs1) as Hwf1.
  destruct (find_mut_ok uf1 b Hwf1) as (uf2 & rb & -> & Hs2 & Hrb).
  { by rewrite (sr_length _ _ Hs1). }
  simpl. pose proof (same_roots_wf _ _ Hwf1 Hs2) as Hwf2.
  pose proof (same_roots_trans _ _ _ Hs1 Hs2) as Hs.
  pose proof (sr_length _ _ Hs) as Hlen. rewrite <-Hlen in Hn |- *.
  apply (sr_roots _ _ Hs) in Hra. apply (sr_roots _ _ Hs2) in Hrb.
  assert (∀ x y, merged uf a b x y ↔ merged uf2 ra rb x y) as Hm.
  { intros x y. rewrite <-(merged_roots uf2 a b ra rb x y Hra Hrb). unfold merged.
    by rewrite !(same_set_same_roots _ _ _ _ Hwf Hs). }
  setoid_rewrite Hm.
  destruct (Nat.eqb_spec ra rb) as [->|Hne].
  - exists uf2. split_and!; [done|done|done|]. intros x y _ _. unfold merged.
    split; [by left|]. intros [?|[[??]|[??]]]; [done| |]; by eapply same_set_trans.
  - apply union_roots_ok; [done|done| | |done]; by eapply Root_root.
Qed.
End sets.

(** ** Sequences of unions *)

Fixpoint unite_all (uf : UnionFind) (edges : list (nat * nat)) : option UnionFind :=
  match edges with
  | [] => Some uf
  | (i, j) :: rest => uf ← uf_union uf i j; unite_all uf rest
  end.

(** Connected by a path of edges, in either direction. *)
Definition connected (edges : list (nat * nat)) : relation nat :=
  rtsc (λ a b, (a, b) ∈ edges).

Lemma connected_mono edges edges' i j :
  edges ⊆ edges' → connected edges i j → connected edges' i j.
Proof.
  intros Hsub. apply rtc_subrel. intros a b [H|H]; [left|right]; by apply Hsub.
Qed.

Lemma connected_Permutation edges edges' i j :
  edges ≡ₚ edges' → connected edges i j ↔ connected edges' i j.
Proof. intros HP. split; apply connected_mono; intros x; by rewrite HP. Qed.

Lemma connected_sym edges i j : connected edges i j → connected edges j i.
Proof. unfold connected. apply rtsc_equivalence. Qed.

Lemma connected_trans edges i j k :
  connected edges i j → connected edges j k → connected edges i k.
Proof. unfold connected, rtsc. intros. by etrans. Qed.

Lemma connected_snoc edges a b i j :
  connected (edges ++ [(a, b)]) i j ↔
  connected edges i j ∨ (connected edges i a ∧ connected edges b j) ∨
  (connected edges i b ∧ connected edges a j).
Proof.
  assert (edges ⊆ edges ++ [(a, b)]) as Hsub by (intros x; rewrite elem_of_app; by left).
  split.
  - induction 1 as [i|i k j [H|H] _ IH]; [by left; apply rtc_refl| |].
    + apply elem_of_app in H as [H|[= -> ->]%list_elem_of_singleton].
      * assert (connected edges i k) by by apply rtc_once, sc_lr.
        destruct IH as [?|[[??]|[??]]]; [left|right; left|right; right]; try split;
          try done; by eapply connected_trans.
      * destruct IH as [?|[[??]|[??]]]; [right; left|right; left|left]; try done;
          (split; [apply rtc_refl|done]).
    + apply elem_of_app in H as [H|[= -> ->]%list_elem_of_singleton].
      * assert (connected edges i k) by by apply rtc_once, sc_rl.
        destruct IH as [?|[[??]|[??]]]; [left|right; left|right; right]; try split;
          try done; by eapply connected_trans.
      * destruct IH as [?|[[??]|[??]]]; [right; right|left|right; right]; try done;
          (split; [apply rtc_refl|done]).
  - assert (connected (edges ++ [(a, b)]) a b) as Hab.
    { apply rtc_once, sc_lr, elem_of_app. right. by apply list_elem_of_singleton. }
    pose proof (λ x y, connected_mono edges (edges ++ [(a, b)]) x y Hsub) as M.
    intros [H|[[H1 H2]|[H1 H2]]]; [by apply M| |].
    + eapply connected_trans; [by apply M|]. eapply connected_trans; [done|]. by apply M.
    + eapply connected_trans; [by apply M|].
      eapply connected_trans; [by apply connected_sym|]. by apply M.
Qed.

Section unite.
Context (n : nat) (Hn : Z.of_nat n ≤ USIZE_MAX).

Definition in_range (e : nat * nat) : Prop := (e.1 < n)%nat ∧ (e.2 < n)%nat.

(** The union-find over [n] elements that holds the components of [edges]. *)
Definition holds (uf : UnionFind) (edges : list (nat * nat)) : Prop :=
  uf_wf uf ∧ length (uf_parent uf) = n ∧
  ∀ x y, (x < n)%nat → (y < n)%nat → same_set uf x y ↔ connected edges x y.

Lemma uf_new_root x r : Root (seq 0 n) x r ↔ x = r ∧ (r < n)%nat.
Proof using Type.
  split.
  - intros [d H]. pose proof (RootN_root _ _ _ _ H) as Hr.
    apply lookup_seq in Hr as [_ Hlt]. split; [|done].
    destruct H as [|d x p r Hp Hne H]; [done|]. apply lookup_seq in Hp as [-> _]. done.
  - intros [-> Hlt]. apply Root_self, lookup_seq. lia.
Qed.

Lemma uf_new_holds : holds (uf_new n) [].
Proof using Type.
  split_and!; simpl; [|by rewrite length_seq|].
  - split; simpl.
    + intros x. rewrite length_seq. intros Hx. exists x. by apply uf_new_root.
    + by rewrite length_seq, length_replicate.
    + intros r k Hr Hk. apply lookup_replicate in Hk as [-> Hlt]. split; [done|].
      change (2 ^ 0) with (Z.of_nat 1). apply inj_le. unfold set_size. simpl.
      rewrite length_seq.
      assert (r ∈ filter (λ x, uf_find (uf_new n) x = Some r) (seq 0 n)) as Hin.
      { apply list_elem_of_filter. split; [by apply uf_find_Root, uf_new_root|].
        apply elem_of_seq. lia. }
      destruct (filter _ _); [by apply elem_of_nil in Hin|simpl; lia].
  - intros x y Hx Hy. unfold same_set. simpl. setoid_rewrite uf_new_root. split.
    + intros (r & [-> _] & [-> _]). apply rtc_refl.
    + intros H. assert (x = y) as -> by (induction H as [|??? [H|H] _ _]; [done|..]; by apply elem_of_nil in H).
      by exists y.
Qed.

Lemma unite_all_from uf pre edges :
  holds uf pre → Forall in_range edges →
  ∃ uf', unite_all uf edges = Some uf' ∧ holds uf' (pre ++ edges).
Proof using Hn.
  revert uf pre. induction edges as [|[i j] edges IH]; intros uf pre (Hwf & Hlen & Hs) Hr; simpl.
  { exists uf. rewrite app_nil_r. by split. }
  apply Forall_cons in Hr as [[Hi Hj] Hr]. simpl in *.
  destruct (uf_union_ok uf i j Hwf) as (uf' & -> & Hwf' & Hlen' & Hs'); [by rewrite Hlen..|].
  simpl. destruct (IH uf' (pre ++ [(i, j)])) as (uf'' & E & H); [|done|].
  - split_and!; [done|congruence|]. intros x y Hx Hy. rewrite Hlen in Hs'.
    rewrite Hs' by done. rewrite connected_snoc. unfold merged. by rewrite !Hs.
  - exists uf''. split; [done|]. by rewrite <-(assoc_L (++)) in H.
Qed.

(** Starting from singletons, a sequence of unions over indices in range ends
    with the connected components of the united pairs. *)
Lemma unite_all_ok edges :
  Forall in_range edges →
  ∃ uf, unite_all (uf_new n) edges = Some uf ∧ holds uf edges.
Proof using Hn. apply (unite_all_from _ [] edges uf_new_holds). Qed.

Lemma holds_find uf edges x : holds uf edges → (x < n)%nat → ∃ r, uf_find uf x = Some r ∧ (r < n)%nat.
Proof using Type.
  intros (Hwf & Hlen & _) Hx. destruct (wf_forest _ Hwf x) as [r Hr]; [by rewrite Hlen|].
  exists r. split; [by apply uf_find_Root|]. rewrite <-Hlen. by apply Root_lt in Hr as [].
Qed.

Lemma holds_find_eq uf edges x y :
  holds uf edges → (x < n)%nat → (y < n)%nat →
  uf_find uf x = uf_find uf y ↔ connected edges x y.
Proof using Type.
  intros H Hx Hy. pose proof H as (Hwf & Hlen & Hs). rewrite <-Hs by done.
  destruct (holds_find _ _ _ H Hx) as (r & Hr & _). split.
  - intros E. exists r. rewrite <-!uf_find_Root. by rewrite <-E.
  - intros (s & H1 & H2). apply uf_find_Root in H1, H2. congruence.
Qed.

Lemma holds_components uf edges :
  holds uf edges →
  ∃ roots, uf_components uf = Some roots ∧ length roots = n ∧
    ∀ x y rx ry, roots !! x = Some rx → roots !! y = Some ry → rx = ry ↔ connected edges x y.
Proof using Type.
  intros H. pose proof H as (_ & Hlen & _). unfold uf_components. rewrite Hlen.
  destruct (mapM_is_Some_2 (uf_find uf) (seq 0 n)) as [roots E].
  { apply Forall_forall. intros x Hx%elem_of_seq.
    destruct (holds_find _ _ x H ltac:(lia)) as (r & E & _). by exists r. }
  exists roots. split; [done|]. apply mapM_Some in E.
  pose proof (Forall2_length _ _ _ E) as Hl. rewrite length_seq in Hl. split; [done|].
  intros x y rx ry Hx Hy.
  assert (∀ z rz, roots !! z = Some rz → (z < n)%nat ∧ uf_find uf z = Some rz) as Hz.
  { intros z rz Hz. pose proof (lookup_lt_Some _ _ _ Hz). split; [lia|].
    destruct (Forall2_lookup_r _ _ _ _ _ E Hz) as (z' & Hz' & ?).
    apply lookup_seq in Hz' as [-> _]. done. }
  destruct (Hz _ _ Hx) as [? Fx], (Hz _ _ Hy) as [? Fy].
  rewrite <-(holds_find_eq uf edges x y) by done. rewrite Fx, Fy. naive_solver.
Qed.
End unite.
