(* ===== verification/Identity.v ===== *)
(** * The identity fuser: [src/rastreo-core/src/fuser/identity.rs]

    Records that share identity signals are bucketed, the pairs inside a bucket
    are weighed, pairs of a high weight are united and each component becomes
    one record; pairs of a medium weight are only remarked on. An index out of
    range or a failed [expect] is [None]. *)

From S2P Require Import Prelude Net F64 Model FuserCore UnionFind.

(** The order in which a [HashMap] or a [HashSet] yields its entries: any order,
    another one at each use. *)
Class HashOrder := hash_order : ∀ (site : nat * nat) {A : Type}, list A → list A.
Class HashOrderLaws (H : HashOrder) : Prop :=
  hash_order_perm : ∀ site A (l : list A), hash_order site l ≡ₚ l.

Definition HIGH_BAND_THRESHOLD : f64 := f64_ratio 8 10.
Definition MEDIUM_BAND_THRESHOLD : f64 := f64_ratio 4 10.
Definition MERGE_CONFIDENCE_BONUS : f64 := f64_ratio 1 10.
Definition WEIGHT_SHARED_MAC : f64 := f64_ratio 5 10.
Definition WEIGHT_SHARED_SYSNAME : f64 := f64_ratio 5 10.
Definition WEIGHT_SHARED_HOST_KEY : f64 := f64_ratio 8 10.
Definition WEIGHT_SHARED_TLS_SUBJECT : f64 := f64_ratio 3 10.
Definition WEIGHT_SHARED_TLS_SAN : f64 := f64_ratio 5 10.
Definition WEIGHT_SHARED_REVERSE_DNS : f64 := f64_ratio 5 10.
Definition PENALTY_CONFLICTING_MANUFACTURER : f64 := f64_ratio 3 10.
Definition VRRP_MEMBER_WEIGHT_CAP : f64 := f64_ratio 4 10.

Inductive BucketKey : Type :=
  | BMac (v : Str)
  | BSysName (v : Str)
  | BSshHostKey (v : Str)
  | BTlsSubject (v : Str)
  | BTlsSanName (v : Str)
  | BReverseDnsName (v : Str).

#[global] Instance BucketKey_eq_dec : EqDecision BucketKey.
Proof. solve_decision. Defined.
#[global] Instance BucketKey_countable : Countable BucketKey.
Proof.
  apply (inj_countable
    (λ k, match k with
          | BMac v => (0, v) | BSysName v => (1, v) | BSshHostKey v => (2, v)
          | BTlsSubject v => (3, v) | BTlsSanName v => (4, v) | BReverseDnsName v => (5, v)
          end)
    (λ p : Z * Str, match p with
          | (0, v) => Some (BMac v) | (1, v) => Some (BSysName v) | (2, v) => Some (BSshHostKey v)
          | (3, v) => Some (BTlsSubject v) | (4, v) => Some (BTlsSanName v)
          | (5, v) => Some (BReverseDnsName v) | _ => None
          end)).
  by intros [].
Defined.

(** ** Signal lookups *)

Definition find_sysname (signals : list Signal) : option Str :=
  find_map (λ s, match s with SnmpSysName n => Some n | _ => None end) signals.
Definition find_ssh_host_key (signals : list Signal) : option Str :=
  find_map (λ s, match s with SshHostKey k => Some k | _ => None end) signals.
Definition find_tls_subject (signals : list Signal) : option Str :=
  find_map (λ s, match s with TlsSubject v => Some v | _ => None end) signals.
Definition collect_tls_san_names (signals : list Signal) : list Str :=
  omap (λ s, match s with TlsSanName v => Some v | _ => None end) signals.
Definition collect_reverse_dns_names (signals : list Signal) : list Str :=
  omap (λ s, match s with ReverseDnsName v => Some v | _ => None end) signals.

Definition any_tls_san_overlap (a b : list Str) : bool :=
  existsb (λ name, negb (is_empty name) && bool_decide (name ∈ b)) a.
Definition any_reverse_dns_overlap (a b : list Str) : bool :=
  existsb (λ name, negb (is_empty name) && existsb (λ other, eq_ignore_ascii_case name other) b) a.

(** ** Weights *)

Section identity.
Context `{UnicodeCase}.

Definition hint_says_virtual (hints : IdentityHints) (mac : Str) : bool :=
  existsb (λ g, mac_equal (vg_virtual_mac g) mac) (ih_vrrp_groups hints).

Definition contribute_mac (hints : IdentityHints) (a b : DeviceRecord) : f64 :=
  match dr_mac a, dr_mac b with
  | Some ma, Some mb =>
      if mac_equal ma mb && negb (is_virtual_mac ma) && negb (hint_says_virtual hints ma)
      then WEIGHT_SHARED_MAC else f64_zero
  | _, _ => f64_zero
  end.

Definition contribute_sysname (_ : IdentityHints) (a b : DeviceRecord) : f64 :=
  match find_sysname (dr_signals a), find_sysname (dr_signals b) with
  | Some sa, Some sb =>
      if negb (is_empty sa) && eq_ignore_ascii_case sa sb
      then WEIGHT_SHARED_SYSNAME else f64_zero
  | _, _ => f64_zero
  end.

Definition contribute_ssh_host_key (_ : IdentityHints) (a b : DeviceRecord) : f64 :=
  match find_ssh_host_key (dr_signals a), find_ssh_host_key (dr_signals b) with
  | Some ka, Some kb =>
      if negb (is_empty ka) && bool_decide (ka = kb) then WEIGHT_SHARED_HOST_KEY else f64_zero
  | _, _ => f64_zero
  end.

Definition contribute_tls_subject (_ : IdentityHints) (a b : DeviceRecord) : f64 :=
  match find_tls_subject (dr_signals a), find_tls_subject (dr_signals b) with
  | Some sa, Some sb =>
      if negb (is_empty sa) && bool_decide (sa = sb) then WEIGHT_SHARED_TLS_SUBJECT else f64_zero
  | _, _ => f64_zero
  end.

Definition contribute_tls_san (_ : IdentityHints) (a b : DeviceRecord) : f64 :=
  let sans_a := collect_tls_san_names (dr_signals a) in
  let sans_b := collect_tls_san_names (dr_signals b) in
  if negb (is_empty sans_a) && negb (is_empty sans_b) && any_tls_san_overlap sans_a sans_b
  then WEIGHT_SHARED_TLS_SAN else f64_zero.

Definition contribute_reverse_dns (_ : IdentityHints) (a b : DeviceRecord) : f64 :=
  let rdns_a := collect_reverse_dns_names (dr_signals a) in
  let rdns_b := collect_reverse_dns_names (dr_signals b) in
  if negb (is_empty rdns_a) && negb (is_empty rdns_b) && any_reverse_dns_overlap rdns_a rdns_b
  then WEIGHT_SHARED_REVERSE_DNS else f64_zero.

Definition CONTRIBUTIONS : list (IdentityHints → DeviceRecord → DeviceRecord → f64) :=
  [contribute_mac; contribute_sysname; contribute_ssh_host_key; contribute_tls_subject;
   contribute_tls_san; contribute_reverse_dns].

(** [Iterator::sum] over floats starts from negative zero. *)
Definition f64_sum (l : list f64) : f64 := foldl f64_add (S754_zero true) l.

Definition pair_is_declared_vrrp_members (hints : IdentityHints) (a b : DeviceRecord) : bool :=
  match dr_mgmt_ip a, dr_mgmt_ip b with
  | Some ip_a, Some ip_b =>
      existsb (λ g, bool_decide (ip_a ∈ vg_members g) && bool_decide (ip_b ∈ vg_members g))
        (ih_vrrp_groups hints)
  | _, _ => false
  end.

Definition manufacturers_conflict (a b : DeviceRecord) : bool :=
  match dr_manufacturer a, dr_manufacturer b with
  | Some mfa, Some mfb => negb (eq_ignore_ascii_case mfa mfb)
  | _, _ => false
  end.

(** [IdentityFuser::pair_weight]. *)
Definition pair_weight (hints : IdentityHints) (a b : DeviceRecord) : f64 :=
  let w := f64_sum ((λ f, f hints a b) <$> CONTRIBUTIONS) in
  let w := if manufacturers_conflict a b then f64_sub w PENALTY_CONFLICTING_MANUFACTURER else w in
  if pair_is_declared_vrrp_members hints a b && f64_lt VRRP_MEMBER_WEIGHT_CAP w
  then VRRP_MEMBER_WEIGHT_CAP else w.

(** ** Candidate pairs *)

Definition insert_unless_empty (mk : Str → BucketKey) (norm : Str → Str) (keys : gset BucketKey)
    (v : Str) : gset BucketKey :=
  if is_empty v then keys else {[mk (norm v)]} ∪ keys.

Definition insert_opt (mk : Str → BucketKey) (norm : Str → Str) (v : option Str)
    (keys : gset BucketKey) : gset BucketKey :=
  match v with Some v => insert_unless_empty mk norm keys v | None => keys end.

(** [IdentityFuser::bucket_keys]. *)
Definition bucket_keys (hints : IdentityHints) (record : DeviceRecord) : gset BucketKey :=
  let keys : gset BucketKey :=
    match dr_mac record with
    | Some mac =>
        if negb (is_virtual_mac mac) && negb (hint_says_virtual hints mac)
        then {[BMac (normalize_mac mac)]} else ∅
    | None => ∅
    end in
  let keys := insert_opt BSysName normalize_sys_name (find_sysname (dr_signals record)) keys in
  let keys := insert_opt BSshHostKey id (find_ssh_host_key (dr_signals record)) keys in
  let keys := insert_opt BTlsSubject id (find_tls_subject (dr_signals record)) keys in
  let keys := foldl (insert_unless_empty BTlsSanName id) keys
                (collect_tls_san_names (dr_signals record)) in
  foldl (insert_unless_empty BReverseDnsName normalize_sys_name) keys
    (collect_reverse_dns_names (dr_signals record)).

Context `{HashOrder}.

Abbreviation Buckets := (gmap BucketKey (list nat)).

(** [buckets.entry(key).or_default().push(idx)]. *)
Definition bucket_push (idx : nat) (buckets : Buckets) (key : BucketKey) : Buckets :=
  <[key := default [] (buckets !! key) ++ [idx]]> buckets.

Fixpoint fill_buckets (hints : IdentityHints) (idx : nat) (records : list DeviceRecord)
    (buckets : Buckets) : Buckets :=
  match records with
  | [] => buckets
  | record :: rest =>
      fill_buckets hints (S idx) rest
        (foldl (bucket_push idx) buckets
           (hash_order (0%nat, idx) (elements (bucket_keys hints record))))
  end.

(** The two nested loops over one bucket. *)
Fixpoint ordered_pairs {A} (l : list A) : list (A * A) :=
  match l with
  | [] => []
  | x :: l' => (pair x <$> l') ++ ordered_pairs l'
  end.

Definition add_candidates (cap : Z) (candidates : gset (nat * nat)) (indices : list nat)
    : gset (nat * nat) :=
  if cap <? Z.of_nat (length indices) then candidates
  else foldl (λ acc p, {[p]} ∪ acc) candidates (ordered_pairs indices).

(** [records[i]], [records[j]] weighed; pairs of no weight are dropped. *)
Definition weigh (hints : IdentityHints) (records : list DeviceRecord) (p : nat * nat)
    : option (nat * nat * f64) :=
  a ← records !! p.1;
  b ← records !! p.2;
  let w := pair_weight hints a b in
  if f64_lt f64_zero w then Some (p, w) else None.

(** [IdentityFuser::compute_pair_weights]. *)
Definition compute_pair_weights (hints : IdentityHints) (records : list DeviceRecord)
    : list (nat * nat * f64) :=
  let buckets := fill_buckets hints 0 records ∅ in
  let candidates :=
    foldl (add_candidates (ih_max_correlation_bucket hints)) (∅ : gset (nat * nat))
      (hash_order (1%nat, 0%nat) (map_to_list buckets).*2) in
  omap (weigh hints records) (hash_order (2%nat, 0%nat) (elements candidates)).

(** [compute_pair_weights_bruteforce], the reference of the crate's own tests. *)
Definition compute_pair_weights_bruteforce (hints : IdentityHints) (records : list DeviceRecord)
    : list (nat * nat * f64) :=
  omap (weigh hints records) (ordered_pairs (seq 0 (length records))).
End identity.

(** ** Merging *)

Record MediumPeer : Type := mkMediumPeer {
  mp_peer_index : nat;
  mp_weight : f64;
}.

(** [out[i].push(p)]. *)
Definition push_at {A} (out : list (list A)) (i : nat) (p : A) : option (list (list A)) :=
  ps ← out !! i; Some (<[i := ps ++ [p]]> out).

Definition is_high (w : f64) : bool := f64_le HIGH_BAND_THRESHOLD w.

Fixpoint collect_medium_peers_from (weights : list (nat * nat * f64)) (uf : UnionFind)
    (out : list (list MediumPeer)) : option (list (list MediumPeer)) :=
  match weights with
  | [] => Some out
  | (i, j, w) :: rest =>
      if is_high w then collect_medium_peers_from rest uf out
      else if f64_lt w MEDIUM_BAND_THRESHOLD then collect_medium_peers_from rest uf out
      else
        ri ← uf_find uf i;
        rj ← uf_find uf j;
        if (ri =? rj)%nat then collect_medium_peers_from rest uf out
        else
          out ← push_at out i (mkMediumPeer j w);
          out ← push_at out j (mkMediumPeer i w);
          collect_medium_peers_from rest uf out
  end.

Definition collect_medium_peers (n : nat) (weights : list (nat * nat * f64)) (uf : UnionFind)
    : option (list (list MediumPeer)) :=
  collect_medium_peers_from weights uf (replicate n []).

(** One step of the loop of [pick_best_medium_peer]. *)
Definition better_peer (best : option (nat * f64 * f64)) (candidate : nat * f64 * f64)
    : option (nat * f64 * f64) :=
  match best with
  | None => Some candidate
  | Some current =>
      let '(idx, conf, weight) := candidate in
      let '(cur_idx, cur_conf, cur_weight) := current in
      let take :=
        f64_lt cur_conf conf
        || (f64_eq conf cur_conf && f64_lt cur_weight weight)
        || (f64_eq conf cur_conf && f64_eq weight cur_weight && (idx <? cur_idx)%nat) in
      if take then Some candidate else Some current
  end.

(** [pick_best_medium_peer]; the outer [None] is an index out of range. *)
Definition pick_best_medium_peer (peers : list MediumPeer) (snapshot : list (IdentityKey * f64))
    : option (option IdentityKey) :=
  candidates ← mapM (λ p, '(_, conf) ← snapshot !! mp_peer_index p;
                          Some (mp_peer_index p, conf, mp_weight p)) peers;
  match foldl better_peer None candidates with
  | None => Some None
  | Some (idx, _, _) => '(key, _) ← snapshot !! idx; Some (Some key)
  end.

(** The members of a group with their records, each expected to be present. *)
Definition member_records (records : list (option DeviceRecord)) (members : list nat)
    : option (list (nat * DeviceRecord)) :=
  mapM (λ i, r ← mjoin (records !! i); Some (i, r)) members.

Definition better_record (best cur : nat * DeviceRecord) : nat * DeviceRecord :=
  if f64_lt (dr_confidence best.2) (dr_confidence cur.2) then cur else best.

Definition add_alt_ip (first_idx : nat) (acc : list AltIp * gset IpAddr)
    (m : nat * DeviceRecord) : list AltIp * gset IpAddr :=
  if (m.1 =? first_idx)%nat then acc
  else
    match dr_mgmt_ip m.2 with
    | None => acc
    | Some ip =>
        if bool_decide (ip ∈ acc.2) then acc
        else (acc.1 ++ [mkAltIp ip (altip_role_from_mac (dr_mac m.2)) (dr_probe_kinds m.2)],
              {[ip]} ∪ acc.2)
    end.

Definition collect_alt_ips (first_idx : nat) (mgmt_ip : option IpAddr)
    (ms : list (nat * DeviceRecord)) : list AltIp :=
  let seen : gset IpAddr := match mgmt_ip with Some ip => {[ip]} | None => ∅ end in
  (foldl (add_alt_ip first_idx) ([], seen) ms).1.

(** [first_non_none]. *)
Definition first_non_none (ms : list (nat * DeviceRecord)) (f : DeviceRecord → option Str)
    : option Str :=
  find_map (λ m, f m.2) ms.

(** The best record's value of a field, or the first member's that has one. *)
Definition best_or_first (best : DeviceRecord) (ms : list (nat * DeviceRecord))
    (f : DeviceRecord → option Str) : option Str :=
  match f best with Some v => Some v | None => first_non_none ms f end.

Definition latest (t : SystemTime) (m : nat * DeviceRecord) : SystemTime :=
  if t <? dr_last_seen m.2 then dr_last_seen m.2 else t.

Section merge.
Context `{F64Display}.

(** The record [merge_group] builds from its members, the first one given apart. *)
Definition merged_record (first : nat * DeviceRecord) (rest : list (nat * DeviceRecord))
    : option (nat * DeviceRecord) :=
  let ms := first :: rest in
  let best := foldl better_record first rest in
  let b := best.2 in
  let mgmt_ip := dr_mgmt_ip first.2 in
  confidence ← result_ok (confidence_new
    (f64_clamp (f64_add (dr_confidence b) MERGE_CONFIDENCE_BONUS) f64_zero f64_one));
  Some (best.1, {|
    dr_identity_key := dr_identity_key b;
    dr_mgmt_ip := mgmt_ip;
    dr_mac := best_or_first b ms dr_mac;
    dr_manufacturer := best_or_first b ms dr_manufacturer;
    dr_model := best_or_first b ms dr_model;
    dr_product_family := best_or_first b ms dr_product_family;
    dr_platform := best_or_first b ms dr_platform;
    dr_os_version := best_or_first b ms dr_os_version;
    dr_ssh_version := best_or_first b ms dr_ssh_version;
    dr_http_server := best_or_first b ms dr_http_server;
    dr_http_version := best_or_first b ms dr_http_version;
    dr_role := best_or_first b ms dr_role;
    dr_confidence := confidence;
    dr_last_seen := foldl latest (dr_last_seen b) ms;
    dr_signals := foldl (λ acc m, foldl push_new acc (dr_signals m.2)) [] ms;
    dr_probe_kinds := foldl (λ acc m, foldl push_new acc (dr_probe_kinds m.2)) [] ms;
    dr_schema_version := dr_schema_version b;
    dr_schema_id := dr_schema_id b;
    dr_alt_ips := collect_alt_ips first.1 mgmt_ip ms;
    dr_possible_alias_of := None;
    dr_scan_metadata := dr_scan_metadata b |}).

(** [merge_group]: the best member is taken out of the records. *)
Definition merge_group (records : list (option DeviceRecord)) (members : list nat)
    : option (list (option DeviceRecord) * DeviceRecord) :=
  ms ← member_records records members;
  match ms with
  | [] => None
  | first :: rest =>
      '(best_idx, merged) ← merged_record first rest;
      Some (<[best_idx := None]> records, merged)
  end.

(** The grouping loop of [merge_components]. *)
Fixpoint group_by_root (i : nat) (components : list nat) (groups : list (list nat))
    (root_to_group : gmap nat nat) : option (list (list nat)) :=
  match components with
  | [] => Some groups
  | root :: rest =>
      let '(idx, groups, root_to_group) :=
        match root_to_group !! root with
        | Some idx => (idx, groups, root_to_group)
        | None => (length groups, groups ++ [[]], <[root := length groups]> root_to_group)
        end in
      groups ← push_at groups idx i;
      group_by_root (S i) rest groups root_to_group
  end.

(** One group of the emitting loop. *)
Definition emit_group (medium_peers : list (list MediumPeer)) (snapshot : list (IdentityKey * f64))
    (opt_records : list (option DeviceRecord)) (members : list nat)
    : option (list (option DeviceRecord) * DeviceRecord) :=
  match members with
  | [idx] =>
      r ← mjoin (opt_records !! idx);
      peers ← medium_peers !! idx;
      peer ← pick_best_medium_peer peers snapshot;
      Some (<[idx := None]> opt_records,
            match peer with Some k => set_possible_alias_of (Some k) r | None => r end)
  | _ => merge_group opt_records members
  end.

Fixpoint emit_groups (medium_peers : list (list MediumPeer)) (snapshot : list (IdentityKey * f64))
    (groups : list (list nat)) (opt_records : list (option DeviceRecord))
    : option (list DeviceRecord) :=
  match groups with
  | [] => Some []
  | members :: rest =>
      '(opt_records, r) ← emit_group medium_peers snapshot opt_records members;
      out ← emit_groups medium_peers snapshot rest opt_records;
      Some (r :: out)
  end.

(** [merge_components]. *)
Definition merge_components (records : list DeviceRecord) (components : list nat)
    (medium_peers : list (list MediumPeer)) : option (list DeviceRecord) :=
  groups ← group_by_root 0 (take (length records) components) [] ∅;
  let snapshot := (λ r, (dr_identity_key r, dr_confidence r)) <$> records in
  emit_groups medium_peers snapshot groups (Some <$> records).

(** What [correlate] and [correlate_bruteforce] do with the weights. *)
Definition correlate_weights (records : list DeviceRecord) (weights : list (nat * nat * f64))
    : option (list DeviceRecord) :=
  let n := length records in
  uf ← unite_all (uf_new n) (filter (λ e, is_high e.2 = true) weights).*1;
  medium_peers ← collect_medium_peers n weights uf;
  components ← uf_components uf;
  merge_components records components medium_peers.

(** [IdentityFuser::correlate]. *)
Definition correlate `{UnicodeCase, HashOrder} (hints : IdentityHints)
    (records : list DeviceRecord) : option (list DeviceRecord) :=
  if (length records <=? 1)%nat then Some records
  else correlate_weights records (compute_pair_weights hints records).

(** [correlate_bruteforce]. *)
Definition correlate_bruteforce `{UnicodeCase} (hints : IdentityHints)
    (records : list DeviceRecord) : option (list DeviceRecord) :=
  if (length records <=? 1)%nat then Some records
  else correlate_weights records (compute_pair_weights_bruteforce hints records).
End merge.
