(* ===== verification/IdentityFacts.v ===== *)
(** * Facts on correlation weights and buckets

    A pair weight is symmetric, never NaN, and positive only for records that
    share a bucket; the buckets hold the indices of their records in order. *)

From S2P Require Import Prelude Net F64 Model FuserCore UnionFind Identity.

(** ** MAC texts that correlate parse alike *)

Section mac.
Context `{U : UnicodeCase}.

Abbreviation mac_chars mac := (filter (λ c, is_mac_separator c = false) mac).

Lemma parse_mac_loop_filter mac bytes hi :
  parse_mac_loop mac bytes hi = parse_mac_loop (mac_chars mac) bytes hi.
Proof using Type.
  revert bytes hi. induction mac as [|c mac IH]; intros bytes hi; [done|].
  rewrite filter_cons. cbn [parse_mac_loop]. destruct (is_mac_separator c) eqn:E.
  - rewrite decide_False by done. apply IH.
  - rewrite decide_True by done. cbn [parse_mac_loop]. rewrite E.
    destruct (to_digit 16 c); [|done]. destruct hi; [|apply IH].
    destruct (_ =? _)%nat; [done|apply IH].
Qed.

Lemma parse_mac_loop_digits f g bytes hi :
  Forall (λ c, is_mac_separator c = false) f → Forall (λ c, is_mac_separator c = false) g →
  to_digit 16 <$> f = to_digit 16 <$> g →
  parse_mac_loop f bytes hi = parse_mac_loop g bytes hi.
Proof using Type.
  intros Hf. revert g bytes hi. induction Hf as [|c f Hc Hf IH]; intros [|d g] bytes hi Hg E; try done.
  apply Forall_cons in Hg as [Hd Hg]. injection E as Ed E. cbn [parse_mac_loop].
  rewrite Hc, Hd, Ed. destruct (to_digit 16 d); [|done].
  destruct hi; [|by apply IH]. destruct (_ =? _)%nat; [done|by apply IH].
Qed.

(** With twelve characters in all, the loop looks at every one of them. *)
Lemma parse_mac_loop_bad f bytes (hi : option Z) :
  (2 * length bytes + match hi with Some _ => 1 | None => 0 end + length f = 12)%nat →
  Forall (λ c, is_mac_separator c = false) f →
  ¬ Forall (λ c, is_Some (to_digit 16 c)) f →
  parse_mac_loop f bytes hi = inl None.
Proof using Type.
  revert bytes hi. induction f as [|c f IH]; intros bytes hi Hlen Hsep Hbad.
  { exfalso. by apply Hbad. }
  apply Forall_cons in Hsep as [Hc Hsep]. cbn [parse_mac_loop]. rewrite Hc.
  destruct (to_digit 16 c) as [d|] eqn:Ed; [|done].
  assert (¬ Forall (λ c, is_Some (to_digit 16 c)) f) as Hbad'.
  { intros H. apply Hbad. constructor; eauto. }
  cbn [length] in Hlen. destruct hi as [h|].
  - destruct (Nat.eqb_spec (length bytes) 5) as [E|].
    + destruct f; [by exfalso; apply Hbad'|]. simpl in Hlen. lia.
    + apply IH; [|done|done]. rewrite length_app. simpl. lia.
  - apply IH; [|done|done]. lia.
Qed.

(** A prefix is a function of the characters' digit values. *)
Lemma parse_mac_prefix_digits a b :
  to_digit 16 <$> mac_chars a = to_digit 16 <$> mac_chars b →
  parse_mac_prefix a = parse_mac_prefix b.
Proof using Type.
  intros E. unfold parse_mac_prefix. rewrite (parse_mac_loop_filter a), (parse_mac_loop_filter b).
  rewrite (parse_mac_loop_digits _ (mac_chars b)); [|apply Forall_filter..|done].
  pose proof (f_equal length E) as Hl. rewrite !length_fmap in Hl. by rewrite Hl.
Qed.

Lemma parse_mac_prefix_bad a :
  ¬ Forall (λ c, is_Some (to_digit 16 c)) (mac_chars a) → parse_mac_prefix a = None.
Proof using Type.
  intros Hbad. unfold parse_mac_prefix. destruct (Nat.eqb_spec (length (mac_chars a)) 12); [|done].
  simpl. rewrite parse_mac_loop_filter.
  by rewrite parse_mac_loop_bad; [|cbn [length]; lia|apply Forall_filter|].
Qed.

Lemma to_digit_ascii_lower c : to_digit 16 (ascii_lower c) = to_digit 16 c.
Proof using Type.
  unfold to_digit, ascii_lower.
  repeat (case_match; break_bool; try lia); try done; f_equal; lia.
Qed.

Lemma to_digit_hex c :
  is_Some (to_digit 16 c) →
  (48 ≤ ascii_lower c ≤ 57 ∨ 97 ≤ ascii_lower c ≤ 102) ∧ 0 ≤ c < 128.
Proof using Type.
  rewrite <-to_digit_ascii_lower. unfold to_digit, ascii_lower. intros [d Hd].
  repeat (case_match; break_bool; try lia; try done).
Qed.

Context {UL : UnicodeCaseLaws U}.

Lemma lower_ascii f :
  Forall (λ c, 0 ≤ c < 128) f → mjoin (char_to_lowercase <$> f) = to_ascii_lowercase f.
Proof using UL.
  induction 1 as [|c f Hc _ IH]; [done|].
  rewrite fmap_cons, mjoin_cons, IH, char_to_lowercase_ascii by done. done.
Qed.

(** Hexadecimal text has only hexadecimal texts for its lower-case equals. *)
Lemma lower_hex f g :
  Forall (λ c, is_Some (to_digit 16 c)) f →
  mjoin (char_to_lowercase <$> f) = mjoin (char_to_lowercase <$> g) →
  to_digit 16 <$> f = to_digit 16 <$> g.
Proof using UL.
  intros Hf E.
  assert (Forall (λ c, 0 ≤ c < 128) f) as Hfa.
  { eapply Forall_impl; [done|]. intros c Hc. by apply to_digit_hex. }
  rewrite lower_ascii in E by done.
  assert (Forall (λ c, 0 ≤ c < 128) g) as Hga.
  { apply Forall_forall. intros c Hc.
    pose proof (char_to_lowercase_nonempty c) as Hne.
    destruct (char_to_lowercase c) as [|d ds] eqn:Ec; [done|].
    assert (d ∈ char_to_lowercase c) as Hd by (rewrite Ec; by left).
    apply (char_to_lowercase_hex c d Hd).
    assert (d ∈ to_ascii_lowercase f) as Hdf.
    { rewrite E. apply list_elem_of_join. exists (char_to_lowercase c). split; [done|].
      by apply list_elem_of_fmap_2. }
    apply list_elem_of_fmap in Hdf as (x & -> & Hx).
    rewrite Forall_forall in Hf. by apply to_digit_hex, Hf. }
  rewrite lower_ascii in E by done. unfold to_ascii_lowercase in E.
  apply (f_equal (fmap (to_digit 16))) in E. rewrite <-!list_fmap_compose in E.
  etrans; [|etrans; [apply E|]]; apply list_fmap_ext; intros ? x _; simpl;
    by rewrite to_digit_ascii_lower.
Qed.

Lemma mac_equal_parse a b :
  mac_equal a b = true → parse_mac_prefix a = parse_mac_prefix b.
Proof using UL.
  unfold mac_equal. intros E%bool_decide_eq_true_1. unfold normalize_mac in E.
  destruct (decide (Forall (λ c, is_Some (to_digit 16 c)) (mac_chars a))) as [Ha|Ha].
  { by apply parse_mac_prefix_digits, lower_hex. }
  destruct (decide (Forall (λ c, is_Some (to_digit 16 c)) (mac_chars b))) as [Hb|Hb].
  { symmetry. by apply parse_mac_prefix_digits, lower_hex. }
  by rewrite !parse_mac_prefix_bad.
Qed.

Lemma mac_equal_virtual a b : mac_equal a b = true → is_virtual_mac a = is_virtual_mac b.
Proof using UL. intros E. unfold is_virtual_mac. by rewrite (mac_equal_parse a b E). Qed.

Lemma mac_equal_hint hints a b :
  mac_equal a b = true → hint_says_virtual hints a = hint_says_virtual hints b.
Proof using Type.
  unfold mac_equal. intros E%bool_decide_eq_true_1. unfold hint_says_virtual, mac_equal.
  by rewrite E.
Qed.

Lemma mac_equal_sym a b : mac_equal a b = mac_equal b a.
Proof using Type. unfold mac_equal. apply bool_decide_ext. naive_solver. Qed.
End mac.

(** ** Weights as functions of what two records share *)

Section weights.
Context `{U : UnicodeCase}.
Implicit Types (hints : IdentityHints) (a b : DeviceRecord).

Definition shares_mac hints a b : bool :=
  match dr_mac a, dr_mac b with
  | Some ma, Some mb =>
      mac_equal ma mb && negb (is_virtual_mac ma) && negb (hint_says_virtual hints ma)
  | _, _ => false
  end.
Definition shares_sysname a b : bool :=
  match find_sysname (dr_signals a), find_sysname (dr_signals b) with
  | Some sa, Some sb => negb (is_empty sa) && eq_ignore_ascii_case sa sb
  | _, _ => false
  end.
Definition shares_value (find : list Signal → option Str) a b : bool :=
  match find (dr_signals a), find (dr_signals b) with
  | Some sa, Some sb => negb (is_empty sa) && bool_decide (sa = sb)
  | _, _ => false
  end.
Definition shares_tls_san a b : bool :=
  any_tls_san_overlap (collect_tls_san_names (dr_signals a)) (collect_tls_san_names (dr_signals b)).
Definition shares_reverse_dns a b : bool :=
  any_reverse_dns_overlap (collect_reverse_dns_names (dr_signals a))
    (collect_reverse_dns_names (dr_signals b)).

Definition weight_of (mac sysname host_key subject san rdns conflict vrrp : bool) : f64 :=
  let w := f64_sum [
    if mac then WEIGHT_SHARED_MAC else f64_zero;
    if sysname then WEIGHT_SHARED_SYSNAME else f64_zero;
    if host_key then WEIGHT_SHARED_HOST_KEY else f64_zero;
    if subject then WEIGHT_SHARED_TLS_SUBJECT else f64_zero;
    if san then WEIGHT_SHARED_TLS_SAN else f64_zero;
    if rdns then WEIGHT_SHARED_REVERSE_DNS else f64_zero] in
  let w := if conflict then f64_sub w PENALTY_CONFLICTING_MANUFACTURER else w in
  if vrrp && f64_lt VRRP_MEMBER_WEIGHT_CAP w then VRRP_MEMBER_WEIGHT_CAP else w.

Ltac solve_contribution :=
  repeat match goal with |- context [match ?o with Some _ => _ | None => _ end] => destruct o end;
  done.

Lemma contribute_mac_if hints a b :
  contribute_mac hints a b = if shares_mac hints a b then WEIGHT_SHARED_MAC else f64_zero.
Proof using Type. unfold contribute_mac, shares_mac. solve_contribution. Qed.

Lemma contribute_sysname_if hints a b :
  contribute_sysname hints a b = if shares_sysname a b then WEIGHT_SHARED_SYSNAME else f64_zero.
Proof using Type. unfold contribute_sysname, shares_sysname. solve_contribution. Qed.

Lemma contribute_ssh_host_key_if hints a b :
  contribute_ssh_host_key hints a b =
  if shares_value find_ssh_host_key a b then WEIGHT_SHARED_HOST_KEY else f64_zero.
Proof using Type. unfold contribute_ssh_host_key, shares_value. solve_contribution. Qed.

Lemma contribute_tls_subject_if hints a b :
  contribute_tls_subject hints a b =
  if shares_value find_tls_subject a b then WEIGHT_SHARED_TLS_SUBJECT else f64_zero.
Proof using Type. unfold contribute_tls_subject, shares_value. solve_contribution. Qed.

(** The emptiness tests on the two lists are implied by an overlap. *)
Lemma existsb_andb_nil {A B} (p : A → bool) (q : A → B → bool) (l : list A) :
  existsb (λ x, p x && existsb (q x) []) l = false.
Proof using Type. induction l as [|x l IH]; simpl; [done|]. by rewrite andb_false_r. Qed.

Lemma contribute_tls_san_if hints a b :
  contribute_tls_san hints a b = if shares_tls_san a b then WEIGHT_SHARED_TLS_SAN else f64_zero.
Proof using Type.
  unfold contribute_tls_san, shares_tls_san.
  destruct (collect_tls_san_names (dr_signals a)) as [|x l]; [done|].
  destruct (collect_tls_san_names (dr_signals b)) as [|y k]; [|done].
  assert (any_tls_san_overlap (x :: l) [] = false) as ->; [|done].
  apply not_true_iff_false. unfold any_tls_san_overlap.
  rewrite existsb_exists. intros (n & _ & E). break_bool. set_solver.
Qed.

Lemma contribute_reverse_dns_if hints a b :
  contribute_reverse_dns hints a b =
  if shares_reverse_dns a b then WEIGHT_SHARED_REVERSE_DNS else f64_zero.
Proof using Type.
  unfold contribute_reverse_dns, shares_reverse_dns.
  destruct (collect_reverse_dns_names (dr_signals a)) as [|x l]; [done|].
  destruct (collect_reverse_dns_names (dr_signals b)) as [|y k]; [|done].
  assert (any_reverse_dns_overlap (x :: l) [] = false) as ->; [|done].
  unfold any_reverse_dns_overlap. apply existsb_andb_nil.
Qed.

Lemma pair_weight_of hints a b :
  pair_weight hints a b =
  weight_of (shares_mac hints a b) (shares_sysname a b) (shares_value find_ssh_host_key a b)
    (shares_value find_tls_subject a b) (shares_tls_san a b) (shares_reverse_dns a b)
    (manufacturers_conflict a b) (pair_is_declared_vrrp_members hints a b).
Proof using Type.
  unfold pair_weight, weight_of, CONTRIBUTIONS. cbn [fmap list_fmap].
  by rewrite contribute_mac_if, contribute_sysname_if, contribute_ssh_host_key_if,
    contribute_tls_subject_if, contribute_tls_san_if, contribute_reverse_dns_if.
Qed.

Lemma weight_of_not_nan m s k t n r c v : is_nan (weight_of m s k t n r c v) = false.
Proof using Type. destruct m, s, k, t, n, r, c, v; vm_compute; done. Qed.

Lemma weight_of_none c v : f64_lt f64_zero (weight_of false false false false false false c v) = false.
Proof using Type. destruct c, v; vm_compute; done. Qed.

Lemma pair_weight_not_nan hints a b : is_nan (pair_weight hints a b) = false.
Proof using Type. rewrite pair_weight_of. apply weight_of_not_nan. Qed.

(** A positive weight comes from a shared value. *)
Lemma pair_weight_shares hints a b :
  f64_lt f64_zero (pair_weight hints a b) = true →
  shares_mac hints a b = true ∨ shares_sysname a b = true ∨
  shares_value find_ssh_host_key a b = true ∨ shares_value find_tls_subject a b = true ∨
  shares_tls_san a b = true ∨ shares_reverse_dns a b = true.
Proof using Type.
  rewrite pair_weight_of. generalize (shares_mac hints a b), (shares_sysname a b),
    (shares_value find_ssh_host_key a b), (shares_value find_tls_subject a b),
    (shares_tls_san a b), (shares_reverse_dns a b).
  intros [] [] [] [] [] []; try tauto. by rewrite weight_of_none.
Qed.
End weights.

(** ** Buckets *)

Section buckets.
Context `{U : UnicodeCase}.
Implicit Types (hints : IdentityHints) (a b r : DeviceRecord) (k : BucketKey).

Lemma elem_of_insert_opt mk norm v keys k :
  k ∈ insert_opt mk norm v keys ↔ (∃ x, v = Some x ∧ x ≠ [] ∧ k = mk (norm x)) ∨ k ∈ keys.
Proof using Type.
  unfold insert_opt, insert_unless_empty. destruct v as [[|c v]|]; simpl.
  - naive_solver.
  - rewrite elem_of_union, elem_of_singleton. naive_solver.
  - naive_solver.
Qed.

Lemma elem_of_insert_all mk norm l keys k :
  k ∈ foldl (insert_unless_empty mk norm) keys l ↔
  (∃ x, x ∈ l ∧ x ≠ [] ∧ k = mk (norm x)) ∨ k ∈ keys.
Proof using Type.
  revert keys. induction l as [|y l IH]; intros keys; cbn [foldl].
  { split; [by right|]. intros [(x & Hx & _)|?]; [by apply elem_of_nil in Hx|done]. }
  rewrite IH. setoid_rewrite elem_of_cons. unfold insert_unless_empty.
  destruct y as [|c y]; simpl; [naive_solver|].
  rewrite elem_of_union, elem_of_singleton. naive_solver.
Qed.

Lemma elem_of_bucket_keys hints r k :
  k ∈ bucket_keys hints r ↔
  (∃ m, dr_mac r = Some m ∧ is_virtual_mac m = false ∧ hint_says_virtual hints m = false ∧
        k = BMac (normalize_mac m)) ∨
  (∃ v, find_sysname (dr_signals r) = Some v ∧ v ≠ [] ∧ k = BSysName (normalize_sys_name v)) ∨
  (∃ v, find_ssh_host_key (dr_signals r) = Some v ∧ v ≠ [] ∧ k = BSshHostKey v) ∨
  (∃ v, find_tls_subject (dr_signals r) = Some v ∧ v ≠ [] ∧ k = BTlsSubject v) ∨
  (∃ v, v ∈ collect_tls_san_names (dr_signals r) ∧ v ≠ [] ∧ k = BTlsSanName v) ∨
  (∃ v, v ∈ collect_reverse_dns_names (dr_signals r) ∧ v ≠ [] ∧
        k = BReverseDnsName (normalize_sys_name v)).
Proof using Type.
  unfold bucket_keys. rewrite !elem_of_insert_all, !elem_of_insert_opt. unfold id.
  assert (k ∈ match dr_mac r with
              | Some mac => if negb (is_virtual_mac mac) && negb (hint_says_virtual hints mac)
                            then {[BMac (normalize_mac mac)]} else ∅
              | None => (∅ : gset BucketKey) end ↔
    ∃ m, dr_mac r = Some m ∧ is_virtual_mac m = false ∧ hint_says_virtual hints m = false ∧
        k = BMac (normalize_mac m)) as ->.
  { destruct (dr_mac r) as [m|]; [|by split; [intros []%elem_of_empty|intros (? & ? & _)]].
    destruct (is_virtual_mac m) eqn:E1, (hint_says_virtual hints m) eqn:E2; simpl;
      rewrite ?elem_of_singleton, ?elem_of_empty;
      (split; [by intros; exists m|intros (m' & ? & ? & ? & ?); congruence]). }
  tauto.
Qed.

(** Two records with a bucket in common. *)
Definition share_key hints a b : Prop := ∃ k, k ∈ bucket_keys hints a ∧ k ∈ bucket_keys hints b.

Lemma eq_ignore_ascii_case_nonempty x y :
  x ≠ [] → eq_ignore_ascii_case x y = true →
  y ≠ [] ∧ normalize_sys_name x = normalize_sys_name y.
Proof using Type.
  unfold eq_ignore_ascii_case. intros Hx E%bool_decide_eq_true_1. split; [|done].
  intros ->. by destruct x.
Qed.

Lemma shares_value_key find mk hints a b :
  (∀ r v, find (dr_signals r) = Some v → v ≠ [] → mk v ∈ bucket_keys hints r) →
  shares_value find a b = true → share_key hints a b.
Proof using Type.
  unfold shares_value. intros Hk.
  destruct (find (dr_signals a)) as [x|] eqn:Ea, (find (dr_signals b)) as [y|] eqn:Eb; try done.
  intros H. break_bool. subst y. exists (mk x).
  assert (x ≠ []) by (by intros ->). split; by apply Hk.
Qed.

Lemma shares_sysname_key hints a b : shares_sysname a b = true → share_key hints a b.
Proof using Type.
  unfold shares_sysname.
  destruct (find_sysname (dr_signals a)) as [x|] eqn:Ea,
    (find_sysname (dr_signals b)) as [y|] eqn:Eb; try done.
  intros [H1 H2]%andb_true_iff. assert (x ≠ []) as Hx by (by intros ->).
  destruct (eq_ignore_ascii_case_nonempty x y Hx H2) as [Hy E].
  exists (BSysName (normalize_sys_name x)). rewrite !elem_of_bucket_keys.
  split; right; left; [by exists x|exists y; by rewrite E].
Qed.

Lemma shares_tls_san_key hints a b : shares_tls_san a b = true → share_key hints a b.
Proof using Type.
  unfold shares_tls_san, any_tls_san_overlap. rewrite existsb_exists. intros (x & Hx & H).
  apply list_elem_of_In in Hx. break_bool. assert (x ≠ []) by (by intros ->).
  exists (BTlsSanName x). rewrite !elem_of_bucket_keys. naive_solver.
Qed.

Lemma shares_reverse_dns_key hints a b : shares_reverse_dns a b = true → share_key hints a b.
Proof using Type.
  unfold shares_reverse_dns, any_reverse_dns_overlap. rewrite existsb_exists. intros (x & Hx & H).
  apply andb_true_iff in H as [H1 H2]. apply existsb_exists in H2 as (y & Hy & H2).
  apply list_elem_of_In in Hx, Hy. assert (x ≠ []) as Hne by (by intros ->).
  destruct (eq_ignore_ascii_case_nonempty x y Hne H2) as [Hy' E].
  exists (BReverseDnsName (normalize_sys_name x)). rewrite !elem_of_bucket_keys.
  split; right; right; right; right; right; [by exists x|exists y; by rewrite E].
Qed.

Lemma shares_mac_key `{!UnicodeCaseLaws U} hints a b :
  shares_mac hints a b = true → share_key hints a b.
Proof.
  unfold shares_mac. destruct (dr_mac a) as [x|] eqn:Ea, (dr_mac b) as [y|] eqn:Eb; try done.
  intros [[H1 H2]%andb_true_iff H3]%andb_true_iff. apply negb_true_iff in H2, H3.
  exists (BMac (normalize_mac x)). rewrite !elem_of_bucket_keys. split; left; [by exists x|].
  exists y. rewrite <-(mac_equal_virtual x y H1), <-(mac_equal_hint hints x y H1).
  unfold mac_equal in H1. apply bool_decide_eq_true_1 in H1. by rewrite H1.
Qed.

(** Records that are not bucketed together have no weight between them. *)
Lemma pair_weight_share_key `{!UnicodeCaseLaws U} hints a b :
  f64_lt f64_zero (pair_weight hints a b) = true → share_key hints a b.
Proof.
  intros [H|[H|[H|[H|[H|H]]]]]%pair_weight_shares.
  - by apply shares_mac_key.
  - by apply shares_sysname_key.
  - apply (shares_value_key find_ssh_host_key BSshHostKey hints a b); [|done].
    intros r v ? ?. rewrite elem_of_bucket_keys. naive_solver.
  - apply (shares_value_key find_tls_subject BTlsSubject hints a b); [|done].
    intros r v ? ?. rewrite elem_of_bucket_keys. naive_solver.
  - by apply shares_tls_san_key.
  - by apply shares_reverse_dns_key.
Qed.
End buckets.
