(* ===== verification/CorrelateFacts.v ===== *)
(** * Candidate pairs of the identity fuser

    The buckets list the indices of the records that hold their key; the
    candidate pairs are the pairs inside a bucket of at most the capped size.
    When no bucket is over the cap, weighing the candidates finds every pair of
    positive weight, whatever order the hash maps yield. *)

From S2P Require Import Prelude Net F64 Model FuserCore UnionFind Identity IdentityFacts.

(** ** Pairs of a list *)

Lemma elem_of_ordered_pairs (l : list nat) i j :
  StronglySorted lt l → (i, j) ∈ ordered_pairs l ↔ i ∈ l ∧ j ∈ l ∧ (i < j)%nat.
Proof.
  induction 1 as [|x l Hl IH Hx]; cbn [ordered_pairs].
  { rewrite !elem_of_nil. tauto. }
  rewrite elem_of_app, IH, list_elem_of_fmap, !elem_of_cons. rewrite Forall_forall in Hx.
  split.
  - intros [(y & [= -> ->] & Hy)|(? & ? & ?)]; [|tauto].
    split_and!; [by left|by right|by apply Hx].
  - intros ([->|Hi] & [->|Hj] & Hlt); [lia|left; by exists j| |by right].
    specialize (Hx i Hi). lia.
Qed.

Lemma NoDup_ordered_pairs (l : list nat) : StronglySorted lt l → NoDup (ordered_pairs l).
Proof.
  induction 1 as [|x l Hl IH Hx]; cbn [ordered_pairs]; [apply NoDup_nil_2|].
  assert (NoDup l) as Hnd.
  { clear IH Hx. induction Hl as [|y l Hl IH Hy]; [apply NoDup_nil_2|]. constructor; [|done].
    rewrite Forall_forall in Hy. intros Hin. specialize (Hy y Hin). lia. }
  apply NoDup_app. split_and!; [|intros [i j]|done].
  - apply NoDup_fmap_2; [|done]. by intros ? ? [= ->].
  - rewrite elem_of_ordered_pairs by done. rewrite list_elem_of_fmap.
    intros (y & [= -> ->] & Hy) (Hi & _). rewrite Forall_forall in Hx. specialize (Hx _ Hi). lia.
Qed.

Lemma StronglySorted_seq s n : StronglySorted lt (seq s n).
Proof.
  revert s. induction n as [|n IH]; intros s; simpl; [constructor|].
  constructor; [apply IH|]. apply Forall_forall. intros x Hx%elem_of_seq. lia.
Qed.

Lemma NoDup_omap {A B} (f : A → option B) (l : list A) :
  (∀ x y b, f x = Some b → f y = Some b → x = y) → NoDup l → NoDup (omap f l).
Proof.
  intros Hinj. induction 1 as [|x l Hx Hl IH]; simpl; [apply NoDup_nil_2|].
  destruct (f x) as [b|] eqn:E; [|done]. constructor; [|done].
  rewrite list_elem_of_omap. intros (y & Hy & E'). by rewrite (Hinj x y b E E') in Hx.
Qed.

Section candidates.
Context `{U : UnicodeCase} `{HO : HashOrder} {HL : HashOrderLaws HO}.
Implicit Types (hints : IdentityHints) (records : list DeviceRecord) (k : BucketKey).

(** ** Buckets *)

(** The indices, counted from [idx], of the records that hold [k]. *)
Fixpoint indices_of hints k (idx : nat) records : list nat :=
  match records with
  | [] => []
  | r :: rest =>
      if decide (k ∈ bucket_keys hints r) then idx :: indices_of hints k (S idx) rest
      else indices_of hints k (S idx) rest
  end.

Lemma elem_of_indices_of hints k idx records i :
  i ∈ indices_of hints k idx records ↔
  ∃ j r, i = (idx + j)%nat ∧ records !! j = Some r ∧ k ∈ bucket_keys hints r.
Proof using Type.
  revert idx. induction records as [|r records IH]; intros idx; simpl.
  { rewrite elem_of_nil. split; [done|]. by intros (j & r & _ & ? & _). }
  assert (i ∈ indices_of hints k (S idx) records ↔
    ∃ j r', i = (idx + S j)%nat ∧ records !! j = Some r' ∧ k ∈ bucket_keys hints r') as IH'.
  { rewrite IH. by setoid_rewrite Nat.add_succ_r. }
  case_decide as Hk; [rewrite elem_of_cons|]; rewrite IH'; split.
  - intros [->|(j & r' & -> & ? & ?)]; [exists 0%nat, r; by rewrite Nat.add_0_r|].
    by exists (S j), r'.
  - intros ([|j] & r' & -> & Hj & ?); [left; lia|right; by exists j, r'].
  - intros (j & r' & -> & ? & ?). by exists (S j), r'.
  - intros ([|j] & r' & -> & Hj & ?); [by simplify_eq/=|by exists j, r'].
Qed.

Lemma indices_of_sorted hints k idx records : StronglySorted lt (indices_of hints k idx records).
Proof using Type.
  revert idx. induction records as [|r records IH]; intros idx; simpl; [constructor|].
  case_decide; [|done]. constructor; [done|]. apply Forall_forall.
  intros i (j & ? & -> & _)%elem_of_indices_of. lia.
Qed.

Lemma indices_of_length hints k idx records :
  (length (indices_of hints k idx records) ≤ length records)%nat.
Proof using Type.
  revert idx. induction records as [|r records IH]; intros idx; simpl; [done|].
  specialize (IH (S idx)). case_decide; simpl; lia.
Qed.

Lemma bucket_push_all idx (ks : list BucketKey) buckets k :
  NoDup ks →
  foldl (bucket_push idx) buckets ks !! k =
  if decide (k ∈ ks) then Some (default [] (buckets !! k) ++ [idx]) else buckets !! k.
Proof using Type.
  intros Hnd. revert buckets. induction Hnd as [|y ks Hy Hks IH]; intros buckets; cbn [foldl].
  { rewrite decide_False; [done|]. apply not_elem_of_nil. }
  rewrite IH. unfold bucket_push. destruct (decide (k = y)) as [->|Hne].
  - rewrite decide_False by done. rewrite lookup_insert_eq.
    rewrite decide_True by by left. done.
  - rewrite lookup_insert_ne by done.
    destruct (decide (k ∈ ks)) as [Hk|Hk]; [by rewrite decide_True by (by right)|].
    rewrite decide_False; [done|]. by intros [?|?]%elem_of_cons.
Qed.

Lemma fill_buckets_lookup hints idx records buckets k :
  fill_buckets hints idx records buckets !! k =
  if decide (indices_of hints k idx records = []) then buckets !! k
  else Some (default [] (buckets !! k) ++ indices_of hints k idx records).
Proof using HL.
  revert idx buckets. induction records as [|r records IH]; intros idx buckets; cbn [fill_buckets indices_of].
  { by rewrite decide_True. }
  rewrite IH, bucket_push_all.
  2: { rewrite hash_order_perm. apply NoDup_elements. }
  assert (k ∈ hash_order (0%nat, idx) (elements (bucket_keys hints r)) ↔ k ∈ bucket_keys hints r)
    as Hin by by rewrite hash_order_perm, elem_of_elements.
  destruct (decide (k ∈ bucket_keys hints r)) as [Hk|Hk].
  - rewrite !(decide_True (P := k ∈ hash_order _ _)) by by apply Hin. cbn [default from_option].
    rewrite (decide_False (P := _ :: _ = [])) by done.
    case_decide as E; [by rewrite E|]. unfold default, id. by rewrite <-(assoc_L (++)).
  - by rewrite !(decide_False (P := k ∈ hash_order _ _)) by by rewrite Hin.
Qed.

Lemma buckets_lookup hints records k ixs :
  fill_buckets hints 0 records ∅ !! k = Some ixs ↔
  ixs = indices_of hints k 0 records ∧ ixs ≠ [].
Proof using HL.
  rewrite fill_buckets_lookup, lookup_empty. simpl. case_decide; naive_solver.
Qed.

(** ** Candidates *)

Lemma elem_of_add_candidates cap cs ixs p :
  p ∈ add_candidates cap cs ixs ↔
  p ∈ cs ∨ Z.of_nat (length ixs) ≤ cap ∧ p ∈ ordered_pairs ixs.
Proof using Type.
  unfold add_candidates. destruct (Z.ltb_spec cap (Z.of_nat (length ixs))); [naive_solver lia|].
  assert (∀ l, p ∈ foldl (λ acc q, {[q]} ∪ acc) cs l ↔ p ∈ cs ∨ p ∈ l) as ->.
  { intros l. revert cs. induction l as [|q l IH]; intros cs; simpl.
    - rewrite elem_of_nil. tauto.
    - rewrite IH, elem_of_union, elem_of_singleton, elem_of_cons. tauto. }
  naive_solver.
Qed.

Lemma elem_of_candidates cap (bs : list (list nat)) cs p :
  p ∈ foldl (add_candidates cap) cs bs ↔
  p ∈ cs ∨ ∃ ixs, ixs ∈ bs ∧ Z.of_nat (length ixs) ≤ cap ∧ p ∈ ordered_pairs ixs.
Proof using Type.
  revert cs. induction bs as [|b bs IH]; intros cs; cbn [foldl].
  { split; [by left|]. intros [?|(ixs & Hin & _)]; [done|]. by apply elem_of_nil in Hin. }
  rewrite IH, elem_of_add_candidates. setoid_rewrite elem_of_cons. naive_solver.
Qed.

(** The pairs of records with a key in common whose bucket is within the cap. *)
Definition candidate hints records (i j : nat) : Prop :=
  (i < j)%nat ∧ ∃ k a b, records !! i = Some a ∧ records !! j = Some b ∧
    k ∈ bucket_keys hints a ∧ k ∈ bucket_keys hints b ∧
    Z.of_nat (length (indices_of hints k 0 records)) ≤ ih_max_correlation_bucket hints.

Lemma elem_of_compute_pair_weights hints records i j w :
  (i, j, w) ∈ compute_pair_weights hints records ↔
  candidate hints records i j ∧ weigh hints records (i, j) = Some (i, j, w).
Proof using HL.
  unfold compute_pair_weights. rewrite list_elem_of_omap. setoid_rewrite hash_order_perm.
  setoid_rewrite elem_of_elements. setoid_rewrite elem_of_candidates.
  setoid_rewrite hash_order_perm.
  assert (∀ p q, weigh hints records p = Some q → p = q.1) as Hp.
  { intros p q. unfold weigh. destruct (records !! p.1), (records !! p.2); simpl; try done.
    destruct (f64_lt _ _); [|done]. by intros [= <-]. }
  assert ((∃ ixs, ixs ∈ (map_to_list (fill_buckets hints 0 records ∅)).*2 ∧
      Z.of_nat (length ixs) ≤ ih_max_correlation_bucket hints ∧ (i, j) ∈ ordered_pairs ixs)
    ↔ candidate hints records i j) as Hc.
  { unfold candidate. split.
    - intros (ixs & Hin & Hcap & Hp'). apply list_elem_of_fmap in Hin as ([k ixs'] & -> & Hin).
      apply elem_of_map_to_list, buckets_lookup in Hin as [-> _]. simpl in *.
      apply elem_of_ordered_pairs in Hp' as (Hi & Hj & Hlt); [|apply indices_of_sorted].
      apply elem_of_indices_of in Hi as (? & a & -> & ? & ?), Hj as (? & b & -> & ? & ?).
      simpl in *. split; [done|]. exists k, a, b. done.
    - intros (Hlt & k & a & b & Ha & Hb & Hka & Hkb & Hcap).
      assert (i ∈ indices_of hints k 0 records) by (apply elem_of_indices_of; by exists i, a).
      assert (j ∈ indices_of hints k 0 records) by (apply elem_of_indices_of; by exists j, b).
      exists (indices_of hints k 0 records). split_and!; [|done|].
      + apply list_elem_of_fmap. exists (k, indices_of hints k 0 records). split; [done|].
        apply elem_of_map_to_list, buckets_lookup. split; [done|]. intros E.
        rewrite E in *. by eapply elem_of_nil.
      + apply elem_of_ordered_pairs; [apply indices_of_sorted|done]. }
  split.
  - intros (p & [Hin|Hin] & Hw); [by apply elem_of_empty in Hin|].
    pose proof (Hp _ _ Hw) as ->. simpl in *. by apply Hc in Hin.
  - intros [Hin%Hc Hw]. exists (i, j). split; [by right|done].
Qed.

Lemma weigh_inj hints records p p' q :
  weigh hints records p = Some q → weigh hints records p' = Some q → p = p'.
Proof using Type.
  assert (∀ p, weigh hints records p = Some q → p = q.1) as H.
  { clear. intros p. unfold weigh. destruct (records !! p.1), (records !! p.2); simpl; try done.
    destruct (f64_lt _ _); [|done]. by intros [= <-]. }
  intros H1%H H2%H. congruence.
Qed.

Lemma NoDup_compute_pair_weights hints records : NoDup (compute_pair_weights hints records).
Proof using HL.
  apply NoDup_omap; [intros ???; apply weigh_inj|]. rewrite hash_order_perm. apply NoDup_elements.
Qed.

(** No bucket is over the cap. *)
Definition within_cap hints records : Prop :=
  ∀ k, Z.of_nat (length (indices_of hints k 0 records)) ≤ ih_max_correlation_bucket hints.

Lemma compute_pair_weights_perm {UL : UnicodeCaseLaws U} hints records :
  within_cap hints records →
  compute_pair_weights hints records ≡ₚ compute_pair_weights_bruteforce hints records.
Proof using HL.
  intros Hcap. apply NoDup_Permutation.
  - apply NoDup_compute_pair_weights.
  - apply NoDup_omap; [intros ???; apply weigh_inj|].
    apply NoDup_ordered_pairs, StronglySorted_seq.
  - intros [[i j] w]. rewrite elem_of_compute_pair_weights.
    unfold compute_pair_weights_bruteforce. rewrite list_elem_of_omap. split.
    + intros [(Hlt & k & a & b & Ha & Hb & _) Hw]. exists (i, j). split; [|done].
      apply elem_of_ordered_pairs; [apply StronglySorted_seq|]. rewrite !elem_of_seq.
      apply lookup_lt_Some in Ha, Hb. lia.
    + intros (p & Hp & Hw).
      assert (p = (i, j)) as ->.
      { revert Hw. unfold weigh. destruct (records !! p.1), (records !! p.2); simpl; try done.
        destruct (f64_lt _ _); [|done]. by intros [= <-]. }
      split; [|done]. apply elem_of_ordered_pairs in Hp as (_ & _ & Hlt); [|apply StronglySorted_seq].
      split; [done|]. unfold weigh in Hw. simpl in Hw.
      destruct (records !! i) as [a|] eqn:Ha, (records !! j) as [b|] eqn:Hb; simpl in Hw; try done.
      destruct (f64_lt f64_zero (pair_weight hints a b)) eqn:Hpos; [|done].
      apply pair_weight_share_key in Hpos as (k & Hka & Hkb).
      by exists k, a, b.
Qed.
End candidates.

(** * Components, groups and peers of the identity fuser

    The groups of [merge_components] are the classes of equal roots in order of
    first appearance, the emitting loop treats each group on its own, and the
    best medium peer does not depend on the order of the peers. *)

(** ** Grouping by root *)

Section grouping.
Context (roots : list nat).
Implicit Types (i j f g r : nat).

(** The indices below [i] whose root has not been seen before them. *)
Definition firsts i : list nat :=
  filter (λ f, Forall (λ y, roots !! y ≠ roots !! f) (seq 0 f)) (seq 0 i).

(** The indices below [i] with the root of [f]. *)
Definition class_of i f : list nat := filter (λ j, roots !! j = roots !! f) (seq 0 i).

Definition classes i : list (list nat) := class_of i <$> firsts i.

Lemma elem_of_firsts i f :
  f ∈ firsts i ↔ (f < i)%nat ∧ ∀ y, (y < f)%nat → roots !! y ≠ roots !! f.
Proof using Type.
  unfold firsts. rewrite list_elem_of_filter, elem_of_seq, Forall_forall.
  setoid_rewrite elem_of_seq. split; intros [H1 H2]; split; try lia.
  - intros y Hy. apply H1. lia.
  - intros y Hy. apply H2. lia.
Qed.

Lemma elem_of_class_of i f j : j ∈ class_of i f ↔ (j < i)%nat ∧ roots !! j = roots !! f.
Proof using Type. unfold class_of. rewrite list_elem_of_filter, elem_of_seq. naive_solver lia. Qed.

(** Every index has a first one with its root. *)
Lemma firsts_cover i j : (j < i)%nat → ∃ f, f ∈ firsts i ∧ roots !! f = roots !! j ∧ (f ≤ j)%nat.
Proof using Type.
  revert i. induction j as [j IH] using lt_wf_ind. intros i Hj.
  destruct (decide (Exists (λ y, roots !! y = roots !! j) (seq 0 j))) as [H|H].
  - apply Exists_exists in H as (y & Hy%elem_of_seq & E).
    destruct (IH y ltac:(lia) i ltac:(lia)) as (f & Hf & E' & ?). exists f.
    split_and!; [done|congruence|lia].
  - exists j. split_and!; [|done|done]. apply elem_of_firsts. split; [done|].
    intros y Hy E. apply H, Exists_exists. exists y. split; [apply elem_of_seq; lia|done].
Qed.

Lemma firsts_inj i f f' : f ∈ firsts i → f' ∈ firsts i → roots !! f = roots !! f' → f = f'.
Proof using Type.
  intros [_ H]%elem_of_firsts [_ H']%elem_of_firsts E.
  destruct (Nat.lt_trichotomy f f') as [Hlt|[->|Hlt]]; [|done|].
  - by destruct (H' f Hlt).
  - by destruct (H f' Hlt).
Qed.

Lemma NoDup_firsts i : NoDup (firsts i).
Proof using Type. apply NoDup_filter, NoDup_seq. Qed.

Lemma firsts_S i :
  firsts (S i) = firsts i ++ (if decide (Forall (λ y, roots !! y ≠ roots !! i) (seq 0 i)) then [i] else []).
Proof using Type. unfold firsts. rewrite seq_S, filter_app, filter_cons. simpl. by case_decide. Qed.

Lemma class_of_S i f :
  class_of (S i) f = class_of i f ++ (if decide (roots !! i = roots !! f) then [i] else []).
Proof using Type. unfold class_of. rewrite seq_S, filter_app, filter_cons. simpl. by case_decide. Qed.

#[local] Arguments firsts : simpl never.
#[local] Arguments class_of : simpl never.
#[local] Arguments classes : simpl never.

(** The map from roots to the position of their group. *)
Definition indexes (m : gmap nat nat) i : Prop :=
  ∀ r g, m !! r = Some g ↔ ∃ f, firsts i !! g = Some f ∧ roots !! f = Some r.

Lemma push_at_known i r g m :
  roots !! i = Some r → indexes m i → m !! r = Some g →
  push_at (classes i) g i = Some (classes (S i)) ∧ indexes m (S i).
Proof using Type.
  intros Hi Hm Hr. pose proof Hr as (f & Hf & Ef)%Hm.
  assert (f ∈ firsts i) as Hfin by by eapply list_elem_of_lookup_2.
  assert (firsts (S i) = firsts i) as Efirsts.
  { rewrite firsts_S. rewrite decide_False; [by rewrite app_nil_r|]. rewrite Forall_forall.
    intros H. apply elem_of_firsts in Hfin as [Hlt _]. apply (H f); [apply elem_of_seq; lia|].
    congruence. }
  split; [|unfold indexes; by rewrite Efirsts].
  unfold push_at, classes. rewrite list_lookup_fmap, Hf. cbn [mbind option_bind fmap option_fmap option_map]. f_equal.
  rewrite Efirsts. apply list_eq. intros k. rewrite list_lookup_fmap.
  pose proof (lookup_lt_Some _ _ _ Hf) as Hlt.
  destruct (decide (k = g)) as [->|Hne].
  - rewrite list_lookup_insert_eq by (by rewrite length_fmap). rewrite Hf. simpl.
    rewrite class_of_S. by rewrite decide_True by congruence.
  - rewrite list_lookup_insert_ne by done. rewrite list_lookup_fmap.
    destruct (firsts i !! k) as [f'|] eqn:Hk; [|done]. simpl. f_equal.
    rewrite class_of_S. rewrite decide_False; [by rewrite app_nil_r|].
    intros E. apply Hne. eapply NoDup_lookup; [apply NoDup_firsts|done|].
    rewrite Hf. f_equal. eapply firsts_inj; [done| |congruence].
    by eapply list_elem_of_lookup_2.
Qed.

Lemma push_at_new i r m :
  roots !! i = Some r → indexes m i → m !! r = None →
  push_at (classes i ++ [[]]) (length (classes i)) i = Some (classes (S i)) ∧
  indexes (<[r := length (classes i)]> m) (S i).
Proof using Type.
  intros Hi Hm Hr.
  assert (∀ f, f ∈ firsts i → roots !! f ≠ Some r) as Hnone.
  { intros f [g Hg]%list_elem_of_lookup E.
    assert (m !! r = Some g) by (apply Hm; by exists f). congruence. }
  assert (firsts (S i) = firsts i ++ [i]) as Efirsts.
  { rewrite firsts_S. rewrite decide_True; [done|]. apply Forall_forall.
    intros y Hy%elem_of_seq E. destruct (firsts_cover i y ltac:(lia)) as (f & Hf & E' & _).
    apply (Hnone f Hf). congruence. }
  assert (length (classes i) = length (firsts i)) as Hlen by (unfold classes; by rewrite length_fmap).
  split.
  - unfold push_at. rewrite lookup_app_r, Nat.sub_diag by done.
    cbn [mbind option_bind lookup list_lookup]. f_equal.
    rewrite insert_app_r_alt, Nat.sub_diag by done. simpl.
    unfold classes. rewrite Efirsts, fmap_app. simpl. f_equal.
    + apply list_fmap_ext. intros k f Hk. rewrite class_of_S.
      rewrite decide_False; [by rewrite app_nil_r|].
      intros E. apply (Hnone f); [by eapply list_elem_of_lookup_2|]. congruence.
    + f_equal. rewrite class_of_S, decide_True by done.
      assert (class_of i i = []) as ->; [|done]. apply elem_of_nil_inv. intros j [Hj E]%elem_of_class_of.
      destruct (firsts_cover i j Hj) as (f & Hf & E' & _). apply (Hnone f Hf). congruence.
  - intros r' g. rewrite Efirsts, Hlen. destruct (decide (r' = r)) as [->|Hne].
    + rewrite lookup_insert_eq. split.
      * intros [= <-]. exists i. split; [|done]. by rewrite lookup_app_r, Nat.sub_diag.
      * intros (f & Hf & E). apply lookup_app_Some in Hf as [Hf|[Hge Hf]].
        { destruct (Hnone f); [by eapply list_elem_of_lookup_2|done]. }
        apply list_lookup_singleton_Some in Hf as [? _]. f_equal. lia.
    + rewrite lookup_insert_ne by done. rewrite (Hm r' g). split.
      * intros (f & Hf & E). exists f. split; [|done]. by apply lookup_app_l_Some.
      * intros (f & Hf & E). exists f. split; [|done].
        apply lookup_app_Some in Hf as [Hf|[Hge Hf]]; [done|].
        apply list_lookup_singleton_Some in Hf as [_ <-]. congruence.
Qed.

Lemma group_by_root_from i m :
  (i ≤ length roots)%nat → indexes m i →
  group_by_root i (drop i roots) (classes i) m = Some (classes (length roots)).
Proof using Type.
  remember (length roots - i)%nat as d eqn:Hd. revert i m Hd.
  induction d as [|d IH]; intros i m Hd Hi Hm.
  { rewrite drop_ge by lia. simpl. by replace (length roots) with i by lia. }
  destruct (lookup_lt_is_Some_2 roots i) as [r Hr]; [lia|].
  rewrite (drop_S _ _ _ Hr). cbn [group_by_root].
  destruct (m !! r) as [g|] eqn:Em.
  - destruct (push_at_known i r g m Hr Hm Em) as [-> Hm']. simpl. apply IH; [lia|lia|done].
  - destruct (push_at_new i r m Hr Hm Em) as [-> Hm']. simpl. apply IH; [lia|lia|done].
Qed.

(** The grouping loop computes the classes. *)
Lemma group_by_root_classes :
  group_by_root 0 roots [] ∅ = Some (classes (length roots)).
Proof using Type.
  apply (group_by_root_from 0 ∅); [lia|]. intros r g. rewrite lookup_empty.
  split; [done|]. by intros (f & ? & _).
Qed.
End grouping.

(** Classes depend only on which roots are equal. *)
Lemma classes_ext roots roots' n :
  (∀ x y, (x < n)%nat → (y < n)%nat →
     roots !! x = roots !! y ↔ roots' !! x = roots' !! y) →
  classes roots n = classes roots' n.
Proof.
  intros H. assert (firsts roots n = firsts roots' n) as E.
  { unfold firsts. apply filter_ext_elem. intros f Hf%elem_of_seq. rewrite !Forall_forall.
    setoid_rewrite elem_of_seq. split; intros H' y Hy; specialize (H' y Hy);
      rewrite (H y f) in * by lia; [done|]. intros E. by apply H', (H y f); [lia..|]. }
  unfold classes. rewrite E. apply list_fmap_ext. intros k f Hk.
  unfold class_of. apply filter_ext_elem. intros j Hj%elem_of_seq. apply H; [lia|].
  apply list_elem_of_lookup_2, elem_of_firsts in Hk as [? _]. done.
Qed.

Lemma elem_of_mjoin_classes roots n fs j :
  j ∈ mjoin (class_of roots n <$> fs) ↔ (j < n)%nat ∧ ∃ f, f ∈ fs ∧ roots !! j = roots !! f.
Proof.
  rewrite list_elem_of_join. setoid_rewrite list_elem_of_fmap. split.
  - intros (l & Hj & f & -> & Hf). apply elem_of_class_of in Hj as [? ?]. eauto.
  - intros [? (f & Hf & E)]. exists (class_of roots n f). rewrite elem_of_class_of. eauto.
Qed.

Lemma NoDup_mjoin_classes roots n fs :
  NoDup fs → fs ⊆ firsts roots n → NoDup (mjoin (class_of roots n <$> fs)).
Proof.
  induction 1 as [|f fs Hf Hnd IH]; intros Hsub; [apply NoDup_nil_2|].
  rewrite fmap_cons, mjoin_cons. apply NoDup_app. split_and!.
  - apply NoDup_filter, NoDup_seq.
  - intros j [_ E]%elem_of_class_of [_ (f' & Hf' & E')]%elem_of_mjoin_classes.
    apply Hf. rewrite (firsts_inj roots n f f'); [done|..|congruence]; apply Hsub; set_solver.
  - apply IH. set_solver.
Qed.

(** Classes partition the indices. *)
Lemma classes_partition roots n : mjoin (classes roots n) ≡ₚ seq 0 n.
Proof.
  apply NoDup_Permutation; [|apply NoDup_seq|].
  - by apply NoDup_mjoin_classes; [apply NoDup_firsts|].
  - intros j. unfold classes. rewrite elem_of_mjoin_classes, elem_of_seq. split; [lia|].
    intros Hj. split; [lia|]. destruct (firsts_cover roots n j ltac:(lia)) as (f & ? & ? & _).
    eauto.
Qed.

Lemma StronglySorted_filter_lt (P : nat → Prop) `{!∀ x, Decision (P x)} l :
  StronglySorted lt l → StronglySorted lt (filter P l).
Proof.
  induction 1 as [|x l Hl IH Hx]; [constructor|]. rewrite filter_cons.
  case_decide; [|done]. constructor; [done|]. apply Forall_forall.
  intros y [_ Hy]%list_elem_of_filter. by apply (proj1 (Forall_forall _ _) Hx).
Qed.

Lemma classes_sorted roots n g : g ∈ classes roots n → StronglySorted lt g.
Proof.
  unfold classes. intros (f & -> & _)%list_elem_of_fmap. unfold class_of.
  apply StronglySorted_filter_lt, StronglySorted_seq.
Qed.

Lemma classes_nonempty roots n g : g ∈ classes roots n → g ≠ [].
Proof.
  unfold classes. intros (f & -> & Hf)%list_elem_of_fmap E.
  assert (f ∈ class_of roots n f) as Hin.
  { apply elem_of_class_of. apply elem_of_firsts in Hf as [? _]. done. }
  rewrite E in Hin. by apply elem_of_nil in Hin.
Qed.

Lemma classes_same roots n g i j :
  g ∈ classes roots n → i ∈ g → (j < n)%nat → j ∈ g ↔ roots !! i = roots !! j.
Proof.
  unfold classes. intros (f & -> & Hf)%list_elem_of_fmap [_ Ei]%elem_of_class_of Hj.
  rewrite elem_of_class_of. split; [intros [_ ?]; congruence|]. intros. split; [done|congruence].
Qed.

(** ** The best medium peer *)

Definition key_eq (a b : Z * Z * Z) : Prop := a.1.1 = b.1.1 ∧ a.1.2 = b.1.2 ∧ a.2 = b.2.

Lemma key_eq_eq a b : key_eq a b ↔ a = b.
Proof. destruct a as [[??]?], b as [[??]?]. unfold key_eq. naive_solver. Qed.

(** Strictly preferred: more confident, then of more weight, then earlier. *)
Definition peer_gt (c d : nat * f64 * f64) : Prop :=
  key_lt (f64_key d.1.2) (f64_key c.1.2) ∨
  key_eq (f64_key c.1.2) (f64_key d.1.2) ∧
  (key_lt (f64_key d.2) (f64_key c.2) ∨
   key_eq (f64_key c.2) (f64_key d.2) ∧ (c.1.1 < d.1.1)%nat).

Definition peer_ok (c : nat * f64 * f64) : Prop := is_nan c.1.2 = false ∧ is_nan c.2 = false.

Lemma key_cases a b : key_lt a b ∨ key_eq a b ∨ key_lt b a.
Proof. unfold key_lt, key_eq. lia. Qed.

Lemma key_lt_trans a b c : key_lt a b → key_lt b c → key_lt a c.
Proof. unfold key_lt. lia. Qed.

Lemma key_lt_irrefl a : ¬ key_lt a a.
Proof. unfold key_lt. lia. Qed.

Lemma peer_gt_total c d : c.1.1 ≠ d.1.1 → peer_gt c d ∨ peer_gt d c.
Proof.
  intros Hne. unfold peer_gt. rewrite !key_eq_eq.
  destruct (key_cases (f64_key c.1.2) (f64_key d.1.2)) as [?|[E%key_eq_eq|?]]; [tauto| |tauto].
  destruct (key_cases (f64_key c.2) (f64_key d.2)) as [?|[E'%key_eq_eq|?]].
  - right. right. by split; [|left].
  - destruct (Nat.lt_trichotomy c.1.1 d.1.1) as [?|[?|?]]; [left|done|right]; right; auto.
  - left. right. by split; [|left].
Qed.

Lemma peer_gt_irrefl c : ¬ peer_gt c c.
Proof.
  unfold peer_gt. intros [H|[_ [H|[_ H]]]]; [by apply key_lt_irrefl in H..|lia].
Qed.

(** The preference is a weak order. *)
Lemma peer_gt_split c d e : peer_gt c e → peer_gt c d ∨ peer_gt d e.
Proof.
  unfold peer_gt. rewrite !key_eq_eq. intros H.
  destruct (key_cases (f64_key c.1.2) (f64_key d.1.2)) as [L|[E%key_eq_eq|L]]; [| |by left; left].
  { right; left. destruct H as [H|[H _]]; [by eapply key_lt_trans|by rewrite <-H]. }
  rewrite E in *. destruct H as [H|[E1 H]]; [by right; left|]. rewrite E1 in *.
  destruct (key_cases (f64_key c.2) (f64_key d.2)) as [L|[E'%key_eq_eq|L]].
  - right; right; split; [done|left]. destruct H as [H|[H _]]; [by eapply key_lt_trans|by rewrite <-H].
  - rewrite E' in *. destruct H as [H|[E2 H]]; [by right; right; split; [|left]|].
    destruct (decide (c.1.1 < d.1.1)%nat); [left|right]; right; (split; [done|right]);
      (split; [done|lia]).
  - left; right. by split; [|left].
Qed.

Lemma peer_gt_asym c d : peer_gt c d → ¬ peer_gt d c.
Proof.
  unfold peer_gt. rewrite !key_eq_eq. intros [H|[E H]] [H'|[E' H']].
  - apply (key_lt_irrefl (f64_key c.1.2)). by eapply key_lt_trans.
  - rewrite E' in H. by apply key_lt_irrefl in H.
  - rewrite E in H'. by apply key_lt_irrefl in H'.
  - destruct H as [H|[F H]], H' as [H'|[F' H']].
    + apply (key_lt_irrefl (f64_key c.2)). by eapply key_lt_trans.
    + rewrite F' in H. by apply key_lt_irrefl in H.
    + rewrite F in H'. by apply key_lt_irrefl in H'.
    + lia.
Qed.

Lemma better_peer_gt cur c :
  peer_ok cur → peer_ok c →
  better_peer (Some cur) c = Some c ∧ peer_gt c cur ∨
  better_peer (Some cur) c = Some cur ∧ ¬ peer_gt c cur.
Proof.
  destruct cur as [[i x] w], c as [[j y] v]. intros [Hx Hw] [Hy Hv]. simpl in *.
  assert (f64_lt x y || f64_eq y x && f64_lt w v || f64_eq y x && f64_eq v w && (j <? i)%nat = true
    ↔ peer_gt (j, y, v) (i, x, w)) as Hiff.
  { unfold peer_gt. simpl. rewrite !orb_true_iff, !andb_true_iff, !f64_lt_key, !f64_eq_key,
      Nat.ltb_lt, !key_eq_eq by done. tauto. }
  destruct (_ || _); [left|right]; (split; [done|]); [by apply Hiff|].
  intros H%Hiff. done.
Qed.

Lemma better_peers_max cur cs :
  peer_ok cur → Forall peer_ok cs →
  ∃ c, foldl better_peer (Some cur) cs = Some c ∧ c ∈ cur :: cs ∧
    ∀ d, d ∈ cur :: cs → ¬ peer_gt d c.
Proof.
  intros Hcur Hcs. revert cur Hcur. induction Hcs as [|c cs Hc Hcs IH]; intros cur Hcur; cbn [foldl].
  { exists cur. split_and!; [done|by left|]. intros d ->%list_elem_of_singleton. apply peer_gt_irrefl. }
  destruct (better_peer_gt cur c Hcur Hc) as [[-> Hgt]|[-> Hgt]].
  - destruct (IH c Hc) as (e & E & Hin & Hmax). exists e. split_and!; [done|by right|].
    intros d [->|Hd]%elem_of_cons; [|by apply Hmax]. intros [H|H]%(peer_gt_split _ c).
    + by apply (peer_gt_asym c cur).
    + apply (Hmax c); [by left|done].
  - destruct (IH cur Hcur) as (e & E & Hin & Hmax). exists e. split_and!; [done| |].
    { apply elem_of_cons in Hin as [->|Hin]; [by left|by right; right]. }
    intros d [->|[->|Hd]%elem_of_cons]%elem_of_cons; [apply Hmax; by left| |apply Hmax; by right].
    intros [H|H]%(peer_gt_split _ cur); [done|]. by apply (Hmax cur); [left|].
Qed.

(** The index of the best peer does not depend on the order of the peers. *)
Lemma better_peers_perm cs cs' :
  cs ≡ₚ cs' → Forall peer_ok cs →
  (λ c, c.1.1) <$> foldl better_peer None cs = (λ c, c.1.1) <$> foldl better_peer None cs'.
Proof.
  intros HP Hok. assert (Forall peer_ok cs') as Hok' by by rewrite <-HP.
  destruct cs as [|c cs]; [apply Permutation_nil_l in HP as ->; done|].
  destruct cs' as [|c' cs']; [by apply Permutation_nil_r in HP|].
  cbn [foldl better_peer].
  apply Forall_cons in Hok as [Hc Hcs], Hok' as [Hc' Hcs'].
  destruct (better_peers_max c cs Hc Hcs) as (b & -> & Hb & Hmax).
  destruct (better_peers_max c' cs' Hc' Hcs') as (b' & -> & Hb' & Hmax').
  simpl. f_equal. destruct (decide (b.1.1 = b'.1.1)) as [|Hne]; [done|]. exfalso.
  destruct (peer_gt_total _ _ Hne) as [H|H].
  - apply (Hmax' b); [by rewrite <-HP|done].
  - apply (Hmax b'); [by rewrite HP|done].
Qed.

Lemma mapM_perm {A B} (f : A → option B) (l l' : list A) k :
  l ≡ₚ l' → mapM f l = Some k → ∃ k', mapM f l' = Some k' ∧ k ≡ₚ k'.
Proof.
  intros HP. revert k. induction HP as [|x l l' HP IH|x y l|l1 l2 l3 H1 IH1 H2 IH2]; intros k; simpl.
  - intros [= <-]. by exists [].
  - destruct (f x) as [b|]; simpl; [|done]. destruct (mapM f l) as [m|]; simpl; [|done].
    intros [= <-]. destruct (IH m eq_refl) as (m' & -> & Hm). exists (b :: m'). by rewrite Hm.
  - destruct (f x) as [b|], (f y) as [c|], (mapM f l) as [m|]; simpl; try done.
    intros [= <-]. eexists; split; [done|]. apply Permutation_swap.
  - intros E. destruct (IH1 _ E) as (k2 & E2 & ?). destruct (IH2 _ E2) as (k3 & ? & ?).
    exists k3. split; [done|]. by etrans.
Qed.

(** Peers whose indices are in range and whose weights are numbers. *)
Definition peers_ok (snapshot : list (IdentityKey * f64)) (peers : list MediumPeer) : Prop :=
  Forall (λ p, (mp_peer_index p < length snapshot)%nat ∧ is_nan (mp_weight p) = false) peers.

Lemma pick_best_perm snapshot peers peers' :
  Forall (λ s, is_nan s.2 = false) snapshot → peers_ok snapshot peers → peers ≡ₚ peers' →
  pick_best_medium_peer peers snapshot = pick_best_medium_peer peers' snapshot ∧
  ∃ o, pick_best_medium_peer peers snapshot = Some o.
Proof.
  intros Hsnap Hok HP. unfold pick_best_medium_peer.
  set (f := λ p, '(_, conf) ← snapshot !! mp_peer_index p; Some (mp_peer_index p, conf, mp_weight p)).
  assert (∀ p, p ∈ peers → ∃ c, f p = Some c ∧ peer_ok c ∧ c.1.1 = mp_peer_index p ∧
    (c.1.1 < length snapshot)%nat) as Hf.
  { intros p Hp. unfold peers_ok in Hok. rewrite Forall_forall in Hok. destruct (Hok p Hp) as [Hlt Hw].
    destruct (lookup_lt_is_Some_2 _ _ Hlt) as [[key conf] E]. unfold f. rewrite E. simpl.
    eexists. split_and!; [done|split; [|done]|done|done]. simpl.
    by apply (Forall_lookup_1 _ _ _ _ Hsnap E). }
  destruct (mapM_is_Some_2 f peers) as [cs Ecs].
  { apply Forall_forall. intros p Hp. destruct (Hf p Hp) as (c & E & _). by exists c. }
  destruct (mapM_perm f peers peers' cs HP Ecs) as (cs' & Ecs' & HPcs).
  rewrite Ecs, Ecs'. cbn [mbind option_bind].
  apply mapM_Some in Ecs.
  assert (∀ c, c ∈ cs → peer_ok c ∧ (c.1.1 < length snapshot)%nat) as Hcs.
  { intros c [k Hk]%list_elem_of_lookup.
    destruct (Forall2_lookup_r _ _ _ _ _ Ecs Hk) as (p & Hp & E).
    destruct (Hf p) as (c' & E' & ? & _ & ?); [by eapply list_elem_of_lookup_2|].
    assert (c = c') as -> by congruence. done. }
  assert (Forall peer_ok cs) as Hpo by (apply Forall_forall; intros; by apply Hcs).
  pose proof (better_peers_perm cs cs' HPcs Hpo) as Hb.
  destruct cs as [|c cs].
  { simpl in Hb |- *. destruct (foldl _ _ cs'); [done|]. split; [done|by exists None]. }
  apply Forall_cons in Hpo as [Hc Hpo].
  destruct (better_peers_max c cs Hc Hpo) as (b & Eb & Hin & _).
  cbn [foldl better_peer] in Hb |- *. rewrite Eb in Hb |- *.
  destruct (foldl better_peer None cs') as [b'|]; [|done]. simpl in Hb. injection Hb as Hb.
  destruct (Hcs b Hin) as [_ Hlt]. destruct (lookup_lt_is_Some_2 _ _ Hlt) as [[key conf] E].
  destruct b as [[i x] w], b' as [[i' x'] w']. simpl in Hb, E. subst i'. rewrite E. simpl. split; [done|by exists (Some key)].
Qed.

(** * Merging the components of the identity fuser

    What the medium-peer table holds, that each group is emitted from its own
    members alone, and that the outcome of [correlate] is the same for every
    order of the weighed pairs. *)

#[local] Opaque f64_lt f64_le f64_ratio is_high MEDIUM_BAND_THRESHOLD.

(** ** Medium peers *)

Definition same_root (uf : UnionFind) (a b : nat) : bool :=
  bool_decide (uf_find uf a = uf_find uf b).

(** What the pair [e] adds to the peers of [i]. *)
Definition peer_of (same : nat → nat → bool) (i : nat) (e : nat * nat * f64) : list MediumPeer :=
  if is_high e.2 || f64_lt e.2 MEDIUM_BAND_THRESHOLD || same e.1.1 e.1.2 then []
  else (if decide (e.1.1 = i) then [mkMediumPeer e.1.2 e.2] else []) ++
       (if decide (e.1.2 = i) then [mkMediumPeer e.1.1 e.2] else []).

Definition peers_of (same : nat → nat → bool) (weights : list (nat * nat * f64)) (i : nat)
    : list MediumPeer := mjoin (peer_of same i <$> weights).

(** The pairs united, the pairs' indices in range and their weights numbers. *)
Definition high_edges (weights : list (nat * nat * f64)) : list (nat * nat) :=
  (filter (λ e, is_high e.2 = true) weights).*1.

Definition weights_ok (n : nat) (weights : list (nat * nat * f64)) : Prop :=
  Forall (λ e, in_range n e.1 ∧ is_nan e.2 = false) weights.

Lemma push_at_alter {A} (out : list (list A)) i p :
  (i < length out)%nat → push_at out i p = Some (alter (λ ps, ps ++ [p]) i out).
Proof.
  intros Hi. destruct (lookup_lt_is_Some_2 _ _ Hi) as [qs Hq]. unfold push_at. rewrite Hq.
  cbn [mbind option_bind]. f_equal. apply list_eq. intros k.
  destruct (decide (i = k)) as [<-|Hne].
  - by rewrite list_lookup_insert_eq, list_lookup_alter_eq, Hq.
  - by rewrite list_lookup_insert_ne, list_lookup_alter_ne.
Qed.

Lemma lookup_push {A} (out : list (list A)) i p k ps :
  out !! k = Some ps →
  alter (λ ps, ps ++ [p]) i out !! k = Some (ps ++ if decide (i = k) then [p] else []).
Proof.
  intros Hk. case_decide as E; [subst k|].
  - by rewrite list_lookup_alter_eq, Hk.
  - rewrite list_lookup_alter_ne by done. by rewrite app_nil_r.
Qed.

Lemma collect_medium_peers_spec n uf edges weights out :
  holds n uf edges → weights_ok n weights → length out = n →
  ∃ out', collect_medium_peers_from weights uf out = Some out' ∧ length out' = n ∧
    ∀ k ps, out !! k = Some ps → out' !! k = Some (ps ++ peers_of (same_root uf) weights k).
Proof.
  intros Huf Hw. revert out. induction Hw as [|[[i j] w] weights [[Hi Hj] _] Hw IH]; intros out Hlen.
  { exists out. split_and!; [done|done|]. intros k ps ->. by rewrite app_nil_r. }
  simpl in Hi, Hj. cbn [collect_medium_peers_from].
  destruct (holds_find _ _ _ _ Huf Hi) as (ri & Eri & _), (holds_find _ _ _ _ Huf Hj) as (rj & Erj & _).
  assert (∀ k, peers_of (same_root uf) ((i, j, w) :: weights) k =
    peer_of (same_root uf) k (i, j, w) ++ peers_of (same_root uf) weights k) as Econs.
  { intros k. unfold peers_of. by rewrite fmap_cons, mjoin_cons. }
  assert (∀ k, peer_of (same_root uf) k (i, j, w) =
    if is_high w || f64_lt w MEDIUM_BAND_THRESHOLD || (ri =? rj)%nat then []
    else (if decide (i = k) then [mkMediumPeer j w] else []) ++
         (if decide (j = k) then [mkMediumPeer i w] else [])) as Epeer.
  { intros k. unfold peer_of, same_root. cbn [fst snd]. rewrite Eri, Erj.
    destruct (Nat.eqb_spec ri rj) as [->|Hne]; [by rewrite bool_decide_eq_true_2|].
    by rewrite bool_decide_eq_false_2 by congruence. }
  rewrite Eri, Erj. cbn [mbind option_bind].
  assert (∀ k ps, out !! k = Some ps → is_high w || f64_lt w MEDIUM_BAND_THRESHOLD || (ri =? rj)%nat = true →
    ps ++ peers_of (same_root uf) ((i, j, w) :: weights) k = ps ++ peers_of (same_root uf) weights k) as Eskip.
  { intros k ps _ E. by rewrite Econs, Epeer, E. }
  destruct (IH out Hlen) as (out' & E' & Hl' & Hp').
  destruct (is_high w); [exists out'; split_and!; [done|done|intros k ps Hk; rewrite Eskip; auto]|].
  destruct (f64_lt w MEDIUM_BAND_THRESHOLD);
    [exists out'; split_and!; [done|done|intros k ps Hk; rewrite Eskip; auto]|].
  destruct (ri =? rj)%nat;
    [exists out'; split_and!; [done|done|intros k ps Hk; rewrite Eskip; auto]|].
  rewrite push_at_alter by (by rewrite Hlen). cbn [mbind option_bind].
  rewrite push_at_alter by (by rewrite length_alter, Hlen). cbn [mbind option_bind].
  edestruct (IH (alter (λ ps, ps ++ [mkMediumPeer i w]) j
    (alter (λ ps, ps ++ [mkMediumPeer j w]) i out))) as (out2 & E2 & Hl2 & Hp2).
  { by rewrite !length_alter. }
  exists out2. split_and!; [done|done|]. intros k ps Hk.
  rewrite (Hp2 k _ (lookup_push _ _ _ _ _ (lookup_push _ _ _ _ _ Hk))).
  rewrite Econs, Epeer. cbn [orb]. by rewrite <-!(assoc_L (++)).
Qed.

(** Peers of a reordered list of pairs are a reordering. *)
Lemma peers_of_perm same same' weights weights' n i :
  weights ≡ₚ weights' → weights_ok n weights →
  (∀ a b, (a < n)%nat → (b < n)%nat → same a b = same' a b) →
  peers_of same weights i ≡ₚ peers_of same' weights' i.
Proof.
  intros HP Hw Hsame. trans (peers_of same' weights i).
  - unfold peers_of. apply reflexive_eq. f_equal. apply list_fmap_ext. intros k e He.
    destruct (Forall_lookup_1 _ _ _ _ Hw He) as [[Ha Hb] _]. unfold peer_of. by rewrite Hsame.
  - unfold peers_of. clear -HP. induction HP; simpl.
    + done.
    + by apply Permutation_app_head.
    + rewrite !(assoc_L (++)). apply Permutation_app_tail, Permutation_app_comm.
    + by etrans.
Qed.

Lemma peers_of_ok same weights n snapshot i :
  weights_ok n weights → length snapshot = n → peers_ok snapshot (peers_of same weights i).
Proof.
  intros Hw Hlen. apply Forall_forall. intros p. unfold peers_of.
  intros (l & Hp & (e & -> & He)%list_elem_of_fmap)%list_elem_of_join.
  destruct (proj1 (Forall_forall _ _) Hw e He) as [[Ha Hb] Hn]. rewrite Hlen.
  unfold peer_of in Hp. destruct (_ || _); [by apply elem_of_nil in Hp|].
  apply elem_of_app in Hp as [Hp|Hp]; case_decide; try by apply elem_of_nil in Hp.
  all: by apply list_elem_of_singleton in Hp as ->.
Qed.

(** ** Emission *)

Section emit.
Context `{F64Display}.
Implicit Types (records : list DeviceRecord) (opt : list (option DeviceRecord)) (g : list nat).

Lemma foldl_better_elem first rest : foldl better_record first rest ∈ first :: rest.
Proof using Type.
  revert first. induction rest as [|m rest IH]; intros first; cbn [foldl].
  { apply list_elem_of_singleton. done. }
  unfold better_record at 2. destruct (f64_lt _ _).
  - right. apply IH.
  - destruct (proj1 (elem_of_cons _ _ _) (IH first)) as [->|?]; [by left|right; by right].
Qed.

Lemma merged_record_idx first rest idx r :
  merged_record first rest = Some (idx, r) → idx ∈ (first :: rest).*1.
Proof using Type.
  unfold merged_record. destruct (result_ok _); cbn [mbind option_bind]; [|done].
  intros [= <- _]. eapply list_elem_of_fmap_2, foldl_better_elem.
Qed.

Lemma member_records_fst opt g ms : member_records opt g = Some ms → ms.*1 = g.
Proof using Type.
  unfold member_records. intros E%mapM_Some.
  induction E as [|i m g ms Hm _ IH]; [done|]. rewrite fmap_cons, IH. f_equal.
  destruct (mjoin (opt !! i)); cbn in Hm; [|done]. by injection Hm as <-.
Qed.

Lemma member_records_ext opt opt' g :
  (∀ i, i ∈ g → opt !! i = opt' !! i) → member_records opt g = member_records opt' g.
Proof using Type.
  intros Hext. unfold member_records. apply mapM_ext_elem. intros i Hi. by rewrite Hext.
Qed.

Lemma merge_group_local opt opt' g :
  (∀ i, i ∈ g → opt !! i = opt' !! i) →
  snd <$> merge_group opt g = snd <$> merge_group opt' g ∧
  ∀ opt1 r, merge_group opt g = Some (opt1, r) → ∀ i, i ∉ g → opt1 !! i = opt !! i.
Proof using Type.
  intros Hext. unfold merge_group. rewrite (member_records_ext opt opt' g Hext).
  destruct (member_records opt' g) as [[|first rest]|] eqn:E; simpl; [done| |done].
  apply member_records_fst in E.
  destruct (merged_record first rest) as [[idx r]|] eqn:Em; simpl; [|done].
  split; [done|]. intros opt1 r1 [= <- <-] i Hi. rewrite list_lookup_insert_ne; [done|].
  intros ->. apply Hi. rewrite <-E. by eapply merged_record_idx.
Qed.

(** A group is emitted from its own members and takes only them. *)
Lemma emit_group_local mp snap opt opt' g :
  (∀ i, i ∈ g → opt !! i = opt' !! i) →
  snd <$> emit_group mp snap opt g = snd <$> emit_group mp snap opt' g ∧
  ∀ opt1 r, emit_group mp snap opt g = Some (opt1, r) → ∀ i, i ∉ g → opt1 !! i = opt !! i.
Proof using Type.
  intros Hext. unfold emit_group. destruct g as [|i [|j g]]; try by apply merge_group_local.
  rewrite (Hext i) by by left. destruct (mjoin (opt' !! i)); simpl; [|done].
  destruct (mp !! i); simpl; [|done]. destruct (pick_best_medium_peer _ _); simpl; [|done].
  split; [done|]. intros opt1 r [= <- <-] k Hk. rewrite list_lookup_insert_ne; [done|].
  intros ->. apply Hk. by left.
Qed.

(** The record emitted for a group, from the records as they came in. *)
Definition emit_one mp snap records g : option DeviceRecord :=
  snd <$> emit_group mp snap (Some <$> records) g.

Lemma emit_groups_each mp snap records groups opt :
  NoDup (mjoin groups) → (∀ i, i ∈ mjoin groups → opt !! i = (Some <$> records) !! i) →
  emit_groups mp snap groups opt = mapM (emit_one mp snap records) groups.
Proof using Type.
  revert opt. induction groups as [|g groups IH]; intros opt Hnd Hext; [done|].
  rewrite mjoin_cons in Hnd, Hext. apply NoDup_app in Hnd as (_ & Hdis & Hnd).
  cbn [emit_groups mapM].
  destruct (emit_group_local mp snap opt (Some <$> records) g) as [E Hkeep].
  { intros i Hi. apply Hext, elem_of_app. by left. }
  fold (emit_one mp snap records g) in E. rewrite <-E.
  destruct (emit_group mp snap opt g) as [[opt1 r]|]; simpl; [|done].
  rewrite (IH opt1 Hnd); [done|]. intros i Hi. rewrite (Hkeep opt1 r eq_refl).
  - apply Hext, elem_of_app. by right.
  - intros Hg. by apply (Hdis i).
Qed.

Lemma emit_one_peers mp mp' snap records g :
  Forall (λ s, is_nan s.2 = false) snap →
  (∀ i ps ps', mp !! i = Some ps → mp' !! i = Some ps' → ps ≡ₚ ps' ∧ peers_ok snap ps) →
  length mp = length mp' →
  emit_one mp snap records g = emit_one mp' snap records g.
Proof using Type.
  intros Hsnap Hp Hlen. unfold emit_one, emit_group. destruct g as [|i [|j g]]; try done.
  destruct (mjoin _); simpl; [|done].
  destruct (mp !! i) as [ps|] eqn:E, (mp' !! i) as [ps'|] eqn:E'; simpl; [| | |done].
  - destruct (Hp i ps ps' E E') as [HP Hok].
    by rewrite (proj1 (pick_best_perm snap ps ps' Hsnap Hok HP)).
  - apply lookup_lt_Some in E. apply lookup_ge_None in E'. lia.
  - apply lookup_lt_Some in E'. apply lookup_ge_None in E. lia.
Qed.
End emit.
