(* ===== verification/IdentityTheorems.v ===== *)
(** * Correctness of the identity fuser

    [correlate] never fails on well-formed records, does not depend on the
    iteration order of the hash maps, agrees with the quadratic reference when
    no bucket is over the cap, merges exactly the connected components of the
    strong pairs and loses no address, signal or probe kind. *)

From S2P Require Import Prelude Net F64 Model FuserCore UnionFind Identity IdentityFacts.
From S2P Require Import CorrelateFacts.

#[local] Opaque f64_lt f64_le f64_ratio is_high MEDIUM_BAND_THRESHOLD MERGE_CONFIDENCE_BONUS.

(** ** From weights to groups *)

Definition snapshot_of (records : list DeviceRecord) : list (IdentityKey * f64) :=
  (λ r, (dr_identity_key r, dr_confidence r)) <$> records.

Lemma in_unit_not_nan x : in_unit x = true → is_nan x = false.
Proof. intros. by apply nonneg_not_nan, in_unit_nonneg. Qed.

Lemma snapshot_of_ok records :
  Forall record_wf records → Forall (λ s, is_nan s.2 = false) (snapshot_of records).
Proof.
  intros Hwf. apply Forall_fmap. eapply Forall_impl; [done|]. intros r Hr. simpl.
  apply in_unit_not_nan, Hr.
Qed.

Section weights.
Context `{F64Display}.

(** The pieces [correlate_weights] puts together. *)
Record correlation (records : list DeviceRecord) (weights : list (nat * nat * f64))
    (uf : UnionFind) (roots : list nat) (mp : list (list MediumPeer)) : Prop := {
  co_holds : holds (length records) uf (high_edges weights);
  co_length : length roots = length records;
  co_roots x y : (x < length records)%nat → (y < length records)%nat →
    roots !! x = roots !! y ↔ connected (high_edges weights) x y;
  co_peers_length : length mp = length records;
  co_peers k ps : mp !! k = Some ps → ps = peers_of (same_root uf) weights k;
  co_result : correlate_weights records weights =
    mapM (emit_one mp (snapshot_of records) records) (classes roots (length records));
}.

Lemma high_edges_in_range n weights : weights_ok n weights → Forall (in_range n) (high_edges weights).
Proof using Type.
  intros Hw. apply Forall_forall. intros e (x & -> & Hx)%list_elem_of_fmap.
  apply list_elem_of_filter in Hx as [_ Hx]. by apply (proj1 (Forall_forall _ _) Hw).
Qed.

Lemma correlate_weights_pieces records weights :
  Z.of_nat (length records) ≤ USIZE_MAX → weights_ok (length records) weights →
  ∃ uf roots mp, correlation records weights uf roots mp.
Proof using Type.
  intros Hn Hw.
  destruct (unite_all_ok _ Hn _ (high_edges_in_range _ _ Hw)) as (uf & Euf & Huf).
  destruct (collect_medium_peers_spec _ uf _ weights (replicate (length records) []) Huf Hw)
    as (mp & Emp & Hlmp & Hmp); [by rewrite length_replicate|].
  destruct (holds_components _ _ _ Huf) as (roots & Ero & Hlro & Hro).
  exists uf, roots, mp. split; [done|done| |done| |].
  - intros x y Hx Hy. destruct (lookup_lt_is_Some_2 roots x) as [rx Ex]; [lia|].
    destruct (lookup_lt_is_Some_2 roots y) as [ry Ey]; [lia|].
    rewrite <-(Hro x y rx ry Ex Ey), Ex, Ey. split; congruence.
  - intros k ps Hk. pose proof (lookup_lt_Some _ _ _ Hk).
    assert (replicate (length records) (A := list MediumPeer) [] !! k = Some []) as Hr
      by (apply lookup_replicate_2; lia).
    specialize (Hmp k [] Hr). rewrite Hk in Hmp. by injection Hmp as ->.
  - unfold correlate_weights, merge_components. fold (high_edges weights).
    rewrite Euf. cbn [mbind option_bind]. unfold collect_medium_peers. rewrite Emp.
    cbn [mbind option_bind]. rewrite Ero. cbn [mbind option_bind].
    rewrite take_ge by lia. rewrite group_by_root_classes, Hlro. cbn [mbind option_bind].
    apply emit_groups_each; [|done]. rewrite classes_partition. apply NoDup_seq.
Qed.

(** The outcome does not depend on the order of the weighed pairs. *)
Lemma correlate_weights_perm records weights weights' :
  Z.of_nat (length records) ≤ USIZE_MAX → Forall record_wf records →
  weights_ok (length records) weights → weights ≡ₚ weights' →
  correlate_weights records weights = correlate_weights records weights'.
Proof using Type.
  intros Hn Hwf Hw HP. assert (weights_ok (length records) weights') as Hw'.
  { unfold weights_ok. by rewrite <-HP. }
  destruct (correlate_weights_pieces records weights Hn Hw) as (uf & roots & mp & C).
  destruct (correlate_weights_pieces records weights' Hn Hw') as (uf' & roots' & mp' & C').
  assert (∀ x y, connected (high_edges weights) x y ↔ connected (high_edges weights') x y) as Hconn.
  { intros x y. apply connected_Permutation. unfold high_edges. by rewrite HP. }
  rewrite (co_result _ _ _ _ _ C), (co_result _ _ _ _ _ C').
  rewrite (classes_ext roots roots').
  2: { intros x y Hx Hy. by rewrite (co_roots _ _ _ _ _ C), (co_roots _ _ _ _ _ C'). }
  apply mapM_ext_elem. intros g _. apply emit_one_peers.
  - by apply snapshot_of_ok.
  - intros i ps ps' Hps Hps'.
    rewrite (co_peers _ _ _ _ _ C i ps Hps), (co_peers _ _ _ _ _ C' i ps' Hps').
    split; [|by eapply peers_of_ok; [|unfold snapshot_of; rewrite length_fmap]].
    eapply peers_of_perm; [done|done|]. intros a b Ha Hb. unfold same_root.
    apply bool_decide_ext.
    rewrite (holds_find_eq _ _ _ _ _ (co_holds _ _ _ _ _ C) Ha Hb).
    by rewrite (holds_find_eq _ _ _ _ _ (co_holds _ _ _ _ _ C') Ha Hb).
  - by rewrite (co_peers_length _ _ _ _ _ C), (co_peers_length _ _ _ _ _ C').
Qed.
End weights.

(** ** What a merged record takes from its members *)

(** Every address a record stands for. *)
Definition device_addresses (r : DeviceRecord) : list IpAddr :=
  option_list (dr_mgmt_ip r) ++ (ai_address <$> dr_alt_ips r).

(** [r] stands for the members [ms]: it holds their signals, probe kinds and
    addresses, each once, the latest of their times, and the identity of one of
    the most confident of them. *)
Record stands_for (ms : list DeviceRecord) (r : DeviceRecord) : Prop := {
  sf_wf : record_wf r;
  sf_signals s : s ∈ dr_signals r ↔ ∃ m, m ∈ ms ∧ s ∈ dr_signals m;
  sf_kinds k : k ∈ dr_probe_kinds r ↔ ∃ m, m ∈ ms ∧ k ∈ dr_probe_kinds m;
  sf_addresses ip : ip ∈ device_addresses r ↔ ∃ m, m ∈ ms ∧ dr_mgmt_ip m = Some ip;
  sf_addresses_once : NoDup (device_addresses r);
  sf_last_seen : ∃ m, m ∈ ms ∧ dr_last_seen r = dr_last_seen m;
  sf_last_seen_max m : m ∈ ms → dr_last_seen m ≤ dr_last_seen r;
  sf_identity : ∃ m, m ∈ ms ∧ dr_identity_key r = dr_identity_key m ∧
    ∀ m', m' ∈ ms → f64_lt (dr_confidence m) (dr_confidence m') = false;
}.

Lemma f64_lt_irrefl x : is_nan x = false → f64_lt x x = false.
Proof. intros Hx. apply not_true_iff_false. rewrite f64_lt_key by done. apply key_lt_irrefl. Qed.

Lemma f64_not_lt_trans x y z :
  is_nan x = false → is_nan y = false → is_nan z = false →
  f64_lt x y = false → f64_lt y z = false → f64_lt x z = false.
Proof.
  intros Hx Hy Hz. rewrite <-!not_true_iff_false, !f64_lt_key by done. unfold key_lt. lia.
Qed.

Lemma f64_lt_asym x y : is_nan x = false → is_nan y = false → f64_lt x y = true → f64_lt y x = false.
Proof. intros Hx Hy. rewrite <-not_true_iff_false, !f64_lt_key by done. unfold key_lt. lia. Qed.

Lemma foldl_better_max first rest :
  Forall (λ m, is_nan (dr_confidence m.2) = false) (first :: rest) →
  ∀ m, m ∈ first :: rest →
    f64_lt (dr_confidence (foldl better_record first rest).2) (dr_confidence m.2) = false.
Proof.
  revert first. induction rest as [|x rest IH]; intros first Hn m Hm; cbn [foldl].
  { apply list_elem_of_singleton in Hm as ->. apply Forall_cons in Hn as [Hn _]. by apply f64_lt_irrefl. }
  apply Forall_cons in Hn as [Hf Hn]. apply Forall_cons in Hn as [Hx Hn].
  assert (∀ a, is_nan (dr_confidence a.2) = false →
    is_nan (dr_confidence (foldl better_record a rest).2) = false) as Hb.
  { intros a Ha. assert (Forall (λ m, is_nan (dr_confidence m.2) = false) (a :: rest)) as Hall by by constructor.
    rewrite Forall_forall in Hall. apply Hall, foldl_better_elem. }
  unfold better_record at 2. destruct (f64_lt (dr_confidence first.2) (dr_confidence x.2)) eqn:E.
  - specialize (IH x ltac:(by constructor)).
    apply elem_of_cons in Hm as [->|Hm]; [|by apply IH].
    eapply f64_not_lt_trans; [by apply Hb|apply Hx|done|apply IH; by left|by apply f64_lt_asym].
  - specialize (IH first ltac:(by constructor)).
    apply elem_of_cons in Hm as [->|Hm]; [apply IH; by left|].
    apply elem_of_cons in Hm as [->|Hm]; [|apply IH; by right].
    eapply f64_not_lt_trans; [by apply Hb|apply Hf|done|apply IH; by left|done].
Qed.

Lemma foldl_latest t ms :
  let r := foldl latest t ms in
  t ≤ r ∧ (∀ m, m ∈ ms → dr_last_seen m.2 ≤ r) ∧
  (r = t ∨ ∃ m, m ∈ ms ∧ r = dr_last_seen m.2).
Proof.
  revert t. induction ms as [|m ms IH]; intros t; cbn [foldl].
  { split_and!; [done|by intros ? ?%elem_of_nil|by left]. }
  destruct (IH (latest t m)) as (H1 & H2 & H3).
  assert (t ≤ latest t m ∧ dr_last_seen m.2 ≤ latest t m ∧
    (latest t m = t ∨ latest t m = dr_last_seen m.2)) as (L1 & L2 & L3).
  { unfold latest. destruct (Z.ltb_spec t (dr_last_seen m.2)); lia. }
  split_and!; [lia| |].
  - intros m' Hm'. apply elem_of_cons in Hm' as [->|Hm]; [lia|by apply H2].
  - destruct H3 as [->|(m' & Hm & ->)]; [|right; exists m'; by split; [right|]].
    destruct L3 as [L3|L3]; rewrite L3; [by left|right; exists m; by split; [left|]].
Qed.

Lemma collect_alt_ips_fold first_idx base ms alts (seen : gset IpAddr) :
  (∀ ip, ip ∈ seen ↔ ip ∈ base ++ (ai_address <$> alts)) →
  NoDup (base ++ (ai_address <$> alts)) →
  let res := (foldl (add_alt_ip first_idx) (alts, seen) ms).1 in
  NoDup (base ++ (ai_address <$> res)) ∧
  ∀ ip, ip ∈ base ++ (ai_address <$> res) ↔
    ip ∈ base ++ (ai_address <$> alts) ∨ ∃ m, m ∈ ms ∧ m.1 ≠ first_idx ∧ dr_mgmt_ip m.2 = Some ip.
Proof.
  revert alts seen. induction ms as [|m ms IH]; intros alts seen Hseen Hnd; cbn [foldl].
  { split; [done|]. intros ip. split; [by left|]. intros [?|(m & Hm & _)]; [done|].
    by apply elem_of_nil in Hm. }
  unfold add_alt_ip at 2 4. cbn [fst snd].
  destruct (Nat.eqb_spec m.1 first_idx) as [Ei|Ei].
  { destruct (IH alts seen Hseen Hnd) as [H1 H2]. split; [done|]. intros ip. rewrite H2.
    setoid_rewrite elem_of_cons. naive_solver. }
  destruct (dr_mgmt_ip m.2) as [a|] eqn:Em.
  2: { destruct (IH alts seen Hseen Hnd) as [H1 H2]. split; [done|]. intros ip. rewrite H2.
    setoid_rewrite elem_of_cons. naive_solver. }
  case_bool_decide as Ha.
  { destruct (IH alts seen Hseen Hnd) as [H1 H2]. split; [done|]. intros ip. rewrite H2.
    setoid_rewrite elem_of_cons. split; [naive_solver|].
    intros [?|(x & [->|?] & ? & ?)]; [by left| |naive_solver].
    left. apply Hseen. congruence. }
  set (new := mkAltIp a _ _). destruct (IH (alts ++ [new]) ({[a]} ∪ seen)) as [H1 H2].
  - intros ip. rewrite elem_of_union, elem_of_singleton, Hseen, fmap_app, !elem_of_app. simpl.
    rewrite list_elem_of_singleton. tauto.
  - rewrite fmap_app, (assoc_L (++)). apply NoDup_app. split_and!; [done| |apply NoDup_singleton].
    intros ip Hip ->%list_elem_of_singleton. by apply Ha, Hseen.
  - split; [done|]. intros ip. rewrite H2, fmap_app, !elem_of_app. simpl.
    rewrite list_elem_of_singleton. setoid_rewrite elem_of_cons. naive_solver.
Qed.

Section merge.
Context `{F64Display}.

Lemma merged_addresses first rest :
  NoDup (first :: rest).*1 →
  let addrs := option_list (dr_mgmt_ip first.2) ++
    (ai_address <$> collect_alt_ips first.1 (dr_mgmt_ip first.2) (first :: rest)) in
  NoDup addrs ∧ ∀ ip, ip ∈ addrs ↔ ∃ m, m ∈ (first :: rest).*2 ∧ dr_mgmt_ip m = Some ip.
Proof using Type.
  intros Hnd. unfold collect_alt_ips.
  destruct (collect_alt_ips_fold first.1 (option_list (dr_mgmt_ip first.2)) (first :: rest) []
    (match dr_mgmt_ip first.2 with Some ip => {[ip]} | None => ∅ end)) as [H1 H2].
  - intros ip. simpl. rewrite app_nil_r. destruct (dr_mgmt_ip first.2); simpl.
    + by rewrite elem_of_singleton, list_elem_of_singleton.
    + by rewrite elem_of_empty, elem_of_nil.
  - simpl. rewrite app_nil_r. destruct (dr_mgmt_ip first.2); [apply NoDup_singleton|apply NoDup_nil_2].
  - split; [done|]. intros ip. rewrite H2. rewrite app_nil_r. split.
    + intros [Hip|(m & Hm & _ & Hip)].
      * exists first.2. split; [left|]. destruct (dr_mgmt_ip first.2); simpl in Hip.
        { by apply list_elem_of_singleton in Hip as ->. }
        by apply elem_of_nil in Hip.
      * exists m.2. split; [by apply list_elem_of_fmap_2|done].
    + intros (r & (m & -> & Hm)%list_elem_of_fmap & Hip).
      destruct (decide (m.1 = first.1)) as [E|E]; [left|right; eauto].
      assert (m = first) as ->.
      { apply elem_of_cons in Hm as [->|Hm]; [done|]. rewrite fmap_cons in Hnd.
        apply NoDup_cons in Hnd as [Hnin _]. exfalso. apply Hnin. rewrite <-E.
        by apply list_elem_of_fmap_2. }
      rewrite Hip. by apply list_elem_of_singleton.
Qed.

Lemma merged_record_ok first rest :
  Forall (λ m, record_wf m.2) (first :: rest) → NoDup (first :: rest).*1 →
  ∃ idx r, merged_record first rest = Some (idx, r) ∧ stands_for (first :: rest).*2 r.
Proof using Type.
  intros Hwf Hnd. pose proof (foldl_better_elem first rest) as Hbest.
  assert (Forall (λ m, is_nan (dr_confidence m.2) = false) (first :: rest)) as Hnan.
  { eapply Forall_impl; [done|]. intros m Hm. apply in_unit_not_nan, Hm. }
  pose proof (foldl_better_max first rest Hnan) as Hmax.
  assert (in_unit (f64_clamp (f64_add (dr_confidence (foldl better_record first rest).2)
    MERGE_CONFIDENCE_BONUS) f64_zero f64_one) = true) as Hconf.
  { apply f64_clamp_unit, nonneg_not_nan, f64_add_nonneg.
    - apply in_unit_nonneg, (proj1 (Forall_forall _ _) Hwf _ Hbest).
    - by vm_compute. }
  unfold merged_record. rewrite confidence_new_Ok by done. cbn [result_ok mbind option_bind].
  eexists _, _. split; [done|]. destruct (merged_addresses first rest Hnd) as [Ha1 Ha2].
  destruct (foldl_latest (dr_last_seen (foldl better_record first rest).2) (first :: rest))
    as (_ & L2 & L3).
  split; cbn [dr_signals dr_probe_kinds dr_last_seen dr_identity_key].
  - split; [done|apply dedup_join_NoDup..].
  - intros s. rewrite (dedup_join_elem (λ m, dr_signals m.2)). setoid_rewrite list_elem_of_fmap.
    naive_solver.
  - intros k. rewrite (dedup_join_elem (λ m, dr_probe_kinds m.2)). setoid_rewrite list_elem_of_fmap.
    naive_solver.
  - apply Ha2.
  - apply Ha1.
  - destruct L3 as [->|(m & Hm & ->)]; eexists; (split; [by apply list_elem_of_fmap_2|done]).
  - intros r (m & -> & Hm)%list_elem_of_fmap. by apply L2.
  - eexists. split_and!; [by apply list_elem_of_fmap_2|done|].
    intros r (m & -> & Hm)%list_elem_of_fmap. by apply Hmax.
Qed.
End merge.

(** ** Groups and their records *)

(** The records of the members of a group, in order. *)
Definition members (records : list DeviceRecord) (g : list nat) : list DeviceRecord :=
  omap (λ i, records !! i) g.

Lemma member_records_members records g :
  Forall (λ i, (i < length records)%nat) g →
  ∃ ms, member_records (Some <$> records) g = Some ms ∧ ms.*1 = g ∧ ms.*2 = members records g.
Proof.
  induction 1 as [|i g Hi Hg (ms & E & E1 & E2)]; [by exists []|].
  destruct (lookup_lt_is_Some_2 _ _ Hi) as [r Hr].
  exists ((i, r) :: ms). split_and!.
  - unfold member_records in *. cbn [mapM]. rewrite list_lookup_fmap, Hr. cbn. by rewrite E.
  - by rewrite fmap_cons, E1.
  - rewrite fmap_cons, E2. unfold members. cbn. by rewrite Hr.
Qed.

Lemma stands_for_self r : record_wf r → dr_alt_ips r = [] → stands_for [r] r.
Proof.
  intros Hwf Halt. pose proof Hwf as [Hc Hs Hk].
  assert (∀ (P : DeviceRecord → Prop), (∃ m, m ∈ [r] ∧ P m) ↔ P r) as Hone.
  { intros P. split; [by intros (m & ->%list_elem_of_singleton & ?)|].
    exists r. split; [by apply list_elem_of_singleton|done]. }
  split; [done|intros; by rewrite Hone..| | | | |].
  - intros ip. rewrite Hone. unfold device_addresses. rewrite Halt, app_nil_r.
    destruct (dr_mgmt_ip r); simpl; [rewrite list_elem_of_singleton|rewrite elem_of_nil]; naive_solver.
  - unfold device_addresses. rewrite Halt, app_nil_r.
    destruct (dr_mgmt_ip r); [apply NoDup_singleton|apply NoDup_nil_2].
  - by rewrite Hone.
  - by intros m ->%list_elem_of_singleton.
  - rewrite Hone. split; [done|]. intros m ->%list_elem_of_singleton.
    by apply f64_lt_irrefl, in_unit_not_nan.
Qed.

(** Naming a possible alias changes nothing else. *)
Lemma stands_for_alias ms r k : stands_for ms r → stands_for ms (set_possible_alias_of k r).
Proof. intros [[]]. by split. Qed.

Section groups.
Context `{F64Display}.

Lemma emit_one_ok records mp g :
  Forall record_wf records → Forall (λ r, dr_alt_ips r = []) records →
  length mp = length records → (∀ i ps, mp !! i = Some ps → peers_ok (snapshot_of records) ps) →
  g ≠ [] → NoDup g → Forall (λ i, (i < length records)%nat) g →
  ∃ r, emit_one mp (snapshot_of records) records g = Some r ∧ stands_for (members records g) r.
Proof using Type.
  intros Hwf Halt Hlen Hmp Hne Hnd Hg.
  destruct (member_records_members records g Hg) as (ms & E & E1 & E2).
  unfold emit_one, emit_group. destruct g as [|i [|j g]]; [done| |].
  - apply Forall_cons in Hg as [Hi _]. destruct (lookup_lt_is_Some_2 _ _ Hi) as [r Hr].
    destruct (lookup_lt_is_Some_2 mp i) as [ps Hps]; [lia|].
    rewrite list_lookup_fmap, Hr. cbn [fmap option_fmap option_map mjoin option_join mbind option_bind].
    rewrite Hps. cbn [mbind option_bind].
    destruct (pick_best_perm (snapshot_of records) ps ps (snapshot_of_ok _ Hwf) (Hmp i ps Hps))
      as [_ [o ->]]; [done|]. cbn.
    assert (stands_for [r] r) by (apply stands_for_self; [apply (Forall_lookup_1 _ _ _ _ Hwf Hr)|apply (Forall_lookup_1 _ _ _ _ Halt Hr)]).
    unfold members. simpl. rewrite Hr.
    eexists. split; [done|]. destruct o; [by apply stands_for_alias|done].
  - unfold merge_group. rewrite E. cbn [mbind option_bind].
    destruct ms as [|first rest]; [done|].
    destruct (merged_record_ok first rest) as (idx & r & -> & Hr).
    + apply Forall_forall. intros m Hm.
      assert (m.2 ∈ members records (i :: j :: g)) as Hin by (rewrite <-E2; by apply list_elem_of_fmap_2).
      apply list_elem_of_omap in Hin as (k & _ & Hk). apply (Forall_lookup_1 _ _ _ _ Hwf Hk).
    + by rewrite E1.
    + rewrite E2 in Hr. cbn. by exists r.
Qed.
End groups.

Section classes.
Context `{F64Display}.

Lemma elem_of_classes_lt roots n g i : g ∈ classes roots n → i ∈ g → (i < n)%nat.
Proof using Type.
  intros Hg Hi. assert (i ∈ mjoin (classes roots n)) as Hin by (apply list_elem_of_join; eauto).
  rewrite classes_partition in Hin. apply elem_of_seq in Hin. lia.
Qed.

Lemma emit_classes_ok records weights uf roots mp :
  Forall record_wf records → Forall (λ r, dr_alt_ips r = []) records →
  weights_ok (length records) weights → correlation records weights uf roots mp →
  ∀ g, g ∈ classes roots (length records) →
  ∃ r, emit_one mp (snapshot_of records) records g = Some r ∧ stands_for (members records g) r.
Proof using Type.
  intros Hwf Halt Hw C g Hg. apply emit_one_ok; [done|done|apply C| |by eapply classes_nonempty| |].
  - intros i ps Hps. rewrite (co_peers _ _ _ _ _ C i ps Hps).
    eapply peers_of_ok; [done|]. unfold snapshot_of. by rewrite length_fmap.
  - unfold classes in Hg. apply list_elem_of_fmap in Hg as (f & -> & _).
    apply NoDup_filter, NoDup_seq.
  - apply Forall_forall. intros i Hi. by eapply elem_of_classes_lt.
Qed.
End classes.

(** ** The theorems *)

Section theorems.
Context `{F64Display} `{U : UnicodeCase}.
Implicit Types (hints : IdentityHints) (records : list DeviceRecord).

(** Records as the inner fuser hands them over. *)
Definition correlatable records : Prop :=
  Z.of_nat (length records) ≤ USIZE_MAX ∧ Forall record_wf records.

Lemma compute_pair_weights_ok `{HO : HashOrder} `{!HashOrderLaws HO} hints records :
  weights_ok (length records) (compute_pair_weights hints records).
Proof using Type.
  apply Forall_forall. intros [[i j] w] [(Hlt & k & a & b & Ha & Hb & _) Hw]%elem_of_compute_pair_weights.
  split; [split; by eapply lookup_lt_Some|]. unfold weigh in Hw. simpl in Hw.
  rewrite Ha, Hb in Hw. simpl in Hw. destruct (f64_lt _ _); [|done]. injection Hw as <-.
  apply pair_weight_not_nan.
Qed.

(** Two records weighed together, with a weight of the high band. *)
Definition strong hints records (i j : nat) : Prop :=
  candidate hints records i j ∧
  ∃ a b, records !! i = Some a ∧ records !! j = Some b ∧
    f64_le HIGH_BAND_THRESHOLD (pair_weight hints a b) = true.

Lemma is_high_positive w : is_nan w = false → is_high w = true → f64_lt f64_zero w = true.
Proof using Type.
  intros Hn. change (is_high w) with (f64_le HIGH_BAND_THRESHOLD w).
  rewrite f64_le_key, f64_lt_key by done. unfold key_lt.
  assert (f64_key HIGH_BAND_THRESHOLD = (1, -53, 7205759403792794)) as -> by by vm_compute.
  simpl. lia.
Qed.

Lemma elem_of_high_edges `{HO : HashOrder} `{!HashOrderLaws HO} hints records i j :
  (i, j) ∈ high_edges (compute_pair_weights hints records) ↔ strong hints records i j.
Proof using Type.
  unfold high_edges, strong. rewrite list_elem_of_fmap. split.
  - intros ([[i' j'] w] & [= <- <-] & [Hh Hin]%list_elem_of_filter).
    apply elem_of_compute_pair_weights in Hin as [Hc Hw]. split; [done|].
    unfold weigh in Hw. simpl in Hw.
    destruct (records !! i) as [a|], (records !! j) as [b|]; simpl in Hw; try done.
    destruct (f64_lt _ _); [|done]. injection Hw as <-. by exists a, b.
  - intros (Hc & a & b & Ha & Hb & Hh). exists (i, j, pair_weight hints a b). split; [done|].
    apply list_elem_of_filter. split; [done|]. apply elem_of_compute_pair_weights. split; [done|].
    unfold weigh. simpl. rewrite Ha, Hb. simpl.
    by rewrite is_high_positive by (try apply pair_weight_not_nan; done).
Qed.

Lemma connected_strong `{HO : HashOrder} `{!HashOrderLaws HO} hints records i j :
  connected (high_edges (compute_pair_weights hints records)) i j ↔ rtsc (strong hints records) i j.
Proof using Type.
  unfold connected. split; apply rtc_subrel; intros a b [Hab|Hab];
    [left|right|left|right]; by apply elem_of_high_edges.
Qed.

Lemma rtsc_lt_1 (R : relation nat) i : rtsc R i i.
Proof using Type. apply rtc_refl. Qed.

(** Whatever order the hash maps and hash sets of [compute_pair_weights]
    yield their entries in, [correlate] returns the same records: the merged
    groups, their order and the aliases named are determined by the records
    alone. *)
Theorem correlate_order_independent (HO1 HO2 : HashOrder) hints records :
  HashOrderLaws HO1 → HashOrderLaws HO2 → correlatable records →
  correlate (H1 := HO1) hints records = correlate (H1 := HO2) hints records.
Proof using Type.
  intros L1 L2 [Hn Hwf]. unfold correlate. destruct (_ <=? _)%nat; [done|].
  apply correlate_weights_perm; [done|done|apply compute_pair_weights_ok|].
  apply NoDup_Permutation; [apply NoDup_compute_pair_weights..|].
  intros [[i j] w]. by rewrite !elem_of_compute_pair_weights.
Qed.

(** C4. When no correlation value is shared by more records than the cap
    allows, bucketing finds every pair that weighs anything: [correlate] returns
    what the quadratic comparison of all pairs returns. *)
Theorem correlate_matches_bruteforce (HO : HashOrder) hints records :
  HashOrderLaws HO → UnicodeCaseLaws U → correlatable records → within_cap hints records →
  correlate hints records = correlate_bruteforce hints records.
Proof using Type.
  intros L UL [Hn Hwf] Hcap. unfold correlate, correlate_bruteforce.
  destruct (_ <=? _)%nat; [done|].
  apply correlate_weights_perm; [done|done|apply compute_pair_weights_ok|].
  by apply compute_pair_weights_perm.
Qed.

Lemma correlate_components (HO : HashOrder) hints records :
  HashOrderLaws HO → correlatable records → Forall (λ r, dr_alt_ips r = []) records →
  ∃ groups out, correlate hints records = Some out ∧
    mjoin groups ≡ₚ seq 0 (length records) ∧
    (∀ g i j, g ∈ groups → i ∈ g → (j < length records)%nat →
       j ∈ g ↔ rtsc (strong hints records) i j) ∧
    Forall2 (λ g r, stands_for (members records g) r) groups out.
Proof using Type.
  intros L [Hn Hwf] Halt. unfold correlate. destruct (Nat.leb_spec (length records) 1) as [Hle|Hgt].
  - destruct records as [|r [|]]; [| |simpl in Hle; lia].
    + exists [], []. split_and!; [done|done| |done]. by intros ??? ?%elem_of_nil.
    + exists [[0%nat]], [r]. split_and!; [done|done| |].
      * intros g i j ->%list_elem_of_singleton ->%list_elem_of_singleton Hj. simpl in Hj.
        assert (j = 0%nat) as -> by lia. rewrite list_elem_of_singleton.
        split; [intros; apply rtsc_lt_1|done].
      * constructor; [|done]. apply stands_for_self; [apply (Forall_inv Hwf)|apply (Forall_inv Halt)].
  - pose proof (compute_pair_weights_ok hints records) as Hw.
    destruct (correlate_weights_pieces records _ Hn Hw) as (uf & roots & mp & C).
    pose proof (classes_partition roots (length records)) as HP.
    pose proof (emit_classes_ok records _ uf roots mp Hwf Halt Hw C) as Hemit.
    destruct (mapM_is_Some_2 (emit_one mp (snapshot_of records) records)
      (classes roots (length records))) as [out Eout].
    { apply Forall_forall. intros g Hg. destruct (Hemit g Hg) as (r & E & _). by exists r. }
    exists (classes roots (length records)), out. rewrite (co_result _ _ _ _ _ C).
    split_and!; [done|done| |].
    + intros g i j Hg Hi Hj. rewrite (classes_same roots (length records) g i j Hg Hi Hj).
      pose proof (elem_of_classes_lt roots _ g i Hg Hi) as Hi'.
      rewrite (co_roots _ _ _ _ _ C i j Hi' Hj). apply connected_strong.
    + apply mapM_Some in Eout. eapply Forall2_impl; [exact (Forall2_elem_l _ _ _ Eout)|].
      intros g r [Hg E]. destruct (Hemit g Hg) as (r' & E' & Hs). by simplify_eq.
Qed.

(** C3. [correlate] never fails. It partitions the records into the connected
    components of the strong pairs and returns one record per component that
    stands for its members: it holds their signals, probe kinds and addresses,
    each once, the latest of their times, the identity of a most confident one,
    and a confidence in the unit interval. *)
Theorem correlate_merges_components (HO : HashOrder) hints records :
  HashOrderLaws HO → correlatable records → Forall (λ r, dr_alt_ips r = []) records →
  ∃ groups out, correlate hints records = Some out ∧
    mjoin groups ≡ₚ seq 0 (length records) ∧
    (∀ g i j, g ∈ groups → i ∈ g → (j < length records)%nat →
       j ∈ g ↔ rtsc (strong hints records) i j) ∧
    Forall2 (λ g r, stands_for (members records g) r) groups out.
Proof using Type. apply correlate_components. Qed.
End theorems.

(** ** Instances *)

Section instances.

Definition in_order : HashOrder := λ _ _ l, l.
Definition reversed : HashOrder := λ _ _ l, reverse l.

Lemma in_order_laws : HashOrderLaws in_order.
Proof. by intros ???. Qed.

Lemma reversed_laws : HashOrderLaws reversed.
Proof. intros ???. unfold hash_order, reversed. apply reverse_Permutation. Qed.

#[local] Existing Instance ascii_case.
#[local] Instance no_display : F64Display := λ _, [].

(** Three answers: two by one host under two spellings of its name and MAC, one
    by name only. *)
Definition sample_record (ip : Z) (mac : option Str) (name : Str) (conf : f64) : DeviceRecord := {|
  dr_identity_key := s! "ip:" ++ ip_display (V4 ip); dr_mgmt_ip := Some (V4 ip); dr_mac := mac;
  dr_manufacturer := None; dr_model := None; dr_product_family := None;
  dr_platform := None; dr_os_version := None; dr_ssh_version := None;
  dr_http_server := None; dr_http_version := None; dr_role := None;
  dr_confidence := conf; dr_last_seen := ip;
  dr_signals := [SnmpSysName name]; dr_probe_kinds := [Snmp];
  dr_schema_version := CURRENT_SCHEMA_VERSION; dr_schema_id := CURRENT_SCHEMA_ID;
  dr_alt_ips := []; dr_possible_alias_of := None; dr_scan_metadata := scan_metadata_default |}.

Definition sample_records : list DeviceRecord := [
  sample_record 1 (Some (s! "aa:bb:cc:dd:ee:ff")) (s! "R1") (f64_ratio 1 10);
  sample_record 2 None (s! "R1") (f64_ratio 2 10);
  sample_record 3 (Some (s! "AA-BB-CC-DD-EE-FF")) (s! "r1") (f64_ratio 3 10)].

Lemma sample_correlatable : correlatable sample_records.
Proof.
  split; [by vm_compute|].
  repeat (apply Forall_cons; split; [split; [by vm_compute|apply NoDup_singleton..]|]). done.
Qed.

Lemma sample_no_alt_ips : Forall (λ r, dr_alt_ips r = []) sample_records.
Proof. repeat constructor. Qed.

Lemma sample_within_cap : within_cap identity_hints_default sample_records.
Proof.
  intros k. pose proof (indices_of_length identity_hints_default k 0 sample_records) as Hl.
  change (length sample_records) with 3%nat in Hl.
  change (ih_max_correlation_bucket identity_hints_default) with 256. lia.
Qed.

Lemma correlate_order_independent_witness :
  correlate (H1 := in_order) identity_hints_default sample_records =
    correlate (H1 := reversed) identity_hints_default sample_records ∧
  (λ out : list DeviceRecord, map dr_identity_key out) <$> correlate (H1 := reversed) identity_hints_default sample_records =
    Some [s! "ip:0.0.0.3"; s! "ip:0.0.0.2"].
Proof.
  split; [|by vm_compute].
  apply (correlate_order_independent in_order reversed);
    [apply in_order_laws|apply reversed_laws|apply sample_correlatable].
Defined.

Lemma correlate_matches_bruteforce_witness :
  correlate (H1 := reversed) identity_hints_default sample_records =
    correlate_bruteforce identity_hints_default sample_records.
Proof.
  apply (correlate_matches_bruteforce reversed);
    [apply reversed_laws|apply ascii_case_laws|apply sample_correlatable|apply sample_within_cap].
Defined.

Lemma correlate_merges_components_witness :
  ∃ groups out, correlate (H1 := reversed) identity_hints_default sample_records = Some out ∧
    mjoin groups ≡ₚ seq 0 (length sample_records) ∧
    (∀ g i j, g ∈ groups → i ∈ g → (j < length sample_records)%nat →
       j ∈ g ↔ rtsc (strong identity_hints_default sample_records) i j) ∧
    Forall2 (λ g r, stands_for (members sample_records g) r) groups out.
Proof.
  apply (correlate_merges_components reversed);
    [apply reversed_laws|apply sample_correlatable|apply sample_no_alt_ips].
Defined.
End instances.
