(* ===== verification/Fuser.v ===== *)
(** * Fuser objects: building, feeding and flushing them

    The [Fuser] trait objects [create_fuser] builds
    ([src/rastreo-core/src/fuser/mod.rs], [mib.rs], [identity.rs]), driven the
    way the pipeline drives them: one [ingest] per target, then [finish]. *)

From S2P Require Import Prelude Net F64 Model FuserCore UnionFind Identity IdentityFacts.
From S2P Require Import CorrelateFacts IdentityTheorems.

#[local] Opaque f64_lt f64_le f64_ratio.

(** [Box<dyn Fuser>]: the three implementations with their state. *)
Inductive AnyFuser : Type :=
  | FDirect (fuser : DirectFuser)
  | FMib (inner : AnyFuser) (table : MibTable)
  | FIdentity (inner : AnyFuser) (hints : IdentityHints) (buffer : list DeviceRecord).

Section fuser.
Context `{UnicodeCase, F64Display, ForeignErrors, MibSource, HashOrder}.

(** [Fuser::ingest]: one target's outcomes in, the records ready to emit out. *)
Fixpoint ingest (f : AnyFuser) (outcomes : list ProbeOutcome)
    : Result RastreoError (AnyFuser * list DeviceRecord) :=
  match f with
  | FDirect d => records ← direct_ingest d outcomes; Ok (f, records)
  | FMib inner table =>
      '(inner, records) ← ingest inner outcomes;
      Ok (FMib inner table, map (enrich table) records)
  | FIdentity inner hints buffer =>
      '(inner, records) ← ingest inner outcomes;
      Ok (FIdentity inner hints (buffer ++ records), [])
  end.

(** [Fuser::finish]; [None] is a panic inside [correlate]. *)
Fixpoint finish (f : AnyFuser) : option (Result RastreoError (AnyFuser * list DeviceRecord)) :=
  match f with
  | FDirect d => Some (records ← direct_finish d; Ok (f, records))
  | FMib inner table =>
      r ← finish inner;
      Some ('(inner, records) ← r; Ok (FMib inner table, map (enrich table) records))
  | FIdentity inner hints buffer =>
      r ← finish inner;
      match r with
      | Err e => Some (Err e)
      | Ok (inner, tail) =>
          out ← correlate hints (buffer ++ tail);
          Some (Ok (FIdentity inner hints [], out))
      end
  end.

(** [IdentityFuser::new]. *)
Definition identity_fuser_new (inner : AnyFuser) (hints : IdentityHints)
    : Result RastreoError AnyFuser :=
  _ ← map_err EConfig (check_vrrp_groups (ih_vrrp_groups hints));
  Ok (FIdentity inner hints []).

(** [create_fuser]: every layer validates its whole subtree again. *)
Fixpoint create_fuser (config : FuserConfig) : Result RastreoError AnyFuser :=
  _ ← map_err EConfig (validate config);
  match config with
  | CDirect include_unreachable confidence_baseline confidence_per_signal =>
      let f := direct_fuser_new in
      let f := match include_unreachable with Some v => with_include_unreachable v f | None => f end in
      let f := match confidence_baseline with Some v => with_confidence_baseline v f | None => f end in
      let f := match confidence_per_signal with Some v => with_confidence_per_signal v f | None => f end in
      Ok (FDirect f)
  | CMibEnrichment data_path inner =>
      inner_fuser ← create_fuser inner;
      table ← match data_path with
              | Some path => if is_empty path then from_bundled else from_path path
              | None => from_bundled
              end;
      Ok (FMib inner_fuser table)
  | CIdentity identity_hints inner =>
      inner_fuser ← create_fuser inner;
      identity_fuser_new inner_fuser identity_hints
  end.

(** One [ingest] per batch of outcomes. *)
Fixpoint ingest_all (f : AnyFuser) (batches : list (list ProbeOutcome))
    : Result RastreoError (AnyFuser * list DeviceRecord) :=
  match batches with
  | [] => Ok (f, [])
  | batch :: rest =>
      '(f, records) ← ingest f batch;
      '(f, more) ← ingest_all f rest;
      Ok (f, records ++ more)
  end.

(** A whole scan through a fuser, as the pipeline drives it: a record ingested for every target, then
    what [finish] holds back. *)
Definition drive (f : AnyFuser) (batches : list (list ProbeOutcome))
    : option (Result RastreoError (list DeviceRecord)) :=
  match ingest_all f batches with
  | Err e => Some (Err e)
  | Ok (f, records) =>
      r ← finish f;
      Some ('(_, more) ← r; Ok (records ++ more))
  end.

(** ** Layers are functions of what the layer below emits *)

Lemma ingest_all_mib inner table batches :
  ingest_all (FMib inner table) batches =
  ('(inner, records) ← ingest_all inner batches; Ok (FMib inner table, map (enrich table) records)).
Proof using Type.
  revert inner. induction batches as [|b batches IH]; intros inner; [done|]. simpl.
  destruct (ingest inner b) as [[inner' records]|e]; [|done]. simpl. rewrite IH.
  destruct (ingest_all inner' batches) as [[inner'' more]|e]; [|done]. simpl. by rewrite map_app.
Qed.

Lemma drive_mib inner table batches :
  drive (FMib inner table) batches = (λ r : Result RastreoError (list DeviceRecord), map (enrich table) <$> r) <$> drive inner batches.
Proof using Type.
  unfold drive. rewrite ingest_all_mib. destruct (ingest_all inner batches) as [[f rs]|e]; [|done].
  simpl. destruct (finish f) as [[[f' more]|e]|]; [|done|done]. simpl. by rewrite map_app.
Qed.

Lemma ingest_all_identity inner hints buffer batches :
  ingest_all (FIdentity inner hints buffer) batches =
  ('(inner, records) ← ingest_all inner batches; Ok (FIdentity inner hints (buffer ++ records), [])).
Proof using Type.
  revert inner buffer. induction batches as [|b batches IH]; intros inner buffer; simpl.
  { by rewrite app_nil_r. }
  destruct (ingest inner b) as [[inner' records]|e]; [|done]. simpl. rewrite IH.
  destruct (ingest_all inner' batches) as [[inner'' more]|e]; [|done].
  simpl. by rewrite (assoc_L (++)).
Qed.

(** The buffering fuser correlates what the inner fuser emits over the scan. *)
Lemma drive_identity inner hints batches :
  drive (FIdentity inner hints []) batches =
  r ← drive inner batches;
  match r with
  | Err e => Some (Err e)
  | Ok records => Ok <$> correlate hints records
  end.
Proof using Type.
  unfold drive. rewrite ingest_all_identity. destruct (ingest_all inner batches) as [[f rs]|e]; [|done].
  simpl. destruct (finish f) as [[[f' more]|e]|]; [|done|done]. simpl.
  by destruct (correlate hints (rs ++ more)).
Qed.

Lemma drive_direct d batches :
  drive (FDirect d) batches =
  Some (rs ← mapM (fuse_one d) batches; Ok (omap id rs)).
Proof using Type.
  unfold drive.
  assert (ingest_all (FDirect d) batches =
    rs ← mapM (fuse_one d) batches; Ok (FDirect d, omap id rs)) as ->.
  { induction batches as [|b batches IH]; [done|]. simpl. unfold direct_ingest.
    destruct (fuse_one d b) as [o|e]; [|done]. simpl.
    destruct o as [r|]; simpl; rewrite IH; by destruct (mapM (fuse_one d) batches). }
  destruct (mapM (fuse_one d) batches); [|done]. simpl. by rewrite app_nil_r.
Qed.
End fuser.
