(* ===== verification/FuserTheorems.v ===== *)
(** * Correctness of the fusers

    The direct fuser on every branch, the fuser a validated configuration
    builds over a whole scan, name selection, and the MIB table. *)

From S2P Require Import Prelude Net F64 Model FuserCore UnionFind Identity IdentityFacts.
From S2P Require Import CorrelateFacts IdentityTheorems Fuser.

#[local] Opaque f64_lt f64_le f64_ratio f64_add f64_mul f64_of_Z.

(** ** The direct fuser *)

Lemma drop_while_last {A} (p : A → bool) (l : list A) c : p c = false → drop_while p (l ++ [c]) ≠ [].
Proof. intros Hc. induction l as [|x l IH]; simpl; [by rewrite Hc|]. by destruct (p x). Qed.

Lemma trim_nonempty c s : is_whitespace c = false → trim (c :: s) ≠ [].
Proof.
  intros Hc. unfold trim. simpl. rewrite Hc. simpl. intros E.
  apply (f_equal (@rev _)) in E. rewrite rev_involutive in E.
  by apply (drop_while_last is_whitespace (rev s) c Hc).
Qed.

(** Parameters for which the confidence of a record is always valid. *)
Record direct_valid (d : DirectFuser) : Prop := {
  dv_baseline : in_unit (df_confidence_baseline d) = true;
  dv_per_signal : nonneg (df_confidence_per_signal d);
  dv_finite : is_finite (df_confidence_per_signal d) = true;
}.

(** A batch that gets a record. *)
Definition reported (include_unreachable : bool) (outcomes : list ProbeOutcome) : Prop :=
  outcomes ≠ [] ∧ (existsb po_reachable outcomes = true ∨ include_unreachable = true).

Section direct.
Context `{UnicodeCase, F64Display, ForeignErrors}.

(** What the record of a batch holds. *)
Record fused (d : DirectFuser) (outcomes : list ProbeOutcome) (r : DeviceRecord) : Prop := {
  fu_wf : record_wf r;
  fu_mgmt_ip : dr_mgmt_ip r = po_target_ip <$> head outcomes;
  fu_mac : dr_mac r = find_mac (mjoin (po_signals <$> outcomes));
  fu_identity : dr_identity_key r = str_to_lowercase (trim
    (match dr_mac r with
     | Some m => s! "mac:" ++ m
     | None => s! "ip:" ++ from_option ip_display [] (dr_mgmt_ip r) end));
  fu_signals s : s ∈ dr_signals r ↔ ∃ o, o ∈ outcomes ∧ s ∈ po_signals o;
  fu_kinds k : k ∈ dr_probe_kinds r ↔ ∃ o, o ∈ outcomes ∧ po_reachable o = true ∧ po_kind o = k;
  fu_confidence : dr_confidence r = f64_min (f64_add (df_confidence_baseline d)
    (f64_mul (f64_of_Z (Z.of_nat (length (dr_signals r)))) (df_confidence_per_signal d))) f64_one;
  fu_last_seen : ∃ o, o ∈ outcomes ∧ dr_last_seen r = po_timestamp o;
  fu_last_seen_max o : o ∈ outcomes → po_timestamp o ≤ dr_last_seen r;
  fu_alt_ips : dr_alt_ips r = [];
}.

Lemma max_time_spec t l :
  let r := foldl Z.max t l in (∀ x, x ∈ t :: l → x ≤ r) ∧ r ∈ t :: l.
Proof using Type.
  revert t. induction l as [|y l IH]; intros t; cbn [foldl].
  { split; [by intros x ->%list_elem_of_singleton|by left]. }
  destruct (IH (Z.max t y)) as [Hmax Hin]. split.
  - intros x [->|[->|Hx]%elem_of_cons]%elem_of_cons.
    + etrans; [|apply (Hmax (Z.max t y)); by left]. lia.
    + etrans; [|apply (Hmax (Z.max t y)); by left]. lia.
    + apply Hmax. by right.
  - apply elem_of_cons in Hin as [->|Hin]; [|by right; right].
    destruct (Z.max_spec t y) as [[_ ->]|[_ ->]]; [right; by left|by left].
Qed.

Lemma kinds_fold_elem outcomes acc k :
  k ∈ foldl (λ acc o, if po_reachable o then push_new acc (po_kind o) else acc) acc outcomes ↔
  k ∈ acc ∨ ∃ o, o ∈ outcomes ∧ po_reachable o = true ∧ po_kind o = k.
Proof using Type.
  revert acc. induction outcomes as [|o outcomes IH]; intros acc; cbn [foldl].
  { split; [by left|]. intros [?|(o & Ho & _)]; [done|by apply elem_of_nil in Ho]. }
  rewrite IH. setoid_rewrite elem_of_cons.
  assert (k ∈ (if po_reachable o then push_new acc (po_kind o) else acc) ↔
    k ∈ acc ∨ (po_reachable o = true ∧ po_kind o = k)) as ->.
  { destruct (po_reachable o); [rewrite push_new_elem|]; intuition congruence. }
  split.
  - intros [[?|?]|(o' & ? & ?)]; [by left|right; by exists o; auto|right; exists o'; auto].
  - intros [?|(o' & [->|?] & ?)]; [by left; left|by left; right|right; by exists o'].
Qed.

Lemma kinds_fold_NoDup outcomes acc :
  NoDup acc →
  NoDup (foldl (λ acc o, if po_reachable o then push_new acc (po_kind o) else acc) acc outcomes).
Proof using Type.
  revert acc. induction outcomes as [|o outcomes IH]; intros acc Hnd; [done|]. cbn [foldl].
  apply IH. destruct (po_reachable o); [by apply push_new_NoDup|done].
Qed.

Lemma confidence_unit d n :
  direct_valid d → 0 ≤ n →
  in_unit (f64_min (f64_add (df_confidence_baseline d)
    (f64_mul (f64_of_Z n) (df_confidence_per_signal d))) f64_one) = true.
Proof using Type.
  intros [Hb Hp Hf] Hn. apply f64_min_unit_nan.
  destruct (f64_mul_nan_or_nonneg (f64_of_Z n) (df_confidence_per_signal d)) as [Hm|Hm];
    [by apply f64_of_Z_nonneg|done|left; by apply f64_add_nan|right].
  apply f64_add_nonneg; [by apply in_unit_nonneg|done].
Qed.

Lemma fuse_one_spec d outcomes :
  direct_valid d →
  (¬ reported (df_include_unreachable d) outcomes ∧ fuse_one d outcomes = Ok None) ∨
  (reported (df_include_unreachable d) outcomes ∧
   ∃ r, fuse_one d outcomes = Ok (Some r) ∧ fused d outcomes r).
Proof using Type.
  intros Hd. unfold reported, fuse_one. destruct outcomes as [|first outcomes]; [left; naive_solver|].
  set (all := first :: outcomes).
  destruct (negb (existsb po_reachable all) && negb (df_include_unreachable d)) eqn:E.
  { left. split; [|done]. apply andb_true_iff in E as [E1%negb_true_iff E2%negb_true_iff].
    rewrite E1, E2. naive_solver. }
  right. split.
  { split; [done|]. apply andb_false_iff in E as [E|E]; apply negb_false_iff in E; auto. }
  set (mac := find_mac _). set (value := match mac with Some _ => _ | None => _ end).
  assert (identity_key_new value = Ok (str_to_lowercase (trim value))) as ->.
  { unfold identity_key_new.
    assert (trim value ≠ []) as Hne by (subst value; destruct mac; by apply trim_nonempty).
    by destruct (trim value). }
  cbn [map_err mbind Result_bind].
  rewrite confidence_new_Ok by (apply confidence_unit; [done|lia]).
  cbn [map_err mbind Result_bind]. eexists. split; [done|].
  destruct (max_time_spec (po_timestamp first) (po_timestamp <$> outcomes)) as [Hmax Hin].
  split; cbn [dr_signals dr_probe_kinds dr_last_seen dr_identity_key dr_mgmt_ip dr_mac dr_confidence
    dr_alt_ips]; try done.
  - split; [by apply confidence_unit; [|lia]|apply dedup_join_NoDup|apply kinds_fold_NoDup, NoDup_nil_2].
  - intros s. apply (dedup_join_elem po_signals).
  - intros k. rewrite kinds_fold_elem, elem_of_nil. tauto.
  - apply (list_elem_of_fmap po_timestamp all) in Hin as (o & ? & ?). eauto.
  - intros o Ho. apply Hmax. by apply (list_elem_of_fmap_2 po_timestamp all).
Qed.
End direct.

(** ** Fusers built from a configuration *)

Fixpoint config_include (config : FuserConfig) : bool :=
  match config with
  | CDirect include_unreachable _ _ => default DEFAULT_INCLUDE_UNREACHABLE include_unreachable
  | CMibEnrichment _ inner | CIdentity _ inner => config_include inner
  end.

(** The records [out] account for the batches: each reported batch is in one of
    them with all it observed, and no record names an address nobody probed. *)
Record accounts (include : bool) (batches : list (list ProbeOutcome)) (out : list DeviceRecord)
    : Prop := {
  ac_wf : Forall record_wf out;
  ac_reported first rest : first :: rest ∈ batches → reported include (first :: rest) →
    ∃ r, r ∈ out ∧ po_target_ip first ∈ device_addresses r ∧
      ∀ o, o ∈ first :: rest →
        (∀ s, s ∈ po_signals o → s ∈ dr_signals r) ∧
        (po_reachable o = true → po_kind o ∈ dr_probe_kinds r);
  ac_origin r ip : r ∈ out → ip ∈ device_addresses r →
    ∃ first rest, first :: rest ∈ batches ∧ reported include (first :: rest) ∧ po_target_ip first = ip;
}.

Section configured.
Context `{UnicodeCase, FD : F64Display, FE : ForeignErrors, MibSource, HO : HashOrder}.

Lemma default_parameters :
  in_unit DEFAULT_CONFIDENCE_BASELINE = true ∧ nonneg DEFAULT_CONFIDENCE_PER_SIGNAL ∧
  is_finite DEFAULT_CONFIDENCE_PER_SIGNAL = true.
Proof using Type. by vm_compute. Qed.

Lemma create_direct_valid a b c f :
  create_fuser (CDirect a b c) = Ok f →
  ∃ d, f = FDirect d ∧ direct_valid d ∧ df_include_unreachable d = config_include (CDirect a b c).
Proof using Type.
  cbn [create_fuser validate]. intros E. inv_ok. subst f.
  eexists. split; [done|].
  assert (∀ v, b = Some v → in_unit v = true) as Hb.
  { intros v ->. unfold check_baseline, in_unit in *.
    destruct (is_finite v), (f64_in f64_zero f64_one v); done. }
  assert (∀ v, c = Some v → nonneg v ∧ is_finite v = true) as Hc.
  { intros v ->. unfold check_per_signal in *.
    destruct (is_finite v) eqn:Ef; [|done].
    destruct (f64_lt v f64_zero) eqn:El; [done|]. split; [|done].
    destruct v as [[]|[]| |[] ? ?]; done. }
  split.
  - destruct default_parameters as (D1 & D2 & D3).
    split.
    + destruct a, c, b as [vb|]; first [exact (Hb _ eq_refl)|exact D1].
    + destruct a, b, c as [vc|]; first [exact (proj1 (Hc _ eq_refl))|exact D2].
    + destruct a, b, c as [vc|]; first [exact (proj2 (Hc _ eq_refl))|exact D3].
  - by destruct a, b, c.
Qed.

Lemma fused_list d batches :
  direct_valid d →
  ∃ rs, mapM (fuse_one d) batches = Ok rs ∧
    Forall2 (λ batch o, match o with
      | Some r => reported (df_include_unreachable d) batch ∧ fused d batch r
      | None => ¬ reported (df_include_unreachable d) batch end) batches rs.
Proof using Type.
  intros Hd. induction batches as [|b batches (rs & E & Hrs)]; [by exists []|].
  destruct (fuse_one_spec d b Hd) as [[Hn Eb]|[Hr (r & Eb & Hf)]].
  - exists (None :: rs). simpl. rewrite Eb. simpl. rewrite E. split; [done|by constructor].
  - exists (Some r :: rs). simpl. rewrite Eb. simpl. rewrite E. split; [done|by constructor].
Qed.

Lemma direct_accounts d batches :
  direct_valid d →
  ∃ out, drive (FDirect d) batches = Some (Ok out) ∧
    accounts (df_include_unreachable d) batches out ∧
    Forall (λ r, dr_alt_ips r = []) out ∧ (length out ≤ length batches)%nat.
Proof using Type.
  intros Hd. destruct (fused_list d batches Hd) as (rs & E & Hrs).
  exists (omap id rs). rewrite drive_direct, E. split; [done|].
  assert (∀ r, r ∈ omap id rs → ∃ b, b ∈ batches ∧ reported (df_include_unreachable d) b ∧ fused d b r) as Hfrom.
  { intros r (o & Ho & Eo)%list_elem_of_omap. unfold id in Eo. subst o.
    apply list_elem_of_lookup in Ho as [k Hk].
    destruct (Forall2_lookup_r _ _ _ _ _ Hrs Hk) as (b & Hb & ? & ?).
    exists b. split; [by eapply list_elem_of_lookup_2|done]. }
  split_and!.
  - split.
    + apply Forall_forall. intros r (b & _ & _ & Hf)%Hfrom. apply Hf.
    + intros first rest Hin Hrep. apply list_elem_of_lookup in Hin as [k Hk].
      destruct (Forall2_lookup_l _ _ _ _ _ Hrs Hk) as ([r|] & Hr & Hf); [|done].
      destruct Hf as [_ Hf]. exists r. split_and!.
      * apply list_elem_of_omap. exists (Some r). split; [by eapply list_elem_of_lookup_2|done].
      * unfold device_addresses. rewrite (fu_mgmt_ip _ _ _ Hf). simpl. by left.
      * intros o Ho. split; [intros s Hs; apply (fu_signals _ _ _ Hf); eauto|].
        intros Hre. apply (fu_kinds _ _ _ Hf). eauto.
    + intros r ip (b & Hb & Hrep & Hf)%Hfrom Hip. destruct b as [|first rest]; [by destruct Hrep|].
      exists first, rest. split_and!; [done|done|]. unfold device_addresses in Hip.
      rewrite (fu_mgmt_ip _ _ _ Hf), (fu_alt_ips _ _ _ Hf) in Hip. simpl in Hip.
      by apply list_elem_of_singleton in Hip as ->.
  - apply Forall_forall. intros r (b & _ & _ & Hf)%Hfrom. apply Hf.
  - rewrite (Forall2_length _ _ _ Hrs). apply length_omap.
Qed.

(** Enrichment touches the hardware fields only. *)
Lemma enrich_keeps table r :
  dr_signals (enrich table r) = dr_signals r ∧ dr_probe_kinds (enrich table r) = dr_probe_kinds r ∧
  device_addresses (enrich table r) = device_addresses r ∧ dr_alt_ips (enrich table r) = dr_alt_ips r ∧
  (record_wf r → record_wf (enrich table r)).
Proof using Type.
  unfold enrich. destruct (find_sys_object_id _); [|done]. destruct (mib_lookup _ _); [|done].
  split_and!; try done. intros [? ? ?]. by split.
Qed.

Lemma enrich_accounts include batches out table :
  accounts include batches out → accounts include batches (map (enrich table) out).
Proof using Type.
  intros [Hwf Hrep Horg]. split.
  - apply Forall_fmap. eapply Forall_impl; [done|]. intros r Hr. simpl.
    by apply (enrich_keeps table r).
  - intros first rest Hin Hr. destruct (Hrep first rest Hin Hr) as (r & Hr' & Ha & Ho).
    destruct (enrich_keeps table r) as (Es & Ek & Ed & _).
    exists (enrich table r). rewrite Es, Ek, Ed. split_and!; [|done|done].
    by apply (list_elem_of_fmap_2 (enrich table)).
  - intros r' ip (r & -> & Hr)%(list_elem_of_fmap (enrich table)).
    destruct (enrich_keeps table r) as (_ & _ & -> & _). by apply Horg.
Qed.
End configured.

(** ** The theorems *)

Section theorems.
Context `{UC : UnicodeCase, FD : F64Display, FE : ForeignErrors, MS : MibSource, HO : HashOrder}.

(** [fuse_one] on every batch, for parameters that pass validation: a batch
    with no outcome, or with no reachable one unless unreachable targets are
    included, gives no record; any other gives one, never an error, with the
    batch's address, first MAC and identity, its signals once each, the kinds
    that answered, the latest timestamp and a confidence in the unit interval. *)
Theorem fuse_one_total d outcomes :
  direct_valid d →
  if decide (outcomes = [] ∨ (existsb po_reachable outcomes = false ∧ df_include_unreachable d = false))
  then fuse_one d outcomes = Ok None
  else ∃ r, fuse_one d outcomes = Ok (Some r) ∧ fused d outcomes r.
Proof using Type.
  intros Hd. destruct (fuse_one_spec d outcomes Hd) as [[Hn E]|[Hr Hf]]; case_decide as Hc; try done.
  - exfalso. apply Hn. split; [by intros ->; apply Hc; left|].
    destruct (existsb po_reachable outcomes) eqn:E1; [by left|].
    destruct (df_include_unreachable d) eqn:E2; [by right|]. exfalso. apply Hc. by right.
  - exfalso. destruct Hr as [Hne Hr], Hc as [->|[E1 E2]]; [done|]. rewrite E1, E2 in Hr. naive_solver.
Qed.

Lemma plain_accounts config f batches :
  subtree_contains_identity config = false → create_fuser config = Ok f →
  ∃ out, drive f batches = Some (Ok out) ∧ accounts (config_include config) batches out ∧
    Forall (λ r, dr_alt_ips r = []) out ∧ (length out ≤ length batches)%nat.
Proof using Type.
  revert f. induction config as [a b c|path inner IH|hints inner IH]; intros f Hi E; [| |done].
  - apply create_direct_valid in E as (d & -> & Hd & <-). by apply direct_accounts.
  - cbn [create_fuser] in E. inv_ok. subst f.
    destruct (IH x0) as (out & Ed & Ha & Halt & Hl); [done|done|].
    exists (map (enrich x1) out). rewrite drive_mib, Ed. split_and!; [done|by apply enrich_accounts| |].
    + apply Forall_fmap. eapply Forall_impl; [done|]. intros r Hr. simpl.
      destruct (enrich_keeps x1 r) as (_ & _ & _ & -> & _). done.
    + by rewrite length_map.
Qed.

Lemma correlated_accounts {HL : HashOrderLaws HO} include batches hints records :
  accounts include batches records → Forall (λ r, dr_alt_ips r = []) records →
  Z.of_nat (length records) ≤ USIZE_MAX →
  ∃ out, correlate hints records = Some out ∧ accounts include batches out.
Proof using Type.
  intros Ha Halt Hn.
  destruct (correlate_components HO hints records HL) as (groups & out & E & HP & _ & Hout).
  { split; [done|apply Ha]. }
  { done. }
  exists out. split; [done|]. split.
  - apply Forall_forall. intros r [k Hk]%list_elem_of_lookup.
    destruct (Forall2_lookup_r _ _ _ _ _ Hout Hk) as (g & _ & Hs). apply Hs.
  - intros first rest Hin Hrep.
    destruct (ac_reported _ _ _ Ha first rest Hin Hrep) as (r & Hr & Haddr & Hobs).
    apply list_elem_of_lookup in Hr as [i Hi].
    assert (i ∈ mjoin groups) as Hg.
    { rewrite HP. apply elem_of_seq. apply lookup_lt_Some in Hi. lia. }
    apply list_elem_of_join in Hg as (g & Hig & Hgin).
    apply list_elem_of_lookup in Hgin as [k Hk].
    destruct (Forall2_lookup_l _ _ _ _ _ Hout Hk) as (r' & Hr' & Hs).
    assert (r ∈ members records g) as Hm by (apply list_elem_of_omap; eauto).
    exists r'. split_and!; [by eapply list_elem_of_lookup_2| |].
    + apply (sf_addresses _ _ Hs). exists r. split; [done|]. unfold device_addresses in Haddr.
      pose proof (Forall_lookup_1 _ _ _ _ Halt Hi) as Hnone. simpl in Hnone.
      rewrite Hnone, app_nil_r in Haddr. destruct (dr_mgmt_ip r); simpl in Haddr.
      * by apply list_elem_of_singleton in Haddr as ->.
      * by apply elem_of_nil in Haddr.
    + intros o Ho. destruct (Hobs o Ho) as [Hsig Hkind]. split.
      * intros s Hs'. apply (sf_signals _ _ Hs). eauto.
      * intros Hre. apply (sf_kinds _ _ Hs). eauto.
  - intros r ip [k Hk]%list_elem_of_lookup Hip.
    destruct (Forall2_lookup_r _ _ _ _ _ Hout Hk) as (g & _ & Hs).
    destruct (proj1 (sf_addresses _ _ Hs ip) Hip) as (m & Hin & Hmgmt).
    apply list_elem_of_omap in Hin as (i & _ & Hm).
    apply (ac_origin _ _ _ Ha m ip); [by eapply list_elem_of_lookup_2|].
    unfold device_addresses. rewrite Hmgmt. by left.
Qed.

(** C5. Any fuser [create_fuser] accepts, fed a scan of at most [usize::MAX]
    batches, finishes without an error or a panic, and its records account for
    the scan: every record is well-formed, every reported target is in one
    record together with everything its probes observed, and every address in a
    record was probed. *)
Theorem configured_fuser_accounts config f batches :
  HashOrderLaws HO → create_fuser config = Ok f → Z.of_nat (length batches) ≤ USIZE_MAX →
  ∃ out, drive f batches = Some (Ok out) ∧ accounts (config_include config) batches out.
Proof using Type.
  intros HL E Hn. destruct (subtree_contains_identity config) eqn:Hi.
  2: { destruct (plain_accounts config f batches Hi E) as (out & ? & ? & _). eauto. }
  revert f E. induction config as [a b c|path inner IH|hints inner IH]; intros f E; [done| |].
  - exfalso. cbn [create_fuser validate] in E. inv_ok.
    unfold reject_nested_identity in *. simpl in Hi. by rewrite Hi in *.
  - cbn [create_fuser validate] in E. unfold identity_fuser_new in E. inv_ok. subst f.
    assert (subtree_contains_identity inner = false) as Hi'.
    { unfold reject_nested_identity in *. by destruct (subtree_contains_identity inner). }
    destruct (plain_accounts inner x0 batches Hi') as (out & Ed & Ha & Halt & Hl); [done|].
    destruct (correlated_accounts (config_include inner) batches hints out Ha Halt)
      as (out' & Ec & Ha'); [lia|].
    exists out'. rewrite drive_identity, Ed. cbn [mbind option_bind]. rewrite Ec. done.
Qed.
End theorems.

(** * Fuser selection and MIB tables

    Naming fusers always yields the one nesting that validates; a MIB table
    holds the last row of each identifier, an overlay winning over the bundled
    table, and enrichment fills empty fields only. *)

(** ** Selection *)

#[local] Instance rank_le_total : Total rank_le.
Proof. intros a b. unfold rank_le. lia. Qed.

#[local] Instance rank_le_trans : Transitive rank_le.
Proof. intros a b c. unfold rank_le. lia. Qed.

#[local] Instance rank_le_antisymm : AntiSymm (=) rank_le.
Proof. intros [] []; unfold rank_le; simpl; intros; done || lia. Qed.

(** The kinds of a selection, innermost first. *)
Definition ordered_kinds (kinds : list FuserKind) : list FuserKind :=
  filter (λ k, k ∈ kinds) fuser_kind_all.

Lemma sort_dedup_kinds kinds : merge_sort rank_le (dedup kinds) = ordered_kinds kinds.
Proof.
  apply (StronglySorted_unique rank_le).
  - apply (StronglySorted_merge_sort rank_le).
  - unfold ordered_kinds. cbn [filter list_filter fuser_kind_all].
    repeat case_decide; repeat constructor; done.
  - trans (dedup kinds); [apply (merge_sort_Permutation rank_le)|].
    apply NoDup_Permutation; [apply dedup_NoDup| |].
    + apply NoDup_filter. repeat constructor; set_solver.
    + intros k. rewrite dedup_elem. unfold ordered_kinds. rewrite list_elem_of_filter.
      split; [|by intros []]. intros Hk. split; [done|]. destruct k; set_solver.
Qed.

Section selection.
Context `{FD : F64Display, FE : ForeignErrors, FT : Features}.

(** The nesting a selection stands for. *)
Definition nest (kinds : list FuserKind) (base : FuserConfig) : FuserConfig :=
  let c := if decide (KMibEnrichment ∈ kinds) then CMibEnrichment None base else base in
  if decide (KIdentity ∈ kinds) then CIdentity identity_hints_default c else c.

Lemma validate_nest kinds a b c : validate (nest kinds (CDirect a b c)) = validate (CDirect a b c).
Proof using Type.
  unfold nest. repeat case_decide; cbn [validate reject_nested_identity subtree_contains_identity
    mbind Result_bind check_vrrp_groups identity_hints_default ih_vrrp_groups]; try done;
  by destruct (check_baseline b) as [[]|]; cbn; try destruct (check_per_signal c) as [[]|].
Qed.

(** A selection expands to the nesting base, enrichment, identity from the
    inside out, whatever the order and repetition of the names; it fails only
    when it names a fuser the build lacks, and the result validates exactly when
    the base parameters do. *)
Theorem expand_fuser_selection_nests kinds options :
  expand_fuser_selection kinds options =
    (if decide (KMibEnrichment ∈ kinds ∧ feature_mib_enrichment = false)
     then Err (not_compiled KMibEnrichment)
     else Ok (nest kinds (base_config options))) ∧
  validate (nest kinds (base_config options)) = validate (base_config options).
Proof using Type.
  split; [|apply validate_nest].
  unfold expand_fuser_selection. rewrite sort_dedup_kinds. unfold ordered_kinds, nest.
  cbn [filter list_filter fuser_kind_all].
  destruct feature_mib_enrichment eqn:Ef;
    repeat case_decide; cbn [compose_all compose mbind Result_bind]; rewrite ?Ef; try done; naive_solver.
Qed.

(** A list of names parses to its first occurrences in order, and the first
    name that is no label is the one reported. *)
Theorem parse_fuser_selection_spec values :
  match mapM (λ v, fuser_kind_from_label (trim v)) values with
  | Some kinds => parse_fuser_selection values = Ok (dedup kinds)
  | None => ∃ l1 v l2, values = l1 ++ v :: l2 ∧ fuser_kind_from_label (trim v) = None ∧
      Forall (λ w, is_Some (fuser_kind_from_label (trim w))) l1 ∧
      parse_fuser_selection values = Err (unknown_fuser_kind (trim v))
  end.
Proof using Type.
  unfold parse_fuser_selection, dedup. generalize (@nil FuserKind) as acc.
  induction values as [|v values IH]; intros acc; [done|]. cbn [mapM parse_fuser_selection_from].
  destruct (fuser_kind_from_label (trim v)) as [k|] eqn:Ek; cbn [mbind option_bind].
  - specialize (IH (push_new acc k)). destruct (mapM _ values) as [ks|]; cbn [mbind option_bind]; [done|].
    destruct IH as (l1 & w & l2 & -> & Hw & Hl & E). exists (v :: l1), w, l2.
    split_and!; [done|done|constructor; eauto|done].
  - exists [], v, values. split_and!; [done|done|constructor|done].
Qed.
End selection.

(** ** Trimmed text *)

Lemma drop_while_head {A} (p : A → bool) l x l' : drop_while p l = x :: l' → p x = false.
Proof. induction l as [|y l IH]; simpl; [done|]. destruct (p y) eqn:E; [done|]. by intros [= <- <-]. Qed.

Lemma drop_while_nil {A} (p : A → bool) l : drop_while p l = [] → Forall (λ x, p x = true) l.
Proof. induction l as [|y l IH]; simpl; [done|]. destruct (p y) eqn:E; [|done]. by constructor; auto. Qed.

Lemma trim_last s q x : trim s = q ++ [x] → is_whitespace x = false.
Proof.
  unfold trim. intros E. apply (f_equal (@rev _)) in E.
  rewrite rev_involutive, rev_app_distr in E. by apply drop_while_head in E.
Qed.

Lemma trim_nil p : trim p = [] → Forall (λ x, is_whitespace x = true) p.
Proof.
  unfold trim. intros E. apply (f_equal (@rev _)) in E. rewrite rev_involutive in E. simpl in E.
  apply drop_while_nil in E. destruct (drop_while is_whitespace p) as [|x d] eqn:Ed.
  { by apply drop_while_nil. }
  apply drop_while_head in Ed. rewrite Forall_forall in E.
  rewrite (E x) in Ed; [done|]. apply list_elem_of_In, in_rev. rewrite rev_involutive. by left.
Qed.

(** The last piece of a trimmed line is not blank. *)
Lemma trimmed_last_piece c raw ps p :
  is_whitespace c = true → trim raw ≠ [] → split_on c (trim raw) = ps ++ [p] → trim p ≠ [].
Proof.
  intros Hc Hne E Hp. apply trim_nil in Hp.
  assert (∃ q, trim raw = q ++ p ∧ (q = [] ∨ ∃ q', q = q' ++ [c])) as (q & Eq & Hq).
  { rewrite <-(join_split_on c (trim raw)), E. destruct ps as [|y ps]; [by exists []; auto|].
    rewrite join_snoc by done. exists (join [c] (y :: ps) ++ [c]).
    rewrite <-(assoc_L (++)). eauto. }
  destruct p as [|x p _] using rev_ind.
  - rewrite app_nil_r in Eq. destruct Hq as [->|(q' & ->)]; [done|].
    apply trim_last in Eq. congruence.
  - rewrite (assoc_L (++)) in Eq. apply trim_last in Eq.
    apply Forall_app in Hp as [_ Hp]. apply Forall_cons in Hp as [Hp _]. congruence.
Qed.

(** ** MIB tables *)

(** The rows of a file, the lines it skips and rejects left out. *)
Definition mib_rows (lines : list (Result Str Str)) : list (Str * MibEntry) :=
  omap (λ raw, match raw with
               | Ok s => match parse_mib_line 1 s with Ok row => row | Err _ => None end
               | Err _ => None
               end) lines.

Lemma parse_mib_line_no n m raw row : parse_mib_line n raw = Ok row → parse_mib_line m raw = Ok row.
Proof.
  unfold parse_mib_line. destruct (_ || _); [done|].
  destruct (split_on 9 (trim raw)) as [|? [|? [|? [|? []]]]]; try done.
  destruct (negb _); [done|]. by destruct (_ && _).
Qed.

Lemma parse_mib_from_rows n lines entries table :
  parse_mib_from n lines entries = Ok table →
  table = foldl (λ m row, <[row.1 := row.2]> m) entries (mib_rows lines).
Proof.
  revert n entries. induction lines as [|raw lines IH]; intros n entries E; cbn [parse_mib_from] in E.
  { by injection E as <-. }
  inv_ok. subst. apply (parse_mib_line_no n 1) in H0. unfold mib_rows. cbn [omap list_omap].
  rewrite H0. apply IH in H1. destruct x0 as [[oid e]|]; done.
Qed.

Lemma foldl_insert_last (rows : list (Str * MibEntry)) (m : MibTable) oid :
  foldl (λ m row, <[row.1 := row.2]> m) m rows !! oid =
  match last (filter (λ row, row.1 = oid) rows) with Some row => Some row.2 | None => m !! oid end.
Proof.
  revert m. induction rows as [|[k e] rows IH]; intros m; [done|]. cbn [foldl fst snd].
  rewrite IH, filter_cons. cbn [fst]. case_decide as Hk.
  - subst k. rewrite last_cons. destruct (last (filter _ rows)); [done|]. by rewrite lookup_insert_eq.
  - destruct (last (filter _ rows)); [done|]. by rewrite lookup_insert_ne.
Qed.

(** A table that loads holds, for each identifier, the entry of its last
    row; loading a file over the bundled table, the file's entries win and the
    other bundled ones stay. *)
Theorem mib_table_lookup `{ForeignErrors, MibSource} path table oid :
  from_path path = Ok table →
  ∃ file overlay bundled, open_lines path = Ok file ∧
    parse_mib file = Ok overlay ∧ parse_mib bundled_lines = Ok bundled ∧
    overlay !! oid = snd <$> last (filter (λ row, row.1 = oid) (mib_rows file)) ∧
    mib_lookup table oid =
      match overlay !! oid with Some e => Some e | None => mib_lookup bundled oid end.
Proof.
  unfold from_path, from_bundled. intros E. inv_ok. subst table.
  exists x0, x1, x. split_and!; [done|done|done| |].
  - rewrite (parse_mib_from_rows _ _ _ _ H3), foldl_insert_last, lookup_empty.
    by destruct (last _).
  - unfold mib_lookup. rewrite lookup_union. by destruct (x1 !! oid), (x !! oid).
Qed.

(** The line is trimmed before it is split, so the product family, its last
    column, is never blank in an accepted row: a row that leaves it empty has
    lost its last tab and is rejected for its column count. *)
Theorem mib_product_family_required line_no raw oid entry :
  parse_mib_line line_no raw = Ok (Some (oid, entry)) → is_Some (me_product_family entry).
Proof.
  unfold parse_mib_line. destruct (is_empty (trim raw)) eqn:Ee; [done|]. cbn [orb].
  destruct (bool_decide _); [done|].
  destruct (split_on 9 (trim raw)) as [|c0 [|c1 [|c2 [|c3 []]]]] eqn:Es; try done.
  destruct (negb _); [done|]. destruct (_ && _); [done|]. intros [= _ <-]. simpl.
  pose proof (trimmed_last_piece 9 raw [c0; c1; c2] c3 eq_refl) as Hp.
  unfold then_some. destruct (trim c3); [|done]. exfalso. apply Hp; [|done|done].
  intros E. by rewrite E in Ee.
Qed.

(** Enrichment never overwrites: a field that has a value keeps it, so of
    two stacked tables the inner one wins and the outer one fills the rest. *)
Theorem enrich_fills_only inner outer r oid e1 e2 :
  find_sys_object_id (dr_signals r) = Some oid →
  mib_lookup inner oid = Some e1 → mib_lookup outer oid = Some e2 →
  let out := enrich outer (enrich inner r) in
  let first := λ a b c : option Str, match a with Some _ => a | None =>
                 match b with Some _ => b | None => c end end in
  dr_manufacturer out = first (dr_manufacturer r) (me_manufacturer e1) (me_manufacturer e2) ∧
  dr_model out = first (dr_model r) (me_model e1) (me_model e2) ∧
  dr_product_family out = first (dr_product_family r) (me_product_family e1) (me_product_family e2) ∧
  enrich inner (enrich inner r) = enrich inner r.
Proof.
  intros Ho E1 E2. unfold enrich. rewrite Ho, E1. cbn [dr_signals set_hardware].
  rewrite Ho, E1, E2. cbn. unfold fill_if_empty.
  split_and!; try by destruct (dr_manufacturer r), (dr_model r), (dr_product_family r).
  by destruct r as [? ? ? [] [] [] ?], e1 as [[] [] []].
Qed.

(** ** Instances *)

Section instances.
#[local] Existing Instance ascii_case.
#[local] Existing Instance sample_errors.
#[local] Existing Instance reversed.
#[local] Instance no_display : F64Display := λ _, [].

(** A bundled table of one row and one overlay file of two rows for one
    identifier. *)
Definition mib_line (cols : list Str) : Result Str Str := Ok (join [9] cols).

#[local] Instance sample_mib : MibSource := {|
  bundled_lines := [Ok (s! "# seed"); mib_line [s! "1.3.6.1"; s! "Nokia"; []; s! "SR"]];
  open_lines _ := Ok [mib_line [s! "1.3.6.1"; s! "Acme"; s! "W1"; s! "Widget"];
                      mib_line [s! "1.3.6.1"; s! "Acme"; s! "W2"; s! "Widget"]];
|}.

Definition sample_outcome (ip : Z) (signals : list Signal) : ProbeOutcome := {|
  po_kind := Snmp; po_target_ip := V4 ip; po_timestamp := ip; po_reachable := true;
  po_signals := signals; po_fault := None; po_lldp := None; po_gnmi_endpoint := None |}.

Definition sample_batches : list (list ProbeOutcome) := [
  [sample_outcome 1 [SnmpSysObjectId (s! "1.3.6.1"); Mac (s! "AA:BB:CC:DD:EE:FF"); SnmpSysName (s! "R1")]];
  [];
  [sample_outcome 2 [SnmpSysName (s! "r1"); Mac (s! "aa-bb-cc-dd-ee-ff")]]].

Definition sample_config : FuserConfig :=
  CIdentity identity_hints_default (CMibEnrichment None (CDirect None None None)).

Lemma direct_fuser_new_valid : direct_valid direct_fuser_new.
Proof. split; by vm_compute. Qed.

Lemma fuse_one_total_witness :
  ∃ r, fuse_one direct_fuser_new (nth 0 sample_batches []) = Ok (Some r) ∧
    fused direct_fuser_new (nth 0 sample_batches []) r.
Proof.
  pose proof (fuse_one_total direct_fuser_new (nth 0 sample_batches []) direct_fuser_new_valid) as H.
  by rewrite decide_False in H by (intros [|[? ?]]; done).
Defined.

Lemma configured_fuser_accounts_witness :
  ∃ f out, create_fuser sample_config = Ok f ∧ drive f sample_batches = Some (Ok out) ∧
    accounts (config_include sample_config) sample_batches out.
Proof.
  destruct (is_ok_Ok (create_fuser sample_config)) as [f Hf]; [by vm_compute|].
  destruct (configured_fuser_accounts sample_config f sample_batches reversed_laws Hf) as (out & H).
  { by vm_compute. }
  by exists f, out.
Defined.

Lemma mib_table_lookup_witness :
  ∃ table file overlay bundled, from_path (s! "mib.tsv") = Ok table ∧
    open_lines (s! "mib.tsv") = Ok file ∧
    parse_mib file = Ok overlay ∧ parse_mib bundled_lines = Ok bundled ∧
    overlay !! (s! "1.3.6.1") = snd <$> last (filter (λ row, row.1 = s! "1.3.6.1") (mib_rows file)) ∧
    mib_lookup table (s! "1.3.6.1") =
      match overlay !! (s! "1.3.6.1") with Some e => Some e | None => mib_lookup bundled (s! "1.3.6.1") end.
Proof.
  destruct (is_ok_Ok (from_path (s! "mib.tsv"))) as [table Ht]; [by vm_compute|].
  destruct (mib_table_lookup (s! "mib.tsv") table (s! "1.3.6.1") Ht) as (file & overlay & bundled & Hl).
  by exists table, file, overlay, bundled.
Defined.

Lemma mib_product_family_required_witness :
  parse_mib_line 7 (join [9] [s! "1.3.6.1"; []; []; s! "linux"]) =
    Ok (Some (s! "1.3.6.1", mkMibEntry None None (Some (s! "linux")))) ∧
  is_Some (me_product_family (mkMibEntry None None (Some (s! "linux")))).
Proof.
  split; [by vm_compute|].
  apply (mib_product_family_required 7 (join [9] [s! "1.3.6.1"; []; []; s! "linux"]) (s! "1.3.6.1")).
  by vm_compute.
Defined.

Definition sample_target : DeviceRecord :=
  sample_record 1 None (s! "R1") (f64_ratio 1 10).

Definition sample_device : DeviceRecord :=
  {| dr_identity_key := dr_identity_key sample_target; dr_mgmt_ip := dr_mgmt_ip sample_target;
     dr_mac := None; dr_manufacturer := Some (s! "Arista"); dr_model := None;
     dr_product_family := None; dr_platform := None; dr_os_version := None; dr_ssh_version := None;
     dr_http_server := None; dr_http_version := None; dr_role := None;
     dr_confidence := f64_ratio 1 10; dr_last_seen := 1;
     dr_signals := [SnmpSysObjectId (s! "1.3.6.1")]; dr_probe_kinds := [Snmp];
     dr_schema_version := CURRENT_SCHEMA_VERSION; dr_schema_id := CURRENT_SCHEMA_ID;
     dr_alt_ips := []; dr_possible_alias_of := None; dr_scan_metadata := scan_metadata_default |}.

Definition sample_entry : MibEntry := mkMibEntry (Some (s! "Nokia")) None (Some (s! "SR")).

Lemma enrich_fills_only_witness :
  let out := enrich {[s! "1.3.6.1" := mkMibEntry None (Some (s! "IXR")) None]}
               (enrich {[s! "1.3.6.1" := sample_entry]} sample_device) in
  dr_manufacturer out = Some (s! "Arista") ∧ dr_model out = Some (s! "IXR") ∧
  dr_product_family out = Some (s! "SR").
Proof.
  destruct (enrich_fills_only {[s! "1.3.6.1" := sample_entry]}
    {[s! "1.3.6.1" := mkMibEntry None (Some (s! "IXR")) None]} sample_device (s! "1.3.6.1")
    sample_entry (mkMibEntry None (Some (s! "IXR")) None)) as (E1 & E2 & E3 & _);
    [done|by vm_compute|by vm_compute|].
  split_and!; [rewrite E1|rewrite E2|rewrite E3]; done.
Defined.

(** A row with a manufacturer and a model and an empty product family is
    refused. *)
Example mib_blank_family_refused :
  parse_mib_line 3 (join [9] [s! "1.3.6.1"; s! "Nokia"; s! "IXR"; []]) =
  Err (MibLine 3
    (s! "expected 4 tab-separated columns (sys_object_id, manufacturer, model, product_family), found 3")).
Proof. by vm_compute. Qed.

(** A record may name as its possible alias a record that was merged away: the
    alias is looked up among the records before merging. *)
Definition aliased_records : list DeviceRecord :=
  let host r k := {| dr_identity_key := dr_identity_key r; dr_mgmt_ip := dr_mgmt_ip r;
     dr_mac := None; dr_manufacturer := None; dr_model := None;
     dr_product_family := None; dr_platform := None; dr_os_version := None; dr_ssh_version := None;
     dr_http_server := None; dr_http_version := None; dr_role := None;
     dr_confidence := dr_confidence r; dr_last_seen := 1;
     dr_signals := SshHostKey k :: dr_signals r; dr_probe_kinds := [Ssh];
     dr_schema_version := CURRENT_SCHEMA_VERSION; dr_schema_id := CURRENT_SCHEMA_ID;
     dr_alt_ips := []; dr_possible_alias_of := None; dr_scan_metadata := scan_metadata_default |} in
  [host (sample_record 1 None (s! "core") (f64_ratio 9 10)) (s! "key");
   host (sample_record 2 None (s! "edge") (f64_ratio 1 10)) (s! "key");
   sample_record 3 None (s! "edge") (f64_ratio 1 10)].

Example possible_alias_can_dangle :
  (λ out : list DeviceRecord, (map dr_identity_key out, map dr_possible_alias_of out)) <$>
    correlate identity_hints_default aliased_records =
  Some ([s! "ip:0.0.0.1"; s! "ip:0.0.0.3"], [None; Some (s! "ip:0.0.0.2")]).
Proof. by vm_compute. Qed.
End instances.
