(* ===== verification/Topology.v ===== *)
(** * Topology assembly: [src/rastreo-core/src/topology/mod.rs]

    Neighbour observations are collapsed into one link per unordered pair of
    chassis, and the endpoints are correlated with the devices of the scan. A
    failed [expect] is [None]. *)

From S2P Require Import Prelude Net F64 Model FuserCore UnionFind Identity.

Definition CHASSIS_SUBTYPE_MAC : Z := 4.
Definition CHASSIS_SUBTYPE_NETWORK_ADDRESS : Z := 5.

(** [HashMap::entry(k).or_insert_with(v)]: the first value stays. *)
Definition or_insert {K V} `{Countable K} (m : gmap K V) (k : K) (v : V) : gmap K V :=
  match m !! k with Some _ => m | None => <[k := v]> m end.

(** The order of [String]s. *)
Fixpoint str_leb (a b : Str) : bool :=
  match a, b with
  | [], _ => true
  | _ :: _, [] => false
  | x :: a', y :: b' => if x <? y then true else if y <? x then false else str_leb a' b'
  end.

Record DeviceObservation : Type := mkDeviceObservation {
  do_local_ip : IpAddr;
  do_local_chassis_id : Str;
  do_local_chassis_subtype : Z;
  do_observed_at : SystemTime;
  do_discovered_via : Str;
  do_neighbors : list LldpNeighbor;
}.

Record TopologyAssembler : Type := mkTopologyAssembler {
  ta_scan_metadata : ScanMetadata;
  ta_observations : list DeviceObservation;
  ta_mac_index : gmap Str Str;
  ta_sys_name_index : gmap Str Str;
  ta_addr_index : gmap IpAddr Str;
}.

Record EndpointInfo : Type := mkEndpointInfo {
  ei_chassis_id : Str;
  ei_subtype : Z;
  ei_port : option Str;
  ei_port_authoritative : bool;
  ei_sys_name : option Str;
}.

Record EndpointObservation : Type := mkEndpointObservation {
  eo_chassis_norm : Str;
  eo_chassis_id : Str;
  eo_subtype : Z;
  eo_port : option Str;
  eo_port_authoritative : bool;
  eo_sys_name : option Str;
}.

Record Edge : Type := mkEdge {
  e_observed_at : SystemTime;
  e_sources : gset Str;
  e_endpoints : gmap Str EndpointInfo;
}.

(** [TopologyAssembler::new]. *)
Definition topology_new (m : ScanMetadata) : TopologyAssembler :=
  mkTopologyAssembler m [] ∅ ∅ ∅.

(** [observe_outcomes]. *)
Definition observe_outcome (t : TopologyAssembler) (o : ProbeOutcome) : TopologyAssembler :=
  match po_lldp o with
  | None => t
  | Some lldp =>
      mkTopologyAssembler (ta_scan_metadata t)
        (ta_observations t ++ [mkDeviceObservation (po_target_ip o) (lo_local_chassis_id lldp)
           (lo_local_chassis_subtype lldp) (po_timestamp o) (lo_discovered_via lldp)
           (lo_neighbors lldp)])
        (ta_mac_index t) (ta_sys_name_index t) (ta_addr_index t)
  end.

Definition observe_outcomes (t : TopologyAssembler) (outcomes : list ProbeOutcome)
    : TopologyAssembler := foldl observe_outcome t outcomes.

(** [Edge::new]. *)
Definition edge_new (observed_at : SystemTime) : Edge := mkEdge observed_at ∅ ∅.

(** What [Edge::merge] does to the entry of the endpoint. *)
Definition merge_info (entry : EndpointInfo) (obs : EndpointObservation) : EndpointInfo :=
  let entry :=
    match eo_port obs with
    | None => entry
    | Some port =>
        let upgrade := eo_port_authoritative obs && negb (ei_port_authoritative entry) in
        if upgrade || bool_decide (ei_port entry = None) then
          mkEndpointInfo (ei_chassis_id entry) (ei_subtype entry) (Some port)
            (eo_port_authoritative obs) (ei_sys_name entry)
        else entry
    end in
  match ei_sys_name entry, eo_sys_name obs with
  | None, Some name =>
      mkEndpointInfo (ei_chassis_id entry) (ei_subtype entry) (ei_port entry)
        (ei_port_authoritative entry) (Some name)
  | _, _ => entry
  end.

(** [Edge::merge]. *)
Definition edge_merge (e : Edge) (obs : EndpointObservation) : Edge :=
  let entry := default (mkEndpointInfo (eo_chassis_id obs) (eo_subtype obs) None false None)
                 (e_endpoints e !! eo_chassis_norm obs) in
  mkEdge (e_observed_at e) (e_sources e)
    (<[eo_chassis_norm obs := merge_info entry obs]> (e_endpoints e)).

(** [edge_key]: the unordered pair. *)
Definition edge_key (a b : Str) : Str * Str := if str_leb a b then (a, b) else (b, a).

(** [non_empty]. *)
Definition non_empty (s : Str) : option Str := if is_empty (trim s) then None else Some s.

Section topology.
Context `{UnicodeCase}.

(** [normalize_chassis]. *)
Definition normalize_chassis (subtype : Z) (id : Str) : Str :=
  if subtype =? CHASSIS_SUBTYPE_MAC then normalize_mac id else to_ascii_lowercase (trim id).

Definition index_mac (identity : Str) (t : TopologyAssembler) (mac : Str) : TopologyAssembler :=
  let key := normalize_mac mac in
  if is_empty key then t
  else mkTopologyAssembler (ta_scan_metadata t) (ta_observations t)
         (or_insert (ta_mac_index t) key identity) (ta_sys_name_index t) (ta_addr_index t).

Definition index_sys_name (identity : Str) (t : TopologyAssembler) (name : Str)
    : TopologyAssembler :=
  let key := normalize_sys_name name in
  if is_empty key then t
  else mkTopologyAssembler (ta_scan_metadata t) (ta_observations t) (ta_mac_index t)
         (or_insert (ta_sys_name_index t) key identity) (ta_addr_index t).

Definition index_addr (identity : Str) (t : TopologyAssembler) (ip : IpAddr) : TopologyAssembler :=
  mkTopologyAssembler (ta_scan_metadata t) (ta_observations t) (ta_mac_index t)
    (ta_sys_name_index t) (or_insert (ta_addr_index t) ip identity).

Definition index_signal (identity : Str) (t : TopologyAssembler) (s : Signal)
    : TopologyAssembler :=
  match s with
  | Mac mac => index_mac identity t mac
  | SnmpSysName name | ReverseDnsName name => index_sys_name identity t name
  | _ => t
  end.

(** [observe_record]. *)
Definition observe_record (t : TopologyAssembler) (r : DeviceRecord) : TopologyAssembler :=
  let identity := dr_identity_key r in
  let t := match dr_mac r with Some mac => index_mac identity t mac | None => t end in
  let t := foldl (index_signal identity) t (dr_signals r) in
  let t := match dr_mgmt_ip r with Some ip => index_addr identity t ip | None => t end in
  foldl (λ t alt, index_addr identity t (ai_address alt)) t (dr_alt_ips r).

(** The first loop of [finish]. *)
Definition add_chassis_identity (t : TopologyAssembler) (m : gmap Str Str)
    (obs : DeviceObservation) : gmap Str Str :=
  match ta_addr_index t !! do_local_ip obs with
  | None => m
  | Some identity =>
      let key := normalize_chassis (do_local_chassis_subtype obs) (do_local_chassis_id obs) in
      if is_empty key then m else or_insert m key identity
  end.

Definition chassis_to_identity (t : TopologyAssembler) : gmap Str Str :=
  foldl (add_chassis_identity t) ∅ (ta_observations t).

(** One neighbour of one observation. *)
Definition add_neighbor (obs : DeviceObservation) (local_norm : Str)
    (edges : gmap (Str * Str) Edge) (neighbor : LldpNeighbor) : gmap (Str * Str) Edge :=
  let remote_norm := normalize_chassis (ln_remote_chassis_subtype neighbor)
                       (ln_remote_chassis_id neighbor) in
  if is_empty remote_norm || bool_decide (remote_norm = local_norm) then edges
  else
    let key := edge_key local_norm remote_norm in
    let edge := default (edge_new (do_observed_at obs)) (edges !! key) in
    let edge := mkEdge (Z.max (e_observed_at edge) (do_observed_at obs))
                  ({[do_discovered_via obs]} ∪ e_sources edge) (e_endpoints edge) in
    let edge := edge_merge edge (mkEndpointObservation local_norm (do_local_chassis_id obs)
                  (do_local_chassis_subtype obs) (non_empty (ln_local_port neighbor)) true None) in
    let edge := edge_merge edge (mkEndpointObservation remote_norm (ln_remote_chassis_id neighbor)
                  (ln_remote_chassis_subtype neighbor) (non_empty (ln_remote_port_id neighbor))
                  false (ln_remote_sys_name neighbor)) in
    <[key := edge]> edges.

(** The second loop of [finish]. *)
Definition add_observation (edges : gmap (Str * Str) Edge) (obs : DeviceObservation)
    : gmap (Str * Str) Edge :=
  let local_norm := normalize_chassis (do_local_chassis_subtype obs) (do_local_chassis_id obs) in
  if is_empty local_norm then edges
  else foldl (add_neighbor obs local_norm) edges (do_neighbors obs).

Definition collect_edges (observations : list DeviceObservation) : gmap (Str * Str) Edge :=
  foldl add_observation ∅ observations.

(** [resolve_identity]. *)
Definition resolve_identity (t : TopologyAssembler) (chassis_norm : Str) (subtype : Z)
    (sys_name : option Str) (chassis_to_identity : gmap Str Str) : option Str :=
  let by_subtype :=
    if subtype =? CHASSIS_SUBTYPE_MAC then ta_mac_index t !! chassis_norm
    else if subtype =? CHASSIS_SUBTYPE_NETWORK_ADDRESS then
      ip ← ip_from_str chassis_norm; ta_addr_index t !! ip
    else None in
  let by_name :=
    name ← sys_name;
    let key := normalize_sys_name name in
    if is_empty key then None else ta_sys_name_index t !! key in
  match chassis_to_identity !! chassis_norm with
  | Some id => Some id
  | None => match by_subtype with Some id => Some id | None => by_name end
  end.

(** [finalize_endpoint]. *)
Definition finalize_endpoint (t : TopologyAssembler) (chassis_norm : Str) (edge : Edge)
    (c2i : gmap Str Str) : option LinkEndpoint :=
  info ← e_endpoints edge !! chassis_norm;
  Some {| le_identity_key := resolve_identity t chassis_norm (ei_subtype info) (ei_sys_name info) c2i;
          le_chassis_id := ei_chassis_id info;
          le_sys_name := ei_sys_name info;
          le_port := default [] (ei_port info) |}.

(** [join_sources]: a [BTreeSet] yields its elements in order. *)
Definition str_le (a b : Str) : Prop := str_leb a b = true.
#[global] Instance str_le_dec a b : Decision (str_le a b).
Proof. unfold str_le. apply _. Defined.

Definition join_sources (sources : gset Str) : Str :=
  join (s! ",") (merge_sort str_le (elements sources)).

(** The order of the key pairs. *)
Definition pair_le (a b : Str * Str) : Prop :=
  if decide (a.1 = b.1) then str_le a.2 b.2 else str_le a.1 b.1.
#[global] Instance pair_le_dec a b : Decision (pair_le a b).
Proof. unfold pair_le. destruct (decide _); apply _. Defined.

Definition keyed_le (a b : (Str * Str) * Edge) : Prop := pair_le a.1 b.1.
#[global] Instance keyed_le_dec a b : Decision (keyed_le a b).
Proof. unfold keyed_le. apply _. Defined.

Definition make_link (t : TopologyAssembler) (c2i : gmap Str Str) (ke : (Str * Str) * Edge)
    : option LinkRecord :=
  a ← finalize_endpoint t ke.1.1 ke.2 c2i;
  b ← finalize_endpoint t ke.1.2 ke.2 c2i;
  Some {| lr_schema_version := LINK_CURRENT_SCHEMA_VERSION;
          lr_schema_id := LINK_SCHEMA_ID;
          lr_a := a;
          lr_b := b;
          lr_discovered_via := join_sources (e_sources ke.2);
          lr_observed_at := e_observed_at ke.2;
          lr_scan_metadata := ta_scan_metadata t |}.

(** [TopologyAssembler::finish]. *)
Definition topology_finish `{HashOrder} (t : TopologyAssembler) : option (list LinkRecord) :=
  if is_empty (ta_observations t) then Some []
  else
    let c2i := chassis_to_identity t in
    let edges := collect_edges (ta_observations t) in
    let keyed := merge_sort keyed_le (hash_order (3%nat, 0%nat) (map_to_list edges)) in
    mapM (make_link t c2i) keyed.
End topology.
