(* ===== verification/TopologyTheorems.v ===== *)
(** * Correctness of topology assembly

    One link per unordered pair of distinct chassis that sighted each other,
    with the latest time and the sorted set of sources, whatever the order of
    the hash maps; assembly never fails. *)

From S2P Require Import Prelude Net F64 Model FuserCore UnionFind Identity IdentityTheorems Topology.

(** ** The order of strings *)

Lemma str_leb_refl a : str_leb a a = true.
Proof. induction a as [|x a IH]; simpl; [done|]. by rewrite Z.ltb_irrefl. Qed.

Lemma str_leb_total a b : str_leb a b = true ∨ str_leb b a = true.
Proof.
  revert b. induction a as [|x a IH]; intros [|y b]; simpl; auto.
  destruct (Z.ltb_spec x y), (Z.ltb_spec y x); auto.
Qed.

Lemma str_leb_antisymm a b : str_leb a b = true → str_leb b a = true → a = b.
Proof.
  revert b. induction a as [|x a IH]; intros [|y b]; simpl; try done.
  destruct (Z.ltb_spec x y), (Z.ltb_spec y x); try done; try lia.
  intros. f_equal; [lia|auto].
Qed.

Lemma str_leb_trans a b c : str_leb a b = true → str_leb b c = true → str_leb a c = true.
Proof.
  revert b c. induction a as [|x a IH]; intros [|y b] [|z c]; simpl; try done.
  destruct (Z.ltb_spec x y), (Z.ltb_spec y x), (Z.ltb_spec y z), (Z.ltb_spec z y),
    (Z.ltb_spec x z), (Z.ltb_spec z x); try done; try lia. apply IH.
Qed.

#[global] Instance str_le_total : Total str_le.
Proof. intros a b. apply str_leb_total. Qed.
#[global] Instance str_le_trans : Transitive str_le.
Proof. intros a b c. apply str_leb_trans. Qed.
#[global] Instance str_le_antisymm : AntiSymm (=) str_le.
Proof. intros a b. apply str_leb_antisymm. Qed.

#[global] Instance pair_le_total : Total pair_le.
Proof.
  intros a b. unfold pair_le. destruct (decide (a.1 = b.1)) as [E|E].
  - rewrite decide_True by done. apply str_le_total.
  - rewrite (decide_False (P := b.1 = a.1)) by done. apply str_le_total.
Qed.
#[global] Instance pair_le_trans : Transitive pair_le.
Proof.
  intros [a a'] [b b'] [c c']. unfold pair_le. simpl. repeat case_decide; subst; try done.
  - apply str_le_trans.
  - intros H1 H2. exfalso. by apply H, (str_le_antisymm c b).
  - apply str_le_trans.
Qed.
#[global] Instance pair_le_antisymm : AntiSymm (=) pair_le.
Proof.
  intros [a a'] [b b']. unfold pair_le. simpl. repeat case_decide; subst; try done.
  - intros H1 H2. f_equal. by apply (str_le_antisymm a').
  - intros H1 H2. exfalso. by apply H, (str_le_antisymm a b).
Qed.

(** Both ends of a link name it alike. *)
Lemma edge_key_comm a b : edge_key a b = edge_key b a.
Proof.
  unfold edge_key. destruct (str_leb a b) eqn:E1, (str_leb b a) eqn:E2; try done.
  - by rewrite (str_leb_antisymm a b).
  - destruct (str_leb_total a b); congruence.
Qed.

Lemma edge_key_cases a b : edge_key a b = (a, b) ∨ edge_key a b = (b, a).
Proof. unfold edge_key. destruct (str_leb a b); auto. Qed.

(** A sorted list without repeats is determined by its elements. *)
Lemma sorted_unique {A} (R : relation A) `{!AntiSymm (=) R} (l k : list A) :
  StronglySorted R l → StronglySorted R k → NoDup l → NoDup k → (∀ x, x ∈ l ↔ x ∈ k) → l = k.
Proof.
  intros Hl Hk Nl Nk E. apply (StronglySorted_unique R); [done|done|]. by apply NoDup_Permutation.
Qed.

(** ** Sightings *)

(** One neighbour entry that makes a link. *)
Record Sighting : Type := mkSighting {
  sg_at : SystemTime;
  sg_via : Str;
  sg_local : EndpointObservation;
  sg_remote : EndpointObservation;
}.

(** The chassis at the two ends, the one that reports first. *)
Definition sg_from (s : Sighting) : Str := eo_chassis_norm (sg_local s).
Definition sg_to (s : Sighting) : Str := eo_chassis_norm (sg_remote s).

(** A sighting joins the two chassis of a pair, whichever of them reports. *)
Definition joins (k : Str * Str) (s : Sighting) : Prop :=
  (sg_from s = k.1 ∧ sg_to s = k.2) ∨ (sg_from s = k.2 ∧ sg_to s = k.1).
#[global] Instance joins_dec k s : Decision (joins k s).
Proof. unfold joins. apply _. Defined.

(** The key under which the code keeps it. *)
Definition sg_key (s : Sighting) : Str * Str := edge_key (sg_from s) (sg_to s).

Lemma edge_key_ordered a b : str_le (edge_key a b).1 (edge_key a b).2.
Proof. unfold edge_key, str_le. destruct (str_leb a b) eqn:E; [done|]. by destruct (str_leb_total a b); [congruence|]. Qed.

Lemma sg_key_joins k s : str_le k.1 k.2 → sg_key s = k ↔ joins k s.
Proof.
  intros Hk. unfold sg_key, joins. split.
  - intros <-. destruct (edge_key_cases (sg_from s) (sg_to s)) as [->| ->]; auto.
  - destruct k as [a b]; cbn in *. unfold str_le in Hk. intros [[-> ->]|[-> ->]]; unfold edge_key; [by rewrite Hk|].
    destruct (str_leb b a) eqn:E; [|done]. f_equal; by apply str_leb_antisymm.
Qed.

Definition edge_see (e : Edge) (s : Sighting) : Edge :=
  edge_merge (edge_merge (mkEdge (Z.max (e_observed_at e) (sg_at s))
    ({[sg_via s]} ∪ e_sources e) (e_endpoints e)) (sg_local s)) (sg_remote s).

Definition see (edges : gmap (Str * Str) Edge) (s : Sighting) : gmap (Str * Str) Edge :=
  <[sg_key s := edge_see (default (edge_new (sg_at s)) (edges !! sg_key s)) s]> edges.

Section sightings.
Context `{UnicodeCase}.

(** The name a chassis goes by: a MAC address in lower case without its colons
    and dashes, any other identifier in ASCII lower case without the blanks
    around it. *)
Definition chassis_name (subtype : Z) (id : Str) : Str :=
  if decide (subtype = 4) then mjoin (char_to_lowercase <$> filter (λ c, c ≠ 58 ∧ c ≠ 45) id)
  else ascii_lower <$> trim id.

Lemma normalize_chassis_name subtype id : normalize_chassis subtype id = chassis_name subtype id.
Proof using Type.
  unfold normalize_chassis, chassis_name, CHASSIS_SUBTYPE_MAC.
  destruct (Z.eqb_spec subtype 4); [rewrite decide_True by done|by rewrite decide_False].
  unfold normalize_mac. do 2 f_equal. apply list_filter_iff. intros c.
  unfold is_mac_separator. rewrite orb_false_iff, !Z.eqb_neq. done.
Qed.

(** A port that is all blanks is no port. *)
Definition port_text (p : Str) : option Str := if decide (trim p = []) then None else Some p.

Lemma non_empty_port p : non_empty p = port_text p.
Proof using Type. unfold non_empty, port_text. destruct (trim p); [by rewrite decide_True|by rewrite decide_False]. Qed.

(** A neighbour entry makes a link when both chassis have a name and the names
    differ. *)
Definition sighting (obs : DeviceObservation) (n : LldpNeighbor) : option Sighting :=
  let local := chassis_name (do_local_chassis_subtype obs) (do_local_chassis_id obs) in
  let remote := chassis_name (ln_remote_chassis_subtype n) (ln_remote_chassis_id n) in
  if decide (local ≠ [] ∧ remote ≠ [] ∧ local ≠ remote) then
    Some (mkSighting (do_observed_at obs) (do_discovered_via obs)
      (mkEndpointObservation local (do_local_chassis_id obs) (do_local_chassis_subtype obs)
         (port_text (ln_local_port n)) true None)
      (mkEndpointObservation remote (ln_remote_chassis_id n) (ln_remote_chassis_subtype n)
         (port_text (ln_remote_port_id n)) false (ln_remote_sys_name n)))
  else None.

Definition sightings (observations : list DeviceObservation) : list Sighting :=
  mjoin ((λ obs, omap (sighting obs) (do_neighbors obs)) <$> observations).

Lemma add_observation_see edges obs :
  add_observation edges obs = foldl see edges (omap (sighting obs) (do_neighbors obs)).
Proof using Type.
  unfold add_observation. rewrite normalize_chassis_name. set (local := chassis_name _ _).
  destruct (is_empty local) eqn:El.
  { apply is_empty_true in El. induction (do_neighbors obs) as [|n ns IH]; [done|]. cbn [omap list_omap].
    unfold sighting at 1. fold local. by rewrite decide_False by naive_solver. }
  assert (local ≠ []) as Hl by (intros E; by rewrite E in El).
  revert edges. induction (do_neighbors obs) as [|n ns IH]; intros edges; [done|].
  cbn [foldl omap list_omap]. rewrite IH. unfold sighting at 2. fold local.
  unfold add_neighbor. rewrite normalize_chassis_name. set (remote := chassis_name (ln_remote_chassis_subtype n) _).
  destruct (is_empty remote) eqn:Er; cbn [orb].
  { apply is_empty_true in Er. by rewrite decide_False by naive_solver. }
  assert (remote ≠ []) by (intros E; by rewrite E in Er).
  destruct (bool_decide_reflect (remote = local)); [by rewrite decide_False by naive_solver|].
  rewrite decide_True by naive_solver. by rewrite !non_empty_port.
Qed.

Lemma collect_edges_see observations : collect_edges observations = foldl see ∅ (sightings observations).
Proof using Type.
  unfold collect_edges. generalize (∅ : gmap (Str * Str) Edge).
  induction observations as [|obs observations IH]; intros m; [done|].
  unfold sightings. cbn [foldl]. rewrite fmap_cons, mjoin_cons, foldl_app, IH.
  by rewrite add_observation_see.
Qed.

(** A sighting joins two different chassis, both named. *)
Lemma sightings_ends observations s : s ∈ sightings observations →
  sg_from s ≠ [] ∧ sg_to s ≠ [] ∧ sg_from s ≠ sg_to s.
Proof using Type.
  unfold sightings. intros (l & Hs & Hl)%list_elem_of_join.
  apply list_elem_of_fmap in Hl as (obs & -> & _). apply list_elem_of_omap in Hs as (n & _ & E).
  unfold sighting in E. case_decide as Eb; [|done]. injection E as <-. cbn. naive_solver.
Qed.
End sightings.

(** ** One edge *)

Definition sighted (k : Str * Str) (ss : list Sighting) : list Sighting := filter (joins k) ss.

Lemma see_lookup ss m k : str_le k.1 k.2 →
  foldl see m ss !! k =
  match sighted k ss with
  | [] => m !! k
  | s :: _ => Some (foldl edge_see (default (edge_new (sg_at s)) (m !! k)) (sighted k ss))
  end.
Proof.
  intros Hk. revert m. induction ss as [|s ss IH]; intros m; [done|]. cbn [foldl]. rewrite IH.
  unfold sighted. rewrite filter_cons. fold (sighted k ss). unfold see at 1 2.
  case_decide as Hj; rewrite <-sg_key_joins in Hj by done.
  - subst k. rewrite !lookup_insert_eq. cbn [foldl].
    destruct (sighted (sg_key s) ss) as [|s' ss'] eqn:E; [done|]. done.
  - rewrite !lookup_insert_ne by done. done.
Qed.

(** The code keeps no pair in the other order. *)
Lemma see_ordered ss m k :
  (∀ k, is_Some (m !! k) → str_le k.1 k.2) → is_Some (foldl see m ss !! k) → str_le k.1 k.2.
Proof.
  revert m. induction ss as [|s ss IH]; intros m Hm; cbn [foldl]; [apply Hm|]. apply IH. intros k'. unfold see.
  destruct (decide (sg_key s = k')) as [<-|Hne]; [intros _; apply edge_key_ordered|].
  rewrite lookup_insert_ne by done. apply Hm.
Qed.

(** The observations of one endpoint. *)
Definition seen_ends (c : Str) (ss : list Sighting) : list EndpointObservation :=
  filter (λ o, eo_chassis_norm o = c) (mjoin ((λ s, [sg_local s; sg_remote s]) <$> ss)).

Definition blank_info (o : EndpointObservation) : EndpointInfo :=
  mkEndpointInfo (eo_chassis_id o) (eo_subtype o) None false None.

Lemma edge_merge_lookup e o c :
  e_endpoints (edge_merge e o) !! c =
  if decide (eo_chassis_norm o = c) then Some (merge_info (default (blank_info o) (e_endpoints e !! c)) o)
  else e_endpoints e !! c.
Proof.
  unfold edge_merge. simpl. case_decide as E; [subst; by rewrite lookup_insert_eq|].
  by rewrite lookup_insert_ne.
Qed.

Lemma edge_ends_fold ss e c :
  e_endpoints (foldl edge_see e ss) !! c =
  match seen_ends c ss with
  | [] => e_endpoints e !! c
  | o :: _ => Some (foldl merge_info (default (blank_info o) (e_endpoints e !! c)) (seen_ends c ss))
  end.
Proof.
  assert (∀ os e, e_endpoints (foldl edge_merge e os) !! c =
    match filter (λ o, eo_chassis_norm o = c) os with
    | [] => e_endpoints e !! c
    | o :: _ => Some (foldl merge_info (default (blank_info o) (e_endpoints e !! c))
                        (filter (λ o, eo_chassis_norm o = c) os))
    end) as Hm.
  { clear. intros os. induction os as [|o os IH]; intros e; [done|]. cbn [foldl].
    rewrite IH, filter_cons, edge_merge_lookup. case_decide; [|done].
    cbn [foldl]. by destruct (filter _ os). }
  assert (e_endpoints (foldl edge_see e ss) =
    e_endpoints (foldl edge_merge e (mjoin ((λ s, [sg_local s; sg_remote s]) <$> ss)))) as ->.
  { assert (∀ a b, e_endpoints a = e_endpoints b → e_endpoints (foldl edge_see a ss) =
      e_endpoints (foldl edge_merge b (mjoin ((λ s, [sg_local s; sg_remote s]) <$> ss)))) as Hgen.
    { clear. induction ss as [|s ss IH]; intros a b E; [done|].
      rewrite fmap_cons, mjoin_cons, foldl_app. cbn [foldl]. apply IH.
      unfold edge_see, edge_merge. simpl. by rewrite E. }
    by apply Hgen. }
  apply Hm.
Qed.

Lemma edge_time_fold ss e :
  let t := e_observed_at (foldl edge_see e ss) in
  e_observed_at e ≤ t ∧ (∀ s, s ∈ ss → sg_at s ≤ t) ∧
  (t = e_observed_at e ∨ ∃ s, s ∈ ss ∧ t = sg_at s).
Proof.
  revert e. induction ss as [|s ss IH]; intros e; cbn [foldl].
  { split_and!; [done|by intros ? ?%elem_of_nil|by left]. }
  destruct (IH (edge_see e s)) as (H1 & H2 & H3).
  assert (e_observed_at (edge_see e s) = Z.max (e_observed_at e) (sg_at s)) as E by done.
  rewrite E in *. split_and!; [lia| |].
  - intros s' Hs. apply elem_of_cons in Hs as [->|Hs]; [lia|by apply H2].
  - destruct H3 as [->|(s' & Hs & ->)]; [|right; exists s'; by split; [right|]].
    destruct (Z.max_spec (e_observed_at e) (sg_at s)) as [[_ M]|[_ M]]; rewrite M.
    + right. exists s. by split; [left|].
    + by left.
Qed.

Lemma edge_sources_fold ss e v :
  v ∈ e_sources (foldl edge_see e ss) ↔ v ∈ e_sources e ∨ v ∈ sg_via <$> ss.
Proof.
  revert e. induction ss as [|s ss IH]; intros e; cbn [foldl]; [set_solver|].
  rewrite IH, fmap_cons, elem_of_cons. unfold edge_see, edge_merge. simpl.
  rewrite elem_of_union, elem_of_singleton. tauto.
Qed.

(** The port of an endpoint: the first its own end reports, or else the first a
    neighbour advertises. *)
Definition chosen_port (os : list EndpointObservation) : option Str :=
  match find_map (λ o, if eo_port_authoritative o then eo_port o else None) os with
  | Some p => Some p
  | None => find_map eo_port os
  end.

Lemma merge_info_fold os i :
  let r := foldl merge_info i os in
  ei_chassis_id r = ei_chassis_id i ∧ ei_subtype r = ei_subtype i ∧
  ei_sys_name r = match ei_sys_name i with Some n => Some n | None => find_map eo_sys_name os end ∧
  ((ei_port_authoritative i = true → is_Some (ei_port i)) →
   ei_port r = if ei_port_authoritative i then ei_port i
     else match find_map (λ o, if eo_port_authoritative o then eo_port o else None) os with
          | Some p => Some p
          | None => match ei_port i with Some p => Some p | None => find_map eo_port os end
          end).
Proof.
  revert i. induction os as [|o os IH]; intros i; cbn [foldl find_map].
  { split_and!; [done|done|by destruct (ei_sys_name i)|]. intros _.
    destruct (ei_port_authoritative i), (ei_port i); done. }
  destruct (IH (merge_info i o)) as (H1 & H2 & H3 & H4). cbn zeta in *.
  rewrite H1, H2, H3. clear H1 H2 H3.
  destruct i as [cid st port auth name], o as [cn cid' st' oport oauth oname].
  unfold merge_info in *. cbn in *.
  destruct oport as [p|], oauth, auth, port as [q|], name as [n|], oname as [m|]; cbn in *;
    (split_and!; [done|done|done|]); intros Hi; rewrite ?H4 by eauto; try done;
    try (destruct Hi as [? ?]; done).
Qed.

(** ** Links *)

Section links.
Context `{UnicodeCase, HO : HashOrder}.

(** The device of a chassis: the one at the address of the first device that
    reported this chassis as its own, else the one a MAC or a network address
    names, else the one with the advertised name. *)
Definition identity_for (t : TopologyAssembler) (c : Str) (subtype : Z) (name : option Str) : option Str :=
  match find_map (λ obs,
      if decide (chassis_name (do_local_chassis_subtype obs) (do_local_chassis_id obs) = c)
      then ta_addr_index t !! do_local_ip obs else None) (ta_observations t) with
  | Some device => Some device
  | None =>
      match (if decide (subtype = 4) then ta_mac_index t !! c
             else if decide (subtype = 5) then ip_from_str c ≫= λ ip, ta_addr_index t !! ip
             else None) with
      | Some device => Some device
      | None => name ≫= λ n, if decide (n = []) then None else ta_sys_name_index t !! (ascii_lower <$> n)
      end
  end.

Lemma chassis_identity_first t os m c : c ≠ [] →
  foldl (add_chassis_identity t) m os !! c =
  match m !! c with
  | Some device => Some device
  | None => find_map (λ obs,
      if decide (chassis_name (do_local_chassis_subtype obs) (do_local_chassis_id obs) = c)
      then ta_addr_index t !! do_local_ip obs else None) os
  end.
Proof using Type.
  intros Hc. revert m. induction os as [|o os IH]; intros m; cbn [foldl find_map]; [by destruct (m !! c)|].
  rewrite IH. unfold add_chassis_identity. rewrite normalize_chassis_name. set (n := chassis_name _ _).
  destruct (ta_addr_index t !! do_local_ip o) as [i|]; [|by destruct (decide (n = c))].
  destruct (is_empty n) eqn:En.
  { apply is_empty_true in En. by rewrite decide_False by congruence. }
  unfold or_insert. destruct (decide (n = c)) as [->|Hne].
  - destruct (m !! c) eqn:Em; [by rewrite Em|by rewrite lookup_insert_eq].
  - destruct (m !! n); [done|by rewrite lookup_insert_ne].
Qed.

Lemma resolve_identity_for t c subtype name : c ≠ [] →
  resolve_identity t c subtype name (chassis_to_identity t) = identity_for t c subtype name.
Proof using Type.
  intros Hc. unfold resolve_identity, identity_for, chassis_to_identity. rewrite chassis_identity_first by done.
  rewrite lookup_empty. destruct (find_map _ _); [done|].
  unfold CHASSIS_SUBTYPE_MAC, CHASSIS_SUBTYPE_NETWORK_ADDRESS.
  destruct (Z.eqb_spec subtype 4), (Z.eqb_spec subtype 5); repeat (case_decide; [|try done]); try done; 
    destruct name as [[|x rest]|]; done.
Qed.

(** What one end of a link reports, from the observations of that end. *)
Record endpoint_for (t : TopologyAssembler) (c : Str) (os : list EndpointObservation)
    (e : LinkEndpoint) : Prop := {
  ef_port : le_port e = default [] (chosen_port os);
  ef_sys_name : le_sys_name e = find_map eo_sys_name os;
  ef_first : ∃ o, head os = Some o ∧ le_chassis_id e = eo_chassis_id o ∧
    le_identity_key e = identity_for t c (eo_subtype o) (find_map eo_sys_name os);
}.

(** The link of a pair, from its sightings. *)
Record link_for (t : TopologyAssembler) (k : Str * Str) (l : LinkRecord) : Prop := {
  lf_latest : lr_observed_at l ∈ sg_at <$> sighted k (sightings (ta_observations t));
  lf_latest_max s : s ∈ sighted k (sightings (ta_observations t)) → sg_at s ≤ lr_observed_at l;
  lf_via : ∃ vias, StronglySorted str_le vias ∧ NoDup vias ∧
    (∀ v, v ∈ vias ↔ v ∈ sg_via <$> sighted k (sightings (ta_observations t))) ∧
    lr_discovered_via l = join (s! ",") vias;
  lf_a : endpoint_for t k.1 (seen_ends k.1 (sighted k (sightings (ta_observations t)))) (lr_a l);
  lf_b : endpoint_for t k.2 (seen_ends k.2 (sighted k (sightings (ta_observations t)))) (lr_b l);
  lf_metadata : lr_scan_metadata l = ta_scan_metadata t;
}.

Lemma collect_edges_ordered observations k e : collect_edges observations !! k = Some e → str_le k.1 k.2.
Proof using Type.
  rewrite collect_edges_see. intros He. apply (see_ordered (sightings observations) ∅ k); [|by eexists].
  intros k'. rewrite lookup_empty. by intros [? ?].
Qed.

(** The pairs of chassis of which one reported the other, the lesser name first. *)
Definition linked (observations : list DeviceObservation) (k : Str * Str) : Prop :=
  str_le k.1 k.2 ∧ ∃ s, s ∈ sightings observations ∧ joins k s.

Lemma linked_ends observations k : linked observations k → k.1 ≠ [] ∧ k.2 ≠ [] ∧ k.1 ≠ k.2.
Proof using Type.
  intros (_ & s & Hs & Hj). apply sightings_ends in Hs. unfold joins in Hj. naive_solver congruence.
Qed.

Lemma topology_keys observations k : is_Some (collect_edges observations !! k) ↔ linked observations k.
Proof using Type.
  split.
  - intros [e He]. pose proof (collect_edges_ordered _ _ _ He) as Hk. split; [done|].
    rewrite collect_edges_see, see_lookup, lookup_empty in He by done.
    destruct (sighted k _) as [|s ss] eqn:Es; [done|].
    assert (s ∈ sighted k (sightings observations)) as Hs by (rewrite Es; by left).
    apply list_elem_of_filter in Hs as [? ?]. eauto.
  - intros (Hk & s & Hs & Hj). rewrite collect_edges_see, see_lookup, lookup_empty by done.
    assert (s ∈ sighted k (sightings observations)) as Hin by by apply list_elem_of_filter.
    destruct (sighted _ _); [by apply elem_of_nil in Hin|by eexists].
Qed.

Lemma seen_ends_nonempty observations k s c :
  s ∈ sighted k (sightings observations) → c = k.1 ∨ c = k.2 →
  seen_ends c (sighted k (sightings observations)) ≠ [].
Proof using Type.
  intros Hs Hc E. pose proof Hs as [Hk Hin]%list_elem_of_filter.
  assert (∃ o, o ∈ [sg_local s; sg_remote s] ∧ eo_chassis_norm o = c) as (o & Ho & Eo).
  { destruct Hk as [[H1 H2]|[H1 H2]], Hc as [->| ->]; rewrite <-?H1, <-?H2;
      eexists; (split; [|done]); [left|right; left|right; left|left]. }
  assert (o ∈ seen_ends c (sighted k (sightings observations))) as Hin'.
  { apply list_elem_of_filter. split; [done|]. apply list_elem_of_join. eexists. split; [done|].
    by apply (list_elem_of_fmap_2 (λ s, [sg_local s; sg_remote s])). }
  rewrite E in Hin'. by apply elem_of_nil in Hin'.
Qed.

Lemma finalize_endpoint_ok t k e c :
  c ≠ [] → collect_edges (ta_observations t) !! k = Some e → c = k.1 ∨ c = k.2 →
  ∃ ep, finalize_endpoint t c e (chassis_to_identity t) = Some ep ∧
    endpoint_for t c (seen_ends c (sighted k (sightings (ta_observations t)))) ep.
Proof using Type.
  intros Hn He Hc. pose proof (collect_edges_ordered _ _ _ He) as Hk.
  rewrite collect_edges_see, see_lookup, lookup_empty in He by done.
  destruct (sighted k (sightings (ta_observations t))) as [|s ss] eqn:Es; [done|].
  assert (e = foldl edge_see (edge_new (sg_at s)) (s :: ss)) as -> by (by injection He).
  assert (seen_ends c (sighted k (sightings (ta_observations t))) ≠ []) as Hne.
  { eapply (seen_ends_nonempty _ k s); [rewrite Es; by left|done]. }
  rewrite Es in Hne. unfold finalize_endpoint. rewrite edge_ends_fold.
  assert (e_endpoints (edge_new (sg_at s)) !! c = None) as -> by apply lookup_empty.
  destruct (seen_ends c (s :: ss)) as [|o os] eqn:Eo; [done|].
  cbn [mbind option_bind default].
  destruct (merge_info_fold (o :: os) (blank_info o)) as (H1 & H2 & H3 & H4).
  eexists. split; [done|]. split; cbn [le_port le_sys_name le_chassis_id le_identity_key].
  - rewrite H4 by done. unfold chosen_port. cbn [ei_port_authoritative blank_info ei_port].
    by destruct (find_map (λ o, if eo_port_authoritative o then eo_port o else None) (o :: os)).
  - by rewrite H3.
  - exists o. split_and!; [done|by rewrite H1|]. rewrite H2, H3. by apply resolve_identity_for.
Qed.

Lemma make_link_ok t k e :
  collect_edges (ta_observations t) !! k = Some e →
  ∃ l, make_link t (chassis_to_identity t) (k, e) = Some l ∧ link_for t k l.
Proof using Type.
  intros He. destruct (linked_ends (ta_observations t) k) as (N1 & N2 & _); [apply topology_keys; by eexists|].
  destruct (finalize_endpoint_ok t k e k.1 N1 He) as (a & Ea & Ha); [by left|].
  destruct (finalize_endpoint_ok t k e k.2 N2 He) as (b & Eb & Hb); [by right|].
  unfold make_link. cbn [fst snd]. rewrite Ea. cbn [mbind option_bind]. rewrite Eb.
  cbn [mbind option_bind]. eexists. split; [done|].
  pose proof (collect_edges_ordered _ _ _ He) as Hk.
  rewrite collect_edges_see, see_lookup, lookup_empty in He by done.
  destruct (sighted k (sightings (ta_observations t))) as [|s ss] eqn:Es; [done|].
  assert (e = foldl edge_see (edge_new (sg_at s)) (s :: ss)) as -> by (by injection He).
  rewrite <-Es.
  destruct (edge_time_fold (sighted k (sightings (ta_observations t))) (edge_new (sg_at s)))
    as (_ & T2 & T3).
  split; cbn [lr_observed_at lr_discovered_via lr_a lr_b lr_scan_metadata]; try (by rewrite ?Es).
  - destruct T3 as [->|(s' & Hs & ->)].
    + apply (list_elem_of_fmap_2 sg_at). rewrite Es. by left.
    + by apply (list_elem_of_fmap_2 sg_at).
  - done.
  - eexists. split_and!; [apply (StronglySorted_merge_sort str_le)| | |done].
    + rewrite (merge_sort_Permutation str_le). apply NoDup_elements.
    + intros v. rewrite (merge_sort_Permutation str_le), elem_of_elements, edge_sources_fold.
      simpl. set_solver.
Qed.

Lemma StronglySorted_keyed (l : list ((Str * Str) * Edge)) :
  StronglySorted keyed_le l → StronglySorted pair_le l.*1.
Proof using Type.
  induction 1 as [|x l Hl IH Hx]; [constructor|]. rewrite fmap_cons. constructor; [done|].
  by apply Forall_fmap.
Qed.

#[local] Instance keyed_le_total : Total keyed_le.
Proof using Type. intros a b. apply pair_le_total. Qed.
#[local] Instance keyed_le_trans : Transitive keyed_le.
Proof using Type. intros a b c. unfold keyed_le. apply pair_le_trans. Qed.

(** The links are those of the sorted keys. *)
Lemma topology_finish_spec `{!HashOrderLaws HO} t :
  ∃ keys links, topology_finish t = Some links ∧
    StronglySorted pair_le keys ∧ NoDup keys ∧
    (∀ k, k ∈ keys ↔ linked (ta_observations t) k) ∧
    Forall2 (link_for t) keys links.
Proof using Type.
  unfold topology_finish. destruct (ta_observations t) as [|obs observations] eqn:Eo.
  { exists [], []. split_and!; [done|apply SSorted_nil|apply NoDup_nil_2| |apply Forall2_nil_2].
    intros k. split; [by intros ?%elem_of_nil|]. by intros (_ & s & ?%elem_of_nil & _). }
  cbn [is_empty]. rewrite <-Eo. set (edges := collect_edges (ta_observations t)).
  set (keyed := merge_sort keyed_le (hash_order (3%nat, 0%nat) (map_to_list edges))).
  assert (keyed ≡ₚ map_to_list edges) as HP.
  { subst keyed. rewrite (merge_sort_Permutation keyed_le). apply hash_order_perm. }
  assert (∀ ke, ke ∈ keyed → ∃ l, make_link t (chassis_to_identity t) ke = Some l ∧ link_for t ke.1 l)
    as Hmk.
  { intros [k e] Hin. rewrite HP in Hin. apply elem_of_map_to_list in Hin. by apply make_link_ok. }
  destruct (mapM_is_Some_2 (make_link t (chassis_to_identity t)) keyed) as [links El].
  { apply Forall_forall. intros ke Hin. destruct (Hmk ke Hin) as (l & E & _). by exists l. }
  exists keyed.*1, links. split_and!; [done| | | |].
  - apply StronglySorted_keyed, (StronglySorted_merge_sort keyed_le).
  - rewrite HP. apply NoDup_fst_map_to_list.
  - intros k. rewrite HP, <-topology_keys. fold edges. rewrite list_elem_of_fmap. split.
    + intros ([k' e] & -> & Hin). apply elem_of_map_to_list in Hin. by exists e.
    + intros [e He]. exists (k, e). split; [done|]. by apply elem_of_map_to_list.
  - apply Forall2_fmap_l. apply mapM_Some in El. eapply Forall2_impl; [exact (Forall2_elem_l _ _ _ El)|].
    intros ke l [Hin E]. destruct (Hmk ke Hin) as (l' & E' & Hl). by simplify_eq.
Qed.

(** C6. Assembly never fails and returns one link per unordered pair of distinct
    chassis of which one reported the other, under their normalised names with
    the lesser first, in the order of the pairs: a pair and its reverse are
    never both there. Each link carries the latest observation time of its pair, the sorted set of
    sources, for each end the port that end reported itself or else the first
    one advertised for it, the first advertised name, and the device the
    indexes resolve it to. *)
Theorem topology_links t :
  HashOrderLaws HO →
  ∃ keys links, topology_finish t = Some links ∧
    StronglySorted pair_le keys ∧ NoDup keys ∧
    (∀ k, k ∈ keys ↔ linked (ta_observations t) k) ∧
    (∀ k, k ∈ keys → k.1 ≠ k.2 ∧ (k.2, k.1) ∉ keys) ∧
    Forall2 (link_for t) keys links.
Proof using Type.
  intros. destruct (topology_finish_spec t) as (keys & links & E & H1 & H2 & H3 & H4).
  exists keys, links. split_and!; try done. intros k Hk%H3. destruct (linked_ends _ _ Hk) as (_ & _ & Hne).
  split; [done|]. rewrite H3. intros [Hle _]. destruct Hk as [Hle' _]. by apply Hne, (str_le_antisymm k.1 k.2).
Qed.

Lemma link_for_agree t t' k l l' :
  (∀ s, s ∈ sighted k (sightings (ta_observations t)) ↔
        s ∈ sighted k (sightings (ta_observations t'))) →
  link_for t k l → link_for t' k l' →
  lr_observed_at l = lr_observed_at l' ∧ lr_discovered_via l = lr_discovered_via l'.
Proof using Type.
  intros E [L1 L2 (v & V1 & V2 & V3 & V4)] [M1 M2 (w & W1 & W2 & W3 & W4)]. split.
  - apply list_elem_of_fmap in L1 as (s & Es & Hs), M1 as (s' & Es' & Hs').
    pose proof (M2 s (proj1 (E s) Hs)). pose proof (L2 s' (proj2 (E s') Hs')). lia.
  - rewrite V4, W4. f_equal. apply (sorted_unique str_le); try done.
    intros x. rewrite V3, W3, !list_elem_of_fmap. setoid_rewrite E. done.
Qed.

End links.

Section arrival.
Context `{UnicodeCase}.

(** The order in which observations arrive does not change which links there
    are, their order, their times or their sources. *)
Theorem links_arrival_order (HO HO' : HashOrder) t t' links links' :
  HashOrderLaws HO → HashOrderLaws HO' → ta_observations t ≡ₚ ta_observations t' →
  topology_finish (H0 := HO) t = Some links → topology_finish (H0 := HO') t' = Some links' →
  map (λ l, (lr_observed_at l, lr_discovered_via l)) links =
  map (λ l, (lr_observed_at l, lr_discovered_via l)) links'.
Proof using Type.
  intros HL HL' HP E E'.
  destruct (topology_finish_spec (HO := HO) t) as (keys & ls & El & K1 & K2 & K3 & K4).
  destruct (topology_finish_spec (HO := HO') t') as (keys' & ls' & El' & K1' & K2' & K3' & K4').
  simplify_eq.
  assert (∀ s, s ∈ sightings (ta_observations t) ↔ s ∈ sightings (ta_observations t')) as Hs.
  { intros s. unfold sightings. rewrite !list_elem_of_join. by setoid_rewrite HP. }
  assert (keys = keys') as <-.
  { apply (sorted_unique pair_le); try done. intros k. rewrite K3, K3'. unfold linked. by setoid_rewrite Hs. }
  clear K1 K2 K3 K1' K2' K3' E E'. revert links' K4'.
  induction K4 as [|k l keys ls Hl _ IH]; intros ls' K4'; inversion K4' as [|? l' ? ? Hl' Hrest]; subst; [done|].
  simpl. f_equal; [|by apply IH].
  destruct (link_for_agree t t' k l l') as [-> ->]; [|done|done|done].
  intros s. unfold sighted. rewrite !list_elem_of_filter. by rewrite Hs.
Qed.
End arrival.

(** ** Instances *)

Section instances.
#[local] Existing Instance ascii_case.

(** Two switches that see each other, one over SNMP and one over gNMI. *)
Definition sample_observation (ip : Z) (local remote : string) (via : string) (at_ : Z) (port : string)
    : DeviceObservation :=
  mkDeviceObservation (V4 ip) (lit local) CHASSIS_SUBTYPE_MAC at_ (lit via)
    [mkLldpNeighbor (lit port) (lit remote) CHASSIS_SUBTYPE_MAC (s! "e9") 5 None (Some (s! "peer"))].

Definition sample_topology (obs : list DeviceObservation) : TopologyAssembler :=
  mkTopologyAssembler scan_metadata_default obs ∅ ∅ {[V4 1 := s! "ip:0.0.0.1"]}.

Definition obs_a := sample_observation 1 "AA:BB:CC:00:00:01" "aabbcc000002" "lldp" 10 "e1".
Definition obs_b := sample_observation 2 "aabbcc000002" "AA-BB-CC-00-00-01" "gnmi" 12 "e2".

Example sample_links :
  (λ ls : list LinkRecord, map (λ l, (lr_discovered_via l, lr_observed_at l, le_port (lr_a l),
     le_identity_key (lr_a l), le_port (lr_b l), le_identity_key (lr_b l))) ls) <$>
    topology_finish (H0 := reversed) (sample_topology [obs_a; obs_b]) =
  Some [(s! "gnmi,lldp", 12, s! "e1", Some (s! "ip:0.0.0.1"), s! "e2", None)].
Proof. by vm_compute. Qed.

Lemma topology_links_witness :
  ∃ keys links, topology_finish (H0 := reversed) (sample_topology [obs_a; obs_b]) = Some links ∧
    StronglySorted pair_le keys ∧ NoDup keys ∧
    (∀ k, k ∈ keys ↔ linked [obs_a; obs_b] k) ∧
    (∀ k, k ∈ keys → k.1 ≠ k.2 ∧ (k.2, k.1) ∉ keys) ∧
    Forall2 (link_for (sample_topology [obs_a; obs_b])) keys links.
Proof. apply (topology_links (HO := reversed)), reversed_laws. Defined.

Lemma links_arrival_order_witness :
  ∃ links links', topology_finish (H0 := in_order) (sample_topology [obs_a; obs_b]) = Some links ∧
    topology_finish (H0 := reversed) (sample_topology [obs_b; obs_a]) = Some links' ∧
    map (λ l, (lr_observed_at l, lr_discovered_via l)) links =
    map (λ l, (lr_observed_at l, lr_discovered_via l)) links'.
Proof.
  destruct (topology_finish (H0 := in_order) (sample_topology [obs_a; obs_b])) as [l|] eqn:E;
    [|by vm_compute in E].
  destruct (topology_finish (H0 := reversed) (sample_topology [obs_b; obs_a])) as [l'|] eqn:E';
    [|by vm_compute in E'].
  exists l, l'. split_and!; [done|done|].
  apply (links_arrival_order in_order reversed (sample_topology [obs_a; obs_b])
    (sample_topology [obs_b; obs_a]) l l' in_order_laws reversed_laws); [|done|done].
  apply Permutation_swap.
Defined.
End instances.
