(* ===== verification/Classifier.v ===== *)
(** * Classification rules: [classifier/]

    The rule tables, their compilation and their application to a fused record.
    The regular-expression engine is another crate: [RegexLib] stands for it. A
    compiled rule's capture buffer is scratch space that each search overwrites,
    so a search is the function of the text that fills it; spans count scalar
    values, as [Str] does. *)

From S2P Require Import Prelude Net Model.

(** ** The regular-expression engine *)

Class RegexLib `{ForeignErrors} := {
  Regex : Type;
  (** [Regex::new]. *)
  regex_new : Str → Result RegexError Regex;
  (** [Regex::capture_names]: group 0 first, [None] for an unnamed group. *)
  capture_names : Regex → list (option Str);
  (** [Regex::captures_read]: the span of every group, when the text matches. *)
  captures_read : Regex → Str → option (list (option (nat * nat)));
  (** [Regex::is_match]. *)
  is_match : Regex → Str → bool;
}.

(** ** Rule data *)

Inductive SignalKind : Type :=
  | KSnmpSysDescr
  | KSshBanner
  | KHttpBanner
  | KSnmpSysName
  | KSnmpSysObjectId.

#[global] Instance SignalKind_eq_dec : EqDecision SignalKind.
Proof. solve_decision. Defined.

Definition SIGNAL_KIND_COUNT : nat := 5.

Definition signal_kind_all : list SignalKind :=
  [KSnmpSysDescr; KSshBanner; KHttpBanner; KSnmpSysName; KSnmpSysObjectId].

Definition signal_kind_index (k : SignalKind) : nat :=
  match k with
  | KSnmpSysDescr => 0
  | KSshBanner => 1
  | KHttpBanner => 2
  | KSnmpSysName => 3
  | KSnmpSysObjectId => 4
  end.

Inductive MergeMode : Type := Extend | Replace.

#[global] Instance MergeMode_eq_dec : EqDecision MergeMode.
Proof. solve_decision. Defined.

Definition merge_mode_default : MergeMode := Extend.

Definition merge_mode_label (m : MergeMode) : Str :=
  match m with Extend => s! "extend" | Replace => s! "replace" end.

Record PlatformRule : Type := mkPlatformRule {
  pr_signal : SignalKind;
  pr_pattern : Str;
  pr_platform : option Str;
  pr_os_version_capture : option Str;
  pr_ssh_version_capture : option Str;
  pr_http_server_capture : option Str;
  pr_http_version_capture : option Str;
}.

Inductive RoleRule : Type :=
  | SysObjectIdPrefix (prefix role : Str)
  | SignalMatch (signal : SignalKind) (pattern role : Str)
  | PortsOpen (ports : list Z) (role : Str).

Inductive ClassifierConfig : Type :=
  | CNoop
  | CRules (merge_mode : MergeMode) (platform_rules : list PlatformRule)
      (role_rules : list RoleRule).

(** ** The baked-in tables *)

Inductive BannerHeuristics : Type := BannerOff | BannerOn.

Definition platform_rules (banner : BannerHeuristics) : list PlatformRule :=
  let claim (value : Str) := match banner with BannerOn => Some value | BannerOff => None end in
  let version := Some (s! "version") in
  [ mkPlatformRule KSnmpSysDescr (s! "^Cisco IOS Software.*Version (?P<version>[\d\.]+)")
      (Some (s! "cisco_ios")) version None None None;
    mkPlatformRule KSnmpSysDescr (s! "^Cisco IOS XR.*Version (?P<version>[\d\.]+)")
      (Some (s! "cisco_ios_xr")) version None None None;
    mkPlatformRule KSnmpSysDescr (s! "^Cisco NX-OS.*Version (?P<version>[\d\.]+)")
      (Some (s! "cisco_nxos")) version None None None;
    mkPlatformRule KSnmpSysDescr (s! "^Juniper Networks, Inc\..*JUNOS (?P<version>[\d\.]+)")
      (Some (s! "junos")) version None None None;
    mkPlatformRule KSnmpSysDescr (s! "^Arista Networks EOS version (?P<version>[\d\.]+)")
      (Some (s! "arista_eos")) version None None None;
    mkPlatformRule KSnmpSysDescr (s! "^SRLinux-v(?P<version>[\d\.]+)")
      (Some (s! "nokia_srlinux")) version None None None;
    mkPlatformRule KSnmpSysDescr (s! "^Linux\s+\S+\s+(?P<version>[\d\.]+)-")
      (Some (s! "linux")) version None None None;
    mkPlatformRule KSshBanner (s! "^SSH-2\.0-(?P<sshv>OpenSSH_[\d\.p]+)\s+(?P<osv>Ubuntu)")
      (claim (s! "linux")) (claim (s! "osv")) (Some (s! "sshv")) None None;
    mkPlatformRule KSshBanner (s! "^SSH-2\.0-(?P<sshv>OpenSSH_[\d\.p]+)\s+(?P<osv>Debian)")
      (claim (s! "linux")) (claim (s! "osv")) (Some (s! "sshv")) None None;
    mkPlatformRule KSshBanner (s! "^SSH-2\.0-(?P<sshv>OpenSSH_[\d\.p]+)\s+(?P<osv>FreeBSD)")
      (claim (s! "freebsd")) (claim (s! "osv")) (Some (s! "sshv")) None None;
    mkPlatformRule KHttpBanner (s! "^(?P<server>nginx)/(?P<version>[\d\.]+)")
      (claim (s! "linux")) None None (Some (s! "server")) version;
    mkPlatformRule KHttpBanner (s! "^(?P<server>Apache)/(?P<version>[\d\.]+)")
      (claim (s! "linux")) None None (Some (s! "server")) version ].

Definition baked_platform_rules : list PlatformRule := platform_rules BannerOff.

Definition baked_platform_rules_with_banner_heuristics : list PlatformRule :=
  platform_rules BannerOn.

Definition baked_role_rules : list RoleRule :=
  [ PortsOpen [22; 179] (s! "router");
    PortsOpen [22; 443; 830] (s! "router") ].

Definition baked_role_rules_with_port_heuristics : list RoleRule :=
  baked_role_rules ++
  [ PortsOpen [443] (s! "web_server");
    PortsOpen [80] (s! "web_server");
    PortsOpen [22] (s! "host") ].

(** ** Compiled rules *)

Inductive CaptureGroup : Type :=
  | Undeclared
  | Missing
  | GroupIndex (index : nat).

Definition is_declared (g : CaptureGroup) : bool :=
  match g with Undeclared => false | _ => true end.

Definition group_index (g : CaptureGroup) : option nat :=
  match g with GroupIndex i => Some i | Undeclared | Missing => None end.

(** Which of the record's still-empty fields a rule may fill. *)
Record Claims : Type := mkClaims {
  cl_platform : bool;
  cl_ssh_version : bool;
  cl_http_server : bool;
}.

Definition claims_any (c : Claims) : bool :=
  cl_platform c || cl_ssh_version c || cl_http_server c.

Record PlatformMatch : Type := mkPlatformMatch {
  pm_os_version : option Str;
  pm_ssh_version : option Str;
  pm_http_server : option Str;
  pm_http_version : option Str;
}.

(** [Iterator::position], for the name of a group. *)
Fixpoint position_of (name : Str) (groups : list (option Str)) (i : nat) : option nat :=
  match groups with
  | [] => None
  | g :: gs => if bool_decide (g = Some name) then Some i else position_of name gs (S i)
  end.

(** [text[start..end]]. *)
Definition slice (s : Str) (span : nat * nat) : Str :=
  take (span.2 - span.1) (drop span.1 s).

Section classifier.
Context `{FE : ForeignErrors} {RL : RegexLib}.

Definition resolve_group (regex : Regex) (name : option Str) : CaptureGroup :=
  match name with
  | None => Undeclared
  | Some name =>
      match position_of name (capture_names regex) 0 with
      | Some index => GroupIndex index
      | None => Missing
      end
  end.

Record CompiledRule : Type := mkCompiledRule {
  cr_signal : SignalKind;
  cr_regex : Regex;
  cr_platform : option Str;
  cr_os_version_group : CaptureGroup;
  cr_ssh_version_group : CaptureGroup;
  cr_http_server_group : CaptureGroup;
  cr_http_version_group : CaptureGroup;
}.

Inductive CompiledRoleRule : Type :=
  | CSysObjectIdPrefix (prefix role : Str)
  | CSignalMatch (signal : SignalKind) (regex : Regex) (role : Str)
  | CPortsOpen (ports : list Z) (role : Str).

Record RulesClassifier : Type := mkRulesClassifier {
  rc_platform_rules : list CompiledRule;
  rc_role_rules : list CompiledRoleRule;
}.

Definition compile_platform_rule (rule : PlatformRule) : Result ClassifierError CompiledRule :=
  _ ← match pr_platform rule, pr_os_version_capture rule with
      | None, Some group =>
          Err (InvalidPlatformRule (s! "platform rule `" ++ pr_pattern rule ++
            s! "` captures os_version from `" ++ group ++
            s! "` but claims no platform; os_version is the version of the platform, so a rule without one can never write it"))
      | _, _ => Ok tt
      end;
  _ ← match pr_http_server_capture rule, pr_http_version_capture rule with
      | None, Some group =>
          Err (InvalidPlatformRule (s! "platform rule `" ++ pr_pattern rule ++
            s! "` captures http_version from `" ++ group ++
            s! "` but captures no http_server; http_version is the version of the http_server, so a rule without one can never write it"))
      | _, _ => Ok tt
      end;
  regex ← map_err (InvalidRegex (pr_pattern rule)) (regex_new (pr_pattern rule));
  Ok {| cr_signal := pr_signal rule;
        cr_regex := regex;
        cr_platform := pr_platform rule;
        cr_os_version_group := resolve_group regex (pr_os_version_capture rule);
        cr_ssh_version_group := resolve_group regex (pr_ssh_version_capture rule);
        cr_http_server_group := resolve_group regex (pr_http_server_capture rule);
        cr_http_version_group := resolve_group regex (pr_http_version_capture rule) |}.

Definition compile_platform_rules (rules : list PlatformRule)
    : Result ClassifierError (list CompiledRule) :=
  mapM compile_platform_rule rules.

Definition compile_role_rule (rule : RoleRule) : Result ClassifierError CompiledRoleRule :=
  match rule with
  | SysObjectIdPrefix prefix role =>
      if is_empty prefix then
        Err (InvalidRoleRule (s! "sys_object_id_prefix rule for role `" ++ role ++
          s! "` has an empty prefix"))
      else if negb (is_dotted_decimal prefix) then
        Err (InvalidRoleRule (s! "sys_object_id_prefix rule for role `" ++ role ++
          s! "` has prefix `" ++ prefix ++
          s! "`, which is not a dotted-decimal OID: expected two or more digit arcs joined by `.` with no leading dot, as in `1.3.6.1.4.1.9.1`"))
      else Ok (CSysObjectIdPrefix prefix role)
  | SignalMatch signal pattern role =>
      regex ← map_err (InvalidRegex pattern) (regex_new pattern);
      Ok (CSignalMatch signal regex role)
  | PortsOpen ports role =>
      if is_empty ports then
        Err (InvalidRoleRule (s! "ports_open rule for role `" ++ role ++
          s! "` has an empty ports list"))
      else Ok (CPortsOpen ports role)
  end.

Definition compile_role_rules (rules : list RoleRule)
    : Result ClassifierError (list CompiledRoleRule) :=
  mapM compile_role_rule rules.

(** The tables behind [OnceLock]: the cell caches the value this computes. *)
Definition baked_platform_table : Result ClassifierError (list CompiledRule) :=
  compile_platform_rules baked_platform_rules.

Definition baked_role_table : Result ClassifierError (list CompiledRoleRule) :=
  compile_role_rules baked_role_rules.

Definition rules_classifier_new (merge_mode : MergeMode)
    (user_platform_rules : list PlatformRule) (user_role_rules : list RoleRule)
    : Result ClassifierError RulesClassifier :=
  platform_rules ← compile_platform_rules user_platform_rules;
  role_rules ← compile_role_rules user_role_rules;
  if decide (merge_mode = Extend) then
    baked ← baked_platform_table;
    baked_roles ← baked_role_table;
    Ok (mkRulesClassifier (platform_rules ++ baked) (role_rules ++ baked_roles))
  else Ok (mkRulesClassifier platform_rules role_rules).

(** ** Applying the rules *)

Definition signal_text_for (signal : Signal) (want : SignalKind) : option Str :=
  match want with
  | KSnmpSysDescr => match signal with SnmpSysDescr s => Some s | _ => None end
  | KSshBanner => match signal with SshBanner s => Some s | _ => None end
  | KHttpBanner => match signal with HttpBanner s => Some s | _ => None end
  | KSnmpSysName => match signal with SnmpSysName s => Some s | _ => None end
  | KSnmpSysObjectId => match signal with SnmpSysObjectId s => Some s | _ => None end
  end.

(** The text a group captured, when it took part in the match. *)
Definition captured (text : Str) (locs : list (option (nat * nat))) (wanted : bool)
    (group : CaptureGroup) : option Str :=
  if wanted then
    slice text <$> (group_index group ≫= λ index, mjoin (locs !! index))
  else None.

(** [CompiledRule::search] and [read_groups]. *)
Definition search (rule : CompiledRule) (text : Str) (claims : Claims) : option PlatformMatch :=
  locs ← captures_read (cr_regex rule) text;
  Some {| pm_os_version := captured text locs (cl_platform claims) (cr_os_version_group rule);
          pm_ssh_version := captured text locs (cl_ssh_version claims) (cr_ssh_version_group rule);
          pm_http_server := captured text locs (cl_http_server claims) (cr_http_server_group rule);
          pm_http_version := captured text locs (cl_http_server claims) (cr_http_version_group rule) |}.

Definition platform_rule_match (rule : CompiledRule) (record : DeviceRecord) (claims : Claims)
    : option PlatformMatch :=
  find_map (λ text, search rule text claims)
    (omap (λ signal, signal_text_for signal (cr_signal rule)) (dr_signals record)).

(** Assignments to the fields the rules write. *)
Definition set_platform (v : option Str) (r : DeviceRecord) : DeviceRecord :=
  set_classification v (dr_os_version r) (dr_ssh_version r) (dr_http_server r)
    (dr_http_version r) (dr_role r) r.
Definition set_os_version (v : option Str) (r : DeviceRecord) : DeviceRecord :=
  set_classification (dr_platform r) v (dr_ssh_version r) (dr_http_server r)
    (dr_http_version r) (dr_role r) r.
Definition set_ssh_version (v : option Str) (r : DeviceRecord) : DeviceRecord :=
  set_classification (dr_platform r) (dr_os_version r) v (dr_http_server r)
    (dr_http_version r) (dr_role r) r.
Definition set_http_server (v : option Str) (r : DeviceRecord) : DeviceRecord :=
  set_classification (dr_platform r) (dr_os_version r) (dr_ssh_version r) v
    (dr_http_version r) (dr_role r) r.
Definition set_http_version (v : option Str) (r : DeviceRecord) : DeviceRecord :=
  set_classification (dr_platform r) (dr_os_version r) (dr_ssh_version r) (dr_http_server r)
    v (dr_role r) r.
Definition set_role (v : option Str) (r : DeviceRecord) : DeviceRecord :=
  set_classification (dr_platform r) (dr_os_version r) (dr_ssh_version r) (dr_http_server r)
    (dr_http_version r) v r.

(** [if let Some(v) = value { record.field = Some(v) }]. *)
Definition assign_some (set : option Str → DeviceRecord → DeviceRecord) (value : option Str)
    (r : DeviceRecord) : DeviceRecord :=
  match value with Some v => set (Some v) r | None => r end.

(** The loop of [apply_platform_rules], the three flags being its state. *)
Fixpoint platform_loop (rules : list CompiledRule)
    (want_platform want_ssh_version want_http_server : bool) (record : DeviceRecord)
    : DeviceRecord :=
  match rules with
  | [] => record
  | rule :: rest =>
      if negb (want_platform || want_ssh_version || want_http_server) then record
      else
        let claims := {|
          cl_platform := want_platform && bool_decide (is_Some (cr_platform rule));
          cl_ssh_version := want_ssh_version && is_declared (cr_ssh_version_group rule);
          cl_http_server := want_http_server && is_declared (cr_http_server_group rule) |} in
        if negb (claims_any claims) then
          platform_loop rest want_platform want_ssh_version want_http_server record
        else
          match platform_rule_match rule record claims with
          | None => platform_loop rest want_platform want_ssh_version want_http_server record
          | Some matched =>
              let '(record, want_platform) :=
                if cl_platform claims then
                  (assign_some set_os_version (pm_os_version matched)
                     (set_platform (cr_platform rule) record), false)
                else (record, want_platform) in
              let '(record, want_ssh_version) :=
                if cl_ssh_version claims then
                  (assign_some set_ssh_version (pm_ssh_version matched) record, false)
                else (record, want_ssh_version) in
              let '(record, want_http_server) :=
                if cl_http_server claims then
                  (match pm_http_server matched with
                   | Some server =>
                       assign_some set_http_version (pm_http_version matched)
                         (set_http_server (Some server) record)
                   | None => record
                   end, false)
                else (record, want_http_server) in
              platform_loop rest want_platform want_ssh_version want_http_server record
          end
  end.

Definition apply_platform_rules (c : RulesClassifier) (record : DeviceRecord) : DeviceRecord :=
  platform_loop (rc_platform_rules c)
    (bool_decide (dr_platform record = None))
    (bool_decide (dr_ssh_version record = None))
    (bool_decide (dr_http_server record = None)) record.

Definition role_rule_matches (rule : CompiledRoleRule) (record : DeviceRecord) : bool :=
  match rule with
  | CSysObjectIdPrefix prefix _ =>
      existsb (λ s, match s with SnmpSysObjectId v => has_arc_prefix v prefix | _ => false end)
        (dr_signals record)
  | CSignalMatch signal regex _ =>
      existsb (is_match regex)
        (omap (λ s, signal_text_for s signal) (dr_signals record))
  | CPortsOpen ports _ =>
      forallb (λ want,
        existsb (λ s, match s with OpenPort p => p =? want | _ => false end)
          (dr_signals record)) ports
  end.

Definition role_of (rule : CompiledRoleRule) : Str :=
  match rule with
  | CSysObjectIdPrefix _ role | CSignalMatch _ _ role | CPortsOpen _ role => role
  end.

Fixpoint role_loop (rules : list CompiledRoleRule) (record : DeviceRecord) : DeviceRecord :=
  match rules with
  | [] => record
  | rule :: rest =>
      if role_rule_matches rule record then set_role (Some (role_of rule)) record
      else role_loop rest record
  end.

Definition apply_role_rules (c : RulesClassifier) (record : DeviceRecord) : DeviceRecord :=
  if bool_decide (is_Some (dr_role record)) then record
  else role_loop (rc_role_rules c) record.

Definition rules_classify (c : RulesClassifier) (record : DeviceRecord) : DeviceRecord :=
  apply_role_rules c (apply_platform_rules c record).

(** [dyn Classifier]. *)
Inductive AnyClassifier : Type :=
  | NoopClassifier
  | RulesOf (c : RulesClassifier).

Definition classify (c : AnyClassifier) (record : DeviceRecord)
    : Result RastreoError DeviceRecord :=
  match c with
  | NoopClassifier => Ok record
  | RulesOf c => Ok (rules_classify c record)
  end.

Definition create_classifier (config : ClassifierConfig) : Result RastreoError AnyClassifier :=
  match config with
  | CNoop => Ok NoopClassifier
  | CRules merge_mode platform_rules role_rules =>
      c ← map_err EClassifier (rules_classifier_new merge_mode platform_rules role_rules);
      Ok (RulesOf c)
  end.

(** ** Selecting a classifier by name: [classifier/selection.rs] *)

Inductive ClassifierKind : Type := KindNoop | KindRules.

Definition classifier_kind_all : list ClassifierKind := [KindNoop; KindRules].

Definition classifier_kind_label (k : ClassifierKind) : Str :=
  match k with KindNoop => s! "noop" | KindRules => s! "rules" end.

Definition classifier_kind_from_label (label : Str) : option ClassifierKind :=
  if bool_decide (label = s! "noop") then Some KindNoop
  else if bool_decide (label = s! "rules") then Some KindRules
  else None.

Definition DEFAULT_CLASSIFIER_KIND : ClassifierKind := KindRules.

Definition unknown_classifier_kind (name : Str) : RastreoError :=
  EConfig (UnknownClassifierKind name
    (join (s! ", ") (classifier_kind_label <$> classifier_kind_all))).

Definition parse_classifier_selection (value : Str) : Result RastreoError ClassifierKind :=
  let name := trim value in
  ok_or (classifier_kind_from_label name) (unknown_classifier_kind name).

(** [ClassifierSelectionOptions] holds the one knob [merge_mode]. *)
Definition expand_classifier_selection (kind : ClassifierKind) (merge_mode : option MergeMode)
    : ClassifierConfig :=
  match kind with
  | KindNoop => CNoop
  | KindRules => CRules (default merge_mode_default merge_mode) [] []
  end.

Definition default_classifier_config : ClassifierConfig :=
  expand_classifier_selection DEFAULT_CLASSIFIER_KIND None.
End classifier.
