(* ===== verification/ClassifierTheorems.v ===== *)
(** * What classification decides

    The single pass over the platform rules is three independent first-match
    searches, one per claim; the role is the first role rule that holds; a rule
    set is accepted exactly when each of its rules is valid. *)

From S2P Require Import Prelude Net F64 Model Classifier.

(** ** The reference reading of the tables *)

Section reference.
Context `{FE : ForeignErrors} {RL : RegexLib}.
Implicit Types (rule : CompiledRule) (rules : list CompiledRule) (r : DeviceRecord).

(** The text of a signal of the kind a rule reads. *)
Definition text_of (kind : SignalKind) (s : Signal) : option Str :=
  match s, kind with
  | SnmpSysDescr t, KSnmpSysDescr | SshBanner t, KSshBanner | HttpBanner t, KHttpBanner
  | SnmpSysName t, KSnmpSysName | SnmpSysObjectId t, KSnmpSysObjectId => Some t
  | _, _ => None
  end.

Lemma signal_text_for_text (s : Signal) kind : signal_text_for s kind = text_of kind s.
Proof using Type. by destruct kind, s. Qed.

Lemma texts_of_kind kind (signals : list Signal) :
  omap (λ s, signal_text_for s kind) signals = omap (text_of kind) signals.
Proof using Type. induction signals as [|s l IH]; [done|]. cbn. by rewrite signal_text_for_text, <-IH. Qed.

(** The first text of the rule's signal kind that its pattern matches. *)
Definition rule_hit rule (signals : list Signal) : option (Str * list (option (nat * nat))) :=
  find_map (λ text, pair text <$> captures_read (cr_regex rule) text)
    (omap (text_of (cr_signal rule)) signals).

(** The first rule that makes the claim and matches, with what it matched. *)
Definition deciding (claim : CompiledRule → bool) rules (signals : list Signal)
    : option (CompiledRule * (Str * list (option (nat * nat)))) :=
  find_map (λ rule, if claim rule then pair rule <$> rule_hit rule signals else None) rules.

Definition claims_platform rule : bool := bool_decide (is_Some (cr_platform rule)).
Definition names_group (g : CaptureGroup) : bool :=
  match g with Undeclared => false | Missing | GroupIndex _ => true end.
Definition claims_ssh rule : bool := names_group (cr_ssh_version_group rule).
Definition claims_http rule : bool := names_group (cr_http_server_group rule).

(** What a group of the match holds: the piece of the text between the ends the
    engine reports for it. *)
Definition group_text (hit : Str * list (option (nat * nat))) (g : CaptureGroup) : option Str :=
  match g with
  | GroupIndex i =>
      match hit.2 !! i with
      | Some (Some (start, end_)) => Some (take (end_ - start) (drop start hit.1))
      | _ => None
      end
  | Undeclared | Missing => None
  end.

Lemma captured_text hit g : captured hit.1 hit.2 true g = group_text hit g.
Proof using Type.
  destruct g as [| |i]; try done. unfold captured, group_text. cbn.
  by destruct (hit.2 !! i) as [[[? ?]|]|].
Qed.

(** [Some] of the first that is set. *)
Definition or_else (a b : option Str) : option Str := match a with Some _ => a | None => b end.

(** The platform and its version: an unset platform comes from the deciding rule. *)
Definition decided_platform (want : bool) rules r : option Str * option Str :=
  match (if want then deciding claims_platform rules (dr_signals r) else None) with
  | Some (rule, hit) =>
      (cr_platform rule, or_else (group_text hit (cr_os_version_group rule)) (dr_os_version r))
  | None => (dr_platform r, dr_os_version r)
  end.

Definition decided_ssh (want : bool) rules r : option Str :=
  match (if want then deciding claims_ssh rules (dr_signals r) else None) with
  | Some (rule, hit) => or_else (group_text hit (cr_ssh_version_group rule)) (dr_ssh_version r)
  | None => dr_ssh_version r
  end.

(** The server and its version: the version counts only with its server. *)
Definition decided_http (want : bool) rules r : option Str * option Str :=
  match (if want then deciding claims_http rules (dr_signals r) else None) with
  | Some (rule, hit) =>
      match group_text hit (cr_http_server_group rule) with
      | Some server =>
          (Some server, or_else (group_text hit (cr_http_version_group rule)) (dr_http_version r))
      | None => (dr_http_server r, dr_http_version r)
      end
  | None => (dr_http_server r, dr_http_version r)
  end.

(** When a role rule holds of a record. *)
Definition role_holds (rule : CompiledRoleRule) r : Prop :=
  match rule with
  | CSysObjectIdPrefix prefix _ =>
      ∃ oid, SnmpSysObjectId oid ∈ dr_signals r ∧ split_on 46 prefix `prefix_of` split_on 46 oid
  | CSignalMatch kind regex _ =>
      ∃ s text, s ∈ dr_signals r ∧ text_of kind s = Some text ∧ is_match regex text = true
  | CPortsOpen ports _ => ∀ p, p ∈ ports → OpenPort p ∈ dr_signals r
  end.

(** The role of the first rule that holds, and of no later one. *)
Definition role_decided (rules : list CompiledRoleRule) r (role : option Str) : Prop :=
  (∃ l1 (rule : CompiledRoleRule) l2, rules = l1 ++ rule :: l2 ∧ Forall (λ x, ¬ role_holds x r) l1 ∧
     role_holds rule r ∧ role = Some (role_of rule)) ∨
  (Forall (λ x, ¬ role_holds x r) rules ∧ role = None).

(** ** One pass, three searches *)

Lemma platform_rule_match_hit rule r claims :
  platform_rule_match rule r claims =
  (λ hit, {| pm_os_version := captured hit.1 hit.2 (cl_platform claims) (cr_os_version_group rule);
             pm_ssh_version := captured hit.1 hit.2 (cl_ssh_version claims) (cr_ssh_version_group rule);
             pm_http_server := captured hit.1 hit.2 (cl_http_server claims) (cr_http_server_group rule);
             pm_http_version := captured hit.1 hit.2 (cl_http_server claims) (cr_http_version_group rule) |})
    <$> rule_hit rule (dr_signals r).
Proof using Type.
  unfold platform_rule_match, rule_hit.
  rewrite texts_of_kind. generalize (omap (text_of (cr_signal rule)) (dr_signals r)).
  intros texts. induction texts as [|t texts IH]; [done|]. cbn [find_map].
  unfold search at 1. destruct (captures_read (cr_regex rule) t); [done|]. exact IH.
Qed.

Lemma deciding_cons claim rule rules signals :
  deciding claim (rule :: rules) signals =
  match (if claim rule then pair rule <$> rule_hit rule signals else None) with
  | Some d => Some d
  | None => deciding claim rules signals
  end.
Proof using Type. done. Qed.

Definition decided wp ws wh rules r : DeviceRecord :=
  set_classification (decided_platform wp rules r).1 (decided_platform wp rules r).2
    (decided_ssh ws rules r) (decided_http wh rules r).1 (decided_http wh rules r).2
    (dr_role r) r.

Lemma decided_none rules r : decided false false false rules r = r.
Proof using Type. by destruct r. Qed.

(** A rule that matches nothing decides nothing. *)
Lemma decided_miss wp ws wh rule rules r :
  rule_hit rule (dr_signals r) = None →
  decided wp ws wh (rule :: rules) r = decided wp ws wh rules r.
Proof using Type.
  intros Hh. unfold decided, decided_platform, decided_ssh, decided_http.
  rewrite !deciding_cons, !Hh. destruct wp, ws, wh, (claims_platform rule), (claims_ssh rule),
    (claims_http rule); done.
Qed.

Lemma decided_unclaimed wp ws wh rule rules r :
  wp && claims_platform rule = false → ws && claims_ssh rule = false →
  wh && claims_http rule = false →
  decided wp ws wh (rule :: rules) r = decided wp ws wh rules r.
Proof using Type.
  unfold decided, decided_platform, decided_ssh, decided_http. rewrite !deciding_cons.
  destruct wp, ws, wh, (claims_platform rule), (claims_ssh rule), (claims_http rule); done.
Qed.

Lemma platform_loop_decided rules wp ws wh r :
  platform_loop rules wp ws wh r = decided wp ws wh rules r.
Proof using Type.
  revert wp ws wh r. induction rules as [|rule rules IH]; intros wp ws wh r.
  { by destruct wp, ws, wh, r. }
  cbn [platform_loop]. destruct (wp || ws || wh) eqn:Hw; cbn [negb]; last first.
  { break_bool. subst. by rewrite decided_none. }
  change (is_declared (cr_ssh_version_group rule)) with (claims_ssh rule).
  change (is_declared (cr_http_server_group rule)) with (claims_http rule).
  fold (claims_platform rule).
  unfold claims_any; cbn [cl_platform cl_ssh_version cl_http_server].
  destruct (wp && claims_platform rule || ws && claims_ssh rule || wh && claims_http rule) eqn:Hc;
    cbn [negb]; last first.
  { break_bool. by rewrite IH, decided_unclaimed. }
  rewrite platform_rule_match_hit. destruct (rule_hit rule (dr_signals r)) as [hit|] eqn:Hh;
    cbn [fmap option_fmap option_map]; [|by rewrite IH, decided_miss].
  unfold decided at 1, decided_platform at 1 2, decided_ssh at 1, decided_http at 1 2.
  cbn [cl_platform cl_ssh_version cl_http_server pm_os_version pm_ssh_version pm_http_server
       pm_http_version].
  destruct wp, ws, wh, (claims_platform rule) eqn:?, (claims_ssh rule) eqn:?,
    (claims_http rule) eqn:?; try discriminate Hc; cbn [andb]; rewrite IH;
    unfold decided, decided_platform, decided_ssh, decided_http;
    rewrite ?captured_text, ?deciding_cons, ?Heqb, ?Heqb0, ?Heqb1, ?Hh; cbn [fmap option_fmap option_map];
    try destruct (group_text hit (cr_os_version_group rule));
    try destruct (group_text hit (cr_ssh_version_group rule));
    try destruct (group_text hit (cr_http_server_group rule));
    try destruct (group_text hit (cr_http_version_group rule)); reflexivity.
Qed.

(** ** Roles *)

Lemma role_rule_matches_holds (rule : CompiledRoleRule) r :
  role_rule_matches rule r = true ↔ role_holds rule r.
Proof using Type.
  destruct rule as [prefix role|kind regex role|ports role]; cbn [role_rule_matches role_holds].
  - rewrite existsb_exists. split.
    + intros (s & Hs & Hm). apply list_elem_of_In in Hs. destruct s; try done.
      exists v. by rewrite <-has_arc_prefix_arcs.
    + intros (oid & Hs & Hp). exists (SnmpSysObjectId oid). rewrite <-list_elem_of_In.
      by rewrite has_arc_prefix_arcs.
  - rewrite existsb_exists. setoid_rewrite <-list_elem_of_In.
    setoid_rewrite list_elem_of_omap. setoid_rewrite signal_text_for_text. split.
    + intros (t & (s & Hs & Ht) & Hm). by exists s, t.
    + intros (s & t & Hs & Ht & Hm). exists t. split; [by exists s|done].
  - rewrite forallb_forall. setoid_rewrite <-list_elem_of_In. setoid_rewrite existsb_exists.
    setoid_rewrite <-list_elem_of_In. split; intros H p Hp.
    + destruct (H p Hp) as (s & Hs & Hm). destruct s; try done. break_bool. by subst.
    + exists (OpenPort p). split; [by apply H|apply Z.eqb_refl].
Qed.

Lemma role_loop_decided (rules : list CompiledRoleRule) r :
  dr_role r = None →
  ∃ role, role_decided rules r role ∧ role_loop rules r = set_role role r.
Proof using Type.
  intros Hr. induction rules as [|rule rules (role & IH & E)]; cbn [role_loop].
  - exists None. split; [by right|]. destruct r; cbn in *; by subst.
  - destruct (role_rule_matches rule r) eqn:Hm.
    + exists (Some (role_of rule)). split; [|done]. left. exists [], rule, rules.
      split_and!; [done|constructor|by apply role_rule_matches_holds|done].
    + assert (¬ role_holds rule r) as Hn by (by rewrite <-role_rule_matches_holds, Hm).
      exists role. split; [|done].
      destruct IH as [(l1 & x & l2 & -> & H1 & H2 & ->)|[H1 ->]].
      * left. exists (rule :: l1), x, l2. split_and!; [done|by constructor|done|done].
      * right. split; [by constructor|done].
Qed.

(** The fields classification reads but never writes. *)
Lemma decided_signals wp ws wh rules r : dr_signals (decided wp ws wh rules r) = dr_signals r.
Proof using Type. done. Qed.

Lemma role_holds_signals (rule : CompiledRoleRule) r r' :
  dr_signals r = dr_signals r' → role_holds rule r ↔ role_holds rule r'.
Proof using Type. intros E. unfold role_holds. by rewrite E. Qed.

Lemma role_decided_signals (rules : list CompiledRoleRule) r r' role :
  dr_signals r = dr_signals r' → role_decided rules r role → role_decided rules r' role.
Proof using Type.
  intros E [(l1 & x & l2 & -> & H1 & H2 & ->)|[H1 ->]].
  - left. exists l1, x, l2. split_and!; [done| |by apply (role_holds_signals _ _ _ E)|done].
    eapply Forall_impl; [done|]. intros y Hy Hy'. apply Hy. by apply (role_holds_signals _ _ _ E).
  - right. split; [|done]. eapply Forall_impl; [done|]. intros y Hy Hy'. apply Hy. by apply (role_holds_signals _ _ _ E).
Qed.

Lemma role_decided_unique (rules : list CompiledRoleRule) r a b : role_decided rules r a → role_decided rules r b → a = b.
Proof using Type.
  intros Ha Hb. revert Ha Hb. induction rules as [|x rules IH].
  { intros [([|??] & ? & ? & ? & _)|[_ ->]]; [done|done|].
    intros [([|??] & ? & ? & ? & _)|[_ ->]]; done. }
  assert (∀ role, role_decided (x :: rules) r role →
    role_holds x r ∧ role = Some (role_of x) ∨ ¬ role_holds x r ∧ role_decided rules r role) as Hinv.
  { intros role [(l1 & y & l2 & E & H1 & H2 & ->)|[H1 ->]].
    - destruct l1 as [|z l1]; simplify_eq/=; [by left|].
      apply Forall_cons in H1 as [? ?]. right. split; [done|]. left. eauto 10.
    - apply Forall_cons in H1 as [? ?]. right. split; [done|]. by right. }
  intros [[? ->]|[? Ha]]%Hinv [[? ->]|[? Hb]]%Hinv; [done|done|done|]. by apply IH.
Qed.

(** What [rules_classify] computes. *)
Lemma rules_classify_decided (c : RulesClassifier) r :
  ∃ role, (if dr_role r is Some _ then role = dr_role r else role_decided (rc_role_rules c) r role) ∧
    rules_classify c r =
      set_role role (decided (bool_decide (dr_platform r = None))
        (bool_decide (dr_ssh_version r = None)) (bool_decide (dr_http_server r = None))
        (rc_platform_rules c) r).
Proof using Type.
  unfold rules_classify, apply_role_rules, apply_platform_rules. rewrite platform_loop_decided.
  generalize (bool_decide (dr_platform r = None)) (bool_decide (dr_ssh_version r = None))
    (bool_decide (dr_http_server r = None)). intros wp ws wh.
  change (dr_role (decided wp ws wh (rc_platform_rules c) r)) with (dr_role r).
  destruct (dr_role r) as [x|] eqn:Hr.
  - exists (Some x). split; [done|]. rewrite bool_decide_true by eauto.
    unfold decided, set_role. destruct r; cbn in *. by subst.
  - rewrite bool_decide_false by (intros [? ?]; done).
    destruct (role_loop_decided (rc_role_rules c) (decided wp ws wh (rc_platform_rules c) r))
      as (role & Hd & E); [done|].
    exists role. split; [|done]. by eapply role_decided_signals.
Qed.

(** A second search finds each field set, or fails as the first did. *)
Lemma decided_platform_idem rules r r1 (w := λ r, bool_decide (dr_platform r = None)) :
  dr_signals r1 = dr_signals r →
  (dr_platform r1, dr_os_version r1) = decided_platform (w r) rules r →
  decided_platform (w r1) rules r1 = (dr_platform r1, dr_os_version r1).
Proof using Type.
  subst w. intros Hs H1. unfold decided_platform at 1. case_bool_decide as Hn; [|done].
  rewrite Hs. destruct (deciding _ _ _) as [[rule hit]|] eqn:E; [|done]. exfalso.
  revert H1. unfold decided_platform. case_bool_decide as H2; [|intros [=]; congruence].
  rewrite E. intros [= H3 _]. unfold deciding in E.
  apply find_map_Some in E as (l1 & x & l2 & _ & _ & E).
  unfold claims_platform in E. case_bool_decide as H4; [|done].
  destruct (rule_hit x (dr_signals r)); [|done]. destruct H4 as [pl H4].
  cbn in E. injection E as -> _. congruence.
Qed.

Lemma decided_ssh_idem rules r r1 (w := λ r, bool_decide (dr_ssh_version r = None)) :
  dr_signals r1 = dr_signals r →
  dr_ssh_version r1 = decided_ssh (w r) rules r →
  decided_ssh (w r1) rules r1 = dr_ssh_version r1.
Proof using Type.
  subst w. intros Hs H1. unfold decided_ssh at 1. case_bool_decide as Hn; [|done].
  rewrite Hs. destruct (deciding _ _ _) as [[rule hit]|] eqn:E; [|done].
  revert H1. unfold decided_ssh. case_bool_decide as H2; [|intros; congruence].
  rewrite E, Hn, H2. by destruct (group_text hit (cr_ssh_version_group rule)).
Qed.

Lemma decided_http_idem rules r r1 (w := λ r, bool_decide (dr_http_server r = None)) :
  dr_signals r1 = dr_signals r →
  (dr_http_server r1, dr_http_version r1) = decided_http (w r) rules r →
  decided_http (w r1) rules r1 = (dr_http_server r1, dr_http_version r1).
Proof using Type.
  subst w. intros Hs H1. unfold decided_http at 1. case_bool_decide as Hn; [|done].
  rewrite Hs. destruct (deciding _ _ _) as [[rule hit]|] eqn:E; [|done].
  revert H1. unfold decided_http. case_bool_decide as H2; [|intros [=]; congruence].
  rewrite E, Hn. by destruct (group_text hit (cr_http_server_group rule)).
Qed.

Definition decide_record rules r : DeviceRecord :=
  decided (bool_decide (dr_platform r = None)) (bool_decide (dr_ssh_version r = None))
    (bool_decide (dr_http_server r = None)) rules r.

Lemma decide_record_idem rules r : decide_record rules (decide_record rules r) = decide_record rules r.
Proof using Type.
  set (r1 := decide_record rules r). unfold decide_record, decided.
  rewrite (decided_platform_idem rules r r1), (decided_ssh_idem rules r r1),
    (decided_http_idem rules r r1); [|done|by destruct (decided_http _ _ _) eqn:E; subst r1; cbn; rewrite E
     |done|done|done|by destruct (decided_platform _ _ _) eqn:E; subst r1; cbn; rewrite E].
  by destruct r1.
Qed.

(** C7. A pass over the rules is three independent searches and a fourth for the
    role: an unset platform comes from the first rule that claims one and
    matches, an unset SSH version from the first that captures it and matches, an
    unset HTTP server likewise, and an unset role from the first role rule that
    holds, object identifiers being compared arc by arc. The version that goes
    with a platform or a server is replaced by what the deciding rule captured,
    even when the record already had one: the documentation promises that a set
    field is never overwritten, which holds of the platform, the SSH version, the
    server and the role, and of a paired version only while the field it
    versions is set. Every other field is left alone. *)
Theorem classify_first_match (c : RulesClassifier) r :
  ∃ r' role, classify (RulesOf c) r = Ok r' ∧
    r' = set_classification
      (decided_platform (bool_decide (dr_platform r = None)) (rc_platform_rules c) r).1
      (decided_platform (bool_decide (dr_platform r = None)) (rc_platform_rules c) r).2
      (decided_ssh (bool_decide (dr_ssh_version r = None)) (rc_platform_rules c) r)
      (decided_http (bool_decide (dr_http_server r = None)) (rc_platform_rules c) r).1
      (decided_http (bool_decide (dr_http_server r = None)) (rc_platform_rules c) r).2
      role r ∧
    (if dr_role r is Some _ then role = dr_role r else role_decided (rc_role_rules c) r role) ∧
    (is_Some (dr_platform r) → dr_platform r' = dr_platform r ∧ dr_os_version r' = dr_os_version r) ∧
    (is_Some (dr_ssh_version r) → dr_ssh_version r' = dr_ssh_version r) ∧
    (is_Some (dr_http_server r) → dr_http_server r' = dr_http_server r ∧ dr_http_version r' = dr_http_version r) ∧
    (∀ rule hit v, dr_platform r = None → deciding claims_platform (rc_platform_rules c) (dr_signals r) = Some (rule, hit) →
       group_text hit (cr_os_version_group rule) = Some v → dr_os_version r' = Some v).
Proof using Type.
  destruct (rules_classify_decided c r) as (role & Hrole & E).
  exists (rules_classify c r), role. split_and!; [done|rewrite E; reflexivity|done|..]; rewrite E.
  - intros [p Hp]. cbn. rewrite bool_decide_false by congruence. by rewrite Hp.
  - intros [p Hp]. cbn. rewrite bool_decide_false by congruence. by rewrite Hp.
  - intros [p Hp]. cbn. rewrite bool_decide_false by congruence. by rewrite Hp.
  - intros rule hit v Hn Hd Hv. cbn. rewrite bool_decide_true by done. unfold decided_platform. by rewrite Hd, Hv.
Qed.

(** Classifying a classified record changes nothing, whatever the rules and
    whichever fields the first pass could not fill. *)
Theorem classify_idempotent (c : AnyClassifier) r :
  classify c r ≫= classify c = classify c r.
Proof using Type.
  destruct c as [|c]; [done|]. cbn. f_equal.
  destruct (rules_classify_decided c r) as (role & Hrole & E). rewrite E.
  set (r1 := decided _ _ _ _ r) in *.
  destruct (rules_classify_decided c (set_role role r1)) as (role2 & Hrole2 & ->).
  pose proof (decide_record_idem (rc_platform_rules c) r) as Hi.
  change (decide_record (rc_platform_rules c) r) with r1 in Hi. unfold decide_record in Hi.
  transitivity (set_role role2 (decided (bool_decide (dr_platform r1 = None))
    (bool_decide (dr_ssh_version r1 = None)) (bool_decide (dr_http_server r1 = None))
    (rc_platform_rules c) r1)); [done|].
  rewrite Hi. f_equal. cbn in Hrole2. destruct role as [x|]; [done|].
  destruct (dr_role r); [done|].
  assert (role_decided (rc_role_rules c) r role2) as H2.
  { eapply role_decided_signals; [|done]. done. }
  by eapply role_decided_unique.
Qed.

(** ** Compiling a rule set *)

(** What a platform rule must satisfy: a version is captured only beside what it
    is the version of, and the pattern compiles. *)
Definition platform_rule_valid (rule : PlatformRule) : Prop :=
  (pr_platform rule = None → pr_os_version_capture rule = None) ∧
  (pr_http_server_capture rule = None → pr_http_version_capture rule = None) ∧
  is_ok (regex_new (pr_pattern rule)) = true.

Definition role_rule_valid (rule : RoleRule) : Prop :=
  match rule with
  | SysObjectIdPrefix prefix _ => is_dotted_decimal prefix = true
  | SignalMatch _ pattern _ => is_ok (regex_new pattern) = true
  | PortsOpen ports _ => ports ≠ []
  end.

Lemma compile_platform_rule_valid (rule : PlatformRule) :
  is_ok (compile_platform_rule rule) = true ↔ platform_rule_valid rule.
Proof using Type.
  unfold compile_platform_rule, platform_rule_valid. split.
  - destruct (pr_platform rule), (pr_os_version_capture rule), (pr_http_server_capture rule),
      (pr_http_version_capture rule), (regex_new (pr_pattern rule)); cbn; done.
  - intros (H1 & H2 & H3).
    destruct (pr_platform rule), (pr_os_version_capture rule), (pr_http_server_capture rule),
      (pr_http_version_capture rule), (regex_new (pr_pattern rule)); cbn in *; try done;
      try (specialize (H1 eq_refl); done); specialize (H2 eq_refl); done.
Qed.

Lemma compile_role_rule_valid (rule : RoleRule) :
  is_ok (compile_role_rule rule) = true ↔ role_rule_valid rule.
Proof using Type.
  destruct rule as [prefix role|kind pattern role|ports role]; cbn [compile_role_rule role_rule_valid].
  - destruct prefix as [|x prefix]; [done|]. cbn [is_empty].
    by destruct (is_dotted_decimal (x :: prefix)).
  - by destruct (regex_new pattern).
  - by destruct ports.
Qed.

(** The first invalid rule is the one whose error is reported. *)
Definition first_invalid {A C} (compile : A → Result ClassifierError C) (valid : A → Prop)
    (rules : list A) (e : ClassifierError) : Prop :=
  ∃ l1 (rule : A) l2, rules = l1 ++ rule :: l2 ∧ Forall valid l1 ∧ ¬ valid rule ∧ compile rule = Err e.

Lemma compile_all {A C} (compile : A → Result ClassifierError C) (valid : A → Prop) (rules : list A) :
  (∀ rule : A, is_ok (compile rule) = true ↔ valid rule) →
  match mapM compile rules with
  | Ok ks => Forall valid rules ∧ Forall2 (λ (rule : A) k, compile rule = Ok k) rules ks
  | Err e => first_invalid compile valid rules e
  end.
Proof using Type.
  intros Hv. destruct (mapM compile rules) as [ks|e] eqn:E.
  - apply mapM_Ok in E. split; [|done]. apply Forall_forall. intros x Hx.
    apply list_elem_of_lookup in Hx as [i Hi].
    destruct (Forall2_lookup_l _ _ _ _ _ E Hi) as (k & _ & Hk). apply Hv. by rewrite Hk.
  - apply mapM_Err in E as (l1 & x & l2 & -> & H1 & Hx). exists l1, x, l2.
    split_and!; [done| | |done].
    + eapply Forall_impl; [exact H1|]. intros y Hy. by apply Hv.
    + by rewrite <-Hv, Hx.
Qed.

(** Every check but the compilation of its patterns passes on the baked tables. *)
Definition versions_owned (rule : PlatformRule) : bool :=
  match pr_platform rule, pr_os_version_capture rule with None, Some _ => false | _, _ => true end &&
  match pr_http_server_capture rule, pr_http_version_capture rule with
  | None, Some _ => false | _, _ => true end.

Lemma baked_versions_owned : forallb versions_owned baked_platform_rules = true.
Proof using Type. reflexivity. Qed.

Lemma baked_rule_error (rule : PlatformRule) e :
  rule ∈ baked_platform_rules → compile_platform_rule rule = Err e →
  ∃ source, regex_new (pr_pattern rule) = Err source ∧ e = InvalidRegex (pr_pattern rule) source.
Proof using Type.
  intros Hin. pose proof baked_versions_owned as Hb. rewrite forallb_forall in Hb.
  apply list_elem_of_In in Hin. specialize (Hb _ Hin). revert Hb.
  unfold versions_owned, compile_platform_rule.
  destruct (pr_platform rule), (pr_os_version_capture rule), (pr_http_server_capture rule),
    (pr_http_version_capture rule), (regex_new (pr_pattern rule)) as [x|source]; cbn; try done;
  intros _ [= <-]; eauto.
Qed.

Lemma baked_role_table_ok :
  baked_role_table =
    Ok [CPortsOpen [22; 179] (s! "router"); CPortsOpen [22; 443; 830] (s! "router")].
Proof using Type. done. Qed.

(** The rules of a classifier, the baked ones last and only when extending. *)
Definition effective_platform_rules (mode : MergeMode) (user : list PlatformRule) :=
  user ++ (if decide (mode = Extend) then baked_platform_rules else []).
Definition effective_role_rules (mode : MergeMode) (user : list RoleRule) :=
  user ++ (if decide (mode = Extend) then baked_role_rules else []).

(** A rule set is accepted exactly when each rule is valid (a version only
    beside what it versions, dotted-decimal prefixes, non-empty port lists,
    patterns that compile), and then holds the user's rules in order before the
    baked ones; otherwise the error is that of the first invalid rule, platform
    rules being checked before role rules and the user's before the baked. *)
Theorem rules_classifier_new_spec mode up ur :
  match rules_classifier_new mode up ur with
  | Ok c =>
      Forall platform_rule_valid (effective_platform_rules mode up) ∧
      Forall role_rule_valid (effective_role_rules mode ur) ∧
      Forall2 (λ (rule : PlatformRule) k, compile_platform_rule rule = Ok k)
        (effective_platform_rules mode up) (rc_platform_rules c) ∧
      Forall2 (λ (rule : RoleRule) k, compile_role_rule rule = Ok k)
        (effective_role_rules mode ur) (rc_role_rules c)
  | Err e =>
      first_invalid compile_platform_rule platform_rule_valid up e ∨
      Forall platform_rule_valid up ∧ first_invalid compile_role_rule role_rule_valid ur e ∨
      mode = Extend ∧ Forall platform_rule_valid up ∧ Forall role_rule_valid ur ∧
        ∃ (rule : PlatformRule) source, rule ∈ baked_platform_rules ∧
          regex_new (pr_pattern rule) = Err source ∧ e = InvalidRegex (pr_pattern rule) source
  end.
Proof using Type.
  unfold rules_classifier_new, compile_platform_rules, compile_role_rules.
  pose proof (compile_all _ _ up compile_platform_rule_valid) as Hp.
  destruct (mapM compile_platform_rule up) as [ps|e]; cbn [mbind Result_bind]; [|by left].
  pose proof (compile_all _ _ ur compile_role_rule_valid) as Hr.
  destruct (mapM compile_role_rule ur) as [rs|e]; cbn [mbind Result_bind];
    [|right; left; by destruct Hp].
  destruct Hp as [Hpv Hp], Hr as [Hrv Hr].
  unfold effective_platform_rules, effective_role_rules. case_decide as Hm; last first.
  { rewrite !app_nil_r. by cbn. }
  unfold baked_platform_table, compile_platform_rules.
  pose proof (compile_all _ _ baked_platform_rules compile_platform_rule_valid) as Hb.
  destruct (mapM compile_platform_rule baked_platform_rules) as [bs|e] eqn:E;
    cbn [mbind Result_bind].
  - rewrite baked_role_table_ok. cbn [rc_platform_rules rc_role_rules]. destruct Hb as [Hbv Hb].
    split_and!; [by apply Forall_app|apply Forall_app|by apply Forall2_app|apply Forall2_app].
    + split; [done|]. repeat constructor; done.
    + done.
    + repeat constructor; done.
  - right; right. split_and!; [done..|].
    destruct Hb as (l1 & rule & l2 & Hsplit & _ & Hinv & Herr).
    assert (rule ∈ baked_platform_rules) as Hin by (rewrite Hsplit; set_solver).
    destruct (baked_rule_error rule e Hin Herr) as (source & ? & ?). eauto.
Qed.

(** ** The default classifier *)

Lemma compile_platform_rule_keeps (rule : PlatformRule) k :
  compile_platform_rule rule = Ok k →
  cr_signal k = pr_signal rule ∧ cr_platform k = pr_platform rule.
Proof using Type. unfold compile_platform_rule. intros H. inv_ok. by subst. Qed.

(** In the baked table a platform is claimed from [sysDescr] alone. *)
Lemma baked_platform_from_descr (rule : PlatformRule) :
  rule ∈ baked_platform_rules → is_Some (pr_platform rule) → pr_signal rule = KSnmpSysDescr.
Proof using Type.
  intros Hin%list_elem_of_In.
  assert (forallb (λ rule : PlatformRule, bool_decide (pr_platform rule = None ∨ pr_signal rule = KSnmpSysDescr))
    baked_platform_rules = true) as Hb by reflexivity.
  rewrite forallb_forall in Hb. specialize (Hb _ Hin). break_bool.
  intros [p Hp]. destruct Hb as [Hb|Hb]; [congruence|done].
Qed.

Lemma rule_hit_no_text rule (signals : list Signal) :
  (∀ s, s ∈ signals → text_of (cr_signal rule) s = None) → rule_hit rule signals = None.
Proof using Type.
  intros H. unfold rule_hit. assert (omap (text_of (cr_signal rule)) signals = []) as ->;
    [|done].
  induction signals as [|s l IH]; [done|]. cbn. rewrite H by by left. apply IH. intros. apply H.
  by right.
Qed.

Lemma baked_no_platform_without_descr rules r :
  Forall2 (λ (rule : PlatformRule) k, compile_platform_rule rule = Ok k) baked_platform_rules rules →
  (∀ s, SnmpSysDescr s ∉ dr_signals r) →
  deciding claims_platform rules (dr_signals r) = None.
Proof using Type.
  intros Hc Hs. apply find_map_None, Forall_forall. intros k Hk. unfold claims_platform.
  case_bool_decide as Hp; [|done].
  apply list_elem_of_lookup in Hk as [i Hi].
  destruct (Forall2_lookup_r _ _ _ _ _ Hc Hi) as (rule & Hrule & Hk).
  apply compile_platform_rule_keeps in Hk as [Hsig Hplat]. rewrite Hplat in Hp.
  rewrite rule_hit_no_text; [done|]. intros s Hin. rewrite Hsig.
  rewrite (baked_platform_from_descr rule); [|by eapply list_elem_of_lookup_2|done].
  destruct s; try done. by destruct (Hs v).
Qed.

(** The ports whose joint presence the baked role rules ask for. *)
Definition router_ports r : Prop :=
  (OpenPort 22 ∈ dr_signals r ∧ OpenPort 179 ∈ dr_signals r) ∨
  (OpenPort 22 ∈ dr_signals r ∧ OpenPort 443 ∈ dr_signals r ∧ OpenPort 830 ∈ dr_signals r).

Lemma baked_role_decided r role :
  role_decided [CPortsOpen [22; 179] (s! "router"); CPortsOpen [22; 443; 830] (s! "router")] r role →
  router_ports r ∧ role = Some (s! "router") ∨ ¬ router_ports r ∧ role = None.
Proof using Type.
  assert (∀ ports ro, role_holds (CPortsOpen ports ro) r ↔ Forall (λ p, OpenPort p ∈ dr_signals r) ports)
    as Hf by (intros; symmetry; apply Forall_forall).
  intros [(l1 & rule & l2 & E & _ & Hrule & ->)|[Hn ->]].
  - left. destruct l1 as [|x [|y [|z l1]]]; simplify_eq/=.
    + apply (Hf _ []) in Hrule. rewrite !Forall_cons in Hrule. unfold router_ports. tauto.
    + apply (Hf _ []) in Hrule. rewrite !Forall_cons in Hrule. unfold router_ports. tauto.
  - right. split; [|done]. rewrite !Forall_cons, !Hf, !Forall_cons in Hn.
    unfold router_ports. pose proof (Forall_nil_2 (λ p, OpenPort p ∈ dr_signals r)). tauto.
Qed.

(** The default classifier guesses nothing from weak evidence: without a
    [sysDescr] it assigns no platform and no OS version, whatever the service
    banners say, and it assigns the role router to a record without one exactly
    when SSH and BGP, or SSH, HTTPS and NETCONF, are all open, and no other role. *)
Theorem default_classifier_conservative c r r'
    (Hc : create_classifier default_classifier_config = Ok c) (Hr' : classify c r = Ok r') :
  ((∀ s, SnmpSysDescr s ∉ dr_signals r) →
     dr_platform r' = dr_platform r ∧ dr_os_version r' = dr_os_version r) ∧
  (dr_role r = None →
     router_ports r ∧ dr_role r' = Some (s! "router") ∨ ¬ router_ports r ∧ dr_role r' = None).
Proof using Type.
  unfold create_classifier, default_classifier_config in Hc.
  cbn [expand_classifier_selection DEFAULT_CLASSIFIER_KIND] in Hc.
  apply Result_bind_Ok in Hc as (rc & Hn & Hc). apply map_err_Ok in Hn.
  injection Hc as <-. cbn [classify] in Hr'. injection Hr' as <-.
  unfold rules_classifier_new in Hn. cbn [compile_platform_rules compile_role_rules mapM mbind Result_bind mret Result_ret] in Hn.
  rewrite decide_True in Hn by done. rewrite baked_role_table_ok in Hn.
  destruct baked_platform_table as [baked|] eqn:Hb; [|done]. cbn [mbind Result_bind] in Hn.
  apply mapM_Ok in Hb.
  assert (rc = mkRulesClassifier baked
    [CPortsOpen [22; 179] (s! "router"); CPortsOpen [22; 443; 830] (s! "router")]) as ->
    by (by injection Hn).
  destruct (rules_classify_decided (mkRulesClassifier baked
    [CPortsOpen [22; 179] (s! "router"); CPortsOpen [22; 443; 830] (s! "router")]) r)
    as (role & Hrole & ->). cbn [rc_platform_rules rc_role_rules] in *. split.
  - intros Hs. cbn. unfold decided_platform.
    rewrite (baked_no_platform_without_descr baked r Hb Hs). by destruct (bool_decide _).
  - intros Hnone. rewrite Hnone in Hrole. by apply baked_role_decided.
Qed.
End reference.

(** ** Witnesses *)

(** An engine whose patterns match the texts they are a prefix of. *)
Definition prefix_regex : @RegexLib sample_errors := {|
  Regex := Str;
  regex_new p := Ok p;
  capture_names _ := [None];
  captures_read p t :=
    match strip_prefix p t with Some _ => Some [Some (0%nat, length p)] | None => None end;
  is_match p t := match strip_prefix p t with Some _ => true | None => false end;
|}.

(** A host with an SSH banner, a BGP port and no SNMP. *)
Definition bannered : DeviceRecord := {|
  dr_identity_key := s! "ip:10.0.0.1"; dr_mgmt_ip := Some (V4 (10 * 2 ^ 24 + 1)); dr_mac := None;
  dr_manufacturer := None; dr_model := None; dr_product_family := None; dr_platform := None;
  dr_os_version := None; dr_ssh_version := None; dr_http_server := None; dr_http_version := None;
  dr_role := None; dr_confidence := f64_of_Z 1; dr_last_seen := 0;
  dr_signals := [OpenPort 22; OpenPort 179; SshBanner (s! "SSH-2.0-OpenSSH_9.6 Ubuntu")];
  dr_probe_kinds := []; dr_schema_version := CURRENT_SCHEMA_VERSION; dr_schema_id := CURRENT_SCHEMA_ID;
  dr_alt_ips := []; dr_possible_alias_of := None; dr_scan_metadata := scan_metadata_default |}.

Lemma default_classifier_conservative_witness :
  ∃ c r', @create_classifier sample_errors prefix_regex default_classifier_config = Ok c ∧
    classify c bannered = Ok r' ∧ dr_platform r' = None ∧ dr_role r' = Some (s! "router").
Proof.
  destruct (is_ok_Ok (@create_classifier sample_errors prefix_regex default_classifier_config))
    as [c Hc]; [by vm_compute|].
  assert (is_ok (classify c bannered) = true) as [r' Hr']%is_ok_Ok by (by destruct c).
  exists c, r'. split; [done|]. split; [done|].
  destruct (@default_classifier_conservative sample_errors prefix_regex c bannered r' Hc Hr')
    as [Hp Hr]. split.
  - apply Hp. intros s. cbn. set_solver.
  - destruct (Hr eq_refl) as [[_ ?]|[Hn _]]; [done|]. destruct Hn. left. cbn. set_solver.
Defined.

(** A record that arrives with an OS version but no platform: the rule that
    decides the platform replaces the version, which the documentation says is
    never overwritten. *)
Example set_version_overwritten :
  let rule := @mkCompiledRule sample_errors prefix_regex KSshBanner (s! "SSH-2.0") (Some (s! "linux"))
    (GroupIndex 0) Undeclared Undeclared Undeclared in
  dr_os_version (rules_classify (mkRulesClassifier [rule] []) (set_os_version (Some (s! "22.04")) bannered)) =
  Some (s! "SSH-2.0").
Proof. by vm_compute. Qed.
