(* ===== verification/Sink.v ===== *)
(** * Output sinks: [sink/mod.rs], [pending.rs], [retry.rs], [memory.rs], [file.rs], [stdout.rs]

    The vocabulary every sink shares, the buffer of records a broker has not
    accepted yet, retrying with exponential backoff, and the local sinks. An
    asynchronous call is a function of the world [W]: what other processes,
    files, brokers and the clock do is a parameter of the definitions. *)

From S2P Require Import Prelude Net.

(** ** Vocabulary *)

Abbreviation Bytes := (list Z).

Inductive RecordKind : Type := RkDevice | RkLink | RkCollectionProfile.

#[global] Instance RecordKind_eq_dec : EqDecision RecordKind.
Proof. solve_decision. Defined.

Definition DEFAULT_LINKS_DESTINATION : Str := s! "rastreo.discovery.links.v1".
Definition DEFAULT_PROFILES_DESTINATION : Str := s! "rastreo.discovery.profiles.v1".

Definition sink_error_class_all : list SinkErrorClass :=
  [PublishFailure; AckRejection; ProduceFailure; WriteFailure; FlushFailure; OtherSink].

Definition SINK_ERROR_CLASS_COUNT : nat := 6.

Definition sink_error_class_index (c : SinkErrorClass) : nat :=
  match c with
  | PublishFailure => 0
  | AckRejection => 1
  | ProduceFailure => 2
  | WriteFailure => 3
  | FlushFailure => 4
  | OtherSink => 5
  end.

Definition sink_error_class_label (c : SinkErrorClass) : Str :=
  match c with
  | PublishFailure => s! "publish_failure"
  | AckRejection => s! "ack_rejection"
  | ProduceFailure => s! "produce_failure"
  | WriteFailure => s! "write_failure"
  | FlushFailure => s! "flush_failure"
  | OtherSink => s! "other"
  end.

Inductive SinkType : Type :=
  | StStdout | StFile | StMemory | StKafka | StNats | StTee.

#[global] Instance SinkType_eq_dec : EqDecision SinkType.
Proof. solve_decision. Defined.

Definition sink_type_label (t : SinkType) : Str :=
  match t with
  | StStdout => s! "stdout"
  | StFile => s! "file"
  | StMemory => s! "memory"
  | StKafka => s! "kafka"
  | StNats => s! "nats"
  | StTee => s! "tee"
  end.

Definition requires_structured_records (t : SinkType) : bool :=
  match t with
  | StKafka | StNats => true
  | StStdout | StFile | StMemory | StTee => false
  end.

(** [str::as_bytes]: the UTF-8 encoding. *)
Definition utf8_char (c : Z) : Bytes :=
  if c <? 128 then [c]
  else if c <? 2048 then [192 + c / 64; 128 + c mod 64]
  else if c <? 65536 then [224 + c / 4096; 128 + (c / 64) mod 64; 128 + c mod 64]
  else [240 + c / 262144; 128 + (c / 4096) mod 64; 128 + (c / 64) mod 64; 128 + c mod 64].

Definition as_bytes (s : Str) : Bytes := mjoin (utf8_char <$> s).

(** The standard library's I/O errors: how the components make and read them
    ([AccessDenied] is [ErrorKind::PermissionDenied]). *)
Inductive IoErrorKind : Type :=
  | ConnectionRefused | ConnectionReset | ConnectionAborted | TimedOut | HostUnreachable
  | NetworkUnreachable | AccessDenied | NotFound | Interrupted | WouldBlock | OtherIo | KindOf (code : Z).

#[global] Instance IoErrorKind_eq_dec : EqDecision IoErrorKind.
Proof. solve_decision. Defined.

Class IoErrors `{ForeignErrors} := {
  io_error_new : IoErrorKind → Str → IoError;
  io_error_kind : IoError → IoErrorKind;
  io_error_display : IoError → Str;
}.

(** I/O errors that are all alike, for the examples. *)
Definition plain_io : @IoErrors sample_errors :=
  @Build_IoErrors sample_errors (λ _ _, 0%nat) (λ _, OtherIo) (λ _, s! "error").

Definition io_error_other `{IoErrors} (msg : Str) : IoError := io_error_new OtherIo msg.

(** [SinkError::new] and [SinkError::other], as the error the sinks return. *)
Definition sink_error `{ForeignErrors} (class : SinkErrorClass) (source : IoError) : RastreoError :=
  ESink (mkSinkError class source).

Definition sink_error_other `{ForeignErrors} (source : IoError) : RastreoError :=
  sink_error OtherSink source.

(** ** Records a destination has not accepted yet: [pending.rs] *)

Record PendingBuffer : Type := mkPendingBuffer {
  pb_entries : list Bytes;
  pb_bytes : Z;
}.

Definition byte_len (data : Bytes) : Z := Z.of_nat (length data).

Definition pending_new : PendingBuffer := mkPendingBuffer [] 0.
Definition pending_len (b : PendingBuffer) : Z := Z.of_nat (length (pb_entries b)).
Definition pending_is_empty (b : PendingBuffer) : bool := is_empty (pb_entries b).
Definition pending_front (b : PendingBuffer) : option Bytes := head (pb_entries b).

Definition reached_threshold (b : PendingBuffer) (threshold : Z) : bool :=
  threshold <=? pb_bytes b.

(** [push], and [push_record] on a copied slice; the count is a [usize]. *)
Definition pending_push (entry : Bytes) (b : PendingBuffer) : PendingBuffer :=
  mkPendingBuffer (pb_entries b ++ [entry]) (wrap 64 (pb_bytes b + byte_len entry)).

Definition settle_front {E V} (outcome : Result E V) (b : PendingBuffer)
    : PendingBuffer * Result E V :=
  (if is_ok outcome then
     match pb_entries b with
     | entry :: rest => mkPendingBuffer rest (wrap 64 (pb_bytes b - byte_len entry))
     | [] => b
     end
   else b, outcome).

Definition settle_all {E V} (outcome : Result E V) (b : PendingBuffer)
    : PendingBuffer * Result E V :=
  (if is_ok outcome then pending_new else b, outcome).

Definition restore_front (batch b : PendingBuffer) : PendingBuffer :=
  if pending_is_empty batch then b
  else mkPendingBuffer (pb_entries batch ++ pb_entries b) (wrap 64 (pb_bytes b + pb_bytes batch)).

Definition clamp_threshold (bytes : Z) : Z := Z.max bytes 1.

(** ** Retrying: [retry.rs] *)

Record SinkRetry : Type := mkSinkRetry {
  max_attempts : Z;
  backoff_initial_ms : Z;
  backoff_max_ms : Z;
}.

Definition default_max_attempts : Z := 3.
Definition default_backoff_initial_ms : Z := 100.
Definition default_backoff_max_ms : Z := 2000.

Definition sink_retry_default : SinkRetry :=
  mkSinkRetry default_max_attempts default_backoff_initial_ms default_backoff_max_ms.

Definition next_backoff (current_ms max_ms : Z) : Z :=
  Z.min (saturating_mul U64_MAX current_ms 2) max_ms.

(** [tokio::time::sleep]. *)
Class Sleep (W : Type) := sleep_ms : Z → W → W.

(** [tokio::time::timeout], in seconds: [None] when the time elapsed first. *)
Class Timeout (W : Type) :=
  timeout_secs : ∀ {A}, Z → (W → W * A) → W → W * option A.

Section retry.
Context {W E T : Type} `{Sleep W}.

(** The loop; [remaining] bounds the attempts still to come and is never exhausted,
    since the guard on [attempt] ends the loop first. *)
Fixpoint retry_loop (remaining : nat) (max backoff_max : Z) (op : W → W * Result E T)
    (delay_ms attempt : Z) (w : W) : W * Result E T :=
  let '(w, outcome) := op w in
  match outcome with
  | Ok value => (w, Ok value)
  | Err err =>
      if max <=? attempt then (w, Err err)
      else
        let w := if 0 <? delay_ms then sleep_ms delay_ms w else w in
        match remaining with
        | O => (w, Err err)
        | S remaining =>
            retry_loop remaining max backoff_max op (next_backoff delay_ms backoff_max) (attempt + 1) w
        end
  end.

Definition retry_with_backoff (retry : SinkRetry) (op : W → W * Result E T) (w : W)
    : W * Result E T :=
  let max := Z.max (max_attempts retry) 1 in
  let delay_ms := Z.min (backoff_initial_ms retry) (backoff_max_ms retry) in
  retry_loop (Z.to_nat max) max (backoff_max_ms retry) op delay_ms 1 w.
End retry.

(** ** The memory sink: [memory.rs] *)

(** The state behind the [Arc] that the sink and its handles share. *)
Record MemoryInner : Type := mkMemoryInner {
  mem_buffer : Bytes;
  mem_delivered : bool;
  mem_truncated : bool;
  mem_max_bytes : option Z;
}.

Definition memory_new : MemoryInner := mkMemoryInner [] false false None.
Definition memory_with_max_bytes (max_bytes : Z) : MemoryInner :=
  mkMemoryInner [] false false (Some max_bytes).

Definition memory_write (data : Bytes) (m : MemoryInner) : MemoryInner :=
  let fits := match mem_max_bytes m with
              | Some max => byte_len (mem_buffer m) + byte_len data <=? max
              | None => true
              end in
  if fits then
    mkMemoryInner (mem_buffer m ++ data) true (mem_truncated m) (mem_max_bytes m)
  else mkMemoryInner (mem_buffer m) false true (mem_max_bytes m).

(** ** Buffered writers: [file.rs] and [stdout.rs] *)

(** Tokio's buffered writer over a file or the standard output. *)
Class WriterLib (W : Type) `{ForeignErrors} := {
  Writer : Type;
  open_append : Str → W → W * Result IoError Writer;
  stdout_writer : Writer;
  write_all : Writer → Bytes → W → W * Result IoError unit;
  writer_flush : Writer → W → W * Result IoError unit;
}.

Section writers.
Context {W : Type} `{FE : ForeignErrors} {IE : IoErrors} {WL : WriterLib W}.

Record WriterSink : Type := mkWriterSink {
  ws_writer : Writer;
  ws_delivered : bool;
}.

Definition open_error (path : Str) (e : IoError) : RastreoError :=
  sink_error_other (io_error_new (io_error_kind e)
    (s! "failed to open file sink at " ++ path ++ s! ": " ++ io_error_display e)).

Definition write_error (sink : Str) (e : IoError) : RastreoError :=
  sink_error WriteFailure (io_error_new (io_error_kind e)
    (s! "failed to write to " ++ sink ++ s! " sink: " ++ io_error_display e)).

Definition flush_error (sink : Str) (e : IoError) : RastreoError :=
  sink_error FlushFailure (io_error_new (io_error_kind e)
    (s! "failed to flush " ++ sink ++ s! " sink: " ++ io_error_display e)).

Definition file_sink_new (path : Str) (w : W) : W * Result RastreoError WriterSink :=
  let '(w, file) := open_append path w in
  (w, file ← map_err (open_error path) file; Ok (mkWriterSink file false)).

Definition stdout_sink_new : WriterSink := mkWriterSink stdout_writer false.

(** [write] and [flush] of either sink; [name] is the one in its messages. *)
Definition writer_sink_write (name : Str) (data : Bytes) (s : WriterSink) (w : W)
    : WriterSink * W * Result RastreoError unit :=
  let s := mkWriterSink (ws_writer s) false in
  let '(w, r) := write_all (ws_writer s) data w in
  (s, w, map_err (write_error name) r).

Definition writer_sink_flush (name : Str) (s : WriterSink) (w : W)
    : WriterSink * W * Result RastreoError unit :=
  let '(w, r) := writer_flush (ws_writer s) w in
  match map_err (flush_error name) r with
  | Ok _ => (mkWriterSink (ws_writer s) true, w, Ok tt)
  | Err e => (s, w, Err e)
  end.
End writers.
