(* ===== verification/Codec.v ===== *)
(** * Bytes and texts on the wire

    What the packet code shares: big-endian integers, the strict UTF-8 decoder
    of the standard library, slices that panic out of range, and splitting a
    text into lines. *)

From S2P Require Import Prelude Net Sink.

(** ** Bytes *)

Definition is_byte (b : Z) : Prop := 0 ≤ b < 256.

#[global] Instance is_byte_dec b : Decision (is_byte b).
Proof. unfold is_byte. apply _. Defined.

Abbreviation bytes_wf := (Forall is_byte).

(** [u16::from_be_bytes] and its wider kin. *)
Definition from_be_bytes (bs : Bytes) : Z := foldl (λ acc b, acc * 256 + b) 0 bs.

(** [to_be_bytes] of an integer of [n] bytes. *)
Fixpoint to_be_bytes (n : nat) (x : Z) : Bytes :=
  match n with
  | O => []
  | S n' => to_be_bytes n' (x / 256) ++ [x mod 256]
  end.

(** [&bytes[lo..hi]]: [None] is the panic of a slice out of range. *)
Definition byte_slice (bs : Bytes) (lo hi : Z) : option Bytes :=
  if (0 <=? lo) && (lo <=? hi) && (hi <=? byte_len bs)
  then Some (take (Z.to_nat (hi - lo)) (drop (Z.to_nat lo) bs)) else None.

(** [bytes[i]]. *)
Definition at_index (bs : Bytes) (i : Z) : option Z :=
  if 0 <=? i then bs !! Z.to_nat i else None.

(** ** Texts *)

Definition is_cont (b : Z) : bool := (128 <=? b) && (b <? 192).

(** [std::str::from_utf8]: no overlong form, no surrogate, nothing past U+10FFFF. *)
Fixpoint from_utf8 (bs : Bytes) : option Str :=
  match bs with
  | [] => Some []
  | b0 :: r1 =>
      if b0 <? 128 then cons b0 <$> from_utf8 r1
      else match r1 with
      | [] => None
      | b1 :: r2 =>
          if (194 <=? b0) && (b0 <? 224) && is_cont b1
          then cons ((b0 - 192) * 64 + (b1 - 128)) <$> from_utf8 r2
          else match r2 with
          | [] => None
          | b2 :: r3 =>
              if (224 <=? b0) && (b0 <? 240) && is_cont b1 && is_cont b2
                 && (negb (b0 =? 224) || (160 <=? b1)) && (negb (b0 =? 237) || (b1 <? 160))
              then cons ((b0 - 224) * 4096 + (b1 - 128) * 64 + (b2 - 128)) <$> from_utf8 r3
              else match r3 with
              | [] => None
              | b3 :: r4 =>
                  if (240 <=? b0) && (b0 <? 245) && is_cont b1 && is_cont b2 && is_cont b3
                     && (negb (b0 =? 240) || (144 <=? b1)) && (negb (b0 =? 244) || (b1 <? 144))
                  then cons ((b0 - 240) * 262144 + (b1 - 128) * 4096 + (b2 - 128) * 64 + (b3 - 128))
                         <$> from_utf8 r4
                  else None
              end
          end
      end
  end.

(** [String::from_utf8_lossy]: the longest start of a character that cannot be completed
    becomes one replacement character. *)
Definition REPLACEMENT : Z := 65533.

Fixpoint from_utf8_lossy (bs : Bytes) : Str :=
  match bs with
  | [] => []
  | b0 :: r1 =>
      if b0 <? 128 then b0 :: from_utf8_lossy r1
      else match r1 with
      | [] => [REPLACEMENT]
      | b1 :: r2 =>
          if (194 <=? b0) && (b0 <? 224) then
            if is_cont b1 then ((b0 - 192) * 64 + (b1 - 128)) :: from_utf8_lossy r2
            else REPLACEMENT :: from_utf8_lossy r1
          else if (224 <=? b0) && (b0 <? 240) && is_cont b1
                  && (negb (b0 =? 224) || (160 <=? b1)) && (negb (b0 =? 237) || (b1 <? 160)) then
            match r2 with
            | [] => [REPLACEMENT]
            | b2 :: r3 =>
                if is_cont b2
                then ((b0 - 224) * 4096 + (b1 - 128) * 64 + (b2 - 128)) :: from_utf8_lossy r3
                else REPLACEMENT :: from_utf8_lossy r2
            end
          else if (240 <=? b0) && (b0 <? 245) && is_cont b1
                  && (negb (b0 =? 240) || (144 <=? b1)) && (negb (b0 =? 244) || (b1 <? 144)) then
            match r2 with
            | [] => [REPLACEMENT]
            | b2 :: r3 =>
                if is_cont b2 then
                  match r3 with
                  | [] => [REPLACEMENT]
                  | b3 :: r4 =>
                      if is_cont b3
                      then ((b0 - 240) * 262144 + (b1 - 128) * 4096 + (b2 - 128) * 64 + (b3 - 128))
                             :: from_utf8_lossy r4
                      else REPLACEMENT :: from_utf8_lossy r3
                  end
                else REPLACEMENT :: from_utf8_lossy r2
            end
          else REPLACEMENT :: from_utf8_lossy r1
      end
  end.

(** A Unicode scalar value: no surrogate. *)
Definition scalar (c : Z) : Prop := 0 ≤ c < 55296 ∨ 57344 ≤ c < 1114112.

(** [&s[..s.floor_char_boundary(budget)]]: the whole characters that fit in the bytes. *)
Fixpoint floor_char_prefix (budget : Z) (s : Str) : Str :=
  match s with
  | [] => []
  | c :: rest =>
      let n := byte_len (utf8_char c) in
      if n <=? budget then c :: floor_char_prefix (budget - n) rest else []
  end.

(** [text.split("\r\n")]. *)
Fixpoint split_crlf (s : Str) : list Str :=
  match s with
  | [] => [[]]
  | c :: s' =>
      let keep := match split_crlf s' with [] => [[c]] | p :: ps => (c :: p) :: ps end in
      match s' with
      | d :: s'' => if (c =? 13) && (d =? 10) then [] :: split_crlf s'' else keep
      | [] => keep
      end
  end.

(** ** Big-endian integers *)

Lemma to_be_bytes_length n x : length (to_be_bytes n x) = n.
Proof. revert x. induction n; intros x; simpl; [done|]. rewrite length_app, IHn. simpl. lia. Qed.

Lemma to_be_bytes_wf n x : bytes_wf (to_be_bytes n x).
Proof.
  revert x. induction n; intros x; simpl; [constructor|]. apply Forall_app_2; [done|].
  constructor; [|constructor]. unfold is_byte. apply Z.mod_pos_bound. lia.
Qed.

Lemma from_be_bytes_snoc bs b : from_be_bytes (bs ++ [b]) = from_be_bytes bs * 256 + b.
Proof. unfold from_be_bytes. by rewrite foldl_app. Qed.

Lemma pow_succ_byte n : 256 ^ Z.of_nat (S n) = 256 * 256 ^ Z.of_nat n.
Proof. rewrite Nat2Z.inj_succ, Z.pow_succ_r; lia. Qed.

Lemma from_to_be_bytes n x : 0 ≤ x < 256 ^ Z.of_nat n → from_be_bytes (to_be_bytes n x) = x.
Proof.
  revert x. induction n as [|n IH]; intros x Hx; [simpl in *; unfold from_be_bytes; simpl; lia|].
  simpl. rewrite from_be_bytes_snoc, pow_succ_byte in *.
  pose proof (Z.div_mod x 256 ltac:(lia)). rewrite IH; [lia|].
  split; [apply Z.div_pos; lia|apply Z.div_lt_upper_bound; lia].
Qed.

Lemma from_be_bytes_range bs : bytes_wf bs → 0 ≤ from_be_bytes bs < 256 ^ Z.of_nat (length bs).
Proof.
  induction bs as [|b bs IH] using rev_ind; intros Hbs; [by vm_compute|].
  apply Forall_app in Hbs as [Hbs Hb]. apply Forall_cons in Hb as [Hb _].
  rewrite from_be_bytes_snoc, length_app, Nat.add_comm. simpl length. cbn [Nat.add].
  rewrite pow_succ_byte. specialize (IH Hbs). unfold is_byte in Hb. lia.
Qed.

Lemma to_from_be_bytes bs : bytes_wf bs → to_be_bytes (length bs) (from_be_bytes bs) = bs.
Proof.
  induction bs as [|b bs IH] using rev_ind; intros Hbs; [done|].
  apply Forall_app in Hbs as [Hbs Hb]. apply Forall_cons in Hb as [Hb _].
  rewrite from_be_bytes_snoc, length_app, Nat.add_comm. simpl. unfold is_byte in Hb.
  rewrite Z.div_add_l, Z.div_small, Z.add_0_r by lia. rewrite IH by done.
  rewrite Z.add_comm, Z.mod_add, Z.mod_small by lia. done.
Qed.

(** ** Exclusive or *)

Lemma lxor_range w a b : 0 ≤ w → 0 ≤ a < 2 ^ w → 0 ≤ b < 2 ^ w → 0 ≤ Z.lxor a b < 2 ^ w.
Proof.
  intros Hw Ha Hb. assert (0 ≤ Z.lxor a b) by (apply Z.lxor_nonneg; lia). split; [done|].
  destruct (Z.eq_dec (Z.lxor a b) 0) as [->|Hne]; [lia|].
  apply Z.log2_lt_pow2; [lia|]. pose proof (Z.log2_lxor a b ltac:(lia) ltac:(lia)) as Hl.
  assert (∀ x, 0 ≤ x < 2 ^ w → Z.log2 x < w ∨ w = 0) as Hlog.
  { intros x Hx. destruct (Z.eq_dec x 0) as [->|]; [simpl; lia|].
    left. apply Z.log2_lt_pow2; lia. }
  destruct (Z.eq_dec w 0) as [->|]; [simpl in *; replace a with 0 in * by lia;
    replace b with 0 in * by lia; done|].
  destruct (Hlog a Ha); destruct (Hlog b Hb); lia.
Qed.

Lemma lxor_cancel a b : Z.lxor (Z.lxor a b) b = a.
Proof. by rewrite Z.lxor_assoc, Z.lxor_nilpotent, Z.lxor_0_r. Qed.

Lemma lxor_byte a b : is_byte a → is_byte b → is_byte (Z.lxor a b).
Proof. unfold is_byte. intros Ha Hb. apply (lxor_range 8); simpl; lia. Qed.

(** ** Slices *)

Lemma at_index_lt bs i : 0 ≤ i < byte_len bs → is_Some (at_index bs i).
Proof.
  intros Hi. unfold at_index. destruct (Z.leb_spec 0 i); [|lia].
  apply lookup_lt_is_Some. unfold byte_len in Hi. lia.
Qed.

Lemma slice_ok bs lo hi : 0 ≤ lo ≤ hi → hi ≤ byte_len bs →
  byte_slice bs lo hi = Some (take (Z.to_nat (hi - lo)) (drop (Z.to_nat lo) bs)).
Proof.
  intros Hlo Hhi. unfold byte_slice.
  rewrite !(proj2 (Z.leb_le _ _)) by lia. done.
Qed.

Lemma slice_length bs lo hi v : byte_slice bs lo hi = Some v → byte_len v = hi - lo.
Proof.
  unfold byte_slice. case_match; [|done]. break_bool. intros [= <-].
  unfold byte_len in *. rewrite length_take, length_drop. lia.
Qed.

Lemma slice_wf bs lo hi v : bytes_wf bs → byte_slice bs lo hi = Some v → bytes_wf v.
Proof.
  unfold byte_slice. case_match; [|done]. intros Hbs [= <-]. by apply Forall_take, Forall_drop.
Qed.

(** ** Decoding inverts encoding *)

(** Decide every comparison of linear terms in the goal. *)
Ltac decide_cmp :=
  repeat match goal with
  | |- context [?a <? ?b] => first [rewrite (proj2 (Z.ltb_lt a b)) by lia
                                   |rewrite (proj2 (Z.ltb_ge a b)) by lia]
  | |- context [?a <=? ?b] => first [rewrite (proj2 (Z.leb_le a b)) by lia
                                    |rewrite (proj2 (Z.leb_gt a b)) by lia]
  | |- context [?a =? ?b] => first [rewrite (proj2 (Z.eqb_eq a b)) by lia
                                   |rewrite (proj2 (Z.eqb_neq a b)) by lia]
  end.

Lemma base64_digits c :
  c / 64 / 64 * 4096 + (c / 64) mod 64 * 64 + c mod 64 = c ∧ 0 ≤ c mod 64 < 64 ∧
  0 ≤ (c / 64) mod 64 < 64.
Proof.
  pose proof (Z.div_mod c 64 ltac:(lia)). pose proof (Z.div_mod (c / 64) 64 ltac:(lia)).
  pose proof (Z.mod_pos_bound c 64 ltac:(lia)). pose proof (Z.mod_pos_bound (c / 64) 64 ltac:(lia)).
  lia.
Qed.

Lemma from_utf8_char c r : scalar c → from_utf8 (utf8_char c ++ r) = cons c <$> from_utf8 r.
Proof.
  unfold scalar. intros Hc. unfold utf8_char.
  destruct (Z.ltb_spec c 128); [|destruct (Z.ltb_spec c 2048); [|destruct (Z.ltb_spec c 65536)]];
    cbn [app from_utf8]; unfold is_cont.
  - by decide_cmp.
  - pose proof (Z.div_mod c 64 ltac:(lia)). pose proof (Z.mod_pos_bound c 64 ltac:(lia)).
    generalize dependent (c mod 64). generalize dependent (c / 64). intros q Hq r0 Hr0.
    decide_cmp. simpl. do 2 f_equal. lia.
  - destruct (base64_digits c) as (Hsum & Hr & Hq). revert Hsum Hq Hr.
    replace (c / 4096) with (c / 64 / 64) by (by rewrite Z.div_div by lia).
    generalize (c / 64 / 64) ((c / 64) mod 64) (c mod 64).
    intros q0 q1 q2 Hsum Hq Hr. decide_cmp. simpl andb.
    destruct (Z.eqb_spec (224 + q0) 224); destruct (Z.eqb_spec (224 + q0) 237); simpl;
      decide_cmp; simpl; do 2 f_equal; lia.
  - destruct (base64_digits c) as (Hsum & Hr & Hq).
    pose proof (Z.div_mod (c / 64 / 64) 64 ltac:(lia)) as Hsum'.
    pose proof (Z.mod_pos_bound (c / 64 / 64) 64 ltac:(lia)) as Hq'. revert Hsum Hq Hr Hsum' Hq'.
    replace (c / 262144) with (c / 64 / 64 / 64) by (by rewrite !Z.div_div by lia).
    replace (c / 4096) with (c / 64 / 64) by (by rewrite Z.div_div by lia).
    generalize (c / 64 / 64 / 64) ((c / 64 / 64) mod 64) ((c / 64) mod 64) (c mod 64).
    generalize (c / 64 / 64). intros p q0 q1 q2 q3 Hsum Hq Hr Hsum' Hq'.
    decide_cmp. simpl andb.
    destruct (Z.eqb_spec (240 + q0) 240); destruct (Z.eqb_spec (240 + q0) 244); simpl;
      decide_cmp; simpl; do 2 f_equal; lia.
Qed.

Lemma from_utf8_as_bytes s : Forall scalar s → from_utf8 (as_bytes s) = Some s.
Proof.
  induction 1 as [|c s Hc _ IH]; [done|].
  change (as_bytes (c :: s)) with (utf8_char c ++ as_bytes s).
  by rewrite from_utf8_char, IH.
Qed.

(** ** Lines *)

Lemma split_crlf_nonempty s : split_crlf s ≠ [].
Proof. destruct s as [|c [|d s]]; simpl; repeat case_match; done. Qed.

(** A piece free of carriage returns is cut off at the separator. *)
Lemma split_crlf_line a s : 13 ∉ a → split_crlf (a ++ 13 :: 10 :: s) = a :: split_crlf s.
Proof.
  induction a as [|c a IH]; intros Ha; [done|].
  apply not_elem_of_cons in Ha as [Hc Ha]. specialize (IH Ha).
  change ((c :: a) ++ 13 :: 10 :: s) with (c :: (a ++ 13 :: 10 :: s)).
  assert (∃ d t, a ++ 13 :: 10 :: s = d :: t) as (d & t & E) by (destruct a; eauto).
  cbn [split_crlf]. rewrite E in *. rewrite IH. decide_cmp. done.
Qed.

Lemma split_crlf_last a : 13 ∉ a → split_crlf a = [a].
Proof.
  induction a as [|c a IH]; intros Ha; [done|].
  apply not_elem_of_cons in Ha as [Hc Ha]. specialize (IH Ha).
  cbn [split_crlf]. rewrite IH. destruct a; [done|]. decide_cmp. done.
Qed.

(** ** Reading back a part *)

Lemma byte_len_app (a b : Bytes) : byte_len (a ++ b) = byte_len a + byte_len b.
Proof. unfold byte_len. rewrite length_app. lia. Qed.

Lemma byte_len_nonneg (a : Bytes) : 0 ≤ byte_len a.
Proof. unfold byte_len. lia. Qed.

Lemma byte_len_be n x : byte_len (to_be_bytes n x) = Z.of_nat n.
Proof. unfold byte_len. by rewrite to_be_bytes_length. Qed.

(** The middle of a concatenation, between the lengths of its parts. *)
Lemma slice_app a b c lo hi :
  lo = byte_len a → hi = byte_len a + byte_len b → byte_slice (a ++ b ++ c) lo hi = Some b.
Proof.
  intros -> ->. pose proof (byte_len_nonneg a). pose proof (byte_len_nonneg b).
  pose proof (byte_len_nonneg c). rewrite slice_ok by (rewrite ?byte_len_app; lia). f_equal.
  unfold byte_len. rewrite Nat2Z.id, drop_app_length.
  replace (Z.to_nat _) with (length b) by lia. apply take_app_length.
Qed.

(** Clearing the two low bits rounds down to a multiple of four. *)
Lemma land_clear_low2 x : 0 ≤ x ≤ USIZE_MAX → Z.land x (USIZE_MAX - 3) = x / 4 * 4.
Proof.
  intros Hx. change (USIZE_MAX - 3) with (Z.shiftl (Z.ones 62) 2).
  change 4 with (2 ^ 2). rewrite <-Z.shiftr_div_pow2, <-Z.shiftl_mul_pow2 by lia.
  apply Z.bits_inj'. intros n Hn. rewrite Z.land_spec.
  destruct (Z.ltb_spec n 2).
  - rewrite !Z.shiftl_spec_low by lia. apply andb_false_r.
  - rewrite !Z.shiftl_spec, Z.shiftr_spec, Z.testbit_ones_nonneg by lia.
    replace (n - 2 + 2) with n by lia. destruct (Z.ltb_spec (n - 2) 62); [apply andb_true_r|].
    rewrite andb_false_r. destruct (Z.eq_dec x 0) as [->|]; [by rewrite Z.bits_0|].
    symmetry. apply Z.bits_above_log2; [lia|]. unfold USIZE_MAX, U64_MAX in Hx.
    assert (Z.log2 x < 64) by (apply Z.log2_lt_pow2; lia). lia.
Qed.
