(* ===== verification/Timestamp.v ===== *)
(** * Timestamps on the wire: [model/serde_iso8601.rs]

    A point in time as RFC 3339 text, written into a buffer of fixed size on the stack, and read
    back. The calendar and the parser are [chrono]'s: parameters. *)

From S2P Require Import Prelude Net Model Sink Codec.

(** [chrono::DateTime<Utc>]: civil time; a leap second has a thousand million nanoseconds or more. *)
Record DateTime : Type := mkDateTime {
  dt_year : Z;
  dt_month : Z;
  dt_day : Z;
  dt_hour : Z;
  dt_minute : Z;
  dt_second : Z;
  dt_nanosecond : Z;
}.

Definition RENDER_CAPACITY : nat := 33.

Record Rfc3339Utc : Type := mkRfc3339Utc { rf_bytes : Bytes; rf_len : nat }.

(** A [u32] below a hundred as two bytes; the additions are those of bytes. *)
Definition two_digits (value : Z) : Bytes :=
  [wrap 8 (48 + wrap 8 (value / 10)); wrap 8 (48 + wrap 8 (value mod 10))].

(** [Rfc3339Utc::push]: a chunk that does not fit is dropped. *)
Definition push (out : Rfc3339Utc) (chunk : Bytes) : Rfc3339Utc :=
  let end_ := (rf_len out + length chunk)%nat in
  if (end_ <=? length (rf_bytes out))%nat then
    mkRfc3339Utc (take (rf_len out) (rf_bytes out) ++ chunk ++ drop end_ (rf_bytes out)) end_
  else out.

(** The loop of [push_signed_year]; nothing when the digits do not fit, where the code would panic. *)
Fixpoint fill_digits (first : nat) (magnitude : Z) (digits : Bytes) : option (nat * Bytes) :=
  if magnitude =? 0 then Some (first, digits)
  else match first with
       | O => None
       | S first => fill_digits first (magnitude / 10) (<[first := 48 + magnitude mod 10]> digits)
       end.

Definition push_signed_year (year : Z) (out : Rfc3339Utc) : option Rfc3339Utc :=
  '(first, digits) ← fill_digits 6 (Z.abs year) (replicate 6 48);
  let out := push out [if year <? 0 then 45 else 43] in
  Some (push out (drop (Nat.min first (6 - 4)) digits)).

Definition push_year (year : Z) (out : Rfc3339Utc) : option Rfc3339Utc :=
  if (0 <=? year) && (year <=? 9999) then
    Some (push out (two_digits (year / 100) ++ two_digits (year mod 100)))
  else push_signed_year year out.

(** The loop of [push_subsecond], from the last slot back. *)
Fixpoint fill_fraction (slot : nat) (rest : Z) (fraction : Bytes) : Bytes :=
  match slot with
  | O => fraction
  | S slot' => fill_fraction slot' (rest / 10) (<[slot := 48 + rest mod 10]> fraction)
  end.

Definition subsecond_width (nanosecond : Z) : nat :=
  if nanosecond mod 1000000 =? 0 then 3 else if nanosecond mod 1000 =? 0 then 6 else 9.

Definition push_subsecond (nanosecond : Z) (out : Rfc3339Utc) : Rfc3339Utc :=
  if nanosecond =? 0 then out
  else push out (take (S (subsecond_width nanosecond)) (fill_fraction 9 nanosecond (replicate 10 46))).

Definition render (dt : DateTime) : option Rfc3339Utc :=
  let '(second, nanosecond) :=
    if 1000000000 <=? dt_nanosecond dt then (dt_second dt + 1, dt_nanosecond dt - 1000000000)
    else (dt_second dt, dt_nanosecond dt) in
  out ← push_year (dt_year dt) (mkRfc3339Utc (replicate RENDER_CAPACITY 0) 0);
  let out := push out
    ([45] ++ two_digits (dt_month dt) ++ [45] ++ two_digits (dt_day dt) ++ [84] ++ two_digits (dt_hour dt) ++
     [58] ++ two_digits (dt_minute dt) ++ [58] ++ two_digits second) in
  Some (push (push_subsecond nanosecond out) [90]).

(** [Rfc3339Utc::as_str]. *)
Definition as_str (out : Rfc3339Utc) : option Str := from_utf8 (take (rf_len out) (rf_bytes out)).

Inductive SerializeError : Type := Panicked | NotUtf8.

Section serde.
(** [chrono]: the civil time of a point in time, its inverse, and the parser. *)
Context (to_utc : SystemTime → DateTime) (from_utc : DateTime → SystemTime).
Context (parse_from_rfc3339 : Str → option DateTime).

Definition serialize (t : SystemTime) : Result SerializeError Str :=
  match render (to_utc t) with
  | None => Err Panicked
  | Some rendered => match as_str rendered with Some text => Ok text | None => Err NotUtf8 end
  end.

Definition deserialize (s : Str) : option SystemTime := from_utc <$> parse_from_rfc3339 s.
End serde.

(** ** The text *)

(** The last [w] decimal digits. *)
Fixpoint dec_pad (w : nat) (n : Z) : Str :=
  match w with
  | O => []
  | S w => dec_pad w (n / 10) ++ [48 + n mod 10]
  end.

(** The Gregorian calendar. *)
Definition leap_year (y : Z) : bool := (y mod 4 =? 0) && (negb (y mod 100 =? 0) || (y mod 400 =? 0)).
Definition days_in_month (y m : Z) : Z :=
  if m =? 2 then if leap_year y then 29 else 28
  else if (m =? 4) || (m =? 6) || (m =? 9) || (m =? 11) then 30 else 31.

Lemma days_in_month_range y m : 28 ≤ days_in_month y m ≤ 31.
Proof. unfold days_in_month. repeat case_match; lia. Qed.

(** The ranges of [chrono], where only the last second of a minute can be a leap second. *)
Definition datetime_wf (dt : DateTime) : Prop :=
  -262143 ≤ dt_year dt ≤ 262142 ∧ 1 ≤ dt_month dt ≤ 12 ∧ 1 ≤ dt_day dt ≤ days_in_month (dt_year dt) (dt_month dt) ∧ 0 ≤ dt_hour dt < 24 ∧
  0 ≤ dt_minute dt < 60 ∧ 0 ≤ dt_second dt < 60 ∧ 0 ≤ dt_nanosecond dt < 2000000000 ∧
  (1000000000 ≤ dt_nanosecond dt → dt_second dt = 59).

(** Four digits, or a sign and at least four. *)
Definition year_width (m : Z) : nat := if m <? 10000 then 4 else if m <? 100000 then 5 else 6.

Definition year_text (y : Z) : Str :=
  if (0 <=? y) && (y <=? 9999) then dec_pad 4 y
  else [if y <? 0 then 45 else 43] ++ dec_pad (year_width (Z.abs y)) (Z.abs y).

(** No digits, or the fewest of three, six and nine that lose nothing. *)
Definition fraction_text (ns : Z) : Str :=
  if ns =? 0 then []
  else [46] ++ dec_pad (subsecond_width ns) (ns / 10 ^ (9 - Z.of_nat (subsecond_width ns))).

Definition shown_second (dt : DateTime) : Z := if 1000000000 <=? dt_nanosecond dt then 60 else dt_second dt.

Definition rfc3339_text (dt : DateTime) : Str :=
  year_text (dt_year dt) ++
  ([45] ++ dec_pad 2 (dt_month dt) ++ [45] ++ dec_pad 2 (dt_day dt) ++ [84] ++ dec_pad 2 (dt_hour dt) ++
   [58] ++ dec_pad 2 (dt_minute dt) ++ [58] ++ dec_pad 2 (shown_second dt)) ++
  fraction_text (dt_nanosecond dt mod 1000000000) ++ [90].

(** ** A reader of the text

    It takes the texts of RFC 3339 in the Zulu zone alone: four digits of the year or, outside of
    those years, a sign and four or more; two of each other field, in its range; and at most nine of
    the fraction. *)

Definition is_digit (c : Z) : bool := (48 <=? c) && (c <=? 57).

Definition dec_value (s : Str) : Z := foldl (λ acc c, acc * 10 + (c - 48)) 0 s.

(** The digits a text begins with, and what follows. *)
Fixpoint span_digits (s : Str) : Str * Str :=
  match s with
  | c :: r => if is_digit c then let '(ds, r') := span_digits r in (c :: ds, r') else ([], s)
  | [] => ([], [])
  end.

(** Exactly [w] digits. *)
Definition read_digits (w : nat) (s : Str) : option (Z * Str) :=
  if (w <=? length s)%nat && forallb is_digit (take w s) then Some (dec_value (take w s), drop w s) else None.

Definition expect (c : Z) (s : Str) : option Str :=
  match s with c' :: r => if c' =? c then Some r else None | [] => None end.

Definition read_year (s : Str) : option (Z * Str) :=
  match s with
  | c :: r =>
      if (c =? 45) || (c =? 43) then
        let '(ds, r) := span_digits r in
        let y := if c =? 45 then - dec_value ds else dec_value ds in
        if (4 <=? length ds)%nat && ((y <? 0) || (9999 <? y)) then Some (y, r) else None
      else read_digits 4 s
  | [] => None
  end.

Definition read_fraction (s : Str) : option (Z * Str) :=
  match expect 46 s with
  | Some r =>
      let '(ds, r) := span_digits r in
      if (1 <=? length ds)%nat && (length ds <=? 9)%nat
      then Some (dec_value ds * 10 ^ (9 - Z.of_nat (length ds)), r) else None
  | None => Some (0, s)
  end.

(** The fields of a day and of a time of day; the sixtieth second is a leap second. *)
Definition civil_fields (year month day hour minute second : Z) : bool :=
  (1 <=? month) && (month <=? 12) && (1 <=? day) && (day <=? days_in_month year month) &&
  (hour <? 24) && (minute <? 60) && (second <=? 60).

Definition read_rfc3339 (s : Str) : option DateTime :=
  '(year, s) ← read_year s;
  s ← expect 45 s;
  '(month, s) ← read_digits 2 s;
  s ← expect 45 s;
  '(day, s) ← read_digits 2 s;
  s ← expect 84 s;
  '(hour, s) ← read_digits 2 s;
  s ← expect 58 s;
  '(minute, s) ← read_digits 2 s;
  s ← expect 58 s;
  '(second, s) ← read_digits 2 s;
  '(ns, s) ← read_fraction s;
  s ← expect 90 s;
  if is_empty s && civil_fields year month day hour minute second then
    Some (if second =? 60 then mkDateTime year month day hour minute 59 (ns + 1000000000)
          else mkDateTime year month day hour minute second ns)
  else None.

(** ** Digits *)

Lemma dec_pad_length w n : length (dec_pad w n) = w.
Proof. revert n. induction w as [|w IH]; intros n; [done|]. cbn [dec_pad]. rewrite length_app, IH. cbn. lia. Qed.

Lemma digit_range n : is_digit (48 + n mod 10).
Proof. unfold is_digit. pose proof (Z.mod_pos_bound n 10). apply andb_True. split; apply Is_true_true, Z.leb_le; lia. Qed.

Lemma dec_pad_digits w n : Forall (λ c, is_digit c) (dec_pad w n).
Proof.
  revert n. induction w as [|w IH]; intros n; [constructor|]. cbn [dec_pad].
  apply Forall_app. split; [apply IH|]. constructor; [apply digit_range|constructor].
Qed.

Lemma dec_value_pad w n : 0 ≤ n < 10 ^ Z.of_nat w → dec_value (dec_pad w n) = n.
Proof.
  revert n. induction w as [|w IH]; intros n Hn; [cbn in *; lia|]. cbn [dec_pad]. unfold dec_value. rewrite foldl_app.
  fold (dec_value (dec_pad w (n / 10))). rewrite Nat2Z.inj_succ, Z.pow_succ_r in Hn by lia.
  rewrite IH by (Z.to_euclidean_division_equations; lia). cbn [foldl]. Z.to_euclidean_division_equations; lia.
Qed.

Lemma take_dec_pad w k n : take w (dec_pad (w + k) n) = dec_pad w (n / 10 ^ Z.of_nat k).
Proof.
  revert n. induction k as [|k IH]; intros n.
  - rewrite Nat.add_0_r, Z.div_1_r. apply firstn_all2. by rewrite dec_pad_length.
  - rewrite Nat.add_succ_r. cbn [dec_pad]. rewrite take_app_le by (rewrite dec_pad_length; lia).
    rewrite IH, Nat2Z.inj_succ, Z.pow_succ_r, Z.div_div by lia. done.
Qed.

Lemma drop_dec_pad w k n : drop k (dec_pad (k + w) n) = dec_pad w n.
Proof.
  revert n. induction w as [|w IH]; intros n.
  - rewrite Nat.add_0_r. apply drop_ge. by rewrite dec_pad_length.
  - rewrite Nat.add_succ_r. cbn [dec_pad]. rewrite drop_app_le by (rewrite dec_pad_length; lia). by rewrite IH.
Qed.

Lemma dec_pad_0 w : dec_pad w 0 = replicate w 48.
Proof. induction w as [|w IH]; [done|]. cbn [dec_pad]. rewrite Z.div_0_l, Z.mod_0_l, IH by lia. by rewrite <-replicate_S_end. Qed.

Lemma two_digits_pad v : 0 ≤ v < 100 → two_digits v = dec_pad 2 v.
Proof.
  intros Hv. unfold two_digits. cbn [dec_pad app].
  rewrite !wrap_small by (rewrite ?wrap_small; change (2 ^ 8) with 256; Z.to_euclidean_division_equations; lia).
  rewrite (Z.mod_small (v / 10) 10); [done|]. Z.to_euclidean_division_equations; lia.
Qed.

Lemma fill_fraction_pad n rest x t :
  fill_fraction n rest (x :: replicate n 46 ++ t) = x :: dec_pad n rest ++ t.
Proof.
  revert rest t. induction n as [|n IH]; intros rest t; [done|]. cbn [fill_fraction dec_pad].
  rewrite replicate_S_end, <-app_assoc. cbn [app list_insert]. change (<[S n := ?v]> (x :: ?l)) with (x :: <[n := v]> l).
  rewrite insert_app_r_alt by (rewrite length_replicate; lia). rewrite length_replicate, Nat.sub_diag. cbn [list_insert].
  change (<[0%nat := ?v]> (46 :: t)) with (v :: t). rewrite IH. by rewrite <-app_assoc.
Qed.

(** The digits of a number behind zeros, with the place of the first. *)
Lemma fill_digits_pad f m t :
  0 ≤ m < 10 ^ Z.of_nat f →
  ∃ f', fill_digits f m (replicate f 48 ++ t) = Some (f', dec_pad f m ++ t) ∧ (f' ≤ f)%nat ∧
    m < 10 ^ Z.of_nat (f - f') ∧ ((f' < f)%nat → 10 ^ (Z.of_nat (f - f') - 1) ≤ m).
Proof.
  revert m t. induction f as [|f IH]; intros m t Hm.
  - exists O. assert (m = 0) as -> by (cbn in Hm; lia). split_and!; [done..|lia].
  - cbn [fill_digits]. destruct (Z.eqb_spec m 0) as [->|Hne].
    { exists (S f). rewrite dec_pad_0, Nat.sub_diag. split_and!; [done|lia|done|lia]. }
    rewrite Nat2Z.inj_succ, Z.pow_succ_r in Hm by lia.
    rewrite replicate_S_end, <-app_assoc, insert_app_r_alt by (rewrite length_replicate; lia).
    rewrite length_replicate, Nat.sub_diag. change (<[0%nat := ?v]> ([48] ++ t)) with (v :: t).
    destruct (IH (m / 10) (48 + m mod 10 :: t)) as (f' & -> & Hf & Hlt & Hge).
    { Z.to_euclidean_division_equations; lia. }
    exists f'. cbn [dec_pad]. rewrite <-app_assoc. split_and!; [done|lia|..].
    + rewrite Nat.sub_succ_l, Nat2Z.inj_succ, Z.pow_succ_r by lia. Z.to_euclidean_division_equations; lia.
    + intros _. destruct (decide (f' < f)%nat) as [Hlt'|].
      * specialize (Hge Hlt'). replace (Z.of_nat (S f - f') - 1) with (Z.succ (Z.of_nat (f - f') - 1)) by lia.
        rewrite Z.pow_succ_r by lia. Z.to_euclidean_division_equations; lia.
      * replace (Z.of_nat (S f - f') - 1) with 0 by lia. cbn. lia.
Qed.

(** ** The buffer *)

(** What has been written. *)
Definition holds (out : Rfc3339Utc) (s : Str) : Prop :=
  length (rf_bytes out) = RENDER_CAPACITY ∧ rf_len out = length s ∧ take (rf_len out) (rf_bytes out) = s.

Lemma push_holds out s chunk :
  holds out s → (length s + length chunk ≤ RENDER_CAPACITY)%nat → holds (push out chunk) (s ++ chunk).
Proof.
  intros (Hc & Hl & Ht) Hfit. unfold push. rewrite Hc, Hl, (proj2 (Nat.leb_le _ _)) by done.
  rewrite Hl in Ht. unfold holds. cbn [rf_bytes rf_len]. rewrite Ht, !length_app, length_drop, Hc. split_and!; [lia|done|].
  rewrite app_assoc, <-length_app. apply take_app_length.
Qed.

Lemma push_year_holds y :
  -262143 ≤ y ≤ 262142 →
  ∃ out, push_year y (mkRfc3339Utc (replicate RENDER_CAPACITY 0) 0) = Some out ∧ holds out (year_text y) ∧
    (length (year_text y) ≤ 7)%nat.
Proof.
  intros Hy. assert (holds (mkRfc3339Utc (replicate RENDER_CAPACITY 0) 0) []) as H0 by done.
  unfold push_year, year_text. destruct ((0 <=? y) && (y <=? 9999)) eqn:Hr.
  - apply andb_true_iff in Hr as [?%Z.leb_le ?%Z.leb_le]. eexists. split; [done|]. split; [|by rewrite dec_pad_length; lia].
    assert (two_digits (y / 100) ++ two_digits (y mod 100) = dec_pad 4 y) as ->.
    { rewrite !two_digits_pad by (Z.to_euclidean_division_equations; lia).
      rewrite <-(take_drop 2 (dec_pad 4 y)), (take_dec_pad 2 2), (drop_dec_pad 2 2). f_equal.
      cbn [dec_pad app]. apply (f_equal2 (λ a b, [a; b])); Z.to_euclidean_division_equations; lia. }
    apply (push_holds _ []); [done|]. rewrite dec_pad_length. cbn. unfold RENDER_CAPACITY. lia.
  - unfold push_signed_year.
    destruct (fill_digits_pad 6 (Z.abs y) []) as (f' & Hfill & Hf & Hlt & Hge); [change (10 ^ Z.of_nat 6) with 1000000; lia|].
    rewrite !app_nil_r in Hfill. rewrite Hfill. cbn [mbind option_bind]. eexists. split; [done|].
    assert (drop (Nat.min f' (6 - 4)) (dec_pad 6 (Z.abs y)) = dec_pad (year_width (Z.abs y)) (Z.abs y)) as ->.
    { replace (dec_pad 6 (Z.abs y)) with (dec_pad (Nat.min f' 2 + (6 - Nat.min f' 2)) (Z.abs y)) by (f_equal; lia).
      rewrite drop_dec_pad. f_equal. unfold year_width.
      assert (f' = 0 ∨ f' = 1 ∨ (2 ≤ f' ≤ 6))%nat as [->|[->|Hf']] by lia; cbn in Hlt, Hge.
      - rewrite !(proj2 (Z.ltb_ge _ _)) by lia. done.
      - rewrite (proj2 (Z.ltb_ge _ _)) by lia. rewrite (proj2 (Z.ltb_lt _ _)) by lia. done.
      - assert (10 ^ Z.of_nat (6 - f') ≤ 10 ^ 4) by (apply Z.pow_le_mono_r; lia).
        rewrite (proj2 (Z.ltb_lt _ _)) by lia. lia. }
    assert (year_width (Z.abs y) ≤ 6)%nat by (unfold year_width; repeat case_match; lia).
    split; [|rewrite length_app, dec_pad_length; cbn; lia].
    apply push_holds; [apply (push_holds _ []); [done|]|]; rewrite ?dec_pad_length; cbn; unfold RENDER_CAPACITY; lia.
Qed.

Lemma push_subsecond_holds out s ns :
  holds out s → 0 ≤ ns < 1000000000 → (length s + 10 ≤ RENDER_CAPACITY)%nat →
  holds (push_subsecond ns out) (s ++ fraction_text ns) ∧ (length (fraction_text ns) ≤ 10)%nat.
Proof.
  intros Hh Hns Hfit. unfold push_subsecond, fraction_text. destruct (ns =? 0).
  { rewrite app_nil_r. split; [done|cbn; lia]. }
  assert (subsecond_width ns ≤ 9)%nat as Hw by (unfold subsecond_width; repeat case_match; lia).
  assert (take (S (subsecond_width ns)) (fill_fraction 9 ns (replicate 10 46)) =
    [46] ++ dec_pad (subsecond_width ns) (ns / 10 ^ (9 - Z.of_nat (subsecond_width ns)))) as ->.
  { rewrite <-(app_nil_r (replicate 10 46)). change (replicate 10 46 ++ []) with (46 :: replicate 9 46 ++ []).
    rewrite fill_fraction_pad, app_nil_r. cbn [take app]. f_equal.
    replace (dec_pad 9 ns) with (dec_pad (subsecond_width ns + (9 - subsecond_width ns)) ns) by (f_equal; lia).
    rewrite take_dec_pad. do 2 f_equal. f_equal. lia. }
  split; [apply push_holds; [done|]|]; rewrite length_app, dec_pad_length; cbn [length]; lia.
Qed.

(** ** Writing and reading *)

Lemma render_holds dt : datetime_wf dt →
  ∃ out, render dt = Some out ∧ holds out (rfc3339_text dt) ∧ (length (rfc3339_text dt) ≤ RENDER_CAPACITY)%nat.
Proof.
  intros (Hy & Hmo & Hd & Hh & Hmi & Hs & Hns & Hleap). pose proof (days_in_month_range (dt_year dt) (dt_month dt)).
  unfold render, rfc3339_text, shown_second.
  destruct (push_year_holds (dt_year dt) Hy) as (out & -> & Hout & Hlen).
  set (second := if 1000000000 <=? dt_nanosecond dt then dt_second dt + 1 else dt_second dt).
  set (ns := if 1000000000 <=? dt_nanosecond dt then dt_nanosecond dt - 1000000000 else dt_nanosecond dt).
  assert ((if 1000000000 <=? dt_nanosecond dt then (dt_second dt + 1, dt_nanosecond dt - 1000000000)
           else (dt_second dt, dt_nanosecond dt)) = (second, ns)) as -> by (unfold second, ns; by case_match).
  assert (second = (if 1000000000 <=? dt_nanosecond dt then 60 else dt_second dt) ∧
          ns = dt_nanosecond dt mod 1000000000 ∧ 0 ≤ second < 100 ∧ 0 ≤ ns < 1000000000) as (<- & <- & Hsec & Hns').
  { unfold second, ns. destruct (Z.leb_spec 1000000000 (dt_nanosecond dt)); Z.to_euclidean_division_equations; lia. }
  cbn [mbind option_bind]. rewrite !two_digits_pad by lia. set (middle := [45] ++ _).
  assert (length middle = 15%nat) as Hm by (unfold middle; rewrite !length_app, !dec_pad_length; done).
  assert (holds (push out middle) (year_text (dt_year dt) ++ middle)) as Hp.
  { apply push_holds; [done|]. unfold RENDER_CAPACITY. lia. }
  destruct (push_subsecond_holds _ _ ns Hp Hns') as [Hf Hfl]; [rewrite length_app; unfold RENDER_CAPACITY; lia|].
  eexists. split; [done|]. rewrite 2!app_assoc, length_app. cbn [length]. rewrite !length_app in *.
  split; [|unfold RENDER_CAPACITY; lia]. apply push_holds; [done|]. rewrite !length_app. cbn [length]. unfold RENDER_CAPACITY. lia.
Qed.

Lemma digits_ascii w n : Forall (λ c, 0 ≤ c < 128) (dec_pad w n).
Proof.
  eapply Forall_impl; [apply dec_pad_digits|]. intros c Hc%andb_True. destruct Hc as [?%Is_true_true%Z.leb_le ?%Is_true_true%Z.leb_le]. lia.
Qed.

Lemma text_ascii dt : Forall (λ c, 0 ≤ c < 128) (rfc3339_text dt).
Proof.
  unfold rfc3339_text, year_text, fraction_text.
  repeat first [apply digits_ascii | apply Forall_app; split | case_match | constructor | lia].
Qed.

Lemma from_utf8_ascii s : Forall (λ c, 0 ≤ c < 128) s → from_utf8 s = Some s.
Proof.
  induction 1 as [|c s Hc _ IH]; [done|]. cbn [from_utf8]. rewrite (proj2 (Z.ltb_lt _ _)) by lia. by rewrite IH.
Qed.

Lemma span_pad w n r : (∀ c r', r = c :: r' → is_digit c = false) → span_digits (dec_pad w n ++ r) = (dec_pad w n, r).
Proof.
  intros Hr. induction (dec_pad_digits w n) as [|c s Hc _ IH]; cbn [span_digits app].
  - destruct r as [|c r']; [done|]. cbn [span_digits]. by rewrite (Hr c r').
  - rewrite (Is_true_true_1 _ Hc). by rewrite IH.
Qed.

Lemma read_pad w n r : 0 ≤ n < 10 ^ Z.of_nat w → read_digits w (dec_pad w n ++ r) = Some (n, r).
Proof.
  intros Hn. unfold read_digits. rewrite length_app, dec_pad_length, (proj2 (Nat.leb_le _ _)) by lia.
  rewrite take_app_length', drop_app_length' by (by rewrite dec_pad_length). rewrite dec_value_pad by done.
  assert (forallb is_digit (dec_pad w n) = true) as ->; [|done].
  apply forallb_forall. intros c Hc%list_elem_of_In. pose proof (dec_pad_digits w n) as Hd.
  rewrite Forall_forall in Hd. by apply Is_true_true_1, Hd.
Qed.

Lemma read_year_text y c r : -262143 ≤ y ≤ 262142 → is_digit c = false →
  read_year (year_text y ++ c :: r) = Some (y, c :: r).
Proof.
  intros Hy Hc. unfold year_text. destruct ((0 <=? y) && (y <=? 9999)) eqn:Hr.
  - apply andb_true_iff in Hr as [?%Z.leb_le ?%Z.leb_le].
    assert (read_year (dec_pad 4 y ++ c :: r) = read_digits 4 (dec_pad 4 y ++ c :: r)) as ->.
    { pose proof (dec_pad_length 4 y). pose proof (dec_pad_digits 4 y) as Hd. destruct (dec_pad 4 y) as [|d l]; [done|].
      apply Forall_cons in Hd as [Hd _]. unfold is_digit in Hd. cbn [app read_year].
      destruct (Z.eqb_spec d 45) as [->|]; [done|]. by destruct (Z.eqb_spec d 43) as [->|]. }
    apply read_pad. cbn. lia.
  - apply andb_false_iff in Hr. rewrite !Z.leb_gt in Hr.
    assert (0 ≤ Z.abs y < 10 ^ Z.of_nat (year_width (Z.abs y)) ∧ (4 ≤ year_width (Z.abs y))%nat) as [Hw Hw4].
    { unfold year_width. repeat case_match; cbn; lia. }
    cbn [app read_year].
    assert (((if y <? 0 then 45 else 43) =? 45) || ((if y <? 0 then 45 else 43) =? 43) = true) as -> by by destruct (y <? 0).
    rewrite span_pad by (by intros ?? [= -> ->]). rewrite dec_value_pad, dec_pad_length, (proj2 (Nat.leb_le _ _)) by done.
    cbn [andb]. destruct (Z.ltb_spec y 0); cbn [Z.eqb Pos.eqb].
    + rewrite (proj2 (Z.ltb_lt _ _)) by lia. cbn [orb]. do 2 f_equal. lia.
    + rewrite (proj2 (Z.ltb_ge _ _)) by lia. rewrite (proj2 (Z.ltb_lt _ _)) by lia. cbn [orb]. do 2 f_equal. lia.
Qed.

Lemma read_fraction_text ns r : 0 ≤ ns < 1000000000 → read_fraction (fraction_text ns ++ 90 :: r) = Some (ns, 90 :: r).
Proof.
  intros Hns. unfold read_fraction, fraction_text. destruct (Z.eqb_spec ns 0) as [->|Hne]; [done|].
  cbn [app expect]. rewrite Z.eqb_refl, span_pad by (by intros ?? [= <- <-]). rewrite dec_pad_length.
  unfold subsecond_width. destruct (Z.eqb_spec (ns mod 1000000) 0); [|destruct (Z.eqb_spec (ns mod 1000) 0)];
    (rewrite dec_value_pad; [do 2 f_equal|]); cbn; Z.to_euclidean_division_equations; lia.
Qed.

Lemma civil_fields_wf dt : datetime_wf dt →
  civil_fields (dt_year dt) (dt_month dt) (dt_day dt) (dt_hour dt) (dt_minute dt) (shown_second dt) = true.
Proof.
  intros (Hy & Hmo & Hd & Hh & Hmi & Hs & Hns & Hleap). unfold civil_fields.
  assert (shown_second dt ≤ 60) by (unfold shown_second; case_match; lia).
  rewrite !andb_true_iff, !Z.leb_le, !Z.ltb_lt. lia.
Qed.

Lemma read_text dt : datetime_wf dt → read_rfc3339 (rfc3339_text dt) = Some dt.
Proof.
  intros Hwf. pose proof (civil_fields_wf dt Hwf) as Hcivil. destruct Hwf as (Hy & Hmo & Hd & Hh & Hmi & Hs & Hns & Hleap).
  pose proof (days_in_month_range (dt_year dt) (dt_month dt)). unfold read_rfc3339, rfc3339_text.
  assert (0 ≤ shown_second dt < 100) as Hsec by (unfold shown_second; case_match; lia).
  cbn [app]. rewrite <-!app_assoc, read_year_text by done. cbn [mbind option_bind expect].
  do 5 (rewrite Z.eqb_refl; cbn [mbind option_bind]; rewrite <-?app_assoc; cbn [app];
        rewrite read_pad by (cbn; lia); cbn [mbind option_bind expect]).
  rewrite read_fraction_text by (Z.to_euclidean_division_equations; lia).
  cbn [expect mbind option_bind]. rewrite Z.eqb_refl. cbn [mbind option_bind is_empty andb]. rewrite Hcivil. f_equal. unfold shown_second.
  destruct (Z.leb_spec 1000000000 (dt_nanosecond dt)) as [Hn|Hn].
  - specialize (Hleap Hn). rewrite Z.eqb_refl. destruct dt; cbn [dt_year dt_month dt_day dt_hour dt_minute dt_second dt_nanosecond] in *.
    rewrite Hleap. f_equal. Z.to_euclidean_division_equations; lia.
  - rewrite (proj2 (Z.eqb_neq _ _)) by lia.
    destruct dt; cbn [dt_year dt_month dt_day dt_hour dt_minute dt_second dt_nanosecond] in *. f_equal. apply Z.mod_small. lia.
Qed.

(** C32. A point in time is written as the RFC 3339 text of its civil time, in every year the calendar has: the
    buffer is large enough for all of it, no chunk is dropped and no digit of the nanoseconds is lost, and a leap second
    is the sixtieth. The text determines the civil time; in the years of four digits, which are those the parser reads,
    reading it back gives the same point in time. Of the parser only this is assumed: that it reads a text of RFC 3339
    in the Zulu zone, with four digits of the year, two of each field in its range and at most nine of the fraction, as
    the civil time it states. *)
Theorem timestamp_round_trip (to_utc : SystemTime → DateTime) (from_utc : DateTime → SystemTime)
    (parse_from_rfc3339 : Str → option DateTime) (t : SystemTime) :
  datetime_wf (to_utc t) → from_utc (to_utc t) = t →
  (∀ s dt, read_rfc3339 s = Some dt → 0 ≤ dt_year dt ≤ 9999 → parse_from_rfc3339 s = Some dt) →
  let text := rfc3339_text (to_utc t) in
  serialize to_utc t = Ok text ∧ (length text ≤ RENDER_CAPACITY)%nat ∧ read_rfc3339 text = Some (to_utc t) ∧
  (0 ≤ dt_year (to_utc t) ≤ 9999 → deserialize from_utc parse_from_rfc3339 text = Some t).
Proof.
  intros Hwf Hinv Hparse text. destruct (render_holds _ Hwf) as (out & Hr & (_ & _ & Ht) & Hl).
  pose proof (read_text _ Hwf) as Hread. split_and!; [|done..|].
  - unfold serialize, as_str. rewrite Hr, Ht. by rewrite from_utf8_ascii by apply text_ascii.
  - intros Hy. unfold deserialize, text. rewrite (Hparse _ _ Hread Hy). cbn. by rewrite Hinv.
Qed.

(** ** Samples *)

(** The civil time of a point in time after the epoch, and its inverse, by the usual arithmetic on eras of
    four hundred years that begin in March. *)
Definition civil_from_nanos (t : SystemTime) : DateTime :=
  let secs := t / 1000000000 in
  let z := secs / 86400 + 719468 in
  let era := z / 146097 in
  let doe := z mod 146097 in
  let yoe := (doe - doe / 1460 + doe / 36524 - doe / 146096) / 365 in
  let doy := doe - (365 * yoe + yoe / 4 - yoe / 100) in
  let mp := (5 * doy + 2) / 153 in
  let month := if mp <? 10 then mp + 3 else mp - 9 in
  mkDateTime (yoe + era * 400 + (if month <=? 2 then 1 else 0)) month (doy - (153 * mp + 2) / 5 + 1)
    (secs mod 86400 / 3600) (secs mod 3600 / 60) (secs mod 60) (t mod 1000000000).

Definition nanos_from_civil (dt : DateTime) : SystemTime :=
  let y := if dt_month dt <=? 2 then dt_year dt - 1 else dt_year dt in
  let mp := if dt_month dt >? 2 then dt_month dt - 3 else dt_month dt + 9 in
  let doy := (153 * mp + 2) / 5 + dt_day dt - 1 in
  let doe := y mod 400 * 365 + y mod 400 / 4 - y mod 400 / 100 + doy in
  let days := y / 400 * 146097 + doe - 719468 in
  ((days * 24 + dt_hour dt) * 60 + dt_minute dt) * 60000000000 + dt_second dt * 1000000000 + dt_nanosecond dt.

Lemma timestamp_round_trip_witness :
  let t := 1785143663917897000 in
  serialize civil_from_nanos t = Ok (s! "2026-07-27T09:14:23.917897Z") ∧
  deserialize nanos_from_civil read_rfc3339 (s! "2026-07-27T09:14:23.917897Z") = Some t.
Proof.
  assert (rfc3339_text (civil_from_nanos 1785143663917897000) = s! "2026-07-27T09:14:23.917897Z") as Ht by by vm_compute.
  cbv zeta. destruct (timestamp_round_trip civil_from_nanos nanos_from_civil read_rfc3339 1785143663917897000)
    as (Hs & _ & _ & Hd).
  - vm_compute. repeat split; congruence.
  - by vm_compute.
  - done.
  - rewrite Ht in Hs, Hd. split; [exact Hs|]. apply Hd. vm_compute. split; congruence.
Defined.

(** Texts that are no date, or lack a digit, are not read. *)
Example bad_texts_refused :
  read_rfc3339 <$> [s! "2026-13-99T99:99:99Z"; s! "---T::Z"; s! "2026-02-29T00:00:00Z"; s! "+2026-01-01T00:00:00Z";
    s! "2026-1-01T00:00:00Z"; s! "2026-01-01T00:00:00.Z"] = replicate 6 None.
Proof. by vm_compute. Qed.

Example leap_second_shown :
  as_str <$> render (mkDateTime 2016 12 31 23 59 59 1500000000) = Some (Some (s! "2016-12-31T23:59:60.500Z")).
Proof. by vm_compute. Qed.

Example widest_text_fills_the_buffer :
  rf_len <$> render (mkDateTime (-262143) 12 31 23 59 59 1999999999) = Some RENDER_CAPACITY.
Proof. by vm_compute. Qed.

