(* ===== verification/Ports.v ===== *)
(** * Probing several ports of a target: [prober/ports.rs], [classify.rs], [mod.rs], [tcp_connect.rs]

    The sweep of a target's ports in waves under a budget that all targets share,
    how an I/O error is read, the slice of the timeout an attempt gets, the rule
    of the latched fault, and the TCP connect prober. The sweeps of several
    targets run at once: which operation moves next is the step taken. *)

From S2P Require Import Prelude Net F64 Model Sink Codec.

(** ** Reading errors: [classify.rs] *)

Inductive Disposition : Type := Absence | Fault (kind : ProbeErrorKind).

#[global] Instance Disposition_eq_dec : EqDecision Disposition.
Proof. solve_decision. Defined.

Section classify.
Context `{IoErrors}.

Definition io_error (err : IoError) : Disposition :=
  match io_error_kind err with
  | TimedOut | ConnectionRefused | ConnectionReset | ConnectionAborted | HostUnreachable
  | NetworkUnreachable => Absence
  | AccessDenied => Fault PermissionDenied
  | _ => Fault OtherFault
  end.

(** What is behind an error: an I/O error with the error it wraps, an error of the
    TLS library, or another error with its source. *)
Inductive ErrorNode : Type :=
  | NodeIo (e : IoError) (inner : option ErrorNode)
  | NodeTls
  | NodeOther (source : option ErrorNode).

Fixpoint io_error_in_chain (err : ErrorNode) : option IoError :=
  match err with
  | NodeIo e _ => Some e
  | NodeOther (Some source) => io_error_in_chain source
  | NodeTls | NodeOther None => None
  end.

(** Whether there is an error of the TLS library; the walk steps into what an I/O error wraps,
    which its source does not show. *)
Fixpoint rustls_error_in_chain (err : ErrorNode) : bool :=
  match err with
  | NodeTls => true
  | NodeIo _ (Some inner) => rustls_error_in_chain inner
  | NodeOther (Some source) => rustls_error_in_chain source
  | NodeIo _ None | NodeOther None => false
  end.

(** The variants of the resolver's error that are told apart. *)
Inductive NetErrorView : Type :=
  | NetTimeout
  | NetIo (e : IoError)
  | NetOther (source : option ErrorNode).

(** [io_source], for the variants that are not an I/O error themselves. *)
Definition io_source (source : option ErrorNode) : option IoError := source ≫= io_error_in_chain.

Definition net_error (err : NetErrorView) : Disposition :=
  match err with
  | NetTimeout => Absence
  | NetIo e => io_error e
  | NetOther source => default (Fault DnsFailed) (io_error <$> io_source source)
  end.

End classify.

(** ** Attempts and faults: [prober/mod.rs] *)

(** Durations in nanoseconds. *)
Definition MIN_ATTEMPT_SLICE : Z := 1000000.

Definition per_attempt_timeout (timeout retries : Z) : Z :=
  Z.max (timeout / saturating_add U32_MAX retries 1) MIN_ATTEMPT_SLICE.

Definition surfaced_fault (reachable : bool) (latched : option ProbeFault) : option ProbeFault :=
  if reachable then None else latched.

(** ** The sweep: [ports.rs] *)

Definition MAX_PORTS_IN_FLIGHT : nat := 32.

(** [slice::chunks]. *)
Fixpoint chunks_go {A} (fuel n : nat) (l : list A) : list (list A) :=
  match fuel, l with
  | O, _ | _, [] => []
  | S fuel', _ => take n l :: chunks_go fuel' n (drop n l)
  end.

Definition chunks {A} (n : nat) (l : list A) : list (list A) := chunks_go (length l) n l.

Section sweep.
Context {T : Type}.

(** One future of [join_all]: waiting for a permit, running with it, or done. *)
Inductive Op : Type :=
  | Queued (port : Z)
  | Running (port : Z)
  | Finished (result : T).

Record Sweep : Type := mkSweep {
  sw_waves : list (list Z);
  sw_wave : list Op;
  sw_results : list T;
}.

Definition op_result (o : Op) : option T :=
  match o with Finished t => Some t | _ => None end.

(** Entering [probe_ports]: the waves are laid out, none has begun. *)
Definition probe_ports (ports : list Z) (max_in_flight : nat) : Sweep :=
  mkSweep (chunks (Nat.max max_in_flight 1) ports) [] [].

Definition sweep_done (s : Sweep) : bool := is_empty (sw_waves s) && is_empty (sw_wave s).

(** [sem.acquire_owned()] that does not wait. *)
Definition budget_acquire (budget : option Z) : option (option Z) :=
  match budget with
  | None => Some None
  | Some permits => if 0 <? permits then Some (Some (permits - 1)) else None
  end.

(** The permit is dropped. *)
Definition budget_release (budget : option Z) : option Z := (λ permits, permits + 1) <$> budget.

(** The operation at [i] gets its permit and starts. *)
Definition op_start (i : nat) (budget : option Z) (s : Sweep) : option (option Z * Sweep) :=
  match sw_wave s !! i with
  | Some (Queued port) =>
      budget' ← budget_acquire budget;
      Some (budget', mkSweep (sw_waves s) (<[i := Running port]> (sw_wave s)) (sw_results s))
  | _ => None
  end.

(** The operation at [i] ends with [t]. *)
Definition op_end (i : nat) (t : T) (budget : option Z) (s : Sweep) : option (option Z * Sweep) :=
  match sw_wave s !! i with
  | Some (Running port) =>
      Some (budget_release budget,
            mkSweep (sw_waves s) (<[i := Finished t]> (sw_wave s)) (sw_results s))
  | _ => None
  end.

(** The loop goes round: the results of a complete wave are appended in port order and
    the futures of the next wave are made. *)
Definition next_wave (s : Sweep) : option Sweep :=
  values ← mapM op_result (sw_wave s);
  match sw_waves s with
  | wave :: waves => Some (mkSweep waves (Queued <$> wave) (sw_results s ++ values))
  | [] =>
      match sw_wave s with
      | [] => None
      | _ :: _ => Some (mkSweep [] [] (sw_results s ++ values))
      end
  end.

(** Every target's sweep with the budget they share. *)
Record Pool : Type := mkPool {
  pl_budget : option Z;
  pl_sweeps : list Sweep;
}.

Definition pool_new (budget : option Z) (max_in_flight : nat) (targets : list (list Z)) : Pool :=
  mkPool budget ((λ ports, probe_ports ports max_in_flight) <$> targets).

(** [per_port j p t]: the operation of target [j] on port [p] may end with [t]. *)
Context (per_port : nat → Z → T → Prop).

Inductive pool_step : Pool → Pool → Prop :=
  | pool_start pl j i s budget' s' :
      pl_sweeps pl !! j = Some s →
      op_start i (pl_budget pl) s = Some (budget', s') →
      pool_step pl (mkPool budget' (<[j := s']> (pl_sweeps pl)))
  | pool_end pl j i port t s budget' s' :
      pl_sweeps pl !! j = Some s →
      sw_wave s !! i = Some (Running port) →
      per_port j port t →
      op_end i t (pl_budget pl) s = Some (budget', s') →
      pool_step pl (mkPool budget' (<[j := s']> (pl_sweeps pl)))
  | pool_next pl j s s' :
      pl_sweeps pl !! j = Some s →
      next_wave s = Some s' →
      pool_step pl (mkPool (pl_budget pl) (<[j := s']> (pl_sweeps pl))).

Definition pool_done (pl : Pool) : bool := forallb sweep_done (pl_sweeps pl).

End sweep.

Arguments Op : clear implicits.
Arguments Sweep : clear implicits.
Arguments Pool : clear implicits.

(** ** The TCP connect prober: [tcp_connect.rs] *)

Section tcp.
Context `{IoErrors}.

(** What [timeout(connect)] gives. *)
Inductive Connect : Type :=
  | Connected
  | ConnectFailed (err : IoError)
  | ConnectElapsed.

Definition connect_fault (port : Z) (err : IoError) : option ProbeFault :=
  match io_error err with
  | Fault kind =>
      Some (mkProbeFault kind (s! "tcp connect failed on port " ++ fmt_dec port ++ s! ": " ++
                               io_error_display err))
  | Absence => None
  end.

Definition fold_connect (acc : list Signal * option ProbeFault) (port_outcome : Z * Connect)
    : list Signal * option ProbeFault :=
  let '(signals, last_fault) := acc in
  let '(port, outcome) := port_outcome in
  match outcome with
  | Connected => (signals ++ [OpenPort port], last_fault)
  | ConnectFailed err =>
      match connect_fault port err with
      | Some fault => (signals, Some fault)
      | None => (signals, last_fault)
      end
  | ConnectElapsed => (signals, last_fault)
  end.

Definition tcp_build_outcome (target_ip : IpAddr) (now : SystemTime) (signals : list Signal)
    (last_fault : option ProbeFault) : ProbeOutcome :=
  let reachable := negb (is_empty signals) in
  mkProbeOutcome TcpConnect target_ip now reachable signals
    (surfaced_fault reachable last_fault) None None.

(** [TcpConnectProber::probe] once [probe_ports] has returned [per_port]. *)
Definition tcp_probe (target_ip : IpAddr) (now : SystemTime) (per_port : list (Z * Connect))
    : ProbeOutcome :=
  let '(signals, last_fault) := foldl fold_connect ([], None) per_port in
  tcp_build_outcome target_ip now signals last_fault.

End tcp.
