(* ===== verification/PortTheorems.v ===== *)
(** * What a sweep of ports guarantees

    Under every interleaving of the sweeps of all targets the operations in
    flight never exceed the budget nor a sweep's cap, no sweep gets stuck, every
    run ends, and a sweep returns one result per port in port order. The TCP
    prober reads these results as documented. *)

From S2P Require Import Prelude Net F64 Model Sink Codec Ports.

#[local] Open Scope nat_scope.

(** ** Chunks *)

Lemma chunks_go_join {A} fuel n (l : list A) : 1 ≤ n → length l ≤ fuel → mjoin (chunks_go fuel n l) = l.
Proof.
  intros Hn. revert l. induction fuel as [|fuel IH]; intros l Hl; [by destruct l; simpl in *; [|lia]|].
  destruct l as [|x l]; [done|]. change (take n (x :: l) ++ mjoin (chunks_go fuel n (drop n (x :: l))) = x :: l).
  rewrite IH; [by rewrite take_drop|]. rewrite length_drop. simpl in *. lia.
Qed.

Lemma chunks_go_length {A} fuel n (l : list A) : Forall (λ w, length w ≤ n) (chunks_go fuel n l).
Proof.
  revert l. induction fuel as [|fuel IH]; intros l; [constructor|].
  destruct l as [|x l]; [constructor|]. constructor; [rewrite length_take; lia|apply IH].
Qed.

Lemma chunks_go_count {A} fuel n (l : list A) : 1 ≤ n → length (chunks_go fuel n l) ≤ length l.
Proof.
  intros Hn. revert l. induction fuel as [|fuel IH]; intros l; [simpl; lia|].
  destruct l as [|x l]; [simpl; lia|]. specialize (IH (drop n (x :: l))).
  rewrite length_drop in IH. simpl in *. lia.
Qed.

Lemma chunks_join {A} n (l : list A) : 1 ≤ n → mjoin (chunks n l) = l.
Proof. intros. by apply chunks_go_join. Qed.

(** ** Sums over a list updated at one place *)

Lemma sum_list_insert {A} (f : A → nat) (l : list A) j x y :
  l !! j = Some x → sum_list_with f (<[j := y]> l) + f x = sum_list_with f l + f y.
Proof.
  revert j. induction l as [|z l IH]; intros [|j] Hj; simplify_eq/=; [lia|].
  specialize (IH j Hj). lia.
Qed.

Lemma sum_list_pos {A} (f : A → nat) (l : list A) :
  0 < sum_list_with f l → ∃ j x, l !! j = Some x ∧ 0 < f x.
Proof.
  induction l as [|z l IH]; simpl; [lia|]. intros Hs.
  destruct (decide (0 < f z)); [by exists 0, z|].
  destruct IH as (j & x & Hj & Hx); [lia|]. by exists (S j), x.
Qed.

Section sweeps.
Context {T : Type} (per_port : nat → Z → T → Prop).

Implicit Types (o : Op T) (s : Sweep T) (pl : Pool T).

(** ** Measures of a sweep *)

Definition op_running o : nat := match o with Running _ => 1 | _ => 0 end.

(** The operations of a sweep that hold a permit. *)
Definition in_flight s : nat := sum_list_with op_running (sw_wave s).

Definition op_weight o : nat := match o with Queued _ => 2 | Running _ => 1 | Finished _ => 0 end.

(** An upper bound on the steps a sweep has left. *)
Definition sweep_weight s : nat :=
  sum_list_with (λ w, 2 * length w + 2) (sw_waves s) + sum_list_with op_weight (sw_wave s) +
  (if is_empty (sw_wave s) then 0 else 1).

Lemma in_flight_le s : in_flight s ≤ length (sw_wave s).
Proof.
  unfold in_flight. induction (sw_wave s) as [|o w IH]; simpl; [lia|]. destruct o; simpl; lia.
Qed.

Lemma running_queued (w : list Z) : sum_list_with op_running (Queued <$> w) = 0.
Proof. by induction w. Qed.

Lemma weight_queued (w : list Z) : sum_list_with op_weight (Queued <$> w) = 2 * length w.
Proof. induction w; [done|]. rewrite fmap_cons. cbn [sum_list_with op_weight length]. lia. Qed.

Lemma mapM_results w (vs : list T) : mapM op_result w = Some vs → w = Finished <$> vs.
Proof.
  intros E%mapM_Some. revert vs E. induction w as [|o w IH]; intros vs E; inversion E as [|? v ? vs2 Ho Hw]; subst; [done|].
  destruct o; simplify_eq/=. by rewrite (IH vs2).
Qed.

Lemma running_finished (vs : list T) : sum_list_with op_running (Finished <$> vs) = 0.
Proof. by induction vs. Qed.

Lemma weight_finished (vs : list T) : sum_list_with op_weight (Finished <$> vs) = 0.
Proof. by induction vs. Qed.

(** ** The invariant of one sweep *)

(** What an operation is to the port it was made for. *)
Definition op_for (j : nat) (port : Z) o : Prop :=
  match o with
  | Queued p | Running p => p = port
  | Finished t => per_port j port t
  end.

(** The ports split into those whose results are in, those of the wave and those to come. *)
Definition sweep_inv (cap j : nat) (ports : list Z) s : Prop :=
  ∃ past wave, ports = past ++ wave ++ mjoin (sw_waves s) ∧
    Forall2 (per_port j) past (sw_results s) ∧ Forall2 (op_for j) wave (sw_wave s) ∧
    length (sw_wave s) ≤ cap ∧ Forall (λ w, length w ≤ cap) (sw_waves s).

Lemma probe_ports_inv cap j ports :
  sweep_inv (Nat.max cap 1) j ports (probe_ports ports cap).
Proof.
  exists [], []. simpl. rewrite chunks_join by lia.
  repeat split; try constructor; [lia|apply chunks_go_length].
Qed.

Lemma probe_ports_weight cap ports :
  sweep_weight (probe_ports ports cap) ≤ 4 * length ports.
Proof.
  unfold sweep_weight, probe_ports. cbn [sw_waves sw_wave is_empty sum_list_with].
  rewrite !Nat.add_0_r.
  assert (∀ ws : list (list Z),
    sum_list_with (λ w, 2 * length w + 2) ws = 2 * length (mjoin ws) + 2 * length ws) as ->.
  { induction ws as [|w ws IH]; [done|]. change (mjoin (w :: ws)) with (w ++ mjoin ws).
    rewrite length_app. cbn [sum_list_with length]. lia. }
  rewrite chunks_join by lia.
  pose proof (chunks_go_count (length ports) (Nat.max cap 1) ports ltac:(lia)).
  unfold chunks. lia.
Qed.

Lemma op_update_inv cap j ports s i o o' port :
  sw_wave s !! i = Some o → (∀ q, op_for j q o → q = port) → op_for j port o' →
  sweep_inv cap j ports s →
  sweep_inv cap j ports (mkSweep (sw_waves s) (<[i := o']> (sw_wave s)) (sw_results s)).
Proof.
  intros Hi Ho Ho' (past & wave & -> & Hpast & Hwave & Hlen & Hcap).
  exists past, wave. simpl. rewrite length_insert.
  repeat split; try done. destruct (Forall2_lookup_r _ _ _ _ _ Hwave Hi) as (q & Hq & Hop).
  rewrite <-(list_insert_id wave i q) by done. apply Forall2_insert; [done|].
  by rewrite (Ho q Hop).
Qed.

Lemma op_start_inv cap j ports i b b' s s' :
  op_start i b s = Some (b', s') → sweep_inv cap j ports s → sweep_inv cap j ports s'.
Proof.
  unfold op_start. destruct (sw_wave s !! i) as [[p|p|t]|] eqn:Hi; [|done..].
  destruct (budget_acquire b); simpl; [|done]. intros [= <- <-].
  by apply (op_update_inv _ _ _ _ _ (Queued p) _ p).
Qed.

Lemma op_end_inv cap j ports i t p b b' s s' :
  sw_wave s !! i = Some (Running p) → per_port j p t →
  op_end i t b s = Some (b', s') → sweep_inv cap j ports s → sweep_inv cap j ports s'.
Proof.
  unfold op_end. intros Hi Ht. rewrite Hi. intros [= <- <-].
  by apply (op_update_inv _ _ _ _ _ (Running p) (Finished t) p).
Qed.

Lemma next_wave_inv cap j ports s s' :
  next_wave s = Some s' → sweep_inv cap j ports s → sweep_inv cap j ports s'.
Proof.
  unfold next_wave. destruct (mapM op_result (sw_wave s)) as [vs|] eqn:Hvs; simpl; [|done].
  apply mapM_results in Hvs. intros E (past & wave & -> & Hpast & Hwave & Hlen & Hcap).
  assert (Forall2 (per_port j) (past ++ wave) (sw_results s ++ vs)) as Hres.
  { apply Forall2_app; [done|]. rewrite Hvs, Forall2_fmap_r in Hwave.
    by eapply Forall2_impl. }
  destruct (sw_waves s) as [|w ws].
  - destruct (sw_wave s); simplify_eq/=. exists (past ++ wave), []. simpl.
    rewrite !app_nil_r. repeat split; first [done|constructor|lia].
  - simplify_eq/=. apply Forall_cons in Hcap as [Hw Hcap]. exists (past ++ wave), w.
    cbn [sw_waves sw_wave sw_results mjoin list_join]. rewrite length_fmap. repeat split; try done.
    + by rewrite <-!app_assoc.
    + apply Forall2_fmap_r. apply Forall_Forall2_diag, Forall_true. done.
Qed.

(** ** Counters along a step *)

Lemma op_start_counts i b b' s s' : op_start i b s = Some (b', s') →
  budget_acquire b = Some b' ∧ in_flight s' = S (in_flight s) ∧ sweep_weight s = S (sweep_weight s').
Proof.
  unfold op_start. destruct (sw_wave s !! i) as [[p|p|t]|] eqn:Hi; [|done..].
  destruct (budget_acquire b); simpl; [|done]. intros [= <- <-]. split; [done|].
  unfold in_flight, sweep_weight. simpl.
  pose proof (sum_list_insert op_running _ _ _ (Running p) Hi) as H1.
  pose proof (sum_list_insert op_weight _ _ _ (Running p) Hi) as H2. simpl in *.
  destruct (sw_wave s); [done|]. destruct i; simpl in *; lia.
Qed.

Lemma op_end_counts i t b b' s s' : op_end i t b s = Some (b', s') →
  budget_release b = b' ∧ S (in_flight s') = in_flight s ∧ sweep_weight s = S (sweep_weight s').
Proof.
  unfold op_end. destruct (sw_wave s !! i) as [[p|p|]|] eqn:Hi; [done| |done..].
  intros [= <- <-]. split; [done|].
  unfold in_flight, sweep_weight. simpl.
  pose proof (sum_list_insert op_running _ _ _ (Finished t) Hi) as H1.
  pose proof (sum_list_insert op_weight _ _ _ (Finished t) Hi) as H2. simpl in *.
  destruct (sw_wave s); [done|]. destruct i; simpl in *; lia.
Qed.

Lemma next_wave_counts s s' : next_wave s = Some s' →
  in_flight s' = 0 ∧ in_flight s = 0 ∧ sweep_weight s' < sweep_weight s.
Proof.
  unfold next_wave. destruct (mapM op_result (sw_wave s)) as [vs|] eqn:Hvs; simpl; [|done].
  apply mapM_results in Hvs. unfold in_flight, sweep_weight. rewrite Hvs, running_finished, weight_finished.
  destruct (sw_waves s) as [|w ws].
  - destruct vs; simpl in *; [done|]. intros [= <-]. simpl. lia.
  - intros [= <-]. cbn [sw_waves sw_wave sum_list_with]. rewrite running_queued, weight_queued.
    repeat split. repeat case_match; lia.
Qed.

(** ** The invariant of the pool *)

Definition total_in_flight pl : nat := sum_list_with in_flight (pl_sweeps pl).
Definition pool_weight pl : nat := sum_list_with sweep_weight (pl_sweeps pl).

Definition pool_inv (budget : option Z) (cap : nat) (targets : list (list Z)) pl : Prop :=
  (∀ j s, pl_sweeps pl !! j = Some s → ∃ ports, targets !! j = Some ports ∧ sweep_inv cap j ports s) ∧
  length (pl_sweeps pl) = length targets ∧
  match budget with
  | Some n => pl_budget pl = Some (n - Z.of_nat (total_in_flight pl))%Z ∧ (Z.of_nat (total_in_flight pl) ≤ n)%Z
  | None => pl_budget pl = None
  end.

Lemma pool_new_inv budget cap targets : (∀ n, budget = Some n → (0 ≤ n)%Z) →
  pool_inv budget (Nat.max cap 1) targets (pool_new budget cap targets).
Proof.
  intros Hn. unfold pool_new. split; [|split].
  - intros j s. simpl. rewrite list_lookup_fmap_Some. intros (ports & -> & Hj).
    exists ports. split; [done|]. apply probe_ports_inv.
  - by rewrite <-(length_fmap (λ ports, probe_ports (T:=T) ports cap) targets).
  - assert (sum_list_with in_flight ((λ ports, probe_ports ports cap) <$> targets) = 0) as Hz
      by (by induction targets).
    destruct budget as [n|]; [|done]. unfold total_in_flight. simpl pl_sweeps. rewrite Hz. simpl.
    rewrite Z.sub_0_r. split; [done|by apply Hn].
Qed.

Lemma pool_step_sweeps budget cap targets pl j s s' b' :
  pl_sweeps pl !! j = Some s →
  (∀ ports, sweep_inv cap j ports s → sweep_inv cap j ports s') →
  match budget with
  | Some n => b' = Some (n - Z.of_nat (total_in_flight pl + in_flight s' - in_flight s))%Z ∧
              (Z.of_nat (total_in_flight pl + in_flight s' - in_flight s) ≤ n)%Z
  | None => b' = None
  end →
  pool_inv budget cap targets pl → pool_inv budget cap targets (mkPool b' (<[j := s']> (pl_sweeps pl))).
Proof.
  intros Hj Hinv Hb (Hsw & Hlen & _). split; [|split].
  - intros k s2. simpl. intros [(<- & -> & _)|[_ Hk]]%list_lookup_insert_Some; [|by apply Hsw].
    destruct (Hsw _ _ Hj) as (ports & Hp & Hs). eauto.
  - simpl. by rewrite length_insert.
  - pose proof (sum_list_insert in_flight _ _ _ s' Hj) as Hsum. unfold total_in_flight in *.
    cbn [pl_sweeps pl_budget].
    replace (sum_list_with in_flight (<[j:=s']> (pl_sweeps pl))) with
      (sum_list_with in_flight (pl_sweeps pl) + in_flight s' - in_flight s) by lia. done.
Qed.

Lemma in_flight_total pl j s : pl_sweeps pl !! j = Some s → in_flight s ≤ total_in_flight pl.
Proof.
  intros Hj. pose proof (sum_list_insert in_flight _ _ _ (mkSweep [] [] []) Hj) as Hs.
  unfold total_in_flight. unfold in_flight in Hs at 4. simpl in Hs. lia.
Qed.

Lemma pool_step_inv budget cap targets pl pl' :
  pool_step per_port pl pl' → pool_inv budget cap targets pl → pool_inv budget cap targets pl'.
Proof.
  intros Hstep Hpool. pose proof Hpool as (_ & _ & Hb).
  destruct Hstep as [pl j i s b' s' Hj Hs|pl j i p t s b' s' Hj Hi Ht Hs|pl j s s' Hj Hs].
  - destruct (op_start_counts _ _ _ _ _ Hs) as (Ha & Hf & _).
    apply (pool_step_sweeps _ _ _ _ _ s); try done.
    { intros ports. by eapply op_start_inv. }
    destruct budget as [n|].
    + destruct Hb as [Hb Hle]. rewrite Hb in Ha. simpl in Ha.
      destruct (Z.ltb_spec 0 (n - Z.of_nat (total_in_flight pl))); simplify_eq.
      split; [f_equal; lia|lia].
    + rewrite Hb in Ha. simpl in Ha. by simplify_eq.
  - destruct (op_end_counts _ _ _ _ _ _ Hs) as (Ha & Hf & _).
    pose proof (in_flight_total _ _ _ Hj).
    apply (pool_step_sweeps _ _ _ _ _ s); try done.
    { intros ports. by eapply op_end_inv. }
    destruct budget as [n|].
    + destruct Hb as [Hb Hle]. rewrite Hb in Ha. simpl in Ha. subst b'. split; [f_equal; lia|lia].
    + rewrite Hb in Ha. by simpl in Ha.
  - destruct (next_wave_counts _ _ Hs) as (Hf' & Hf & _).
    apply (pool_step_sweeps _ _ _ _ _ s); try done.
    { intros ports. by apply next_wave_inv. }
    rewrite Hf, Hf', Nat.add_0_r, Nat.sub_0_r. by destruct budget.
Qed.

Lemma pool_reach_inv budget cap targets pl :
  (∀ n, budget = Some n → (0 ≤ n)%Z) →
  rtc (pool_step per_port) (pool_new budget cap targets) pl →
  pool_inv budget (Nat.max cap 1) targets pl.
Proof.
  intros Hn. apply (rtc_ind_r (λ pl, pool_inv budget (Nat.max cap 1) targets pl) (pool_new budget cap targets)).
  - by apply pool_new_inv.
  - intros y z _ Hstep Hy. by eapply pool_step_inv.
Qed.

(** ** Progress and termination *)

Lemma running_at s : 0 < in_flight s → ∃ i p, sw_wave s !! i = Some (Running p).
Proof.
  intros (i & o & Hi & Ho)%sum_list_pos. destruct o; simpl in Ho; [lia| |lia]. eauto.
Qed.

(** A wave that neither runs nor waits is complete. *)
Lemma wave_cases (w : list (Op T)) :
  (∃ i p, w !! i = Some (Running p)) ∨ (∃ i p, w !! i = Some (Queued p)) ∨
  (∃ vs, mapM op_result w = Some vs).
Proof.
  induction w as [|o w [(i & p & Hi)|[(i & p & Hi)|(vs & Hvs)]]]; [by right; right; exists []| | |].
  - left. by exists (S i), p.
  - right; left. by exists (S i), p.
  - destruct o as [p|p|t]; [right; left; by exists 0, p|left; by exists 0, p|].
    right; right. exists (t :: vs). simpl. by rewrite Hvs.
Qed.

Lemma end_step pl j s i p :
  (∀ j p, ∃ t, per_port j p t) →
  pl_sweeps pl !! j = Some s → sw_wave s !! i = Some (Running p) →
  ∃ pl', pool_step per_port pl pl'.
Proof.
  intros Hall Hj Hi. destruct (Hall j p) as [t Ht]. eexists. eapply pool_end; try done.
  unfold op_end. by rewrite Hi.
Qed.

Lemma pool_progress budget cap targets pl :
  (∀ n, budget = Some n → (1 ≤ n)%Z) → (∀ j p, ∃ t, per_port j p t) →
  pool_inv budget cap targets pl → pool_done pl = false → ∃ pl', pool_step per_port pl pl'.
Proof.
  intros Hn Hall (_ & _ & Hb) Hdone.
  assert (∃ j s, pl_sweeps pl !! j = Some s ∧ sweep_done s = false) as (j & s & Hj & Hs).
  { unfold pool_done in Hdone. induction (pl_sweeps pl) as [|s ss IH]; [done|]. simpl in Hdone.
    apply andb_false_iff in Hdone as [Hd|Hd]; [by exists 0, s|].
    destruct (IH Hd) as (j & s2 & Hj & Hs). by exists (S j), s2. }
  destruct (wave_cases (sw_wave s)) as [(i & p & Hi)|[(i & p & Hi)|(vs & Hvs)]].
  - by eapply end_step.
  - destruct (budget_acquire (pl_budget pl)) as [b'|] eqn:Ha.
    { eexists. eapply (pool_start _ _ j i); [done|]. unfold op_start. rewrite Hi, Ha. done. }
    destruct budget as [n|]; [|by rewrite Hb in Ha].
    destruct Hb as [Hb Hle]. rewrite Hb in Ha. simpl in Ha.
    destruct (Z.ltb_spec 0 (n - Z.of_nat (total_in_flight pl))); [done|].
    specialize (Hn n eq_refl).
    destruct (sum_list_pos in_flight (pl_sweeps pl)) as (k & s2 & Hk & (i2 & p2 & Hr)%running_at);
      [unfold total_in_flight in *; lia|]. by eapply end_step.
  - assert (∃ s', next_wave s = Some s') as [s' Hs'].
    { unfold next_wave. rewrite Hvs. simpl. unfold sweep_done in Hs.
      destruct (sw_waves s); [|by eexists]. destruct (sw_wave s); [done|by eexists]. }
    eexists. by eapply pool_next.
Qed.

Lemma pool_step_weight pl pl' : pool_step per_port pl pl' → pool_weight pl' < pool_weight pl.
Proof.
  assert (∀ pl j s s' b, pl_sweeps pl !! j = Some s → sweep_weight s' < sweep_weight s →
    pool_weight (mkPool b (<[j := s']> (pl_sweeps pl))) < pool_weight pl) as Hw.
  { intros pl0 j s s' b Hj Hlt. pose proof (sum_list_insert sweep_weight _ _ _ s' Hj).
    unfold pool_weight. simpl. lia. }
  intros [? j i s b' s' Hj Hs|? j i p t s b' s' Hj Hi Ht Hs|? j s s' Hj Hs];
    apply (Hw _ _ s); try done.
  - apply op_start_counts in Hs. lia.
  - apply op_end_counts in Hs. lia.
  - apply next_wave_counts in Hs. lia.
Qed.

Lemma pool_nsteps_weight n pl pl' : nsteps (pool_step per_port) n pl pl' → n + pool_weight pl' ≤ pool_weight pl.
Proof. induction 1 as [|n x y z Hxy%pool_step_weight _ IH]; lia. Qed.

Lemma pool_new_weight budget cap targets :
  pool_weight (pool_new budget cap targets) ≤ 4 * sum_list_with length targets.
Proof.
  unfold pool_weight, pool_new. simpl. induction targets as [|ports targets IH]; [done|].
  rewrite fmap_cons. cbn [sum_list_with]. pose proof (probe_ports_weight cap ports). lia.
Qed.

Lemma sweep_results_done cap j ports s :
  sweep_inv cap j ports s → sweep_done s = true → Forall2 (per_port j) ports (sw_results s).
Proof.
  intros (past & wave & -> & Hpast & Hwave & _) Hd. unfold sweep_done in Hd.
  destruct (sw_waves s); [|done]. destruct (sw_wave s); [|done].
  inversion Hwave; subst. simpl. by rewrite app_nil_r.
Qed.

(** C15. Sweeping the ports of all targets at once, under every interleaving: a sweep has at most
    its cap of operations in flight and all of them together at most the shared budget, whose
    free permits are exactly what is left; a sweep that returned holds one result per port, in port
    order, each from that port's own operation; as long as every operation ends, a pool that
    is not done can always move (no deadlock on the permits), and no run has more than four steps
    per port. *)
Theorem ports_swept (budget : option Z) (cap : nat) (targets : list (list Z)) pl (n : nat) :
  (∀ permits, budget = Some permits → (1 ≤ permits)%Z) →
  (∀ j p, ∃ t, per_port j p t) →
  nsteps (pool_step per_port) n (pool_new budget cap targets) pl →
  n ≤ 4 * sum_list_with length targets ∧
  (∀ permits, budget = Some permits →
     (Z.of_nat (total_in_flight pl) ≤ permits)%Z ∧
     pl_budget pl = Some (permits - Z.of_nat (total_in_flight pl))%Z) ∧
  (∀ j s, pl_sweeps pl !! j = Some s → in_flight s ≤ Nat.max cap 1 ∧
     (sweep_done s = true → ∃ ports, targets !! j = Some ports ∧
        Forall2 (per_port j) ports (sw_results s))) ∧
  (pool_done pl = false → ∃ pl', pool_step per_port pl pl').
Proof.
  intros Hn Hall Hsteps.
  assert (pool_inv budget (Nat.max cap 1) targets pl) as Hinv.
  { apply pool_reach_inv; [intros m Hm; specialize (Hn m Hm); lia|].
    by eapply rtc_nsteps_2. }
  pose proof Hinv as (Hsw & _ & Hb). repeat split.
  - apply pool_nsteps_weight in Hsteps. pose proof (pool_new_weight budget cap targets). lia.
  - subst budget. by destruct Hb.
  - subst budget. by destruct Hb.
  - destruct (Hsw j s) as (ports & _ & past & wave & _ & _ & _ & Hlen & _); [done|].
    pose proof (in_flight_le s). lia.
  - destruct (Hsw j s) as (ports & Hp & Hs); [done|]. intros Hd. exists ports.
    split; [done|]. by eapply sweep_results_done.
  - by eapply pool_progress.
Qed.

End sweeps.

(** Two targets share one permit: the second waits for the first. *)
Definition sample_pool : Pool Z :=
  mkPool (Some 0%Z) [mkSweep [[443%Z]] [Running 80%Z] []; mkSweep [] [Queued 22%Z] []].

Definition sample_op (j : nat) (p t : Z) : Prop := t = (p + 1)%Z.

Lemma sample_pool_steps :
  nsteps (pool_step sample_op) 3 (pool_new (Some 1%Z) 1 [[80; 443]; [22]]%Z) sample_pool.
Proof.
  eapply nsteps_l; [eapply (pool_next _ _ 0); reflexivity|].
  eapply nsteps_l; [eapply (pool_next _ _ 1); reflexivity|].
  eapply nsteps_l; [eapply (pool_start _ _ 0 0); reflexivity|]. constructor.
Qed.

Lemma ports_swept_witness :
  total_in_flight sample_pool = 1 ∧ ∃ pl', pool_step sample_op sample_pool pl'.
Proof.
  split; [by vm_compute|].
  refine (proj2 (proj2 (proj2 (ports_swept sample_op (Some 1%Z) 1 [[80; 443]; [22]]%Z sample_pool 3 _ _
    sample_pool_steps))) _).
  - intros permits [= <-]. lia.
  - intros j p. by eexists.
  - by vm_compute.
Defined.
