(* ===== verification/Tee.v ===== *)
(** * Fan-out: [sink/tee.rs]

    A tee writes to children that are other sinks, some of them shared with
    other tees. The children live in the world: [SinkStore] is what the tee may
    ask of one, so a child reached through two handles has one state. *)

From S2P Require Import Prelude Net Sink.

(** ** The children: [trait Sink] behind a handle *)

Class SinkStore (W : Type) `{ForeignErrors} := {
  Handle : Type;
  h_write : Handle → Bytes → W → W * Result RastreoError unit;
  h_write_kind : Handle → RecordKind → Bytes → W → W * Result RastreoError unit;
  h_flush : Handle → W → W * Result RastreoError unit;
  h_close : Handle → W → W * Result RastreoError unit;
  h_last_write_delivered : Handle → W → bool;
  h_kind : Handle → W → SinkType;
  h_requires_structured_records : Handle → W → bool;
  h_destinations : Handle → W → list SinkType;
  h_dlq_records_by_class : Handle → W → SinkErrorClass → Z;
  h_dlq_records_by_type_and_class : Handle → W → list (SinkType * SinkErrorClass * Z);
  h_probe : Handle → W → W * Result IoError unit;
}.

(** DLQ counters per class: the arrays of [SINK_ERROR_CLASS_COUNT] entries, read
    through [SinkErrorClass::index]. *)
Abbreviation ClassDeltas := (SinkErrorClass → Z).

Definition class_deltas (before after : ClassDeltas) : ClassDeltas :=
  λ c, saturating_sub (after c) (before c).

Abbreviation Attribution := (list (SinkType * SinkErrorClass * Z)).

(** Add to the entry of the type and class, or push a new one. *)
Fixpoint credit_entry (kind : SinkType) (class : SinkErrorClass) (delta : Z) (bucket : Attribution)
    : Attribution :=
  match bucket with
  | [] => [(kind, class, delta)]
  | (k, c, n) :: rest =>
      if decide (k = kind ∧ c = class) then (k, c, saturating_add U64_MAX n delta) :: rest
      else (k, c, n) :: credit_entry kind class delta rest
  end.

Definition credit_class (kind : SinkType) (deltas : ClassDeltas) (bucket : Attribution)
    (class : SinkErrorClass) : Attribution :=
  if deltas class =? 0 then bucket else credit_entry kind class (deltas class) bucket.

Definition credit_attribution (bucket : Attribution) (kind : SinkType) (deltas : ClassDeltas)
    : Attribution :=
  foldl (credit_class kind deltas) bucket sink_error_class_all.

Inductive Fanout : Type :=
  | FanWrite (data : Bytes)
  | FanWriteKind (kind : RecordKind) (data : Bytes)
  | FanFlush
  | FanClose.

Definition aborts_on_child_error (call : Fanout) : bool :=
  match call with
  | FanWrite _ | FanWriteKind _ _ => true
  | FanFlush | FanClose => false
  end.

Record ChildAttribution : Type := mkChildAttribution {
  ca_kind : SinkType;
  ca_deltas : ClassDeltas;
  ca_delivered : bool;
}.

Section tee.
Context {W : Type} `{FE : ForeignErrors} {SS : SinkStore W}.

Inductive TeeChild : Type :=
  | TeeOwned (sink : Handle)
  | TeeShared (sink : Handle).

(** The sink a child stands for: locking a shared one gives access to it. *)
Definition child_sink (child : TeeChild) : Handle :=
  match child with TeeOwned h | TeeShared h => h end.

Record TeeSink : Type := mkTeeSink {
  tee_children : list TeeChild;
  tee_last_delivered : bool;
  tee_attribution : Attribution;
}.

Definition tee_new (children : list TeeChild) : TeeSink := mkTeeSink children false [].

Definition fanout_call (h : Handle) (call : Fanout) (w : W) : W * Result RastreoError unit :=
  match call with
  | FanWrite data => h_write h data w
  | FanWriteKind kind data => h_write_kind h kind data w
  | FanFlush => h_flush h w
  | FanClose => h_close h w
  end.

Definition fanout_sink (h : Handle) (call : Fanout) (w : W)
    : W * (ChildAttribution * option RastreoError) :=
  let before := h_dlq_records_by_class h w in
  let '(w, r) := fanout_call h call w in
  let after := h_dlq_records_by_class h w in
  (w, ({| ca_kind := h_kind h w;
          ca_deltas := class_deltas before after;
          ca_delivered := h_last_write_delivered h w |}, result_err r)).

Definition fanout_child (child : TeeChild) (call : Fanout) (w : W)
    : W * (ChildAttribution * option RastreoError) :=
  fanout_sink (child_sink child) call w.

(** [Option::or]. *)
Definition option_or {A} (a b : option A) : option A :=
  match a with Some _ => a | None => b end.

(** The loop of [fan_out] over the children. *)
Fixpoint fan_out_loop (children : list TeeChild) (call : Fanout) (attribution : Attribution)
    (all_delivered : bool) (first_error : option RastreoError) (w : W)
    : W * Attribution * bool * option RastreoError :=
  match children with
  | [] => (w, attribution, all_delivered, first_error)
  | child :: rest =>
      let '(w, (a, error)) := fanout_child child call w in
      let attribution := credit_attribution attribution (ca_kind a) (ca_deltas a) in
      let all_delivered := all_delivered && ca_delivered a in
      let abort := bool_decide (is_Some error) && aborts_on_child_error call in
      let first_error := option_or first_error error in
      if abort then (w, attribution, all_delivered, first_error)
      else fan_out_loop rest call attribution all_delivered first_error w
  end.

Definition fan_out (t : TeeSink) (call : Fanout) (w : W)
    : TeeSink * W * Result RastreoError unit :=
  let '(w, attribution, all_delivered, first_error) :=
    fan_out_loop (tee_children t) call (tee_attribution t) true None w in
  match first_error with
  | Some err => (mkTeeSink (tee_children t) false attribution, w, Err err)
  | None => (mkTeeSink (tee_children t) all_delivered attribution, w, Ok tt)
  end.

Definition tee_write (t : TeeSink) (data : Bytes) := fan_out t (FanWrite data).
Definition tee_write_kind (t : TeeSink) (kind : RecordKind) (data : Bytes) :=
  fan_out t (FanWriteKind kind data).
Definition tee_flush (t : TeeSink) := fan_out t FanFlush.
Definition tee_close (t : TeeSink) := fan_out t FanClose.

Definition tee_requires_structured_records (t : TeeSink) (w : W) : bool :=
  existsb (λ child, h_requires_structured_records (child_sink child) w) (tee_children t).

Definition tee_destinations (t : TeeSink) (w : W) : list SinkType :=
  mjoin ((λ child, h_destinations (child_sink child) w) <$> tee_children t).

Definition tee_dlq_records_delivered (t : TeeSink) : Z :=
  foldl (λ acc e, saturating_add U64_MAX acc e.2) 0 (tee_attribution t).

Definition tee_dlq_records_by_class (t : TeeSink) : ClassDeltas :=
  λ class, foldl (λ slot e, if decide (e.1.2 = class) then saturating_add U64_MAX slot e.2 else slot)
    0 (tee_attribution t).

Definition tee_dlq_records_by_type_and_class (t : TeeSink) : Attribution :=
  filter (λ e, 0 < e.2) (tee_attribution t).

Fixpoint probe_children (children : list TeeChild) (w : W) : W * Result IoError unit :=
  match children with
  | [] => (w, Ok tt)
  | child :: rest =>
      let '(w, r) := h_probe (child_sink child) w in
      match r with Ok _ => probe_children rest w | Err e => (w, Err e) end
  end.

Definition tee_probe (t : TeeSink) (w : W) : W * Result IoError unit :=
  probe_children (tee_children t) w.
End tee.
