(* ===== verification/SinkTheorems.v ===== *)
(** * Retrying, fan-out and the memory sink

    Retrying makes a bounded number of attempts with the documented delays; a
    tee reaches the children it must, reports the first error and credits each
    dead-lettered record once; a capped memory sink keeps whole writes. *)

From S2P Require Import Prelude Net Sink Codec Tee.

(** ** Retrying *)

Section retry.
Context {W E T : Type} {SL : Sleep W} (retry : SinkRetry) (op : W → W * Result E T).

(** The delay after failed attempt [k], counting from 0: it doubles up to the cap. *)
Definition delay (k : nat) : Z :=
  Z.min (backoff_max_ms retry) (backoff_initial_ms retry * 2 ^ Z.of_nat k).

Definition nap (d : Z) (w : W) : W := if 0 <? d then sleep_ms d w else w.

(** The world before attempt [k], when every attempt before it failed. *)
Fixpoint after_failures (k : nat) (w : W) : option W :=
  match k with
  | O => Some w
  | S k =>
      w1 ← after_failures k w;
      match (op w1).2 with Ok _ => None | Err _ => Some (nap (delay k) (op w1).1) end
  end.

Hypothesis delays_u64 :
  0 ≤ backoff_initial_ms retry ∧ 0 ≤ backoff_max_ms retry ≤ U64_MAX.

Lemma next_backoff_delay k : next_backoff (delay k) (backoff_max_ms retry) = delay (S k).
Proof using delays_u64.
  unfold next_backoff, saturating_mul, delay. rewrite Nat2Z.inj_succ, Z.pow_succ_r by lia.
  assert (0 < 2 ^ Z.of_nat k) by (apply Z.pow_pos_nonneg; lia).
  set (p := 2 ^ Z.of_nat k) in *. unfold U64_MAX in *. nia.
Qed.

Lemma retry_loop_runs max left k w0 w :
  after_failures k w0 = Some w → (k < max ≤ k + left)%nat →
  ∃ n w1, (n < max)%nat ∧ after_failures n w0 = Some w1 ∧
    retry_loop left (Z.of_nat max) (backoff_max_ms retry) op (delay k) (Z.of_nat k + 1) w = op w1 ∧
    (is_ok (op w1).2 = true ∨ S n = max).
Proof using delays_u64.
  revert k w. induction left as [|left IH]; intros k w Hw Hk; [lia|]. cbn [retry_loop].
  destruct (op w) as [w' [v|e]] eqn:Eop.
  - exists k, w. rewrite Eop. split_and!; [lia|done|done|by left].
  - destruct (Z.leb_spec (Z.of_nat max) (Z.of_nat k + 1)).
    + exists k, w. rewrite Eop. split_and!; [lia|done|done|right; lia].
    + fold (nap (delay k) w'). rewrite next_backoff_delay.
      replace (Z.of_nat k + 1 + 1) with (Z.of_nat (S k) + 1) by lia.
      apply IH; [|lia]. cbn. rewrite Hw. cbn. by rewrite Eop.
Qed.

(** Retrying always returns, after at most [max_attempts] attempts (one when
    the setting is 0): what it returns is the outcome of some attempt before
    which every attempt failed, with the doubling, capped delays slept in
    between, and that attempt either succeeded or was the last allowed. *)
Theorem retry_with_backoff_spec w :
  ∃ k w1, (k < Z.to_nat (Z.max (max_attempts retry) 1))%nat ∧
    after_failures k w = Some w1 ∧
    retry_with_backoff retry op w = op w1 ∧
    (is_ok (op w1).2 = true ∨ S k = Z.to_nat (Z.max (max_attempts retry) 1)).
Proof using delays_u64.
  unfold retry_with_backoff.
  destruct (retry_loop_runs (Z.to_nat (Z.max (max_attempts retry) 1))
    (Z.to_nat (Z.max (max_attempts retry) 1)) 0 w w) as (n & w1 & H1 & H2 & H3 & H4);
    [done|lia|].
  exists n, w1. split_and!; [done|done| |done]. rewrite <-H3, Z2Nat.id by lia.
  replace (delay 0) with (Z.min (backoff_initial_ms retry) (backoff_max_ms retry)); [done|].
  unfold delay. change (2 ^ Z.of_nat 0) with 1. lia.
Qed.
End retry.

(** The relation between a retried operation and its runs, for the clients. *)
Lemma retry_with_backoff_run {W E T} `{Sleep W} retry (op : W → W * Result E T) w :
  (∃ n w0, rtc (λ a b, ∃ e, (op a).2 = Err e ∧ (b = (op a).1 ∨ ∃ d, b = sleep_ms d (op a).1)) w w0 ∧
     retry_with_backoff retry op w = (n, (op w0).2) ∧
     (n = (op w0).1 ∨ is_ok (op w0).2 = false ∧ ∃ d, n = sleep_ms d (op w0).1)).
Proof.
  unfold retry_with_backoff.
  generalize (Z.to_nat (Z.max (max_attempts retry) 1)) as left.
  generalize (Z.max (max_attempts retry) 1) as max.
  generalize (Z.min (backoff_initial_ms retry) (backoff_max_ms retry)) as delay.
  generalize 1 as attempt.
  intros attempt delay max left. revert delay attempt w.
  induction left as [|left IH]; intros delay attempt w; cbn [retry_loop];
    destruct (op w) as [w' [v|e]] eqn:Eop.
  - exists w', w. rewrite Eop. split_and!; [apply rtc_refl|done|by left].
  - destruct (max <=? attempt); [exists w', w; rewrite Eop; split_and!; [apply rtc_refl|done|by left]|].
    eexists _, w. rewrite Eop. split_and!; [apply rtc_refl|done|].
    destruct (0 <? delay); [right; split; [done|by eexists]|by left].
  - exists w', w. rewrite Eop. split_and!; [apply rtc_refl|done|by left].
  - destruct (max <=? attempt); [exists w', w; rewrite Eop; split_and!; [apply rtc_refl|done|by left]|].
    destruct (IH (next_backoff delay (backoff_max_ms retry)) (attempt + 1)
      (if 0 <? delay then sleep_ms delay w' else w')) as (n & w0 & Hr & E' & Hn).
    exists n, w0. split_and!; [|done|done]. eapply rtc_l; [|exact Hr].
    exists e. rewrite Eop. split; [done|]. destruct (0 <? delay); [right; by eexists|by left].
Qed.

(** ** Fan-out *)

Section tee.
Context {W : Type} `{FE : ForeignErrors} {SS : SinkStore W}.
Implicit Types (t : TeeSink) (call : Fanout) (w : W) (p : SinkType → SinkErrorClass → bool)
  (b : Attribution) (k : SinkType) (c : SinkErrorClass) (d : Z).

Abbreviation Outcome := (ChildAttribution * option RastreoError)%type.

(** Calling each of some children in turn, whatever they answer. *)
Fixpoint run_children (children : list TeeChild) call w : W * list Outcome :=
  match children with
  | [] => (w, [])
  | child :: rest =>
      let '(w, o) := fanout_child child call w in
      let '(w, os) := run_children rest call w in (w, o :: os)
  end.

Definition credit_outcome (b : Attribution) (o : Outcome) : Attribution :=
  credit_attribution b (ca_kind o.1) (ca_deltas o.1).

(** Writes, as opposed to flushes and closes. *)
Definition is_write (call : Fanout) : Prop :=
  (∃ data, call = FanWrite data) ∨ (∃ kind data, call = FanWriteKind kind data).

Lemma aborts_is_write call : aborts_on_child_error call = true ↔ is_write call.
Proof using Type. unfold is_write. destruct call; naive_solver. Qed.

(** How many children a call must reach: all of them, or those up to the first
    that refuses a write. *)
Definition must_stop call (os : list Outcome) : Prop :=
  is_write call ∧
  ∃ os1 o, os = os1 ++ [o] ∧ Forall (λ x, x.2 = None) os1 ∧ is_Some o.2.

Lemma find_map_cons_error (o : Outcome) os first :
  option_or (option_or first o.2) (find_map snd os) = option_or first (find_map snd (o :: os)).
Proof using Type. cbn. by destruct first, o.2. Qed.

Lemma fan_out_loop_runs children call b all first w :
  ∃ reached rest os w', children = reached ++ rest ∧ run_children reached call w = (w', os) ∧
    (rest = [] ∧ (is_write call → Forall (λ x, x.2 = None) os) ∨
     must_stop call os) ∧
    fan_out_loop children call b all first w =
      (w', foldl credit_outcome b os, all && forallb (λ o, ca_delivered o.1) os,
       option_or first (find_map snd os)).
Proof using Type.
  revert b all first w. induction children as [|child rest IH]; intros b all first w.
  { exists [], [], [], w. split_and!; [done|done|by left|]. cbn.
    rewrite andb_true_r. by destruct first. }
  cbn [fan_out_loop]. destruct (fanout_child child call w) as [w1 [a error]] eqn:E1.
  destruct (bool_decide (is_Some error) && aborts_on_child_error call) eqn:Hab.
  - break_bool. exists [child], rest, [(a, error)], w1. split_and!; [done|cbn; by rewrite E1| |].
    + right. split; [by apply aborts_is_write|]. by exists [], (a, error).
    + cbn. rewrite andb_true_r. by destruct first, error.
  - destruct (IH (credit_attribution b (ca_kind a) (ca_deltas a)) (all && ca_delivered a)
      (option_or first error) w1) as (reached & rest' & os & w' & -> & Hrun & Hstop & ->).
    exists (child :: reached), rest', ((a, error) :: os), w'. split_and!; [done| | |].
    + cbn. by rewrite E1, Hrun.
    + assert (is_write call → error = None) as Hok.
      { intros Hc%aborts_is_write. rewrite Hc, andb_true_r in Hab. break_bool. by destruct error; [destruct Hab|]. }
      destruct Hstop as [[-> Hall]|[Hc (os1 & o & -> & Hall & Ho)]].
      * left. split; [done|]. intros Hc. constructor; [by apply Hok|by apply Hall].
      * right. split; [done|]. exists ((a, error) :: os1), o. split_and!; [done| |done].
        constructor; [by apply Hok|done].
    + rewrite (find_map_cons_error (a, error)). cbn. by rewrite andb_assoc.
Qed.

(** A call through a tee reaches its children in order: a write stops after
    the first child that refuses it, a flush or close reaches every child
    whatever the others answer. The call returns the first error among the
    children reached, and the tee reports the write delivered only when every
    child was reached, accepted it and reports it delivered itself. *)
Theorem fan_out_spec t call w :
  ∃ reached rest os t' w',
    tee_children t = reached ++ rest ∧ run_children reached call w = (w', os) ∧
    (rest = [] ∧ (is_write call → Forall (λ x, x.2 = None) os) ∨
     must_stop call os) ∧
    fan_out t call w =
      (t', w', match find_map snd os with Some e => Err e | None => Ok tt end) ∧
    tee_children t' = tee_children t ∧
    (tee_last_delivered t' = true ↔
       rest = [] ∧ Forall (λ x, x.2 = None ∧ ca_delivered x.1 = true) os).
Proof using Type.
  destruct (fan_out_loop_runs (tee_children t) call (tee_attribution t) true None w)
    as (reached & rest & os & w' & Hc & Hrun & Hstop & E).
  unfold fan_out. rewrite E. cbn [option_or andb].
  exists reached, rest, os, (mkTeeSink (tee_children t)
    (if find_map snd os is Some _ then false else forallb (λ o, ca_delivered o.1) os)
    (foldl credit_outcome (tee_attribution t) os)), w'.
  split_and!; [done|done|done|by destruct (find_map snd os)|done|].
  destruct (find_map snd os) as [e|] eqn:Hf; cbn.
  - split; [done|]. intros [_ Hall]. exfalso.
    assert (find_map snd os = None) by (apply find_map_None; eapply Forall_impl; [done|]; by intros ? []).
    congruence.
  - apply find_map_None in Hf. rewrite forallb_forall. setoid_rewrite <-list_elem_of_In.
    rewrite Forall_forall in Hf. split.
    + intros Hd. split.
      * destruct Hstop as [[-> _]|[_ (os1 & o & -> & _ & [e He])]]; [done|].
        rewrite (Hf o) in He; [done|set_solver].
      * apply Forall_forall. intros x Hx. split; [by apply Hf|by apply Hd].
    + intros [_ Hd] x Hx. rewrite Forall_forall in Hd. by apply Hd.
Qed.

(** *** Dead-letter accounting *)

(** The outcomes of the children a call reaches. *)
Fixpoint reach (children : list TeeChild) call w : W * list Outcome :=
  match children with
  | [] => (w, [])
  | child :: rest =>
      let '(w, o) := fanout_child child call w in
      if bool_decide (is_Some o.2) && aborts_on_child_error call then (w, [o])
      else let '(w, os) := reach rest call w in (w, o :: os)
  end.

Lemma fan_out_loop_reach children call b all first w :
  (fan_out_loop children call b all first w).1.1 =
    ((reach children call w).1, foldl credit_outcome b (reach children call w).2).
Proof using Type.
  revert b all first w. induction children as [|child rest IH]; intros b all first w; [done|].
  cbn [fan_out_loop reach]. destruct (fanout_child child call w) as [w1 [a error]].
  cbn [fst snd]. destruct (_ && _); [done|]. rewrite IH. by destruct (reach rest call w1).
Qed.

(** A history of calls on one tee, with the outcomes of every child reached. *)
Fixpoint tee_run t (calls : list Fanout) w : TeeSink * list Outcome :=
  match calls with
  | [] => (t, [])
  | call :: calls =>
      let os := (reach (tee_children t) call w).2 in
      let '(t, w, _) := fan_out t call w in
      let '(t, os') := tee_run t calls w in (t, os ++ os')
  end.

Lemma tee_run_attribution t calls w :
  tee_attribution (tee_run t calls w).1 =
    foldl credit_outcome (tee_attribution t) (tee_run t calls w).2.
Proof using Type.
  revert t w. induction calls as [|call calls IH]; intros t w; [done|]. cbn [tee_run].
  pose proof (fan_out_loop_reach (tee_children t) call (tee_attribution t) true None w) as E.
  unfold fan_out. destruct (fan_out_loop _ _ _ _ _ w) as [[[w1 b] all] first]. cbn in E.
  injection E as -> ->.
  destruct (reach (tee_children t) call w) as [w2 os]; cbn [fst snd].
  set (t1 := match first with Some _ => _ | None => _ end).
  destruct first; cbn;
    match goal with |- context [tee_run ?t' calls ?w'] => pose proof (IH t' w') as IH'; destruct (tee_run t' calls w') end;
    cbn in *; by rewrite foldl_app, IH'.
Qed.

(** The records that children were seen to dead-letter, for the selected types
    and classes. *)
Definition outcome_credit (p : SinkType → SinkErrorClass → bool) (o : Outcome) : Z :=
  foldr (λ c acc, (if p (ca_kind o.1) c then ca_deltas o.1 c else 0) + acc) 0 sink_error_class_all.
Definition credited (p : SinkType → SinkErrorClass → bool) (os : list Outcome) : Z :=
  foldr (λ o acc, outcome_credit p o + acc) 0 os.

(** What one call on a tee asks of its sinks, as the sink asked and the world
    before and after: every sink in turn, except that a write goes no further
    than the first that refuses it. *)
Definition asks (h : Handle) call w : W * Result RastreoError unit :=
  match call with
  | FanWrite data => h_write h data w
  | FanWriteKind kind data => h_write_kind h kind data w
  | FanFlush => h_flush h w
  | FanClose => h_close h w
  end.
Fixpoint sink_calls (hs : list Handle) call w : W * list (Handle * W * W) :=
  match hs with
  | [] => (w, [])
  | h :: rest =>
      let '(w', r) := asks h call w in
      match r, call with
      | Err _, (FanWrite _ | FanWriteKind _ _) => (w', [(h, w, w')])
      | _, _ => let '(w2, log) := sink_calls rest call w' in (w2, (h, w, w') :: log)
      end
  end.
Fixpoint sink_history (hs : list Handle) (calls : list Fanout) w : list (Handle * W * W) :=
  match calls with
  | [] => []
  | call :: calls => let '(w', log) := sink_calls hs call w in log ++ sink_history hs calls w'
  end.

(** By how much each sink's own counters grew over those calls, for the selected
    types and classes. *)
Definition counters_grew (p : SinkType → SinkErrorClass → bool) (x : Handle * W * W) : Z :=
  let '(h, before, after) := x in
  foldr (λ c acc, (if p (h_kind h after) c
    then Z.max 0 (h_dlq_records_by_class h after c - h_dlq_records_by_class h before c) else 0) + acc)
    0 [PublishFailure; AckRejection; ProduceFailure; WriteFailure; FlushFailure; OtherSink].
Definition dead_lettered (p : SinkType → SinkErrorClass → bool) (log : list (Handle * W * W)) : Z :=
  foldr (λ x acc, counters_grew p x + acc) 0 log.

Lemma credited_cons p o os : credited p (o :: os) = outcome_credit p o + credited p os.
Proof using Type. done. Qed.

(** What a bucket holds of them. *)
Definition bucket_sum (p : SinkType → SinkErrorClass → bool) (b : Attribution) : Z :=
  foldr (λ e acc, (if p e.1.1 e.1.2 then e.2 else 0) + acc) 0 b.

Lemma bucket_sum_cons p e b :
  bucket_sum p (e :: b) = (if p e.1.1 e.1.2 then e.2 else 0) + bucket_sum p b.
Proof using Type. done. Qed.

Definition counts_ok (b : Attribution) : Prop := Forall (λ e, 0 < e.2 ≤ U64_MAX) b.

Lemma bucket_sum_nonneg p b : counts_ok b → 0 ≤ bucket_sum p b.
Proof using Type. induction 1; [done|]. rewrite bucket_sum_cons. destruct (p _ _); lia. Qed.

Lemma saturating_fold p b acc : counts_ok b → 0 ≤ acc ≤ U64_MAX →
  foldl (λ (slot : Z) (e : SinkType * SinkErrorClass * Z), if p e.1.1 e.1.2 then saturating_add U64_MAX slot e.2 else slot) acc b =
    Z.min U64_MAX (acc + bucket_sum p b).
Proof using Type.
  intros Hb. revert acc. induction Hb as [|e b He Hb IH]; intros acc Hacc; [cbn; lia|].
  pose proof (bucket_sum_nonneg p b Hb). cbn [foldl]. rewrite bucket_sum_cons, IH; destruct (p _ _); unfold saturating_add; lia.
Qed.

Lemma credit_entry_keys k c d b :
  (credit_entry k c d b).*1 = push_new b.*1 (k, c).
Proof using Type.
  induction b as [|[[k' c'] n] b IH]; [done|]. cbn [credit_entry]. unfold push_new in *.
  destruct (decide (k' = k ∧ c' = c)) as [[-> ->]|Hne]; cbn.
  - by rewrite bool_decide_true by left.
  - rewrite IH. destruct (bool_decide ((k, c) ∈ b.*1)) eqn:Hin; break_bool.
    + rewrite bool_decide_true by by right. done.
    + rewrite bool_decide_false; [done|]. intros [[= -> ->]|H]%elem_of_cons; naive_solver.
Qed.

Lemma credit_entry_ok k c d b : counts_ok b → 0 < d ≤ U64_MAX → counts_ok (credit_entry k c d b).
Proof using Type.
  intros Hb Hd. induction Hb as [|[[k' c'] n] b He Hb IH]; cbn; [constructor; [done|constructor]|].
  case_decide; constructor; cbn in *; [unfold saturating_add; lia|done|done|done].
Qed.

Lemma credit_entry_sum p k c d b : counts_ok b → 0 < d ≤ U64_MAX →
  Z.min U64_MAX (bucket_sum p (credit_entry k c d b)) =
    Z.min U64_MAX (bucket_sum p b + if p k c then d else 0).
Proof using Type.
  intros Hb Hd. induction Hb as [|[[k' c'] n] b He Hb IH]; [cbn; f_equal; lia|].
  pose proof (bucket_sum_nonneg p b Hb).
  pose proof (bucket_sum_nonneg p _ (credit_entry_ok k c d b Hb Hd)). cbn in He.
  cbn [credit_entry]. case_decide as Hkc; rewrite !bucket_sum_cons; cbn [fst snd].
  - destruct Hkc as [-> ->]. unfold saturating_add. destruct (p k c); lia.
  - destruct (p k' c'), (p k c); lia.
Qed.

Section accounting.
Hypothesis counters_u64 : ∀ h w c, 0 ≤ h_dlq_records_by_class h w c ≤ U64_MAX.

Lemma fanout_deltas_u64 child call w c :
  0 ≤ ca_deltas (fanout_child child call w).2.1 c ≤ U64_MAX.
Proof using counters_u64.
  unfold fanout_child, fanout_sink. destruct (fanout_call _ call w) as [w1 r]. cbn.
  unfold class_deltas, saturating_sub.
  pose proof (counters_u64 (child_sink child) w c). pose proof (counters_u64 (child_sink child) w1 c).
  lia.
Qed.

Lemma credit_class_sum p k (ds : SinkErrorClass → Z) b cs :
  (∀ c, 0 ≤ ds c ≤ U64_MAX) → counts_ok b → NoDup b.*1 →
  let b' := foldl (credit_class k ds) b cs in
  counts_ok b' ∧ NoDup b'.*1 ∧
  Z.min U64_MAX (bucket_sum p b') =
    Z.min U64_MAX (bucket_sum p b + foldr (λ c acc, (if p k c then ds c else 0) + acc) 0 cs).
Proof using Type.
  intros Hds. revert b. induction cs as [|c cs IH]; intros b Hb Hnd; cbv zeta; cbn [foldl foldr].
  { split_and!; [done|done|f_equal; lia]. }
  assert (0 ≤ foldr (λ c acc, (if p k c then ds c else 0) + acc) 0 cs) as Hpos.
  { clear IH. induction cs as [|x cs IHc]; cbn; [lia|]. pose proof (Hds x). destruct (p k x); lia. }
  unfold credit_class at 2 4 6. pose proof (Hds c). destruct (Z.eqb_spec (ds c) 0) as [H0|H0].
  - destruct (IH b Hb Hnd) as (? & ? & ->). split_and!; [done|done|]. rewrite H0.
    destruct (p k c); f_equal; lia.
  - destruct (IH (credit_entry k c (ds c) b)) as (? & ? & ->).
    { apply credit_entry_ok; [done|lia]. }
    { rewrite credit_entry_keys. by apply push_new_NoDup. }
    split_and!; [done|done|].
    pose proof (credit_entry_sum p k c (ds c) b Hb ltac:(lia)).
    pose proof (bucket_sum_nonneg p b Hb).
    pose proof (bucket_sum_nonneg p _ (credit_entry_ok k c (ds c) b Hb ltac:(lia))).
    destruct (p k c); lia.
Qed.

Definition deltas_ok (os : list Outcome) : Prop :=
  Forall (λ o, ∀ c, 0 ≤ ca_deltas o.1 c ≤ U64_MAX) os.

Lemma reach_deltas children call w : deltas_ok (reach children call w).2.
Proof using counters_u64.
  revert w. induction children as [|child rest IH]; intros w; cbn [reach]; [constructor|].
  pose proof (fanout_deltas_u64 child call w) as Hd.
  destruct (fanout_child child call w) as [w1 o]. cbn in Hd.
  destruct (_ && _); [constructor; [done|constructor]|].
  specialize (IH w1). destruct (reach rest call w1). by constructor.
Qed.

Lemma tee_run_deltas t calls w : deltas_ok (tee_run t calls w).2.
Proof using counters_u64.
  revert t w. induction calls as [|call calls IH]; intros t w; cbn [tee_run]; [constructor|].
  pose proof (reach_deltas (tee_children t) call w).
  destruct (fan_out t call w) as [[t1 w1] r]. specialize (IH t1 w1).
  destruct (tee_run t1 calls w1). by apply Forall_app.
Qed.

Lemma credit_outcomes_sum p os b : deltas_ok os → counts_ok b → NoDup b.*1 →
  let b' := foldl credit_outcome b os in
  counts_ok b' ∧ NoDup b'.*1 ∧
  Z.min U64_MAX (bucket_sum p b') = Z.min U64_MAX (bucket_sum p b + credited p os).
Proof using Type.
  intros Hos. revert b. induction Hos as [|o os Ho Hos IH]; intros b Hb Hnd; cbv zeta.
  { split_and!; [done|done|]. change (credited p []) with 0. f_equal. cbn [foldl]. lia. }
  cbn [foldl]. destruct (credit_class_sum p (ca_kind o.1) (ca_deltas o.1) b sink_error_class_all
    Ho Hb Hnd) as (Hb1 & Hnd1 & E1).
  change (foldl (credit_class (ca_kind o.1) (ca_deltas o.1)) b sink_error_class_all)
    with (credit_outcome b o) in Hb1, Hnd1, E1.
  destruct (IH _ Hb1 Hnd1) as (Hb2 & Hnd2 & ->). split_and!; [done|done|].
  assert (∀ l : list Outcome, deltas_ok l → 0 ≤ credited p l) as Hpos.
  { induction 1 as [|x l Hx _ IHl]; [done|]. rewrite credited_cons. unfold outcome_credit.
    enough (∀ cs, 0 ≤ foldr (λ c acc, (if p (ca_kind x.1) c then ca_deltas x.1 c else 0) + acc) 0 cs)
      as H by (specialize (H sink_error_class_all); lia).
    induction cs as [|y cs IHc]; cbn; [lia|]. pose proof (Hx y). destruct (p _ y); lia. }
  specialize (Hpos os Hos). rewrite credited_cons. unfold outcome_credit. lia.
Qed.

Lemma dead_lettered_cons p x l : dead_lettered p (x :: l) = counters_grew p x + dead_lettered p l.
Proof using Type. done. Qed.

(** The outcomes the tee credits are those of the calls it makes. *)
Lemma reach_calls p children call w :
  (reach children call w).1 = (sink_calls (child_sink <$> children) call w).1 ∧
  credited p (reach children call w).2 = dead_lettered p (sink_calls (child_sink <$> children) call w).2.
Proof using Type.
  revert w. induction children as [|child rest IH]; intros w; [done|]. rewrite fmap_cons. cbn [reach sink_calls].
  assert (∃ w' r a, asks (child_sink child) call w = (w', r) ∧ fanout_child child call w = (w', (a, result_err r)) ∧
    outcome_credit p (a, result_err r) = counters_grew p (child_sink child, w, w')) as (w' & r & a & -> & -> & Ho).
  { unfold fanout_child, fanout_sink. change (fanout_call (child_sink child) call w) with (asks (child_sink child) call w).
    destruct (asks _ _ _) as [w' r]. by eexists w', r, _. }
  destruct (IH w') as [IH1 IH2]. destruct (reach rest call w') as [w1 os], (sink_calls _ call w') as [w2 log].
  cbn [fst snd] in *. subst w2.
  assert (credited p [(a, result_err r)] = dead_lettered p [(child_sink child, w, w')]) as Hone
    by by rewrite dead_lettered_cons, credited_cons, Ho.
  assert (credited p ((a, result_err r) :: os) = dead_lettered p ((child_sink child, w, w') :: log)) as Hall
    by by rewrite dead_lettered_cons, credited_cons, Ho, IH2.
  destruct r as [u|e], call; (split; [done|]); first [exact Hone|exact Hall].
Qed.

Lemma credited_app p os os' : credited p (os ++ os') = credited p os + credited p os'.
Proof using Type. induction os as [|o os IH]; [done|]. cbn [app]. rewrite !credited_cons, IH. lia. Qed.
Lemma dead_lettered_app p l l' : dead_lettered p (l ++ l') = dead_lettered p l + dead_lettered p l'.
Proof using Type. induction l as [|x l IH]; [done|]. cbn [app]. rewrite !dead_lettered_cons, IH. lia. Qed.

Lemma tee_run_calls p t calls w :
  credited p (tee_run t calls w).2 = dead_lettered p (sink_history (child_sink <$> tee_children t) calls w).
Proof using Type.
  revert t w. induction calls as [|call calls IH]; intros t w; [done|]. cbn [tee_run sink_history].
  destruct (reach_calls p (tee_children t) call w) as [H1 H2].
  pose proof (fan_out_loop_reach (tee_children t) call (tee_attribution t) true None w) as E.
  unfold fan_out. destruct (fan_out_loop _ _ _ _ _ w) as [[[w1 b] all] first]. cbn in E. injection E as -> ->.
  destruct (reach (tee_children t) call w) as [w2 os], (sink_calls _ call w) as [w3 log]; cbn [fst snd] in *. subst w3.
  destruct first;
    match goal with |- context [tee_run ?t' calls w2] => pose proof (IH t' w2) as IH'; destruct (tee_run t' calls w2) end;
    cbn [fst snd tee_children] in *; by rewrite credited_app, dead_lettered_app, H2, IH'.
Qed.

Lemma bucket_sum_key b k c n : NoDup b.*1 → (k, c, n) ∈ b →
  bucket_sum (λ k' c', bool_decide (k' = k ∧ c' = c)) b = n.
Proof using Type.
  induction b as [|[[k' c'] n'] b IH]; intros Hnd Hin; [by apply not_elem_of_nil in Hin|].
  cbn in Hnd. apply NoDup_cons in Hnd as [Hfresh Hnd]. rewrite bucket_sum_cons; cbn [fst snd].
  apply elem_of_cons in Hin as [[= -> -> ->]|Hin].
  - rewrite bool_decide_true by done. enough (bucket_sum (λ k1 c1, bool_decide (k1 = k' ∧ c1 = c')) b = 0) by lia.
    clear IH Hnd. induction b as [|[[k1 c1] n1] b IHb]; [done|]. rewrite bucket_sum_cons; cbn [fst snd].
    rewrite bool_decide_false.
    + rewrite IHb; [done|]. intros H. apply Hfresh. cbn. by right.
    + intros [-> ->]. apply Hfresh. cbn. by left.
  - rewrite bool_decide_false.
    + by rewrite IH.
    + intros [-> ->]. apply Hfresh. apply list_elem_of_fmap. by exists (k, c, n).
Qed.

Lemma bucket_sum_absent b k c : (∀ n, (k, c, n) ∉ b) →
  bucket_sum (λ k' c', bool_decide (k' = k ∧ c' = c)) b = 0.
Proof using Type.
  induction b as [|[[k' c'] n'] b IH]; intros Hn; [done|]. rewrite bucket_sum_cons; cbn [fst snd].
  rewrite bool_decide_false; [rewrite IH; [done|]|].
  - intros n Hin. apply (Hn n). by right.
  - intros [-> ->]. apply (Hn n'). by left.
Qed.

(** C10. Dead-letter attribution is exact at its width: after any history of
    calls on a tee, failed ones included, its total, its count per class and
    its count per destination type and class are the amounts by which its
    children's own counters grew over the calls made on them (a write going no
    further than the first child that refuses it), saturating at [u64::MAX],
    each (type, class) pair being listed at most once and only when it is
    positive. *)
Theorem tee_attribution_exact children calls w
    (t := (tee_run (tee_new children) calls w).1)
    (log := sink_history ((λ child, match child with TeeOwned h | TeeShared h => h end) <$> children) calls w) :
  tee_dlq_records_delivered t = Z.min U64_MAX (dead_lettered (λ _ _, true) log) ∧
  (∀ c, tee_dlq_records_by_class t c =
     Z.min U64_MAX (dead_lettered (λ _ c', bool_decide (c' = c)) log)) ∧
  NoDup (tee_dlq_records_by_type_and_class t).*1 ∧
  (∀ k c n, (k, c, n) ∈ tee_dlq_records_by_type_and_class t ↔
     n = Z.min U64_MAX (dead_lettered (λ k' c', bool_decide (k' = k ∧ c' = c)) log) ∧ 0 < n).
Proof using counters_u64.
  assert (∀ p, counts_ok (tee_attribution t) ∧ NoDup (tee_attribution t).*1 ∧
    Z.min U64_MAX (bucket_sum p (tee_attribution t)) = Z.min U64_MAX (dead_lettered p log)) as Hall.
  { intros p. unfold t, log. change (λ child, _) with child_sink.
    rewrite <-(tee_run_calls p (tee_new children)), tee_run_attribution.
    apply (credit_outcomes_sum p _ []); [apply tee_run_deltas|constructor|constructor]. }
  destruct (Hall (λ _ _, true)) as (Hok & Hnd & Htot).
  assert (filter (λ e, 0 < e.2) (tee_attribution t) = tee_attribution t) as Hfilter.
  { clear -Hok. induction Hok as [|e b He _ IH]; [done|]. rewrite filter_cons, decide_True by lia.
    by rewrite IH. }
  unfold tee_dlq_records_by_type_and_class. rewrite Hfilter. split_and!; [| |done|].
  - unfold tee_dlq_records_delivered. rewrite <-Htot.
    exact (saturating_fold (λ _ _, true) (tee_attribution t) 0 Hok ltac:(unfold U64_MAX; lia)).
  - intros c. destruct (Hall (λ _ c', bool_decide (c' = c))) as (_ & _ & <-).
    unfold tee_dlq_records_by_class. rewrite <-(Z.add_0_l (bucket_sum _ _)).
    rewrite <-(saturating_fold (λ _ c', bool_decide (c' = c)) (tee_attribution t) 0 Hok)
      by (unfold U64_MAX; lia).
    generalize (tee_attribution t) 0. intros b. induction b as [|e b IH]; intros a; [done|].
    cbn [foldl]. rewrite IH. f_equal. case_decide; case_bool_decide; done.
  - intros k c n. destruct (Hall (λ k' c', bool_decide (k' = k ∧ c' = c))) as (_ & _ & <-). split.
    + intros Hin. rewrite (bucket_sum_key _ k c n Hnd Hin).
      unfold counts_ok in Hok. rewrite Forall_forall in Hok. specialize (Hok _ Hin). cbn in Hok. lia.
    + intros [Hn Hpos].
      destruct (decide ((k, c) ∈ (tee_attribution t).*1)) as [Hin|Hno].
      * apply list_elem_of_fmap in Hin as ([[k' c'] m] & [= -> ->] & Hm).
        rewrite (bucket_sum_key _ k' c' m Hnd Hm) in Hn.
        unfold counts_ok in Hok. rewrite Forall_forall in Hok. specialize (Hok _ Hm). cbn in Hok.
        by replace n with m by lia.
      * rewrite bucket_sum_absent in Hn; [unfold U64_MAX in Hn; lia|].
        intros m Hm. apply Hno, list_elem_of_fmap. by exists (k, c, m).
Qed.
End accounting.
End tee.

(** ** The memory sink *)

(** The writes a cap leaves room for, each judged after those kept before it. *)
Fixpoint kept_writes (max room_used : Z) (writes : list Bytes) : list Bytes :=
  match writes with
  | [] => []
  | data :: writes =>
      if room_used + byte_len data <=? max
      then data :: kept_writes max (room_used + byte_len data) writes
      else kept_writes max room_used writes
  end.

Lemma kept_writes_length max used writes :
  (length (kept_writes max used writes) ≤ length writes)%nat.
Proof.
  revert used. induction writes as [|d ws IH]; intros used; cbn; [done|].
  destruct (_ <=? _); cbn; [pose proof (IH (used + byte_len d))|pose proof (IH used)]; lia.
Qed.

Lemma memory_writes_run max writes m : mem_max_bytes m = Some max →
  let m' := foldl (λ m data, memory_write data m) m writes in
  mem_buffer m' = mem_buffer m ++ mjoin (kept_writes max (byte_len (mem_buffer m)) writes) ∧
  mem_truncated m' = mem_truncated m ||
    negb (length (kept_writes max (byte_len (mem_buffer m)) writes) =? length writes)%nat ∧
  (byte_len (mem_buffer m) ≤ max → byte_len (mem_buffer m') ≤ max).
Proof.
  revert m. induction writes as [|data writes IH]; intros m Hm; cbv zeta; cbn [foldl kept_writes].
  { rewrite app_nil_r. cbn. rewrite orb_false_r. by split_and!. }
  unfold memory_write at 2 4 6. rewrite Hm.
  destruct (Z.leb_spec (byte_len (mem_buffer m) + byte_len data) max) as [Hfit|Hfit].
  - match goal with |- context [foldl _ ?x writes] => destruct (IH x eq_refl) as (-> & -> & Hb) end.
    cbn [mem_buffer mem_truncated] in *. rewrite byte_len_app in *. split_and!.
    + rewrite mjoin_cons. by rewrite (assoc_L (++)).
    + done.
    + intros _. by apply Hb.
  - match goal with |- context [foldl _ ?x writes] => destruct (IH x eq_refl) as (-> & -> & Hb) end.
    cbn [mem_buffer mem_truncated] in *. split_and!; [done| |done].
    pose proof (kept_writes_length max (byte_len (mem_buffer m)) writes).
    cbn [length orb]. rewrite (proj2 (Nat.eqb_neq _ (S _))) by lia. cbn. by rewrite orb_true_r.
Qed.

(** A memory sink with a cap never holds more bytes than the cap and never
    part of a write: it holds, in order, exactly the writes that fit when they
    came, reports truncation exactly when one did not, and reports the last
    write delivered exactly when that write is in the buffer. *)
Theorem memory_sink_cap max writes data (Hmax : 0 ≤ max)
    (before := foldl (λ m d, memory_write d m) (memory_with_max_bytes max) writes)
    (m := memory_write data before) :
  byte_len (mem_buffer m) ≤ max ∧
  mem_buffer m = mjoin (kept_writes max 0 (writes ++ [data])) ∧
  (mem_truncated m = false ↔ kept_writes max 0 (writes ++ [data]) = writes ++ [data]) ∧
  (mem_delivered m = true ↔ mem_buffer m = mem_buffer before ++ data ∧
                            byte_len (mem_buffer before) + byte_len data ≤ max).
Proof.
  destruct (memory_writes_run max (writes ++ [data]) (memory_with_max_bytes max) eq_refl)
    as (Hbuf & Htr & Hlen).
  rewrite foldl_app in *. cbn [foldl] in Hbuf, Htr, Hlen. fold before in Hbuf, Htr, Hlen. fold m in Hbuf, Htr, Hlen.
  cbn [memory_with_max_bytes mem_buffer mem_truncated] in *.
  change (byte_len []) with 0 in *. split_and!.
  - apply Hlen. done.
  - done.
  - rewrite Htr. cbn [orb]. rewrite negb_false_iff, Nat.eqb_eq. split; [|by intros ->].
    generalize (writes ++ [data]) as l. intros l. generalize 0 as used.
    induction l as [|d l IH]; intros used; cbn [kept_writes length]; [done|].
    destruct (_ <=? _); cbn [length].
    + intros [= E]. f_equal. by apply IH.
    + pose proof (kept_writes_length max used l). lia.
  - assert (mem_max_bytes before = Some max) as Hm.
    { unfold before. clear. generalize (eq_refl : mem_max_bytes (memory_with_max_bytes max) = Some max).
      generalize (memory_with_max_bytes max). induction writes as [|d ws IH]; intros m0 H0; [done|].
      cbn. apply IH. unfold memory_write. by destruct (match mem_max_bytes m0 with Some _ => _ | None => _ end). }
    unfold m, memory_write. rewrite Hm.
    destruct (Z.leb_spec (byte_len (mem_buffer before) + byte_len data) max); cbn; split; try done.
    intros [_ ?]. lia.
Qed.

(** ** Witnesses *)

(** A world that records the naps, and an operation that succeeds at its third
    attempt. *)
#[local] Instance nap_log : Sleep (list Z * Z) := λ d w, (w.1 ++ [d], w.2).
Definition third_time (w : list Z * Z) : (list Z * Z) * Result unit Z :=
  ((w.1, w.2 + 1), if w.2 <? 2 then Err tt else Ok w.2).

Lemma retry_with_backoff_witness :
  ∃ k w1, (k < 3)%nat ∧ after_failures sink_retry_default third_time k ([], 0) = Some w1 ∧
    retry_with_backoff sink_retry_default third_time ([], 0) = third_time w1 ∧
    retry_with_backoff sink_retry_default third_time ([], 0) = (([100; 200], 3), Ok 2).
Proof.
  destruct (retry_with_backoff_spec sink_retry_default third_time) with (w := ([] : list Z, 0))
    as (k & w1 & Hk & Hw & E & _); [by repeat split|].
  exists k, w1. split_and!; [done|done|done|reflexivity].
Defined.

(** Sinks that dead-letter one record per call; the second refuses writes. *)
#[local] Existing Instance sample_errors.
#[local] Instance sample_store : SinkStore Z := {|
  Handle := Z;
  h_write h _ w := (w + 1, if h =? 2 then Err (EProbe []) else Ok tt);
  h_write_kind h _ _ w := (w + 1, if h =? 2 then Err (EProbe []) else Ok tt);
  h_flush _ w := (w + 1, Ok tt);
  h_close _ w := (w + 1, Ok tt);
  h_last_write_delivered _ _ := true;
  h_kind h _ := if h =? 2 then StNats else StKafka;
  h_requires_structured_records _ _ := true;
  h_destinations _ _ := [StKafka];
  h_dlq_records_by_class _ w c :=
    if decide (c = ProduceFailure) then Z.max 0 (Z.min U64_MAX w) else 0;
  h_dlq_records_by_type_and_class _ _ := [];
  h_probe _ w := (w, Ok tt);
|}.

Definition sample_children : list TeeChild :=
  [TeeOwned (SS := sample_store) 1; TeeShared (SS := sample_store) 2;
   TeeOwned (SS := sample_store) 3].

Lemma tee_attribution_witness :
  let t := (tee_run (tee_new sample_children)
              [FanWrite [65]; FanFlush] 0).1 in
  tee_dlq_records_delivered t = 5 ∧ tee_dlq_records_by_class t ProduceFailure = 5 ∧
  (StNats, ProduceFailure, 2) ∈ tee_dlq_records_by_type_and_class t.
Proof.
  destruct (tee_attribution_exact (SS := sample_store)) with
    (children := sample_children) (calls := [FanWrite [65]; FanFlush])
    (w := 0) as (H1 & H2 & _ & H4).
  { intros h w c. cbn. unfold U64_MAX. case_decide; lia. }
  split_and!.
  - etrans; [exact H1|]. reflexivity.
  - etrans; [exact (H2 ProduceFailure)|]. reflexivity.
  - apply H4. split; [reflexivity|lia].
Defined.

Lemma memory_sink_cap_witness :
  let m := memory_write [4] (foldl (λ m d, memory_write d m) (memory_with_max_bytes 4)
             [[1; 2]; [3; 3; 3]]) in
  byte_len (mem_buffer m) ≤ 4 ∧ mem_buffer m = [1; 2; 4] ∧ mem_delivered m = true.
Proof.
  destruct (memory_sink_cap 4 [[1; 2]; [3; 3; 3]] [4] ltac:(lia)) as (H1 & H2 & _ & H4).
  split_and!; [exact H1|exact H2|]. apply H4. split; [reflexivity|]. vm_compute. discriminate.
Defined.
