(* ===== verification/Kafka.v ===== *)
(** * The Kafka sink: [sink/kafka.rs]

    Three buffered streams over partition clients, the device stream with an
    optional dead-letter topic. The Kafka client, TLS and the clock are other
    crates: [KafkaLib] stands for them. *)

From S2P Require Import Prelude Net Sink.

(** ** Configuration *)

Record DeadLetterConfig : Type := mkDeadLetterConfig {
  dl_topic : Str;
  dl_include_error_metadata : bool;
}.

Record KafkaTls : Type := mkKafkaTls {
  tls_verify : bool;
  tls_ca_cert : option Str;
}.

Inductive SaslMechanism : Type := SaslPlain | ScramSha256 | ScramSha512.

Record KafkaSasl : Type := mkKafkaSasl {
  sasl_mechanism : SaslMechanism;
  sasl_username : Str;
  sasl_password : Str;
}.

Inductive KafkaFlushMode : Type :=
  | KafkaPerRecord
  | KafkaBatched (threshold_bytes : Z).

Definition KAFKA_DEFAULT_BUFFER_THRESHOLD : Z := 64 * 1024.
Definition KAFKA_CONNECT_TIMEOUT_SECS : Z := 10.

Definition kafka_flush_mode_default : KafkaFlushMode :=
  KafkaBatched KAFKA_DEFAULT_BUFFER_THRESHOLD.

Definition kafka_to_threshold (m : KafkaFlushMode) : Z :=
  match m with KafkaPerRecord => 1 | KafkaBatched n => clamp_threshold n end.

Definition HEADER_SOURCE_TOPIC : Str := s! "x-rastreo-source-topic".
Definition HEADER_ERROR_CLASS : Str := s! "x-rastreo-error-class".
Definition HEADER_DLQ_TIMESTAMP : Str := s! "x-rastreo-dlq-timestamp".

(** ** The Kafka client, rustls and the clock *)

Class KafkaLib (W : Type) `{ForeignErrors} := {
  KafkaClient : Type;
  PartitionClient : Type;
  ClientConfig : Type;
  KafkaError : Type;
  DateTime : Type;
  Certificate : Type;
  RootStore : Type;
  kafka_error_display : KafkaError → Str;
  utc_now : W → DateTime;
  to_rfc3339 : DateTime → Str;
  (** [CertificateDer::pem_slice_iter], collected: the certificates, or why not. *)
  pem_certificates : Bytes → Result Str (list Certificate);
  webpki_roots : RootStore;
  (** [RootCertStore::add_parsable_certificates], with how many it added. *)
  add_parsable_certificates : RootStore → list Certificate → RootStore * Z;
  verifying_config : RootStore → ClientConfig;
  accept_any_config : ClientConfig;
  (** [ClientBuilder::build] with the brokers, the TLS setup and the credentials. *)
  client_build : list Str → option ClientConfig → option KafkaSasl → W →
    W * Result KafkaError KafkaClient;
  (** [Client::partition_client] for a topic and partition, retrying an unknown topic. *)
  client_partition : KafkaClient → Str → Z → W → W * Result KafkaError PartitionClient;
  (** [PartitionClient::produce] of records: value, headers and timestamp. *)
  produce : PartitionClient → list (Bytes * list (Str * Bytes) * DateTime) → W →
    W * Result KafkaError unit;
  (** [PartitionClient::get_offset] at the latest offset. *)
  get_offset : PartitionClient → W → W * Result KafkaError Z;
}.

Section kafka.
Context {W : Type} `{FE : ForeignErrors} {IE : IoErrors} {SL : Sleep W} {TO : Timeout W}
  {KL : KafkaLib W}.

Definition kafka_invalid (msg : Str) : RastreoError := EConfig (InvalidValue msg).

Definition dead_letter_validate (c : DeadLetterConfig) : Result RastreoError unit :=
  if is_empty (trim (dl_topic c)) then
    Err (kafka_invalid (s! "kafka sink: dead-letter topic is empty"))
  else Ok tt.

Definition kafka_sasl_validate (c : KafkaSasl) : Result RastreoError unit :=
  if is_empty (trim (sasl_username c)) then
    Err (kafka_invalid (s! "kafka sink: sasl username is empty"))
  else Ok tt.

Definition parse_ca_certs (pem : Str) : Result RastreoError (list Certificate) :=
  certs ← map_err (λ e, kafka_invalid (s! "kafka sink: tls.ca_cert is not valid PEM: " ++ e))
            (pem_certificates (as_bytes pem));
  if is_empty certs then
    Err (kafka_invalid (s! "kafka sink: tls.ca_cert contained no certificate"))
  else Ok certs.

Definition kafka_tls_validate (c : KafkaTls) : Result RastreoError unit :=
  if negb (tls_verify c) && bool_decide (is_Some (tls_ca_cert c)) then
    Err (kafka_invalid (s! "kafka sink: tls.ca_cert requires tls.verify: true"))
  else match tls_ca_cert c with
       | Some pem => _ ← parse_ca_certs pem; Ok tt
       | None => Ok tt
       end.

Definition build_client_config (c : KafkaTls) : Result RastreoError ClientConfig :=
  if tls_verify c then
    match tls_ca_cert c with
    | Some pem =>
        certs ← parse_ca_certs pem;
        let '(roots, added) := add_parsable_certificates webpki_roots certs in
        if added =? 0 then
          Err (kafka_invalid (s! "kafka sink: tls.ca_cert contained no usable certificate"))
        else Ok (verifying_config roots)
    | None => Ok (verifying_config webpki_roots)
    end
  else Ok accept_any_config.

(** ** Connecting *)

Definition connect_partition_client (brokers : list Str) (topic : Str)
    (tls_config : option ClientConfig) (sasl : option KafkaSasl) (w : W)
    : W * Result RastreoError PartitionClient :=
  let brokers_for_err := join (s! ",") brokers in
  let '(w, built) := client_build brokers tls_config sasl w in
  match built with
  | Err e => (w, Err (sink_error_other (io_error_new ConnectionRefused
      (s! "kafka sink: failed to connect to broker(s) '" ++ brokers_for_err ++ s! "': " ++
       kafka_error_display e))))
  | Ok client =>
      let '(w, partition) := client_partition client topic 0 w in
      (w, map_err (λ e, sink_error_other (io_error_other
        (s! "kafka sink: failed to get partition client for topic '" ++ topic ++
         s! "' at broker(s) '" ++ brokers_for_err ++ s! "': " ++ kafka_error_display e)))
        partition)
  end.

(** A connect under its deadline; [what] completes the message of an expiry. *)
Definition connect_bounded (brokers : list Str) (topic what : Str)
    (tls_config : option ClientConfig) (sasl : option KafkaSasl) (secs : Z) (w : W)
    : W * Result RastreoError PartitionClient :=
  let '(w, r) := timeout_secs secs (connect_partition_client brokers topic tls_config sasl) w in
  (w, match r with
      | Some r => r
      | None => Err (sink_error_other (io_error_new TimedOut
          (s! "kafka sink: connecting to broker(s) '" ++ join (s! ",") brokers ++ s! "'" ++ what ++
           s! " timed out after " ++ fmt_dec secs ++ s! "s")))
      end).

Definition connect_partition_client_bounded (brokers : list Str) (topic : Str)
    (tls_config : option ClientConfig) (sasl : option KafkaSasl) (secs : Z) (w : W)
    : W * Result RastreoError PartitionClient :=
  connect_bounded brokers topic (s! " for topic '" ++ topic ++ s! "'") tls_config sasl secs w.

(** ** Producing a buffer *)

Definition build_records (buffer : PendingBuffer) (headers : list (Str * Bytes))
    (timestamp : DateTime) : list (Bytes * list (Str * Bytes) * DateTime) :=
  (λ value, (value, headers, timestamp)) <$> pb_entries buffer.

Definition build_produce_error (topic : Str) (brokers : list Str) (e : KafkaError) : RastreoError :=
  sink_error ProduceFailure (io_error_other
    (s! "kafka sink: failed to produce record to topic '" ++ topic ++ s! "' at broker(s) '" ++
     join (s! ",") brokers ++ s! "': " ++ kafka_error_display e)).

Definition produce_buffer (client : PartitionClient) (buffer : PendingBuffer)
    (headers : list (Str * Bytes)) (topic : Str) (brokers : list Str) (retry : SinkRetry) (w : W)
    : W * Result RastreoError unit :=
  let timestamp := utc_now w in
  retry_with_backoff retry
    (λ w, let '(w, r) := produce client (build_records buffer headers timestamp) w in
          (w, map_err (build_produce_error topic brokers) r)) w.

(** The headers, in the order of the [BTreeMap]'s keys. *)
Definition build_dlq_headers (source_topic : Str) (class : SinkErrorClass) (w : W)
    : list (Str * Bytes) :=
  [ (HEADER_DLQ_TIMESTAMP, as_bytes (to_rfc3339 (utc_now w)));
    (HEADER_ERROR_CLASS, as_bytes (sink_error_class_label class));
    (HEADER_SOURCE_TOPIC, as_bytes source_topic) ].

(** ** The sink *)

Record KafkaSink : Type := mkKafkaSink {
  ks_topic : Str;
  ks_brokers : list Str;
  ks_client : PartitionClient;
  ks_buffer : PendingBuffer;
  ks_buffer_threshold : Z;
  ks_last_write_delivered : bool;
  ks_dlq_client : option PartitionClient;
  ks_dlq_topic : option Str;
  ks_include_error_metadata : bool;
  ks_dlq_delivered : Z;
  ks_tls_config : option ClientConfig;
  ks_sasl : option KafkaSasl;
  ks_retry : SinkRetry;
  ks_links_topic : Str;
  ks_links_client : option PartitionClient;
  ks_links_buffer : PendingBuffer;
  ks_profiles_topic : Str;
  ks_profiles_client : option PartitionClient;
  ks_profiles_buffer : PendingBuffer;
}.

(** Assignments to the fields that change while the sink runs. *)
Definition kafka_set (s : KafkaSink) (buffer : PendingBuffer) (delivered : bool) (dlq : Z)
    (links_client : option PartitionClient) (links_buffer : PendingBuffer)
    (profiles_client : option PartitionClient) (profiles_buffer : PendingBuffer) : KafkaSink := {|
  ks_topic := ks_topic s; ks_brokers := ks_brokers s; ks_client := ks_client s;
  ks_buffer := buffer; ks_buffer_threshold := ks_buffer_threshold s;
  ks_last_write_delivered := delivered; ks_dlq_client := ks_dlq_client s;
  ks_dlq_topic := ks_dlq_topic s; ks_include_error_metadata := ks_include_error_metadata s;
  ks_dlq_delivered := dlq; ks_tls_config := ks_tls_config s; ks_sasl := ks_sasl s;
  ks_retry := ks_retry s; ks_links_topic := ks_links_topic s; ks_links_client := links_client;
  ks_links_buffer := links_buffer; ks_profiles_topic := ks_profiles_topic s;
  ks_profiles_client := profiles_client; ks_profiles_buffer := profiles_buffer |}.

Definition kset_buffer (b : PendingBuffer) (s : KafkaSink) : KafkaSink :=
  kafka_set s b (ks_last_write_delivered s) (ks_dlq_delivered s) (ks_links_client s)
    (ks_links_buffer s) (ks_profiles_client s) (ks_profiles_buffer s).
Definition kset_delivered (d : bool) (s : KafkaSink) : KafkaSink :=
  kafka_set s (ks_buffer s) d (ks_dlq_delivered s) (ks_links_client s)
    (ks_links_buffer s) (ks_profiles_client s) (ks_profiles_buffer s).
Definition kset_dlq_delivered (n : Z) (s : KafkaSink) : KafkaSink :=
  kafka_set s (ks_buffer s) (ks_last_write_delivered s) n (ks_links_client s)
    (ks_links_buffer s) (ks_profiles_client s) (ks_profiles_buffer s).
Definition kset_links (c : option PartitionClient) (b : PendingBuffer) (s : KafkaSink) : KafkaSink :=
  kafka_set s (ks_buffer s) (ks_last_write_delivered s) (ks_dlq_delivered s) c b
    (ks_profiles_client s) (ks_profiles_buffer s).
Definition kset_profiles (c : option PartitionClient) (b : PendingBuffer) (s : KafkaSink)
    : KafkaSink :=
  kafka_set s (ks_buffer s) (ks_last_write_delivered s) (ks_dlq_delivered s) (ks_links_client s)
    (ks_links_buffer s) c b.

Definition kafka_new (brokers : list Str) (topic : Str) (tls : option KafkaTls)
    (sasl : option KafkaSasl) (w : W) : W * Result RastreoError KafkaSink :=
  match match tls with
        | Some tls => c ← build_client_config tls; Ok (Some c)
        | None => Ok None
        end with
  | Err e => (w, Err e)
  | Ok tls_config =>
      let '(w, client) := connect_bounded brokers topic [] tls_config sasl
                            KAFKA_CONNECT_TIMEOUT_SECS w in
      (w, client ← client;
          Ok {| ks_topic := topic; ks_brokers := brokers; ks_client := client;
                ks_buffer := pending_new; ks_buffer_threshold := KAFKA_DEFAULT_BUFFER_THRESHOLD;
                ks_last_write_delivered := false; ks_dlq_client := None; ks_dlq_topic := None;
                ks_include_error_metadata := false; ks_dlq_delivered := 0;
                ks_tls_config := tls_config; ks_sasl := sasl; ks_retry := sink_retry_default;
                ks_links_topic := DEFAULT_LINKS_DESTINATION; ks_links_client := None;
                ks_links_buffer := pending_new; ks_profiles_topic := DEFAULT_PROFILES_DESTINATION;
                ks_profiles_client := None; ks_profiles_buffer := pending_new |})
  end.

(** The builder steps [create_sink] applies: flush mode, topics and retry policy. *)
Definition kafka_configure (mode : KafkaFlushMode) (links profiles : Str) (retry : SinkRetry)
    (s : KafkaSink) : KafkaSink := {|
  ks_topic := ks_topic s; ks_brokers := ks_brokers s; ks_client := ks_client s;
  ks_buffer := ks_buffer s; ks_buffer_threshold := kafka_to_threshold mode;
  ks_last_write_delivered := ks_last_write_delivered s; ks_dlq_client := ks_dlq_client s;
  ks_dlq_topic := ks_dlq_topic s; ks_include_error_metadata := ks_include_error_metadata s;
  ks_dlq_delivered := ks_dlq_delivered s; ks_tls_config := ks_tls_config s; ks_sasl := ks_sasl s;
  ks_retry := retry; ks_links_topic := links; ks_links_client := ks_links_client s;
  ks_links_buffer := ks_links_buffer s; ks_profiles_topic := profiles;
  ks_profiles_client := ks_profiles_client s; ks_profiles_buffer := ks_profiles_buffer s |}.

Definition kafka_with_dead_letter (config : DeadLetterConfig) (s : KafkaSink) (w : W)
    : W * Result RastreoError KafkaSink :=
  match dead_letter_validate config with
  | Err e => (w, Err e)
  | Ok _ =>
      let '(w, client) := connect_bounded (ks_brokers s) (dl_topic config)
        (s! " for dead-letter topic '" ++ dl_topic config ++ s! "'") (ks_tls_config s) (ks_sasl s)
        KAFKA_CONNECT_TIMEOUT_SECS w in
      (w, dlq_client ← client;
          Ok {| ks_topic := ks_topic s; ks_brokers := ks_brokers s; ks_client := ks_client s;
                ks_buffer := ks_buffer s; ks_buffer_threshold := ks_buffer_threshold s;
                ks_last_write_delivered := ks_last_write_delivered s;
                ks_dlq_client := Some dlq_client; ks_dlq_topic := Some (dl_topic config);
                ks_include_error_metadata := dl_include_error_metadata config;
                ks_dlq_delivered := ks_dlq_delivered s; ks_tls_config := ks_tls_config s;
                ks_sasl := ks_sasl s; ks_retry := ks_retry s; ks_links_topic := ks_links_topic s;
                ks_links_client := ks_links_client s; ks_links_buffer := ks_links_buffer s;
                ks_profiles_topic := ks_profiles_topic s;
                ks_profiles_client := ks_profiles_client s;
                ks_profiles_buffer := ks_profiles_buffer s |})
  end.

(** The Kafka arm of [create_sink], after validation. *)
Definition kafka_create (brokers : list Str) (topic : Str) (links_topic profiles_topic : option Str)
    (mode : KafkaFlushMode) (dead_letter : option DeadLetterConfig) (tls : option KafkaTls)
    (sasl : option KafkaSasl) (retry : SinkRetry) (w : W) : W * Result RastreoError KafkaSink :=
  let links := default DEFAULT_LINKS_DESTINATION links_topic in
  let profiles := default DEFAULT_PROFILES_DESTINATION profiles_topic in
  let '(w, sink) := kafka_new brokers topic tls sasl w in
  match sink with
  | Err e => (w, Err e)
  | Ok sink =>
      let sink := kafka_configure mode links profiles retry sink in
      match dead_letter with
      | Some dlq => kafka_with_dead_letter dlq sink w
      | None => (w, Ok sink)
      end
  end.

(** *** The device stream *)

Definition kafka_publish_buffer (s : KafkaSink) (w : W)
    : KafkaSink * W * Result RastreoError unit :=
  if pending_is_empty (ks_buffer s) then (s, w, Ok tt)
  else
    let record_count := pending_len (ks_buffer s) in
    let '(w, primary_result) :=
      produce_buffer (ks_client s) (ks_buffer s) [] (ks_topic s) (ks_brokers s) (ks_retry s) w in
    let '(buffer, settled) := settle_all primary_result (ks_buffer s) in
    let s := kset_buffer buffer s in
    match settled with
    | Ok _ => (s, w, Ok tt)
    | Err primary_err =>
        match ks_dlq_client s, ks_dlq_topic s with
        | Some dlq_client, Some dlq_topic =>
            let dlq_headers :=
              if ks_include_error_metadata s then build_dlq_headers (ks_topic s) ProduceFailure w
              else [] in
            let '(w, dlq_result) :=
              produce dlq_client (build_records (ks_buffer s) dlq_headers (utc_now w)) w in
            let '(buffer, settled) := settle_all dlq_result (ks_buffer s) in
            let s := kset_buffer buffer s in
            match settled with
            | Ok _ =>
                (kset_dlq_delivered (wrap 64 (ks_dlq_delivered s + record_count)) s, w, Ok tt)
            | Err _ => (s, w, Err primary_err)
            end
        | _, _ => (s, w, Err primary_err)
        end
    end.

(** *** The link and collection-profile streams *)

Definition kafka_publish_links_buffer (s : KafkaSink) (w : W)
    : KafkaSink * W * Result RastreoError unit :=
  if pending_is_empty (ks_links_buffer s) then (s, w, Ok tt)
  else
    (* [take_links_client] leaves the field empty until the client is put back *)
    let '(w, client) :=
      match ks_links_client s with
      | Some client => (w, Ok client)
      | None => connect_partition_client_bounded (ks_brokers s) (ks_links_topic s)
                  (ks_tls_config s) (ks_sasl s) KAFKA_CONNECT_TIMEOUT_SECS w
      end in
    match client with
    | Err e => (kset_links None (ks_links_buffer s) s, w, Err e)
    | Ok client =>
        let '(w, result) := produce_buffer client (ks_links_buffer s) [] (ks_links_topic s)
                              (ks_brokers s) (ks_retry s) w in
        let '(buffer, settled) := settle_all result (ks_links_buffer s) in
        (kset_links (Some client) buffer s, w, settled)
    end.

Definition kafka_publish_profiles_buffer (s : KafkaSink) (w : W)
    : KafkaSink * W * Result RastreoError unit :=
  if pending_is_empty (ks_profiles_buffer s) then (s, w, Ok tt)
  else
    let '(w, client) :=
      match ks_profiles_client s with
      | Some client => (w, Ok client)
      | None => connect_partition_client_bounded (ks_brokers s) (ks_profiles_topic s)
                  (ks_tls_config s) (ks_sasl s) KAFKA_CONNECT_TIMEOUT_SECS w
      end in
    match client with
    | Err e => (kset_profiles None (ks_profiles_buffer s) s, w, Err e)
    | Ok client =>
        let '(w, result) := produce_buffer client (ks_profiles_buffer s) [] (ks_profiles_topic s)
                              (ks_brokers s) (ks_retry s) w in
        let '(buffer, settled) := settle_all result (ks_profiles_buffer s) in
        (kset_profiles (Some client) buffer s, w, settled)
    end.

(** *** [impl Sink for KafkaSink] *)

(** Publishing when the stream's buffer reached the threshold, and the flag. *)
Definition kafka_publish_at_threshold (buffer : PendingBuffer)
    (publish : KafkaSink → W → KafkaSink * W * Result RastreoError unit) (s : KafkaSink) (w : W)
    : KafkaSink * W * Result RastreoError unit :=
  if reached_threshold buffer (ks_buffer_threshold s) then
    let '(s, w, r) := publish s w in
    match r with
    | Ok _ => (kset_delivered true s, w, Ok tt)
    | Err e => (s, w, Err e)
    end
  else (s, w, Ok tt).

Definition kafka_write (data : Bytes) (s : KafkaSink) (w : W)
    : KafkaSink * W * Result RastreoError unit :=
  let s := kset_delivered false s in
  let s := kset_buffer (pending_push data (ks_buffer s)) s in
  kafka_publish_at_threshold (ks_buffer s) kafka_publish_buffer s w.

Definition kafka_write_link (data : Bytes) (s : KafkaSink) (w : W)
    : KafkaSink * W * Result RastreoError unit :=
  let s := kset_delivered false s in
  let s := kset_links (ks_links_client s) (pending_push data (ks_links_buffer s)) s in
  kafka_publish_at_threshold (ks_links_buffer s) kafka_publish_links_buffer s w.

Definition kafka_write_profile (data : Bytes) (s : KafkaSink) (w : W)
    : KafkaSink * W * Result RastreoError unit :=
  let s := kset_delivered false s in
  let s := kset_profiles (ks_profiles_client s) (pending_push data (ks_profiles_buffer s)) s in
  kafka_publish_at_threshold (ks_profiles_buffer s) kafka_publish_profiles_buffer s w.

Definition kafka_write_kind (kind : RecordKind) (data : Bytes) (s : KafkaSink) (w : W)
    : KafkaSink * W * Result RastreoError unit :=
  match kind with
  | RkDevice => kafka_write data s w
  | RkLink => kafka_write_link data s w
  | RkCollectionProfile => kafka_write_profile data s w
  end.

Definition kafka_flush (s : KafkaSink) (w : W) : KafkaSink * W * Result RastreoError unit :=
  let '(s, w, device) := kafka_publish_buffer s w in
  let '(s, w, links) := kafka_publish_links_buffer s w in
  let '(s, w, profiles) := kafka_publish_profiles_buffer s w in
  let result := _ ← device; _ ← links; profiles in
  (kset_delivered (is_ok result) s, w, result).

Definition kafka_dlq_records_by_class (s : KafkaSink) (c : SinkErrorClass) : Z :=
  if decide (c = ProduceFailure) then ks_dlq_delivered s else 0.

Definition kafka_probe (s : KafkaSink) (w : W) : W * Result IoError unit :=
  let brokers_for_err := join (s! ",") (ks_brokers s) in
  let '(w, primary_result) := get_offset (ks_client s) w in
  let '(w, dlq_result) :=
    match ks_dlq_client s, ks_dlq_topic s with
    | Some c, Some topic => let '(w, r) := get_offset c w in (w, Some (r, topic))
    | _, _ => (w, None)
    end in
  let failures :=
    match primary_result with
    | Err e => [s! "primary partition unreachable for topic '" ++ ks_topic s ++
                s! "' at broker(s) '" ++ brokers_for_err ++ s! "': " ++ kafka_error_display e]
    | Ok _ => []
    end ++
    match dlq_result with
    | Some (Err e, topic) =>
        [s! "dead-letter partition unreachable for topic '" ++ topic ++
         s! "' at broker(s) '" ++ brokers_for_err ++ s! "': " ++ kafka_error_display e]
    | _ => []
    end in
  (w, if is_empty failures then Ok tt
      else Err (io_error_other (s! "kafka sink probe: " ++ join (s! "; ") failures))).
End kafka.
