(* ===== verification/Nats.v ===== *)
(** * The NATS JetStream sink: [sink/nats.rs], and [redact.rs]

    The device stream publishes entry by entry and awaits the acknowledgements
    later, in batches; the two other streams await each one. [NatsLib] stands
    for the NATS client. *)

From S2P Require Import Prelude Net Sink.

(** ** Server lists without credentials: [redact.rs] *)

(** The text before and after the first occurrence of a needle: [str::find]. *)
Fixpoint split_at (needle s : Str) : option (Str * Str) :=
  match strip_prefix needle s with
  | Some rest => Some ([], rest)
  | None =>
      match s with
      | [] => None
      | c :: s => '(a, b) ← split_at needle s; Some (c :: a, b)
      end
  end.

Definition strip_userinfo (server : Str) : Str :=
  match split_at (s! "://") server with
  | None => server
  | Some (scheme, rest) =>
      let '(authority, path) := take_until 47 rest in
      match after_last 64 authority with
      | None => server
      | Some host => scheme ++ s! "://" ++ host ++ path
      end
  end.

Definition redacted_server_list (servers : list Str) : Str :=
  join (s! ",") (strip_userinfo <$> servers).

(** ** Configuration *)

Definition MAX_PENDING_ACKS : Z := 512.

Definition should_drain_pending_acks (pending : Z) : bool := MAX_PENDING_ACKS <=? pending.

Inductive NatsCredentials : Type :=
  | NatsAnonymous
  | NatsUserPass (username password : Str)
  | NatsToken (token : Str)
  | NatsCreds (creds_file : Str).

Inductive NatsFlushMode : Type :=
  | NatsPerRecord
  | NatsBatched (threshold_bytes : Z).

Definition nats_to_threshold (m : NatsFlushMode) : Z :=
  match m with NatsPerRecord => 1 | NatsBatched n => clamp_threshold n end.

Record NatsDeadLetterConfig : Type := mkNatsDeadLetterConfig {
  ndl_stream : Str;
  ndl_subject : Str;
  ndl_include_error_metadata : bool;
}.

Definition nats_dead_letter_validate `{ForeignErrors} (c : NatsDeadLetterConfig)
    : Result RastreoError unit :=
  if is_empty (trim (ndl_stream c)) then
    Err (EConfig (InvalidValue (s! "nats sink: dead-letter stream is empty")))
  else if is_empty (trim (ndl_subject c)) then
    Err (EConfig (InvalidValue (s! "nats sink: dead-letter subject is empty")))
  else Ok tt.

Definition NATS_HEADER_SOURCE_SUBJECT : Str := s! "x-rastreo-source-subject".
Definition NATS_HEADER_ERROR_CLASS : Str := s! "x-rastreo-error-class".
Definition NATS_HEADER_DLQ_TIMESTAMP : Str := s! "x-rastreo-dlq-timestamp".

(** ** The NATS client and the clock *)

Class NatsLib (W : Type) `{ForeignErrors} := {
  Context_ : Type;
  AckFuture : Type;
  ConnectError : Type;
  PublishError : Type;
  connect_error_display : ConnectError → Str;
  publish_error_display : PublishError → Str;
  rfc3339_now : W → Str;
  (** [ConnectOptions::connect] with the credentials, and the JetStream context. *)
  nats_connect : list Str → NatsCredentials → W → W * Result ConnectError Context_;
  get_stream : Context_ → Str → W → W * Result ConnectError unit;
  (** [Context::publish], and [publish_with_headers] when there are headers. *)
  publish : Context_ → Str → option (list (Str * Str)) → Bytes → W →
    W * Result PublishError AckFuture;
  (** Awaiting the acknowledgement of one publish. *)
  await_ack : AckFuture → W → W * Result PublishError unit;
  (** [Client::flush]. *)
  client_flush : Context_ → W → W * Result ConnectError unit;
}.

Section nats.
Context {W : Type} `{FE : ForeignErrors} {IE : IoErrors} {SL : Sleep W} {NL : NatsLib W}.

Record NatsSink : Type := mkNatsSink {
  ns_subject : Str;
  ns_stream : Str;
  ns_servers : list Str;
  ns_ctx : Context_;
  ns_buffer : PendingBuffer;
  ns_buffer_threshold : Z;
  ns_pending_acks : list (Bytes * AckFuture);
  ns_last_write_delivered : bool;
  ns_dlq_stream : option Str;
  ns_dlq_subject : option Str;
  ns_include_error_metadata : bool;
  ns_dlq_delivered : SinkErrorClass → Z;
  ns_retry : SinkRetry;
  ns_links_subject : Str;
  ns_links_buffer : PendingBuffer;
  ns_profiles_subject : Str;
  ns_profiles_buffer : PendingBuffer;
}.

(** Assignments to the fields that change while the sink runs. *)
Definition nats_set (s : NatsSink) (buffer : PendingBuffer) (pending : list (Bytes * AckFuture))
    (delivered : bool) (dlq : SinkErrorClass → Z) (links profiles : PendingBuffer) : NatsSink := {|
  ns_subject := ns_subject s; ns_stream := ns_stream s; ns_servers := ns_servers s;
  ns_ctx := ns_ctx s; ns_buffer := buffer; ns_buffer_threshold := ns_buffer_threshold s;
  ns_pending_acks := pending; ns_last_write_delivered := delivered;
  ns_dlq_stream := ns_dlq_stream s; ns_dlq_subject := ns_dlq_subject s;
  ns_include_error_metadata := ns_include_error_metadata s; ns_dlq_delivered := dlq;
  ns_retry := ns_retry s; ns_links_subject := ns_links_subject s; ns_links_buffer := links;
  ns_profiles_subject := ns_profiles_subject s; ns_profiles_buffer := profiles |}.

Definition nset_buffer (b : PendingBuffer) (s : NatsSink) : NatsSink :=
  nats_set s b (ns_pending_acks s) (ns_last_write_delivered s) (ns_dlq_delivered s)
    (ns_links_buffer s) (ns_profiles_buffer s).
Definition nset_pending (p : list (Bytes * AckFuture)) (s : NatsSink) : NatsSink :=
  nats_set s (ns_buffer s) p (ns_last_write_delivered s) (ns_dlq_delivered s)
    (ns_links_buffer s) (ns_profiles_buffer s).
Definition nset_delivered (d : bool) (s : NatsSink) : NatsSink :=
  nats_set s (ns_buffer s) (ns_pending_acks s) d (ns_dlq_delivered s)
    (ns_links_buffer s) (ns_profiles_buffer s).
Definition nset_links (b : PendingBuffer) (s : NatsSink) : NatsSink :=
  nats_set s (ns_buffer s) (ns_pending_acks s) (ns_last_write_delivered s) (ns_dlq_delivered s)
    b (ns_profiles_buffer s).
Definition nset_profiles (b : PendingBuffer) (s : NatsSink) : NatsSink :=
  nats_set s (ns_buffer s) (ns_pending_acks s) (ns_last_write_delivered s) (ns_dlq_delivered s)
    (ns_links_buffer s) b.

(** [credit_dlq]: one more record of the class, at the width of the counter. *)
Definition credit_dlq (class : SinkErrorClass) (s : NatsSink) : NatsSink :=
  nats_set s (ns_buffer s) (ns_pending_acks s) (ns_last_write_delivered s)
    (λ c, if decide (c = class) then wrap 64 (ns_dlq_delivered s c + 1) else ns_dlq_delivered s c)
    (ns_links_buffer s) (ns_profiles_buffer s).

(** ** Errors and construction *)

Definition build_publish_error (subject : Str) (servers : list Str) (e : PublishError)
    : RastreoError :=
  sink_error PublishFailure (io_error_other
    (s! "nats sink: failed to publish to subject '" ++ subject ++ s! "' at server(s) '" ++
     redacted_server_list servers ++ s! "': " ++ publish_error_display e)).

Definition build_ack_error (subject : Str) (servers : list Str) (e : PublishError)
    : RastreoError :=
  sink_error AckRejection (io_error_other
    (s! "nats sink: publish to subject '" ++ subject ++ s! "' at server(s) '" ++
     redacted_server_list servers ++ s! "' was not acked: " ++ publish_error_display e)).

Definition build_probe_error (subject : Str) (servers : list Str) (e : ConnectError) : IoError :=
  io_error_other (s! "nats sink probe failed for subject '" ++ subject ++ s! "' at server(s) '" ++
    redacted_server_list servers ++ s! "': " ++ connect_error_display e).

Definition nats_build_dlq_headers (source_subject : Str) (class : SinkErrorClass) (w : W)
    : list (Str * Str) :=
  [ (NATS_HEADER_SOURCE_SUBJECT, source_subject);
    (NATS_HEADER_ERROR_CLASS, sink_error_class_label class);
    (NATS_HEADER_DLQ_TIMESTAMP, rfc3339_now w) ].

Definition nats_new (servers : list Str) (subject stream : Str) (credentials : NatsCredentials)
    (w : W) : W * Result RastreoError NatsSink :=
  let servers_for_err := redacted_server_list servers in
  let '(w, connected) := nats_connect servers credentials w in
  match connected with
  | Err e => (w, Err (sink_error_other (io_error_other
      (s! "nats sink: failed to connect to server(s) '" ++ servers_for_err ++ s! "': " ++
       connect_error_display e))))
  | Ok ctx =>
      let '(w, found) := get_stream ctx stream w in
      match found with
      | Err e => (w, Err (sink_error_other (io_error_other
          (s! "nats sink: JetStream stream '" ++ stream ++
           s! "' not found or unreachable at server(s) '" ++ servers_for_err ++ s! "': " ++
           connect_error_display e))))
      | Ok _ =>
          (w, Ok {| ns_subject := subject; ns_stream := stream; ns_servers := servers;
                    ns_ctx := ctx; ns_buffer := pending_new; ns_buffer_threshold := 1;
                    ns_pending_acks := []; ns_last_write_delivered := false;
                    ns_dlq_stream := None; ns_dlq_subject := None;
                    ns_include_error_metadata := false; ns_dlq_delivered := λ _, 0;
                    ns_retry := sink_retry_default; ns_links_subject := DEFAULT_LINKS_DESTINATION;
                    ns_links_buffer := pending_new;
                    ns_profiles_subject := DEFAULT_PROFILES_DESTINATION;
                    ns_profiles_buffer := pending_new |})
      end
  end.

(** The builder steps [create_sink] applies: flush mode, subjects and retry policy. *)
Definition nats_configure (mode : NatsFlushMode) (links profiles : Str) (retry : SinkRetry)
    (s : NatsSink) : NatsSink := {|
  ns_subject := ns_subject s; ns_stream := ns_stream s; ns_servers := ns_servers s;
  ns_ctx := ns_ctx s; ns_buffer := ns_buffer s; ns_buffer_threshold := nats_to_threshold mode;
  ns_pending_acks := ns_pending_acks s; ns_last_write_delivered := ns_last_write_delivered s;
  ns_dlq_stream := ns_dlq_stream s; ns_dlq_subject := ns_dlq_subject s;
  ns_include_error_metadata := ns_include_error_metadata s;
  ns_dlq_delivered := ns_dlq_delivered s; ns_retry := retry; ns_links_subject := links;
  ns_links_buffer := ns_links_buffer s; ns_profiles_subject := profiles;
  ns_profiles_buffer := ns_profiles_buffer s |}.

Definition nats_with_dead_letter (config : NatsDeadLetterConfig) (s : NatsSink) (w : W)
    : W * Result RastreoError NatsSink :=
  match nats_dead_letter_validate config with
  | Err e => (w, Err e)
  | Ok _ =>
      let '(w, found) := get_stream (ns_ctx s) (ndl_stream config) w in
      match found with
      | Err e => (w, Err (sink_error_other (io_error_other
          (s! "nats sink: JetStream dead-letter stream '" ++ ndl_stream config ++
           s! "' not found or unreachable at server(s) '" ++
           redacted_server_list (ns_servers s) ++ s! "': " ++ connect_error_display e))))
      | Ok _ =>
          (w, Ok {| ns_subject := ns_subject s; ns_stream := ns_stream s;
                    ns_servers := ns_servers s; ns_ctx := ns_ctx s; ns_buffer := ns_buffer s;
                    ns_buffer_threshold := ns_buffer_threshold s;
                    ns_pending_acks := ns_pending_acks s;
                    ns_last_write_delivered := ns_last_write_delivered s;
                    ns_dlq_stream := Some (ndl_stream config);
                    ns_dlq_subject := Some (ndl_subject config);
                    ns_include_error_metadata := ndl_include_error_metadata config;
                    ns_dlq_delivered := ns_dlq_delivered s; ns_retry := ns_retry s;
                    ns_links_subject := ns_links_subject s; ns_links_buffer := ns_links_buffer s;
                    ns_profiles_subject := ns_profiles_subject s;
                    ns_profiles_buffer := ns_profiles_buffer s |})
      end
  end.

(** The NATS arm of [create_sink], after validation. *)
Definition nats_create (servers : list Str) (subject stream : Str)
    (links_subject profiles_subject : option Str) (credentials : NatsCredentials)
    (mode : NatsFlushMode) (dead_letter : option NatsDeadLetterConfig) (retry : SinkRetry) (w : W)
    : W * Result RastreoError NatsSink :=
  let links := default DEFAULT_LINKS_DESTINATION links_subject in
  let profiles := default DEFAULT_PROFILES_DESTINATION profiles_subject in
  let '(w, sink) := nats_new servers subject stream credentials w in
  match sink with
  | Err e => (w, Err e)
  | Ok sink =>
      let sink := nats_configure mode links profiles retry sink in
      match dead_letter with
      | Some dlq => nats_with_dead_letter dlq sink w
      | None => (w, Ok sink)
      end
  end.

(** ** The device stream *)

(** [true] once the dead-letter subject accepted and acknowledged the payload. *)
Definition quarantine (payload : Bytes) (class : SinkErrorClass) (s : NatsSink) (w : W)
    : NatsSink * W * bool :=
  match ns_dlq_subject s with
  | None => (s, w, false)
  | Some dlq_subject =>
      let headers :=
        if ns_include_error_metadata s
        then Some (nats_build_dlq_headers (ns_subject s) class w) else None in
      let '(w, published) := publish (ns_ctx s) dlq_subject headers payload w in
      match published with
      | Err _ => (s, w, false)
      | Ok ack =>
          let '(w, acked) := await_ack ack w in
          match acked with
          | Err _ => (s, w, false)
          | Ok _ => (credit_dlq class s, w, true)
          end
      end
  end.

(** The loop of [drain_pending_acks]: the payloads nothing accepted, the first
    error among theirs. *)
Fixpoint drain_loop (pending : list (Bytes * AckFuture)) (unacked : PendingBuffer)
    (first_error : option RastreoError) (s : NatsSink) (w : W)
    : NatsSink * W * PendingBuffer * option RastreoError :=
  match pending with
  | [] => (s, w, unacked, first_error)
  | (payload, ack) :: pending =>
      let '(w, acked) := await_ack ack w in
      match acked with
      | Ok _ => drain_loop pending unacked first_error s w
      | Err e =>
          let ack_error := build_ack_error (ns_subject s) (ns_servers s) e in
          let '(s, w, quarantined) := quarantine payload AckRejection s w in
          if quarantined then drain_loop pending unacked first_error s w
          else drain_loop pending (pending_push payload unacked)
                 (match first_error with None => Some ack_error | Some _ => first_error end) s w
      end
  end.

Definition drain_pending_acks (s : NatsSink) (w : W) : NatsSink * W * Result RastreoError unit :=
  if is_empty (ns_pending_acks s) then (s, w, Ok tt)
  else
    let pending := ns_pending_acks s in
    let s := nset_pending [] s in
    let '(s, w, unacked, first_error) := drain_loop pending pending_new None s w in
    let s := nset_buffer (restore_front unacked (ns_buffer s)) s in
    (s, w, match first_error with Some e => Err e | None => Ok tt end).

(** The [while let] of [publish_buffer]; [None] is a loop cut short. *)
Fixpoint nats_publish_loop (fuel : nat) (s : NatsSink) (w : W)
    : option (NatsSink * W * Result RastreoError unit) :=
  match fuel with
  | O => None
  | S fuel =>
      match pending_front (ns_buffer s) with
      | None => Some (s, w, Ok tt)
      | Some payload =>
          let '(w, publish_result) :=
            retry_with_backoff (ns_retry s)
              (λ w, let '(w, r) := publish (ns_ctx s) (ns_subject s) None payload w in
                    (w, map_err (build_publish_error (ns_subject s) (ns_servers s)) r)) w in
          let '(buffer, settled) := settle_front publish_result (ns_buffer s) in
          let s := nset_buffer buffer s in
          match settled with
          | Ok ack =>
              let s := nset_pending (ns_pending_acks s ++ [(payload, ack)]) s in
              if should_drain_pending_acks (Z.of_nat (length (ns_pending_acks s))) then
                let '(s, w, drained) := drain_pending_acks s w in
                match drained with
                | Ok _ => nats_publish_loop fuel s w
                | Err e => Some (s, w, Err e)
                end
              else nats_publish_loop fuel s w
          | Err primary_err =>
              let '(s, w, quarantined) := quarantine payload PublishFailure s w in
              let '(buffer, settled) :=
                settle_front (if quarantined then Ok tt else Err primary_err) (ns_buffer s) in
              let s := nset_buffer buffer s in
              match settled with
              | Ok _ => nats_publish_loop fuel s w
              | Err e => Some (s, w, Err e)
              end
          end
      end
  end.

(** Each turn of the loop removes the head or ends it, so one more turn than
    there are entries is enough. *)
Definition nats_publish_buffer (s : NatsSink) (w : W)
    : option (NatsSink * W * Result RastreoError unit) :=
  if pending_is_empty (ns_buffer s) then Some (s, w, Ok tt)
  else nats_publish_loop (S (length (pb_entries (ns_buffer s)))) s w.

Definition publish_and_drain (s : NatsSink) (w : W)
    : option (NatsSink * W * Result RastreoError unit) :=
  '(s, w, published) ← nats_publish_buffer s w;
  let '(s, w, drained) := drain_pending_acks s w in
  Some (s, w, _ ← published; drained).

(** ** The link and collection-profile streams *)

Fixpoint publish_stream_loop (fuel : nat) (ctx : Context_) (retry : SinkRetry)
    (servers : list Str) (subject : Str) (buffer : PendingBuffer) (w : W)
    : option (PendingBuffer * W * Result RastreoError unit) :=
  match fuel with
  | O => None
  | S fuel =>
      match pending_front buffer with
      | None => Some (buffer, w, Ok tt)
      | Some payload =>
          let '(w, published) :=
            retry_with_backoff retry
              (λ w, let '(w, r) := publish ctx subject None payload w in
                    (w, map_err (build_publish_error subject servers) r)) w in
          match published with
          | Err e => Some (buffer, w, Err e)
          | Ok ack =>
              let '(w, acked) := await_ack ack w in
              let '(buffer, settled) :=
                settle_front (map_err (build_ack_error subject servers) acked) buffer in
              match settled with
              | Ok _ => publish_stream_loop fuel ctx retry servers subject buffer w
              | Err e => Some (buffer, w, Err e)
              end
          end
      end
  end.

Definition publish_stream_buffer (ctx : Context_) (retry : SinkRetry) (servers : list Str)
    (subject : Str) (buffer : PendingBuffer) (w : W)
    : option (PendingBuffer * W * Result RastreoError unit) :=
  publish_stream_loop (S (length (pb_entries buffer))) ctx retry servers subject buffer w.

Definition nats_publish_links_buffer (s : NatsSink) (w : W)
    : option (NatsSink * W * Result RastreoError unit) :=
  '(b, w, r) ← publish_stream_buffer (ns_ctx s) (ns_retry s) (ns_servers s) (ns_links_subject s)
                 (ns_links_buffer s) w;
  Some (nset_links b s, w, r).

Definition nats_publish_profiles_buffer (s : NatsSink) (w : W)
    : option (NatsSink * W * Result RastreoError unit) :=
  '(b, w, r) ← publish_stream_buffer (ns_ctx s) (ns_retry s) (ns_servers s)
                 (ns_profiles_subject s) (ns_profiles_buffer s) w;
  Some (nset_profiles b s, w, r).

(** ** [impl Sink for NatsSink] *)

(** The flag after a publish that a write triggered. *)
Definition nats_mark (r : option (NatsSink * W * Result RastreoError unit))
    : option (NatsSink * W * Result RastreoError unit) :=
  '(s, w, r) ← r;
  match r with
  | Ok _ => Some (nset_delivered true s, w, Ok tt)
  | Err e => Some (s, w, Err e)
  end.

Definition nats_write (data : Bytes) (s : NatsSink) (w : W)
    : option (NatsSink * W * Result RastreoError unit) :=
  let s := nset_delivered false s in
  let s := nset_buffer (pending_push data (ns_buffer s)) s in
  if reached_threshold (ns_buffer s) (ns_buffer_threshold s) then
    if ns_buffer_threshold s =? 1 then nats_mark (publish_and_drain s w)
    else nats_publish_buffer s w
  else Some (s, w, Ok tt).

Definition nats_write_link (data : Bytes) (s : NatsSink) (w : W)
    : option (NatsSink * W * Result RastreoError unit) :=
  let s := nset_delivered false s in
  let s := nset_links (pending_push data (ns_links_buffer s)) s in
  if reached_threshold (ns_links_buffer s) (ns_buffer_threshold s) then
    nats_mark (nats_publish_links_buffer s w)
  else Some (s, w, Ok tt).

Definition nats_write_profile (data : Bytes) (s : NatsSink) (w : W)
    : option (NatsSink * W * Result RastreoError unit) :=
  let s := nset_delivered false s in
  let s := nset_profiles (pending_push data (ns_profiles_buffer s)) s in
  if reached_threshold (ns_profiles_buffer s) (ns_buffer_threshold s) then
    nats_mark (nats_publish_profiles_buffer s w)
  else Some (s, w, Ok tt).

Definition nats_write_kind (kind : RecordKind) (data : Bytes) (s : NatsSink) (w : W)
    : option (NatsSink * W * Result RastreoError unit) :=
  match kind with
  | RkDevice => nats_write data s w
  | RkLink => nats_write_link data s w
  | RkCollectionProfile => nats_write_profile data s w
  end.

Definition nats_flush (s : NatsSink) (w : W)
    : option (NatsSink * W * Result RastreoError unit) :=
  '(s, w, device) ← publish_and_drain s w;
  '(s, w, links) ← nats_publish_links_buffer s w;
  '(s, w, profiles) ← nats_publish_profiles_buffer s w;
  let result := _ ← device; _ ← links; profiles in
  Some (nset_delivered (is_ok result) s, w, result).

Definition nats_last_write_delivered (s : NatsSink) : bool :=
  ns_last_write_delivered s && is_empty (ns_pending_acks s).

Definition nats_dlq_records_delivered (s : NatsSink) : Z :=
  foldl (λ acc c, saturating_add U64_MAX acc (ns_dlq_delivered s c)) 0 sink_error_class_all.

Definition nats_probe (s : NatsSink) (w : W) : W * Result IoError unit :=
  let '(w, r) := client_flush (ns_ctx s) w in
  (w, map_err (build_probe_error (ns_subject s) (ns_servers s)) r).
End nats.
