(* ===== verification/BrokerFacts.v ===== *)
(** * Accounting for records on their way to a broker

    What both broker sinks are measured against: the list of deliveries a
    broker acknowledged, and the equation that relates it to the records
    written and the records still held. *)

From S2P Require Import Prelude Net Sink SinkTheorems.

(** A delivery: the stream of the record, whether it went to the dead-letter
    destination, and its bytes. *)
Abbreviation Deliveries := (list (RecordKind * bool * Bytes)).
Abbreviation Records := (list (RecordKind * Bytes)).

(** What a broker sees of deliveries, given where each stream goes. *)
Definition sent (topic : RecordKind → bool → Str) (d : Deliveries) : list (Str * Bytes) :=
  (λ x, (topic x.1.1 x.1.2, x.2)) <$> d.

Definition records (d : Deliveries) : Records := (λ x, (x.1.1, x.2)) <$> d.

Definition dead_count (d : Deliveries) : Z := Z.of_nat (length (filter (λ x, x.1.2 = true) d)).

(** Only device records are ever dead-lettered. *)
Definition dead_devices (d : Deliveries) : Prop :=
  Forall (λ x, x.1.2 = true → x.1.1 = RkDevice) d.

(** The entries of one stream. *)
Definition of_kind (k : RecordKind) (l : list Bytes) : Records := pair k <$> l.

Definition deliveries (k : RecordKind) (dead : bool) (l : list Bytes) : Deliveries :=
  pair (k, dead) <$> l.

Lemma sent_app topic d1 d2 : sent topic (d1 ++ d2) = sent topic d1 ++ sent topic d2.
Proof. apply fmap_app. Qed.

Lemma records_app d1 d2 : records (d1 ++ d2) = records d1 ++ records d2.
Proof. apply fmap_app. Qed.

Lemma of_kind_app k l1 l2 : of_kind k (l1 ++ l2) = of_kind k l1 ++ of_kind k l2.
Proof. apply fmap_app. Qed.

Lemma dead_count_app d1 d2 : dead_count (d1 ++ d2) = dead_count d1 + dead_count d2.
Proof. unfold dead_count. rewrite filter_app, length_app. lia. Qed.

Lemma sent_deliveries topic k dead l : sent topic (deliveries k dead l) = pair (topic k dead) <$> l.
Proof. unfold sent, deliveries. by rewrite <-list_fmap_compose. Qed.

Lemma records_deliveries k dead l : records (deliveries k dead l) = of_kind k l.
Proof. unfold records, deliveries. by rewrite <-list_fmap_compose. Qed.

Lemma dead_count_deliveries k dead l :
  dead_count (deliveries k dead l) = if dead then Z.of_nat (length l) else 0.
Proof.
  unfold dead_count, deliveries. induction l as [|x l IH]; [by destruct dead|].
  rewrite fmap_cons, filter_cons. cbn [fst snd]. case_decide; destruct dead; try done. cbn [length]. lia.
Qed.

Lemma dead_devices_alive k l : dead_devices (deliveries k false l).
Proof. apply Forall_fmap, Forall_forall. by intros. Qed.

Lemma dead_devices_device dead l : dead_devices (deliveries RkDevice dead l).
Proof. apply Forall_fmap, Forall_forall. by intros. Qed.

(** ** The byte count of a buffer *)

Definition total_bytes (l : list Bytes) : Z := foldr (λ e acc, byte_len e + acc) 0 l.

(** The count is that of the entries, at its width. *)
Definition pending_wf (b : PendingBuffer) : Prop :=
  pb_bytes b = wrap 64 (total_bytes (pb_entries b)).

Lemma total_bytes_cons x l : total_bytes (x :: l) = byte_len x + total_bytes l.
Proof. done. Qed.

Lemma total_bytes_app l1 l2 : total_bytes (l1 ++ l2) = total_bytes l1 + total_bytes l2.
Proof.
  induction l1 as [|x l1 IH]; [done|]. cbn [app]. rewrite !total_bytes_cons, IH. lia.
Qed.

Lemma pending_new_wf : pending_wf pending_new.
Proof. done. Qed.

Lemma pending_push_wf e b : pending_wf b → pending_wf (pending_push e b).
Proof.
  unfold pending_wf, pending_push. cbn [pb_bytes pb_entries]. intros ->.
  rewrite total_bytes_app, total_bytes_cons. unfold wrap. rewrite Zplus_mod_idemp_l.
  f_equal. change (total_bytes []) with 0. lia.
Qed.

Lemma settle_front_wf {E V} (r : Result E V) b : pending_wf b → pending_wf (settle_front r b).1.
Proof.
  unfold pending_wf, settle_front. cbn [fst]. destruct (is_ok r); [|done].
  destruct b as [[|x l] n]; cbn [pb_bytes pb_entries]; [done|]. intros ->.
  rewrite total_bytes_cons. unfold wrap. rewrite Zminus_mod_idemp_l. f_equal. lia.
Qed.

Lemma settle_all_wf {E V} (r : Result E V) b : pending_wf b → pending_wf (settle_all r b).1.
Proof. unfold settle_all. cbn. by destruct (is_ok r). Qed.

Lemma restore_front_wf batch b :
  pending_wf batch → pending_wf b → pending_wf (restore_front batch b).
Proof.
  unfold restore_front. destruct (pending_is_empty batch); [done|].
  unfold pending_wf. cbn [pb_bytes pb_entries]. intros -> ->. rewrite total_bytes_app. unfold wrap.
  rewrite Zplus_mod_idemp_l, Zplus_mod_idemp_r. f_equal. lia.
Qed.

#[export] Hint Resolve pending_new_wf pending_push_wf settle_front_wf settle_all_wf
  restore_front_wf dead_devices_alive dead_devices_device : rastreo.

Lemma restore_front_entries batch b :
  pb_entries (restore_front batch b) = pb_entries batch ++ pb_entries b.
Proof. unfold restore_front. destruct batch as [[|x l] n]; done. Qed.

(** ** One accounting step *)

(** From one state to the next, some new records came in, and each record that
    left was acknowledged once. *)
Definition accounts (topic : RecordKind → bool → Str) (new : Records)
    (c c' : list (Str * Bytes)) (held held' : Records) (n n' : Z) : Prop :=
  ∃ d, c' = c ++ sent topic d ∧ records d ++ held' ≡ₚ new ++ held ∧
    dead_devices d ∧ n' = wrap 64 (n + dead_count d).

Lemma accounts_refl topic c held n :
  0 ≤ n < 2 ^ 64 → accounts topic [] c c held held n n.
Proof.
  exists []. split_and!; [by rewrite app_nil_r|done|constructor|].
  change (dead_count []) with 0. rewrite Z.add_0_r. by rewrite wrap_small.
Qed.

Lemma accounts_trans topic new1 new2 c1 c2 c3 h1 h2 h3 n1 n2 n3 :
  accounts topic new1 c1 c2 h1 h2 n1 n2 → accounts topic new2 c2 c3 h2 h3 n2 n3 →
  accounts topic (new1 ++ new2) c1 c3 h1 h3 n1 n3.
Proof.
  intros (d1 & -> & P1 & D1 & ->) (d2 & -> & P2 & D2 & ->).
  exists (d1 ++ d2). split_and!.
  - by rewrite sent_app, (assoc_L (++)).
  - rewrite records_app. rewrite <-(assoc_L (++)), P2.
    rewrite (assoc_L (++)), (Permutation_app_comm (records d1)), <-(assoc_L (++)), P1.
    rewrite (assoc_L (++)), (Permutation_app_comm new2). done.
  - by apply Forall_app.
  - rewrite dead_count_app. unfold wrap. rewrite Zplus_mod_idemp_l. f_equal. lia.
Qed.

Lemma accounts_topic_ext t1 t2 new c c' h h' n n' :
  (∀ k dead, t1 k dead = t2 k dead) →
  accounts t1 new c c' h h' n n' → accounts t2 new c c' h h' n n'.
Proof.
  intros Ht (d & -> & ? & ? & ?). exists d. split_and!; [|done|done|done].
  unfold sent. f_equal. apply list_fmap_ext. intros i x _. by rewrite Ht.
Qed.

(** Records moved without anything happening outside. *)
Lemma accounts_move topic new c held held' n :
  0 ≤ n < 2 ^ 64 → held' ≡ₚ new ++ held → accounts topic new c c held held' n n.
Proof.
  intros Hn P. exists []. split_and!; [by rewrite app_nil_r|done|constructor|].
  change (dead_count []) with 0. rewrite Z.add_0_r. by rewrite wrap_small.
Qed.

Lemma accounts_count topic new c c' h h' n n' :
  accounts topic new c c' h h' n n' → 0 ≤ n' < 2 ^ 64.
Proof. intros (d & _ & _ & _ & ->). unfold wrap. apply Z.mod_pos_bound. lia. Qed.

(** Some of the held records were acknowledged at one destination. *)
Lemma accounts_deliver topic c held held' n k dead l :
  0 ≤ n < 2 ^ 64 → (dead = true → k = RkDevice) → held ≡ₚ of_kind k l ++ held' →
  accounts topic [] c (c ++ (pair (topic k dead) <$> l)) held held' n
    (if dead then wrap 64 (n + Z.of_nat (length l)) else n).
Proof.
  intros Hn Hk P. exists (deliveries k dead l).
  rewrite sent_deliveries, records_deliveries, dead_count_deliveries. split_and!.
  - done.
  - by rewrite P.
  - destruct dead; [rewrite Hk by done|]; auto with rastreo.
  - destruct dead; [done|]. by rewrite Z.add_0_r, wrap_small.
Qed.

#[export] Hint Resolve accounts_refl accounts_count : rastreo.

(** ** Retried operations *)

(** An operation that changes an observation of the world only when it succeeds:
    retried, it still does, and its success is that of one attempt. *)
Lemma retry_observed {W E T O} `{Sleep W} (obs : W → O) retry (op : W → W * Result E T) w w' r :
  (∀ d w, obs (sleep_ms d w) = obs w) →
  (∀ w e, (op w).2 = Err e → obs (op w).1 = obs w) →
  retry_with_backoff retry op w = (w', r) →
  match r with
  | Ok v => ∃ w0, obs w0 = obs w ∧ op w0 = (w', Ok v)
  | Err _ => obs w' = obs w
  end.
Proof.
  intros Hsleep Hop.
  destruct (retry_with_backoff_run retry op w) as (n & w0 & Hr & -> & Hn). intros [= -> <-].
  assert (obs w0 = obs w) as Hc.
  { clear Hn. induction Hr as [|a b c (e & He & Hb) _ IH]; [done|]. rewrite IH.
    destruct Hb as [->|[d ->]]; rewrite ?Hsleep; by eapply Hop. }
  destruct (op w0) as [w1 [v|e]] eqn:Eop; cbn in *.
  - destruct Hn as [->|[? _]]; [|done]. by exists w0.
  - assert (obs w1 = obs w0) as Hw1 by (by specialize (Hop w0 e); rewrite Eop in Hop; apply Hop).
    destruct Hn as [->|[_ [d ->]]]; rewrite ?Hsleep; congruence.
Qed.

(** ** Histories of a sink *)

Inductive SinkOp : Type :=
  | OpWrite (kind : RecordKind) (data : Bytes)
  | OpFlush.

Definition op_records (op : SinkOp) : Records :=
  match op with OpWrite k data => [(k, data)] | OpFlush => [] end.

(** The records a history wrote. *)
Definition written (ops : list SinkOp) : Records := mjoin (op_records <$> ops).

Lemma written_snoc ops op : written (ops ++ [op]) = written ops ++ op_records op.
Proof. unfold written. rewrite fmap_app, join_app. cbn. by rewrite app_nil_r. Qed.

(** The stream of its last write. *)
Fixpoint last_kind (ops : list SinkOp) (acc : option RecordKind) : option RecordKind :=
  match ops with
  | [] => acc
  | OpWrite k _ :: ops => last_kind ops (Some k)
  | OpFlush :: ops => last_kind ops acc
  end.

Lemma last_kind_snoc ops op acc :
  last_kind (ops ++ [op]) acc =
  match op with OpWrite k _ => Some k | OpFlush => last_kind ops acc end.
Proof.
  revert acc. induction ops as [|[k d|] ops IH]; intros acc; [by destruct op|apply IH..].
Qed.
