(* ===== verification/KafkaTheorems.v ===== *)
(** * The Kafka sink loses nothing

    Every record written is acknowledged once by the topic of its stream or by
    the dead-letter topic, or is still held; the delivered flag and the counters
    say the truth about it. *)

From S2P Require Import Prelude Net Sink SinkTheorems Kafka BrokerFacts.

(** What is assumed of the client: a partition client writes to the topic it was
    obtained for; [confirmed] is what the cluster acknowledged, which a produce
    extends by its records when it succeeds, and nothing else changes. *)
Class KafkaLaws {W : Type} `{FE : ForeignErrors} (SL : Sleep W) (TO : Timeout W) (KL : KafkaLib W)
  := {
  client_topic : PartitionClient → Str;
  confirmed : W → list (Str * Bytes);
  client_partition_topic k topic p w w' c :
    client_partition k topic p w = (w', Ok c) → client_topic c = topic;
  client_partition_confirmed k topic p w : confirmed (client_partition k topic p w).1 = confirmed w;
  client_build_confirmed b t s w : confirmed (client_build b t s w).1 = confirmed w;
  produce_ok c recs w w' u : produce c recs w = (w', Ok u) →
    confirmed w' = confirmed w ++ ((λ r, (client_topic c, r.1.1)) <$> recs);
  produce_err c recs w w' e : produce c recs w = (w', Err e) → confirmed w' = confirmed w;
  sleep_confirmed d w : confirmed (sleep_ms d w) = confirmed w;
  timeout_confirmed {A} n (f : W → W * A) w :
    (∀ w, confirmed (f w).1 = confirmed w) → confirmed (timeout_secs n f w).1 = confirmed w;
  timeout_result {A} n (f : W → W * A) w a :
    (timeout_secs n f w).2 = Some a → ∃ w1, (f w1).2 = a;
}.

Section kafka.
Context {W : Type} `{FE : ForeignErrors} {IE : IoErrors} {SL : Sleep W} {TO : Timeout W}
  {KL : KafkaLib W} {LAWS : KafkaLaws SL TO KL}.
Implicit Types (s : KafkaSink) (w : W).

(** Where each stream goes. *)
Definition kafka_topic s (k : RecordKind) (dead : bool) : Str :=
  match k with
  | RkDevice => if dead then default [] (ks_dlq_topic s) else ks_topic s
  | RkLink => ks_links_topic s
  | RkCollectionProfile => ks_profiles_topic s
  end.

(** The records the sink still holds. *)
Definition kafka_held s : Records :=
  of_kind RkDevice (pb_entries (ks_buffer s)) ++
  of_kind RkLink (pb_entries (ks_links_buffer s)) ++
  of_kind RkCollectionProfile (pb_entries (ks_profiles_buffer s)).

(** Clients belong to their topics, buffers count their bytes. *)
Record kafka_wf s : Prop := {
  kw_client : client_topic (ks_client s) = ks_topic s;
  kw_dlq c t : ks_dlq_client s = Some c → ks_dlq_topic s = Some t → client_topic c = t;
  kw_links c : ks_links_client s = Some c → client_topic c = ks_links_topic s;
  kw_profiles c : ks_profiles_client s = Some c → client_topic c = ks_profiles_topic s;
  kw_buffer : pending_wf (ks_buffer s);
  kw_links_buffer : pending_wf (ks_links_buffer s);
  kw_profiles_buffer : pending_wf (ks_profiles_buffer s);
  kw_count : 0 ≤ ks_dlq_delivered s < 2 ^ 64;
}.

(** What no operation changes. *)
Definition kafka_conf s :=
  (ks_topic s, ks_client s, ks_dlq_client s, ks_dlq_topic s, ks_links_topic s, ks_profiles_topic s,
   ks_buffer_threshold s).

(** One step: the sink stays well formed and configured as it was, and accounts
    for the records that came in. *)
Definition kafka_step (new : Records) s w s' w' : Prop :=
  kafka_wf s' ∧ kafka_conf s' = kafka_conf s ∧
  accounts (kafka_topic s) new (confirmed w) (confirmed w') (kafka_held s) (kafka_held s')
    (ks_dlq_delivered s) (ks_dlq_delivered s').

Lemma kafka_topic_conf s s' k dead :
  kafka_conf s' = kafka_conf s → kafka_topic s' k dead = kafka_topic s k dead.
Proof using Type. intros [= ? ? ? ? ? ? ?]. by destruct k, dead; cbn; congruence. Qed.


Lemma kafka_step_trans new1 new2 s1 w1 s2 w2 s3 w3 :
  kafka_step new1 s1 w1 s2 w2 → kafka_step new2 s2 w2 s3 w3 →
  kafka_step (new1 ++ new2) s1 w1 s3 w3.
Proof using Type.
  intros (? & C1 & A1) (? & C2 & A2). split_and!; [done|congruence|].
  eapply accounts_trans; [exact A1|]. eapply accounts_topic_ext; [|exact A2].
  intros. by apply kafka_topic_conf.
Qed.

Lemma kafka_step_refl s w : kafka_wf s → kafka_step [] s w s w.
Proof using Type. intros Hs. split_and!; [done|done|]. apply accounts_refl, (kw_count _ Hs). Qed.

(** *** Producing *)

Lemma produce_buffer_spec client buffer headers topic brokers retry w w' r :
  produce_buffer client buffer headers topic brokers retry w = (w', r) →
  confirmed w' = confirmed w ++
    (if is_ok r then pair (client_topic client) <$> pb_entries buffer else []).
Proof using Type.
  unfold produce_buffer. cbv zeta. generalize (utc_now w). intros ts E.
  eapply (retry_observed confirmed) in E.
  - destruct r as [u|e]; cbn; [|by rewrite app_nil_r]. destruct E as (w0 & <- & E).
    destruct (produce _ _ w0) as [w1 [?|e1]] eqn:Ep; [|done]. injection E as <- _.
    apply produce_ok in Ep. rewrite Ep. f_equal. unfold build_records.
    by rewrite <-list_fmap_compose.
  - apply sleep_confirmed.
  - intros w0 e. destruct (produce _ _ w0) as [w1 [?|e1]] eqn:Ep; cbn; [done|].
    intros _. by apply produce_err in Ep.
Qed.

Lemma connect_confirmed brokers topic tls sasl w :
  confirmed (connect_partition_client brokers topic tls sasl w).1 = confirmed w.
Proof using Type.
  unfold connect_partition_client. pose proof (client_build_confirmed brokers tls sasl w) as H1.
  destruct (client_build brokers tls sasl w) as [w1 [c|e]]; cbn in *; [|done].
  pose proof (client_partition_confirmed c topic 0 w1) as H2.
  destruct (client_partition c topic 0 w1) as [w2 p]. cbn in *. congruence.
Qed.

Lemma connect_topic brokers topic tls sasl w c :
  (connect_partition_client brokers topic tls sasl w).2 = Ok c → client_topic c = topic.
Proof using Type.
  unfold connect_partition_client. destruct (client_build brokers tls sasl w) as [w1 [k|e]]; [|done].
  destruct (client_partition k topic 0 w1) as [w2 [p|e]] eqn:E; cbn; [|done]. intros [= ->].
  by eapply client_partition_topic.
Qed.

Lemma connect_bounded_spec brokers topic what tls sasl secs w w' r :
  connect_bounded brokers topic what tls sasl secs w = (w', r) →
  confirmed w' = confirmed w ∧ (∀ c, r = Ok c → client_topic c = topic).
Proof using Type.
  unfold connect_bounded. set (f := connect_partition_client brokers topic tls sasl).
  pose proof (timeout_confirmed secs f w (connect_confirmed brokers topic tls sasl)) as Hc.
  pose proof (λ a, timeout_result secs f w a) as Hr.
  destruct (timeout_secs secs f w) as [w1 [o|]]; cbn [fst snd] in *; intros E;
    (apply pair_equal_spec in E as [<- <-]); (split; [exact Hc|]); [|by intros].
  destruct (Hr o eq_refl) as [w2 Hw2]. intros c ->. by eapply connect_topic.
Qed.

(** *** Publishing a stream *)

Lemma kafka_publish_buffer_step s w s' w' r :
  kafka_wf s → kafka_publish_buffer s w = (s', w', r) →
  kafka_step [] s w s' w' ∧ (r = Ok tt → pb_entries (ks_buffer s') = []) ∧
  ks_links_buffer s' = ks_links_buffer s ∧ ks_profiles_buffer s' = ks_profiles_buffer s ∧
  ks_last_write_delivered s' = ks_last_write_delivered s.
Proof using Type.
  intros Hs. pose proof (kw_count _ Hs) as Hn. unfold kafka_publish_buffer.
  destruct (pending_is_empty (ks_buffer s)) eqn:Hem.
  { intros [= <- <- <-]. apply is_empty_true in Hem.
    split_and!; [by apply kafka_step_refl|by intros|done..]. }
  destruct (produce_buffer _ _ _ _ _ _ w) as [w1 r1] eqn:E1. apply produce_buffer_spec in E1.
  cbn [settle_all]. destruct r1 as [u|e]; cbn [is_ok] in *; cbv zeta; cbn [ks_dlq_client ks_dlq_topic kset_buffer kafka_set ks_buffer].
  { intros [= <- <- <-]. split_and!; [|done..]. split_and!; [|done|].
    - destruct Hs. by split.
    - rewrite E1. rewrite (kw_client _ Hs).
      change (ks_topic s) with (kafka_topic s RkDevice false).
      apply (accounts_deliver _ _ _ _ _ _ false); [done|done|].
      unfold kafka_held. cbn. done. }
  rewrite app_nil_r in E1.
  destruct (ks_dlq_client s) as [dlq|] eqn:Edc; [destruct (ks_dlq_topic s) as [dt|] eqn:Edt|].
  2-3: intros [= <- <- <-]; split_and!; [|done..]; split_and!;
    [destruct Hs; by split|done|rewrite E1; apply accounts_refl; done].
  destruct (produce dlq _ w1) as [w2 [u|e2]] eqn:E2; cbn [is_ok].
  - intros [= <- <- <-]. split_and!; [|done..]. split_and!.
    + destruct Hs. split; try done. cbn. unfold wrap. apply Z.mod_pos_bound. lia.
    + done.
    + apply produce_ok in E2. rewrite E2, E1. unfold build_records.
      rewrite <-list_fmap_compose. unfold compose; cbn [fst].
      rewrite (kw_dlq _ Hs dlq dt Edc Edt).
      replace dt with (kafka_topic s RkDevice true) by (cbn; by rewrite Edt).
      apply (accounts_deliver _ _ _ _ _ _ true); [done|done|].
      unfold kafka_held. cbn. done.
  - intros [= <- <- <-]. apply produce_err in E2. split_and!; [|done..]. split_and!;
      [destruct Hs; by split|done|]. rewrite E2, E1. apply accounts_refl. done.
Qed.

Lemma kafka_publish_links_step s w s' w' r :
  kafka_wf s → kafka_publish_links_buffer s w = (s', w', r) →
  kafka_step [] s w s' w' ∧ (r = Ok tt → pb_entries (ks_links_buffer s') = []) ∧
  ks_buffer s' = ks_buffer s ∧ ks_profiles_buffer s' = ks_profiles_buffer s ∧
  ks_last_write_delivered s' = ks_last_write_delivered s.
Proof using Type.
  intros Hs. pose proof (kw_count _ Hs) as Hn. unfold kafka_publish_links_buffer.
  destruct (pending_is_empty (ks_links_buffer s)) eqn:Hem.
  { intros [= <- <- <-]. apply is_empty_true in Hem.
    split_and!; [by apply kafka_step_refl|by intros|done..]. }
  set (c := match ks_links_client s with Some _ => _ | None => _ end).
  assert (confirmed c.1 = confirmed w ∧ ∀ k, c.2 = Ok k → client_topic k = ks_links_topic s) as [Hc Hk].
  { unfold c. destruct (ks_links_client s) as [k|] eqn:Ek; cbn [fst snd].
    - split; [done|]. intros ? [= <-]. by apply (kw_links _ Hs).
    - unfold connect_partition_client_bounded.
      destruct (connect_bounded _ _ _ _ _ _ w) as [w1 r1] eqn:E. by apply connect_bounded_spec in E. }
  clearbody c. destruct c as [w1 [k|e]]; cbn [fst snd] in *; last first.
  { intros [= <- <- <-]. split_and!; [|done..]. split_and!; [destruct Hs; by split|done|].
    rewrite Hc. by apply accounts_refl. }
  specialize (Hk k eq_refl).
  destruct (produce_buffer _ _ _ _ _ _ w1) as [w2 r2] eqn:E2. apply produce_buffer_spec in E2.
  rewrite Hc, Hk in E2. cbn [settle_all]. intros [= <- <- <-]. split_and!; [|by intros -> |done..].
  split_and!; [|done|].
  - destruct Hs. split; try done; cbn; [by intros ? [= <-]|by destruct (is_ok r2)].
  - rewrite E2. destruct r2 as [u|e]; cbn [is_ok].
    + change (ks_links_topic s) with (kafka_topic s RkLink false).
      apply (accounts_deliver _ _ _ _ _ _ false); [done|done|].
      unfold kafka_held. cbn. by rewrite Permutation_app_swap_app.
    + rewrite app_nil_r. by apply accounts_refl.
Qed.

Lemma kafka_publish_profiles_step s w s' w' r :
  kafka_wf s → kafka_publish_profiles_buffer s w = (s', w', r) →
  kafka_step [] s w s' w' ∧ (r = Ok tt → pb_entries (ks_profiles_buffer s') = []) ∧
  ks_buffer s' = ks_buffer s ∧ ks_links_buffer s' = ks_links_buffer s ∧
  ks_last_write_delivered s' = ks_last_write_delivered s.
Proof using Type.
  intros Hs. pose proof (kw_count _ Hs) as Hn. unfold kafka_publish_profiles_buffer.
  destruct (pending_is_empty (ks_profiles_buffer s)) eqn:Hem.
  { intros [= <- <- <-]. apply is_empty_true in Hem.
    split_and!; [by apply kafka_step_refl|by intros|done..]. }
  set (c := match ks_profiles_client s with Some _ => _ | None => _ end).
  assert (confirmed c.1 = confirmed w ∧ ∀ k, c.2 = Ok k → client_topic k = ks_profiles_topic s)
    as [Hc Hk].
  { unfold c. destruct (ks_profiles_client s) as [k|] eqn:Ek; cbn [fst snd].
    - split; [done|]. intros ? [= <-]. by apply (kw_profiles _ Hs).
    - unfold connect_partition_client_bounded.
      destruct (connect_bounded _ _ _ _ _ _ w) as [w1 r1] eqn:E. by apply connect_bounded_spec in E. }
  clearbody c. destruct c as [w1 [k|e]]; cbn [fst snd] in *; last first.
  { intros [= <- <- <-]. split_and!; [|done..]. split_and!; [destruct Hs; by split|done|].
    rewrite Hc. by apply accounts_refl. }
  specialize (Hk k eq_refl).
  destruct (produce_buffer _ _ _ _ _ _ w1) as [w2 r2] eqn:E2. apply produce_buffer_spec in E2.
  rewrite Hc, Hk in E2. cbn [settle_all]. intros [= <- <- <-]. split_and!; [|by intros -> |done..].
  split_and!; [|done|].
  - destruct Hs. split; try done; cbn; [by intros ? [= <-]|by destruct (is_ok r2)].
  - rewrite E2. destruct r2 as [u|e]; cbn [is_ok].
    + change (ks_profiles_topic s) with (kafka_topic s RkCollectionProfile false).
      apply (accounts_deliver _ _ _ _ _ _ false); [done|done|].
      unfold kafka_held. cbn. rewrite app_nil_r.
      by rewrite (Permutation_app_comm (of_kind RkCollectionProfile _)), (assoc_L (++)).
    + rewrite app_nil_r. by apply accounts_refl.
Qed.

(** *** Operations *)

Definition kafka_stream s (k : RecordKind) : list Bytes :=
  pb_entries (match k with
              | RkDevice => ks_buffer s
              | RkLink => ks_links_buffer s
              | RkCollectionProfile => ks_profiles_buffer s
              end).

(** Pushing a record onto its stream, with the flag cleared. *)
Definition kafka_push (k : RecordKind) (data : Bytes) s : KafkaSink :=
  let s := kset_delivered false s in
  match k with
  | RkDevice => kset_buffer (pending_push data (ks_buffer s)) s
  | RkLink => kset_links (ks_links_client s) (pending_push data (ks_links_buffer s)) s
  | RkCollectionProfile =>
      kset_profiles (ks_profiles_client s) (pending_push data (ks_profiles_buffer s)) s
  end.

Lemma kafka_push_step k data s w : kafka_wf s → kafka_step [(k, data)] s w (kafka_push k data s) w.
Proof using Type.
  intros Hs. pose proof (kw_count _ Hs). split_and!.
  - destruct k, Hs; split; cbn; auto with rastreo.
  - by destruct k.
  - assert (ks_dlq_delivered (kafka_push k data s) = ks_dlq_delivered s) as -> by by destruct k.
    apply accounts_move; [done|]. unfold kafka_held.
    destruct k; cbn; unfold of_kind; rewrite fmap_app; cbn; solve_Permutation.
Qed.

(** Publishing once the threshold is reached. *)
Lemma kafka_publish_at_threshold_step k publish s w s' w' r :
  (∀ s w s' w' r, kafka_wf s → publish s w = (s', w', r) →
     kafka_step [] s w s' w' ∧ (r = Ok tt → kafka_stream s' k = []) ∧
     ks_last_write_delivered s' = ks_last_write_delivered s) →
  kafka_wf s → ks_last_write_delivered s = false → ∀ b,
  kafka_publish_at_threshold b publish s w = (s', w', r) →
  kafka_step [] s w s' w' ∧ (ks_last_write_delivered s' = true → kafka_stream s' k = []).
Proof using Type.
  intros Hp Hs Hd b. unfold kafka_publish_at_threshold. destruct (reached_threshold _ _).
  - destruct (publish s w) as [[s1 w1] [u|e]] eqn:E; apply Hp in E as (Hstep & Hem & Hf);
      [|done|..|done]; intros [= <- <- <-].
    + destruct u. split; [|intros _; specialize (Hem eq_refl); by destruct k].
      destruct Hstep as (Hw & ? & ?). split_and!; [|done|done]. destruct Hw; by split.
    + split; [done|congruence].
  - intros [= <- <- <-]. split; [by apply kafka_step_refl|congruence].
Qed.

Lemma kafka_write_kind_step k data s w s' w' r :
  kafka_wf s → kafka_write_kind k data s w = (s', w', r) →
  kafka_step [(k, data)] s w s' w' ∧
  (ks_last_write_delivered s' = true → kafka_stream s' k = []).
Proof using Type.
  intros Hs E. pose proof (kafka_push_step k data s w Hs) as Hpush.
  assert (kafka_step [] (kafka_push k data s) w s' w' ∧
    (ks_last_write_delivered s' = true → kafka_stream s' k = [])) as [Hpub Hd].
  { destruct k; cbn in E; unfold kafka_write, kafka_write_link, kafka_write_profile in E;
      (eapply kafka_publish_at_threshold_step; [|exact (proj1 Hpush)|done|exact E]);
      clear; intros s w s' w' r Hs E.
    - apply kafka_publish_buffer_step in E; naive_solver.
    - apply kafka_publish_links_step in E; naive_solver.
    - apply kafka_publish_profiles_step in E; naive_solver. }
  split; [|done]. exact (kafka_step_trans _ _ _ _ _ _ _ _ Hpush Hpub).
Qed.

Lemma kafka_flush_step s w s' w' r :
  kafka_wf s → kafka_flush s w = (s', w', r) →
  kafka_step [] s w s' w' ∧ ks_last_write_delivered s' = is_ok r ∧
  (r = Ok tt → kafka_held s' = []).
Proof using Type.
  intros Hs. unfold kafka_flush.
  destruct (kafka_publish_buffer s w) as [[s1 w1] r1] eqn:E1.
  apply kafka_publish_buffer_step in E1 as (St1 & Em1 & Hl1 & Hp1 & _); [|done].
  destruct (kafka_publish_links_buffer s1 w1) as [[s2 w2] r2] eqn:E2.
  apply kafka_publish_links_step in E2 as (St2 & Em2 & Hb2 & Hp2 & _); [|apply St1].
  destruct (kafka_publish_profiles_buffer s2 w2) as [[s3 w3] r3] eqn:E3.
  apply kafka_publish_profiles_step in E3 as (St3 & Em3 & Hb3 & Hl3 & _); [|apply St2].
  intros [= <- <- <-]. split_and!; [|done|].
  - pose proof (kafka_step_trans _ _ _ _ _ _ _ _
      (kafka_step_trans _ _ _ _ _ _ _ _ St1 St2) St3) as (Hw & ? & ?).
    split_and!; [|done|done]. destruct Hw; by split.
  - destruct r1 as [[]|], r2 as [[]|], r3 as [[]|]; try done. intros _. unfold kafka_held. cbn.
    rewrite Em3, Hl3, Em2, Hb3, Hb2, Em1 by done. done.
Qed.

(** Running a history. *)
Definition kafka_op (op : SinkOp) s w : KafkaSink * W * Result RastreoError unit :=
  match op with OpWrite k data => kafka_write_kind k data s w | OpFlush => kafka_flush s w end.

Definition kafka_run (ops : list SinkOp) s w : KafkaSink * W * list (Result RastreoError unit) :=
  foldl (λ acc op, let '(s, w, rs) := acc in
                   let '(s, w, r) := kafka_op op s w in (s, w, rs ++ [r])) (s, w, []) ops.

Lemma kafka_create_wf brokers topic links profiles mode dlq tls sasl retry w w' s :
  kafka_create brokers topic links profiles mode dlq tls sasl retry w = (w', Ok s) →
  kafka_wf s ∧ kafka_held s = [] ∧ ks_dlq_delivered s = 0 ∧ ks_last_write_delivered s = false.
Proof using Type.
  unfold kafka_create, kafka_new.
  destruct (match tls with Some _ => _ | None => _ end) as [tc|e]; [|done].
  destruct (connect_bounded _ _ _ _ _ _ w) as [w1 [c|e]] eqn:E1; [|done].
  apply connect_bounded_spec in E1 as [_ Hc]. specialize (Hc c eq_refl).
  cbn [mbind Result_bind]. destruct dlq as [dlq|].
  - unfold kafka_with_dead_letter. destruct (dead_letter_validate dlq); [|done].
    destruct (connect_bounded _ _ _ _ _ _ w1) as [w2 [c2|e]] eqn:E2; [|done].
    apply connect_bounded_spec in E2 as [_ Hc2]. specialize (Hc2 c2 eq_refl).
    cbn [mbind Result_bind]. intros [= <- <-]. split_and!; [|done..].
    split; cbn; try done. by intros ? ? [= <-] [= <-].
  - intros [= <- <-]. split_and!; [|done..]. split; cbn; done.
Qed.

(** A history accounts for its writes, and the flag speaks for its last one. *)
Lemma kafka_run_steps ops s w s' w' rs :
  kafka_wf s → ks_last_write_delivered s = false → kafka_run ops s w = (s', w', rs) →
  kafka_step (written ops) s w s' w' ∧ length rs = length ops ∧
  (∀ k, last_kind ops None = Some k → ks_last_write_delivered s' = true → kafka_stream s' k = []) ∧
  (last ops = Some OpFlush → last rs = Some (Ok tt) → kafka_held s' = []).
Proof using Type.
  intros Hs Hd. revert s' w' rs. induction ops as [|op ops IH] using rev_ind; intros s' w' rs.
  { intros [= <- <- <-]. split_and!; [by apply kafka_step_refl|done|done|done]. }
  unfold kafka_run. rewrite foldl_app. fold (kafka_run ops s w).
  destruct (kafka_run ops s w) as [[s1 w1] rs1]. cbn [foldl].
  destruct (IH s1 w1 rs1 eq_refl) as (St & Hlen & Hflag & _).
  destruct (kafka_op op s1 w1) as [[s2 w2] r] eqn:E. intros [= <- <- <-].
  rewrite written_snoc, !length_app, Hlen, last_kind_snoc, !last_snoc. destruct op as [k data|]; cbn in E.
  - apply kafka_write_kind_step in E as [St2 Hf2]; [|apply St].
    split_and!; [by eapply kafka_step_trans|done| |done]. by intros ? [= <-].
  - apply kafka_flush_step in E as (St2 & Hf2 & Hem); [|apply St].
    split_and!; [by eapply kafka_step_trans|done| |].
    + intros k _ Hdel. rewrite Hf2 in Hdel. destruct r as [[]|]; [|done].
      specialize (Hem eq_refl). unfold kafka_held in Hem. apply app_eq_nil in Hem as [H1 Hem].
      apply app_eq_nil in Hem as [H2 H3].
      by destruct k; [apply fmap_nil_inv in H1|apply fmap_nil_inv in H2|apply fmap_nil_inv in H3].
    + intros _ [= ->]. by apply Hem.
Qed.

(** C8. A Kafka sink loses no record and acknowledges none twice: after any
    history of writes to its three streams and flushes, failed ones included,
    the records written are exactly those the cluster acknowledged, each at the
    topic of its stream or, for device records only, at the dead-letter topic,
    together with those still buffered; the dead-letter counter counts the
    quarantined ones. A flush that succeeds leaves nothing buffered, and while
    the sink reports its last write delivered, no record of that write's stream
    is still buffered. *)
Theorem kafka_no_loss brokers topic links profiles mode dlq tls sasl retry w w0 s ops s' w' rs
    (Hcreate : kafka_create brokers topic links profiles mode dlq tls sasl retry w = (w0, Ok s))
    (Hrun : kafka_run ops s w0 = (s', w', rs)) :
  (∃ d, confirmed w' = confirmed w0 ++ sent (kafka_topic s) d ∧
     records d ++ kafka_held s' ≡ₚ written ops ∧
     dead_devices d ∧ ks_dlq_delivered s' = wrap 64 (dead_count d)) ∧
  (last ops = Some OpFlush → last rs = Some (Ok tt) → kafka_held s' = []) ∧
  (∀ k, last_kind ops None = Some k → ks_last_write_delivered s' = true → kafka_stream s' k = []).
Proof using Type.
  apply kafka_create_wf in Hcreate as (Hwf & Hheld & Hcount & Hflag).
  apply kafka_run_steps in Hrun as ((_ & _ & d & ? & HP & ? & Hn) & _ & ? & ?); [|done|done].
  split_and!; [|done|done]. exists d. rewrite Hheld, app_nil_r in HP. rewrite Hcount in Hn. done.
Qed.
End kafka.

(** ** Witness *)

(** A cluster that acknowledges the batches of the topics it has, at once. *)
#[local] Existing Instance sample_errors.
#[local] Instance text_io : IoErrors := {|
  io_error_new _ _ := 1%nat; io_error_kind _ := OtherIo; io_error_display _ := [];
|}.

(** The world: the acknowledged records, and the topics that refuse records. *)
Abbreviation SampleWorld := (list (Str * Bytes) * list Str)%type.

#[local] Instance sample_sleep : Sleep SampleWorld := λ _ w, w.
#[local] Instance sample_timeout : Timeout SampleWorld :=
  λ A _ f w, let '(w, a) := f w in (w, Some a).
#[local] Instance sample_kafka : KafkaLib SampleWorld := {|
  KafkaClient := unit; PartitionClient := Str; ClientConfig := unit; KafkaError := unit;
  DateTime := unit; Certificate := unit; RootStore := unit;
  kafka_error_display _ := []; utc_now _ := tt; to_rfc3339 _ := [];
  pem_certificates _ := Ok []; webpki_roots := tt; add_parsable_certificates _ _ := (tt, 1);
  verifying_config _ := tt; accept_any_config := tt;
  client_build _ _ _ w := (w, Ok tt);
  client_partition _ topic _ w := (w, Ok topic);
  produce c recs w :=
    if decide (c ∈ w.2) then (w, Err tt)
    else ((w.1 ++ ((λ r, (c, r.1.1)) <$> recs), w.2), Ok tt);
  get_offset _ w := (w, Ok 0);
|}.

#[local] Instance sample_kafka_laws : KafkaLaws sample_sleep sample_timeout sample_kafka.
Proof.
  refine (Build_KafkaLaws _ _ _ _ sample_kafka (λ c : Str, c) fst _ _ _ _ _ _ _ _); try done.
  - intros k topic p w w' c [= _ ->]. done.
  - intros c recs w w' u. cbn. case_decide; [done|]. by intros [= <- _].
  - intros c recs w w' e. cbn. case_decide; [|done]. by intros [= <- _].
  - intros A n f w H. unfold timeout_secs, sample_timeout. specialize (H w). by destruct (f w).
  - intros A n f w a. unfold timeout_secs, sample_timeout. destruct (f w) eqn:E.
    intros [= <-]. exists w. by rewrite E.
Defined.

(** Two device records and a link, the device topic being down: the flush
    dead-letters the device records. *)
Definition sample_ops : list SinkOp :=
  [OpWrite RkDevice [1]; OpWrite RkLink [2]; OpWrite RkDevice [3]; OpFlush].

Lemma kafka_no_loss_witness :
  ∃ w0 s s' w' rs,
    kafka_create [] [100] None None (KafkaBatched 10)
      (Some (mkDeadLetterConfig [101] false)) None None sink_retry_default ([], [[100]]) = (w0, Ok s) ∧
    kafka_run sample_ops s w0 = (s', w', rs) ∧ kafka_held s' = [] ∧ ks_dlq_delivered s' = 2.
Proof.
  destruct (kafka_create [] [100] None None (KafkaBatched 10)
    (Some (mkDeadLetterConfig [101] false)) None None sink_retry_default ([], [[100]]))
    as [w0 [s|e]] eqn:Ec; [|by vm_compute in Ec].
  destruct (kafka_run sample_ops s w0) as [[s' w'] rs] eqn:Er.
  exists w0, s, s', w', rs. split; [done|]. split; [done|].
  destruct (kafka_no_loss _ _ _ _ _ _ _ _ _ _ _ _ _ _ _ _ Ec Er) as (_ & Hflush & _).
  vm_compute in Ec. injection Ec as <- <-. vm_compute in Er. injection Er as <- <- <-.
  split; [by apply Hflush|done].
Defined.
