(* ===== verification/NatsTheorems.v ===== *)
(** * The NATS sink loses nothing, and its loops end

    The accounting of the Kafka sink, with records whose acknowledgement is
    still awaited counted as held; every operation returns. *)

From S2P Require Import Prelude Net Sink SinkTheorems Nats BrokerFacts.

(** What is assumed of the client: the acknowledgement of a publish stands for
    that publish's message, and [acked], what the server acknowledged, grows by
    one message exactly when one is awaited successfully. *)
Class NatsLaws {W : Type} `{FE : ForeignErrors} (SL : Sleep W) (NL : NatsLib W) := {
  acked : W → list (Str * Bytes);
  ack_message : AckFuture → Str * Bytes;
  publish_message ctx subject headers payload w w' a :
    publish ctx subject headers payload w = (w', Ok a) → ack_message a = (subject, payload);
  publish_acked ctx subject headers payload w :
    acked (publish ctx subject headers payload w).1 = acked w;
  await_ok a w w' u : await_ack a w = (w', Ok u) → acked w' = acked w ++ [ack_message a];
  await_err a w w' e : await_ack a w = (w', Err e) → acked w' = acked w;
  nats_sleep_acked d w : acked (sleep_ms d w) = acked w;
}.

Section nats.
Context {W : Type} `{FE : ForeignErrors} {IE : IoErrors} {SL : Sleep W}
  {NL : NatsLib W} {LAWS : NatsLaws SL NL}.
Implicit Types (s : NatsSink) (w : W).

Definition nats_topic s (k : RecordKind) (dead : bool) : Str :=
  match k with
  | RkDevice => if dead then default [] (ns_dlq_subject s) else ns_subject s
  | RkLink => ns_links_subject s
  | RkCollectionProfile => ns_profiles_subject s
  end.

(** Buffered or awaiting an acknowledgement. *)
Definition nats_held s : Records :=
  of_kind RkDevice (pb_entries (ns_buffer s)) ++
  of_kind RkDevice (ns_pending_acks s).*1 ++
  of_kind RkLink (pb_entries (ns_links_buffer s)) ++
  of_kind RkCollectionProfile (pb_entries (ns_profiles_buffer s)).

(** Dead-lettered records over all classes, at the width of the counters. *)
Definition class_total (f : SinkErrorClass → Z) : Z :=
  foldr (λ c acc, f c + acc) 0 sink_error_class_all.
Definition nats_count s : Z := wrap 64 (class_total (ns_dlq_delivered s)).

Record nats_wf s : Prop := {
  nw_pending : Forall (λ p, ack_message p.2 = (ns_subject s, p.1)) (ns_pending_acks s);
  nw_buffer : pending_wf (ns_buffer s);
  nw_links : pending_wf (ns_links_buffer s);
  nw_profiles : pending_wf (ns_profiles_buffer s);
}.

Definition nats_conf s :=
  (ns_subject s, ns_dlq_subject s, ns_links_subject s, ns_profiles_subject s, ns_buffer_threshold s).

Definition nats_step (new : Records) s w s' w' : Prop :=
  nats_wf s' ∧ nats_conf s' = nats_conf s ∧
  accounts (nats_topic s) new (acked w) (acked w') (nats_held s) (nats_held s')
    (nats_count s) (nats_count s').

Lemma nats_count_range s : 0 ≤ nats_count s < 2 ^ 64.
Proof using Type. unfold nats_count, wrap. apply Z.mod_pos_bound. lia. Qed.

Lemma nats_topic_conf s s' k dead :
  nats_conf s' = nats_conf s → nats_topic s' k dead = nats_topic s k dead.
Proof using Type. intros [= ? ? ? ? ?]. by destruct k, dead; cbn; congruence. Qed.

Lemma nats_step_refl s w : nats_wf s → nats_step [] s w s w.
Proof using Type. intros Hs. split_and!; [done|done|]. apply accounts_refl, nats_count_range. Qed.

Lemma nats_step_trans new1 new2 s1 w1 s2 w2 s3 w3 :
  nats_step new1 s1 w1 s2 w2 → nats_step new2 s2 w2 s3 w3 →
  nats_step (new1 ++ new2) s1 w1 s3 w3.
Proof using Type.
  intros (? & C1 & A1) (? & C2 & A2). split_and!; [done|congruence|].
  eapply accounts_trans; [exact A1|]. eapply accounts_topic_ext; [|exact A2].
  intros. by apply nats_topic_conf.
Qed.

(** ** Quarantine *)

Lemma credit_dlq_count class s : nats_count (credit_dlq class s) = wrap 64 (nats_count s + 1).
Proof using Type.
  unfold nats_count. cbn [credit_dlq nats_set ns_dlq_delivered]. unfold wrap.
  rewrite Zplus_mod_idemp_l. generalize (ns_dlq_delivered s). intros f.
  assert (∀ l, NoDup l → foldr (λ c acc, (if decide (c = class) then (f c + 1) mod 2 ^ 64 else f c) + acc) 0 l mod 2 ^ 64
    = (foldr (λ c acc, f c + acc) 0 l + if decide (class ∈ l) then 1 else 0) mod 2 ^ 64) as H.
  { induction 1 as [|c l Hc _ IH]; [done|]. cbn [foldr].
    rewrite <-Zplus_mod_idemp_r, IH, Zplus_mod_idemp_r.
    destruct (decide (c = class)) as [->|Hne].
    - rewrite (decide_False (P := class ∈ l)), (decide_True (P := class ∈ class :: l)) by (done || by left).
      rewrite Zplus_mod_idemp_l. f_equal. lia.
    - assert (class ∈ c :: l ↔ class ∈ l) as Hiff by (rewrite elem_of_cons; naive_solver).
      rewrite (decide_ext _ _ 1 0 Hiff). f_equal. lia. }
  specialize (H sink_error_class_all). rewrite decide_True in H by (destruct class; set_solver).
  apply H. repeat constructor; set_solver.
Qed.

Lemma quarantine_spec payload class s w s' w' q :
  quarantine payload class s w = (s', w', q) →
  if q then s' = credit_dlq class s ∧ acked w' = acked w ++ [(nats_topic s RkDevice true, payload)]
  else s' = s ∧ acked w' = acked w.
Proof using Type.
  unfold quarantine. cbn [nats_topic]. destruct (ns_dlq_subject s) as [t|]; [|by intros [= <- <- <-]].
  cbn [default]. destruct (publish _ _ _ _ w) as [w1 [a|e]] eqn:Ep.
  - pose proof (publish_message _ _ _ _ _ _ _ Ep) as Ha.
    pose proof (publish_acked (ns_ctx s) t (if ns_include_error_metadata s
      then Some (nats_build_dlq_headers (ns_subject s) class w) else None) payload w) as Hw.
    rewrite Ep in Hw. cbn in Hw.
    destruct (await_ack a w1) as [w2 [u|e]] eqn:Ea; intros [= <- <- <-]; (split; [done|]).
    + rewrite (await_ok _ _ _ _ Ea), Ha, Hw. done.
    + by rewrite (await_err _ _ _ _ Ea), Hw.
  - intros [= <- <- <-]. split; [done|].
    pose proof (publish_acked (ns_ctx s) t (if ns_include_error_metadata s
      then Some (nats_build_dlq_headers (ns_subject s) class w) else None) payload w) as Hw.
    by rewrite Ep in Hw.
Qed.

(** Only the counters changed. *)
Definition nats_same s s' : Prop :=
  s' = nats_set s (ns_buffer s) (ns_pending_acks s) (ns_last_write_delivered s) (ns_dlq_delivered s')
         (ns_links_buffer s) (ns_profiles_buffer s).

Lemma nats_same_credit class s s' : nats_same s s' → nats_same s (credit_dlq class s').
Proof using Type. unfold nats_same. intros ->. done. Qed.

(** ** Draining *)

Lemma drain_loop_spec pending unacked fe s w s' w' unacked' fe' :
  Forall (λ p, ack_message p.2 = (ns_subject s, p.1)) pending → pending_wf unacked →
  drain_loop pending unacked fe s w = (s', w', unacked', fe') →
  nats_same s s' ∧ pending_wf unacked' ∧ (fe' = None → unacked' = unacked ∧ fe = None) ∧
  ∀ H, accounts (nats_topic s) [] (acked w) (acked w')
    (of_kind RkDevice pending.*1 ++ of_kind RkDevice (pb_entries unacked) ++ H)
    (of_kind RkDevice (pb_entries unacked') ++ H) (nats_count s) (nats_count s').
Proof using Type.
  revert unacked fe s w. induction pending as [|[payload a] pending IH];
    intros unacked fe s w Hp Hu.
  { intros [= <- <- <- <-]. split_and!; [by destruct s|done|done|].
    intros H. apply accounts_refl, nats_count_range. }
  apply Forall_cons in Hp as [Ha Hp]. cbn in Ha. cbn [drain_loop].
  destruct (await_ack a w) as [w1 [u|e]] eqn:Ea.
  - intros E. destruct (IH _ _ _ _ Hp Hu E) as (Hs & Hu' & Hfe & HA).
    split_and!; [done|done|done|]. intros H.
    apply (accounts_trans _ [] [] _ (acked w1) _ _
      (of_kind RkDevice pending.*1 ++ of_kind RkDevice (pb_entries unacked) ++ H) _ _ (nats_count s));
      [|apply HA].
    rewrite (await_ok _ _ _ _ Ea), Ha. change (ns_subject s) with (nats_topic s RkDevice false).
    apply (accounts_deliver _ _ _ _ _ RkDevice false [payload]); [apply nats_count_range|done|].
    done.
  - apply await_err in Ea.
    destruct (quarantine payload AckRejection s w1) as [[s1 w2] q] eqn:Eq.
    apply quarantine_spec in Eq. destruct q.
    + destruct Eq as [-> Hw2]. intros E.
      destruct (IH _ _ (credit_dlq AckRejection s) _ Hp Hu E) as (Hs & Hu' & Hfe & HA).
      split_and!; [|done|done|].
      { unfold nats_same in *. by rewrite Hs. }
      intros H. apply (accounts_trans _ [] [] _ (acked w2) _ _
        (of_kind RkDevice pending.*1 ++ of_kind RkDevice (pb_entries unacked) ++ H) _ _
        (nats_count (credit_dlq AckRejection s))); [|apply HA].
      rewrite Hw2, Ea, credit_dlq_count.
      apply (accounts_deliver _ _ _ _ _ RkDevice true [payload]); [apply nats_count_range|done|done].
    + destruct Eq as [-> Hw2]. intros E.
      destruct (IH _ _ s _ Hp (pending_push_wf payload _ Hu) E) as (Hs & Hu' & Hfe & HA).
      split_and!; [done|done| |].
      { intros Hn. destruct (Hfe Hn) as [_ ?]. by destruct fe. }
      intros H. rewrite Hw2, Ea in HA.
      apply (accounts_trans _ [] [] _ (acked w) _ _
        (of_kind RkDevice pending.*1 ++
         of_kind RkDevice (pb_entries (pending_push payload unacked)) ++ H) _ _ (nats_count s));
        [|apply HA].
      apply accounts_move; [apply nats_count_range|].
      cbn. unfold of_kind. rewrite fmap_app. cbn. solve_Permutation.
Qed.

Lemma drain_pending_acks_step s w s' w' r :
  nats_wf s → drain_pending_acks s w = (s', w', r) →
  nats_step [] s w s' w' ∧ ns_pending_acks s' = [] ∧
  (r = Ok tt → ns_buffer s' = ns_buffer s) ∧ ns_links_buffer s' = ns_links_buffer s ∧
  ns_profiles_buffer s' = ns_profiles_buffer s ∧
  ns_last_write_delivered s' = ns_last_write_delivered s.
Proof using Type.
  intros Hs. unfold drain_pending_acks. destruct (is_empty (ns_pending_acks s)) eqn:Hem.
  { intros [= <- <- <-]. apply is_empty_true in Hem.
    split_and!; [by apply nats_step_refl|done..]. }
  destruct (drain_loop _ _ _ _ _) as [[[s1 w1] un] fe] eqn:E. intros [= <- <- <-].
  apply drain_loop_spec in E as (Hsame & Hun & Hfe & HA); [|apply Hs|done].
  cbn [ns_subject nset_pending nats_set] in *. unfold nats_same in Hsame. rewrite Hsame.
  split_and!; [|done| |done..].
  - split_and!; [|done|].
    + destruct Hs. split; cbn; [constructor|auto with rastreo|done|done].
    + specialize (HA (of_kind RkDevice (pb_entries (ns_buffer s)) ++
        of_kind RkLink (pb_entries (ns_links_buffer s)) ++
        of_kind RkCollectionProfile (pb_entries (ns_profiles_buffer s)))).
      eapply accounts_topic_ext in HA; [|intros; apply (nats_topic_conf s); done].
      destruct HA as (d & Hc & HP & Hd & Hn). exists d. split_and!; [done| |done|].
      * unfold nats_held. cbn -[restore_front]. rewrite restore_front_entries, of_kind_app. cbn in HP.
        rewrite <-(assoc_L (++)), HP. unfold of_kind. solve_Permutation.
      * rewrite <-Hsame. exact Hn.
  - destruct fe; [done|]. intros _. destruct (Hfe eq_refl) as [-> _]. done.
Qed.

(** ** Publishing *)

(** A retried publish: the acknowledgement it returns is for the payload, and
    nothing was acknowledged meanwhile. *)
Lemma retried_publish retry ctx subject servers payload w w' r :
  retry_with_backoff retry
    (λ w, let '(w, r) := publish ctx subject None payload w in
          (w, map_err (build_publish_error subject servers) r)) w = (w', r) →
  acked w' = acked w ∧ ∀ a, r = Ok a → ack_message a = (subject, payload).
Proof using Type.
  intros E. apply (retry_observed acked) in E.
  - destruct r as [a|e]; [|done]. destruct E as (w0 & <- & E).
    pose proof (publish_acked ctx subject None payload w0) as Hw.
    destruct (publish ctx subject None payload w0) as [w1 [a'|e]] eqn:Ep; [|done].
    cbn in E. injection E as <- <-. split; [done|]. intros ? [= <-]. by eapply publish_message.
  - apply nats_sleep_acked.
  - intros w0 e _. pose proof (publish_acked ctx subject None payload w0) as Hw.
    by destruct (publish ctx subject None payload w0).
Qed.

(** What one stream's publishing leaves alone. *)
Definition nats_others s s' : Prop :=
  ns_links_buffer s' = ns_links_buffer s ∧ ns_profiles_buffer s' = ns_profiles_buffer s ∧
  ns_last_write_delivered s' = ns_last_write_delivered s.

Lemma nats_others_trans s1 s2 s3 : nats_others s1 s2 → nats_others s2 s3 → nats_others s1 s3.
Proof using Type. unfold nats_others. intuition congruence. Qed.

(** The head of the buffer moves to the records awaiting acknowledgement. *)
Lemma published_step s w w1 payload rest a :
  nats_wf s → pb_entries (ns_buffer s) = payload :: rest → acked w1 = acked w →
  ack_message a = (ns_subject s, payload) →
  let s1 := nset_buffer (settle_front (Ok a : Result RastreoError AckFuture) (ns_buffer s)).1 s in
  nats_step [] s w (nset_pending (ns_pending_acks s1 ++ [(payload, a)]) s1) w1.
Proof using Type.
  intros Hs He Hw Ha. cbv zeta. split_and!; [|done|].
  - destruct Hs as [Hp Hb Hl Hr]. split; [|by apply settle_front_wf|done|done].
    apply Forall_app. split; [done|]. constructor; [done|constructor].
  - rewrite Hw. apply accounts_move; [apply nats_count_range|]. unfold nats_held. cbn.
    rewrite He. cbn. unfold of_kind. rewrite !fmap_app. cbn. solve_Permutation.
Qed.

(** The head of the buffer went to the dead-letter subject. *)
Lemma quarantined_step s w w1 payload rest class :
  nats_wf s → pb_entries (ns_buffer s) = payload :: rest →
  acked w1 = acked w ++ [(nats_topic s RkDevice true, payload)] →
  nats_step [] s w
    (nset_buffer (settle_front (Ok tt : Result RastreoError unit) (ns_buffer s)).1
       (credit_dlq class s)) w1.
Proof using Type.
  intros Hs He Hw. split_and!; [|done|].
  - destruct Hs as [Hp Hb Hl Hr]. split; [done|by apply settle_front_wf|done|done].
  - rewrite Hw. change (nats_count (nset_buffer ?b (credit_dlq class s)))
      with (nats_count (credit_dlq class s)). rewrite credit_dlq_count.
    apply (accounts_deliver _ _ _ _ _ RkDevice true [payload]); [apply nats_count_range|done|].
    unfold nats_held. cbn. rewrite He. done.
Qed.

Lemma nats_publish_loop_step fuel s w :
  nats_wf s → (length (pb_entries (ns_buffer s)) < fuel)%nat →
  ∃ s' w' r, nats_publish_loop fuel s w = Some (s', w', r) ∧ nats_step [] s w s' w' ∧
    (r = Ok tt → pb_entries (ns_buffer s') = []) ∧ nats_others s s'.
Proof using Type.
  revert s w. induction fuel as [|fuel IH]; intros s w Hs Hf; [lia|]. cbn [nats_publish_loop].
  assert (∀ s1 w1, nats_step [] s w s1 w1 → nats_others s s1 →
    (length (pb_entries (ns_buffer s1)) < fuel)%nat →
    ∃ s' w' r, nats_publish_loop fuel s1 w1 = Some (s', w', r) ∧ nats_step [] s w s' w' ∧
      (r = Ok tt → pb_entries (ns_buffer s') = []) ∧ nats_others s s') as Hnext.
  { intros s1 w1 St Ho Hl. destruct (IH s1 w1 (proj1 St) Hl) as (s' & w' & r & E & St' & Hem & Ho').
    exists s', w', r. split_and!; [done| |done|by eapply nats_others_trans].
    exact (nats_step_trans _ _ _ _ _ _ _ _ St St'). }
  unfold pending_front. destruct (pb_entries (ns_buffer s)) as [|payload rest] eqn:He; cbn [head].
  { exists s, w, (Ok tt). split_and!; [done|by apply nats_step_refl|done|done]. }
  cbn in Hf. destruct (retry_with_backoff _ _ w) as [w1 pr] eqn:Ep.
  apply retried_publish in Ep as [Hw1 Ha]. destruct pr as [a|e].
  - pose proof (published_step s w w1 payload rest a Hs He Hw1 (Ha a eq_refl)) as St1. cbv zeta in St1.
    cbn [settle_front is_ok fst] in *. rewrite He in *. cbv zeta.
    set (s1 := nset_pending _ _) in *.
    assert (nats_others s s1) as Ho1 by done.
    assert (pb_entries (ns_buffer s1) = rest) as Hl1 by done.
    destruct (should_drain_pending_acks _); [|apply (Hnext s1 w1 St1 Ho1); rewrite Hl1; lia].
    destruct (drain_pending_acks s1 w1) as [[s2 w2] [u|e]] eqn:Ed;
      apply drain_pending_acks_step in Ed as (St2 & _ & Hb & H1 & H2 & H3);
      [|apply St1|..|apply St1].
    + apply Hnext; [exact (nats_step_trans _ _ _ _ _ _ _ _ St1 St2)|
        eapply nats_others_trans; [exact Ho1|by split_and!]|].
      rewrite Hb by (by destruct u). rewrite Hl1. lia.
    + exists s2, w2, (Err e). split_and!; [done|exact (nats_step_trans _ _ _ _ _ _ _ _ St1 St2)|done|].
      eapply nats_others_trans; [exact Ho1|by split_and!].
  - cbn [settle_front is_ok]. cbv zeta.
    replace (nset_buffer (ns_buffer s) s) with s by (by destruct s).
    destruct (quarantine payload PublishFailure s w1) as [[s1 w2] q] eqn:Eq.
    apply quarantine_spec in Eq. destruct q; destruct Eq as [-> Hw2].
    + pose proof (quarantined_step s w w2 payload rest PublishFailure Hs He
        ltac:(by rewrite Hw2, Hw1)) as St1.
      cbn [settle_front is_ok fst ns_buffer credit_dlq nats_set] in *. rewrite He in *.
      apply (Hnext _ w2 St1); [done|]. cbn. lia.
    + cbn [settle_front is_ok]. exists s, w2, (Err e).
      split_and!; [by destruct s| |done|done].
      split_and!; [done|done|]. rewrite Hw2, Hw1. apply accounts_refl, nats_count_range.
Qed.

Lemma nats_publish_buffer_step s w :
  nats_wf s → ∃ s' w' r, nats_publish_buffer s w = Some (s', w', r) ∧ nats_step [] s w s' w' ∧
    (r = Ok tt → pb_entries (ns_buffer s') = []) ∧ nats_others s s'.
Proof using Type.
  intros Hs. unfold nats_publish_buffer. destruct (pending_is_empty (ns_buffer s)) eqn:Hem.
  - exists s, w, (Ok tt). apply is_empty_true in Hem.
    split_and!; [done|by apply nats_step_refl|done|done].
  - apply nats_publish_loop_step; [done|lia].
Qed.

Lemma publish_and_drain_step s w :
  nats_wf s → ∃ s' w' r, publish_and_drain s w = Some (s', w', r) ∧ nats_step [] s w s' w' ∧
    ns_pending_acks s' = [] ∧ (r = Ok tt → pb_entries (ns_buffer s') = []) ∧ nats_others s s'.
Proof using Type.
  intros Hs. unfold publish_and_drain.
  destruct (nats_publish_buffer_step s w Hs) as (s1 & w1 & r1 & -> & St1 & Hem1 & Ho1).
  cbn [mbind option_bind]. destruct (drain_pending_acks s1 w1) as [[s2 w2] r2] eqn:Ed.
  apply drain_pending_acks_step in Ed as (St2 & Hp & Hb & H1 & H2 & H3); [|apply St1].
  eexists s2, w2, _. split; [done|]. split_and!; [|done| |].
  - exact (nats_step_trans _ _ _ _ _ _ _ _ St1 St2).
  - destruct r1 as [[]|], r2 as [[]|]; try done. intros _. rewrite Hb by done. by apply Hem1.
  - eapply nats_others_trans; [exact Ho1|by split_and!].
Qed.

(** The streams whose acknowledgements are awaited one by one. *)
Lemma publish_stream_loop_step fuel ctx retry servers subject k b w :
  pending_wf b → (length (pb_entries b) < fuel)%nat →
  ∃ b' w' r, publish_stream_loop fuel ctx retry servers subject b w = Some (b', w', r) ∧
    pending_wf b' ∧ (r = Ok tt → pb_entries b' = []) ∧
    ∀ topic n, topic k false = subject → 0 ≤ n < 2 ^ 64 → ∀ H,
      accounts topic [] (acked w) (acked w') (of_kind k (pb_entries b) ++ H)
        (of_kind k (pb_entries b') ++ H) n n.
Proof using Type.
  revert b w. induction fuel as [|fuel IH]; intros b w Hb Hf; [lia|]. cbn [publish_stream_loop].
  unfold pending_front. destruct (pb_entries b) as [|payload rest] eqn:He; cbn [head].
  { exists b, w, (Ok tt). rewrite He. split_and!; [done..|]. intros. by apply accounts_refl. }
  cbn in Hf. destruct (retry_with_backoff _ _ w) as [w1 pr] eqn:Ep.
  apply retried_publish in Ep as [Hw1 Ha]. destruct pr as [a|e]; last first.
  { exists b, w1, (Err e). rewrite He, Hw1. split_and!; [done..|]. intros. by apply accounts_refl. }
  specialize (Ha a eq_refl). destruct (await_ack a w1) as [w2 [u|e]] eqn:Ea;
    cbn [settle_front map_err is_ok].
  - rewrite He. pose proof (settle_front_wf (Ok tt : Result RastreoError unit) b Hb) as Hb1.
    cbn [settle_front is_ok fst] in Hb1. rewrite He in Hb1.
    destruct (IH _ w2 Hb1) as (b' & w' & r & E & Hwf & Hem & HA); [cbn; lia|].
    exists b', w', r. split_and!; [done..|]. intros topic n Ht Hn H.
    apply (accounts_trans _ [] [] _ (acked w2) _ _ (of_kind k rest ++ H) _ _ n); [|by apply HA].
    rewrite (await_ok _ _ _ _ Ea), Ha, Hw1, <-Ht.
    by apply (accounts_deliver topic _ _ _ _ k false [payload]).
  - apply await_err in Ea. exists b, w2, (Err (build_ack_error subject servers e)).
    rewrite He, Ea, Hw1. split_and!; [done..|]. intros. by apply accounts_refl.
Qed.

Lemma nats_publish_links_step s w :
  nats_wf s → ∃ s' w' r, nats_publish_links_buffer s w = Some (s', w', r) ∧
    nats_step [] s w s' w' ∧ (r = Ok tt → pb_entries (ns_links_buffer s') = []) ∧
    s' = nset_links (ns_links_buffer s') s.
Proof using Type.
  intros Hs. unfold nats_publish_links_buffer, publish_stream_buffer.
  destruct (publish_stream_loop_step (S (length (pb_entries (ns_links_buffer s)))) (ns_ctx s)
    (ns_retry s) (ns_servers s) (ns_links_subject s) RkLink (ns_links_buffer s) w)
    as (b & w' & r & -> & Hwf & Hem & HA); [apply Hs|lia|].
  cbn [mbind option_bind]. exists (nset_links b s), w', r. split_and!; [done| |done|done].
  split_and!; [by destruct Hs|done|].
  destruct (HA (nats_topic s) (nats_count s) eq_refl (nats_count_range s)
    (of_kind RkDevice (pb_entries (ns_buffer s)) ++ of_kind RkDevice (ns_pending_acks s).*1 ++
     of_kind RkCollectionProfile (pb_entries (ns_profiles_buffer s)))) as (d & Hc & HP & Hd & Hn).
  exists d. split_and!; [done| |done|done]. unfold nats_held. cbn [app] in *.
  trans (records d ++ of_kind RkLink (pb_entries b) ++
    of_kind RkDevice (pb_entries (ns_buffer s)) ++ of_kind RkDevice (ns_pending_acks s).*1 ++
    of_kind RkCollectionProfile (pb_entries (ns_profiles_buffer s)));
    [unfold of_kind; cbn; solve_Permutation|rewrite HP; unfold of_kind; solve_Permutation].
Qed.

Lemma nats_publish_profiles_step s w :
  nats_wf s → ∃ s' w' r, nats_publish_profiles_buffer s w = Some (s', w', r) ∧
    nats_step [] s w s' w' ∧ (r = Ok tt → pb_entries (ns_profiles_buffer s') = []) ∧
    s' = nset_profiles (ns_profiles_buffer s') s.
Proof using Type.
  intros Hs. unfold nats_publish_profiles_buffer, publish_stream_buffer.
  destruct (publish_stream_loop_step (S (length (pb_entries (ns_profiles_buffer s)))) (ns_ctx s)
    (ns_retry s) (ns_servers s) (ns_profiles_subject s) RkCollectionProfile (ns_profiles_buffer s) w)
    as (b & w' & r & -> & Hwf & Hem & HA); [apply Hs|lia|].
  cbn [mbind option_bind]. exists (nset_profiles b s), w', r. split_and!; [done| |done|done].
  split_and!; [by destruct Hs|done|].
  destruct (HA (nats_topic s) (nats_count s) eq_refl (nats_count_range s)
    (of_kind RkDevice (pb_entries (ns_buffer s)) ++ of_kind RkDevice (ns_pending_acks s).*1 ++
     of_kind RkLink (pb_entries (ns_links_buffer s)))) as (d & Hc & HP & Hd & Hn).
  exists d. split_and!; [done| |done|done]. unfold nats_held. cbn [app] in *.
  trans (records d ++ of_kind RkCollectionProfile (pb_entries b) ++
    of_kind RkDevice (pb_entries (ns_buffer s)) ++ of_kind RkDevice (ns_pending_acks s).*1 ++
    of_kind RkLink (pb_entries (ns_links_buffer s)));
    [unfold of_kind; cbn; solve_Permutation|rewrite HP; unfold of_kind; solve_Permutation].
Qed.

(** ** Operations *)

(** What is still held of one stream. *)
Definition nats_stream s (k : RecordKind) : list Bytes :=
  match k with
  | RkDevice => pb_entries (ns_buffer s) ++ (ns_pending_acks s).*1
  | RkLink => pb_entries (ns_links_buffer s)
  | RkCollectionProfile => pb_entries (ns_profiles_buffer s)
  end.

Definition nats_push (k : RecordKind) (data : Bytes) s : NatsSink :=
  let s := nset_delivered false s in
  match k with
  | RkDevice => nset_buffer (pending_push data (ns_buffer s)) s
  | RkLink => nset_links (pending_push data (ns_links_buffer s)) s
  | RkCollectionProfile => nset_profiles (pending_push data (ns_profiles_buffer s)) s
  end.

Lemma nats_push_step k data s w : nats_wf s → nats_step [(k, data)] s w (nats_push k data s) w.
Proof using Type.
  intros Hs. split_and!.
  - destruct k, Hs; split; cbn; auto with rastreo.
  - by destruct k.
  - assert (nats_count (nats_push k data s) = nats_count s) as -> by by destruct k.
    apply accounts_move; [apply nats_count_range|]. unfold nats_held.
    destruct k; cbn; unfold of_kind; rewrite fmap_app; cbn; solve_Permutation.
Qed.

(** Setting the flag after a publish. *)
Lemma nats_mark_step k s w p :
  nats_wf s → ns_last_write_delivered s = false →
  (∃ s' w' r, p = Some (s', w', r) ∧ nats_step [] s w s' w' ∧ nats_wf s' ∧
     ns_last_write_delivered s' = false ∧
     (r = Ok tt → ns_pending_acks s' = [] → nats_stream s' k = [])) →
  ∃ s' w' r, nats_mark p = Some (s', w', r) ∧ nats_step [] s w s' w' ∧
    (nats_last_write_delivered s' = true → nats_stream s' k = []).
Proof using Type.
  intros Hs Hd (s' & w' & r & -> & St & Hw & Hd' & Hem). cbn [nats_mark mbind option_bind].
  destruct r as [[]|e].
  - exists (nset_delivered true s'), w', (Ok tt). split_and!; [done| |].
    + destruct St as (_ & ? & ?). split_and!; [by destruct Hw|done|done].
    + unfold nats_last_write_delivered. cbn [ns_last_write_delivered nset_delivered nats_set andb].
      intros Hp%is_empty_true. by apply Hem.
  - exists s', w', (Err e). split_and!; [done|done|].
    unfold nats_last_write_delivered. by rewrite Hd'.
Qed.

Lemma nats_write_kind_step k data s w :
  nats_wf s → ∃ s' w' r, nats_write_kind k data s w = Some (s', w', r) ∧
    nats_step [(k, data)] s w s' w' ∧
    (nats_last_write_delivered s' = true → nats_stream s' k = []).
Proof using Type.
  intros Hs. pose proof (nats_push_step k data s w Hs) as Hpush. pose proof (proj1 Hpush) as Hw.
  set (s1 := nats_push k data s) in *.
  assert (ns_last_write_delivered s1 = false) as Hd by (by destruct k).
  enough (∃ s' w' r, nats_write_kind k data s w = Some (s', w', r) ∧ nats_step [] s1 w s' w' ∧
    (nats_last_write_delivered s' = true → nats_stream s' k = [])) as (s' & w' & r & E & St & Hf).
  { exists s', w', r. split_and!; [done| |done]. exact (nats_step_trans _ _ _ _ _ _ _ _ Hpush St). }
  assert (∃ s' w' r, Some (s1, w, Ok tt : Result RastreoError unit) = Some (s', w', r) ∧
    nats_step [] s1 w s' w' ∧ (nats_last_write_delivered s' = true → nats_stream s' k = [])) as Hidle.
  { exists s1, w, (Ok tt). split_and!; [done|by apply nats_step_refl|].
    unfold nats_last_write_delivered. by rewrite Hd. }
  destruct k; cbn [nats_write_kind]; unfold nats_write, nats_write_link, nats_write_profile;
    cbv zeta; (destruct (reached_threshold _ _); [|exact Hidle]).
  - destruct (_ =? 1).
    + apply (nats_mark_step RkDevice s1 w); [done|done|].
      destruct (publish_and_drain_step s1 w Hw) as (s2 & w2 & r2 & E & St & Hp & Hem & Ho).
      exists s2, w2, r2. split_and!; [exact E|done|apply St|by rewrite (proj2 (proj2 Ho))|].
      intros Hr _. cbn. by rewrite Hp, (Hem Hr).
    + destruct (nats_publish_buffer_step s1 w Hw) as (s2 & w2 & r2 & E & St & _ & Ho).
      exists s2, w2, r2. split_and!; [exact E|done|].
      unfold nats_last_write_delivered. by rewrite (proj2 (proj2 Ho)), Hd.
  - apply (nats_mark_step RkLink s1 w); [done|done|].
    destruct (nats_publish_links_step s1 w Hw) as (s2 & w2 & r2 & E & St & Hem & Hset).
    exists s2, w2, r2. split_and!; [exact E|done|apply St|by rewrite Hset|]. intros Hr _. by apply Hem.
  - apply (nats_mark_step RkCollectionProfile s1 w); [done|done|].
    destruct (nats_publish_profiles_step s1 w Hw) as (s2 & w2 & r2 & E & St & Hem & Hset).
    exists s2, w2, r2. split_and!; [exact E|done|apply St|by rewrite Hset|]. intros Hr _. by apply Hem.
Qed.

Lemma nats_flush_step s w :
  nats_wf s → ∃ s' w' r, nats_flush s w = Some (s', w', r) ∧ nats_step [] s w s' w' ∧
    ns_last_write_delivered s' = is_ok r ∧ (r = Ok tt → nats_held s' = []).
Proof using Type.
  intros Hs. unfold nats_flush.
  destruct (publish_and_drain_step s w Hs) as (s1 & w1 & r1 & -> & St1 & Hp1 & Em1 & Ho1).
  cbn [mbind option_bind].
  destruct (nats_publish_links_step s1 w1 (proj1 St1)) as (s2 & w2 & r2 & -> & St2 & Em2 & Hs2).
  cbn [mbind option_bind].
  destruct (nats_publish_profiles_step s2 w2 (proj1 St2)) as (s3 & w3 & r3 & -> & St3 & Em3 & Hs3).
  cbn [mbind option_bind]. eexists _, w3, _. split; [done|]. split_and!; [|done|].
  - pose proof (nats_step_trans _ _ _ _ _ _ _ _ (nats_step_trans _ _ _ _ _ _ _ _ St1 St2) St3)
      as (Hw & ? & ?). split_and!; [by destruct Hw|done|done].
  - destruct r1 as [[]|], r2 as [[]|], r3 as [[]|]; try done. intros _. unfold nats_held. cbn.
    specialize (Em1 eq_refl). specialize (Em2 eq_refl). specialize (Em3 eq_refl).
    assert (ns_buffer s3 = ns_buffer s1 ∧ ns_pending_acks s3 = ns_pending_acks s1 ∧
      ns_links_buffer s3 = ns_links_buffer s2) as (-> & -> & ->).
    { rewrite Hs3. cbn. split_and!; [by rewrite Hs2|by rewrite Hs2|done]. }
    by rewrite Em1, Hp1, Em2, Em3.
Qed.

(** ** Histories *)

Definition nats_op (op : SinkOp) s w : option (NatsSink * W * Result RastreoError unit) :=
  match op with OpWrite k data => nats_write_kind k data s w | OpFlush => nats_flush s w end.

Fixpoint nats_run (ops : list SinkOp) s w
    : option (NatsSink * W * list (Result RastreoError unit)) :=
  match ops with
  | [] => Some (s, w, [])
  | op :: ops =>
      '(s, w, r) ← nats_op op s w;
      '(s, w, rs) ← nats_run ops s w;
      Some (s, w, r :: rs)
  end.

Lemma nats_run_steps ops s w k0 :
  nats_wf s → (∀ k, k0 = Some k → nats_last_write_delivered s = true → nats_stream s k = []) →
  ∃ s' w' rs, nats_run ops s w = Some (s', w', rs) ∧ nats_step (written ops) s w s' w' ∧
    (∀ k, last_kind ops k0 = Some k → nats_last_write_delivered s' = true →
       nats_stream s' k = []) ∧
    (last ops = Some OpFlush → last rs = Some (Ok tt) → nats_held s' = []).
Proof using Type.
  revert s w k0. induction ops as [|op ops IH]; intros s w k0 Hs H0.
  { exists s, w, []. split_and!; [done|by apply nats_step_refl|done|done]. }
  assert (∃ s1 w1 r, nats_op op s w = Some (s1, w1, r) ∧ nats_step (op_records op) s w s1 w1 ∧
    (∀ k, (match op with OpWrite k _ => Some k | OpFlush => k0 end) = Some k →
       nats_last_write_delivered s1 = true → nats_stream s1 k = []) ∧
    (op = OpFlush → r = Ok tt → nats_held s1 = [])) as (s1 & w1 & r & E & St & Hf & Hem).
  { destruct op as [k data|]; cbn [nats_op op_records].
    - destruct (nats_write_kind_step k data s w Hs) as (s1 & w1 & r & E & St & Hf).
      exists s1, w1, r. split_and!; [done|done| |done]. by intros ? [= <-].
    - destruct (nats_flush_step s w Hs) as (s1 & w1 & r & E & St & Hd & Hem).
      exists s1, w1, r. split_and!; [done|done| |by intros _].
      unfold nats_last_write_delivered. intros k _ Hdel. rewrite Hd in Hdel. break_bool.
      destruct r as [[]|]; [|done]. specialize (Hem eq_refl). unfold nats_held in Hem.
      apply app_eq_nil in Hem as [E1 Hem]. apply app_eq_nil in Hem as [E2 Hem].
      apply app_eq_nil in Hem as [E3 E4].
      apply fmap_nil_inv in E1, E2, E3, E4. destruct k; cbn; [by rewrite E1, E2|done|done]. }
  destruct (IH s1 w1 (match op with OpWrite k _ => Some k | OpFlush => k0 end) (proj1 St) Hf)
    as (s' & w' & rs & Er & St' & Hk & Hlast).
  exists s', w', (r :: rs). cbn [nats_run]. rewrite E. cbn [mbind option_bind]. rewrite Er.
  split_and!; [done| | |].
  - unfold written. rewrite fmap_cons, mjoin_cons. exact (nats_step_trans _ _ _ _ _ _ _ _ St St').
  - by destruct op.
  - destruct ops as [|op' ops].
    + cbn in Er. injection Er as <- <- <-. intros [= ->] [= ->]. by apply Hem.
    + destruct rs as [|r' rs].
      { cbn in Er. destruct (nats_op op' s1 w1) as [[[? ?] ?]|]; [|done]. cbn in Er.
        by destruct (nats_run ops _ _) as [[[? ?] ?]|]. }
      exact Hlast.
Qed.

Lemma nats_create_wf servers subject stream links profiles cred mode dlq retry w w' s :
  nats_create servers subject stream links profiles cred mode dlq retry w = (w', Ok s) →
  nats_wf s ∧ nats_held s = [] ∧ nats_count s = 0 ∧ ns_last_write_delivered s = false.
Proof using Type.
  unfold nats_create, nats_new. destruct (nats_connect servers cred w) as [w1 [ctx|e]]; [|done].
  destruct (get_stream ctx stream w1) as [w2 [u|e]]; [|done]. destruct dlq as [dlq|].
  - unfold nats_with_dead_letter. destruct (nats_dead_letter_validate dlq); [|done].
    cbn [nats_configure ns_ctx]. destruct (get_stream ctx (ndl_stream dlq) w2) as [w3 [v|e]]; [|done].
    intros [= <- <-]. split_and!; [split; done|done..].
  - intros [= <- <-]. split_and!; [split; done|done..].
Qed.

(** C9. A NATS sink loses no record and its publishing loops always end: any
    history of writes to its three streams and flushes returns, and after it,
    failed operations included, the records written are exactly those the
    server acknowledged, each at the subject of its stream or, for device
    records only, at the dead-letter subject, together with those still
    buffered or awaiting their acknowledgement; the per-class dead-letter
    counters add up to the quarantined ones. A flush that succeeds leaves
    nothing held, and while the sink reports its last write delivered, nothing
    of that write's stream is held. *)
Theorem nats_no_loss servers subject stream links profiles cred mode dlq retry w w0 s ops
    (Hcreate : nats_create servers subject stream links profiles cred mode dlq retry w = (w0, Ok s)) :
  ∃ s' w' rs, nats_run ops s w0 = Some (s', w', rs) ∧
    (∃ d, acked w' = acked w0 ++ sent (nats_topic s) d ∧
       records d ++ nats_held s' ≡ₚ written ops ∧ dead_devices d ∧
       nats_count s' = wrap 64 (dead_count d)) ∧
    (last ops = Some OpFlush → last rs = Some (Ok tt) → nats_held s' = []) ∧
    (∀ k, last_kind ops None = Some k → nats_last_write_delivered s' = true →
       nats_stream s' k = []).
Proof using Type.
  apply nats_create_wf in Hcreate as (Hwf & Hheld & Hcount & _).
  destruct (nats_run_steps ops s w0 None Hwf ltac:(done))
    as (s' & w' & rs & E & (_ & _ & d & ? & HP & ? & Hn) & ? & ?).
  exists s', w', rs. split_and!; [done| |done|done]. exists d.
  rewrite Hheld, app_nil_r in HP. rewrite Hcount in Hn. done.
Qed.
End nats.

(** ** Redaction *)

Lemma split_at_spec needle s a b :
  split_at needle s = Some (a, b) → s = a ++ needle ++ b.
Proof.
  revert a. induction s as [|c s IH]; intros a; cbn [split_at].
  - destruct (strip_prefix needle []) as [r|] eqn:E; [|done]. intros [= <- <-].
    by apply strip_prefix_Some in E.
  - destruct (strip_prefix needle (c :: s)) as [r|] eqn:E.
    + intros [= <- <-]. by apply strip_prefix_Some in E.
    + destruct (split_at needle s) as [[a' b']|]; [|done]. cbn. intros [= <- <-].
      by rewrite (IH a' eq_refl).
Qed.

Lemma take_until_spec c s :
  s = (take_until c s).1 ++ (take_until c s).2 ∧ c ∉ (take_until c s).1 ∧
  (∀ x r, (take_until c s).2 = x :: r → x = c).
Proof.
  induction s as [|x s IH]; cbn; [split_and!; [done|set_solver|done]|].
  destruct (Z.eqb_spec x c) as [->|Hne].
  - split_and!; [done|set_solver|by intros ? ? [= <- _]].
  - destruct (take_until c s) as [a b]. cbn in *. destruct IH as (-> & Hn & Hb).
    split_and!; [done|set_solver|done].
Qed.

Lemma after_last_spec c s :
  match after_last c s with
  | Some r => c ∉ r ∧ ∃ a, s = a ++ c :: r
  | None => c ∉ s
  end.
Proof.
  induction s as [|x s IH]; cbn; [set_solver|]. destruct (after_last c s) as [r|].
  - destruct IH as (? & a & ->). split; [done|]. by exists (x :: a).
  - destruct (Z.eqb_spec x c) as [->|]; [|set_solver]. split; [done|]. by exists [].
Qed.

(** Redaction removes credentials from every server URL that has a scheme:
    the result keeps the scheme, what follows the last [@] of the authority and
    the path, and no [@] is left in the authority. *)
Theorem strip_userinfo_drops server scheme rest
    (Hurl : split_at (s! "://") server = Some (scheme, rest)) :
  ∃ userinfo host path,
    server = scheme ++ s! "://" ++ userinfo ++ host ++ path ∧
    strip_userinfo server = scheme ++ s! "://" ++ host ++ path ∧
    64 ∉ host ∧ 47 ∉ host ∧ (∀ c r, path = c :: r → c = 47) ∧
    (userinfo = [] ∨ last userinfo = Some 64).
Proof.
  pose proof (split_at_spec _ _ _ _ Hurl) as Es. unfold strip_userinfo. rewrite Hurl.
  pose proof (take_until_spec 47 rest) as (Er & Hn & Hp). destruct (take_until 47 rest) as [auth path].
  cbn [fst snd] in *. pose proof (after_last_spec 64 auth) as Ha.
  destruct (after_last 64 auth) as [host|].
  - destruct Ha as (Hh & a & ->). exists (a ++ [64]), host, path. split_and!; [|done|done| |done|].
    + rewrite Es, Er. by rewrite <-!(assoc_L (++)).
    + intros Hin. apply Hn. set_solver.
    + right. by rewrite last_snoc.
  - exists [], auth, path. split_and!; [by rewrite Es, Er|by rewrite Es, Er|done|done|done|by left].
Qed.

Lemma strip_userinfo_drops_witness :
  split_at (s! "://") (s! "nats://u:p@host:4222/js") = Some (s! "nats", s! "u:p@host:4222/js") ∧
  ∃ host path, strip_userinfo (s! "nats://u:p@host:4222/js") = s! "nats" ++ s! "://" ++ host ++ path ∧
    64 ∉ host.
Proof.
  split; [reflexivity|].
  destruct (strip_userinfo_drops (s! "nats://u:p@host:4222/js") (s! "nats") (s! "u:p@host:4222/js"))
    as (u & h & p & _ & E & Hh & _); [reflexivity|].
  by exists h, p.
Defined.

(** A server written without a scheme keeps its credentials. *)
Example strip_userinfo_needs_scheme :
  strip_userinfo (s! "u:p@host:4222") = s! "u:p@host:4222".
Proof. reflexivity. Qed.

(** ** Witness *)

#[local] Existing Instance sample_errors.
#[local] Instance nats_io : IoErrors := {|
  io_error_new _ _ := 1%nat; io_error_kind _ := OtherIo; io_error_display _ := [];
|}.

(** The world: what was acknowledged, and the subjects that refuse to. *)
Abbreviation NatsWorld := (list (Str * Bytes) * list Str)%type.

#[local] Instance nats_sleep : Sleep NatsWorld := λ _ w, w.
#[local] Instance sample_nats : NatsLib NatsWorld := {|
  Context_ := unit; AckFuture := Str * Bytes; ConnectError := unit; PublishError := unit;
  connect_error_display _ := []; publish_error_display _ := []; rfc3339_now _ := [];
  nats_connect _ _ w := (w, Ok tt);
  get_stream _ _ w := (w, Ok tt);
  publish _ subject _ payload w := (w, Ok (subject, payload));
  await_ack a w :=
    if decide (a.1 ∈ w.2) then (w, Err tt) else ((w.1 ++ [(a.1, a.2)], w.2), Ok tt);
  client_flush _ w := (w, Ok tt);
|}.

#[local] Instance sample_nats_laws : NatsLaws nats_sleep sample_nats.
Proof.
  refine (Build_NatsLaws _ _ _ sample_nats fst (λ a : Str * Bytes, a) _ _ _ _ _); try done.
  - intros ctx subject headers payload w w' a [= _ ->]. done.
  - intros [t p] w w' u. cbn. case_decide; [done|]. by intros [= <- _].
  - intros [t p] w w' e. cbn. case_decide; [|done]. by intros [= <- _].
Defined.

(** The device subject refuses its acknowledgements: the flush dead-letters. *)
Lemma nats_no_loss_witness :
  ∃ w0 s s' w' rs,
    nats_create [] [100] [102] None None NatsAnonymous (NatsBatched 10)
      (Some (mkNatsDeadLetterConfig [103] [101] false)) sink_retry_default ([], [[100]])
      = (w0, Ok s) ∧
    nats_run [OpWrite RkDevice [1]; OpWrite RkLink [2]; OpFlush] s w0 = Some (s', w', rs) ∧
    nats_held s' = [] ∧ nats_count s' = 1.
Proof.
  destruct (nats_create [] [100] [102] None None NatsAnonymous (NatsBatched 10)
    (Some (mkNatsDeadLetterConfig [103] [101] false)) sink_retry_default ([], [[100]]))
    as [w0 [s|e]] eqn:Ec; [|by vm_compute in Ec].
  destruct (nats_no_loss _ _ _ _ _ _ _ _ _ _ _ _ [OpWrite RkDevice [1]; OpWrite RkLink [2]; OpFlush] Ec)
    as (s' & w' & rs & Er & _ & Hflush & _).
  exists w0, s, s', w', rs. split; [done|]. split; [done|].
  vm_compute in Ec. injection Ec as <- <-. vm_compute in Er. injection Er as <- <- <-.
  split; [by apply Hflush|done].
Defined.
