(* ===== verification/Scheduler.v ===== *)
(** * The bounded scheduler: [scheduler/mod.rs]

    [run_scan] runs every prober against every target with at most
    [max_concurrent] probes in flight. The loop is a step relation: between two
    awaits the code is a function of the scheduler's state, and what the runtime
    decides (which task ends next and how, the identifier a spawned task gets,
    when the cancel flag rises, when the receiver goes away) is the step taken.
    A lookup that the code would panic on yields [None]. The pacer that spaces
    probe starts is the lock-protected cell each task goes through first. *)

From S2P Require Import Prelude F64 Net Model.

#[local] Open Scope nat_scope.

(** ** The pacer *)

(** Durations and instants in nanoseconds. [Duration::from_secs_f64] rounds to the
    nearest nanosecond, ties to even, and panics on what a duration cannot hold. *)
Definition duration_from_secs_f64 (x : f64) : option Z :=
  match x with
  | S754_zero _ => Some 0%Z
  | S754_finite false m e =>
      let scaled := (Zpos m * 1000000000)%Z in
      let nanos :=
        if (0 <=? e)%Z then (scaled * 2 ^ e)%Z
        else
          let d := (2 ^ (- e))%Z in
          let q := (scaled / d)%Z in
          let r2 := (2 * (scaled mod d))%Z in
          if (d <? r2)%Z || ((d =? r2)%Z && Z.odd q) then (q + 1)%Z else q in
      if (nanos <? (U64_MAX + 1) * 1000000000)%Z then Some nanos else None
  | _ => None
  end.

Record Pacer : Type := mkPacer {
  pc_interval : Z;
  pc_next_start : option Z;
}.

(** [Pacer::from_rate]; the outer option is the panic of the conversion. *)
Definition pacer_from_rate (rate : Z) : option (option Pacer) :=
  if (rate =? 0)%Z then Some None
  else interval ← duration_from_secs_f64 (f64_ratio 1 rate);
       Some (Some (mkPacer interval None)).

(** The critical section of [wait_for_slot], entered at instant [now]: the slot the
    caller sleeps until. *)
Definition wait_for_slot (now : Z) (p : Pacer) : Pacer * Z :=
  let scheduled := match pc_next_start p with
                   | Some t => if (now <? t)%Z then t else now
                   | None => now
                   end in
  (mkPacer (pc_interval p) (Some (scheduled + pc_interval p)%Z), scheduled).

(** The slots handed to a sequence of callers. *)
Fixpoint slots (nows : list Z) (p : Pacer) : list Z :=
  match nows with
  | [] => []
  | now :: nows => let '(p, scheduled) := wait_for_slot now p in scheduled :: slots nows p
  end.

(** ** Construction *)

Record BoundedScheduler : Type := mkBoundedScheduler {
  max_concurrent : nat;
  bs_pacer : option Pacer;
}.

Definition DEFAULT_MAX_CONCURRENT : nat := 64.

Definition bounded_new (max : nat) : BoundedScheduler := mkBoundedScheduler (Nat.max max 1) None.

Definition with_default_concurrency : BoundedScheduler := bounded_new DEFAULT_MAX_CONCURRENT.

Definition with_probe_rate (probe_rate : option Z) (s : BoundedScheduler)
    : option BoundedScheduler :=
  pacer ← match probe_rate with Some rate => pacer_from_rate rate | None => Some None end;
  Some (mkBoundedScheduler (max_concurrent s) pacer).

Section scheduler.
Context `{NL : IpNetLib} `{FE : ForeignErrors}.

(** A prober behind its trait: what [probe] may return for a target. *)
Context {Prober ProbeCtx : Type}.
Context (probe : Prober → ResolvedTarget → ProbeCtx → Result RastreoError ProbeOutcome → Prop).

Abbreviation ProbeResult := (Result RastreoError ProbeOutcome).

Record TargetScan : Type := mkTargetScan {
  ts_target_index : nat;
  ts_outcomes : list (nat * ProbeResult);
}.

(** ** The feed *)

Record Feed : Type := mkFeed {
  fd_targets : list ResolvedTarget;
  fd_num_probers : nat;
  fd_next_target_index : nat;
  fd_current : option (nat * nat);
}.

Definition feed_new (targets : list ResolvedTarget) (num_probers : nat) : Feed :=
  mkFeed targets num_probers 0 None.

(** The prober of the current target still to hand out, if any. *)
Definition feed_pending (num_probers : nat) (current : option (nat * nat))
    : option (nat * nat) :=
  match current with
  | Some (target_index, next_pass) =>
      if next_pass <? num_probers then Some (target_index, next_pass) else None
  | None => None
  end.

(** The loop of [Feed::next]: each turn consumes a target or returns. *)
Fixpoint feed_loop (targets : list ResolvedTarget) (num_probers next_index : nat)
    (current : option (nat * nat)) (target_map : gmap nat ResolvedTarget)
    : Feed * gmap nat ResolvedTarget * option (nat * nat) :=
  match feed_pending num_probers current with
  | Some (target_index, next_pass) =>
      (mkFeed targets num_probers next_index (Some (target_index, S next_pass)),
       target_map, Some (next_pass, target_index))
  | None =>
      match targets with
      | [] => (mkFeed [] num_probers next_index current, target_map, None)
      | target :: targets =>
          feed_loop targets num_probers (S next_index) (Some (next_index, 0))
            (<[next_index := target]> target_map)
      end
  end.

Definition feed_next (f : Feed) (target_map : gmap nat ResolvedTarget)
    : Feed * gmap nat ResolvedTarget * option (nat * nat) :=
  feed_loop (fd_targets f) (fd_num_probers f) (fd_next_target_index f) (fd_current f) target_map.

(** ** The state of a scan *)

(** Tokio's task identifiers: unique among the tasks of the set. *)
Abbreviation Id := positive.

Record Task : Type := mkTask {
  tk_prober : Prober;
  tk_target : ResolvedTarget;
}.

Record PartialTarget : Type := mkPartialTarget {
  pt_outcomes : list (option ProbeResult);
  pt_completed : nat;
}.

(** Where the code is: in the priming loop with iterations left, waiting on
    [join_next_with_id], waiting on [send], or returned. *)
Inductive Phase : Type :=
  | Priming (remaining : nat)
  | Joining
  | Sending (scan : TargetScan)
  | Finished.

Record Scan : Type := mkScan {
  sc_phase : Phase;
  sc_feed : Feed;
  sc_target_map : gmap nat ResolvedTarget;
  sc_set : gmap Id Task;
  sc_coord_by_id : gmap Id (nat * nat);
  sc_live : gmap nat PartialTarget;
  sc_cancel : bool;
  sc_receiver : bool;
  sc_sent : list TargetScan;
}.

Definition set_phase (ph : Phase) (s : Scan) : Scan :=
  mkScan ph (sc_feed s) (sc_target_map s) (sc_set s) (sc_coord_by_id s) (sc_live s)
    (sc_cancel s) (sc_receiver s) (sc_sent s).
Definition set_feed (f : Feed) (tm : gmap nat ResolvedTarget) (s : Scan) : Scan :=
  mkScan (sc_phase s) f tm (sc_set s) (sc_coord_by_id s) (sc_live s)
    (sc_cancel s) (sc_receiver s) (sc_sent s).
Definition set_tasks (tasks : gmap Id Task) (coords : gmap Id (nat * nat)) (s : Scan) : Scan :=
  mkScan (sc_phase s) (sc_feed s) (sc_target_map s) tasks coords (sc_live s)
    (sc_cancel s) (sc_receiver s) (sc_sent s).
Definition set_live (live : gmap nat PartialTarget) (s : Scan) : Scan :=
  mkScan (sc_phase s) (sc_feed s) (sc_target_map s) (sc_set s) (sc_coord_by_id s) live
    (sc_cancel s) (sc_receiver s) (sc_sent s).
Definition set_signals (cancel receiver : bool) (s : Scan) : Scan :=
  mkScan (sc_phase s) (sc_feed s) (sc_target_map s) (sc_set s) (sc_coord_by_id s) (sc_live s)
    cancel receiver (sc_sent s).
Definition set_sent (sent : list TargetScan) (s : Scan) : Scan :=
  mkScan (sc_phase s) (sc_feed s) (sc_target_map s) (sc_set s) (sc_coord_by_id s) (sc_live s)
    (sc_cancel s) (sc_receiver s) sent.

(** ** The code between two awaits *)

Definition spawn_probe (id : Id) (pass_index target_index : nat) (prober : Prober)
    (target : ResolvedTarget) (s : Scan) : Scan :=
  set_tasks (<[id := mkTask prober target]> (sc_set s))
    (<[id := (pass_index, target_index)]> (sc_coord_by_id s)) s.

(** Pull the next start from the feed and spawn it under [fresh]; the flag says
    whether there was one. *)
Definition start_next (probers : list Prober) (fresh : Id) (s : Scan) : option (Scan * bool) :=
  let '(f, tm, start) := feed_next (sc_feed s) (sc_target_map s) in
  let s := set_feed f tm s in
  match start with
  | None => Some (s, false)
  | Some (pass_index, target_index) =>
      prober ← probers !! pass_index;
      target ← sc_target_map s !! target_index;
      Some (spawn_probe fresh pass_index target_index prober target s, true)
  end.

(** One iteration of the priming loop. *)
Definition prime (probers : list Prober) (remaining : nat) (fresh : Id) (s : Scan)
    : option Scan :=
  match remaining with
  | O => Some (set_phase Joining s)
  | S remaining =>
      if sc_cancel s then Some (set_phase Joining s)
      else
        '(s, started) ← start_next probers fresh s;
        Some (set_phase (if started : bool then Priming remaining else Joining) s)
  end.

(** How a task ended. *)
Inductive JoinResult : Type :=
  | JoinOk (r : ProbeResult)
  | JoinPanic
  | JoinCancelled.

Definition joined_outcome (j : JoinResult) : ProbeResult :=
  match j with
  | JoinOk r => r
  | JoinPanic => Err (ERuntime (TaskPanicked (s! "prober task panicked")))
  | JoinCancelled => Err (ERuntime (TaskPanicked (s! "prober task cancelled")))
  end.

Definition partial_new (num_probers : nat) : PartialTarget :=
  mkPartialTarget (replicate num_probers None) 0.

(** File the outcome under its target; the target when it was the last prober's. *)
Definition record_outcome (num_probers : nat) (pass_index target_index : nat)
    (outcome : ProbeResult) (s : Scan) : option (Scan * option nat) :=
  let entry := default (partial_new num_probers) (sc_live s !! target_index) in
  if pass_index <? length (pt_outcomes entry) then
    let entry := mkPartialTarget (<[pass_index := Some outcome]> (pt_outcomes entry))
                   (S (pt_completed entry)) in
    let s := set_live (<[target_index := entry]> (sc_live s)) s in
    if pt_completed entry =? num_probers then
      Some (set_feed (sc_feed s) (delete target_index (sc_target_map s)) s, Some target_index)
    else Some (s, None)
  else None.

(** The outcomes of a fully scanned target, each with its pass. *)
Definition unwrap_slots (slots : list (option ProbeResult)) : option (list (nat * ProbeResult)) :=
  mapM id (imap (λ pass_index slot, pair pass_index <$> slot) slots).

Definition take_ready (target_index : nat) (s : Scan) : option (Scan * TargetScan) :=
  entry ← sc_live s !! target_index;
  outcomes ← unwrap_slots (pt_outcomes entry);
  Some (set_live (delete target_index (sc_live s)) s, mkTargetScan target_index outcomes).

(** One iteration of the join loop, from the task [id] that ended to the send. *)
Definition join_body (probers : list Prober) (id : Id) (j : JoinResult) (fresh : Id) (s : Scan)
    : option Scan :=
  let outcome := joined_outcome j in
  let coord := sc_coord_by_id s !! id in
  let s := set_tasks (delete id (sc_set s)) (delete id (sc_coord_by_id s)) s in
  '(s, ready_target) ← match coord with
                       | Some (pass_index, target_index) =>
                           record_outcome (length probers) pass_index target_index outcome s
                       | None => Some (s, None)
                       end;
  '(s, _) ← (if sc_cancel s then Some (s, false) else start_next probers fresh s);
  match ready_target with
  | Some target_index =>
      '(s, scan) ← take_ready target_index s;
      Some (set_phase (Sending scan) s)
  | None => Some s
  end.

(** ** Runs *)

Definition run_scan (sched : BoundedScheduler) (probers : list Prober)
    (targets : list ResolvedTarget) (cancel : bool) : Scan :=
  mkScan (if length probers =? 0 then Finished else Priming (max_concurrent sched))
    (feed_new targets (length probers)) ∅ ∅ ∅ ∅ cancel true [].

(** A task ends with what its probe returned, or by panicking or being cancelled. *)
Definition ends_with (ctx : ProbeCtx) (task : Task) (j : JoinResult) : Prop :=
  match j with
  | JoinOk r => probe (tk_prober task) (tk_target task) ctx r
  | JoinPanic | JoinCancelled => True
  end.

Inductive scan_step (probers : list Prober) (ctx : ProbeCtx) : Scan → Scan → Prop :=
  | step_cancel s :
      sc_cancel s = false → sc_phase s ≠ Finished →
      scan_step probers ctx s (set_signals true (sc_receiver s) s)
  | step_receiver_dropped s :
      sc_receiver s = true → sc_phase s ≠ Finished →
      scan_step probers ctx s (set_signals (sc_cancel s) false s)
  | step_prime s remaining fresh s' :
      sc_phase s = Priming remaining → sc_set s !! fresh = None →
      prime probers remaining fresh s = Some s' →
      scan_step probers ctx s s'
  | step_join s id task j fresh s' :
      sc_phase s = Joining → sc_set s !! id = Some task → ends_with ctx task j →
      delete id (sc_set s) !! fresh = None →
      join_body probers id j fresh s = Some s' →
      scan_step probers ctx s s'
  | step_drained s :
      sc_phase s = Joining → sc_set s = ∅ →
      scan_step probers ctx s (set_phase Finished s)
  | step_send s scan :
      sc_phase s = Sending scan → sc_receiver s = true →
      scan_step probers ctx s (set_phase Joining (set_sent (sc_sent s ++ [scan]) s))
  | step_send_refused s scan :
      sc_phase s = Sending scan → sc_receiver s = false →
      scan_step probers ctx s (set_phase Finished (set_tasks ∅ (sc_coord_by_id s) s)).

(** A state the code would panic in: the body of the loop it is in reaches a lookup
    that fails. *)
Definition panics (probers : list Prober) (ctx : ProbeCtx) (s : Scan) : Prop :=
  match sc_phase s with
  | Priming remaining => ∃ fresh, sc_set s !! fresh = None ∧ prime probers remaining fresh s = None
  | Joining => ∃ id task j fresh, sc_set s !! id = Some task ∧ ends_with ctx task j ∧
                 delete id (sc_set s) !! fresh = None ∧ join_body probers id j fresh s = None
  | Sending _ | Finished => False
  end.
End scheduler.
