(* ===== verification/SchedulerTheorems.v ===== *)
(** * What the scheduler guarantees

    The invariant of a scan (every start handed out by the feed is in flight, filed
    in its target's slots, or delivered with its target), its preservation by every
    step, and from it: no lookup panics, the window and the memory stay within the
    cap, each target is delivered at most once and complete, an undisturbed scan
    delivers every target, a cancelled one a prefix of them, and every run ends. *)

From S2P Require Import Prelude F64 Net Model Scheduler.

#[local] Open Scope nat_scope.

(** ** Slots of a target *)

(** How many slots of a target are filled. *)
Definition filled {A} (slots : list (option A)) : nat := length (omap id slots).

Lemma filled_cons {A} (x : option A) slots :
  filled (x :: slots) = (if x is Some _ then 1 else 0) + filled slots.
Proof. by destruct x. Qed.

Lemma filled_insert {A} (slots : list (option A)) p r :
  slots !! p = Some None → filled (<[p := Some r]> slots) = S (filled slots).
Proof.
  revert p. induction slots as [|x slots IH]; intros [|p] Hp; simplify_eq/=; [done|].
  rewrite !filled_cons, IH by done. lia.
Qed.

Lemma filled_replicate {A} n : filled (replicate n (None : option A)) = 0.
Proof. induction n as [|n IH]; [done|]. simpl. by rewrite filled_cons. Qed.

Lemma filled_le {A} (slots : list (option A)) : filled slots ≤ length slots.
Proof. apply length_omap. Qed.

(** All slots filled: no slot is left empty. *)
Lemma filled_all {A} (slots : list (option A)) :
  filled slots = length slots → ∃ rs, slots = Some <$> rs.
Proof.
  induction slots as [|x slots IH]; [by exists []|].
  pose proof (filled_le slots) as Hle. rewrite filled_cons. simpl.
  destruct x as [r|]; intros Heq; [|lia].
  destruct IH as [rs ->]; [lia|]. by exists (r :: rs).
Qed.

Lemma filled_complete {A} (slots : list (option A)) :
  (∀ p, p < length slots → is_Some (slots !! p ≫= id)) → filled slots = length slots.
Proof.
  induction slots as [|x slots IH]; intros Hall; [done|].
  destruct (Hall 0 ltac:(simpl; lia)) as [r Hr]. simpl in Hr. unfold id in Hr. subst x.
  rewrite filled_cons. simpl. f_equal. apply IH. intros p Hp. apply (Hall (S p)). simpl. lia.
Qed.

Lemma unwrap_slots_filled `{FE : ForeignErrors} (rs : list (Result RastreoError ProbeOutcome)) :
  unwrap_slots (Some <$> rs) = Some (imap pair rs).
Proof.
  unfold unwrap_slots. apply mapM_Some. rewrite imap_fmap. apply Forall2_same_length_lookup_2.
  { by rewrite !length_imap. }
  intros i x y. rewrite !list_lookup_imap. by destruct (rs !! i); intros; simplify_eq/=.
Qed.

Section runs.
Context `{NL : IpNetLib} `{FE : ForeignErrors} {Prober ProbeCtx : Type}.
Context (probe : Prober → ResolvedTarget → ProbeCtx → Result RastreoError ProbeOutcome → Prop).
Context (probers : list Prober) (targets : list ResolvedTarget) (ctx : ProbeCtx) (cap : nat).

#[local] Abbreviation n := (length probers).
#[local] Abbreviation Scan' := (@Scan _ _ Prober).

(** ** The invariant *)

(** Started already: handed out by the feed. *)
Definition fed (f : Feed) (p t : nat) : Prop :=
  match fd_current f with
  | Some (tc, np) => t < tc ∨ t = tc ∧ p < np
  | None => False
  end.

Definition feed_wf (f : Feed) : Prop :=
  fd_num_probers f = n ∧ fd_targets f = drop (fd_next_target_index f) targets ∧
  match fd_current f with
  | Some (tc, np) => fd_next_target_index f = S tc ∧ np ≤ n ∧ tc < length targets
  | None => fd_next_target_index f = 0
  end.

(** Starts still to hand out. *)
Definition remaining_starts (f : Feed) : nat :=
  length (fd_targets f) * fd_num_probers f +
  match fd_current f with Some (_, np) => fd_num_probers f - np | None => 0 end.

(** An outcome that prober [p] may have for target [t]. *)
Definition outcome_of (p t : nat) (r : Result RastreoError ProbeOutcome) : Prop :=
  ∃ pr tg j, probers !! p = Some pr ∧ targets !! t = Some tg ∧
    ends_with probe ctx (mkTask pr tg) j ∧ joined_outcome j = r.

(** A delivered target: one outcome per prober, in pass order, each its own. *)
Definition scan_complete (x : TargetScan) : Prop :=
  ∃ rs, ts_outcomes x = imap pair rs ∧ length rs = n ∧
    ∀ p r, rs !! p = Some r → outcome_of p (ts_target_index x) r.

Definition delivered (s : Scan') : list TargetScan :=
  sc_sent s ++ match sc_phase s with Sending x => [x] | _ => [] end.

Definition done_targets (s : Scan') : list nat := ts_target_index <$> delivered s.

(** The outcome filed for prober [p] of target [t]. *)
Definition slot (s : Scan') (t p : nat) : option (Result RastreoError ProbeOutcome) :=
  entry ← sc_live s !! t; pt_outcomes entry !! p ≫= id.

Record live_ok (s : Scan') (t : nat) (e : PartialTarget) : Prop := {
  lo_open : t ∉ done_targets s;
  lo_length : length (pt_outcomes e) = n;
  lo_filled : pt_completed e = filled (pt_outcomes e);
  lo_count : 0 < pt_completed e < n;
  lo_own : ∀ p r, pt_outcomes e !! p = Some (Some r) → fed (sc_feed s) p t ∧ outcome_of p t r;
}.

Record core (s : Scan') : Prop := {
  co_feed : feed_wf (sc_feed s);
  co_task : ∀ id tk, sc_set s !! id = Some tk → ∃ p t pr tg,
    sc_coord_by_id s !! id = Some (p, t) ∧ probers !! p = Some pr ∧ targets !! t = Some tg ∧
    tk = mkTask pr tg;
  co_coord : ∀ id p t, sc_coord_by_id s !! id = Some (p, t) →
    is_Some (sc_set s !! id) ∧ p < n ∧ fed (sc_feed s) p t ∧ slot s t p = None ∧
    t ∉ done_targets s;
  co_inj : ∀ id1 id2 x, sc_coord_by_id s !! id1 = Some x → sc_coord_by_id s !! id2 = Some x →
    id1 = id2;
  co_live : ∀ t e, sc_live s !! t = Some e → live_ok s t e;
  co_fed : ∀ p t, p < n → fed (sc_feed s) p t →
    t ∈ done_targets s ∨ (∃ id, sc_coord_by_id s !! id = Some (p, t)) ∨ is_Some (slot s t p);
  co_map : ∀ t tg, sc_target_map s !! t = Some tg ↔
    targets !! t = Some tg ∧ t < fd_next_target_index (sc_feed s) ∧ t ∉ done_targets s;
  co_done : NoDup (done_targets s);
  co_done_fed : ∀ t p, t ∈ done_targets s → p < n → fed (sc_feed s) p t;
  co_complete : Forall scan_complete (delivered s);
}.

(** ** The feed *)

Hypothesis Hn : 0 < n.

Lemma feed_next_cases (f : Feed) (tm : gmap nat ResolvedTarget) :
  feed_wf f →
  (∃ tc np, fd_current f = Some (tc, np) ∧ np < n ∧
     feed_next f tm = (mkFeed (fd_targets f) n (fd_next_target_index f) (Some (tc, S np)), tm,
                       Some (np, tc))) ∨
  (∃ tg, targets !! fd_next_target_index f = Some tg ∧
     (fd_current f = None ∨ ∃ tc, fd_current f = Some (tc, n)) ∧
     feed_next f tm =
       (mkFeed (drop (S (fd_next_target_index f)) targets) n (S (fd_next_target_index f))
          (Some (fd_next_target_index f, 1)),
        <[fd_next_target_index f := tg]> tm, Some (0, fd_next_target_index f))) ∨
  (remaining_starts f = 0 ∧ length targets ≤ fd_next_target_index f ∧
     feed_next f tm = (f, tm, None)).
Proof using Hn.
  intros (Hnp & Htl & Hcur). unfold feed_next. destruct f as [ts np next cur]; simpl in *. subst np.
  assert (feed_pending n cur = None →
    (cur = None ∨ ∃ tc, cur = Some (tc, n)) ∧
    match cur with Some (_, np) => n - np | None => 0 end = 0) as Hfull.
  { destruct cur as [[tc np]|]; simpl; [|naive_solver].
    destruct (Nat.ltb_spec np n); [done|]. destruct Hcur as (_ & Hle & _). intros _.
    assert (np = n) as -> by lia. split; [naive_solver|lia]. }
  destruct (feed_pending n cur) as [[tc np]|] eqn:Hpend.
  - left. destruct cur as [[tc' np']|]; simpl in Hpend; [|done].
    destruct (Nat.ltb_spec np' n) as [Hlt|]; [|done]. injection Hpend as <- <-.
    exists tc', np'. split_and!; [done|done|].
    destruct ts; simpl; by rewrite (proj2 (Nat.ltb_lt np' n) Hlt).
  - right. destruct (Hfull eq_refl) as [Hcur' Hz].
    destruct ts as [|tg ts].
    + right. split_and!; [unfold remaining_starts; simpl; lia| |].
      * apply (f_equal length) in Htl. rewrite length_drop in Htl. simpl in Htl. lia.
      * simpl. by rewrite Hpend.
    + left. assert (targets !! next = Some tg) as Htg.
      { rewrite <-(Nat.add_0_r next), <-lookup_drop, <-Htl. done. }
      exists tg. split_and!; [done|done|].
      assert (ts = drop (S next) targets) as ->.
      { rewrite (drop_S _ tg) in Htl by done. congruence. }
      simpl. rewrite Hpend. apply Nat.ltb_lt in Hn.
      destruct (drop (S next) targets); simpl; by rewrite Hn.
Qed.
(** A start handed out by the feed extends what is fed by exactly itself, in order,
    and its target is in the map. *)
Lemma feed_next_spec (f : Feed) (tm : gmap nat ResolvedTarget) (D : list nat) :
  feed_wf f →
  (∀ t tg, tm !! t = Some tg ↔ targets !! t = Some tg ∧ t < fd_next_target_index f ∧ t ∉ D) →
  (∀ t p, t ∈ D → p < n → fed f p t) →
  ∃ f' tm' r, feed_next f tm = (f', tm', r) ∧ feed_wf f' ∧
    (∀ t tg, tm' !! t = Some tg ↔
       targets !! t = Some tg ∧ t < fd_next_target_index f' ∧ t ∉ D) ∧
    match r with
    | Some (p, t) =>
        p < n ∧ (¬ fed f p t) ∧ (∀ p' t', fed f p' t' → fed f' p' t') ∧ fed f' p t ∧
        (∀ p' t', p' < n → fed f' p' t' → fed f p' t' ∨ (p' = p ∧ t' = t)) ∧
        (∃ tg, tm' !! t = Some tg) ∧ (t ∉ D) ∧ S (remaining_starts f') = remaining_starts f
    | None => f' = f ∧ tm' = tm ∧ remaining_starts f = 0
    end.
Proof using Hn.
  intros Hwf Hmap HD.
  destruct (feed_next_cases f tm Hwf)
    as [(tc & np & Hcur & Hnp & ->) | [(tg & Htg & Hcur & ->) | (Hz & _ & ->)]].
  - destruct Hwf as (Hn' & Htl & Hc). rewrite Hcur in Hc. destruct Hc as (Hnext & _ & Htc).
    assert (tc ∉ D) as HtcD.
    { intros Hin. pose proof (HD tc np Hin Hnp) as Hfed. unfold fed in Hfed. rewrite Hcur in Hfed. lia. }
    do 3 eexists. split; [done|]. unfold feed_wf, fed, remaining_starts; simpl. rewrite Hcur.
    split_and!; try done; try lia; try (intros; lia).
    apply lookup_lt_is_Some_2 in Htc as [tg Htg]. exists tg. apply Hmap. split_and!; [done|lia|done].
  - pose proof (lookup_lt_Some _ _ _ Htg) as Hlt.
    assert (fd_next_target_index f ∉ D) as HnD.
    { intros Hin. pose proof (HD _ 0 Hin Hn) as Hfed. unfold fed in Hfed.
      destruct Hwf as (_ & _ & Hc).
      destruct Hcur as [Hcur | [tc Hcur]]; rewrite Hcur in Hc, Hfed; lia. }
    destruct Hwf as (Hn' & Htl & Hc).
    do 3 eexists. split; [done|]. unfold feed_wf, fed, remaining_starts; simpl.
    split_and!; try done; try lia.
    + intros t x. rewrite lookup_insert_Some, Hmap. destruct (decide (fd_next_target_index f = t)) as [<-|].
      * split; [|naive_solver]. intros [[_ ->] | [? _]]; [|done]. split_and!; [done|lia|done].
      * split; [intros [[? _] | (_ & ? & ? & ?)]; [done|split_and!; [done|lia|done]]|].
        intros (? & ? & ?). right. split_and!; [done..| |done]. lia.
    + destruct Hcur as [Hcur | [tc Hcur]]; rewrite Hcur in Hc |- *; lia.
    + intros p t. destruct Hcur as [Hcur | [tc Hcur]]; rewrite Hcur in Hc |- *; lia.
    + intros p t Hp. destruct Hcur as [Hcur | [tc Hcur]]; rewrite Hcur in Hc |- *; lia.
    + exists tg. by rewrite lookup_insert_eq.
    + rewrite Htl, length_drop, Hn', length_drop.
      destruct Hcur as [Hcur | [tc Hcur]]; rewrite Hcur; nia.
  - do 3 eexists. split; [done|]. by split_and!.
Qed.

(** The invariant reads the phase and the sent list only through what is delivered. *)
Lemma core_same (s s' : Scan') :
  sc_feed s' = sc_feed s → sc_target_map s' = sc_target_map s → sc_set s' = sc_set s →
  sc_coord_by_id s' = sc_coord_by_id s → sc_live s' = sc_live s → delivered s' = delivered s →
  core s → core s'.
Proof using Type.
  intros Hf Hm Hs Hc Hl Hd [].
  assert (done_targets s' = done_targets s) as Hdone by (unfold done_targets; by rewrite Hd).
  constructor; unfold slot; rewrite ?Hf, ?Hm, ?Hs, ?Hc, ?Hl, ?Hdone, ?Hd; auto.
  intros t e He. destruct (co_live0 t e He). constructor; rewrite ?Hf, ?Hdone; auto.
Qed.
(** What a step on the scheduler's maps leaves alone. *)
Definition same_frame (s s' : Scan') : Prop :=
  sc_phase s' = sc_phase s ∧ sc_cancel s' = sc_cancel s ∧ sc_receiver s' = sc_receiver s ∧
  sc_sent s' = sc_sent s ∧ sc_live s' = sc_live s.

(** Starting the next probe succeeds and keeps the invariant; it fills one more place
    of the window unless the feed is exhausted. *)
Lemma start_next_core (s : Scan') (fresh : positive) :
  core s → sc_set s !! fresh = None →
  ∃ s' b, start_next probers fresh s = Some (s', b) ∧ core s' ∧ same_frame s s' ∧
    if b : bool then
      size (sc_set s') = S (size (sc_set s)) ∧
      S (remaining_starts (sc_feed s')) = remaining_starts (sc_feed s)
    else sc_set s' = sc_set s ∧ sc_feed s' = sc_feed s ∧ remaining_starts (sc_feed s) = 0.
Proof using Hn.
  intros Hc Hfresh. destruct Hc.
  destruct (feed_next_spec (sc_feed s) (sc_target_map s) (done_targets s))
    as (f' & tm' & r & Hnext & Hwf' & Hmap' & Hr); [done..|].
  unfold start_next. rewrite Hnext. destruct r as [[p t]|].
  2:{ destruct Hr as (-> & -> & Hz). eexists _, false. split; [done|]. split; [|done].
      apply (core_same s); by try constructor. }
  destruct Hr as (Hp & Hnf & Hmono & Hf' & Hinv & [tg Htg] & HtD & Hrem).
  destruct (lookup_lt_is_Some_2 probers p Hp) as [pr Hpr]. simpl. rewrite Hpr. simpl. rewrite Htg.
  simpl. eexists _, true. split; [done|].
  assert (sc_coord_by_id s !! fresh = None) as Hcf.
  { apply eq_None_not_Some. intros [[p' t'] Hx]. apply co_coord0 in Hx as [[? ?] _]. congruence. }
  assert (slot s t p = None) as Hslot.
  { apply eq_None_not_Some. intros [x Hx]. apply Hnf. unfold slot in Hx.
    apply bind_Some in Hx as (e & He & Hx). apply bind_Some in Hx as (o & Ho & Hx).
    unfold id in Hx; subst o. by apply (lo_own _ _ _ (co_live0 _ _ He)) in Ho as [? _]. }
  split; [|split; [done|simpl; split; [by rewrite map_size_insert_None|done]]].
  constructor; simpl; try done.
  - intros id tk. rewrite lookup_insert_Some. intros [[<- <-] | [Hne Htk]].
    + exists p, t, pr, tg. rewrite lookup_insert_eq. split_and!; try done. by apply Hmap' in Htg as [? _].
    + rewrite lookup_insert_ne by done. by apply co_task0.
  - intros id p' t'. rewrite lookup_insert_Some. intros [[<- Heq] | [Hne Hx]].
    + injection Heq as <- <-. rewrite lookup_insert_eq. split_and!; [by eexists|done..].
    + rewrite lookup_insert_ne by done. apply co_coord0 in Hx as (? & ? & ? & ? & ?).
      split_and!; try done. by apply Hmono.
  - intros id1 id2 x. rewrite !lookup_insert_Some.
    intros [[<- <-] | [Hne1 H1]] [[<- Heq] | [Hne2 H2]]; try done.
    + apply co_coord0 in H2 as (_ & _ & ? & _). done.
    + subst x. apply co_coord0 in H1 as (_ & _ & ? & _). done.
    + by apply (co_inj0 id1 id2 x).
  - intros t' e He. destruct (co_live0 t' e He) as [? ? ? ? Hown]. constructor; try done.
    intros p' x Hx. destruct (Hown p' x Hx). split; [by apply Hmono|done].
  - intros p' t' Hp' Hfed. destruct (Hinv p' t' Hp' Hfed) as [Hold | [-> ->]].
    + destruct (co_fed0 p' t' Hp' Hold) as [?|[[id Hid]|?]]; [by left| |by right; right].
      right; left. exists id. rewrite lookup_insert_ne; [done|congruence].
    + right; left. exists fresh. by rewrite lookup_insert_eq.
  - intros t' p' Hin Hp'. apply Hmono. by apply co_done_fed0.
Qed.
(** ** Filing an outcome *)

Definition entry_of (s : Scan') (t : nat) : PartialTarget :=
  default (partial_new n) (sc_live s !! t).

Lemma entry_slot (s : Scan') t p : slot s t p = pt_outcomes (entry_of s t) !! p ≫= id.
Proof using Type.
  clear Hn.
  unfold slot, entry_of. destruct (sc_live s !! t); [done|]. simpl.
  destruct (decide (p < n)); [by rewrite lookup_replicate_2|].
  by rewrite lookup_ge_None_2 by (rewrite length_replicate; lia).
Qed.

(** The slots an in-flight probe reports to. *)
Lemma entry_ok (s : Scan') id p t :
  core s → sc_coord_by_id s !! id = Some (p, t) →
  let e := entry_of s t in
  length (pt_outcomes e) = n ∧ pt_outcomes e !! p = Some None ∧
  pt_completed e = filled (pt_outcomes e) ∧ pt_completed e < n ∧
  ∀ p' r, pt_outcomes e !! p' = Some (Some r) → fed (sc_feed s) p' t ∧ outcome_of p' t r.
Proof using Hn.
  intros Hc Hid e. apply Hc in Hid as (_ & Hp & _ & Hslot & _).
  rewrite entry_slot in Hslot. fold e in Hslot.
  assert (length (pt_outcomes e) = n ∧ pt_completed e = filled (pt_outcomes e) ∧
    pt_completed e < n ∧
    ∀ p' r, pt_outcomes e !! p' = Some (Some r) → fed (sc_feed s) p' t ∧ outcome_of p' t r)
    as (Hlen & Hfill & Hlt & Hown).
  { subst e. unfold entry_of. destruct (sc_live s !! t) as [e|] eqn:He; simpl.
    - destruct (co_live _ Hc _ _ He). split_and!; auto; lia.
    - rewrite length_replicate, filled_replicate. split_and!; try done.
      intros p' r Hr. apply lookup_replicate in Hr as [? _]. done. }
  split_and!; try done.
  destruct (lookup_lt_is_Some_2 (pt_outcomes e) p) as [o Ho]; [lia|].
  rewrite Ho in Hslot |- *. by destruct o.
Qed.

(** The entry once the outcome of prober [p] is in. *)
Definition entry_with (s : Scan') (p t : nat) (r : Result RastreoError ProbeOutcome)
    : PartialTarget :=
  mkPartialTarget (<[p := Some r]> (pt_outcomes (entry_of s t))) (S (pt_completed (entry_of s t))).

Lemma entry_with_ok (s : Scan') id tk p t j :
  core s → sc_set s !! id = Some tk → ends_with probe ctx tk j →
  sc_coord_by_id s !! id = Some (p, t) →
  let e := entry_with s p t (joined_outcome j) in
  length (pt_outcomes e) = n ∧ pt_completed e = filled (pt_outcomes e) ∧ pt_completed e ≤ n ∧
  (∀ p' r, pt_outcomes e !! p' = Some (Some r) → fed (sc_feed s) p' t ∧ outcome_of p' t r).
Proof using Hn.
  intros Hc Htk Hj Hid. destruct (entry_ok s id p t Hc Hid) as (Hlen & Hp & Hfill & Hlt & Hown).
  simpl. rewrite length_insert, filled_insert, <-Hfill by done. split_and!; try done.
  intros p' r. rewrite list_lookup_insert_Some. intros [(<- & Heq & _) | [_ Hr]]; [|by apply Hown].
  injection Heq as <-. apply Hc in Htk as (p' & t' & pr & tg & Hid' & Hpr & Htg & ->).
  rewrite Hid in Hid'. injection Hid' as <- <-. apply Hc in Hid as (_ & _ & ? & _).
  split; [done|]. by exists pr, tg, j.
Qed.

Definition forget (id : positive) (s : Scan') : Scan' :=
  set_tasks (delete id (sc_set s)) (delete id (sc_coord_by_id s)) s.

(** Dropping a joined task and filing its outcome, the target still open. *)
Lemma file_open (s : Scan') id tk p t j :
  core s → sc_set s !! id = Some tk → ends_with probe ctx tk j →
  sc_coord_by_id s !! id = Some (p, t) →
  let e := entry_with s p t (joined_outcome j) in
  pt_completed e ≠ n →
  core (set_live (<[t := e]> (sc_live s)) (forget id s)).
Proof using Hn.
  intros Hc Htk Hj Hid e Hne.
  destruct (entry_with_ok s id tk p t j Hc Htk Hj Hid) as (Hlen & Hfill & Hle & Hown). fold e in Hlen, Hfill, Hle, Hown.
  destruct (co_coord _ Hc _ _ _ Hid) as (_ & Hp & Hfed & Hslot & HtD).
  assert (∀ t' p', slot (set_live (<[t := e]> (sc_live s)) (forget id s)) t' p' =
    if decide (t' = t ∧ p' = p) then Some (joined_outcome j) else slot s t' p') as Hslots.
  { intros t' p'. unfold slot at 1. simpl. destruct (decide (t' = t)) as [->|Hnt].
    - rewrite lookup_insert_eq. simpl. rewrite entry_slot. destruct (decide (p' = p)) as [->|Hnp].
      + rewrite decide_True by done. rewrite list_lookup_insert_eq; [done|].
        by destruct (entry_ok s id p t Hc Hid) as (-> & _).
      + rewrite decide_False by naive_solver. by rewrite list_lookup_insert_ne.
    - rewrite lookup_insert_ne by done. rewrite decide_False by naive_solver. done. }
  destruct Hc. constructor; try done.
  - intros id' tk'. simpl. rewrite lookup_delete_Some. intros [Hni Htk'].
    rewrite lookup_delete_ne by done. by apply co_task0.
  - intros id' p' t'. simpl. rewrite lookup_delete_Some. intros [Hni Hid'].
    rewrite lookup_delete_ne by done. destruct (co_coord0 _ _ _ Hid') as (? & ? & ? & ? & ?).
    split_and!; try done. rewrite Hslots. rewrite decide_False; [done|].
    intros [-> ->]. apply Hni. by apply (co_inj0 id id' (p, t)).
  - intros id1 id2 x. simpl. rewrite !lookup_delete_Some. intros [_ H1] [_ H2].
    by apply (co_inj0 id1 id2 x).
  - intros t' e'. simpl. rewrite lookup_insert_Some. intros [[<- <-] | [Hnt He']].
    + constructor; try done. simpl in *. lia.
    + destruct (co_live0 _ _ He'). by constructor.
  - intros p' t' Hp' Hf. destruct (decide (t' = t ∧ p' = p)) as [[-> ->]|Hn'].
    { right; right. rewrite Hslots, decide_True by done. by eexists. }
    destruct (co_fed0 p' t' Hp' Hf) as [?|[[id' Hid']|Hs]]; [by left| |].
    + right; left. exists id'. simpl. rewrite lookup_delete_ne; [done|]. intros ->.
      rewrite Hid in Hid'. apply Hn'. by simplify_eq.
    + right; right. by rewrite Hslots, decide_False.
Qed.
(** The state once the last outcome of [t] is in and its scan is ready to send. *)
Definition hand_over (id : positive) (t : nat) (scan : TargetScan) (s : Scan') : Scan' :=
  set_phase (Sending scan) (set_live (delete t (sc_live s))
    (set_feed (sc_feed s) (delete t (sc_target_map s)) (forget id s))).

Lemma file_last (s : Scan') id tk p t j :
  core s → sc_phase s = Joining → sc_set s !! id = Some tk → ends_with probe ctx tk j →
  sc_coord_by_id s !! id = Some (p, t) →
  let e := entry_with s p t (joined_outcome j) in
  pt_completed e = n →
  ∃ outcomes, unwrap_slots (pt_outcomes e) = Some outcomes ∧
    core (hand_over id t (mkTargetScan t outcomes) s).
Proof using Hn.
  intros Hc Hph Htk Hj Hid e Heq.
  destruct (entry_with_ok s id tk p t j Hc Htk Hj Hid) as (Hlen & Hfill & Hle & Hown). fold e in Hlen, Hfill, Hle, Hown.
  destruct (co_coord _ Hc _ _ _ Hid) as (_ & Hp & Hfed & Hslot & HtD).
  destruct (filled_all (pt_outcomes e)) as [rs Hrs]; [congruence|].
  exists (imap pair rs). split; [rewrite Hrs; apply unwrap_slots_filled|].
  assert (∀ p', p' < n → fed (sc_feed s) p' t) as Hallfed.
  { intros p' Hp'. destruct (lookup_lt_is_Some_2 rs p') as [r Hr].
    { rewrite Hrs, length_fmap in Hlen. lia. }
    apply (Hown p' r). by rewrite Hrs, list_lookup_fmap, Hr. }
  assert (∀ id' p', sc_coord_by_id s !! id' = Some (p', t) → id' = id) as Honly.
  { intros id' p' Hid'. destruct (co_coord _ Hc _ _ _ Hid') as (_ & Hp' & _ & Hs' & _).
    destruct (decide (p' = p)) as [->|Hnp]; [by apply (co_inj _ Hc id' id (p, t))|].
    rewrite entry_slot in Hs'.
    assert (pt_outcomes e !! p' = pt_outcomes (entry_of s t) !! p') as Hsame
      by (unfold e; simpl; by rewrite list_lookup_insert_ne).
    rewrite <-Hsame, Hrs, list_lookup_fmap in Hs'.
    destruct (lookup_lt_is_Some_2 rs p') as [r Hr]; [rewrite Hrs, length_fmap in Hlen; lia|].
    by rewrite Hr in Hs'. }
  assert (done_targets (hand_over id t (mkTargetScan t (imap pair rs)) s) = done_targets s ++ [t]) as Hdone.
  { unfold done_targets, delivered. simpl. rewrite Hph, app_nil_r. by rewrite fmap_app. }
  destruct Hc. constructor; rewrite ?Hdone; try done.
  - intros id' tk'. simpl. rewrite lookup_delete_Some. intros [Hni Htk'].
    rewrite lookup_delete_ne by done. by apply co_task0.
  - intros id' p' t'. simpl. rewrite lookup_delete_Some. intros [Hni Hid'].
    rewrite lookup_delete_ne by done. destruct (co_coord0 _ _ _ Hid') as (? & ? & ? & Hs' & ?).
    assert (t' ≠ t) by (intros ->; by apply Hni, eq_sym, (Honly id' p')).
    split_and!; try done; [|set_solver].
    unfold slot. simpl. by rewrite lookup_delete_ne.
  - intros id1 id2 x. simpl. rewrite !lookup_delete_Some. intros [_ H1] [_ H2].
    by apply (co_inj0 id1 id2 x).
  - intros t' e'. simpl. rewrite lookup_delete_Some. intros [Hnt He'].
    destruct (co_live0 _ _ He'). constructor; try done. rewrite Hdone. set_solver.
  - intros p' t' Hp' Hf. destruct (decide (t' = t)) as [->|Hnt]; [left; set_solver|].
    destruct (co_fed0 p' t' Hp' Hf) as [?|[[id' Hid']|Hs]]; [left; set_solver| |].
    + right; left. exists id'. simpl. rewrite lookup_delete_ne; [done|]. intros ->.
      rewrite Hid in Hid'. by simplify_eq.
    + right; right. unfold slot. simpl. by rewrite lookup_delete_ne.
  - intros t' tg. simpl. rewrite lookup_delete_Some, co_map0. set_solver.
  - apply NoDup_app. split_and!; [done| |by apply NoDup_singleton]. set_solver.
  - intros t' p' Hin Hp'. apply elem_of_app in Hin as [Hin|Hin%list_elem_of_singleton].
    + by apply co_done_fed0.
    + subst t'. by apply Hallfed.
  - unfold delivered in *. simpl. rewrite Hph, app_nil_r in co_complete0. apply Forall_app. split; [done|].
    apply Forall_singleton. exists rs. split_and!; [done|by rewrite <-Hlen, Hrs, length_fmap|].
    intros p' r Hr. apply Hown. by rewrite Hrs, list_lookup_fmap, Hr.
Qed.
(** ** One turn of the join loop *)

(** Starting a probe neither reads nor writes the phase and the outcomes. *)
Lemma start_next_commutes (s s' : Scan') fresh ph live b :
  start_next probers fresh (set_phase ph (set_live live s)) = Some (s', b) →
  ∃ s0, start_next probers fresh s = Some (s0, b) ∧ sc_live s0 = sc_live s ∧
    s' = set_phase ph (set_live live s0).
Proof using Type.
  unfold start_next. simpl. destruct (feed_next (sc_feed s) (sc_target_map s)) as [[f tm] [[p t]|]];
    simpl; [|by intros [= <- <-]; eexists].
  destruct (probers !! p); simpl; [|done].
  destruct (tm !! t); simpl; [|done]. by intros [= <- <-]; eexists.
Qed.

(** How a turn of the join loop changes the window and the feed. *)
Definition turned (s s' : Scan') : Prop :=
  sc_cancel s' = sc_cancel s ∧ sc_receiver s' = sc_receiver s ∧ sc_sent s' = sc_sent s ∧
  (sc_phase s' = Joining ∨ ∃ x, sc_phase s' = Sending x) ∧
  (if sc_cancel s then
     S (size (sc_set s')) = size (sc_set s) ∧ sc_feed s' = sc_feed s
   else
     (size (sc_set s') = size (sc_set s) ∧
      S (remaining_starts (sc_feed s')) = remaining_starts (sc_feed s)) ∨
     (S (size (sc_set s')) = size (sc_set s) ∧ sc_feed s' = sc_feed s ∧
      remaining_starts (sc_feed s) = 0)).

(** Refilling the window after a joined task: [s] before the turn, [s1] with the
    outcome filed. *)
Lemma refill (s s1 : Scan') id fresh :
  core s1 → sc_set s1 = delete id (sc_set s) → is_Some (sc_set s !! id) →
  sc_feed s1 = sc_feed s → sc_cancel s1 = sc_cancel s → sc_receiver s1 = sc_receiver s →
  sc_sent s1 = sc_sent s → (sc_phase s1 = Joining ∨ ∃ x, sc_phase s1 = Sending x) →
  delete id (sc_set s) !! fresh = None →
  ∃ s2 b, (if sc_cancel s1 then Some (s1, false) else start_next probers fresh s1) = Some (s2, b) ∧
    core s2 ∧ turned s s2.
Proof using Hn.
  intros Hc Hset [tk Htk] Hfeed Hcan Hrec Hsent Hph Hfresh.
  assert (S (size (sc_set s1)) = size (sc_set s)) as Hsize.
  { rewrite Hset, map_size_delete_Some by eauto.
    assert (size (sc_set s) ≠ 0); [|lia]. intros Hz%map_size_empty_iff. by rewrite Hz in Htk. }
  unfold turned. destruct (sc_cancel s1) eqn:Hc1.
  - exists s1, false. split_and!; try done; try congruence. by rewrite <-Hcan.
  - rewrite <-Hset in Hfresh. destruct (start_next_core s1 fresh Hc Hfresh)
      as (s2 & b & Hs2 & Hc2 & (Hf1 & Hf2 & Hf3 & Hf4 & _) & Hb).
    exists s2, b. split_and!; try done; try congruence; [by rewrite Hf1|]. rewrite <-Hcan.
    destruct b.
    + left. rewrite Hfeed in Hb. destruct Hb. split; [lia|done].
    + right. destruct Hb as (-> & -> & Hb). by rewrite <-Hfeed.
Qed.

Lemma record_outcome_eq (s : Scan') id p t r :
  p < length (pt_outcomes (entry_of s t)) →
  record_outcome n p t r (forget id s) =
    let s1 := set_live (<[t := entry_with s p t r]> (sc_live s)) (forget id s) in
    if pt_completed (entry_with s p t r) =? n
    then Some (set_feed (sc_feed s) (delete t (sc_target_map s)) s1, Some t)
    else Some (s1, None).
Proof using Type.
  intros Hp%Nat.ltb_lt. unfold record_outcome. change (sc_live (forget id s)) with (sc_live s).
  fold (entry_of s t). by rewrite Hp.
Qed.

Lemma join_body_core (s : Scan') id tk j fresh :
  core s → sc_phase s = Joining → sc_set s !! id = Some tk → ends_with probe ctx tk j →
  delete id (sc_set s) !! fresh = None →
  ∃ s', join_body probers id j fresh s = Some s' ∧ core s' ∧ turned s s'.
Proof using Hn.
  intros Hc Hph Htk Hj Hfresh.
  destruct (co_task _ Hc _ _ Htk) as (p & t & pr & tg & Hid & _).
  destruct (entry_ok s id p t Hc Hid) as (Hlen & _).
  pose proof (co_coord _ Hc _ _ _ Hid) as (_ & Hp & _).
  unfold join_body. rewrite Hid. fold (forget id s). cbv beta zeta.
  rewrite record_outcome_eq by lia. cbv zeta.
  destruct (Nat.eqb_spec (pt_completed (entry_with s p t (joined_outcome j))) n) as [Heq|Hne].
  - destruct (file_last s id tk p t j Hc Hph Htk Hj Hid Heq) as (outcomes & Hout & Hc1).
    destruct (refill s _ id fresh Hc1) as (s2 & b & Hs2 & Hc2 & Hturn); try done; [eauto..|].
    simpl in *. destruct (sc_cancel s) eqn:Hcan.
    + injection Hs2 as <- <-. simpl. unfold take_ready. simpl.
      rewrite lookup_insert_eq. simpl.
      rewrite Hout. simpl. rewrite delete_insert_eq. eexists. split; [done|]. split; done.
    + apply (start_next_commutes (set_feed (sc_feed s) (delete t (sc_target_map s))
        (set_live (<[t := entry_with s p t (joined_outcome j)]> (sc_live s)) (forget id s))))
        in Hs2 as (s0 & Hs0 & Hl0 & ->).
      eexists. split; [refine (eq_trans (f_equal (λ o, o ≫= _) Hs0) _); simpl|split; [exact Hc2|exact Hturn]].
      unfold take_ready. rewrite Hl0. simpl.
      rewrite lookup_insert_eq. simpl. rewrite Hout. simpl. by rewrite delete_insert_eq.
  - pose proof (file_open s id tk p t j Hc Htk Hj Hid Hne) as Hc1.
    destruct (refill s _ id fresh Hc1) as (s2 & b & Hs2 & Hc2 & Hturn); try done; [eauto..|].
    simpl in *. rewrite Hs2. simpl. eauto.
Qed.
(** ** The window *)

Definition in_flight (s : Scan') : gset nat :=
  list_to_set ((λ x, x.2.2) <$> map_to_list (sc_coord_by_id s)).

Lemma elem_of_in_flight (s : Scan') t :
  t ∈ in_flight s ↔ ∃ id p, sc_coord_by_id s !! id = Some (p, t).
Proof using Type.
  unfold in_flight. rewrite elem_of_list_to_set, list_elem_of_fmap. split.
  - intros ([id [p t']] & -> & Hin). apply elem_of_map_to_list in Hin. eauto.
  - intros (id & p & Hin). exists (id, (p, t)). by rewrite elem_of_map_to_list.
Qed.

(** A target all of whose probes were started is delivered or has one in flight. *)
Lemma fed_in_flight (s : Scan') t :
  core s → (∀ p, p < n → fed (sc_feed s) p t) → t ∉ done_targets s → t ∈ in_flight s.
Proof using Hn.
  intros Hc Hfed HtD. destruct (decide (t ∈ in_flight s)) as [|Hout]; [done|]. exfalso.
  assert (∀ p, p < n → is_Some (slot s t p)) as Hslots.
  { intros p Hp. destruct (co_fed _ Hc p t Hp (Hfed p Hp)) as [?|[[id Hid]|?]]; [done| |done].
    exfalso. apply Hout, elem_of_in_flight. eauto. }
  destruct (Hslots 0 Hn) as [r Hr]. unfold slot in Hr. apply bind_Some in Hr as (e & He & _).
  destruct (co_live _ Hc _ _ He) as [_ Hlen Hfill Hlt _].
  rewrite Hfill, filled_complete, Hlen in Hlt; [lia|].
  intros p Hp. rewrite Hlen in Hp. specialize (Hslots p Hp). unfold slot in Hslots.
  by rewrite He in Hslots.
Qed.

Lemma size_in_flight (s : Scan') : core s → size (in_flight s) ≤ size (sc_set s).
Proof using Type.
  clear Hn.
  intros Hc. transitivity (size (sc_coord_by_id s)).
  - unfold in_flight.
    assert (∀ l : list nat, size (list_to_set l : gset nat) ≤ length l) as Hle.
    { induction l as [|x l IH]; [done|]. simpl. rewrite size_union_alt, size_singleton.
      assert (size (list_to_set l ∖ {[x]} : gset nat) ≤ size (list_to_set l : gset nat)); [|lia].
      apply subseteq_size. clear. set_solver. }
    rewrite Hle, length_fmap. by rewrite length_map_to_list.
  - rewrite <-!size_dom. apply subseteq_size. intros id Hid.
    apply elem_of_dom in Hid as [[p t] Hid]. apply Hc in Hid as [? _]. by apply elem_of_dom.
Qed.
Lemma core_memory (s : Scan') :
  core s →
  size (sc_target_map s) ≤ S (size (sc_set s)) ∧ size (sc_live s) ≤ size (sc_target_map s).
Proof using Hn.
  intros Hc. split.
  - pose (cur := match fd_current (sc_feed s) with Some (tc, _) => {[tc]} | None => ∅ end : gset nat).
    assert (size cur ≤ 1) as Hcur.
    { subst cur. destruct (fd_current (sc_feed s)) as [[tc np]|]; [by rewrite size_singleton|].
      rewrite size_empty. lia. }
    pose proof (size_in_flight s Hc) as Hfl.
    assert (dom (sc_target_map s) ⊆ cur ∪ in_flight s) as Hsub.
    { intros t [tg Htg]%elem_of_dom. apply Hc in Htg as (_ & Hlt & HtD).
      apply elem_of_union. subst cur. pose proof (co_feed _ Hc) as (_ & _ & Hcu).
      destruct (fd_current (sc_feed s)) as [[tc np]|] eqn:Hcc; [|lia].
      destruct (decide (t = tc)) as [->|Hne]; [left; by apply elem_of_singleton|right].
      apply fed_in_flight; [done| |done]. intros p Hp. unfold fed. rewrite Hcc. lia. }
    apply subseteq_size in Hsub. rewrite size_dom, size_union_alt in Hsub.
    assert (size (in_flight s ∖ cur) ≤ size (in_flight s)); [|lia].
    apply subseteq_size. clear. set_solver.
  - rewrite <-!size_dom. apply subseteq_size. intros t [e He]%elem_of_dom.
    destruct (co_live _ Hc _ _ He) as [HtD _ Hfill Hlt Hown].
    destruct (omap id (pt_outcomes e)) as [|r rs] eqn:Ho; [unfold filled in Hfill; rewrite Ho in Hfill; simpl in Hfill; lia|].
    assert (r ∈ omap id (pt_outcomes e)) as Hr by (rewrite Ho; left).
    apply list_elem_of_omap in Hr as (o & Hin & Heq). change (id o) with o in Heq. subst o.
    apply list_elem_of_lookup in Hin as [p Hin]. apply Hown in Hin as [Hf (_ & tg & _ & _ & Htg & _)].
    apply elem_of_dom. exists tg. apply Hc. split_and!; [done| |done].
    pose proof (co_feed _ Hc) as (_ & _ & Hcu). unfold fed in Hf.
    destruct (fd_current (sc_feed s)) as [[tc np]|]; [lia|done].
Qed.

(** Once nothing is in flight, the delivered targets are the fully started ones: a
    prefix of the stream, all of it when the feed is exhausted. *)
Lemma drained_prefix (s : Scan') :
  core s → sc_set s = ∅ →
  ∃ m, m ≤ length targets ∧ done_targets s ≡ₚ seq 0 m ∧
    (remaining_starts (sc_feed s) = 0 → m = length targets).
Proof using Hn.
  intros Hc Hset. pose proof (co_feed _ Hc) as (Hnp & Htl & Hcu).
  pose (m := match fd_current (sc_feed s) with
             | Some (tc, np) => if decide (np = n) then S tc else tc
             | None => 0 end).
  exists m. split; [|split].
  - subst m. destruct (fd_current (sc_feed s)) as [[tc np]|]; [|lia]. case_decide; lia.
  - apply NoDup_Permutation; [apply Hc|apply NoDup_seq|]. intros t. rewrite elem_of_seq. split.
    + intros Hin. pose proof (co_done_fed _ Hc t (n - 1) Hin ltac:(lia)) as Hf. subst m.
      unfold fed in Hf. destruct (fd_current (sc_feed s)) as [[tc np]|]; [|done]. case_decide; lia.
    + intros [_ Hlt]. destruct (decide (t ∈ done_targets s)) as [|HtD]; [done|].
      assert (t ∈ in_flight s) as Hfl.
      { apply fed_in_flight; [done| |done]. intros p Hp. subst m. unfold fed.
        destruct (fd_current (sc_feed s)) as [[tc np]|]; [|lia]. case_decide; lia. }
      apply elem_of_in_flight in Hfl as (id & p & Hid). apply Hc in Hid as [[tk Htk] _].
      by rewrite Hset in Htk.
  - intros Hz. unfold remaining_starts in Hz. rewrite Htl, length_drop, Hnp in Hz. subst m.
    destruct (fd_current (sc_feed s)) as [[tc np]|]; [|nia]. case_decide; nia.
Qed.
(** ** Every step *)

Hypothesis Hcap : 0 < cap.

(** The window is kept full: while the scan is not cancelled, [cap] probes are in
    flight unless the feed has nothing left. *)
Definition window (s : Scan') : Prop :=
  match sc_phase s with
  | Priming k => size (sc_set s) + k ≤ cap ∧ (sc_cancel s = false → size (sc_set s) + k = cap)
  | Joining | Sending _ =>
      size (sc_set s) ≤ cap ∧
      (sc_cancel s = false → size (sc_set s) = cap ∨ remaining_starts (sc_feed s) = 0)
  | Finished => sc_set s = ∅ ∧ (sc_cancel s = false → remaining_starts (sc_feed s) = 0)
  end.

(** The state of a scan whose consumer went away. *)
Record abandoned (s : Scan') : Prop := {
  ab_phase : sc_phase s = Finished;
  ab_receiver : sc_receiver s = false;
  ab_set : sc_set s = ∅;
  ab_complete : Forall scan_complete (sc_sent s);
  ab_nodup : NoDup (ts_target_index <$> sc_sent s);
  ab_memory : size (sc_target_map s) ≤ S cap ∧ size (sc_live s) ≤ S cap;
}.

Definition scan_inv (s : Scan') : Prop := (core s ∧ window s) ∨ abandoned s.

Definition weight (ph : Phase) : nat :=
  match ph with Priming k => k + 2 | Sending _ => 2 | Joining => 1 | Finished => 0 end.

Definition measure (s : Scan') : nat :=
  3 * remaining_starts (sc_feed s) + 2 * size (sc_set s) + weight (sc_phase s) +
  (if sc_cancel s then 0 else 1) + (if sc_receiver s then 1 else 0).

Lemma window_size (s : Scan') : window s → size (sc_set s) ≤ cap.
Proof using Hcap Hn.
  unfold window. destruct (sc_phase s); try lia. intros [-> _]. rewrite map_size_empty. lia.
Qed.

Lemma prime_core (s : Scan') k fresh :
  core s → window s → sc_phase s = Priming k → sc_set s !! fresh = None →
  ∃ s', prime probers k fresh s = Some s' ∧ core s' ∧ window s' ∧ measure s' < measure s.
Proof using Hcap Hn.
  intros Hc Hw Hph Hfresh. unfold window in Hw. rewrite Hph in Hw. destruct Hw as [Hle Hw].
  assert (delivered (set_phase Joining s) = delivered s) as Hdel by (unfold delivered; by rewrite Hph).
  destruct k as [|k]; simpl.
  { eexists. split; [done|]. split; [by apply (core_same s)|]. unfold window, measure; simpl.
    rewrite Hph. simpl. split_and!; [lia|intros ?; left; rewrite <-Hw by done; lia|lia]. }
  destruct (sc_cancel s) eqn:Hcan.
  { eexists. split; [done|]. split; [by apply (core_same s)|]. unfold window, measure; simpl.
    rewrite Hph, Hcan. simpl. split_and!; [lia|done|lia]. }
  destruct (start_next_core s fresh Hc Hfresh) as (s' & b & -> & Hc' & (Hf1 & Hf2 & Hf3 & Hf4 & _) & Hb).
  simpl. eexists. split; [done|]. specialize (Hw eq_refl).
  split; [apply (core_same s'); try done; unfold delivered; simpl; rewrite Hf1, Hph; by destruct b|].
  unfold window, measure; simpl. rewrite Hph, Hf2, Hf3, Hcan. destruct b; simpl.
  - split_and!; lia.
  - destruct Hb as (-> & -> & Hb). split_and!; [lia|by right|lia].
Qed.

Lemma turned_window (s s' : Scan') :
  sc_phase s = Joining → window s → turned s s' → window s' ∧ measure s' < measure s.
Proof using Hcap Hn.
  intros Hph Hw (Hcan & Hrec & _ & Hph' & Hsz). unfold window, measure in *. rewrite Hph in Hw |- *.
  rewrite Hcan, Hrec. destruct (sc_cancel s) eqn:Hc.
  - destruct Hsz as [Hsz ->]. destruct Hph' as [-> | [x ->]]; simpl; split_and!; try done; lia.
  - destruct Hw as [Hle Hw]. destruct (Hw eq_refl) as [Hw' | Hw'];
      (destruct Hsz as [[Hsz Hrem] | (Hsz & -> & Hrem)]);
      (destruct Hph' as [-> | [x ->]]; simpl; repeat split; intros; lia).
Qed.

(** Every step keeps the invariant and brings the end of the scan closer. *)
Lemma scan_step_inv (s s' : Scan') :
  scan_inv s → scan_step probe probers ctx s s' → scan_inv s' ∧ measure s' < measure s.
Proof using Hcap Hn.
  intros [[Hc Hw] | Hab].
  2:{ destruct Hab as [Hph]. by inversion 1; congruence. }
  intros Hstep. destruct Hstep as
    [s Hcan Hph|s Hrec Hph|s k fresh s' Hph Hfresh Hs'|s id tk j fresh s' Hph Htk Hj Hfresh Hs'
    |s Hph Hset|s x Hph Hrec|s x Hph Hrec].
  - split; [left; split; [by apply (core_same s)|]|].
    + unfold window in *. simpl. destruct (sc_phase s); naive_solver.
    + unfold measure. simpl. rewrite Hcan. lia.
  - split; [left; split; [by apply (core_same s)|done]|]. unfold measure. simpl. rewrite Hrec. lia.
  - destruct (prime_core s k fresh Hc Hw Hph Hfresh) as (s2 & Hs2 & Hc2 & Hw2 & Hm).
    rewrite Hs2 in Hs'. injection Hs' as <-. split; [by left|done].
  - destruct (join_body_core s id tk j fresh Hc Hph Htk Hj Hfresh) as (s2 & Hs2 & Hc2 & Ht).
    rewrite Hs2 in Hs'. injection Hs' as <-.
    destruct (turned_window s s2 Hph Hw Ht). split; [by left|done].
  - split; [left; split|].
    + apply (core_same s); try done. unfold delivered. simpl. by rewrite Hph.
    + unfold window in *. simpl. rewrite Hph in Hw. split; [done|]. intros Hcan.
      destruct Hw as [_ Hw]. destruct (Hw Hcan) as [Hz|?]; [|done].
      rewrite Hset, map_size_empty in Hz. lia.
    + unfold measure. simpl. rewrite Hph. simpl. lia.
  - split; [left; split|].
    + apply (core_same s); try done. unfold delivered. simpl. by rewrite Hph, app_nil_r.
    + unfold window in *. simpl. by rewrite Hph in Hw.
    + unfold measure. simpl. rewrite Hph. simpl. lia.
  - pose proof (core_memory s Hc) as [Hm1 Hm2]. pose proof (window_size s Hw) as Hsz.
    split; [right|unfold measure; simpl; rewrite Hph, Hrec, map_size_empty; simpl; lia].
    pose proof (co_complete _ Hc) as Hok. pose proof (co_done _ Hc) as Hnd.
    unfold done_targets, delivered in *. rewrite fmap_app in Hnd.
    constructor; simpl; try done; [by apply Forall_app in Hok as [? _]| |lia].
    by apply NoDup_app in Hnd as [? _].
Qed.

Lemma scan_init (cancel : bool) (pacer : option Pacer) :
  scan_inv (run_scan (mkBoundedScheduler cap pacer) probers targets cancel).
Proof using Hcap Hn.
  left. unfold run_scan. rewrite (proj2 (Nat.eqb_neq n 0)) by lia. split.
  - constructor; simpl; try done; try (by intros ? ? ?); try (by constructor).
    + intros t tg. split; [done|]. intros (_ & ? & _). lia.
    + intros t p ?%elem_of_nil. done.
  - unfold window; simpl. rewrite map_size_empty. lia.
Qed.

Lemma scan_reach (cancel : bool) (pacer : option Pacer) (s : Scan') :
  rtc (scan_step probe probers ctx) (run_scan (mkBoundedScheduler cap pacer) probers targets cancel) s →
  scan_inv s.
Proof using Hcap Hn.
  intros Hr. pose proof (scan_init cancel pacer) as Hi.
  induction Hr as [|s1 s2 s3 Hs _ IH]; [done|]. by apply IH, (scan_step_inv s1).
Qed.

(** No lookup of the scan fails. *)
Lemma inv_no_panic (s : Scan') : scan_inv s → ¬ panics probe probers ctx s.
Proof using Hcap Hn.
  unfold panics. intros [[Hc Hw] | Hab].
  2:{ destruct Hab as [Hph]. rewrite Hph. tauto. }
  destruct (sc_phase s) as [k| | |] eqn:Hph; try tauto.
  - intros (fresh & Hf & Hp). destruct (prime_core s k fresh Hc Hw Hph Hf) as (? & ? & _). congruence.
  - intros (id & tk & j & fresh & Htk & Hj & Hf & Hp).
    destruct (join_body_core s id tk j fresh Hc Hph Htk Hj Hf) as (? & ? & _). congruence.
Qed.

(** A scan that has not returned can go on. *)
Lemma inv_progress (s : Scan') :
  scan_inv s → sc_phase s = Finished ∨ ∃ s', scan_step probe probers ctx s s'.
Proof using Hcap Hn.
  intros [[Hc Hw] | Hab]; [|left; apply Hab].
  destruct (sc_phase s) as [k| |x|] eqn:Hph; [right..|by left].
  - pose (f := fresh (dom (sc_set s))).
    assert (sc_set s !! f = None) as Hf by (apply not_elem_of_dom, is_fresh).
    destruct (prime_core s k f Hc Hw Hph Hf) as (s' & Hs' & _). exists s'. by eapply step_prime.
  - destruct (decide (size (sc_set s) = 0)) as [Hset%map_size_empty_iff | Hset].
    + eexists. by eapply step_drained.
    + assert (sc_set s ≠ ∅) as (id & tk & Htk)%map_choose by (by rewrite <-map_size_empty_iff).
      pose (f := fresh (dom (delete id (sc_set s)))).
      assert (delete id (sc_set s) !! f = None) as Hf by (apply not_elem_of_dom, is_fresh).
      destruct (join_body_core s id tk JoinPanic f Hc Hph Htk I Hf) as (s' & Hs' & _).
      exists s'. exact (step_join _ _ _ s id tk JoinPanic f s' Hph Htk I Hf Hs').
  - destruct (sc_receiver s) eqn:Hr; eexists; [by eapply step_send|by eapply step_send_refused].
Qed.

(** A run is no longer than the measure it starts with. *)
Lemma inv_steps (k : nat) (s s' : Scan') :
  scan_inv s → nsteps (scan_step probe probers ctx) k s s' → scan_inv s' ∧ k + measure s' ≤ measure s.
Proof using Hcap Hn.
  intros Hi Hk. induction Hk as [|k s1 s2 s3 Hs _ IH]; [by split|].
  destruct (scan_step_inv s1 s2 Hi Hs) as [Hi2 Hm]. destruct (IH Hi2). split; [done|lia].
Qed.
End runs.

(** ** Properties *)

Lemma with_probe_rate_cap rate cap sched :
  with_probe_rate rate (bounded_new cap) = Some sched →
  ∃ pacer, sched = mkBoundedScheduler (Nat.max cap 1) pacer.
Proof.
  unfold with_probe_rate. intros Hs. apply bind_Some in Hs as (pacer & _ & Hs).
  injection Hs as <-. by exists pacer.
Qed.

Section properties.
Context `{NL : IpNetLib} `{FE : ForeignErrors} {Prober ProbeCtx : Type}.
Context (probe : Prober → ResolvedTarget → ProbeCtx → Result RastreoError ProbeOutcome → Prop).
Context (probers : list Prober) (targets : list ResolvedTarget) (ctx : ProbeCtx).

(** Without probers the scan returns at once. *)
Lemma no_probers_run sched cancel s :
  probers = [] → rtc (scan_step probe probers ctx) (run_scan sched probers targets cancel) s →
  s = run_scan sched probers targets cancel.
Proof using Type.
  intros -> Hr. inversion Hr as [|? s1 ? Hs]; subst; [done|]. by inversion Hs.
Qed.

(** What has been sent, at any point and when the scan returns. *)
Lemma sent_targets (cap : nat) (rate : option Z) (sched : BoundedScheduler) (cancel : bool) s :
  with_probe_rate rate (bounded_new cap) = Some sched →
  rtc (scan_step probe probers ctx) (run_scan sched probers targets cancel) s →
  NoDup (ts_target_index <$> sc_sent s) ∧
  Forall (scan_complete probe probers targets ctx) (sc_sent s) ∧
  (sc_phase s = Finished → sc_receiver s = true → probers ≠ [] →
   ∃ m, m ≤ length targets ∧ ts_target_index <$> sc_sent s ≡ₚ seq 0 m ∧
     (sc_cancel s = false → m = length targets)).
Proof using Type.
  intros [pacer ->]%with_probe_rate_cap Hr.
  destruct (decide (length probers = 0)) as [Hz|Hz].
  { apply nil_length_inv in Hz. apply no_probers_run in Hr as ->; [|done].
    simpl. split_and!; [constructor|constructor|done]. }
  assert (0 < length probers) as Hn by lia.
  apply (scan_reach probe probers targets ctx (Nat.max cap 1) Hn ltac:(lia)) in Hr as [[Hc Hw] | Hab].
  2:{ split_and!; [apply Hab..|]. intros _ Hrec. pose proof (ab_receiver _ _ _ _ _ _ Hab). congruence. }
  pose proof (co_done _ _ _ _ _ Hc) as Hnd. pose proof (co_complete _ _ _ _ _ Hc) as Hok.
  unfold done_targets, delivered in Hnd, Hok. rewrite fmap_app in Hnd.
  split_and!; [by apply NoDup_app in Hnd as [? _]|by apply Forall_app in Hok as [? _]|].
  intros Hph _ _. unfold window in Hw. rewrite Hph in Hw. destruct Hw as [Hset Hw].
  destruct (drained_prefix probe probers targets ctx Hn s Hc Hset) as (m & Hm & Hperm & Hall).
  exists m. unfold done_targets, delivered in Hperm. rewrite Hph, app_nil_r in Hperm. auto.
Qed.

(** C11. Whatever order the probes end in, however they end, and whenever the scan is
    cancelled or its consumer goes away, a target is sent at most once and complete:
    one outcome per prober, in pass order, each what that prober returned for that
    target or the record of its panic. When the scan returns with its consumer still
    there, the targets sent are exactly the first [m] of the stream, and all of them
    when the scan was not cancelled. *)
Theorem scan_delivers (cap : nat) (rate : option Z) (sched : BoundedScheduler) (cancel : bool) s :
  with_probe_rate rate (bounded_new cap) = Some sched →
  rtc (scan_step probe probers ctx) (run_scan sched probers targets cancel) s →
  NoDup (ts_target_index <$> sc_sent s) ∧
  Forall (scan_complete probe probers targets ctx) (sc_sent s) ∧
  (sc_phase s = Finished → sc_receiver s = true → probers ≠ [] →
   ∃ m, m ≤ length targets ∧ ts_target_index <$> sc_sent s ≡ₚ seq 0 m ∧
     (sc_cancel s = false → m = length targets)).
Proof using Type. apply sent_targets. Qed.

(** C12. At most [max_concurrent] probes are in flight (a cap of zero counts as one),
    the targets and partial outcomes the scan holds are at most one more, the window
    is full whenever the scan waits for a task and still has starts to hand out, and
    no index or [expect] of the two loops panics. *)
Theorem scan_window (cap : nat) (rate : option Z) (sched : BoundedScheduler) (cancel : bool) s :
  with_probe_rate rate (bounded_new cap) = Some sched →
  rtc (scan_step probe probers ctx) (run_scan sched probers targets cancel) s →
  size (sc_set s) ≤ max_concurrent sched ∧
  size (sc_target_map s) ≤ S (max_concurrent sched) ∧
  size (sc_live s) ≤ S (max_concurrent sched) ∧
  (sc_phase s = Joining → sc_cancel s = false →
   size (sc_set s) = max_concurrent sched ∨ remaining_starts (sc_feed s) = 0) ∧
  ¬ panics probe probers ctx s.
Proof using Type.
  intros [pacer ->]%with_probe_rate_cap Hr. simpl.
  destruct (decide (length probers = 0)) as [Hz|Hz].
  { apply nil_length_inv in Hz. apply no_probers_run in Hr as ->; [|done]. subst probers.
    unfold panics. simpl. rewrite !map_size_empty. split_and!; [lia..|done|tauto]. }
  assert (0 < length probers) as Hn by lia.
  apply (scan_reach probe probers targets ctx (Nat.max cap 1) Hn ltac:(lia)) in Hr as Hi.
  pose proof (inv_no_panic probe probers targets ctx (Nat.max cap 1) Hn ltac:(lia) s Hi) as Hnp.
  destruct Hi as [[Hc Hw] | Hab].
  - pose proof (window_size probers (Nat.max cap 1) Hn ltac:(lia) s Hw) as Hsz.
    destruct (core_memory probe probers targets ctx Hn s Hc). split_and!; try done; try lia.
    intros Hph Hcan. unfold window in Hw. rewrite Hph in Hw. by apply Hw.
  - destruct Hab as [Hph _ Hset _ _ []]. rewrite Hset, map_size_empty.
    split_and!; try done; [lia|]. by rewrite Hph.
Qed.

(** C13. A scan ends: no run takes more than three steps per probe, the window and four
    more (every interleaving, cancellation and loss of the consumer included), and a
    scan that has not returned always has a next step. *)
Theorem scan_terminates (cap : nat) (rate : option Z) (sched : BoundedScheduler)
    (cancel : bool) (k : nat) s :
  with_probe_rate rate (bounded_new cap) = Some sched →
  nsteps (scan_step probe probers ctx) k (run_scan sched probers targets cancel) s →
  k ≤ 3 * (length targets * length probers) + max_concurrent sched + 4 ∧
  (sc_phase s = Finished ∨ ∃ s', scan_step probe probers ctx s s').
Proof using Type.
  intros [pacer ->]%with_probe_rate_cap Hk. simpl max_concurrent.
  destruct (decide (length probers = 0)) as [Hz|Hz].
  { apply nil_length_inv in Hz. subst probers. destruct k; [|by inversion Hk as [|? ? s1 ? Hs]; inversion Hs].
    inversion Hk; subst. split; [lia|by left]. }
  assert (0 < length probers) as Hn by lia.
  apply (inv_steps probe probers targets ctx (Nat.max cap 1) Hn ltac:(lia)) in Hk as [Hi Hm];
    [|apply scan_init; lia].
  split; [|by eapply inv_progress; [..|exact Hi]; lia].
  revert Hm. unfold measure, remaining_starts, run_scan. simpl.
  rewrite (proj2 (Nat.eqb_neq (length probers) 0)) by done. rewrite map_size_empty. simpl.
  destruct cancel; lia.
Qed.
End properties.

(** ** Pacing *)

Lemma wait_for_slot_spec now p p' t :
  wait_for_slot now p = (p', t) → (0 ≤ pc_interval p)%Z →
  pc_interval p' = pc_interval p ∧ pc_next_start p' = Some (t + pc_interval p)%Z ∧ (now ≤ t)%Z ∧
  (∀ u, pc_next_start p = Some u → (u ≤ t)%Z).
Proof.
  intros [= <- <-] Hi. simpl. split_and!; try done.
  - destruct (pc_next_start p) as [t|]; [|lia]. destruct (Z.ltb_spec now t); lia.
  - intros u ->. destruct (Z.ltb_spec now u); lia.
Qed.

Lemma slots_cons now nows p p' t :
  wait_for_slot now p = (p', t) → slots (now :: nows) p = t :: slots nows p'.
Proof. by intros [= <- <-]. Qed.

Lemma slots_after nows p u :
  (0 ≤ pc_interval p)%Z → pc_next_start p = Some u → Forall (λ t, (u ≤ t)%Z) (slots nows p).
Proof.
  revert p u. induction nows as [|now nows IH]; intros p u Hi Hu; [constructor|].
  destruct (wait_for_slot now p) as [p' t] eqn:Hw. rewrite (slots_cons _ _ _ _ _ Hw).
  destruct (wait_for_slot_spec _ _ _ _ Hw Hi) as (Hi' & Hn' & _ & Hle).
  specialize (Hle u Hu). constructor; [done|].
  eapply Forall_impl; [by apply (IH p' (t + pc_interval p)%Z); [lia|]|simpl; lia].
Qed.

Lemma slots_spaced nows p i j t u :
  (0 ≤ pc_interval p)%Z → i < j →
  slots nows p !! i = Some t → slots nows p !! j = Some u → (t + pc_interval p ≤ u)%Z.
Proof.
  revert p i j. induction nows as [|now nows IH]; intros p i j Hi Hij; [done|].
  destruct (wait_for_slot now p) as [p' x] eqn:Hw. rewrite (slots_cons _ _ _ _ _ Hw).
  destruct (wait_for_slot_spec _ _ _ _ Hw Hi) as (Hi' & Hn' & _ & _).
  destruct j as [|j]; [lia|]. destruct i as [|i]; simpl.
  - intros [= ->] Hu. pose proof (slots_after nows p' _ ltac:(lia) Hn') as Hall.
    by apply (Forall_lookup_1 _ _ _ _ Hall Hu).
  - intros Ht Hu. rewrite <-Hi'. apply (IH p' i j); [lia..|done|done].
Qed.

Lemma slots_not_early nows p i now t :
  (0 ≤ pc_interval p)%Z → nows !! i = Some now → slots nows p !! i = Some t → (now ≤ t)%Z.
Proof.
  revert p i. induction nows as [|x nows IH]; intros p i Hi; [done|].
  destruct (wait_for_slot x p) as [p' y] eqn:Hw. rewrite (slots_cons _ _ _ _ _ Hw).
  destruct (wait_for_slot_spec _ _ _ _ Hw Hi) as (Hi' & _ & Hle & _).
  destruct i as [|i]; simpl; [by intros [= <-] [= <-]|]. apply IH. lia.
Qed.

Lemma duration_nonneg x d : duration_from_secs_f64 x = Some d → (0 ≤ d)%Z.
Proof.
  unfold duration_from_secs_f64. destruct x as [| | |[] m e]; try done; [by intros [= <-]|].
  intros H. repeat case_match; simplify_eq; try done; break_bool;
    repeat match goal with |- context [(?a / ?b)%Z] =>
      lazymatch goal with _ : (0 ≤ a / b)%Z |- _ => fail | _ =>
      assert (0 ≤ a / b)%Z by (apply Z.div_pos; [lia|apply Z.pow_pos_nonneg; lia]) end end; try lia.
Qed.

(** The pacer of a rate never lets two probe starts closer than its interval, never
    schedules a start in the past, and a rate of zero (or none) means no pacer. *)
Theorem pacer_spaces_starts (rate : option Z) (cap : nat) (sched : BoundedScheduler) :
  with_probe_rate rate (bounded_new cap) = Some sched →
  (default 0%Z rate = 0%Z → bs_pacer sched = None) ∧
  (∀ p, bs_pacer sched = Some p →
    pc_next_start p = None ∧
    duration_from_secs_f64 (f64_ratio 1 (default 0%Z rate)) = Some (pc_interval p) ∧
    ∀ nows i j now t u, i < j → nows !! i = Some now →
      slots nows p !! i = Some t → slots nows p !! j = Some u →
      (now ≤ t)%Z ∧ (t + pc_interval p ≤ u)%Z).
Proof.
  unfold with_probe_rate. intros Hs. apply bind_Some in Hs as (pacer & Hp & Hs).
  injection Hs as <-. simpl. destruct rate as [rate|]; simpl; [|injection Hp as <-; done].
  unfold pacer_from_rate in Hp. destruct (Z.eqb_spec rate 0) as [->|Hr]; [injection Hp as <-; done|].
  apply bind_Some in Hp as (d & Hd & Hp). injection Hp as <-. split; [done|].
  intros p [= <-]. simpl. apply duration_nonneg in Hd as Hpos. split_and!; [done|done|].
  intros nows i j now t u Hij Hnow Ht Hu. split.
  - by apply (slots_not_early nows (mkPacer d None) i).
  - by apply (slots_spaced nows (mkPacer d None) i j).
Qed.

(** ** Witnesses *)

#[local] Existing Instance sample_ipnet.
#[local] Existing Instance sample_errors.

(** Two targets, one prober that reports its target's silence, one probe at a time. *)
Definition two_targets : list ResolvedTarget :=
  [mkResolvedTarget (V4 1) (TIp (V4 1)) 0; mkResolvedTarget (V4 2) (TIp (V4 2)) 0].

Definition silent (ip : IpAddr) : ProbeOutcome := mkProbeOutcome Icmp ip 0 false [] None None None.

Definition silent_probe (_ : unit) (t : ResolvedTarget) (_ : unit)
    (r : Result RastreoError ProbeOutcome) : Prop := r = Ok (silent (rt_ip t)).

Definition paced_scheduler : BoundedScheduler :=
  default (bounded_new 0) (with_probe_rate (Some 4%Z) (bounded_new 0)).

#[local] Abbreviation Scan1 := (@Scan sample_ipnet sample_errors unit).

Definition sample_start : Scan1 := run_scan paced_scheduler [tt] two_targets false.
Definition sample_spawned : Scan1 := default sample_start (prime [tt] 1 1%positive sample_start).
Definition sample_primed : Scan1 := default sample_start (prime [tt] 0 2%positive sample_spawned).

(** The answer of the [i]th target, from the join to the send. *)
Definition sample_joined (i : Z) (s : Scan1) : Scan1 :=
  default s (join_body [tt] 1%positive (JoinOk (Ok (silent (V4 i)))) 1%positive s).

Definition sample_sent (s : Scan1) : Scan1 :=
  match sc_phase s with
  | Sending scan => set_phase Joining (set_sent (sc_sent s ++ [scan]) s)
  | _ => s
  end.

Definition sample_first : Scan1 := sample_sent (sample_joined 1 sample_primed).
Definition sample_second : Scan1 := sample_sent (sample_joined 2 sample_first).

Lemma sample_turn (s : Scan1) i x :
  sc_phase s = Joining →
  sc_set s !! 1%positive = Some (mkTask tt (mkResolvedTarget (V4 i) (TIp (V4 i)) 0)) →
  delete 1%positive (sc_set s) !! 1%positive = None →
  join_body [tt] 1%positive (JoinOk (Ok (silent (V4 i)))) 1%positive s = Some (sample_joined i s) →
  sc_phase (sample_joined i s) = Sending x → sc_receiver (sample_joined i s) = true →
  nsteps (scan_step silent_probe [tt] tt) 2 s (sample_sent (sample_joined i s)).
Proof.
  intros Hph Htk Hf Hj Hx Hr. eapply nsteps_l; [|eapply nsteps_once].
  - by apply (step_join _ _ _ s 1%positive _ (JoinOk (Ok (silent (V4 i)))) 1%positive _ Hph Htk).
  - unfold sample_sent. rewrite Hx. by apply step_send.
Qed.

Lemma two_target_run : ∃ s,
  nsteps (scan_step silent_probe [tt] tt) 7 (run_scan paced_scheduler [tt] two_targets false) s ∧
  sc_phase s = Finished ∧ sc_receiver s = true ∧ sc_cancel s = false ∧
  ts_target_index <$> sc_sent s = [0; 1].
Proof.
  exists (set_phase Finished sample_second). split; [|by split_and!].
  apply (nsteps_l _ _ _ sample_spawned); [by apply (step_prime _ _ _ _ 1 1%positive)|].
  apply (nsteps_l _ _ _ sample_primed); [by apply (step_prime _ _ _ _ 0 2%positive)|].
  apply (nsteps_trans 2 3 sample_primed sample_first); [by eapply sample_turn|].
  apply (nsteps_trans 2 1 sample_first sample_second); [by eapply sample_turn|].
  by apply nsteps_once, step_drained.
Qed.

Lemma scan_delivers_witness : ∃ s : Scan1,
  ts_target_index <$> sc_sent s = [0; 1] ∧
  Forall (scan_complete silent_probe [tt] two_targets tt) (sc_sent s) ∧
  ∃ m, m ≤ 2 ∧ ts_target_index <$> sc_sent s ≡ₚ seq 0 m ∧ (sc_cancel s = false → m = 2).
Proof.
  destruct two_target_run as (s & Hr & Hph & Hrec & Hcan & Hidx). exists s.
  destruct (scan_delivers silent_probe [tt] two_targets tt 0 (Some 4%Z) paced_scheduler false s)
    as (_ & Hok & Hm); [by vm_compute|by eapply rtc_nsteps_2|].
  split_and!; [done|done|]. by apply Hm.
Defined.

Lemma scan_window_witness : ∃ s : Scan1, sc_phase s = Finished ∧ size (sc_set s) ≤ 1 ∧ size (sc_live s) ≤ 2.
Proof.
  destruct two_target_run as (s & Hr & Hph & _). exists s.
  destruct (scan_window silent_probe [tt] two_targets tt 0 (Some 4%Z) paced_scheduler false s)
    as (Hset & _ & Hlive & _); [by vm_compute|by eapply rtc_nsteps_2|].
  by split_and!.
Defined.

Lemma scan_terminates_witness : 7 ≤ 3 * (2 * 1) + 1 + 4.
Proof.
  destruct two_target_run as (s & Hr & _).
  apply (scan_terminates silent_probe [tt] two_targets tt 0 (Some 4%Z) paced_scheduler false 7 s);
    [by vm_compute|done].
Defined.

(** At four probes a second, starts asked for together leave 250 ms apart. *)
Lemma pacer_spaces_starts_witness : ∃ p,
  bs_pacer paced_scheduler = Some p ∧ pc_interval p = 250000000%Z ∧
  slots [0; 0; 0]%Z p = [0; 250000000; 500000000]%Z ∧ (0 + 250000000 ≤ 500000000)%Z.
Proof.
  exists (mkPacer 250000000 None). split_and!; [by vm_compute..|].
  destruct (pacer_spaces_starts (Some 4%Z) 0 paced_scheduler) as [_ Hp]; [by vm_compute|].
  destruct (Hp (mkPacer 250000000 None) ltac:(by vm_compute)) as (_ & _ & Hsl).
  apply (Hsl [0; 0; 0]%Z 0 2 0%Z 0%Z 500000000%Z); [lia|by vm_compute..].
Defined.
