(* ===== verification/CollectionProfile.v ===== *)
(** * Collection profiles: [collection_profile/mod.rs], [openconfig_paths.rs], [model/collection_profile.rs]

    Capability observations of gNMI endpoints, correlated with the devices of the
    scan by address, become one advisory profile per address. *)

From S2P Require Import Prelude Net F64 Model FuserCore UnionFind Identity Topology.
From S2P Require Import TopologyTheorems.

(** ** The record: [model/collection_profile.rs] *)

Definition COLLECTION_PROFILE_SCHEMA_ID : Str :=
  s! "https://davidban77.github.io/rastreo/schemas/collection-profile-record-v1.json".
Definition COLLECTION_PROFILE_CURRENT_SCHEMA_VERSION : Str := s! "v1".

Record ProfileEndpoint : Type := mkProfileEndpoint {
  pe_address : Str;
  pe_port : Z;
  pe_transport : Transport;
}.

Inductive ProfileConfidence : Type := AdvertisedOnly | VerifiedOnDevice.

Record Subscription : Type := mkSubscription {
  su_name : Str;
  su_origin : Str;
  su_path : Str;
  su_mode : Str;
  su_sample_interval_ns : option Z;
  su_matched_model : Str;
}.

Inductive Collection : Type :=
  | CollGnmi (gnmi_version : option Str) (encoding : Str) (supported_models : list Str)
      (suggested_subscriptions : list Subscription).

Record CollectionProfileRecord : Type := mkCollectionProfileRecord {
  cp_schema_version : Str;
  cp_schema_id : Str;
  cp_identity_key : Str;
  cp_endpoint : ProfileEndpoint;
  cp_confidence : ProfileConfidence;
  cp_note : option Str;
  cp_collection : Collection;
  cp_observed_at : SystemTime;
  cp_scan_metadata : ScanMetadata;
}.

(** ** Curated paths: [openconfig_paths.rs] *)

Definition SAMPLE : Str := s! "sample".
Definition ON_CHANGE : Str := s! "on_change".
Definition INTERVAL_10S : Z := 10000000000.
Definition INTERVAL_30S : Z := 30000000000.

Record CuratedPath : Type := mkCuratedPath {
  cu_model_key : Str;
  cu_name : Str;
  cu_origin : Str;
  cu_path : Str;
  cu_mode : Str;
  cu_sample_interval_ns : option Z;
}.

Definition OPENCONFIG_PATHS : list CuratedPath := [
  mkCuratedPath (s! "openconfig-interfaces") (s! "if_counters") (s! "openconfig")
    (s! "/interfaces/interface/state/counters") SAMPLE (Some INTERVAL_10S);
  mkCuratedPath (s! "openconfig-interfaces") (s! "if_oper_status") (s! "openconfig")
    (s! "/interfaces/interface/state/oper-status") ON_CHANGE None;
  mkCuratedPath (s! "openconfig-interfaces") (s! "if_admin_status") (s! "openconfig")
    (s! "/interfaces/interface/state/admin-status") ON_CHANGE None;
  mkCuratedPath (s! "openconfig-system") (s! "system_cpu_utilization") (s! "openconfig")
    (s! "/system/cpus/cpu/state/total/instant") SAMPLE (Some INTERVAL_10S);
  mkCuratedPath (s! "openconfig-system") (s! "system_memory") (s! "openconfig")
    (s! "/system/memory/state") SAMPLE (Some INTERVAL_30S);
  mkCuratedPath (s! "openconfig-platform") (s! "component_state") (s! "openconfig")
    (s! "/components/component/state") SAMPLE (Some INTERVAL_30S);
  mkCuratedPath (s! "openconfig-network-instance") (s! "bgp_neighbor_session_state")
    (s! "openconfig")
    (s! "/network-instances/network-instance/protocols/protocol/bgp/neighbors/neighbor/state/session-state")
    ON_CHANGE None;
  mkCuratedPath (s! "openconfig-network-instance") (s! "bgp_neighbor_established_transitions")
    (s! "openconfig")
    (s! "/network-instances/network-instance/protocols/protocol/bgp/neighbors/neighbor/state/established-transitions")
    SAMPLE (Some INTERVAL_30S)
].

(** [str::split_whitespace().next()]. *)
Fixpoint take_while {A} (p : A → bool) (l : list A) : list A :=
  match l with
  | [] => []
  | x :: l' => if p x then x :: take_while p l' else []
  end.

Definition first_word (s : Str) : option Str :=
  match drop_while is_whitespace s with
  | [] => None
  | rest => Some (take_while (λ c, negb (is_whitespace c)) rest)
  end.

Definition model_key (rendered_model : Str) : Str :=
  let name := default rendered_model (first_word rendered_model) in
  default name (after_last 58 name).

Definition subscription_of (advertised : Str) (entry : CuratedPath) : Subscription :=
  mkSubscription (cu_name entry) (cu_origin entry) (cu_path entry) (cu_mode entry)
    (cu_sample_interval_ns entry) advertised.

Definition suggested_subscriptions (supported_models : list Str) : list Subscription :=
  advertised ← supported_models;
  subscription_of advertised <$>
    filter (λ entry, cu_model_key entry = model_key advertised) OPENCONFIG_PATHS.

(** ** The assembler: [collection_profile/mod.rs] *)

Definition RECOMMENDED_ENCODING_FALLBACK : Str := s! "JSON_IETF".

Definition is_renderable (encoding : Str) : bool :=
  bool_decide (encoding ∈ [s! "JSON"; s! "PROTO"; s! "ASCII"; s! "JSON_IETF"]).

Definition recommended_encoding (advertised : list Str) : Str :=
  if is_empty advertised || bool_decide (RECOMMENDED_ENCODING_FALLBACK ∈ advertised)
  then RECOMMENDED_ENCODING_FALLBACK
  else default RECOMMENDED_ENCODING_FALLBACK
         (find_map (λ e, if is_renderable e then Some e else None) advertised).

Record GnmiObservation : Type := mkGnmiObservation {
  go_target_ip : IpAddr;
  go_endpoint : GnmiEndpoint;
  go_gnmi_version : option Str;
  go_supported_models : list Str;
  go_observed_at : SystemTime;
}.

Record CollectionProfileAssembler : Type := mkCollectionProfileAssembler {
  pa_scan_metadata : ScanMetadata;
  pa_observations : list GnmiObservation;
  pa_addr_index : gmap IpAddr Str;
}.

Definition profiles_new (m : ScanMetadata) : CollectionProfileAssembler :=
  mkCollectionProfileAssembler m [] ∅.

(** The capability signals of an outcome: the first version and the models. *)
Definition capability_signal (acc : option Str * list Str) (signal : Signal)
    : option Str * list Str :=
  match signal with
  | GnmiVersion v => (Some (default v acc.1), acc.2)
  | GnmiSupportedModel m => (acc.1, acc.2 ++ [m])
  | _ => acc
  end.

Definition capabilities (signals : list Signal) : option Str * list Str :=
  foldl capability_signal (None, []) signals.

(** What the assembler keeps of an outcome. *)
Definition gnmi_observation (outcome : ProbeOutcome) : option GnmiObservation :=
  if decide (po_kind outcome ≠ Gnmi) then None
  else
    endpoint ← po_gnmi_endpoint outcome;
    let '(gnmi_version, supported_models) := capabilities (po_signals outcome) in
    if bool_decide (is_Some gnmi_version) || negb (is_empty supported_models) ||
       negb (is_empty (ge_advertised_encodings endpoint))
    then Some (mkGnmiObservation (po_target_ip outcome) endpoint gnmi_version supported_models
                 (po_timestamp outcome))
    else None.

Definition profiles_observe_outcomes (p : CollectionProfileAssembler)
    (outcomes : list ProbeOutcome) : CollectionProfileAssembler :=
  mkCollectionProfileAssembler (pa_scan_metadata p)
    (pa_observations p ++ omap gnmi_observation outcomes) (pa_addr_index p).

Definition profiles_index (identity : Str) (p : CollectionProfileAssembler) (ip : IpAddr)
    : CollectionProfileAssembler :=
  mkCollectionProfileAssembler (pa_scan_metadata p) (pa_observations p)
    (or_insert (pa_addr_index p) ip identity).

Definition profiles_observe_record (p : CollectionProfileAssembler) (record : DeviceRecord)
    : CollectionProfileAssembler :=
  let identity := dr_identity_key record in
  let p := match dr_mgmt_ip record with Some ip => profiles_index identity p ip | None => p end in
  foldl (λ p alt, profiles_index identity p (ai_address alt)) p (dr_alt_ips record).

Definition make_profile (m : ScanMetadata) (identity : Str) (obs : GnmiObservation)
    : CollectionProfileRecord := {|
  cp_schema_version := COLLECTION_PROFILE_CURRENT_SCHEMA_VERSION;
  cp_schema_id := COLLECTION_PROFILE_SCHEMA_ID;
  cp_identity_key := identity;
  cp_endpoint := mkProfileEndpoint (ip_display (go_target_ip obs))
    (ge_port (go_endpoint obs)) (ge_transport (go_endpoint obs));
  cp_confidence := AdvertisedOnly;
  cp_note := None;
  cp_collection := CollGnmi (go_gnmi_version obs)
    (recommended_encoding (ge_advertised_encodings (go_endpoint obs)))
    (go_supported_models obs) (suggested_subscriptions (go_supported_models obs));
  cp_observed_at := go_observed_at obs;
  cp_scan_metadata := m;
|}.

Fixpoint profile_loop (p : CollectionProfileAssembler) (observations : list GnmiObservation)
    (seen : gset (Str * IpAddr)) : list CollectionProfileRecord :=
  match observations with
  | [] => []
  | obs :: rest =>
      match pa_addr_index p !! go_target_ip obs with
      | None => profile_loop p rest seen
      | Some identity =>
          let key := (identity, go_target_ip obs) in
          if decide (key ∈ seen) then profile_loop p rest seen
          else make_profile (pa_scan_metadata p) identity obs :: profile_loop p rest ({[key]} ∪ seen)
      end
  end.

Definition profile_key (r : CollectionProfileRecord) : Str * Str :=
  (cp_identity_key r, pe_address (cp_endpoint r)).

Definition profile_le (a b : CollectionProfileRecord) : Prop :=
  pair_le (profile_key a) (profile_key b).
#[global] Instance profile_le_dec a b : Decision (profile_le a b).
Proof. unfold profile_le. apply _. Defined.

(** The sort is stable in the source; the keys of the loop are distinct, so every
    sort agrees with it. *)
Definition profiles_finish (p : CollectionProfileAssembler) : list CollectionProfileRecord :=
  merge_sort profile_le (profile_loop p (pa_observations p) ∅).

(** * What the profile assembler guarantees

    One profile per correlated address, made from the first capability
    observation of that address, in a canonical order, and nothing of the device
    state a gNMI probe read. *)

(** The first observation of an address, correlated with a device. *)
Definition leads (p : CollectionProfileAssembler) (o : GnmiObservation) (identity_key : Str) : Prop :=
  ∃ before after, pa_observations p = before ++ o :: after ∧
    (∀ o', o' ∈ before → go_target_ip o' ≠ go_target_ip o) ∧
    pa_addr_index p !! go_target_ip o = Some identity_key.

(** The addresses an assembler has both an observation and a device for. *)
Definition correlated (p : CollectionProfileAssembler) (observations : list GnmiObservation)
    : list IpAddr :=
  filter (λ ip, is_Some (pa_addr_index p !! ip)) (go_target_ip <$> observations).

Section loop.
Context (p : CollectionProfileAssembler).

(** [r] is made from an observation of the list that leads its address and whose key
    is not among those seen. *)
Definition emitted (observations : list GnmiObservation) (seen : gset (Str * IpAddr))
    (r : CollectionProfileRecord) : Prop :=
  ∃ before o after k, observations = before ++ o :: after ∧
    (∀ o', o' ∈ before → go_target_ip o' ≠ go_target_ip o) ∧
    pa_addr_index p !! go_target_ip o = Some k ∧ ((k, go_target_ip o) ∉ seen) ∧
    r = make_profile (pa_scan_metadata p) k o.

Definition seen_with (x : GnmiObservation) (seen : gset (Str * IpAddr)) : gset (Str * IpAddr) :=
  match pa_addr_index p !! go_target_ip x with
  | Some k => {[(k, go_target_ip x)]} ∪ seen
  | None => seen
  end.

Lemma not_elem_of_seen_with x seen o k :
  pa_addr_index p !! go_target_ip o = Some k →
  (k, go_target_ip o) ∉ seen_with x seen ↔
  (k, go_target_ip o) ∉ seen ∧ go_target_ip x ≠ go_target_ip o.
Proof.
  intros Hk. unfold seen_with. destruct (pa_addr_index p !! go_target_ip x) as [k'|] eqn:Hx.
  - destruct (decide (go_target_ip x = go_target_ip o)) as [Heq|Hne]; [|set_solver].
    rewrite Heq in Hx |- *. assert (k' = k) as -> by congruence. set_solver.
  - split; [|by intros [? _]]. intros Hs. split; [done|]. intros Heq. congruence.
Qed.

Lemma emitted_cons x rest seen r :
  emitted (x :: rest) seen r ↔
  (∃ k, pa_addr_index p !! go_target_ip x = Some k ∧ (k, go_target_ip x) ∉ seen ∧
     r = make_profile (pa_scan_metadata p) k x) ∨
  emitted rest (seen_with x seen) r.
Proof.
  split.
  - intros ([|y before] & o & after & k & Heq & Hb & Hk & Hs & Hr); simplify_eq/=; [eauto|].
    right. exists before, o, after, k. rewrite not_elem_of_seen_with by done.
    split_and!; [done| |done|done| |done]; [|apply Hb; by left]. intros o' Ho'. apply Hb. by right.
  - intros [(k & Hk & Hs & Hr) | (before & o & after & k & -> & Hb & Hk & Hs & Hr)].
    + exists [], x, rest, k. split_and!; try done. by intros ? ?%elem_of_nil.
    + apply not_elem_of_seen_with in Hs as [Hs Hx]; [|done].
      exists (x :: before), o, after, k. split_and!; try done. by intros o' [->|?]%elem_of_cons; [|apply Hb].
Qed.

Lemma profile_loop_elem observations seen r :
  r ∈ profile_loop p observations seen ↔ emitted observations seen r.
Proof.
  revert seen. induction observations as [|x rest IH]; intros seen.
  { split; [by intros ?%elem_of_nil|]. intros (before & ? & ? & ? & Heq & _). by destruct before. }
  rewrite emitted_cons. simpl. unfold seen_with.
  destruct (pa_addr_index p !! go_target_ip x) as [k|] eqn:Hk; [|rewrite IH; naive_solver].
  case_decide as Hseen; [|rewrite elem_of_cons, IH; naive_solver].
  assert ({[(k, go_target_ip x)]} ∪ seen = seen) as -> by set_solver. rewrite IH. naive_solver.
Qed.

(** Addresses of the list already covered by [seen]. *)
Definition covered (seen : gset (Str * IpAddr)) (ip : IpAddr) : Prop :=
  ∃ k, pa_addr_index p !! ip = Some k ∧ (k, ip) ∈ seen.

Lemma profile_loop_length observations seen (acc : list IpAddr) :
  (∀ ip, ip ∈ acc ↔ covered seen ip) →
  (length acc + length (profile_loop p observations seen) =
   length (foldl push_new acc (correlated p observations)))%nat.
Proof.
  unfold correlated. revert seen acc. induction observations as [|x rest IH]; intros seen acc Hacc.
  { simpl. lia. }
  rewrite fmap_cons, filter_cons. cbn [profile_loop].
  destruct (pa_addr_index p !! go_target_ip x) as [k|] eqn:Hk.
  2:{ rewrite decide_False by (by intros [? ?]). by apply IH. }
  rewrite (decide_True (P := is_Some _)) by (by eexists). cbn [foldl].
  assert (go_target_ip x ∈ acc ↔ (k, go_target_ip x) ∈ seen) as Hx.
  { rewrite Hacc. unfold covered. rewrite Hk.
    split; [by intros (k' & [= <-] & ?)|intros ?; by exists k]. }
  case_decide as Hseen.
  - unfold push_new at 2. rewrite bool_decide_true by tauto. by apply IH.
  - rewrite push_new_fresh by tauto.
    rewrite <-(IH ({[(k, go_target_ip x)]} ∪ seen) (acc ++ [go_target_ip x]));
      [rewrite length_app; simpl; lia|].
    intros ip. rewrite elem_of_app, list_elem_of_singleton, Hacc. unfold covered.
    destruct (decide (ip = go_target_ip x)) as [->|Hne].
    + rewrite Hk. split; [|by right]. intros _. exists k. set_solver.
    + set_solver.
Qed.
End loop.

#[global] Instance profile_le_total : Total profile_le.
Proof. intros a b. apply pair_le_total. Qed.
#[global] Instance profile_le_trans : Transitive profile_le.
Proof. intros a b c. apply pair_le_trans. Qed.

(** The capability signals: everything a profile may draw from an outcome. *)
Definition is_capability (s : Signal) : bool :=
  match s with GnmiVersion _ | GnmiSupportedModel _ => true | _ => false end.

Lemma capabilities_filter signals acc :
  foldl capability_signal acc signals =
  foldl capability_signal acc (filter (λ s, is_capability s = true) signals).
Proof.
  revert acc. induction signals as [|s signals IH]; intros acc; [done|].
  rewrite filter_cons. case_decide as Hs; simpl; rewrite IH; [done|]. by destruct s.
Qed.

Lemma gnmi_observation_capabilities o1 o2 :
  po_kind o1 = po_kind o2 → po_target_ip o1 = po_target_ip o2 → po_timestamp o1 = po_timestamp o2 →
  po_gnmi_endpoint o1 = po_gnmi_endpoint o2 →
  filter (λ s, is_capability s = true) (po_signals o1) =
    filter (λ s, is_capability s = true) (po_signals o2) →
  gnmi_observation o1 = gnmi_observation o2.
Proof.
  intros Hk Hip Hts Hep Hsig. unfold gnmi_observation, capabilities.
  rewrite capabilities_filter, (capabilities_filter (po_signals o2)), Hk, Hip, Hts, Hep, Hsig. done.
Qed.

(** [finish] yields, in the order of identity and address, exactly one profile per
    address that has both a capability observation and a device in the scan: the one
    made from the first such observation of that address, under the device's key. *)
Theorem profiles_per_address (p : CollectionProfileAssembler) :
  StronglySorted profile_le (profiles_finish p) ∧
  length (profiles_finish p) = length (dedup (correlated p (pa_observations p))) ∧
  ∀ r, r ∈ profiles_finish p ↔
    ∃ o key, leads p o key ∧ r = make_profile (pa_scan_metadata p) key o.
Proof.
  unfold profiles_finish. split_and!.
  - apply StronglySorted_merge_sort; apply _.
  - rewrite merge_sort_Permutation. apply (profile_loop_length p _ ∅ []). intros ip.
    split; [by intros ?%elem_of_nil|]. intros (k & _ & H). set_solver.
  - intros r. rewrite merge_sort_Permutation, profile_loop_elem. unfold emitted, leads. split.
    + intros (before & o & after & k & ? & ? & ? & _ & ->). eauto 10.
    + intros (o & k & (before & after & ? & ? & ?) & ->). exists before, o, after, k. set_solver.
Qed.

(** Device state never reaches a profile: two scans whose outcomes agree on the
    capability signals and the endpoints, whatever state values (or other signals) a
    gNMI probe read, give the same profiles. *)
Theorem profiles_ignore_state (p : CollectionProfileAssembler)
    (outcomes1 outcomes2 : list ProbeOutcome) (records : list DeviceRecord) :
  Forall2 (λ o1 o2, po_kind o1 = po_kind o2 ∧ po_target_ip o1 = po_target_ip o2 ∧
    po_timestamp o1 = po_timestamp o2 ∧ po_gnmi_endpoint o1 = po_gnmi_endpoint o2 ∧
    filter (λ s, is_capability s = true) (po_signals o1) =
      filter (λ s, is_capability s = true) (po_signals o2)) outcomes1 outcomes2 →
  profiles_finish (foldl profiles_observe_record (profiles_observe_outcomes p outcomes1) records) =
  profiles_finish (foldl profiles_observe_record (profiles_observe_outcomes p outcomes2) records).
Proof.
  intros Hall. do 2 f_equal. unfold profiles_observe_outcomes. do 2 f_equal.
  induction Hall as [|o1 o2 l1 l2 (? & ? & ? & ? & ?) _ IH]; [done|].
  unfold omap in *. simpl. by rewrite (gnmi_observation_capabilities o1 o2), IH by done.
Qed.

(** A gNMI probe of two endpoints of one device, and of a stranger. *)
Definition gnmi_outcome (ip : Z) (signals : list Signal) : ProbeOutcome :=
  mkProbeOutcome Gnmi (V4 ip) 0 true signals None None
    (Some (mkGnmiEndpoint 57400 TransportTls [s! "PROTO"])).

Definition sample_profiles : CollectionProfileAssembler :=
  mkCollectionProfileAssembler scan_metadata_default [] {[V4 1 := s! "mac:aa"; V4 2 := s! "mac:aa"]}.

Lemma profiles_ignore_state_witness :
  profiles_finish (profiles_observe_outcomes sample_profiles
    [gnmi_outcome 1 [GnmiSupportedModel (s! "openconfig-system 1.0"); GnmiState [1] (s! "secret")]]) =
  profiles_finish (profiles_observe_outcomes sample_profiles
    [gnmi_outcome 1 [GnmiSupportedModel (s! "openconfig-system 1.0")]]).
Proof.
  apply (profiles_ignore_state sample_profiles _ _ []). constructor; [|constructor]. by split_and!.
Defined.

Example profiles_example :
  let r := profiles_finish (profiles_observe_outcomes sample_profiles
    [gnmi_outcome 2 [GnmiVersion (s! "0.10")];
     gnmi_outcome 1 [GnmiSupportedModel (s! "x:openconfig-system 1.0"); GnmiState [1] (s! "secret")];
     gnmi_outcome 3 [GnmiVersion (s! "0.10")]; gnmi_outcome 1 [GnmiVersion (s! "0.9")]]) in
  (pe_address ∘ cp_endpoint <$> r) = [s! "0.0.0.1"; s! "0.0.0.2"] ∧
  (λ r, match cp_collection r with CollGnmi _ enc _ subs => (enc, su_name <$> subs) end) <$> r =
    [(s! "PROTO", [s! "system_cpu_utilization"; s! "system_memory"]); (s! "PROTO", [])].
Proof. by vm_compute. Qed.
