(* ===== verification/Encoder.v ===== *)
(** * Encoders: [encoder/mod.rs], [ndjson.rs] and [table.rs]

    How records become bytes. [serde_json] is a parameter; the table is modelled byte
    by byte, on the buffer the caller hands in. A table encoder writes its header once:
    the flag that remembers it lives in the world, since encoding takes [&self]. *)

From S2P Require Import Prelude Net F64 Model FuserCore Topology Sink CollectionProfile.

#[local] Open Scope nat_scope.

(** [dyn Encoder]: what it appends to an empty buffer. *)
Class Encoder (W : Type) `{ForeignErrors} := {
  encode_record : DeviceRecord → W → W * Result RastreoError Bytes;
  encode_link : LinkRecord → W → W * Result RastreoError Bytes;
  encode_profile : CollectionProfileRecord → W → W * Result RastreoError Bytes;
}.

Inductive EncoderConfig : Type :=
  | EncNdjson
  | EncTable (width : Z).

Definition emits_structured_records (c : EncoderConfig) : bool :=
  match c with EncNdjson => true | EncTable _ => false end.

(** ** NDJSON *)

Definition NEWLINE : Z := 10.

(** [serde_json::to_writer]. *)
Class JsonWriter `{ForeignErrors} := {
  device_to_json : DeviceRecord → Result JsonError Bytes;
  link_to_json : LinkRecord → Result JsonError Bytes;
  profile_to_json : CollectionProfileRecord → Result JsonError Bytes;
}.

Definition ndjson_line `{ForeignErrors} (json : Result JsonError Bytes) : Result RastreoError Bytes :=
  (λ b, b ++ [NEWLINE]) <$> map_err (λ e, EEncoder (SerializationFailed e)) json.

(** ** The table: layout *)

Record Column : Type := mkColumn {
  col_header : Str;
  col_min : nat;
  col_max : nat;
}.

Definition COLUMNS : list Column := [
  mkColumn (s! "ADDRESS") 15 39;
  mkColumn (s! "NAME") 12 40;
  mkColumn (s! "PLATFORM") 10 20;
  mkColumn (s! "PORTS") 12 48].

Definition SEPARATOR : Bytes := [32; 32]%Z.
Definition ELLIPSIS_CHAR : Z := 8230.
Definition ELLIPSIS : Bytes := as_bytes [ELLIPSIS_CHAR].
Definition SPACES : Bytes := replicate 64 32%Z.

Definition gutter_width : nat := length SEPARATOR * (length COLUMNS - 1).

Definition min_total_width : nat := foldl (λ sum c, sum + col_min c) gutter_width COLUMNS.
Definition max_total_width : nat := foldl (λ sum c, sum + col_max c) gutter_width COLUMNS.

Definition default_width : nat := 100.

(** One pass over the columns: the widths, the surplus left and whether any grew. *)
Fixpoint grow_columns (widths : list nat) (columns : list Column) (surplus : nat)
    : list nat * nat * bool :=
  match widths, columns with
  | width :: widths', column :: columns' =>
      match surplus with
      | O => (widths, 0, false)
      | S surplus' =>
          if width <? col_max column then
            let '(rest, remaining, _) := grow_columns widths' columns' surplus' in
            (S width :: rest, remaining, true)
          else
            let '(rest, remaining, grew) := grow_columns widths' columns' surplus in
            (width :: rest, remaining, grew)
      end
  | _, _ => (widths, surplus, false)
  end.

(** The [while]; every turn but the last hands out at least one character. *)
Fixpoint grow_loop (fuel : nat) (widths : list nat) (surplus : nat) : list nat :=
  match fuel with
  | O => widths
  | S fuel =>
      if surplus =? 0 then widths
      else
        let '(widths, surplus, grew) := grow_columns widths COLUMNS surplus in
        if grew then grow_loop fuel widths surplus else widths
  end.

Definition for_total_width (total : nat) : list nat :=
  let surplus := total - min_total_width in
  grow_loop surplus (col_min <$> COLUMNS) surplus.

(** ** The table: cells *)

(** Whether a byte starts a character: [(b & 0xC0) != 0x80]. *)
Definition starts_char (b : Z) : bool := negb (Z.land b 192 =? 128)%Z.

Definition char_count (bytes : Bytes) : nat := length (List.filter starts_char bytes).

Fixpoint byte_index_go (bytes : Bytes) (i seen n : nat) : nat :=
  match bytes with
  | [] => i
  | b :: rest =>
      if starts_char b then
        if seen =? n then i else byte_index_go rest (S i) (S seen) n
      else byte_index_go rest (S i) seen n
  end.

Definition byte_index_of_char (bytes : Bytes) (n : nat) : nat := byte_index_go bytes 0 0 n.

Fixpoint push_spaces_loop (fuel : nat) (buf : Bytes) (count : nat) : Bytes :=
  match fuel with
  | O => buf
  | S fuel =>
      if count =? 0 then buf
      else
        let chunk := Nat.min count (length SPACES) in
        push_spaces_loop fuel (buf ++ take chunk SPACES) (count - chunk)
  end.

Definition push_spaces (buf : Bytes) (count : nat) : Bytes := push_spaces_loop count buf count.

Definition finish_cell (buf : Bytes) (start width : nat) (last : bool) : Bytes :=
  let buf := if length buf =? start then buf ++ [45%Z] else buf in
  if last then buf
  else
    let chars := char_count (drop start buf) in
    let '(buf, chars) :=
      if width <? chars then
        let keep := width - 1 in
        let cut := start + byte_index_of_char (drop start buf) keep in
        (take cut buf ++ ELLIPSIS, keep + 1)
      else (buf, chars) in
    push_spaces buf (width - chars) ++ SEPARATOR.

(** The digits from the last one on, in an array of five: enough for a [u16]. *)
Fixpoint push_digits (fuel : nat) (value : Z) (digits : Bytes) : Bytes :=
  match fuel with
  | O => digits
  | S fuel =>
      let digits := (48 + value mod 10)%Z :: digits in
      if (value / 10 =? 0)%Z then digits else push_digits fuel (value / 10) digits
  end.

Definition push_u16 (buf : Bytes) (value : Z) : Bytes := buf ++ push_digits 5 value [].

Fixpoint open_ports_loop (signals : list Signal) (first : bool) (buf : Bytes) : Bytes :=
  match signals with
  | [] => buf
  | OpenPort port :: rest =>
      open_ports_loop rest false (push_u16 (if first then buf else buf ++ [44%Z]) port)
  | _ :: rest => open_ports_loop rest first buf
  end.

Definition write_open_ports (record : DeviceRecord) (buf : Bytes) : Bytes :=
  open_ports_loop (dr_signals record) true buf.

Definition sys_name (s : Signal) : option Str :=
  match s with SnmpSysName name => Some name | _ => None end.
Definition reverse_name (s : Signal) : option Str :=
  match s with ReverseDnsName name => Some name | _ => None end.

Definition device_name (record : DeviceRecord) : option Str :=
  match find_map sys_name (dr_signals record) with
  | Some name => Some name
  | None => find_map reverse_name (dr_signals record)
  end.

Definition platform_label (record : DeviceRecord) : option Str :=
  match dr_platform record with
  | Some p => Some p
  | None => match dr_model record with
            | Some m => Some m
            | None => dr_product_family record
            end
  end.

(** ** The table: rows *)

Record TableEncoder : Type := mkTableEncoder {
  te_widths : list nat;
  te_header : Bytes;
}.

Fixpoint header_cells (columns : list Column) (widths : list nat) (buf : Bytes) : Bytes :=
  match columns, widths with
  | column :: columns, width :: widths =>
      let start := length buf in
      header_cells columns widths
        (finish_cell (buf ++ as_bytes (col_header column)) start width (is_empty columns))
  | _, _ => buf
  end.

(** The bytes are ASCII, so [String::from_utf8_lossy] keeps them. *)
Definition build_header (widths : list nat) : Bytes := header_cells COLUMNS widths [] ++ [NEWLINE].

Definition table_encoder_new (total_width : nat) : TableEncoder :=
  let layout := for_total_width total_width in
  mkTableEncoder layout (build_header layout).

(** One cell: what is written between [start] and the end of the buffer, finished. *)
Definition cell (text : Bytes) (width : nat) (last : bool) (buf : Bytes) : Bytes :=
  finish_cell (buf ++ text) (length buf) width last.

Definition address_bytes (record : DeviceRecord) : Bytes :=
  match dr_mgmt_ip record with
  | Some ip => as_bytes (ip_display ip)
  | None => as_bytes (dr_identity_key record)
  end.

Definition optional_bytes (s : option Str) : Bytes :=
  match s with Some s => as_bytes s | None => [] end.

(** The flag after the call, and the buffer. *)
Definition table_encode_record (t : TableEncoder) (record : DeviceRecord) (header_written : bool)
    (buf : Bytes) : bool * Bytes :=
  let buf := if header_written then buf else buf ++ te_header t in
  let width i := default 0 (te_widths t !! i) in
  let buf := cell (address_bytes record) (width 0) false buf in
  let buf := cell (optional_bytes (device_name record)) (width 1) false buf in
  let buf := cell (optional_bytes (platform_label record)) (width 2) false buf in
  let start := length buf in
  let buf := finish_cell (write_open_ports record buf) start (width 3) true in
  (true, buf ++ [NEWLINE]).

(** ** [create_encoder] *)

Section create.
Context {W : Type} `{FE : ForeignErrors} {JW : JsonWriter}.

(** Where the world keeps the encoder's [header_written]. *)
Context (flag : W → bool) (set_flag : bool → W → W).

Definition ndjson_encoder : Encoder W := {|
  encode_record r w := (w, ndjson_line (device_to_json r));
  encode_link l w := (w, ndjson_line (link_to_json l));
  encode_profile p w := (w, ndjson_line (profile_to_json p));
|}.

Definition table_encoder (t : TableEncoder) : Encoder W := {|
  encode_record r w :=
    let '(written, buf) := table_encode_record t r (flag w) [] in (set_flag written w, Ok buf);
  encode_link _ w := (w, Ok []);
  encode_profile _ w := (w, Ok []);
|}.

Definition create_encoder (config : EncoderConfig) : Encoder W :=
  match config with
  | EncNdjson => ndjson_encoder
  | EncTable width => table_encoder (table_encoder_new (Z.to_nat width))
  end.
End create.

(** * The table an encoder writes is aligned

    The layout keeps every column between its bounds and fills the line; the cells,
    cut byte by byte in the code, are those of a reference that works on characters. *)

#[local] Open Scope nat_scope.

(** ** Layout *)

Definition in_bounds (w : nat) (c : Column) : Prop := col_min c ≤ w ≤ col_max c.

Lemma grow_columns_spec ws cs surplus ws' s' grew :
  Forall2 in_bounds ws cs → grow_columns ws cs surplus = (ws', s', grew) →
  Forall2 in_bounds ws' cs ∧ sum_list ws' + s' = sum_list ws + surplus ∧
  if grew then s' < surplus
  else ws' = ws ∧ (surplus = 0 ∨ ws = col_max <$> cs).
Proof.
  intros HF. revert surplus ws' s' grew.
  induction HF as [|w c ws cs Hw HF IH]; intros surplus ws' s' grew; simpl.
  { intros [= <- <- <-]. auto. }
  destruct surplus as [|surplus]; [intros [= <- <- <-]; simpl; auto|].
  unfold in_bounds in Hw. destruct (Nat.ltb_spec w (col_max c)).
  - destruct (grow_columns ws cs surplus) as [[r l] g] eqn:E. intros [= <- <- <-].
    destruct (IH _ _ _ _ E) as (? & ? & Hg). split_and!; [|simpl; lia|destruct g; [lia|destruct Hg as [-> _]; lia]].
    constructor; [unfold in_bounds; lia|done].
  - destruct (grow_columns ws cs (S surplus)) as [[r l] g] eqn:E. intros [= <- <- <-].
    destruct (IH _ _ _ _ E) as (? & ? & Hg). split_and!; [by constructor|simpl; lia|].
    destruct g; [done|]. destruct Hg as [-> [?| ->]]; [lia|]. split; [done|right].
    f_equal. lia.
Qed.

Lemma grow_loop_spec fuel ws surplus :
  surplus ≤ fuel → Forall2 in_bounds ws COLUMNS →
  Forall2 in_bounds (grow_loop fuel ws surplus) COLUMNS ∧
  sum_list (grow_loop fuel ws surplus) =
    Nat.min (sum_list ws + surplus) (sum_list (col_max <$> COLUMNS)).
Proof.
  assert (∀ ws cs, Forall2 in_bounds ws cs → sum_list ws ≤ sum_list (col_max <$> cs)) as Hle.
  { induction 1 as [|w c ws0 cs Hw ? IH]; [done|]. unfold in_bounds in Hw.
    change (w + sum_list ws0 ≤ col_max c + sum_list (col_max <$> cs)). lia. }
  revert ws surplus. induction fuel as [|fuel IH]; intros ws surplus Hs HF;
    pose proof (Hle _ _ HF); cbn [grow_loop].
  { split; [done|]. lia. }
  destruct (Nat.eqb_spec surplus 0); [split; [done|lia]|].
  destruct (grow_columns ws COLUMNS surplus) as [[ws' s'] g] eqn:E.
  destruct (grow_columns_spec _ _ _ _ _ _ HF E) as (HF' & Hsum & Hg). destruct g.
  - destruct (IH ws' s' ltac:(lia) HF') as [? Heq]. split; [done|]. rewrite Heq. lia.
  - destruct Hg as [-> [?| ->]]; [lia|]. split; [done|]. lia.
Qed.

(** Every column within its bounds, and the line as wide as asked for, as far as the
    bounds allow. *)
Lemma layout_fits total :
  Forall2 in_bounds (for_total_width total) COLUMNS ∧
  sum_list (for_total_width total) + gutter_width =
    Nat.max min_total_width (Nat.min total max_total_width).
Proof.
  unfold for_total_width.
  assert (Forall2 in_bounds (col_min <$> COLUMNS) COLUMNS) as H0
    by (unfold in_bounds; repeat constructor; simpl; lia).
  destruct (grow_loop_spec (total - min_total_width) (col_min <$> COLUMNS) (total - min_total_width))
    as [HF ->]; [done|done|]. split; [done|].
  change (sum_list (col_min <$> COLUMNS)) with 49. change (sum_list (col_max <$> COLUMNS)) with 147.
  change min_total_width with 55. change max_total_width with 153. change gutter_width with 6. lia.
Qed.

(** ** Characters and bytes *)

Definition valid_char (c : Z) : Prop := (0 ≤ c < 1114112)%Z.
Abbreviation valid_str := (Forall valid_char).

Lemma starts_char_range b : (0 ≤ b < 256)%Z → starts_char b = negb ((128 <=? b) && (b <? 192))%Z.
Proof.
  intros Hb.
  assert (forallb (λ b, Bool.eqb (starts_char b) (negb ((128 <=? b) && (b <? 192))%Z)) (seqZ 0 256) = true)
    as Hall by (by vm_compute).
  rewrite forallb_forall in Hall. apply Bool.eqb_prop, Hall, list_elem_of_In, elem_of_seqZ. lia.
Qed.

(** One character is one byte that starts it and bytes that do not. *)
Lemma utf8_char_shape c : valid_char c →
  ∃ lead rest, utf8_char c = lead :: rest ∧ starts_char lead = true ∧
    Forall (λ b, starts_char b = false) rest.
Proof.
  unfold valid_char. intros Hc.
  assert (∀ x, starts_char (128 + x mod 64)%Z = false) as Hcont.
  { intros x. pose proof (Z.mod_pos_bound x 64 ltac:(lia)). rewrite starts_char_range by lia.
    apply negb_false_iff, andb_true_iff. split; [apply Z.leb_le|apply Z.ltb_lt]; lia. }
  assert (∀ b, (0 ≤ b < 128 ∨ 192 ≤ b < 256)%Z → starts_char b = true) as Hlead.
  { intros b Hb. rewrite starts_char_range by lia. apply negb_true_iff, andb_false_iff.
    destruct Hb; [left; apply Z.leb_gt|right; apply Z.ltb_ge]; lia. }
  unfold utf8_char. repeat case_match; eexists _, _; (split; [reflexivity|]);
    (split; [apply Hlead|by repeat constructor]);
    repeat match goal with H : (_ <? _)%Z = _ |- _ =>
      first [apply Z.ltb_lt in H|apply Z.ltb_ge in H] end;
    Z.to_euclidean_division_equations; lia.
Qed.

Lemma as_bytes_app a b : as_bytes (a ++ b) = as_bytes a ++ as_bytes b.
Proof. unfold as_bytes. by rewrite fmap_app, join_app. Qed.

Lemma as_bytes_cons c s : as_bytes (c :: s) = utf8_char c ++ as_bytes s.
Proof. done. Qed.

Lemma char_count_app a b : char_count (a ++ b) = char_count a + char_count b.
Proof. unfold char_count. by rewrite List.filter_app, length_app. Qed.

Lemma char_count_rest (l : Bytes) : Forall (λ b, starts_char b = false) l → char_count l = 0.
Proof. induction 1 as [|b l Hb _ IH]; [done|]. unfold char_count in *. simpl. by rewrite Hb. Qed.

Lemma char_count_as_bytes s : valid_str s → char_count (as_bytes s) = length s.
Proof.
  induction 1 as [|c s Hc _ IH]; [done|]. rewrite as_bytes_cons, char_count_app, IH.
  destruct (utf8_char_shape c Hc) as (lead & rest & -> & Hl & Hr%char_count_rest).
  unfold char_count in *. simpl. rewrite Hl. simpl. lia.
Qed.

Lemma byte_index_rest rest l i seen n :
  Forall (λ b, starts_char b = false) rest →
  byte_index_go (rest ++ l) i seen n = byte_index_go l (i + length rest) seen n.
Proof.
  intros Hr. revert i. induction Hr as [|b rest Hb _ IH]; intros i; simpl; [by rewrite Nat.add_0_r|].
  rewrite Hb, IH. f_equal. lia.
Qed.

Lemma byte_index_as_bytes s i seen n :
  valid_str s → byte_index_go (as_bytes s) i seen (seen + n) = i + length (as_bytes (take n s)).
Proof.
  intros Hs. revert i seen n. induction Hs as [|c s Hc _ IH]; intros i seen n.
  { rewrite take_nil. simpl. lia. }
  rewrite as_bytes_cons. destruct (utf8_char_shape c Hc) as (lead & rest & E & Hl & Hr). rewrite E. simpl.
  rewrite Hl. destruct n as [|n]; simpl.
  { rewrite Nat.add_0_r, Nat.eqb_refl. lia. }
  destruct (Nat.eqb_spec seen (seen + S n)); [lia|]. rewrite byte_index_rest by done.
  replace (seen + S n) with (S seen + n) by lia. rewrite IH.
  rewrite (as_bytes_cons c (take n s)), E, length_app. simpl. lia.
Qed.

Lemma push_spaces_spec buf count : push_spaces buf count = buf ++ replicate count 32%Z.
Proof.
  unfold push_spaces. generalize (Nat.le_refl count). generalize count at 2 3 as fuel.
  intros fuel. revert buf count. induction fuel as [|fuel IH]; intros buf count Hle.
  { assert (count = 0) as -> by lia. simpl. by rewrite app_nil_r. }
  cbn [push_spaces_loop]. destruct (Nat.eqb_spec count 0) as [->|Hne]; [simpl; by rewrite app_nil_r|].
  change (length SPACES) with 64. rewrite IH by lia. unfold SPACES. rewrite take_replicate, <-app_assoc.
  rewrite <-replicate_add. do 3 f_equal. lia.
Qed.

(** ** Ports in decimal *)

Lemma push_digits_go f f' v (A : list Z) :
  (0 ≤ v < 10 ^ Z.of_nat (S f))%Z → f ≤ f' →
  push_digits (S f) v (Z.add 48 <$> A) = Z.add 48 <$> digits_go 10 (S f') v A.
Proof.
  revert f' v A. induction f as [|f IH]; intros f' v A Hv Hf; cbn [push_digits digits_go].
  { rewrite (Z.div_small v 10) by (simpl in Hv; lia). done. }
  destruct f' as [|f']; [lia|]. assert (0 ≤ v / 10 < 10 ^ Z.of_nat (S f))%Z as Hd.
  { rewrite Nat2Z.inj_succ, Z.pow_succ_r in Hv by lia. Z.to_euclidean_division_equations. lia. }
  destruct (Z.eqb_spec (v / 10) 0); [done|].
  apply (IH f' (v / 10)%Z (v mod 10 :: A)%Z Hd). lia.
Qed.

Lemma digits_go_range fuel n (A : list Z) :
  Forall (λ d, (0 ≤ d < 10)%Z) A → Forall (λ d, (0 ≤ d < 10)%Z) (digits_go 10 fuel n A).
Proof.
  revert n A. induction fuel as [|fuel IH]; intros n A HA; [done|]. cbn [digits_go].
  assert (Forall (λ d, (0 ≤ d < 10)%Z) (n mod 10 :: A)%Z) as H
    by (constructor; [apply Z.mod_pos_bound; lia|done]).
  case_match; [done|]. by apply IH.
Qed.

Lemma digit_bytes (A : list Z) :
  Forall (λ d, (0 ≤ d < 10)%Z) A → as_bytes (digit_char <$> A) = Z.add 48 <$> A.
Proof.
  induction 1 as [|d A Hd _ IH]; [done|]. rewrite !fmap_cons, as_bytes_cons, IH.
  unfold digit_char, utf8_char. destruct (Z.ltb_spec d 10); [|lia].
  destruct (Z.ltb_spec (48 + d) 128); [done|lia].
Qed.

Definition is_u16 (v : Z) : Prop := (0 ≤ v < 65536)%Z.

Lemma push_u16_spec buf v : is_u16 v → push_u16 buf v = buf ++ as_bytes (fmt_dec v).
Proof.
  unfold is_u16. intros Hv. unfold push_u16, fmt_dec. f_equal.
  change ([] : Bytes) with (Z.add 48 <$> []). rewrite (push_digits_go 4 38) by (simpl; lia).
  by rewrite digit_bytes by (by apply digits_go_range).
Qed.

(** ** The reference *)

Definition or_dash (s : Str) : Str := if is_empty s then s! "-" else s.

(** Exactly [w] characters: cut with an ellipsis, or padded. *)
Definition ref_cell (s : Str) (w : nat) : Str :=
  let s := or_dash s in
  if w <? length s then take (w - 1) s ++ [ELLIPSIS_CHAR] else s ++ replicate (w - length s) 32%Z.

Lemma ref_cell_length s w : 1 ≤ w → length (ref_cell s w) = w.
Proof.
  intros Hw. unfold ref_cell. destruct (Nat.ltb_spec w (length (or_dash s))).
  - rewrite length_app, length_take. simpl. lia.
  - rewrite length_app, length_replicate. lia.
Qed.

Lemma as_bytes_spaces n : as_bytes (replicate n 32%Z) = replicate n 32%Z.
Proof. induction n as [|n IH]; [done|]. simpl. by rewrite as_bytes_cons, IH. Qed.

Lemma as_bytes_empty s : valid_str s → is_empty (as_bytes s) = is_empty s.
Proof.
  intros [|c s' Hc _]; [done|]. destruct (utf8_char_shape c Hc) as (lead & rest & E & _).
  by rewrite as_bytes_cons, E.
Qed.

Lemma dash_bytes (buf : Bytes) s : valid_str s →
  (if length (buf ++ as_bytes s) =? length buf then (buf ++ as_bytes s) ++ [45%Z] else buf ++ as_bytes s)
  = buf ++ as_bytes (or_dash s).
Proof.
  intros Hs. rewrite length_app. pose proof (as_bytes_empty s Hs) as He. unfold or_dash.
  destruct (Nat.eqb_spec (length buf + length (as_bytes s)) (length buf)) as [Hz|Hz].
  - assert (as_bytes s = []) as Hn by (apply length_zero_iff_nil; lia).
    rewrite Hn in *. simpl in He. by rewrite <-He, app_nil_r.
  - destruct (as_bytes s) eqn:E; simpl in He; [simpl in Hz; lia|]. by rewrite <-He, E.
Qed.

Lemma or_dash_valid s : valid_str s → valid_str (or_dash s).
Proof. unfold or_dash. case_match; [|done]. intros _. repeat constructor; unfold valid_char; lia. Qed.

(** A finished cell never holds half a character. *)
Lemma cell_ref s w buf : valid_str s → 1 ≤ w →
  cell (as_bytes s) w false buf = buf ++ as_bytes (ref_cell s w ++ [32; 32]%Z).
Proof.
  intros Hs Hw. unfold cell, finish_cell. rewrite dash_bytes by done.
  pose proof (or_dash_valid s Hs) as Hd. rewrite drop_app_length, char_count_as_bytes by done.
  unfold ref_cell. destruct (Nat.ltb_spec w (length (or_dash s))).
  - unfold byte_index_of_char. rewrite (byte_index_as_bytes _ 0 0 (w - 1)) by done. simpl.
    assert (∀ n d, take (length (as_bytes (take n d))) (as_bytes d) = as_bytes (take n d)) as Htake.
    { intros n d. rewrite <-(take_drop n d) at 2. by rewrite as_bytes_app, take_app_length. }
    rewrite take_app_add', Htake, push_spaces_spec by done.
    replace (w - (w - 1 + 1)) with 0 by lia. simpl. rewrite app_nil_r, !as_bytes_app. by rewrite <-!app_assoc.
  - rewrite push_spaces_spec, !as_bytes_app, as_bytes_spaces. by rewrite <-!app_assoc.
Qed.

(** ** Rows *)

Definition open_port (s : Signal) : option Z := match s with OpenPort port => Some port | _ => None end.

Definition ports_text (record : DeviceRecord) : Str :=
  join (s! ",") (fmt_dec <$> omap open_port (dr_signals record)).

Definition address_text (record : DeviceRecord) : Str :=
  match dr_mgmt_ip record with Some ip => ip_display ip | None => dr_identity_key record end.

(** The texts of a record's cells are texts, and its ports are ports. *)
Definition printable (record : DeviceRecord) : Prop :=
  valid_str (address_text record) ∧ valid_str (default [] (device_name record)) ∧
  valid_str (default [] (platform_label record)) ∧
  Forall is_u16 (omap open_port (dr_signals record)).

Definition line (a b c d : Str) (ws : list nat) : Str :=
  ref_cell a (default 0 (ws !! 0)) ++ s! "  " ++ ref_cell b (default 0 (ws !! 1)) ++ s! "  " ++
  ref_cell c (default 0 (ws !! 2)) ++ s! "  " ++ or_dash d ++ [NEWLINE].

Definition ref_row (ws : list nat) (record : DeviceRecord) : Str :=
  line (address_text record) (default [] (device_name record)) (default [] (platform_label record))
    (ports_text record) ws.

Definition ref_header (ws : list nat) : Str := line (s! "ADDRESS") (s! "NAME") (s! "PLATFORM") (s! "PORTS") ws.

Lemma join_cons (sep p : Str) (ps : list Str) :
  join sep (p :: ps) = p ++ mjoin ((λ q, sep ++ q) <$> ps).
Proof.
  revert p. induction ps as [|q ps IH]; intros p; [by rewrite app_nil_r|].
  change (join sep (p :: q :: ps)) with (p ++ sep ++ join sep (q :: ps)). rewrite IH.
  rewrite fmap_cons. simpl. by rewrite <-app_assoc.
Qed.

(** The rest of a list of ports: each after a comma. *)
Lemma open_ports_rest signals buf :
  Forall is_u16 (omap open_port signals) →
  open_ports_loop signals false buf =
  buf ++ as_bytes (mjoin ((λ q, s! "," ++ q) <$> (fmt_dec <$> omap open_port signals))).
Proof.
  revert buf. induction signals as [|x signals IH]; intros buf Hp; [simpl; by rewrite app_nil_r|].
  destruct x; try (by apply IH). inversion Hp as [|? ? Hu Hr]; subst.
  cbn [open_ports_loop]. rewrite IH, push_u16_spec by done.
  change (omap open_port (OpenPort port :: signals)) with (port :: omap open_port signals).
  rewrite !fmap_cons. cbn [mjoin list_join]. rewrite !as_bytes_app, <-!app_assoc. done.
Qed.

Lemma open_ports_first signals buf :
  Forall is_u16 (omap open_port signals) →
  open_ports_loop signals true buf =
  buf ++ as_bytes (join (s! ",") (fmt_dec <$> omap open_port signals)).
Proof.
  revert buf. induction signals as [|x signals IH]; intros buf Hp; [simpl; by rewrite app_nil_r|].
  destruct x; try (by apply IH). inversion Hp as [|? ? Hu Hr]; subst.
  cbn [open_ports_loop]. rewrite open_ports_rest, push_u16_spec by done.
  change (omap open_port (OpenPort port :: signals)) with (port :: omap open_port signals).
  rewrite fmap_cons, join_cons, as_bytes_app. by rewrite <-app_assoc.
Qed.

Lemma fmt_dec_valid v : valid_str (fmt_dec v).
Proof.
  unfold fmt_dec. apply Forall_fmap. eapply Forall_impl; [apply (digits_go_range 39 v []); constructor|].
  intros d Hd. simpl in *. unfold valid_char, digit_char. destruct (Z.ltb_spec d 10); lia.
Qed.

Lemma ports_text_valid record : valid_str (ports_text record).
Proof.
  unfold ports_text. generalize (omap open_port (dr_signals record)) as l. intros [|p l]; [done|].
  rewrite fmap_cons, join_cons. apply Forall_app. split; [apply fmt_dec_valid|].
  induction l as [|q l IH]; [done|]. rewrite !fmap_cons. cbn [mjoin list_join].
  apply Forall_app. split; [|done]. apply Forall_app. split; [|apply fmt_dec_valid]. by repeat constructor.
Qed.

(** The widths of a layout, none of them zero. *)
Lemma layout_widths ws : Forall2 in_bounds ws COLUMNS →
  ∃ w0 w1 w2 w3, ws = [w0; w1; w2; w3] ∧ 15 ≤ w0 ∧ 12 ≤ w1 ∧ 10 ≤ w2 ∧ 12 ≤ w3.
Proof.
  unfold COLUMNS, in_bounds. intros HF.
  repeat match goal with
  | H : Forall2 _ _ (_ :: _) |- _ => apply Forall2_cons_inv_r in H as (? & ? & ? & ? & ->)
  | H : Forall2 _ _ [] |- _ => apply Forall2_nil_inv_r in H as ->
  end.
  simpl in *. eexists _, _, _, _. split; [reflexivity|]. lia.
Qed.

Lemma last_cell_ref s (buf : Bytes) w : valid_str s →
  finish_cell (buf ++ as_bytes s) (length buf) w true = buf ++ as_bytes (or_dash s).
Proof. intros Hs. unfold finish_cell. by apply dash_bytes. Qed.

Lemma optional_bytes_default o : optional_bytes o = as_bytes (default [] o).
Proof. by destruct o. Qed.

(** One row, after the header or without it. *)
Lemma encode_row t record hw buf :
  Forall2 in_bounds (te_widths t) COLUMNS → printable record →
  table_encode_record t record hw buf =
  (true, buf ++ (if hw then [] else te_header t) ++ as_bytes (ref_row (te_widths t) record)).
Proof.
  intros (w0 & w1 & w2 & w3 & Hws & H0 & H1 & H2 & H3)%layout_widths (Ha & Hn & Hp & Hu).
  unfold table_encode_record, ref_row, line. rewrite !Hws. cbv zeta.
  change ([w0; w1; w2; w3] !! 0) with (Some w0). change ([w0; w1; w2; w3] !! 1) with (Some w1).
  change ([w0; w1; w2; w3] !! 2) with (Some w2). change ([w0; w1; w2; w3] !! 3) with (Some w3).
  change (default 0 (Some w0)) with w0. change (default 0 (Some w1)) with w1.
  change (default 0 (Some w2)) with w2.
  set (b0 := if hw then buf else buf ++ te_header t).
  assert (b0 = buf ++ (if hw then [] else te_header t)) as Hb0 by (unfold b0; destruct hw; by rewrite ?app_nil_r).
  assert (address_bytes record = as_bytes (address_text record)) as ->
    by (unfold address_bytes, address_text; by destruct (dr_mgmt_ip record)).
  rewrite !optional_bytes_default, (cell_ref (address_text record)) by (done || lia).
  rewrite (cell_ref (default [] (device_name record))), (cell_ref (default [] (platform_label record)))
    by (done || lia).
  unfold write_open_ports. rewrite open_ports_first by done. fold (ports_text record).
  rewrite last_cell_ref by apply ports_text_valid. rewrite Hb0, !as_bytes_app, <-!app_assoc. done.
Qed.

Lemma build_header_ref ws : Forall2 in_bounds ws COLUMNS → build_header ws = as_bytes (ref_header ws).
Proof.
  intros (w0 & w1 & w2 & w3 & -> & H0 & H1 & H2 & H3)%layout_widths.
  assert (∀ (buf : Bytes) s w, valid_str s → 1 ≤ w →
    finish_cell (buf ++ as_bytes s) (length buf) w false = buf ++ as_bytes (ref_cell s w ++ [32; 32]%Z))
    as Hcell by (intros; by apply cell_ref).
  unfold build_header, ref_header, line, COLUMNS. cbn [header_cells col_header is_empty].
  change ([w0; w1; w2; w3] !! 0) with (Some w0). change ([w0; w1; w2; w3] !! 1) with (Some w1).
  change ([w0; w1; w2; w3] !! 2) with (Some w2). cbn [default].
  rewrite !Hcell, last_cell_ref by (lia || by repeat constructor).
  rewrite !as_bytes_app, <-!app_assoc. done.
Qed.

(** Encoding records one after the other, as the pipeline does: each into an empty
    buffer. *)
Fixpoint table_rows (t : TableEncoder) (records : list DeviceRecord) (header_written : bool)
    : list Bytes :=
  match records with
  | [] => []
  | r :: rest =>
      let '(hw, buf) := table_encode_record t r header_written [] in buf :: table_rows t rest hw
  end.

Lemma table_rows_ref t records :
  Forall2 in_bounds (te_widths t) COLUMNS → Forall printable records →
  table_rows t records true = as_bytes <$> (ref_row (te_widths t) <$> records).
Proof.
  intros Hw. induction 1 as [|r records Hr _ IH]; [done|]. cbn [table_rows].
  rewrite encode_row by done. simpl. by rewrite IH.
Qed.

(** A table is aligned and holds whole characters. For any requested width the
    columns stay between their bounds and the line is as wide as asked, clamped to
    55..153; every record is written as the row of a reference that works on
    characters, in which the first three cells have exactly their column's width
    (dashed when empty, padded, or cut with an ellipsis) and the ports, in decimal, run
    over; the header row is written once, before the first record. *)
Theorem table_aligned (total : nat) (records : list DeviceRecord) :
  let t := table_encoder_new total in
  let ws := te_widths t in
  Forall printable records →
  Forall2 in_bounds ws COLUMNS ∧
  sum_list ws + gutter_width = Nat.max 55 (Nat.min total 153) ∧
  (∀ s i w, ws !! i = Some w → length (ref_cell s w) = w) ∧
  table_rows t records false =
    match ref_row ws <$> records with
    | [] => []
    | first :: rest => as_bytes <$> (ref_header ws ++ first) :: rest
    end.
Proof.
  intros t ws Hp. destruct (layout_fits total) as [HF Hsum]. change (for_total_width total) with ws in *.
  split; [done|]. split; [done|]. split.
  { intros s i w Hi. apply ref_cell_length. destruct (Forall2_lookup_l _ _ _ _ _ HF Hi) as (c & Hc & Hb).
    unfold in_bounds in Hb. apply list_elem_of_lookup_2 in Hc.
    assert (Forall (λ c, 1 ≤ col_min c) COLUMNS) as Hall by (repeat constructor; simpl; lia).
    rewrite Forall_forall in Hall. specialize (Hall c Hc). lia. }
  destruct Hp as [|r records Hr Hrs]; [done|]. cbn [table_rows]. rewrite encode_row by done.
  rewrite table_rows_ref by done. rewrite !fmap_cons. simpl. f_equal.
  rewrite as_bytes_app, <-build_header_ref by done. done.
Qed.

(** ** Witness *)

Definition table_sample : DeviceRecord := {|
  dr_identity_key := s! "ip:10.0.0.1"; dr_mgmt_ip := Some (V4 167772161); dr_mac := None;
  dr_manufacturer := None; dr_model := None; dr_product_family := None;
  dr_platform := Some (replicate 12 233%Z); dr_os_version := None; dr_ssh_version := None;
  dr_http_server := None; dr_http_version := None; dr_role := None;
  dr_confidence := f64_ratio 1 10; dr_last_seen := 0%Z;
  dr_signals := [OpenPort 22; SnmpSysName (s! "core"); OpenPort 65535]; dr_probe_kinds := [];
  dr_schema_version := CURRENT_SCHEMA_VERSION; dr_schema_id := CURRENT_SCHEMA_ID;
  dr_alt_ips := []; dr_possible_alias_of := None; dr_scan_metadata := scan_metadata_default |}.

(** A platform of twelve two-byte characters is cut to the ten of its column. *)
Lemma table_aligned_witness :
  table_rows (table_encoder_new 0) [table_sample; table_sample] true =
    replicate 2 (as_bytes (s! "10.0.0.1         core          " ++ replicate 9 233%Z ++
      [ELLIPSIS_CHAR] ++ s! "  22,65535" ++ [NEWLINE])) ∧
  ∃ ws, te_widths (table_encoder_new 0) = ws ∧
    table_rows (table_encoder_new 0) [table_sample] false =
      [as_bytes (ref_header ws ++ ref_row ws table_sample)] ∧
    sum_list ws + gutter_width = 55.
Proof.
  split; [by vm_compute|]. exists (te_widths (table_encoder_new 0)). split; [done|].
  destruct (table_aligned 0 [table_sample]) as (_ & Hs & _ & Hrows).
  { constructor; [|done]. unfold printable, valid_char, is_u16.
    split_and!; apply (bool_decide_unpack _); by vm_compute. }
  split; [by rewrite Hrows|]. rewrite Hs. reflexivity.
Defined.
