(* ===== verification/GnmiPath.v ===== *)
(** * gNMI paths: [parse_path] and [append_path] of [prober/gnmi/mod.rs]

    A path is an origin and a list of elements, an element a name and a map of key
    attributes. Parsing never fails: a malformed element is a literal name. *)

From S2P Require Import Prelude Net F64 Model FuserCore UnionFind Identity Topology.

Record PathElem : Type := mkPathElem {
  elem_name : Str;
  elem_key : gmap Str Str;
}.

Record GnmiPath : Type := mkGnmiPath {
  path_origin : Str;
  path_elem : list PathElem;
}.

(** The origin precedes the first [/]. *)
Definition split_origin (raw : Str) : Str * Str :=
  let head := (take_until 47 raw).1 in
  match split_once 58 head with
  | Some (origin, _) => (origin, drop (S (length origin)) raw)
  | None => ([], raw)
  end.

(** The loop over the bracketed attributes of an element; each turn drops at least
    the two brackets, so a fuel above the length is never exhausted. *)
Fixpoint parse_keys (fuel : nat) (remaining : Str) (key : gmap Str Str) : option (gmap Str Str) :=
  match remaining with
  | [] => Some key
  | c :: inner =>
      match fuel with
      | O => None
      | S fuel =>
          if c =? 91 then
            '(attr, rest) ← split_once 93 inner;
            '(attribute, value) ← split_once 61 attr;
            if is_empty attribute then None
            else parse_keys fuel rest (<[attribute := value]> key)
          else None
      end
  end.

Definition parse_keyed_elem (segment : Str) : option PathElem :=
  '(name, rest) ← split_once 91 segment;
  if is_empty name then None
  else
    let remaining := 91 :: rest in
    key ← parse_keys (S (length remaining)) remaining ∅;
    Some (mkPathElem name key).

Definition parse_elem (segment : Str) : PathElem :=
  default (mkPathElem segment ∅) (parse_keyed_elem segment).

Definition parse_path (raw : Str) : GnmiPath :=
  let '(origin, rest) := split_origin raw in
  mkGnmiPath origin (parse_elem <$> filter (λ segment, segment ≠ []) (split_on 47 rest)).

(** The pairs of the key map in the order of [sort]. *)
Definition sorted_keys (key : gmap Str Str) : list (Str * Str) :=
  merge_sort pair_le (map_to_list key).

Definition append_key (kv : Str * Str) : Str := [91] ++ kv.1 ++ [61] ++ kv.2 ++ [93].

Definition append_elem (e : PathElem) : Str :=
  [47] ++ elem_name e ++ mjoin (append_key <$> sorted_keys (elem_key e)).

Definition append_path (out : Str) (path : GnmiPath) : Str :=
  out ++ mjoin (append_elem <$> path_elem path).

Definition LLDP_GET_PATHS : list Str := [
  s! "/lldp/state/chassis-id";
  s! "/lldp/state/chassis-id-type";
  s! "/lldp/interfaces/interface[name=*]/neighbors/neighbor[id=*]/state/chassis-id";
  s! "/lldp/interfaces/interface[name=*]/neighbors/neighbor[id=*]/state/chassis-id-type";
  s! "/lldp/interfaces/interface[name=*]/neighbors/neighbor[id=*]/state/port-id";
  s! "/lldp/interfaces/interface[name=*]/neighbors/neighbor[id=*]/state/port-id-type";
  s! "/lldp/interfaces/interface[name=*]/neighbors/neighbor[id=*]/state/system-name";
  s! "/lldp/interfaces/interface[name=*]/neighbors/neighbor[id=*]/state/port-description"
].

(** ** Round trip *)

(** An element whose text can be told apart from the syntax around it. *)
Record elem_wf (e : PathElem) : Prop := {
  ew_name : elem_name e ≠ [] ∧ 47 ∉ elem_name e ∧ 91 ∉ elem_name e;
  ew_key : ∀ k v, elem_key e !! k = Some v →
    k ≠ [] ∧ 47 ∉ k ∧ 61 ∉ k ∧ 93 ∉ k ∧ 47 ∉ v ∧ 93 ∉ v;
}.

Lemma parse_keys_fuel fuel fuel' remaining key :
  (length remaining < fuel)%nat → (length remaining < fuel')%nat →
  parse_keys fuel remaining key = parse_keys fuel' remaining key.
Proof.
  revert fuel' remaining key. induction fuel as [|fuel IH]; intros fuel' remaining key; [lia|].
  destruct fuel' as [|fuel']; [lia|]. destruct remaining as [|c inner]; [done|]. simpl.
  intros Hf Hf'. destruct (c =? 91); [|done].
  destruct (split_once 93 inner) as [[attr rest]|] eqn:Hs; [|done]. simpl.
  destruct (split_once 61 attr) as [[attribute value]|]; [|done]. simpl.
  destruct (is_empty attribute); [done|]. apply split_once_Some in Hs as [-> _].
  rewrite length_app in Hf, Hf'. simpl in Hf, Hf'. apply IH; lia.
Qed.

Lemma append_key_app k v rest :
  append_key (k, v) ++ rest = 91 :: (k ++ 61 :: v) ++ 93 :: rest.
Proof.
  unfold append_key. simpl. f_equal. rewrite <-!(assoc_L (++)). simpl. by rewrite <-(assoc_L (++)).
Qed.

Lemma parse_keys_append fuel kvs key :
  Forall (λ kv, kv.1 ≠ [] ∧ 61 ∉ kv.1 ∧ 93 ∉ kv.1 ∧ 93 ∉ kv.2) kvs →
  (length (mjoin (append_key <$> kvs)) < fuel)%nat →
  parse_keys fuel (mjoin (append_key <$> kvs)) key = Some (foldl (λ m kv, <[kv.1 := kv.2]> m) key kvs).
Proof.
  intros Hall. revert fuel key. induction Hall as [|[k v] kvs (Hk & Hk61 & Hk93 & Hv) _ IH];
    intros fuel key Hf; [by destruct fuel|].
  rewrite fmap_cons, mjoin_cons, append_key_app in Hf |- *.
  destruct fuel as [|fuel]; [simpl in Hf; lia|]. cbn [parse_keys]. rewrite Z.eqb_refl.
  rewrite split_once_app by set_solver. simpl. rewrite split_once_app by done. simpl.
  destruct k as [|c k]; [done|]. cbn [is_empty]. apply IH.
  simpl in Hf. rewrite length_app in Hf. simpl in Hf. lia.
Qed.

Lemma sorted_keys_map (key : gmap Str Str) :
  foldl (λ m kv, <[kv.1 := kv.2]> m) ∅ (sorted_keys key) = key.
Proof.
  assert (∀ (l : list (Str * Str)) (m : gmap Str Str), NoDup l.*1 →
    foldl (λ m kv, <[kv.1 := kv.2]> m) m l = list_to_map l ∪ m) as Hfold.
  { induction l as [|[k v] l IH]; intros m Hnd; simpl; [by rewrite (left_id_L ∅ (∪))|].
    apply NoDup_cons in Hnd as [Hk Hnd]. rewrite IH by done.
    rewrite <-insert_union_r by (by apply not_elem_of_list_to_map_1). by rewrite insert_union_l. }
  assert (sorted_keys key ≡ₚ map_to_list key) as Hperm by apply merge_sort_Permutation.
  assert (NoDup (sorted_keys key).*1) as Hnd.
  { rewrite Hperm. apply NoDup_fst_map_to_list. }
  rewrite Hfold, (right_id_L ∅ (∪)) by done.
  rewrite (list_to_map_proper _ (map_to_list key)) by done. apply list_to_map_to_list.
Qed.

Lemma split_on_piece c a rest p ps :
  c ∉ a → split_on c rest = p :: ps → split_on c (a ++ rest) = (a ++ p) :: ps.
Proof.
  intros Ha Hr. induction a as [|x a IH]; [done|].
  apply not_elem_of_cons in Ha as [Hx Ha]. simpl. rewrite IH by done.
  by destruct (Z.eqb_spec x c); [congruence|].
Qed.

(** What [append_elem] writes after the slash. *)
Definition elem_text (e : PathElem) : Str :=
  elem_name e ++ mjoin (append_key <$> sorted_keys (elem_key e)).

Lemma sorted_keys_wf e : elem_wf e →
  Forall (λ kv, kv.1 ≠ [] ∧ 47 ∉ kv.1 ∧ 61 ∉ kv.1 ∧ 93 ∉ kv.1 ∧ 47 ∉ kv.2 ∧ 93 ∉ kv.2)
    (sorted_keys (elem_key e)).
Proof.
  intros Hwf. apply Forall_forall. intros [k v] Hin. unfold sorted_keys in Hin.
  rewrite merge_sort_Permutation in Hin. apply elem_of_map_to_list in Hin. by apply Hwf in Hin.
Qed.

Lemma elem_text_no_slash e : elem_wf e → 47 ∉ elem_text e.
Proof.
  intros Hwf. unfold elem_text. rewrite not_elem_of_app. split; [apply Hwf|].
  rewrite list_elem_of_join. intros (l & Hin & Hl). apply list_elem_of_fmap in Hl as ([k v] & -> & Hkv).
  pose proof (sorted_keys_wf e Hwf) as Hall. rewrite Forall_forall in Hall.
  destruct (Hall _ Hkv) as (_ & Hk & _ & _ & Hv & _). unfold append_key in Hin. simpl in *. set_solver.
Qed.

Lemma parse_elem_text e : elem_wf e → parse_elem (elem_text e) = e.
Proof.
  intros Hwf. pose proof (sorted_keys_wf e Hwf) as Hall. pose proof (sorted_keys_map (elem_key e)) as Hmap.
  destruct Hwf as [(Hne & _ & Hbr) _]. destruct e as [name key]. unfold parse_elem, elem_text in *. simpl in *.
  unfold parse_keyed_elem. destruct (sorted_keys key) as [|[k v] kvs] eqn:Hk.
  - simpl in Hmap. simpl. rewrite app_nil_r. apply split_once_None in Hbr as ->. simpl. by subst.
  - assert (mjoin (append_key <$> (k, v) :: kvs) =
      91 :: (k ++ 61 :: v) ++ 93 :: mjoin (append_key <$> kvs)) as Htext
      by (by rewrite fmap_cons, mjoin_cons, append_key_app).
    rewrite Htext, split_once_app by done. cbn [mbind option_bind].
    destruct name as [|c name]; [done|]. cbn [is_empty]. cbv zeta. rewrite <-Htext.
    rewrite parse_keys_append; [by simpl; rewrite <-Hmap| |lia].
    eapply Forall_impl; [exact Hall|]. naive_solver.
Qed.

Lemma elem_text_nonempty e : elem_wf e → elem_text e ≠ [].
Proof.
  intros [(Hne & _) _]. unfold elem_text. destruct (elem_name e); [done|]. by intros ?.
Qed.

Lemma split_on_elems es :
  Forall elem_wf es → split_on 47 (mjoin (append_elem <$> es)) = [] :: (elem_text <$> es).
Proof.
  induction 1 as [|e es He _ IH]; [done|].
  rewrite fmap_cons, mjoin_cons. change (append_elem e ++ mjoin (append_elem <$> es))
    with (47 :: (elem_text e ++ mjoin (append_elem <$> es))).
  cbn [split_on]. rewrite (split_on_piece 47 _ _ _ _ (elem_text_no_slash e He) IH).
  by rewrite app_nil_r.
Qed.

(** Rendering a path whose names and keys are free of the syntax characters and
    parsing the text gives the path back, key order and all. *)
Theorem path_round_trip (elems : list PathElem) :
  Forall elem_wf elems →
  parse_path (append_path [] (mkGnmiPath [] elems)) = mkGnmiPath [] elems.
Proof.
  intros Hall. unfold append_path, parse_path. cbn [path_elem].
  assert (split_origin ([] ++ mjoin (append_elem <$> elems)) = ([], mjoin (append_elem <$> elems))) as ->.
  { by destruct elems. }
  f_equal. rewrite split_on_elems by done. rewrite filter_cons_False by naive_solver.
  clear -Hall. induction Hall as [|e es He _ IH]; [done|].
  rewrite fmap_cons, filter_cons_True, fmap_cons, IH, parse_elem_text by (by try apply elem_text_nonempty).
  done.
Qed.

Definition sample_elems : list PathElem :=
  [mkPathElem (s! "interfaces") ∅;
   mkPathElem (s! "interface") {[s! "name" := s! "et1"; s! "index" := s! "0"]}].

Lemma path_round_trip_witness :
  append_path [] (mkGnmiPath [] sample_elems) = s! "/interfaces/interface[index=0][name=et1]" ∧
  parse_path (append_path [] (mkGnmiPath [] sample_elems)) = mkGnmiPath [] sample_elems.
Proof.
  split; [by vm_compute|]. apply path_round_trip.
  assert (∀ (c : Z) (l : Str), bool_decide (c ∉ l) = true → c ∉ l) as Hno by (intros c l; apply bool_decide_eq_true_1).
  constructor; [|constructor; [|constructor]]; split; simpl; try (split_and!; [done|by apply Hno..]).
  - intros k v Hk. by rewrite lookup_empty in Hk.
  - intros k v [[<- <-] | [_ [<- <-]%lookup_singleton_Some]]%lookup_insert_Some;
      (split_and!; [done|by apply Hno..]).
Defined.

(** A slash inside a key value splits the element: an interface name such as
    [ethernet-1/1] does not survive the round trip. *)
Example parse_path_splits_keys :
  elem_name <$> path_elem (parse_path (s! "/interface[name=ethernet-1/1]/state")) =
  [s! "interface[name=ethernet-1"; s! "1]"; s! "state"].
Proof. by vm_compute. Qed.

(** The other texts the parser degrades on, or accepts. *)
Example parse_path_examples :
  path_origin (parse_path (s! "openconfig:/interfaces")) = s! "openconfig" ∧
  (elem_name <$> path_elem (parse_path (s! "/a[k"))) = [s! "a[k"] ∧
  (elem_key <$> path_elem (parse_path (s! "a[k=]"))) = [{[s! "k" := []]}].
Proof. by vm_compute. Qed.
