(* ===== verification/SinkConfig.v ===== *)
(** * Sink configuration and construction: [SinkConfig] and [create_sink] of [sink/mod.rs]

    The configuration enum with its offline checks, the sink it builds, and the
    dispatch of the [Sink] trait over the sinks [create_sink] can return. *)

From S2P Require Import Prelude Net Sink Tee Kafka Nats.

(** ** The configuration *)

Inductive SinkConfig : Type :=
  | CfgStdout
  | CfgFile (path : Str)
  | CfgMemory
  | CfgKafka (brokers : list Str) (topic : Str) (links_topic profiles_topic : option Str)
      (flush_mode : KafkaFlushMode) (dead_letter : option DeadLetterConfig)
      (tls : option KafkaTls) (sasl : option KafkaSasl) (retry : SinkRetry)
  | CfgNats (servers : list Str) (subject stream : Str)
      (links_subject profiles_subject : option Str) (credentials : NatsCredentials)
      (flush_mode : NatsFlushMode) (dead_letter : option NatsDeadLetterConfig) (retry : SinkRetry).

Definition supports_resume (c : SinkConfig) : bool :=
  match c with
  | CfgFile _ | CfgKafka _ _ _ _ _ _ _ _ _ | CfgNats _ _ _ _ _ _ _ _ _ => true
  | CfgStdout | CfgMemory => false
  end.

Definition config_sink_type (c : SinkConfig) : SinkType :=
  match c with
  | CfgStdout => StStdout
  | CfgFile _ => StFile
  | CfgMemory => StMemory
  | CfgKafka _ _ _ _ _ _ _ _ _ => StKafka
  | CfgNats _ _ _ _ _ _ _ _ _ => StNats
  end.

Definition config_requires_structured_records (c : SinkConfig) : bool :=
  requires_structured_records (config_sink_type c).

(** [str::trim().is_empty()]. *)
Definition is_blank (s : Str) : bool := is_empty (trim s).

Definition is_some_and {A} (p : A → bool) (o : option A) : bool :=
  match o with Some x => p x | None => false end.

(** [if cond { return Err(ConfigError::invalid(msg).into()) }]. *)
Definition reject `{ForeignErrors} (cond : bool) (msg : Str) : Result RastreoError unit :=
  if cond then Err (EConfig (InvalidValue msg)) else Ok tt.

(** [if let Some(x) = o { check(x)? }]. *)
Definition check_option `{ForeignErrors} {A} (check : A → Result RastreoError unit) (o : option A)
    : Result RastreoError unit :=
  match o with Some x => check x | None => Ok tt end.

Section sinks.
Context {W : Type} `{FE : ForeignErrors} {IE : IoErrors} {SL : Sleep W} {TO : Timeout W}
  {WL : WriterLib W} {KL : KafkaLib W} {NL : NatsLib W}.

Definition sink_validate (c : SinkConfig) : Result RastreoError unit :=
  match c with
  | CfgStdout | CfgFile _ | CfgMemory => Ok tt
  | CfgKafka brokers topic links_topic profiles_topic _ dead_letter tls sasl _ =>
      _ ← reject (is_empty brokers) (s! "kafka sink: brokers list is empty");
      _ ← reject (existsb is_blank brokers) (s! "kafka sink: brokers list contains an empty entry");
      _ ← reject (is_blank topic) (s! "kafka sink: topic is empty");
      _ ← reject (is_some_and is_blank links_topic) (s! "kafka sink: links_topic is empty");
      _ ← reject (is_some_and is_blank profiles_topic) (s! "kafka sink: profiles_topic is empty");
      _ ← check_option kafka_tls_validate tls;
      _ ← check_option kafka_sasl_validate sasl;
      check_option dead_letter_validate dead_letter
  | CfgNats servers subject stream links_subject profiles_subject _ _ dead_letter _ =>
      _ ← reject (is_empty servers) (s! "nats sink: servers list is empty");
      _ ← reject (existsb is_blank servers) (s! "nats sink: servers list contains an empty entry");
      _ ← reject (is_blank subject) (s! "nats sink: subject is empty");
      _ ← reject (is_some_and is_blank links_subject) (s! "nats sink: links_subject is empty");
      _ ← reject (is_some_and is_blank profiles_subject) (s! "nats sink: profiles_subject is empty");
      _ ← reject (is_blank stream) (s! "nats sink: stream is empty");
      check_option nats_dead_letter_validate dead_letter
  end.

(** ** The sinks [create_sink] returns: [Box<dyn Sink>] *)

Inductive AnySink : Type :=
  | SkStdout (s : WriterSink)
  | SkFile (s : WriterSink)
  | SkMemory (s : MemoryInner)
  | SkKafka (s : KafkaSink)
  | SkNats (s : NatsSink).

Definition boxed {A} (mk : A → AnySink) (r : W * Result RastreoError A)
    : W * Result RastreoError AnySink := (r.1, mk <$> r.2).

Definition create_sink (c : SinkConfig) (w : W) : W * Result RastreoError AnySink :=
  match sink_validate c with
  | Err e => (w, Err e)
  | Ok _ =>
      match c with
      | CfgStdout => (w, Ok (SkStdout stdout_sink_new))
      | CfgFile path => boxed SkFile (file_sink_new path w)
      | CfgMemory => (w, Ok (SkMemory memory_new))
      | CfgKafka brokers topic links profiles mode dead_letter tls sasl retry =>
          boxed SkKafka (kafka_create brokers topic links profiles mode dead_letter tls sasl retry w)
      | CfgNats servers subject stream links profiles credentials mode dead_letter retry =>
          boxed SkNats
            (nats_create servers subject stream links profiles credentials mode dead_letter retry w)
      end
  end.

Definition any_kind (s : AnySink) : SinkType :=
  match s with
  | SkStdout _ => StStdout
  | SkFile _ => StFile
  | SkMemory _ => StMemory
  | SkKafka _ => StKafka
  | SkNats _ => StNats
  end.

(** The default [requires_structured_records] and [destinations] of the trait. *)
Definition any_requires_structured_records (s : AnySink) : bool :=
  requires_structured_records (any_kind s).

Definition any_destinations (s : AnySink) : list SinkType := [any_kind s].

(** A call on the concrete sink, back behind the trait object. *)
Definition lift {A} (mk : A → AnySink) (r : A * W * Result RastreoError unit)
    : option (AnySink * W * Result RastreoError unit) :=
  let '(s, w, e) := r in Some (mk s, w, e).

(** [write_kind]: the local sinks inherit the default, which ignores the kind. [None]
    is the NATS model out of fuel, which no history reaches. *)
Definition any_write_kind (kind : RecordKind) (data : Bytes) (s : AnySink) (w : W)
    : option (AnySink * W * Result RastreoError unit) :=
  match s with
  | SkStdout s => lift SkStdout (writer_sink_write (s! "stdout") data s w)
  | SkFile s => lift SkFile (writer_sink_write (s! "file") data s w)
  | SkMemory s => Some (SkMemory (memory_write data s), w, Ok tt)
  | SkKafka s => lift SkKafka (kafka_write_kind kind data s w)
  | SkNats s => r ← nats_write_kind kind data s w; lift SkNats r
  end.

Definition any_flush (s : AnySink) (w : W) : option (AnySink * W * Result RastreoError unit) :=
  match s with
  | SkStdout s => lift SkStdout (writer_sink_flush (s! "stdout") s w)
  | SkFile s => lift SkFile (writer_sink_flush (s! "file") s w)
  | SkMemory s => Some (SkMemory s, w, Ok tt)
  | SkKafka s => lift SkKafka (kafka_flush s w)
  | SkNats s => r ← nats_flush s w; lift SkNats r
  end.

(** No sink of these overrides [close]. *)
Definition any_close (s : AnySink) (w : W) : option (AnySink * W * Result RastreoError unit) :=
  any_flush s w.

Definition any_last_write_delivered (s : AnySink) : bool :=
  match s with
  | SkStdout s | SkFile s => ws_delivered s
  | SkMemory s => mem_delivered s
  | SkKafka s => ks_last_write_delivered s
  | SkNats s => nats_last_write_delivered s
  end.
End sinks.

(** The default [dlq_records_by_type_and_class] of the trait. *)
Definition dlq_by_type_and_class (kind : SinkType) (by_class : ClassDeltas) : Attribution :=
  omap (λ class, if 0 <? by_class class then Some (kind, class, by_class class) else None)
    sink_error_class_all.
