(* ===== verification/ProberConfig.v ===== *)
(** * Prober configuration and construction: [prober/mod.rs]

    [ProberConfig], [create_prober] and the constructor of every prober: what each
    refuses, and the normalised form it keeps. The HTTP client, the network
    interfaces, gRPC metadata and the DNS resolvers are parameters. *)

From S2P Require Import Prelude Net F64 Model GnmiPath SinkConfig.

(** ** Configuration *)

Inductive HttpScheme : Type := SchemeAuto | SchemeHttp | SchemeHttps.
Inductive DnsQueryType : Type := QueryA | QueryAaaa | QueryMx | QueryTxt | QueryPtr | QueryNs | QueryCname.
Inductive DnsTransport : Type := DnsUdp | DnsTcp.
Inductive UdpProtocol : Type := UdpNtp | SipOptions | MemcachedStats | StunBinding.
Inductive SnmpVersion : Type := SnmpV1 | SnmpV2c | SnmpV3.

Definition default_ports_for (protocol : UdpProtocol) : list Z :=
  match protocol with
  | UdpNtp => [123]
  | SipOptions => [5060]
  | MemcachedStats => [11211]
  | StunBinding => [3478]
  end.

(** [snmp/usm.rs] *)
Inductive UsmAuth : Type :=
  | AuthNone
  | AuthMd5 (password : Str)
  | AuthSha1 (password : Str)
  | AuthSha224 (password : Str)
  | AuthSha256 (password : Str)
  | AuthSha384 (password : Str)
  | AuthSha512 (password : Str).

Inductive UsmPrivacy : Type :=
  | PrivNone
  | PrivDes (password : Str)
  | PrivAes128 (password : Str)
  | PrivAes192 (password : Str)
  | PrivAes256 (password : Str).

Record UsmCredentials : Type := mkUsmCredentials {
  usm_username : Str;
  usm_auth : UsmAuth;
  usm_privacy : UsmPrivacy;
}.

Inductive AuthAlgo : Type := Md5 | Sha1 | Sha224 | Sha256 | Sha384 | Sha512.
Inductive PrivAlgo : Type := Des | Aes128 | Aes192 | Aes256.
Inductive SecurityLevel : Type := NoAuthNoPriv | AuthNoPriv | AuthPriv.

Definition auth_key_len (a : AuthAlgo) : nat :=
  match a with Md5 => 16 | Sha1 => 20 | Sha224 => 28 | Sha256 => 32 | Sha384 => 48 | Sha512 => 64 end.

Definition hmac_trunc_len (a : AuthAlgo) : nat :=
  match a with Md5 => 12 | Sha1 => 12 | Sha224 => 16 | Sha256 => 24 | Sha384 => 32 | Sha512 => 48 end.

Definition priv_key_len (p : PrivAlgo) : nat :=
  match p with Des => 16 | Aes128 => 16 | Aes192 => 24 | Aes256 => 32 end.

Definition flag_bits (l : SecurityLevel) : Z :=
  match l with NoAuthNoPriv => 0 | AuthNoPriv => 1 | AuthPriv => 3 end.

Definition auth_resolve (a : UsmAuth) : option (AuthAlgo * Str) :=
  match a with
  | AuthNone => None
  | AuthMd5 p => Some (Md5, p)
  | AuthSha1 p => Some (Sha1, p)
  | AuthSha224 p => Some (Sha224, p)
  | AuthSha256 p => Some (Sha256, p)
  | AuthSha384 p => Some (Sha384, p)
  | AuthSha512 p => Some (Sha512, p)
  end.

Definition priv_resolve (p : UsmPrivacy) : option (PrivAlgo * Str) :=
  match p with
  | PrivNone => None
  | PrivDes p => Some (Des, p)
  | PrivAes128 p => Some (Aes128, p)
  | PrivAes192 p => Some (Aes192, p)
  | PrivAes256 p => Some (Aes256, p)
  end.

Definition auth_password (a : UsmAuth) : option Str :=
  match a with
  | AuthNone => None
  | AuthMd5 p | AuthSha1 p | AuthSha224 p | AuthSha256 p | AuthSha384 p | AuthSha512 p => Some p
  end.

Definition priv_password (p : UsmPrivacy) : option Str :=
  match p with
  | PrivNone => None
  | PrivDes p | PrivAes128 p | PrivAes192 p | PrivAes256 p => Some p
  end.

Definition derive_security_level (auth : option (AuthAlgo * Str)) (privacy : option (PrivAlgo * Str))
    : Result Str SecurityLevel :=
  match auth, privacy with
  | None, None => Ok NoAuthNoPriv
  | Some _, None => Ok AuthNoPriv
  | Some _, Some _ => Ok AuthPriv
  | None, Some _ => Err (s! "snmp v3 privacy requires an auth algorithm")
  end.

Inductive ProberConfig : Type :=
  | CfgTcpConnect (ports : list Z)
  | CfgHttp (ports : list Z) (scheme : HttpScheme) (path : Str) (tls_verify : bool) (user_agent : Str)
  | CfgDns (ports : list Z) (query_names : list Str) (query_type : DnsQueryType)
      (transport : DnsTransport) (recursion_desired : bool)
  | CfgUdp (ports : list Z) (protocol : UdpProtocol)
  | CfgSnmp (ports : list Z) (version : SnmpVersion) (community : Str) (credentials : UsmCredentials)
  | CfgLldp (ports : list Z) (version : SnmpVersion) (community : Str) (credentials : UsmCredentials)
      (max_rows : Z)
  | CfgArp (interface : Str)
  | CfgNdp (interface : Str)
  | CfgSsh (ports : list Z)
  | CfgIcmp (count interval_ms : Z)
  | CfgTls (ports : list Z)
  | CfgGnmi (ports : list Z) (plaintext : bool) (username password : Str) (get_paths : list Str)
      (lldp : bool)
  | CfgReverseDns (resolvers : list IpAddr).

(** ** What the probers are built from outside the repository *)

Class ProberLib := {
  HttpClient : Type;
  DnsResolver : Type;
  (** [reqwest::Client::builder] without redirects; the flag accepts invalid certificates. *)
  http_client_build : bool → Result Str HttpClient;
  (** [pnet_datalink::interfaces], by name. *)
  interface_names : list Str;
  (** [AsciiMetadataValue::try_from] accepts the text. *)
  metadata_value_valid : Str → bool;
  (** [TokioResolver::builder_tokio], then [build]. *)
  system_resolver_load : Result Str unit;
  system_resolver_build : Result Str DnsResolver;
  custom_resolver_build : list IpAddr → Result Str DnsResolver;
  (** The [Debug] form of a string. *)
  str_debug : Str → Str;
}.

Definition sort_ports (ports : list Z) : list Z := vec_dedup (merge_sort Z.le ports).

Section probers.
Context `{FE : ForeignErrors} `{PL : ProberLib}.

Record GnmiAuth : Type := mkGnmiAuth { ga_username : Str; ga_password : Str }.

(** [Box<dyn Prober>]: the probers with what they keep. *)
Inductive AnyProber : Type :=
  | TcpConnectProber (ports : list Z)
  | HttpProber (ports : list Z) (scheme : HttpScheme) (path user_agent : Str) (client : HttpClient)
  | DnsProber (ports : list Z) (query_names : list Str) (query_type : DnsQueryType)
      (transport : DnsTransport) (recursion_desired : bool)
  | UdpProber (ports : list Z) (protocol : UdpProtocol)
  | SnmpProber (ports : list Z) (version : SnmpVersion) (community : Str)
      (credentials : UsmCredentials)
  | LldpProber (ports : list Z) (version : SnmpVersion) (community : Str)
      (credentials : UsmCredentials) (max_rows : Z)
  | ArpProber (interface : Str)
  | NdpProber (interface : Str)
  | SshProber (ports : list Z)
  | IcmpProber (count interval_ms : Z)
  | TlsProber (ports : list Z)
  | GnmiProber (ports : list Z) (plaintext : bool) (get_paths : list GnmiPath) (lldp : bool)
      (lldp_paths : list GnmiPath) (auth : option GnmiAuth)
  | ReverseDnsProber (resolvers : list IpAddr) (resolver : DnsResolver).

(** [Prober::kind]. *)
Definition prober_kind (p : AnyProber) : ProbeKind :=
  match p with
  | TcpConnectProber _ => TcpConnect
  | HttpProber _ _ _ _ _ => Http
  | DnsProber _ _ _ _ _ => Dns
  | UdpProber _ _ => Udp
  | SnmpProber _ _ _ _ => Snmp
  | LldpProber _ _ _ _ _ => Lldp
  | ArpProber _ => Arp
  | NdpProber _ => Ndp
  | SshProber _ => Ssh
  | IcmpProber _ _ => Icmp
  | TlsProber _ => Tls
  | GnmiProber _ _ _ _ _ _ => Gnmi
  | ReverseDnsProber _ _ => ReverseDns
  end.

Definition MAX_LABEL_BYTES : Z := 63.
Definition MAX_NAME_BYTES : Z := 253.
Definition MAX_COUNT : Z := 1024.

Definition str_len (s : Str) : Z := Sink.byte_len (Sink.as_bytes s).

(** [str::strip_suffix('.')]. *)
Definition strip_dot (name : Str) : option Str :=
  match rev name with 46 :: r => Some (rev r) | _ => None end.

Fixpoint check_labels (name : Str) (labels : list Str) : Result RastreoError unit :=
  match labels with
  | [] => Ok tt
  | label :: rest =>
      _ ← reject (is_empty label)
            (s! "dns prober query_name " ++ str_debug name ++ s! " contains an empty label");
      _ ← reject (MAX_LABEL_BYTES <? str_len label)
            (s! "dns prober query_name " ++ str_debug name ++ s! " has a label longer than 63 bytes");
      check_labels name rest
  end.

Definition validate_dns_name (name : Str) : Result RastreoError unit :=
  _ ← reject (is_empty name) (s! "dns prober query_name must not be empty");
  let trimmed := default name (strip_dot name) in
  _ ← reject (is_empty trimmed) (s! "dns prober query_name must not be empty");
  _ ← reject (MAX_NAME_BYTES <? str_len trimmed)
        (s! "dns prober query_name " ++ str_debug name ++ s! " exceeds 253 bytes");
  check_labels name (split_on 46 trimmed).

Fixpoint validate_names (names : list Str) : Result RastreoError unit :=
  match names with
  | [] => Ok tt
  | name :: rest => _ ← validate_dns_name name; validate_names rest
  end.

Definition snmp_is_v3 (v : SnmpVersion) : bool := match v with SnmpV3 => true | _ => false end.

Definition validate_transport (ports : list Z) (version : SnmpVersion) (community : Str)
    (credentials : UsmCredentials) : Result RastreoError unit :=
  _ ← reject (is_empty ports) (s! "snmp prober requires at least one port");
  _ ← reject (negb (snmp_is_v3 version) && is_empty community)
        (s! "snmp community string must not be empty");
  _ ← reject (snmp_is_v3 version && is_empty (usm_username credentials))
        (s! "snmp v3 requires a non-empty username in credentials");
  if snmp_is_v3 version then
    match derive_security_level (auth_resolve (usm_auth credentials))
            (priv_resolve (usm_privacy credentials)) with
    | Err msg => Err (EConfig (InvalidValue msg))
    | Ok _ =>
        _ ← check_option (λ p, reject (is_empty p) (s! "snmp v3 auth password must not be empty"))
              (auth_password (usm_auth credentials));
        check_option (λ p, reject (is_empty p) (s! "snmp v3 privacy password must not be empty"))
          (priv_password (usm_privacy credentials))
    end
  else Ok tt.

(** The ports of a prober that needs some: sorted and without repetitions. *)
Definition checked_ports (ports : list Z) (msg : Str) : Result RastreoError (list Z) :=
  _ ← reject (is_empty ports) msg; Ok (sort_ports ports).

Definition config_err {A} (context : Str) (r : Result Str A) : Result RastreoError A :=
  map_err (λ e, EConfig (InvalidValue (context ++ e))) r.

Definition http_prober_new (ports : list Z) (scheme : HttpScheme) (path : Str) (tls_verify : bool)
    (user_agent : Str) : Result RastreoError AnyProber :=
  ports ← checked_ports ports (s! "http prober requires at least one port");
  _ ← reject (negb (bool_decide (head path = Some 47))) (s! "http prober path must start with /");
  client ← config_err (s! "failed to build http client: ") (http_client_build (negb tls_verify));
  Ok (HttpProber ports scheme path user_agent client).

Definition dns_prober_new (ports : list Z) (query_names : list Str) (query_type : DnsQueryType)
    (transport : DnsTransport) (recursion_desired : bool) : Result RastreoError AnyProber :=
  ports ← checked_ports ports (s! "dns prober requires at least one port");
  _ ← reject (is_empty query_names) (s! "dns prober requires at least one query_name");
  _ ← validate_names query_names;
  Ok (DnsProber ports query_names query_type transport recursion_desired).

Definition snmp_prober_new (ports : list Z) (version : SnmpVersion) (community : Str)
    (credentials : UsmCredentials) : Result RastreoError AnyProber :=
  _ ← validate_transport ports version community credentials;
  Ok (SnmpProber (sort_ports ports) version community credentials).

Definition lldp_prober_new (ports : list Z) (version : SnmpVersion) (community : Str)
    (credentials : UsmCredentials) (max_rows : Z) : Result RastreoError AnyProber :=
  _ ← validate_transport ports version community credentials;
  Ok (LldpProber (sort_ports ports) version community credentials max_rows).

(** [lookup_interface(..).is_none()]. *)
Definition check_interface (interface : Str) : Result RastreoError unit :=
  reject (negb (is_empty interface) && negb (bool_decide (interface ∈ interface_names)))
    (s! "network interface '" ++ interface ++ s! "' not found").

Definition icmp_prober_new (count interval_ms : Z) : Result RastreoError AnyProber :=
  _ ← reject (count =? 0) (s! "icmp prober requires count >= 1");
  _ ← reject (MAX_COUNT <? count) (s! "icmp prober count must be <= 1024");
  Ok (IcmpProber count interval_ms).

Definition gnmi_prober_new (ports : list Z) (plaintext : bool) (username password : Str)
    (get_paths : list Str) (lldp : bool) : Result RastreoError AnyProber :=
  ports ← checked_ports ports (s! "gnmi prober requires at least one port");
  auth ← (if is_empty username then Ok None
          else
            _ ← reject (negb (metadata_value_valid username))
                  (s! "gnmi username is not a valid gRPC metadata value");
            _ ← reject (negb (metadata_value_valid password))
                  (s! "gnmi password is not a valid gRPC metadata value");
            Ok (Some (mkGnmiAuth username password)));
  Ok (GnmiProber ports plaintext (parse_path <$> get_paths) lldp
        (if lldp then parse_path <$> LLDP_GET_PATHS else []) auth).

Definition build_system_resolver : Result RastreoError DnsResolver :=
  match system_resolver_load with
  | Err e => Err (EConfig (InvalidValue (s! "failed to load system resolver: " ++ e ++
      s! ". On distroless / minimal container images without /etc/resolv.conf, supply explicit DNS servers via the reverse_dns prober's `resolvers: [1.1.1.1, 8.8.8.8]` config field to bypass the system resolver.")))
  | Ok _ => config_err (s! "failed to build system resolver: ") system_resolver_build
  end.

Definition build_custom_resolver (resolvers : list IpAddr) : Result RastreoError DnsResolver :=
  config_err (s! "failed to build custom resolver: ") (custom_resolver_build resolvers).

Definition reverse_dns_prober_new (resolvers : list IpAddr) : Result RastreoError AnyProber :=
  resolver ← (if is_empty resolvers then build_system_resolver else build_custom_resolver resolvers);
  Ok (ReverseDnsProber resolvers resolver).

Definition create_prober (config : ProberConfig) : Result RastreoError AnyProber :=
  match config with
  | CfgTcpConnect ports =>
      TcpConnectProber <$> checked_ports ports (s! "TcpConnectProber requires at least one port")
  | CfgHttp ports scheme path tls_verify user_agent =>
      http_prober_new ports scheme path tls_verify user_agent
  | CfgDns ports query_names query_type transport recursion_desired =>
      dns_prober_new ports query_names query_type transport recursion_desired
  | CfgUdp ports protocol =>
      (λ ports, UdpProber ports protocol) <$>
        checked_ports ports (s! "udp prober requires at least one port")
  | CfgSnmp ports version community credentials =>
      snmp_prober_new ports version community credentials
  | CfgLldp ports version community credentials max_rows =>
      lldp_prober_new ports version community credentials max_rows
  | CfgArp interface => _ ← check_interface interface; Ok (ArpProber interface)
  | CfgNdp interface => _ ← check_interface interface; Ok (NdpProber interface)
  | CfgSsh ports => SshProber <$> checked_ports ports (s! "ssh prober requires at least one port")
  | CfgIcmp count interval_ms => icmp_prober_new count interval_ms
  | CfgTls ports => TlsProber <$> checked_ports ports (s! "tls prober requires at least one port")
  | CfgGnmi ports plaintext username password get_paths lldp =>
      gnmi_prober_new ports plaintext username password get_paths lldp
  | CfgReverseDns resolvers => reverse_dns_prober_new resolvers
  end.
End probers.
