(* ===== verification/Selection.v ===== *)
(** * Probe selection: [prober/selection.rs]

    The names an operator gives, the set a scan runs when none is given, and the
    configurations the selected kinds expand into. *)

From S2P Require Import Prelude Net F64 Model Sink GnmiPath SinkConfig ProberConfig.

(** The build features of the kinds that have one: [cfg!(feature = ..)]. *)
Class ProbeFeatures := probe_feature : ProbeKind → bool.

(** Every feature on. *)
Definition all_probe_features : ProbeFeatures := λ _, true.

Section selection.
Context `{FE : ForeignErrors} {PF : ProbeFeatures}.

Definition probe_compiled_in (kind : ProbeKind) : bool :=
  match kind with
  | TcpConnect | Udp | Dns | ReverseDns => true
  | kind => probe_feature kind
  end.

Definition probe_required_feature (kind : ProbeKind) : option Str :=
  match kind with
  | TcpConnect | Udp | Dns | ReverseDns => None
  | Http => Some (s! "http")
  | Snmp => Some (s! "snmp")
  | Lldp => Some (s! "lldp")
  | Arp => Some (s! "arp")
  | Ndp => Some (s! "ndp")
  | Ssh => Some (s! "ssh")
  | Icmp => Some (s! "icmp")
  | Tls => Some (s! "tls")
  | Gnmi => Some (s! "gnmi")
  end.

Definition consumes_shared_ports (kind : ProbeKind) : bool :=
  match kind with TcpConnect | Http | Udp => true | _ => false end.

Definition emits_second_stream (kind : ProbeKind) : bool :=
  match kind with Lldp | Gnmi => true | _ => false end.

Definition requires_explicit_param (kind : ProbeKind) : bool :=
  match kind with Udp | Dns => true | _ => false end.

Definition is_link_layer (kind : ProbeKind) : bool :=
  match kind with Arp | Ndp => true | _ => false end.

Definition has_runnability_precondition (kind : ProbeKind) : bool :=
  match kind with Icmp => true | _ => false end.

Definition is_default_eligible (kind : ProbeKind) : bool :=
  probe_compiled_in kind && negb (requires_explicit_param kind) && negb (is_link_layer kind) &&
  negb (emits_second_stream kind).

Definition DEFAULT_ORDER : list ProbeKind := [Icmp; TcpConnect; Http; Ssh; Tls; Snmp; ReverseDns].

Definition available_probe_kinds : list ProbeKind := base.filter (λ k, probe_compiled_in k = true) probe_kind_all.

Definition default_probe_kinds : list ProbeKind :=
  base.filter (λ k, is_default_eligible k = true) DEFAULT_ORDER.

(** ** Names *)

Definition DEFAULT_KEYWORD : Str := s! "default".
Definition TCP_ALIAS : Str := s! "tcp".

Record ProbeSelection : Type := mkProbeSelection {
  sel_named : list ProbeKind;
  sel_defaulted : list ProbeKind;
}.

Definition unknown_probe_kind (name : Str) : RastreoError :=
  EConfig (UnknownProbeKind name
    (join (s! ", ") ((probe_kind_label <$> available_probe_kinds) ++ [DEFAULT_KEYWORD; TCP_ALIAS]))).

(** The loop over the values; [push_new] is [push_unique]. *)
Fixpoint parse_tokens (named defaulted : list ProbeKind) (values : list Str)
    : Result RastreoError (list ProbeKind * list ProbeKind) :=
  match values with
  | [] => Ok (named, defaulted)
  | value :: rest =>
      let token := trim value in
      if bool_decide (token = DEFAULT_KEYWORD) then
        parse_tokens named (foldl push_new defaulted default_probe_kinds) rest
      else if bool_decide (token = TCP_ALIAS) then
        parse_tokens (push_new named TcpConnect) defaulted rest
      else
        match probe_kind_from_label token with
        | Some kind => parse_tokens (push_new named kind) defaulted rest
        | None => Err (unknown_probe_kind token)
        end
  end.

Definition parse_probe_selection (values : list Str) : Result RastreoError ProbeSelection :=
  '(named, defaulted) ← parse_tokens [] [] values;
  Ok (mkProbeSelection named (base.filter (λ k, k ∉ named) defaulted)).

Definition apply_runnability_filter (selection : ProbeSelection) (predicate : ProbeKind → bool)
    : list ProbeKind :=
  sel_named selection ++
  base.filter (λ k, negb (has_runnability_precondition k) || predicate k = true) (sel_defaulted selection).

(** ** Expansion *)

Definition DEFAULT_TCP_PORTS : list Z := [22; 23; 80; 443; 830; 8080].
Definition DEFAULT_HTTP_PORTS : list Z := [80; 443; 8080; 8443].

(** The defaults of the probers ([dns.rs], [http.rs], [snmp/v1_v2c.rs], [ssh.rs], [tls.rs],
    [gnmi/mod.rs], [icmp.rs], [lldp.rs], [arp.rs]). *)
Definition dns_default_ports : list Z := [53].
Definition default_recursion_desired : bool := true.
Definition http_default_path : Str := s! "/".
Definition default_tls_verify : bool := false.
Definition default_user_agent : Str := s! "rastreo/0.13.0".
Definition snmp_default_ports : list Z := [161].
Definition default_community : Str := s! "public".
Definition ssh_default_ports : list Z := [22].
Definition tls_default_ports : list Z := [443].
Definition gnmi_default_ports : list Z := [57400].
Definition default_plaintext : bool := false.
Definition default_lldp : bool := false.
Definition default_get_paths : list Str :=
  [s! "/system/state/hostname"; s! "/system/state/software-version"].
Definition default_count : Z := 3.
Definition default_interval_ms : Z := 200.
Definition default_max_rows : Z := 4096.
Definition default_interface : Str := [].
Definition default_resolvers : list IpAddr := [].
Definition usm_credentials_default : UsmCredentials := mkUsmCredentials [] AuthNone PrivNone.

(** [ports_by_kind] is a map: its keys are distinct. *)
Record ProbeSelectionOptions : Type := mkProbeSelectionOptions {
  po_ports : list Z;
  po_ports_by_kind : list (ProbeKind * list Z);
  po_dns_query_names : list Str;
  po_dns_query_type : DnsQueryType;
  po_snmp_community : Str;
  po_snmp_version : SnmpVersion;
  po_http_scheme : HttpScheme;
  po_http_path : Str;
  po_icmp_count : Z;
  po_interface : Str;
  po_udp_protocol : option UdpProtocol;
}.

Definition probe_selection_options_default : ProbeSelectionOptions :=
  mkProbeSelectionOptions [] [] [] QueryA default_community SnmpV2c SchemeAuto http_default_path
    default_count default_interface None.

(** [BTreeMap::get]. *)
Definition ports_for (kind : ProbeKind) (ports_by_kind : list (ProbeKind * list Z)) : option (list Z) :=
  find_map (λ e : ProbeKind * list Z, if bool_decide (e.1 = kind) then Some e.2 else None) ports_by_kind.

Definition resolve_ports (kind : ProbeKind) (options : ProbeSelectionOptions) (intrinsic : list Z)
    : list Z :=
  match ports_for kind (po_ports_by_kind options) with
  | Some ((_ :: _) as explicit) => explicit
  | _ =>
      if consumes_shared_ports kind && negb (is_empty (po_ports options)) then po_ports options
      else intrinsic
  end.

Definition UDP_PROTOCOL_PARAM : Str :=
  s! "a udp protocol (ntp | sip_options | memcached_stats | stun_binding)".
Definition DNS_QUERY_PARAM : Str := s! "at least one dns query name".

Definition missing_param (kind : ProbeKind) (param : Str) : RastreoError :=
  EConfig (ProbeKindMissingParam (probe_kind_label kind) param).

Definition probe_kind_not_compiled (kind : ProbeKind) : RastreoError :=
  EConfig (ProbeKindNotCompiled (probe_kind_label kind)
    (default (probe_kind_label kind) (probe_required_feature kind))).

(** One arm of the match: the configuration, or why there is none. The arms of a kind whose
    feature is off return [probe_kind_not_compiled]. *)
Definition expand_kind (kind : ProbeKind) (options : ProbeSelectionOptions)
    : Result RastreoError ProberConfig :=
  if negb (probe_compiled_in kind) then Err (probe_kind_not_compiled kind)
  else
    match kind with
    | TcpConnect => Ok (CfgTcpConnect (resolve_ports kind options DEFAULT_TCP_PORTS))
    | Http =>
        Ok (CfgHttp (resolve_ports kind options DEFAULT_HTTP_PORTS) (po_http_scheme options)
              (po_http_path options) default_tls_verify default_user_agent)
    | Dns =>
        if is_empty (po_dns_query_names options) then Err (missing_param kind DNS_QUERY_PARAM)
        else Ok (CfgDns (resolve_ports kind options dns_default_ports) (po_dns_query_names options)
                   (po_dns_query_type options) DnsUdp default_recursion_desired)
    | Udp =>
        match po_udp_protocol options with
        | None => Err (missing_param kind UDP_PROTOCOL_PARAM)
        | Some protocol =>
            Ok (CfgUdp (resolve_ports kind options (default_ports_for protocol)) protocol)
        end
    | Snmp =>
        Ok (CfgSnmp (resolve_ports kind options snmp_default_ports) (po_snmp_version options)
              (po_snmp_community options) usm_credentials_default)
    | Lldp =>
        Ok (CfgLldp (resolve_ports kind options snmp_default_ports) (po_snmp_version options)
              (po_snmp_community options) usm_credentials_default default_max_rows)
    | Arp => Ok (CfgArp (po_interface options))
    | Ndp => Ok (CfgNdp (po_interface options))
    | Ssh => Ok (CfgSsh (resolve_ports kind options ssh_default_ports))
    | Icmp => Ok (CfgIcmp (po_icmp_count options) default_interval_ms)
    | Tls => Ok (CfgTls (resolve_ports kind options tls_default_ports))
    | Gnmi =>
        Ok (CfgGnmi (resolve_ports kind options gnmi_default_ports) default_plaintext [] []
              default_get_paths default_lldp)
    | ReverseDns => Ok (CfgReverseDns default_resolvers)
    end.

Definition expand_probe_selection (kinds : list ProbeKind) (options : ProbeSelectionOptions)
    : Result RastreoError (list ProberConfig) :=
  if is_empty kinds then Err (EConfig EmptyProbeSelection)
  else mapM (λ kind, expand_kind kind options) (dedup kinds).

End selection.

(** * Probe selection: which kinds run, and what they are configured with *)

(** ** Names *)

(** What a token asks for: the default set, or one kind. *)
Inductive Token : Type := TDefault | TKind (kind : ProbeKind).

Definition token_of (value : Str) : option Token :=
  let token := trim value in
  if bool_decide (token = DEFAULT_KEYWORD) then Some TDefault
  else if bool_decide (token = TCP_ALIAS) then Some (TKind TcpConnect)
  else TKind <$> probe_kind_from_label token.

Definition token_kind (t : Token) : option ProbeKind :=
  match t with TDefault => None | TKind k => Some k end.

#[global] Instance Token_eq_dec : EqDecision Token.
Proof. solve_decision. Defined.

(** The configuration's kind, and the ports it lists. *)
Definition config_kind (c : ProberConfig) : ProbeKind :=
  match c with
  | CfgTcpConnect _ => TcpConnect | CfgHttp _ _ _ _ _ => Http | CfgDns _ _ _ _ _ => Dns
  | CfgUdp _ _ => Udp | CfgSnmp _ _ _ _ => Snmp | CfgLldp _ _ _ _ _ => Lldp
  | CfgArp _ => Arp | CfgNdp _ => Ndp | CfgSsh _ => Ssh | CfgIcmp _ _ => Icmp
  | CfgTls _ => Tls | CfgGnmi _ _ _ _ _ _ => Gnmi | CfgReverseDns _ => ReverseDns
  end.

Definition config_ports (c : ProberConfig) : option (list Z) :=
  match c with
  | CfgTcpConnect ports | CfgHttp ports _ _ _ _ | CfgDns ports _ _ _ _ | CfgUdp ports _
  | CfgSnmp ports _ _ _ | CfgLldp ports _ _ _ _ | CfgSsh ports | CfgTls ports
  | CfgGnmi ports _ _ _ _ _ => Some ports
  | CfgArp _ | CfgNdp _ | CfgIcmp _ _ | CfgReverseDns _ => None
  end.

Lemma foldl_push_new_known {A} `{EqDecision A} (l acc : list A) :
  (∀ x, x ∈ l → x ∈ acc) → foldl push_new acc l = acc.
Proof.
  induction l as [|x l IH]; intros H; [done|]. cbn. unfold push_new at 2.
  rewrite bool_decide_eq_true_2 by (apply H; left). apply IH. intros y Hy. apply H. by right.
Qed.

Section names.
Context `{FE : ForeignErrors} {PF : ProbeFeatures}.

Lemma parse_tokens_cons named defaulted v values :
  parse_tokens named defaulted (v :: values) =
  match token_of v with
  | Some TDefault => parse_tokens named (foldl push_new defaulted default_probe_kinds) values
  | Some (TKind k) => parse_tokens (push_new named k) defaulted values
  | None => Err (unknown_probe_kind (trim v))
  end.
Proof using Type.
  cbn [parse_tokens]. unfold token_of. destruct (bool_decide (trim v = DEFAULT_KEYWORD)); [done|].
  destruct (bool_decide (trim v = TCP_ALIAS)); [done|].
  by destruct (probe_kind_from_label (trim v)).
Qed.

Lemma parse_tokens_spec named defaulted values :
  match mapM token_of values with
  | Some tokens =>
      parse_tokens named defaulted values =
        Ok (foldl push_new named (omap token_kind tokens),
            if bool_decide (TDefault ∈ tokens) then foldl push_new defaulted default_probe_kinds
            else defaulted)
  | None => ∃ l1 v l2, values = l1 ++ v :: l2 ∧ token_of v = None ∧
      Forall (λ w, is_Some (token_of w)) l1 ∧
      parse_tokens named defaulted values = Err (unknown_probe_kind (trim v))
  end.
Proof using Type.
  revert named defaulted. induction values as [|v values IH]; intros named defaulted.
  { cbn [mapM mret option_ret]. by rewrite bool_decide_eq_false_2 by set_solver. }
  rewrite parse_tokens_cons. cbn [mapM]. destruct (token_of v) as [t|] eqn:Ht; cbn [mbind option_bind].
  2:{ exists [], v, values. split_and!; [done|done|constructor|done]. }
  assert (Hbad : ∀ n d, mapM token_of values = None →
    ∃ l1 v0 l2, v :: values = l1 ++ v0 :: l2 ∧ token_of v0 = None ∧
      Forall (λ w, is_Some (token_of w)) l1 ∧ parse_tokens n d values = Err (unknown_probe_kind (trim v0))).
  { intros n d Hm. specialize (IH n d). rewrite Hm in IH.
    destruct IH as (l1 & w & l2 & -> & Hw & Hl & E). exists (v :: l1), w, l2.
    split_and!; [done|done|constructor; eauto|done]. }
  destruct (mapM token_of values) as [tokens|] eqn:Hm; cbn [mbind option_bind mret option_ret];
    [|destruct t; by apply Hbad].
  destruct t as [|k].
  - rewrite IH. rewrite (bool_decide_eq_true_2 (TDefault ∈ TDefault :: tokens)) by left.
    do 2 f_equal. case_bool_decide; [|done]. apply foldl_push_new_known. intros x Hx.
    apply foldl_push_new_elem. by right.
  - rewrite IH. f_equal. f_equal.
    rewrite (bool_decide_ext (TDefault ∈ TKind k :: tokens) (TDefault ∈ tokens)); [done|].
    rewrite elem_of_cons. naive_solver.
Qed.

Lemma default_probe_kinds_NoDup : NoDup default_probe_kinds.
Proof using Type. apply NoDup_filter. unfold DEFAULT_ORDER. repeat constructor; set_solver. Qed.

(** The constant order lists exactly the kinds the rule admits. *)
Lemma default_probe_kinds_rule k :
  k ∈ default_probe_kinds ↔ is_default_eligible k = true.
Proof using Type.
  unfold default_probe_kinds. rewrite list_elem_of_filter. split; [by intros []|].
  intros H. split; [done|]. destruct k; try (unfold DEFAULT_ORDER; set_solver);
    unfold is_default_eligible in H; cbn in H; rewrite ?andb_false_r in H; done.
Qed.

Lemma parse_probe_selection_spec values :
  match mapM token_of values with
  | Some tokens =>
      parse_probe_selection values =
        Ok (mkProbeSelection (dedup (omap token_kind tokens))
             (base.filter (λ k, k ∉ dedup (omap token_kind tokens))
               (if bool_decide (TDefault ∈ tokens) then default_probe_kinds else [])))
  | None => ∃ l1 v l2, values = l1 ++ v :: l2 ∧ token_of v = None ∧
      Forall (λ w, is_Some (token_of w)) l1 ∧
      parse_probe_selection values = Err (unknown_probe_kind (trim v))
  end.
Proof using Type.
  pose proof (parse_tokens_spec [] [] values) as H. unfold parse_probe_selection.
  destruct (mapM token_of values) as [tokens|].
  - rewrite H. pose proof (dedup_id _ default_probe_kinds_NoDup) as E. unfold dedup in E. by rewrite E.
  - destruct H as (l1 & v & l2 & -> & Hv & Hl & E). exists l1, v, l2. rewrite E. done.
Qed.

(** The kinds a selection runs: named first, then what is left of the default set and runs. *)
Definition selected (tokens : list Token) (runnable : ProbeKind → bool) : list ProbeKind :=
  dedup (omap token_kind tokens) ++
  base.filter (λ k, negb (has_runnability_precondition k) || runnable k = true)
    (base.filter (λ k, k ∉ dedup (omap token_kind tokens))
      (if bool_decide (TDefault ∈ tokens) then default_probe_kinds else [])).

Lemma selected_NoDup tokens runnable : NoDup (selected tokens runnable).
Proof using Type.
  apply NoDup_app. split_and!; [apply dedup_NoDup| |].
  - intros k Hk. rewrite !list_elem_of_filter. naive_solver.
  - apply NoDup_filter, NoDup_filter. case_bool_decide; [apply default_probe_kinds_NoDup|apply NoDup_nil_2].
Qed.

Lemma elem_of_selected tokens runnable k :
  k ∈ selected tokens runnable ↔
  TKind k ∈ tokens ∨
  TDefault ∈ tokens ∧ is_default_eligible k = true ∧ (k = Icmp → runnable k = true).
Proof using Type.
  assert (Hn : k ∈ dedup (omap token_kind tokens) ↔ TKind k ∈ tokens).
  { rewrite dedup_elem, list_elem_of_omap. split.
    - intros (t & Ht & Hk). destruct t; by simplify_eq/=.
    - intros Hk. by exists (TKind k). }
  unfold selected. rewrite elem_of_app, !list_elem_of_filter, Hn.
  destruct (decide (TKind k ∈ tokens)) as [Hk|Hk]; [tauto|].
  case_bool_decide as Hd; [|set_solver]. rewrite default_probe_kinds_rule.
  assert (negb (has_runnability_precondition k) || runnable k = true ↔ (k = Icmp → runnable k = true)) as ->;
    [|tauto].
  destruct k; cbn; naive_solver.
Qed.
End names.

(** ** Expansion *)

Section expansion.
Context `{FE : ForeignErrors} {PF : ProbeFeatures} {PL : ProberLib}.

(** What a kind lacks, and so cannot be expanded. *)
Definition expand_fault (options : ProbeSelectionOptions) (k : ProbeKind) : option RastreoError :=
  if negb (probe_compiled_in k) then Some (probe_kind_not_compiled k)
  else if bool_decide (k = Dns ∧ po_dns_query_names options = []) then
    Some (missing_param k DNS_QUERY_PARAM)
  else if bool_decide (k = Udp ∧ po_udp_protocol options = None) then
    Some (missing_param k UDP_PROTOCOL_PARAM)
  else None.

(** The ports of a kind that has some: its own override, else the shared list where it
    reads one, else the protocol's. *)
Definition ports_chosen (options : ProbeSelectionOptions) (k : ProbeKind) (ports : list Z) : Prop :=
  ports ≠ [] ∧
  (∀ own, ports_for k (po_ports_by_kind options) = Some own → own ≠ [] → ports = own) ∧
  (default [] (ports_for k (po_ports_by_kind options)) = [] →
   consumes_shared_ports k = true → po_ports options ≠ [] → ports = po_ports options).

Lemma resolve_ports_chosen options k intrinsic :
  intrinsic ≠ [] → ports_chosen options k (resolve_ports k options intrinsic).
Proof using Type.
  intros Hi. unfold ports_chosen, resolve_ports.
  destruct (ports_for k _) as [[|p own]|] eqn:Ho; cbn [default].
  1,3: destruct (consumes_shared_ports k) eqn:Hc; cbn [andb];
    [destruct (po_ports options) as [|q shared] eqn:Hp; cbn [is_empty negb]|]; naive_solver.
  naive_solver.
Qed.

Lemma expand_kind_spec options k :
  match expand_fault options k with
  | Some e => expand_kind k options = Err e
  | None => ∃ c, expand_kind k options = Ok c ∧ config_kind c = k ∧
      ∀ ports, config_ports c = Some ports → ports_chosen options k ports
  end.
Proof using Type.
  unfold expand_fault, expand_kind. destruct (probe_compiled_in k); cbn [negb]; [|done].
  assert (Hu : ∀ protocol, default_ports_for protocol ≠ []) by (by intros []).
  destruct k; cbn [negb];
    rewrite ?(bool_decide_eq_false_2 (_ = Dns ∧ _)) by naive_solver;
    rewrite ?(bool_decide_eq_false_2 (_ = Udp ∧ _)) by naive_solver.
  all: try (eexists; split_and!; [done|done|]; cbn [config_ports]; intros ports [= <-];
            by apply resolve_ports_chosen).
  - destruct (po_udp_protocol options) as [protocol|];
      [rewrite bool_decide_eq_false_2 by naive_solver|by rewrite bool_decide_eq_true_2].
    eexists; split_and!; [done|done|]; cbn [config_ports]; intros ports [= <-].
    by apply resolve_ports_chosen.
  - destruct (po_dns_query_names options) as [|name names];
      [by rewrite bool_decide_eq_true_2|rewrite bool_decide_eq_false_2 by naive_solver].
    eexists; split_and!; [done|done|]; cbn [config_ports]; intros ports [= <-].
    by apply resolve_ports_chosen.
Qed.

(** What building the probers of a selection needs beyond their kinds. *)
Record options_usable (options : ProbeSelectionOptions) : Prop := mkOptionsUsable {
  ou_community : po_snmp_community options ≠ [];
  ou_version : po_snmp_version options ≠ SnmpV3;
  ou_path : head (po_http_path options) = Some 47;
  ou_count : 1 ≤ po_icmp_count options ≤ MAX_COUNT;
  ou_interface : po_interface options = [] ∨ po_interface options ∈ interface_names;
  ou_names : validate_names (po_dns_query_names options) = Ok tt;
  ou_client : is_ok (http_client_build (negb default_tls_verify)) = true;
  ou_resolver : is_ok system_resolver_load = true ∧ is_ok system_resolver_build = true;
}.

Lemma checked_ports_Ok ports msg :
  ports ≠ [] → checked_ports ports msg = Ok (sort_ports ports).
Proof using Type. unfold checked_ports. by destruct ports. Qed.

Lemma validate_transport_Ok ports version community credentials :
  ports ≠ [] → version ≠ SnmpV3 → community ≠ [] →
  validate_transport ports version community credentials = Ok tt.
Proof using Type.
  intros Hp Hv Hc. unfold validate_transport. destruct ports; [done|]. destruct community; [done|].
  by destruct version.
Qed.

Lemma expanded_builds options k c :
  options_usable options → expand_kind k options = Ok c →
  ∃ p, create_prober c = Ok p ∧ prober_kind p = k.
Proof using Type.
  intros [Hc Hv Hp Hn Hi Hd Hh [Hl Hr]] Hx. pose proof (expand_kind_spec options k) as Hs.
  destruct (expand_fault options k) as [e|]; [congruence|]. destruct Hs as (c' & Hx' & Hk & Hports).
  assert (c' = c) as -> by congruence. clear Hx'.
  assert (Hne : ∀ ports, config_ports c = Some ports → ports ≠ []) by (intros ports [H _]%Hports; done).
  unfold expand_kind in Hx. destruct (probe_compiled_in k); cbn [negb] in Hx; [|done].
  destruct k; cbn in Hx; simplify_eq/=; cbn [config_ports] in Hne.
  all: try (rewrite checked_ports_Ok by naive_solver; by eexists).
  - destruct (po_udp_protocol options) as [protocol|]; simplify_eq/=.
    rewrite checked_ports_Ok by naive_solver. by eexists.
  - unfold http_prober_new. rewrite checked_ports_Ok by naive_solver. cbn [mbind Result_bind].
    rewrite bool_decide_eq_true_2 by done. cbn [negb reject mbind Result_bind].
    unfold config_err. destruct (http_client_build _); [|done]. by eexists.
  - destruct (is_empty (po_dns_query_names options)) eqn:He; simplify_eq/=.
    unfold dns_prober_new. rewrite checked_ports_Ok by naive_solver. cbn [mbind Result_bind].
    rewrite He, Hd. by eexists.
  - unfold snmp_prober_new. rewrite validate_transport_Ok by naive_solver. by eexists.
  - unfold check_interface. destruct Hi as [->|Hi]; [by eexists|].
    rewrite (bool_decide_eq_true_2 _ Hi), andb_false_r. by eexists.
  - unfold check_interface. destruct Hi as [->|Hi]; [by eexists|].
    rewrite (bool_decide_eq_true_2 _ Hi), andb_false_r. by eexists.
  - unfold icmp_prober_new. destruct (Z.eqb_spec (po_icmp_count options) 0); [lia|].
    destruct (Z.ltb_spec MAX_COUNT (po_icmp_count options)); [lia|]. by eexists.
  - unfold reverse_dns_prober_new, build_system_resolver, config_err. cbn.
    destruct system_resolver_load; [|done]. destruct system_resolver_build; [|done]. by eexists.
  - unfold gnmi_prober_new. rewrite checked_ports_Ok by naive_solver. by eexists.
  - unfold lldp_prober_new. rewrite validate_transport_Ok by naive_solver. by eexists.
Qed.
End expansion.

(** ** Properties *)

(** A selection of probe names runs exactly the named kinds, in the order of their first
    mention, then the kinds of the default set that are not named and (for ICMP) can run
    here; the first name that is neither a kind, [tcp] nor [default] is the error. Expanding
    the kinds fails exactly when there is none, or at the first kind that is not compiled in
    or lacks its parameter; otherwise there is one configuration per kind, with the ports of
    its override, else the shared ports where it reads them, else its protocol's, and with
    usable options every one of them builds a prober of its kind. *)
Theorem selection_expands `{FE : ForeignErrors} {PF : ProbeFeatures} {PL : ProberLib}
    values tokens runnable options :
  mapM token_of values = Some tokens →
  ∃ selection, parse_probe_selection values = Ok selection ∧
  let kinds := apply_runnability_filter selection runnable in
  NoDup kinds ∧
  (∀ k, k ∈ kinds ↔
     TKind k ∈ tokens ∨
     TDefault ∈ tokens ∧ is_default_eligible k = true ∧ (k = Icmp → runnable k = true)) ∧
  (dedup (omap token_kind tokens)) `prefix_of` kinds ∧
  match expand_probe_selection kinds options with
  | Err e => (kinds = [] ∧ e = EConfig EmptyProbeSelection) ∨
      ∃ l1 k l2, kinds = l1 ++ k :: l2 ∧ Forall (λ k, expand_fault options k = None) l1 ∧
        expand_fault options k = Some e
  | Ok configs => kinds ≠ [] ∧
      Forall2 (λ k c, config_kind c = k ∧
        (∀ ports, config_ports c = Some ports → ports_chosen options k ports) ∧
        (options_usable options → ∃ p, create_prober c = Ok p ∧ prober_kind p = k)) kinds configs
  end.
Proof.
  intros Ht. pose proof (parse_probe_selection_spec values) as Hp. rewrite Ht in Hp.
  eexists. split; [exact Hp|]. cbn zeta.
  match goal with |- context [apply_runnability_filter ?s runnable] =>
    change (apply_runnability_filter s runnable) with (selected tokens runnable) end.
  pose proof (selected_NoDup tokens runnable) as Hnd.
  split_and!; [done|intros k; apply elem_of_selected|by eexists|].
  unfold expand_probe_selection. rewrite (dedup_id _ Hnd).
  destruct (selected tokens runnable) as [|k0 kinds] eqn:Hk; [by left|]. cbn [is_empty].
  rewrite <- Hk. assert (selected tokens runnable ≠ []) as Hne by (by rewrite Hk). clear Hk Hnd.
  revert Hne. generalize (selected tokens runnable) as l. intros l Hne.
  destruct (mapM (λ k, expand_kind k options) l) as [configs|e] eqn:Hm.
  - split; [done|]. apply mapM_Ok in Hm. eapply Forall2_impl; [exact Hm|]. intros k c Hc.
    pose proof (expand_kind_spec options k) as Hs. destruct (expand_fault options k); [congruence|].
    destruct Hs as (c' & Hc' & Hk & Hports). assert (c' = c) as -> by congruence.
    split_and!; [done|done|]. intros Hu. by eapply expanded_builds.
  - right. apply mapM_Err in Hm as (l1 & k & l2 & -> & Hl & He). exists l1, k, l2. split_and!; [done| |].
    + eapply Forall_impl; [exact Hl|]. intros k' Hk'. pose proof (expand_kind_spec options k') as Hs.
      destruct (expand_fault options k'); [|done]. cbn in Hk'. by rewrite Hs in Hk'.
    + pose proof (expand_kind_spec options k) as Hs. destruct (expand_fault options k); [congruence|].
      destruct Hs as (? & ? & _). congruence.
Qed.

#[local] Existing Instance sample_errors.
#[local] Existing Instance all_probe_features.

(** A host whose libraries build every client. *)
Definition plain_probers : ProberLib := {|
  HttpClient := unit; DnsResolver := unit;
  http_client_build _ := Ok tt;
  interface_names := [s! "eth0"];
  metadata_value_valid _ := true;
  system_resolver_load := Ok tt;
  system_resolver_build := Ok tt;
  custom_resolver_build _ := Ok tt;
  str_debug s := s;
|}.

Lemma default_options_usable : @options_usable sample_errors plain_probers probe_selection_options_default.
Proof. by constructor; [..|left| | |]. Qed.

Lemma selection_expands_witness :
  ∃ selection configs,
    parse_probe_selection [s! " snmp"; s! "default"; s! "tcp"] = Ok selection ∧
    expand_probe_selection (apply_runnability_filter selection (λ _, false))
      probe_selection_options_default = Ok configs ∧
    config_kind <$> configs = [Snmp; TcpConnect; Http; Ssh; Tls; ReverseDns] ∧
    Forall (λ c, ∃ p, @create_prober sample_errors plain_probers c = Ok p) configs.
Proof.
  destruct (selection_expands (PL := plain_probers) [s! " snmp"; s! "default"; s! "tcp"]
    [TKind Snmp; TDefault; TKind TcpConnect] (λ _, false) probe_selection_options_default)
    as (selection & Hp & H); [vm_compute; reflexivity|].
  assert (Hs : selection = mkProbeSelection [Snmp; TcpConnect] [Icmp; Http; Ssh; Tls; ReverseDns])
    by (vm_compute in Hp; congruence).
  subst selection. exists (mkProbeSelection [Snmp; TcpConnect] [Icmp; Http; Ssh; Tls; ReverseDns]).
  destruct (expand_probe_selection _ _) as [configs|e] eqn:He; [|by vm_compute in He].
  exists configs. split_and!; [done|done|by vm_compute in He; simplify_eq|].
  destruct H as (_ & _ & _ & H). rewrite He in H. destruct H as [_ H2]. clear He. apply Forall_forall. intros c [i Hi]%list_elem_of_lookup.
  destruct (Forall2_lookup_r _ _ _ _ _ H2 Hi) as (k & _ & _ & _ & Hb).
  destruct (Hb default_options_usable) as (p & Hc & _). by exists p.
Defined.
