(* ===== verification/Udp.v ===== *)
(** * The UDP prober: [prober/udp/]

    The requests and responses of the four protocols and the probe of one port:
    attempts that send the request, wait for a datagram from the target's
    address until their deadline, and give up when the probe's time is over.
    An index out of range is [None]. What the network and the clocks do during
    an attempt is a parameter. *)

From S2P Require Import Prelude Net F64 Model Sink Codec Ports SinkConfig GnmiPath ProberConfig.

(** ** NTP: [ntp.rs] *)

Definition NTP_PACKET_LEN : Z := 48.
Definition NTP_MODE_SERVER : Z := 4.

Definition ntp_build_request : Bytes := <[0%nat := 27]> (replicate (Z.to_nat NTP_PACKET_LEN) 0).

Definition format_ref_id (stratum : Z) (ref_id : Bytes) : option Str :=
  let s := if stratum <=? 1 then filter (λ b, 32 ≤ b ∧ b ≤ 126) ref_id else [] in
  if negb (is_empty s) then Some s
  else
    a ← at_index ref_id 0; b ← at_index ref_id 1; c ← at_index ref_id 2; d ← at_index ref_id 3;
    Some (fmt_dec a ++ s! "." ++ fmt_dec b ++ s! "." ++ fmt_dec c ++ s! "." ++ fmt_dec d).

Definition ntp_parse_response (bytes : Bytes) : option (option Signal) :=
  if byte_len bytes <? NTP_PACKET_LEN then Some None
  else
    b0 ← at_index bytes 0;
    if negb (Z.land b0 7 =? NTP_MODE_SERVER) then Some None
    else
      stratum ← at_index bytes 1;
      ref_id ← byte_slice bytes 12 16;
      ref_str ← format_ref_id stratum ref_id;
      Some (Some (NtpBanner (s! "stratum=" ++ fmt_dec stratum ++ s! " ref=" ++ ref_str))).

(** ** SIP: [sip.rs] *)

Definition HEADER_MAX_BYTES : Z := 256.

Definition CARGO_PKG_VERSION : Str := s! "0.13.0".

Definition CRLF : Str := [13; 10].

Definition format_host (ip : IpAddr) : Str :=
  match ip with
  | V6 _ => s! "[" ++ ip_display ip ++ s! "]"
  | V4 _ => ip_display ip
  end.

(** [{:016x}]. *)
Definition fmt_hex16 (n : Z) : Str :=
  let digits := fmt_hex n in replicate (16 - length digits) 48 ++ digits.

Definition sip_build_request (target_ip : IpAddr) (port call_id_seed : Z) : Bytes :=
  let host := format_host target_ip in
  as_bytes (
    s! "OPTIONS sip:probe@" ++ host ++ s! ":" ++ fmt_dec port ++ s! " SIP/2.0" ++ CRLF ++
    s! "Via: SIP/2.0/UDP 0.0.0.0:0;branch=z9hG4bK-rastreo-probe" ++ CRLF ++
    s! "Max-Forwards: 70" ++ CRLF ++
    s! "From: <sip:probe@localhost>;tag=rastreo" ++ CRLF ++
    s! "To: <sip:probe@" ++ host ++ s! ":" ++ fmt_dec port ++ s! ">" ++ CRLF ++
    s! "Call-ID: rastreo-" ++ fmt_hex16 call_id_seed ++ CRLF ++
    s! "CSeq: 1 OPTIONS" ++ CRLF ++
    s! "User-Agent: rastreo/" ++ CARGO_PKG_VERSION ++ CRLF ++
    s! "Content-Length: 0" ++ CRLF ++ CRLF).

Definition header_value (line name_lower : Str) : option Str :=
  '(name, rest) ← split_once 58 line;
  if eq_ignore_ascii_case name name_lower then Some rest else None.

Definition truncate_header (raw : Str) : Str :=
  if str_len raw <=? HEADER_MAX_BYTES then raw else floor_char_prefix HEADER_MAX_BYTES raw.

(** The loop over the header lines: the first [Server] and the first [User-Agent]. *)
Fixpoint sip_headers (lines : list Str) (server user_agent : option Str) : option Str * option Str :=
  match lines with
  | [] => (server, user_agent)
  | line :: rest =>
      if is_empty line then (server, user_agent)
      else match header_value line (s! "server") with
      | Some value =>
          sip_headers rest (match server with None => Some value | _ => server end) user_agent
      | None =>
          match header_value line (s! "user-agent") with
          | Some value =>
              sip_headers rest server (match user_agent with None => Some value | _ => user_agent end)
          | None => sip_headers rest server user_agent
          end
      end
  end.

Definition sip_parse_response (bytes : Bytes) : option Signal :=
  text ← from_utf8 bytes;
  match split_crlf text with
  | [] => None
  | status :: lines =>
      match strip_prefix (s! "SIP/2.0") status with
      | None => None
      | Some _ =>
          let '(server, user_agent) := sip_headers lines None None in
          picked ← match server with Some v => Some v | None => user_agent end;
          let trimmed := truncate_header (trim picked) in
          if is_empty trimmed then None else Some (SipUserAgent trimmed)
      end
  end.

(** ** Memcached: [memcached.rs] *)

Definition VERSION_MAX_BYTES : Z := 64.
Definition FRAME_HEADER_LEN : Z := 8.

Definition memcached_build_request (request_id : Z) : Bytes :=
  to_be_bytes 2 request_id ++ to_be_bytes 2 0 ++ to_be_bytes 2 1 ++ to_be_bytes 2 0 ++
  as_bytes (s! "stats" ++ CRLF).

(** The loop over the lines: it returns at the first [version]. *)
Fixpoint memcached_lines (lines : list Str) : option Signal :=
  match lines with
  | [] => None
  | line :: rest =>
      match strip_prefix (s! "STAT ") line with
      | None => memcached_lines rest
      | Some stat =>
          match split_once 32 stat with
          | None => memcached_lines rest
          | Some (name, value) =>
              if bool_decide (name = s! "version") then
                let value := trim value in
                if is_empty value then None
                else Some (MemcachedVersion
                       (if str_len value <=? VERSION_MAX_BYTES then value
                        else floor_char_prefix VERSION_MAX_BYTES value))
              else memcached_lines rest
          end
      end
  end.

Definition memcached_parse_response (bytes : Bytes) : option (option Signal) :=
  if byte_len bytes <? FRAME_HEADER_LEN then Some None
  else
    b4 ← at_index bytes 4;
    b5 ← at_index bytes 5;
    if negb (from_be_bytes [b4; b5] =? 1) then Some None
    else
      payload ← byte_slice bytes FRAME_HEADER_LEN (byte_len bytes);
      match from_utf8 payload with
      | None => Some None
      | Some text =>
          let starts_with p := match strip_prefix p text with Some _ => true | None => false end in
          if negb (starts_with (s! "STAT ") || starts_with (s! "END") || starts_with (s! "SERVER_ERROR"))
          then Some None
          else Some (memcached_lines (split_crlf text))
      end.

(** ** STUN: [stun.rs] *)

Definition MAGIC_COOKIE : Z := 0x2112A442.
Definition TRANSACTION_ID_LEN : Z := 12.
Definition STUN_HEADER_LEN : Z := 20.
Definition MSG_TYPE_BINDING_REQUEST : Z := 0x0001.
Definition MSG_TYPE_BINDING_SUCCESS : Z := 0x0101.
Definition ATTR_XOR_MAPPED_ADDRESS : Z := 0x0020.
Definition FAMILY_IPV4 : Z := 1.
Definition FAMILY_IPV6 : Z := 2.

Definition stun_build_request (transaction_id : Bytes) : Bytes :=
  to_be_bytes 2 MSG_TYPE_BINDING_REQUEST ++ to_be_bytes 2 0 ++ to_be_bytes 4 MAGIC_COOKIE ++
  transaction_id.

(** [from_be_bytes] of the [n] bytes at [i], each read by index. *)
Definition read_be (bytes : Bytes) (i n : Z) : option Z := from_be_bytes <$> byte_slice bytes i (i + n).

(** The texts [{v4}:{port}] and [[{v6}]:{port}]. *)
Definition socket_display (ip : IpAddr) (port : Z) : Str :=
  match ip with
  | V4 _ => ip_display ip ++ s! ":" ++ fmt_dec port
  | V6 _ => s! "[" ++ ip_display ip ++ s! "]:" ++ fmt_dec port
  end.

Definition parse_xor_mapped_address (value transaction_id : Bytes) : option (option Signal) :=
  if byte_len value <? 4 then Some None
  else
    family ← at_index value 1;
    x_port ← read_be value 2 2;
    let port := Z.lxor x_port (wrap 16 (Z.shiftr MAGIC_COOKIE 16)) in
    if family =? FAMILY_IPV4 then
      if byte_len value <? 8 then Some None
      else
        x_addr ← read_be value 4 4;
        Some (Some (StunMappedAddress (socket_display (V4 (Z.lxor x_addr MAGIC_COOKIE)) port)))
    else if family =? FAMILY_IPV6 then
      if byte_len value <? 20 then Some None
      else
        x_addr ← byte_slice value 4 20;
        let octets := to_be_bytes 4 MAGIC_COOKIE ++ transaction_id in
        let out := zip_with Z.lxor x_addr octets in
        Some (Some (StunMappedAddress (socket_display (V6 (from_be_bytes out)) port)))
    else Some None.

(** The loop over the attributes from [cursor]; each round moves it by four at least, so
    one round per byte is enough. *)
Fixpoint stun_attributes (fuel : nat) (bytes transaction_id : Bytes) (endp cursor : Z)
    : option (option Signal) :=
  match fuel with
  | O => None
  | S fuel' =>
      if cursor + 4 <=? endp then
        attr_type ← read_be bytes cursor 2;
        attr_len ← read_be bytes (cursor + 2) 2;
        let value_start := cursor + 4 in
        let value_end := value_start + attr_len in
        if USIZE_MAX <? value_end then Some None
        else if endp <? value_end then Some None
        else if attr_type =? ATTR_XOR_MAPPED_ADDRESS then
          value ← byte_slice bytes value_start value_end;
          parse_xor_mapped_address value transaction_id
        else
          let padded_len := Z.land (attr_len + 3) (USIZE_MAX - 3) in
          stun_attributes fuel' bytes transaction_id endp (value_start + padded_len)
      else Some None
  end.

Definition stun_parse_response (bytes transaction_id : Bytes) : option (option Signal) :=
  if byte_len bytes <? STUN_HEADER_LEN then Some None
  else
    msg_type ← read_be bytes 0 2;
    if negb (msg_type =? MSG_TYPE_BINDING_SUCCESS) then Some None
    else
      msg_len ← read_be bytes 2 2;
      if negb (msg_len mod 4 =? 0) then Some None
      else
        cookie ← read_be bytes 4 4;
        if negb (cookie =? MAGIC_COOKIE) then Some None
        else
          id ← byte_slice bytes 8 20;
          if negb (bool_decide (id = transaction_id)) then Some None
          else if byte_len bytes <? STUN_HEADER_LEN + msg_len then Some None
          else stun_attributes (length bytes) bytes transaction_id (STUN_HEADER_LEN + msg_len)
                 STUN_HEADER_LEN.

(** ** One port: [udp/mod.rs] *)

Definition RECV_BUF_LEN : nat := 4096.

(** Identifiers from the nanoseconds since the epoch; [None] is a clock before it. *)
Definition new_stun_transaction_id (clock : option Z) (port : Z) : Bytes :=
  let nanos := default 0 clock in
  let mixed := Z.lxor nanos (wrap 128 (Z.shiftl port 96)) in
  take (Z.to_nat TRANSACTION_ID_LEN) (to_be_bytes 16 mixed).

Definition new_sip_call_id (clock : option Z) (port : Z) : Z :=
  let nanos := default 0 (wrap 64 <$> clock) in
  Z.lxor nanos (wrap 64 (Z.shiftl port 48)).

Definition new_memcached_request_id (clock : option Z) (port : Z) : Z :=
  let nanos := default 0 (wrap 64 <$> clock) in
  Z.lxor (wrap 16 nanos) port.

Section udp.
Context `{IoErrors}.

Inductive PortOutcome : Type :=
  | Reached (signal : option Signal)
  | PortTimeout
  | PortUnreachable
  | PortOther (kind : ProbeErrorKind) (msg : Str).

Definition classify_io_error (err : IoError) : PortOutcome :=
  match io_error err with
  | Absence => if bool_decide (io_error_kind err = TimedOut) then PortTimeout else PortUnreachable
  | Fault kind => PortOther kind (io_error_display err)
  end.

Record Datagram : Type := mkDatagram { dg_bytes : Bytes; dg_peer : IpAddr }.

(** One attempt: what sending says, the instant after it, the datagrams that reach the
    socket before a deadline, the error that ends the wait before it if any, and the
    instant after the wait. *)
Record Attempt : Type := mkAttempt {
  at_send : option IoError;
  at_sent : Z;
  at_arrivals : Z → list Datagram;
  at_error : Z → option IoError;
  at_after : Z;
}.

(** What a probe of one port meets; an attempt may answer to the payload it was sent. *)
Record UdpNet : Type := mkUdpNet {
  un_bind : option IoError;
  un_stun_clock : option Z;
  un_sip_clock : option Z;
  un_memcached_clock : option Z;
  un_start : Z;
  un_attempt : nat → Bytes → Attempt;
}.

Definition udp_payload (net : UdpNet) (protocol : UdpProtocol) (ip : IpAddr) (port : Z) : Bytes :=
  match protocol with
  | UdpNtp => ntp_build_request
  | SipOptions => sip_build_request ip port (new_sip_call_id (un_sip_clock net) port)
  | MemcachedStats =>
      memcached_build_request (new_memcached_request_id (un_memcached_clock net) port)
  | StunBinding => stun_build_request (new_stun_transaction_id (un_stun_clock net) port)
  end.

Definition udp_parse (protocol : UdpProtocol) (stun_txid bytes : Bytes) : option (option Signal) :=
  match protocol with
  | UdpNtp => ntp_parse_response bytes
  | SipOptions => Some (sip_parse_response bytes)
  | MemcachedStats => memcached_parse_response bytes
  | StunBinding => stun_parse_response bytes stun_txid
  end.

(** The inner loop: datagrams of other peers are passed over. [Some None] is a wait that
    saw no datagram of the target. *)
Fixpoint recv_loop (protocol : UdpProtocol) (stun_txid : Bytes) (ip : IpAddr)
    (arrivals : list Datagram) : option (option PortOutcome) :=
  match arrivals with
  | [] => Some None
  | d :: rest =>
      if negb (bool_decide (dg_peer d = ip)) then recv_loop protocol stun_txid ip rest
      else
        signal ← udp_parse protocol stun_txid (take RECV_BUF_LEN (dg_bytes d));
        Some (Some (Reached signal))
  end.

Definition attempt_deadline (a : Attempt) (per_attempt overall_deadline : Z) : Z :=
  Z.min (at_sent a + per_attempt) overall_deadline.

(** The attempts from the [i]th on, [n] of them at most. *)
Fixpoint udp_attempts (protocol : UdpProtocol) (stun_txid payload : Bytes) (ip : IpAddr)
    (net : UdpNet) (per_attempt overall_deadline : Z) (n i : nat) : option PortOutcome :=
  match n with
  | O => Some PortTimeout
  | S n' =>
      let a := un_attempt net i payload in
      match at_send a with
      | Some e => Some (classify_io_error e)
      | None =>
          let deadline := attempt_deadline a per_attempt overall_deadline in
          got ← recv_loop protocol stun_txid ip (at_arrivals a deadline);
          match got with
          | Some outcome => Some outcome
          | None =>
              match at_error a deadline with
              | Some e => Some (classify_io_error e)
              | None =>
                  if overall_deadline <=? at_after a then Some PortTimeout
                  else udp_attempts protocol stun_txid payload ip net per_attempt overall_deadline
                         n' (S i)
              end
          end
      end
  end.

Definition udp_probe_port (net : UdpNet) (ip : IpAddr) (port : Z) (protocol : UdpProtocol)
    (timeout retries : Z) : option PortOutcome :=
  match un_bind net with
  | Some e => Some (PortOther OtherFault (s! "udp bind failed: " ++ io_error_display e))
  | None =>
      udp_attempts protocol (new_stun_transaction_id (un_stun_clock net) port)
        (udp_payload net protocol ip port) ip net
        (per_attempt_timeout timeout retries) (un_start net + timeout) (S (Z.to_nat retries)) 0
  end.

Definition port_fault (port : Z) (outcome : PortOutcome) : option ProbeFault :=
  match outcome with
  | PortOther kind msg =>
      Some (mkProbeFault kind (s! "udp probe failed on port " ++ fmt_dec port ++ s! ": " ++ msg))
  | Reached _ | PortTimeout | PortUnreachable => None
  end.

Definition udp_build_outcome (target_ip : IpAddr) (now : SystemTime) (any_reachable : bool)
    (signals : list Signal) (last_fault : option ProbeFault) : ProbeOutcome :=
  mkProbeOutcome Udp target_ip now any_reachable signals (surfaced_fault any_reachable last_fault)
    None None.

Definition udp_fold (acc : list Signal * bool * option ProbeFault) (port_outcome : Z * PortOutcome)
    : list Signal * bool * option ProbeFault :=
  let '(signals, any_reachable, last_fault) := acc in
  let '(port, outcome) := port_outcome in
  let last_fault := match port_fault port outcome with Some f => Some f | None => last_fault end in
  match outcome with
  | Reached (Some s) => (signals ++ [s], true, last_fault)
  | Reached None => (signals, true, last_fault)
  | _ => (signals, any_reachable, last_fault)
  end.

(** [UdpProber::probe] once [probe_ports] has returned [per_port]. *)
Definition udp_probe (target_ip : IpAddr) (now : SystemTime) (per_port : list (Z * PortOutcome))
    : ProbeOutcome :=
  let '(signals, any_reachable, last_fault) := foldl udp_fold ([], false, None) per_port in
  udp_build_outcome target_ip now any_reachable signals last_fault.

End udp.
