(* ===== verification/UdpTheorems.v ===== *)
(** * What the UDP prober guarantees

    No datagram makes a parser fail, a STUN answer is read back as it was
    written, only the target's own datagrams count and only in time, and the
    probers of several ports fold their results as documented. *)

From S2P Require Import Prelude Net F64 Model Sink Codec Ports SinkConfig GnmiPath ProberConfig Udp.

(** ** The parsers are total *)

Lemma read_be_ok bytes i n : 0 ≤ i → 0 ≤ n → i + n ≤ byte_len bytes → bytes_wf bytes →
  ∃ v, read_be bytes i n = Some v ∧ 0 ≤ v < 256 ^ n.
Proof.
  intros Hi Hn Hl Hwf. unfold read_be.
  destruct (byte_slice bytes i (i + n)) as [b|] eqn:Hs; [|rewrite slice_ok in Hs by lia; done].
  exists (from_be_bytes b). split; [done|].
  apply slice_length in Hs as Hlen. apply (slice_wf _ _ _ _ Hwf) in Hs.
  pose proof (from_be_bytes_range b Hs) as Hr. unfold byte_len in Hlen.
  replace (Z.of_nat (length b)) with n in Hr by lia. done.
Qed.

Lemma slice_some bytes lo hi : 0 ≤ lo ≤ hi → hi ≤ byte_len bytes → is_Some (byte_slice bytes lo hi).
Proof. intros. rewrite slice_ok by lia. done. Qed.

Lemma ntp_total bytes : is_Some (ntp_parse_response bytes).
Proof.
  unfold ntp_parse_response, NTP_PACKET_LEN. destruct (Z.ltb_spec (byte_len bytes) 48); [done|].
  destruct (at_index_lt bytes 0 ltac:(lia)) as [b0 ->].
  destruct (at_index_lt bytes 1 ltac:(lia)) as [b1 ->].
  destruct (slice_some bytes 12 16 ltac:(lia) ltac:(lia)) as [r Hr]. simpl. case_match; [done|].
  rewrite Hr. simpl. apply slice_length in Hr. unfold format_ref_id. case_match; [done|].
  destruct (at_index_lt r 0 ltac:(lia)) as [x0 ->]. destruct (at_index_lt r 1 ltac:(lia)) as [x1 ->].
  destruct (at_index_lt r 2 ltac:(lia)) as [x2 ->]. destruct (at_index_lt r 3 ltac:(lia)) as [x3 ->].
  done.
Qed.

Lemma memcached_total bytes : is_Some (memcached_parse_response bytes).
Proof.
  unfold memcached_parse_response, FRAME_HEADER_LEN. destruct (Z.ltb_spec (byte_len bytes) 8); [done|].
  destruct (at_index_lt bytes 4 ltac:(lia)) as [b4 ->].
  destruct (at_index_lt bytes 5 ltac:(lia)) as [b5 ->].
  destruct (slice_some bytes 8 (byte_len bytes) ltac:(lia) ltac:(lia)) as [r Hr].
  cbn [mbind option_bind]. destruct (negb _); [by eexists|]. rewrite Hr. cbn [mbind option_bind].
  destruct (from_utf8 r); [|by eexists]. cbv zeta. destruct (negb _); by eexists.
Qed.

Lemma xor_mapped_total value txid : bytes_wf value → is_Some (parse_xor_mapped_address value txid).
Proof.
  intros Hwf. unfold parse_xor_mapped_address. destruct (Z.ltb_spec (byte_len value) 4); [done|].
  destruct (at_index_lt value 1 ltac:(lia)) as [f ->].
  destruct (read_be_ok value 2 2) as (v & -> & _); [lia..|done|]. simpl.
  case_match; [|case_match; [|done]].
  - destruct (Z.ltb_spec (byte_len value) 8); [done|].
    destruct (read_be_ok value 4 4) as (w & -> & _); [lia..|done|done].
  - destruct (Z.ltb_spec (byte_len value) 20); [done|].
    destruct (slice_some value 4 20 ltac:(lia) ltac:(lia)) as [w ->]. done.
Qed.

Lemma padded_len_eq l : 0 ≤ l < 65536 → Z.land (l + 3) (USIZE_MAX - 3) = (l + 3) / 4 * 4.
Proof. intros. apply land_clear_low2. unfold USIZE_MAX, U64_MAX. lia. Qed.

(** Every round moves the cursor by four bytes at least. *)
Lemma stun_attributes_total fuel bytes txid endp cursor :
  bytes_wf bytes → 0 ≤ cursor → endp ≤ byte_len bytes → (1 ≤ fuel)%nat →
  endp - cursor < 4 * Z.of_nat fuel →
  is_Some (stun_attributes fuel bytes txid endp cursor).
Proof.
  intros Hwf. revert cursor. induction fuel as [|fuel IH]; intros cursor Hc He Hf Hm; [lia|].
  cbn [stun_attributes]. destruct (Z.leb_spec (cursor + 4) endp); [|done].
  destruct (read_be_ok bytes cursor 2) as (ty & -> & _); [lia..|done|].
  destruct (read_be_ok bytes (cursor + 2) 2) as (len & -> & Hlen); [lia..|done|].
  change (256 ^ 2) with 65536 in Hlen. cbn [mbind option_bind].
  destruct (Z.ltb_spec USIZE_MAX (cursor + 4 + len)); [done|].
  destruct (Z.ltb_spec endp (cursor + 4 + len)); [done|]. case_match.
  - destruct (byte_slice bytes (cursor + 4) (cursor + 4 + len)) as [v|] eqn:Hv.
    + apply xor_mapped_total. by eapply slice_wf.
    + rewrite slice_ok in Hv by lia. done.
  - rewrite padded_len_eq by done.
    assert (0 ≤ (len + 3) / 4 * 4) by (Z.to_euclidean_division_equations; lia).
    apply IH; lia.
Qed.

Lemma stun_total bytes txid : bytes_wf bytes → is_Some (stun_parse_response bytes txid).
Proof.
  intros Hwf. unfold stun_parse_response, STUN_HEADER_LEN.
  destruct (Z.ltb_spec (byte_len bytes) 20); [done|].
  destruct (read_be_ok bytes 0 2) as (ty & -> & _); [lia..|done|]. simpl. case_match; [done|].
  destruct (read_be_ok bytes 2 2) as (len & -> & Hlen); [lia..|done|]. simpl. case_match; [done|].
  destruct (read_be_ok bytes 4 4) as (ck & -> & _); [lia..|done|]. simpl. case_match; [done|].
  destruct (slice_some bytes 8 20 ltac:(lia) ltac:(lia)) as [id ->]. simpl. case_match; [done|].
  destruct (Z.ltb_spec (byte_len bytes) (20 + len)); [done|].
  apply stun_attributes_total; try done; unfold byte_len in *; lia.
Qed.

Lemma udp_parse_total protocol txid bytes : bytes_wf bytes → is_Some (udp_parse protocol txid bytes).
Proof.
  intros. destruct protocol; simpl;
    [apply ntp_total|done|apply memcached_total|by apply stun_total].
Qed.

(** ** Writing a STUN answer *)

(** An attribute, padded to four bytes. *)
Definition stun_attr (ty : Z) (value : Bytes) : Bytes :=
  to_be_bytes 2 ty ++ to_be_bytes 2 (byte_len value) ++ value ++
  replicate (Z.to_nat (- byte_len value mod 4)) 0.

(** The value of an XOR-MAPPED-ADDRESS attribute (RFC 8489, 14.2). *)
Definition xor_mapped_value (txid : Bytes) (ip : IpAddr) (port : Z) : Bytes :=
  let x_port := to_be_bytes 2 (Z.lxor port (Z.shiftr MAGIC_COOKIE 16)) in
  match ip with
  | V4 a => [0; FAMILY_IPV4] ++ x_port ++ to_be_bytes 4 (Z.lxor a MAGIC_COOKIE)
  | V6 a => [0; FAMILY_IPV6] ++ x_port ++
      zip_with Z.lxor (to_be_bytes 16 a) (to_be_bytes 4 MAGIC_COOKIE ++ txid)
  end.

(** A Binding Success Response: other attributes, the mapped address, more of them. *)
Definition stun_body (txid : Bytes) (before after : list (Z * Bytes)) (ip : IpAddr) (port : Z) : Bytes :=
  mjoin ((λ '(ty, v), stun_attr ty v) <$> before) ++
  stun_attr ATTR_XOR_MAPPED_ADDRESS (xor_mapped_value txid ip port) ++
  mjoin ((λ '(ty, v), stun_attr ty v) <$> after).

Definition stun_response (txid : Bytes) (before after : list (Z * Bytes)) (ip : IpAddr) (port : Z) : Bytes :=
  let body := stun_body txid before after ip port in
  to_be_bytes 2 MSG_TYPE_BINDING_SUCCESS ++ to_be_bytes 2 (byte_len body) ++
  to_be_bytes 4 MAGIC_COOKIE ++ txid ++ body.

Definition attr_wf (attr : Z * Bytes) : Prop :=
  0 ≤ attr.1 < 65536 ∧ byte_len attr.2 < 65536.

Lemma byte_len_replicate n x : byte_len (replicate n x) = Z.of_nat n.
Proof. unfold byte_len. by rewrite length_replicate. Qed.

Lemma stun_attr_len ty v : byte_len (stun_attr ty v) = 4 + (byte_len v + 3) / 4 * 4.
Proof.
  unfold stun_attr. rewrite !byte_len_app, !byte_len_be, byte_len_replicate.
  pose proof (byte_len_nonneg v). pose proof (Z.mod_pos_bound (- byte_len v) 4 ltac:(lia)).
  rewrite Z2Nat.id by lia. Z.to_euclidean_division_equations; lia.
Qed.

Lemma read_be_app a b c i n : i = byte_len a → n = byte_len b →
  read_be (a ++ b ++ c) i n = Some (from_be_bytes b).
Proof. intros -> ->. unfold read_be. by rewrite (slice_app a b c) by lia. Qed.

Lemma read_be_value a n x c i m : i = byte_len a → m = Z.of_nat n → 0 ≤ x < 256 ^ Z.of_nat n →
  read_be (a ++ to_be_bytes n x ++ c) i m = Some x.
Proof.
  intros Hi Hm Hx. rewrite read_be_app; [by rewrite from_to_be_bytes|done|].
  by rewrite byte_len_be.
Qed.

Lemma zip_with_lxor_cancel (a k : Bytes) : length a = length k →
  zip_with Z.lxor (zip_with Z.lxor a k) k = a.
Proof.
  revert k. induction a as [|x a IH]; intros [|y k]; simpl; intros Hl; try done.
  rewrite lxor_cancel, IH; [done|lia].
Qed.

Lemma xor_mapped_len txid ip port : length txid = 12%nat →
  byte_len (xor_mapped_value txid ip port) = match ip with V4 _ => 8 | V6 _ => 20 end.
Proof.
  intros Hl. unfold xor_mapped_value, byte_len.
  destruct ip; rewrite !length_app, ?length_zip_with, ?length_app, !to_be_bytes_length, ?Hl; done.
Qed.

Lemma xor_mapped_fields f p a : length p = 2%nat →
  at_index ([0; f] ++ p ++ a) 1 = Some f ∧ read_be ([0; f] ++ p ++ a) 2 2 = Some (from_be_bytes p) ∧
  byte_slice ([0; f] ++ p ++ a) 4 (4 + byte_len a) = Some a.
Proof.
  intros Hp. assert (byte_len p = 2) as Hp2 by (unfold byte_len; lia). split_and!; [done| |].
  - by rewrite (read_be_app [0; f] p a).
  - rewrite app_assoc, <-(app_nil_r a) at 1.
    rewrite (slice_app ([0; f] ++ p) a []); [done|rewrite byte_len_app, Hp2; done|].
    by rewrite byte_len_app, Hp2.
Qed.

Lemma xor_mapped_round_trip txid ip port :
  length txid = 12%nat → ip_wf ip → 0 ≤ port < 65536 →
  parse_xor_mapped_address (xor_mapped_value txid ip port) txid =
    Some (Some (StunMappedAddress (socket_display ip port))).
Proof.
  intros Hl Hip Hport. unfold parse_xor_mapped_address. rewrite xor_mapped_len by done.
  assert (0 ≤ Z.lxor port (Z.shiftr MAGIC_COOKIE 16) < 256 ^ 2) as Hx.
  { apply (lxor_range 16); [lia|done|]. by vm_compute. }
  change (wrap 16 (Z.shiftr MAGIC_COOKIE 16)) with (Z.shiftr MAGIC_COOKIE 16).
  unfold xor_mapped_value. destruct ip as [a|a]; simpl in Hip; unfold U32_MAX, U128_MAX in Hip.
  - edestruct (xor_mapped_fields FAMILY_IPV4) as (-> & -> & Ha); [apply to_be_bytes_length|].
    cbn [mbind option_bind]. cbv zeta. rewrite from_to_be_bytes by done.
    rewrite lxor_cancel.
    rewrite byte_len_be in Ha. unfold read_be. change (4 + Z.of_nat 4) with (4 + 4) in Ha. rewrite Ha.
    cbn [fmap option_fmap option_map Z.ltb Z.eqb Z.compare FAMILY_IPV4 Pos.eqb].
    assert (0 ≤ Z.lxor a MAGIC_COOKIE < 2 ^ 32) by (apply lxor_range; [lia|lia|by vm_compute]).
    rewrite from_to_be_bytes by done. cbn [mbind option_bind]. by rewrite lxor_cancel.
  - edestruct (xor_mapped_fields FAMILY_IPV6) as (-> & -> & Ha); [apply to_be_bytes_length|].
    cbn [mbind option_bind]. cbv zeta. rewrite from_to_be_bytes by done.
    rewrite lxor_cancel.
    set (key := to_be_bytes 4 MAGIC_COOKIE ++ txid) in *.
    assert (length key = 16%nat) as Hk.
    { unfold key. rewrite length_app, to_be_bytes_length, Hl. done. }
    assert (byte_len (zip_with Z.lxor (to_be_bytes 16 a) key) = 16) as Hz.
    { unfold byte_len. rewrite length_zip_with, to_be_bytes_length, Hk. done. }
    rewrite Hz in Ha. change (4 + 16) with 20 in Ha. rewrite Ha.
    cbn [mbind option_bind Z.ltb Z.eqb Z.compare FAMILY_IPV4 FAMILY_IPV6 Pos.eqb].
    rewrite zip_with_lxor_cancel by (by rewrite to_be_bytes_length).
    rewrite from_to_be_bytes; [done|]. change (256 ^ Z.of_nat 16) with (2 ^ 128). lia.
Qed.

(** ** Reading the attributes *)

Lemma stun_attr_head fuel pre ty v post txid endp :
  attr_wf (ty, v) → byte_len pre + 4 + byte_len v ≤ endp → endp ≤ 2 ^ 17 →
  stun_attributes (S fuel) (pre ++ stun_attr ty v ++ post) txid endp (byte_len pre) =
  (if ty =? ATTR_XOR_MAPPED_ADDRESS then parse_xor_mapped_address v txid
   else stun_attributes fuel (pre ++ stun_attr ty v ++ post) txid endp
          (byte_len pre + byte_len (stun_attr ty v))).
Proof.
  intros [Hty Hv] He Hu. simpl in Hty, Hv. pose proof (byte_len_nonneg pre). pose proof (byte_len_nonneg v).
  cbn [stun_attributes]. rewrite stun_attr_len.
  destruct (Z.leb_spec (byte_len pre + 4) endp); [|lia].
  unfold stun_attr. rewrite <-!app_assoc.
  assert (256 ^ Z.of_nat 2 = 65536) as Hpow by done.
  rewrite (read_be_value pre 2 ty _ (byte_len pre) 2); [|done|done|lia].
  rewrite (app_assoc pre).
  rewrite (read_be_value (pre ++ to_be_bytes 2 ty) 2 (byte_len v) _ (byte_len pre + 2) 2);
    [|by rewrite byte_len_app, byte_len_be|done|lia].
  cbn [mbind option_bind].
  destruct (Z.ltb_spec USIZE_MAX (byte_len pre + 4 + byte_len v)); [unfold USIZE_MAX, U64_MAX in *; lia|].
  destruct (Z.ltb_spec endp (byte_len pre + 4 + byte_len v)); [lia|].
  case_match; [|rewrite padded_len_eq by lia; f_equal; lia]. rewrite (app_assoc (pre ++ _)).
  rewrite (slice_app ((pre ++ to_be_bytes 2 ty) ++ to_be_bytes 2 (byte_len v)) v); [done|..];
    rewrite !byte_len_app, !byte_len_be; lia.
Qed.

Definition attrs_bytes (attrs : list (Z * Bytes)) : Bytes := mjoin ((λ '(ty, v), stun_attr ty v) <$> attrs).

(** The attributes before the mapped address are stepped over. *)
Lemma stun_attributes_find fuel pre before v post txid endp :
  Forall attr_wf before → Forall (λ attr, attr.1 ≠ ATTR_XOR_MAPPED_ADDRESS) before →
  byte_len v < 65536 → (length before < fuel)%nat → endp ≤ 2 ^ 17 →
  byte_len pre + byte_len (attrs_bytes before) + 4 + byte_len v ≤ endp →
  stun_attributes fuel (pre ++ attrs_bytes before ++ stun_attr ATTR_XOR_MAPPED_ADDRESS v ++ post)
    txid endp (byte_len pre) = parse_xor_mapped_address v txid.
Proof.
  intros Hwf Hty Hv. revert fuel pre Hwf Hty.
  induction before as [|[ty w] before IH]; intros [|fuel] pre Hwf Hty Hf Hu He; try (simpl in Hf; lia).
  - change (attrs_bytes []) with (@nil Z) in *.
    change (byte_len []) with 0 in He. cbn [app].
    rewrite stun_attr_head; [done|split; [by vm_compute|done]|lia|done].
  - apply Forall_cons in Hwf as [Hw Hwf]. apply Forall_cons in Hty as [Ht Hty]. simpl in Ht, Hf.
    change (attrs_bytes ((ty, w) :: before)) with (stun_attr ty w ++ attrs_bytes before) in *.
    pose proof (byte_len_nonneg (attrs_bytes before)). pose proof (byte_len_nonneg v).
    rewrite byte_len_app in He. pose proof (stun_attr_len ty w) as Hl.
    assert (byte_len w ≤ (byte_len w + 3) / 4 * 4) by (Z.to_euclidean_division_equations; lia).
    rewrite <-app_assoc, stun_attr_head by (done || lia).
    destruct (Z.eqb_spec ty ATTR_XOR_MAPPED_ADDRESS); [done|].
    rewrite app_assoc, <-byte_len_app. apply IH; try done; [lia|rewrite byte_len_app; lia].
Qed.

Lemma attrs_count attrs : 4 * Z.of_nat (length attrs) ≤ byte_len (attrs_bytes attrs).
Proof.
  induction attrs as [|[ty v] attrs IH]; [done|].
  change (attrs_bytes ((ty, v) :: attrs)) with (stun_attr ty v ++ attrs_bytes attrs).
  rewrite byte_len_app, stun_attr_len. pose proof (byte_len_nonneg v). simpl length.
  assert (0 ≤ (byte_len v + 3) / 4 * 4) by (Z.to_euclidean_division_equations; lia). lia.
Qed.

Lemma attrs_aligned attrs : byte_len (attrs_bytes attrs) mod 4 = 0.
Proof.
  induction attrs as [|[ty v] attrs IH]; [done|].
  change (attrs_bytes ((ty, v) :: attrs)) with (stun_attr ty v ++ attrs_bytes attrs).
  rewrite byte_len_app, stun_attr_len. Z.to_euclidean_division_equations; lia.
Qed.

Lemma stun_body_aligned txid before after ip port :
  byte_len (stun_body txid before after ip port) mod 4 = 0.
Proof.
  change (stun_body txid before after ip port) with (attrs_bytes before ++
    stun_attr ATTR_XOR_MAPPED_ADDRESS (xor_mapped_value txid ip port) ++ attrs_bytes after).
  rewrite !byte_len_app, stun_attr_len. pose proof (attrs_aligned before). pose proof (attrs_aligned after).
  Z.to_euclidean_division_equations; lia.
Qed.

(** The header fields of an answer, as the parser reads them. *)
Lemma stun_header_reads txid body : length txid = 12%nat → byte_len body < 65536 →
  let bytes := to_be_bytes 2 MSG_TYPE_BINDING_SUCCESS ++ to_be_bytes 2 (byte_len body) ++
    to_be_bytes 4 MAGIC_COOKIE ++ txid ++ body in
  byte_len bytes = 20 + byte_len body ∧ read_be bytes 0 2 = Some MSG_TYPE_BINDING_SUCCESS ∧
  read_be bytes 2 2 = Some (byte_len body) ∧ read_be bytes 4 4 = Some MAGIC_COOKIE ∧
  byte_slice bytes 8 20 = Some txid.
Proof.
  intros Hl Hb bytes. pose proof (byte_len_nonneg body). unfold bytes.
  assert (byte_len txid = 12) as Ht by (unfold byte_len; lia). split_and!.
  - rewrite !byte_len_app, !byte_len_be, Ht. lia.
  - by apply (read_be_value []).
  - rewrite (read_be_value (to_be_bytes 2 MSG_TYPE_BINDING_SUCCESS)); [done..|].
    change (256 ^ Z.of_nat 2) with 65536. lia.
  - rewrite (app_assoc (to_be_bytes 2 MSG_TYPE_BINDING_SUCCESS)).
    apply read_be_value; [by rewrite byte_len_app, !byte_len_be|done|by vm_compute].
  - rewrite (app_assoc (to_be_bytes 2 MSG_TYPE_BINDING_SUCCESS)), (app_assoc (_ ++ _) (to_be_bytes 4 _)).
    apply slice_app; rewrite ?byte_len_app, ?byte_len_be, ?Ht; lia.
Qed.

Lemma stun_reads_back txid before after ip port :
  length txid = 12%nat → ip_wf ip → 0 ≤ port < 65536 → Forall attr_wf before →
  Forall (λ attr, attr.1 ≠ ATTR_XOR_MAPPED_ADDRESS) before →
  byte_len (stun_body txid before after ip port) < 65536 →
  stun_parse_response (stun_response txid before after ip port) txid =
    Some (Some (StunMappedAddress (socket_display ip port))).
Proof.
  intros Hl Hip Hport Hwf Hty Hlen. unfold stun_response.
  pose proof (stun_body_aligned txid before after ip port) as Hal.
  destruct (stun_header_reads txid (stun_body txid before after ip port) Hl Hlen)
    as (Hbl & Hr0 & Hr2 & Hr4 & Hid).
  unfold stun_parse_response. rewrite Hbl, Hr0, Hr2, Hr4, Hid.
  pose proof (byte_len_nonneg (stun_body txid before after ip port)).
  unfold STUN_HEADER_LEN. destruct (Z.ltb_spec (20 + byte_len (stun_body txid before after ip port)) 20); [lia|].
  cbn [mbind option_bind]. rewrite !Z.eqb_refl, Hal, Z.ltb_irrefl. rewrite bool_decide_true by done.
  cbn [negb Z.eqb]. set (hdr := to_be_bytes 2 MSG_TYPE_BINDING_SUCCESS ++
    to_be_bytes 2 (byte_len (stun_body txid before after ip port)) ++ to_be_bytes 4 MAGIC_COOKIE ++ txid).
  assert (byte_len hdr = 20) as Hh.
  { unfold hdr. rewrite !byte_len_app, !byte_len_be. unfold byte_len. rewrite Hl. done. }
  replace (to_be_bytes 2 MSG_TYPE_BINDING_SUCCESS ++ _) with (hdr ++ stun_body txid before after ip port)
    by (unfold hdr; by rewrite <-!app_assoc).
  rewrite <-(xor_mapped_round_trip txid ip port) by done. clearbody hdr.
  change (stun_body txid before after ip port) with (attrs_bytes before ++
    stun_attr ATTR_XOR_MAPPED_ADDRESS (xor_mapped_value txid ip port) ++ attrs_bytes after) in *.
  pose proof (attrs_count before). pose proof (byte_len_nonneg (attrs_bytes after)).
  pose proof (stun_attr_len ATTR_XOR_MAPPED_ADDRESS (xor_mapped_value txid ip port)) as Hx.
  pose proof (xor_mapped_len txid ip port Hl) as Hv.
  rewrite !byte_len_app, Hx in *. clear Hr0 Hr2 Hr4 Hid Hbl.
  assert (byte_len (xor_mapped_value txid ip port) ≤ 20) by (rewrite Hv; destruct ip; lia).
  assert (byte_len (xor_mapped_value txid ip port) ≤ (byte_len (xor_mapped_value txid ip port) + 3) / 4 * 4)
    by (Z.to_euclidean_division_equations; lia).
  rewrite <-Hh at 2. apply stun_attributes_find; try done; [lia| |lia|lia].
  rewrite !length_app. unfold byte_len in *. lia.
Qed.

Lemma stun_other_id txid txid' before after ip port :
  length txid = 12%nat → byte_len (stun_body txid before after ip port) < 65536 → txid' ≠ txid →
  stun_parse_response (stun_response txid before after ip port) txid' = Some None.
Proof.
  intros Hl Hlen Hne. unfold stun_response.
  destruct (stun_header_reads txid (stun_body txid before after ip port) Hl Hlen)
    as (Hbl & Hr0 & Hr2 & Hr4 & Hid).
  pose proof (byte_len_nonneg (stun_body txid before after ip port)).
  unfold stun_parse_response. rewrite Hbl, Hr0, Hr2, Hr4, Hid. unfold STUN_HEADER_LEN.
  destruct (Z.ltb_spec (20 + byte_len (stun_body txid before after ip port)) 20); [lia|].
  cbn [mbind option_bind]. rewrite !Z.eqb_refl, stun_body_aligned.
  cbn [negb Z.eqb]. rewrite bool_decide_false by done. done.
Qed.

(** Reading a STUN answer. Whatever bytes arrive, the parser indexes nothing out of range and its
    loop ends. An answer written as RFC 8489 says, with any well-formed attributes before and
    after the mapped address, is read back as that address and port, IPv4 or IPv6, when it
    carries the identifier of the request, and as nothing when it carries another. *)
Theorem stun_round_trip (txid : Bytes) (before after : list (Z * Bytes)) (ip : IpAddr) (port : Z) :
  length txid = 12%nat → ip_wf ip → 0 ≤ port < 65536 → Forall attr_wf before →
  Forall (λ attr, attr.1 ≠ ATTR_XOR_MAPPED_ADDRESS) before →
  byte_len (stun_body txid before after ip port) < 65536 →
  stun_parse_response (stun_response txid before after ip port) txid =
    Some (Some (StunMappedAddress (socket_display ip port))) ∧
  (∀ txid', txid' ≠ txid →
     stun_parse_response (stun_response txid before after ip port) txid' = Some None) ∧
  (∀ bytes id, bytes_wf bytes → is_Some (stun_parse_response bytes id)).
Proof.
  intros. split_and!; [by apply stun_reads_back| |apply stun_total].
  intros txid' Hne. by apply stun_other_id.
Qed.

(** An answer with a SOFTWARE attribute of three bytes before the address. *)
Definition sample_txid : Bytes := [1; 2; 3; 4; 5; 6; 7; 8; 9; 10; 11; 12].

Lemma stun_round_trip_witness :
  stun_parse_response
    (stun_response sample_txid [(32802, [97; 98; 99])] [] (V6 (2 ^ 127 + 1)) 3478) sample_txid =
  Some (Some (StunMappedAddress (s! "[8000::1]:3478"))).
Proof.
  change (s! "[8000::1]:3478") with (socket_display (V6 (2 ^ 127 + 1)) 3478).
  refine (proj1 (stun_round_trip sample_txid [(32802, [97; 98; 99])] [] (V6 (2 ^ 127 + 1)) 3478
    _ _ _ _ _ _)).
  - done.
  - simpl. unfold U128_MAX. lia.
  - lia.
  - constructor; [|constructor]. split; [simpl; lia|by vm_compute].
  - constructor; [by vm_compute|constructor].
  - by vm_compute.
Defined.

(** ** Probing one port *)

Section probe.
Context `{IE : IoErrors}.

Implicit Types (net : UdpNet) (a : Attempt).

(** The datagrams of the target's own address. *)
Definition own_arrivals (ip : IpAddr) (arrivals : list Datagram) : list Datagram :=
  filter (λ d, dg_peer d = ip) arrivals.

(** The network with every other peer silenced. *)
Definition only_from (ip : IpAddr) net : UdpNet :=
  mkUdpNet (un_bind net) (un_stun_clock net) (un_sip_clock net) (un_memcached_clock net) (un_start net)
    (λ i payload, let a := un_attempt net i payload in
      mkAttempt (at_send a) (at_sent a) (λ deadline, own_arrivals ip (at_arrivals a deadline))
        (at_error a) (at_after a)).

(** What a receive buffer holds are bytes. *)
Definition net_wf net : Prop :=
  ∀ i payload deadline d, d ∈ at_arrivals (un_attempt net i payload) deadline → bytes_wf (dg_bytes d).

Lemma recv_loop_own protocol txid ip arrivals :
  recv_loop protocol txid ip arrivals =
  match own_arrivals ip arrivals with
  | [] => Some None
  | d :: _ => signal ← udp_parse protocol txid (take RECV_BUF_LEN (dg_bytes d)); Some (Some (Reached signal))
  end.
Proof.
  induction arrivals as [|d rest IH]; [done|]. cbn [recv_loop]. unfold own_arrivals in *.
  destruct (decide (dg_peer d = ip)) as [E|E].
  - rewrite bool_decide_true, filter_cons_True by done. done.
  - rewrite bool_decide_false, filter_cons_False by done. done.
Qed.

Lemma own_arrivals_idemp ip arrivals : own_arrivals ip (own_arrivals ip arrivals) = own_arrivals ip arrivals.
Proof. unfold own_arrivals. rewrite list_filter_filter_l; [done|]. tauto. Qed.

Lemma udp_attempts_only_from protocol txid payload ip net per overall n i :
  udp_attempts protocol txid payload ip (only_from ip net) per overall n i =
  udp_attempts protocol txid payload ip net per overall n i.
Proof.
  revert i. induction n as [|n IH]; intros i; [done|]. cbn [udp_attempts].
  rewrite !recv_loop_own. unfold attempt_deadline. cbn [only_from un_attempt at_send at_sent at_arrivals at_error at_after].
  rewrite own_arrivals_idemp, IH. done.
Qed.

Lemma recv_loop_total protocol txid ip arrivals :
  (∀ d, d ∈ arrivals → bytes_wf (dg_bytes d)) → is_Some (recv_loop protocol txid ip arrivals).
Proof.
  intros Hwf. rewrite recv_loop_own. destruct (own_arrivals ip arrivals) as [|d l] eqn:E; [done|].
  assert (d ∈ arrivals) as Hd.
  { assert (d ∈ own_arrivals ip arrivals) as Ho by (rewrite E; left).
    unfold own_arrivals in Ho. by apply list_elem_of_filter in Ho as [_ Ho]. }
  destruct (udp_parse_total protocol txid (take RECV_BUF_LEN (dg_bytes d))) as [s ->]; [|done].
  apply Forall_take. by apply Hwf.
Qed.

Lemma udp_attempts_total protocol txid payload ip net per overall n i :
  net_wf net → is_Some (udp_attempts protocol txid payload ip net per overall n i).
Proof.
  intros Hwf. revert i. induction n as [|n IH]; intros i; [done|]. cbn [udp_attempts].
  case_match; [done|].
  edestruct (recv_loop_total protocol txid ip) as [got ->]; [apply Hwf|].
  cbn [mbind option_bind]. repeat case_match; try done.
Qed.

(** An attempt that hears nothing from the target and leaves time for another. *)
Definition silent ip a per overall : Prop :=
  at_send a = None ∧ own_arrivals ip (at_arrivals a (attempt_deadline a per overall)) = [] ∧
  at_error a (attempt_deadline a per overall) = None ∧ at_after a < overall.

(** The attempt whose first own datagram is read as [s]. *)
Definition answered protocol txid ip a per overall s : Prop :=
  at_send a = None ∧ ∃ d ds,
    own_arrivals ip (at_arrivals a (attempt_deadline a per overall)) = d :: ds ∧
    udp_parse protocol txid (take RECV_BUF_LEN (dg_bytes d)) = Some s.

Lemma classify_not_reached err s : classify_io_error err ≠ Reached s.
Proof. unfold classify_io_error. repeat case_match; done. Qed.

Lemma first_such (P Q : nat → Prop) n i :
  (∃ k, (k < S n)%nat ∧ (∀ m, (m < k)%nat → P (i + m)%nat) ∧ Q (i + k)%nat) ↔
  Q i ∨ (P i ∧ ∃ k, (k < n)%nat ∧ (∀ m, (m < k)%nat → P (S i + m)%nat) ∧ Q (S i + k)%nat).
Proof.
  split.
  - intros ([|k] & Hk & Hall & HQ); [left; by rewrite Nat.add_0_r in HQ|right].
    split; [rewrite <-(Nat.add_0_r i); apply Hall; lia|].
    exists k. rewrite Nat.add_succ_r in HQ. split_and!; [lia| |done].
    intros m Hm. rewrite Nat.add_succ_l, <-Nat.add_succ_r. apply Hall. lia.
  - intros [HQ|(HP & k & Hk & Hall & HQ)].
    + exists 0%nat. rewrite Nat.add_0_r. split_and!; [lia|lia|done].
    + exists (S k). rewrite Nat.add_succ_r. split_and!; [lia| |done].
      intros [|m] Hm; [by rewrite Nat.add_0_r|]. rewrite Nat.add_succ_r. apply Hall. lia.
Qed.

Lemma udp_attempts_reached protocol txid payload ip net per overall n i s :
  udp_attempts protocol txid payload ip net per overall n i = Some (Reached s) ↔
  ∃ k, (k < n)%nat ∧ (∀ m, (m < k)%nat → silent ip (un_attempt net (i + m)%nat payload) per overall) ∧
    answered protocol txid ip (un_attempt net (i + k)%nat payload) per overall s.
Proof.
  revert i. induction n as [|n IH]; intros i; [split; [done|intros (k & ? & _); lia]|].
  rewrite (first_such (λ j, silent ip (un_attempt net j payload) per overall)
    (λ j, answered protocol txid ip (un_attempt net j payload) per overall s)), <-IH.
  cbn [udp_attempts]. rewrite recv_loop_own. unfold silent, answered.
  destruct (un_attempt net i payload) as [[e|] sent arr err after]; cbn [at_send at_sent at_arrivals at_error at_after].
  { split; [intros [= ?%classify_not_reached]; done|naive_solver]. }
  set (deadline := attempt_deadline _ per overall).
  destruct (own_arrivals ip (arr deadline)) as [|d ds]; cbn [mbind option_bind].
  - destruct (err deadline) as [e|].
    { split; [intros [= ?%classify_not_reached]; done|naive_solver]. }
    destruct (Z.leb_spec overall after); [|naive_solver].
    split; [done|intros [(_ & d & ds & [=] & _)|((_ & _ & _ & ?) & _)]; lia].
  - destruct (udp_parse protocol txid (take RECV_BUF_LEN (dg_bytes d))) eqn:Hp; cbn [mbind option_bind]; naive_solver.
Qed.

(** An answer to a STUN request that is read as anything carries the request's identifier. *)
Lemma stun_answer_id bytes txid sig : stun_parse_response bytes txid = Some (Some sig) →
  byte_slice bytes 8 20 = Some txid.
Proof.
  unfold stun_parse_response. destruct (_ <? _); [done|].
  destruct (read_be bytes 0 2); [|done]. cbn [mbind option_bind]. destruct (negb _); [done|].
  destruct (read_be bytes 2 2); [|done]. cbn [mbind option_bind]. destruct (negb _); [done|].
  destruct (read_be bytes 4 4); [|done]. cbn [mbind option_bind]. destruct (negb _); [done|].
  destruct (byte_slice bytes 8 20) as [id|]; [|done]. cbn [mbind option_bind].
  destruct (decide (id = txid)) as [->|]; [done|]. by rewrite bool_decide_false.
Qed.

(** C14. A UDP probe of one port hears only its target and only in time. It never fails on what
    arrives; silencing every other peer does not change its outcome; it reports an answer
    exactly when some attempt, within the retries and after attempts that heard nothing, gets a
    datagram of the target's own address before its deadline (never after the probe's own), the
    first such datagram deciding the signal; and a STUN signal comes only from a datagram with
    the identifier of this request. *)
Theorem udp_hears_target net (ip : IpAddr) (port : Z) (protocol : UdpProtocol) (timeout retries : Z) :
  let probe n := udp_probe_port n ip port protocol timeout retries in
  let txid := new_stun_transaction_id (un_stun_clock net) port in
  let attempt i := un_attempt net i (udp_payload net protocol ip port) in
  let per := per_attempt_timeout timeout retries in
  let overall := un_start net + timeout in
  net_wf net → un_bind net = None → 0 ≤ retries →
  is_Some (probe net) ∧
  probe (only_from ip net) = probe net ∧
  (∀ s, probe net = Some (Reached s) ↔
     ∃ k, Z.of_nat k ≤ retries ∧ (∀ m, (m < k)%nat → silent ip (attempt m) per overall) ∧
       answered protocol txid ip (attempt k) per overall s) ∧
  (∀ i, attempt_deadline (attempt i) per overall ≤ overall) ∧
  (∀ bytes sig, udp_parse StunBinding txid bytes = Some (Some sig) → byte_slice bytes 8 20 = Some txid).
Proof.
  cbv zeta. intros Hwf Hbind Hr. unfold udp_probe_port.
  change (un_bind (only_from ip net)) with (un_bind net). rewrite Hbind. split_and!.
  - by apply udp_attempts_total.
  - apply udp_attempts_only_from.
  - intros s. rewrite udp_attempts_reached. split; intros (k & Hk & Hrest); exists k; split; try done; lia.
  - intros i. unfold attempt_deadline. lia.
  - intros bytes sig. apply stun_answer_id.
Qed.

(** ** Folding the ports *)

(** The latest of two latches. *)
Definition latch_fault {A} (old new : option A) : option A := match new with Some x => Some x | None => old end.

Lemma latch_fault_last {A B} (f : A → option B) (l : list A) old :
  foldl (λ acc x, latch_fault acc (f x)) old l = latch_fault old (last (omap f l)).
Proof.
  revert old. induction l as [|x l IH]; intros old; [done|]. cbn [foldl omap list_omap]. rewrite IH.
  destruct (f x) as [y|]; [|done].
  change (list_omap A B f l) with (omap f l). destruct (omap f l) as [|z zs] eqn:E; [done|].
  rewrite last_cons_cons. destruct (last (z :: zs)) eqn:El; [done|]. by apply last_None in El.
Qed.

Definition reached_signal (r : Z * PortOutcome) : option Signal :=
  match r.2 with Reached s => s | _ => None end.
Definition is_reached (r : Z * PortOutcome) : bool :=
  match r.2 with Reached _ => true | _ => false end.
Definition is_connected (r : Z * Connect) : bool :=
  match r.2 with Connected => true | _ => false end.
Definition connect_signal (r : Z * Connect) : option Signal :=
  match r.2 with Connected => Some (OpenPort r.1) | _ => None end.
Definition connect_faulted (r : Z * Connect) : option ProbeFault :=
  match r.2 with ConnectFailed e => connect_fault r.1 e | _ => None end.

Lemma connected_signals ts : is_empty (omap connect_signal ts) = negb (existsb is_connected ts).
Proof.
  induction ts as [|[p o] ts IH]; [done|]. cbn [omap list_omap existsb].
  destruct o; cbn [connect_signal is_connected snd]; done.
Qed.

Lemma udp_fold_parts rs signals reachable fault :
  foldl udp_fold (signals, reachable, fault) rs =
  (signals ++ omap reached_signal rs, reachable || existsb is_reached rs,
   foldl (λ acc r, latch_fault acc (port_fault r.1 r.2)) fault rs).
Proof.
  revert signals reachable fault. induction rs as [|[p o] rs IH]; intros signals reachable fault.
  { simpl. by rewrite app_nil_r, orb_false_r. }
  cbn [foldl existsb]. destruct o as [[s|]| | |k m]; cbn [udp_fold port_fault is_reached reached_signal snd fst omap list_omap];
    rewrite IH; rewrite ?orb_true_r, ?orb_true_l, ?orb_false_l, <-?app_assoc; done.
Qed.

Lemma tcp_fold_parts rs signals fault :
  foldl fold_connect (signals, fault) rs =
  (signals ++ omap connect_signal rs, foldl (λ acc r, latch_fault acc (connect_faulted r)) fault rs).
Proof.
  revert signals fault. induction rs as [|[p o] rs IH]; intros signals fault.
  { simpl. by rewrite app_nil_r. }
  cbn [foldl]. destruct o as [|e|]; cbn [fold_connect connect_signal connect_faulted snd fst omap list_omap];
    [|destruct (connect_fault p e)|]; rewrite IH, <-?app_assoc; done.
Qed.

Lemma udp_probe_reads (ip : IpAddr) (now : SystemTime) (us : list (Z * PortOutcome)) :
  udp_probe ip now us =
    mkProbeOutcome Udp ip now (existsb is_reached us) (omap reached_signal us)
      (if existsb is_reached us then None else last (omap (λ r, port_fault r.1 r.2) us)) None None.
Proof.
  unfold udp_probe. rewrite udp_fold_parts, latch_fault_last.
  unfold udp_build_outcome, surfaced_fault. simpl. do 2 f_equal. by destruct (last _).
Qed.

Lemma tcp_probe_reads (ip : IpAddr) (now : SystemTime) (ts : list (Z * Connect)) :
  tcp_probe ip now ts =
    mkProbeOutcome TcpConnect ip now (existsb is_connected ts) (omap connect_signal ts)
      (if existsb is_connected ts then None else last (omap connect_faulted ts)) None None.
Proof.
  unfold tcp_probe. rewrite tcp_fold_parts, latch_fault_last.
  unfold tcp_build_outcome, surfaced_fault. cbn [app]. rewrite connected_signals, negb_involutive.
  f_equal. by destruct (last _).
Qed.

End probe.

(** A STUN server that answers the second attempt, after a stranger sent the same bytes. *)
Definition sample_host : IpAddr := V4 167772161.

Definition sample_answer : Bytes :=
  stun_response (new_stun_transaction_id (Some 1700000000123456789) 3478) [] [] (V4 3221225985) 40000.

Definition sample_net `{IE : IoErrors} : UdpNet :=
  mkUdpNet None (Some 1700000000123456789) None None 0 (λ i payload,
    mkAttempt None (Z.of_nat i * 500000000)
      (λ deadline, if bool_decide (i = 0%nat) then [mkDatagram sample_answer (V4 1)]
                   else [mkDatagram [1; 2] (V4 1); mkDatagram sample_answer sample_host])
      (λ _, None) (Z.of_nat i * 500000000 + 500000000)).

Lemma sample_net_wf `{IE : IoErrors} : net_wf sample_net.
Proof.
  assert (bytes_wf sample_answer) by (apply (bool_decide_unpack _); by vm_compute).
  assert (bytes_wf [1; 2]) by (apply (bool_decide_unpack _); by vm_compute).
  intros i payload deadline d. cbn [sample_net un_attempt at_arrivals].
  case_bool_decide; rewrite ?elem_of_cons, ?elem_of_nil; set_solver.
Qed.

#[local] Existing Instance sample_errors.
#[local] Existing Instance plain_io.

Lemma udp_hears_target_witness :
  udp_probe_port sample_net sample_host 3478 StunBinding 1000000000 1 =
    Some (Reached (Some (StunMappedAddress (s! "192.0.2.1:40000")))).
Proof.
  refine (proj2 (proj1 (proj2 (proj2 (udp_hears_target (IE := plain_io) sample_net sample_host 3478 StunBinding 1000000000 1
    _ _ _))) _) _).
  - apply sample_net_wf.
  - done.
  - lia.
  - exists 1%nat. split; [lia|]. split.
    + intros m Hm. replace m with 0%nat by lia. repeat split.
    + split; [done|]. eexists _, _. split; [by vm_compute|by vm_compute].
Defined.

(** The identifiers of two requests made almost three seconds apart are the same. *)
Example stun_ids_repeat :
  new_stun_transaction_id (Some (400000000 * 2 ^ 32)) 3478 =
  new_stun_transaction_id (Some (400000000 * 2 ^ 32 + 2900000000)) 3478.
Proof. by vm_compute. Qed.
