(* ===== verification/Probers.v ===== *)
(** * DNS, reverse DNS, SSH, TLS and HTTP probing: [prober/dns.rs], [reverse_dns.rs], [ssh.rs], [tls.rs], [http.rs]

    The lookups, the handshakes and the clock are scripted: what an awaited call gives before
    its deadline, and when. Times are nanoseconds of the runtime's clock. *)

From S2P Require Import Prelude Net Model Sink Codec Ports SinkConfig GnmiPath ProberConfig Udp.

(** ** Lookups *)

(** The record data the probers read; names are in the form [Display] writes them. *)
Inductive RData : Type :=
  | RdA (ip : Z)
  | RdAaaa (ip : Z)
  | RdMx (preference : Z) (exchange : Str)
  | RdTxt (txt_data : list Bytes)
  | RdPtr (name : Str)
  | RdNs (name : Str)
  | RdCname (name : Str)
  | RdOther.

Section dns.
Context `{IE : IoErrors}.

(** A failed lookup: [is_no_records_found], a response code, and what is left to classify. *)
Record LookupError : Type := mkLookupError {
  le_no_records_found : bool;
  le_response_code : bool;
  le_view : NetErrorView;
  le_display : Str;
}.

(** One lookup awaited from [now] to a deadline: its result or none, and the time after it. *)
Definition Lookup : Type := Z → Z → option (Result LookupError (list RData)) * Z.

Definition lookup_deadline (now per_attempt overall_deadline : Z) : Z :=
  Z.min (now + per_attempt) overall_deadline.

(** The attempts of one name from the [i]th on, [n] of them at most. *)
Fixpoint lookup_attempts (net : nat → Lookup) (per_attempt overall_deadline : Z) (n i : nat) (now : Z)
    : option (Result LookupError (list RData)) * Z :=
  match n with
  | O => (None, now)
  | S n' =>
      let '(result, after) := net i now (lookup_deadline now per_attempt overall_deadline) in
      match result with
      | Some r => (Some r, after)
      | None =>
          if overall_deadline <=? after then (None, after)
          else lookup_attempts net per_attempt overall_deadline n' (S i) after
      end
  end.

(** The server responded, if only to refuse. *)
Definition server_responded (err : LookupError) : bool := le_no_records_found err || le_response_code err.

Definition lookup_fault (err : LookupError) (detail : Str) : option ProbeFault :=
  if server_responded err then None
  else match net_error (le_view err) with
       | Fault kind => Some (mkProbeFault kind detail)
       | Absence => None
       end.

(** ** [prober/dns.rs] *)

Definition txt_joined (txt_data : list Bytes) : Str := mjoin (from_utf8_lossy <$> txt_data).

Definition format_signal (query_name : Str) (rdata : RData) : option Str :=
  let line text := Some (query_name ++ s! " -> " ++ text) in
  match rdata with
  | RdA ip => line (ip_display (V4 ip))
  | RdAaaa ip => line (ip_display (V6 ip))
  | RdMx preference exchange => line (fmt_dec preference ++ s! " " ++ exchange)
  | RdTxt txt_data => line ([34] ++ txt_joined txt_data ++ [34])
  | RdPtr name | RdNs name | RdCname name => line name
  | RdOther => None
  end.

Record DnsPort : Type := mkDnsPort {
  dp_reachable : bool;
  dp_signals : list Signal;
  dp_fault : option ProbeFault;
}.

Definition dns_lookup_failed (port : Z) (name : Str) (err : LookupError) : option ProbeFault :=
  lookup_fault err (s! "dns probe failed on port " ++ fmt_dec port ++ s! " for " ++ name ++ s! ": " ++
                    le_display err).

(** One name of one port. *)
Definition dns_name (net : nat → Lookup) (port timeout retries : Z) (name : Str) (acc : DnsPort) (now : Z)
    : DnsPort * Z :=
  let overall_deadline := now + timeout in
  let '(result, after) :=
    lookup_attempts net (per_attempt_timeout timeout retries) overall_deadline (S (Z.to_nat retries)) 0 now in
  (match result with
   | Some (Ok answers) =>
       mkDnsPort true (dp_signals acc ++ (DnsHost <$> omap (format_signal name) answers)) (dp_fault acc)
   | Some (Err err) =>
       if server_responded err then mkDnsPort true (dp_signals acc) (dp_fault acc)
       else mkDnsPort (dp_reachable acc) (dp_signals acc)
              (match dns_lookup_failed port name err with Some fault => Some fault | None => dp_fault acc end)
   | None => acc
   end, after).

(** The names in turn; the script of the [k]th name is [net k]. *)
Fixpoint dns_names (net : nat → nat → Lookup) (port timeout retries : Z) (k : nat) (names : list Str)
    (acc : DnsPort) (now : Z) : DnsPort * Z :=
  match names with
  | [] => (acc, now)
  | name :: rest =>
      let '(acc, now) := dns_name (net k) port timeout retries name acc now in
      dns_names net port timeout retries (S k) rest acc now
  end.

(** What one port's operation gives; [build] is the error of building the resolver. *)
Definition dns_probe_port (build : option Str) (net : nat → nat → Lookup) (port timeout retries : Z)
    (names : list Str) (now : Z) : DnsPort * Z :=
  match build with
  | Some e =>
      (mkDnsPort false [] (Some (mkProbeFault DnsFailed
         (s! "failed to build dns resolver on port " ++ fmt_dec port ++ s! ": " ++ e))), now)
  | None => dns_names net port timeout retries 0 names (mkDnsPort false [] None) now
  end.

Definition dns_fold (acc : list Signal * bool * option ProbeFault) (p : DnsPort)
    : list Signal * bool * option ProbeFault :=
  let '(signals, any_reachable, last_fault) := acc in
  (signals ++ dp_signals p, any_reachable || dp_reachable p,
   match dp_fault p with Some f => Some f | None => last_fault end).

(** [DnsProber::probe] once [probe_ports] has returned [per_port]. *)
Definition dns_probe (target_ip : IpAddr) (now : SystemTime) (per_port : list DnsPort) : ProbeOutcome :=
  let '(signals, any_reachable, last_fault) := foldl dns_fold ([], false, None) per_port in
  mkProbeOutcome Dns target_ip now any_reachable signals (surfaced_fault any_reachable last_fault) None None.

(** ** [prober/reverse_dns.rs] *)

Definition trim_trailing_dot (name : Str) : Str := default name (strip_dot name).

Definition ptr_name (rdata : RData) : option Str :=
  match rdata with RdPtr name => Some (trim_trailing_dot name) | _ => None end.

Definition reverse_dns_probe (net : nat → Lookup) (target_ip : IpAddr) (timestamp : SystemTime)
    (timeout retries now : Z) : ProbeOutcome :=
  let overall_deadline := now + timeout in
  let result := (lookup_attempts net (per_attempt_timeout timeout retries) overall_deadline
                   (S (Z.to_nat retries)) 0 now).1 in
  let '(reachable, signals, fault) :=
    match result with
    | Some (Ok answers) => (true, ReverseDnsName <$> omap ptr_name answers, None)
    | Some (Err err) =>
        (server_responded err, [],
         lookup_fault err (s! "reverse dns probe failed for " ++ ip_display target_ip ++ s! ": " ++
                           le_display err))
    | None => (false, [], None)
    end in
  mkProbeOutcome ReverseDns target_ip timestamp reachable signals (surfaced_fault reachable fault) None None.

End dns.

(** ** A connection, then what is read over it *)

Section sessions.
Context `{IE : IoErrors}.

(** [connect_fault] of both probers, which name themselves. *)
Definition session_connect_fault (prober : Str) (port : Z) (err : IoError) : option ProbeFault :=
  match io_error err with
  | Fault kind =>
      Some (mkProbeFault kind (prober ++ s! " connect failed on port " ++ fmt_dec port ++ s! ": " ++
                               io_error_display err))
  | Absence => None
  end.

(** [fold_connect]: the signals and the fault of a port, and whether there is a stream. *)
Definition session_fold_connect (prober : Str) (port : Z) (outcome : Connect)
    : list Signal * option ProbeFault * bool :=
  match outcome with
  | Connected => ([OpenPort port], None, true)
  | ConnectFailed err => ([], session_connect_fault prober port err, false)
  | ConnectElapsed => ([], None, false)
  end.

Definition session_fold (acc : list Signal * option ProbeFault) (p : list Signal * option ProbeFault)
    : list Signal * option ProbeFault :=
  (acc.1 ++ p.1, match p.2 with Some f => Some f | None => acc.2 end).

Definition session_build_outcome (kind : ProbeKind) (target_ip : IpAddr) (now : SystemTime)
    (signals : list Signal) (last_fault : option ProbeFault) : ProbeOutcome :=
  let reachable := negb (is_empty signals) in
  mkProbeOutcome kind target_ip now reachable signals (surfaced_fault reachable last_fault) None None.

(** The probers of sessions once [probe_ports] has returned [per_port]. *)
Definition session_probe (kind : ProbeKind) (target_ip : IpAddr) (now : SystemTime)
    (per_port : list (list Signal * option ProbeFault)) : ProbeOutcome :=
  let '(signals, last_fault) := foldl session_fold ([], None) per_port in
  session_build_outcome kind target_ip now signals last_fault.

(** ** [prober/ssh.rs] *)

Definition BANNER_MAX_BYTES : nat := 256.

Fixpoint find_terminator_from (i : nat) (bytes : Bytes) : option nat :=
  match bytes with
  | [] => None
  | b :: rest => if b =? 10 then Some i else find_terminator_from (S i) rest
  end.

Definition find_line_terminator (bytes : Bytes) : option nat := find_terminator_from 0 bytes.

(** The line that ends at [end_] of the buffer. *)
Definition banner_line (buf : Bytes) (end_ : nat) : option Str :=
  line ← from_utf8 (take end_ buf);
  let line := trim_end_matches 13 line in
  match strip_prefix (s! "SSH-") line with Some _ => Some line | None => None end.

(** The reads of the stream: the bytes that are there (cut to the room of the buffer), none
    at its end, or an error. A stream that stalls has no further read. *)
Fixpoint read_banner (reads : list (Result unit Bytes)) (buf : Bytes) : option Str :=
  if (length buf <? BANNER_MAX_BYTES)%nat then
    match reads with
    | [] => None
    | Err _ :: _ => None
    | Ok bytes :: rest =>
        let got := take (BANNER_MAX_BYTES - length buf) bytes in
        if is_empty got then None
        else
          let buf := buf ++ got in
          match find_line_terminator buf with
          | Some end_ => banner_line buf end_
          | None => read_banner rest buf
          end
    end
  else None.

(** [read_banner_from_stream]. *)
Definition read_banner_from_stream (reads : list (Result unit Bytes)) : option Str := read_banner reads [].

(** [extend_offer]. *)
Definition extend_offer {T} `{EqDecision T} (base legacy : list T) : list T := foldl push_new base legacy.

(** [CaptureHandler::check_server_key]: the key is kept when it encodes, and accepted. *)
Definition check_server_key (slot to_openssh : option Str) : option Str * bool :=
  (match to_openssh with Some encoded => Some encoded | None => slot end, true).

(** [read_host_key] over a handshake that ended with the slot, or failed. *)
Definition read_host_key (handshake : option (option Str)) : option Str :=
  to_openssh ← handshake; (check_server_key None to_openssh).1.

(** One port: what was connected, the banner and the key, each read in its own time. *)
Definition ssh_port (port : Z) (outcome : Connect) (banner host_key : option (option Str))
    : list Signal * option ProbeFault :=
  let '(signals, fault, connected) := session_fold_connect (s! "ssh") port outcome in
  if connected then
    (signals ++
     (match banner with Some (Some b) => [SshBanner b] | _ => [] end) ++
     (match host_key with Some (Some k) => [SshHostKey k] | _ => [] end), fault)
  else (signals, fault).

(** ** [prober/tls.rs] *)

(** The names of a certificate, as the parser gives them. *)
Inductive GeneralName : Type :=
  | DnsName (name : Str)
  | IpName (bytes : Bytes)
  | OtherName.

Record Certificate : Type := mkCertificate {
  ce_common_names : list (option Str);
  ce_alternative_names : list GeneralName;
}.

(** [parse_x509_certificate]. *)
Context (parse_certificate : Bytes → option Certificate).

Fixpoint first_common_name (names : list (option Str)) : option Str :=
  match names with
  | [] => None
  | Some value :: rest =>
      let trimmed := trim value in
      if is_empty trimmed then first_common_name rest else Some trimmed
  | None :: rest => first_common_name rest
  end.

Definition extract_subject_cn (der : Bytes) : option Str :=
  cert ← parse_certificate der; first_common_name (ce_common_names cert).

Definition ip_from_bytes (bytes : Bytes) : option IpAddr :=
  if (length bytes =? 4)%nat then Some (V4 (from_be_bytes bytes))
  else if (length bytes =? 16)%nat then Some (V6 (from_be_bytes bytes))
  else None.

Definition san_entry (name : GeneralName) : option Str :=
  match name with
  | DnsName dns => let trimmed := trim dns in if is_empty trimmed then None else Some trimmed
  | IpName bytes => (λ addr, s! "ip:" ++ ip_display addr) <$> ip_from_bytes bytes
  | OtherName => None
  end.

Definition extract_san_entries (der : Bytes) : list Str :=
  match parse_certificate der with
  | Some cert => omap san_entry (ce_alternative_names cert)
  | None => []
  end.

(** A code point of the protocol: the library's name for it, or none, and its number. *)
Record CodePoint : Type := mkCodePoint { cp_name : option Str; cp_value : Z }.

Definition hex4 (n : Z) : Str := [digit_char (n / 4096); digit_char (n / 256 mod 16);
                                   digit_char (n / 16 mod 16); digit_char (n mod 16)].

Definition render_protocol_version (version : CodePoint) : Str :=
  match cp_name version with
  | Some name => (λ c, if c =? 95 then 46 else c) <$> name
  | None => s! "0x" ++ hex4 (cp_value version)
  end.

(** [str::replacen] of one occurrence. *)
Fixpoint replace_first (from to s : Str) : Str :=
  match strip_prefix from s with
  | Some rest => to ++ rest
  | None => match s with [] => [] | c :: rest => c :: replace_first from to rest end
  end.

Definition render_cipher_suite (suite : CodePoint) : Str :=
  match cp_name suite with
  | Some name => replace_first (s! "TLS13_") (s! "TLS_") name
  | None => s! "0x" ++ hex4 (cp_value suite)
  end.

Definition opt_signal {A} (f : A → Signal) (o : option A) : list Signal :=
  match o with Some x => [f x] | None => [] end.

Definition connection_signals (version cipher : option CodePoint) (alpn leaf_der : option Bytes)
    : list Signal :=
  opt_signal (λ v, TlsProtocolVersion (render_protocol_version v)) version ++
  opt_signal (λ c, TlsCipherSuite (render_cipher_suite c)) cipher ++
  opt_signal (λ p, TlsAlpn (from_utf8_lossy p)) alpn ++
  match leaf_der with
  | Some der => opt_signal TlsSubject (extract_subject_cn der) ++ (TlsSanName <$> extract_san_entries der)
  | None => []
  end.

(** A completed handshake. *)
Record TlsSession : Type := mkTlsSession {
  ts_version : option CodePoint;
  ts_cipher : option CodePoint;
  ts_alpn : option Bytes;
  ts_peer_certificates : option (list Bytes);
}.

Definition handshake_and_extract (session : option TlsSession) : list Signal :=
  match session with
  | None => []
  | Some s =>
      connection_signals (ts_version s) (ts_cipher s) (ts_alpn s) (ts_peer_certificates s ≫= head)
  end.

(** One port; the handshake is none when its time ran out. *)
Definition tls_port (port : Z) (outcome : Connect) (handshake : option (option TlsSession))
    : list Signal * option ProbeFault :=
  let '(signals, fault, connected) := session_fold_connect (s! "tls") port outcome in
  if connected then
    (signals ++ match handshake with Some session => handshake_and_extract session | None => [] end, fault)
  else (signals, fault).

(** ** [prober/http.rs] *)

Definition scheme_for_port (port : Z) (scheme : HttpScheme) : Str :=
  match scheme with
  | SchemeHttp => s! "http"
  | SchemeHttps => s! "https"
  | SchemeAuto => if (port =? 443) || (port =? 8443) then s! "https" else s! "http"
  end.

(** A failed request: the error and its sources, and what the client says of it. *)
Record RequestError : Type := mkRequestError {
  re_error : ErrorNode;
  re_is_timeout : bool;
  re_is_connect : bool;
  re_display : Str;
}.

Definition classify_error_chain (err : ErrorNode) (is_timeout is_connect : bool) : Disposition :=
  if is_timeout then Absence
  else match io_error_in_chain err with
       | Some io_err => io_error io_err
       | None => if is_connect then Absence else Fault OtherFault
       end.

Definition classify_request_error (err : RequestError) : Disposition :=
  classify_error_chain (re_error err) (re_is_timeout err) (re_is_connect err).

Definition HTTP_BANNER_MAX_BYTES : Z := 256.

Definition truncate_banner (raw : Str) : Str :=
  let trimmed := trim raw in
  if str_len trimmed <=? HTTP_BANNER_MAX_BYTES then trimmed
  else floor_char_prefix HTTP_BANNER_MAX_BYTES trimmed.

Definition http_url (scheme : HttpScheme) (path : Str) (ip : IpAddr) (port : Z) : Str :=
  let host := match ip with V6 _ => s! "[" ++ ip_display ip ++ s! "]" | V4 _ => ip_display ip end in
  scheme_for_port port scheme ++ s! "://" ++ host ++ s! ":" ++ fmt_dec port ++ path.

(** One port: what the client gives for the URL in time, a response with its [Server] header when
    that is text, or an error. *)
Definition http_port (scheme : HttpScheme) (path : Str) (ip : IpAddr)
    (net : Str → option (Result RequestError (option Str))) (port : Z) : list Signal * option ProbeFault :=
  match net (http_url scheme path ip port) with
  | Some (Ok server) =>
      (OpenPort port ::
       match server with
       | Some server => let banner := truncate_banner server in
                        if is_empty banner then [] else [HttpBanner banner]
       | None => []
       end, None)
  | Some (Err err) =>
      if rustls_error_in_chain (re_error err) then ([OpenPort port], None)
      else match classify_request_error err with
           | Fault kind =>
               ([], Some (mkProbeFault kind
                  (s! "http probe failed on port " ++ fmt_dec port ++ s! ": " ++ re_display err)))
           | Absence => ([], None)
           end
  | None => ([], None)
  end.

Definition http_probe (ports : list Z) (scheme : HttpScheme) (path : Str) (ip : IpAddr) (now : SystemTime)
    (net : Str → option (Result RequestError (option Str))) : ProbeOutcome :=
  session_probe Http ip now (http_port scheme path ip net <$> ports).

End sessions.
