(* ===== verification/ProberTheorems.v ===== *)
(** * What the DNS, reverse DNS, SSH, TLS and HTTP probers guarantee

    Lookups are retransmitted in the time they have, a probe reports exactly what its ports and
    names answered, and a banner does not depend on how the network splits it. *)

From S2P Require Import Prelude Net Model Sink Codec Ports SinkConfig GnmiPath ProberConfig Udp UdpTheorems Probers.

Lemma existsb_elem {A} (p : A → bool) (l : list A) x : x ∈ l → p x → existsb p l.
Proof.
  intros Hx Hp. apply Is_true_true, existsb_exists. exists x. split; [by apply list_elem_of_In|by apply Is_true_true].
Qed.

(** ** Attempts *)

Section lookups.
Context `{IE : IoErrors}.

(** An awaited call ends by its deadline, and time does not run backwards. *)
Definition timely (net : nat → Lookup) : Prop :=
  ∀ i now deadline, now ≤ deadline → now ≤ (net i now deadline).2 ≤ deadline.

(** A server that drops the first [j] queries and answers the next one. *)
Definition drops_then_answers (j : nat) (r : Result LookupError (list RData)) (net : nat → Lookup) : Prop :=
  (∀ i now deadline, (i < j)%nat → now ≤ deadline → net i now deadline = (None, deadline)) ∧
  (∀ now deadline, now ≤ deadline → (net j now deadline).1 = Some r).

Lemma lookup_attempts_time net per overall n i now :
  timely net → 0 ≤ per → now ≤ overall →
  now ≤ (lookup_attempts net per overall n i now).2 ≤ overall.
Proof.
  intros Ht Hp. revert i now. induction n as [|n IH]; intros i now Hn; cbn [lookup_attempts snd]; [lia|].
  pose proof (Ht i now (lookup_deadline now per overall)) as Hi. unfold lookup_deadline in *.
  destruct (net i now _) as [result after]. cbn [snd] in Hi. specialize (Hi ltac:(lia)).
  destruct result; cbn [snd]; [lia|]. destruct (Z.leb_spec overall after); cbn [snd]; [lia|].
  specialize (IH (S i) after ltac:(lia)). lia.
Qed.

(** Silent attempts use up their slice each. *)
Lemma lookup_attempts_silent net per overall m i now k :
  (∀ l now deadline, (i ≤ l < i + k)%nat → now ≤ deadline → net l now deadline = (None, deadline)) →
  0 ≤ per → now + Z.of_nat k * per < overall →
  lookup_attempts net per overall (k + m) i now =
  lookup_attempts net per overall m (i + k) (now + Z.of_nat k * per).
Proof.
  intros Hs Hp. revert i now Hs. induction k as [|k IH]; intros i now Hs Hlt.
  { rewrite Nat.add_0_l, Nat.add_0_r. f_equal. lia. }
  cbn [lookup_attempts Nat.add]. unfold lookup_deadline at 1. rewrite Hs by lia.
  destruct (Z.leb_spec overall (Z.min (now + per) overall)); [nia|].
  rewrite IH by (intros; try apply Hs; nia). f_equal; nia.
Qed.

Lemma lookup_attempts_answered net j r per overall n now :
  drops_then_answers j r net → (j < n)%nat → 0 ≤ per → now + Z.of_nat j * per < overall →
  (lookup_attempts net per overall n 0 now).1 = Some r.
Proof.
  intros [Hs Ha] Hj Hp Hlt. replace n with (j + S (n - j - 1))%nat by lia.
  rewrite (lookup_attempts_silent _ _ _ _ 0%nat) by (intros; try apply Hs; try lia; done).
  cbn [Nat.add lookup_attempts]. specialize (Ha (now + Z.of_nat j * per)).
  specialize (Ha (lookup_deadline (now + Z.of_nat j * per) per overall)).
  unfold lookup_deadline in *. specialize (Ha ltac:(lia)).
  destruct (net j _ _) as [result after]. cbn [fst] in Ha. by subst.
Qed.

(** Every retry has its turn unless the slices were rounded up to the least one. *)
Lemma per_attempt_turns timeout retries j :
  0 ≤ retries < U32_MAX → MIN_ATTEMPT_SLICE * (retries + 1) ≤ timeout → 0 ≤ j ≤ retries →
  j * per_attempt_timeout timeout retries < timeout.
Proof.
  intros Hr Ht Hj. unfold per_attempt_timeout, saturating_add, MIN_ATTEMPT_SLICE in *.
  rewrite Z.min_r by lia.
  pose proof (Z.div_le_lower_bound timeout (retries + 1) 1000000 ltac:(lia) ltac:(lia)).
  rewrite Z.max_l by lia.
  pose proof (Z.mul_div_le timeout (retries + 1) ltac:(lia)). nia.
Qed.

(** The slices are equal shares of the timeout, rounded down. *)
Lemma per_attempt_share timeout retries :
  0 ≤ retries < U32_MAX → MIN_ATTEMPT_SLICE * (retries + 1) ≤ timeout →
  per_attempt_timeout timeout retries * (retries + 1) ≤ timeout <
    (per_attempt_timeout timeout retries + 1) * (retries + 1).
Proof.
  intros Hr Ht. unfold per_attempt_timeout, saturating_add, MIN_ATTEMPT_SLICE in *. rewrite Z.min_r by lia.
  pose proof (Z.div_le_lower_bound timeout (retries + 1) 1000000 ltac:(lia) ltac:(lia)).
  rewrite Z.max_l by lia. Z.to_euclidean_division_equations; lia.
Qed.

Lemma per_attempt_nonneg timeout retries : 0 ≤ per_attempt_timeout timeout retries.
Proof. unfold per_attempt_timeout, MIN_ATTEMPT_SLICE. lia. Qed.

(** The attempts at one name, [n] at most, each with its slice of the time to the deadline: the
    first answer ends them, and so does the deadline; without an answer there is no result. *)
Inductive attempts_end (net : nat → Lookup) (slice overall : Z)
    : nat → nat → Z → option (Result LookupError (list RData)) → Z → Prop :=
  | attempts_spent i now : attempts_end net slice overall 0 i now None now
  | attempt_answered n i now r after :
      net i now (Z.min (now + slice) overall) = (Some r, after) →
      attempts_end net slice overall (S n) i now (Some r) after
  | attempt_overdue n i now after :
      net i now (Z.min (now + slice) overall) = (None, after) → overall ≤ after →
      attempts_end net slice overall (S n) i now None after
  | attempt_again n i now after r finish :
      net i now (Z.min (now + slice) overall) = (None, after) → after < overall →
      attempts_end net slice overall n (S i) after r finish →
      attempts_end net slice overall (S n) i now r finish.

Lemma lookup_attempts_end net slice overall n i now :
  attempts_end net slice overall n i now (lookup_attempts net slice overall n i now).1
    (lookup_attempts net slice overall n i now).2.
Proof.
  revert i now. induction n as [|n IH]; intros i now; cbn [lookup_attempts]; [constructor|].
  unfold lookup_deadline. destruct (net i now _) as [[r|] after] eqn:E; [by constructor|].
  destruct (Z.leb_spec overall after); [by constructor|]. by eapply attempt_again.
Qed.

(** A name that no attempt gets an answer for has no result. *)
Lemma attempts_end_silent net slice overall n i now r finish :
  (∀ j t d, (net j t d).1 = None) → attempts_end net slice overall n i now r finish → r = None.
Proof.
  intros Hs. induction 1 as [|n i now r after E| |]; try done. specialize (Hs i now (Z.min (now + slice) overall)).
  by rewrite E in Hs.
Qed.

(** ** What a port's names answered *)

Definition NameResult : Type := Str * option (Result LookupError (list RData)).

(** The result of every name, each looked up when the one before it is done. *)
Fixpoint name_results (net : nat → nat → Lookup) (timeout retries : Z) (k : nat) (names : list Str) (now : Z)
    : list NameResult * Z :=
  match names with
  | [] => ([], now)
  | name :: rest =>
      let '(result, after) :=
        lookup_attempts (net k) (per_attempt_timeout timeout retries) (now + timeout)
          (S (Z.to_nat retries)) 0 now in
      let '(results, finish) := name_results net timeout retries (S k) rest after in
      ((name, result) :: results, finish)
  end.

(** The names in turn, each with the whole timeout from when the one before it is done. *)
Inductive names_end (net : nat → nat → Lookup) (timeout retries : Z)
    : nat → list Str → Z → list NameResult → Z → Prop :=
  | names_done k now : names_end net timeout retries k [] now [] now
  | names_next k name names now r after rs finish :
      attempts_end (net k) (per_attempt_timeout timeout retries) (now + timeout) (S (Z.to_nat retries)) 0 now r after →
      names_end net timeout retries (S k) names after rs finish →
      names_end net timeout retries k (name :: names) now ((name, r) :: rs) finish.

Lemma name_results_end net timeout retries k names now :
  names_end net timeout retries k names now (name_results net timeout retries k names now).1
    (name_results net timeout retries k names now).2.
Proof using Type.
  revert k now. induction names as [|name names IH]; intros k now; cbn [name_results]; [constructor|].
  pose proof (lookup_attempts_end (net k) (per_attempt_timeout timeout retries) (now + timeout) (S (Z.to_nat retries)) 0 now) as Ha.
  destruct (lookup_attempts _ _ _ _ _ _) as [result after]. specialize (IH (S k) after).
  destruct (name_results _ _ _ _ _ _) as [rs finish]. by econstructor.
Qed.

Lemma names_end_silent net timeout retries k names now rs finish i name :
  names_end net timeout retries k names now rs finish → names !! i = Some name →
  (∀ j t d, (net (k + i)%nat j t d).1 = None) → rs !! i = Some (name, None).
Proof using Type.
  intros Hn. revert i. induction Hn as [|k name' names now r after rs finish Ha _ IH]; intros i Hi Hs; [done|].
  destruct i as [|i]; cbn in Hi |- *.
  - injection Hi as ->. rewrite Nat.add_0_r in Hs. by rewrite (attempts_end_silent _ _ _ _ _ _ _ _ Hs Ha).
  - apply IH; [done|]. by rewrite Nat.add_succ_comm.
Qed.

(** An answer, or a refusal that the server itself sent. *)
Definition responded (r : NameResult) : bool :=
  match r.2 with
  | Some (Ok _) => true
  | Some (Err e) => le_no_records_found e || le_response_code e
  | None => false
  end.

Definition answer_lines (r : NameResult) : list Signal :=
  match r.2 with Some (Ok answers) => DnsHost <$> omap (format_signal r.1) answers | _ => [] end.

Definition broken_lookup (port : Z) (r : NameResult) : option ProbeFault :=
  match r.2 with Some (Err e) => dns_lookup_failed port r.1 e | _ => None end.

Definition port_of_results (port : Z) (rs : list NameResult) : DnsPort :=
  mkDnsPort (existsb responded rs) (rs ≫= answer_lines) (last (omap (broken_lookup port) rs)).

Lemma dns_names_reads net port timeout retries k names acc now :
  dns_names net port timeout retries k names acc now =
  (let rs := (name_results net timeout retries k names now).1 in
   mkDnsPort (dp_reachable acc || existsb responded rs) (dp_signals acc ++ (rs ≫= answer_lines))
     (foldl (λ old r, latch_fault old (broken_lookup port r)) (dp_fault acc) rs),
   (name_results net timeout retries k names now).2).
Proof using Type.
  revert k acc now. induction names as [|name names IH]; intros k [reachable signals fault] now.
  { cbn. by rewrite orb_false_r, app_nil_r. }
  cbn [dns_names name_results]. unfold dns_name.
  destruct (lookup_attempts _ _ _ _ _ _) as [result after]. rewrite IH.
  destruct (name_results net timeout retries (S k) names after) as [rs finish].
  cbn [existsb foldl mbind list_bind fst snd].
  destruct result as [[answers|err]|]; cbn [responded answer_lines broken_lookup fst snd dp_reachable dp_signals dp_fault].
  - by rewrite orb_true_r, orb_true_l, <-app_assoc.
  - unfold dns_lookup_failed, lookup_fault. change (le_no_records_found err || le_response_code err) with (server_responded err). destruct (server_responded err) eqn:Hr;
      cbn [dp_reachable dp_signals dp_fault]; rewrite ?orb_true_r, ?orb_false_l; done.
  - by rewrite orb_false_l.
Qed.

(** A port whose resolver was built reports what its names answered. *)
Lemma dns_port_reads net port timeout retries names now :
  dns_probe_port None net port timeout retries names now =
  (port_of_results port (name_results net timeout retries 0 names now).1,
   (name_results net timeout retries 0 names now).2).
Proof using Type.
  unfold dns_probe_port. rewrite dns_names_reads. cbv zeta. rewrite latch_fault_last.
  cbn [dp_reachable dp_signals dp_fault orb app]. unfold port_of_results, latch_fault. by destruct (last _).
Qed.

Lemma name_results_names net timeout retries k names now :
  (name_results net timeout retries k names now).1.*1 = names.
Proof using Type.
  revert k now. induction names as [|name names IH]; intros k now; [done|]. cbn [name_results].
  destruct (lookup_attempts _ _ _ _ _ _) as [result after]. specialize (IH (S k) after).
  destruct (name_results _ _ _ _ _ _) as [rs finish]. cbn [fst] in *. rewrite fmap_cons. by rewrite IH.
Qed.

Lemma name_results_time net timeout retries k names now :
  (∀ k, timely (net k)) → 0 ≤ timeout →
  now ≤ (name_results net timeout retries k names now).2 ≤ now + Z.of_nat (length names) * timeout.
Proof using Type.
  intros Ht H0. revert k now. induction names as [|name names IH]; intros k now; [cbn; lia|].
  cbn [name_results length].
  pose proof (lookup_attempts_time (net k) (per_attempt_timeout timeout retries) (now + timeout)
    (S (Z.to_nat retries)) 0 now (Ht k) (per_attempt_nonneg _ _) ltac:(lia)) as Hl.
  destruct (lookup_attempts _ _ _ _ _ _) as [result after]. specialize (IH (S k) after).
  destruct (name_results _ _ _ _ _ _) as [rs finish]. cbn [snd] in *. lia.
Qed.

(** Whatever the names before it did, a name whose server answers one of its attempts is answered. *)
Lemma name_results_answered net timeout retries k names now i name j r :
  names !! i = Some name → drops_then_answers j r (net (k + i)%nat) → 0 ≤ retries →
  (j ≤ Z.to_nat retries)%nat → Z.of_nat j * per_attempt_timeout timeout retries < timeout →
  (name, Some r) ∈ (name_results net timeout retries k names now).1.
Proof using Type.
  intros Hi Hd Hr Hj Hlt. revert k now i Hi Hd. induction names as [|name' names IH]; intros k now i Hi Hd; [done|].
  cbn [name_results]. destruct i as [|i].
  - cbn in Hi. simplify_eq. rewrite Nat.add_0_r in Hd.
    pose proof (lookup_attempts_answered (net k) j r (per_attempt_timeout timeout retries) (now + timeout)
      (S (Z.to_nat retries)) now Hd ltac:(lia) (per_attempt_nonneg _ _) ltac:(lia)) as Ha.
    destruct (lookup_attempts _ _ _ _ _ _) as [result after]. cbn [fst] in Ha. subst.
    destruct (name_results net timeout retries (S k) names after). cbn [fst]. apply list_elem_of_here.
  - destruct (lookup_attempts _ _ _ _ _ _) as [result after].
    specialize (IH (S k) after i Hi). rewrite <-Nat.add_succ_comm in Hd. specialize (IH Hd).
    destruct (name_results net timeout retries (S k) names after) as [rs finish]. cbn [fst] in *.
    by apply list_elem_of_further.
Qed.

(** ** A whole probe *)

(** What a port does from when its operation starts. *)
Record DnsScript : Type := mkDnsScript {
  ds_port : Z;
  ds_build : option Str;
  ds_net : nat → nat → Lookup;
  ds_start : Z;
}.

Definition run_port (timeout retries : Z) (names : list Str) (s : DnsScript) : DnsPort * Z :=
  dns_probe_port (ds_build s) (ds_net s) (ds_port s) timeout retries names (ds_start s).

Lemma dns_fold_parts ps signals reachable fault :
  foldl dns_fold (signals, reachable, fault) ps =
  (signals ++ (ps ≫= dp_signals), reachable || existsb dp_reachable ps,
   foldl (λ old p, latch_fault old (dp_fault p)) fault ps).
Proof using Type.
  revert signals reachable fault. induction ps as [|p ps IH]; intros signals reachable fault.
  { cbn. by rewrite app_nil_r, orb_false_r. }
  cbn [foldl existsb mbind list_bind]. unfold dns_fold at 2. rewrite IH.
  by rewrite <-app_assoc, orb_assoc.
Qed.

Lemma dns_probe_reads ip ts ps :
  dns_probe ip ts ps =
  mkProbeOutcome Dns ip ts (existsb dp_reachable ps) (ps ≫= dp_signals)
    (if existsb dp_reachable ps then None else last (omap dp_fault ps)) None None.
Proof using Type.
  unfold dns_probe. rewrite dns_fold_parts, latch_fault_last. unfold surfaced_fault, latch_fault.
  cbn [app orb]. by destruct (last _).
Qed.

Lemma silent_ports (ps : list DnsPort) :
  (∀ p, p ∈ ps → dp_reachable p = false ∧ dp_signals p = []) → existsb dp_reachable ps = false ∧ ps ≫= dp_signals = [].
Proof using Type.
  induction ps as [|p ps IH]; intros Hp; [done|]. destruct (Hp p) as [E1 E2]; [left|].
  cbn [existsb mbind list_bind]. rewrite E1, E2. apply IH. intros. apply Hp. by right.
Qed.

Lemma silent_port timeout retries names (s : DnsScript) :
  (∀ i j t d, (ds_net s i j t d).1 = None) →
  dp_reachable (run_port timeout retries names s).1 = false ∧ dp_signals (run_port timeout retries names s).1 = [].
Proof using Type.
  intros Hs. unfold run_port. destruct (ds_build s); [done|]. rewrite dns_port_reads. cbn [fst port_of_results dp_reachable dp_signals].
  pose proof (name_results_end (ds_net s) timeout retries 0 names (ds_start s)) as Hn.
  revert Hn. generalize (name_results (ds_net s) timeout retries 0 names (ds_start s)). intros [rs finish] Hn. cbn in Hn |- *.
  induction Hn as [|k name names now r after rs finish Ha _ IH]; [done|].
  rewrite (attempts_end_silent _ _ _ _ _ _ _ _ (Hs k) Ha). exact IH.
Qed.

(** C23. A DNS probe reports what its ports answered: reachable when some name on some port was answered, if only
    with a refusal; the formatted records in the order of ports and names; the last fault when nothing was
    reachable. The result of a name is the first answer to its attempts, and a name without an answer in
    time has none: a server that answers nothing is not reachable and gives no signal. A port is done within the timeout for each of its names, and a server that drops the
    first queries of a name is still found as long as one of the attempts, each with its slice of the
    timeout, is answered; when the timeout allows a millisecond for each attempt the slices are equal and use it up,
    and every retry has its turn. *)
Theorem dns_probe_retransmits (ip : IpAddr) (ts : SystemTime) (timeout retries : Z) (names : list Str)
    (scripts : list DnsScript) :
  0 ≤ timeout → 0 ≤ retries → (∀ s k, s ∈ scripts → timely (ds_net s k)) →
  let per_port := (run_port timeout retries names <$> scripts).*1 in
  let outcome := dns_probe ip ts per_port in
  outcome = mkProbeOutcome Dns ip ts (existsb dp_reachable per_port) (per_port ≫= dp_signals)
    (if existsb dp_reachable per_port then None else last (omap dp_fault per_port)) None None ∧
  (∀ s, s ∈ scripts → ds_build s = None →
     ∃ rs, run_port timeout retries names s = (port_of_results (ds_port s) rs, (run_port timeout retries names s).2) ∧
           names_end (ds_net s) timeout retries 0 names (ds_start s) rs (run_port timeout retries names s).2 ∧
           rs.*1 = names ∧
           (∀ i name, names !! i = Some name → (∀ j t d, (ds_net s i j t d).1 = None) → rs !! i = Some (name, None)) ∧
           (∀ i name j r, names !! i = Some name → drops_then_answers j r (ds_net s i) →
              (j ≤ Z.to_nat retries)%nat → Z.of_nat j * per_attempt_timeout timeout retries < timeout →
              (name, Some r) ∈ rs ∧ (responded (name, Some r) → po_reachable outcome)) ∧
           ds_start s ≤ (run_port timeout retries names s).2 ≤ ds_start s + Z.of_nat (length names) * timeout) ∧
  ((∀ s i j t d, s ∈ scripts → (ds_net s i j t d).1 = None) → po_reachable outcome = false ∧ po_signals outcome = []) ∧
  (∀ s e, s ∈ scripts → ds_build s = Some e →
     dp_reachable (run_port timeout retries names s).1 = false ∧
     is_Some (dp_fault (run_port timeout retries names s).1)) ∧
  (retries < U32_MAX → MIN_ATTEMPT_SLICE * (retries + 1) ≤ timeout →
     per_attempt_timeout timeout retries * (retries + 1) ≤ timeout <
       (per_attempt_timeout timeout retries + 1) * (retries + 1) ∧
     ∀ j, (j ≤ Z.to_nat retries)%nat → Z.of_nat j * per_attempt_timeout timeout retries < timeout).
Proof using Type.
  intros Ht Hr Htimely per_port outcome. split_and!; [apply dns_probe_reads| | | |].
  4: { intros. split; [by apply per_attempt_share|]. intros. apply per_attempt_turns; lia. }
  3: { intros s e _ Hb. unfold run_port, dns_probe_port. rewrite Hb. done. }
  2: { intros Hsil. unfold outcome. rewrite dns_probe_reads. cbn [po_reachable po_signals].
       apply silent_ports. intros p Hp. unfold per_port in Hp. rewrite <-list_fmap_compose in Hp.
       apply list_elem_of_fmap in Hp as (s & -> & Hs). apply silent_port. intros. by apply Hsil. }
  intros s Hs Hb. unfold run_port. rewrite Hb, dns_port_reads. eexists. split; [done|]. cbn [snd].
  split_and!; [apply name_results_end|by apply name_results_names|
    intros i name Hi Hsil; by eapply names_end_silent; [apply name_results_end|..]| |apply name_results_time; [by intros; apply Htimely|done]..].
  intros i name j r Hi Hd Hj Hlt.
  assert ((name, Some r) ∈ (name_results (ds_net s) timeout retries 0 names (ds_start s)).1) as Hin
    by (eapply name_results_answered; [done|by rewrite Nat.add_0_l|done..]).
  split; [done|]. intros Hresp. unfold outcome. rewrite dns_probe_reads. cbn [po_reachable].
  apply (existsb_elem _ _ (run_port timeout retries names s).1).
  { unfold per_port. rewrite <-list_fmap_compose. by apply (list_elem_of_fmap_2 (λ s, (run_port timeout retries names s).1)). }
  unfold run_port. rewrite Hb, dns_port_reads. cbn [fst port_of_results dp_reachable].
  by apply (existsb_elem _ _ (name, Some r)).
Qed.

End lookups.

(** ** Banners *)

(** The banner of a stream: its first line, within the bytes that are read. *)
Definition banner_of (stream : Bytes) : option Str :=
  end_ ← find_line_terminator (take BANNER_MAX_BYTES stream); banner_line stream end_.

(** What stops the reading: a stall, an error, the end of the stream. *)
Definition stops (reads : list (Result unit Bytes)) : Prop :=
  match reads with [] => True | Err _ :: _ => True | Ok b :: _ => b = [] end.

Lemma find_terminator_shift i bytes :
  find_terminator_from i bytes = (λ e, (i + e)%nat) <$> find_terminator_from 0 bytes.
Proof.
  revert i. induction bytes as [|b bytes IH]; intros i; [done|]. cbn [find_terminator_from].
  case_match; [cbn; f_equal; lia|]. rewrite (IH (S i)), (IH 1%nat).
  destruct (find_terminator_from 0 bytes); [|done]. cbn. f_equal. lia.
Qed.

Lemma find_line_terminator_spec bytes e :
  find_line_terminator bytes = Some e ↔ ∃ rest, bytes = take e bytes ++ 10 :: rest ∧ 10 ∉ take e bytes.
Proof.
  unfold find_line_terminator. revert e. induction bytes as [|b bytes IH]; intros e.
  { split; [done|]. intros (rest & H & _). by destruct e. }
  cbn [find_terminator_from]. destruct (Z.eqb_spec b 10) as [->|Hb].
  - split; [intros [= <-]; exists bytes; cbn; set_solver|]. intros (rest & H & Hn). destruct e; [done|]. cbn in Hn. set_solver.
  - rewrite find_terminator_shift. destruct e as [|e].
    { split; [destruct (find_terminator_from 0 bytes); cbn; intros; simplify_eq|].
      intros (rest & H & _). cbn in H. by simplify_eq. }
    specialize (IH e). destruct (find_terminator_from 0 bytes) as [e'|] eqn:He; cbn.
    + split.
      * intros [= <-]. destruct IH as [IH _]. destruct (IH eq_refl) as (rest & Hr & Hn). exists rest.
        split; [by f_equal|]. set_solver.
      * intros (rest & Hr & Hn). f_equal. simplify_eq. destruct IH as [_ IH].
        rewrite not_elem_of_cons in Hn. assert (Some e' = Some e) as [= ->]; [|done]. apply IH. naive_solver.
    + split; [done|]. intros (rest & Hr & Hn). destruct IH as [_ IH]. simplify_eq.
      rewrite not_elem_of_cons in Hn. exfalso. assert (None = Some e) as ?; [|done]. apply IH. naive_solver.
Qed.

Lemma find_line_terminator_app a b e : find_line_terminator a = Some e → find_line_terminator (a ++ b) = Some e.
Proof.
  rewrite !find_line_terminator_spec. intros (rest & Ha & Hn).
  assert (e < length a)%nat as He.
  { assert (length a = length (take e a ++ 10 :: rest)) as Hl by congruence.
    rewrite length_app, length_take in Hl. cbn in Hl. lia. }
  exists (rest ++ b). rewrite take_app_le by lia. split; [|done]. rewrite Ha at 1. by rewrite <-app_assoc.
Qed.

Lemma find_line_terminator_lt a e : find_line_terminator a = Some e → (e < length a)%nat.
Proof.
  rewrite find_line_terminator_spec. intros (rest & Ha & _).
  assert (length a = length (take e a ++ 10 :: rest)) as Hl by congruence.
  rewrite length_app, length_take in Hl. cbn in Hl. lia.
Qed.

Lemma read_banner_full reads buf : (BANNER_MAX_BYTES ≤ length buf)%nat → read_banner reads buf = None.
Proof.
  intros H. destruct reads; cbn [read_banner]; by destruct (Nat.ltb_spec (length buf) BANNER_MAX_BYTES); [lia|].
Qed.

(** Reading on from [buf] gives the banner of [buf] and what the chunks bring. *)
Lemma read_banner_chunks chunks rest buf :
  Forall (λ c, c ≠ []) chunks → stops rest → (length buf ≤ BANNER_MAX_BYTES)%nat →
  find_line_terminator buf = None →
  read_banner ((Ok <$> chunks) ++ rest) buf = banner_of (buf ++ mjoin chunks).
Proof.
  intros Hc Hs. revert buf. induction Hc as [|c chunks Hne _ IH]; intros buf Hl Hn.
  - cbn [fmap list_fmap app mjoin list_join]. rewrite app_nil_r. unfold banner_of.
    rewrite take_ge by done. rewrite Hn. cbn [mbind option_bind].
    destruct rest as [|[b|] rest]; cbn [read_banner stops] in *; subst; rewrite ?take_nil; by case_match.
  - change (mjoin (c :: chunks)) with (c ++ mjoin chunks). cbn [fmap list_fmap app read_banner].
    destruct (Nat.ltb_spec (length buf) BANNER_MAX_BYTES).
    2: { unfold banner_of. rewrite take_app_le, take_ge by lia. by rewrite Hn. }
    set (got := take _ c). assert (buf ++ got = take BANNER_MAX_BYTES (buf ++ c)) as Hgot.
    { rewrite take_app, take_ge by lia. done. }
    destruct (is_empty got) eqn:Hemp.
    { exfalso. unfold got in Hemp. destruct c; [done|].
      destruct (BANNER_MAX_BYTES - length buf)%nat eqn:?; [lia|done]. }
    assert (take BANNER_MAX_BYTES (buf ++ c ++ mjoin chunks) = (buf ++ got) ++
              take (BANNER_MAX_BYTES - length (buf ++ c)) (mjoin chunks)) as Htake.
    { rewrite app_assoc, (take_app (buf ++ c)), Hgot. done. }
    destruct (find_line_terminator (buf ++ got)) as [e|] eqn:He.
    + unfold banner_of. rewrite Htake, (find_line_terminator_app _ _ _ He). cbn [mbind option_bind].
      unfold banner_line. apply find_line_terminator_lt in He.
      replace (take e (buf ++ c ++ mjoin chunks)) with (take e (buf ++ got)); [done|].
      rewrite Hgot, take_take, app_assoc, (take_app (buf ++ c)).
      rewrite Hgot, length_take in He.
      rewrite (proj2 (Nat.sub_0_le e (length (buf ++ c)))) by lia. rewrite take_0, app_nil_r. f_equal. lia.
    + destruct (Nat.le_gt_cases (length (buf ++ c)) BANNER_MAX_BYTES) as [Hle|Hgt].
      * rewrite Hgot, take_ge in He |- * by done.
        assert (got = c) as Hgc by (apply (app_inv_head buf); by rewrite Hgot, take_ge).
        rewrite Hgc in *. rewrite IH by done. by rewrite <-app_assoc.
      * unfold banner_of. rewrite Htake. replace (BANNER_MAX_BYTES - length (buf ++ c))%nat with 0%nat by lia.
        rewrite take_0, app_nil_r, He. cbn [mbind option_bind].
        apply read_banner_full. rewrite Hgot, length_take. lia.
Qed.

Lemma banner_of_Some stream line :
  banner_of stream = Some line ↔
  ∃ raw rest text, stream = raw ++ 10 :: rest ∧ (10 ∉ raw) ∧ (length raw < BANNER_MAX_BYTES)%nat ∧
    from_utf8 raw = Some text ∧ line = trim_end_matches 13 text ∧ (s! "SSH-") `prefix_of` line.
Proof.
  unfold banner_of. rewrite bind_Some. split.
  - intros (e & He & Hb). pose proof (find_line_terminator_lt _ _ He) as Hlt. rewrite length_take in Hlt.
    apply find_line_terminator_spec in He as (rest & Hs & Hn).
    rewrite take_take, Nat.min_l in Hs, Hn by lia.
    unfold banner_line in Hb. apply bind_Some in Hb as (text & Ht & Hb). cbv zeta in Hb.
    destruct (strip_prefix _ _) as [r|] eqn:Hp in Hb; [|done]. injection Hb as <-.
    apply strip_prefix_Some in Hp.
    exists (take e stream), (rest ++ drop BANNER_MAX_BYTES stream), text. split_and!; [|done| |done|done|by exists r].
    + rewrite <-(take_drop BANNER_MAX_BYTES stream) at 1. rewrite Hs. by rewrite <-app_assoc.
    + rewrite length_take. lia.
  - intros (raw & rest & text & -> & Hn & Hl & Ht & -> & [r Hp]). exists (length raw). split.
    + rewrite take_app, take_ge by lia.
      rewrite (find_line_terminator_spec _ (length raw)).
      destruct (BANNER_MAX_BYTES - length raw)%nat as [|m] eqn:Hm; [lia|]. cbn [take].
      exists (take m rest). by rewrite take_app_length.
    + unfold banner_line. rewrite take_app_length, Ht. cbn [mbind option_bind].
      apply strip_prefix_Some in Hp. by rewrite Hp.
Qed.

(** ** Sessions *)

Lemma session_fold_parts ps signals fault :
  foldl session_fold (signals, fault) ps =
  (signals ++ (ps ≫= fst), foldl (λ old p, latch_fault old p.2) fault ps).
Proof.
  revert signals fault. induction ps as [|p ps IH]; intros signals fault; [cbn; by rewrite app_nil_r|].
  cbn [foldl mbind list_bind]. unfold session_fold at 2. rewrite IH. cbn [fst snd]. by rewrite <-app_assoc.
Qed.

Lemma session_probe_reads kind ip ts ps :
  session_probe kind ip ts ps =
  mkProbeOutcome kind ip ts (existsb (λ p, negb (is_empty p.1)) ps) (ps ≫= fst)
    (if existsb (λ p, negb (is_empty p.1)) ps then None else last (omap snd ps)) None None.
Proof.
  unfold session_probe. rewrite session_fold_parts, latch_fault_last. unfold session_build_outcome, surfaced_fault.
  cbn [app]. assert (negb (is_empty (ps ≫= fst)) = existsb (λ p, negb (is_empty p.1)) ps) as ->.
  { induction ps as [|[[|x l] f] ps IH]; [done|..]; cbn [existsb mbind list_bind fst]; [exact IH|done]. }
  unfold latch_fault. by destruct (last _).
Qed.

(** A probe whose ports each give signals exactly when they were connected. *)
Lemma session_scripts {S} kind ip ts (run : S → list Signal * option ProbeFault)
    (signals : S → list Signal) (fault : S → option ProbeFault) (connected : S → bool) (scripts : list S) :
  Forall (λ s, run s = (signals s, fault s)) scripts → (∀ s, is_empty (signals s) = negb (connected s)) →
  session_probe kind ip ts (run <$> scripts) =
  mkProbeOutcome kind ip ts (existsb connected scripts) (scripts ≫= signals)
    (if existsb connected scripts then None else last (omap fault scripts)) None None.
Proof.
  intros Hr Hc. rewrite session_probe_reads.
  assert (existsb (λ p, negb (is_empty p.1)) (run <$> scripts) = existsb connected scripts ∧
          (run <$> scripts) ≫= fst = scripts ≫= signals ∧
          omap snd (run <$> scripts) = omap fault scripts) as (-> & -> & ->); [|done].
  induction Hr as [|s scripts Hs _ (IH1 & IH2 & IH3)]; [done|]. rewrite fmap_cons.
  cbn [existsb mbind list_bind omap list_omap]. rewrite Hs. cbn [fst snd]. rewrite Hc, negb_involutive.
  split_and!; [by rewrite IH1|by f_equal|]. destruct (fault s); [f_equal|]; exact IH3.
Qed.

Section ssh.
Context `{IE : IoErrors}.

Definition is_stream (c : Connect) : bool := match c with Connected => true | _ => false end.

Definition stream_fault (prober : Str) (port : Z) (c : Connect) : option ProbeFault :=
  match c with ConnectFailed err => session_connect_fault prober port err | _ => None end.

(** What one port of an SSH probe meets: the fragments of the banner and what follows them, whether
    they came in time, and what the handshake gave. *)
Record SshScript : Type := mkSshScript {
  ss_port : Z;
  ss_connect : Connect;
  ss_chunks : list Bytes;
  ss_rest : list (Result unit Bytes);
  ss_in_time : bool;
  ss_handshake : option (option (option Str));
}.

Definition ssh_run (s : SshScript) : list Signal * option ProbeFault :=
  ssh_port (ss_port s) (ss_connect s)
    (if ss_in_time s then Some (read_banner_from_stream ((Ok <$> ss_chunks s) ++ ss_rest s)) else None)
    (read_host_key <$> ss_handshake s).

Definition ssh_signals (s : SshScript) : list Signal :=
  if is_stream (ss_connect s) then
    OpenPort (ss_port s) ::
    opt_signal SshBanner (if ss_in_time s then banner_of (mjoin (ss_chunks s)) else None) ++
    opt_signal SshHostKey (mjoin (mjoin (ss_handshake s)))
  else [].

Lemma ssh_run_reads s :
  Forall (λ c, c ≠ []) (ss_chunks s) → stops (ss_rest s) →
  ssh_run s = (ssh_signals s, stream_fault (s! "ssh") (ss_port s) (ss_connect s)).
Proof.
  intros Hc Hs. unfold ssh_run, ssh_signals, ssh_port, session_fold_connect, stream_fault, is_stream.
  destruct (ss_connect s); [|done..]. unfold read_banner_from_stream. rewrite read_banner_chunks by (done || cbn; lia).
  f_equal. cbn [app]. f_equal. f_equal.
  - destruct (ss_in_time s); [|done]. by destruct (banner_of _).
  - by destruct (ss_handshake s) as [[[k|]|]|].
Qed.

(** C24. An SSH probe reports, for every port that accepted a connection, the open port, the banner and the
    host key, and does not depend on how the banner was split on its way: the banner is the first line of the bytes,
    if it ends within the first 256, is UTF-8 and begins as SSH banners do, without its carriage returns.
    It is reachable exactly when a port accepted, and the last connection fault is reported otherwise. *)
Theorem ssh_banner_unsplit (ip : IpAddr) (ts : SystemTime) (scripts : list SshScript) :
  Forall (λ s, Forall (λ c, c ≠ []) (ss_chunks s) ∧ stops (ss_rest s)) scripts →
  let reachable := existsb (λ s, is_stream (ss_connect s)) scripts in
  session_probe Ssh ip ts (ssh_run <$> scripts) =
    mkProbeOutcome Ssh ip ts reachable (scripts ≫= ssh_signals)
      (if reachable then None
       else last (omap (λ s, stream_fault (s! "ssh") (ss_port s) (ss_connect s)) scripts)) None None ∧
  (∀ s line, ss_in_time s →
     SshBanner line ∈ ssh_signals s ↔
     ss_connect s = Connected ∧
     ∃ raw rest text, mjoin (ss_chunks s) = raw ++ 10 :: rest ∧ (10 ∉ raw) ∧
       (length raw < BANNER_MAX_BYTES)%nat ∧ from_utf8 raw = Some text ∧
       line = trim_end_matches 13 text ∧ (s! "SSH-") `prefix_of` line).
Proof.
  intros Hs reachable. split.
  - apply session_scripts.
    + eapply Forall_impl; [exact Hs|]. intros s [??]. by apply ssh_run_reads.
    + intros s. unfold ssh_signals. by destruct (is_stream (ss_connect s)).
  - intros s line Hin. unfold ssh_signals. rewrite <-banner_of_Some.
    destruct (ss_in_time s); [|done]. unfold is_stream. destruct (ss_connect s); [|set_solver..].
    rewrite elem_of_cons, elem_of_app. unfold opt_signal.
    destruct (banner_of _), (mjoin (mjoin (ss_handshake s))); set_solver.
Qed.

(** ** HTTP *)

Lemma floor_char_prefix_fits budget s :
  0 ≤ budget → str_len (floor_char_prefix budget s) ≤ budget ∧ floor_char_prefix budget s `prefix_of` s.
Proof using Type.
  revert budget. induction s as [|c s IH]; intros budget Hb; [by split|]. cbn [floor_char_prefix].
  destruct (Z.leb_spec (byte_len (utf8_char c)) budget).
  - destruct (IH (budget - byte_len (utf8_char c))) as [Hl Hp]; [lia|]. split; [|by apply prefix_cons].
    unfold str_len, as_bytes in *. rewrite fmap_cons, mjoin_cons, byte_len_app. lia.
  - split; [done|apply prefix_nil].
Qed.

(** Whether what a port gave shows that something answers there: a response, or an error of the TLS library. *)
Definition http_answers (r : option (Result RequestError (option Str))) : bool :=
  match r with
  | Some (Ok _) => true
  | Some (Err err) => rustls_error_in_chain (re_error err)
  | None => false
  end.

Section http.
Context (scheme : HttpScheme) (path : Str) (ip : IpAddr) (net : Str → option (Result RequestError (option Str))).

Definition http_reply (port : Z) : option (Result RequestError (option Str)) := net (http_url scheme path ip port).

Lemma http_port_answers port :
  is_empty (http_port scheme path ip net port).1 = negb (http_answers (http_reply port)).
Proof using Type.
  unfold http_port, http_reply, http_answers.
  destruct (net _) as [[server|err]|]; [done|destruct (rustls_error_in_chain _); [done|]|done].
  by destruct (classify_request_error err).
Qed.

Lemma http_port_open port q :
  OpenPort port ∈ (http_port scheme path ip net q).1 ↔ port = q ∧ http_answers (http_reply q).
Proof using Type.
  unfold http_port, http_reply, http_answers. destruct (net _) as [[[server|]|err]|]; cbn [fst].
  - destruct (is_empty _); set_solver.
  - set_solver.
  - destruct (rustls_error_in_chain _); [set_solver|]. destruct (classify_request_error err); set_solver.
  - set_solver.
Qed.

Lemma http_port_banner banner q :
  HttpBanner banner ∈ (http_port scheme path ip net q).1 →
  banner ≠ [] ∧ str_len banner ≤ HTTP_BANNER_MAX_BYTES ∧
  ∃ server, http_reply q = Some (Ok (Some server)) ∧ banner `prefix_of` trim server.
Proof using Type.
  unfold http_port, http_reply. destruct (net _) as [[[server|]|err]|]; cbn [fst]; [|set_solver| |set_solver].
  - destruct (is_empty (truncate_banner server)) eqn:He; [set_solver|].
    intros [|Hb%list_elem_of_singleton]%elem_of_cons; [done|]. injection Hb as ->.
    split; [by intros Hz; rewrite Hz in He|]. unfold truncate_banner. destruct (Z.leb_spec (str_len (trim server)) HTTP_BANNER_MAX_BYTES).
    + split; [done|]. by exists server.
    + destruct (floor_char_prefix_fits HTTP_BANNER_MAX_BYTES (trim server)) as [? ?]; [done|]. split; [done|]. by exists server.
  - destruct (rustls_error_in_chain _); [set_solver|]. destruct (classify_request_error err); set_solver.
Qed.

Lemma http_port_fault fault q :
  (http_port scheme path ip net q).2 = Some fault →
  ∃ err, http_reply q = Some (Err err) ∧ classify_request_error err = Fault (pf_kind fault).
Proof using Type.
  unfold http_port, http_reply. destruct (net _) as [[server|err]|]; [done| |done].
  destruct (rustls_error_in_chain _); [done|]. destruct (classify_request_error err) eqn:Hc; [done|].
  intros [= <-]. by exists err.
Qed.

(** An HTTP probe reports a port open exactly when it answered, also with a certificate or a protocol that TLS
    refuses; a banner is a prefix of the [Server] header of a response, of at most 256 bytes; a fault is an error that
    says neither that the host is absent nor that it answered, and is reported only when no port answered. *)
Lemma http_probe_reads ports ts :
  let o := http_probe ports scheme path ip ts net in
  po_reachable o = existsb (λ port, http_answers (http_reply port)) ports ∧
  (∀ port, OpenPort port ∈ po_signals o ↔ port ∈ ports ∧ http_answers (http_reply port)) ∧
  (∀ banner, HttpBanner banner ∈ po_signals o →
     banner ≠ [] ∧ str_len banner ≤ HTTP_BANNER_MAX_BYTES ∧
     ∃ port server, port ∈ ports ∧ http_reply port = Some (Ok (Some server)) ∧ banner `prefix_of` trim server) ∧
  (∀ fault, po_fault o = Some fault →
     Forall (λ port, http_answers (http_reply port) = false) ports ∧
     ∃ port err, port ∈ ports ∧ http_reply port = Some (Err err) ∧
       classify_request_error err = Fault (pf_kind fault)).
Proof using Type.
  intros o.
  assert (o = mkProbeOutcome Http ip ts (existsb (λ port, http_answers (http_reply port)) ports)
      (ports ≫= λ p, (http_port scheme path ip net p).1)
      (if existsb (λ port, http_answers (http_reply port)) ports then None
       else last (omap (λ p, (http_port scheme path ip net p).2) ports)) None None) as ->.
  { apply session_scripts; [|apply http_port_answers]. apply Forall_true. intros port. by destruct (http_port _ _ _ _ _). }
  cbn [po_reachable po_signals po_fault]. split_and!; [done|..].
  - intros port. rewrite list_elem_of_bind. setoid_rewrite http_port_open. naive_solver.
  - intros banner (q & (Hne & Hl & server & Hr & Hp)%http_port_banner & Hin)%list_elem_of_bind.
    split_and!; [done..|]. by exists q, server.
  - intros fault. destruct (existsb _ ports) eqn:He; [done|]. intros Hl%last_Some_elem_of. split.
    + apply Forall_forall. intros q Hq. destruct (http_answers (http_reply q)) eqn:Ha; [|done].
      assert (existsb (λ port, http_answers (http_reply port)) ports) as Hx; [|by rewrite He in Hx].
      apply (existsb_elem _ _ q); [done|]. by rewrite Ha.
    + apply list_elem_of_omap in Hl as (q & Hq & (err & Hr & Hc)%http_port_fault). by exists q, err.
Qed.
End http.

(** ** TLS *)

Context (parse_certificate : Bytes → option Certificate).

Record TlsScript : Type := mkTlsScript {
  tl_port : Z;
  tl_connect : Connect;
  tl_handshake : option (option TlsSession);
}.

Definition tls_run (s : TlsScript) : list Signal * option ProbeFault :=
  tls_port parse_certificate (tl_port s) (tl_connect s) (tl_handshake s).

Definition tls_signals (s : TlsScript) : list Signal :=
  if is_stream (tl_connect s) then
    OpenPort (tl_port s) :: handshake_and_extract parse_certificate (mjoin (tl_handshake s))
  else [].

(** A TLS probe reports every open port and what a completed handshake showed, and nothing but the port when
    the handshake failed or took too long. *)
Lemma tls_probe_reads ip ts scripts :
  let reachable := existsb (λ s, is_stream (tl_connect s)) scripts in
  session_probe Tls ip ts (tls_run <$> scripts) =
    mkProbeOutcome Tls ip ts reachable (scripts ≫= tls_signals)
      (if reachable then None
       else last (omap (λ s, stream_fault (s! "tls") (tl_port s) (tl_connect s)) scripts)) None None.
Proof.
  apply session_scripts.
  - apply Forall_true. intros s. unfold tls_run, tls_signals, tls_port, session_fold_connect, stream_fault, is_stream.
    destruct (tl_connect s); [|done..]. by destruct (tl_handshake s).
  - intros s. unfold tls_signals. by destruct (is_stream (tl_connect s)).
Qed.

(** An address of a certificate is the address its bytes are. *)
Lemma san_address_round_trip ip : ip_wf ip →
  san_entry (IpName (match ip with V4 a => to_be_bytes 4 a | V6 a => to_be_bytes 16 a end)) =
  Some (s! "ip:" ++ ip_display ip).
Proof using Type.
  destruct ip as [a|a]; intros Hwf; cbn [san_entry]; unfold ip_from_bytes; rewrite to_be_bytes_length;
    cbn [Nat.eqb]; rewrite from_to_be_bytes by (unfold ip_wf, U32_MAX, U128_MAX in Hwf; cbn; lia); done.
Qed.
End ssh.

(** ** Samples *)

#[local] Existing Instance sample_errors.
#[local] Existing Instance plain_io.

(** A server that drops the first query of a name and answers the second. *)
Definition second_answer : nat → nat → Lookup := λ k i now deadline,
  if bool_decide (i = 0%nat) then (None, deadline) else (Some (Ok [RdA 167772161; RdOther]), now).

Definition sample_dns : list DnsScript :=
  [mkDnsScript 53 None second_answer 0; mkDnsScript 5353 (Some (s! "no runtime")) second_answer 0].

Lemma second_answer_timely k : timely (second_answer k).
Proof. intros i now deadline H. unfold second_answer. case_bool_decide; cbn; lia. Qed.

Lemma dns_probe_retransmits_witness :
  po_signals (dns_probe (V4 1) 0 ((run_port 2000000000 1 [s! "gw.example"] <$> sample_dns).*1)) =
    [DnsHost (s! "gw.example -> 10.0.0.1")] ∧
  po_reachable (dns_probe (V4 1) 0 ((run_port 2000000000 1 [s! "gw.example"] <$> sample_dns).*1)).
Proof.
  destruct (dns_probe_retransmits (V4 1) 0 2000000000 1 [s! "gw.example"] sample_dns) as (-> & H & _).
  - lia.
  - lia.
  - intros s k Hs. unfold sample_dns in Hs. rewrite !elem_of_cons, elem_of_nil in Hs.
    destruct Hs as [->|[->|[]]]; apply second_answer_timely.
  - split; by vm_compute.
Defined.

(** Two names that are never answered keep a port busy for twice the timeout of the probe. *)
Example names_restart_deadline :
  (run_port 2000000000 1 [s! "a"; s! "b"] (mkDnsScript 53 None (λ _ _ _ deadline, (None, deadline)) 0)).2 = 4000000000.
Proof. by vm_compute. Qed.

Definition sample_ssh : list SshScript :=
  [mkSshScript 22 Connected [as_bytes (s! "SSH-2"); as_bytes (s! ".0-x") ++ [13; 10; 7]] [Err tt] true None;
   mkSshScript 2222 ConnectElapsed [] [] true None].

Lemma ssh_banner_unsplit_witness :
  po_signals (session_probe Ssh (V4 1) 0 (ssh_run <$> sample_ssh)) = [OpenPort 22; SshBanner (s! "SSH-2.0-x")].
Proof.
  destruct (ssh_banner_unsplit (V4 1) 0 sample_ssh) as [-> _].
  - repeat constructor; done.
  - by vm_compute.
Defined.
