(* ===== verification/Usm.v ===== *)
(** * Keys and ciphers of SNMPv3: [prober/snmp/crypto.rs]

    Password localisation, key derivation, truncated authentication codes and
    the privacy ciphers. The hash functions, HMAC and the block-cipher modes are
    other crates: [CryptoLib] stands for them. An index out of range or a failed
    [expect] is [None]. *)

From S2P Require Import Prelude Net Model Sink Codec GnmiPath SinkConfig ProberConfig.

#[global] Instance AuthAlgo_eq_dec : EqDecision AuthAlgo.
Proof. solve_decision. Defined.
#[global] Instance PrivAlgo_eq_dec : EqDecision PrivAlgo.
Proof. solve_decision. Defined.

Class CryptoLib := {
  (** the digest of all the bytes a hasher was fed *)
  digest : AuthAlgo → Bytes → Bytes;
  hmac : AuthAlgo → Bytes → Bytes → Bytes;
  (** CBC over whole blocks, CFB over any length: key, initial vector, data *)
  des_cbc_enc : Bytes → Bytes → Bytes → Bytes;
  des_cbc_dec : Bytes → Bytes → Bytes → option Bytes;
  aes_cfb_enc : PrivAlgo → Bytes → Bytes → Bytes → Bytes;
  aes_cfb_dec : PrivAlgo → Bytes → Bytes → Bytes → Bytes;
}.

(** What those crates document. *)
Class CryptoLaws (L : CryptoLib) : Prop := {
  digest_length a bs : length (digest a bs) = auth_key_len a;
  hmac_length a key bs : length (hmac a key bs) = auth_key_len a;
  des_cbc_inverse key iv bs : (length bs mod 8)%nat = 0%nat → des_cbc_dec key iv (des_cbc_enc key iv bs) = Some bs;
  des_cbc_length key iv bs : length (des_cbc_enc key iv bs) = length bs;
  aes_cfb_inverse a key iv bs : aes_cfb_dec a key iv (aes_cfb_enc a key iv bs) = bs;
}.

(** ** Keys *)

Definition PASSWORD_EXPANSION_BYTES : nat := Z.to_nat 1048576.

(** The inner loop: [take] bytes of the password from [idx], round and round. *)
Fixpoint fill_chunk (take : nat) (pw : Bytes) (idx : nat) : option (Bytes * nat) :=
  match take with
  | O => Some ([], idx)
  | S take' =>
      b ← pw !! idx;
      '(chunk, idx') ← fill_chunk take' pw ((idx + 1) mod length pw)%nat;
      Some (b :: chunk, idx')
  end.

(** The loop that feeds the hasher; [hasher] is what it has been fed. A round feeds a byte
    at least. *)
Fixpoint expand_password (fuel total : nat) (pw hasher : Bytes) (fed idx : nat) : option Bytes :=
  match fuel with
  | O => None
  | S fuel' =>
      if (fed <? total)%nat then
        let take := Nat.min 64 (total - fed)%nat in
        '(chunk, idx') ← fill_chunk take pw idx;
        expand_password fuel' total pw (hasher ++ chunk) (fed + take)%nat idx'
      else Some hasher
  end.

Section keys.
Context `{CryptoLib}.

Definition localize (algo : AuthAlgo) (password : Str) (engine_id : Bytes) : option Bytes :=
  let pw := as_bytes password in
  if is_empty pw then
    let empty := digest algo [] in Some (digest algo (empty ++ engine_id ++ empty))
  else
    fed ← expand_password (S PASSWORD_EXPANSION_BYTES) PASSWORD_EXPANSION_BYTES pw [] 0 0;
    let d := digest algo fed in
    Some (digest algo (d ++ engine_id ++ d)).

Definition localize_key (password : Str) (engine_id : Bytes) (algo : AuthAlgo) : option Bytes :=
  localize algo password engine_id.

Definition hash_localized (d engine_id : Bytes) (algo : AuthAlgo) : Bytes :=
  digest algo (d ++ engine_id ++ d).

Definition localize_key_from_key (prev_key : Bytes) (password : Str) (engine_id : Bytes)
    (algo : AuthAlgo) : Bytes :=
  let temp := digest algo (prev_key ++ as_bytes password) in
  hash_localized temp engine_id algo.

(** The loop that lengthens a short key; a digest has a byte at least. *)
Fixpoint extend_key (fuel needed : nat) (password : Str) (engine_id : Bytes) (algo : AuthAlgo)
    (key : Bytes) : option Bytes :=
  match fuel with
  | O => None
  | S fuel' =>
      if (length key <? needed)%nat
      then extend_key fuel' needed password engine_id algo
             (key ++ localize_key_from_key key password engine_id algo)
      else Some key
  end.

Definition derive_priv_key (priv_password : Str) (engine_id : Bytes) (auth_algo : AuthAlgo)
    (priv_algo : PrivAlgo) : option Bytes :=
  let needed := priv_key_len priv_algo in
  key ← localize_key priv_password engine_id auth_algo;
  key ← extend_key (S needed) needed priv_password engine_id auth_algo key;
  Some (take needed key).

(** ** Authentication codes *)

Definition hmac_truncated (algo : AuthAlgo) (key message : Bytes) : option Bytes :=
  byte_slice (hmac algo key message) 0 (Z.of_nat (hmac_trunc_len algo)).

Definition ct_eq (a b : Bytes) : bool :=
  if negb (length a =? length b)%nat then false
  else foldl (λ diff '(x, y), Z.lor diff (Z.lxor x y)) 0 (zip a b) =? 0.

(** ** Privacy *)

Inductive CryptoError : Type :=
  | DesKeyTooShort (have : nat)
  | AesKeyTooShort (have need : nat)
  | IvOutOfRange
  | DesDecrypt.

Definition crypto_error_display (e : CryptoError) : Str :=
  match e with
  | DesKeyTooShort n =>
      s! "des key derivation failed: priv-localized key too short (" ++ fmt_dec (Z.of_nat n) ++ s! " < 16)"
  | AesKeyTooShort have need =>
      s! "aes key derivation failed: priv-localized key too short (" ++ fmt_dec (Z.of_nat have) ++
      s! " < " ++ fmt_dec (Z.of_nat need) ++ s! ")"
  | IvOutOfRange => s! "aes iv construction failed: engine boots/time out of range"
  | DesDecrypt => s! "des decryption failed"
  end.

Record EncryptedPdu : Type := mkEncryptedPdu {
  ep_ciphertext : Bytes;
  ep_privacy_parameters : Bytes;
}.

Definition xor8 (a b : Bytes) : Bytes := zip_with Z.lxor a b.

Definition aes_iv (engine_boots engine_time : Z) (salt : Bytes) : Bytes :=
  to_be_bytes 4 engine_boots ++ to_be_bytes 4 engine_time ++ salt.

Definition des_cbc_encrypt (key iv plaintext : Bytes) : Bytes :=
  let rem := (length plaintext mod 8)%nat in
  let padded := if (rem =? 0)%nat then plaintext else plaintext ++ replicate (8 - rem) 0 in
  des_cbc_enc key iv padded.

Definition des_cbc_decrypt (key iv ciphertext : Bytes) : option Bytes :=
  if is_empty ciphertext || negb (length ciphertext mod 8 =? 0)%nat then None
  else des_cbc_dec key iv ciphertext.

(** [new_from_slices(..).expect(..)]: the key and the vector must have the cipher's lengths. *)
Definition aes_cfb_encrypt (algo : PrivAlgo) (key iv plaintext : Bytes) : option Bytes :=
  if bool_decide (algo ≠ Des) && (length key =? priv_key_len algo)%nat && (length iv =? 16)%nat
  then Some (aes_cfb_enc algo key iv plaintext) else None.

Definition aes_cfb_decrypt (algo : PrivAlgo) (key iv ciphertext : Bytes) : option Bytes :=
  if bool_decide (algo ≠ Des) && (length key =? priv_key_len algo)%nat && (length iv =? 16)%nat
  then Some (aes_cfb_dec algo key iv ciphertext) else None.

Definition encrypt_scoped_pdu (algo : PrivAlgo) (priv_key : Bytes) (engine_boots engine_time : Z)
    (salt plaintext : Bytes) : option (Result CryptoError EncryptedPdu) :=
  match algo with
  | Des =>
      if (length priv_key <? 16)%nat then Some (Err (DesKeyTooShort (length priv_key)))
      else
        enc_key ← byte_slice priv_key 0 8;
        pre_iv ← byte_slice priv_key 8 16;
        Some (Ok (mkEncryptedPdu (des_cbc_encrypt enc_key (xor8 pre_iv salt) plaintext) salt))
  | Aes128 | Aes192 | Aes256 =>
      let need := priv_key_len algo in
      if (length priv_key <? need)%nat then Some (Err (AesKeyTooShort (length priv_key) need))
      else
        key ← byte_slice priv_key 0 (Z.of_nat need);
        ciphertext ← aes_cfb_encrypt algo key (aes_iv engine_boots engine_time salt) plaintext;
        Some (Ok (mkEncryptedPdu ciphertext salt))
  end.

Definition decrypt_scoped_pdu (algo : PrivAlgo) (priv_key : Bytes) (engine_boots engine_time : Z)
    (privacy_parameters ciphertext : Bytes) : option (Result CryptoError Bytes) :=
  match algo with
  | Des =>
      if (length priv_key <? 16)%nat then Some (Err (DesKeyTooShort (length priv_key)))
      else if negb (length privacy_parameters =? 8)%nat then Some (Err DesDecrypt)
      else
        enc_key ← byte_slice priv_key 0 8;
        pre_iv ← byte_slice priv_key 8 16;
        Some (ok_or (des_cbc_decrypt enc_key (xor8 pre_iv privacy_parameters) ciphertext) DesDecrypt)
  | Aes128 | Aes192 | Aes256 =>
      let need := priv_key_len algo in
      if (length priv_key <? need)%nat then Some (Err (AesKeyTooShort (length priv_key) need))
      else if negb (length privacy_parameters =? 8)%nat then Some (Err DesDecrypt)
      else
        key ← byte_slice priv_key 0 (Z.of_nat need);
        plaintext ← aes_cfb_decrypt algo key (aes_iv engine_boots engine_time privacy_parameters) ciphertext;
        Some (Ok plaintext)
  end.

End keys.

(** * Keys and ciphers of SNMPv3 do what the RFCs say

    The chunked loop hashes the password repeated to a mebibyte, every key has
    its algorithm's length, the comparison of codes is equality, and what one
    side encrypts the other decrypts. *)

(** ** Localisation *)

(** The first [n] bytes of a text repeated for ever, from position [idx]. *)
Definition repeated (pw : Bytes) (idx n : nat) : Bytes :=
  (λ i, nth ((idx + i) mod length pw) pw 0) <$> seq 0 n.

Lemma repeated_S pw idx n : (idx < length pw)%nat →
  repeated pw idx (S n) = nth idx pw 0 :: repeated pw ((idx + 1) mod length pw)%nat n.
Proof.
  intros Hi. unfold repeated. cbn [seq]. rewrite fmap_cons, Nat.add_0_r, Nat.mod_small by done.
  f_equal. rewrite <-fmap_S_seq, <-list_fmap_compose. apply list_fmap_ext. intros j i _. simpl.
  f_equal. rewrite Nat.Div0.add_mod_idemp_l. f_equal. lia.
Qed.

Lemma repeated_app pw idx n m :
  repeated pw idx (n + m) = repeated pw idx n ++ repeated pw (idx + n)%nat m.
Proof.
  unfold repeated. rewrite seq_app, fmap_app. f_equal.
  replace (seq (0 + n) m) with (Nat.add n <$> seq 0 m) by (rewrite fmap_add_seq; f_equal; lia).
  rewrite <-list_fmap_compose.
  apply list_fmap_ext. intros j i _. simpl. do 2 f_equal. lia.
Qed.

Lemma repeated_mod pw idx n : (0 < length pw)%nat → repeated pw (idx mod length pw)%nat n = repeated pw idx n.
Proof.
  intros Hp. unfold repeated. apply list_fmap_ext. intros j i _. f_equal.
  by rewrite Nat.Div0.add_mod_idemp_l.
Qed.

Lemma fill_chunk_repeated n pw idx : (idx < length pw)%nat →
  fill_chunk n pw idx = Some (repeated pw idx n, ((idx + n) mod length pw)%nat).
Proof.
  revert idx. induction n as [|n IH]; intros idx Hi.
  { simpl. rewrite Nat.add_0_r, Nat.mod_small by done. done. }
  cbn [fill_chunk]. rewrite repeated_S by done.
  destruct (nth_lookup_or_length pw idx 0) as [->|]; [|lia]. cbn [mbind option_bind].
  rewrite IH by (apply Nat.mod_upper_bound; lia). cbn [mbind option_bind].
  do 2 f_equal. rewrite Nat.Div0.add_mod_idemp_l. f_equal. lia.
Qed.

Lemma expand_password_repeated fuel total pw hasher fed idx :
  (idx < length pw)%nat → (fed ≤ total)%nat → (total - fed < fuel)%nat →
  expand_password fuel total pw hasher fed idx = Some (hasher ++ repeated pw idx (total - fed)).
Proof.
  revert hasher fed idx. induction fuel as [|fuel IH]; intros hasher fed idx Hi Hf Hfuel; [lia|].
  cbn [expand_password]. destruct (Nat.ltb_spec fed total).
  - rewrite fill_chunk_repeated by done. cbn [mbind option_bind].
    set (n := Nat.min 64 (total - fed)). rewrite IH;
      [|apply Nat.mod_upper_bound; lia|lia|lia].
    rewrite repeated_mod, <-app_assoc, <-repeated_app by lia. do 3 f_equal. lia.
  - replace (total - fed)%nat with 0%nat by lia. by rewrite app_nil_r.
Qed.

Lemma as_bytes_nil_inv s : as_bytes s = [] → s = [].
Proof.
  destruct s as [|c s]; [done|]. change (as_bytes (c :: s)) with (utf8_char c ++ as_bytes s).
  unfold utf8_char. repeat case_match; done.
Qed.

Section keys.
Context `{CL : CryptoLib}.

Lemma localize_key_spec password engine_id algo : password ≠ [] →
  let fed := repeated (as_bytes password) 0 PASSWORD_EXPANSION_BYTES in
  localize_key password engine_id algo =
    Some (digest algo (digest algo fed ++ engine_id ++ digest algo fed)).
Proof.
  intros Hp. unfold localize_key, localize.
  destruct (as_bytes password) as [|b pw] eqn:E; [by apply as_bytes_nil_inv in E|].
  cbn [is_empty]. rewrite expand_password_repeated; [|simpl; lia|lia|lia].
  rewrite Nat.sub_0_r. done.
Qed.

Context {CW : CryptoLaws CL}.

Lemma localize_key_length password engine_id algo :
  ∃ key, localize_key password engine_id algo = Some key ∧ length key = auth_key_len algo.
Proof using CW.
  destruct (decide (password = [])) as [->|Hp].
  - eexists. split; [done|]. apply digest_length.
  - rewrite localize_key_spec by done. eexists. split; [done|]. apply digest_length.
Qed.

Lemma auth_key_len_pos algo : (16 ≤ auth_key_len algo)%nat.
Proof. destruct algo; simpl; lia. Qed.

Lemma extend_key_length fuel needed password engine_id algo key : (needed - length key < fuel)%nat →
  ∃ key', extend_key fuel needed password engine_id algo key = Some key' ∧ (needed ≤ length key')%nat ∧
    ∃ more, key' = key ++ more.
Proof using CW.
  revert key. induction fuel as [|fuel IH]; intros key Hf; [lia|]. cbn [extend_key].
  destruct (Nat.ltb_spec (length key) needed); [|by exists key; split_and!; [| |exists []; rewrite app_nil_r]].
  destruct (IH (key ++ localize_key_from_key key password engine_id algo)) as (key' & Hk & Hl & more & ->).
  { rewrite length_app. unfold localize_key_from_key, hash_localized. rewrite digest_length.
    pose proof (auth_key_len_pos algo). lia. }
  eexists. split_and!; [done|done|]. rewrite <-app_assoc. by eexists.
Qed.

Lemma derive_priv_key_length password engine_id auth priv :
  ∃ key, derive_priv_key password engine_id auth priv = Some key ∧ length key = priv_key_len priv.
Proof using CW.
  unfold derive_priv_key. destruct (localize_key_length password engine_id auth) as (k & -> & Hk).
  cbn [mbind option_bind].
  destruct (extend_key_length (S (priv_key_len priv)) (priv_key_len priv) password engine_id auth k)
    as (k' & -> & Hl & _); [lia|]. cbn [mbind option_bind]. eexists. split; [done|].
  rewrite length_take. lia.
Qed.

Lemma hmac_truncated_length algo key message :
  ∃ code, hmac_truncated algo key message = Some code ∧ length code = hmac_trunc_len algo.
Proof using CW.
  unfold hmac_truncated.
  assert (hmac_trunc_len algo ≤ auth_key_len algo)%nat by (destruct algo; simpl; lia).
  rewrite slice_ok by (unfold byte_len; rewrite ?hmac_length; lia). eexists. split; [done|].
  rewrite length_take, length_drop, hmac_length. lia.
Qed.

(** ** Comparing codes *)

Lemma lor_fold_zero (l : list (Z * Z)) d :
  foldl (λ diff '(x, y), Z.lor diff (Z.lxor x y)) d l = 0 ↔ d = 0 ∧ Forall (λ p, p.1 = p.2) l.
Proof.
  revert d. induction l as [|[x y] l IH]; intros d; simpl; [naive_solver|].
  rewrite IH, Z.lor_eq_0_iff, Z.lxor_eq_0_iff, Forall_cons. simpl. naive_solver.
Qed.

Lemma ct_eq_spec a b : ct_eq a b = true ↔ a = b.
Proof.
  unfold ct_eq. destruct (Nat.eqb_spec (length a) (length b)) as [Hl|Hl]; simpl;
    [|split; [done|intros ->; done]].
  rewrite Z.eqb_eq, lor_fold_zero. revert b Hl. induction a as [|x a IH]; intros [|y b] Hl; try done; simpl in *.
  rewrite Forall_cons. simpl. specialize (IH b ltac:(lia)). naive_solver.
Qed.

(** ** Encrypting and decrypting *)

Lemma des_round_trip key iv plaintext : plaintext ≠ [] →
  ∃ padding, des_cbc_decrypt key iv (des_cbc_encrypt key iv plaintext) = Some (plaintext ++ padding) ∧
    (length padding < 8)%nat ∧ Forall (λ b, b = 0) padding.
Proof using CW.
  intros Hp. unfold des_cbc_encrypt, des_cbc_decrypt. set (rem := (length plaintext mod 8)%nat).
  assert (rem < 8)%nat by (apply Nat.mod_upper_bound; lia).
  set (padded := if (rem =? 0)%nat then plaintext else plaintext ++ replicate (8 - rem) 0).
  assert (∃ padding, padded = plaintext ++ padding ∧ (length padding < 8)%nat ∧ Forall (λ b, b = 0) padding ∧
    (length padded mod 8)%nat = 0%nat) as (padding & Hpad & Hlen & Hz & Hmod).
  { unfold padded. destruct (Nat.eqb_spec rem 0) as [Hr|Hr].
    - exists []. rewrite app_nil_r. repeat split; [simpl; lia|constructor|done].
    - exists (replicate (8 - rem) 0). rewrite length_app, length_replicate. repeat split; [lia| |].
      + by apply Forall_replicate.
      + pose proof (Nat.div_mod_eq (length plaintext) 8) as Hd. fold rem in Hd.
        replace (length plaintext + (8 - rem))%nat with ((length plaintext / 8 + 1) * 8)%nat by lia.
        apply Nat.Div0.mod_mul. }
  exists padding. split; [|done].
  assert (des_cbc_enc key iv padded ≠ []) as Hne.
  { intros E. apply (f_equal length) in E. rewrite des_cbc_length, Hpad, length_app in E.
    destruct plaintext; simpl in *; [done|lia]. }
  destruct (des_cbc_enc key iv padded) as [|c cs] eqn:E; [done|]. rewrite <-E. cbn [is_empty].
  rewrite des_cbc_length, Hmod. destruct (is_empty _) eqn:E2; [rewrite E in E2; done|]. cbn [orb negb Nat.eqb].
  rewrite des_cbc_inverse by done. by rewrite Hpad.
Qed.

Lemma key_slice (key : Bytes) n m : (n ≤ m)%nat → (m ≤ length key)%nat →
  ∃ part, byte_slice key (Z.of_nat n) (Z.of_nat m) = Some part ∧ length part = (m - n)%nat.
Proof.
  intros Hn Hm. rewrite slice_ok by (unfold byte_len; lia). eexists. split; [done|].
  rewrite length_take, length_drop. lia.
Qed.

Lemma aes_iv_length boots time salt : length salt = 8%nat → length (aes_iv boots time salt) = 16%nat.
Proof. intros Hs. unfold aes_iv. rewrite !length_app, !to_be_bytes_length, Hs. done. Qed.

Lemma aes_round_trip algo key boots time salt plaintext :
  algo ≠ Des → length key = priv_key_len algo → length salt = 8%nat →
  ∃ ciphertext, encrypt_scoped_pdu algo key boots time salt plaintext = Some (Ok (mkEncryptedPdu ciphertext salt)) ∧
    decrypt_scoped_pdu algo key boots time salt ciphertext = Some (Ok plaintext).
Proof using CW.
  intros Ha Hk Hs. unfold encrypt_scoped_pdu, decrypt_scoped_pdu, aes_cfb_encrypt, aes_cfb_decrypt.
  rewrite Hs, Hk, Nat.ltb_irrefl, bool_decide_true by done.
  destruct (key_slice key 0 (priv_key_len algo)) as (part & Hpart & Hlen); [lia|lia|].
  change (Z.of_nat 0) with 0 in Hpart. rewrite Nat.sub_0_r in Hlen.
  destruct algo; [done|..]; rewrite Hpart; cbn [mbind option_bind negb Nat.eqb]; rewrite Hlen, aes_iv_length by done;
    cbn [andb Nat.eqb priv_key_len mbind option_bind]; eexists; (split; [done|]); by rewrite aes_cfb_inverse.
Qed.

Lemma des_pdu_round_trip key boots time salt plaintext :
  length key = 16%nat → length salt = 8%nat → plaintext ≠ [] →
  ∃ ciphertext padding, encrypt_scoped_pdu Des key boots time salt plaintext = Some (Ok (mkEncryptedPdu ciphertext salt)) ∧
    decrypt_scoped_pdu Des key boots time salt ciphertext = Some (Ok (plaintext ++ padding)) ∧
    (length padding < 8)%nat ∧ Forall (λ b, b = 0) padding.
Proof using CW.
  intros Hk Hs Hp. unfold encrypt_scoped_pdu, decrypt_scoped_pdu. rewrite Hk, Hs.
  destruct (key_slice key 0 8) as (enc & He & _); [lia|lia|].
  destruct (key_slice key 8 16) as (pre & Hpre & _); [lia|lia|].
  change (Z.of_nat 0) with 0 in He. change (Z.of_nat 8) with 8 in *. change (Z.of_nat 16) with 16 in *.
  rewrite He, Hpre. destruct (des_round_trip enc (xor8 pre salt) plaintext Hp) as (padding & Hd & Hl & Hz).
  cbn [Nat.ltb Nat.leb negb Nat.eqb mbind option_bind]. eexists _, padding. split_and!; [done| |done|done].
  by rewrite Hd.
Qed.

(** SNMPv3 keys and privacy. A key is localised from the password repeated to one mebibyte
    (RFC 3414, A.2), has its algorithm's length for every pair of algorithms, and a scoped PDU
    that one side encrypts under it with an eight-byte salt the other side decrypts with the
    parameters sent along: exactly under AES, followed by fewer than eight zero bytes of
    padding under DES. Codes compare equal exactly when they are. *)
Theorem usm_privacy_round_trip (auth : AuthAlgo) (priv : PrivAlgo) (password : Str) (engine_id : Bytes)
    (boots time : Z) (salt plaintext : Bytes) :
  password ≠ [] → length salt = 8%nat → plaintext ≠ [] →
  let fed := repeated (as_bytes password) 0 PASSWORD_EXPANSION_BYTES in
  localize_key password engine_id auth =
    Some (digest auth (digest auth fed ++ engine_id ++ digest auth fed)) ∧
  (∃ key enc padding, derive_priv_key password engine_id auth priv = Some key ∧
    length key = priv_key_len priv ∧
    encrypt_scoped_pdu priv key boots time salt plaintext = Some (Ok enc) ∧
    decrypt_scoped_pdu priv key boots time (ep_privacy_parameters enc) (ep_ciphertext enc) =
      Some (Ok (plaintext ++ padding)) ∧
    (length padding < 8)%nat ∧ Forall (λ b, b = 0) padding ∧ (priv ≠ Des → padding = [])) ∧
  (∀ a b, ct_eq a b = true ↔ a = b).
Proof using CW.
  intros Hpw Hs Hp fed. split_and!; [by apply localize_key_spec| |apply ct_eq_spec].
  destruct (derive_priv_key_length password engine_id auth priv) as (key & Hkey & Hlen).
  destruct (decide (priv = Des)) as [->|Hd].
  - destruct (des_pdu_round_trip key boots time salt plaintext Hlen Hs Hp) as (ct & padding & He & Hdec & Hl & Hz).
    eexists key, _, padding. split_and!; try done.
  - destruct (aes_round_trip priv key boots time salt plaintext Hd Hlen Hs) as (ct & He & Hdec).
    eexists key, _, []. rewrite app_nil_r. split_and!; try done. simpl; lia.
Qed.

End keys.

(** Crypto that hides nothing, for the witness: digests of zeros, ciphers that copy. *)
Definition plain_crypto : CryptoLib := {|
  digest a _ := replicate (auth_key_len a) 0;
  hmac a _ _ := replicate (auth_key_len a) 0;
  des_cbc_enc _ _ bs := bs; des_cbc_dec _ _ bs := Some bs;
  aes_cfb_enc _ _ _ bs := bs; aes_cfb_dec _ _ _ bs := bs;
|}.

Lemma plain_crypto_laws : CryptoLaws plain_crypto.
Proof. split; intros; simpl; try done; by rewrite length_replicate. Qed.

Lemma usm_privacy_round_trip_witness :
  ∃ key enc padding, derive_priv_key (s! "maplesyrup") [1; 2] Sha1 Aes256 (H := plain_crypto) = Some key ∧
    length key = 32%nat ∧
    encrypt_scoped_pdu (H := plain_crypto) Aes256 key 1 2 (replicate 8 7) [48; 0] = Some (Ok enc) ∧
    decrypt_scoped_pdu (H := plain_crypto) Aes256 key 1 2 (ep_privacy_parameters enc) (ep_ciphertext enc) =
      Some (Ok ([48; 0] ++ padding)) ∧
    (length padding < 8)%nat ∧ Forall (λ b, b = 0) padding ∧ (Aes256 ≠ Des → padding = []).
Proof.
  refine (proj1 (proj2 (usm_privacy_round_trip (CL := plain_crypto) (CW := plain_crypto_laws)
    Sha1 Aes256 (s! "maplesyrup") [1; 2] 1 2 (replicate 8 7) [48; 0] _ _ _))); done.
Defined.
