(* ===== verification/Snmp.v ===== *)
(** * SNMP requests: [prober/snmp/request.rs], [v1_v2c.rs], [v3.rs] and [mod.rs]

    Requests and responses, the exchange under a community, the discovery of a
    v3 engine and the authenticated exchange, and the SNMP prober. The BER codec
    of the message types is another crate: [BerLib] stands for it, and only the
    variants the code tells apart have a constructor. What the network and the
    clocks do during an exchange is a parameter. *)

From S2P Require Import Prelude Net F64 Model Sink Codec Ports SinkConfig GnmiPath ProberConfig Udp Usm.

Abbreviation Oid := (list Z).

(** ** Requests and responses: [request.rs] *)

Inductive RequestPdu : Type :=
  | Get (names : list Oid)
  | GetNext (names : list Oid)
  | GetBulk (non_repeaters max_repetitions : Z) (names : list Oid).

Definition pdu_names (pdu : RequestPdu) : list Oid :=
  match pdu with Get names | GetNext names | GetBulk _ _ names => names end.

Inductive VarValue : Type :=
  | VInt (i : Z)
  | VBytes (bytes : Bytes)
  | VOid (oid : Oid)
  | VOther
  | NoSuchObject
  | NoSuchInstance
  | EndOfMibView
  | VUnspecified.

Record VarBind : Type := mkVarBind { vb_name : Oid; vb_value : VarValue }.

Record SnmpResponse : Type := mkSnmpResponse { sr_error_status : Z; sr_var_binds : list VarBind }.

Inductive SnmpError : Type :=
  | SnmpAbsent
  | SnmpDecode
  | SnmpFault (kind : ProbeErrorKind) (msg : Str)
  | SnmpOther (msg : Str).

(** ** Messages: the types of [rasn_snmp] *)

Inductive V1Value : Type :=
  | V1Number (i : Z) | V1String (bytes : Bytes) | V1Object (oid : Oid) | V1Empty | V1Application.

Record V1Pdu : Type := mkV1Pdu {
  p1_request_id : Z; p1_error_status : Z; p1_error_index : Z; p1_bindings : list (Oid * V1Value);
}.

Inductive V1Pdus : Type :=
  | V1GetRequest (pdu : V1Pdu) | V1GetNextRequest (pdu : V1Pdu) | V1GetResponse (pdu : V1Pdu)
  | V1OtherPdu.

Record V1Message : Type := mkV1Message { m1_version : Z; m1_community : Bytes; m1_data : V1Pdus }.

Inductive V2Value : Type :=
  | V2Integer (i : Z) | V2String (bytes : Bytes) | V2ObjectId (oid : Oid) | V2Application
  | V2Unspecified | V2NoSuchObject | V2NoSuchInstance | V2EndOfMibView.

Record V2Pdu : Type := mkV2Pdu {
  p2_request_id : Z; p2_error_status : Z; p2_error_index : Z; p2_bindings : list (Oid * V2Value);
}.

Inductive V2Pdus : Type :=
  | V2GetRequest (pdu : V2Pdu) | V2GetNextRequest (pdu : V2Pdu)
  | V2GetBulkRequest (request_id non_repeaters max_repetitions : Z) (bindings : list (Oid * V2Value))
  | V2Response (pdu : V2Pdu) | V2Report (pdu : V2Pdu) | V2OtherPdu.

Record V2cMessage : Type := mkV2cMessage { m2_version : Z; m2_community : Bytes; m2_data : V2Pdus }.

Record ScopedPdu : Type := mkScopedPdu { sp_engine_id : Bytes; sp_name : Bytes; sp_data : V2Pdus }.

Inductive ScopedPduData : Type := CleartextPdu (pdu : ScopedPdu) | EncryptedPduData (bytes : Bytes).

Record HeaderData : Type := mkHeaderData {
  hd_message_id : Z; hd_max_size : Z; hd_flags : Bytes; hd_security_model : Z;
}.

Record V3Message : Type := mkV3Message {
  m3_version : Z; m3_global_data : HeaderData; m3_security_parameters : Bytes;
  m3_scoped_data : ScopedPduData;
}.

Record UsmParameters : Type := mkUsmParameters {
  up_engine_id : Bytes; up_engine_boots : Z; up_engine_time : Z; up_user_name : Bytes;
  up_authentication : Bytes; up_privacy : Bytes;
}.

(** An encoder fails with the text of its error. *)
Class BerLib := {
  encode_v1 : V1Message → Result Str Bytes;
  decode_v1 : Bytes → option V1Message;
  encode_v2c : V2cMessage → Result Str Bytes;
  decode_v2c : Bytes → option V2cMessage;
  encode_v3 : V3Message → Result Str Bytes;
  decode_v3 : Bytes → option V3Message;
  encode_scoped : ScopedPdu → Result Str Bytes;
  decode_scoped : Bytes → option ScopedPdu;
  encode_usm : UsmParameters → Result Str Bytes;
  decode_usm : Bytes → option UsmParameters;
}.

Definition set_security (msg : V3Message) (params : Bytes) : V3Message :=
  mkV3Message (m3_version msg) (m3_global_data msg) params (m3_scoped_data msg).

(** [x as i32] and [i32::try_from]. *)
Definition as_i32 (x : Z) : Z := let w := wrap 32 x in if w <? 2 ^ 31 then w else w - 2 ^ 32.
Definition i32_try (x : Z) : option Z := if (- 2 ^ 31 <=? x) && (x <? 2 ^ 31) then Some x else None.

(** ** Community messages: [v1_v2c.rs] *)

Definition MAX_STRING_BYTES : Z := 256.
Definition OID_SYS_DESCR : Oid := [1; 3; 6; 1; 2; 1; 1; 1; 0].
Definition OID_SYS_OBJECT_ID : Oid := [1; 3; 6; 1; 2; 1; 1; 2; 0].
Definition OID_SYS_NAME : Oid := [1; 3; 6; 1; 2; 1; 1; 5; 0].

Definition new_request_id (clock : option Z) (port : Z) : Z :=
  let nanos := default 0 (wrap 64 <$> clock) in
  as_i32 (Z.lxor nanos (wrap 64 (Z.shiftl port 32))).

Definition unspecified_v2_varbinds (names : list Oid) : list (Oid * V2Value) :=
  (λ oid, (oid, V2Unspecified)) <$> names.

Definition simple_v2_pdu (request_id : Z) (names : list Oid) : V2Pdu :=
  mkV2Pdu request_id 0 0 (unspecified_v2_varbinds names).

(** The PDU of a request, v2c and v3 alike. *)
Definition v2_pdus (pdu : RequestPdu) (request_id : Z) : V2Pdus :=
  match pdu with
  | Get names => V2GetRequest (simple_v2_pdu request_id names)
  | GetNext names => V2GetNextRequest (simple_v2_pdu request_id names)
  | GetBulk non_repeaters max_repetitions names =>
      V2GetBulkRequest request_id non_repeaters max_repetitions (unspecified_v2_varbinds names)
  end.

Definition encode_community_message `{BerLib} (version : SnmpVersion) (community : Str)
    (pdu : RequestPdu) (request_id : Z) : Result Str Bytes :=
  match version with
  | SnmpV1 =>
      let inner := mkV1Pdu request_id 0 0 ((λ oid, (oid, V1Empty)) <$> pdu_names pdu) in
      data ← match pdu with
             | Get _ => Ok (V1GetRequest inner)
             | GetNext _ => Ok (V1GetNextRequest inner)
             | GetBulk _ _ _ => Err (s! "snmp v1 has no GetBulkRequest")
             end;
      map_err (λ e, s! "snmp v1 encode failed: " ++ e) (encode_v1 (mkV1Message 0 (as_bytes community) data))
  | SnmpV2c =>
      map_err (λ e, s! "snmp v2c encode failed: " ++ e)
        (encode_v2c (mkV2cMessage 1 (as_bytes community) (v2_pdus pdu request_id)))
  | SnmpV3 => Err (s! "encode_community_message called for v3")
  end.

Inductive CommunityVerdict : Type :=
  | VerdictResponse (resp : SnmpResponse)
  | UnexpectedPdu
  | WrongRequestId
  | Malformed.

Definition normalize_v1_varbind (vb : Oid * V1Value) : VarBind :=
  mkVarBind vb.1
    match vb.2 with
    | V1Number i => VInt (default 0 (i32_try i))
    | V1String s => VBytes s
    | V1Object o => VOid o
    | V1Empty => VUnspecified
    | V1Application => VOther
    end.

Definition normalize_v2_varbind (vb : Oid * V2Value) : VarBind :=
  mkVarBind vb.1
    match vb.2 with
    | V2Integer i => VInt (default 0 (i32_try i))
    | V2String s => VBytes s
    | V2ObjectId o => VOid o
    | V2Application => VOther
    | V2Unspecified => VUnspecified
    | V2NoSuchObject => NoSuchObject
    | V2NoSuchInstance => NoSuchInstance
    | V2EndOfMibView => EndOfMibView
    end.

Definition integer_matches_i32 (value expected : Z) : bool :=
  match i32_try value with Some v => v =? expected | None => false end.

Definition decode_v1_pdu (msg : V1Message) (expected_request_id : Z) : CommunityVerdict :=
  match m1_data msg with
  | V1GetResponse pdu =>
      if negb (integer_matches_i32 (p1_request_id pdu) expected_request_id) then WrongRequestId
      else VerdictResponse (mkSnmpResponse
             (match i32_try (p1_error_status pdu) with Some v => wrap 32 v | None => 1 end)
             (normalize_v1_varbind <$> p1_bindings pdu))
  | _ => UnexpectedPdu
  end.

Definition decode_v2c_pdu (msg : V2cMessage) (expected_request_id : Z) : CommunityVerdict :=
  match m2_data msg with
  | V2Response pdu =>
      if negb (p2_request_id pdu =? expected_request_id) then WrongRequestId
      else VerdictResponse (mkSnmpResponse (p2_error_status pdu) (normalize_v2_varbind <$> p2_bindings pdu))
  | _ => UnexpectedPdu
  end.

Definition decode_community_response `{BerLib} (version : SnmpVersion) (bytes : Bytes)
    (expected_request_id : Z) : CommunityVerdict :=
  match version with
  | SnmpV1 => match decode_v1 bytes with Some msg => decode_v1_pdu msg expected_request_id | None => Malformed end
  | SnmpV2c => match decode_v2c bytes with Some msg => decode_v2c_pdu msg expected_request_id | None => Malformed end
  | SnmpV3 => Malformed
  end.

(** ** Texts and signals: [mod.rs], [v1_v2c.rs] *)

Definition sanitize_octets (bytes : Bytes) : Str :=
  let trimmed := trim (from_utf8_lossy bytes) in
  if str_len trimmed <=? MAX_STRING_BYTES then trimmed else floor_char_prefix MAX_STRING_BYTES trimmed.

Definition oid_to_dotted (oid : Oid) : Str := join (s! ".") (fmt_dec <$> oid).

Definition map_varbind_to_signal (vb : VarBind) : option Signal :=
  if bool_decide (vb_name vb = OID_SYS_DESCR) then
    match vb_value vb with VBytes bytes => Some (SnmpSysDescr (sanitize_octets bytes)) | _ => None end
  else if bool_decide (vb_name vb = OID_SYS_OBJECT_ID) then
    match vb_value vb with VOid oid => Some (SnmpSysObjectId (oid_to_dotted oid)) | _ => None end
  else if bool_decide (vb_name vb = OID_SYS_NAME) then
    match vb_value vb with VBytes bytes => Some (SnmpSysName (sanitize_octets bytes)) | _ => None end
  else None.

Definition map_varbinds_to_signals (var_binds : list VarBind) : list Signal :=
  omap map_varbind_to_signal var_binds.

(** ** Outcomes of a port: [mod.rs] *)

Inductive SnmpPortOutcome : Type :=
  | SnmpReached (signals : list Signal)
  | SnmpTimeout
  | SnmpUnreachable
  | SnmpDecodeFailed
  | SnmpPortFault (kind : ProbeErrorKind) (msg : Str)
  | SnmpPortOther (msg : Str).

Section exchange.
Context `{IE : IoErrors, BL : BerLib, CL : CryptoLib}.

Definition snmp_classify_io_error (err : IoError) : SnmpPortOutcome :=
  match io_error err with
  | Absence => if bool_decide (io_error_kind err = TimedOut) then SnmpTimeout else SnmpUnreachable
  | Fault kind => SnmpPortFault kind (io_error_display err)
  end.

Definition snmp_io_error (err : IoError) : SnmpError :=
  match snmp_classify_io_error err with
  | SnmpTimeout | SnmpUnreachable => SnmpAbsent
  | SnmpPortFault kind msg => SnmpFault kind msg
  | SnmpPortOther msg => SnmpOther msg
  | _ => SnmpAbsent
  end.

Definition SNMP_RECV_BUF_LEN : nat := Z.to_nat 8192.

(** What one exchange meets: the instant it starts, the clock and the counters its
    identifiers are made from (per round), and its attempts. *)
Record Exchange : Type := mkExchange {
  ex_start : Z;
  ex_request_clock : nat → option Z;
  ex_msg_clock : nat → option Z;
  ex_msg_seq : nat → Z;
  ex_salt_clock : nat → option Z;
  ex_salt_seq : nat → Z;
  ex_attempt : nat → Bytes → Attempt;
}.

(** A receive loop: datagrams of other peers, and those [on_datagram] has no verdict on, are
    passed over. *)
Fixpoint snmp_recv {R} (on_datagram : Bytes → option R) (ip : IpAddr) (arrivals : list Datagram)
    : option R :=
  match arrivals with
  | [] => None
  | d :: rest =>
      if negb (bool_decide (dg_peer d = ip)) then snmp_recv on_datagram ip rest
      else match on_datagram (take SNMP_RECV_BUF_LEN (dg_bytes d)) with
           | Some r => Some r
           | None => snmp_recv on_datagram ip rest
           end
  end.

(** The attempts of a retransmitted request, [n] from the [i]th on. *)
Fixpoint snmp_attempts {R} (on_datagram : Bytes → option (Result SnmpError R)) (payload : Bytes)
    (ip : IpAddr) (ex : Exchange) (per_attempt overall_deadline : Z) (n i : nat) : Result SnmpError R :=
  match n with
  | O => Err SnmpAbsent
  | S n' =>
      let a := ex_attempt ex i payload in
      match at_send a with
      | Some e => Err (snmp_io_error e)
      | None =>
          let deadline := attempt_deadline a per_attempt overall_deadline in
          match snmp_recv on_datagram ip (at_arrivals a deadline) with
          | Some r => r
          | None =>
              match at_error a deadline with
              | Some e => Err (snmp_io_error e)
              | None =>
                  if overall_deadline <=? at_after a then Err SnmpAbsent
                  else snmp_attempts on_datagram payload ip ex per_attempt overall_deadline n' (S i)
              end
          end
      end
  end.

(** What [community_exchange] does with a datagram of its peer. *)
Definition community_verdict (version : SnmpVersion) (request_id : Z) (bytes : Bytes)
    : option (Result SnmpError SnmpResponse) :=
  match decode_community_response version bytes request_id with
  | VerdictResponse resp => Some (Ok resp)
  | UnexpectedPdu | WrongRequestId => None
  | Malformed => Some (Err SnmpDecode)
  end.

Definition community_exchange (ip : IpAddr) (port : Z) (version : SnmpVersion) (community : Str)
    (pdu : RequestPdu) (timeout retries : Z) (ex : Exchange) : Result SnmpError SnmpResponse :=
  let request_id := new_request_id (ex_request_clock ex 0) port in
  match encode_community_message version community pdu request_id with
  | Err e => Err (SnmpOther (s! "snmp encode failed: " ++ e))
  | Ok payload =>
      snmp_attempts (community_verdict version request_id) payload ip ex
        (per_attempt_timeout timeout retries) (ex_start ex + timeout) (S (Z.to_nat retries)) 0
  end.

(** ** Version 3: [v3.rs] *)

Definition MSG_ID_LIMIT : Z := 0x7fffffff.
Definition MAX_SIZE_DEFAULT : Z := 65507.
Definition USM_SECURITY_MODEL : Z := 3.
Definition REPORTABLE_FLAG : Z := 4.
Definition SNMP_V3_VERSION : Z := 3.
Definition OID_STATS_UNKNOWN_ENGINE_IDS : Oid := [1; 3; 6; 1; 6; 3; 15; 1; 1; 4; 0].
Definition OID_STATS_NOT_IN_TIME_WINDOW : Oid := [1; 3; 6; 1; 6; 3; 15; 1; 1; 2; 0].

(** [seq] is what the counter held. *)
Definition next_msg_id (clock : option Z) (seq : Z) : Z :=
  let nanos := default 0 (wrap 64 <$> clock) in
  let mixed := Z.land (Z.lxor nanos (wrap 64 seq)) MSG_ID_LIMIT in
  if mixed =? 0 then 1 else as_i32 mixed.

Definition next_salt (clock : option Z) (seq : Z) : Bytes :=
  let nanos := default 0 (wrap 64 <$> clock) in
  to_be_bytes 8 (Z.lxor (wrap 64 seq) nanos).

Record EngineSnapshot : Type := mkEngineSnapshot {
  es_engine_id : Bytes; es_engine_boots : Z; es_engine_time : Z;
}.

Record V3Session : Type := mkV3Session {
  v3_username : Str;
  v3_security_level : SecurityLevel;
  v3_auth : option (AuthAlgo * Str);
  v3_privacy : option (PrivAlgo * Str);
  v3_auth_key : Bytes;
  v3_priv_key : Bytes;
  v3_engine : EngineSnapshot;
}.

Definition integer_to_u32 (v : Z) : Z :=
  if (0 <=? v) && (v <=? U32_MAX) then v
  else if (- 2 ^ 63 <=? v) && (v <? 2 ^ 63) then wrap 32 v else 0.

Definition build_message (msg_id flags : Z) (usm_params : UsmParameters) (scoped_pdu : ScopedPdu)
    : Result Str V3Message :=
  let msg := mkV3Message SNMP_V3_VERSION
    (mkHeaderData msg_id MAX_SIZE_DEFAULT [flags] USM_SECURITY_MODEL) [] (CleartextPdu scoped_pdu) in
  set_security msg <$>
    map_err (λ e, s! "snmp v3 security parameters encode failed: " ++ e) (encode_usm usm_params).

Definition derive_keys (engine : EngineSnapshot) (auth : option (AuthAlgo * Str))
    (privacy : option (PrivAlgo * Str)) : option (Bytes * Bytes) :=
  auth_key ← match auth with
             | None => Some []
             | Some (algo, password) => localize_key password (es_engine_id engine) algo
             end;
  priv_key ← match auth, privacy with
             | None, _ | _, None => Some []
             | Some (auth_algo, _), Some (priv_algo, priv_pw) =>
                 derive_priv_key priv_pw (es_engine_id engine) auth_algo priv_algo
             end;
  Some (auth_key, priv_key).

(** What [discover_engine] makes of a datagram of its peer: always an answer. *)
Definition discovery_verdict (bytes : Bytes) : option (Result SnmpError EngineSnapshot) :=
  Some match decode_v3 bytes with
       | None => Err SnmpDecode
       | Some reply =>
           match decode_usm (m3_security_parameters reply) with
           | None => Err SnmpDecode
           | Some params =>
               if is_empty (up_engine_id params)
               then Err (SnmpOther (s! "snmp v3 discovery response missing engine id"))
               else Ok (mkEngineSnapshot (up_engine_id params) (integer_to_u32 (up_engine_boots params))
                          (integer_to_u32 (up_engine_time params)))
           end
       end.

Definition discover_engine (ip : IpAddr) (port : Z) (username : Str) (timeout retries : Z)
    (overall_deadline : Z) (ex : Exchange) : Result SnmpError EngineSnapshot :=
  let msg_id := next_msg_id (ex_msg_clock ex 0) (ex_msg_seq ex 0) in
  let scoped_pdu := mkScopedPdu [] []
    (V2GetRequest (mkV2Pdu (new_request_id (ex_request_clock ex 0) port) 0 0 [])) in
  let usm_params := mkUsmParameters [] 0 0 (as_bytes username) [] [] in
  msg ← map_err SnmpOther (build_message msg_id REPORTABLE_FLAG usm_params scoped_pdu);
  payload ← map_err (λ e, SnmpOther (s! "snmp v3 discovery encode failed: " ++ e)) (encode_v3 msg);
  snmp_attempts discovery_verdict payload ip ex (per_attempt_timeout timeout retries) overall_deadline
    (S (Z.to_nat retries)) 0.

(** [None] is a panic of the key derivation. *)
Definition discover_and_derive (ip : IpAddr) (port : Z) (credentials : UsmCredentials)
    (timeout retries overall_deadline : Z) (ex : Exchange) : option (Result SnmpError V3Session) :=
  let auth := auth_resolve (usm_auth credentials) in
  let privacy := priv_resolve (usm_privacy credentials) in
  match map_err SnmpOther (derive_security_level auth privacy) with
  | Err e => Some (Err e)
  | Ok security_level =>
      match discover_engine ip port (usm_username credentials) timeout retries overall_deadline ex with
      | Err e => Some (Err e)
      | Ok engine =>
          '(auth_key, priv_key) ← derive_keys engine auth privacy;
          Some (Ok (mkV3Session (usm_username credentials) security_level auth privacy auth_key priv_key engine))
      end
  end.

Inductive AuthExchange : Type :=
  | ExResponse (resp : SnmpResponse)
  | ExEmpty
  | ExReport
  | ExNotInTimeWindow (engine : EngineSnapshot)
  | ExAbsent
  | ExDecode
  | ExOther (msg : Str).

Definition io_error_to_exchange (err : IoError) : AuthExchange :=
  match snmp_io_error err with
  | SnmpAbsent | SnmpDecode => ExAbsent
  | SnmpFault _ msg | SnmpOther msg => ExOther msg
  end.

Definition build_scoped_pdu (engine : EngineSnapshot) (pdu : RequestPdu) (request_id : Z) : ScopedPdu :=
  mkScopedPdu (es_engine_id engine) [] (v2_pdus pdu request_id).

Definition scoped_pdu_is_report (scoped : ScopedPdu) : bool :=
  match sp_data scoped with V2Report _ => true | _ => false end.

Definition classify_report (scoped : ScopedPdu) (engine : EngineSnapshot) : AuthExchange :=
  match sp_data scoped with
  | V2Report pdu =>
      default ExReport (find_map (λ vb : Oid * V2Value,
        if bool_decide (vb.1 = OID_STATS_UNKNOWN_ENGINE_IDS) then Some ExReport
        else if bool_decide (vb.1 = OID_STATS_NOT_IN_TIME_WINDOW) then Some (ExNotInTimeWindow engine)
        else None) (p2_bindings pdu))
  | _ => ExReport
  end.

Definition extract_response (scoped : ScopedPdu) (expected_request_id : Z) : option SnmpResponse :=
  match sp_data scoped with
  | V2Response pdu =>
      if negb (p2_request_id pdu =? expected_request_id) then None
      else Some (mkSnmpResponse (p2_error_status pdu) (normalize_v2_varbind <$> p2_bindings pdu))
  | _ => None
  end.

Definition zeroed_auth (params : UsmParameters) (len : nat) : UsmParameters :=
  mkUsmParameters (up_engine_id params) (up_engine_boots params) (up_engine_time params)
    (up_user_name params) (replicate len 0) (up_privacy params).

Definition verify_response_auth (reply : V3Message) (auth : option (AuthAlgo * Str)) (auth_key : Bytes)
    (params : UsmParameters) : option bool :=
  match auth with
  | None => Some true
  | Some (algo, _) =>
      let received_hmac := up_authentication params in
      let expected_len := hmac_trunc_len algo in
      if negb (length received_hmac =? expected_len)%nat then Some false
      else match encode_usm (zeroed_auth params expected_len) with
      | Err _ => Some false
      | Ok zeroed =>
          match encode_v3 (set_security reply zeroed) with
          | Err _ => Some false
          | Ok encoded =>
              computed ← hmac_truncated algo auth_key encoded;
              Some (ct_eq computed received_hmac)
          end
      end
  end.

(** [Some None] is the [Err(())] of a PDU that cannot be read. *)
Definition extract_scoped_pdu (reply : V3Message) (privacy : option (PrivAlgo * Str)) (priv_key : Bytes)
    (response_engine : EngineSnapshot) (params : UsmParameters) : option (option ScopedPdu) :=
  match m3_scoped_data reply with
  | CleartextPdu pdu => Some (Some pdu)
  | EncryptedPduData bytes =>
      match privacy with
      | None => Some None
      | Some (algo, _) =>
          plaintext ← decrypt_scoped_pdu algo priv_key (es_engine_boots response_engine)
                        (es_engine_time response_engine) (up_privacy params) bytes;
          Some (result_ok plaintext ≫= decode_scoped)
      end
  end.

(** What one exchange makes of a datagram of its peer. *)
Definition v3_verdict (state : V3Session) (request_id : Z) (bytes : Bytes) : option AuthExchange :=
  match decode_v3 bytes with
  | None => Some ExDecode
  | Some reply =>
      match decode_usm (m3_security_parameters reply) with
      | None => Some ExDecode
      | Some params =>
          let response_engine := mkEngineSnapshot (up_engine_id params)
            (integer_to_u32 (up_engine_boots params)) (integer_to_u32 (up_engine_time params)) in
          let response_flags := default 0 (head (hd_flags (m3_global_data reply))) in
          let response_is_authenticated := negb (Z.land response_flags 1 =? 0) in
          verified ← (if response_is_authenticated
                      then verify_response_auth reply (v3_auth state) (v3_auth_key state) params
                      else Some true) : option bool;
          if negb verified then Some ExEmpty
          else
            scoped ← extract_scoped_pdu reply (v3_privacy state) (v3_priv_key state) response_engine params;
            match scoped with
            | None => Some ExDecode
            | Some scoped =>
                if scoped_pdu_is_report scoped then Some (classify_report scoped response_engine)
                else if negb response_is_authenticated && bool_decide (is_Some (v3_auth state))
                then Some ExEmpty
                else match extract_response scoped request_id with
                     | Some resp => Some (ExResponse resp)
                     | None => Some ExEmpty
                     end
            end
      end
  end.

(** The receive loop: the first datagram of the peer decides. [None] is a panic. *)
Fixpoint v3_recv (state : V3Session) (request_id : Z) (ip : IpAddr) (arrivals : list Datagram)
    : option (option AuthExchange) :=
  match arrivals with
  | [] => Some None
  | d :: rest =>
      if negb (bool_decide (dg_peer d = ip)) then v3_recv state request_id ip rest
      else Some <$> v3_verdict state request_id (take SNMP_RECV_BUF_LEN (dg_bytes d))
  end.

(** The message to send: encrypted under authPriv, then signed over zeroed parameters.
    The outer [None] is a panic of the ciphers. *)
Definition v3_payload (state : V3Session) (engine : EngineSnapshot) (pdu : RequestPdu)
    (msg_id request_id : Z) (salt : Bytes) : option (Result Str Bytes) :=
  let scoped_pdu := build_scoped_pdu engine pdu request_id in
  match encode_scoped scoped_pdu with
  | Err e => Some (Err (s! "snmp v3 scoped encode failed: " ++ e))
  | Ok scoped_plaintext =>
      sealed ← match v3_security_level state, v3_privacy state with
               | AuthPriv, Some (algo, _) =>
                   enc ← encrypt_scoped_pdu algo (v3_priv_key state) (es_engine_boots engine)
                           (es_engine_time engine) salt scoped_plaintext;
                   Some match enc with
                        | Ok e => Ok (EncryptedPduData (ep_ciphertext e), ep_privacy_parameters e)
                        | Err e => Err (s! "snmp v3 encrypt failed: " ++ crypto_error_display e)
                        end
               | _, _ => Some (Ok (CleartextPdu scoped_pdu, []))
               end;
      match sealed with
      | Err e => Some (Err e)
      | Ok (scoped_data, privacy_parameters) =>
          let flags := Z.lor REPORTABLE_FLAG (flag_bits (v3_security_level state)) in
          let placeholder_len :=
            match v3_security_level state, v3_auth state with
            | NoAuthNoPriv, _ => 0%nat
            | _, Some (algo, _) => hmac_trunc_len algo
            | _, None => 0%nat
            end in
          let params code := mkUsmParameters (es_engine_id engine) (es_engine_boots engine)
            (es_engine_time engine) (as_bytes (v3_username state)) code privacy_parameters in
          let msg security := mkV3Message SNMP_V3_VERSION
            (mkHeaderData msg_id MAX_SIZE_DEFAULT [flags] USM_SECURITY_MODEL) security scoped_data in
          match encode_usm (params (replicate placeholder_len 0)) with
          | Err e => Some (Err (s! "snmp v3 params encode failed: " ++ e))
          | Ok zeroed =>
              match v3_security_level state, v3_auth state with
              | NoAuthNoPriv, _ =>
                  Some (map_err (λ e, s! "snmp v3 encode failed: " ++ e) (encode_v3 (msg zeroed)))
              | _, Some (algo, _) =>
                  match encode_v3 (msg zeroed) with
                  | Err e => Some (Err (s! "snmp v3 encode failed: " ++ e))
                  | Ok encoded_zeroed =>
                      code ← hmac_truncated algo (v3_auth_key state) encoded_zeroed;
                      Some (
                        real ← map_err (λ e, s! "snmp v3 params re-encode failed: " ++ e)
                                 (encode_usm (params code));
                        map_err (λ e, s! "snmp v3 encode with auth failed: " ++ e) (encode_v3 (msg real)))
                  end
              | _, None =>
                  Some (Err (s! "snmp v3 invariant broken: authPriv without auth algorithm"))
              end
          end
      end
  end.

Definition one_authenticated_exchange (ip : IpAddr) (port : Z) (state : V3Session)
    (engine : EngineSnapshot) (pdu : RequestPdu) (deadline : Z) (ex : Exchange) (round : nat)
    : option AuthExchange :=
  let msg_id := next_msg_id (ex_msg_clock ex round) (ex_msg_seq ex round) in
  let request_id := new_request_id (ex_request_clock ex round) port in
  let salt := next_salt (ex_salt_clock ex round) (ex_salt_seq ex round) in
  payload ← v3_payload state engine pdu msg_id request_id salt;
  match payload with
  | Err msg => Some (ExOther msg)
  | Ok payload =>
      let a := ex_attempt ex round payload in
      match at_send a with
      | Some e => Some (io_error_to_exchange e)
      | None =>
          got ← v3_recv state request_id ip (at_arrivals a deadline);
          match got with
          | Some outcome => Some outcome
          | None =>
              match at_error a deadline with
              | Some e => Some (io_error_to_exchange e)
              | None => Some ExAbsent
              end
          end
      end
  end.

(** How the last round of an exchange ends it. *)
Definition exchange_result (r : AuthExchange) : Result SnmpError SnmpResponse :=
  match r with
  | ExResponse resp => Ok resp
  | ExEmpty | ExReport | ExNotInTimeWindow _ => Ok (mkSnmpResponse 0 [])
  | ExAbsent => Err SnmpAbsent
  | ExDecode => Err SnmpDecode
  | ExOther msg => Err (SnmpOther msg)
  end.

Definition set_engine (state : V3Session) (engine : EngineSnapshot) : V3Session :=
  mkV3Session (v3_username state) (v3_security_level state) (v3_auth state) (v3_privacy state)
    (v3_auth_key state) (v3_priv_key state) engine.

(** The loop goes round a second time only after a time-window report, with the engine the
    report told, which the session keeps. *)
Definition authenticated_exchange (ip : IpAddr) (port : Z) (state : V3Session) (pdu : RequestPdu)
    (timeout : Z) (ex : Exchange) : option (V3Session * Result SnmpError SnmpResponse) :=
  let deadline := ex_start ex + timeout in
  r ← one_authenticated_exchange ip port state (v3_engine state) pdu deadline ex 0;
  match r with
  | ExNotInTimeWindow new_engine =>
      let state' := set_engine state new_engine in
      r' ← one_authenticated_exchange ip port state' new_engine pdu deadline ex 1;
      Some (state', exchange_result r')
  | _ => Some (state, exchange_result r)
  end.

(** ** Sessions: [request.rs] *)

Inductive SessionAuth : Type :=
  | Community (version : SnmpVersion) (community : Str)
  | SessionV3 (state : V3Session).

Record SnmpSession : Type := mkSnmpSession {
  ss_ip : IpAddr;
  ss_port : Z;
  ss_auth : SessionAuth;
}.

Definition supports_getbulk (session : SnmpSession) : bool :=
  match ss_auth session with Community SnmpV1 _ => false | _ => true end.

Definition snmp_request (session : SnmpSession) (pdu : RequestPdu) (timeout retries : Z) (ex : Exchange)
    : option (SnmpSession * Result SnmpError SnmpResponse) :=
  match ss_auth session with
  | Community version community =>
      Some (session,
            community_exchange (ss_ip session) (ss_port session) version community pdu timeout retries ex)
  | SessionV3 state =>
      '(state', r) ← authenticated_exchange (ss_ip session) (ss_port session) state pdu timeout ex;
      Some (mkSnmpSession (ss_ip session) (ss_port session) (SessionV3 state'), r)
  end.

(** ** The SNMP prober: [mod.rs], [v1_v2c.rs], [v3.rs] *)

Definition prober_oids : list Oid := [OID_SYS_DESCR; OID_SYS_OBJECT_ID; OID_SYS_NAME].

(** What a probe of one port meets: binding, the discovery of the engine and the request;
    [sn_between] is the instant the request's time is computed at. *)
Record SnmpNet : Type := mkSnmpNet {
  sn_bind : option IoError;
  sn_start : Z;
  sn_discovery : Exchange;
  sn_between : Z;
  sn_request : Exchange;
}.

Definition community_probe_port (net : SnmpNet) (ip : IpAddr) (port : Z) (version : SnmpVersion)
    (community : Str) (timeout retries : Z) : SnmpPortOutcome :=
  match sn_bind net with
  | Some e => SnmpPortOther (s! "snmp bind failed: " ++ io_error_display e)
  | None =>
      match community_exchange ip port version community (Get prober_oids) timeout retries (sn_request net) with
      | Ok resp =>
          if sr_error_status resp =? 0 then SnmpReached (map_varbinds_to_signals (sr_var_binds resp))
          else SnmpReached []
      | Err SnmpAbsent => SnmpTimeout
      | Err SnmpDecode => SnmpDecodeFailed
      | Err (SnmpFault kind msg) => SnmpPortFault kind msg
      | Err (SnmpOther msg) => SnmpPortOther msg
      end
  end.

Definition v3_probe_port (net : SnmpNet) (ip : IpAddr) (port : Z) (credentials : UsmCredentials)
    (timeout retries : Z) : option SnmpPortOutcome :=
  match sn_bind net with
  | Some e => Some (SnmpPortOther (s! "snmp bind failed: " ++ io_error_display e))
  | None =>
      let overall_deadline := sn_start net + timeout in
      session ← discover_and_derive ip port credentials timeout retries overall_deadline (sn_discovery net);
      match session with
      | Err SnmpAbsent => Some SnmpTimeout
      | Err SnmpDecode => Some SnmpDecodeFailed
      | Err (SnmpFault kind msg) => Some (SnmpPortFault kind msg)
      | Err (SnmpOther msg) => Some (SnmpPortOther msg)
      | Ok state =>
          let remaining := saturating_sub overall_deadline (sn_between net) in
          '(_, r) ← authenticated_exchange ip port state (Get prober_oids) remaining (sn_request net);
          Some match r with
               | Ok resp =>
                   if sr_error_status resp =? 0 then SnmpReached (map_varbinds_to_signals (sr_var_binds resp))
                   else SnmpReached []
               | Err SnmpAbsent => SnmpReached []
               | Err SnmpDecode => SnmpDecodeFailed
               | Err (SnmpFault _ msg) | Err (SnmpOther msg) => SnmpPortOther msg
               end
      end
  end.

Definition snmp_probe_port (net : SnmpNet) (ip : IpAddr) (port : Z) (version : SnmpVersion)
    (community : Str) (credentials : UsmCredentials) (timeout retries : Z) : option SnmpPortOutcome :=
  match version with
  | SnmpV1 | SnmpV2c => Some (community_probe_port net ip port version community timeout retries)
  | SnmpV3 => v3_probe_port net ip port credentials timeout retries
  end.

Definition snmp_assemble_outcome (target_ip : IpAddr) (now : SystemTime) (any_reachable : bool)
    (signals : list Signal) (decode_failed_port : option Z) (last_fault : option ProbeFault) : ProbeOutcome :=
  match any_reachable, decode_failed_port with
  | false, Some port =>
      mkProbeOutcome Snmp target_ip now true []
        (Some (mkProbeFault DecodeFailed
          (s! "snmp reply on port " ++ fmt_dec port ++ s! " could not be decoded"))) None None
  | _, _ =>
      mkProbeOutcome Snmp target_ip now any_reachable signals (surfaced_fault any_reachable last_fault) None None
  end.

Definition snmp_fault_on (port : Z) (kind : ProbeErrorKind) (msg : Str) : option ProbeFault :=
  Some (mkProbeFault kind (s! "snmp probe failed on port " ++ fmt_dec port ++ s! ": " ++ msg)).

Definition snmp_fold (acc : bool * list Signal * option Z * option ProbeFault) (r : Z * SnmpPortOutcome)
    : bool * list Signal * option Z * option ProbeFault :=
  let '(any_reachable, signals, decode_failed_port, last_fault) := acc in
  let '(port, outcome) := r in
  match outcome with
  | SnmpReached new_signals => (true, signals ++ new_signals, decode_failed_port, last_fault)
  | SnmpTimeout | SnmpUnreachable => acc
  | SnmpDecodeFailed =>
      (any_reachable, signals, match decode_failed_port with None => Some port | p => p end, last_fault)
  | SnmpPortFault kind msg => (any_reachable, signals, decode_failed_port, snmp_fault_on port kind msg)
  | SnmpPortOther msg => (any_reachable, signals, decode_failed_port, snmp_fault_on port OtherFault msg)
  end.

(** [SnmpProber::probe] once [probe_ports] has returned [per_port]. *)
Definition snmp_probe (target_ip : IpAddr) (now : SystemTime) (per_port : list (Z * SnmpPortOutcome))
    : ProbeOutcome :=
  let '(any_reachable, signals, decode_failed_port, last_fault) :=
    foldl snmp_fold (false, [], None, None) per_port in
  snmp_assemble_outcome target_ip now any_reachable signals decode_failed_port last_fault.

End exchange.
