(* ===== verification/SnmpTheorems.v ===== *)
(** * What an SNMP exchange guarantees

    Data of an authenticated v3 session comes only from a message whose code was
    verified; the answer under a community is a response of the target with the
    identifier of the request; no bytes make an exchange panic. *)

From S2P Require Import Prelude Net F64 Model Sink Codec Ports SinkConfig GnmiPath ProberConfig Udp UdpTheorems.
From S2P Require Import Usm Snmp.

Section snmp.
Context `{IE : IoErrors, BL : BerLib, CL : CryptoLib}.

(** ** Authenticity *)

(** How many bytes of the code a message carries: 96 bits of MD5 and SHA-1, and
    128, 192, 256 and 384 bits of the SHA-2 family. *)
Definition code_len (algo : AuthAlgo) : nat :=
  match algo with Md5 | Sha1 => 12 | Sha224 => 16 | Sha256 => 24 | Sha384 => 32 | Sha512 => 48 end.

(** The message carries the code of its own bytes, written with the code zeroed, under the key. *)
Definition authentic (algo : AuthAlgo) (key : Bytes) (reply : V3Message) (params : UsmParameters) : Prop :=
  length (up_authentication params) = code_len algo ∧
  ∃ zeroed encoded,
    encode_usm (mkUsmParameters (up_engine_id params) (up_engine_boots params) (up_engine_time params)
      (up_user_name params) (replicate (code_len algo) 0) (up_privacy params)) = Ok zeroed ∧
    encode_v3 (set_security reply zeroed) = Ok encoded ∧
    up_authentication params = take (code_len algo) (hmac algo key encoded).

Lemma hmac_trunc_len_code algo : hmac_trunc_len algo = code_len algo.
Proof. by destruct algo. Qed.

Lemma hmac_truncated_take algo key message code :
  hmac_truncated algo key message = Some code → code = take (code_len algo) (hmac algo key message).
Proof.
  unfold hmac_truncated. rewrite hmac_trunc_len_code. unfold byte_slice. destruct (_ && _); [|done].
  intros [= <-]. by rewrite Z.sub_0_r, Nat2Z.id, drop_0.
Qed.

Lemma verify_response_auth_sound reply algo pw key params :
  verify_response_auth reply (Some (algo, pw)) key params = Some true → authentic algo key reply params.
Proof.
  unfold verify_response_auth, authentic. rewrite hmac_trunc_len_code.
  destruct (Nat.eqb_spec (length (up_authentication params)) (code_len algo)) as [Hl|]; [|done]. cbn [negb].
  unfold zeroed_auth. destruct (encode_usm _) as [zeroed|]; [|done].
  destruct (encode_v3 _) as [encoded|] eqn:E2; [|done].
  destruct (hmac_truncated algo key encoded) as [code|] eqn:E3; [|done]. simpl.
  intros [= ->%ct_eq_spec]. apply hmac_truncated_take in E3. eauto 10.
Qed.

(** The scoped PDU a message carries: in the clear, or under the privacy key of the session. *)
Definition carries (state : V3Session) (reply : V3Message) (params : UsmParameters) (scoped : ScopedPdu) : Prop :=
  m3_scoped_data reply = CleartextPdu scoped ∨
  ∃ bytes algo pw plaintext, m3_scoped_data reply = EncryptedPduData bytes ∧ v3_privacy state = Some (algo, pw) ∧
    decrypt_scoped_pdu algo (v3_priv_key state) (integer_to_u32 (up_engine_boots params))
      (integer_to_u32 (up_engine_time params)) (up_privacy params) bytes = Some (Ok plaintext) ∧
    decode_scoped plaintext = Some scoped.

(** What a message must be for the session to take [resp] from it: one whose PDU is a response with
    the identifier of the request, authentic when the session authenticates. *)
Definition trusted (state : V3Session) (request_id : Z) (bytes : Bytes) (resp : SnmpResponse) : Prop :=
  ∃ reply params scoped pdu,
    decode_v3 bytes = Some reply ∧ decode_usm (m3_security_parameters reply) = Some params ∧
    (∀ algo pw, v3_auth state = Some (algo, pw) → authentic algo (v3_auth_key state) reply params) ∧
    carries state reply params scoped ∧
    sp_data scoped = V2Response pdu ∧ p2_request_id pdu = request_id ∧
    sr_error_status resp = p2_error_status pdu ∧
    sr_var_binds resp = normalize_v2_varbind <$> p2_bindings pdu.

Lemma extract_response_answers scoped request_id resp :
  extract_response scoped request_id = Some resp →
  ∃ pdu, sp_data scoped = V2Response pdu ∧ p2_request_id pdu = request_id ∧
    sr_error_status resp = p2_error_status pdu ∧ sr_var_binds resp = normalize_v2_varbind <$> p2_bindings pdu.
Proof.
  unfold extract_response. destruct (sp_data scoped) as [| | |pdu| |] eqn:E; try done.
  destruct (Z.eqb_spec (p2_request_id pdu) request_id); [|done]. cbn. intros [= <-]. by exists pdu.
Qed.

Lemma extract_scoped_carries state reply params scoped :
  extract_scoped_pdu reply (v3_privacy state) (v3_priv_key state)
    (mkEngineSnapshot (up_engine_id params) (integer_to_u32 (up_engine_boots params))
       (integer_to_u32 (up_engine_time params))) params = Some (Some scoped) →
  carries state reply params scoped.
Proof.
  unfold extract_scoped_pdu, carries. destruct (m3_scoped_data reply) as [x|bytes]; [intros [= ->]; by left|].
  destruct (v3_privacy state) as [[algo pw]|]; [|done]. cbn.
  destruct (decrypt_scoped_pdu _ _ _ _ _ _) as [[plain|]|] eqn:E; cbn; [|done..].
  intros [= Hdec]. right. by exists bytes, algo, pw, plain.
Qed.

Lemma classify_report_not_response scoped engine resp : classify_report scoped engine ≠ ExResponse resp.
Proof.
  unfold classify_report. destruct (sp_data scoped); try done.
  induction (p2_bindings pdu) as [|vb vbs IH]; [done|]. simpl. repeat case_match; by simplify_eq.
Qed.

(** The second half of the verdict: the scoped PDU of a message that was not refused. *)
Lemma scoped_trusted state request_id reply params engine resp (authenticated : bool) bytes :
  engine = mkEngineSnapshot (up_engine_id params) (integer_to_u32 (up_engine_boots params))
    (integer_to_u32 (up_engine_time params)) →
  decode_v3 bytes = Some reply → decode_usm (m3_security_parameters reply) = Some params →
  (authenticated = true → ∀ algo pw, v3_auth state = Some (algo, pw) →
     authentic algo (v3_auth_key state) reply params) →
  (scoped ← extract_scoped_pdu reply (v3_privacy state) (v3_priv_key state) engine params;
   match scoped with
   | None => Some ExDecode
   | Some scoped =>
       if scoped_pdu_is_report scoped then Some (classify_report scoped engine)
       else if negb authenticated && bool_decide (is_Some (v3_auth state)) then Some ExEmpty
       else match extract_response scoped request_id with
            | Some resp => Some (ExResponse resp)
            | None => Some ExEmpty
            end
   end) = Some (ExResponse resp) →
  trusted state request_id bytes resp.
Proof.
  intros -> Hd Hu Ha.
  destruct (extract_scoped_pdu _ _ _ _ _) as [[scoped|]|] eqn:Hs; cbn [mbind option_bind]; [|done..].
  destruct (scoped_pdu_is_report scoped); [intros [= E]; by apply classify_report_not_response in E|].
  destruct (negb authenticated && _) eqn:Hb; [done|].
  destruct (extract_response scoped request_id) eqn:He; [|done].
  intros [= <-]. apply extract_scoped_carries in Hs. apply extract_response_answers in He as (pdu & Hpdu & Hid & He1 & He2).
  exists reply, params, scoped, pdu. split_and!; try done.
  intros algo pw Hauth. apply (Ha ltac:(destruct authenticated; [done|]; simpl in Hb;
    rewrite bool_decide_true in Hb by (by rewrite Hauth); done) algo pw Hauth).
Qed.

Lemma v3_verdict_trusted state request_id bytes resp :
  v3_verdict state request_id bytes = Some (ExResponse resp) → trusted state request_id bytes resp.
Proof.
  unfold v3_verdict. destruct (decode_v3 bytes) as [reply|] eqn:Hd; [|done].
  destruct (decode_usm _) as [params|] eqn:Hu; [|done]. cbv zeta.
  destruct (negb (Z.land _ 1 =? 0)) eqn:Hf.
  - destruct (verify_response_auth _ _ _ _) as [[]|] eqn:Hv; cbn [mbind option_bind negb]; [|done..].
    intros Hr. refine (scoped_trusted state request_id reply params _ resp true bytes eq_refl Hd Hu _ Hr).
    intros _ algo pw Ha. rewrite Ha in Hv. by eapply verify_response_auth_sound.
  - intros Hr. refine (scoped_trusted state request_id reply params _ resp false bytes eq_refl Hd Hu _ Hr). done.
Qed.

Lemma v3_recv_first state request_id ip arrivals :
  v3_recv state request_id ip arrivals =
  match own_arrivals ip arrivals with
  | [] => Some None
  | d :: _ => Some <$> v3_verdict state request_id (take SNMP_RECV_BUF_LEN (dg_bytes d))
  end.
Proof.
  induction arrivals as [|d rest IH]; [done|]. cbn [v3_recv]. unfold own_arrivals in *.
  destruct (decide (dg_peer d = ip)) as [E|E].
  - rewrite bool_decide_true, filter_cons_True by done. done.
  - rewrite bool_decide_false, filter_cons_False by done. done.
Qed.

Lemma io_error_not_response e resp : io_error_to_exchange e ≠ ExResponse resp.
Proof. unfold io_error_to_exchange. by case_match. Qed.

(** The identifier in a request. *)
Definition request_identifier (pdus : V2Pdus) : option Z :=
  match pdus with
  | V2GetRequest pdu | V2GetNextRequest pdu => Some (p2_request_id pdu)
  | V2GetBulkRequest request_id _ _ _ => Some request_id
  | V2Response _ | V2Report _ | V2OtherPdu => None
  end.

(** The bytes of a request with an identifier, in the clear or under the privacy key of a session. *)
Definition request_sent (state : V3Session) (request_id : Z) (payload : Bytes) : Prop :=
  ∃ msg scoped, encode_v3 msg = Ok payload ∧ request_identifier (sp_data scoped) = Some request_id ∧
    (m3_scoped_data msg = CleartextPdu scoped ∨
     ∃ algo pw boots time salt plain sealed, v3_privacy state = Some (algo, pw) ∧ encode_scoped scoped = Ok plain ∧
       encrypt_scoped_pdu algo (v3_priv_key state) boots time salt plain = Some (Ok sealed) ∧
       m3_scoped_data msg = EncryptedPduData (ep_ciphertext sealed)).

Lemma v3_payload_sent state engine pdu msg_id request_id salt payload :
  v3_payload state engine pdu msg_id request_id salt = Some (Ok payload) → request_sent state request_id payload.
Proof.
  unfold v3_payload, request_sent.
  assert (request_identifier (sp_data (build_scoped_pdu engine pdu request_id)) = Some request_id) as Hid
    by by destruct pdu.
  set (scoped := build_scoped_pdu engine pdu request_id) in *.
  destruct (encode_scoped scoped) as [plain|] eqn:Hplain; [|done].
  match goal with |- context [mbind _ ?x] => destruct x as [[[sd pp]|]|] eqn:Hsealed end; cbn [mbind option_bind]; [|done..].
  assert (sd = CleartextPdu scoped ∨
     ∃ algo pw boots time salt sealed, v3_privacy state = Some (algo, pw) ∧
       encrypt_scoped_pdu algo (v3_priv_key state) boots time salt plain = Some (Ok sealed) ∧
       sd = EncryptedPduData (ep_ciphertext sealed)) as Hsd.
  { destruct (v3_security_level state), (v3_privacy state) as [[algo pw]|]; try (left; congruence).
    destruct (encrypt_scoped_pdu _ _ _ _ _ _) as [[e|]|] eqn:He; cbn in Hsealed; [|done..].
    injection Hsealed as <- <-. right. eauto 10. }
  cbv zeta. destruct (encode_usm _) as [zeroed|]; [|done].
  assert (∀ security, encode_v3 (mkV3Message SNMP_V3_VERSION (mkHeaderData msg_id MAX_SIZE_DEFAULT
      [Z.lor REPORTABLE_FLAG (flag_bits (v3_security_level state))] USM_SECURITY_MODEL) security sd) = Ok payload →
    request_sent state request_id payload) as Hdone.
  { intros security Hs. eexists _, scoped. split_and!; [exact Hs|done|]. cbn [m3_scoped_data].
    destruct Hsd as [->|(algo & pw & b & t & sa & e & ? & ? & ->)]; [by left|right]. by exists algo, pw, b, t, sa, plain, e. }
  destruct (v3_security_level state), (v3_auth state) as [[algo pw]|]; try done;
    try (intros [= Hm]; apply map_err_Ok in Hm; by eapply Hdone).
  all: destruct (encode_v3 (mkV3Message _ _ zeroed sd)) as [z|]; [|done];
    destruct (hmac_truncated _ _ _) as [code|]; cbn [mbind option_bind]; [|done]; intros [= Hm];
    apply Result_bind_Ok in Hm as (real & Hreal & Hm); apply map_err_Ok in Hm; by eapply Hdone.
Qed.

(** A round takes its response from the first datagram of the target, in time. *)
Lemma one_exchange_trusted ip port state engine pdu deadline ex round resp :
  one_authenticated_exchange ip port state engine pdu deadline ex round = Some (ExResponse resp) →
  ∃ payload d ds, request_sent state (new_request_id (ex_request_clock ex round) port) payload ∧
    own_arrivals ip (at_arrivals (ex_attempt ex round payload) deadline) = d :: ds ∧
    trusted state (new_request_id (ex_request_clock ex round) port) (take SNMP_RECV_BUF_LEN (dg_bytes d)) resp.
Proof.
  unfold one_authenticated_exchange. destruct (v3_payload _ _ _ _ _ _) as [[payload|]|] eqn:Hp; cbn [mbind option_bind]; [|done..].
  destruct (at_send _); [intros [= E]; by apply io_error_not_response in E|].
  rewrite v3_recv_first. destruct (own_arrivals _ _) as [|d ds] eqn:Ho.
  - cbn [mbind option_bind]. destruct (at_error _ _); [intros [= E]; by apply io_error_not_response in E|done].
  - destruct (v3_verdict _ _ _) as [r|] eqn:Hv; cbn [mbind option_bind fmap option_fmap option_map]; [|done].
    intros [= ->]. exists payload, d, ds. split_and!; [by eapply v3_payload_sent|done|]. by apply v3_verdict_trusted.
Qed.

Lemma exchange_result_ok r resp : exchange_result r = Ok resp →
  r = ExResponse resp ∨ resp = mkSnmpResponse 0 [].
Proof. destruct r; simpl; intros; simplify_eq; auto. Qed.

Lemma trusted_set_engine state engine request_id bytes resp :
  trusted (set_engine state engine) request_id bytes resp → trusted state request_id bytes resp.
Proof. intros (reply & params & scoped & e & Ht). by exists reply, params, scoped, e. Qed.

Lemma exchange_trusted ip port state pdu timeout ex state' resp :
  authenticated_exchange ip port state pdu timeout ex = Some (state', Ok resp) →
  resp = mkSnmpResponse 0 [] ∨ ∃ round payload d ds, (round ≤ 1)%nat ∧
    request_sent state (new_request_id (ex_request_clock ex round) port) payload ∧
    own_arrivals ip (at_arrivals (ex_attempt ex round payload) (ex_start ex + timeout)) = d :: ds ∧
    trusted state (new_request_id (ex_request_clock ex round) port) (take SNMP_RECV_BUF_LEN (dg_bytes d)) resp.
Proof.
  unfold authenticated_exchange.
  destruct (one_authenticated_exchange _ _ _ _ _ _ _ 0) as [r|] eqn:H0; cbn [mbind option_bind]; [|done].
  assert (∀ r', r = r' → exchange_result r' = Ok resp → resp = mkSnmpResponse 0 [] ∨
    ∃ round payload d ds, (round ≤ 1)%nat ∧
      request_sent state (new_request_id (ex_request_clock ex round) port) payload ∧
      own_arrivals ip (at_arrivals (ex_attempt ex round payload) (ex_start ex + timeout)) = d :: ds ∧
      trusted state (new_request_id (ex_request_clock ex round) port) (take SNMP_RECV_BUF_LEN (dg_bytes d)) resp) as Hdone.
  { intros r' -> [->| ->]%exchange_result_ok; [right|by left].
    apply one_exchange_trusted in H0 as (payload & d & ds & Hp & Ho & Ht). exists 0%nat, payload, d, ds. eauto. }
  destruct r; try (by intros; apply (Hdone _ eq_refl); simpl in *; congruence).
  destruct (one_authenticated_exchange _ _ _ _ _ _ _ 1) as [r'|] eqn:H1; cbn [mbind option_bind]; [|done].
  intros [= _ E]. apply exchange_result_ok in E as [->| ->]; [right|by left].
  apply one_exchange_trusted in H1 as (payload & d & ds & Hp & Ho & Ht). exists 1%nat, payload, d, ds.
  split_and!; [done|exact Hp|done|]. by eapply trusted_set_engine.
Qed.
(** ** No panic *)

Lemma hmac_truncated_total algo key message : CryptoLaws CL → is_Some (hmac_truncated algo key message).
Proof. intros Hl. destruct (hmac_truncated_length algo key message) as (? & -> & _). done. Qed.

Lemma priv_slice (key : Bytes) n m : (n ≤ m)%nat → (m ≤ length key)%nat →
  is_Some (byte_slice key (Z.of_nat n) (Z.of_nat m)).
Proof. intros Hn Hm. destruct (key_slice key n m Hn Hm) as (? & -> & _). done. Qed.

Lemma des_key_slices (key : Bytes) : (16 ≤ length key)%nat →
  is_Some (byte_slice key 0 8) ∧ is_Some (byte_slice key 8 16).
Proof. intros Hk. split; [apply (priv_slice key 0 8)|apply (priv_slice key 8 16)]; lia. Qed.

Lemma aes_key_slice (key : Bytes) n : (n ≤ length key)%nat →
  ∃ part, byte_slice key 0 (Z.of_nat n) = Some part ∧ length part = n.
Proof.
  intros Hk. destruct (key_slice key 0 n) as (part & Hp & Hl); [lia|done|].
  exists part. split; [done|lia].
Qed.

(** Past the check of the key's length. *)
Ltac key_long_enough key Hl :=
  match goal with
  | |- context [(length key <? ?n)%nat] => destruct (Nat.ltb_spec (length key) n) as [|Hl]; [done|]
  end.

Lemma decrypt_total algo key boots time params bytes :
  is_Some (decrypt_scoped_pdu algo key boots time params bytes).
Proof.
  unfold decrypt_scoped_pdu, aes_cfb_decrypt. destruct (decide (algo = Des)) as [->|Hd].
  - destruct (Nat.ltb_spec (length key) 16); [done|]. destruct (negb _); [done|].
    destruct (des_key_slices key) as [[a ->] [b ->]]; [lia|]. done.
  - destruct algo; [done|..]; cbn [priv_key_len];
      key_long_enough key Hl;
      (destruct (Nat.eqb_spec (length params) 8) as [Hp|]; [|done]);
      destruct (aes_key_slice key _ Hl) as (part & -> & Hpl); cbn [negb mbind option_bind];
      rewrite Hpl, aes_iv_length by done; done.
Qed.

Lemma encrypt_total algo key boots time salt bytes : length salt = 8%nat →
  is_Some (encrypt_scoped_pdu algo key boots time salt bytes).
Proof.
  intros Hs. unfold encrypt_scoped_pdu, aes_cfb_encrypt. destruct (decide (algo = Des)) as [->|Hd].
  - destruct (Nat.ltb_spec (length key) 16); [done|].
    destruct (des_key_slices key) as [[a ->] [b ->]]; [lia|]. done.
  - destruct algo; [done|..]; cbn [priv_key_len];
      key_long_enough key Hl;
      destruct (aes_key_slice key _ Hl) as (part & -> & Hpl); cbn [negb mbind option_bind];
      rewrite Hpl, aes_iv_length by done; done.
Qed.

Lemma next_salt_length clock seq : length (next_salt clock seq) = 8%nat.
Proof. apply to_be_bytes_length. Qed.

Lemma v3_payload_total state engine pdu msg_id request_id salt :
  CryptoLaws CL → length salt = 8%nat → is_Some (v3_payload state engine pdu msg_id request_id salt).
Proof.
  intros Hlaws Hs. unfold v3_payload. destruct (encode_scoped _) as [plain|]; [|done].
  assert (∃ sealed, (match v3_security_level state, v3_privacy state with
    | AuthPriv, Some (algo, _) =>
        enc ← encrypt_scoped_pdu algo (v3_priv_key state) (es_engine_boots engine)
                (es_engine_time engine) salt plain;
        Some match enc with
             | Ok e => Ok (EncryptedPduData (ep_ciphertext e), ep_privacy_parameters e)
             | Err e => Err (s! "snmp v3 encrypt failed: " ++ crypto_error_display e)
             end
    | _, _ => Some (Ok (CleartextPdu (build_scoped_pdu engine pdu request_id), []))
    end) = Some sealed) as (sealed & ->).
  { destruct (v3_security_level state), (v3_privacy state) as [[algo pw]|]; try by eexists.
    destruct (encrypt_total algo (v3_priv_key state) (es_engine_boots engine) (es_engine_time engine) salt plain Hs)
      as [enc ->]. by eexists. }
  cbn [mbind option_bind]. destruct sealed as [[sd pp]|]; [|done]. cbv zeta.
  destruct (encode_usm _); [|done].
  destruct (v3_security_level state), (v3_auth state) as [[algo pw]|]; try done;
    (destruct (encode_v3 _) as [enc|]; [|done]);
    destruct (hmac_truncated_total algo (v3_auth_key state) enc Hlaws) as [code ->]; done.
Qed.

Lemma verify_total reply auth key params : CryptoLaws CL → is_Some (verify_response_auth reply auth key params).
Proof.
  intros Hlaws. unfold verify_response_auth. destruct auth as [[algo pw]|]; [|done].
  destruct (negb _); [done|]. destruct (encode_usm _); [|done]. destruct (encode_v3 _) as [enc|]; [|done].
  destruct (hmac_truncated_total algo key enc Hlaws) as [code ->]. done.
Qed.

Lemma v3_verdict_total state request_id bytes : CryptoLaws CL → is_Some (v3_verdict state request_id bytes).
Proof.
  intros Hlaws. unfold v3_verdict. destruct (decode_v3 bytes) as [reply|]; [|done].
  destruct (decode_usm _) as [params|]; [|done]. cbv zeta.
  assert (∃ v, (if negb (Z.land (default 0 (head (hd_flags (m3_global_data reply)))) 1 =? 0)
    then verify_response_auth reply (v3_auth state) (v3_auth_key state) params else Some true) = Some v) as [v ->].
  { case_match; [|by eexists]. by apply verify_total. }
  cbn [mbind option_bind]. destruct (negb v); [done|].
  assert (∀ engine, is_Some (extract_scoped_pdu reply (v3_privacy state) (v3_priv_key state) engine params)) as Hx.
  { intros engine. unfold extract_scoped_pdu. destruct (m3_scoped_data reply); [done|].
    destruct (v3_privacy state) as [[algo pw]|]; [|done].
    destruct (decrypt_total algo (v3_priv_key state) (es_engine_boots engine) (es_engine_time engine)
      (up_privacy params) bytes0) as [p ->]. done. }
  edestruct Hx as [sc ->]. cbn [mbind option_bind]. repeat case_match; done.
Qed.

Lemma one_exchange_total ip port state engine pdu deadline ex round : CryptoLaws CL →
  is_Some (one_authenticated_exchange ip port state engine pdu deadline ex round).
Proof.
  intros Hlaws. unfold one_authenticated_exchange.
  edestruct v3_payload_total as [p ->]; [done|apply next_salt_length|]. cbn [mbind option_bind].
  destruct p as [payload|]; [|done]. destruct (at_send _); [done|]. rewrite v3_recv_first.
  destruct (own_arrivals _ _) as [|d ds]; cbn [mbind option_bind]; [by case_match|].
  edestruct v3_verdict_total as [v ->]; done.
Qed.

Lemma exchange_total ip port state pdu timeout ex : CryptoLaws CL →
  is_Some (authenticated_exchange ip port state pdu timeout ex).
Proof.
  intros Hlaws. unfold authenticated_exchange.
  edestruct one_exchange_total as [r ->]; [done|]. cbn [mbind option_bind].
  destruct r; try done. edestruct one_exchange_total as [r' ->]; done.
Qed.
Lemma exchange_keeps_keys ip port state pdu timeout ex state' r :
  authenticated_exchange ip port state pdu timeout ex = Some (state', r) →
  v3_auth state' = v3_auth state ∧ v3_auth_key state' = v3_auth_key state ∧ v3_priv_key state' = v3_priv_key state.
Proof.
  unfold authenticated_exchange. destruct (one_authenticated_exchange _ _ _ _ _ _ _ 0) as [x|]; cbn [mbind option_bind]; [|done].
  destruct x; try (by intros [= <- _]).
  destruct (one_authenticated_exchange _ _ _ _ _ _ _ 1); cbn [mbind option_bind]; [|done]. by intros [= <- _].
Qed.

(** C16. Data of an SNMPv3 session is authentic. Whatever arrives, an exchange ends without a panic
    after two rounds at most and leaves the session's keys as they are; and unless the response
    it returns is the empty one, it was read from the first datagram of the target in one of the
    rounds, before the deadline: a message whose PDU, in the clear or under the session's privacy
    key, is a response with the identifier of the request sent in that round, whose error status and
    bindings are returned, and which, in a session with authentication, carries the code of its own
    bytes under the session's key, at the full length of the algorithm. *)
Theorem v3_data_authenticated `{CW : !CryptoLaws CL} (ip : IpAddr) (port : Z) (state : V3Session)
    (pdu : RequestPdu) (timeout : Z) (ex : Exchange) :
  ∃ state' r, authenticated_exchange ip port state pdu timeout ex = Some (state', r) ∧
    v3_auth_key state' = v3_auth_key state ∧ v3_priv_key state' = v3_priv_key state ∧
    ∀ resp, r = Ok resp → resp = mkSnmpResponse 0 [] ∨
      ∃ round request_id payload d ds, (round ≤ 1)%nat ∧
        request_sent state request_id payload ∧
        own_arrivals ip (at_arrivals (ex_attempt ex round payload) (ex_start ex + timeout)) = d :: ds ∧
        trusted state request_id (take SNMP_RECV_BUF_LEN (dg_bytes d)) resp.
Proof.
  destruct (exchange_total ip port state pdu timeout ex CW) as [[state' r] He].
  destruct (exchange_keeps_keys _ _ _ _ _ _ _ _ He) as (_ & Hk & Hp).
  exists state', r. split_and!; try done. intros resp ->. apply exchange_trusted in He as [->|(round & payload & d & ds & ? & ? & ? & ?)]; [by left|right].
  by eexists round, _, payload, d, ds.
Qed.

(** ** Community exchanges *)

Lemma snmp_recv_head {R} (on_datagram : Bytes → option R) ip arrivals :
  snmp_recv on_datagram ip arrivals =
  head (omap (λ d, on_datagram (take SNMP_RECV_BUF_LEN (dg_bytes d))) (own_arrivals ip arrivals)).
Proof.
  induction arrivals as [|d rest IH]; [done|]. cbn [snmp_recv]. unfold own_arrivals in *.
  destruct (decide (dg_peer d = ip)) as [E|E].
  - rewrite bool_decide_true, filter_cons_True by done. cbn [negb omap list_omap].
    destruct (on_datagram _); [done|]. apply IH.
  - rewrite bool_decide_false, filter_cons_False by done. apply IH.
Qed.

(** The verdicts on the target's datagrams in time, in the order they arrive. *)
Definition verdicts {R} (on_datagram : Bytes → option R) ip (a : Attempt) per overall : list R :=
  omap (λ d, on_datagram (take SNMP_RECV_BUF_LEN (dg_bytes d)))
    (own_arrivals ip (at_arrivals a (attempt_deadline a per overall))).

Definition unanswered {R} (on_datagram : Bytes → option R) ip a per overall : Prop :=
  at_send a = None ∧ verdicts on_datagram ip a per overall = [] ∧
  at_error a (attempt_deadline a per overall) = None ∧ at_after a < overall.

Lemma snmp_attempts_ok {R} (on_datagram : Bytes → option (Result SnmpError R)) payload ip ex per overall n i (r : R) :
  snmp_attempts on_datagram payload ip ex per overall n i = Ok r ↔
  ∃ k, (k < n)%nat ∧
    (∀ m, (m < k)%nat → unanswered on_datagram ip (ex_attempt ex (i + m)%nat payload) per overall) ∧
    at_send (ex_attempt ex (i + k)%nat payload) = None ∧
    ∃ vs, verdicts on_datagram ip (ex_attempt ex (i + k)%nat payload) per overall = Ok r :: vs.
Proof.
  revert i. induction n as [|n IH]; intros i; [split; [done|intros (k & ? & _); lia]|].
  rewrite (first_such (λ j, unanswered on_datagram ip (ex_attempt ex j payload) per overall)
    (λ j, at_send (ex_attempt ex j payload) = None ∧
       ∃ vs, verdicts on_datagram ip (ex_attempt ex j payload) per overall = Ok r :: vs)), <-IH.
  cbn [snmp_attempts]. rewrite snmp_recv_head. unfold unanswered, verdicts.
  destruct (ex_attempt ex i payload) as [[e|] sent arr err after]; cbn [at_send at_sent at_arrivals at_error at_after].
  { naive_solver. }
  set (deadline := attempt_deadline _ per overall).
  destruct (omap _ (own_arrivals ip (arr deadline))) as [|v vs]; cbn [head]; [|destruct v; naive_solver].
  destruct (err deadline) as [e|]; [naive_solver|].
  destruct (Z.leb_spec overall after); [|naive_solver].
  split; [done|intros [(_ & vs & [=])|((_ & _ & _ & ?) & _)]; lia].
Qed.

Lemma community_verdict_ok version id bytes resp :
  community_verdict version id bytes = Some (Ok resp) ↔ decode_community_response version bytes id = VerdictResponse resp.
Proof. unfold community_verdict. destruct (decode_community_response version bytes id); naive_solver. Qed.

Lemma verdicts_source {R} (on_datagram : Bytes → option R) ip a per overall r :
  r ∈ verdicts on_datagram ip a per overall →
  ∃ d, d ∈ at_arrivals a (attempt_deadline a per overall) ∧ dg_peer d = ip ∧
    on_datagram (take SNMP_RECV_BUF_LEN (dg_bytes d)) = Some r.
Proof.
  unfold verdicts. rewrite list_elem_of_omap. intros (d & Hd & Hr). unfold own_arrivals in Hd.
  apply list_elem_of_filter in Hd as [Hp Hd]. eauto.
Qed.

(** An exchange under a community returns a response exactly when some attempt within the
    retries, after attempts that got none, has as first verdict on the datagrams of the target
    that reach it before its deadline a response with the identifier of the request: datagrams
    of other peers, other PDUs and stale identifiers are passed over. *)
Theorem community_answer_matches (ip : IpAddr) (port : Z) (version : SnmpVersion) (community : Str)
    (pdu : RequestPdu) (timeout retries : Z) (ex : Exchange) (payload : Bytes) (resp : SnmpResponse) :
  let id := new_request_id (ex_request_clock ex 0) port in
  let per := per_attempt_timeout timeout retries in
  let overall := ex_start ex + timeout in
  let verdict := community_verdict version id in
  encode_community_message version community pdu id = Ok payload → 0 ≤ retries →
  (community_exchange ip port version community pdu timeout retries ex = Ok resp ↔
   ∃ k, Z.of_nat k ≤ retries ∧
     (∀ m, (m < k)%nat → unanswered verdict ip (ex_attempt ex m payload) per overall) ∧
     at_send (ex_attempt ex k payload) = None ∧
     ∃ vs, verdicts verdict ip (ex_attempt ex k payload) per overall = Ok resp :: vs) ∧
  (community_exchange ip port version community pdu timeout retries ex = Ok resp →
   ∃ k d, Z.of_nat k ≤ retries ∧ dg_peer d = ip ∧
     d ∈ at_arrivals (ex_attempt ex k payload) (attempt_deadline (ex_attempt ex k payload) per overall) ∧
     decode_community_response version (take SNMP_RECV_BUF_LEN (dg_bytes d)) id = VerdictResponse resp).
Proof.
  cbv zeta. intros Hp Hr. unfold community_exchange. rewrite Hp, snmp_attempts_ok.
  split.
  - split; intros (k & Hk & Hrest); exists k; (split; [lia|done]).
  - intros (k & Hk & _ & _ & vs & Hv).
    destruct (verdicts_source (community_verdict version (new_request_id (ex_request_clock ex 0) port)) ip
      (ex_attempt ex k payload) (per_attempt_timeout timeout retries) (ex_start ex + timeout) (Ok resp))
      as (d & Hd & Hpeer & Hc); [simpl in Hv; rewrite Hv; left|].
    exists k, d. split_and!; [lia|done|done|]. by apply community_verdict_ok.
Qed.

End snmp.

(** ** A codec of one byte, for the witnesses

    A v2c message is its request identifier; a v3 message has a valid code exactly when its byte
    is even. *)
Definition sample_scoped : ScopedPdu :=
  mkScopedPdu [1] [] (V2Response (mkV2Pdu 0 0 0 [(OID_SYS_NAME, V2String [114; 49])])).

Definition byte_codec : BerLib := {|
  encode_v1 _ := Ok [1]; decode_v1 _ := None;
  encode_v2c _ := Ok [1];
  decode_v2c bs := (λ b, mkV2cMessage 1 [] (V2Response (mkV2Pdu b 0 0 []))) <$> head bs;
  encode_v3 _ := Ok [1];
  decode_v3 bs := (λ b, mkV3Message 3 (mkHeaderData 1 65507 [5] 3) [b] (CleartextPdu sample_scoped)) <$> head bs;
  encode_scoped _ := Ok [1]; decode_scoped _ := None;
  encode_usm _ := Ok [1];
  decode_usm bs := (λ b, mkUsmParameters [1] 1 1 [] (replicate 12 (b mod 2)) []) <$> head bs;
|}.

#[local] Existing Instance sample_errors.
#[local] Existing Instance plain_io.
#[local] Existing Instance byte_codec.
#[local] Existing Instance plain_crypto.

Definition quiet_ex (arrivals : list Datagram) : Exchange :=
  mkExchange 0 (λ _, None) (λ _, None) (λ _, 0) (λ _, None) (λ _, 0)
    (λ i _, mkAttempt None (Z.of_nat i) (λ _, arrivals) (λ _, None) (Z.of_nat i + 1)).

Lemma community_answer_matches_witness :
  community_exchange sample_host 161 SnmpV2c (s! "public") (Get [OID_SYS_NAME]) 1000000000 1
    (quiet_ex [mkDatagram [0] (V4 9); mkDatagram [5] sample_host; mkDatagram [0] sample_host]) =
  Ok (mkSnmpResponse 0 []).
Proof.
  refine (proj2 (proj1 (community_answer_matches sample_host 161 SnmpV2c (s! "public") (Get [OID_SYS_NAME])
    1000000000 1 _ [1] (mkSnmpResponse 0 []) _ _)) _); [done|lia|].
  exists 0%nat. split_and!; [lia|lia|done|]. eexists. by vm_compute.
Defined.

Definition sample_session : V3Session :=
  mkV3Session (s! "admin") AuthNoPriv (Some (Sha1, s! "secret")) None [] [] (mkEngineSnapshot [1] 1 1).

Lemma v3_data_authenticated_witness :
  snd <$> authenticated_exchange sample_host 161 sample_session (Get [OID_SYS_NAME]) 1000000000
    (quiet_ex [mkDatagram [2] sample_host]) =
    Some (Ok (mkSnmpResponse 0 [mkVarBind OID_SYS_NAME (VBytes [114; 49])])) ∧
  ∃ state' r, authenticated_exchange sample_host 161 sample_session (Get [OID_SYS_NAME]) 1000000000
      (quiet_ex [mkDatagram [2] sample_host]) = Some (state', r) ∧ v3_auth_key state' = [].
Proof.
  split; [by vm_compute|].
  destruct (v3_data_authenticated (CW := plain_crypto_laws) sample_host 161 sample_session (Get [OID_SYS_NAME])
    1000000000 (quiet_ex [mkDatagram [2] sample_host])) as (state' & r & He & Hk & _).
  exists state', r. split; [exact He|exact Hk].
Defined.

(** A message with a wrong code gives no data. *)
Example forged_code_refused :
  snd <$> authenticated_exchange sample_host 161 sample_session (Get [OID_SYS_NAME]) 1000000000
    (quiet_ex [mkDatagram [3] sample_host]) = Some (Ok (mkSnmpResponse 0 [])).
Proof. by vm_compute. Qed.

(** A report without any code moves the engine of an authenticated session. *)
Definition report_codec : BerLib := {|
  encode_v1 _ := Ok [1]; decode_v1 _ := None; encode_v2c _ := Ok [1]; decode_v2c _ := None;
  encode_v3 _ := Ok [1];
  decode_v3 _ := Some (mkV3Message 3 (mkHeaderData 1 65507 [0] 3) []
    (CleartextPdu (mkScopedPdu [] [] (V2Report (mkV2Pdu 0 0 0 [(OID_STATS_NOT_IN_TIME_WINDOW, V2Application)])))));
  encode_scoped _ := Ok [1]; decode_scoped _ := None; encode_usm _ := Ok [1];
  decode_usm _ := Some (mkUsmParameters [66] 7 7 [] [] []);
|}.

Example forged_report_moves_engine :
  (v3_engine ∘ fst) <$> authenticated_exchange (BL := report_codec) sample_host 161 sample_session
    (Get [OID_SYS_NAME]) 1000000000 (quiet_ex [mkDatagram [3] sample_host]) =
  Some (mkEngineSnapshot [66] 7 7).
Proof. by vm_compute. Qed.
