(* ===== verification/Lldp.v ===== *)
(** * LLDP neighbours: [prober/snmp/walk.rs] and [prober/lldp.rs]

    The bounded walk of a table and the assembly of the neighbours of a device
    from two walked tables. *)

From S2P Require Import Prelude Net F64 Model FuserCore UnionFind Identity Topology Sink Codec Ports.
From S2P Require Import SinkConfig GnmiPath ProberConfig Udp Usm Snmp.

(** ** Walking a subtree: [walk.rs] *)

Definition DEFAULT_MAX_PDUS : nat := 512.
Definition DEFAULT_MAX_REPETITIONS : Z := 20.
Definition V1_NO_SUCH_NAME : Z := 2.

Record WalkBounds : Type := mkWalkBounds {
  wb_max_rows : Z;
  wb_max_pdus : nat;
  wb_max_repetitions : Z;
}.

Definition walk_bounds_new (max_rows : Z) : WalkBounds :=
  mkWalkBounds max_rows DEFAULT_MAX_PDUS DEFAULT_MAX_REPETITIONS.

Abbreviation Row := (Oid * VarValue)%type.

Inductive WalkStep : Type := WalkContinue (next : Oid) | WalkStop.

Definition oid_within_subtree (base oid : Oid) : bool :=
  (length base <? length oid)%nat && bool_decide (take (length base) oid = base).

(** The loop over the bindings of a response. *)
Fixpoint absorb_bindings (base : Oid) (var_binds : list VarBind) (rows : list Row) (last : option Oid)
    (max_rows : Z) : list Row * WalkStep :=
  match var_binds with
  | [] => (rows, match last with Some oid => WalkContinue oid | None => WalkStop end)
  | vb :: rest =>
      if negb (oid_within_subtree base (vb_name vb)) then (rows, WalkStop)
      else match vb_value vb with
      | EndOfMibView => (rows, WalkStop)
      | NoSuchObject | NoSuchInstance => absorb_bindings base rest rows (Some (vb_name vb)) max_rows
      | value =>
          let rows := rows ++ [(vb_name vb, value)] in
          if max_rows <=? Z.of_nat (length rows) then (rows, WalkStop)
          else absorb_bindings base rest rows (Some (vb_name vb)) max_rows
      end
  end.

Definition absorb_batch (base : Oid) (resp : SnmpResponse) (is_v1 : bool) (rows : list Row) (max_rows : Z)
    : list Row * WalkStep :=
  if is_v1 && (sr_error_status resp =? V1_NO_SUCH_NAME) then (rows, WalkStop)
  else absorb_bindings base (sr_var_binds resp) rows None max_rows.

Definition walk_pdu (use_bulk : bool) (bounds : WalkBounds) (next : Oid) : RequestPdu :=
  if use_bulk then GetBulk 0 (wb_max_repetitions bounds) [next] else GetNext [next].

Section walking.
Context {S : Type} (request : nat → S → RequestPdu → Z → option (S * Result SnmpError SnmpResponse)).

(** The loop, [n] requests from the [k]th on; [now k] is the instant before the [k]th. *)
Fixpoint walk_loop (use_bulk : bool) (base : Oid) (bounds : WalkBounds) (deadline : Z) (now : nat → Z)
    (n k : nat) (session : S) (rows : list Row) (next : Oid) : option (S * Result SnmpError (list Row)) :=
  match n with
  | O => Some (session, Ok rows)
  | Datatypes.S n' =>
      let remaining := saturating_sub deadline (now k) in
      if remaining =? 0 then Some (session, Ok rows)
      else
        '(session, r) ← request k session (walk_pdu use_bulk bounds next) remaining;
        match r with
        | Err e => Some (session, if is_empty rows then Err e else Ok rows)
        | Ok resp =>
            match absorb_batch base resp (negb use_bulk) rows (wb_max_rows bounds) with
            | (rows, WalkContinue next) =>
                walk_loop use_bulk base bounds deadline now n' (Datatypes.S k) session rows next
            | (rows, WalkStop) => Some (session, Ok rows)
            end
        end
  end.

End walking.

Section lldp.
Context `{IE : IoErrors, BL : BerLib, CL : CryptoLib, UC : UnicodeCase}.

(** What a walk meets: its first instant, the instant before each request, and the requests. *)
Record WalkNet : Type := mkWalkNet {
  wn_start : Z;
  wn_now : nat → Z;
  wn_exchange : nat → Exchange;
}.

Definition walk (session : SnmpSession) (base : Oid) (bounds : WalkBounds) (timeout retries : Z)
    (net : WalkNet) : option (SnmpSession * Result SnmpError (list Row)) :=
  walk_loop (λ k s pdu remaining, snmp_request s pdu remaining retries (wn_exchange net k))
    (supports_getbulk session) base bounds (wn_start net + timeout) (wn_now net) (wb_max_pdus bounds) 0
    session [] base.

(** ** Cells and texts: [lldp.rs] *)

Definition OID_LLDP_LOC_CHASSIS_ID_SUBTYPE : Oid := [1; 0; 8802; 1; 1; 2; 1; 3; 1; 0].
Definition OID_LLDP_LOC_CHASSIS_ID : Oid := [1; 0; 8802; 1; 1; 2; 1; 3; 2; 0].
Definition OID_LLDP_REM_ENTRY : Oid := [1; 0; 8802; 1; 1; 2; 1; 4; 1; 1].
Definition OID_LLDP_LOC_PORT_ENTRY : Oid := [1; 0; 8802; 1; 1; 2; 1; 3; 7; 1].
Definition REM_COL_CHASSIS_SUBTYPE : Z := 4.
Definition REM_COL_CHASSIS_ID : Z := 5.
Definition REM_COL_PORT_SUBTYPE : Z := 6.
Definition REM_COL_PORT_ID : Z := 7.
Definition REM_COL_PORT_DESC : Z := 8.
Definition REM_COL_SYS_NAME : Z := 9.
Definition LOC_COL_PORT_ID : Z := 3.
Definition LOC_COL_PORT_DESC : Z := 4.
Definition PORT_SUBTYPE_MAC : Z := 3.
Definition PORT_SUBTYPE_NETWORK_ADDRESS : Z := 4.

(** [{:02x}]. *)
Definition fmt_hex2 (b : Z) : Str := [digit_char (b / 16); digit_char (b mod 16)].

Definition hex_string (bytes : Bytes) : Str := mjoin (fmt_hex2 <$> bytes).

Definition mac_or_hex (bytes : Bytes) : Str :=
  if (length bytes =? 6)%nat then normalize_mac (join (s! ":") (fmt_hex2 <$> bytes)) else hex_string bytes.

Definition render_network_address (bytes : Bytes) : Str :=
  match bytes with
  | 1 :: rest => if (length rest =? 4)%nat then ipv4_display (from_be_bytes rest) else hex_string bytes
  | 2 :: rest => if (length rest =? 16)%nat then ipv6_display (from_be_bytes rest) else hex_string bytes
  | _ => hex_string bytes
  end.

Definition render_chassis_id (subtype : Z) (bytes : Bytes) : Str :=
  if subtype =? CHASSIS_SUBTYPE_MAC then mac_or_hex bytes
  else if subtype =? CHASSIS_SUBTYPE_NETWORK_ADDRESS then render_network_address bytes
  else sanitize_octets bytes.

Definition render_port_id (subtype : Z) (bytes : Bytes) : Str :=
  if subtype =? PORT_SUBTYPE_MAC then mac_or_hex bytes
  else if subtype =? PORT_SUBTYPE_NETWORK_ADDRESS then render_network_address bytes
  else sanitize_octets bytes.

Definition u32_try (x : Z) : option Z := if (0 <=? x) && (x <=? U32_MAX) then Some x else None.

Definition value_as_u32 (value : VarValue) : option Z :=
  match value with VInt i => u32_try i | _ => None end.

Definition value_as_bytes (value : VarValue) : option Bytes :=
  match value with VBytes bytes => Some bytes | _ => None end.

Definition bytes_to_opt_string (bytes : Bytes) : option Str :=
  let s := sanitize_octets bytes in if is_empty s then None else Some s.

(** [None] is an index out of range, [Some None] a row that is no cell of the table. *)
Definition rem_cell (arcs : Oid) : option (option (Z * Oid)) :=
  let base := length OID_LLDP_REM_ENTRY in
  if (length arcs <=? base + 1)%nat || negb (bool_decide (take base arcs = OID_LLDP_REM_ENTRY)) then Some None
  else col ← arcs !! base; Some (Some (col, drop (base + 1) arcs)).

Definition loc_cell (arcs : Oid) : option (option (Z * Z)) :=
  let base := length OID_LLDP_LOC_PORT_ENTRY in
  if negb (length arcs =? base + 2)%nat || negb (bool_decide (take base arcs = OID_LLDP_LOC_PORT_ENTRY))
  then Some None
  else col ← arcs !! base; port_num ← arcs !! (base + 1)%nat; Some (Some (col, port_num)).

(** ** The local chassis *)

Record LocalChassis : Type := mkLocalChassis { lc_id : Str; lc_subtype : Z }.

Definition chassis_step (acc : Z * option Bytes) (vb : VarBind) : Z * option Bytes :=
  let '(subtype, id_bytes) := acc in
  if bool_decide (vb_name vb = OID_LLDP_LOC_CHASSIS_ID_SUBTYPE) then
    match vb_value vb with VInt i => (default 0 (u32_try i), id_bytes) | _ => acc end
  else if bool_decide (vb_name vb = OID_LLDP_LOC_CHASSIS_ID) then
    match vb_value vb with VBytes bytes => (subtype, Some bytes) | _ => acc end
  else acc.

Definition parse_local_chassis (resp : SnmpResponse) : LocalChassis :=
  let '(subtype, id_bytes) := foldl chassis_step (0, None) (sr_var_binds resp) in
  mkLocalChassis (default [] (render_chassis_id subtype <$> id_bytes)) subtype.

(** ** The neighbours *)

Record NeighborColumns : Type := mkNeighborColumns {
  nc_chassis_subtype : option Z;
  nc_chassis_id : option Bytes;
  nc_port_subtype : option Z;
  nc_port_id : option Bytes;
  nc_port_desc : option Bytes;
  nc_sys_name : option Bytes;
}.

Definition columns_default : NeighborColumns := mkNeighborColumns None None None None None None.

Definition set_column (col : Z) (value : VarValue) (e : NeighborColumns) : NeighborColumns :=
  let '(mkNeighborColumns cs ci ps pi pd sn) := e in
  if col =? REM_COL_CHASSIS_SUBTYPE then mkNeighborColumns (value_as_u32 value) ci ps pi pd sn
  else if col =? REM_COL_CHASSIS_ID then mkNeighborColumns cs (value_as_bytes value) ps pi pd sn
  else if col =? REM_COL_PORT_SUBTYPE then mkNeighborColumns cs ci (value_as_u32 value) pi pd sn
  else if col =? REM_COL_PORT_ID then mkNeighborColumns cs ci ps (value_as_bytes value) pd sn
  else if col =? REM_COL_PORT_DESC then mkNeighborColumns cs ci ps pi (value_as_bytes value) sn
  else if col =? REM_COL_SYS_NAME then mkNeighborColumns cs ci ps pi pd (value_as_bytes value)
  else e.

Definition group_row (groups : gmap Oid NeighborColumns) (row : Row) : option (gmap Oid NeighborColumns) :=
  cell ← rem_cell row.1;
  Some match cell with
       | None => groups
       | Some (col, index) =>
           let entry := default columns_default (groups !! index) in
           <[index := set_column col row.2 entry]> groups
       end.

Fixpoint group_rows (groups : gmap Oid NeighborColumns) (rows : list Row) : option (gmap Oid NeighborColumns) :=
  match rows with
  | [] => Some groups
  | row :: rest => groups ← group_row groups row; group_rows groups rest
  end.

Definition port_name_step (acc : gmap Z Str * gmap Z Str) (row : Row) : option (gmap Z Str * gmap Z Str) :=
  let '(ids, descs) := acc in
  cell ← loc_cell row.1;
  Some match cell, row.2 with
       | Some (col, port_num), VBytes bytes =>
           let name := sanitize_octets bytes in
           if col =? LOC_COL_PORT_ID then (<[port_num := name]> ids, descs)
           else if col =? LOC_COL_PORT_DESC then (ids, <[port_num := name]> descs)
           else acc
       | _, _ => acc
       end.

Fixpoint port_name_rows (acc : gmap Z Str * gmap Z Str) (rows : list Row) : option (gmap Z Str * gmap Z Str) :=
  match rows with
  | [] => Some acc
  | row :: rest => acc ← port_name_step acc row; port_name_rows acc rest
  end.

(** [names.extend(ids)]: an identifier replaces a description. *)
Definition local_port_names (loc_rows : list Row) : option (gmap Z Str) :=
  '(ids, descs) ← port_name_rows (∅, ∅) loc_rows; Some (ids ∪ descs).

Definition neighbor_of (loc_names : gmap Z Str) (index : Oid) (cols : NeighborColumns) : LldpNeighbor :=
  let local_port_num := index !! 1%nat in
  let local_port :=
    match local_port_num ≫= (λ n, loc_names !! n) with
    | Some name => name
    | None => default [] (fmt_dec <$> local_port_num)
    end in
  let chassis_subtype := default 0 (nc_chassis_subtype cols) in
  let port_subtype := default 0 (nc_port_subtype cols) in
  mkLldpNeighbor local_port
    (default [] (render_chassis_id chassis_subtype <$> nc_chassis_id cols)) chassis_subtype
    (default [] (render_port_id port_subtype <$> nc_port_id cols)) port_subtype
    (nc_port_desc cols ≫= bytes_to_opt_string) (nc_sys_name cols ≫= bytes_to_opt_string).

(** A [BTreeMap] is iterated in the order of its keys. *)
Definition btree_iter {A} (m : gmap Oid A) : list (Oid * A) :=
  omap (λ k, (λ v, (k, v)) <$> m !! k) (merge_sort str_le (elements (dom m))).

Definition assemble_observation (local : LocalChassis) (rem_rows loc_rows : list Row) : option LldpObservation :=
  loc_names ← local_port_names loc_rows;
  groups ← group_rows ∅ rem_rows;
  Some (mkLldpObservation (lc_id local) (lc_subtype local)
          ((λ '(index, cols), neighbor_of loc_names index cols) <$> btree_iter groups) (s! "lldp")).

(** ** One port *)

Inductive LldpPortOutcome : Type :=
  | LldpReached (obs : LldpObservation)
  | LldpAbsent
  | LldpDecodeFailed
  | LldpFault (kind : ProbeErrorKind) (msg : Str)
  | LldpOther (msg : Str).

Record LldpNet : Type := mkLldpNet {
  lx_bind : option IoError;
  lx_start : Z;
  lx_discovery : Exchange;
  lx_chassis_now : Z;
  lx_chassis : Exchange;
  lx_rem_now : Z;
  lx_rem : WalkNet;
  lx_loc_now : Z;
  lx_loc : WalkNet;
}.

(** The session and whether reaching it proved the device, or the outcome without one. *)
Definition lldp_session (net : LldpNet) (ip : IpAddr) (port : Z) (version : SnmpVersion) (community : Str)
    (credentials : UsmCredentials) (timeout retries overall_deadline : Z)
    : option (Result LldpPortOutcome (SnmpSession * bool)) :=
  match version with
  | SnmpV1 | SnmpV2c => Some (Ok (mkSnmpSession ip port (Community version community), false))
  | SnmpV3 =>
      state ← discover_and_derive ip port credentials timeout retries overall_deadline (lx_discovery net);
      Some match state with
           | Ok s => Ok (mkSnmpSession ip port (SessionV3 s), true)
           | Err SnmpAbsent => Err LldpAbsent
           | Err SnmpDecode => Err LldpDecodeFailed
           | Err (SnmpFault kind msg) => Err (LldpFault kind msg)
           | Err (SnmpOther msg) => Err (LldpOther msg)
           end
  end.

Definition lldp_chassis (reachable_from_session : bool) (r : Result SnmpError SnmpResponse)
    : Result LldpPortOutcome LocalChassis :=
  match r with
  | Ok resp => Ok (parse_local_chassis resp)
  | Err SnmpDecode => Err LldpDecodeFailed
  | Err SnmpAbsent => if reachable_from_session then Ok (mkLocalChassis [] 0) else Err LldpAbsent
  | Err (SnmpFault kind msg) => if reachable_from_session then Err (LldpOther msg) else Err (LldpFault kind msg)
  | Err (SnmpOther msg) => Err (LldpOther msg)
  end.

Definition rows_or_default (r : Result SnmpError (list Row)) : list Row :=
  match r with Ok rows => rows | Err _ => [] end.

Definition lldp_probe_port (net : LldpNet) (ip : IpAddr) (port : Z) (version : SnmpVersion) (community : Str)
    (credentials : UsmCredentials) (max_rows timeout retries : Z) : option LldpPortOutcome :=
  match lx_bind net with
  | Some e => Some (LldpOther (s! "snmp bind failed: " ++ io_error_display e))
  | None =>
      let overall_deadline := lx_start net + timeout in
      let until now := saturating_sub overall_deadline now in
      session ← lldp_session net ip port version community credentials timeout retries overall_deadline;
      match session with
      | Err outcome => Some outcome
      | Ok (session, reachable_from_session) =>
          '(session, r) ← snmp_request session
             (Get [OID_LLDP_LOC_CHASSIS_ID_SUBTYPE; OID_LLDP_LOC_CHASSIS_ID])
             (until (lx_chassis_now net)) retries (lx_chassis net);
          match lldp_chassis reachable_from_session r with
          | Err outcome => Some outcome
          | Ok chassis =>
              let bounds := walk_bounds_new max_rows in
              '(session, rem) ← walk session OID_LLDP_REM_ENTRY bounds (until (lx_rem_now net)) retries (lx_rem net);
              '(session, loc) ← walk session OID_LLDP_LOC_PORT_ENTRY bounds (until (lx_loc_now net)) retries
                                  (lx_loc net);
              obs ← assemble_observation chassis (rows_or_default rem) (rows_or_default loc);
              Some (LldpReached obs)
          end
      end
  end.

(** ** The prober *)

Definition lldp_assemble_outcome (target_ip : IpAddr) (now : SystemTime) (observation : option LldpObservation)
    (decode_failed_port : option Z) (last_fault : option ProbeFault) : ProbeOutcome :=
  match observation, decode_failed_port with
  | None, Some port =>
      mkProbeOutcome Lldp target_ip now true []
        (Some (mkProbeFault DecodeFailed
          (s! "lldp reply on port " ++ fmt_dec port ++ s! " could not be decoded"))) None None
  | _, _ =>
      let reachable := match observation with Some _ => true | None => false end in
      mkProbeOutcome Lldp target_ip now reachable [] (surfaced_fault reachable last_fault) observation None
  end.

Definition lldp_fault_on (port : Z) (kind : ProbeErrorKind) (msg : Str) : option ProbeFault :=
  Some (mkProbeFault kind (s! "lldp probe failed on port " ++ fmt_dec port ++ s! ": " ++ msg)).

Definition lldp_fold (acc : option LldpObservation * option Z * option ProbeFault) (r : Z * LldpPortOutcome)
    : option LldpObservation * option Z * option ProbeFault :=
  let '(observation, decode_failed_port, last_fault) := acc in
  let '(port, outcome) := r in
  match outcome with
  | LldpReached obs =>
      (match observation with None => Some obs | o => o end, decode_failed_port, last_fault)
  | LldpAbsent => acc
  | LldpDecodeFailed =>
      (observation, match decode_failed_port with None => Some port | p => p end, last_fault)
  | LldpFault kind msg => (observation, decode_failed_port, lldp_fault_on port kind msg)
  | LldpOther msg => (observation, decode_failed_port, lldp_fault_on port OtherFault msg)
  end.

(** [LldpProber::probe] once [probe_ports] has returned [per_port]. *)
Definition lldp_probe (target_ip : IpAddr) (now : SystemTime) (per_port : list (Z * LldpPortOutcome))
    : ProbeOutcome :=
  let '(observation, decode_failed_port, last_fault) := foldl lldp_fold (None, None, None) per_port in
  lldp_assemble_outcome target_ip now observation decode_failed_port last_fault.

End lldp.
