(* ===== verification/LldpTheorems.v ===== *)
(** * What a walk collects and which neighbours it gives

    Against any agent a walk is bounded and keeps to its subtree; against one
    that answers in the order of its table it collects exactly the rows of the
    subtree. The neighbours are one per row index, in the order of the indices. *)

From S2P Require Import Prelude Net F64 Model FuserCore UnionFind Identity IdentityTheorems Topology TopologyTheorems.
From S2P Require Import Sink Codec Ports SinkConfig GnmiPath ProberConfig Udp UdpTheorems Usm.
From S2P Require Import Snmp SnmpTheorems Lldp.

(** ** The order of identifiers *)

Definition oid_lt (a b : Oid) : Prop := str_leb b a = false.

#[global] Instance oid_lt_dec a b : Decision (oid_lt a b).
Proof. unfold oid_lt. apply _. Defined.

Lemma oid_lt_trans a b c : oid_lt a b → oid_lt b c → oid_lt a c.
Proof.
  unfold oid_lt. intros Hab Hbc. destruct (str_leb c a) eqn:E; [|done].
  destruct (str_leb_total a b) as [H|H]; [|congruence].
  rewrite (str_leb_trans c a b E H) in Hbc. done.
Qed.

Lemma oid_lt_irrefl a : ¬ oid_lt a a.
Proof. unfold oid_lt. by rewrite str_leb_refl. Qed.

(** In a subtree: longer than the base, and beginning with it. *)
Lemma oid_within_subtree_spec base oid :
  oid_within_subtree base oid = true ↔ ∃ x rest, oid = base ++ x :: rest.
Proof.
  unfold oid_within_subtree. rewrite andb_true_iff, Nat.ltb_lt, bool_decide_eq_true. split.
  - intros [Hl Ht]. rewrite <-(take_drop (length base) oid), Ht.
    destruct (drop (length base) oid) as [|x rest] eqn:E; [|by eauto].
    apply (f_equal length) in E. rewrite length_drop in E. simpl in E. lia.
  - intros (x & rest & ->). split; [rewrite length_app; simpl; lia|]. apply take_app_length.
Qed.

Lemma subtree_after_base base oid : oid_within_subtree base oid = true → oid_lt base oid.
Proof.
  intros (x & rest & ->)%oid_within_subtree_spec. unfold oid_lt.
  induction base as [|b base IH]; simpl; [done|]. by rewrite !Z.ltb_irrefl.
Qed.

(** Between the base and a member of its subtree there is nothing else. *)
Lemma subtree_convex base a b :
  oid_within_subtree base b = true → oid_lt base a → oid_lt a b → oid_within_subtree base a = true.
Proof.
  intros (x & rest & ->)%oid_within_subtree_spec Hba Hab. apply oid_within_subtree_spec.
  unfold oid_lt in *. revert a Hba Hab. induction base as [|y base IH]; intros [|z a] Hba Hab;
    simpl in *; try done; [by eauto|].
  destruct (Z.ltb_spec z y); [done|]. destruct (Z.ltb_spec y z).
  - simpl in Hab. done.
  - assert (z = y) as -> by lia. destruct (IH a Hba Hab) as (x' & r' & ->). eauto.
Qed.

(** ** Any agent *)

Definition concrete (v : VarValue) : bool :=
  match v with NoSuchObject | NoSuchInstance | EndOfMibView => false | _ => true end.

Definition row_ok (base : Oid) (row : Row) : Prop :=
  oid_within_subtree base row.1 = true ∧ concrete row.2 = true.

Lemma absorb_bindings_any base vbs rows last max_rows rows' step :
  absorb_bindings base vbs rows last max_rows = (rows', step) →
  (rows = [] ∨ Z.of_nat (length rows) < max_rows) → Forall (row_ok base) rows →
  Forall (row_ok base) rows' ∧ Z.of_nat (length rows') ≤ Z.max 1 max_rows ∧
  (∀ next, step = WalkContinue next → rows' = [] ∨ Z.of_nat (length rows') < max_rows).
Proof.
  revert rows last. induction vbs as [|vb vbs IH]; intros rows last; cbn [absorb_bindings].
  { intros [= <- <-] Hr Hok. split_and!; [done| |done]. destruct Hr as [->|]; simpl; lia. }
  destruct (oid_within_subtree base (vb_name vb)) eqn:Hin; cbn [negb].
  2:{ intros [= <- <-] Hr Hok. split_and!; [done|destruct Hr as [->|]; simpl; lia|done]. }
  assert (∀ v, concrete v = true → vb_value vb = v →
    (let rows := rows ++ [(vb_name vb, v)] in
     if max_rows <=? Z.of_nat (length rows) then (rows, WalkStop)
     else absorb_bindings base vbs rows (Some (vb_name vb)) max_rows) = (rows', step) →
    (rows = [] ∨ Z.of_nat (length rows) < max_rows) → Forall (row_ok base) rows →
    Forall (row_ok base) rows' ∧ Z.of_nat (length rows') ≤ Z.max 1 max_rows ∧
    (∀ next, step = WalkContinue next → rows' = [] ∨ Z.of_nat (length rows') < max_rows)) as Hpush.
  { intros v Hv Heq E Hr Hok. cbv zeta in E.
    assert (Forall (row_ok base) (rows ++ [(vb_name vb, v)])) as Hok'.
    { apply Forall_app_2; [done|]. by constructor. }
    destruct (Z.leb_spec max_rows (Z.of_nat (length (rows ++ [(vb_name vb, v)])))) as [Hm|Hm].
    - simplify_eq. rewrite length_app in *. simpl in *.
      split_and!; [done| |done]. destruct Hr as [->|]; simpl in *; lia.
    - eapply IH; [done|by right|done]. }
  destruct (vb_value vb) eqn:Hv; intros E Hr Hok;
    try (refine (Hpush _ _ eq_refl E Hr Hok); done); try (by eapply IH).
  injection E as <- <-. split_and!; [done|destruct Hr as [->|]; simpl; lia|done].
Qed.

Lemma walk_loop_any {S} (request : nat → S → RequestPdu → Z → option (S * Result SnmpError SnmpResponse))
    use_bulk base bounds deadline now n k session rows next session' rows' :
  walk_loop request use_bulk base bounds deadline now n k session rows next = Some (session', Ok rows') →
  (rows = [] ∨ Z.of_nat (length rows) < wb_max_rows bounds) → Forall (row_ok base) rows →
  Forall (row_ok base) rows' ∧ Z.of_nat (length rows') ≤ Z.max 1 (wb_max_rows bounds).
Proof.
  revert k session rows next. induction n as [|n IH]; intros k session rows next; cbn [walk_loop].
  { intros [= <- <-] Hr Hok. split; [done|]. destruct Hr as [->|]; simpl; lia. }
  cbv zeta. destruct (saturating_sub deadline (now k) =? 0).
  { intros [= <- <-] Hr Hok. split; [done|]. destruct Hr as [->|]; simpl; lia. }
  destruct (request k session (walk_pdu use_bulk bounds next) _) as [[s2 [resp|e]]|]; cbn [mbind option_bind]; [| |done].
  - destruct (absorb_batch base resp (negb use_bulk) rows (wb_max_rows bounds)) as [rows2 step] eqn:Hab.
    intros E Hr Hok.
    assert (Forall (row_ok base) rows2 ∧ Z.of_nat (length rows2) ≤ Z.max 1 (wb_max_rows bounds) ∧
      (∀ next, step = WalkContinue next → rows2 = [] ∨ Z.of_nat (length rows2) < wb_max_rows bounds))
      as (Hok2 & Hl2 & Hc2).
    { unfold absorb_batch in Hab. destruct (negb use_bulk && _).
      - simplify_eq. split_and!; [done|destruct Hr as [->|]; simpl; lia|done].
      - by eapply absorb_bindings_any. }
    destruct step as [next2|]; [|by simplify_eq].
    eapply IH; [done|by eapply Hc2|done].
  - intros E Hr Hok. destruct (is_empty rows); simplify_eq.
    split; [done|]. destruct Hr as [->|]; simpl; lia.
Qed.

(** ** An agent that answers in the order of its table *)

Definition in_subtree (base : Oid) (row : Row) : Prop := oid_within_subtree base row.1 = true.

#[global] Instance in_subtree_dec base row : Decision (in_subtree base row).
Proof. unfold in_subtree. apply _. Defined.

Definition row_lt (a b : Row) : Prop := oid_lt a.1 b.1.

(** The rows behind an identifier. *)
Definition rows_after (mib : list Row) (n : Oid) : list Row := filter (λ r, oid_lt n r.1) mib.

Definition vb_of (row : Row) : VarBind := mkVarBind row.1 row.2.

(** The reply to a request for what follows [n]: one or more of the next rows in order, possibly
    with the end marker behind the last one; at the end the error of v1 or the end marker. *)
Definition answers (mib : list Row) (is_v1 : bool) (n : Oid) (resp : SnmpResponse) : Prop :=
  match rows_after mib n with
  | [] => if is_v1 then sr_error_status resp = V1_NO_SUCH_NAME
          else ∃ name rest, sr_var_binds resp = mkVarBind name EndOfMibView :: rest
  | next =>
      sr_error_status resp ≠ V1_NO_SUCH_NAME ∧ ∃ m tail, (1 ≤ m)%nat ∧
        sr_var_binds resp = (vb_of <$> take m next) ++ tail ∧
        (tail = [] ∨ (length next ≤ m)%nat ∧ ∃ name rest, tail = mkVarBind name EndOfMibView :: rest)
  end.

Lemma filter_none (P : Row → Prop) `{!∀ r, Decision (P r)} l : Forall (λ r, ¬ P r) l → filter P l = [].
Proof. induction 1 as [|x l Hx _ IH]; [done|]. by rewrite filter_cons_False. Qed.

(** The rows of a subtree come first among the rows behind its base. *)
Lemma subtree_first base l : StronglySorted row_lt l → Forall (λ r, oid_lt base r.1) l →
  ∃ Q, l = filter (in_subtree base) l ++ Q ∧ Forall (λ r, ¬ in_subtree base r) Q.
Proof.
  induction 1 as [|x l Hs IH Hx]; intros Hall; [by exists []|].
  apply Forall_cons in Hall as [Hbx Hall]. destruct (decide (in_subtree base x)) as [Hin|Hin].
  - rewrite filter_cons_True by done. destruct (IH Hall) as (Q & HQ & Hno). exists Q.
    split; [|done]. simpl. by rewrite <-HQ.
  - assert (Forall (λ r, ¬ in_subtree base r) l) as Hno.
    { rewrite Forall_forall in *. intros y Hy Hyin. apply Hin.
      apply (subtree_convex base x.1 y.1 Hyin Hbx). by apply Hx. }
    exists (x :: l). rewrite filter_cons_False, (filter_none (in_subtree base)) by done.
    split; [done|]. by constructor.
Qed.

Lemma sorted_filter (P : Row → Prop) `{!∀ r, Decision (P r)} l : StronglySorted row_lt l → StronglySorted row_lt (filter P l).
Proof.
  induction 1 as [|x l Hs IH Hx]; [constructor|]. destruct (decide (P x)).
  - rewrite filter_cons_True by done. constructor; [done|]. rewrite Forall_forall in *.
    intros y [_ Hy]%list_elem_of_filter. by apply Hx.
  - by rewrite filter_cons_False.
Qed.

Lemma rows_after_nth l i r : StronglySorted row_lt l → l !! i = Some r → rows_after l r.1 = drop (S i) l.
Proof.
  intros Hs. revert i. unfold rows_after. induction Hs as [|x l Hs IH Hx]; intros i Hi; [done|].
  destruct i as [|i]; simpl in Hi.
  - simplify_eq. rewrite filter_cons_False by apply oid_lt_irrefl. simpl. rewrite drop_0.
    clear -Hx. induction Hx as [|y l Hy _ IH]; [done|]. by rewrite filter_cons_True, IH.
  - rewrite filter_cons_False.
    + rewrite (IH i Hi). done.
    + rewrite Forall_forall in Hx. intros Hlt. apply (oid_lt_irrefl r.1).
      apply (oid_lt_trans _ x.1); [done|]. apply Hx. by eapply list_elem_of_lookup_2.
Qed.

Lemma rows_after_base mib base i r : StronglySorted row_lt mib → rows_after mib base !! i = Some r →
  rows_after mib r.1 = drop (S i) (rows_after mib base).
Proof.
  intros Hs Hi. rewrite <-(rows_after_nth (rows_after mib base) i r) by (done || by apply sorted_filter).
  unfold rows_after in *. rewrite list_filter_filter_l; [done|]. intros x Hx.
  apply (oid_lt_trans _ r.1); [|done]. apply list_elem_of_lookup_2, list_elem_of_filter in Hi. by destruct Hi.
Qed.

Lemma absorb_concrete base r rest rows last max_rows : in_subtree base r → concrete r.2 = true →
  absorb_bindings base (vb_of r :: rest) rows last max_rows =
  if max_rows <=? Z.of_nat (length (rows ++ [r])) then (rows ++ [r], WalkStop)
  else absorb_bindings base rest (rows ++ [r]) (Some r.1) max_rows.
Proof.
  destruct r as [o v]. unfold in_subtree. simpl. intros -> Hc. by destruct v.
Qed.

(** Absorbing rows of the subtree, followed by rows outside it or by something else. *)
Lemma absorb_rows base lin lout tail rows last max_rows :
  Forall (λ r, concrete r.2 = true) lin → Forall (in_subtree base) lin →
  Forall (λ r, ¬ in_subtree base r) lout → Z.of_nat (length rows) < max_rows →
  absorb_bindings base ((vb_of <$> lin ++ lout) ++ tail) rows last max_rows =
  if max_rows <=? Z.of_nat (length rows + length lin)
  then (rows ++ take (Z.to_nat max_rows - length rows) lin, WalkStop)
  else match lout with
       | [] => absorb_bindings base tail (rows ++ lin)
                 (match list.last lin with Some r => Some r.1 | None => last end) max_rows
       | _ :: _ => (rows ++ lin, WalkStop)
       end.
Proof.
  intros Hc Hin Hout. revert rows last Hc Hin. induction lin as [|r lin IH]; intros rows last Hc Hin Hlt.
  - destruct (Z.leb_spec max_rows (Z.of_nat (length rows + length (@nil Row)))); [simpl in *; lia|].
    rewrite app_nil_r. destruct lout as [|o lout]; [done|]. apply Forall_cons in Hout as [Ho _].
    cbn [app fmap list_fmap absorb_bindings vb_of vb_name]. unfold in_subtree in Ho.
    by rewrite (not_true_is_false _ Ho).
  - apply Forall_cons in Hc as [Hrc Hc]. apply Forall_cons in Hin as [Hri Hin].
    change ((vb_of <$> (r :: lin) ++ lout) ++ tail) with (vb_of r :: ((vb_of <$> lin ++ lout) ++ tail)).
    rewrite absorb_concrete by done. rewrite length_app. cbn [length].
    replace (length rows + S (length lin))%nat with (length rows + 1 + length lin)%nat by lia.
    destruct (Z.leb_spec max_rows (Z.of_nat (length rows + 1))) as [Hm|Hm].
    + destruct (Z.leb_spec max_rows (Z.of_nat (length rows + 1 + length lin))); [|lia].
      replace (Z.to_nat max_rows - length rows)%nat with 1%nat by lia. simpl. by rewrite take_0.
    + rewrite IH; [|done|done|rewrite length_app; simpl; lia]. rewrite length_app. cbn [length].
      destruct (Z.leb_spec max_rows (Z.of_nat (length rows + 1 + length lin))).
      * rewrite <-app_assoc. do 2 f_equal.
        replace (Z.to_nat max_rows - length rows)%nat with (S (Z.to_nat max_rows - (length rows + 1)))%nat by lia.
        done.
      * destruct lout; [|by rewrite <-app_assoc]. rewrite <-app_assoc. f_equal.
        destruct lin as [|r2 lin]; [done|]. rewrite last_cons_cons.
        destruct (list.last (r2 :: lin)) eqn:El; [done|]. by apply last_None in El.
Qed.

Section agent.
Context (mib : list Row) (base : Oid).
Context (Hsorted : StronglySorted row_lt mib) (Hconcrete : Forall (λ r, concrete r.2 = true) mib).

Let P := filter (in_subtree base) mib.

Lemma subtree_prefix : ∃ Q, rows_after mib base = P ++ Q ∧ Forall (λ r, ¬ in_subtree base r) Q.
Proof using Hsorted.
  destruct (subtree_first base (rows_after mib base)) as (Q & HQ & Hno).
  { by apply sorted_filter. }
  { unfold rows_after. apply Forall_forall. intros r [Hr _]%list_elem_of_filter. done. }
  exists Q. split; [|done]. rewrite HQ at 1. f_equal. unfold P, rows_after.
  rewrite list_filter_filter_l; [done|]. intros r Hr. by apply subtree_after_base.
Qed.

(** Where the walk is after [i] rows. *)
Definition position (i : nat) : Oid :=
  match i with O => base | S j => default [] (fst <$> P !! j) end.

Lemma rows_after_position Q i : rows_after mib base = P ++ Q → (i ≤ length P)%nat →
  rows_after mib (position i) = drop i P ++ Q.
Proof using Hsorted.
  intros HA Hi. rewrite <-drop_app_le, <-HA by done. destruct i as [|j]; [by rewrite drop_0|].
  simpl. destruct (lookup_lt_is_Some_2 P j) as [r Hr]; [lia|]. rewrite Hr. simpl.
  apply rows_after_base; [done|]. rewrite HA. by apply lookup_app_l_Some.
Qed.

Lemma subtree_rows_ok : Forall (λ r, concrete r.2 = true) P ∧ Forall (in_subtree base) P.
Proof using Hconcrete.
  rewrite !Forall_forall. split; intros r [Hr Hin]%list_elem_of_filter; [|done].
  rewrite Forall_forall in Hconcrete. by apply Hconcrete.
Qed.

(** A reply without an end marker and without a row outside moves the walk on. *)
Lemma absorb_continue i m max_rows : (1 ≤ m)%nat → (i < length P)%nat →
  let lin := take m (drop i P) in
  Z.of_nat (i + length lin) < max_rows →
  ∃ i', (i < i' ≤ length P)%nat ∧ Z.of_nat i' < max_rows ∧
    absorb_bindings base [] (take i P ++ lin)
      (match list.last lin with Some r => Some r.1 | None => None end) max_rows =
    (take i' P, WalkContinue (position i')).
Proof using Type.
  intros Hm Hi lin Hmax. assert (length lin = m `min` (length P - i))%nat as Hlin.
  { unfold lin. by rewrite length_take, length_drop. }
  exists (i + length lin)%nat. split_and!; [lia|lia|lia|].
  assert (take i P ++ lin = take (i + length lin) P) as ->.
  { unfold lin. rewrite take_take_drop. destruct (Nat.le_gt_cases m (length P - i)).
    - f_equal. rewrite length_take, length_drop. lia.
    - rewrite !take_ge; [done|rewrite length_take, length_drop; lia|lia]. }
  destruct (list.last lin) as [r|] eqn:Hlast; [|apply last_None in Hlast; rewrite Hlast in Hlin; simpl in Hlin; lia].
  simpl. do 2 f_equal. rewrite last_lookup in Hlast. unfold lin in Hlast at 1.
  apply lookup_take_Some in Hlast as [Hlast _]. rewrite lookup_drop in Hlast.
  replace (i + length lin)%nat with (S (i + pred (length lin))) by lia. cbn [position].
  unfold lin in *. by rewrite Hlast.
Qed.

(** One reply takes the walk to the end of what it may collect, or some rows further. *)
Lemma absorb_answer is_v1 resp i max_rows :
  answers mib is_v1 (position i) resp → (i ≤ length P)%nat → Z.of_nat i < max_rows →
  (∃ i', (i < i' ≤ length P)%nat ∧ Z.of_nat i' < max_rows ∧
     absorb_batch base resp is_v1 (take i P) max_rows = (take i' P, WalkContinue (position i'))) ∨
  absorb_batch base resp is_v1 (take i P) max_rows = (take (Z.to_nat max_rows) P, WalkStop).
Proof using Hsorted Hconcrete.
  intros Ha Hi Hm. destruct subtree_prefix as (Q & HA & HQ). destruct subtree_rows_ok as [HcP HiP].
  unfold answers in Ha. rewrite (rows_after_position Q i HA Hi) in Ha. unfold absorb_batch.
  assert (∀ name rest rows last, (length P ≤ Z.to_nat max_rows)%nat →
    absorb_bindings base (mkVarBind name EndOfMibView :: rest) rows last max_rows = (rows, WalkStop)) as Hend.
  { intros. cbn [absorb_bindings vb_name vb_value]. by destruct (negb _). }
  destruct (drop i P ++ Q) as [|x xs] eqn:E.
  - right. apply app_eq_nil in E as [Ed _]. apply (f_equal length) in Ed. rewrite length_drop in Ed. simpl in Ed.
    rewrite !take_ge by lia. destruct is_v1; [by rewrite Ha|]. destruct Ha as (name & rest & ->).
    cbn [andb]. apply Hend. lia.
  - destruct Ha as (Hstatus & m & tail & Hm1 & Hvbs & Htail). rewrite <-E in Hvbs, Htail.
    destruct (Z.eqb_spec (sr_error_status resp) V1_NO_SUCH_NAME); [done|]. rewrite andb_false_r, Hvbs, take_app.
    assert (length (take i P) = i) as Hti by (rewrite length_take; lia).
    rewrite absorb_rows; [|by apply Forall_take, Forall_drop|by apply Forall_take, Forall_drop|by apply Forall_take|lia].
    rewrite Hti. set (lin := take m (drop i P)).
    destruct (Z.leb_spec max_rows (Z.of_nat (i + length lin))) as [Hfull|Hmore].
    { right. f_equal. unfold lin in *. rewrite length_take, length_drop in Hfull.
      rewrite take_take, Nat.min_l by lia. rewrite take_take_drop. f_equal. lia. }
    assert ((length P - i ≤ m)%nat → take i P ++ lin = take (Z.to_nat max_rows) P) as Hall.
    { intros Hge. unfold lin in *. rewrite length_take, length_drop in Hmore.
      rewrite take_take_drop, !take_ge by lia. done. }
    destruct (take (m - length (drop i P)) Q) as [|o os] eqn:El; rewrite length_drop in El.
    + destruct Htail as [->|[Hlen (name & rest & ->)]].
      * left. apply absorb_continue; [done| |done]. destruct (Nat.lt_ge_cases i (length P)); [done|].
        rewrite (drop_ge P) in E by lia. simpl in E. rewrite E in El. destruct (m - _)%nat eqn:Hd; [lia|done].
      * right. rewrite length_app, length_drop in Hlen. rewrite Hall by lia. apply Hend.
        unfold lin in Hmore. rewrite length_take, length_drop in Hmore. lia.
    + right. rewrite Hall; [done|]. destruct (m - (length P - i))%nat eqn:Hd; [done|lia].
Qed.

Lemma walk_loop_agent {S} (request : nat → S → RequestPdu → Z → option (S * Result SnmpError SnmpResponse))
    use_bulk bounds deadline now n k i session :
  (∀ k s nx remaining, ∃ s' resp, request k s (walk_pdu use_bulk bounds nx) remaining = Some (s', Ok resp) ∧
     answers mib (negb use_bulk) nx resp) →
  (∀ k, now k < deadline) → (i ≤ length P)%nat → Z.of_nat i < wb_max_rows bounds → (length P - i < n)%nat →
  ∃ session', walk_loop request use_bulk base bounds deadline now n k session (take i P) (position i) =
    Some (session', Ok (take (Z.to_nat (wb_max_rows bounds)) P)).
Proof using Hsorted Hconcrete.
  intros Hreq Hnow. revert k i session. induction n as [|n IH]; intros k i session Hi Hm Hn; [lia|].
  cbn [walk_loop]. cbv zeta. unfold saturating_sub at 1. specialize (Hnow k).
  destruct (Z.eqb_spec (Z.max 0 (deadline - now k)) 0); [lia|].
  destruct (Hreq k session (position i) (saturating_sub deadline (now k))) as (s' & resp & -> & Ha).
  cbn [mbind option_bind].
  destruct (absorb_answer (negb use_bulk) resp i (wb_max_rows bounds) Ha Hi Hm) as [(i' & Hi' & Hm' & ->)| ->].
  - apply IH; [lia|done|lia].
  - by eexists.
Qed.

End agent.

Lemma walk_loop_total {S} (request : nat → S → RequestPdu → Z → option (S * Result SnmpError SnmpResponse))
    use_bulk base bounds deadline now n k session rows next :
  (∀ k s pdu remaining, is_Some (request k s pdu remaining)) →
  is_Some (walk_loop request use_bulk base bounds deadline now n k session rows next).
Proof.
  intros Hreq. revert k session rows next. induction n as [|n IH]; intros k session rows next; [done|].
  cbn [walk_loop]. cbv zeta. destruct (_ =? 0); [done|].
  destruct (Hreq k session (walk_pdu use_bulk bounds next) (saturating_sub deadline (now k))) as [[s' r] ->].
  cbn [mbind option_bind]. destruct r as [resp|]; [|done].
  destruct (absorb_batch _ _ _ _ _) as [rows2 [next2|]]; [apply IH|done].
Qed.

(** C17. A walk collects its subtree. Whatever an agent answers, a walk that returns rows returns
    concrete values of the subtree, at most [max_rows] of them (one when that is zero), after at most
    [max_pdus] requests. Against an agent that answers every request with the next rows of its
    table in order, as many at a time as it likes, a walk with time left and more requests than
    rows returns exactly the rows of the subtree, in order, or the first [max_rows]. *)
Theorem walk_collects_subtree {S} (request : nat → S → RequestPdu → Z → option (S * Result SnmpError SnmpResponse))
    (use_bulk : bool) (base : Oid) (bounds : WalkBounds) (deadline : Z) (now : nat → Z) (session : S)
    (mib : list Row) :
  let result := walk_loop request use_bulk base bounds deadline now (wb_max_pdus bounds) 0 session [] base in
  let subtree := filter (in_subtree base) mib in
  (∀ session' rows, result = Some (session', Ok rows) →
     Forall (row_ok base) rows ∧ Z.of_nat (length rows) ≤ Z.max 1 (wb_max_rows bounds)) ∧
  (StronglySorted row_lt mib → Forall (λ r, concrete r.2 = true) mib →
   (∀ k s nx remaining, ∃ s' resp, request k s (walk_pdu use_bulk bounds nx) remaining = Some (s', Ok resp) ∧
      answers mib (negb use_bulk) nx resp) →
   (∀ k, now k < deadline) → 1 ≤ wb_max_rows bounds → (length subtree < wb_max_pdus bounds)%nat →
   ∃ session', result = Some (session', Ok (take (Z.to_nat (wb_max_rows bounds)) subtree))).
Proof.
  cbv zeta. split.
  - intros session' rows Hr. by apply (walk_loop_any _ _ _ _ _ _ _ _ _ _ _ _ _ Hr); [left|constructor].
  - intros Hs Hc Hreq Hnow Hm Hp.
    apply (walk_loop_agent mib base Hs Hc request use_bulk bounds deadline now (wb_max_pdus bounds) 0 0 session
      Hreq Hnow); lia.
Qed.

(** An agent that gives two rows at a time. *)
Definition two_at_a_time (mib : list Row) (k : nat) (s : unit) (pdu : RequestPdu) (remaining : Z)
    : option (unit * Result SnmpError SnmpResponse) :=
  let n := default [] (head (pdu_names pdu)) in
  Some (s, Ok (mkSnmpResponse 0
    match rows_after mib n with
    | [] => [mkVarBind n EndOfMibView]
    | next => vb_of <$> take 2 next
    end)).

Lemma two_at_a_time_answers mib k s bounds nx remaining :
  ∃ s' resp, two_at_a_time mib k s (walk_pdu true bounds nx) remaining = Some (s', Ok resp) ∧
    answers mib (negb true) nx resp.
Proof.
  eexists _, _. split; [done|]. unfold answers. cbn [walk_pdu pdu_names head default sr_var_binds sr_error_status].
  change (id nx) with nx.
  destruct (rows_after mib nx) as [|x xs]; [by eexists _, _|]. split; [done|].
  exists 2%nat, []. rewrite app_nil_r. split_and!; [lia|done|by left].
Qed.

Definition sample_mib : list Row :=
  [([1; 2], VInt 1); ([1; 3; 1], VInt 2); ([1; 3; 1; 7], VInt 3); ([1; 3; 2], VInt 4); ([1; 4], VInt 5)].

Lemma walk_collects_subtree_witness :
  ∃ session', walk_loop (two_at_a_time sample_mib) true [1; 3] (walk_bounds_new 4096) 1000 (λ _, 0) 512 0 tt [] [1; 3] =
    Some (session', Ok [([1; 3; 1], VInt 2); ([1; 3; 1; 7], VInt 3); ([1; 3; 2], VInt 4)]).
Proof.
  change [([1; 3; 1], VInt 2); ([1; 3; 1; 7], VInt 3); ([1; 3; 2], VInt 4)] with
    (take (Z.to_nat (wb_max_rows (walk_bounds_new 4096))) (filter (in_subtree [1; 3]) sample_mib)).
  refine (proj2 (walk_collects_subtree (two_at_a_time sample_mib) true [1; 3] (walk_bounds_new 4096) 1000 (λ _, 0) tt
    sample_mib) _ _ _ _ _ _).
  - repeat constructor.
  - repeat constructor.
  - intros. apply two_at_a_time_answers.
  - intros. lia.
  - simpl. lia.
  - apply (bool_decide_unpack _). by vm_compute.
Defined.

(** ** Neighbours *)

(** The cells of one row index, in the order they were walked. *)
Definition cells_of (rows : list Row) (index : Oid) : list (Z * VarValue) :=
  omap (λ row, match rem_cell row.1 with
               | Some (Some (col, i)) => if decide (i = index) then Some (col, row.2) else None
               | _ => None
               end) rows.

(** The last cell of a column. *)
Definition last_cell (col : Z) (cells : list (Z * VarValue)) : option VarValue :=
  last (omap (λ '(c, v), if c =? col then Some v else None) cells).

Definition columns_of (cells : list (Z * VarValue)) : NeighborColumns :=
  mkNeighborColumns (last_cell REM_COL_CHASSIS_SUBTYPE cells ≫= value_as_u32)
    (last_cell REM_COL_CHASSIS_ID cells ≫= value_as_bytes)
    (last_cell REM_COL_PORT_SUBTYPE cells ≫= value_as_u32)
    (last_cell REM_COL_PORT_ID cells ≫= value_as_bytes)
    (last_cell REM_COL_PORT_DESC cells ≫= value_as_bytes)
    (last_cell REM_COL_SYS_NAME cells ≫= value_as_bytes).

Lemma rem_cell_total arcs : is_Some (rem_cell arcs).
Proof.
  unfold rem_cell. destruct (Nat.leb_spec (length arcs) (length OID_LLDP_REM_ENTRY + 1)) as [|Hl]; [done|].
  cbn [orb]. destruct (negb _); [done|].
  destruct (lookup_lt_is_Some_2 arcs (length OID_LLDP_REM_ENTRY)) as [col ->]; [lia|]. done.
Qed.

Lemma loc_cell_total arcs : is_Some (loc_cell arcs).
Proof.
  unfold loc_cell. destruct (Nat.eqb_spec (length arcs) (length OID_LLDP_LOC_PORT_ENTRY + 2)) as [Hl|]; [|done].
  cbn [orb negb]. destruct (negb _); [done|].
  destruct (lookup_lt_is_Some_2 arcs (length OID_LLDP_LOC_PORT_ENTRY)) as [col ->]; [lia|].
  destruct (lookup_lt_is_Some_2 arcs (length OID_LLDP_LOC_PORT_ENTRY + 1)) as [n ->]; [lia|]. done.
Qed.

Lemma last_cell_snoc col cells c v :
  last_cell col (cells ++ [(c, v)]) = if c =? col then Some v else last_cell col cells.
Proof.
  unfold last_cell. rewrite omap_app. cbn [omap list_omap]. destruct (c =? col); [by rewrite last_snoc|].
  by rewrite app_nil_r.
Qed.

Lemma fold_columns cells :
  foldl (λ e '(c, v), set_column c v e) columns_default cells = columns_of cells.
Proof.
  induction cells as [|[c v] cells IH] using rev_ind; [done|].
  rewrite foldl_snoc, IH. unfold columns_of, set_column. rewrite !last_cell_snoc.
  unfold REM_COL_CHASSIS_SUBTYPE, REM_COL_CHASSIS_ID, REM_COL_PORT_SUBTYPE, REM_COL_PORT_ID, REM_COL_PORT_DESC, REM_COL_SYS_NAME.
  repeat match goal with
  | |- context [c =? ?k] => destruct (Z.eqb_spec c k); [subst c; reflexivity|]
  end. reflexivity.
Qed.

Lemma group_rows_lookup rows groups : ∃ groups', group_rows groups rows = Some groups' ∧
  ∀ index, groups' !! index =
    match cells_of rows index with
    | [] => groups !! index
    | cells => Some (foldl (λ e '(c, v), set_column c v e) (default columns_default (groups !! index)) cells)
    end.
Proof.
  revert groups. induction rows as [|row rows IH]; intros groups; [by eexists|].
  cbn [group_rows]. unfold group_row. destruct (rem_cell_total row.1) as [cell Hcell]. rewrite Hcell.
  cbn [mbind option_bind].
  destruct (IH (match cell with
    | None => groups
    | Some (col, index) => <[index := set_column col row.2 (default columns_default (groups !! index))]> groups
    end)) as (groups' & Hg & Hlook).
  exists groups'. split; [by destruct cell as [[]|]|]. intros index. rewrite Hlook.
  unfold cells_of at 2. cbn [omap list_omap]. rewrite Hcell. fold (cells_of rows index).
  destruct cell as [[col i]|]; [|done]. destruct (decide (i = index)) as [->|Hne].
  - rewrite lookup_insert_eq. cbn [default foldl]. by destruct (cells_of rows index).
  - by rewrite lookup_insert_ne.
Qed.

(** The names of one port in a column of the local table, in the order they were walked. *)
Definition names_of (rows : list Row) (col port_num : Z) : list Str :=
  omap (λ row, match loc_cell row.1, row.2 with
               | Some (Some (c, n)), VBytes bytes =>
                   if (c =? col) && (n =? port_num) then Some (sanitize_octets bytes) else None
               | _, _ => None
               end) rows.

(** The identifier of the port, or its description. *)
Definition port_name (rows : list Row) (port_num : Z) : option Str :=
  match last (names_of rows LOC_COL_PORT_ID port_num) with
  | Some name => Some name
  | None => last (names_of rows LOC_COL_PORT_DESC port_num)
  end.

Definition or_held {A} (new old : option A) : option A := match new with Some x => Some x | None => old end.

Lemma last_cons_held {A} (x : A) l : last (x :: l) = or_held (last l) (Some x).
Proof.
  destruct l as [|y l]; [done|]. rewrite last_cons_cons. unfold or_held.
  destruct (last (y :: l)) eqn:E; [done|]. by apply last_None in E.
Qed.

Lemma port_name_rows_lookup rows ids descs : ∃ ids' descs',
  port_name_rows (ids, descs) rows = Some (ids', descs') ∧
  ∀ n, ids' !! n = or_held (last (names_of rows LOC_COL_PORT_ID n)) (ids !! n) ∧
       descs' !! n = or_held (last (names_of rows LOC_COL_PORT_DESC n)) (descs !! n).
Proof.
  revert ids descs. induction rows as [|row rows IH]; intros ids descs; [by eexists _, _|].
  cbn [port_name_rows]. unfold port_name_step. destruct (loc_cell_total row.1) as [cell Hcell]. rewrite Hcell.
  cbn [mbind option_bind]. unfold names_of. cbn [omap list_omap]. rewrite Hcell. fold names_of.
  destruct cell as [[c p]|]; [|apply IH]. destruct (row.2) as [|bytes| | | | | |]; try apply IH.
  destruct (Z.eqb_spec c LOC_COL_PORT_ID) as [->|Hc]; [|destruct (Z.eqb_spec c LOC_COL_PORT_DESC) as [->|Hc2]].
  - destruct (IH (<[p := sanitize_octets bytes]> ids) descs) as (ids' & descs' & Hr & Hl).
    exists ids', descs'. split; [done|]. intros n. destruct (Hl n) as [-> ->]. cbn [Z.eqb Pos.eqb LOC_COL_PORT_ID LOC_COL_PORT_DESC andb].
    split; [|done]. destruct (Z.eqb_spec p n) as [->|Hp].
    + rewrite lookup_insert_eq, last_cons_held. unfold names_of, or_held. by destruct (last _).
    + by rewrite lookup_insert_ne.
  - destruct (IH ids (<[p := sanitize_octets bytes]> descs)) as (ids' & descs' & Hr & Hl).
    exists ids', descs'. split; [done|]. intros n. destruct (Hl n) as [-> ->]. cbn [Z.eqb Pos.eqb LOC_COL_PORT_ID LOC_COL_PORT_DESC andb].
    split; [done|]. destruct (Z.eqb_spec p n) as [->|Hp].
    + rewrite lookup_insert_eq, last_cons_held. unfold names_of, or_held. by destruct (last _).
    + by rewrite lookup_insert_ne.
  - destruct (Z.eqb_spec c LOC_COL_PORT_ID); [done|]. destruct (Z.eqb_spec c LOC_COL_PORT_DESC); [done|]. apply IH.
Qed.

Lemma local_port_names_lookup rows : ∃ names, local_port_names rows = Some names ∧
  ∀ n, names !! n = port_name rows n.
Proof.
  unfold local_port_names. destruct (port_name_rows_lookup rows ∅ ∅) as (ids & descs & -> & Hl).
  cbn [mbind option_bind]. eexists. split; [done|]. intros n. destruct (Hl n) as [Hi Hd].
  rewrite lookup_union, Hi, Hd, !lookup_empty. unfold port_name, or_held.
  destruct (last (names_of rows LOC_COL_PORT_ID n)), (last (names_of rows LOC_COL_PORT_DESC n)); done.
Qed.

Lemma sorted_strict l : StronglySorted str_le l → NoDup l → StronglySorted oid_lt l.
Proof.
  induction 1 as [|x l Hs IH Hx]; intros Hnd; [constructor|]. apply NoDup_cons in Hnd as [Hni Hnd].
  constructor; [by apply IH|]. rewrite Forall_forall in *. intros y Hy. unfold oid_lt.
  destruct (str_leb y x) eqn:E; [|done]. exfalso. apply Hni.
  rewrite (str_leb_antisymm x y); [done|by apply Hx|done].
Qed.

Lemma btree_iter_keys {A} (m : gmap Oid A) (f : Oid → A) :
  (∀ k, k ∈ dom m → m !! k = Some (f k)) →
  btree_iter m = (λ k, (k, f k)) <$> merge_sort str_le (elements (dom m)).
Proof.
  intros Hf. unfold btree_iter.
  assert (∀ k, k ∈ merge_sort str_le (elements (dom m)) → m !! k = Some (f k)) as Hk.
  { intros k Hk. apply Hf. rewrite merge_sort_Permutation in Hk. by apply elem_of_elements. }
  induction (merge_sort str_le (elements (dom m))) as [|k l IH]; [done|].
  cbn [omap list_omap]. rewrite (Hk k) by left. cbn [fmap option_fmap option_map list_fmap]. f_equal.
  apply IH. intros k' Hk'. apply Hk. by right.
Qed.

Section lldp.
Context `{IE : IoErrors, BL : BerLib, CL : CryptoLib, UC : UnicodeCase}.

(** The neighbours of a device. From any rows of the two tables an observation is assembled
    without a panic, with one neighbour per index that occurs in the neighbour table, in the
    lexicographic order of the indices; each column of a neighbour is its last cell, and its local
    port is named by the identifier of that port, else its description, else its number. *)
Theorem lldp_neighbors (local : LocalChassis) (rem_rows loc_rows : list Row) :
  ∃ indices names,
    assemble_observation local rem_rows loc_rows =
      Some (mkLldpObservation (lc_id local) (lc_subtype local)
        ((λ index, neighbor_of names index (columns_of (cells_of rem_rows index))) <$> indices) (s! "lldp")) ∧
    StronglySorted oid_lt indices ∧ (∀ index, index ∈ indices ↔ cells_of rem_rows index ≠ []) ∧
    (∀ n, names !! n = port_name loc_rows n).
Proof.
  unfold assemble_observation. destruct (local_port_names_lookup loc_rows) as (names & -> & Hn).
  destruct (group_rows_lookup rem_rows ∅) as (groups & -> & Hg). cbn [mbind option_bind].
  assert (∀ index, groups !! index = match cells_of rem_rows index with
    | [] => None | _ => Some (columns_of (cells_of rem_rows index)) end) as Hcols.
  { intros index. rewrite Hg, lookup_empty. destruct (cells_of rem_rows index); [done|]. by rewrite <-fold_columns. }
  exists (merge_sort str_le (elements (dom groups))), names. split_and!; [| | |done].
  - rewrite (btree_iter_keys groups (λ index, columns_of (cells_of rem_rows index))).
    + do 2 f_equal. by rewrite <-list_fmap_compose.
    + intros k [v Hv]%elem_of_dom. rewrite Hcols in *. by destruct (cells_of rem_rows k).
  - apply sorted_strict; [apply (StronglySorted_merge_sort str_le)|].
    rewrite merge_sort_Permutation. apply NoDup_elements.
  - intros index. rewrite merge_sort_Permutation, elem_of_elements, elem_of_dom, Hcols.
    destruct (cells_of rem_rows index); split; done.
Qed.

(** ** Folding the ports *)

Definition snmp_reached (r : Z * SnmpPortOutcome) : bool := match r.2 with SnmpReached _ => true | _ => false end.
Definition snmp_signals (r : Z * SnmpPortOutcome) : list Signal := match r.2 with SnmpReached s => s | _ => [] end.
Definition snmp_decode (r : Z * SnmpPortOutcome) : option Z :=
  match r.2 with SnmpDecodeFailed => Some r.1 | _ => None end.
Definition snmp_faulted (r : Z * SnmpPortOutcome) : option ProbeFault :=
  match r.2 with
  | SnmpPortFault kind msg => snmp_fault_on r.1 kind msg
  | SnmpPortOther msg => snmp_fault_on r.1 OtherFault msg
  | _ => None
  end.
Definition lldp_observed (r : Z * LldpPortOutcome) : option LldpObservation :=
  match r.2 with LldpReached obs => Some obs | _ => None end.
Definition lldp_decode (r : Z * LldpPortOutcome) : option Z :=
  match r.2 with LldpDecodeFailed => Some r.1 | _ => None end.
Definition lldp_faulted (r : Z * LldpPortOutcome) : option ProbeFault :=
  match r.2 with
  | LldpFault kind msg => lldp_fault_on r.1 kind msg
  | LldpOther msg => lldp_fault_on r.1 OtherFault msg
  | _ => None
  end.

Lemma snmp_fold_parts rs reach sigs dec fault :
  foldl snmp_fold (reach, sigs, dec, fault) rs =
  (reach || existsb snmp_reached rs, sigs ++ mjoin (snmp_signals <$> rs),
   or_held dec (head (omap snmp_decode rs)), or_held (last (omap snmp_faulted rs)) fault).
Proof.
  revert reach sigs dec fault. induction rs as [|[p o] rs IH]; intros reach sigs dec fault.
  { simpl. rewrite app_nil_r, orb_false_r. by destruct dec. }
  cbn [foldl existsb fmap list_fmap mjoin list_join omap list_omap].
  destruct o; cbn [snmp_fold snmp_reached snmp_signals snmp_decode snmp_faulted snmp_fault_on fst snd app]; rewrite IH;
    rewrite ?orb_true_r, ?orb_true_l, ?orb_false_l, <-?app_assoc, ?last_cons_held; try done.
  all: unfold snmp_fault_on; destruct dec, (last (omap snmp_faulted rs)); done.
Qed.

Lemma lldp_fold_parts rs obs dec fault :
  foldl lldp_fold (obs, dec, fault) rs =
  (or_held obs (head (omap lldp_observed rs)), or_held dec (head (omap lldp_decode rs)),
   or_held (last (omap lldp_faulted rs)) fault).
Proof.
  revert obs dec fault. induction rs as [|[p o] rs IH]; intros obs dec fault.
  { simpl. by destruct obs, dec. }
  cbn [foldl omap list_omap].
  destruct o; cbn [lldp_fold lldp_observed lldp_decode lldp_faulted lldp_fault_on fst snd]; rewrite IH;
    rewrite ?last_cons_held; try done.
  all: unfold lldp_fault_on; destruct obs, dec, (last (omap lldp_faulted rs)); done.
Qed.

(** The multi-port probers report what their ports said. Over the results of a sweep, in port
    order: a UDP or SNMP probe is reachable exactly when some port answered and carries the signals
    of the answers, a TCP probe lists exactly the ports that connected, an LLDP probe carries the
    observation of the first port that gave one; an SNMP or LLDP reply that cannot be decoded
    also proves the device when nothing better did, and the first such port is named; otherwise a
    fault is reported exactly when no port answered and some port broke, that of the last such port. *)
Theorem port_probes_outcome (ip : IpAddr) (now : SystemTime) (us : list (Z * PortOutcome))
    (ts : list (Z * Connect)) (ss : list (Z * SnmpPortOutcome)) (ls : list (Z * LldpPortOutcome)) :
  udp_probe ip now us =
    mkProbeOutcome Udp ip now (existsb is_reached us) (omap reached_signal us)
      (if existsb is_reached us then None else last (omap (λ r, port_fault r.1 r.2) us)) None None ∧
  tcp_probe ip now ts =
    mkProbeOutcome TcpConnect ip now (existsb is_connected ts) (omap connect_signal ts)
      (if existsb is_connected ts then None else last (omap connect_faulted ts)) None None ∧
  snmp_probe ip now ss =
    (if existsb snmp_reached ss
     then mkProbeOutcome Snmp ip now true (mjoin (snmp_signals <$> ss)) None None None
     else match head (omap snmp_decode ss) with
          | Some port => mkProbeOutcome Snmp ip now true []
              (Some (mkProbeFault DecodeFailed
                (s! "snmp reply on port " ++ fmt_dec port ++ s! " could not be decoded"))) None None
          | None => mkProbeOutcome Snmp ip now false [] (last (omap snmp_faulted ss)) None None
          end) ∧
  lldp_probe ip now ls =
    match head (omap lldp_observed ls), head (omap lldp_decode ls) with
    | Some obs, _ => mkProbeOutcome Lldp ip now true [] None (Some obs) None
    | None, Some port => mkProbeOutcome Lldp ip now true []
        (Some (mkProbeFault DecodeFailed
          (s! "lldp reply on port " ++ fmt_dec port ++ s! " could not be decoded"))) None None
    | None, None => mkProbeOutcome Lldp ip now false [] (last (omap lldp_faulted ls)) None None
    end.
Proof.
  split_and!; [apply udp_probe_reads|apply tcp_probe_reads| |].
  - unfold snmp_probe. rewrite snmp_fold_parts. cbn [orb app or_held].
    assert (existsb snmp_reached ss = false → mjoin (snmp_signals <$> ss) = []) as Hnone.
    { induction ss as [|[p o] ss IH]; [done|]. cbn [existsb]. rewrite orb_false_iff. intros [Ho Hr].
      rewrite fmap_cons. destruct o; [done|..]; exact (IH Hr). }
    unfold snmp_assemble_outcome, surfaced_fault, or_held. destruct (existsb snmp_reached ss); [done|].
    rewrite Hnone by done. destruct (head (omap snmp_decode ss)); [done|]. by destruct (last (omap snmp_faulted ss)).
  - unfold lldp_probe. rewrite lldp_fold_parts. cbn [or_held].
    unfold lldp_assemble_outcome, surfaced_fault, or_held. destruct (head (omap lldp_observed ls)); [done|].
    destruct (head (omap lldp_decode ls)); [done|]. by destruct (last (omap lldp_faulted ls)).
Qed.

End lldp.

Section sessions.
Context `{IE : IoErrors, BL : BerLib, CL : CryptoLib, UC : UnicodeCase} {CW : CryptoLaws CL}.

(** ** Sessions are well formed and no probe panics *)

(** The level is that of the algorithms and every key has the length of its algorithm. *)
Definition session_wf (state : V3Session) : Prop :=
  derive_security_level (v3_auth state) (v3_privacy state) = Ok (v3_security_level state) ∧
  (∀ algo pw, v3_auth state = Some (algo, pw) → length (v3_auth_key state) = auth_key_len algo) ∧
  (∀ algo pw, v3_privacy state = Some (algo, pw) → length (v3_priv_key state) = priv_key_len algo).

Lemma discover_and_derive_wf ip port credentials timeout retries overall ex :
  ∃ r, discover_and_derive ip port credentials timeout retries overall ex = Some r ∧
    ∀ state, r = Ok state → session_wf state.
Proof using CW.
  unfold discover_and_derive. cbv zeta.
  destruct (derive_security_level _ _) as [level|] eqn:Hlevel; cbn [map_err]; [|eexists; split; [done|done]].
  destruct (discover_engine _ _ _ _ _ _ _) as [engine|]; [|eexists; split; [done|done]].
  unfold derive_keys. destruct (auth_resolve _) as [[aa apw]|]; destruct (priv_resolve _) as [[pa ppw]|]; try done.
  - destruct (localize_key_length apw (es_engine_id engine) aa) as (k & -> & Hk). cbn [mbind option_bind].
    destruct (derive_priv_key_length ppw (es_engine_id engine) aa pa) as (k2 & -> & Hk2). cbn [mbind option_bind].
    eexists. split; [done|]. intros state [= <-]. split_and!; [done|..]; intros ? ? [= <- <-]; done.
  - destruct (localize_key_length apw (es_engine_id engine) aa) as (k & -> & Hk). cbn [mbind option_bind].
    eexists. split; [done|]. intros state [= <-]. split_and!; [done|..]; [intros ? ? [= <- <-]; done|done].
  - cbn [mbind option_bind]. eexists. split; [done|]. intros state [= <-]. by split_and!.
Qed.

Lemma exchange_wf ip port state pdu timeout ex state' r :
  authenticated_exchange ip port state pdu timeout ex = Some (state', r) → session_wf state → session_wf state'.
Proof using Type.
  unfold authenticated_exchange. destruct (one_authenticated_exchange _ _ _ _ _ _ _ 0) as [x|]; cbn [mbind option_bind]; [|done].
  destruct x; try (by intros [= <- _]).
  destruct (one_authenticated_exchange _ _ _ _ _ _ _ 1); cbn [mbind option_bind]; [|done]. by intros [= <- _].
Qed.

(** A message of a well-formed session fails only when the codec does. *)
Lemma v3_payload_wf state engine pdu msg_id request_id salt e :
  session_wf state → length salt = 8%nat →
  (∀ m, is_ok (encode_v3 m) = true) → (∀ p, is_ok (encode_usm p) = true) → (∀ p, is_ok (encode_scoped p) = true) →
  v3_payload state engine pdu msg_id request_id salt ≠ Some (Err e).
Proof using CW.
  intros (Hlevel & Hak & Hpk) Hs He3 Heu Hes. unfold v3_payload.
  destruct (encode_scoped _) as [plain|] eqn:E; [|specialize (Hes (build_scoped_pdu engine pdu request_id)); by rewrite E in Hes].
  assert (∃ sd pp, (match v3_security_level state, v3_privacy state with
    | AuthPriv, Some (algo, _) =>
        enc ← encrypt_scoped_pdu algo (v3_priv_key state) (es_engine_boots engine)
                (es_engine_time engine) salt plain;
        Some match enc with
             | Ok e => Ok (EncryptedPduData (ep_ciphertext e), ep_privacy_parameters e)
             | Err e => Err (s! "snmp v3 encrypt failed: " ++ crypto_error_display e)
             end
    | _, _ => Some (Ok (CleartextPdu (build_scoped_pdu engine pdu request_id), []))
    end) = Some (Ok (sd, pp))) as (sd & pp & ->).
  { destruct (v3_security_level state), (v3_privacy state) as [[algo pw]|] eqn:Hp; try by eexists _, _.
    specialize (Hpk algo pw eq_refl). unfold encrypt_scoped_pdu, aes_cfb_encrypt.
    destruct (decide (algo = Des)) as [->|Hd].
    - simpl in Hpk. rewrite Hpk. destruct (des_key_slices (v3_priv_key state)) as [[a ->] [b ->]]; [lia|].
      by eexists _, _.
    - destruct (aes_key_slice (v3_priv_key state) (priv_key_len algo)) as (part & Hpart & Hl); [lia|].
      rewrite Hpk, Nat.ltb_irrefl, Hpart. cbn [mbind option_bind].
      rewrite Hl, aes_iv_length, bool_decide_true by done.
      destruct algo; [done|..]; by eexists _, _. }
  cbn [mbind option_bind]. cbv zeta.
  match goal with |- context [encode_usm ?p] => destruct (encode_usm p) eqn:E2; [|specialize (Heu p); by rewrite E2 in Heu] end.
  destruct (v3_auth state) as [[algo pw]|] eqn:Ha; destruct (v3_privacy state) as [[pa ppw]|];
    simpl in Hlevel; simplify_eq; rewrite <-?Hlevel;
    match goal with |- context [encode_v3 ?m] => destruct (encode_v3 m) as [enc|] eqn:E3; [|specialize (He3 m); by rewrite E3 in He3] end;
    cbn [map_err]; try done;
    destruct (hmac_truncated_length algo (v3_auth_key state) enc) as (code & -> & _); cbn [mbind option_bind];
    match goal with |- context [encode_usm ?p] => destruct (encode_usm p) eqn:E4; [|specialize (Heu p); by rewrite E4 in Heu] end;
    cbn [map_err mbind Result_bind];
    match goal with |- context [encode_v3 ?m] => destruct (encode_v3 m) as [enc2|] eqn:E5; [done|specialize (He3 m); by rewrite E5 in He3] end.
Qed.

Lemma snmp_request_total session pdu timeout retries ex : is_Some (snmp_request session pdu timeout retries ex).
Proof using CW.
  unfold snmp_request. destruct (ss_auth session); [done|].
  edestruct exchange_total as [[s r] ->]; done.
Qed.

Lemma snmp_probe_port_total net ip port version community credentials timeout retries :
  is_Some (snmp_probe_port net ip port version community credentials timeout retries).
Proof using CW.
  unfold snmp_probe_port, v3_probe_port. destruct version; [done|done|]. destruct (sn_bind net); [done|]. cbv zeta.
  edestruct discover_and_derive_wf as (r & -> & _). cbn [mbind option_bind]. destruct r as [state|[]]; try done.
  edestruct exchange_total as [[s r] ->]; done.
Qed.

Lemma lldp_probe_port_total net ip port version community credentials max_rows timeout retries :
  is_Some (lldp_probe_port net ip port version community credentials max_rows timeout retries).
Proof using CW.
  unfold lldp_probe_port. destruct (lx_bind net); [done|]. cbv zeta.
  assert (∀ d, is_Some (lldp_session net ip port version community credentials timeout retries d)) as Hs.
  { intros d. unfold lldp_session. destruct version; [done|done|].
    edestruct discover_and_derive_wf as (r & -> & _). done. }
  edestruct Hs as [session ->]. cbn [mbind option_bind]. destruct session as [[session proved]|]; [|done].
  edestruct snmp_request_total as [[session2 r] ->]. cbn [mbind option_bind].
  destruct (lldp_chassis proved r) as [chassis|]; [|done].
  assert (∀ s base b t n, is_Some (walk s base b t retries n)) as Hw.
  { intros. unfold walk. apply walk_loop_total. intros. apply snmp_request_total. }
  edestruct Hw as [[session3 rem] ->]. cbn [mbind option_bind].
  edestruct Hw as [[session4 loc] ->]. cbn [mbind option_bind].
  unfold assemble_observation.
  destruct (local_port_names_lookup (rows_or_default loc)) as (names & -> & _).
  destruct (group_rows_lookup (rows_or_default rem) ∅) as (groups & -> & _). done.
Qed.

(** C18. SNMPv3 sessions are well formed. Discovery never panics, and a session it establishes has the
    security level of its algorithms and keys of their lengths; an exchange keeps this whatever
    the device answers; a well-formed session whose codec does not fail always has a message to
    send (the arm for an impossible level is not reached); and no probe of an SNMP or LLDP port
    panics, whatever arrives. *)
Theorem snmp_sessions_well_formed (ip : IpAddr) (port : Z) (credentials : UsmCredentials)
    (timeout retries overall : Z) (ex : Exchange) :
  (∃ r, discover_and_derive ip port credentials timeout retries overall ex = Some r ∧
     ∀ state, r = Ok state → session_wf state) ∧
  (∀ state pdu ex' state' r, session_wf state →
     authenticated_exchange ip port state pdu timeout ex' = Some (state', r) → session_wf state') ∧
  (∀ state engine pdu msg_id request_id clock seq, session_wf state →
     (∀ m, is_ok (encode_v3 m) = true) → (∀ p, is_ok (encode_usm p) = true) →
     (∀ p, is_ok (encode_scoped p) = true) →
     ∃ payload, v3_payload state engine pdu msg_id request_id (next_salt clock seq) = Some (Ok payload)) ∧
  (∀ net version community, is_Some (snmp_probe_port net ip port version community credentials timeout retries)) ∧
  (∀ net version community max_rows,
     is_Some (lldp_probe_port net ip port version community credentials max_rows timeout retries)).
Proof using CW.
  split_and!.
  - apply discover_and_derive_wf.
  - intros state pdu ex' state' r Hwf He. by eapply exchange_wf.
  - intros state engine pdu msg_id request_id clock seq Hwf H3 Hu Hs.
    destruct (v3_payload_total state engine pdu msg_id request_id (next_salt clock seq) CW)
      as [[payload|e] Hp]; [apply next_salt_length|by eexists|].
    by destruct (v3_payload_wf state engine pdu msg_id request_id (next_salt clock seq) e Hwf (next_salt_length _ _) H3 Hu Hs).
  - intros. apply snmp_probe_port_total.
  - intros. apply lldp_probe_port_total.
Qed.

End sessions.

#[local] Existing Instance sample_errors.
#[local] Existing Instance plain_io.
#[local] Existing Instance byte_codec.
#[local] Existing Instance plain_crypto.
#[local] Existing Instance ascii_case.

Definition sample_credentials : UsmCredentials :=
  mkUsmCredentials (s! "admin") (AuthSha256 (s! "secret")) (PrivAes256 (s! "hidden")).

Lemma snmp_sessions_well_formed_witness :
  ∃ r, discover_and_derive sample_host 161 sample_credentials 1000 0 1000 (quiet_ex [mkDatagram [2] sample_host]) = Some r ∧
    ∀ state, r = Ok state → session_wf state.
Proof.
  exact (proj1 (snmp_sessions_well_formed (CW := plain_crypto_laws) sample_host 161 sample_credentials 1000 0 1000
    (quiet_ex [mkDatagram [2] sample_host]))).
Defined.
