(* ===== verification/Demux.v ===== *)
(** * Replies matched to the probes that wait for them: [prober/demux.rs]

    One reader of a shared socket hands every reply to the probe that registered its key. The
    mutex makes each operation one step, so a run is the sequence of the operations of all probes
    and of the reader; a receiver is the number of its channel, and sending to a receiver that was
    dropped is a write nobody reads. *)

From S2P Require Import Prelude Net Model.

Inductive EngineReply (R : Type) : Type :=
  | EReached (r : R)
  | EFailed (fault : ProbeFault).
Arguments EReached {R} r.
Arguments EFailed {R} fault.

(** A oneshot channel: its sender is alive, has sent, or was dropped. *)
Inductive Channel (R : Type) : Type :=
  | ChWaiting
  | ChSent (reply : EngineReply R)
  | ChClosed.
Arguments ChWaiting {R}.
Arguments ChSent {R} reply.
Arguments ChClosed {R}.

Record Waiter (C : Type) : Type := mkWaiter { wt_context : C; wt_tx : nat }.
Arguments mkWaiter {C} _ _.
Arguments wt_context {C} _.
Arguments wt_tx {C} _.

Record Demux (K C R : Type) `{Countable K} : Type := mkDemux {
  dx_waiters : gmap K (Waiter C);
  dx_poison : option ProbeFault;
  dx_channels : list (Channel R);
}.
Arguments mkDemux {K C R _ _} _ _ _.
Arguments dx_waiters {K C R _ _} _.
Arguments dx_poison {K C R _ _} _.
Arguments dx_channels {K C R _ _} _.

(** What the probes and the reader do to it. *)
Inductive DemuxOp (K C R : Type) : Type :=
  | DRegister (key : K) (context : C)
  | DDispatch (key : K) (reply : EngineReply R)
  | DDeregister (key : K)
  | DPoison (fault : ProbeFault).
Arguments DRegister {K C R} key context.
Arguments DDispatch {K C R} key reply.
Arguments DDeregister {K C R} key.
Arguments DPoison {K C R} fault.

Definition DUPLICATE_KEY : ProbeFault :=
  mkProbeFault OtherFault (s! "duplicate demux key " ++ [8212] ++ s! " engine cannot correlate").

Section demux.
Context {K C R : Type} `{Countable K}.

Definition demux_new : Demux K C R := mkDemux ∅ None [].

(** [Sender::send], and the sender dropped unsent. *)
Definition settle_channel (tx : nat) (c : Channel R) (channels : list (Channel R)) : list (Channel R) :=
  <[tx := c]> channels.

Definition register (key : K) (context : C) (d : Demux K C R) : Demux K C R * nat :=
  let rx := length (dx_channels d) in
  match dx_poison d with
  | Some fault => (mkDemux (dx_waiters d) (dx_poison d) (dx_channels d ++ [ChSent (EFailed fault)]), rx)
  | None =>
      match dx_waiters d !! key with
      | Some existing =>
          (mkDemux (delete key (dx_waiters d)) None
             (settle_channel (wt_tx existing) (ChSent (EFailed DUPLICATE_KEY)) (dx_channels d) ++
              [ChSent (EFailed DUPLICATE_KEY)]), rx)
      | None =>
          (mkDemux (<[key := mkWaiter context rx]> (dx_waiters d)) None (dx_channels d ++ [ChWaiting]), rx)
      end
  end.

Definition waiting_context (key : K) (d : Demux K C R) : option C := wt_context <$> dx_waiters d !! key.

(** [waiters.remove], and what becomes of the sender. *)
Definition remove_waiter (key : K) (c : Channel R) (d : Demux K C R) : Demux K C R :=
  match dx_waiters d !! key with
  | Some waiter =>
      mkDemux (delete key (dx_waiters d)) (dx_poison d) (settle_channel (wt_tx waiter) c (dx_channels d))
  | None => d
  end.

Definition dispatch (key : K) (reply : EngineReply R) (d : Demux K C R) : Demux K C R :=
  remove_waiter key (ChSent reply) d.

Definition deregister (key : K) (d : Demux K C R) : Demux K C R := remove_waiter key ChClosed d.

Definition poison (fault : ProbeFault) (d : Demux K C R) : Demux K C R :=
  match dx_poison d with
  | Some _ => d
  | None =>
      mkDemux ∅ (Some fault)
        (foldl (λ channels '(_, waiter), settle_channel (wt_tx waiter) (ChSent (EFailed fault)) channels)
           (dx_channels d) (map_to_list (dx_waiters d)))
  end.

Definition demux_step (d : Demux K C R) (op : DemuxOp K C R) : Demux K C R :=
  match op with
  | DRegister key context => (register key context d).1
  | DDispatch key reply => dispatch key reply d
  | DDeregister key => deregister key d
  | DPoison fault => poison fault d
  end.

Definition demux_run (ops : list (DemuxOp K C R)) (d : Demux K C R) : Demux K C R := foldl demux_step d ops.

(** ** Reading a history *)

Definition is_register (op : DemuxOp K C R) : bool := match op with DRegister _ _ => true | _ => false end.

Definition registrations (ops : list (DemuxOp K C R)) : nat := length (filter (λ op, is_register op) ops).

Definition first_poison (ops : list (DemuxOp K C R)) : option ProbeFault :=
  head (omap (λ op, match op with DPoison fault => Some fault | _ => None end) ops).

(** Whether a probe waits for [key] after operations without a poison. *)
Definition in_flight_after (key : K) (waiting : bool) (op : DemuxOp K C R) : bool :=
  match op with
  | DRegister k _ => if bool_decide (k = key) then negb waiting else waiting
  | DDispatch k _ | DDeregister k => if bool_decide (k = key) then false else waiting
  | DPoison _ => false
  end.

Definition key_in_flight (key : K) (ops : list (DemuxOp K C R)) : bool := foldl (in_flight_after key) false ops.

(** What the operations after a registration make of its channel: the first that concerns it decides. *)
Fixpoint settled_by (key : K) (ops : list (DemuxOp K C R)) : Channel R :=
  match ops with
  | [] => ChWaiting
  | DRegister k _ :: rest => if bool_decide (k = key) then ChSent (EFailed DUPLICATE_KEY) else settled_by key rest
  | DDispatch k reply :: rest => if bool_decide (k = key) then ChSent reply else settled_by key rest
  | DDeregister k :: rest => if bool_decide (k = key) then ChClosed else settled_by key rest
  | DPoison fault :: _ => ChSent (EFailed fault)
  end.

(** The fate of a registration of [key] in a history. *)
Definition registration_fate (before : list (DemuxOp K C R)) (key : K) (after : list (DemuxOp K C R)) : Channel R :=
  match first_poison before with
  | Some fault => ChSent (EFailed fault)
  | None => if key_in_flight key before then ChSent (EFailed DUPLICATE_KEY) else settled_by key after
  end.

(** ** The invariant *)

Record demux_wf (d : Demux K C R) : Prop := mkDemuxWf {
  dwf_waiting : ∀ k w, dx_waiters d !! k = Some w → dx_channels d !! wt_tx w = Some ChWaiting;
  dwf_distinct : ∀ k k' w w', dx_waiters d !! k = Some w → dx_waiters d !! k' = Some w' →
    wt_tx w = wt_tx w' → k = k';
  dwf_owned : ∀ rx, dx_channels d !! rx = Some ChWaiting → ∃ k w, dx_waiters d !! k = Some w ∧ wt_tx w = rx;
  dwf_poison : dx_poison d ≠ None → dx_waiters d = ∅;
}.

Lemma demux_wf_new : demux_wf demux_new.
Proof using Type. split; cbn; [by setoid_rewrite lookup_empty..|done|done]. Qed.

Lemma wt_tx_lt d k w : demux_wf d → dx_waiters d !! k = Some w → (wt_tx w < length (dx_channels d))%nat.
Proof using Type. intros Hd Hk. apply (dwf_waiting _ Hd) in Hk. by eapply lookup_lt_Some. Qed.

(** Removing a waiter settles its channel, and no other. *)
Lemma remove_waiter_wf key c d : c ≠ ChWaiting → demux_wf d → demux_wf (remove_waiter key c d).
Proof using Type.
  intros Hc Hd. unfold remove_waiter. destruct (dx_waiters d !! key) as [w|] eqn:Hk; [|done].
  pose proof (wt_tx_lt _ _ _ Hd Hk) as Hlt. unfold settle_channel.
  split; cbn [dx_waiters dx_poison dx_channels].
  - intros k w'. rewrite lookup_delete_Some. intros [Hne Hw'].
    rewrite list_lookup_insert_ne; [by eapply dwf_waiting|].
    intros Heq. apply Hne. by eapply dwf_distinct.
  - intros k k' w1 w2. rewrite !lookup_delete_Some. intros [_ ?] [_ ?] ?. by eapply dwf_distinct.
  - intros rx. destruct (decide (rx = wt_tx w)) as [->|Hne].
    + rewrite list_lookup_insert_eq by done. congruence.
    + rewrite list_lookup_insert_ne by done. intros Hrx. destruct (dwf_owned _ Hd _ Hrx) as (k & w' & Hk' & <-).
      exists k, w'. split; [|done]. rewrite lookup_delete_Some. split; [|done]. congruence.
  - intros Hp. rewrite (dwf_poison _ Hd Hp) in Hk. by rewrite lookup_empty in Hk.
Qed.

Lemma remove_waiter_lookup key c d rx : demux_wf d →
  dx_channels (remove_waiter key c d) !! rx =
    match dx_waiters d !! key with
    | Some w => if bool_decide (wt_tx w = rx) then Some c else dx_channels d !! rx
    | None => dx_channels d !! rx
    end.
Proof using Type.
  intros Hd. unfold remove_waiter. destruct (dx_waiters d !! key) as [w|] eqn:Hk; [|done]. cbn [dx_channels].
  pose proof (wt_tx_lt _ _ _ Hd Hk). unfold settle_channel. case_bool_decide as E.
  - subst. by rewrite list_lookup_insert_eq.
  - by rewrite list_lookup_insert_ne.
Qed.

(** Waking every waiter settles exactly their channels. *)
Lemma settle_all_lookup c (ws : list (K * Waiter C)) channels rx :
  Forall (λ w, (wt_tx w.2 < length channels)%nat) ws →
  foldl (λ chs '(_, waiter), settle_channel (wt_tx waiter) c chs) channels ws !! rx =
    if bool_decide (rx ∈ (wt_tx ∘ snd) <$> ws) then Some c else channels !! rx.
Proof using Type.
  revert channels. induction ws as [|[k w] ws IH]; intros channels Hlt; [done|].
  cbn [foldl]. apply Forall_cons in Hlt as [Hw Hlt]. cbn [snd] in Hw. rewrite IH.
  2: { eapply Forall_impl; [exact Hlt|]. intros [k' w'] ?. unfold settle_channel. by rewrite length_insert. }
  unfold settle_channel. rewrite fmap_cons. cbn [compose snd].
  destruct (decide (rx = wt_tx w)) as [->|Hne].
  - rewrite list_lookup_insert_eq by done. rewrite (bool_decide_true (wt_tx w ∈ _ :: _)) by set_solver. by case_match.
  - rewrite list_lookup_insert_ne by done. 
    rewrite (bool_decide_ext (rx ∈ (wt_tx ∘ snd) <$> ws) (rx ∈ wt_tx w :: ((wt_tx ∘ snd) <$> ws))) by set_solver. done.
Qed.

Lemma woken_elem (d : Demux K C R) rx :
  rx ∈ (wt_tx ∘ snd) <$> map_to_list (dx_waiters d) ↔ ∃ k w, dx_waiters d !! k = Some w ∧ wt_tx w = rx.
Proof using Type.
  rewrite list_elem_of_fmap. split.
  - intros ([k w] & -> & Hin). apply elem_of_map_to_list in Hin. by exists k, w.
  - intros (k & w & Hk & <-). exists (k, w). split; [done|]. by apply elem_of_map_to_list.
Qed.

Lemma poison_lookup fault d rx : demux_wf d → dx_poison d = None →
  dx_channels (poison fault d) !! rx =
    match dx_channels d !! rx with Some ChWaiting => Some (ChSent (EFailed fault)) | c => c end.
Proof using Type.
  intros Hd Hp. unfold poison. rewrite Hp. cbn [dx_channels]. rewrite settle_all_lookup.
  2: { apply Forall_forall. intros [k w] Hin. apply elem_of_map_to_list in Hin. by eapply wt_tx_lt. }
  case_bool_decide as Hw; rewrite woken_elem in Hw.
  - destruct Hw as (k & w & Hk & <-). by rewrite (dwf_waiting _ Hd _ _ Hk).
  - destruct (dx_channels d !! rx) as [[| |]|] eqn:Hrx; [|done..]. destruct Hw. by apply dwf_owned.
Qed.

Lemma demux_step_wf op d : demux_wf d → demux_wf (demux_step d op).
Proof using Type.
  intros Hd. destruct op as [k c|k reply|k|fault]; cbn [demux_step]; [|by apply remove_waiter_wf..|].
  - unfold register. destruct (dx_poison d) as [f|] eqn:Hp; [|destruct (dx_waiters d !! k) as [w|] eqn:Hk]; cbn [fst].
    + assert (dx_waiters d = ∅) as Hempty by (apply (dwf_poison _ Hd); congruence).
      split; cbn [dx_waiters dx_poison dx_channels]; rewrite ?Hempty; try done.
      intros rx. rewrite lookup_app. destruct (dx_channels d !! rx) as [ch|] eqn:Hrx.
      * intros [= ->]. apply (dwf_owned _ Hd) in Hrx. rewrite Hempty in Hrx. done.
      * intros Hl. by apply list_lookup_singleton_Some in Hl as [_ ?].
    + pose proof (remove_waiter_wf k (ChSent (EFailed DUPLICATE_KEY)) d ltac:(done) Hd) as Hr.
      unfold remove_waiter in Hr. rewrite Hk, Hp in Hr. destruct Hr as [H1 H2 H3 H4].
      split; cbn [dx_waiters dx_poison dx_channels] in *; [|done| |done].
      * intros k' w' Hk'. apply lookup_app_l_Some. by eapply H1.
      * intros rx Hrx. apply H3. rewrite lookup_app in Hrx.
        destruct (settle_channel _ _ _ !! rx); [done|]. by apply list_lookup_singleton_Some in Hrx as [_ ?].
    + split; cbn [dx_waiters dx_poison dx_channels]; [..|done].
      * intros k' w'. rewrite lookup_insert_Some. intros [[<- <-]|[_ Hk']]; cbn [wt_tx].
        { by rewrite lookup_app_r, Nat.sub_diag. }
        apply lookup_app_l_Some. by eapply dwf_waiting.
      * intros k1 k2 w1 w2. rewrite !lookup_insert_Some.
        intros [[<- <-]|[_ H1]] [[<- <-]|[_ H2]]; cbn [wt_tx]; intros Heq; [done| | |by eapply dwf_distinct].
        { apply (wt_tx_lt _ _ _ Hd) in H2. lia. }
        { apply (wt_tx_lt _ _ _ Hd) in H1. lia. }
      * intros rx. rewrite lookup_app. destruct (dx_channels d !! rx) as [ch|] eqn:Hrx.
        { intros [= ->]. destruct (dwf_owned _ Hd _ Hrx) as (k' & w' & Hk' & Htx). exists k', w'.
          split; [|done]. rewrite lookup_insert_ne by congruence. done. }
        intros Hl. apply list_lookup_singleton_Some in Hl as [Hz _]. apply lookup_ge_None in Hrx.
        exists k. eexists. rewrite lookup_insert_eq. split; [done|]. cbn. lia.
  - destruct (dx_poison d) as [f|] eqn:Hp; [by unfold poison; rewrite Hp|].
    split; [..|by unfold poison; rewrite Hp].
    1, 2: unfold poison; rewrite Hp; cbn [dx_waiters]; intros *; by rewrite lookup_empty.
    intros rx. rewrite poison_lookup by done. destruct (dx_channels d !! rx) as [[| |]|]; done.
Qed.

Lemma demux_run_wf ops d : demux_wf d → demux_wf (demux_run ops d).
Proof using Type. revert d. induction ops as [|op ops IH]; intros d Hd; [done|]. by apply IH, demux_step_wf. Qed.

(** A settled channel stays as it is: nothing is delivered twice. *)
Lemma demux_step_settled op d rx c :
  demux_wf d → dx_channels d !! rx = Some c → c ≠ ChWaiting → dx_channels (demux_step d op) !! rx = Some c.
Proof using Type.
  intros Hd Hrx Hc.
  assert (∀ k w, dx_waiters d !! k = Some w → wt_tx w ≠ rx) as Hne.
  { intros k w Hk <-. apply (dwf_waiting _ Hd) in Hk. congruence. }
  assert (∀ k c', dx_channels (remove_waiter k c' d) !! rx = Some c) as Hremove.
  { intros k c'. rewrite remove_waiter_lookup by done. case_match; [|done]. rewrite bool_decide_false; eauto. }
  destruct op as [k ctx|k reply|k|fault]; cbn [demux_step]; [|apply Hremove..|].
  - unfold register. case_match; [by apply lookup_app_l_Some|]. case_match; [|by apply lookup_app_l_Some].
    cbn [fst dx_channels]. apply lookup_app_l_Some. unfold settle_channel.
    rewrite list_lookup_insert_ne; [done|]. by eapply Hne.
  - destruct (dx_poison d) eqn:Hp; [by unfold poison; rewrite Hp|].
    rewrite poison_lookup, Hrx by done. by destruct c.
Qed.

Lemma demux_run_settled ops d rx c :
  demux_wf d → dx_channels d !! rx = Some c → c ≠ ChWaiting → dx_channels (demux_run ops d) !! rx = Some c.
Proof using Type.
  revert d. induction ops as [|op ops IH]; intros d Hd Hrx Hc; [done|].
  apply IH; [by apply demux_step_wf|by apply demux_step_settled|done].
Qed.

(** What becomes of a probe that waits. *)
Lemma demux_run_waiting ops d key w :
  demux_wf d → dx_poison d = None → dx_waiters d !! key = Some w →
  dx_channels (demux_run ops d) !! wt_tx w = Some (settled_by key ops).
Proof using Type.
  revert d. induction ops as [|op ops IH]; intros d Hd Hp Hw; [by eapply dwf_waiting|].
  change (demux_run (op :: ops) d) with (demux_run ops (demux_step d op)).
  pose proof (demux_step_wf op d Hd) as Hd'. pose proof (wt_tx_lt _ _ _ Hd Hw) as Hlt.
  assert (∀ k c, demux_wf (remove_waiter k c d) → c ≠ ChWaiting →
    dx_channels (demux_run ops (remove_waiter k c d)) !! wt_tx w =
      Some (if bool_decide (k = key) then c else settled_by key ops)) as Hremove.
  { intros k c Hwf Hc. case_bool_decide as E; [subst|].
    - apply demux_run_settled; [done| |done]. rewrite remove_waiter_lookup, Hw by done. by rewrite bool_decide_true.
    - apply IH; [done|by unfold remove_waiter; case_match|]. unfold remove_waiter. case_match; [|done].
      cbn [dx_waiters]. by rewrite lookup_delete_ne. }
  destruct op as [k ctx|k reply|k|fault]; cbn [settled_by demux_step] in *.
  - unfold register in *. rewrite Hp in *. case_bool_decide as E; [subst k|].
    + rewrite Hw in *. cbn [fst] in *. apply demux_run_settled; [done| |done]. cbn [dx_channels].
      unfold settle_channel. rewrite lookup_app_l by (by rewrite length_insert). by rewrite list_lookup_insert_eq.
    + apply IH; [done|by case_match|]. case_match; cbn [fst dx_waiters];
        [by rewrite lookup_delete_ne|by rewrite lookup_insert_ne].
  - unfold dispatch in *. rewrite Hremove by done. by case_bool_decide.
  - unfold deregister in *. rewrite Hremove by done. by case_bool_decide.
  - apply demux_run_settled; [done| |done]. rewrite poison_lookup by done. by rewrite (dwf_waiting _ Hd _ _ Hw).
Qed.

(** ** Histories *)

Lemma first_poison_snoc (ops : list (DemuxOp K C R)) op :
  first_poison (ops ++ [op]) =
  match first_poison ops with
  | Some f => Some f
  | None => match op with DPoison f => Some f | _ => None end
  end.
Proof using Type.
  unfold first_poison. rewrite omap_app.
  destruct (omap _ ops); [|done]. by destruct op.
Qed.

Lemma registrations_snoc (ops : list (DemuxOp K C R)) op :
  registrations (ops ++ [op]) = (registrations ops + if is_register op then 1 else 0)%nat.
Proof using Type. unfold registrations. rewrite filter_app, length_app. by destruct op. Qed.

Lemma remove_waiter_length key c (d : Demux K C R) :
  length (dx_channels (remove_waiter key c d)) = length (dx_channels d).
Proof using Type. unfold remove_waiter, settle_channel. case_match; [apply length_insert|done]. Qed.

Lemma poison_length fault (d : Demux K C R) : length (dx_channels (poison fault d)) = length (dx_channels d).
Proof using Type.
  unfold poison. case_match; [done|]. cbn [dx_channels]. generalize (dx_channels d).
  induction (map_to_list (dx_waiters d)) as [|[k w] ws IH]; intros chs; [done|]. cbn [foldl]. rewrite IH.
  apply length_insert.
Qed.

(** The state is what its history says. *)
Lemma demux_run_history ops :
  let d := demux_run ops demux_new in
  dx_poison d = first_poison ops ∧ length (dx_channels d) = registrations ops ∧
  (first_poison ops = None → ∀ k, bool_decide (is_Some (dx_waiters d !! k)) = key_in_flight k ops).
Proof using Type.
  induction ops as [|op ops IH] using rev_ind; cbv zeta.
  { split_and!; [done..|]. intros _ k. cbn. by rewrite lookup_empty. }
  cbv zeta in IH. destruct IH as (IHp & IHl & IHk). unfold demux_run, key_in_flight in *. rewrite foldl_snoc.
  set (d := foldl demux_step demux_new ops) in *. rewrite registrations_snoc, first_poison_snoc.
  setoid_rewrite foldl_snoc. rewrite <-IHp, <-IHl in *.
  assert (∀ k c, dx_poison (remove_waiter k c d) = dx_poison d) as Hremove
    by (intros; unfold remove_waiter; by case_match).
  assert (∀ k c k', dx_poison d = None → bool_decide (is_Some (dx_waiters (remove_waiter k c d) !! k')) =
    if bool_decide (k = k') then false else bool_decide (is_Some (dx_waiters d !! k'))) as Hgone.
  { intros k c k' _. unfold remove_waiter. destruct (decide (k = k')) as [<-|Hne].
    - rewrite (bool_decide_true (k = k)) by done. apply bool_decide_false. intros [w Hw].
      destruct (dx_waiters d !! k) eqn:Hk; [|congruence]. cbn in Hw. by rewrite lookup_delete_eq in Hw.
    - rewrite (bool_decide_false (k = k')) by done. case_match; [|done]. cbn [dx_waiters].
      by rewrite lookup_delete_ne. }
  destruct op as [k c|k reply|k|fault]; cbn [demux_step is_register in_flight_after].
  - unfold register. destruct (dx_poison d) as [f|] eqn:Hp; [|destruct (dx_waiters d !! k) as [w|] eqn:Hk];
      cbn [fst dx_poison dx_channels dx_waiters]; rewrite length_app; cbn [length].
    + done.
    + split_and!; [done|unfold settle_channel; rewrite length_insert; lia|]. intros _ k'. rewrite <-IHk by done.
      destruct (decide (k = k')) as [<-|Hne]; [|by rewrite lookup_delete_ne, (bool_decide_false (k = k'))].
      rewrite lookup_delete_eq, Hk, (bool_decide_true (k = k)) by done. done.
    + split_and!; [done|done|]. intros _ k'. rewrite <-IHk by done.
      destruct (decide (k = k')) as [<-|Hne]; [|by rewrite lookup_insert_ne, (bool_decide_false (k = k'))].
      rewrite lookup_insert_eq, Hk, (bool_decide_true (k = k)) by done. done.
  - unfold dispatch. rewrite Hremove, remove_waiter_length, Nat.add_0_r. split_and!; [by case_match|done|].
    intros Hn k'. assert (dx_poison d = None) as Hp by (by destruct (dx_poison d)). by rewrite Hgone, IHk.
  - unfold deregister. rewrite Hremove, remove_waiter_length, Nat.add_0_r. split_and!; [by case_match|done|].
    intros Hn k'. assert (dx_poison d = None) as Hp by (by destruct (dx_poison d)). by rewrite Hgone, IHk.
  - rewrite poison_length, Nat.add_0_r. split_and!; [unfold poison; by case_match|done|]. by case_match.
Qed.

(** C25. Whatever the probes and the reader did in whatever order, the receiver of a registration holds what
    the history of its key says: the fault the engine died of if it was dead, the fault of a duplicate key if
    another probe was waiting for the same one, and otherwise what the first later operation on
    the key or the death of the engine made of it; nothing is delivered to it twice or to another
    receiver, and none waits for a dead engine. *)
Theorem demux_history (before after : list (DemuxOp K C R)) (key : K) (context : C) :
  let d := demux_run (before ++ DRegister key context :: after) demux_new in
  dx_channels d !! registrations before = Some (registration_fate before key after) ∧
  (register key context (demux_run before demux_new)).2 = registrations before ∧
  length (dx_channels d) = registrations (before ++ DRegister key context :: after) ∧
  (dx_poison d ≠ None → dx_waiters d = ∅ ∧ ChWaiting ∉ dx_channels d) ∧
  (first_poison before = None → key_in_flight key before = false →
     waiting_context key (demux_run (before ++ [DRegister key context]) demux_new) = Some context).
Proof using Type.
  pose proof (demux_run_history before) as (Hp & Hl & Hk). cbv zeta in *.
  pose proof (demux_run_wf before _ demux_wf_new) as Hwf.
  set (d0 := demux_run before demux_new) in *.
  assert (demux_run (before ++ DRegister key context :: after) demux_new =
          demux_run after (demux_step d0 (DRegister key context))) as Hrun
    by (unfold demux_run; rewrite foldl_app; done).
  pose proof (demux_step_wf (DRegister key context) d0 Hwf) as Hwf'.
  pose proof (demux_run_wf after _ Hwf') as Hwf''. rewrite <-Hrun in Hwf''. split_and!.
  - rewrite Hrun. unfold registration_fate. rewrite <-Hp, <-Hl. cbn [demux_step] in *. unfold register in *.
    destruct (dx_poison d0) as [f|] eqn:Hpo; cbn [fst] in *.
    { apply demux_run_settled; [done| |done]. cbn. by rewrite lookup_app_r, Nat.sub_diag. }
    rewrite <-Hk by done. destruct (dx_waiters d0 !! key) as [w|] eqn:Hw; cbn [fst] in *.
    + apply demux_run_settled; [done| |done]. cbn [dx_channels]. unfold settle_channel.
      rewrite lookup_app_r by (by rewrite length_insert). by rewrite length_insert, Nat.sub_diag.
    + eapply (demux_run_waiting _ _ _ (mkWaiter context (length (dx_channels d0)))); [done|done|]. cbn.
      apply lookup_insert_eq.
  - rewrite <-Hl. unfold register. repeat case_match; done.
  - by destruct (demux_run_history (before ++ DRegister key context :: after)) as (_ & ? & _).
  - intros Hd. pose proof (dwf_poison _ Hwf'' Hd) as He. split; [done|]. intros Hin.
    apply list_elem_of_lookup in Hin as [rx Hrx]. apply (dwf_owned _ Hwf'') in Hrx. rewrite He in Hrx.
    destruct Hrx as (k & w & Hkw & _). by rewrite lookup_empty in Hkw.
  - intros Hf Hn. unfold demux_run. rewrite foldl_snoc. fold (demux_run before demux_new). fold d0.
    rewrite <-Hk in Hn by done. unfold waiting_context. cbn [demux_step]. unfold register. rewrite Hp, Hf.
    destruct (dx_waiters d0 !! key); [done|]. cbn [fst dx_waiters]. by rewrite lookup_insert_eq.
Qed.

(** A reply that was received was dispatched to the key it was awaited under, while it was awaited. *)
Lemma fate_reached before key after r :
  registration_fate before key after = ChSent (EReached r) →
  ∃ waited rest, after = waited ++ DDispatch key (EReached r) :: rest ∧ settled_by key waited = ChWaiting.
Proof using Type.
  unfold registration_fate. case_match; [done|]. case_match; [done|]. clear.
  induction after as [|[k c|k reply|k|fault] after IH]; cbn [settled_by]; [done|..|done];
    case_bool_decide as E; subst; try done.
  2: { intros [= ->]. by exists [], after. }
  all: intros Hs; destruct (IH Hs) as (waited & rest & -> & Hw);
    eexists (_ :: waited), rest; split; [done|]; cbn [settled_by]; by rewrite bool_decide_false.
Qed.
End demux.
