(* ===== verification/Icmp.v ===== *)
(** * ICMP echo probing: [prober/icmp.rs]

    Requests and replies as bytes, the nonces that tell replies apart, the reader that hands them over
    and the prober. The packet views of the packet library are a parameter, with the wire layout they
    document; sockets, clocks and the interleaving with other probes are scripted. Times are
    nanoseconds. *)

From S2P Require Import Prelude Net Model Sink Codec Ports SinkConfig GnmiPath ProberConfig Udp Lldp Demux.

(** ** The packet library *)

(** A MAC address: its six bytes. *)
Definition MacAddr : Type := Bytes.

(** What the views of a packet show: an echo reply, an ARP packet, an option of neighbour discovery. *)
Record EchoView : Type := mkEchoView { ev_type : Z; ev_sequence : Z; ev_payload : Bytes }.
Record ArpView : Type := mkArpView { av_operation : Z; av_sender_hw : MacAddr; av_sender_proto : Z }.
Record NdpOption : Type := mkNdpOption { no_type : Z; no_length : Z; no_data : Bytes }.

Class PnetLib : Type := {
  icmp_echo_reply : Bytes → option EchoView;
  icmpv6_echo_reply : Bytes → option EchoView;
  set_icmp_echo_request : Bytes → Z → Z → Z → Z → Bytes → Bytes;
  set_icmpv6_echo_request : Bytes → Z → Z → Z → Z → Bytes → Bytes;
  icmp_checksum : Bytes → Z;
  icmpv6_checksum : Bytes → Z → Z → Z;
  ethernet_packet : Bytes → option (Z * Bytes);
  set_ethernet : Bytes → MacAddr → MacAddr → Z → Bytes;
  arp_packet : Bytes → option ArpView;
  set_arp : Bytes → Z → Z → Z → Z → Z → MacAddr → Z → MacAddr → Z → Bytes;
  ipv6_packet : Bytes → option (Z * Bytes);
  set_ipv6 : Bytes → Z → Z → Z → Z → Z → Z → Z → Z → Bytes;
  icmpv6_type : Bytes → option Z;
  neighbor_advert : Bytes → option (Z * list NdpOption);
  set_neighbor_solicit : Bytes → Z → Z → Z → Z → list NdpOption → Bytes;
}.

(** [u64::to_le_bytes] and [u64::from_le_bytes]. *)
Definition to_le_bytes (n : nat) (x : Z) : Bytes := rev (to_be_bytes n x).
Definition from_le_bytes (bytes : Bytes) : Z := from_be_bytes (rev bytes).

(** ** Constants *)

Definition PAYLOAD_NONCE_LEN : nat := 8.
Definition PAYLOAD_TIMESTAMP_LEN : nat := 8.
Definition PAYLOAD_MARKER : Bytes := as_bytes (s! "rastreo-icmp-v01").
Definition PAYLOAD_LEN : nat := PAYLOAD_NONCE_LEN + PAYLOAD_TIMESTAMP_LEN + 16.
Definition ICMP_HEADER_LEN : nat := 8.
Definition ICMP_PACKET_LEN : nat := ICMP_HEADER_LEN + PAYLOAD_LEN.
Definition IDENTIFIER : Z := 0.

(** [IcmpTypes] and [Icmpv6Types] of the two messages. *)
Definition ICMP_ECHO_REQUEST : Z := 8.
Definition ICMP_ECHO_REPLY : Z := 0.
Definition ICMPV6_ECHO_REQUEST : Z := 128.
Definition ICMPV6_ECHO_REPLY : Z := 129.

Definition Nonce : Type := Bytes.

Inductive Family : Type := FamilyV4 | FamilyV6.

#[global] Instance Family_eq_dec : EqDecision Family.
Proof. solve_decision. Defined.
#[global] Instance Family_countable : Countable Family.
Proof.
  apply (inj_countable' (λ f, match f with FamilyV4 => true | FamilyV6 => false end)
           (λ b : bool, if b then FamilyV4 else FamilyV6)). by intros [].
Defined.

Definition family_of (ip : IpAddr) : Family := match ip with V4 _ => FamilyV4 | V6 _ => FamilyV6 end.

(** ** Nonces *)

Definition rotate_left (n x : Z) : Z := wrap 64 (Z.lor (Z.shiftl x n) (Z.shiftr x (64 - n))).

Definition GOLDEN : Z := 0x9e3779b97f4a7c15.

(** The seed: the clock if it is past the epoch, the time since the process began to look at it,
    the name of the thread and the process. *)
Definition NONCE_SEED (now_nanos : option Z) (elapsed_nanos : Z) (tid : Str) (pid : Z) : Z :=
  let now_nanos := default 0 (wrap 64 <$> now_nanos) in
  let tid_hash :=
    foldl (λ h b, wrap 64 (Z.lxor h b * 0x100000001b3)) 0xcbf29ce484222325 (as_bytes tid) in
  let pid_hash := wrap 64 (pid * GOLDEN) in
  Z.lxor (Z.lxor (Z.lxor now_nanos (rotate_left 17 (wrap 64 elapsed_nanos))) (rotate_left 31 tid_hash)) pid_hash.

(** [state ^= state << n] and [state ^= state >> n] of a [u64]. *)
Definition xor_shl (n state : Z) : Z := Z.lxor state (wrap 64 (Z.shiftl state n)).
Definition xor_shr (n state : Z) : Z := Z.lxor state (Z.shiftr state n).

Definition generate_nonce (seed ticket : Z) : Nonce :=
  let state := wrap 64 (seed + wrap 64 (ticket * GOLDEN)) in
  let state := xor_shl 13 state in
  let state := xor_shr 7 state in
  let state := xor_shl 17 state in
  to_le_bytes PAYLOAD_NONCE_LEN state.

(** ** Payloads *)

Definition encode_timestamp_micros (reference at_ : Z) : Bytes :=
  to_le_bytes PAYLOAD_TIMESTAMP_LEN (wrap 64 (saturating_sub at_ reference / 1000)).

Definition decode_timestamp_micros (bytes : Bytes) : option Z :=
  if (length bytes =? PAYLOAD_TIMESTAMP_LEN)%nat then Some (from_le_bytes bytes) else None.

Definition build_payload (nonce : Nonce) (reference at_ : Z) : Bytes :=
  nonce ++ encode_timestamp_micros reference at_ ++ PAYLOAD_MARKER.

Definition payload_rtt (payload : Bytes) (nonce : Nonce) : option Z :=
  if (length payload <? PAYLOAD_LEN)%nat then None
  else if negb (bool_decide (take PAYLOAD_NONCE_LEN payload = nonce)) then None
  else
    let ts_end := (PAYLOAD_NONCE_LEN + PAYLOAD_TIMESTAMP_LEN)%nat in
    if negb (bool_decide (take (length PAYLOAD_MARKER) (drop ts_end payload) = PAYLOAD_MARKER)) then None
    else
      sent_micros ← decode_timestamp_micros (drop PAYLOAD_NONCE_LEN (take ts_end payload));
      Some (sent_micros * 1000).

Section icmp.
Context `{IE : IoErrors} {PN : PnetLib}.

(** ** Requests *)

Definition build_icmpv4_echo_request (identifier sequence : Z) (payload : Bytes) : Bytes :=
  let buf := set_icmp_echo_request (replicate ICMP_PACKET_LEN 0) ICMP_ECHO_REQUEST 0 identifier sequence payload in
  let bytes := to_be_bytes 2 (icmp_checksum buf) in
  <[3%nat := default 0 (bytes !! 1%nat)]> (<[2%nat := default 0 (bytes !! 0%nat)]> buf).

Definition build_icmpv6_echo_request (identifier sequence : Z) (payload : Bytes) : Bytes :=
  set_icmpv6_echo_request (replicate ICMP_PACKET_LEN 0) ICMPV6_ECHO_REQUEST 0 identifier sequence payload.

Definition build_echo_request (family : Family) (seq : Z) (payload : Bytes) : Bytes :=
  match family with
  | FamilyV4 => build_icmpv4_echo_request IDENTIFIER seq payload
  | FamilyV6 => build_icmpv6_echo_request IDENTIFIER seq payload
  end.

(** ** Replies *)

Definition ipv4_header_len (bytes : Bytes) : option nat :=
  first ← head bytes;
  if negb (Z.shiftr first 4 =? 4) then None
  else
    let ihl_words := Z.land first 0x0f in
    if ihl_words <? 5 then None else Some (Z.to_nat (ihl_words * 4)).

(** What an IPv4 reply may be: the bytes as they are, and without their IP header. *)
Definition v4_candidates (bytes : Bytes) : list Bytes :=
  [bytes;
   default [] (len ← ipv4_header_len bytes; if (length bytes <? len)%nat then None else Some (drop len bytes))].

Definition v4_candidate_rtt (nonce : Nonce) (max_sequence : Z) (slice : Bytes) : option Z :=
  reply ← icmp_echo_reply slice;
  if negb (ev_type reply =? ICMP_ECHO_REPLY) then None
  else if max_sequence <? ev_sequence reply then None
  else payload_rtt (ev_payload reply) nonce.

Definition match_reply (target : IpAddr) (bytes : Bytes) (nonce : Nonce) (max_sequence : Z) : option Z :=
  match target with
  | V4 _ => head (omap (v4_candidate_rtt nonce max_sequence) (v4_candidates bytes))
  | V6 _ =>
      reply ← icmpv6_echo_reply bytes;
      if negb (ev_type reply =? ICMPV6_ECHO_REPLY) then None
      else if max_sequence <? ev_sequence reply then None
      else payload_rtt (ev_payload reply) nonce
  end.

(** The first bytes of a payload, as many as a nonce has. *)
Definition payload_nonce (payload : Bytes) : option Nonce :=
  if (length payload <? PAYLOAD_NONCE_LEN)%nat then None else Some (take PAYLOAD_NONCE_LEN payload).

Definition v4_candidate_nonce (slice : Bytes) : option Nonce :=
  reply ← icmp_echo_reply slice;
  if negb (ev_type reply =? ICMP_ECHO_REPLY) then None else payload_nonce (ev_payload reply).

Definition parse_reply_nonce (family : Family) (bytes : Bytes) : option Nonce :=
  match family with
  | FamilyV4 => head (omap v4_candidate_nonce (v4_candidates bytes))
  | FamilyV6 =>
      reply ← icmpv6_echo_reply bytes;
      if negb (ev_type reply =? ICMPV6_ECHO_REPLY) then None else payload_nonce (ev_payload reply)
  end.

Record ReplyCtx : Type := mkReplyCtx { rc_target : IpAddr; rc_max_sequence : Z }.

Definition IcmpOp : Type := DemuxOp Nonce ReplyCtx Z.
Definition IcmpDemux : Type := Demux Nonce ReplyCtx Z.

(** [deliver_reply]: what the reader dispatches for a datagram, when it does. *)
Definition deliver_reply (demux : IcmpDemux) (reference : Z) (family : Family) (bytes : Bytes)
    (from_ip : option IpAddr) (recv_at : Z) : option IcmpOp :=
  nonce ← parse_reply_nonce family bytes;
  ctx ← waiting_context nonce demux;
  if negb (bool_decide (from_ip = Some (rc_target ctx))) then None
  else
    sent_offset ← match_reply (rc_target ctx) bytes nonce (rc_max_sequence ctx);
    Some (DDispatch nonce (EReached (saturating_sub (saturating_sub recv_at reference) sent_offset))).

(** ** The reader *)

(** A dead shared reader is a fault, never an absence. *)
Definition reader_fault (prober : Str) (err : IoError) : ProbeFault :=
  mkProbeFault (match io_error err with Fault kind => kind | Absence => OtherFault end)
    (prober ++ s! " reader recv failed: " ++ io_error_display err).

Definition icmp_recv_transient (err : IoError) : bool := bool_decide (io_error_kind err = Interrupted).

(** What the reader's calls give, one after another; datagrams are cut to the buffer by the socket. *)
Inductive ReaderEvent : Type :=
  | ReadableErr (err : IoError)
  | Received (bytes : Bytes) (from_ip : option IpAddr) (recv_at : Z)
  | RecvErr (err : IoError)
  | WouldBlockEv.

(** The reader over its events and the state of the engine, in which nothing else happens: every
    datagram is delivered until an error that is not transient, which poisons the engine. *)
Fixpoint icmp_run_reader (reference : Z) (family : Family) (events : list ReaderEvent) (demux : IcmpDemux)
    : IcmpDemux :=
  match events with
  | [] => demux
  | ReadableErr err :: _ => poison (reader_fault (s! "icmp:") err) demux
  | RecvErr err :: rest =>
      if icmp_recv_transient err then icmp_run_reader reference family rest demux
      else poison (reader_fault (s! "icmp:") err) demux
  | WouldBlockEv :: rest => icmp_run_reader reference family rest demux
  | Received bytes from_ip recv_at :: rest =>
      icmp_run_reader reference family rest
        (match deliver_reply demux reference family bytes from_ip recv_at with
         | Some op => demux_step demux op
         | None => demux
         end)
  end.

(** ** Sockets *)

(** [open_socket]: the results of opening a datagram and a raw socket. *)
Definition open_socket (dgram raw : Result IoError unit) : Result ProbeFault unit :=
  match dgram with
  | Ok _ => Ok tt
  | Err err =>
      if bool_decide (io_error_kind err = AccessDenied) then
        match raw with
        | Ok _ => Ok tt
        | Err e => Err (mkProbeFault PermissionDenied (s! "icmp: raw socket unavailable: " ++ io_error_display e))
        end
      else Err (mkProbeFault OtherFault (s! "icmp: dgram socket open failed: " ++ io_error_display err))
  end.

(** [Engine::open]: the socket, made non-blocking and registered with the runtime. *)
Definition icmp_engine_open (socket : Result ProbeFault unit) (nonblocking registration : Result IoError unit)
    : Result ProbeFault unit :=
  _ ← socket;
  _ ← map_err (λ e, mkProbeFault OtherFault (s! "icmp: set_nonblocking failed: " ++ io_error_display e)) nonblocking;
  map_err (λ e, mkProbeFault OtherFault (s! "icmp: async fd registration failed: " ++ io_error_display e)) registration.

Definition PRE_FLIGHT_FAMILIES : list Family := [FamilyV4; FamilyV6].

Definition any_family_opens (families : list Family) (opens : Family → bool) : bool := existsb opens families.

Definition icmp_is_runnable (open : Family → Result ProbeFault unit) : bool :=
  any_family_opens PRE_FLIGHT_FAMILIES (λ family, is_ok (open family)).

(** [get_or_open] of an engine cache: the result of the first opening, kept. *)
Definition get_or_open {K T} `{Countable K} (key : K) (open : Result ProbeFault T)
    (cache : gmap K (Result ProbeFault T)) : Result ProbeFault T * gmap K (Result ProbeFault T) :=
  match cache !! key with
  | Some cached => (cached, cache)
  | None => (open, <[key := open]> cache)
  end.

(** ** The prober *)

Definition fault_when_unanswered (rtts : list Z) (fault : option ProbeFault) : option ProbeFault :=
  if is_empty rtts then fault else None.

(** [rtts.iter().min()]. *)
Definition min_of (l : list Z) : option Z :=
  match l with [] => None | x :: rest => Some (foldl Z.min x rest) end.

Definition min_rtt_outcome (target_ip : IpAddr) (now : SystemTime) (rtts : list Z) (fault : option ProbeFault)
    : ProbeOutcome :=
  let '(reachable, signals) :=
    match min_of rtts with
    | Some min => (true, [IcmpEchoRttMicros (wrap 64 (min / 1000))])
    | None => (false, [])
    end in
  mkProbeOutcome Icmp target_ip now reachable signals (fault_when_unanswered rtts fault) None None.

Definition open_fault_outcome (target_ip : IpAddr) (now : SystemTime) (fault : ProbeFault) : ProbeOutcome :=
  mkProbeOutcome Icmp target_ip now false [] (Some fault) None None.

Inductive IcmpSend : Type := SendOk | SendFailed (err : IoError) | SendElapsed.

(** A poison delivered while sending outranks the error; [rx] is what the receiver holds by then. *)
Definition send_failure_fault (rx : Channel Z) (send_err : option IoError) : option ProbeFault :=
  match rx with
  | ChSent (EFailed fault) => Some fault
  | _ =>
      err ← send_err;
      match io_error err with
      | Fault kind => Some (mkProbeFault kind (s! "icmp: send failed: " ++ io_error_display err))
      | Absence => None
      end
  end.

(** What one turn of the sending loop meets: the times it reads, the ticket it draws, how the request
    leaves, what its receiver holds when it did not. *)
Record IcmpTurn : Type := mkIcmpTurn {
  it_start : Z;
  it_ticket : Z;
  it_built : Z;
  it_send : IcmpSend;
  it_rx : Channel Z;
  it_after : Z;
}.

Record SendPhase : Type := mkSendPhase {
  sp_pending : list Nonce;
  sp_fault : option ProbeFault;
  sp_ops : list IcmpOp;
  sp_packets : list Bytes;
}.

Definition send_phase_end : SendPhase := mkSendPhase [] None [] [].

(** The turns from [seq] on, [n] of them at most. *)
Fixpoint icmp_send_loop (seed reference deadline interval count : Z) (target : IpAddr) (turns : Z → IcmpTurn)
    (n : nat) (seq : Z) : SendPhase :=
  match n with
  | O => send_phase_end
  | S n' =>
      let turn := turns seq in
      if deadline <=? it_start turn then send_phase_end
      else
        let nonce := generate_nonce seed (it_ticket turn) in
        let max_sequence := Z.min (saturating_sub count 1) 65535 in
        let registered := DRegister nonce (mkReplyCtx target max_sequence) in
        let packet := build_echo_request (family_of target) (wrap 16 seq)
                        (build_payload nonce reference (it_built turn)) in
        match it_send turn with
        | SendFailed err =>
            mkSendPhase [] (send_failure_fault (it_rx turn) (Some err)) [registered; DDeregister nonce] []
        | SendElapsed =>
            mkSendPhase [] (send_failure_fault (it_rx turn) None) [registered; DDeregister nonce] []
        | SendOk =>
            let rest :=
              if (seq + 1 <? count) && negb (interval =? 0) && (deadline <=? it_after turn + interval)
              then send_phase_end
              else icmp_send_loop seed reference deadline interval count target turns n' (seq + 1) in
            mkSendPhase (nonce :: sp_pending rest) (sp_fault rest) (registered :: sp_ops rest)
              (packet :: sp_packets rest)
        end
  end.

(** The receivers in turn; one that holds nothing by the deadline is given up. *)
Fixpoint icmp_awaits (await : Nonce → Channel Z) (pending : list Nonce)
    : list Z * option ProbeFault * list IcmpOp :=
  match pending with
  | [] => ([], None, [])
  | nonce :: rest =>
      let '(rtts, fault, ops) := icmp_awaits await rest in
      match await nonce with
      | ChSent (EReached rtt) => (rtt :: rtts, fault, ops)
      | ChSent (EFailed f) => (rtts, match fault with Some f' => Some f' | None => Some f end, ops)
      | ChClosed => (rtts, fault, ops)
      | ChWaiting => (rtts, fault, DDeregister nonce :: ops)
      end
  end.

(** [IcmpProber::probe] with an engine, and the operations it makes on it. *)
Definition icmp_probe_engine (seed reference deadline interval count : Z) (target : IpAddr) (ts : SystemTime)
    (turns : Z → IcmpTurn) (await : Nonce → Channel Z) : ProbeOutcome * list IcmpOp :=
  let sent := icmp_send_loop seed reference deadline interval count target turns (Z.to_nat count) 0 in
  let '(rtts, poison_fault, ops) := icmp_awaits await (sp_pending sent) in
  (min_rtt_outcome target ts rtts (match poison_fault with Some f => Some f | None => sp_fault sent end),
   sp_ops sent ++ ops).

Definition icmp_probe (engine : Result ProbeFault unit) (seed reference start timeout interval count : Z)
    (target : IpAddr) (ts : SystemTime) (turns : Z → IcmpTurn) (await : Nonce → Channel Z)
    : ProbeOutcome * list IcmpOp :=
  match engine with
  | Err fault => (open_fault_outcome target ts fault, [])
  | Ok _ => icmp_probe_engine seed reference (start + timeout) interval count target ts turns await
  end.

End icmp.
