(* ===== verification/LinkLayer.v ===== *)
(** * Link-layer probing: [prober/link_layer.rs], [prober/arp.rs], [prober/ndp.rs]

    The engine that ARP and neighbour discovery share, and the two protocols: which interface and
    source address a target is asked from, the frames, and the reader that matches what is announced
    to the probes. Channels, clocks and the interleaving with other probes are scripted. *)

From S2P Require Import Prelude Net Model Sink Codec Ports SinkConfig GnmiPath ProberConfig Udp Lldp Demux Icmp.

(** ** Interfaces *)

(** [ipnetwork::IpNetwork]: an address with its prefix length. *)
Inductive IpNetwork : Type :=
  | Net4 (ip prefix : Z)
  | Net6 (ip prefix : Z).

Record NetworkInterface : Type := mkNetworkInterface {
  ni_name : Str;
  ni_mac : option MacAddr;
  ni_ips : list IpNetwork;
  ni_loopback : bool;
}.

(** [Ipv4Network::contains] and [Ipv6Network::contains] of a network given by an address in it. *)
Class IpNetworkLib : Type := {
  v4_contains : Z → Z → Z → bool;
  v6_contains : Z → Z → Z → bool;
}.

Definition lookup_interface (name : Str) (interfaces : list NetworkInterface) : option NetworkInterface :=
  List.find (λ iface, bool_decide (ni_name iface = name)) interfaces.

Definition format_mac (mac : MacAddr) : Str := join (s! ":") (fmt_hex2 <$> mac).

(** The candidate with the longest prefix so far; of equals the first stays. *)
Definition keep_best {I} (best : option (I * Z)) (candidate : I * Z) : option (I * Z) :=
  match best with
  | Some (_, best_prefix) => if candidate.2 <=? best_prefix then best else Some candidate
  | None => Some candidate
  end.

(** ** The protocols: the trait of [link_layer.rs] *)

(** An address is the number its protocol's addresses are. *)
Class LinkLayerProtocol : Type := {
  ll_NAME : Str;
  ll_NAME_UPPER : Str;
  ll_ADDRESS_FAMILY : Str;
  ll_kind : ProbeKind;
  ll_extract_target : IpAddr → option Z;
  ll_display : Z → Str;
  ll_wrong_family_detail : Str;
  ll_select_interface : list NetworkInterface → Z → option NetworkInterface;
  ll_source_address : NetworkInterface → Z → option Z;
  ll_build_request : MacAddr → Z → Z → Bytes;
  ll_parse_reply_source : Bytes → option (Z * MacAddr);
}.

Definition ETH_HEADER_LEN : nat := 14.

(** [EtherTypes]. *)
Definition ETHERTYPE_IPV4 : Z := 0x0800.
Definition ETHERTYPE_ARP : Z := 0x0806.
Definition ETHERTYPE_IPV6 : Z := 0x86dd.

Section protocols.
Context {PN : PnetLib} {NL : IpNetworkLib}.

(** ** [prober/arp.rs] *)

Definition ARP_PACKET_LEN : nat := 28.
Definition ARP_FRAME_LEN : nat := ETH_HEADER_LEN + ARP_PACKET_LEN.
Definition ARP_HARDWARE_ETHERNET : Z := 1.
Definition ARP_REQUEST : Z := 1.
Definition ARP_REPLY : Z := 2.

Definition arp_extract_target (ip : IpAddr) : option Z := match ip with V4 a => Some a | V6 _ => None end.

(** An interface for every network of it that has the target. *)
Definition arp_candidates (target : Z) (iface : NetworkInterface) : list (NetworkInterface * Z) :=
  omap (λ net, match net with
               | Net4 ip prefix => if v4_contains ip prefix target then Some (iface, prefix) else None
               | Net6 _ _ => None
               end) (ni_ips iface).

Definition arp_select_interface (interfaces : list NetworkInterface) (target : Z) : option NetworkInterface :=
  fst <$> foldl keep_best None (interfaces ≫= arp_candidates target).

Definition arp_source_address (iface : NetworkInterface) (_target : Z) : option Z :=
  head (omap (λ net, match net with Net4 ip _ => Some ip | Net6 _ _ => None end) (ni_ips iface)).

Definition MAC_BROADCAST : MacAddr := replicate 6 255.
Definition MAC_ZERO : MacAddr := replicate 6 0.

Definition arp_build_request (src_mac : MacAddr) (src_ip target : Z) : Bytes :=
  let frame := replicate ARP_FRAME_LEN 0 in
  set_ethernet (take ETH_HEADER_LEN frame) MAC_BROADCAST src_mac ETHERTYPE_ARP ++
  set_arp (drop ETH_HEADER_LEN frame) ARP_HARDWARE_ETHERNET ETHERTYPE_IPV4 6 4 ARP_REQUEST
    src_mac src_ip MAC_ZERO target.

Definition arp_parse_reply_source (frame : Bytes) : option (Z * MacAddr) :=
  '(ethertype, payload) ← ethernet_packet frame;
  if negb (ethertype =? ETHERTYPE_ARP) then None
  else
    arp ← arp_packet payload;
    if negb (av_operation arp =? ARP_REPLY) then None
    else Some (av_sender_proto arp, av_sender_hw arp).

#[local] Instance ArpProtocol : LinkLayerProtocol := {|
  ll_NAME := s! "arp";
  ll_NAME_UPPER := s! "ARP";
  ll_ADDRESS_FAMILY := s! "ipv4";
  ll_kind := Arp;
  ll_extract_target := arp_extract_target;
  ll_display a := ip_display (V4 a);
  ll_wrong_family_detail := s! "arp prober requires an IPv4 target; use ndp for IPv6";
  ll_select_interface := arp_select_interface;
  ll_source_address := arp_source_address;
  ll_build_request := arp_build_request;
  ll_parse_reply_source := arp_parse_reply_source;
|}.

(** ** [prober/ndp.rs] *)

Definition IPV6_HEADER_LEN : nat := 40.
Definition NS_ICMPV6_LEN : nat := 32.
Definition NS_FRAME_LEN : nat := ETH_HEADER_LEN + IPV6_HEADER_LEN + NS_ICMPV6_LEN.
Definition NDP_HOP_LIMIT : Z := 255.
Definition NEXT_HEADER_ICMPV6 : Z := 58.
Definition NEIGHBOR_SOLICIT : Z := 135.
Definition NEIGHBOR_ADVERT : Z := 136.
Definition SOURCE_LL_ADDR : Z := 1.
Definition TARGET_LL_ADDR : Z := 2.

Definition is_link_local (ip : Z) : bool := Z.land (Z.shiftr ip 112) 0xffc0 =? 0xfe80.

(** [Ipv6Addr::octets] and [Ipv6Addr::new]. *)
Definition ipv6_octet (ip : Z) (i : Z) : Z := Z.land (Z.shiftr ip (8 * (15 - i))) 255.
Definition ipv6_new (segments : list Z) : Z := foldl (λ acc segment, acc * 65536 + segment) 0 segments.

Definition solicited_node_multicast (target : Z) : Z :=
  ipv6_new [0xff02; 0; 0; 0; 0; 1; Z.lor 0xff00 (ipv6_octet target 13);
            Z.lor (Z.shiftl (ipv6_octet target 14) 8) (ipv6_octet target 15)].

Definition solicited_node_multicast_mac (target : Z) : MacAddr :=
  [0x33; 0x33; 0xff; ipv6_octet target 13; ipv6_octet target 14; ipv6_octet target 15].

Definition ndp_extract_target (ip : IpAddr) : option Z := match ip with V6 a => Some a | V4 _ => None end.

Definition has_link_local (iface : NetworkInterface) : bool :=
  existsb (λ net, match net with Net6 ip _ => is_link_local ip | Net4 _ _ => false end) (ni_ips iface).

Definition ndp_candidates (target : Z) (iface : NetworkInterface) : list (NetworkInterface * Z) :=
  omap (λ net, match net with
               | Net6 ip prefix =>
                   if v6_contains ip prefix target then
                     let is_candidate :=
                       if is_link_local target then has_link_local iface else negb (ni_loopback iface) in
                     if is_candidate then Some (iface, prefix) else None
                   else None
               | Net4 _ _ => None
               end) (ni_ips iface).

Definition ndp_select_interface (interfaces : list NetworkInterface) (target : Z) : option NetworkInterface :=
  fst <$> foldl keep_best None (interfaces ≫= ndp_candidates target).

Fixpoint ndp_source_loop (target_link_local : bool) (ips : list IpNetwork) (chosen : option Z) : option Z :=
  match ips with
  | [] => chosen
  | Net4 _ _ :: rest => ndp_source_loop target_link_local rest chosen
  | Net6 ip _ :: rest =>
      if target_link_local then
        if is_link_local ip then Some ip else ndp_source_loop target_link_local rest chosen
      else if negb (is_link_local ip) then Some ip
      else ndp_source_loop target_link_local rest (match chosen with None => Some ip | Some _ => chosen end)
  end.

Definition ndp_source_address (iface : NetworkInterface) (target : Z) : option Z :=
  ndp_source_loop (is_link_local target) (ni_ips iface) None.

Definition ndp_build_request (src_mac : MacAddr) (src_ip target : Z) : Bytes :=
  let frame := replicate NS_FRAME_LEN 0 in
  let dst_ip := solicited_node_multicast target in
  let dst_mac := solicited_node_multicast_mac target in
  let ns_start := (ETH_HEADER_LEN + IPV6_HEADER_LEN)%nat in
  let frame :=
    set_ethernet (take ETH_HEADER_LEN frame) dst_mac src_mac ETHERTYPE_IPV6 ++
    set_ipv6 (take IPV6_HEADER_LEN (drop ETH_HEADER_LEN frame)) 6 0 0 (Z.of_nat NS_ICMPV6_LEN)
      NEXT_HEADER_ICMPV6 NDP_HOP_LIMIT src_ip dst_ip ++
    set_neighbor_solicit (drop ns_start frame) NEIGHBOR_SOLICIT 0 0 target
      [mkNdpOption SOURCE_LL_ADDR 1 src_mac] in
  let cksum_bytes := to_be_bytes 2 (icmpv6_checksum (drop ns_start frame) src_ip dst_ip) in
  <[(ns_start + 3)%nat := default 0 (cksum_bytes !! 1%nat)]>
    (<[(ns_start + 2)%nat := default 0 (cksum_bytes !! 0%nat)]> frame).

(** The link-layer address among the options of an advertisement. *)
Definition target_ll_addr (o : NdpOption) : option MacAddr :=
  if (no_type o =? TARGET_LL_ADDR) && (6 <=? length (no_data o))%nat then Some (take 6 (no_data o)) else None.

Definition ndp_parse_reply_source (frame : Bytes) : option (Z * MacAddr) :=
  '(ethertype, payload) ← ethernet_packet frame;
  if negb (ethertype =? ETHERTYPE_IPV6) then None
  else
    '(next_header, payload) ← ipv6_packet payload;
    if negb (next_header =? NEXT_HEADER_ICMPV6) then None
    else
      ty ← icmpv6_type payload;
      if negb (ty =? NEIGHBOR_ADVERT) then None
      else
        '(target, options) ← neighbor_advert payload;
        mac ← head (omap target_ll_addr options);
        Some (target, mac).

#[local] Instance NdpProtocol : LinkLayerProtocol := {|
  ll_NAME := s! "ndp";
  ll_NAME_UPPER := s! "NDP";
  ll_ADDRESS_FAMILY := s! "ipv6";
  ll_kind := Ndp;
  ll_extract_target := ndp_extract_target;
  ll_display a := ip_display (V6 a);
  ll_wrong_family_detail := s! "ndp prober requires an IPv6 target; use arp for IPv4";
  ll_select_interface := ndp_select_interface;
  ll_source_address := ndp_source_address;
  ll_build_request := ndp_build_request;
  ll_parse_reply_source := ndp_parse_reply_source;
|}.

End protocols.

(** ** The engine: [link_layer.rs] *)

Section engine.
Context `{IE : IoErrors} {P : LinkLayerProtocol}.

Definition LinkOp : Type := DemuxOp Z unit MacAddr.

(** What opening a channel gives: an Ethernet channel, another backend, an error. *)
Inductive ChannelOpen : Type := EthernetChannel | OtherBackend | ChannelErr (err : IoError).

Definition channel_open_fault (err : IoError) : ProbeFault :=
  if bool_decide (io_error_kind err = AccessDenied) then
    mkProbeFault PermissionDenied (s! "raw socket permission denied; " ++ ll_NAME_UPPER ++ s! " requires CAP_NET_RAW")
  else mkProbeFault OtherFault (ll_NAME ++ s! " channel open failed: " ++ io_error_display err).

(** [Engine::open] and [Engine::spawn], with the result of spawning the reader's thread. *)
Definition link_engine_open (channel : ChannelOpen) (spawn : Result IoError unit) : Result ProbeFault unit :=
  match channel with
  | EthernetChannel =>
      map_err (λ e, mkProbeFault OtherFault (ll_NAME ++ s! " reader thread spawn failed: " ++ io_error_display e)) spawn
  | OtherBackend => Err (mkProbeFault OtherFault (ll_NAME ++ s! " channel returned an unsupported backend"))
  | ChannelErr err => Err (channel_open_fault err)
  end.

Definition link_recv_transient (err : IoError) : bool :=
  bool_decide (io_error_kind err ∈ [TimedOut; WouldBlock; Interrupted]).

(** The turns of the reader: a frame, an error, or the flag to stop. *)
Inductive LinkEvent : Type := Frame (bytes : Bytes) | FrameErr (err : IoError) | StopFlag.

(** [run_reader]: the operations it makes; it poisons the engine when it ends by an error and not when it is
    told to stop. *)
Fixpoint link_reader_ops (events : list LinkEvent) : list LinkOp :=
  match events with
  | [] => []
  | StopFlag :: _ => []
  | Frame bytes :: rest =>
      match ll_parse_reply_source bytes with
      | Some (addr, mac) => DDispatch addr (EReached mac) :: link_reader_ops rest
      | None => link_reader_ops rest
      end
  | FrameErr err :: rest =>
      if link_recv_transient err then link_reader_ops rest else [DPoison (reader_fault ll_NAME err)]
  end.

Definition fault_outcome (target_ip : IpAddr) (ts : SystemTime) (fault : ProbeFault) : ProbeOutcome :=
  mkProbeOutcome ll_kind target_ip ts false [] (Some fault) None None.

Definition link_layer_fault (target_ip : IpAddr) (ts : SystemTime) (detail : Str) : ProbeOutcome :=
  fault_outcome target_ip ts (mkProbeFault OtherFault detail).

Definition reached_outcome (target_ip : IpAddr) (ts : SystemTime) (mac : MacAddr) : ProbeOutcome :=
  mkProbeOutcome ll_kind target_ip ts true [Mac (format_mac mac)] None None None.

Definition absence_outcome (target_ip : IpAddr) (ts : SystemTime) : ProbeOutcome :=
  mkProbeOutcome ll_kind target_ip ts false [] None None None.

Definition reply_to_outcome (target_ip : IpAddr) (ts : SystemTime) (reply : option (EngineReply MacAddr))
    : ProbeOutcome :=
  match reply with
  | Some (EReached mac) => reached_outcome target_ip ts mac
  | Some (EFailed fault) => fault_outcome target_ip ts fault
  | None => absence_outcome target_ip ts
  end.

(** One attempt: how the frame left, when, what the receiver holds by a deadline and the time then. *)
Record LinkAttempt : Type := mkLinkAttempt {
  la_send : option (Result IoError unit);
  la_sent : Z;
  la_rx : Z → Channel MacAddr;
  la_after : Z;
}.

Fixpoint link_attempts (attempts : nat → LinkAttempt) (per_attempt overall_deadline : Z) (target_ip : IpAddr)
    (ts : SystemTime) (target_addr : Z) (n i : nat) : ProbeOutcome * list LinkOp :=
  match n with
  | O => (reply_to_outcome target_ip ts None, [DDeregister target_addr])
  | S n' =>
      let a := attempts i in
      match la_send a with
      | Some (Err err) =>
          (link_layer_fault target_ip ts (ll_NAME ++ s! " send failed: " ++ io_error_display err),
           [DDeregister target_addr])
      | None =>
          (link_layer_fault target_ip ts (ll_NAME ++ s! " send returned None (packet too large for send buffer)"),
           [DDeregister target_addr])
      | Some (Ok _) =>
          match la_rx a (Z.min (la_sent a + per_attempt) overall_deadline) with
          | ChSent reply => (reply_to_outcome target_ip ts (Some reply), [])
          | ChClosed => (reply_to_outcome target_ip ts None, [])
          | ChWaiting =>
              if overall_deadline <=? la_after a
              then (reply_to_outcome target_ip ts None, [DDeregister target_addr])
              else link_attempts attempts per_attempt overall_deadline target_ip ts target_addr n' (S i)
          end
      end
  end.

(** [send_and_await_reply], and the operations of the probe on the engine. *)
Definition send_and_await_reply (attempts : nat → LinkAttempt) (timeout retries now : Z) (target_ip : IpAddr)
    (ts : SystemTime) (target_addr : Z) : ProbeOutcome * list LinkOp :=
  let '(outcome, ops) :=
    link_attempts attempts (per_attempt_timeout timeout retries) (now + timeout) target_ip ts target_addr
      (S (Z.to_nat retries)) 0 in
  (outcome, DRegister target_addr tt :: ops).

(** What a probe asks from: the interface, its address and source, or the outcome that ends the probe. *)
Definition link_source (interface : Str) (interfaces : list NetworkInterface) (target_ip : IpAddr)
    (ts : SystemTime) : Result ProbeOutcome (NetworkInterface * MacAddr * Z * Z) :=
  match ll_extract_target target_ip with
  | None => Err (link_layer_fault target_ip ts ll_wrong_family_detail)
  | Some target_addr =>
      iface ←
        (if is_empty interface then
           match ll_select_interface interfaces target_addr with
           | Some iface => Ok iface
           | None => Err (link_layer_fault target_ip ts (s! "no local interface reaches " ++ ll_display target_addr))
           end
         else
           match lookup_interface interface interfaces with
           | Some iface => Ok iface
           | None => Err (link_layer_fault target_ip ts (s! "network interface '" ++ interface ++ s! "' not found"))
           end);
      match ni_mac iface with
      | None => Err (link_layer_fault target_ip ts (s! "interface " ++ ni_name iface ++ s! " has no MAC address"))
      | Some src_mac =>
          match ll_source_address iface target_addr with
          | None => Err (link_layer_fault target_ip ts
              (s! "interface " ++ ni_name iface ++ s! " has no " ++ ll_ADDRESS_FAMILY ++ s! " address"))
          | Some src_ip =>
              if src_ip =? target_addr then
                Err (link_layer_fault target_ip ts
                  (ll_NAME ++ s! " target " ++ ll_display target_addr ++ s! " is a local interface address"))
              else Ok (iface, src_mac, src_ip, target_addr)
          end
      end
  end.

(** What the operations of a probe leave: its outcome, its operations and frame, and the engines. *)
Record LinkProbe : Type := mkLinkProbe {
  lp_outcome : ProbeOutcome;
  lp_ops : list LinkOp;
  lp_frame : option Bytes;
  lp_engines : gmap Str (Result ProbeFault unit);
}.

(** [probe_link_layer]; [open] is what opening an engine on an interface gives at this time. *)
Definition probe_link_layer (engines : gmap Str (Result ProbeFault unit)) (interface : Str)
    (interfaces : list NetworkInterface) (open : NetworkInterface → Result ProbeFault unit)
    (attempts : Bytes → nat → LinkAttempt) (timeout retries now : Z) (target_ip : IpAddr) (ts : SystemTime)
    : LinkProbe :=
  match link_source interface interfaces target_ip ts with
  | Err outcome => mkLinkProbe outcome [] None engines
  | Ok (iface, src_mac, src_ip, target_addr) =>
      let '(engine, engines) := get_or_open (ni_name iface) (open iface) engines in
      match engine with
      | Err fault => mkLinkProbe (fault_outcome target_ip ts fault) [] None engines
      | Ok _ =>
          let frame := ll_build_request src_mac src_ip target_addr in
          let '(outcome, ops) :=
            send_and_await_reply (attempts frame) timeout retries now target_ip ts target_addr in
          mkLinkProbe outcome ops (Some frame) engines
      end
  end.

End engine.
