(* ===== verification/IcmpTheorems.v ===== *)
(** * What ICMP probing guarantees

    No two requests share a nonce, the echo of a request is recognised and timed whichever socket it comes
    through, nothing else is, and a probe reports the fastest of the echoes it was handed. *)

From S2P Require Import Prelude Net Model Sink Codec Ports SinkConfig GnmiPath ProberConfig Udp Lldp Demux Icmp.

(** ** Nonces are distinct *)

Definition u64 (x : Z) : Prop := 0 ≤ x < 2 ^ 64.

Lemma u64_wrap x : u64 (wrap 64 x).
Proof. unfold u64, wrap. apply Z.mod_pos_bound. lia. Qed.

Lemma u64_bits x : u64 x ↔ 0 ≤ x ∧ ∀ i, 64 ≤ i → Z.testbit x i = false.
Proof.
  unfold u64. split.
  - intros [H0 H1]. split; [done|]. intros i Hi. destruct (decide (x = 0)) as [->|]; [apply Z.bits_0|].
    apply Z.bits_above_log2; [done|]. apply Z.log2_lt_pow2 in H1; lia.
  - intros [H0 Hb]. split; [done|]. destruct (decide (x = 0)) as [->|]; [lia|].
    apply Z.log2_lt_pow2; [lia|]. destruct (Z.le_gt_cases 64 (Z.log2 x)) as [Hl|]; [|done].
    pose proof (Z.bit_log2 x ltac:(lia)) as Hone. rewrite Hb in Hone by done. done.
Qed.

Lemma u64_lxor x y : u64 x → u64 y → u64 (Z.lxor x y).
Proof. apply lxor_range. lia. Qed.

Lemma wrap_testbit x i : 0 ≤ i → Z.testbit (wrap 64 x) i = (i <? 64) && Z.testbit x i.
Proof.
  intros Hi. unfold wrap. destruct (Z.ltb_spec i 64); [by rewrite Z.mod_pow2_bits_low|].
  by rewrite Z.mod_pow2_bits_high by lia.
Qed.

Lemma xor_shl_u64 n x : u64 x → u64 (xor_shl n x).
Proof. intros. apply u64_lxor; [done|apply u64_wrap]. Qed.

Lemma xor_shr_u64 n x : 0 ≤ n → u64 x → u64 (xor_shr n x).
Proof.
  intros Hn Hx. apply u64_lxor; [done|]. apply u64_bits in Hx as [H0 Hb]. apply u64_bits.
  split; [by apply Z.shiftr_nonneg|]. intros i Hi. rewrite Z.shiftr_spec by lia. apply Hb. lia.
Qed.

Lemma xor_shl_bit n x i : 0 < n → 0 ≤ i < 64 →
  Z.testbit (xor_shl n x) i = xorb (Z.testbit x i) (Z.testbit x (i - n)).
Proof.
  intros. unfold xor_shl. rewrite Z.lxor_spec, wrap_testbit by lia. rewrite Z.shiftl_spec by lia.
  by rewrite (proj2 (Z.ltb_lt i 64)) by lia.
Qed.

Lemma xor_shr_bit n x i : 0 < n → 0 ≤ i →
  Z.testbit (xor_shr n x) i = xorb (Z.testbit x i) (Z.testbit x (i + n)).
Proof. intros. unfold xor_shr. by rewrite Z.lxor_spec, Z.shiftr_spec by lia. Qed.

(** Bits decided one after another, along a measure of their position. *)
Lemma u64_eq_by (measure : Z → Z) x y :
  u64 x → u64 y →
  (∀ i, 0 ≤ i < 64 → (∀ j, 0 ≤ j < 64 → measure j < measure i → Z.testbit x j = Z.testbit y j) →
        Z.testbit x i = Z.testbit y i) →
  (∀ i, 0 ≤ i < 64 → 0 ≤ measure i) → x = y.
Proof.
  intros [_ Hx]%u64_bits [_ Hy]%u64_bits Hstep Hm.
  assert (∀ k : nat, ∀ i, 0 ≤ i < 64 → measure i < Z.of_nat k → Z.testbit x i = Z.testbit y i) as H.
  { intros k. induction k as [|k IH]; intros i Hi Hk; [specialize (Hm i Hi); lia|].
    apply Hstep; [done|]. intros j Hj Hlt. apply IH; [done|lia]. }
  apply Z.bits_inj'. intros i Hi. destruct (Z.lt_ge_cases i 64); [|by rewrite Hx, Hy].
  apply (H (Z.to_nat (measure i + 1))); [lia|]. specialize (Hm i ltac:(lia)). lia.
Qed.

Lemma xorb_cancel a b c : xorb a c = xorb b c → a = b.
Proof. by destruct a, b, c. Qed.

Lemma xor_shl_inj n x y : 0 < n → u64 x → u64 y → xor_shl n x = xor_shl n y → x = y.
Proof.
  intros Hn Hx Hy Heq. apply (u64_eq_by (λ i, i)); [done..| |lia]. intros i Hi IH.
  pose proof (f_equal (λ z, Z.testbit z i) Heq) as Hb. cbn in Hb. rewrite !xor_shl_bit in Hb by lia.
  destruct (Z.lt_ge_cases i n).
  - rewrite !(Z.testbit_neg_r _ (i - n)), !xorb_false_r in Hb by lia. done.
  - rewrite (IH (i - n)) in Hb by lia. by eapply xorb_cancel.
Qed.

Lemma xor_shr_inj n x y : 0 < n → u64 x → u64 y → xor_shr n x = xor_shr n y → x = y.
Proof.
  intros Hn Hx Hy Heq. apply (u64_eq_by (λ i, 64 - i)); [done..| |lia]. intros i Hi IH.
  pose proof (f_equal (λ z, Z.testbit z i) Heq) as Hb. cbn in Hb. rewrite !xor_shr_bit in Hb by lia.
  destruct (Z.lt_ge_cases (i + n) 64).
  - rewrite (IH (i + n)) in Hb by lia. by eapply xorb_cancel.
  - apply u64_bits in Hx as [_ Hx], Hy as [_ Hy]. rewrite (Hx (i + n)), (Hy (i + n)), !xorb_false_r in Hb by lia. done.
Qed.

(** The multiplier is odd: it has an inverse. *)
Lemma golden_inj t t' : u64 t → u64 t' → wrap 64 (t * GOLDEN) = wrap 64 (t' * GOLDEN) → t = t'.
Proof.
  unfold u64, wrap. intros Ht Ht' Heq.
  assert (∀ z, 0 ≤ z < 2 ^ 64 → ((z * GOLDEN) mod 2 ^ 64 * 0xf1de83e19937733d) mod 2 ^ 64 = z) as Hinv.
  { intros z Hz. rewrite Z.mul_mod_idemp_l by lia.
    replace (z * GOLDEN * 0xf1de83e19937733d) with (z + z * 0x957bbf35006ed677 * 2 ^ 64) by (unfold GOLDEN; lia).
    rewrite Z.mod_add by lia. by apply Z.mod_small. }
  rewrite <-(Hinv t), <-(Hinv t') by done. by rewrite Heq.
Qed.

Lemma wrap_add_inj s a b : u64 a → u64 b → wrap 64 (s + a) = wrap 64 (s + b) → a = b.
Proof.
  unfold u64, wrap. intros Ha Hb Heq.
  pose proof (Z.div_mod (s + a) (2 ^ 64) ltac:(lia)). pose proof (Z.div_mod (s + b) (2 ^ 64) ltac:(lia)).
  assert ((s + a) / 2 ^ 64 = (s + b) / 2 ^ 64); [|lia]. nia.
Qed.

Lemma to_le_bytes_length n x : length (to_le_bytes n x) = n.
Proof. unfold to_le_bytes. by rewrite length_rev, to_be_bytes_length. Qed.

Lemma from_to_le_bytes x : u64 x → from_le_bytes (to_le_bytes 8 x) = x.
Proof. intros. unfold from_le_bytes, to_le_bytes. rewrite rev_involutive. by apply from_to_be_bytes. Qed.

Lemma generate_nonce_length seed ticket : length (generate_nonce seed ticket) = PAYLOAD_NONCE_LEN.
Proof. apply to_le_bytes_length. Qed.

Lemma generate_nonce_inj seed t t' : u64 t → u64 t' → generate_nonce seed t = generate_nonce seed t' → t = t'.
Proof.
  intros Ht Ht' Heq. unfold generate_nonce in Heq. cbv zeta in Heq.
  apply (f_equal from_le_bytes) in Heq. rewrite !from_to_le_bytes in Heq by eauto using xor_shl_u64, xor_shr_u64, u64_wrap with lia.
  apply xor_shl_inj in Heq; [|lia|eauto using xor_shl_u64, xor_shr_u64, u64_wrap with lia..].
  apply xor_shr_inj in Heq; [|lia|eauto using xor_shl_u64, xor_shr_u64, u64_wrap with lia..].
  apply xor_shl_inj in Heq; [|lia|apply u64_wrap..].
  apply wrap_add_inj in Heq; [|apply u64_wrap..]. by apply golden_inj.
Qed.

(** ** The packet library's views of echo messages *)

(** The layout of an echo message: type, code, checksum, identifier, sequence number, data. *)
Definition echo_layout (b : Bytes) : option EchoView :=
  if (length b <? ICMP_HEADER_LEN)%nat then None
  else Some (mkEchoView (default 0 (head b)) (from_be_bytes (take 2 (drop 6 b))) (drop 8 b)).

Definition echo_message (ty code : Z) (checksum : Bytes) (identifier sequence : Z) (payload : Bytes) : Bytes :=
  [ty; code] ++ checksum ++ to_be_bytes 2 identifier ++ to_be_bytes 2 sequence ++ payload.

Class IcmpLaws {PN : PnetLib} : Prop := {
  il_reply : ∀ b, icmp_echo_reply b = echo_layout b;
  il_reply_v6 : ∀ b, icmpv6_echo_reply b = echo_layout b;
  il_request : ∀ b ty code identifier sequence payload, length b = (ICMP_HEADER_LEN + length payload)%nat →
    set_icmp_echo_request b ty code identifier sequence payload =
      echo_message ty code (take 2 (drop 2 b)) identifier sequence payload;
  il_request_v6 : ∀ b ty code identifier sequence payload, length b = (ICMP_HEADER_LEN + length payload)%nat →
    set_icmpv6_echo_request b ty code identifier sequence payload =
      echo_message ty code (take 2 (drop 2 b)) identifier sequence payload;
}.

Lemma echo_layout_message ty code checksum identifier sequence payload :
  length checksum = 2%nat → 0 ≤ sequence < 65536 →
  echo_layout (echo_message ty code checksum identifier sequence payload) = Some (mkEchoView ty sequence payload).
Proof.
  intros Hc Hs. destruct checksum as [|c0 [|c1 []]]; try done. unfold echo_message, echo_layout.
  pose proof (to_be_bytes_length 2 identifier) as Hi. destruct (to_be_bytes 2 identifier) as [|i0 [|i1 []]]; try done.
  pose proof (to_be_bytes_length 2 sequence) as Hl. pose proof (from_to_be_bytes 2 sequence ltac:(cbn; lia)) as Hf.
  destruct (to_be_bytes 2 sequence) as [|s0 [|s1 []]]; try done.
  change (Some (mkEchoView ty (from_be_bytes [s0; s1]) payload) = Some (mkEchoView ty sequence payload)). by rewrite Hf.
Qed.

Lemma build_payload_length nonce reference at_ : length nonce = PAYLOAD_NONCE_LEN →
  length (build_payload nonce reference at_) = PAYLOAD_LEN.
Proof.
  intros Hn. unfold build_payload, encode_timestamp_micros. rewrite !length_app, to_le_bytes_length, Hn. by vm_compute.
Qed.

(** The payload of a request says when it was sent. *)
Lemma payload_rtt_built nonce reference at_ : length nonce = PAYLOAD_NONCE_LEN →
  payload_rtt (build_payload nonce reference at_) nonce = Some (wrap 64 (saturating_sub at_ reference / 1000) * 1000).
Proof.
  intros Hn. unfold payload_rtt. rewrite build_payload_length by done. cbn [Nat.ltb Nat.leb PAYLOAD_LEN].
  unfold build_payload. rewrite <-Hn, take_app_length, (bool_decide_true (nonce = nonce)) by done. cbn [negb].
  set (ts := encode_timestamp_micros reference at_).
  assert (length ts = PAYLOAD_TIMESTAMP_LEN) as Ht by apply to_le_bytes_length.
  rewrite <-Ht, <-length_app, app_assoc, drop_app_length, (take_app_length (nonce ++ ts)), drop_app_length.
  rewrite take_ge by done. rewrite bool_decide_true by done. cbn [negb].
  unfold decode_timestamp_micros. rewrite Ht, Nat.eqb_refl. cbn [mbind option_bind].
  unfold ts, encode_timestamp_micros. by rewrite from_to_le_bytes by apply u64_wrap.
Qed.

(** A payload that is timed is one a request of the nonce had, data behind it apart. *)
Lemma payload_rtt_Some payload nonce rtt : payload_rtt payload nonce = Some rtt →
  ∃ ts rest, payload = nonce ++ ts ++ PAYLOAD_MARKER ++ rest ∧ length nonce = PAYLOAD_NONCE_LEN ∧
    length ts = PAYLOAD_TIMESTAMP_LEN ∧ rtt = from_le_bytes ts * 1000.
Proof.
  unfold payload_rtt. destruct (Nat.ltb_spec (length payload) PAYLOAD_LEN) as [|Hl]; [done|].
  case_bool_decide as Hn; [|done]. cbn [negb]. case_bool_decide as Hm; [|done]. cbn [negb].
  unfold decode_timestamp_micros. case_match; [|done]. intros [= <-].
  set (ts_end := (PAYLOAD_NONCE_LEN + PAYLOAD_TIMESTAMP_LEN)%nat) in *.
  exists (drop PAYLOAD_NONCE_LEN (take ts_end payload)), (drop (length PAYLOAD_MARKER) (drop ts_end payload)).
  assert (PAYLOAD_LEN = 32)%nat as HL by done. split_and!.
  - rewrite <-Hm at 1. rewrite (take_drop (length PAYLOAD_MARKER)).
    rewrite <-(take_drop ts_end payload) at 1. rewrite app_assoc. f_equal. subst nonce.
    rewrite <-(take_drop PAYLOAD_NONCE_LEN (take ts_end payload)) at 1. f_equal.
    rewrite take_take. done.
  - subst nonce. rewrite length_take. unfold PAYLOAD_NONCE_LEN. lia.
  - by apply Nat.eqb_eq.
  - done.
Qed.

(** ** Echoes *)

(** The echo of a request: its sequence number and data come back (RFC 792, RFC 4443); the identifier is
    what the socket made of it, and the checksum whatever it is. *)
Definition echo_back (family : Family) (checksum : Bytes) (identifier : Z) (request : Bytes) : Bytes :=
  [match family with FamilyV4 => ICMP_ECHO_REPLY | FamilyV6 => ICMPV6_ECHO_REPLY end; 0] ++ checksum ++
  to_be_bytes 2 identifier ++ drop 6 request.

(** The header a raw IPv4 socket leaves in front: its first byte gives its length in words. *)
Definition raw_header (header : Bytes) : Prop :=
  ∃ ihl, 5 ≤ ihl ≤ 15 ∧ head header = Some (64 + ihl) ∧ Z.of_nat (length header) = 4 * ihl.

Definition header_for (family : Family) (header : Bytes) : Prop :=
  header = [] ∨ (family = FamilyV4 ∧ raw_header header).

Lemma raw_header_len header b : raw_header header → ipv4_header_len (header ++ b) = Some (length header).
Proof.
  intros (ihl & Hr & Hh & Hl). destruct header as [|h0 header]; [done|]. cbn in Hh. simplify_eq.
  unfold ipv4_header_len. cbn [app head mbind option_bind].
  assert (Z.shiftr (64 + ihl) 4 = 4) as ->.
  { rewrite Z.shiftr_div_pow2 by lia. Z.to_euclidean_division_equations; lia. }
  assert (Z.land (64 + ihl) 15 = ihl) as ->.
  { change 15 with (Z.ones 4). rewrite Z.land_ones by lia. Z.to_euclidean_division_equations; lia. }
  cbn [Z.eqb negb Pos.eqb]. destruct (Z.ltb_spec ihl 5); [lia|]. f_equal. lia.
Qed.

Lemma v4_candidates_head {A} (f : Bytes → option A) header b r :
  header = [] ∨ (raw_header header ∧ f (header ++ b) = None) → f b = Some r →
  head (omap f (v4_candidates (header ++ b))) = Some r.
Proof.
  intros Hh Hf. unfold v4_candidates. destruct Hh as [->|[Hh Hn]].
  - cbn [app omap list_omap]. by rewrite Hf.
  - rewrite raw_header_len by done. cbn [mbind option_bind]. rewrite length_app.
    destruct (Nat.ltb_spec (length header + length b) (length header)); [lia|].
    rewrite drop_app_length. cbn [default from_option].
    change (head (omap f [header ++ b; b]) = Some r). unfold omap. cbn [list_omap]. rewrite Hn. by rewrite Hf.
Qed.

Lemma min_of_spec l m : min_of l = Some m ↔ m ∈ l ∧ ∀ x, x ∈ l → m ≤ x.
Proof.
  assert (∀ l x, (foldl Z.min x l = x ∨ foldl Z.min x l ∈ l) ∧ foldl Z.min x l ≤ x ∧
                 ∀ y, y ∈ l → foldl Z.min x l ≤ y) as Hfold.
  { intros l'. induction l' as [|y l' IH]; intros x; cbn [foldl]; [split; [by left|split; [lia|set_solver]]|].
    destruct (IH (Z.min x y)) as (Hin & Hle & Hall). split; [|split; [lia|]].
    - destruct Hin as [->|]; [|set_solver]. destruct (Z.min_spec x y) as [[_ ->]|[_ ->]]; set_solver.
    - intros z. rewrite elem_of_cons. intros [->|Hz]; [lia|by apply Hall]. }
  destruct l as [|x l]; cbn [min_of]; [set_solver|]. destruct (Hfold l x) as (Hin & Hle & Hall). split.
  - intros [= <-]. split; [set_solver|]. intros y. rewrite elem_of_cons. intros [->|]; auto.
  - intros [Hm Hmin]. f_equal. apply Z.le_antisymm; [|apply Hmin; set_solver].
    rewrite elem_of_cons in Hm. destruct Hm as [->|]; auto.
Qed.

Section echoes.
Context `{IE : IoErrors} {PN : PnetLib} {IL : IcmpLaws}.

(** A request is an echo message of the payload. *)
Lemma build_echo_request_message family seq payload : length payload = PAYLOAD_LEN →
  ∃ checksum, length checksum = 2%nat ∧ build_echo_request family seq payload =
    echo_message (match family with FamilyV4 => ICMP_ECHO_REQUEST | FamilyV6 => ICMPV6_ECHO_REQUEST end)
      0 checksum IDENTIFIER seq payload.
Proof.
  intros Hl. destruct family; cbn [build_echo_request].
  - unfold build_icmpv4_echo_request. rewrite il_request by (rewrite length_replicate, Hl; done).
    set (bytes := to_be_bytes 2 _). exists [default 0 (bytes !! 0%nat); default 0 (bytes !! 1%nat)]. done.
  - unfold build_icmpv6_echo_request. rewrite il_request_v6 by (rewrite length_replicate, Hl; done). by exists [0; 0].
Qed.

Lemma echo_back_message family checksum identifier seq payload : length payload = PAYLOAD_LEN →
  echo_back family checksum identifier (build_echo_request family seq payload) =
  echo_message (match family with FamilyV4 => ICMP_ECHO_REPLY | FamilyV6 => ICMPV6_ECHO_REPLY end)
    0 checksum identifier seq payload.
Proof.
  intros Hl. destruct (build_echo_request_message family seq payload Hl) as (ck & Hck & ->).
  unfold echo_back, echo_message. do 3 f_equal. by destruct ck as [|c0 [|c1 []]].
Qed.

(** Behind an IP header a message does not look like a reply. *)
Lemma header_not_reply header b : raw_header header →
  ∃ view, icmp_echo_reply (header ++ b) = Some view ∧ ev_type view ≠ ICMP_ECHO_REPLY.
Proof using IL.
  intros (ihl & Hr & Hh & Hl). rewrite il_reply. unfold echo_layout, ICMP_HEADER_LEN.
  destruct (Nat.ltb_spec (length (header ++ b)) 8) as [Hlt|]; [rewrite length_app in Hlt; lia|].
  eexists. split; [done|]. destruct header as [|h0 header]; [done|]. cbn in Hh |- *. simplify_eq.
  unfold ICMP_ECHO_REPLY. lia.
Qed.

(** The echo of a request is read as it was sent. *)
Lemma echo_recognised target nonce reference at_ seq max_sequence checksum identifier header :
  length nonce = PAYLOAD_NONCE_LEN → length checksum = 2%nat → 0 ≤ seq < 65536 → seq ≤ max_sequence →
  header_for (family_of target) header →
  let request := build_echo_request (family_of target) seq (build_payload nonce reference at_) in
  let bytes := header ++ echo_back (family_of target) checksum identifier request in
  parse_reply_nonce (family_of target) bytes = Some nonce ∧
  match_reply target bytes nonce max_sequence = Some (wrap 64 (saturating_sub at_ reference / 1000) * 1000).
Proof.
  intros Hn Hc Hs Hm Hh request bytes.
  pose proof (build_payload_length nonce reference at_ Hn) as Hlen.
  unfold bytes, request. rewrite echo_back_message by done.
  pose proof (payload_rtt_built nonce reference at_ Hn) as Hrtt.
  assert (payload_nonce (build_payload nonce reference at_) = Some nonce) as Hnonce.
  { unfold payload_nonce. rewrite Hlen. change (PAYLOAD_LEN <? PAYLOAD_NONCE_LEN)%nat with false. unfold build_payload.
    by rewrite <-Hn, take_app_length. }
  destruct target as [t|t]; cbn [family_of] in *; cbn [parse_reply_nonce match_reply].
  - assert (∀ header', header' = header → header' = [] ∨ raw_header header') as Hraw.
    { intros h' ->. destruct Hh as [->|[_ ?]]; [by left|by right]. }
    split; (apply v4_candidates_head; [destruct (Hraw header eq_refl) as [->|Hr]; [by left|right; split; [done|]]|]).
    1, 3: destruct (header_not_reply header (echo_message ICMP_ECHO_REPLY 0 checksum identifier seq
            (build_payload nonce reference at_)) Hr) as (view & Hv & Hne);
          unfold v4_candidate_nonce, v4_candidate_rtt; rewrite Hv; cbn [mbind option_bind];
          by rewrite (proj2 (Z.eqb_neq _ _) Hne).
    all: unfold v4_candidate_nonce, v4_candidate_rtt; rewrite il_reply, echo_layout_message by done;
         cbn [mbind option_bind ev_type ev_sequence ev_payload]; rewrite Z.eqb_refl; cbn [negb];
         rewrite ?(proj2 (Z.ltb_ge _ _) Hm); done.
  - destruct Hh as [->|[? _]]; [|done]. cbn [app].
    rewrite il_reply_v6, echo_layout_message by done. cbn [mbind option_bind ev_type ev_sequence ev_payload].
    rewrite Z.eqb_refl. cbn [negb]. by rewrite (proj2 (Z.ltb_ge _ _) Hm).
Qed.

(** The least a matched message must be. *)
Lemma match_reply_Some target bytes nonce max_sequence sent :
  match_reply target bytes nonce max_sequence = Some sent →
  ∃ slice view ts rest, slice ∈ bytes :: v4_candidates bytes ∧ echo_layout slice = Some view ∧
    ev_type view = (match target with V4 _ => ICMP_ECHO_REPLY | V6 _ => ICMPV6_ECHO_REPLY end) ∧
    ev_sequence view ≤ max_sequence ∧ ev_payload view = nonce ++ ts ++ PAYLOAD_MARKER ++ rest ∧
    length ts = PAYLOAD_TIMESTAMP_LEN ∧ sent = from_le_bytes ts * 1000.
Proof.
  assert (∀ slice view kind, slice ∈ bytes :: v4_candidates bytes → echo_layout slice = Some view →
    (if negb (ev_type view =? kind) then None else if max_sequence <? ev_sequence view then None
     else payload_rtt (ev_payload view) nonce) = Some sent →
    ∃ ts rest, ev_type view = kind ∧ ev_sequence view ≤ max_sequence ∧
      ev_payload view = nonce ++ ts ++ PAYLOAD_MARKER ++ rest ∧
      length ts = PAYLOAD_TIMESTAMP_LEN ∧ sent = from_le_bytes ts * 1000) as Hview.
  { intros slice view kind _ _. destruct (Z.eqb_spec (ev_type view) kind); [|done]. cbn [negb].
    destruct (Z.ltb_spec max_sequence (ev_sequence view)); [done|].
    intros Hp. apply payload_rtt_Some in Hp as (ts & rest & ? & _ & ? & ->). by exists ts, rest. }
  destruct target as [t|t]; cbn [match_reply].
  - intros Hh. apply head_Some_elem_of in Hh. apply list_elem_of_omap in Hh as (slice & Hin & Hs).
    unfold v4_candidate_rtt in Hs. rewrite il_reply in Hs. apply bind_Some in Hs as (view & Hv & Hs).
    assert (slice ∈ bytes :: v4_candidates bytes) as Hin' by set_solver.
    destruct (Hview _ _ _ Hin' Hv Hs) as (ts & rest & ?). exists slice, view, ts, rest. naive_solver.
  - rewrite il_reply_v6. intros (view & Hv & Hs)%bind_Some.
    destruct (Hview bytes _ _ ltac:(set_solver) Hv Hs) as (ts & rest & ?). exists bytes, view, ts, rest.
    split; [set_solver|]. naive_solver.
Qed.
(** C26. No two tickets give the same nonce; the echo of a request, as a datagram or behind the IP header
    a raw socket leaves, is delivered to the probe that waits for its nonce with the time since the request,
    to the microsecond; and whatever is delivered came from the address that probe asked, as an echo reply with
    a sequence number of its own, its nonce and the marker. *)
Theorem icmp_echo_timed (seed ticket reference at_ recv_at seq max_sequence identifier : Z) (target : IpAddr)
    (header checksum : Bytes) (demux : IcmpDemux) :
  let nonce := generate_nonce seed ticket in
  u64 ticket → waiting_context nonce demux = Some (mkReplyCtx target max_sequence) →
  0 ≤ seq < 65536 → seq ≤ max_sequence → length checksum = 2%nat → header_for (family_of target) header →
  reference ≤ at_ ≤ recv_at → recv_at - reference < 2 ^ 64 * 1000 →
  let request := build_echo_request (family_of target) seq (build_payload nonce reference at_) in
  let bytes := header ++ echo_back (family_of target) checksum identifier request in
  (∀ ticket', u64 ticket' → generate_nonce seed ticket' = nonce → ticket' = ticket) ∧
  (∃ rtt, deliver_reply demux reference (family_of target) bytes (Some target) recv_at =
            Some (DDispatch nonce (EReached rtt)) ∧
          recv_at - at_ ≤ rtt < recv_at - at_ + 1000) ∧
  (∀ family bytes from_ip recv_at op, deliver_reply demux reference family bytes from_ip recv_at = Some op →
     ∃ nonce ctx slice view ts rest,
       waiting_context nonce demux = Some ctx ∧ from_ip = Some (rc_target ctx) ∧
       slice ∈ bytes :: v4_candidates bytes ∧ echo_layout slice = Some view ∧
       ev_type view = (match rc_target ctx with V4 _ => ICMP_ECHO_REPLY | V6 _ => ICMPV6_ECHO_REPLY end) ∧
       ev_sequence view ≤ rc_max_sequence ctx ∧ ev_payload view = nonce ++ ts ++ PAYLOAD_MARKER ++ rest ∧
       length ts = PAYLOAD_TIMESTAMP_LEN ∧
       op = DDispatch nonce (EReached (saturating_sub (saturating_sub recv_at reference) (from_le_bytes ts * 1000)))).
Proof.
  intros nonce Ht Hw Hs Hm Hc Hh Hat Hlt request bytes. split_and!.
  - intros t' Ht' Heq. by apply generate_nonce_inj in Heq.
  - destruct (echo_recognised target nonce reference at_ seq max_sequence checksum identifier header)
      as [Hnonce Hmatch]; [apply generate_nonce_length|done..|].
    unfold deliver_reply. fold request bytes in Hnonce, Hmatch. rewrite Hnonce. cbn [mbind option_bind].
    rewrite Hw. cbn [mbind option_bind rc_target rc_max_sequence]. rewrite bool_decide_true by done. cbn [negb].
    rewrite Hmatch. cbn [mbind option_bind]. eexists. split; [done|]. unfold saturating_sub, wrap.
    rewrite (Z.max_r 0 (recv_at - reference)), (Z.max_r 0 (at_ - reference)) by lia. rewrite Z.mod_small by (Z.to_euclidean_division_equations; lia).
    Z.to_euclidean_division_equations; lia.
  - clear -IL. intros family bytes from_ip recv_at op Hd. unfold deliver_reply in Hd.
    apply bind_Some in Hd as (nonce & _ & Hd). apply bind_Some in Hd as (ctx & Hctx & Hd).
    case_bool_decide as Hf; [|done]. cbn [negb] in Hd. apply bind_Some in Hd as (sent & Hm & Hd).
    apply match_reply_Some in Hm as (slice & view & ts & rest & Hm). exists nonce, ctx, slice, view, ts, rest.
    naive_solver.
Qed.

End echoes.

(** ** Probes *)

Section probes.
Context `{IE : IoErrors} {PN : PnetLib}.

Definition await_rtt (c : Channel Z) : option Z := match c with ChSent (EReached r) => Some r | _ => None end.
Definition await_fault (c : Channel Z) : option ProbeFault := match c with ChSent (EFailed f) => Some f | _ => None end.

Definition unanswered (c : Channel Z) : bool := match c with ChWaiting => true | _ => false end.

Lemma icmp_awaits_reads await pending :
  icmp_awaits await pending =
  (omap (await_rtt ∘ await) pending, last (omap (await_fault ∘ await) pending),
   DDeregister <$> filter (λ n, unanswered (await n)) pending).
Proof using Type.
  induction pending as [|n pending IH]; [done|]. cbn [icmp_awaits]. rewrite IH, filter_cons.
  cbn [omap list_omap compose]. destruct (await n) as [|[r|f]|]; cbn [await_rtt await_fault unanswered]; try done.
  do 2 f_equal. rewrite last_cons. by destruct (last _).
Qed.

(** The requests in their order, each registered, built and sent before the deadline. *)
Lemma icmp_send_loop_reads seed reference deadline interval count target turns n seq :
  let sent := icmp_send_loop seed reference deadline interval count target turns n seq in
  length (sp_packets sent) = length (sp_pending sent) ∧ (length (sp_pending sent) ≤ n)%nat ∧
  (∀ i nonce, sp_pending sent !! i = Some nonce →
     let turn := turns (seq + Z.of_nat i) in
     nonce = generate_nonce seed (it_ticket turn) ∧ it_start turn < deadline ∧ it_send turn = SendOk ∧
     sp_packets sent !! i = Some (build_echo_request (family_of target) (wrap 16 (seq + Z.of_nat i))
                                    (build_payload nonce reference (it_built turn)))) ∧
  (∀ nonce ctx, DRegister nonce ctx ∈ sp_ops sent →
     ctx = mkReplyCtx target (Z.min (saturating_sub count 1) 65535) ∧
     (nonce ∈ sp_pending sent ∨ DDeregister nonce ∈ sp_ops sent)).
Proof using Type.
  revert seq. induction n as [|n IH]; intros seq; cbn [icmp_send_loop]; cbv zeta.
  { cbn. split_and!; [done|lia|done|set_solver]. }
  destruct (Z.leb_spec deadline (it_start (turns seq))) as [|Hstart].
  { cbn. split_and!; [done|lia|done|set_solver]. }
  destruct (it_send (turns seq)) eqn:Hsend; cbn [sp_pending sp_packets sp_ops].
  2, 3: split_and!; [done|cbn; lia|done|]; intros nonce ctx; set_unfold; intros [[= -> ->]|[|[]]]; [|done]; by eauto.
  match goal with |- context [sp_pending ?r] => set (rest := r) end.
  assert (length (sp_packets rest) = length (sp_pending rest) ∧ (length (sp_pending rest) ≤ n)%nat ∧
    (∀ i nonce, sp_pending rest !! i = Some nonce →
       let turn := turns (seq + 1 + Z.of_nat i) in
       nonce = generate_nonce seed (it_ticket turn) ∧ it_start turn < deadline ∧ it_send turn = SendOk ∧
       sp_packets rest !! i = Some (build_echo_request (family_of target) (wrap 16 (seq + 1 + Z.of_nat i))
                                      (build_payload nonce reference (it_built turn)))) ∧
    (∀ nonce ctx, DRegister nonce ctx ∈ sp_ops rest →
       ctx = mkReplyCtx target (Z.min (saturating_sub count 1) 65535) ∧
       (nonce ∈ sp_pending rest ∨ DDeregister nonce ∈ sp_ops rest))) as (H1 & H2 & H3 & H4).
  { unfold rest. case_match; [cbn; split_and!; [done|lia|done|set_solver]|]. apply IH. }
  cbn [length]. split_and!; [by rewrite H1|lia| |].
  - intros [|i] nonce Hi; cbn [lookup list_lookup] in Hi |- *.
    + simplify_eq. rewrite Z.add_0_r. done.
    + apply H3 in Hi. replace (seq + Z.of_nat (S i)) with (seq + 1 + Z.of_nat i) by lia. done.
  - intros nonce ctx. rewrite !elem_of_cons. intros [[= -> ->]|Hin]; [by auto|].
    apply H4 in Hin as [-> [|]]; auto.
Qed.

(** C27. A probe sends at most as many requests as asked, each in turn before the deadline with its own nonce
    and registered before it leaves. It is reachable exactly when a reply was handed to it, with the
    fastest of them; a fault is reported only when there was none, the last the engine handed out or else
    what stopped the sending. A reply it counts was dispatched to one of its nonces while it was waiting, and it
    leaves no registration behind that nothing answered. *)
Theorem icmp_probe_reports (seed reference start timeout interval count : Z) (target : IpAddr) (ts : SystemTime)
    (turns : Z → IcmpTurn) (await : Nonce → Channel Z) (before after : Nonce → list IcmpOp) :
  let sent := icmp_send_loop seed reference (start + timeout) interval count target turns (Z.to_nat count) 0 in
  let '(outcome, ops) := icmp_probe (Ok tt) seed reference start timeout interval count target ts turns await in
  (∀ n, n ∈ sp_pending sent → await n = registration_fate (before n) n (after n)) →
  (length (sp_pending sent) ≤ Z.to_nat count)%nat ∧
  (∀ i nonce, sp_pending sent !! i = Some nonce →
     let turn := turns (Z.of_nat i) in
     nonce = generate_nonce seed (it_ticket turn) ∧ it_start turn < start + timeout ∧
     sp_packets sent !! i = Some (build_echo_request (family_of target) (wrap 16 (Z.of_nat i))
                                    (build_payload nonce reference (it_built turn)))) ∧
  (if po_reachable outcome
   then ∃ n rtt waited rest, n ∈ sp_pending sent ∧ await n = ChSent (EReached rtt) ∧
          after n = waited ++ DDispatch n (EReached rtt) :: rest ∧
          po_signals outcome = [IcmpEchoRttMicros (wrap 64 (rtt / 1000))] ∧ po_fault outcome = None ∧
          (∀ n' rtt', n' ∈ sp_pending sent → await n' = ChSent (EReached rtt') → rtt ≤ rtt')
   else po_signals outcome = [] ∧ (∀ n rtt, n ∈ sp_pending sent → await n ≠ ChSent (EReached rtt)) ∧
        po_fault outcome =
          (match last (omap (await_fault ∘ await) (sp_pending sent)) with Some f => Some f | None => sp_fault sent end)) ∧
  (∀ n ctx, DRegister n ctx ∈ ops → DDeregister n ∈ ops ∨ (n ∈ sp_pending sent ∧ await n ≠ ChWaiting)).
Proof using Type.
  intros sent. unfold icmp_probe, icmp_probe_engine. fold sent. rewrite icmp_awaits_reads. intros Hawait.
  pose proof (icmp_send_loop_reads seed reference (start + timeout) interval count target turns (Z.to_nat count) 0)
    as (_ & Hlen & Hsent & Hops). fold sent in Hlen, Hsent, Hops.
  set (rtts := omap (await_rtt ∘ await) (sp_pending sent)).
  assert (∀ r, r ∈ rtts ↔ ∃ n, n ∈ sp_pending sent ∧ await n = ChSent (EReached r)) as Hrtts.
  { intros r. unfold rtts. rewrite list_elem_of_omap. unfold compose, await_rtt. split; intros (n & Hn & Ha); exists n.
    - destruct (await n) as [|[]|]; naive_solver.
    - by rewrite Ha. }
  split_and!; [done| | |].
  - intros i nonce Hi. destruct (Hsent i nonce Hi) as (? & ? & _ & ?). done.
  - unfold min_rtt_outcome. destruct (min_of rtts) as [m|] eqn:Hm; cbn [po_reachable po_signals po_fault].
    + apply min_of_spec in Hm as [Hin Hmin]. pose proof (proj1 (Hrtts m) Hin) as (n & Hn & Ha).
      pose proof Ha as Hfate. rewrite Hawait in Hfate by done.
      apply fate_reached in Hfate as (waited & rest & Hafter & _).
      exists n, m, waited, rest. split_and!; try done.
      * unfold fault_when_unanswered. by destruct rtts; [apply elem_of_nil in Hin|].
      * intros n' rtt' Hn' Ha'. apply Hmin, Hrtts. by exists n'.
    + assert (rtts = []) as Hnil by (by destruct rtts). split_and!; [done| |by rewrite Hnil].
      intros n rtt Hn Ha. assert (rtt ∈ rtts) as Hr by (apply Hrtts; by exists n). rewrite Hnil in Hr.
      by apply elem_of_nil in Hr.
  - intros n ctx. rewrite elem_of_app. intros [Hin|Hin].
    2: { apply list_elem_of_fmap in Hin as (? & ? & _). done. }
    apply Hops in Hin as [_ [Hp|Hd]]; [|left; set_solver]. destruct (await n) eqn:Ha; [left|by right..].
    apply elem_of_app. right. apply list_elem_of_fmap. exists n. split; [done|]. apply list_elem_of_filter.
    by rewrite Ha.
Qed.
End probes.

(** ** Samples *)

#[local] Existing Instance sample_errors.
#[local] Existing Instance plain_io.

(** A packet library of echo messages only. *)
#[local] Instance echo_pnet : PnetLib := {|
  icmp_echo_reply := echo_layout;
  icmpv6_echo_reply := echo_layout;
  set_icmp_echo_request b ty code identifier sequence payload :=
    echo_message ty code (take 2 (drop 2 b)) identifier sequence payload;
  set_icmpv6_echo_request b ty code identifier sequence payload :=
    echo_message ty code (take 2 (drop 2 b)) identifier sequence payload;
  icmp_checksum _ := 0;
  icmpv6_checksum _ _ _ := 0;
  ethernet_packet _ := None;
  set_ethernet b _ _ _ := b;
  arp_packet _ := None;
  set_arp b _ _ _ _ _ _ _ _ _ := b;
  ipv6_packet _ := None;
  set_ipv6 b _ _ _ _ _ _ _ _ := b;
  icmpv6_type _ := None;
  neighbor_advert _ := None;
  set_neighbor_solicit b _ _ _ _ _ := b;
|}.

#[local] Instance echo_pnet_laws : IcmpLaws.
Proof. by split. Qed.

Definition sample_seed : Z := NONCE_SEED (Some 1700000000123456789) 42 (s! "ThreadId(1)") 4242.

Definition sample_echo_demux : IcmpDemux :=
  demux_run [DRegister (generate_nonce sample_seed 7) (mkReplyCtx (V4 167772161) 2)] demux_new.

(** Behind the twenty bytes of an IP header. *)
Definition sample_header : Bytes := 69 :: replicate 19 0.

Lemma icmp_echo_timed_witness :
  let nonce := generate_nonce sample_seed 7 in
  ∃ rtt, deliver_reply sample_echo_demux 1000 FamilyV4
           (sample_header ++ echo_back FamilyV4 [1; 2] 4660
              (build_echo_request FamilyV4 1 (build_payload nonce 1000 5000000)))
           (Some (V4 167772161)) 9000500 = Some (DDispatch nonce (EReached rtt)) ∧
         4000500 ≤ rtt < 4001500.
Proof.
  destruct (icmp_echo_timed sample_seed 7 1000 5000000 9000500 1 2 4660 (V4 167772161) sample_header [1; 2]
              sample_echo_demux) as (_ & H & _).
  - by split.
  - by vm_compute.
  - lia.
  - lia.
  - done.
  - right. split; [done|]. exists 5. split; [lia|by split].
  - lia.
  - lia.
  - exact H.
Defined.

(** Two requests, the second answered first. *)
Definition sample_turns (seq : Z) : IcmpTurn := mkIcmpTurn (seq * 1000) (7 + seq) (seq * 1000) SendOk ChWaiting (seq * 1000).

Definition sample_after (n : Nonce) : list IcmpOp :=
  [DDispatch (generate_nonce sample_seed 8) (EReached 3000000); DDispatch (generate_nonce sample_seed 7) (EReached 5000000)].

Lemma icmp_probe_reports_witness :
  po_signals (icmp_probe (Ok tt) sample_seed 0 0 1000000000 0 2 (V4 167772161) 0 sample_turns
                (λ n, registration_fate [] n (sample_after n))).1 = [IcmpEchoRttMicros 3000] ∧
  (length (sp_pending (icmp_send_loop sample_seed 0 (0 + 1000000000) 0 2 (V4 167772161) sample_turns 2 0)) ≤ 2)%nat.
Proof.
  pose proof (icmp_probe_reports sample_seed 0 0 1000000000 0 2 (V4 167772161) 0 sample_turns
    (λ n, registration_fate [] n (sample_after n)) (λ _, []) sample_after) as H. cbv zeta in H.
  split; [by vm_compute|].
  destruct (icmp_probe _ _ _ _ _ _ _ _ _ _) as [outcome ops]. destruct H as [H _]; [done|]. exact H.
Defined.
