(* ===== verification/LinkTheorems.v ===== *)
(** * What link-layer probing guarantees

    The frames of both protocols, the interface a target is asked from, and what a probe may report:
    only an address that was announced on the wire while it was waiting. *)

From S2P Require Import Prelude Net Model Sink Codec Ports SinkConfig GnmiPath ProberConfig Udp Lldp Demux Icmp LinkLayer.

(** ** Choosing the interface *)

Lemma keep_best_spec {I} (candidates : list (I * Z)) best :
  match foldl keep_best best candidates with
  | None => best = None ∧ candidates = []
  | Some (iface, prefix) =>
      ∃ earlier later, from_option (λ b, [b]) [] best ++ candidates = earlier ++ (iface, prefix) :: later ∧
        Forall (λ c, c.2 < prefix) earlier ∧ Forall (λ c, c.2 ≤ prefix) later
  end.
Proof.
  revert best. induction candidates as [|[i p] candidates IH]; intros best; cbn [foldl].
  { destruct best as [[i p]|]; [|done]. exists [], []. done. }
  specialize (IH (keep_best best (i, p))). destruct (foldl _ _ _) as [[i' p']|]; [|by destruct best as [[]|]; cbn in IH; try case_match; destruct IH].
  destruct best as [[ib pb]|]; cbn [keep_best snd] in IH; [|exact IH].
  destruct (Z.leb_spec p pb).
  - destruct IH as ([|e earlier] & later & Heq & He & Hl); cbn [from_option app] in *; simplify_eq.
    + eexists [], _. split_and!; [done|done|]. constructor; [cbn; lia|done].
    + apply Forall_cons in He as [He1 He]. exists ((ib, pb) :: (i, p) :: earlier), later.
      cbn in *. subst. split_and!; [done| |done]. repeat constructor; cbn; [done|lia|done].
  - destruct IH as ([|e earlier] & later & Heq & He & Hl); cbn [from_option app] in *; simplify_eq.
    + eexists [(ib, pb)], _. split_and!; [done| |done]. repeat constructor. cbn. lia.
    + apply Forall_cons in He as [He1 He]. exists ((ib, pb) :: (i, p) :: earlier), later. cbn in *. subst.
      split_and!; [done| |done]. repeat constructor; cbn; [lia|lia|done].
Qed.

(** [chosen] is the first of the candidates with the longest prefix. *)
Definition longest_prefix {I} (chosen : option I) (candidates : list (I * Z)) : Prop :=
  match chosen with
  | None => candidates = []
  | Some iface =>
      ∃ prefix earlier later, candidates = earlier ++ (iface, prefix) :: later ∧
        Forall (λ c, c.2 < prefix) earlier ∧ Forall (λ c, c.2 ≤ prefix) later
  end.

(** The interface chosen is the first of those whose network has the longest prefix. *)
Lemma selected_longest {I} (candidates : list (I * Z)) : longest_prefix (fst <$> foldl keep_best None candidates) candidates.
Proof.
  pose proof (keep_best_spec candidates None) as H. unfold longest_prefix.
  destruct (foldl keep_best None candidates) as [[iface prefix]|]; [|by destruct H]. by exists prefix.
Qed.

Lemma bind_split {A B} (f : A → list B) xs e c l : xs ≫= f = e ++ c :: l →
  ∃ i x, xs !! i = Some x ∧ c ∈ f x ∧ ∀ i' x' c', (i' < i)%nat → xs !! i' = Some x' → c' ∈ f x' → c' ∈ e.
Proof.
  revert e. induction xs as [|x xs IH]; intros e E; [by destruct e|]. cbn [mbind list_bind] in E.
  apply app_eq_app in E as [k [[Ef Er]|[-> Er]]].
  - destruct k as [|c' k]; cbn in Er.
    + symmetry in Er. destruct (IH [] Er) as (i & y & Hy & Hc & Hb). exists (S i), y. split_and!; [done|done|].
      intros [|i'] x' c' Hi Hx' Hc'; cbn in Hx'.
      * injection Hx' as ->. by rewrite Ef, app_nil_r in Hc'.
      * apply (Hb i' x' c') in Hc'; [by apply elem_of_nil in Hc'|lia|done].
    + injection Er as <- _. exists 0%nat, x. split_and!; [done|rewrite Ef; set_solver|lia].
  - destruct (IH k Er) as (i & y & Hy & Hc & Hb). exists (S i), y. split_and!; [done|done|].
    intros [|i'] x' c' Hi Hx' Hc'; cbn in Hx'; [injection Hx' as ->; set_solver|].
    apply elem_of_app. right. apply (Hb i' x' c'); [lia|done|done].
Qed.

(** Of the interfaces with a network that reaches a target, the one chosen has the longest
    prefix, and is the first of those that have it. *)
Definition asked_from (reaches : NetworkInterface → IpNetwork → Z → Prop) (interfaces : list NetworkInterface)
    (chosen : option NetworkInterface) : Prop :=
  match chosen with
  | None => ∀ iface net prefix, iface ∈ interfaces → net ∈ ni_ips iface → ¬ reaches iface net prefix
  | Some iface => ∃ i net prefix, interfaces !! i = Some iface ∧ net ∈ ni_ips iface ∧ reaches iface net prefix ∧
      ∀ i' iface' net' prefix', interfaces !! i' = Some iface' → net' ∈ ni_ips iface' → reaches iface' net' prefix' →
        prefix' ≤ prefix ∧ ((i' < i)%nat → prefix' < prefix)
  end.

Lemma longest_asked_from (reaches : NetworkInterface → IpNetwork → Z → Prop)
    (candidate : NetworkInterface → IpNetwork → option (NetworkInterface * Z)) interfaces chosen :
  (∀ iface net c, candidate iface net = Some c ↔ c.1 = iface ∧ reaches iface net c.2) →
  longest_prefix chosen (interfaces ≫= λ iface, omap (candidate iface) (ni_ips iface)) →
  asked_from reaches interfaces chosen.
Proof.
  intros Hr. set (f := λ iface, omap (candidate iface) (ni_ips iface)).
  assert (∀ iface c, c ∈ f iface ↔ c.1 = iface ∧ ∃ net, net ∈ ni_ips iface ∧ reaches iface net c.2) as Hf.
  { intros iface c. unfold f. rewrite list_elem_of_omap. setoid_rewrite Hr. naive_solver. }
  unfold longest_prefix, asked_from. destruct chosen as [iface|].
  - intros (prefix & earlier & later & E & He & Hl).
    destruct (bind_split f interfaces _ _ _ E) as (i & x & Hx & Hc & Hb).
    apply Hf in Hc as (Ex & net & Hnet & Hreach). cbn in Ex, Hreach. subst x.
    exists i, net, prefix. split_and!; [done..|]. intros i' iface' net' prefix' Hi' Hn' Hr'.
    assert ((iface', prefix') ∈ f iface') as Hin by (apply Hf; eauto). split.
    + assert ((iface', prefix') ∈ interfaces ≫= f) as Hall
        by (apply list_elem_of_bind; exists iface'; split; [done|by eapply list_elem_of_lookup_2]).
      rewrite E, elem_of_app, elem_of_cons in Hall. rewrite Forall_forall in He, Hl.
      destruct Hall as [Ha%He|[[= _ ->]|Ha%Hl]]; cbn in *; lia.
    + intros Hlt. rewrite Forall_forall in He. exact (He _ (Hb i' iface' (iface', prefix') Hlt Hi' Hin)).
  - intros E iface net prefix Hi Hn Hre.
    assert ((iface, prefix) ∈ interfaces ≫= f) as Hall.
    { apply list_elem_of_bind. exists iface. split; [|done]. apply Hf. eauto. }
    rewrite E in Hall. by apply elem_of_nil in Hall.
Qed.

(** The link-local addresses: the first ten of the 128 bits are those of fe80. *)
Definition link_local (a : Z) : Prop := (a / 2 ^ 118) mod 2 ^ 10 = 0x3fa.

Lemma is_link_local_iff a : is_link_local a = true ↔ link_local a.
Proof.
  unfold is_link_local, link_local. rewrite Z.eqb_eq. change 0xffc0 with (Z.shiftl (Z.ones 10) 6).
  assert (Z.land (Z.shiftr a 112) (Z.shiftl (Z.ones 10) 6) = Z.shiftl (Z.land (Z.shiftr a 118) (Z.ones 10)) 6) as ->.
  { apply Z.bits_inj'. intros n Hn. rewrite Z.land_spec, !Z.shiftl_spec, Z.shiftr_spec by lia.
    destruct (Z.lt_ge_cases n 6).
    - rewrite !(Z.testbit_neg_r _ (n - 6)) by lia. by rewrite andb_false_r.
    - rewrite Z.land_spec, Z.shiftr_spec by lia. do 2 f_equal. lia. }
  rewrite Z.shiftl_mul_pow2, Z.land_ones, Z.shiftr_div_pow2 by lia.
  change (2 ^ 6) with 64. generalize ((a / 2 ^ 118) mod 2 ^ 10). lia.
Qed.

Section reach.
Context {NL : IpNetworkLib}.

(** An IPv4 target is reached over a network of its family that contains it. *)
Definition arp_reaches (target : Z) (iface : NetworkInterface) (net : IpNetwork) (prefix : Z) : Prop :=
  ∃ ip, net = Net4 ip prefix ∧ v4_contains ip prefix target = true.

(** An IPv6 target likewise: a link-local one only from an interface with such an address of
    its own, another not from a loopback. *)
Definition ndp_reaches (target : Z) (iface : NetworkInterface) (net : IpNetwork) (prefix : Z) : Prop :=
  (∃ ip, net = Net6 ip prefix ∧ v6_contains ip prefix target = true) ∧
  (link_local target → ∃ ip p, Net6 ip p ∈ ni_ips iface ∧ link_local ip) ∧
  (¬ link_local target → ni_loopback iface = false).

Lemma arp_selected interfaces t : asked_from (arp_reaches t) interfaces (arp_select_interface interfaces t).
Proof.
  eapply longest_asked_from; [|apply selected_longest]. intros iface net [i p]. unfold arp_reaches. cbn [fst snd].
  destruct net as [ip prefix|ip prefix].
  - split.
    + destruct (v4_contains ip prefix t) eqn:E; [|done]. intros [= <- <-]. eauto.
    + intros (-> & ip' & [= <- <-] & ->). done.
  - split; [done|]. by intros (_ & ? & ? & _).
Qed.

Lemma has_link_local_iff iface : has_link_local iface = true ↔ ∃ ip p, Net6 ip p ∈ ni_ips iface ∧ link_local ip.
Proof.
  unfold has_link_local. rewrite existsb_exists. setoid_rewrite <-list_elem_of_In. split.
  - intros ([ip p|ip p] & Hin & Hl); [done|]. exists ip, p. by rewrite <-is_link_local_iff.
  - intros (ip & p & Hin & Hl%is_link_local_iff). by exists (Net6 ip p).
Qed.

Lemma ndp_selected interfaces t : asked_from (ndp_reaches t) interfaces (ndp_select_interface interfaces t).
Proof.
  eapply longest_asked_from; [|apply selected_longest]. intros iface net [i p]. unfold ndp_reaches. cbn [fst snd].
  rewrite <-is_link_local_iff, <-has_link_local_iff.
  destruct net as [ip prefix|ip prefix]; [split; [done|]; by intros (_ & (? & ? & _) & _)|].
  split.
  - destruct (v6_contains ip prefix t) eqn:E; [|done]. cbv zeta.
    destruct (is_link_local t) eqn:Hl.
    + destruct (has_link_local iface); [|done]. intros [= <- <-]. split_and!; [done|by exists ip|done|done].
    + destruct (ni_loopback iface); [done|]. intros [= <- <-]. split_and!; [done|by exists ip|done|done].
  - intros (-> & (ip' & [= <- <-] & ->) & H1 & H2). cbv zeta.
    destruct (is_link_local t); [by rewrite H1|by rewrite H2].
Qed.
End reach.

(** ** Frames *)

Definition ethernet_frame (dst src : MacAddr) (ethertype : Z) (payload : Bytes) : Bytes :=
  dst ++ src ++ to_be_bytes 2 ethertype ++ payload.

Definition arp_message (hardware protocol hw_len proto_len operation : Z) (sender_hw : MacAddr)
    (sender_proto : Z) (target_hw : MacAddr) (target_proto : Z) : Bytes :=
  to_be_bytes 2 hardware ++ to_be_bytes 2 protocol ++ [hw_len; proto_len] ++ to_be_bytes 2 operation ++
  sender_hw ++ to_be_bytes 4 sender_proto ++ target_hw ++ to_be_bytes 4 target_proto.

Definition ipv6_header (version traffic_class flow_label len next_header hop_limit src dst : Z) : Bytes :=
  to_be_bytes 4 (version * 2 ^ 28 + traffic_class * 2 ^ 20 + flow_label) ++ to_be_bytes 2 len ++
  [next_header; hop_limit] ++ to_be_bytes 16 src ++ to_be_bytes 16 dst.

Definition option_bytes (o : NdpOption) : Bytes := [no_type o; no_length o] ++ no_data o.

(** The length of an option counts its eight-byte units. *)
Definition option_wf (o : NdpOption) : Prop :=
  1 ≤ no_length o < 256 ∧ Z.of_nat (length (no_data o)) = 8 * no_length o - 2.

Definition neighbor_message (ty code : Z) (checksum : Bytes) (word target : Z) (options : list NdpOption) : Bytes :=
  [ty; code] ++ checksum ++ to_be_bytes 4 word ++ to_be_bytes 16 target ++ (options ≫= option_bytes).

Definition mac_wf (mac : MacAddr) : Prop := length mac = 6%nat.

(** The packet library on frames laid out as the standards have them (RFC 826, 4861, 8200). *)
Class LinkLaws {PN : PnetLib} : Prop := {
  lw_ethernet : ∀ dst src ethertype payload, mac_wf dst → mac_wf src → 0 ≤ ethertype < 65536 →
    ethernet_packet (ethernet_frame dst src ethertype payload) = Some (ethertype, payload);
  lw_set_ethernet : ∀ b dst src ethertype, length b = ETH_HEADER_LEN → mac_wf dst → mac_wf src →
    set_ethernet b dst src ethertype = ethernet_frame dst src ethertype [];
  lw_arp : ∀ hardware protocol hw_len proto_len operation sender_hw sender_proto target_hw target_proto padding,
    mac_wf sender_hw → mac_wf target_hw → 0 ≤ operation < 65536 → 0 ≤ sender_proto < 2 ^ 32 →
    arp_packet (arp_message hardware protocol hw_len proto_len operation sender_hw sender_proto target_hw target_proto
                ++ padding) = Some (mkArpView operation sender_hw sender_proto);
  lw_set_arp : ∀ b hardware protocol hw_len proto_len operation sender_hw sender_proto target_hw target_proto,
    length b = ARP_PACKET_LEN → mac_wf sender_hw → mac_wf target_hw →
    set_arp b hardware protocol hw_len proto_len operation sender_hw sender_proto target_hw target_proto =
    arp_message hardware protocol hw_len proto_len operation sender_hw sender_proto target_hw target_proto;
  lw_ipv6 : ∀ version traffic_class flow_label next_header hop_limit src dst payload,
    Z.of_nat (length payload) < 65536 → 0 ≤ next_header < 256 →
    ipv6_packet (ipv6_header version traffic_class flow_label (Z.of_nat (length payload)) next_header hop_limit src dst
                 ++ payload) = Some (next_header, payload);
  lw_set_ipv6 : ∀ b version traffic_class flow_label len next_header hop_limit src dst, length b = IPV6_HEADER_LEN →
    set_ipv6 b version traffic_class flow_label len next_header hop_limit src dst =
    ipv6_header version traffic_class flow_label len next_header hop_limit src dst;
  lw_icmpv6_type : ∀ ty rest, (3 ≤ length rest)%nat → icmpv6_type (ty :: rest) = Some ty;
  lw_advert : ∀ code checksum flags target options,
    length checksum = 2%nat → 0 ≤ target < 2 ^ 128 → Forall option_wf options →
    neighbor_advert (neighbor_message NEIGHBOR_ADVERT code checksum flags target options) = Some (target, options);
  lw_set_solicit : ∀ b ty code reserved target options,
    length b = length (neighbor_message ty code [0; 0] reserved target options) → Forall option_wf options →
    set_neighbor_solicit b ty code reserved target options =
    neighbor_message ty code (take 2 (drop 2 b)) reserved target options;
}.

Section frames.
Context {PN : PnetLib} {NL : IpNetworkLib} {LW : LinkLaws}.

(** Writing the checksum into a message behind its headers. *)
Lemma insert_checksum n (front rest : Bytes) x0 x1 x2 x3 b0 b1 : length front = n →
  <[(n + 3)%nat := b1]> (<[(n + 2)%nat := b0]> (front ++ x0 :: x1 :: x2 :: x3 :: rest)) =
  front ++ x0 :: x1 :: b0 :: b1 :: rest.
Proof using Type. intros <-. rewrite !insert_app_r. done. Qed.

(** A request, byte by byte. *)
Lemma arp_request_frame src_mac src_ip target : mac_wf src_mac →
  arp_build_request src_mac src_ip target =
  ethernet_frame MAC_BROADCAST src_mac ETHERTYPE_ARP
    (arp_message ARP_HARDWARE_ETHERNET ETHERTYPE_IPV4 6 4 ARP_REQUEST src_mac src_ip MAC_ZERO target).
Proof.
  intros Hm. unfold arp_build_request. rewrite lw_set_ethernet, lw_set_arp by (done || by vm_compute).
  unfold ethernet_frame. by rewrite app_nil_r, <-!app_assoc.
Qed.

Lemma ndp_request_frame src_mac src_ip target : mac_wf src_mac →
  ∃ checksum, length checksum = 2%nat ∧
  ndp_build_request src_mac src_ip target =
  ethernet_frame (solicited_node_multicast_mac target) src_mac ETHERTYPE_IPV6
    (ipv6_header 6 0 0 (Z.of_nat NS_ICMPV6_LEN) NEXT_HEADER_ICMPV6 NDP_HOP_LIMIT src_ip (solicited_node_multicast target) ++
     neighbor_message NEIGHBOR_SOLICIT 0 checksum 0 target [mkNdpOption SOURCE_LL_ADDR 1 src_mac]).
Proof.
  intros Hm. unfold ndp_build_request. cbv zeta.
  assert (Forall option_wf [mkNdpOption SOURCE_LL_ADDR 1 src_mac]) as Hwf.
  { repeat constructor; cbn; try lia. unfold mac_wf in Hm. rewrite Hm. done. }
  rewrite lw_set_ethernet, lw_set_ipv6 by (done || by vm_compute).
  rewrite lw_set_solicit; [|unfold neighbor_message; rewrite !length_app, !to_be_bytes_length; cbn;
    unfold mac_wf in Hm; rewrite app_nil_r, Hm; done|done].
  set (bytes := to_be_bytes 2 _). exists [default 0 (bytes !! 0%nat); default 0 (bytes !! 1%nat)]. split; [done|].
  change (take 2 (drop 2 (drop (ETH_HEADER_LEN + IPV6_HEADER_LEN) (replicate NS_FRAME_LEN 0)))) with [0; 0].
  clearbody bytes. unfold ethernet_frame, neighbor_message.
  match goal with |- context [ipv6_header ?v ?tc ?fl ?len ?nh ?hop ?src ?dst] =>
    set (header := ipv6_header v tc fl len nh hop src dst);
    assert (length header = IPV6_HEADER_LEN) as Hheader
      by (unfold header, ipv6_header; rewrite !length_app, !to_be_bytes_length; done) end.
  clearbody header. set (tail := to_be_bytes 4 0 ++ to_be_bytes 16 target ++ ([mkNdpOption SOURCE_LL_ADDR 1 src_mac] ≫= option_bytes)).
  set (front := (solicited_node_multicast_mac target ++ src_mac ++ to_be_bytes 2 ETHERTYPE_IPV6) ++ header).
  assert (length front = ETH_HEADER_LEN + IPV6_HEADER_LEN)%nat as Hfront.
  { unfold front, mac_wf in *. rewrite !length_app, to_be_bytes_length, Hheader, Hm. done. }
  trans (front ++ NEIGHBOR_SOLICIT :: 0 :: default 0 (bytes !! 0%nat) :: default 0 (bytes !! 1%nat) :: tail).
  2: { unfold front. by rewrite <-!app_assoc. }
  rewrite <-(insert_checksum _ front tail NEIGHBOR_SOLICIT 0 0 0 _ _ Hfront). do 2 f_equal.
  unfold front. by rewrite app_nil_r, <-!app_assoc.
Qed.

(** The reply of a host, and the advertisement of a neighbour. *)
Definition arp_reply_frame (dst src mac : MacAddr) (ip : Z) (target_hw : MacAddr) (target_proto : Z) (padding : Bytes)
    : Bytes :=
  ethernet_frame dst src ETHERTYPE_ARP
    (arp_message ARP_HARDWARE_ETHERNET ETHERTYPE_IPV4 6 4 ARP_REPLY mac ip target_hw target_proto ++ padding).

Definition advert_frame (dst src : MacAddr) (hop_limit ip_src ip_dst code : Z) (checksum : Bytes) (flags target : Z)
    (options : list NdpOption) : Bytes :=
  let message := neighbor_message NEIGHBOR_ADVERT code checksum flags target options in
  ethernet_frame dst src ETHERTYPE_IPV6
    (ipv6_header 6 0 0 (Z.of_nat (length message)) NEXT_HEADER_ICMPV6 hop_limit ip_src ip_dst ++ message).

Lemma arp_parse_message dst src operation mac ip target_hw target_proto padding :
  mac_wf dst → mac_wf src → mac_wf mac → mac_wf target_hw → 0 ≤ operation < 65536 → 0 ≤ ip < 2 ^ 32 →
  arp_parse_reply_source (ethernet_frame dst src ETHERTYPE_ARP
    (arp_message ARP_HARDWARE_ETHERNET ETHERTYPE_IPV4 6 4 operation mac ip target_hw target_proto ++ padding)) =
  if operation =? ARP_REPLY then Some (ip, mac) else None.
Proof using LW.
  intros. unfold arp_parse_reply_source. rewrite lw_ethernet by (done || unfold ETHERTYPE_ARP; lia).
  cbn [mbind option_bind]. rewrite Z.eqb_refl. cbn [negb]. rewrite lw_arp by done. cbn [mbind option_bind av_operation].
  by destruct (operation =? ARP_REPLY).
Qed.

Lemma neighbor_message_type ty code checksum word target options : length checksum = 2%nat →
  icmpv6_type (neighbor_message ty code checksum word target options) = Some ty.
Proof using LW.
  intros Hc. unfold neighbor_message. cbn [app]. apply lw_icmpv6_type. cbn [length]. rewrite !length_app, Hc. lia.
Qed.

(** The first option that holds the link-layer address of a target. *)
Lemma head_target_ll_addr options :
  head (omap target_ll_addr options) =
  take 6 ∘ no_data <$> find (λ o, (no_type o =? 2) && (6 <=? length (no_data o))%nat) options.
Proof using Type.
  induction options as [|o options IH]; [done|]. cbn [omap list_omap find]. unfold target_ll_addr at 1, TARGET_LL_ADDR.
  by destruct ((no_type o =? 2) && _).
Qed.

(** C28. A host's reply to an ARP request, padded or not, and a neighbour's advertisement are read as the address they
    announce and the link-layer address in them; the requests themselves, and advertisements without such an
    address, are not read as replies. Each target is asked from an interface with a network of its family that
    contains it, no network that reaches it having a longer prefix, and the first interface of those; no interface
    is chosen only when none reaches it. A link-local target needs a link-local address on the interface, another
    IPv6 target an interface that is not a loopback. *)
Theorem link_frames_read (dst src mac target_hw : MacAddr) (ip target_proto : Z) (padding : Bytes)
    (hop_limit ip_src ip_dst code flags target : Z) (checksum : Bytes) (options : list NdpOption) :
  mac_wf dst → mac_wf src → mac_wf mac → mac_wf target_hw → 0 ≤ ip < 2 ^ 32 → 0 ≤ target < 2 ^ 128 →
  length checksum = 2%nat → Forall option_wf options →
  Z.of_nat (length (options ≫= option_bytes)) < 65000 →
  arp_parse_reply_source (arp_reply_frame dst src mac ip target_hw target_proto padding) = Some (ip, mac) ∧
  arp_parse_reply_source (arp_build_request mac ip target_proto) = None ∧
  ndp_parse_reply_source (advert_frame dst src hop_limit ip_src ip_dst code checksum flags target options) =
    (λ o, (target, take 6 (no_data o))) <$> find (λ o, (no_type o =? 2) && (6 <=? length (no_data o))%nat) options ∧
  ndp_parse_reply_source (ndp_build_request mac ip_src target) = None ∧
  (∀ interfaces t, asked_from (arp_reaches t) interfaces (arp_select_interface interfaces t)) ∧
  (∀ interfaces t, asked_from (ndp_reaches t) interfaces (ndp_select_interface interfaces t)).
Proof using LW.
  intros Hd Hs Hm Ht Hip Htarget Hc Ho Hlen. split_and!; [| | | |intros; apply arp_selected|intros; apply ndp_selected].
  - unfold arp_reply_frame. by rewrite arp_parse_message by (done || unfold ARP_REPLY; lia).
  - rewrite arp_request_frame by done. rewrite <-(app_nil_r (arp_message _ _ _ _ _ _ _ _ _)).
    by rewrite arp_parse_message by (done || unfold ARP_REQUEST; lia).
  - unfold advert_frame, ndp_parse_reply_source. rewrite lw_ethernet by (done || unfold ETHERTYPE_IPV6; lia).
    cbn [mbind option_bind]. rewrite Z.eqb_refl. cbn [negb]. rewrite lw_ipv6.
    2: { unfold neighbor_message. rewrite !length_app, !to_be_bytes_length, Hc. cbn [length]. lia. }
    2: { unfold NEXT_HEADER_ICMPV6. lia. }
    cbn [mbind option_bind]. rewrite Z.eqb_refl. cbn [negb]. rewrite neighbor_message_type by done.
    cbn [mbind option_bind]. rewrite Z.eqb_refl. cbn [negb]. rewrite lw_advert by done.
    cbn [mbind option_bind]. rewrite head_target_ll_addr. by destruct (find _ _).
  - destruct (ndp_request_frame mac ip_src target Hm) as (ck & Hck & ->).
    unfold ndp_parse_reply_source. rewrite lw_ethernet by (done || unfold ETHERTYPE_IPV6; lia).
    cbn [mbind option_bind]. rewrite Z.eqb_refl. cbn [negb].
    assert (length (neighbor_message NEIGHBOR_SOLICIT 0 ck 0 target [mkNdpOption SOURCE_LL_ADDR 1 mac]) = NS_ICMPV6_LEN) as Hl.
    { unfold neighbor_message, mac_wf in *. rewrite !length_app, !to_be_bytes_length, Hck. cbn. by rewrite app_nil_r, Hm. }
    rewrite <-Hl. rewrite lw_ipv6 by (rewrite ?Hl; done || unfold NEXT_HEADER_ICMPV6; lia).
    cbn [mbind option_bind]. rewrite Z.eqb_refl. cbn [negb]. by rewrite neighbor_message_type by done.
Qed.
End frames.

(** ** Probes *)

Section probes.
Context `{IE : IoErrors} {P : LinkLayerProtocol}.

Lemma reader_dispatches events addr reply : DDispatch addr reply ∈ link_reader_ops events →
  ∃ bytes mac, Frame bytes ∈ events ∧ ll_parse_reply_source bytes = Some (addr, mac) ∧ reply = EReached mac.
Proof using Type.
  induction events as [|[bytes|err|] events IH]; cbn [link_reader_ops]; [set_solver|..|set_solver].
  - destruct (ll_parse_reply_source bytes) as [[a m]|] eqn:Hp; [rewrite elem_of_cons; intros [[= -> ->]|Hin]|intros Hin].
    + exists bytes, m. set_solver.
    + destruct (IH Hin) as (b & m' & ? & ?). exists b, m'. set_solver.
    + destruct (IH Hin) as (b & m' & ? & ?). exists b, m'. set_solver.
  - case_match; [|set_solver]. intros Hin. destruct (IH Hin) as (b & m' & ? & ?). exists b, m'. set_solver.
Qed.

(** What ends the attempts: what the receiver held at one of them, or that the frame could not leave. *)
Lemma link_attempts_reads attempts per overall ip ts addr n i :
  let '(outcome, ops) := link_attempts attempts per overall ip ts addr n i in
  (∃ k deadline reply, (i ≤ k < i + n)%nat ∧ la_rx (attempts k) deadline = ChSent reply ∧
     outcome = reply_to_outcome ip ts (Some reply) ∧ ops = []) ∨
  (∃ k deadline, (i ≤ k < i + n)%nat ∧ la_rx (attempts k) deadline = ChClosed ∧
     outcome = reply_to_outcome ip ts None ∧ ops = []) ∨
  (∃ k detail, (i ≤ k < i + n)%nat ∧ la_send (attempts k) ≠ Some (Ok tt) ∧
     outcome = link_layer_fault ip ts detail ∧ ops = [DDeregister addr]) ∨
  (outcome = reply_to_outcome ip ts None ∧ ops = [DDeregister addr] ∧
   ∀ k, (i = k ∧ n ≠ 0)%nat → ∃ deadline, la_rx (attempts k) deadline = ChWaiting).
Proof using Type.
  revert i. induction n as [|n IH]; intros i; cbn [link_attempts].
  { do 3 right. split_and!; [done..|]. lia. }
  destruct (la_send (attempts i)) as [[[]|err]|] eqn:Hsend.
  - set (deadline := Z.min _ _). destruct (la_rx (attempts i) deadline) as [|reply|] eqn:Hrx.
    + assert (∀ k, (i = k ∧ S n ≠ 0)%nat → ∃ d, la_rx (attempts k) d = ChWaiting) as Hwait by (intros k [<- _]; eauto).
      destruct (Z.leb_spec overall (la_after (attempts i))); [by do 3 right|]. specialize (IH (S i)).
      destruct (link_attempts attempts per overall ip ts addr n (S i)) as [outcome ops].
      destruct IH as [(k & d & r & Hk & ?)|[(k & d & Hk & ?)|[(k & d & Hk & ?)|(? & ? & _)]]].
      * left. exists k, d, r. split; [lia|done].
      * right. left. exists k, d. split; [lia|done].
      * do 2 right. left. exists k, d. split; [lia|done].
      * do 3 right. done.
    + left. exists i, deadline, reply. split; [lia|done].
    + right. left. exists i, deadline. split; [lia|done].
  - do 2 right. left. exists i. eexists. split; [lia|]. by rewrite Hsend.
  - do 2 right. left. exists i. eexists. split; [lia|]. by rewrite Hsend.
Qed.

(** What the receiver of a probe shows at any time: what its registration is by then. *)
Definition rx_follows (before : list LinkOp) (addr : Z) (after : list LinkOp) (attempts : nat → LinkAttempt) : Prop :=
  ∀ k deadline, ∃ so_far, so_far `prefix_of` after ∧
    la_rx (attempts k) deadline = registration_fate before addr so_far.

Lemma fate_open (before : list LinkOp) addr so_far c :
  registration_fate before addr so_far = c → (∀ reply, c ≠ ChSent reply) →
  first_poison before = None ∧ key_in_flight addr before = false ∧ settled_by addr so_far = c.
Proof using Type.
  unfold registration_fate. intros Hf Hc. destruct (first_poison before) as [f|]; [by destruct (Hc (EFailed f))|].
  destruct (key_in_flight addr before); [by destruct (Hc (EFailed DUPLICATE_KEY))|done].
Qed.

(** Whether a probe of [addr] may report [outcome]. *)
Definition announced (events : list LinkEvent) (before after : list LinkOp) (addr : Z) (outcome : ProbeOutcome) : Prop :=
  if po_reachable outcome
  then ∃ bytes mac, Frame bytes ∈ events ∧ ll_parse_reply_source bytes = Some (addr, mac) ∧
         po_signals outcome = [Mac (format_mac mac)] ∧ po_fault outcome = None
  else po_signals outcome = [] ∧
       (po_fault outcome = None →
        ∃ so_far, so_far `prefix_of` after ∧ first_poison before = None ∧ key_in_flight addr before = false ∧
          (settled_by addr so_far = ChWaiting ∨ settled_by addr so_far = ChClosed)).

Lemma await_announced attempts timeout retries now ip ts addr before after events :
  rx_follows before addr after attempts →
  (∀ addr reply, DDispatch addr reply ∈ after → DDispatch addr reply ∈ link_reader_ops events) →
  let outcome := (send_and_await_reply attempts timeout retries now ip ts addr).1 in
  announced events before after addr outcome ∧ (is_Some (first_poison before) → is_Some (po_fault outcome)).
Proof using Type.
  intros Hrx Hdispatch. unfold send_and_await_reply.
  pose proof (link_attempts_reads attempts (per_attempt_timeout timeout retries) (now + timeout) ip ts addr
    (S (Z.to_nat retries)) 0) as Hends.
  destruct (link_attempts _ _ _ _ _ _ _ _) as [outcome ops]. cbn [fst]. unfold announced.
  assert (∀ c so_far, registration_fate before addr so_far = c → so_far `prefix_of` after →
    c = ChWaiting ∨ c = ChClosed →
    (∃ so_far, so_far `prefix_of` after ∧ first_poison before = None ∧ key_in_flight addr before = false ∧
       (settled_by addr so_far = ChWaiting ∨ settled_by addr so_far = ChClosed)) ∧
    ¬ is_Some (first_poison before)) as Hopen.
  { intros c so_far Hf Hp Hc. apply fate_open in Hf as (Hn & Hk & Hs); [|by destruct Hc as [->| ->]].
    split; [|rewrite Hn; by intros [??]]. exists so_far. split_and!; [done..|]. by rewrite Hs. }
  destruct Hends as [(k & d & reply & _ & Hr & -> & _)|[(k & d & _ & Hr & -> & _)|[(k & detail & _ & _ & -> & _)|
    (-> & _ & Hwait)]]].
  - destruct (Hrx k d) as (so_far & [rest ->] & Hfate). rewrite Hr in Hfate. symmetry in Hfate.
    destruct reply as [mac|fault]; cbn [reply_to_outcome reached_outcome fault_outcome po_reachable po_signals po_fault].
    2: { split; [done|]. eauto. }
    assert (first_poison before = None) as Hn.
    { unfold registration_fate in Hfate. by destruct (first_poison before). }
    split; [|rewrite Hn; by intros [??]].
    apply fate_reached in Hfate as (waited & later & -> & _).
    destruct (reader_dispatches events addr (EReached mac)) as (bytes & mac' & Hin & Hparse & [= <-]).
    { apply Hdispatch. set_solver. }
    by exists bytes, mac.
  - destruct (Hrx k d) as (so_far & Hp & Hfate). rewrite Hr in Hfate.
    destruct (Hopen _ _ (eq_sym Hfate) Hp) as [Hex Hno]; [by right|]. cbn. split; [done|]. intros. by destruct Hno.
  - cbn. split; [done|]. eauto.
  - destruct (Hwait 0%nat) as [d Hw]; [lia|]. destruct (Hrx 0%nat d) as (so_far & Hp & Hfate). rewrite Hw in Hfate.
    destruct (Hopen _ _ (eq_sym Hfate) Hp) as [Hex Hno]; [by left|]. cbn. split; [done|]. intros. by destruct Hno.
Qed.

Lemma link_source_fails interface interfaces ip ts outcome :
  link_source interface interfaces ip ts = Err outcome → ∃ detail, outcome = link_layer_fault ip ts detail.
Proof using Type.
  unfold link_source. destruct (ll_extract_target ip) as [addr|]; [|intros; simplify_eq; eauto].
  destruct (if is_empty interface then _ else _) as [iface|e] eqn:Hi; cbn [mbind Result_bind].
  2: { intros. simplify_eq. destruct (is_empty interface); case_match; simplify_eq; eauto. }
  clear Hi. repeat case_match; intros; simplify_eq; eauto.
Qed.

Lemma link_source_target interface interfaces ip ts iface src_mac src_ip addr :
  link_source interface interfaces ip ts = Ok (iface, src_mac, src_ip, addr) → ll_extract_target ip = Some addr.
Proof using Type.
  unfold link_source. destruct (ll_extract_target ip) as [a|]; [|done].
  destruct (if is_empty interface then _ else _) as [i|e]; cbn [mbind Result_bind]; [|done].
  destruct (ni_mac i); [|done]. destruct (ll_source_address i a); [|done]. case_match; [done|]. by intros [= _ _ _ ->].
Qed.

(** C29. A probe reports a host only with a link-layer address that a frame read from the wire announced for the
    very target, dispatched while the probe was waiting; a host it reports absent is one whose receiver
    held nothing, or was dropped, when its time ran out. A dead engine, a duplicate registration and a frame that
    could not be sent are faults. The engine of an interface is opened once, and its failure faults
    every probe. *)
Theorem link_probe_announced (engines : gmap Str (Result ProbeFault unit)) (interface : Str)
    (interfaces : list NetworkInterface) (open : NetworkInterface → Result ProbeFault unit)
    (attempts : Bytes → nat → LinkAttempt) (timeout retries now : Z) (target_ip : IpAddr) (ts : SystemTime)
    (before after : list LinkOp) (events : list LinkEvent) :
  (∀ frame addr, ll_extract_target target_ip = Some addr → rx_follows before addr after (attempts frame)) →
  (∀ addr reply, DDispatch addr reply ∈ after → DDispatch addr reply ∈ link_reader_ops events) →
  let probe := probe_link_layer engines interface interfaces open attempts timeout retries now target_ip ts in
  let outcome := lp_outcome probe in
  (∃ detail, outcome = link_layer_fault target_ip ts detail ∧ lp_ops probe = []) ∨
  (∃ iface src_mac src_ip addr, link_source interface interfaces target_ip ts = Ok (iface, src_mac, src_ip, addr) ∧
     lp_engines probe !! ni_name iface = Some (default (open iface) (engines !! ni_name iface)) ∧
     match default (open iface) (engines !! ni_name iface) with
     | Err fault => outcome = fault_outcome target_ip ts fault ∧ lp_ops probe = []
     | Ok _ => announced events before after addr outcome ∧
               (is_Some (first_poison before) → is_Some (po_fault outcome))
     end).
Proof using Type.
  intros Hrx Hdispatch probe outcome. unfold outcome, probe, probe_link_layer.
  destruct (link_source interface interfaces target_ip ts) as [[[[iface src_mac] src_ip] addr]|err] eqn:Hsource.
  2: { left. apply link_source_fails in Hsource as [detail ->]. by exists detail. }
  right. exists iface, src_mac, src_ip, addr. split; [done|]. apply link_source_target in Hsource.
  pose proof (await_announced (attempts (ll_build_request src_mac src_ip addr)) timeout retries now target_ip ts addr
    before after events (Hrx _ _ Hsource) Hdispatch) as Ha. cbv zeta in Ha.
  unfold get_or_open. destruct (engines !! ni_name iface) as [cached|] eqn:He; cbn [default from_option].
  - destruct cached; [destruct (send_and_await_reply _ _ _ _ _ _ _)|]; done.
  - destruct (open iface) as [[]|]; [destruct (send_and_await_reply _ _ _ _ _ _ _)|]; cbn [lp_engines];
      rewrite lookup_insert_eq; done.
Qed.
End probes.

(** ** Samples *)

#[local] Existing Instance sample_errors.
#[local] Existing Instance plain_io.

Fixpoint read_options (fuel : nat) (b : Bytes) : list NdpOption :=
  match fuel, b with
  | S fuel, ty :: len :: rest =>
      let n := Z.to_nat (8 * len - 2) in mkNdpOption ty len (take n rest) :: read_options fuel (drop n rest)
  | _, _ => []
  end.

(** A packet library that reads the fields at their offsets. *)
#[local] Instance offset_pnet : PnetLib := {|
  icmp_echo_reply _ := None;
  icmpv6_echo_reply _ := None;
  set_icmp_echo_request b _ _ _ _ _ := b;
  set_icmpv6_echo_request b _ _ _ _ _ := b;
  icmp_checksum _ := 0;
  icmpv6_checksum _ _ _ := 4660;
  ethernet_packet b :=
    if (length b <? ETH_HEADER_LEN)%nat then None else Some (from_be_bytes (take 2 (drop 12 b)), drop 14 b);
  set_ethernet _ dst src ethertype := ethernet_frame dst src ethertype [];
  arp_packet b :=
    if (length b <? ARP_PACKET_LEN)%nat then None
    else Some (mkArpView (from_be_bytes (take 2 (drop 6 b))) (take 6 (drop 8 b)) (from_be_bytes (take 4 (drop 14 b))));
  set_arp _ := arp_message;
  ipv6_packet b :=
    if (length b <? IPV6_HEADER_LEN)%nat then None else Some (default 0 (b !! 6%nat), drop 40 b);
  set_ipv6 _ := ipv6_header;
  icmpv6_type b := if (length b <? 4)%nat then None else head b;
  neighbor_advert b :=
    if (length b <? 24)%nat then None
    else Some (from_be_bytes (take 16 (drop 8 b)), read_options (length b) (drop 24 b));
  set_neighbor_solicit b ty code reserved target options :=
    neighbor_message ty code (take 2 (drop 2 b)) reserved target options;
|}.

Lemma read_options_written options fuel : Forall option_wf options → (length options ≤ fuel)%nat →
  read_options fuel (options ≫= option_bytes) = options.
Proof.
  intros Ho. revert fuel. induction Ho as [|[ty len data] options [Hr Hl] _ IH]; intros fuel Hf; [by destruct fuel|].
  cbn [length] in Hf. destruct fuel as [|fuel]; [lia|]. cbn [mbind list_bind option_bytes no_type no_length no_data app read_options] in *.
  assert (Z.to_nat (8 * len - 2) = length data) as -> by lia.
  rewrite take_app_length, drop_app_length. f_equal. apply IH. lia.
Qed.

Lemma options_length options : (length options ≤ length (options ≫= option_bytes))%nat.
Proof. induction options as [|o options IH]; [done|]. cbn [mbind list_bind length]. rewrite length_app. cbn. lia. Qed.

(** Reading a field behind a front of known length. *)
Lemma field_at n m (front field rest : Bytes) : length front = n → length field = m →
  take m (drop n (front ++ field ++ rest)) = field.
Proof. intros <- <-. by rewrite drop_app_length, take_app_length. Qed.

#[local] Instance offset_pnet_laws : LinkLaws.
Proof.
  split; try done; unfold mac_wf.
  - intros dst src ethertype payload Hd Hs He. cbn [ethernet_packet offset_pnet]. unfold ethernet_frame.
    destruct (Nat.ltb_spec (length (dst ++ src ++ to_be_bytes 2 ethertype ++ payload)) ETH_HEADER_LEN) as [Hlt|_].
    { rewrite !length_app, to_be_bytes_length in Hlt. unfold ETH_HEADER_LEN in Hlt. lia. }
    rewrite (app_assoc dst src), field_at by (rewrite ?length_app, ?to_be_bytes_length; lia).
    rewrite from_to_be_bytes by done. rewrite (app_assoc _ (to_be_bytes 2 ethertype)), drop_app_length'; [done|].
    rewrite !length_app, to_be_bytes_length. lia.
  - intros hw pt hl pl op shw sp thw tp padding Hs Ht Ho Hsp. cbn [arp_packet offset_pnet].
    unfold arp_message. rewrite <-!app_assoc.
    set (front := to_be_bytes 2 hw ++ to_be_bytes 2 pt ++ [hl; pl]).
    assert (length front = 6%nat) as Hf by (unfold front; rewrite !length_app, !to_be_bytes_length; done).
    replace (to_be_bytes 2 hw ++ to_be_bytes 2 pt ++ [hl; pl] ++ to_be_bytes 2 op ++ shw ++ to_be_bytes 4 sp ++ thw ++
      to_be_bytes 4 tp ++ padding) with (front ++ to_be_bytes 2 op ++ shw ++ to_be_bytes 4 sp ++ thw ++
      to_be_bytes 4 tp ++ padding) by (unfold front; by rewrite <-!app_assoc).
    destruct (Nat.ltb_spec (length (front ++ to_be_bytes 2 op ++ shw ++ to_be_bytes 4 sp ++ thw ++
      to_be_bytes 4 tp ++ padding)) ARP_PACKET_LEN) as [Hlt|_].
    { rewrite !length_app, !to_be_bytes_length in Hlt. unfold ARP_PACKET_LEN in Hlt. lia. }
    do 2 f_equal.
    + rewrite field_at by (done || apply to_be_bytes_length). by apply from_to_be_bytes.
    + rewrite (app_assoc front). apply field_at; [rewrite length_app, to_be_bytes_length; lia|done].
    + rewrite (app_assoc front), (app_assoc _ shw), field_at; [by apply from_to_be_bytes| |apply to_be_bytes_length].
      rewrite !length_app, to_be_bytes_length. lia.
  - intros ty rest Hr. cbn [icmpv6_type offset_pnet]. destruct (Nat.ltb_spec (length (ty :: rest)) 4); [cbn in *; lia|done].
  - intros code checksum flags target options Hc Ht Ho. cbn [neighbor_advert offset_pnet]. unfold neighbor_message.
    set (front := [NEIGHBOR_ADVERT; code] ++ checksum ++ to_be_bytes 4 flags).
    assert (length front = 8%nat) as Hf by (unfold front; rewrite !length_app, to_be_bytes_length, Hc; done).
    replace ([NEIGHBOR_ADVERT; code] ++ checksum ++ to_be_bytes 4 flags ++ to_be_bytes 16 target ++ (options ≫= option_bytes))
      with (front ++ to_be_bytes 16 target ++ (options ≫= option_bytes)) by (unfold front; by rewrite <-!app_assoc).
    destruct (Nat.ltb_spec (length (front ++ to_be_bytes 16 target ++ (options ≫= option_bytes))) 24) as [Hlt|_].
    { rewrite !length_app, to_be_bytes_length in Hlt. lia. }
    rewrite field_at by (done || apply to_be_bytes_length). rewrite from_to_be_bytes by done.
    rewrite (app_assoc front), drop_app_length' by (rewrite length_app, to_be_bytes_length; lia).
    rewrite read_options_written; [done|done|]. rewrite !length_app. pose proof (options_length options). lia.
Qed.

#[local] Instance prefix_networks : IpNetworkLib := {|
  v4_contains ip prefix a := Z.shiftr ip (32 - prefix) =? Z.shiftr a (32 - prefix);
  v6_contains ip prefix a := Z.shiftr ip (128 - prefix) =? Z.shiftr a (128 - prefix);
|}.

Definition sample_mac : MacAddr := [2; 0; 0; 0; 0; 1].

Lemma link_frames_read_witness :
  arp_parse_reply_source (arp_reply_frame MAC_BROADCAST sample_mac sample_mac 167772161 MAC_ZERO 1 (replicate 18 0)) =
    Some (167772161, sample_mac) ∧
  arp_parse_reply_source (arp_build_request sample_mac 167772161 1) = None.
Proof.
  destruct (link_frames_read MAC_BROADCAST sample_mac sample_mac MAC_ZERO 167772161 1 (replicate 18 0) 255 1 2 0 0 3
    [0; 0] [mkNdpOption TARGET_LL_ADDR 1 sample_mac]) as (H1 & H2 & _);
    [done|done|done|done|lia|lia|done|repeat constructor; cbn; lia|cbn; lia|].
  exact (conj H1 H2).
Defined.

(** An interface, and a host that answers the second of two requests. *)
Definition sample_iface : NetworkInterface :=
  mkNetworkInterface (s! "eth0") (Some sample_mac) [Net4 167772162 24] false.

Definition sample_reply : Bytes :=
  arp_reply_frame sample_mac [2; 0; 0; 0; 0; 7] [2; 0; 0; 0; 0; 7] 167772161 sample_mac 167772162 [].

Definition sample_after_ops : list LinkOp := [DDispatch 167772161 (EReached [2; 0; 0; 0; 0; 7])].

Definition sample_attempts (k : nat) : LinkAttempt :=
  mkLinkAttempt (Some (Ok tt)) 0
    (λ _, registration_fate [] 167772161 (if bool_decide (k = 0%nat) then [] else sample_after_ops)) 1000.

#[local] Existing Instance ArpProtocol.

Definition sample_link_probe : LinkProbe :=
  probe_link_layer ∅ [] [sample_iface] (λ _, Ok tt) (λ _, sample_attempts) 2000000000 1 0 (V4 167772161) 0.

Lemma link_probe_announced_witness :
  po_signals (lp_outcome sample_link_probe) = [Mac (s! "02:00:00:00:00:07")] ∧
  announced [Frame sample_reply] [] sample_after_ops 167772161 (lp_outcome sample_link_probe).
Proof.
  split; [by vm_compute|].
  destruct (link_probe_announced ∅ [] [sample_iface] (λ _, Ok tt) (λ _, sample_attempts) 2000000000 1 0
    (V4 167772161) 0 [] sample_after_ops [Frame sample_reply]) as
    [(detail & H & _)|(iface & mac & ip & addr & Hs & _ & H)].
  - intros frame addr [= <-] k deadline. exists (if bool_decide (k = 0%nat) then [] else sample_after_ops).
    split; [|done]. case_bool_decide; [apply prefix_nil|done].
  - intros addr reply Hin. unfold sample_after_ops in Hin. apply list_elem_of_singleton in Hin as [= -> ->].
    assert (link_reader_ops [Frame sample_reply] = sample_after_ops) as -> by (by vm_compute). by apply list_elem_of_singleton.
  - exfalso. apply (f_equal po_reachable) in H. by vm_compute in H.
  - vm_compute in Hs. injection Hs as <- <- <- <-. rewrite lookup_empty in H. exact (proj1 H).
Defined.

(** A probe that was refused as a duplicate and then fails to send removes the registration a later probe made
    for the same key: that one reads its host as absent although it never stopped waiting. *)
Example stale_deregistration_orphans :
  let history := [DRegister 7 tt; DRegister 7 tt; DRegister 7 tt; DDeregister 7] in
  dx_channels (demux_run history (demux_new : Demux Z unit MacAddr)) =
    [ChSent (EFailed DUPLICATE_KEY); ChSent (EFailed DUPLICATE_KEY); ChClosed] ∧
  (link_attempts (λ _, mkLinkAttempt (Some (Ok tt)) 0 (λ _, registration_fate [DRegister 7 tt; DRegister 7 tt] 7 [DDeregister 7]) 0)
     1000000 2000000 (V4 7) 0 7 1 0).1 = absence_outcome (V4 7) 0.
Proof. split; by vm_compute. Qed.
