(* ===== verification/Config.v ===== *)
(** * Scenario configuration: [config/mod.rs] and the encoder choice of [encoder/mod.rs]

    The scenario, the defaults it falls back to, and everything a run refuses it
    for before touching the network. *)

From S2P Require Import Prelude Net F64 Model FuserCore UnionFind Identity IdentityFacts.
From S2P Require Import CorrelateFacts IdentityTheorems Fuser Classifier.
From S2P Require Import Topology CollectionProfile Encoder.
From S2P Require Import Resolver Sink Tee Kafka Nats SinkConfig GnmiPath ProberConfig.

(** ** The encoder choice: [encoder/mod.rs] *)

Definition ensure_encoder_output_fits_sink `{ForeignErrors} (encoder : EncoderConfig)
    (sink_requires_structured_records : bool) : Result RastreoError unit :=
  reject (sink_requires_structured_records && negb (emits_structured_records encoder))
    (s! "the table encoder writes aligned text rows, which this sink cannot carry: its consumers read one structured record per message. Use the ndjson encoder with this sink.").

(** ** The scenario *)

Definition MAX_RETRIES : Z := 1024.

Record BaseProbeConfig : Type := mkBaseProbeConfig {
  bp_name : option Str;
  bp_max_concurrent : option Z;
  bp_probe_rate : option Z;
  bp_retries : option Z;
  bp_timeout_ms : option Z;
  bp_encoder : option EncoderConfig;
  bp_fuser : option FuserConfig;
  bp_classifier : option ClassifierConfig;
  bp_sink : option SinkConfig;
  bp_rate_limit : option Z;
}.

Definition ensure_no_retired_fields (b : BaseProbeConfig) : Result ConfigError unit :=
  if bool_decide (is_Some (bp_rate_limit b)) then
    Err (InvalidValue (s! "`rate_limit` was renamed: use `max_concurrent` to keep the previous behavior (in-flight cap), or `probe_rate` for the new probes/sec pacing"))
  else Ok tt.

Definition ensure_retries_within_bound (b : BaseProbeConfig) : Result ConfigError unit :=
  match bp_retries b with
  | Some retries =>
      if MAX_RETRIES <? retries then
        Err (InvalidValue (s! "`retries` must be between 0 and 1024, got " ++ fmt_dec retries))
      else Ok tt
  | None => Ok tt
  end.

Record DiscoverScenarioConfig `{IpNetLib} : Type := mkScenario {
  sc_base : BaseProbeConfig;
  sc_targets : list Target;
  sc_probers : list ProberConfig;
}.
Arguments mkScenario {_}.

Definition effective_fuser_config `{Features, IpNetLib} (s : DiscoverScenarioConfig) : FuserConfig :=
  default default_fuser_config (bp_fuser (sc_base s)).

Definition effective_classifier_config `{IpNetLib} (s : DiscoverScenarioConfig) : ClassifierConfig :=
  default default_classifier_config (bp_classifier (sc_base s)).

Definition effective_encoder_config `{IpNetLib} (s : DiscoverScenarioConfig) : EncoderConfig :=
  default EncNdjson (bp_encoder (sc_base s)).

(** A loop that stops at the first refusal. *)
Fixpoint try_for_each {E A} (check : A → Result E unit) (l : list A) : Result E unit :=
  match l with
  | [] => Ok tt
  | x :: rest => _ ← check x; try_for_each check rest
  end.

Section validate.
Context `{NL : IpNetLib, UC : UnicodeCase, FD : F64Display, FE : ForeignErrors, MS : MibSource,
  HO : HashOrder, FT : Features}.
Context {RL : RegexLib} {PL : ProberLib} {W : Type} {KL : KafkaLib W}.

Definition scenario_validate (s : DiscoverScenarioConfig) : Result RastreoError unit :=
  _ ← map_err EConfig (ensure_no_retired_fields (sc_base s));
  _ ← map_err EConfig (ensure_retries_within_bound (sc_base s));
  _ ← reject (is_empty (sc_targets s)) (s! "scenario.targets must not be empty");
  _ ← reject (is_empty (sc_probers s)) (s! "scenario.probers must not be empty");
  _ ← try_for_each ensure_target_shape (sc_targets s);
  _ ← check_option sink_validate (bp_sink (sc_base s));
  _ ← check_option
        (λ encoder, ensure_encoder_output_fits_sink encoder
           (is_some_and config_requires_structured_records (bp_sink (sc_base s))))
        (bp_encoder (sc_base s));
  _ ← try_for_each (λ p, (λ _, tt) <$> create_prober p) (sc_probers s);
  _ ← create_fuser (effective_fuser_config s);
  _ ← create_classifier (effective_classifier_config s);
  Ok tt.
End validate.

(** ** Retired type tags *)

(** [serde_json::Value], with the members of an object in their map order. *)
Inductive JsonValue : Type :=
  | JNull
  | JBool (b : bool)
  | JNumber (n : Str)
  | JString (s : Str)
  | JArray (items : list JsonValue)
  | JObject (members : list (Str * JsonValue)).

Definition RETIRED_TYPE_TAGS : list (Str * Str) := [
  (s! "oui_enrichment",
   s! "the `oui_enrichment` fuser was removed: vendor identity now comes from the `mib_enrichment` fuser, which matches an SNMP `sysObjectID` exactly instead of guessing from a MAC address prefix")
].

Definition retired_type_tag_message (tag : Str) : option Str :=
  find_map (λ e : Str * Str, if bool_decide (e.1 = tag) then Some e.2 else None) RETIRED_TYPE_TAGS.

(** [Map::get]: keys of an object are distinct. *)
Definition json_get (key : Str) (members : list (Str * JsonValue)) : option JsonValue :=
  find_map (λ e : Str * JsonValue, if bool_decide (e.1 = key) then Some e.2 else None) members.

Definition retired_tag (members : list (Str * JsonValue)) : option Str :=
  match json_get (s! "type") members with
  | Some (JString tag) => retired_type_tag_message tag
  | _ => None
  end.

Fixpoint ensure_no_retired_type_tags (value : JsonValue) : Result ConfigError unit :=
  match value with
  | JObject members =>
      match retired_tag members with
      | Some message => Err (InvalidValue message)
      | None =>
          (fix values ms := match ms with
             | [] => Ok tt
             | (_, v) :: rest => _ ← ensure_no_retired_type_tags v; values rest
             end) members
      end
  | JArray items =>
      (fix elements vs := match vs with
         | [] => Ok tt
         | v :: rest => _ ← ensure_no_retired_type_tags v; elements rest
         end) items
  | _ => Ok tt
  end.
