(* ===== verification/Gnmi.v ===== *)
(** * gNMI probing: [prober/gnmi/mod.rs]

    What a gNMI endpoint is asked and what its answers become: capabilities, state values, and the
    OpenConfig [/lldp] tree in either of the forms devices return it. The connection, the RPCs and the
    JSON parser are parameters or scripted; paths are in [GnmiPath]. *)

From S2P Require Import Prelude Net F64 Model FuserCore Topology TopologyTheorems Sink Codec Ports SinkConfig GnmiPath ProberConfig Lldp Config.

(** ** Messages *)

(** [typed_value::Value]; a [TypedValue] is one that may be missing. *)
Inductive GnmiValue : Type :=
  | StringVal (s : Str)
  | IntVal (i : Z)
  | UintVal (u : Z)
  | BoolVal (b : bool)
  | DoubleVal (d : f64)
  | AsciiVal (s : Str)
  | JsonVal (bytes : Bytes)
  | JsonIetfVal (bytes : Bytes)
  | LeaflistVal (element : list (option GnmiValue))
  | OtherVal.

Record Update : Type := mkUpdate { up_path : option GnmiPath; up_val : option (option GnmiValue) }.

Record Notification : Type := mkNotification { nf_prefix : option GnmiPath; nf_update : list Update }.

Definition GetResponse : Type := list Notification.

Record ModelData : Type := mkModelData { md_name : Str; md_organization : Str; md_version : Str }.

Record CapabilityResponse : Type := mkCapabilityResponse {
  cr_supported_models : list ModelData;
  cr_supported_encodings : list Z;
  cr_gnmi_version : Str;
}.

(** [Encoding]. *)
Inductive Encoding : Type := EncJson | EncBytes | EncProto | EncAscii | EncJsonIetf.

Definition encoding_try_from (n : Z) : option Encoding :=
  if n =? 0 then Some EncJson else if n =? 1 then Some EncBytes else if n =? 2 then Some EncProto
  else if n =? 3 then Some EncAscii else if n =? 4 then Some EncJsonIetf else None.

Definition as_str_name (e : Encoding) : Str :=
  match e with
  | EncJson => s! "JSON" | EncBytes => s! "BYTES" | EncProto => s! "PROTO"
  | EncAscii => s! "ASCII" | EncJsonIetf => s! "JSON_IETF"
  end.

Definition JSON_IETF : Z := 4.

Definition render_encodings (supported : list Z) : list Str := as_str_name <$> omap encoding_try_from supported.

Definition is_renderable_encoding (encoding : Z) : bool :=
  match encoding_try_from encoding with
  | Some (EncJson | EncProto | EncAscii | EncJsonIetf) => true
  | _ => false
  end.

Definition select_get_encoding (supported : list Z) : Z :=
  if is_empty supported || bool_decide (JSON_IETF ∈ supported) then JSON_IETF
  else default JSON_IETF (List.find is_renderable_encoding supported).

(** ** Values *)

Definition MAX_VALUE_BYTES : Z := 256.

Definition gnmi_truncate (raw : Str) : Str :=
  if str_len raw <=? MAX_VALUE_BYTES then raw else floor_char_prefix MAX_VALUE_BYTES raw.

(** [to_string] of a signed integer. *)
Definition fmt_int (i : Z) : Str := if i <? 0 then [45] ++ fmt_dec (- i) else fmt_dec i.

(** What is left of a rendered value once it is trimmed, when anything is. *)
Definition trimmed_value (rendered : Str) : option Str :=
  let trimmed := trim rendered in if is_empty trimmed then None else Some trimmed.

Section values.
Context `{F64Display}.

Fixpoint render_typed_value (value : GnmiValue) : option Str :=
  rendered ←
    match value with
    | StringVal s | AsciiVal s => Some s
    | IntVal i => Some (fmt_int i)
    | UintVal u => Some (fmt_dec u)
    | BoolVal b => Some (if b then s! "true" else s! "false")
    | DoubleVal d => Some (f64_display d)
    | JsonVal bytes | JsonIetfVal bytes => Some (from_utf8_lossy bytes)
    | LeaflistVal element =>
        let items := omap (λ e, match e with Some v => render_typed_value v | None => None end) element in
        if is_empty items then None else Some (join [44] items)
    | OtherVal => None
    end;
  gnmi_truncate <$> trimmed_value rendered.
End values.

Definition scalar_value (value : GnmiValue) : option Str :=
  rendered ←
    match value with
    | StringVal s | AsciiVal s => Some s
    | IntVal i => Some (fmt_int i)
    | UintVal u => Some (fmt_dec u)
    | _ => None
    end;
  trimmed_value rendered.

(** ** Signals *)

Definition model_signal (model : ModelData) : option Signal :=
  let name := trim (md_name model) in
  if is_empty name then None
  else
    let version := trim (md_version model) in
    let org := trim (md_organization model) in
    Some (GnmiSupportedModel (gnmi_truncate
      (name ++ (if is_empty version then [] else [32] ++ version) ++
       (if is_empty org then [] else s! " (" ++ org ++ s! ")")))).

Definition collect_capability_signals (response : CapabilityResponse) : list Signal :=
  let version := trim (cr_gnmi_version response) in
  (if is_empty version then [] else [GnmiVersion (gnmi_truncate version)]) ++
  omap model_signal (cr_supported_models response) ++
  (GnmiSupportedEncoding <$> render_encodings (cr_supported_encodings response)).

Definition render_path (prefix path : option GnmiPath) : Str :=
  let out := match prefix with Some p => append_path [] p | None => [] end in
  match path with Some p => append_path out p | None => out end.

Definition state_signal `{F64Display} (prefix : option GnmiPath) (update : Update) : option Signal :=
  let path := render_path prefix (up_path update) in
  if is_empty path then None
  else GnmiState path <$> (mjoin (up_val update) ≫= render_typed_value).

Definition collect_get_signals `{F64Display} (response : GetResponse) : list Signal :=
  response ≫= λ n, omap (state_signal (nf_prefix n)) (nf_update n).

(** ** The [/lldp] tree *)

Record NeighborBuilder : Type := mkNeighborBuilder {
  nb_chassis_id : option Str;
  nb_chassis_type : option Str;
  nb_port_id : option Str;
  nb_port_type : option Str;
  nb_system_name : option Str;
  nb_port_description : option Str;
}.

Definition neighbor_default : NeighborBuilder := mkNeighborBuilder None None None None None None.

Record LldpBuilder : Type := mkLldpBuilder {
  lb_local_chassis_id : option Str;
  lb_local_chassis_type : option Str;
  lb_neighbors : gmap (Str * Str) NeighborBuilder;
}.

Definition lldp_builder_default : LldpBuilder := mkLldpBuilder None None ∅.

Definition strip_module (name : Str) : Str := default name (last (split_on 58 name)).

(** [elem_key]: the resolved key of a list element, not the wildcard of the request. *)
Definition resolved_key (elems : list PathElem) (name key_name : Str) : option Str :=
  e ← List.find (λ e, bool_decide (strip_module (elem_name e) = name)) elems;
  v ← elem_key e !! key_name;
  if is_empty v || bool_decide (v = [42]) then None else Some v.

Definition joined_elems (prefix path : option GnmiPath) : list PathElem :=
  from_option path_elem [] prefix ++ from_option path_elem [] path.

Definition stripped_get (value : JsonValue) (key : Str) : option JsonValue :=
  match value with
  | JObject members => find_map (λ '(k, v), if bool_decide (strip_module k = key) then Some v else None) members
  | _ => None
  end.

Definition stripped_str (value : JsonValue) (key : Str) : option Str :=
  match stripped_get value key with
  | Some (JString s) => trimmed_value s
  | Some (JNumber n) => Some n
  | _ => None
  end.

Definition descend_lldp_wrapper (json : JsonValue) : JsonValue :=
  match json with
  | JObject [(k, v)] => if bool_decide (strip_module k = s! "lldp") then v else json
  | _ => json
  end.

Definition or_kept (new old : option Str) : option Str := match new with Some v => Some v | None => old end.

Definition set_neighbor_leaf (entry : NeighborBuilder) (leaf value : Str) : NeighborBuilder :=
  let '(mkNeighborBuilder ci ct pi pt sn pd) := entry in
  if bool_decide (leaf = s! "chassis-id") then mkNeighborBuilder (Some value) ct pi pt sn pd
  else if bool_decide (leaf = s! "chassis-id-type") then mkNeighborBuilder ci (Some value) pi pt sn pd
  else if bool_decide (leaf = s! "port-id") then mkNeighborBuilder ci ct (Some value) pt sn pd
  else if bool_decide (leaf = s! "port-id-type") then mkNeighborBuilder ci ct pi (Some value) sn pd
  else if bool_decide (leaf = s! "system-name") then mkNeighborBuilder ci ct pi pt (Some value) pd
  else if bool_decide (leaf = s! "port-description") then mkNeighborBuilder ci ct pi pt sn (Some value)
  else entry.

Definition apply_neighbor_state (entry : NeighborBuilder) (state : JsonValue) : NeighborBuilder :=
  mkNeighborBuilder
    (or_kept (stripped_str state (s! "chassis-id")) (nb_chassis_id entry))
    (or_kept (stripped_str state (s! "chassis-id-type")) (nb_chassis_type entry))
    (or_kept (stripped_str state (s! "port-id")) (nb_port_id entry))
    (or_kept (stripped_str state (s! "port-id-type")) (nb_port_type entry))
    (or_kept (stripped_str state (s! "system-name")) (nb_system_name entry))
    (or_kept (stripped_str state (s! "port-description")) (nb_port_description entry)).

(** [neighbors.entry(key).or_default()] and a change of what it refers to. *)
Definition with_neighbor (key : Str * Str) (f : NeighborBuilder → NeighborBuilder) (b : LldpBuilder) : LldpBuilder :=
  mkLldpBuilder (lb_local_chassis_id b) (lb_local_chassis_type b)
    (<[key := f (default neighbor_default (lb_neighbors b !! key))]> (lb_neighbors b)).

Definition last_leaf (elems : list PathElem) : Str :=
  match last elems with Some e => strip_module (elem_name e) | None => [] end.

Definition ingest_leaf (elems : list PathElem) (value : Str) (b : LldpBuilder) : LldpBuilder :=
  let leaf := last_leaf elems in
  match resolved_key elems (s! "interface") (s! "name"), resolved_key elems (s! "neighbor") (s! "id") with
  | Some interface, Some id => with_neighbor (interface, id) (λ entry, set_neighbor_leaf entry leaf value) b
  | _, _ =>
      if bool_decide (leaf = s! "chassis-id") then
        mkLldpBuilder (Some value) (lb_local_chassis_type b) (lb_neighbors b)
      else if bool_decide (leaf = s! "chassis-id-type") then
        mkLldpBuilder (lb_local_chassis_id b) (Some value) (lb_neighbors b)
      else b
  end.

(** An interface of the subtree, and a neighbour of an interface. *)
Definition ingest_neighbor (name : Str) (b : LldpBuilder) (nbr : JsonValue) : LldpBuilder :=
  match stripped_str nbr (s! "id") with
  | None => b
  | Some id =>
      let state := default nbr (stripped_get nbr (s! "state")) in
      with_neighbor (name, id) (λ entry, apply_neighbor_state entry state) b
  end.

Definition json_array (v : option JsonValue) : option (list JsonValue) :=
  match v with Some (JArray items) => Some items | _ => None end.

Definition ingest_interface (b : LldpBuilder) (intf : JsonValue) : LldpBuilder :=
  match stripped_str intf (s! "name") with
  | None => b
  | Some name =>
      let neighbors := default intf (stripped_get intf (s! "neighbors")) in
      match json_array (stripped_get neighbors (s! "neighbor")) with
      | None => b
      | Some nlist => foldl (ingest_neighbor name) b nlist
      end
  end.

Definition ingest_container_json (json : JsonValue) (b : LldpBuilder) : LldpBuilder :=
  let root := descend_lldp_wrapper json in
  let b :=
    match stripped_get root (s! "state") with
    | Some state =>
        mkLldpBuilder (or_kept (stripped_str state (s! "chassis-id")) (lb_local_chassis_id b))
          (or_kept (stripped_str state (s! "chassis-id-type")) (lb_local_chassis_type b)) (lb_neighbors b)
    | None => b
    end in
  let interfaces := default root (stripped_get root (s! "interfaces")) in
  match json_array (stripped_get interfaces (s! "interface")) with
  | None => b
  | Some list => foldl ingest_interface b list
  end.

Definition ingest_json (elems : list PathElem) (json : JsonValue) (b : LldpBuilder) : LldpBuilder :=
  match resolved_key elems (s! "interface") (s! "name"), resolved_key elems (s! "neighbor") (s! "id") with
  | Some interface, Some id =>
      let state := default json (stripped_get json (s! "state")) in
      with_neighbor (interface, id) (λ entry, apply_neighbor_state entry state) b
  | _, _ => ingest_container_json json b
  end.

(** ** Canonical identifiers *)

(** [to_ascii_uppercase]. *)
Definition to_ascii_uppercase (s : Str) : Str := (λ c, if (97 <=? c) && (c <=? 122) then c - 32 else c) <$> s.

Definition enum_suffix (raw : Str) : Str := to_ascii_uppercase (trim (strip_module raw)).

Definition subtype_table (table : list (Str * Z)) (raw : Str) : Z :=
  default 0 (find_map (λ '(name, n), if bool_decide (enum_suffix raw = name) then Some n else None) table).

Definition chassis_subtype_from_type : Str → Z :=
  subtype_table [(s! "CHASSIS_COMPONENT", 1); (s! "INTERFACE_ALIAS", 2); (s! "PORT_COMPONENT", 3);
                 (s! "MAC_ADDRESS", CHASSIS_SUBTYPE_MAC); (s! "NETWORK_ADDRESS", CHASSIS_SUBTYPE_NETWORK_ADDRESS);
                 (s! "INTERFACE_NAME", 6); (s! "LOCAL", 7)].

Definition port_subtype_from_type : Str → Z :=
  subtype_table [(s! "INTERFACE_ALIAS", 1); (s! "PORT_COMPONENT", 2); (s! "MAC_ADDRESS", PORT_SUBTYPE_MAC);
                 (s! "NETWORK_ADDRESS", PORT_SUBTYPE_NETWORK_ADDRESS); (s! "INTERFACE_NAME", 5);
                 (s! "AGENT_CIRCUIT_ID", 6); (s! "LOCAL", 7)].

Definition canonical_network_address (raw : Str) : Str :=
  match ip_from_str (trim raw) with Some ip => ip_display ip | None => trim raw end.

Section lldp.
Context `{UnicodeCase}.

Definition canonical_chassis (subtype : Z) (id : Str) : Str :=
  if subtype =? CHASSIS_SUBTYPE_MAC then canonical_mac_str id
  else if subtype =? CHASSIS_SUBTYPE_NETWORK_ADDRESS then canonical_network_address id
  else trim id.

Definition canonical_port (subtype : Z) (id : Str) : Str :=
  if subtype =? PORT_SUBTYPE_MAC then canonical_mac_str id
  else if subtype =? PORT_SUBTYPE_NETWORK_ADDRESS then canonical_network_address id
  else trim id.

Definition kept_text (o : option Str) : option Str :=
  s ← o; if is_empty s then None else Some s.

Definition finish_neighbor (entry : (Str * Str) * NeighborBuilder) : LldpNeighbor :=
  let '((interface, _), nbr) := entry in
  let chassis_subtype := chassis_subtype_from_type (default [] (nb_chassis_type nbr)) in
  let port_subtype := port_subtype_from_type (default [] (nb_port_type nbr)) in
  mkLldpNeighbor interface
    (canonical_chassis chassis_subtype (default [] (nb_chassis_id nbr))) chassis_subtype
    (canonical_port port_subtype (default [] (nb_port_id nbr))) port_subtype
    (kept_text (nb_port_description nbr)) (kept_text (nb_system_name nbr)).

(** The order of a [BTreeMap]. *)
Definition neighbor_le (a b : (Str * Str) * NeighborBuilder) : Prop := pair_le a.1 b.1.
#[local] Instance neighbor_le_dec a b : Decision (neighbor_le a b).
Proof. unfold neighbor_le. apply _. Defined.

Definition lldp_finish (b : LldpBuilder) : LldpObservation :=
  let local_subtype := chassis_subtype_from_type (default [] (lb_local_chassis_type b)) in
  mkLldpObservation (canonical_chassis local_subtype (default [] (lb_local_chassis_id b))) local_subtype
    (finish_neighbor <$> merge_sort neighbor_le (map_to_list (lb_neighbors b))) (s! "gnmi").

(** [serde_json::from_slice]. *)
Context (json_from_slice : Bytes → option JsonValue).

Definition json_blob (value : GnmiValue) : option JsonValue :=
  match value with
  | JsonVal bytes | JsonIetfVal bytes => json_from_slice bytes
  | _ => None
  end.

Definition ingest_update (prefix : option GnmiPath) (b : LldpBuilder) (update : Update) : LldpBuilder :=
  let elems := joined_elems prefix (up_path update) in
  match up_val update with
  | None => b
  | Some value =>
      match value ≫= json_blob with
      | Some json => ingest_json elems json b
      | None => match value ≫= scalar_value with Some scalar => ingest_leaf elems scalar b | None => b end
      end
  end.

Definition ingest_notification (b : LldpBuilder) (n : Notification) : LldpBuilder :=
  foldl (ingest_update (nf_prefix n)) b (nf_update n).

Definition parse_lldp_response (response : GetResponse) : LldpObservation :=
  lldp_finish (foldl ingest_notification lldp_builder_default response).

(** ** A port *)

Context `{F64Display} `{IE : IoErrors}.

(** [tonic::Code], as far as it is told apart, and [tonic::Status]. *)
Inductive Code : Type := Unauthenticated | CodePermissionDenied | OtherCode (debug : Str).

Record Status : Type := mkStatus { st_code : Code; st_message : Str }.

Definition code_debug (c : Code) : Str :=
  match c with
  | Unauthenticated => s! "Unauthenticated"
  | CodePermissionDenied => s! "PermissionDenied"
  | OtherCode debug => debug
  end.

Inductive ConnectError : Type := ConnectAbsence | ConnectFault (fault : ProbeFault).

Definition classify_connect_error (port : Z) (err : ErrorNode) (display : Str) : ConnectError :=
  match io_error_in_chain err with
  | Some io =>
      match io_error io with
      | Fault kind =>
          ConnectFault (mkProbeFault kind (s! "gnmi connect failed on port " ++ fmt_dec port ++ s! ": " ++ display))
      | Absence => ConnectAbsence
      end
  | None => ConnectAbsence
  end.

(** How connecting goes: the endpoint, its TLS configuration, the connection. *)
Inductive GnmiConnect : Type :=
  | UriInvalid (e : Str)
  | TlsConfigFailed (e : Str)
  | NotConnected (err : ErrorNode) (display : Str)
  | ChannelOpened.

Definition gnmi_connect (plaintext : bool) (port : Z) (c : GnmiConnect) : Result ConnectError unit :=
  match c with
  | UriInvalid e =>
      Err (ConnectFault (mkProbeFault OtherFault
        (s! "gnmi endpoint uri invalid on port " ++ fmt_dec port ++ s! ": " ++ e)))
  | TlsConfigFailed e =>
      if plaintext then Ok tt
      else Err (ConnectFault (mkProbeFault OtherFault
        (s! "gnmi tls config failed on port " ++ fmt_dec port ++ s! ": " ++ e)))
  | NotConnected err display => Err (classify_connect_error port err display)
  | ChannelOpened => Ok tt
  end.

Record PortAccumulator : Type := mkPortAccumulator {
  pa_signals : list Signal;
  pa_answered : bool;
  pa_status : option Status;
  pa_lldp : option LldpObservation;
  pa_advertised_encodings : list Str;
}.

Inductive GetHandler : Type := HandleState | HandleLldp.

Inductive PortResult : Type :=
  | Answered (signals : list Signal) (lldp : option LldpObservation) (endpoint : GnmiEndpoint)
  | PortStatus (status : Status)
  | PortAbsence
  | PortFault (fault : ProbeFault).

(** [Option::get_or_insert]: the first stays. *)
Definition or_first {A} (old : option A) (new : A) : option A := match old with Some x => Some x | None => Some new end.

Definition record_get (result : Result Status GetResponse) (handler : GetHandler) (acc : PortAccumulator)
    : PortAccumulator :=
  match result with
  | Ok response =>
      match handler with
      | HandleState =>
          mkPortAccumulator (pa_signals acc ++ collect_get_signals response) true (pa_status acc) (pa_lldp acc)
            (pa_advertised_encodings acc)
      | HandleLldp =>
          mkPortAccumulator (pa_signals acc) true (pa_status acc) (Some (parse_lldp_response response))
            (pa_advertised_encodings acc)
      end
  | Err status =>
      mkPortAccumulator (pa_signals acc) (pa_answered acc) (or_first (pa_status acc) status) (pa_lldp acc)
        (pa_advertised_encodings acc)
  end.

Definition into_result (port : Z) (transport : Transport) (acc : PortAccumulator) : PortResult :=
  if pa_answered acc then
    Answered (pa_signals acc) (pa_lldp acc) (mkGnmiEndpoint port transport (pa_advertised_encodings acc))
  else match pa_status acc with Some status => PortStatus status | None => PortAbsence end.

(** What the RPCs of a port give in time; a [Get] depends on its paths and encoding. *)
Record GnmiPort : Type := mkGnmiPort {
  gp_connect : GnmiConnect;
  gp_capabilities : option (Result Status CapabilityResponse);
  gp_get : list GnmiPath → Z → option (Result Status GetResponse);
}.

Definition record_timely (result : option (Result Status GetResponse)) (handler : GetHandler) (acc : PortAccumulator)
    : PortAccumulator :=
  match result with Some r => record_get r handler acc | None => acc end.

Definition gnmi_probe_port (plaintext : bool) (get_paths : list GnmiPath) (lldp : bool) (lldp_paths : list GnmiPath)
    (port : Z) (net : GnmiPort) : PortResult :=
  match gnmi_connect plaintext port (gp_connect net) with
  | Err ConnectAbsence => PortAbsence
  | Err (ConnectFault fault) => PortFault fault
  | Ok _ =>
      let acc := mkPortAccumulator [] false None None [] in
      let '(acc, get_encoding) :=
        match gp_capabilities net with
        | Some (Ok response) =>
            (mkPortAccumulator (collect_capability_signals response) true None None
               (render_encodings (cr_supported_encodings response)),
             select_get_encoding (cr_supported_encodings response))
        | Some (Err status) => (mkPortAccumulator [] false (Some status) None [], select_get_encoding [])
        | None => (acc, select_get_encoding [])
        end in
      let acc := if is_empty get_paths then acc
                 else record_timely (gp_get net get_paths get_encoding) HandleState acc in
      let acc := if lldp then record_timely (gp_get net lldp_paths get_encoding) HandleLldp acc else acc in
      into_result port (if plaintext then TransportPlaintext else TransportTls) acc
  end.

(** ** The prober *)

Definition status_to_outcome (target_ip : IpAddr) (ts : SystemTime) (status : Status) : ProbeOutcome :=
  let kind := match st_code status with Unauthenticated | CodePermissionDenied => AuthFailed | _ => OtherFault end in
  mkProbeOutcome Gnmi target_ip ts true []
    (Some (mkProbeFault kind (s! "gnmi endpoint returned " ++ code_debug (st_code status) ++ s! ": " ++ st_message status)))
    None None.

Record GnmiFold : Type := mkGnmiFold {
  gf_signals : list Signal;
  gf_answered : bool;
  gf_status : option Status;
  gf_fault : option ProbeFault;
  gf_lldp : option LldpObservation;
  gf_endpoint : option GnmiEndpoint;
}.

Definition gnmi_fold (acc : GnmiFold) (result : PortResult) : GnmiFold :=
  let '(mkGnmiFold signals answered status fault lldp endpoint) := acc in
  match result with
  | Answered port_signals port_lldp port_endpoint =>
      mkGnmiFold (signals ++ port_signals) true status fault
        (match lldp with None => port_lldp | Some _ => lldp end) (or_first endpoint port_endpoint)
  | PortStatus gnmi_status => mkGnmiFold signals answered (or_first status gnmi_status) fault lldp endpoint
  | PortFault port_fault => mkGnmiFold signals answered status (Some port_fault) lldp endpoint
  | PortAbsence => acc
  end.

(** [assemble_outcome]. *)
Definition gnmi_assemble_outcome (target_ip : IpAddr) (ts : SystemTime) (results : list PortResult) : ProbeOutcome :=
  let acc := foldl gnmi_fold (mkGnmiFold [] false None None None None) results in
  let assembled :=
    mkProbeOutcome Gnmi target_ip ts (gf_answered acc) (gf_signals acc)
      (surfaced_fault (gf_answered acc) (gf_fault acc)) (gf_lldp acc) (gf_endpoint acc) in
  if gf_answered acc then assembled
  else match gf_status acc with Some status => status_to_outcome target_ip ts status | None => assembled end.

(** [GnmiProber::probe]; the results of the ports are in the order of the ports. *)
Definition gnmi_probe (ports : list Z) (plaintext : bool) (get_paths : list GnmiPath) (lldp : bool)
    (lldp_paths : list GnmiPath) (target_ip : IpAddr) (ts : SystemTime) (net : Z → GnmiPort) : ProbeOutcome :=
  gnmi_assemble_outcome target_ip ts
    ((λ port, gnmi_probe_port plaintext get_paths lldp lldp_paths port (net port)) <$> ports).

End lldp.

(** ** The two forms of the [/lldp] tree

    A device answers with one update per leaf, or with one JSON value for the whole tree. *)

(** What a device has to tell: its own chassis, and the neighbours of its interfaces. *)
Record LldpTable : Type := mkLldpTable {
  lt_chassis_id : option Str;
  lt_chassis_type : option Str;
  lt_interfaces : list (Str * list (Str * NeighborBuilder));
}.

Definition present (name : Str) (value : option Str) : list (Str * Str) :=
  match value with Some v => [(name, v)] | None => [] end.

Definition local_leaves (t : LldpTable) : list (Str * Str) :=
  present (s! "chassis-id") (lt_chassis_id t) ++ present (s! "chassis-id-type") (lt_chassis_type t).

Definition neighbor_leaves (nb : NeighborBuilder) : list (Str * Str) :=
  present (s! "chassis-id") (nb_chassis_id nb) ++ present (s! "chassis-id-type") (nb_chassis_type nb) ++
  present (s! "port-id") (nb_port_id nb) ++ present (s! "port-id-type") (nb_port_type nb) ++
  present (s! "system-name") (nb_system_name nb) ++ present (s! "port-description") (nb_port_description nb).

Definition plain_elem (name : Str) : PathElem := mkPathElem name ∅.

Definition neighbor_elems (interface id leaf : Str) : list PathElem :=
  [plain_elem (s! "interfaces"); mkPathElem (s! "interface") {[s! "name" := interface]}; plain_elem (s! "neighbors");
   mkPathElem (s! "neighbor") {[s! "id" := id]}; plain_elem (s! "state"); plain_elem leaf].

Definition leaf_update (elems : list PathElem) (value : Str) : Update :=
  mkUpdate (Some (mkGnmiPath [] elems)) (Some (Some (StringVal value))).

Definition neighbor_updates (interface : Str) (n : Str * NeighborBuilder) : list Update :=
  (λ '(leaf, value), leaf_update (neighbor_elems interface n.1 leaf) value) <$> neighbor_leaves n.2.

(** One update per leaf, below the prefix of the tree. *)
Definition leaf_response (t : LldpTable) : GetResponse :=
  [mkNotification (Some (mkGnmiPath [] [plain_elem (s! "lldp")]))
     (((λ '(leaf, value), leaf_update [plain_elem (s! "state"); plain_elem leaf] value) <$> local_leaves t) ++
      (lt_interfaces t ≫= λ i, i.2 ≫= neighbor_updates i.1))].

(** An object as [serde_json] holds it, its members in the order of their names. *)
Definition member_le (a b : Str * JsonValue) : Prop := str_le a.1 b.1.
#[global] Instance member_le_dec a b : Decision (member_le a b).
Proof. unfold member_le. apply _. Defined.
Definition json_object (members : list (Str * JsonValue)) : JsonValue := JObject (merge_sort member_le members).

(** Members named with the prefix of a module, or bare: [q] gives the prefix of each name. *)
Definition json_leaves (q : Str → Str) (leaves : list (Str * Str)) : JsonValue :=
  json_object ((λ '(name, value), (q name ++ name, JString value)) <$> leaves).

Definition json_neighbor (q : Str → Str) (n : Str * NeighborBuilder) : JsonValue :=
  json_object [(q (s! "id") ++ s! "id", JString n.1);
               (q (s! "state") ++ s! "state", json_leaves q (neighbor_leaves n.2))].

Definition json_interface (q : Str → Str) (i : Str * list (Str * NeighborBuilder)) : JsonValue :=
  json_object [(q (s! "name") ++ s! "name", JString i.1);
               (q (s! "neighbors") ++ s! "neighbors",
                json_object [(q (s! "neighbor") ++ s! "neighbor", JArray (json_neighbor q <$> i.2))])].

Definition json_tree (q : Str → Str) (t : LldpTable) : JsonValue :=
  json_object [(q (s! "lldp") ++ s! "lldp",
    json_object [(q (s! "state") ++ s! "state", json_leaves q (local_leaves t));
                 (q (s! "interfaces") ++ s! "interfaces",
                  json_object [(q (s! "interface") ++ s! "interface", JArray (json_interface q <$> lt_interfaces t))])])].

Definition json_response (blob : Bytes) : GetResponse :=
  [mkNotification None [mkUpdate None (Some (Some (JsonIetfVal blob)))]].

(** Text that trimming leaves as it is, a key that is not the wildcard, a table of such. *)
Definition text (s : Str) : Prop := s ≠ [] ∧ trim s = s.
Definition key_text (s : Str) : Prop := text s ∧ s ≠ [42].
Definition table_wf (t : LldpTable) : Prop :=
  Forall (λ l, text l.2) (local_leaves t) ∧
  Forall (λ i, key_text i.1 ∧
    Forall (λ n, key_text n.1 ∧ neighbor_leaves n.2 ≠ [] ∧ Forall (λ l, text l.2) (neighbor_leaves n.2)) i.2)
    (lt_interfaces t).

(** The empty prefix, or a module's name and a colon. *)
Definition module_prefix (q : Str) : Prop := q = [] ∨ ∃ m, q = m ++ [58].

Lemma trimmed_text s : text s → trimmed_value s = Some s.
Proof. intros [Hne Ht]. unfold trimmed_value. rewrite Ht. by destruct s. Qed.

Lemma split_on_bare name : 58 ∉ name → split_on 58 name = [name].
Proof.
  intros Hn. induction name as [|c name IH]; [done|]. rewrite not_elem_of_cons in Hn. destruct Hn as [Hc Hn].
  rewrite split_on_cons, IH by done. by destruct (Z.eqb_spec c 58).
Qed.

Lemma strip_module_prefixed q name : module_prefix q → 58 ∉ name → strip_module (q ++ name) = name.
Proof.
  intros [->|[m ->]] Hn; unfold strip_module; [cbn [app]; by rewrite split_on_bare|].
  rewrite <-app_assoc. cbn [app]. rewrite split_on_app_sep, (split_on_bare name) by done. by rewrite last_snoc.
Qed.

Lemma strip_module_bare name : 58 ∉ name → strip_module name = name.
Proof. intros. apply (strip_module_prefixed []); [by left|done]. Qed.

(** Looking a member up by its bare name does not depend on the order of the members. *)
Lemma stripped_get_object members key : NoDup (strip_module <$> members.*1) →
  stripped_get (json_object members) key = stripped_get (JObject members) key.
Proof.
  intros Hnd. cbn [json_object stripped_get]. pose proof (merge_sort_Permutation member_le members) as HP.
  revert HP Hnd. generalize (merge_sort member_le members). intros ms HP.
  induction HP as [|[k v] l l' _ IH|[k v] [k' v'] l|l1 l2 l3 HP1 IH1 HP2 IH2]; intros Hnd; [done|..].
  - cbn [find_map]. rewrite !fmap_cons, NoDup_cons in Hnd. by rewrite IH by apply Hnd.
  - rewrite !fmap_cons, NoDup_cons in Hnd. destruct Hnd as [Hk _]. cbn [fst] in Hk. cbn [find_map].
    destruct (bool_decide_reflect (strip_module k = key)) as [E|], (bool_decide_reflect (strip_module k' = key)) as [E'|]; try done.
    destruct Hk. rewrite ?E, ?E'. left.
  - rewrite IH1 by (by rewrite HP2). by apply IH2.
Qed.

Lemma stripped_get_cons (q : Str → Str) name v members key : module_prefix (q name) → 58 ∉ name →
  stripped_get (JObject ((q name ++ name, v) :: members)) key =
  if bool_decide (name = key) then Some v else stripped_get (JObject members) key.
Proof. intros Hq Hn. cbn [stripped_get find_map]. rewrite strip_module_prefixed by done. by case_bool_decide. Qed.

(** The names of the members of an object, without their prefixes. *)
Lemma stripped_names {A} (q : Str → Str) (f : A → Str) (g : A → JsonValue) (l : list A) :
  (∀ n, module_prefix (q n)) → Forall (λ x, 58 ∉ f x) l →
  strip_module <$> ((λ x, (q (f x) ++ f x, g x)) <$> l).*1 = f <$> l.
Proof.
  intros Hq Hl. rewrite <-!list_fmap_compose. apply list_fmap_ext. intros i x Hx. cbn.
  rewrite Forall_forall in Hl. apply strip_module_prefixed; [done|]. apply Hl. by eapply list_elem_of_lookup_2.
Qed.

Lemma stripped_str_leaves (q : Str → Str) leaves key : (∀ n, module_prefix (q n)) → NoDup leaves.*1 →
  Forall (λ l, text l.2) leaves → Forall (λ l, 58 ∉ l.1) leaves →
  stripped_str (json_leaves q leaves) key =
  find_map (λ '(name, v), if bool_decide (name = key) then Some v else None) leaves.
Proof.
  intros Hq Hnd Ht Hn. unfold stripped_str, json_leaves. rewrite stripped_get_object.
  - clear Hnd. induction leaves as [|[name v] leaves IH]; [done|].
    apply Forall_cons in Ht as [Hv Ht], Hn as [Hnn Hn]. cbn [fst snd] in *. rewrite fmap_cons, stripped_get_cons by done.
    cbn [find_map]. case_bool_decide; [by apply trimmed_text|by apply IH].
  - rewrite (list_fmap_ext _ (λ l : Str * Str, (q l.1 ++ l.1, JString l.2))) by (by intros ? [] ?).
    by rewrite (stripped_names q fst (λ l, JString l.2)).
Qed.

(** Two members with different names. *)
Lemma stripped_get_pair (q : Str → Str) a b va vb key :
  (∀ n, module_prefix (q n)) → 58 ∉ a → 58 ∉ b → a ≠ b →
  stripped_get (json_object [(q a ++ a, va); (q b ++ b, vb)]) key =
  if bool_decide (a = key) then Some va else if bool_decide (b = key) then Some vb else None.
Proof.
  intros Hq Ha Hb Hab. rewrite stripped_get_object; [by rewrite !stripped_get_cons by done|].
  cbn [fmap list_fmap fst]. rewrite !strip_module_prefixed by done.
  apply NoDup_cons_2; [|apply NoDup_singleton]. rewrite list_elem_of_singleton. done.
Qed.

Lemma stripped_get_one (q : Str → Str) a va key :
  (∀ n, module_prefix (q n)) → 58 ∉ a →
  stripped_get (json_object [(q a ++ a, va)]) key = if bool_decide (a = key) then Some va else None.
Proof. intros Hq Ha. rewrite stripped_get_object; [by rewrite stripped_get_cons by done|]. apply NoDup_singleton. Qed.

Definition overlay (nb entry : NeighborBuilder) : NeighborBuilder :=
  mkNeighborBuilder (or_kept (nb_chassis_id nb) (nb_chassis_id entry))
    (or_kept (nb_chassis_type nb) (nb_chassis_type entry)) (or_kept (nb_port_id nb) (nb_port_id entry))
    (or_kept (nb_port_type nb) (nb_port_type entry)) (or_kept (nb_system_name nb) (nb_system_name entry))
    (or_kept (nb_port_description nb) (nb_port_description entry)).

Lemma present_names name value c : c ∉ name → Forall (λ l, c ∉ l.1) (present name value).
Proof. destruct value; repeat constructor. done. Qed.

Lemma neighbor_leaves_names nb : Forall (λ l, 58 ∉ l.1) (neighbor_leaves nb).
Proof. repeat apply Forall_app_2; apply present_names; apply (bool_decide_unpack _); by vm_compute. Qed.

Lemma local_leaves_names t : Forall (λ l, 58 ∉ l.1) (local_leaves t).
Proof. repeat apply Forall_app_2; apply present_names; apply (bool_decide_unpack _); by vm_compute. Qed.

Lemma neighbor_leaves_distinct nb : NoDup (neighbor_leaves nb).*1.
Proof. destruct nb as [[] [] [] [] [] []]; apply (bool_decide_unpack _); by vm_compute. Qed.

Lemma local_leaves_distinct t : NoDup (local_leaves t).*1.
Proof. destruct t as [[] [] ?]; apply (bool_decide_unpack _); by vm_compute. Qed.

(** The JSON of a neighbour is applied as what it is. *)
Lemma apply_json_state (q : Str → Str) nb entry : (∀ n, module_prefix (q n)) → Forall (λ l, text l.2) (neighbor_leaves nb) →
  apply_neighbor_state entry (json_leaves q (neighbor_leaves nb)) = overlay nb entry.
Proof.
  intros Hq Ht. unfold apply_neighbor_state. rewrite !stripped_str_leaves by (done || apply neighbor_leaves_names || apply neighbor_leaves_distinct).
  clear Ht. unfold overlay. by destruct nb as [[] [] [] [] [] []].
Qed.

(** So are its leaves. *)
Lemma set_neighbor_leaves nb entry :
  foldl (λ e '(leaf, value), set_neighbor_leaf e leaf value) entry (neighbor_leaves nb) = overlay nb entry.
Proof. destruct nb as [[] [] [] [] [] []], entry; done. Qed.

Lemma with_neighbor_compose key f g b :
  with_neighbor key f (with_neighbor key g b) = with_neighbor key (λ e, f (g e)) b.
Proof.
  unfold with_neighbor. cbn [lb_local_chassis_id lb_local_chassis_type lb_neighbors].
  by rewrite lookup_insert_eq, insert_insert_eq.
Qed.

Lemma neighbor_keys interface id leaf : key_text interface → key_text id →
  let elems := plain_elem (s! "lldp") :: neighbor_elems interface id leaf in
  resolved_key elems (s! "interface") (s! "name") = Some interface ∧
  resolved_key elems (s! "neighbor") (s! "id") = Some id.
Proof.
  intros [[Hi _] Hi'] [[Hd _] Hd'] elems. unfold resolved_key.
  change (List.find _ elems) with (Some (mkPathElem (s! "interface") {[s! "name" := interface]})) at 1.
  change (List.find _ elems) with (Some (mkPathElem (s! "neighbor") {[s! "id" := id]})).
  cbn [mbind option_bind elem_key]. rewrite !lookup_singleton_eq. cbn [mbind option_bind].
  rewrite !bool_decide_false by done. by destruct interface, id.
Qed.

Section forms.
Context (json_from_slice : Bytes → option JsonValue).

Definition prefix_lldp : option GnmiPath := Some (mkGnmiPath [] [plain_elem (s! "lldp")]).

Lemma ingest_neighbor_leaf interface id leaf value b :
  key_text interface → key_text id → text value → 58 ∉ leaf →
  ingest_update json_from_slice prefix_lldp b (leaf_update (neighbor_elems interface id leaf) value) =
  with_neighbor (interface, id) (λ e, set_neighbor_leaf e leaf value) b.
Proof.
  intros Hi Hd Hv Hl. unfold ingest_update, leaf_update. cbn [up_val up_path mbind option_bind json_blob].
  unfold scalar_value. cbn [mbind option_bind]. rewrite trimmed_text by done.
  unfold ingest_leaf, joined_elems, prefix_lldp. cbn [from_option path_elem app].
  destruct (neighbor_keys interface id leaf Hi Hd) as [-> ->].
  assert (last_leaf (plain_elem (s! "lldp") :: neighbor_elems interface id leaf) = leaf) as ->; [|done].
  unfold last_leaf. cbn. by apply strip_module_bare.
Qed.

Lemma ingest_neighbor_updates interface n b :
  key_text interface → key_text n.1 → Forall (λ l, text l.2) (neighbor_leaves n.2) → neighbor_leaves n.2 ≠ [] →
  foldl (ingest_update json_from_slice prefix_lldp) b (neighbor_updates interface n) =
  with_neighbor (interface, n.1) (overlay n.2) b.
Proof.
  intros Hi Hd Ht Hne. unfold neighbor_updates.
  assert (∀ leaves f, Forall (λ l, text l.2) leaves → Forall (λ l, 58 ∉ l.1) leaves →
    foldl (ingest_update json_from_slice prefix_lldp) (with_neighbor (interface, n.1) f b)
      ((λ '(leaf, value), leaf_update (neighbor_elems interface n.1 leaf) value) <$> leaves) =
    with_neighbor (interface, n.1) (λ e, foldl (λ e '(leaf, value), set_neighbor_leaf e leaf value) (f e) leaves) b) as Hfold.
  { induction leaves as [|[leaf value] leaves IH]; intros f Hls Hns; [done|].
    apply Forall_cons in Hls as [Hl Hls], Hns as [Hn Hns]. cbn [fst snd] in *. rewrite fmap_cons. cbn [foldl].
    rewrite ingest_neighbor_leaf by done. rewrite with_neighbor_compose, IH by done. done. }
  pose proof (neighbor_leaves_names n.2) as Hns.
  assert (with_neighbor (interface, n.1) (overlay n.2) b =
    with_neighbor (interface, n.1) (λ e, foldl (λ e '(leaf, value), set_neighbor_leaf e leaf value) e (neighbor_leaves n.2)) b) as ->.
  { unfold with_neighbor. by rewrite set_neighbor_leaves. }
  destruct (neighbor_leaves n.2) as [|[leaf value] leaves]; [done|].
  apply Forall_cons in Ht as [Hl Ht], Hns as [Hn Hns]. cbn [fst snd] in *. rewrite fmap_cons. cbn [foldl].
  rewrite ingest_neighbor_leaf by done. by rewrite Hfold.
Qed.

(** What a table makes of a builder. *)
Definition table_neighbors (b : LldpBuilder) (interfaces : list (Str * list (Str * NeighborBuilder))) : LldpBuilder :=
  foldl (λ b i, foldl (λ b n, with_neighbor (i.1, n.1) (overlay n.2) b) b i.2) b interfaces.

Lemma ingest_interfaces_updates interfaces b :
  Forall (λ i, key_text i.1 ∧
    Forall (λ n, key_text n.1 ∧ neighbor_leaves n.2 ≠ [] ∧ Forall (λ l, text l.2) (neighbor_leaves n.2)) i.2) interfaces →
  foldl (ingest_update json_from_slice prefix_lldp) b (interfaces ≫= λ i, i.2 ≫= neighbor_updates i.1) =
  table_neighbors b interfaces.
Proof.
  intros Hi. revert b. induction Hi as [|[name nbrs] interfaces [Hname Hn] _ IH]; intros b; [done|].
  cbn [mbind list_bind table_neighbors foldl fst snd] in *. rewrite foldl_app, IH. unfold table_neighbors. f_equal.
  clear IH. revert b. induction Hn as [|n nbrs (Hk & Hne & Ht) _ IHn]; intros b; [done|].
  cbn [mbind list_bind foldl]. rewrite foldl_app, ingest_neighbor_updates by done. apply IHn.
Qed.

Lemma json_neighbors_applied (q : Str → Str) name nbrs b : (∀ n, module_prefix (q n)) →
  Forall (λ n, key_text n.1 ∧ neighbor_leaves n.2 ≠ [] ∧ Forall (λ l, text l.2) (neighbor_leaves n.2)) nbrs →
  foldl (ingest_neighbor name) b (json_neighbor q <$> nbrs) =
  foldl (λ b n, with_neighbor (name, n.1) (overlay n.2) b) b nbrs.
Proof.
  intros Hq Hn. revert b. induction Hn as [|n nbrs ([Hk _] & _ & Ht) _ IH]; intros b; [done|].
  rewrite fmap_cons. cbn [foldl]. rewrite IH. f_equal. unfold ingest_neighbor, json_neighbor, stripped_str.
  assert ((58 ∉ s! "id") ∧ (58 ∉ s! "state")) as [H1 H2] by (split; apply (bool_decide_unpack _); by vm_compute).
  rewrite !stripped_get_pair by done.
  rewrite (bool_decide_true (s! "id" = s! "id")), (bool_decide_false (s! "id" = s! "state")),
    (bool_decide_true (s! "state" = s! "state")) by done.
  rewrite trimmed_text by done. cbn [default from_option id]. unfold with_neighbor. by rewrite apply_json_state.
Qed.

Lemma json_interfaces_applied (q : Str → Str) interfaces b : (∀ n, module_prefix (q n)) →
  Forall (λ i, key_text i.1 ∧
    Forall (λ n, key_text n.1 ∧ neighbor_leaves n.2 ≠ [] ∧ Forall (λ l, text l.2) (neighbor_leaves n.2)) i.2) interfaces →
  foldl ingest_interface b (json_interface q <$> interfaces) = table_neighbors b interfaces.
Proof.
  intros Hq Hi. revert b. induction Hi as [|[name nbrs] interfaces [[Hname _] Hn] _ IH]; intros b; [done|].
  rewrite fmap_cons. cbn [foldl table_neighbors fst snd] in *. rewrite IH. unfold table_neighbors. f_equal.
  unfold ingest_interface, json_interface, stripped_str. cbn [fst snd].
  assert ((58 ∉ s! "name") ∧ (58 ∉ s! "neighbors") ∧ (58 ∉ s! "neighbor")) as (H1 & H2 & H3)
    by (split_and!; apply (bool_decide_unpack _); by vm_compute).
  rewrite !stripped_get_pair by done.
  rewrite (bool_decide_true (s! "name" = s! "name")), (bool_decide_false (s! "name" = s! "neighbors")),
    (bool_decide_true (s! "neighbors" = s! "neighbors")) by done.
  rewrite trimmed_text by done. cbn [default from_option id]. rewrite stripped_get_one by done.
  rewrite (bool_decide_true (s! "neighbor" = s! "neighbor")) by done. cbn [json_array].
  by apply json_neighbors_applied.
Qed.

Lemma ingest_local_leaves t b : Forall (λ l, text l.2) (local_leaves t) →
  foldl (ingest_update json_from_slice prefix_lldp) b
    ((λ '(leaf, value), leaf_update [plain_elem (s! "state"); plain_elem leaf] value) <$> local_leaves t) =
  mkLldpBuilder (or_kept (lt_chassis_id t) (lb_local_chassis_id b))
    (or_kept (lt_chassis_type t) (lb_local_chassis_type b)) (lb_neighbors b).
Proof.
  intros Ht.
  assert (∀ b leaf value, text value → 58 ∉ leaf →
    ingest_update json_from_slice prefix_lldp b (leaf_update [plain_elem (s! "state"); plain_elem leaf] value) =
    if bool_decide (leaf = s! "chassis-id") then mkLldpBuilder (Some value) (lb_local_chassis_type b) (lb_neighbors b)
    else if bool_decide (leaf = s! "chassis-id-type") then
      mkLldpBuilder (lb_local_chassis_id b) (Some value) (lb_neighbors b)
    else b) as Hone.
  { clear. intros b leaf value Hv Hl. unfold ingest_update, leaf_update.
    cbn [up_val up_path mbind option_bind json_blob]. unfold scalar_value. cbn [mbind option_bind].
    rewrite trimmed_text by done. unfold ingest_leaf, joined_elems, prefix_lldp. cbn [from_option path_elem app].
    assert (last_leaf [plain_elem (s! "lldp"); plain_elem (s! "state"); plain_elem leaf] = leaf) as ->.
    { unfold last_leaf. cbn. by apply strip_module_bare. }
    unfold resolved_key. cbn [List.find plain_elem elem_name]. rewrite (strip_module_bare leaf) by done.
    rewrite !(bool_decide_false (strip_module _ = _)) by (by vm_compute).
    destruct (bool_decide (leaf = s! "interface")); cbn [mbind option_bind elem_key plain_elem]; [rewrite lookup_empty|]; done. }
  assert ((58 ∉ s! "chassis-id") ∧ (58 ∉ s! "chassis-id-type")) as [Hn1 Hn2]
    by (split; apply (bool_decide_unpack _); by vm_compute).
  pose proof (λ b v Hv, Hone b _ v Hv Hn1) as Hid. pose proof (λ b v Hv, Hone b _ v Hv Hn2) as Hty. clear Hone.
  rewrite (bool_decide_true (s! "chassis-id" = s! "chassis-id")) in Hid by done.
  rewrite (bool_decide_false (s! "chassis-id-type" = s! "chassis-id")),
    (bool_decide_true (s! "chassis-id-type" = s! "chassis-id-type")) in Hty by done.
  unfold local_leaves in *. destruct t as [[ci|] [ct|] ifs];
    cbn [present lt_chassis_id lt_chassis_type app fmap list_fmap foldl or_kept] in *;
    rewrite ?Forall_cons in Ht; cbn [snd] in Ht.
  - destruct Ht as (H1 & H2 & _). by rewrite Hid, Hty.
  - destruct Ht as (H1 & _). by rewrite Hid.
  - destruct Ht as (H1 & _). by rewrite Hty.
  - by destruct b.
Qed.
End forms.

(** ** What a probe makes of it *)

Section probes.
Context `{UC : UnicodeCase} (json_from_slice : Bytes → option JsonValue).

Lemma descend_one (q : Str → Str) v : (∀ n, module_prefix (q n)) →
  descend_lldp_wrapper (json_object [(q (s! "lldp") ++ s! "lldp", v)]) = v.
Proof using Type.
  intros Hq. assert (strip_module (q (s! "lldp") ++ s! "lldp") = s! "lldp") as Hs.
  { apply strip_module_prefixed; [done|]. apply (bool_decide_unpack _); by vm_compute. }
  revert Hs. generalize (q (s! "lldp") ++ s! "lldp"). intros k Hs.
  change (json_object [(k, v)]) with (JObject [(k, v)]). unfold descend_lldp_wrapper. by rewrite bool_decide_true.
Qed.

Lemma json_tree_applied (q : Str → Str) t b : (∀ n, module_prefix (q n)) → table_wf t →
  ingest_container_json (json_tree q t) b =
  table_neighbors (mkLldpBuilder (or_kept (lt_chassis_id t) (lb_local_chassis_id b))
                     (or_kept (lt_chassis_type t) (lb_local_chassis_type b)) (lb_neighbors b)) (lt_interfaces t).
Proof using Type.
  intros Hq [Hl Hi].
  assert ((58 ∉ s! "lldp") ∧ (58 ∉ s! "state") ∧ (58 ∉ s! "interfaces") ∧ (58 ∉ s! "interface")) as (H1 & H2 & H3 & H4)
    by (split_and!; apply (bool_decide_unpack _); by vm_compute).
  unfold ingest_container_json, json_tree. rewrite descend_one by done.
  rewrite !stripped_get_pair by done.
  rewrite (bool_decide_true (s! "state" = s! "state")), (bool_decide_false (s! "state" = s! "interfaces")),
    (bool_decide_true (s! "interfaces" = s! "interfaces")) by done.
  cbn [default from_option id]. rewrite stripped_get_one by done.
  rewrite (bool_decide_true (s! "interface" = s! "interface")) by done. cbn [json_array].
  rewrite json_interfaces_applied by done. f_equal.
  rewrite !stripped_str_leaves by (done || apply local_leaves_names || apply local_leaves_distinct).
  unfold local_leaves. by destruct t as [[] [] ifs].
Qed.

(** A digit is no separator. *)
Lemma digit_not_separator d : 0 ≤ d < 16 → is_mac_separator (digit_char d) = false.
Proof using Type. intros. unfold is_mac_separator, digit_char. case_match; break_bool; lia. Qed.

Lemma filter_hex2 b : is_byte b → filter (λ c, is_mac_separator c = false) (fmt_hex2 b) = fmt_hex2 b.
Proof using Type.
  intros Hb. unfold fmt_hex2, is_byte in *. rewrite !filter_cons, !decide_True, filter_nil; [done|..];
    apply digit_not_separator; Z.to_euclidean_division_equations; lia.
Qed.

Lemma filter_join_hex bytes : bytes_wf bytes →
  filter (λ c, is_mac_separator c = false) (join (s! ":") (fmt_hex2 <$> bytes)) = hex_string bytes.
Proof using Type.
  intros Hwf. unfold hex_string. induction Hwf as [|b bytes Hb Hwf IH]; [done|].
  destruct bytes as [|b' bytes].
  - rewrite fmap_cons, mjoin_cons. cbn [fmap list_fmap join mjoin list_join]. by rewrite filter_hex2, app_nil_r.
  - rewrite fmap_cons, mjoin_cons in IH. rewrite 2!fmap_cons, 2!mjoin_cons.
    change (join (s! ":") (fmt_hex2 b :: fmt_hex2 b' :: (fmt_hex2 <$> bytes))) with
      (fmt_hex2 b ++ s! ":" ++ join (s! ":") (fmt_hex2 b' :: (fmt_hex2 <$> bytes))).
    rewrite !filter_app, filter_hex2, IH by done. done.
Qed.

(** ** What a table says of each neighbour *)

(** The entries of a table, by interface and neighbour, in its order. *)
Definition reported (t : LldpTable) : list ((Str * Str) * NeighborBuilder) :=
  lt_interfaces t ≫= λ i, (λ n, ((i.1, n.1), n.2)) <$> i.2.

(** The last value of a leaf of a neighbour. *)
Definition last_reported (t : LldpTable) (key : Str * Str) (leaf : NeighborBuilder → option Str) : option Str :=
  last (omap (λ x, if decide (x.1 = key) then leaf x.2 else None) (reported t)).

Definition neighbor_reported (t : LldpTable) (key : Str * Str) : LldpNeighbor :=
  let chassis := chassis_subtype_from_type (default [] (last_reported t key nb_chassis_type)) in
  let port := port_subtype_from_type (default [] (last_reported t key nb_port_type)) in
  mkLldpNeighbor key.1 (canonical_chassis chassis (default [] (last_reported t key nb_chassis_id))) chassis
    (canonical_port port (default [] (last_reported t key nb_port_id))) port
    (last_reported t key nb_port_description) (last_reported t key nb_system_name).

(** The entries of one neighbour. *)
Definition entries_of (key : Str * Str) (l : list ((Str * Str) * NeighborBuilder)) : list NeighborBuilder :=
  (filter (λ x, x.1 = key) l).*2.

Lemma last_reported_entries t key leaf : last_reported t key leaf = last (omap leaf (entries_of key (reported t))).
Proof using Type.
  unfold last_reported, entries_of. f_equal. induction (reported t) as [|x l IH]; [done|].
  rewrite filter_cons. cbn [omap list_omap]. destruct (decide (x.1 = key)); [|done]. rewrite fmap_cons.
  cbn [omap list_omap]. by rewrite <-IH.
Qed.

Lemma table_neighbors_reported b t :
  table_neighbors b (lt_interfaces t) = foldl (λ b x, with_neighbor x.1 (overlay x.2) b) b (reported t).
Proof using Type.
  unfold table_neighbors, reported. revert b. induction (lt_interfaces t) as [|i l IH]; intros b; [done|].
  cbn [foldl mbind list_bind]. rewrite foldl_app, IH. f_equal. clear IH.
  revert b. induction i.2 as [|n nbrs IH]; intros b; [done|]. rewrite fmap_cons. cbn [foldl]. apply IH.
Qed.

Lemma with_neighbors_local l b :
  lb_local_chassis_id (foldl (λ b x, with_neighbor x.1 (overlay x.2) b) b l) = lb_local_chassis_id b ∧
  lb_local_chassis_type (foldl (λ b x, with_neighbor x.1 (overlay x.2) b) b l) = lb_local_chassis_type b.
Proof using Type. revert b. induction l as [|x l IH]; intros b; [done|]. cbn [foldl]. exact (IH _). Qed.

Lemma with_neighbors_lookup l b key :
  lb_neighbors (foldl (λ b x, with_neighbor x.1 (overlay x.2) b) b l) !! key =
  if decide (key ∈ l.*1)
  then Some (foldl (λ e nb, overlay nb e) (default neighbor_default (lb_neighbors b !! key)) (entries_of key l))
  else lb_neighbors b !! key.
Proof using Type.
  revert b. induction l as [|x l IH]; intros b; [done|]. cbn [foldl]. rewrite IH. clear IH. unfold entries_of.
  rewrite fmap_cons, filter_cons. cbn [with_neighbor lb_neighbors]. destruct (decide (x.1 = key)) as [<-|Hne].
  - rewrite lookup_insert_eq, fmap_cons. cbn [foldl default from_option id].
    rewrite (decide_True (P := x.1 ∈ x.1 :: _)) by left. case_decide as Hl; [done|].
    destruct (filter (λ y, y.1 = x.1) l) as [|y ys] eqn:Hy; [done|].
    assert (y ∈ filter (λ y, y.1 = x.1) l) as [Heq Hin]%list_elem_of_filter by (rewrite Hy; left).
    destruct Hl. rewrite <-Heq. by apply list_elem_of_fmap_2.
  - rewrite lookup_insert_ne by done.
    destruct (decide (key ∈ l.*1)); [rewrite decide_True by (by right)|rewrite decide_False by set_solver]; done.
Qed.

(** The leaves of overlaid entries are the last ones. *)
Lemma overlaid_last (leaf : NeighborBuilder → option Str) es :
  (∀ nb e, leaf (overlay nb e) = or_kept (leaf nb) (leaf e)) → leaf neighbor_default = None →
  leaf (foldl (λ e nb, overlay nb e) neighbor_default es) = last (omap leaf es).
Proof using Type.
  intros Ho Hd. induction es as [|nb es IH] using rev_ind; [done|].
  rewrite foldl_snoc, omap_app, Ho, IH. cbn [omap list_omap]. destruct (leaf nb); cbn [or_kept]; [by rewrite last_snoc|].
  by rewrite app_nil_r.
Qed.

Lemma last_reported_kept t key leaf :
  (∀ nb v, (∃ i n, i ∈ lt_interfaces t ∧ n ∈ i.2 ∧ nb = n.2) → leaf nb = Some v → v ≠ []) →
  kept_text (last_reported t key leaf) = last_reported t key leaf.
Proof using Type.
  intros Hv. destruct (last_reported t key leaf) as [v|] eqn:Hl; [|done].
  unfold last_reported in Hl. apply last_Some_elem_of, list_elem_of_omap in Hl as ([k nb] & Hin & Hx).
  case_decide; [|done]. unfold reported in Hin. apply list_elem_of_bind in Hin as (i & Hn & Hi).
  apply list_elem_of_fmap in Hn as (n & [= -> ->] & Hn). specialize (Hv n.2 v ltac:(by exists i, n) Hx). by destruct v.
Qed.

(** The texts of a table are not empty. *)
Lemma leaf_kept t i n name v :
  Forall (λ i, key_text i.1 ∧
    Forall (λ n, key_text n.1 ∧ neighbor_leaves n.2 ≠ [] ∧ Forall (λ l, text l.2) (neighbor_leaves n.2)) i.2)
    (lt_interfaces t) →
  i ∈ lt_interfaces t → n ∈ i.2 → (name, v) ∈ neighbor_leaves n.2 → v ≠ [].
Proof using Type.
  intros H Hi Hn Hv. rewrite Forall_forall in H. destruct (H i Hi) as [_ Hns]. rewrite Forall_forall in Hns.
  destruct (Hns n Hn) as (_ & _ & Ht). rewrite Forall_forall in Ht. exact (proj1 (Ht _ Hv)).
Qed.

#[local] Instance neighbor_le_total : Total neighbor_le.
Proof using Type. intros a b. apply pair_le_total. Qed.
#[local] Instance neighbor_le_trans : Transitive neighbor_le.
Proof using Type. intros a b c. unfold neighbor_le. apply pair_le_trans. Qed.

Lemma neighbors_sorted l : StronglySorted neighbor_le l → StronglySorted pair_le l.*1.
Proof using Type.
  induction 1 as [|x l Hl IH Hx]; [constructor|]. rewrite fmap_cons. constructor; [done|].
  by apply Forall_fmap.
Qed.

(** A finished table: the neighbours it reports, in the order of their keys. *)
Lemma table_finished t (obs := lldp_finish (table_neighbors (mkLldpBuilder (lt_chassis_id t) (lt_chassis_type t) ∅) (lt_interfaces t))) :
  table_wf t →
  lo_local_chassis_subtype obs = chassis_subtype_from_type (default [] (lt_chassis_type t)) ∧
  lo_local_chassis_id obs = canonical_chassis (lo_local_chassis_subtype obs) (default [] (lt_chassis_id t)) ∧
  lo_discovered_via obs = s! "gnmi" ∧
  ∃ keys, StronglySorted pair_le keys ∧ NoDup keys ∧ (∀ k, k ∈ keys ↔ k ∈ (reported t).*1) ∧
    lo_neighbors obs = neighbor_reported t <$> keys.
Proof using Type.
  clear json_from_slice. intros [_ Hi]. unfold obs, lldp_finish. rewrite table_neighbors_reported.
  set (b0 := mkLldpBuilder (lt_chassis_id t) (lt_chassis_type t) ∅).
  destruct (with_neighbors_local (reported t) b0) as [-> ->].
  cbn [lo_local_chassis_subtype lo_local_chassis_id lo_discovered_via lo_neighbors]. split_and!; [done..|].
  pose proof (λ k, with_neighbors_lookup (reported t) b0 k) as Hm. revert Hm.
  generalize (lb_neighbors (foldl (λ b x, with_neighbor x.1 (overlay x.2) b) b0 (reported t))). intros m Hm.
  pose proof (merge_sort_Permutation neighbor_le (map_to_list m)) as HP.
  exists (merge_sort neighbor_le (map_to_list m)).*1. split_and!.
  - apply neighbors_sorted, StronglySorted_merge_sort; apply _.
  - rewrite HP. apply NoDup_fst_map_to_list.
  - intros k. rewrite HP, list_elem_of_fmap. split.
    + intros ([k' nb] & -> & Hin%elem_of_map_to_list). cbn [fst]. rewrite Hm in Hin. by case_decide.
    + intros Hk. specialize (Hm k). rewrite decide_True in Hm by done.
      eexists (k, _). split; [done|]. apply elem_of_map_to_list. exact Hm.
  - rewrite <-list_fmap_compose. apply list_fmap_ext. intros j [k nb] Hj.
    apply list_elem_of_lookup_2 in Hj. rewrite HP in Hj. apply elem_of_map_to_list in Hj.
    rewrite Hm in Hj. case_decide as Hk; [|done]. injection Hj as <-.
    cbn [lb_neighbors b0 default from_option id]. rewrite lookup_empty. cbn [default from_option].
    assert (∀ leaf, leaf ∈ [nb_port_description; nb_system_name] →
      last_reported t k leaf = kept_text (last_reported t k leaf)) as Hkept.
    { intros leaf Hleaf. symmetry. apply last_reported_kept. intros nb v (i & n & Hi1 & Hn & ->) Hv.
      assert (∃ name, (name, v) ∈ neighbor_leaves n.2) as [name Hin]; [|by eapply (leaf_kept t i n)].
      unfold neighbor_leaves. setoid_rewrite elem_of_app. rewrite !elem_of_cons, elem_of_nil in Hleaf.
      destruct Hleaf as [->|[->|[]]]; rewrite Hv; cbn [present]; set_solver. }
    change (finish_neighbor (k, foldl (λ e nb, overlay nb e) neighbor_default (entries_of k (reported t))) =
            neighbor_reported t k).
    unfold neighbor_reported. rewrite (Hkept nb_port_description), (Hkept nb_system_name) by set_solver.
    rewrite !last_reported_entries. unfold finish_neighbor. destruct k as [interface id]. by rewrite !overlaid_last.
Qed.

(** C30. The two forms in which devices return the OpenConfig [/lldp] tree, one update per leaf with a string value
    or one JSON value whose members are named with or without the names of modules, give the same observation: the
    local chassis and, in the order of interface and neighbour, each neighbour once with the last value of each of its
    leaves. A MAC address written with any separators is the identifier the SNMP prober gives the same chassis or
    port. An update per leaf whose value is itself encoded as JSON is not one of these forms: the parser loses such
    values (see [json_scalar_leaves_lost]). *)
Theorem gnmi_lldp_forms_agree (q : Str → Str) (t : LldpTable) (blob : Bytes) (mac : Bytes) (written : Str) :
  (∀ name, module_prefix (q name)) → table_wf t → json_from_slice blob = Some (json_tree q t) →
  bytes_wf mac → length mac = 6%nat →
  filter (λ c, (c =? 58) || (c =? 45) || (c =? 46) || is_whitespace c = false) written = hex_string mac →
  let obs := parse_lldp_response json_from_slice (json_response blob) in
  parse_lldp_response json_from_slice (leaf_response t) = obs ∧
  lo_local_chassis_subtype obs = chassis_subtype_from_type (default [] (lt_chassis_type t)) ∧
  lo_local_chassis_id obs = canonical_chassis (lo_local_chassis_subtype obs) (default [] (lt_chassis_id t)) ∧
  (∃ keys, StronglySorted pair_le keys ∧ NoDup keys ∧ (∀ k, k ∈ keys ↔ k ∈ (reported t).*1) ∧
     lo_neighbors obs = neighbor_reported t <$> keys) ∧
  canonical_chassis CHASSIS_SUBTYPE_MAC written = render_chassis_id CHASSIS_SUBTYPE_MAC mac ∧
  canonical_port PORT_SUBTYPE_MAC written = render_port_id PORT_SUBTYPE_MAC mac.
Proof using Type.
  intros Hq Ht Hj Hwf Hlen Hw obs.
  assert (obs =
    lldp_finish (table_neighbors (mkLldpBuilder (lt_chassis_id t) (lt_chassis_type t) ∅) (lt_interfaces t))) as Hjson.
  { unfold obs. unfold parse_lldp_response, json_response. cbn [foldl ingest_notification nf_prefix nf_update].
    unfold ingest_update. cbn [up_val up_path mbind option_bind json_blob]. rewrite Hj.
    change (ingest_json _ (json_tree q t) lldp_builder_default) with
      (ingest_container_json (json_tree q t) lldp_builder_default).
    rewrite json_tree_applied by done. by destruct (lt_chassis_id t), (lt_chassis_type t). }
  assert (mac_or_hex mac = mjoin (char_to_lowercase <$> hex_string mac)) as Hmac.
  { unfold mac_or_hex. rewrite Hlen. cbn [Nat.eqb]. unfold normalize_mac. by rewrite filter_join_hex. }
  destruct (table_finished t Ht) as (Hsub & Hid & _ & Hkeys). rewrite <-Hjson in Hsub, Hid, Hkeys.
  split_and!; [|exact Hsub|exact Hid|exact Hkeys|..].
  - rewrite Hjson. destruct Ht as [Hl Hi]. unfold parse_lldp_response, leaf_response.
    cbn [foldl ingest_notification nf_prefix nf_update]. fold prefix_lldp.
    rewrite foldl_app, ingest_local_leaves, ingest_interfaces_updates by done.
    by destruct (lt_chassis_id t), (lt_chassis_type t).
  - unfold canonical_chassis, render_chassis_id. rewrite Z.eqb_refl, Hmac. unfold canonical_mac_str, is_mac_separator. by rewrite Hw.
  - unfold canonical_port, render_port_id. rewrite Z.eqb_refl, Hmac. unfold canonical_mac_str, is_mac_separator. by rewrite Hw.
Qed.
End probes.

Definition answered_signals (r : PortResult) : list Signal := match r with Answered s _ _ => s | _ => [] end.
Definition answered_lldp (r : PortResult) : option LldpObservation := match r with Answered _ l _ => l | _ => None end.
Definition answered_endpoint (r : PortResult) : option GnmiEndpoint := match r with Answered _ _ e => Some e | _ => None end.
Definition result_status (r : PortResult) : option Status := match r with PortStatus s => Some s | _ => None end.
Definition result_fault (r : PortResult) : option ProbeFault := match r with PortFault f => Some f | _ => None end.
Definition is_answered (r : PortResult) : bool := match r with Answered _ _ _ => true | _ => false end.

Definition or_next {A} (old new : option A) : option A := match old with Some x => Some x | None => new end.

Lemma gnmi_fold_reads results signals answered status fault lldp endpoint :
  foldl gnmi_fold (mkGnmiFold signals answered status fault lldp endpoint) results =
  mkGnmiFold (signals ++ (results ≫= answered_signals)) (answered || existsb is_answered results)
    (or_next status (head (omap result_status results)))
    (match last (omap result_fault results) with Some f => Some f | None => fault end)
    (or_next lldp (head (omap answered_lldp results))) (or_next endpoint (head (omap answered_endpoint results))).
Proof.
  revert signals answered status fault lldp endpoint.
  induction results as [|r results IH]; intros signals answered status fault lldp endpoint.
  { cbn. rewrite app_nil_r, orb_false_r. by destruct status, lldp, endpoint. }
  cbn [foldl mbind list_bind existsb].
  destruct r as [s l e|st| |f]; cbn [gnmi_fold]; rewrite IH;
    cbn [answered_signals is_answered app orb omap list_omap result_status result_fault answered_lldp answered_endpoint];
    rewrite ?orb_false_l, ?app_nil_l, ?orb_true_r, <-?app_assoc.
  - f_equal; [by destruct lldp, l|by destruct endpoint].
  - f_equal. by destruct status.
  - done.
  - f_equal. rewrite last_cons. by destruct (last _).
Qed.

(** The outcome of a probe: what its answering ports said; failing those the first gRPC status, which is a response and
    keeps the device with a fault; failing that the last connection fault. *)
Lemma gnmi_outcome_reads ip ts results :
  gnmi_assemble_outcome ip ts results =
  if existsb is_answered results then
    mkProbeOutcome Gnmi ip ts true (results ≫= answered_signals) None (head (omap answered_lldp results))
      (head (omap answered_endpoint results))
  else
    match head (omap result_status results) with
    | Some status => status_to_outcome ip ts status
    | None => mkProbeOutcome Gnmi ip ts false [] (last (omap result_fault results)) None None
    end.
Proof.
  unfold gnmi_assemble_outcome. rewrite gnmi_fold_reads.
  cbn [gf_answered gf_signals gf_status gf_fault gf_lldp gf_endpoint orb app or_next].
  destruct (existsb is_answered results) eqn:Ha; [by cbn [surfaced_fault]|].
  destruct (head (omap result_status results)); [done|]. unfold surfaced_fault.
  assert ((results ≫= answered_signals) = [] ∧ omap answered_lldp results = [] ∧ omap answered_endpoint results = [])
    as (-> & -> & ->).
  { induction results as [|r results IH]; [done|]. cbn [existsb] in Ha. apply orb_false_iff in Ha as [Hr Ha].
    cbn [mbind list_bind omap list_omap]. destruct (IH Ha) as (? & ? & ?). by destruct r. }
  by destruct (last _).
Qed.

(** The encoding of a [Get] can be rendered, and is one the device supports when it named any that can. *)
Lemma get_encoding_rendered supported :
  is_renderable_encoding (select_get_encoding supported) = true ∧
  (select_get_encoding supported ∈ supported ∨
   (select_get_encoding supported = JSON_IETF ∧ forallb (λ e, negb (is_renderable_encoding e)) supported = true)).
Proof.
  unfold select_get_encoding. destruct supported as [|e0 rest]; [by split; [|right]|]. cbn [is_empty orb].
  case_bool_decide as Hin; [by split; [|left]|]. destruct (List.find is_renderable_encoding (e0 :: rest)) as [e|] eqn:Hf.
  - apply find_some in Hf as [He Hr]. split; [done|]. left. by apply list_elem_of_In.
  - split; [done|]. right. split; [done|]. apply forallb_forall. intros x Hx. by rewrite (find_none _ _ Hf _ Hx).
Qed.

(** ** Samples *)

#[local] Existing Instance ascii_case.

Definition sample_table : LldpTable :=
  mkLldpTable (Some (s! "00:11:22:33:44:55")) (Some (s! "MAC_ADDRESS"))
    [(s! "eth0", [(s! "2", mkNeighborBuilder (Some (s! "aabb.ccdd.eeff")) (Some (s! "openconfig-lldp-types:MAC_ADDRESS"))
                             (Some (s! "Ethernet1")) (Some (s! "INTERFACE_NAME")) None (Some (s! "uplink")))])].

(** As RFC 7951 writes it, the module is named where the tree starts. *)
Definition top_module (name : Str) : Str := if bool_decide (name = s! "lldp") then s! "openconfig-lldp:" else [].

Lemma gnmi_lldp_forms_agree_witness :
  parse_lldp_response (λ _, Some (json_tree top_module sample_table)) (leaf_response sample_table) =
  mkLldpObservation (s! "001122334455") 4
    [mkLldpNeighbor (s! "eth0") (s! "aabbccddeeff") 4 (s! "Ethernet1") 5 (Some (s! "uplink")) None] (s! "gnmi").
Proof.
  destruct (gnmi_lldp_forms_agree (λ _, Some (json_tree top_module sample_table)) top_module
    sample_table [] [0; 17; 34; 51; 68; 85] (s! "0011.2233.4455")) as (-> & _ & _).
  - intros name. unfold top_module. case_bool_decide; [right; by exists (s! "openconfig-lldp")|by left].
  - split; [|repeat constructor]; apply (bool_decide_unpack _); by vm_compute.
  - done.
  - apply (bool_decide_unpack _); by vm_compute.
  - done.
  - by vm_compute.
  - by vm_compute.
Defined.

(** The members of the parsed tree are in the order of their names. *)
Example sample_tree_sorted :
  match json_tree top_module sample_table with
  | JObject [(_, JObject members)] => members.*1
  | _ => []
  end = [s! "interfaces"; s! "state"].
Proof. by vm_compute. Qed.

(** A device that encodes every leaf as a JSON value of its own loses them all: the neighbour is there, its
    identifiers are not. *)
Example json_scalar_leaves_lost :
  lo_neighbors (parse_lldp_response (λ _, Some (JString (s! "aa:bb:cc:dd:ee:ff")))
    [mkNotification None [mkUpdate (Some (mkGnmiPath [] (neighbor_elems (s! "eth0") (s! "2") (s! "chassis-id"))))
       (Some (Some (JsonIetfVal [])))]]) =
  [mkLldpNeighbor (s! "eth0") [] 0 [] 0 None None].
Proof. by vm_compute. Qed.
