(* ===== verification/Checkpoint.v ===== *)
(** * Resume checkpoints: [checkpoint/mod.rs] and [atomic_file.rs]

    The durable position of a scan, how it is written and read back, and the checks
    before a run may write or resume one. The file system, SHA-256 and the JSON codec
    are parameters. *)

From S2P Require Import Prelude Net F64 Model FuserCore UnionFind Identity IdentityFacts.
From S2P Require Import CorrelateFacts IdentityTheorems Fuser Classifier.
From S2P Require Import Topology CollectionProfile Encoder.
From S2P Require Import Resolver Sink Tee Kafka Nats SinkConfig GnmiPath ProberConfig Config.

Definition CHECKPOINT_VERSION : Z := 1.

Definition FINGERPRINT_DOMAIN : Str := s! "rastreo.resume.fingerprint.v1".

Section data.
Context `{NL : IpNetLib}.

Record Checkpoint : Type := mkCheckpoint {
  ck_checkpoint_version : Z;
  ck_scan_id : Str;
  ck_initiated_at : SystemTime;
  ck_resume_fingerprint : Str;
  ck_source_config_hash : option Str;
  ck_dns_pins : list (Target * list IpAddr);
  ck_highest_flushed_index : Z;
}.

Record CheckpointConfig : Type := mkCheckpointConfig {
  cc_path : Str;
  cc_interval : Z;
  cc_resume : bool;
}.

Record CheckpointWriter : Type := mkCheckpointWriter {
  cw_path : Str;
  cw_interval : Z;
  cw_scan_id : Str;
  cw_initiated_at : SystemTime;
  cw_resume_fingerprint : Str;
  cw_source_config_hash : option Str;
  cw_dns_pins : list (Target * list IpAddr);
  cw_resume_base : Z;
  cw_last_checkpoint_at : Z;
}.

Definition writer_new (config : CheckpointConfig) (m : ScanMetadata) (resume_fingerprint : Str)
    (dns_pins : list (Target * list IpAddr)) : CheckpointWriter := {|
  cw_path := cc_path config;
  cw_interval := Z.max (cc_interval config) 1;
  cw_scan_id := sm_scan_id m;
  cw_initiated_at := sm_initiated_at m;
  cw_resume_fingerprint := resume_fingerprint;
  cw_source_config_hash := sm_source_config_hash m;
  cw_dns_pins := dns_pins;
  cw_resume_base := 0;
  cw_last_checkpoint_at := 0;
|}.

Definition writer_set (base last : Z) (cw : CheckpointWriter) : CheckpointWriter := {|
  cw_path := cw_path cw; cw_interval := cw_interval cw; cw_scan_id := cw_scan_id cw;
  cw_initiated_at := cw_initiated_at cw; cw_resume_fingerprint := cw_resume_fingerprint cw;
  cw_source_config_hash := cw_source_config_hash cw; cw_dns_pins := cw_dns_pins cw;
  cw_resume_base := base; cw_last_checkpoint_at := last;
|}.

Definition with_resume_base (base : Z) (cw : CheckpointWriter) : CheckpointWriter :=
  writer_set base (cw_last_checkpoint_at cw) cw.

(** [usize] arithmetic; the callers pass a positive count. *)
Definition record_index (local_next_expected : Z) (cw : CheckpointWriter) : Z :=
  wrap 64 (cw_resume_base cw + local_next_expected - 1).

Definition due (next_expected : Z) (cw : CheckpointWriter) : bool :=
  cw_interval cw <=? saturating_sub next_expected (cw_last_checkpoint_at cw).

Definition checkpoint_of (highest_flushed_index : Z) (cw : CheckpointWriter) : Checkpoint := {|
  ck_checkpoint_version := CHECKPOINT_VERSION;
  ck_scan_id := cw_scan_id cw;
  ck_initiated_at := cw_initiated_at cw;
  ck_resume_fingerprint := cw_resume_fingerprint cw;
  ck_source_config_hash := cw_source_config_hash cw;
  ck_dns_pins := cw_dns_pins cw;
  ck_highest_flushed_index := highest_flushed_index;
|}.
End data.

(** ** The file system and the codecs *)

Class FsLib (W : Type) `{ForeignErrors} := {
  fs_write : Str → Bytes → W → W * Result IoError unit;
  fs_rename : Str → Str → W → W * Result IoError unit;
  fs_remove : Str → W → W * Result IoError unit;
  fs_read : Str → W → Result IoError Bytes;
  fs_exists : Str → W → bool;
}.

Class ScanCodec `{IpNetLib, ForeignErrors} := {
  checkpoint_to_vec : Checkpoint → Bytes;
  checkpoint_from_slice : Bytes → Result JsonError Checkpoint;
  targets_to_vec : list Target → Bytes;
  scenario_to_vec : DiscoverScenarioConfig → Bytes;
  sha256 : Bytes → Bytes;
}.

Section checkpoint.
Context `{NL : IpNetLib} `{FE : ForeignErrors} {IE : IoErrors} {W : Type} {FS : FsLib W}
  {SC : ScanCodec} {SS : SinkStore W}.

(** ** [atomic_file.rs] *)

Record FileWriteFailure : Type := mkFileWriteFailure {
  wf_path : Str;
  wf_source : IoError;
}.

Definition tmp_path (path : Str) : Str := path ++ s! ".tmp".

Definition write_atomically (path : Str) (bytes : Bytes) (w : W) : W * Result FileWriteFailure unit :=
  let tmp := tmp_path path in
  let '(w, written) := fs_write tmp bytes w in
  match written with
  | Err source => (w, Err (mkFileWriteFailure tmp source))
  | Ok _ =>
      let '(w, renamed) := fs_rename tmp path w in
      (w, map_err (mkFileWriteFailure path) renamed)
  end.

(** ** Writing and loading a checkpoint *)

Definition checkpoint_write (c : Checkpoint) (path : Str) (w : W) : W * Result ResumeError unit :=
  let '(w, r) := write_atomically path (checkpoint_to_vec c) w in
  (w, map_err (λ failure, Persist (wf_path failure) (wf_source failure)) r).

Definition checkpoint_load (path : Str) (w : W) : Result ResumeError Checkpoint :=
  bytes ← map_err (λ _, CorruptCheckpoint path) (fs_read path w);
  checkpoint ← map_err (λ _, CorruptCheckpoint path) (checkpoint_from_slice bytes);
  if negb (ck_checkpoint_version checkpoint =? CHECKPOINT_VERSION)
  then Err (UnknownVersion (ck_checkpoint_version checkpoint) CHECKPOINT_VERSION)
  else Ok checkpoint.

Definition write_at (highest_flushed_index : Z) (cw : CheckpointWriter) (w : W)
    : W * Result ResumeError unit :=
  checkpoint_write (checkpoint_of highest_flushed_index cw) (cw_path cw) w.

(** Flush, then record: the order is the point. *)
Definition maybe_checkpoint (sink : Handle) (next_expected : Z) (cw : CheckpointWriter) (w : W)
    : CheckpointWriter * W * Result RastreoError unit :=
  if (next_expected =? 0) || negb (due next_expected cw) then (cw, w, Ok tt)
  else
    let '(w, flushed) := h_flush sink w in
    match flushed with
    | Err e => (cw, w, Err e)
    | Ok _ =>
        let '(w, recorded) := write_at (record_index next_expected cw) cw w in
        match recorded with
        | Err e => (cw, w, Err (EResume e))
        | Ok _ => (writer_set (cw_resume_base cw) next_expected cw, w, Ok tt)
        end
    end.

Definition writer_delete (cw : CheckpointWriter) (w : W) : W * Result ResumeError unit :=
  let '(w, r) := fs_remove (cw_path cw) w in
  match r with
  | Ok _ => (w, Ok tt)
  | Err e =>
      match io_error_kind e with
      | NotFound => (w, Ok tt)
      | _ => (w, Err (Persist (cw_path cw) e))
      end
  end.

(** ** Eligibility and fingerprints *)

Definition fuser_supports_resume (config : FuserConfig) : bool :=
  negb (subtree_contains_identity config).

Definition second_stream_kind (prober : ProberConfig) : option Str :=
  match prober with
  | CfgLldp _ _ _ _ _ => Some (s! "lldp")
  | CfgGnmi _ _ _ _ _ _ => Some (s! "gnmi")
  | _ => None
  end.

Definition probers_support_resume (probers : list ProberConfig) : bool :=
  forallb (λ p, negb (bool_decide (is_Some (second_stream_kind p)))) probers.

Definition sink_label (sink : option SinkConfig) : Str :=
  match sink with
  | None => s! "none"
  | Some c => sink_type_label (config_sink_type c)
  end.

Definition resume_eligibility (scenario : DiscoverScenarioConfig) : Result ResumeError unit :=
  _ ← match bp_fuser (sc_base scenario) with
      | Some fuser =>
          if negb (fuser_supports_resume fuser) then Err IdentityFuserNotResumable else Ok tt
      | None => Ok tt
      end;
  _ ← match find_map second_stream_kind (sc_probers scenario) with
      | Some kind => Err (SecondStreamProberNotResumable kind)
      | None => Ok tt
      end;
  match bp_sink (sc_base scenario) with
  | Some sink =>
      if supports_resume sink then Ok tt else Err (SinkNotResumable (sink_label (Some sink)))
  | None => Err (SinkNotResumable (sink_label None))
  end.

Definition sink_destination_descriptor (sink : option SinkConfig) : Str :=
  match sink with
  | None => s! "sink:none"
  | Some CfgStdout => s! "sink:stdout"
  | Some CfgMemory => s! "sink:memory"
  | Some (CfgFile path) => s! "sink:file:" ++ path
  | Some (CfgKafka brokers topic _ _ _ _ _ _ _) =>
      s! "sink:kafka:" ++ join (s! ",") brokers ++ s! ":" ++ topic
  | Some (CfgNats servers subject stream _ _ _ _ _ _) =>
      s! "sink:nats:" ++ join (s! ",") servers ++ s! ":" ++ subject ++ s! ":" ++ stream
  end.

(** [u64::to_le_bytes]. *)
Definition le_bytes (x : Z) : Bytes :=
  (λ i, Z.land (Z.shiftr x (8 * Z.of_nat i)) 255) <$> seq 0 8.

Definition fingerprint_input (scenario : DiscoverScenarioConfig) : Bytes :=
  let targets := targets_to_vec (sc_targets scenario) in
  let destination := as_bytes (sink_destination_descriptor (bp_sink (sc_base scenario))) in
  as_bytes FINGERPRINT_DOMAIN ++ le_bytes (byte_len targets) ++ targets ++
  le_bytes (byte_len destination) ++ destination.

Definition resume_fingerprint (scenario : DiscoverScenarioConfig) : Str :=
  s! "sha256:" ++ hex_lower (sha256 (fingerprint_input scenario)).

(** [model/scan.rs] *)
Definition hash_scenario (scenario : DiscoverScenarioConfig) : option Str :=
  Some (s! "sha256:" ++ hex_lower (sha256 (scenario_to_vec scenario))).

Definition scan_metadata_new (scan_id : Str) (now : SystemTime) (scenario : DiscoverScenarioConfig)
    : ScanMetadata :=
  mkScanMetadata scan_id (bp_name (sc_base scenario)) now (hash_scenario scenario).

Definition scan_metadata_resumed (scenario : DiscoverScenarioConfig) (scan_id : Str)
    (initiated_at : SystemTime) : ScanMetadata :=
  mkScanMetadata scan_id (bp_name (sc_base scenario)) initiated_at (hash_scenario scenario).

(** ** Pre-flight; a changed [source_config_hash] only warns *)

Definition checkpoint_preflight (scenario : DiscoverScenarioConfig) (path : Str) (w : W)
    : Result ResumeError unit :=
  _ ← resume_eligibility scenario;
  if fs_exists path w then _ ← checkpoint_load path w; Err (CheckpointExists path)
  else Ok tt.

Definition resume_preflight (scenario : DiscoverScenarioConfig) (path : Str) (w : W)
    : Result ResumeError Checkpoint :=
  if negb (fs_exists path w) then Err (NoCheckpointToResume path)
  else
    checkpoint ← checkpoint_load path w;
    _ ← resume_eligibility scenario;
    if bool_decide (resume_fingerprint scenario = ck_resume_fingerprint checkpoint)
    then Ok checkpoint
    else Err FingerprintMismatch.

Definition preflight_checkpoint_request (scenario : DiscoverScenarioConfig)
    (config : CheckpointConfig) (w : W) : Result ResumeError (option Checkpoint) :=
  if cc_resume config then Some <$> resume_preflight scenario (cc_path config) w
  else _ ← checkpoint_preflight scenario (cc_path config) w; Ok None.
End checkpoint.
