(* ===== verification/Pipeline.v ===== *)
(** * The discovery pipeline: [pipeline.rs]

    Scans arrive in completion order, are put back in target order, fused,
    classified, encoded and written; a second stream carries links and profiles.
    The state of [stream_discovery] is a record threaded through its loops: [None] is
    a panic, [Err] is the error a [?] leaves the streaming block with, and the state
    is kept on both. The fuser, the classifier and the assemblers are the modelled
    ones; the sink is a handle in the world; the encoder and the clock are
    parameters. *)

From S2P Require Import Prelude Net F64 Model FuserCore UnionFind Identity IdentityFacts.
From S2P Require Import CorrelateFacts IdentityTheorems Fuser Topology.
From S2P Require Import Classifier Resolver Sink Tee Kafka Nats SinkConfig GnmiPath ProberConfig.
From S2P Require Import Config Checkpoint CollectionProfile Encoder Scheduler.

#[local] Open Scope nat_scope.

Definition DEFAULT_TIMEOUT_MS : Z := 1000.
Definition DEFAULT_CONCURRENCY : Z := 64.

(** ** Results *)

Record ProbeKindSummary : Type := mkProbeKindSummary {
  pk_kind : ProbeKind;
  pk_attempted : nat;
  pk_errored : nat;
}.

Record DiscoverySummary : Type := mkDiscoverySummary {
  ds_targets_resolved : Z;
  ds_probe_attempts : nat;
  ds_records_emitted : nat;
  ds_links_emitted : nat;
  ds_profiles_emitted : nat;
  ds_unresolvable_targets : list Str;
  ds_error_counts : gmap ProbeErrorKind nat;
  ds_probes_by_kind : list ProbeKindSummary;
  ds_dlq_records : Z;
  ds_dlq_records_by_type_and_class : Attribution;
  ds_sink_type : option SinkType;
  ds_cancelled : bool;
  ds_first_probe_error : option ProbeFault;
  ds_elapsed : Z;
}.

Record DiscoveryProgress : Type := mkDiscoveryProgress {
  dp_targets_completed : Z;
  dp_targets_total : Z;
  dp_records_emitted : nat;
  dp_probe_attempts : nat;
  dp_elapsed_ms : Z;
}.

Record ScanAccumulation : Type := mkScanAccumulation {
  ac_probe_attempts : nat;
  ac_error_counts : gmap ProbeErrorKind nat;
  ac_first_probe_error : option ProbeFault;
  ac_attempts_by_kind : list nat;
  ac_errors_by_kind : list nat;
  ac_cancelled : bool;
}.

Definition accumulation_default : ScanAccumulation :=
  mkScanAccumulation 0 ∅ None (replicate PROBE_KIND_COUNT 0) (replicate PROBE_KIND_COUNT 0) false.

(** Array updates at a probe kind, always in range. *)
Definition bump (kind : ProbeKind) (counts : list nat) : list nat :=
  alter S (probe_kind_index kind) counts.

Definition count_error (k : ProbeErrorKind) (m : gmap ProbeErrorKind nat) : gmap ProbeErrorKind nat :=
  <[k := S (default 0 (m !! k))]> m.

(** Lexicographic comparison of [(pass_index, target_index)]. *)
Definition key_ltb (a b : nat * nat) : bool :=
  (a.1 <? b.1) || ((a.1 =? b.1) && (a.2 <? b.2)).

Definition build_probes_by_kind (attempts errors : list nat) : list ProbeKindSummary :=
  omap (λ kind,
    let attempted := default 0 (attempts !! probe_kind_index kind) in
    let errored := default 0 (errors !! probe_kind_index kind) in
    if (attempted =? 0) && (errored =? 0) then None
    else Some (mkProbeKindSummary kind attempted errored)) probe_kind_all.

(** How errors are written. *)
Class ErrorDisplay `{ForeignErrors} := rastreo_error_display : RastreoError → Str.
(** What [std::error::Error::source] leads to, each cause as it is written. *)
Class ErrorSources `{ForeignErrors} := error_sources : RastreoError → list Str.
(** [Instant::elapsed]: the time since the run started, in nanoseconds. The clock is a part of
    the world, read like any other: nothing is assumed of what it shows. *)
Class Elapsed (W : Type) := elapsed : W → Z.

Section pipeline.
Context `{NL : IpNetLib, UC : UnicodeCase, FD : F64Display, FE : ForeignErrors, MS : MibSource,
  HO : HashOrder}.
Context {RL : RegexLib} {IE : IoErrors} {ED : ErrorDisplay}.
Context {W : Type} {FS : FsLib W} {SC : ScanCodec} {SS : SinkStore W} {EL : Elapsed W}
  {EN : Encoder W}.

(** ** Metrics *)

Definition latch (key : nat * nat) (fault : ProbeFault)
    (acc : ScanAccumulation) (best_key : option (nat * nat))
    : ScanAccumulation * option (nat * nat) :=
  if match best_key with Some bk => key_ltb key bk | None => true end then
    (mkScanAccumulation (ac_probe_attempts acc) (ac_error_counts acc) (Some fault)
       (ac_attempts_by_kind acc) (ac_errors_by_kind acc) (ac_cancelled acc), Some key)
  else (acc, best_key).

Definition count_attempt (kind : ProbeKind) (acc : ScanAccumulation) : ScanAccumulation :=
  mkScanAccumulation (S (ac_probe_attempts acc)) (ac_error_counts acc) (ac_first_probe_error acc)
    (bump kind (ac_attempts_by_kind acc)) (ac_errors_by_kind acc) (ac_cancelled acc).

Definition count_fault (kind : ProbeKind) (fault : ProbeErrorKind) (acc : ScanAccumulation)
    : ScanAccumulation :=
  mkScanAccumulation (ac_probe_attempts acc) (count_error fault (ac_error_counts acc))
    (ac_first_probe_error acc) (ac_attempts_by_kind acc) (bump kind (ac_errors_by_kind acc))
    (ac_cancelled acc).

Definition accumulate_outcome (prober_kinds : list ProbeKind) (target_index : nat)
    (st : ScanAccumulation * option (nat * nat))
    (outcome : nat * Result RastreoError ProbeOutcome)
    : option (ScanAccumulation * option (nat * nat)) :=
  let '(pass_index, result) := outcome in
  let '(acc, best_key) := st in
  kind ← prober_kinds !! pass_index;
  let acc := count_attempt kind acc in
  Some match result with
       | Ok o =>
           match po_fault o with
           | Some fault =>
               latch (pass_index, target_index) fault (count_fault kind (pf_kind fault) acc) best_key
           | None => (acc, best_key)
           end
       | Err err =>
           let acc := count_fault kind OtherFault acc in
           let msg := rastreo_error_display err in
           if is_empty msg then (acc, best_key)
           else latch (pass_index, target_index) (mkProbeFault OtherFault msg) acc best_key
       end.

Fixpoint accumulate_loop (prober_kinds : list ProbeKind) (target_index : nat)
    (outcomes : list (nat * Result RastreoError ProbeOutcome))
    (st : ScanAccumulation * option (nat * nat)) : option (ScanAccumulation * option (nat * nat)) :=
  match outcomes with
  | [] => Some st
  | outcome :: rest =>
      st ← accumulate_outcome prober_kinds target_index st outcome;
      accumulate_loop prober_kinds target_index rest st
  end.

Definition accumulate_target (prober_kinds : list ProbeKind) (scan : TargetScan)
    (st : ScanAccumulation * option (nat * nat)) : option (ScanAccumulation * option (nat * nat)) :=
  accumulate_loop prober_kinds (ts_target_index scan) (ts_outcomes scan) st.

(** ** The state of [stream_discovery] *)

Record Pipe : Type := mkPipe {
  pi_fuser : AnyFuser;
  pi_assembler : TopologyAssembler;
  pi_profiles : CollectionProfileAssembler;
  pi_metrics : ScanAccumulation * option (nat * nat);
  pi_records_emitted : nat;
  pi_links_emitted : nat;
  pi_profiles_emitted : nat;
  pi_targets_completed : nat;
  pi_emit_err : option RastreoError;
  pi_checkpoint : option CheckpointWriter;
  pi_progress : option DiscoveryProgress;
  pi_world : W;
}.

Definition upd_fuser (x : AnyFuser) (p : Pipe) : Pipe :=
  mkPipe x (pi_assembler p) (pi_profiles p) (pi_metrics p)
    (pi_records_emitted p) (pi_links_emitted p) (pi_profiles_emitted p) (pi_targets_completed p)
    (pi_emit_err p) (pi_checkpoint p) (pi_progress p) (pi_world p).
Definition upd_assemblers (t : TopologyAssembler) (c : CollectionProfileAssembler) (p : Pipe) : Pipe :=
  mkPipe (pi_fuser p) t c (pi_metrics p)
    (pi_records_emitted p) (pi_links_emitted p) (pi_profiles_emitted p) (pi_targets_completed p)
    (pi_emit_err p) (pi_checkpoint p) (pi_progress p) (pi_world p).
Definition upd_metrics (x : ScanAccumulation * option (nat * nat)) (p : Pipe) : Pipe :=
  mkPipe (pi_fuser p) (pi_assembler p) (pi_profiles p) x
    (pi_records_emitted p) (pi_links_emitted p) (pi_profiles_emitted p) (pi_targets_completed p)
    (pi_emit_err p) (pi_checkpoint p) (pi_progress p) (pi_world p).
Definition upd_completed (completed : nat) (p : Pipe) : Pipe :=
  mkPipe (pi_fuser p) (pi_assembler p) (pi_profiles p) (pi_metrics p)
    (pi_records_emitted p) (pi_links_emitted p) (pi_profiles_emitted p) completed
    (pi_emit_err p) (pi_checkpoint p) (pi_progress p) (pi_world p).
Definition upd_emit_err (x : option RastreoError) (p : Pipe) : Pipe :=
  mkPipe (pi_fuser p) (pi_assembler p) (pi_profiles p) (pi_metrics p) (pi_records_emitted p) (pi_links_emitted p) (pi_profiles_emitted p)
    (pi_targets_completed p) x (pi_checkpoint p) (pi_progress p) (pi_world p).
Definition upd_checkpoint (x : option CheckpointWriter) (p : Pipe) : Pipe :=
  mkPipe (pi_fuser p) (pi_assembler p) (pi_profiles p) (pi_metrics p) (pi_records_emitted p) (pi_links_emitted p) (pi_profiles_emitted p)
    (pi_targets_completed p) (pi_emit_err p) x (pi_progress p) (pi_world p).
Definition upd_progress (x : option DiscoveryProgress) (p : Pipe) : Pipe :=
  mkPipe (pi_fuser p) (pi_assembler p) (pi_profiles p) (pi_metrics p) (pi_records_emitted p) (pi_links_emitted p) (pi_profiles_emitted p)
    (pi_targets_completed p) (pi_emit_err p) (pi_checkpoint p) x (pi_world p).
Definition upd_world (w : W) (p : Pipe) : Pipe :=
  mkPipe (pi_fuser p) (pi_assembler p) (pi_profiles p) (pi_metrics p) (pi_records_emitted p) (pi_links_emitted p) (pi_profiles_emitted p)
    (pi_targets_completed p) (pi_emit_err p) (pi_checkpoint p) (pi_progress p) w.

(** [records_emitted], [links_emitted] or [profiles_emitted] plus one. *)
Definition count_written (kind : RecordKind) (p : Pipe) : Pipe :=
  mkPipe (pi_fuser p) (pi_assembler p) (pi_profiles p) (pi_metrics p)
    (match kind with RkDevice => S (pi_records_emitted p) | _ => pi_records_emitted p end)
    (match kind with RkLink => S (pi_links_emitted p) | _ => pi_links_emitted p end)
    (match kind with RkCollectionProfile => S (pi_profiles_emitted p) | _ => pi_profiles_emitted p end)
    (pi_targets_completed p) (pi_emit_err p) (pi_checkpoint p) (pi_progress p) (pi_world p).

(** ** Emission *)

Context (sink : Handle).

Definition write_encoded (kind : RecordKind) (buf : Bytes) (w : W) : W * Result RastreoError bool :=
  if is_empty buf then (w, Ok false)
  else let '(w, r) := h_write_kind sink kind buf w in (w, (λ _, true) <$> r).

(** Encode one item and deliver it; a failure is latched. *)
Definition emit_item {A} (kind : RecordKind) (encode : A → W → W * Result RastreoError Bytes)
    (item : A) (p : Pipe) : Pipe :=
  let '(w, encoded) := encode item (pi_world p) in
  let p := upd_world w p in
  match encoded with
  | Err e => upd_emit_err (Some e) p
  | Ok buf =>
      let '(w, written) := write_encoded kind buf (pi_world p) in
      let p := upd_world w p in
      match written with
      | Ok true => count_written kind p
      | Ok false => p
      | Err e => upd_emit_err (Some e) p
      end
  end.

(** The loops over records, links and profiles stop at a latched error. *)
Fixpoint emit_all {A} (kind : RecordKind) (encode : A → W → W * Result RastreoError Bytes)
    (items : list A) (p : Pipe) : Pipe :=
  match items with
  | [] => p
  | item :: rest =>
      if bool_decide (is_Some (pi_emit_err p)) then p
      else emit_all kind encode rest (emit_item kind encode item p)
  end.

Context (classifier : AnyClassifier) (scan_metadata : ScanMetadata).

Definition stamp_scan_metadata (record : DeviceRecord) : DeviceRecord :=
  set_scan_metadata scan_metadata record.

(** Classify, stamp and index the records, up to the first failure. *)
Fixpoint settle_records (records : list DeviceRecord) (p : Pipe)
    : Pipe * Result RastreoError (list DeviceRecord) :=
  match records with
  | [] => (p, Ok [])
  | record :: rest =>
      match classify classifier record with
      | Err e => (p, Err e)
      | Ok record =>
          let record := stamp_scan_metadata record in
          let p := upd_assemblers (observe_record (pi_assembler p) record)
                     (profiles_observe_record (pi_profiles p) record) p in
          let '(p, r) := settle_records rest p in
          (p, cons record <$> r)
      end
  end.

Definition settle_and_emit (records : list DeviceRecord) (p : Pipe)
    : Pipe * Result RastreoError unit :=
  let '(p, settled) := settle_records records p in
  match settled with
  | Err e => (p, Err e)
  | Ok records => (emit_all RkDevice encode_record records p, Ok tt)
  end.

Definition emit_target_records (outcomes : list (nat * Result RastreoError ProbeOutcome)) (p : Pipe)
    : Pipe * Result RastreoError unit :=
  let probe_outcomes := omap (λ o, result_ok o.2) outcomes in
  let p := upd_assemblers (observe_outcomes (pi_assembler p) probe_outcomes)
             (profiles_observe_outcomes (pi_profiles p) probe_outcomes) p in
  match ingest (pi_fuser p) probe_outcomes with
  | Err e => (p, Err e)
  | Ok (fuser, records) => settle_and_emit records (upd_fuser fuser p)
  end.

(** ** The streaming loop *)

Context (prober_kinds : list ProbeKind) (targets_resolved resume_base : Z).

Definition publish (p : Pipe) : Pipe :=
  match pi_progress p with
  | None => p
  | Some _ =>
      upd_progress (Some {|
        dp_targets_completed := resume_base + Z.of_nat (pi_targets_completed p);
        dp_targets_total := targets_resolved;
        dp_records_emitted := pi_records_emitted p;
        dp_probe_attempts := ac_probe_attempts (pi_metrics p).1;
        dp_elapsed_ms := elapsed (pi_world p) / 1000000 |}) p
  end.

(** Metrics, then the target's records unless an error is latched. *)
Definition absorb_target (ready : TargetScan) (p : Pipe)
    : option (Pipe * Result RastreoError unit) :=
  metrics ← accumulate_target prober_kinds ready (pi_metrics p);
  let p := upd_metrics metrics p in
  Some (if bool_decide (is_Some (pi_emit_err p)) then (p, Ok tt)
        else emit_target_records (ts_outcomes ready) p).

Definition checkpoint_after (next_expected : nat) (p : Pipe) : Pipe :=
  match pi_emit_err p, pi_checkpoint p with
  | None, Some writer =>
      let '(writer, w, r) :=
        maybe_checkpoint sink (Z.of_nat next_expected) writer (pi_world p) in
      let p := upd_checkpoint (Some writer) (upd_world w p) in
      match r with Ok _ => p | Err e => upd_emit_err (Some e) p end
  | _, _ => p
  end.

(** The body of the [while let] that drains the reorder buffer, [next_expected] being
    its value after the increment. *)
Definition process_ready (next_expected : nat) (ready : TargetScan) (p : Pipe)
    : option (Pipe * Result RastreoError unit) :=
  '(p, r) ← absorb_target ready p;
  Some match r with
       | Err e => (p, Err e)
       | Ok _ =>
           (checkpoint_after next_expected (publish (upd_completed (S (pi_targets_completed p)) p)),
            Ok tt)
       end.

(** The loop's own variables: the reorder buffer and the next target to emit. *)
Abbreviation Reorder := (gmap nat TargetScan * nat)%type.

(** Each turn takes a target out of the buffer, so its size bounds the turns. *)
Fixpoint drain_ready (fuel : nat) (ro : Reorder) (p : Pipe)
    : option (Reorder * Pipe * Result RastreoError unit) :=
  let '(reorder, next_expected) := ro in
  match reorder !! next_expected with
  | None => Some (ro, p, Ok tt)
  | Some ready =>
      match fuel with
      | O => None
      | S fuel =>
          '(p, r) ← process_ready (S next_expected) ready p;
          match r with
          | Err e => Some ((delete next_expected reorder, next_expected), p, Err e)
          | Ok _ => drain_ready fuel (delete next_expected reorder, S next_expected) p
          end
      end
  end.

Definition receive (scan : TargetScan) (ro : Reorder) (p : Pipe)
    : option (Reorder * Pipe * Result RastreoError unit) :=
  let reorder := <[ts_target_index scan := scan]> ro.1 in
  drain_ready (size reorder) (reorder, ro.2) p.

(** The [select!] loop: the scans in the order the channel yields them. *)
Fixpoint receive_all (scans : list TargetScan) (ro : Reorder) (p : Pipe)
    : option (Reorder * Pipe * Result RastreoError unit) :=
  match scans with
  | [] => Some (ro, p, Ok tt)
  | scan :: rest =>
      '(ro, p, r) ← receive scan ro p;
      match r with
      | Err e => Some (ro, p, Err e)
      | Ok _ => receive_all rest ro p
      end
  end.

(** A [BTreeMap] yields its values in the order of the keys. *)
Definition straggler_le (a b : nat * TargetScan) : Prop := a.1 ≤ b.1.
#[global] Instance straggler_le_dec a b : Decision (straggler_le a b).
Proof. unfold straggler_le. apply _. Defined.

Definition stragglers (reorder : gmap nat TargetScan) : list TargetScan :=
  (merge_sort straggler_le (map_to_list reorder)).*2.

Fixpoint drain_stragglers (scans : list TargetScan) (p : Pipe)
    : option (Pipe * Result RastreoError unit) :=
  match scans with
  | [] => Some (p, Ok tt)
  | ready :: rest =>
      '(p, r) ← absorb_target ready p;
      match r with
      | Err e => Some (p, Err e)
      | Ok _ =>
          drain_stragglers rest (publish (upd_completed (S (pi_targets_completed p)) p))
      end
  end.

(** The tail of the fuser, then the links and the profiles. *)
Definition finish_block (p : Pipe) : option (Pipe * Result RastreoError unit) :=
  tail ← finish (pi_fuser p);
  match tail with
  | Err e => Some (p, Err e)
  | Ok (fuser, tail) =>
      let '(p, r) := settle_and_emit tail (upd_fuser fuser p) in
      match r with
      | Err e => Some (p, Err e)
      | Ok _ =>
          links ← topology_finish (pi_assembler p);
          let p := emit_all RkLink encode_link links p in
          let p := emit_all RkCollectionProfile encode_profile (profiles_finish (pi_profiles p)) p in
          Some (publish p, Ok tt)
      end
  end.

(** [acc.cancelled], read off the cancel flag when the scan ends. *)
Definition latch_cancelled (cancelled : bool) (p : Pipe) : Pipe :=
  let '(acc, best_key) := pi_metrics p in
  upd_metrics (mkScanAccumulation (ac_probe_attempts acc) (ac_error_counts acc)
    (ac_first_probe_error acc) (ac_attempts_by_kind acc) (ac_errors_by_kind acc) cancelled,
    best_key) p.

(** The [async] block whose error is [halted_err], with [next_expected] at its end. *)
Definition stream_block (scans : list TargetScan) (cancelled : bool) (p : Pipe)
    : option (nat * Pipe * Result RastreoError unit) :=
  '(ro, p, r) ← receive_all scans (∅, 0) p;
  match r with
  | Err e => Some (ro.2, p, Err e)
  | Ok _ =>
      '(p, r) ← drain_stragglers (stragglers ro.1) (latch_cancelled cancelled p);
      match r with
      | Err e => Some (ro.2, p, Err e)
      | Ok _ => '(p, r) ← finish_block p; Some (ro.2, p, r)
      end
  end.

Definition finalize_checkpoint (writer : option CheckpointWriter) (cancelled : bool)
    (next_expected : nat) (w : W) : W * Result RastreoError unit :=
  match writer with
  | None => (w, Ok tt)
  | Some writer =>
      if cancelled then
        if next_expected =? 0 then (w, Ok tt)
        else let '(w, r) := write_at (record_index (Z.of_nat next_expected) writer) writer w in
             (w, map_err EResume r)
      else let '(w, r) := writer_delete writer w in (w, map_err EResume r)
  end.

Definition pipe_init (fuser : AnyFuser) (checkpoint : option CheckpointWriter)
    (progress : option DiscoveryProgress) (w : W) : Pipe :=
  mkPipe fuser (topology_new scan_metadata) (profiles_new scan_metadata)
    (accumulation_default, None) 0 0 0 0 None checkpoint progress w.

(** [stream_discovery] over the scans a run of the scheduler sent; [cancelled] is the
    cancel flag when the scan ended. *)
Definition stream_discovery (fuser : AnyFuser) (checkpoint : option CheckpointWriter)
    (progress : option DiscoveryProgress) (scans : list TargetScan) (cancelled : bool) (w : W)
    : option (Pipe * Result RastreoError DiscoverySummary) :=
  let sink_type := h_kind sink w in
  '(next_expected, p, halted) ← stream_block scans cancelled (pipe_init fuser checkpoint progress w);
  let '(w, closed) := h_close sink (pi_world p) in
  let p := upd_world w p in
  let acc := (pi_metrics p).1 in
  let clean := is_ok halted && bool_decide (pi_emit_err p = None) && is_ok closed in
  let '(w, finalized) :=
    if clean then finalize_checkpoint (pi_checkpoint p) (ac_cancelled acc) next_expected (pi_world p)
    else (pi_world p, Ok tt) in
  let p := upd_world w p in
  let by_type := h_dlq_records_by_type_and_class sink w in
  Some (p,
    match halted, pi_emit_err p, closed, finalized with
    | Err e, _, _, _ => Err e
    | Ok _, Some e, _, _ => Err e
    | Ok _, None, Err e, _ => Err e
    | Ok _, None, Ok _, Err e => Err e
    | Ok _, None, Ok _, Ok _ => Ok {|
        ds_targets_resolved := targets_resolved;
        ds_probe_attempts := ac_probe_attempts acc;
        ds_records_emitted := pi_records_emitted p;
        ds_links_emitted := pi_links_emitted p;
        ds_profiles_emitted := pi_profiles_emitted p;
        ds_unresolvable_targets := [];
        ds_error_counts := ac_error_counts acc;
        ds_probes_by_kind := build_probes_by_kind (ac_attempts_by_kind acc) (ac_errors_by_kind acc);
        ds_dlq_records := foldl (λ sum e, saturating_add U64_MAX sum e.2) 0%Z by_type;
        ds_dlq_records_by_type_and_class := by_type;
        ds_sink_type := Some sink_type;
        ds_cancelled := ac_cancelled acc;
        ds_first_probe_error := ac_first_probe_error acc;
        ds_elapsed := elapsed w |}
    end).
End pipeline.
