(* ===== verification/PipelineFacts.v ===== *)
(** * The reorder buffer

    Receiving the targets of a prefix of the stream in any order is processing them
    one after the other in target order. *)

From S2P Require Import Prelude Net Resolver F64 Model FuserCore UnionFind Identity IdentityFacts.
From S2P Require Import CorrelateFacts IdentityTheorems Fuser Topology Classifier Sink Tee Kafka.
From S2P Require Import Nats Scheduler CollectionProfile Encoder GnmiPath SinkConfig ProberConfig.
From S2P Require Import Config Checkpoint Pipeline.

#[local] Open Scope nat_scope.

Section reorder.
Context `{NL : IpNetLib, UC : UnicodeCase, FD : F64Display, FE : ForeignErrors, MS : MibSource,
  HO : HashOrder}.
Context {RL : RegexLib} {IE : IoErrors} {ED : ErrorDisplay}.
Context {W : Type} {FS : FsLib W} {SC : ScanCodec} {SS : SinkStore W} {EL : Elapsed W}
  {EN : Encoder W}.
Context (sink : Handle) (classifier : AnyClassifier) (scan_metadata : ScanMetadata).
Context (prober_kinds : list ProbeKind) (targets_resolved resume_base : Z).

#[local] Abbreviation ready_step :=
  (process_ready sink classifier scan_metadata prober_kinds targets_resolved resume_base).
#[local] Abbreviation drain :=
  (drain_ready sink classifier scan_metadata prober_kinds targets_resolved resume_base).
#[local] Abbreviation recv_all :=
  (receive_all sink classifier scan_metadata prober_kinds targets_resolved resume_base).
#[local] Abbreviation Pipe' := (@Pipe NL FE W).

(** The reference: the targets one after the other, [next] being the first. *)
Fixpoint process_seq (next : nat) (targets : list TargetScan) (p : Pipe')
    : option (nat * Pipe' * Result RastreoError unit) :=
  match targets with
  | [] => Some (next, p, Ok tt)
  | x :: rest =>
      '(p, r) ← ready_step (S next) x p;
      match r with
      | Err e => Some (next, p, Err e)
      | Ok _ => process_seq (S next) rest p
      end
  end.

Lemma process_seq_app next l k p :
  process_seq next (l ++ k) p =
  '(next, p, r) ← process_seq next l p;
  match r with
  | Err e => Some (next, p, Err e)
  | Ok _ => process_seq next k p
  end.
Proof using Type.
  revert next p. induction l as [|x l IH]; intros next p; [done|]. simpl.
  destruct (ready_step (S next) x p) as [[p' [[]|e]]|]; simpl; [apply IH|done|done].
Qed.

Lemma process_seq_next next l p next' p' :
  process_seq next l p = Some (next', p', Ok tt) → next' = next + length l.
Proof using Type.
  revert next p. induction l as [|x l IH]; intros next p; simpl.
  { intros [= <- _]. lia. }
  destruct (ready_step (S next) x p) as [[q [[]|e]]|]; simpl; [|done|done].
  intros ->%IH. lia.
Qed.

(** The targets in stream order. *)
Context (L : list TargetScan).

(** What a loop that emits the targets of [l] from [next] on returns: as the
    reference, with the buffer it leaves behind on success. *)
Definition simulates (next : nat) (l : list TargetScan) (p : Pipe')
    (ok : gmap nat TargetScan → Prop) (r : option (gmap nat TargetScan * nat * Pipe' * Result RastreoError unit))
    : Prop :=
  match process_seq next l p with
  | None => r = None
  | Some (n, p', Err e) => ∃ R, r = Some (R, n, p', Err e)
  | Some (n, p', Ok _) => ∃ R, r = Some (R, n, p', Ok tt) ∧ ok R
  end.

Definition buffer_of (R : gmap nat TargetScan) (next : nat) : Prop :=
  ∀ k x, R !! k = Some x → L !! k = Some x ∧ next ≤ k.

(** Draining emits the run of consecutive targets the buffer holds. *)
Lemma drain_run (fuel : nat) (R : gmap nat TargetScan) (next : nat) (p : Pipe') :
  buffer_of R next → size R ≤ fuel →
  ∃ j, next + j ≤ Nat.max next (length L) ∧ (∀ k, next ≤ k < next + j → k ∈ dom R) ∧
    simulates next (take j (drop next L)) p
      (λ R', R' !! (next + j) = None ∧ ∀ k, R' !! k = if decide (next + j ≤ k) then R !! k else None)
      (drain fuel (R, next) p).
Proof using Type.
  revert R next p. induction fuel as [|fuel IH]; intros R next p HR Hsize.
  { assert (R = ∅) as -> by (apply map_size_empty_iff; lia). exists 0. split; [lia|]. split; [lia|].
    unfold simulates. simpl. rewrite lookup_empty. exists ∅. split; [done|].
    split; [done|]. intros k. by case_decide. }
  simpl. destruct (R !! next) as [x|] eqn:Hx.
  2:{ exists 0. split; [lia|]. split; [lia|]. unfold simulates. simpl. exists R. split; [done|].
      rewrite Nat.add_0_r. split; [done|]. intros k. case_decide as Hk; [done|].
      apply eq_None_not_Some. intros [y Hy]. apply HR in Hy as [_ ?]. lia. }
  pose proof (HR _ _ Hx) as [HL _]. pose proof (lookup_lt_Some _ _ _ HL) as Hlt.
  destruct (ready_step (S next) x p) as [[p1 [[]|e]]|] eqn:Hstep; simpl.
  - destruct (IH (delete next R) (S next) p1) as (j & Hj & Hdom & Hsim).
    { intros k y [Hne Hy]%lookup_delete_Some. apply HR in Hy as [? ?]. split; [done|lia]. }
    { rewrite map_size_delete, Hx. lia. }
    exists (S j). split; [lia|]. split.
    { intros k Hk. destruct (decide (k = next)) as [->|]; [apply elem_of_dom; eauto|].
      assert (k ∈ dom (delete next R)) as Hin by (apply Hdom; lia).
      rewrite dom_delete_L in Hin. set_solver. }
    unfold simulates in *. rewrite (drop_S _ x) by done. simpl. rewrite Hstep. simpl.
    destruct (process_seq (S next) (take j (drop (S next) L)) p1) as [[[n p2] [[]|e]]|]; [|done|done].
    destruct Hsim as (R' & -> & Hnone & HR'). rewrite Nat.add_succ_r. exists R'. split; [done|].
    split; [done|]. intros k. rewrite HR'. simpl. case_decide; [|done]. by rewrite lookup_delete_ne by lia.
  - exists 1. split; [lia|]. split.
    { intros k Hk. assert (k = next) as -> by lia. apply elem_of_dom. eauto. }
    unfold simulates. rewrite (drop_S _ x) by done. simpl. rewrite Hstep. simpl. eauto.
  - exists 1. split; [lia|]. split.
    { intros k Hk. assert (k = next) as -> by lia. apply elem_of_dom. eauto. }
    unfold simulates. rewrite (drop_S _ x) by done. simpl. by rewrite Hstep.
Qed.

(** Receiving what is left of the stream, in any order. *)
Lemma receive_run (scans : list TargetScan) (R : gmap nat TargetScan) (next : nat) (p : Pipe') :
  buffer_of R next → R !! next = None → next ≤ length L →
  NoDup (ts_target_index <$> scans) →
  (∀ x, x ∈ scans → L !! ts_target_index x = Some x ∧ next ≤ ts_target_index x ∧
     R !! ts_target_index x = None) →
  (∀ k, next ≤ k < length L → k ∈ dom R ∨ k ∈ ts_target_index <$> scans) →
  simulates next (drop next L) p (λ R', R' = ∅) (recv_all scans (R, next) p).
Proof using Type.
  revert R next p. induction scans as [|x scans IH]; intros R next p HR Hnone Hle Hnd Hscans Hcover.
  { assert (next = length L) as ->.
    { destruct (decide (next = length L)); [done|]. destruct (Hcover next) as [Hin|Hin]; [lia| |].
      - apply elem_of_dom in Hin as [? ?]. congruence.
      - by apply elem_of_nil in Hin. }
    rewrite drop_all. unfold simulates. simpl. exists R. split; [done|].
    apply map_empty. intros k. apply eq_None_not_Some. intros [y Hy].
    apply HR in Hy as [Hy ?]. apply lookup_lt_Some in Hy. lia. }
  apply NoDup_cons in Hnd as [Hfresh Hnd]. destruct (Hscans x ltac:(by left)) as (Hx & Hxn & HxR).
  simpl recv_all. unfold receive. simpl fst. simpl snd.
  set (R1 := <[ts_target_index x := x]> R).
  destruct (drain_run (size R1) R1 next p) as (j & Hj & Hdom & Hsim); [|done|].
  { intros k y. unfold R1. rewrite lookup_insert_Some. intros [[<- <-] | [_ Hy]]; [done|by apply HR]. }
  assert (process_seq next (drop next L) p =
    '(n, p, r) ← process_seq next (take j (drop next L)) p;
    match r with Err e => Some (n, p, Err e) | Ok _ => process_seq n (drop j (drop next L)) p end) as Happ.
  { rewrite <-process_seq_app. by rewrite take_drop. }
  unfold simulates in Hsim |- *. rewrite Happ. clear Happ.
  destruct (process_seq next (take j (drop next L)) p) as [[[n p'] [[]|e]]|] eqn:Hseq; simpl.
  - destruct Hsim as (R' & -> & Hnone' & HR'). simpl.
    apply process_seq_next in Hseq as ->. rewrite length_take, length_drop in *.
    assert (next + Nat.min j (length L - next) = next + j) as -> by lia.
    rewrite drop_drop. apply IH; try done; [|lia| |].
    + intros k y Hy. rewrite HR' in Hy. case_decide as Hk; [|done]. split; [|done].
      unfold R1 in Hy. rewrite lookup_insert_Some in Hy. destruct Hy as [[<- <-] | [_ Hy]]; [done|by apply HR].
    + intros y Hy. destruct (Hscans y ltac:(by right)) as (HyL & Hyn & HyR).
      assert (ts_target_index x ≠ ts_target_index y) as Hne.
      { intros Heq. apply Hfresh. rewrite Heq. apply list_elem_of_fmap. eauto. }
      assert (R1 !! ts_target_index y = None) as Hy1 by (unfold R1; by rewrite lookup_insert_ne).
      split_and!; [done| |].
      * destruct (decide (next + j ≤ ts_target_index y)); [done|].
        assert (ts_target_index y ∈ dom R1) as Hin by (apply Hdom; lia).
        apply elem_of_dom in Hin as [? ?]. congruence.
      * rewrite HR'. by case_decide.
    + intros k Hk. destruct (Hcover k ltac:(lia)) as [Hin | Hin].
      * left. apply elem_of_dom in Hin as [y Hy]. apply elem_of_dom. exists y. rewrite HR'.
        rewrite decide_True by lia. unfold R1. rewrite lookup_insert_ne; [done|]. congruence.
      * rewrite fmap_cons in Hin. apply elem_of_cons in Hin as [->|Hin]; [|by right].
        left. apply elem_of_dom. exists x. rewrite HR', decide_True by lia. unfold R1.
        by rewrite lookup_insert_eq.
  - destruct Hsim as [R' ->]. simpl. eauto.
  - by rewrite Hsim.
Qed.
End reorder.

(** Probers that answer a target the same way each time. *)
Definition answers `{NL : IpNetLib, FE : ForeignErrors} {Prober ProbeCtx : Type}
    (answer : Prober → ResolvedTarget → ProbeCtx → Result RastreoError ProbeOutcome)
    (pr : Prober) (tg : ResolvedTarget) (c : ProbeCtx) (r : Result RastreoError ProbeOutcome) : Prop :=
  r = answer pr tg c.

(** * A small world to run the pipeline in

    A disk, one sink that buffers until it is flushed, an encoder that writes a
    record's last address byte, and scripted schedules of a scan. The witnesses of the
    pipeline's theorems are evaluated in it. *)

#[local] Open Scope nat_scope.

(** ** The world *)

Record Disk : Type := mkDisk {
  dk_files : gmap Str Bytes;
  dk_buffered : list (RecordKind * Bytes);
  dk_durable : list (RecordKind * Bytes);
}.

Definition disk_empty : Disk := mkDisk ∅ [] [].

Definition disk_flush (w : Disk) : Disk :=
  mkDisk (dk_files w) [] (dk_durable w ++ dk_buffered w).

Definition disk_errors : @IoErrors sample_errors :=
  @Build_IoErrors sample_errors (λ k _, match k with NotFound => 2 | _ => 1 end)
    (λ e, if e =? 2 then NotFound else OtherIo) (λ _, []).

Definition disk_store : @SinkStore Disk sample_errors :=
  @Build_SinkStore Disk sample_errors unit
    (λ _ b w, (mkDisk (dk_files w) (dk_buffered w ++ [(RkDevice, b)]) (dk_durable w), Ok tt))
    (λ _ k b w, (mkDisk (dk_files w) (dk_buffered w ++ [(k, b)]) (dk_durable w), Ok tt))
    (λ _ w, (disk_flush w, Ok tt))
    (λ _ w, (disk_flush w, Ok tt))
    (λ _ _, true) (λ _ _, StFile) (λ _ _, false) (λ _ _, [StFile]) (λ _ _ _, 0%Z) (λ _ _, [])
    (λ _ w, (w, Ok tt)).

Definition disk_fs : @FsLib Disk sample_errors :=
  @Build_FsLib Disk sample_errors
    (λ p b w, (mkDisk (<[p := b]> (dk_files w)) (dk_buffered w) (dk_durable w), Ok tt))
    (λ a b w, match dk_files w !! a with
              | None => (w, Err (2 : @IoError sample_errors))
              | Some bs => (mkDisk (<[b := bs]> (delete a (dk_files w))) (dk_buffered w) (dk_durable w), Ok tt)
              end)
    (λ p w, match dk_files w !! p with
            | None => (w, Err (2 : @IoError sample_errors))
            | Some _ => (mkDisk (delete p (dk_files w)) (dk_buffered w) (dk_durable w), Ok tt)
            end)
    (λ p w, match dk_files w !! p with Some b => Ok b | None => Err (2 : @IoError sample_errors) end)
    (λ p w, bool_decide (is_Some (dk_files w !! p))).

(** A codec that keeps the recorded index. *)
Definition index_codec : @ScanCodec sample_ipnet sample_errors :=
  @Build_ScanCodec sample_ipnet sample_errors
    (λ c, [ck_highest_flushed_index c])
    (λ b, match b with
          | [i] => Ok (mkCheckpoint CHECKPOINT_VERSION [] 0%Z [] None [] i)
          | _ => Err (1 : @JsonError sample_errors)
          end)
    (λ _, []) (λ _, []) id.

Definition ip_value (ip : IpAddr) : Z := match ip with V4 n => n | V6 n => n end.

Definition address_encoder : @Encoder Disk sample_errors :=
  @Build_Encoder Disk sample_errors
    (λ r w, (w, Ok (match dr_mgmt_ip r with Some ip => [ip_value ip] | None => [] end)))
    (λ _ w, (w, Ok [])) (λ _ w, (w, Ok [])).

Definition no_regex : @RegexLib sample_errors :=
  @Build_RegexLib sample_errors unit (λ _, Ok tt) (λ _, []) (λ _ _, None) (λ _ _, false).

Definition no_mib : MibSource := Build_MibSource [] (λ _, Ok []).
Definition silent_errors : @ErrorDisplay sample_errors := λ _, [].
Definition no_clock : Elapsed Disk := λ _, 0%Z.
Definition plain_display : F64Display := λ _, [].

(** ** Scripted schedules *)

Section script.
Context `{NL : IpNetLib, FE : ForeignErrors} {Prober ProbeCtx : Type}.
Context (answer : Prober → ResolvedTarget → ProbeCtx → Result RastreoError ProbeOutcome).
Context (probers : list Prober) (ctx : ProbeCtx).

Inductive Choice : Type :=
  | Prime (fresh : positive)
  | Join (id fresh : positive)
  | Send
  | Drain.

Definition choose (c : Choice) (s : @Scan NL FE Prober) : option (@Scan NL FE Prober) :=
  match c, sc_phase s with
  | Prime fresh, Priming remaining =>
      match sc_set s !! fresh with None => prime probers remaining fresh s | Some _ => None end
  | Join id fresh, Joining =>
      match sc_set s !! id, delete id (sc_set s) !! fresh with
      | Some task, None =>
          join_body probers id (JoinOk (answer (tk_prober task) (tk_target task) ctx)) fresh s
      | _, _ => None
      end
  | Send, Sending scan =>
      if sc_receiver s then Some (set_phase Joining (set_sent (sc_sent s ++ [scan]) s)) else None
  | Drain, Joining => if size (sc_set s) =? 0 then Some (set_phase Finished s) else None
  | _, _ => None
  end.

Fixpoint script (cs : list Choice) (s : @Scan NL FE Prober) : option (@Scan NL FE Prober) :=
  match cs with
  | [] => Some s
  | c :: rest => s ← choose c s; script rest s
  end.

Lemma choose_step c s s' : choose c s = Some s' → scan_step (answers answer) probers ctx s s'.
Proof.
  unfold choose. destruct c as [fresh|id fresh| |], (sc_phase s) as [n| |scan|] eqn:Hph; try done.
  - destruct (sc_set s !! fresh) eqn:Hf; [done|]. intros H. by eapply step_prime.
  - destruct (sc_set s !! id) as [task|] eqn:Ht; [|done].
    destruct (delete id (sc_set s) !! fresh) eqn:Hf; [done|]. intros H.
    by apply (step_join _ _ _ s id task (JoinOk (answer (tk_prober task) (tk_target task) ctx)) fresh).
  - destruct (sc_receiver s) eqn:Hr; [|done]. intros [= <-]. by apply step_send.
  - destruct (Nat.eqb_spec (size (sc_set s)) 0); [|done]. intros [= <-].
    by apply step_drained, map_size_empty_iff.
Qed.

Lemma script_run cs s s' : script cs s = Some s' → rtc (scan_step (answers answer) probers ctx) s s'.
Proof.
  revert s. induction cs as [|c cs IH]; intros s; simpl; [by intros [= ->]|].
  destruct (choose c s) as [s1|] eqn:Hc; simpl; [|done]. intros H.
  eapply rtc_l; [by eapply choose_step|by apply IH].
Qed.
End script.

(** ** A scan of two targets that both answer *)

Definition sample_hosts : list (@ResolvedTarget sample_ipnet) :=
  [mkResolvedTarget (V4 10) (TIp (V4 10)) 0; mkResolvedTarget (V4 20) (TIp (V4 20)) 0].

Definition heard (ip : IpAddr) : ProbeOutcome := mkProbeOutcome Icmp ip 0 true [] None None None.

Definition echo (_ : unit) (t : @ResolvedTarget sample_ipnet) (_ : unit)
    : Result (@RastreoError sample_errors) ProbeOutcome := Ok (heard (rt_ip t)).

(** One probe at a time, and both at once with the second target answering first. *)
Definition one_by_one : list Choice :=
  [Prime 1; Prime 2; Join 1 1; Send; Join 1 1; Send; Drain]%positive.
Definition second_first : list Choice :=
  [Prime 1; Prime 2; Prime 3; Join 2 2; Send; Join 1 1; Send; Drain]%positive.

Definition sample_scan (cap : nat) (cs : list Choice) : option (@Scan sample_ipnet sample_errors unit) :=
  script echo [tt] tt cs (run_scan (bounded_new cap) [tt] sample_hosts false).

Definition sample_writer : @CheckpointWriter sample_ipnet :=
  mkCheckpointWriter (s! "scan.ckpt") 1 [] 0 [] None [] 0 0.
