(* ===== verification/CheckpointTheorems.v ===== *)
(** * Checkpoints survive failed writes and are only resumed by the scan that wrote them *)

From S2P Require Import Prelude Net F64 Model FuserCore UnionFind Identity IdentityFacts.
From S2P Require Import CorrelateFacts IdentityTheorems Fuser Classifier.
From S2P Require Import Resolver Sink Tee Kafka Nats SinkConfig GnmiPath ProberConfig Config Checkpoint.
From S2P Require Import Codec CollectionProfile Encoder Scheduler Pipeline PipelineFacts.

(** ** Encodings of the fingerprint are injective *)

(** [lia] with quotients and remainders. *)
Ltac dlia := Z.to_euclidean_division_equations; lia.

Lemma le_bytes_length x : length (le_bytes x) = 8%nat.
Proof. done. Qed.

Lemma le_bytes_inj x y :
  0 ≤ x < 2 ^ 64 → 0 ≤ y < 2 ^ 64 → le_bytes x = le_bytes y → x = y.
Proof.
  intros Hx Hy Heq. apply Z.bits_inj'. intros n Hn.
  destruct (Z.ltb_spec n 64).
  2:{ rewrite <-(Z.mod_small x (2 ^ 64)), <-(Z.mod_small y (2 ^ 64)) by done.
      by rewrite !Z.mod_pow2_bits_high by lia. }
  assert (∀ z, default 0 (le_bytes z !! Z.to_nat (n / 8)) = Z.land (Z.shiftr z (8 * (n / 8))) 255) as Hl.
  { intros z. unfold le_bytes. rewrite list_lookup_fmap, lookup_seq_lt by dlia.
    simpl. f_equal. f_equal. dlia. }
  assert (∀ z, Z.testbit z n = Z.testbit (default 0 (le_bytes z !! Z.to_nat (n / 8))) (n mod 8)) as Hb.
  { intros z. rewrite Hl, Z.land_spec, Z.shiftr_spec by dlia.
    assert (Z.testbit 255 (n mod 8) = true) as ->.
    { change 255 with (Z.ones 8). apply Z.ones_spec_low. dlia. }
    rewrite andb_true_r. f_equal. dlia. }
  by rewrite !Hb, Heq.
Qed.

Lemma digit_char_inj a b :
  0 ≤ a < 16 → 0 ≤ b < 16 → digit_char a = digit_char b → a = b.
Proof. unfold digit_char. intros ??. repeat case_match; lia. Qed.

Lemma hex_lower_inj a b :
  Forall (λ x, 0 ≤ x < 256) a → Forall (λ x, 0 ≤ x < 256) b → hex_lower a = hex_lower b → a = b.
Proof.
  intros Ha. revert b. induction Ha as [|x a Hx Ha IH]; intros b Hb.
  { destruct b; done. }
  destruct Hb as [|y b Hy Hb]; [done|]. unfold hex_lower. simpl. intros [= H1 H2 H3].
  f_equal; [|by apply IH].
  apply digit_char_inj in H1; [|rewrite !Z.shiftr_div_pow2 by lia; simpl; dlia..].
  change 15 with (Z.ones 4) in H2. rewrite !Z.land_ones in H2 by lia.
  apply digit_char_inj in H2; [|simpl; dlia..].
  rewrite !Z.shiftr_div_pow2 in H1 by lia. simpl in H1, H2. dlia.
Qed.

(** ** Destinations *)

(** Where the records of a scan go: a file, a topic of some brokers, a subject and stream of some servers. *)
Inductive Destination : Type :=
  | ToNothing
  | ToStdout
  | ToMemory
  | ToFile (path : Str)
  | ToTopic (brokers : list Str) (topic : Str)
  | ToSubject (servers : list Str) (subject stream : Str).

Definition destination_of (sink : option SinkConfig) : Destination :=
  match sink with
  | None => ToNothing
  | Some CfgStdout => ToStdout
  | Some CfgMemory => ToMemory
  | Some (CfgFile path) => ToFile path
  | Some (CfgKafka brokers topic _ _ _ _ _ _ _) => ToTopic brokers topic
  | Some (CfgNats servers subject stream _ _ _ _ _ _) => ToSubject servers subject stream
  end.

(** A list of hosts that a comma separates, and names that a colon ends. *)
Definition hosts_plain (hosts : list Str) : Prop :=
  hosts ≠ [] ∧ Forall (λ h, 44 ∉ h ∧ Forall scalar h) hosts.
Definition name_plain (name : Str) : Prop := 58 ∉ name ∧ Forall scalar name.

(** The destinations whose description says which they are. *)
Definition plain (d : Destination) : Prop :=
  match d with
  | ToNothing | ToStdout | ToMemory => True
  | ToFile path => Forall scalar path
  | ToTopic brokers topic => hosts_plain brokers ∧ name_plain topic
  | ToSubject servers subject stream => hosts_plain servers ∧ name_plain subject ∧ name_plain stream
  end.

Lemma split_on_lone c (name : Str) : c ∉ name → split_on c name = [name].
Proof.
  intros Hn. induction name as [|x name IH]; [done|]. rewrite not_elem_of_cons in Hn. destruct Hn as [Hc Hn].
  rewrite split_on_cons, IH by done. by destruct (Z.eqb_spec x c).
Qed.

(** What is before the last colon, and what is after it. *)
Lemma colon_split (a b t u : Str) : 58 ∉ t → 58 ∉ u → a ++ s! ":" ++ t = b ++ s! ":" ++ u → a = b ∧ t = u.
Proof.
  intros Ht Hu E.
  assert (t = u) as ->.
  { apply (f_equal (λ x, last (split_on 58 x))) in E. change (s! ":" ++ ?r) with (58 :: r) in E.
    rewrite !split_on_app_sep, (split_on_lone _ t), (split_on_lone _ u), !last_snoc in E by done. by injection E. }
  split; [|done]. by apply app_inv_tail in E.
Qed.

Lemma join_hosts_inj (hosts hosts' : list Str) : hosts_plain hosts → hosts_plain hosts' →
  join (s! ",") hosts = join (s! ",") hosts' → hosts = hosts'.
Proof.
  assert (∀ hs, hosts_plain hs → split_on 44 (join (s! ",") hs) = hs) as H.
  { intros hs [Hne Hc]. induction Hc as [|h hs [Hh _] Hc IH]; [done|].
    destruct hs as [|h' hs]; [by apply split_on_lone|].
    change (join (s! ",") (h :: h' :: hs)) with (h ++ 44 :: join (s! ",") (h' :: hs)).
    rewrite split_on_app_sep, IH, split_on_lone by done. done. }
  intros H1 H2 E. rewrite <-(H hosts), <-(H hosts') by done. by rewrite E.
Qed.

Lemma join_scalar (hosts : list Str) : hosts_plain hosts → Forall scalar (join (s! ",") hosts).
Proof.
  intros [_ Hc]. induction Hc as [|h hs [_ Hh] Hc IH]; [constructor|].
  destruct hs as [|h' hs]; [done|]. change (join (s! ",") (h :: h' :: hs)) with (h ++ 44 :: join (s! ",") (h' :: hs)).
  apply Forall_app. split; [done|]. constructor; [unfold scalar; lia|done].
Qed.

Lemma literal_scalar (l s : Str) : bool_decide (Forall scalar l) = true → Forall scalar s → Forall scalar (l ++ s).
Proof. intros Hl%bool_decide_eq_true_1 Hs. by apply Forall_app. Qed.

Lemma descriptor_scalar sink : plain (destination_of sink) → Forall scalar (sink_destination_descriptor sink).
Proof.
  destruct sink as [[|path| |brokers topic ? ? ? ? ? ? ?|servers subject stream ? ? ? ? ? ?]|];
    cbn [destination_of plain sink_destination_descriptor].
  1,3,6: intros _; apply (bool_decide_unpack _); by vm_compute.
  - intros Hp. by apply literal_scalar; [vm_compute|].
  - intros [Hb [_ Ht]]. apply literal_scalar; [by vm_compute|]. apply Forall_app. split; [by apply join_scalar|].
    by apply literal_scalar; [vm_compute|].
  - intros (Hb & [_ Hsu] & [_ Hst]). apply literal_scalar; [by vm_compute|]. apply Forall_app.
    split; [by apply join_scalar|]. apply literal_scalar; [by vm_compute|]. apply Forall_app. split; [done|].
    by apply literal_scalar; [vm_compute|].
Qed.

(** The descriptions of plain destinations tell them apart, and nothing else. *)
Lemma descriptor_destination a b : plain (destination_of a) → plain (destination_of b) →
  as_bytes (sink_destination_descriptor a) = as_bytes (sink_destination_descriptor b) ↔
  destination_of a = destination_of b.
Proof.
  intros Ha Hb. split.
  - intros E. apply (f_equal from_utf8) in E. rewrite !from_utf8_as_bytes in E by by apply descriptor_scalar.
    injection E as E. revert E.
    destruct a as [[|path| |brokers topic ? ? ? ? ? ? ?|servers subject stream ? ? ? ? ? ?]|],
      b as [[|path'| |brokers' topic' ? ? ? ? ? ? ?|servers' subject' stream' ? ? ? ? ? ?]|];
      cbn [destination_of plain sink_destination_descriptor] in *; try done.
    + intros E%app_inv_head. by subst.
    + destruct Ha as [Hb1 [Ht1 _]], Hb as [Hb2 [Ht2 _]]. intros E%app_inv_head.
      apply colon_split in E as [E ->]; [|done..]. by apply join_hosts_inj in E as ->.
    + destruct Ha as (Hb1 & [Hs1 _] & [Ht1 _]), Hb as (Hb2 & [Hs2 _] & [Ht2 _]). intros E%app_inv_head.
      assert ((join (s! ",") servers ++ s! ":" ++ subject) ++ s! ":" ++ stream =
        (join (s! ",") servers' ++ s! ":" ++ subject') ++ s! ":" ++ stream') as E' by (by rewrite <-!app_assoc).
      clear E. apply colon_split in E' as [E ->]; [|done..].
      apply colon_split in E as [E ->]; [|done..]. by apply join_hosts_inj in E as ->.
  - destruct a as [[]|], b as [[]|]; cbn; intros [=]; by simplify_eq.
Qed.

Section fingerprint.
Context `{NL : IpNetLib} `{FE : ForeignErrors} {SC : ScanCodec}.

(** What a fingerprint stands for: the bytes of the targets and of the description of the
    destination. *)
Definition same_inputs (a b : DiscoverScenarioConfig) : Prop :=
  targets_to_vec (sc_targets a) = targets_to_vec (sc_targets b) ∧
  as_bytes (sink_destination_descriptor (bp_sink (sc_base a))) =
  as_bytes (sink_destination_descriptor (bp_sink (sc_base b))).

(** The same scan: the same targets, as they are serialised, to the same destination. *)
Definition same_work (a b : DiscoverScenarioConfig) : Prop :=
  targets_to_vec (sc_targets a) = targets_to_vec (sc_targets b) ∧
  destination_of (bp_sink (sc_base a)) = destination_of (bp_sink (sc_base b)).

Lemma same_inputs_work a b :
  plain (destination_of (bp_sink (sc_base a))) → plain (destination_of (bp_sink (sc_base b))) →
  same_inputs a b ↔ same_work a b.
Proof using Type. intros Ha Hb. unfold same_inputs, same_work. by rewrite descriptor_destination. Qed.

(** Lengths that fit a [u64]. *)
Definition hashable (a : DiscoverScenarioConfig) : Prop :=
  byte_len (targets_to_vec (sc_targets a)) < 2 ^ 64.

(** The length prefix makes the hashed bytes unambiguous. *)
Lemma fingerprint_input_inj a b :
  hashable a → hashable b → fingerprint_input a = fingerprint_input b → same_inputs a b.
Proof using Type.
  intros Ha Hb. unfold fingerprint_input, same_inputs, hashable, byte_len in *.
  set (ta := targets_to_vec (sc_targets a)) in *. set (tb := targets_to_vec (sc_targets b)) in *.
  intros Heq%app_inv_head.
  apply app_inj_1 in Heq as [Hl Heq]; [|by rewrite !le_bytes_length].
  apply le_bytes_inj in Hl; [|lia..].
  apply app_inj_1 in Heq as [Ht Heq]; [|lia]. split; [done|].
  apply app_inj_1 in Heq as [_ Heq]; [done|by rewrite !le_bytes_length].
Qed.

Lemma same_inputs_fingerprint a b : same_inputs a b → resume_fingerprint a = resume_fingerprint b.
Proof using Type.
  intros [Ht Hd]. unfold resume_fingerprint, fingerprint_input. by rewrite Ht, Hd.
Qed.
End fingerprint.

(** ** Scans that can be resumed *)

Inductive correlates : FuserConfig → Prop :=
  | correlates_here hints inner : correlates (CIdentity hints inner)
  | correlates_below path inner : correlates inner → correlates (CMibEnrichment path inner).

(** A scan whose records do not depend on each other, that has one stream, and whose sink keeps
    what an earlier run wrote. *)
Definition resumable `{NL : IpNetLib} (sc : DiscoverScenarioConfig) : Prop :=
  (∀ f, bp_fuser (sc_base sc) = Some f → ¬ correlates f) ∧
  (∀ p, p ∈ sc_probers sc →
     match p with CfgLldp _ _ _ _ _ | CfgGnmi _ _ _ _ _ _ => False | _ => True end) ∧
  match bp_sink (sc_base sc) with
  | Some (CfgFile _ | CfgKafka _ _ _ _ _ _ _ _ _ | CfgNats _ _ _ _ _ _ _ _ _) => True
  | Some CfgStdout | Some CfgMemory | None => False
  end.

Lemma correlates_subtree f : subtree_contains_identity f = true ↔ correlates f.
Proof.
  induction f as [|path inner IH|hints inner IH]; cbn.
  - split; [done|]. by inversion 1.
  - rewrite IH. split; [by constructor|]. by inversion 1.
  - split; [constructor|done].
Qed.

Lemma resume_eligibility_iff `{NL : IpNetLib} `{FE : ForeignErrors} (sc : DiscoverScenarioConfig) :
  resume_eligibility sc = Ok tt ↔ resumable sc.
Proof.
  unfold resume_eligibility, resumable, fuser_supports_resume.
  assert ((match bp_fuser (sc_base sc) with
           | Some fuser => if negb (negb (subtree_contains_identity fuser)) then Err IdentityFuserNotResumable else Ok tt
           | None => Ok tt end = Ok tt :> Result ResumeError unit) ↔
          ∀ f, bp_fuser (sc_base sc) = Some f → ¬ correlates f) as Hf.
  { destruct (bp_fuser (sc_base sc)) as [f|]; [|by split]. rewrite negb_involutive. setoid_rewrite <-correlates_subtree.
    destruct (subtree_contains_identity f) eqn:E; split; try done.
    - intros Hn. by destruct (Hn f).
    - intros _ f' [= <-]. by rewrite E. }
  rewrite <-Hf. clear Hf.
  destruct (match bp_fuser (sc_base sc) with Some _ => _ | None => _ end) as [[]|e]; cbn [mbind Result_bind];
    [|split; [done|by intros [? _]]].
  assert (find_map second_stream_kind (sc_probers sc) = None ↔
    ∀ p, p ∈ sc_probers sc → match p with CfgLldp _ _ _ _ _ | CfgGnmi _ _ _ _ _ _ => False | _ => True end) as Hp.
  { rewrite find_map_None, Forall_forall. split; intros H p Hin; specialize (H p Hin); by destruct p. }
  destruct (find_map second_stream_kind (sc_probers sc)) as [k|]; cbn [mbind Result_bind].
  { split; [done|]. intros (_ & H & _). by apply Hp in H. }
  destruct (bp_sink (sc_base sc)) as [[]|]; cbn [supports_resume]; split; try done; try (by intros (_ & _ & ?)); 
    intros _; (split; [done|]); (split; [by apply Hp|done]).
Qed.

(** ** The file system *)

(** Contents of the files a run can read back; a rename replaces its target at once. What can be
    read is there, and what is there may still not be readable: a directory, or another's file. *)
Class FsContract {W : Type} `{FE : ForeignErrors} (FS : FsLib W) (file : Str → W → option Bytes) := {
  read_spec : ∀ p w, result_ok (fs_read p w) = file p w;
  exists_spec : ∀ p w, is_Some (file p w) → fs_exists p w = true;
  fs_write_file : ∀ p b w w' r, fs_write p b w = (w', r) →
    (∀ q, q ≠ p → file q w' = file q w ∧ fs_exists q w' = fs_exists q w) ∧ (is_ok r = true → file p w' = Some b);
  fs_rename_file : ∀ a b w w' r, fs_rename a b w = (w', r) →
    match r with
    | Ok _ => file b w' = file a w ∧ ∀ q, q ≠ a → q ≠ b → file q w' = file q w
    | Err _ => ∀ q, file q w' = file q w ∧ fs_exists q w' = fs_exists q w
    end;
  fs_remove_file : ∀ p w w' r, fs_remove p w = (w', r) →
    (∀ q, q ≠ p → file q w' = file q w) ∧
    match r with Ok _ => file p w' = None | Err _ => file p w' = file p w end;
}.

Section checkpoint.
Context `{NL : IpNetLib} `{FE : ForeignErrors} {IE : IoErrors} {W : Type} {FS : FsLib W}
  {SC : ScanCodec}.
Context (file : Str → W → option Bytes) {FSC : FsContract FS file}.

Lemma tmp_path_ne (q : Str) : tmp_path q ≠ q.
Proof using Type.
  intros H. apply (f_equal length) in H. unfold tmp_path in H. rewrite length_app in H. simpl in H. lia.
Qed.

(** An atomic write replaces the whole file or, on any failure, leaves it alone. *)
Lemma write_atomically_file (q : Str) b w w' r :
  write_atomically q b w = (w', r) →
  match r with
  | Ok _ => file q w' = Some b
  | Err _ => file q w' = file q w ∧ fs_exists q w' = fs_exists q w
  end.
Proof using FSC.
  unfold write_atomically. destruct (fs_write (tmp_path q) b w) as [w1 r1] eqn:H1.
  apply fs_write_file in H1 as (Hf1 & Hr1).
  destruct (Hf1 q (not_eq_sym (tmp_path_ne q))) as [Hq1 He1].
  destruct r1 as [[]|e]; [|by intros [= <- <-]].
  destruct (fs_rename (tmp_path q) q w1) as [w2 r2] eqn:H2.
  apply fs_rename_file in H2 as Hr2. intros [= <- <-]. destruct r2 as [[]|e]; simpl.
  - destruct Hr2 as [-> _]. by apply Hr1.
  - destruct (Hr2 q) as [-> ->]. done.
Qed.

Lemma write_at_file (i : Z) (cw : CheckpointWriter) w w' r :
  write_at i cw w = (w', r) →
  match r with
  | Ok _ => file (cw_path cw) w' = Some (checkpoint_to_vec (checkpoint_of i cw))
  | Err _ => file (cw_path cw) w' = file (cw_path cw) w ∧ fs_exists (cw_path cw) w' = fs_exists (cw_path cw) w
  end.
Proof using FSC.
  unfold write_at, checkpoint_write.
  destruct (write_atomically (cw_path cw) _ w) as [w1 r1] eqn:H1. apply write_atomically_file in H1.
  intros [= <- <-]. by destruct r1.
Qed.

Lemma load_file (path : Str) w w' :
  file path w = file path w' → checkpoint_load path w = checkpoint_load path w'.
Proof using FSC.
  unfold checkpoint_load. rewrite <-!read_spec.
  destruct (fs_read path w), (fs_read path w'); simpl; try done. by intros [= ->].
Qed.

Lemma load_decoded (path : Str) w c :
  file path w = Some (checkpoint_to_vec c) →
  checkpoint_from_slice (checkpoint_to_vec c) = Ok c → ck_checkpoint_version c = CHECKPOINT_VERSION →
  checkpoint_load path w = Ok c.
Proof using FSC.
  intros Hf Hc Hv. unfold checkpoint_load. rewrite <-read_spec in Hf.
  destruct (fs_read path w); simpl in *; [|done]. injection Hf as ->. rewrite Hc. simpl. by rewrite Hv.
Qed.

Lemma preflights_file scenario (path : Str) w w' :
  file path w = file path w' → fs_exists path w = fs_exists path w' →
  resume_preflight scenario path w = resume_preflight scenario path w' ∧
  checkpoint_preflight scenario path w = checkpoint_preflight scenario path w'.
Proof using FSC.
  intros Hf He. unfold resume_preflight, checkpoint_preflight.
  by rewrite He, (load_file path w w' Hf).
Qed.

(** C33. A checkpoint is resumed by the scan that wrote it and by no other. When a
    writer for [sc0] records an index, [resume_preflight] of any scenario accepts the
    file exactly when that scenario can be resumed (no identity correlation, no LLDP or gNMI
    prober, a file, Kafka or NATS sink) and has the same targets and the
    same destination, a file, a topic of the same brokers or a subject and stream of the
    same servers, and then returns what was recorded; and a fresh run on the
    same path is refused. When the write fails, at any step, the checks find exactly
    what they would have found before it. SHA-256 is assumed not to collide on the two
    inputs compared, and the codec to decode what it encoded. The destinations are those
    that the code's description tells apart: names without a colon, hosts without a comma;
    two others can be taken for each other, as [descriptor_ambiguous] shows. *)
Theorem resume_only_same_scan (sc0 sc : DiscoverScenarioConfig) config metadata pins i w w' r :
  let cw := writer_new config metadata (resume_fingerprint sc0) pins in
  let path := cc_path config in
  let c := mkCheckpoint CHECKPOINT_VERSION (sm_scan_id metadata) (sm_initiated_at metadata)
             (resume_fingerprint sc0) (sm_source_config_hash metadata) pins i in
  write_at i cw w = (w', r) →
  checkpoint_from_slice (checkpoint_to_vec c) = Ok c →
  hashable sc0 → hashable sc →
  plain (destination_of (bp_sink (sc_base sc0))) → plain (destination_of (bp_sink (sc_base sc))) →
  (∀ b, Forall (λ x, 0 ≤ x < 256) (sha256 b)) →
  (sha256 (fingerprint_input sc) = sha256 (fingerprint_input sc0) →
   fingerprint_input sc = fingerprint_input sc0) →
  match r with
  | Ok _ =>
      (∀ c', resume_preflight sc path w' = Ok c' ↔
         c' = c ∧ resumable sc ∧ same_work sc sc0) ∧
      (resumable sc → checkpoint_preflight sc path w' = Err (CheckpointExists path))
  | Err _ =>
      resume_preflight sc path w' = resume_preflight sc path w ∧
      checkpoint_preflight sc path w' = checkpoint_preflight sc path w
  end.
Proof using FSC.
  intros cw path c Hw Hcodec H0 H1 Hp0 Hp1 Hbytes Hcoll. apply write_at_file in Hw.
  change (cw_path cw) with path in Hw. destruct r as [[]|e]; [|by destruct Hw; apply preflights_file].
  pose proof (load_decoded path w' c Hw Hcodec eq_refl) as Hload.
  assert (fs_exists path w' = true) as Hex by (apply exists_spec; by rewrite Hw).
  setoid_rewrite <-resume_eligibility_iff.
  unfold resume_preflight, checkpoint_preflight. rewrite Hex, Hload. simpl. split.
  2:{ by intros ->. }
  intros c'. destruct (resume_eligibility sc) as [[]|e]; simpl; [|naive_solver].
  change (ck_resume_fingerprint c) with (resume_fingerprint sc0).
  case_bool_decide as Hfp.
  - assert (same_work sc sc0); [|naive_solver]. apply same_inputs_work; [done..|].
    apply fingerprint_input_inj; [done..|]. apply Hcoll. apply hex_lower_inj; [done..|].
    unfold resume_fingerprint in Hfp. by apply app_inv_head in Hfp.
  - split; [done|]. intros (_ & _ & Hs). by apply same_inputs_work, same_inputs_fingerprint in Hs.
Qed.
End checkpoint.

(** ** The disk of the samples *)

Definition disk_file (q : Str) (w : Disk) : option Bytes := dk_files w !! q.

Lemma disk_fs_contract : FsContract disk_fs disk_file.
Proof.
  split.
  - intros p w. simpl. unfold disk_file. by destruct (dk_files w !! p).
  - intros p w Hp. by apply bool_decide_eq_true_2.
  - intros p b w w' r [= <- <-]. unfold disk_file. simpl.
    split; [intros q Hq; by rewrite !lookup_insert_ne|by rewrite lookup_insert_eq].
  - intros a b w w' r. simpl. unfold disk_file. destruct (dk_files w !! a) as [bs|] eqn:Ha;
      intros [= <- <-]; simpl; [|done]. rewrite lookup_insert_eq.
    split; [done|]. intros q H1 H2. by rewrite lookup_insert_ne, lookup_delete_ne.
  - intros p w w' r. simpl. unfold disk_file. destruct (dk_files w !! p) as [bs|] eqn:Ha;
      intros [= <- <-]; simpl; [|done].
    split; [intros q Hq; by rewrite lookup_delete_ne|by rewrite lookup_delete_eq].
Qed.

(** A codec that decodes the checkpoints of one scan, and a hash of two hundred and
    fifty-six values a byte. *)
Definition resume_codec (fingerprint : Str) : @ScanCodec sample_ipnet sample_errors :=
  @Build_ScanCodec sample_ipnet sample_errors
    (λ c, [ck_highest_flushed_index c])
    (λ b, match b with
          | [i] => Ok (mkCheckpoint CHECKPOINT_VERSION [] 0 fingerprint None [] i)
          | _ => Err (1%nat : @JsonError sample_errors)
          end)
    (λ ts, [Z.of_nat (length ts)]) (λ _, []) (map (λ x, x mod 256)).

Section witness.
#[local] Existing Instance sample_ipnet.
#[local] Existing Instance sample_errors.
#[local] Existing Instance disk_errors.
#[local] Existing Instance disk_fs.

Definition file_scenario (targets : list Target) : DiscoverScenarioConfig :=
  mkScenario (mkBaseProbeConfig None None None None None None None None
    (Some (CfgFile (s! "out.ndjson"))) None) targets [].

Definition one_host : DiscoverScenarioConfig := file_scenario [TIp (V4 10)].
Definition two_hosts : DiscoverScenarioConfig := file_scenario [TIp (V4 10); TIp (V4 20)].

Definition one_host_fingerprint : Str := resume_fingerprint (SC := resume_codec []) one_host.

Lemma resume_codec_bytes (fp : Str) b :
  Forall (λ x, 0 ≤ x < 256) (@sha256 sample_ipnet sample_errors (resume_codec fp) b).
Proof. apply Forall_fmap, Forall_true. intros x. simpl. apply Z.mod_pos_bound. lia. Qed.

Lemma out_plain : plain (ToFile (s! "out.ndjson")).
Proof. apply (bool_decide_unpack _). by vm_compute. Qed.

(** Two NATS destinations with the same description: a checkpoint of one is resumed by a scan to
    the other. *)
Example descriptor_ambiguous :
  let nats subject stream := Some (CfgNats [s! "nats://h"] subject stream None None NatsAnonymous
                                     NatsPerRecord None sink_retry_default) in
  destination_of (nats (s! "a") (s! "b:c")) ≠ destination_of (nats (s! "a:b") (s! "c")) ∧
  sink_destination_descriptor (nats (s! "a") (s! "b:c")) = sink_destination_descriptor (nats (s! "a:b") (s! "c")).
Proof. by vm_compute. Qed.

(** One host's checkpoint is resumed by one host's scan and refused to that of two. *)
Lemma resume_only_same_scan_witness :
  let codec := resume_codec one_host_fingerprint in
  let cw := writer_new (mkCheckpointConfig (s! "scan.ckpt") 1 false) scan_metadata_default
              (resume_fingerprint (SC := codec) one_host) [] in
  let w := (write_at (SC := codec) 7 cw disk_empty).1 in
  resume_preflight (SC := codec) one_host (s! "scan.ckpt") w = Ok (checkpoint_of 7 cw) ∧
  ∀ c, resume_preflight (SC := codec) two_hosts (s! "scan.ckpt") w ≠ Ok c.
Proof.
  intros codec cw w.
  destruct (resume_only_same_scan (SC := codec) disk_file (FSC := disk_fs_contract) one_host one_host
    (mkCheckpointConfig (s! "scan.ckpt") 1 false) scan_metadata_default [] 7 disk_empty w (Ok tt))
    as [H1 _]; [reflexivity|reflexivity|done|done|apply out_plain|apply out_plain|apply resume_codec_bytes|done|].
  destruct (resume_only_same_scan (SC := codec) disk_file (FSC := disk_fs_contract) one_host two_hosts
    (mkCheckpointConfig (s! "scan.ckpt") 1 false) scan_metadata_default [] 7 disk_empty w (Ok tt))
    as [H2 _]; [reflexivity|reflexivity|done|done|apply out_plain|apply out_plain|apply resume_codec_bytes|by vm_compute|].
  split.
  - apply H1. split; [reflexivity|]. split; [by apply resume_eligibility_iff|]. split; reflexivity.
  - intros c Hc. apply H2 in Hc as (_ & _ & Hs & _). done.
Defined.
End witness.
