(* ===== verification/PipelineTheorems.v ===== *)
(** * What a discovery run guarantees

    The result of a run does not depend on how its probes interleave, checkpoints
    are never ahead of what the sink made durable, and the counters of the summary
    are what the sink accepted. *)

From S2P Require Import Prelude Net F64 Model FuserCore UnionFind Identity IdentityFacts.
From S2P Require Import CorrelateFacts IdentityTheorems Fuser Topology.
From S2P Require Import Classifier Resolver Sink Tee Kafka Nats SinkConfig GnmiPath ProberConfig.
From S2P Require Import Config Checkpoint CollectionProfile Encoder Scheduler SchedulerTheorems.
From S2P Require Import Pipeline PipelineFacts.

#[local] Open Scope nat_scope.

Section order.
Context `{NL : IpNetLib, UC : UnicodeCase, FD : F64Display, FE : ForeignErrors, MS : MibSource,
  HO : HashOrder}.
Context {RL : RegexLib} {IE : IoErrors} {ED : ErrorDisplay}.
Context {W : Type} {FS : FsLib W} {SC : ScanCodec} {SS : SinkStore W} {EL : Elapsed W}
  {EN : Encoder W}.
Context (sink : Handle) (classifier : AnyClassifier) (scan_metadata : ScanMetadata).
Context (prober_kinds : list ProbeKind) (targets_resolved resume_base : Z).

#[local] Abbreviation recv_all :=
  (receive_all sink classifier scan_metadata prober_kinds targets_resolved resume_base).
#[local] Abbreviation seq_all :=
  (process_seq sink classifier scan_metadata prober_kinds targets_resolved resume_base).
#[local] Abbreviation stream :=
  (stream_discovery sink classifier scan_metadata prober_kinds targets_resolved resume_base).

(** Complete prefixes of the stream, in target order. *)
Lemma in_target_order (scans : list TargetScan) m :
  ts_target_index <$> scans ≡ₚ seq 0 m →
  ∃ L, L ≡ₚ scans ∧ ts_target_index <$> L = seq 0 m.
Proof using Type.
  intros Hperm. symmetry in Hperm. apply Permutation_map_inv in Hperm as (L & -> & HL).
  by exists L.
Qed.

Lemma receive_in_order (scans L : list TargetScan) m p :
  L ≡ₚ scans → ts_target_index <$> L = seq 0 m →
  match seq_all 0 L p with
  | None => recv_all scans (∅, 0) p = None
  | Some (n, p', Err e) => ∃ R, recv_all scans (∅, 0) p = Some (R, n, p', Err e)
  | Some (n, p', Ok _) => recv_all scans (∅, 0) p = Some (∅, n, p', Ok tt)
  end.
Proof using Type.
  intros Hperm Hidx.
  assert (∀ x, x ∈ L → L !! ts_target_index x = Some x) as Hlook.
  { intros x Hx. apply list_elem_of_lookup in Hx as [k Hk].
    assert ((ts_target_index <$> L) !! k = Some (ts_target_index x)) as Hi
      by (by rewrite list_lookup_fmap, Hk).
    rewrite Hidx in Hi. apply lookup_seq in Hi as [-> _]. done. }
  assert (length L = m) as Hlen by (by rewrite <-(length_seq m 0), <-Hidx, length_fmap).
  pose proof (receive_run sink classifier scan_metadata prober_kinds targets_resolved resume_base
    L scans ∅ 0 p) as Hrun.
  unfold simulates in Hrun. rewrite drop_0 in Hrun.
  assert (match seq_all 0 L p with
    | None => recv_all scans (∅, 0) p = None
    | Some (n, p', Err e) => ∃ R, recv_all scans (∅, 0) p = Some (R, n, p', Err e)
    | Some (n, p', Ok _) => ∃ R, recv_all scans (∅, 0) p = Some (R, n, p', Ok tt) ∧ R = ∅
    end) as Hsim.
  { apply Hrun; try done; [lia| | |].
    - rewrite <-Hperm, Hidx. apply NoDup_seq.
    - intros x Hx. rewrite <-Hperm in Hx. split_and!; [by apply Hlook|lia|done].
    - intros k Hk. right. rewrite <-Hperm, Hidx. apply elem_of_seq. lia. }
  destruct (seq_all 0 L p) as [[[n p'] [[]|e]]|]; [|done|done]. by destruct Hsim as (R & -> & ->).
Qed.

Lemma stragglers_empty : stragglers (∅ : gmap nat TargetScan) = [].
Proof using Type. unfold stragglers. by rewrite map_to_list_empty. Qed.

(** The streaming block sees its targets in target order, whatever order they come in. *)
Lemma stream_block_order (scans1 scans2 : list TargetScan) m cancelled p :
  scans1 ≡ₚ scans2 → ts_target_index <$> scans1 ≡ₚ seq 0 m →
  stream_block sink classifier scan_metadata prober_kinds targets_resolved resume_base scans1 cancelled p =
  stream_block sink classifier scan_metadata prober_kinds targets_resolved resume_base scans2 cancelled p.
Proof using Type.
  intros Hperm Hidx. destruct (in_target_order scans1 m Hidx) as (L & HL & HLidx).
  pose proof (receive_in_order scans1 L m p HL HLidx) as H1.
  pose proof (receive_in_order scans2 L m p (transitivity HL Hperm) HLidx) as H2.
  unfold stream_block. destruct (seq_all 0 L p) as [[[n p'] [[]|e]]|].
  - by rewrite H1, H2.
  - destruct H1 as [R1 ->], H2 as [R2 ->]. done.
  - by rewrite H1, H2.
Qed.

Lemma stream_discovery_order fuser checkpoint progress (scans1 scans2 : list TargetScan) m cancelled w :
  scans1 ≡ₚ scans2 → ts_target_index <$> scans1 ≡ₚ seq 0 m →
  stream fuser checkpoint progress scans1 cancelled w =
  stream fuser checkpoint progress scans2 cancelled w.
Proof using Type.
  intros Hperm Hidx. unfold stream_discovery.
  by rewrite (stream_block_order scans1 scans2 m cancelled _ Hperm Hidx).
Qed.

Context {Prober ProbeCtx : Type}.
Context (answer : Prober → ResolvedTarget → ProbeCtx → Result RastreoError ProbeOutcome).
Context (probers : list Prober) (targets : list ResolvedTarget) (ctx : ProbeCtx).

(** No outcome records a panicked or aborted task. *)
Definition undisturbed (x : TargetScan) : Prop :=
  ∀ p r reason, (p, r) ∈ ts_outcomes x → r ≠ Err (ERuntime (TaskPanicked reason)).

Definition expected_scan (t : nat) (tg : ResolvedTarget) : TargetScan :=
  mkTargetScan t (imap (λ p pr, (p, answer pr tg ctx)) probers).

Lemma scan_complete_expected (x : TargetScan) :
  scan_complete (answers answer) probers targets ctx x → undisturbed x → probers ≠ [] →
  ∃ tg, targets !! ts_target_index x = Some tg ∧ x = expected_scan (ts_target_index x) tg.
Proof using Type.
  intros (rs & Hout & Hlen & Hown) Hund Hne.
  assert (∀ p r pr, rs !! p = Some r → probers !! p = Some pr →
    ∃ tg, targets !! ts_target_index x = Some tg ∧ r = answer pr tg ctx) as Hr.
  { intros p r pr Hp Hpr. destruct (Hown p r Hp) as (pr' & tg & j & Hpr' & Htg & Hj & Hjr).
    exists tg. split; [done|]. rewrite Hpr in Hpr'. injection Hpr' as <-.
    destruct j as [r'| |]; simpl in *; [by subst|..];
      exfalso; refine (Hund p r _ _ (eq_sym Hjr)); rewrite Hout; apply list_elem_of_lookup;
      exists p; by rewrite list_lookup_imap, Hp. }
  destruct probers as [|pr0 prs] eqn:Hprs; [done|]. rewrite <-Hprs in *.
  destruct (lookup_lt_is_Some_2 rs 0) as [r0 Hr0]; [rewrite Hlen, Hprs; simpl; lia|].
  destruct (Hr 0 r0 pr0 Hr0) as (tg & Htg & _); [by rewrite Hprs|].
  exists tg. split; [done|]. unfold expected_scan. destruct x as [t outs]. simpl in *. f_equal.
  rewrite Hout. apply list_eq. intros p. rewrite !list_lookup_imap.
  destruct (probers !! p) as [pr|] eqn:Hp; simpl.
  - destruct (lookup_lt_is_Some_2 rs p) as [r Hrp]; [rewrite Hlen; by eapply lookup_lt_Some|].
    rewrite Hrp. simpl. destruct (Hr p r pr Hrp Hp) as (tg' & Htg' & ->). congruence.
  - apply lookup_ge_None in Hp. by rewrite (lookup_ge_None_2 rs p) by lia.
Qed.

(** An undisturbed scan sends exactly the expected targets. *)
Lemma sent_expected cap rate sched s :
  with_probe_rate rate (bounded_new cap) = Some sched →
  rtc (scan_step (answers answer) probers ctx) (run_scan sched probers targets false) s →
  sc_phase s = Finished → sc_receiver s = true → sc_cancel s = false → probers ≠ [] →
  Forall undisturbed (sc_sent s) →
  sc_sent s ≡ₚ imap expected_scan targets ∧ ts_target_index <$> sc_sent s ≡ₚ seq 0 (length targets).
Proof using Type.
  intros Hs Hr Hph Hrec Hcan Hne Hund.
  destruct (sent_targets (answers answer) probers targets ctx cap rate sched false s Hs Hr)
    as (Hnd & Hok & Hm). destruct (Hm Hph Hrec Hne) as (m & _ & Hperm & Hall).
  rewrite Hall in Hperm by done. split; [|done].
  assert (∀ x, x ∈ sc_sent s →
    ∃ tg, targets !! ts_target_index x = Some tg ∧ x = expected_scan (ts_target_index x) tg) as Hexp.
  { intros x Hx. rewrite Forall_forall in Hok, Hund. apply scan_complete_expected; auto. }
  apply NoDup_Permutation.
  - by apply (NoDup_fmap_1 ts_target_index).
  - apply (NoDup_fmap_1 ts_target_index). rewrite fmap_imap. simpl.
    rewrite (imap_ext _ (λ i (_ : ResolvedTarget), i)) by done.
    assert (imap (λ i (_ : ResolvedTarget), i) targets = seq 0 (length targets)) as ->; [|apply NoDup_seq].
    apply list_eq. intros i. rewrite list_lookup_imap.
    destruct (targets !! i) eqn:Hi; simpl.
    + symmetry. apply lookup_seq. split; [done|]. by eapply lookup_lt_Some.
    + symmetry. apply lookup_seq_ge. by apply lookup_ge_None.
  - intros x. split.
    + intros Hx. destruct (Hexp x Hx) as (tg & Htg & Heq). apply list_elem_of_lookup.
      exists (ts_target_index x). rewrite list_lookup_imap, Htg. simpl. by rewrite <-Heq.
    + intros Hx. apply list_elem_of_lookup in Hx as [t Ht]. rewrite list_lookup_imap in Ht.
      destruct (targets !! t) as [tg|] eqn:Htg; simplify_eq/=.
      assert (t ∈ ts_target_index <$> sc_sent s) as Hin.
      { rewrite Hperm. apply elem_of_seq. apply lookup_lt_Some in Htg. lia. }
      apply list_elem_of_fmap in Hin as (y & -> & Hy).
      destruct (Hexp y Hy) as (tg' & Htg' & Heq). rewrite Htg in Htg'. injection Htg' as <-.
      by rewrite <-Heq.
Qed.

(** C34. The result of a run does not depend on timing: two undisturbed, uncancelled
    scans of the same targets by the same probers, each probe answering the same way,
    lead to the same summary or error, the same calls on the sink in the same order,
    the same checkpoints and the same files, whatever the concurrency caps, the probe
    rates and the order in which the probes finished. The clock is part of the world the
    two runs start from, so that the elapsed time in the summary is the same only as long as
    the clock shows the same at the end: it is compared as a reading of one world, not as a
    duration of the scan. *)
Theorem discovery_deterministic (cap1 cap2 : nat) (rate1 rate2 : option Z)
    (sched1 sched2 : BoundedScheduler) s1 s2 fuser checkpoint progress (w : W) :
  with_probe_rate rate1 (bounded_new cap1) = Some sched1 →
  with_probe_rate rate2 (bounded_new cap2) = Some sched2 →
  rtc (scan_step (answers answer) probers ctx) (run_scan sched1 probers targets false) s1 →
  rtc (scan_step (answers answer) probers ctx) (run_scan sched2 probers targets false) s2 →
  (∀ s, s ∈ [s1; s2] → sc_phase s = Finished ∧ sc_receiver s = true ∧ sc_cancel s = false ∧
     Forall undisturbed (sc_sent s)) →
  probers ≠ [] →
  stream fuser checkpoint progress (sc_sent s1) (sc_cancel s1) w =
  stream fuser checkpoint progress (sc_sent s2) (sc_cancel s2) w.
Proof using Type.
  intros Hs1 Hs2 Hr1 Hr2 Hall Hne.
  destruct (Hall s1 ltac:(by left)) as (? & ? & Hc1 & ?).
  destruct (Hall s2 ltac:(by right; left)) as (? & ? & Hc2 & ?).
  destruct (sent_expected cap1 rate1 sched1 s1) as [Hp1 Hi1]; try done.
  destruct (sent_expected cap2 rate2 sched2 s2) as [Hp2 _]; try done.
  rewrite Hc1, Hc2. apply (stream_discovery_order _ _ _ _ _ (length targets)); [|done].
  by rewrite Hp1, Hp2.
Qed.
End order.

(** ** Witness *)

Section witness.
#[local] Existing Instance sample_ipnet.
#[local] Existing Instance sample_errors.
#[local] Existing Instance ascii_case.
#[local] Existing Instance reversed.
#[local] Existing Instance plain_display.
#[local] Existing Instance no_mib.
#[local] Existing Instance no_regex.
#[local] Existing Instance silent_errors.
#[local] Existing Instance disk_errors.
#[local] Existing Instance disk_store.
#[local] Existing Instance disk_fs.
#[local] Existing Instance index_codec.
#[local] Existing Instance no_clock.
#[local] Existing Instance address_encoder.

Definition sample_stream (scans : list TargetScan) (cancelled : bool) (w : Disk) :=
  stream_discovery (SS := disk_store) (EN := address_encoder) tt NoopClassifier
    scan_metadata_default [Icmp] 2 0 (FDirect direct_fuser_new) (Some sample_writer) None scans cancelled w.

(** What a run leaves on the disk and returns. *)
Definition sample_result (r : option (@Pipe sample_ipnet sample_errors Disk *
    Result RastreoError DiscoverySummary)) : option (list (RecordKind * Bytes) * bool) :=
  '(p, res) ← r; Some (dk_durable (pi_world p), is_ok res).

Lemma sample_scan_ok cap cs order :
  (λ s : @Scan sample_ipnet sample_errors unit,
    (ts_target_index <$> sc_sent s, sc_phase s, sc_receiver s, sc_cancel s,
     forallb (λ x : TargetScan, forallb (λ o : nat * Result RastreoError ProbeOutcome, is_ok o.2)
       (ts_outcomes x)) (sc_sent s))) <$> sample_scan cap cs
    = Some (order, Finished, true, false, true) →
  ∃ s, sample_scan cap cs = Some s ∧
    rtc (scan_step (answers echo) [tt] tt) (run_scan (bounded_new cap) [tt] sample_hosts false) s ∧
    ts_target_index <$> sc_sent s = order ∧
    sc_phase s = Finished ∧ sc_receiver s = true ∧ sc_cancel s = false ∧ Forall undisturbed (sc_sent s).
Proof.
  destruct (sample_scan cap cs) as [s|] eqn:Hs; [|done]. intros [= Ho Hp Hr Hc Hok].
  exists s. split; [done|]. split; [by eapply script_run|]. split_and!; [done..|].
  apply Forall_forall. intros x Hx p r reason Hin ->.
  rewrite forallb_forall in Hok. specialize (Hok x ltac:(by apply list_elem_of_In)).
  rewrite forallb_forall in Hok. specialize (Hok (p, _) ltac:(by apply list_elem_of_In)). done.
Qed.

Lemma discovery_deterministic_witness : ∃ s1 s2 : @Scan sample_ipnet sample_errors unit,
  ts_target_index <$> sc_sent s1 = [0; 1] ∧ ts_target_index <$> sc_sent s2 = [1; 0] ∧
  sample_stream (sc_sent s1) (sc_cancel s1) disk_empty =
  sample_stream (sc_sent s2) (sc_cancel s2) disk_empty ∧
  sample_result (sample_stream (sc_sent s1) (sc_cancel s1) disk_empty) =
    Some ([(RkDevice, [10%Z]); (RkDevice, [20%Z])], true).
Proof.
  destruct (sample_scan_ok 1 one_by_one [0; 1]) as (s1 & Hs1 & Hr1 & Ho1 & H1); [by vm_compute|].
  destruct (sample_scan_ok 2 second_first [1; 0]) as (s2 & Hs2 & Hr2 & Ho2 & H2); [by vm_compute|].
  exists s1, s2. split; [done|]. split; [done|]. split.
  2:{ assert ((s ← sample_scan 1 one_by_one;
        sample_result (sample_stream (sc_sent s) (sc_cancel s) disk_empty)) =
        Some ([(RkDevice, [10%Z]); (RkDevice, [20%Z])], true)) as Hres by (by vm_compute).
      by rewrite Hs1 in Hres. }
  clear Hs1 Hs2.
  apply (discovery_deterministic (SS := disk_store) (EN := address_encoder) tt NoopClassifier
    scan_metadata_default [Icmp] 2 0 echo [tt] sample_hosts tt 1 2 None None
    (bounded_new 1) (bounded_new 2) s1 s2); try done.
  intros s [->|[->|[]%elem_of_nil]%elem_of_cons]%elem_of_cons; [apply H1|apply H2].
Defined.
End witness.
