(* ===== verification/DurabilityTheorems.v ===== *)
(** * Durability: checkpoints, and what a run delivered

    What the pipeline asks of a sink and of the file system, stated as laws over two
    observations of the world (the records a sink accepted, and those it made
    durable) and over file contents; and what then holds of every run. *)

From S2P Require Import Prelude Net F64 Model FuserCore UnionFind Identity IdentityFacts.
From S2P Require Import CorrelateFacts IdentityTheorems Fuser Topology.
From S2P Require Import Classifier Resolver Sink Tee Kafka Nats SinkConfig GnmiPath ProberConfig.
From S2P Require Import Config Checkpoint CollectionProfile Encoder Scheduler SchedulerTheorems.
From S2P Require Import Pipeline PipelineFacts CheckpointTheorems PipelineTheorems.

#[local] Open Scope nat_scope.

(** ** The contracts *)

Abbreviation Delivery := (RecordKind * Bytes)%type.

(** What a sink promises of one of its handles: an accepted write is appended, a
    successful flush or close makes everything accepted durable, and durable records
    stay. Nothing of this touches the files of [private]. *)
Class SinkContract {W : Type} `{FE : ForeignErrors} (SS : SinkStore W) (h : Handle)
    (file : Str → W → option Bytes) (private : Str → Prop) := {
  written : W → list Delivery;
  durable : W → list Delivery;
  durable_written : ∀ w, durable w `prefix_of` written w;
  write_kind_spec : ∀ k b w w' r, h_write_kind h k b w = (w', r) →
    durable w `prefix_of` durable w' ∧ (∀ q, private q → file q w' = file q w) ∧
    match r with Ok _ => written w' = written w ++ [(k, b)] | Err _ => True end;
  flush_spec : ∀ w w' r, h_flush h w = (w', r) →
    durable w `prefix_of` durable w' ∧ (∀ q, private q → file q w' = file q w) ∧
    match r with Ok _ => written w' = written w ∧ durable w' = written w | Err _ => True end;
  close_spec : ∀ w w' r, h_close h w = (w', r) →
    durable w `prefix_of` durable w' ∧ (∀ q, private q → file q w' = file q w) ∧
    match r with Ok _ => written w' = written w ∧ durable w' = written w | Err _ => True end;
}.

(** The file system, and that neither it nor the encoder reaches into the sink. *)
Class FileContract {W : Type} `{FE : ForeignErrors} (FS : FsLib W) (EN : Encoder W)
    {SS : SinkStore W} {h : Handle} {private : Str → Prop} (file : Str → W → option Bytes)
    {SKC : SinkContract SS h file private} := {
  file_system :: FsContract FS file;
  fs_write_sink : ∀ p b w,
    written (fs_write p b w).1 = written w ∧ durable (fs_write p b w).1 = durable w;
  fs_rename_sink : ∀ a b w,
    written (fs_rename a b w).1 = written w ∧ durable (fs_rename a b w).1 = durable w;
  fs_remove_sink : ∀ p w,
    written (fs_remove p w).1 = written w ∧ durable (fs_remove p w).1 = durable w;
  encode_record_spec : ∀ x w, written (encode_record x w).1 = written w ∧
    durable (encode_record x w).1 = durable w ∧ ∀ q, private q → file q (encode_record x w).1 = file q w;
  encode_link_spec : ∀ x w, written (encode_link x w).1 = written w ∧
    durable (encode_link x w).1 = durable w ∧ ∀ q, private q → file q (encode_link x w).1 = file q w;
  encode_profile_spec : ∀ x w, written (encode_profile x w).1 = written w ∧
    durable (encode_profile x w).1 = durable w ∧ ∀ q, private q → file q (encode_profile x w).1 = file q w;
}.

Section durability.
Context `{NL : IpNetLib, UC : UnicodeCase, FD : F64Display, FE : ForeignErrors, MS : MibSource,
  HO : HashOrder}.
Context {RL : RegexLib} {IE : IoErrors} {ED : ErrorDisplay}.
Context {W : Type} {FS : FsLib W} {SC : ScanCodec} {SS : SinkStore W} {EL : Elapsed W}
  {EN : Encoder W}.
Context (sink : Handle) (classifier : AnyClassifier) (scan_metadata : ScanMetadata).
Context (prober_kinds : list ProbeKind) (targets_resolved resume_base : Z).
Context (file : Str → W → option Bytes) (path : Str).

(** The checkpoint's path is not one the sink writes to. *)
#[local] Abbreviation ours := (λ q : Str, q = path).

Context {SKC : SinkContract SS sink file ours} {FC : FileContract FS EN file}.

#[local] Abbreviation Pipe' := (@Pipe NL FE W).

(** ** Emission leaves the checkpoint alone *)

(** Nothing durable is lost, and the checkpoint file, its writer and the metrics are
    as they were. *)
Definition quiet (p p' : Pipe') : Prop :=
  durable (pi_world p) `prefix_of` durable (pi_world p') ∧
  file path (pi_world p') = file path (pi_world p) ∧
  pi_checkpoint p' = pi_checkpoint p ∧ pi_metrics p' = pi_metrics p.

#[local] Instance quiet_preorder : PreOrder quiet.
Proof.
  split; [by intros p|]. intros p1 p2 p3 (H1 & E1 & C1 & M1) (H2 & E2 & C2 & M2).
  split; [by transitivity (durable (pi_world p2))|]. split_and!; congruence.
Qed.

(** A function of the encoder that reaches neither the sink nor the checkpoint. *)
Definition tame {A} (encode : A → W → W * Result RastreoError Bytes) : Prop :=
  ∀ x w, written (encode x w).1 = written w ∧ durable (encode x w).1 = durable w ∧
    ∀ q, ours q → file q (encode x w).1 = file q w.

Lemma emit_item_quiet {A} kind encode (x : A) (p : Pipe') :
  tame encode → quiet p (emit_item sink kind encode x p).
Proof using SKC.
  intros Ht. unfold emit_item. destruct (Ht x (pi_world p)) as (Hw & Hd & Hf).
  destruct (encode x (pi_world p)) as [w1 [buf|e]]; simpl in *.
  2:{ split; [by rewrite <-Hd|]. split; [by apply Hf|done]. }
  unfold write_encoded. destruct (is_empty buf); simpl.
  { split; [by rewrite <-Hd|]. split; [by apply Hf|done]. }
  destruct (h_write_kind sink kind buf w1) as [w2 r] eqn:Hwr. simpl.
  destruct (write_kind_spec _ _ _ _ _ Hwr) as (Hd2 & Hf2 & _).
  destruct r as [[]|e]; simpl;
    (split; simpl; [by rewrite <-Hd|split; [simpl; rewrite Hf2 by done; by apply Hf|done]]).
Qed.

Lemma emit_all_quiet {A} kind encode (l : list A) (p : Pipe') :
  tame encode → quiet p (emit_all sink kind encode l p).
Proof using SKC.
  intros Ht. revert p. induction l as [|x l IH]; intros p; simpl; [done|].
  case_bool_decide; [done|]. transitivity (emit_item sink kind encode x p); [|apply IH].
  by apply emit_item_quiet.
Qed.

Lemma settle_records_quiet records (p : Pipe') :
  quiet p (settle_records classifier scan_metadata records p).1.
Proof using Type.
  revert p. induction records as [|r records IH]; intros p; simpl; [done|].
  destruct (classify classifier r) as [r'|e]; [|done].
  set (q := upd_assemblers _ _ p). specialize (IH q).
  destruct (settle_records classifier scan_metadata records q) as [p' res]. simpl in *.
  by transitivity q.
Qed.

Lemma settle_and_emit_quiet records (p : Pipe') :
  quiet p (settle_and_emit sink classifier scan_metadata records p).1.
Proof using FC SKC.
  unfold settle_and_emit. pose proof (settle_records_quiet records p) as Hw.
  destruct (settle_records classifier scan_metadata records p) as [p' [l|e]]; simpl in *; [|done].
  transitivity p'; [done|]. apply emit_all_quiet. intros x w. apply encode_record_spec.
Qed.

Lemma emit_target_quiet outcomes (p : Pipe') :
  quiet p (emit_target_records sink classifier scan_metadata outcomes p).1.
Proof using FC SKC.
  unfold emit_target_records.
  set (q := upd_assemblers _ _ p). transitivity q; [done|].
  destruct (ingest (pi_fuser q) _) as [[f rs]|e]; [|done].
  transitivity (upd_fuser f q); [done|]. apply settle_and_emit_quiet.
Qed.

Lemma publish_quiet (p : Pipe') : quiet p (publish targets_resolved resume_base p).
Proof using Type. unfold publish. by destruct (pi_progress p). Qed.

Lemma absorb_target_quiet ready (p p' : Pipe') r :
  absorb_target sink classifier scan_metadata prober_kinds ready p = Some (p', r) →
  ∃ m, quiet (upd_metrics m p) p'.
Proof using FC SKC.
  unfold absorb_target. destruct (accumulate_target _ _ _) as [m|]; simpl; [|done].
  exists m. case_bool_decide; [naive_solver|]. injection H as Heq.
  pose proof (emit_target_quiet (ts_outcomes ready) (upd_metrics m p)) as Hq. by rewrite Heq in Hq.
Qed.

Lemma finish_block_quiet (p p' : Pipe') r :
  finish_block sink classifier scan_metadata targets_resolved resume_base p = Some (p', r) →
  quiet p p'.
Proof using FC SKC.
  unfold finish_block. destruct (finish (pi_fuser p)) as [[[f tail]|e]|]; simpl; [|by intros [= <- _]|done].
  pose proof (settle_and_emit_quiet tail (upd_fuser f p)) as Hq.
  destruct (settle_and_emit sink classifier scan_metadata tail (upd_fuser f p)) as [q [[]|e]]; simpl in *;
    [|by intros [= <- _]].
  destruct (topology_finish (pi_assembler q)) as [links|]; simpl; [|done]. intros [= <- _].
  etrans; [|apply publish_quiet]. transitivity q; [done|].
  transitivity (emit_all sink RkLink encode_link links q).
  - apply emit_all_quiet. intros x w. apply encode_link_spec.
  - apply emit_all_quiet. intros x w. apply encode_profile_spec.
Qed.

(** ** Writing a checkpoint *)

Lemma write_atomically_sink (q : Str) b w w' r :
  write_atomically q b w = (w', r) → written w' = written w ∧ durable w' = durable w.
Proof using FC.
  unfold write_atomically. pose proof (fs_write_sink (tmp_path q) b w) as [Hw1 Hd1].
  destruct (fs_write (tmp_path q) b w) as [w1 [[]|e]]; simpl in *; [|by intros [= <- <-]].
  pose proof (fs_rename_sink (tmp_path q) q w1) as [Hw2 Hd2].
  destruct (fs_rename (tmp_path q) q w1) as [w2 r2]. simpl in *. intros [= <- <-]. split; congruence.
Qed.

Definition saved_bytes (k : nat) (cw : CheckpointWriter) : Bytes :=
  checkpoint_to_vec (checkpoint_of (record_index (Z.of_nat k) cw) cw).

Lemma write_at_spec (i : Z) (cw : CheckpointWriter) w w' r :
  cw_path cw = path → write_at i cw w = (w', r) →
  (written w' = written w ∧ durable w' = durable w) ∧
  match r with
  | Ok _ => file path w' = Some (checkpoint_to_vec (checkpoint_of i cw))
  | Err _ => file path w' = file path w
  end.
Proof using FC.
  intros Hp H. pose proof (write_at_file file i cw w w' r H) as Hf. rewrite Hp in Hf.
  split; [|by destruct r; [|apply Hf]].
  unfold write_at, checkpoint_write in H. destruct (write_atomically _ _ w) as [w1 r1] eqn:H1.
  injection H as <- _. by eapply write_atomically_sink.
Qed.

(** Writers of one scan differ in the last target they recorded. *)
Definition same_scan (cw cw' : CheckpointWriter) : Prop :=
  ∃ last, cw' = writer_set (cw_resume_base cw) last cw.

Lemma same_scan_refl cw : same_scan cw cw.
Proof using Type. exists (cw_last_checkpoint_at cw). by destruct cw. Qed.

Lemma same_scan_bytes cw cw' k :
  same_scan cw cw' → saved_bytes k cw' = saved_bytes k cw ∧ cw_path cw' = cw_path cw.
Proof using Type. by intros [last ->]. Qed.

Lemma maybe_checkpoint_spec (cw cw' : CheckpointWriter) (k : nat) w w' r :
  cw_path cw = path → maybe_checkpoint sink (Z.of_nat k) cw w = (cw', w', r) →
  same_scan cw cw' ∧ durable w `prefix_of` durable w' ∧
  match r with
  | Err _ => file path w' = file path w
  | Ok _ => written w' = written w ∧ (file path w' = file path w ∨
      1 ≤ k ∧ file path w' = Some (saved_bytes k cw) ∧ durable w' = written w')
  end.
Proof using FC.
  intros Hp. unfold maybe_checkpoint. destruct (_ || _) eqn:Hdue.
  { intros [= <- <- <-]. split_and!; [apply same_scan_refl|done|done|by left]. }
  apply orb_false_iff in Hdue as [Hk _]. apply Z.eqb_neq in Hk.
  destruct (h_flush sink w) as [w1 r1] eqn:H1. apply flush_spec in H1 as (Hd1 & Hf1 & H1).
  destruct r1 as [[]|e]; [|intros [= <- <- <-]; by rewrite Hf1; auto using same_scan_refl].
  destruct (write_at _ cw w1) as [w2 r2] eqn:H2.
  destruct (write_at_spec _ _ _ _ _ Hp H2) as [[Hw2 Hd2] Hr2]. destruct H1 as [Hw1 Hdw1].
  destruct r2 as [[]|e]; intros [= <- <- <-].
  - split_and!; [by eexists|by rewrite Hd2|congruence|]. right. split; [lia|]. split; [done|]. congruence.
  - split_and!; [apply same_scan_refl|by rewrite Hd2|]. rewrite Hr2. by apply Hf1.
Qed.

(** ** Checkpoints are never ahead *)

#[local] Abbreviation seq_all :=
  (process_seq sink classifier scan_metadata prober_kinds targets_resolved resume_base).

(** The checkpoint file is what it was, or records the first [k] targets of [L], which
    were then all emitted and whose records are durable in [w]. *)
Definition saved (p0 : Pipe') (cw : CheckpointWriter) (L : list TargetScan) (k : nat) (w : W)
    : Prop :=
  ∃ pk, seq_all 0 (take k L) p0 = Some (k, pk, Ok tt) ∧ pi_emit_err pk = None ∧
    written (pi_world pk) `prefix_of` durable w ∧ file path w = Some (saved_bytes k cw).

Definition sound (p0 : Pipe') (cw : CheckpointWriter) (L : list TargetScan) (w : W) : Prop :=
  file path w = file path (pi_world p0) ∨ ∃ k, 1 ≤ k ≤ length L ∧ saved p0 cw L k w.

Lemma sound_mono p0 cw L w w' :
  sound p0 cw L w → durable w `prefix_of` durable w' → file path w' = file path w →
  sound p0 cw L w'.
Proof using Type.
  intros [H | (k & Hk & pk & Hs & He & Hp & Hf)] Hd Hw; [left; congruence|].
  right. exists k. split; [done|]. exists pk. split_and!; [done|done|by etrans|congruence].
Qed.

Lemma sound_snoc p0 cw L x w : sound p0 cw L w → sound p0 cw (L ++ [x]) w.
Proof using Type.
  intros [H | (k & Hk & H)]; [by left|]. right. exists k. rewrite length_app.
  split; [simpl; lia|]. unfold saved in *. by rewrite take_app_le by lia.
Qed.

(** One more target: what it changes, and what its checkpoint records. *)
Lemma process_ready_checkpoint n x (p p' : Pipe') cw r :
  pi_checkpoint p = Some cw → cw_path cw = path →
  process_ready sink classifier scan_metadata prober_kinds targets_resolved resume_base n x p
    = Some (p', r) →
  durable (pi_world p) `prefix_of` durable (pi_world p') ∧
  (∃ cw', pi_checkpoint p' = Some cw' ∧ same_scan cw cw') ∧
  (file path (pi_world p') = file path (pi_world p) ∨
   r = Ok tt ∧ pi_emit_err p' = None ∧ file path (pi_world p') = Some (saved_bytes n cw) ∧
   written (pi_world p') `prefix_of` durable (pi_world p')).
Proof using FC SKC.
  intros Hc Hp. unfold process_ready. destruct (absorb_target _ _ _ _ _ _) as [[q [[]|e]]|] eqn:Ha; simpl;
    [| |done]; apply absorb_target_quiet in Ha as (m & Hd & Hf & Hcq & Hm); simpl in *; intros [= <- <-].
  2:{ split; [done|]. split; [exists cw; split; [congruence|apply same_scan_refl]|by left]. }
  pose proof (publish_quiet (upd_completed (S (pi_targets_completed q)) q)) as (Hd2 & Hf2 & Hc2 & _).
  set (q' := publish _ _ _) in *. simpl in *. rewrite Hcq, Hc in Hc2.
  unfold checkpoint_after. destruct (pi_emit_err q') eqn:He; rewrite ?Hc2.
  { split; [by etrans|]. split; [exists cw; split; [done|apply same_scan_refl]|left; congruence]. }
  destruct (maybe_checkpoint _ _ _ _) as [[cw' w'] rc] eqn:Hmc.
  apply maybe_checkpoint_spec in Hmc as (Hss & Hd3 & Hr); [|done].
  assert (durable (pi_world p) `prefix_of` durable w') as Hdw by (by repeat (etrans; [done|])).
  destruct rc as [[]|e]; simpl; (split; [done|]); (split; [by exists cw'|]).
  - destruct Hr as [Hw [Hr | (_ & Hr & Hdw')]]; [left; congruence|right].
    by rewrite Hdw', Hw.
  - left. congruence.
Qed.

Lemma seq_sound p0 cw L n p r :
  pi_checkpoint p0 = Some cw → cw_path cw = path → seq_all 0 L p0 = Some (n, p, r) →
  durable (pi_world p0) `prefix_of` durable (pi_world p) ∧
  sound p0 cw L (pi_world p) ∧ ∃ cw', pi_checkpoint p = Some cw' ∧ same_scan cw cw'.
Proof using FC SKC.
  intros Hc Hp. revert n p r. induction L as [|x L IH] using rev_ind; intros n p r.
  { intros [= <- <- <-]. split; [done|]. split; [by left|]. exists cw. split; [done|apply same_scan_refl]. }
  rewrite process_seq_app. destruct (seq_all 0 L p0) as [[[n' q] r']|] eqn:Hq; simpl; [|done].
  destruct (IH n' q r' eq_refl) as (Hd & Hs & cw' & Hc' & Hss). clear IH.
  destruct (same_scan_bytes cw cw' (S n') Hss) as [Hb Hpp].
  destruct r' as [[]|e]; [|intros [= <- <- <-]; split_and!; eauto using sound_snoc].
  destruct (process_ready _ _ _ _ _ _ (S n') x q) as [[q' r']|] eqn:Hstep; simpl; [|done].
  intros Hres. assert (p = q') as -> by (by destruct r' as [[]|]; simplify_eq).
  destruct (process_ready_checkpoint _ _ _ _ cw' _ Hc' ltac:(congruence) Hstep)
    as (Hd' & (cw'' & Hc'' & [last ->]) & Hf).
  split; [by etrans|]. split; [|exists (writer_set (cw_resume_base cw') last cw'); split; [done|]].
  2:{ destruct Hss as [l ->]. by exists last. }
  destruct Hf as [Hf | (-> & He & Hf & Hw)]; [by eapply sound_mono; [apply sound_snoc| |]|].
  pose proof (process_seq_next _ _ _ _ _ _ _ _ _ _ _ Hq) as Hn. simpl in Hn.
  right. exists (S n'). rewrite length_app. split; [simpl; lia|]. exists q'.
  split_and!; [|done|done|congruence].
  rewrite take_ge by (rewrite length_app; simpl; lia).
  rewrite process_seq_app, Hq. simpl. by rewrite Hstep.
Qed.

(** ** What a run delivered *)

Definition counter (k : RecordKind) (p : Pipe') : nat :=
  match k with
  | RkDevice => pi_records_emitted p
  | RkLink => pi_links_emitted p
  | RkCollectionProfile => pi_profiles_emitted p
  end.

(** Unless an error is latched, what was written since is counted, and of one kind. *)
Definition tallied (kind : RecordKind) (p p' : Pipe') : Prop :=
  pi_emit_err p' = None → pi_emit_err p = None ∧ ∃ bs,
    written (pi_world p') = written (pi_world p) ++ (pair kind <$> bs) ∧
    counter kind p' = counter kind p + length bs ∧ ∀ k, k ≠ kind → counter k p' = counter k p.

#[local] Instance tallied_preorder kind : PreOrder (tallied kind).
Proof.
  split.
  { intros p He. split; [done|]. exists []. rewrite app_nil_r. split_and!; [done|simpl; lia|done]. }
  intros p1 p2 p3 H1 H2 He. destruct (H2 He) as (He2 & bs2 & Hw2 & Hc2 & Ho2).
  destruct (H1 He2) as (He1 & bs1 & Hw1 & Hc1 & Ho1). split; [done|]. exists (bs1 ++ bs2).
  rewrite fmap_app, app_assoc, <-Hw1, length_app. split_and!; [done|lia|].
  intros k Hk. rewrite Ho2, Ho1; done.
Qed.

(** A change that touches neither the counters nor what the sink accepted. *)
Lemma tallied_same kind (p p' : Pipe') :
  (pi_emit_err p' = None → pi_emit_err p = None ∧ written (pi_world p') = written (pi_world p)) →
  (∀ k, counter k p' = counter k p) → tallied kind p p'.
Proof using Type.
  intros H Hc He. destruct (H He) as [? Hw]. split; [done|]. exists []. simpl.
  rewrite app_nil_r, Hc. split_and!; [done|lia|done].
Qed.

Lemma emit_item_tallied {A} kind encode (x : A) (p : Pipe') :
  tame encode → tallied kind p (emit_item sink kind encode x p).
Proof using SKC.
  intros Ht. unfold emit_item. destruct (Ht x (pi_world p)) as (Hw & _).
  destruct (encode x (pi_world p)) as [w1 [buf|e]]; simpl in *; [|by intros ?].
  unfold write_encoded. destruct (is_empty buf); simpl; [by apply tallied_same; [|by intros []]|].
  destruct (h_write_kind sink kind buf w1) as [w2 r] eqn:Hwr. simpl.
  destruct (write_kind_spec _ _ _ _ _ Hwr) as (_ & _ & Hr).
  destruct r as [[]|e]; simpl; [|by intros ?].
  intros He. split; [done|]. exists [buf]. simpl. rewrite Hr, Hw.
  split_and!; [done|destruct kind; simpl; lia|]. intros k Hk. by destruct kind, k.
Qed.

Lemma emit_all_tallied {A} kind encode (l : list A) (p : Pipe') :
  tame encode → tallied kind p (emit_all sink kind encode l p).
Proof using SKC.
  intros Ht. revert p. induction l as [|x l IH]; intros p; simpl; [done|].
  case_bool_decide; [done|]. transitivity (emit_item sink kind encode x p); [|apply IH].
  by apply emit_item_tallied.
Qed.

Lemma settle_records_tallied kind records (p : Pipe') :
  tallied kind p (settle_records classifier scan_metadata records p).1.
Proof using Type.
  revert p. induction records as [|r records IH]; intros p; simpl; [done|].
  destruct (classify classifier r) as [r'|e]; [|done].
  set (q := upd_assemblers _ _ p). specialize (IH q).
  destruct (settle_records classifier scan_metadata records q) as [p' res]. simpl in *.
  transitivity q; [|done]. apply tallied_same; [done|by intros []].
Qed.

Lemma settle_and_emit_tallied records (p : Pipe') :
  tallied RkDevice p (settle_and_emit sink classifier scan_metadata records p).1.
Proof using FC SKC.
  unfold settle_and_emit. pose proof (settle_records_tallied RkDevice records p) as Hw.
  destruct (settle_records classifier scan_metadata records p) as [p' [l|e]]; simpl in *; [|done].
  transitivity p'; [done|]. apply emit_all_tallied. intros x w. apply encode_record_spec.
Qed.

Lemma absorb_target_tallied ready (p p' : Pipe') r :
  absorb_target sink classifier scan_metadata prober_kinds ready p = Some (p', r) →
  tallied RkDevice p p'.
Proof using FC SKC.
  unfold absorb_target. destruct (accumulate_target _ _ _) as [m|]; simpl; [|done].
  assert (tallied RkDevice p (upd_metrics m p)) as Hm by (by apply tallied_same; [|intros []]).
  case_bool_decide; [by intros [= <- <-]|]. unfold emit_target_records. set (q := upd_assemblers _ _ _).
  assert (tallied RkDevice p q) as Hq by (by etrans; [apply Hm|apply tallied_same; [|intros []]]).
  destruct (ingest (pi_fuser q) _) as [[f rs]|e]; [|by intros [= <- <-]]. intros [= Heq].
  pose proof (settle_and_emit_tallied rs (upd_fuser f q)) as Hs. rewrite Heq in Hs.
  etrans; [apply Hq|]. etrans; [|apply Hs]. by apply tallied_same; [|intros []].
Qed.

Lemma publish_tallied kind (p : Pipe') : tallied kind p (publish targets_resolved resume_base p).
Proof using Type.
  unfold publish. destruct (pi_progress p); [|done]. by apply tallied_same; [|intros []].
Qed.

Lemma checkpoint_after_tallied kind n (p : Pipe') : tallied kind p (checkpoint_after sink n p).
Proof using FC.
  unfold checkpoint_after. destruct (pi_emit_err p) eqn:He; [done|]. destruct (pi_checkpoint p) as [cw|]; [|done].
  unfold maybe_checkpoint. destruct (_ || _); [by apply tallied_same; [|intros []]|].
  destruct (h_flush sink (pi_world p)) as [w1 [[]|e]] eqn:H1; [|by intros ?].
  apply flush_spec in H1 as (_ & _ & H1 & _). unfold write_at, checkpoint_write.
  destruct (write_atomically _ _ w1) as [w2 r2] eqn:H2. apply write_atomically_sink in H2 as [H2 _].
  destruct r2 as [[]|e]; simpl; [|by intros ?]. apply tallied_same; [|by intros []].
  simpl. intros _. split; [done|congruence].
Qed.

Lemma seq_tallied next L (p p' : Pipe') n r :
  seq_all next L p = Some (n, p', r) → tallied RkDevice p p'.
Proof using FC SKC.
  revert next p. induction L as [|x L IH]; intros next p; simpl; [by intros [= <- <- <-]|].
  unfold process_ready. destruct (absorb_target _ _ _ _ _ _) as [[q [[]|e]]|] eqn:Ha; simpl;
    [| |done]; apply absorb_target_tallied in Ha.
  2:{ by intros [= <- <- <-]. }
  intros Hs%IH. etrans; [apply Ha|]. etrans; [|apply Hs]. etrans; [|apply checkpoint_after_tallied].
  etrans; [|apply publish_tallied]. by apply tallied_same; [|intros []].
Qed.

(** After the last target: more devices, then links, then profiles. *)
Lemma finish_block_tallied (p p' : Pipe') r :
  finish_block sink classifier scan_metadata targets_resolved resume_base p = Some (p', r) →
  ∃ p1 p2, tallied RkDevice p p1 ∧ tallied RkLink p1 p2 ∧ tallied RkCollectionProfile p2 p'.
Proof using FC SKC.
  unfold finish_block. destruct (finish (pi_fuser p)) as [[[f tail]|e]|]; simpl; [| |done].
  2:{ intros [= <- _]. by exists p, p. }
  pose proof (settle_and_emit_tallied tail (upd_fuser f p)) as Hq.
  assert (tallied RkDevice p (upd_fuser f p)) as Hf by (by apply tallied_same; [|intros []]).
  destruct (settle_and_emit sink classifier scan_metadata tail (upd_fuser f p)) as [q [[]|e]]; simpl in *.
  2:{ intros [= <- _]. exists q, q. by split; [etrans|]. }
  destruct (topology_finish (pi_assembler q)) as [links|]; simpl; [|done]. intros [= <- _].
  exists q, (emit_all sink RkLink encode_link links q). split; [by etrans|]. split.
  - apply emit_all_tallied. intros x w. apply encode_link_spec.
  - etrans; [|apply publish_tallied]. apply emit_all_tallied. intros x w. apply encode_profile_spec.
Qed.

(** ** The whole run *)

#[local] Abbreviation stream :=
  (stream_discovery sink classifier scan_metadata prober_kinds targets_resolved resume_base).

(** The block is the targets in order, then the tail. *)
Lemma stream_block_cases p0 scans L m cancelled n p r :
  L ≡ₚ scans → ts_target_index <$> L = seq 0 m →
  stream_block sink classifier scan_metadata prober_kinds targets_resolved resume_base
    scans cancelled p0 = Some (n, p, r) →
  ∃ q rq, seq_all 0 L p0 = Some (n, q, rq) ∧
    match rq with
    | Err e => p = q ∧ r = Err e
    | Ok _ => n = m ∧
        finish_block sink classifier scan_metadata targets_resolved resume_base
          (latch_cancelled cancelled q) = Some (p, r)
    end.
Proof using Type.
  intros HL Hidx. unfold stream_block.
  pose proof (receive_in_order sink classifier scan_metadata prober_kinds targets_resolved resume_base
    scans L m p0 HL Hidx) as Hrec.
  destruct (seq_all 0 L p0) as [[[n' q] [[]|e]]|] eqn:Hq.
  - rewrite Hrec. simpl. rewrite stragglers_empty. simpl.
    apply process_seq_next in Hq. simpl in Hq.
    destruct (finish_block _ _ _ _ _ _) as [[p' r']|] eqn:Hf; simpl; [|done].
    intros [= <- <- <-]. exists q, (Ok tt). split; [done|]. split; [|done].
    by rewrite Hq, <-(length_fmap ts_target_index), Hidx, length_seq.
  - destruct Hrec as [R ->]. simpl. intros [= <- <- <-]. by exists q, (Err e).
  - by rewrite Hrec.
Qed.

Lemma latch_cancelled_quiet cancelled (p : Pipe') :
  quiet (upd_metrics (pi_metrics (latch_cancelled cancelled p)) p) (latch_cancelled cancelled p) ∧
  tallied RkDevice p (latch_cancelled cancelled p) ∧
  ac_cancelled (pi_metrics (latch_cancelled cancelled p)).1 = cancelled.
Proof using Type.
  unfold latch_cancelled. destruct (pi_metrics p) as [acc best]. simpl.
  split; [done|]. split; [|done]. by apply tallied_same; [|intros []].
Qed.

Lemma tallied_written kind (p p' : Pipe') :
  tallied kind p p' → pi_emit_err p' = None →
  pi_emit_err p = None ∧ written (pi_world p) `prefix_of` written (pi_world p').
Proof using Type. intros H He. destruct (H He) as (? & bs & -> & _). split; [done|by eexists]. Qed.

Lemma finish_block_written (p p' : Pipe') r :
  finish_block sink classifier scan_metadata targets_resolved resume_base p = Some (p', r) →
  pi_emit_err p' = None →
  pi_emit_err p = None ∧ written (pi_world p) `prefix_of` written (pi_world p').
Proof using FC SKC.
  intros (p1 & p2 & H1 & H2 & H3)%finish_block_tallied He.
  apply tallied_written in H3 as [He2 Hw3]; [|done].
  apply tallied_written in H2 as [He1 Hw2]; [|done].
  apply tallied_written in H1 as [He0 Hw1]; [|done]. split; [done|]. by do 2 etrans.
Qed.

(** The checkpoint a cancelled run leaves, or its removal after a complete one. *)
Lemma finalize_spec cw cancelled (k : nat) w w' r :
  cw_path cw = path → finalize_checkpoint (Some cw) cancelled k w = (w', r) →
  (written w' = written w ∧ durable w' = durable w) ∧
  (file path w' = file path w ∨
   (cancelled = true ∧ 1 ≤ k ∧ file path w' = Some (saved_bytes k cw)) ∨
   (cancelled = false ∧ r = Ok tt ∧ file path w' = None)).
Proof using FC.
  intros Hp. unfold finalize_checkpoint. destruct cancelled.
  - destruct (Nat.eqb_spec k 0); [intros [= <- <-]; auto|].
    destruct (write_at _ cw w) as [w1 r1] eqn:H1.
    destruct (write_at_spec _ _ _ _ _ Hp H1) as [Hwd Hr]. intros [= <- <-]. split; [done|].
    destruct r1 as [[]|e]; [right; left; split_and!; [done|lia|done]|by left].
  - unfold writer_delete. rewrite Hp. pose proof (fs_remove_sink path w) as Hwd.
    destruct (fs_remove path w) as [w1 r1] eqn:H1. apply fs_remove_file in H1 as (_ & Hr). simpl in Hwd.
    destruct r1 as [[]|e]; [|destruct (io_error_kind e)]; intros [= <- <-]; naive_solver.
Qed.

(** The block around the loop: what follows the last target is quiet. *)
Lemma stream_block_sound p0 cw scans L m cancelled n p r :
  pi_checkpoint p0 = Some cw → cw_path cw = path →
  L ≡ₚ scans → ts_target_index <$> L = seq 0 m →
  stream_block sink classifier scan_metadata prober_kinds targets_resolved resume_base
    scans cancelled p0 = Some (n, p, r) →
  sound p0 cw L (pi_world p) ∧ (∃ cw', pi_checkpoint p = Some cw' ∧ same_scan cw cw') ∧
  (is_ok r = true → pi_emit_err p = None →
    ac_cancelled (pi_metrics p).1 = cancelled ∧ n = m ∧
    ∃ pm, seq_all 0 L p0 = Some (m, pm, Ok tt) ∧ pi_emit_err pm = None ∧
      written (pi_world pm) `prefix_of` written (pi_world p)).
Proof using FC SKC.
  intros Hc Hp HL Hidx (q & rq & Hseq & Htail)%(stream_block_cases _ _ L m); [|done..].
  destruct (seq_sound _ _ _ _ _ _ Hc Hp Hseq) as (Hd & Hs & cw' & Hc' & Hss).
  destruct rq as [[]|e]; [|destruct Htail as [-> ->]; naive_solver].
  destruct Htail as [-> Hf], (latch_cancelled_quiet cancelled q) as ((Hd1 & Hf1 & Hc1 & _) & Hdl & Hac).
  pose proof (finish_block_quiet _ _ _ Hf) as (Hd2 & Hf2 & Hc2 & Hm2). simpl in *.
  split; [eapply sound_mono; [done|by etrans|congruence]|]. split; [exists cw'; split; [congruence|done]|].
  intros _ He. apply finish_block_written in Hf as [He1 Hw]; [|done].
  apply tallied_written in Hdl as [He0 Hw0]; [|done].
  split; [congruence|]. split; [done|]. exists q. split_and!; [done|done|by etrans].
Qed.

(** The same, of what the writer computes. *)
Lemma stream_saved fuser cw progress scans m cancelled (w : W) (p : Pipe') r :
  cw_path cw = path → ts_target_index <$> scans ≡ₚ seq 0 m →
  stream fuser (Some cw) progress scans cancelled w = Some (p, r) →
  ∃ L, L ≡ₚ scans ∧ ts_target_index <$> L = seq 0 m ∧
  (file path (pi_world p) = file path w ∨
   (file path (pi_world p) = None ∧ is_ok r = true ∧ cancelled = false ∧
    durable (pi_world p) = written (pi_world p)) ∨
   ∃ k, 1 ≤ k ≤ m ∧
     saved (pipe_init scan_metadata fuser (Some cw) progress w) cw L k (pi_world p)).
Proof using FC SKC.
  intros Hp Hidx Hst. destruct (in_target_order scans m Hidx) as (L & HL & HLi).
  exists L. split; [done|]. split; [done|].
  assert (length L = m) as Hlen by (by rewrite <-(length_seq m 0), <-HLi, length_fmap).
  unfold stream_discovery in Hst. set (p0 := pipe_init _ _ _ _ _) in *.
  destruct (stream_block _ _ _ _ _ _ _ _ p0) as [[[n q] halted]|] eqn:Hb; simpl in Hst; [|done].
  destruct (stream_block_sound p0 cw _ _ _ _ _ _ _ eq_refl Hp HL HLi Hb) as (Hs & (cw' & Hc & Hss) & Hok).
  destruct (same_scan_bytes cw cw' m Hss) as [Hbytes Hpath].
  destruct (h_close sink (pi_world q)) as [w1 closed] eqn:Hcl.
  destruct (close_spec _ _ _ Hcl) as (Hd1 & Hf1 & Hr1). simpl in Hst.
  assert (sound p0 cw L w1) as Hs1 by (eapply sound_mono; [done|done|by apply Hf1]).
  destruct (is_ok halted && _ && _) eqn:Hclean.
  2:{ injection Hst as <- _. destruct Hs1 as [?|?]; [by left|right; right]. by rewrite <-Hlen. }
  destruct halted as [[]|], closed as [[]|]; try (simpl in Hclean; rewrite ?andb_false_r in Hclean; done).
  simpl in Hclean. rewrite andb_true_r in Hclean. apply bool_decide_eq_true in Hclean as He.
  destruct (Hok eq_refl He) as (Hac & -> & pm & Hseq & Hem & Hpre). destruct Hr1 as [Hw1 Hdw1].
  rewrite Hc, Hac, He in Hst.
  destruct (finalize_checkpoint (Some cw') cancelled m w1) as [w2 fin] eqn:Hfin.
  destruct (finalize_spec cw' _ _ _ _ _ ltac:(congruence) Hfin) as [[Hw2 Hd2] Hcase].
  injection Hst as <- <-. simpl.
  destruct Hcase as [Hsame | [(-> & Hk & Hwr) | (-> & -> & Hnone)]].
  - destruct (sound_mono p0 cw L w1 w2 Hs1) as [?|?]; [by rewrite Hd2|done|by left|].
    right; right. by rewrite <-Hlen.
  - right; right. exists m. split; [lia|]. exists pm. rewrite take_ge by lia.
    split_and!; [done|done| |congruence]. by rewrite Hd2, Hdw1.
  - right; left. split_and!; [done|done|done|congruence].
Qed.

(** What the file of a checkpoint says when the first [k] targets of the run are done: the scan, its
    pinned addresses, and the place of the last of them among all the targets of the scan, those that
    an earlier run did being [cw_resume_base]. *)
Definition recorded_bytes (k : nat) (cw : CheckpointWriter) : Bytes :=
  checkpoint_to_vec (mkCheckpoint 1 (cw_scan_id cw) (cw_initiated_at cw) (cw_resume_fingerprint cw)
    (cw_source_config_hash cw) (cw_dns_pins cw) (cw_resume_base cw + Z.of_nat k - 1)%Z).

(** The checkpoint file records the first [k] targets of [L], which were then all emitted and whose
    records are durable in [w]. *)
Definition recorded (p0 : Pipe') (cw : CheckpointWriter) (L : list TargetScan) (k : nat) (w : W) : Prop :=
  ∃ pk, seq_all 0 (take k L) p0 = Some (k, pk, Ok tt) ∧ pi_emit_err pk = None ∧
    written (pi_world pk) `prefix_of` durable w ∧ file path w = Some (recorded_bytes k cw).

Lemma saved_recorded p0 cw L k w : 1 ≤ k → (0 ≤ cw_resume_base cw)%Z → (cw_resume_base cw + Z.of_nat k ≤ 2 ^ 64)%Z →
  saved p0 cw L k w → recorded p0 cw L k w.
Proof using Type.
  intros Hk H0 Hmax (pk & Hs & He & Hp & Hf). exists pk. split_and!; [done..|]. rewrite Hf. unfold saved_bytes, record_index.
  by rewrite wrap_small by lia.
Qed.

(** C35. A checkpoint never runs ahead of the output. When a run of the pipeline over
    the targets [0..m) ends, in success, cancelled or in any error, the checkpoint file
    is as it was before the run, or is gone and the run succeeded without being
    cancelled with every written record durable, or records exactly the first [k]
    targets for some [k]: it names the place of the [k]th among all the targets of the
    scan, those of earlier runs included; these were processed, in target order, without
    a failed emission, and everything the sink had accepted by then is durable. A resumed
    scan, which starts at the recorded place, therefore leaves no gap. *)
Theorem checkpoint_never_ahead fuser cw progress scans m cancelled (w : W) (p : Pipe') r :
  cw_path cw = path → (0 ≤ cw_resume_base cw)%Z → (cw_resume_base cw + Z.of_nat m ≤ 2 ^ 64)%Z →
  ts_target_index <$> scans ≡ₚ seq 0 m →
  stream fuser (Some cw) progress scans cancelled w = Some (p, r) →
  ∃ L, L ≡ₚ scans ∧ ts_target_index <$> L = seq 0 m ∧
  (file path (pi_world p) = file path w ∨
   (file path (pi_world p) = None ∧ is_ok r = true ∧ cancelled = false ∧
    durable (pi_world p) = written (pi_world p)) ∨
   ∃ k, 1 ≤ k ≤ m ∧
     recorded (pipe_init scan_metadata fuser (Some cw) progress w) cw L k (pi_world p)).
Proof using FC SKC.
  intros Hp H0 Hmax Hidx Hst.
  destruct (stream_saved fuser cw progress scans m cancelled w p r Hp Hidx Hst) as (L & HL & HLi & Hcase).
  exists L. split_and!; [done|done|]. destruct Hcase as [?|[?|(k & Hk & Hs)]]; [by left|by right; left|right; right].
  exists k. split; [done|]. apply saved_recorded; [lia|done|lia|done].
Qed.

Lemma finalize_keeps writer cancelled (k : nat) w w' r :
  finalize_checkpoint writer cancelled k w = (w', r) →
  written w' = written w ∧ durable w' = durable w.
Proof using FC.
  unfold finalize_checkpoint, write_at, checkpoint_write, writer_delete.
  destruct writer as [cw|]; [|by intros [= <- <-]]. destruct cancelled.
  - destruct (k =? 0); [by intros [= <- <-]|].
    destruct (write_atomically _ _ w) as [w1 r1] eqn:H1. apply write_atomically_sink in H1.
    by intros [= <- <-].
  - pose proof (fs_remove_sink (cw_path cw) w) as ?. destruct (fs_remove (cw_path cw) w) as [w1 r1].
    destruct r1 as [[]|e]; [|destruct (io_error_kind e)]; by intros [= <- <-].
Qed.

(** What the streaming block delivers, unless an error is latched. *)
Lemma stream_block_tallied p0 scans m cancelled n p :
  ts_target_index <$> scans ≡ₚ seq 0 m → (∀ k, counter k p0 = 0) →
  stream_block sink classifier scan_metadata prober_kinds targets_resolved resume_base
    scans cancelled p0 = Some (n, p, Ok tt) →
  pi_emit_err p = None →
  ∃ devices links profiles,
    written (pi_world p) = written (pi_world p0) ++ (pair RkDevice <$> devices) ++ (pair RkLink <$> links)
      ++ (pair RkCollectionProfile <$> profiles) ∧
    counter RkDevice p = length devices ∧ counter RkLink p = length links ∧
    counter RkCollectionProfile p = length profiles.
Proof using FC SKC.
  intros Hidx H0 Hb He. destruct (in_target_order scans m Hidx) as (L & HL & HLi).
  apply (stream_block_cases _ _ L m) in Hb as (q & rq & Hseq & Htail); [|done..].
  destruct rq as [[]|e]; [|by destruct Htail]. destruct Htail as [-> Hf].
  apply finish_block_tallied in Hf as (p1 & p2 & H1 & H2 & H3).
  assert (tallied RkDevice p0 p1) as HD.
  { etrans; [by eapply seq_tallied|]. etrans; [|exact H1]. apply latch_cancelled_quiet. }
  destruct (H3 He) as (He2 & ps & Hw3 & Hc3 & Ho3). destruct (H2 He2) as (He1 & ls & Hw2 & Hc2 & Ho2).
  destruct (HD He1) as (_ & ds & Hw1 & Hc1 & Ho1). exists ds, ls, ps.
  rewrite Hw3, Hw2, Hw1, <-!app_assoc. split; [done|].
  rewrite (Ho3 RkDevice), (Ho3 RkLink), (Ho2 RkDevice), Hc1, Hc2, Hc3, (Ho2 RkCollectionProfile),
    (Ho1 RkLink), (Ho1 RkCollectionProfile), !H0 by done. split_and!; lia.
Qed.

(** The summary of a successful run is what the sink took: over the targets
    [0..m), the records the sink accepted during the run are first the device records,
    then the links, then the collection profiles, as many of each as the summary
    counts, and all of them are durable when the run returns. *)
Theorem summary_counts_written fuser checkpoint progress scans m cancelled (w : W) (p : Pipe') s :
  ts_target_index <$> scans ≡ₚ seq 0 m →
  stream fuser checkpoint progress scans cancelled w = Some (p, Ok s) →
  ∃ devices links profiles,
    written (pi_world p) = written w ++ (pair RkDevice <$> devices) ++ (pair RkLink <$> links)
      ++ (pair RkCollectionProfile <$> profiles) ∧
    durable (pi_world p) = written (pi_world p) ∧
    ds_records_emitted s = length devices ∧ ds_links_emitted s = length links ∧
    ds_profiles_emitted s = length profiles.
Proof using FC SKC.
  intros Hidx Hst. unfold stream_discovery in Hst. set (p0 := pipe_init _ _ _ _ _) in *.
  destruct (stream_block _ _ _ _ _ _ _ _ p0) as [[[n q] halted]|] eqn:Hb; simpl in Hst; [|done].
  destruct (h_close sink (pi_world q)) as [w1 closed] eqn:Hcl.
  destruct (close_spec _ _ _ Hcl) as (_ & _ & Hr1). simpl in Hst.
  destruct halted as [[]|e]; [|by destruct (_ : W * _) in Hst].
  destruct closed as [[]|e]; destruct (pi_emit_err q) as [e'|] eqn:He;
    try (by destruct (_ : W * _) in Hst).
  destruct Hr1 as [Hw1 Hd1]. simpl in Hst.
  destruct (finalize_checkpoint _ _ _ w1) as [w2 fin] eqn:Hfin.
  apply finalize_keeps in Hfin as [Hw2 Hd2]. destruct fin as [[]|e]; [|done].
  injection Hst as <- <-. simpl.
  destruct (stream_block_tallied p0 scans m cancelled n q Hidx ltac:(by intros []) Hb He)
    as (ds & ls & ps & Hw & Hcd & Hcl' & Hcp).
  exists ds, ls, ps. split; [by rewrite Hw2, Hw1|]. split; [congruence|]. done.
Qed.
End durability.

(** ** Witnesses *)

Section witnesses.
#[local] Existing Instance sample_ipnet.
#[local] Existing Instance sample_errors.
#[local] Existing Instance ascii_case.
#[local] Existing Instance reversed.
#[local] Existing Instance plain_display.
#[local] Existing Instance no_mib.
#[local] Existing Instance no_regex.
#[local] Existing Instance silent_errors.
#[local] Existing Instance disk_errors.
#[local] Existing Instance disk_store.
#[local] Existing Instance disk_fs.
#[local] Existing Instance index_codec.
#[local] Existing Instance no_clock.
#[local] Existing Instance address_encoder.

#[local] Abbreviation sample_path := (s! "scan.ckpt").

#[local] Instance disk_contract : SinkContract disk_store tt disk_file (λ q, q = sample_path).
Proof.
  refine {| written w := dk_durable w ++ dk_buffered w; durable := dk_durable |}.
  - intros w. by eexists.
  - intros k b w w' r [= <- <-]. simpl. by rewrite app_assoc.
  - intros w w' r [= <- <-]. simpl. rewrite app_nil_r. split; [by eexists|done].
  - intros w w' r [= <- <-]. simpl. rewrite app_nil_r. split; [by eexists|done].
Defined.

#[local] Instance disk_file_contract : FileContract disk_fs address_encoder disk_file.
Proof.
  split; try done; [exact disk_fs_contract|..].
  - intros a b w. simpl. by destruct (dk_files w !! a).
  - intros p w. simpl. by destruct (dk_files w !! p).
Defined.

Definition sample_scans : list TargetScan :=
  [mkTargetScan 1 [(0, Ok (heard (V4 20)))]; mkTargetScan 0 [(0, Ok (heard (V4 10)))]].

(** A cancelled run over two targets records both, and both records are durable. *)
Lemma checkpoint_never_ahead_witness : ∃ p r,
  sample_stream sample_scans true disk_empty = Some (p, r) ∧
  disk_file sample_path (pi_world p) = Some [1%Z] ∧
  ∃ L k, L ≡ₚ sample_scans ∧ 1 ≤ k ≤ 2 ∧ 
     recorded tt NoopClassifier scan_metadata_default [Icmp] 2 0 disk_file sample_path
       (pipe_init scan_metadata_default (FDirect direct_fuser_new) (Some sample_writer) None disk_empty)
       sample_writer L k (pi_world p).
Proof.
  destruct (sample_stream sample_scans true disk_empty) as [[p r]|] eqn:Hst;
    [|exfalso; assert (is_Some (sample_result (sample_stream sample_scans true disk_empty)))
        as [? H] by (by vm_compute; eexists); by rewrite Hst in H].
  assert (('(p, _) ← sample_stream sample_scans true disk_empty;
    disk_file sample_path (pi_world p)) = Some [1%Z]) as Hfile by (by vm_compute).
  rewrite Hst in Hfile. simpl in Hfile. exists p, r. split; [done|]. split; [done|].
  destruct (checkpoint_never_ahead (SS := disk_store) (EN := address_encoder) tt NoopClassifier scan_metadata_default [Icmp] 2 0 disk_file sample_path
    (FDirect direct_fuser_new) sample_writer None sample_scans 2 true disk_empty p r)
    as (L & HL & _ & [Hcase|[(Hcase & _)|(k & Hk & Hrec)]]); [done|done|done|apply Permutation_swap|done| | |].
  - rewrite Hfile in Hcase. done.
  - rewrite Hfile in Hcase. done.
  - exists L, k. split; [exact HL|]. split; [exact Hk|exact Hrec].
Defined.

Lemma summary_counts_written_witness : ∃ p s,
  sample_stream sample_scans false disk_empty = Some (p, Ok s) ∧ ds_records_emitted s = 2 ∧
  ∃ devices, length devices = 2 ∧ dk_durable (pi_world p) = pair RkDevice <$> devices.
Proof.
  assert (∃ p s, sample_stream sample_scans false disk_empty = Some (p, Ok s)) as (p & s & Hst).
  { destruct (sample_stream sample_scans false disk_empty) as [[p [s|e]]|] eqn:Hst; [by eauto|..];
      exfalso; assert (snd <$> sample_result (sample_stream sample_scans false disk_empty) = Some true)
        as H by (by vm_compute); by rewrite Hst in H. }
  assert (('(_, r) ← sample_stream sample_scans false disk_empty;
    match r with
    | Ok s => Some (ds_records_emitted s, ds_links_emitted s, ds_profiles_emitted s)
    | Err _ => None
    end) = Some (2, 0, 0)) as Hs by (by vm_compute).
  rewrite Hst in Hs. injection Hs as Hr Hl Hp. exists p, s. split; [done|]. split; [done|].
  destruct (summary_counts_written (SS := disk_store) (EN := address_encoder) tt NoopClassifier scan_metadata_default [Icmp] 2 0 disk_file sample_path
    (FDirect direct_fuser_new) (Some sample_writer) None sample_scans 2 false disk_empty p s)
    as (ds & ls & ps & Hw & Hd & H1 & H2 & H3); [apply Permutation_swap|exact Hst|].
  exists ds. clear Hst. split; [congruence|].
  assert (ls = []) as -> by (apply length_zero_iff_nil; congruence).
  assert (ps = []) as -> by (apply length_zero_iff_nil; congruence).
  simpl in Hw, Hd. rewrite Hd, Hw. simpl. by rewrite app_nil_r.
Defined.
End witnesses.
