(* ===== verification/Run.v ===== *)
(** * A discovery run: [run_discovery] and [run_discovery_core] of [pipeline.rs]

    From options to a summary: the checks before anything is opened, the plan (fresh
    or replayed from a checkpoint), what the run is built from, and the streaming
    pipeline over the scans the scheduler sends. *)

From S2P Require Import Prelude Net F64 Model FuserCore UnionFind Identity IdentityFacts.
From S2P Require Import CorrelateFacts IdentityTheorems Fuser Topology.
From S2P Require Import Classifier Resolver Sink Tee Kafka Nats SinkConfig GnmiPath ProberConfig.
From S2P Require Import CollectionProfile Encoder Scheduler Config Checkpoint Pipeline.

(** The context every probe of a run gets: the timeout in milliseconds, the retries and
    the permits of the shared port budget. *)
Record ProbeCtx : Type := mkProbeCtx {
  px_timeout_ms : Z;
  px_retries : Z;
  px_port_budget : option Z;
}.

(** [u32 -> usize] with the default applied. *)
Definition effective_max_concurrent `{IpNetLib} (scenario : DiscoverScenarioConfig) : Z :=
  Z.max (default DEFAULT_CONCURRENCY (bp_max_concurrent (sc_base scenario))) 1.

Section run.
Context `{NL : IpNetLib, UC : UnicodeCase, FD : F64Display, FE : ForeignErrors, MS : MibSource,
  HO : HashOrder, FT : Features}.
Context {RL : RegexLib} {PL : ProberLib} {IE : IoErrors} {ED : ErrorDisplay}.
Context {W : Type} {FS : FsLib W} {SC : ScanCodec} {SS : SinkStore W} {EL : Elapsed W}.
Context {JW : JsonWriter} (flag : W → bool) (set_flag : bool → W → W).

(** What [run_discovery_core] has built when it calls [stream_discovery]. *)
Record RunSetup : Type := mkRunSetup {
  rs_metadata : ScanMetadata;
  rs_plan : ResolvedPlan;
  rs_resume_base : Z;
  rs_targets_resolved : Z;
  rs_scheduler : BoundedScheduler;
  rs_ctx : ProbeCtx;
  rs_encoder_config : EncoderConfig;
  rs_fuser : AnyFuser;
  rs_classifier : AnyClassifier;
  rs_probers : list AnyProber;
  rs_unresolvable : list Str;
  rs_writer : option CheckpointWriter;
  rs_stream : list ResolvedTarget;
}.

(** The loop over the configured probers. *)
Fixpoint create_probers (configs : list ProberConfig) : Result RastreoError (list AnyProber) :=
  match configs with
  | [] => Ok []
  | config :: rest => p ← create_prober config; ps ← create_probers rest; mret (p :: ps)
  end.

(** Where the plan comes from: a resume replays the checkpoint's pins and identity.
    [scan_id] and [now] are the identifier and the clock reading a fresh scan takes. *)
Definition scan_origin (scenario : DiscoverScenarioConfig) (resolver : ResolverOps)
    (scan_id : Str) (now : SystemTime) (resume_from : option Checkpoint)
    : Result RastreoError (ScanMetadata * ResolvedPlan * Z) :=
  match resume_from with
  | Some checkpoint =>
      plan ← from_pinned now (sc_targets scenario) (ck_dns_pins checkpoint);
      mret (scan_metadata_resumed scenario (ck_scan_id checkpoint) (ck_initiated_at checkpoint), plan,
            ck_highest_flushed_index checkpoint)
  | None =>
      plan ← op_plan resolver now (sc_targets scenario);
      mret (scan_metadata_new scan_id now scenario, plan, 0)
  end.

Definition skip_done (resume_base : Z) (stream : list ResolvedTarget) : list ResolvedTarget :=
  if 0 <? resume_base then drop (Z.to_nat resume_base) stream else stream.

(** [None] is the panic of a rate the pacer cannot express. *)
Definition core_setup (scenario : DiscoverScenarioConfig) (resolver : ResolverOps) (structured : bool)
    (checkpoint : option CheckpointConfig) (resume_from : option Checkpoint) (scan_id : Str)
    (now : SystemTime) : option (Result RastreoError RunSetup) :=
  match scan_origin scenario resolver scan_id now resume_from with
  | Err e => Some (Err e)
  | Ok (metadata, plan, resume_base) =>
      let max_concurrent := effective_max_concurrent scenario in
      scheduler ← with_probe_rate (bp_probe_rate (sc_base scenario))
                    (bounded_new (Z.to_nat max_concurrent));
      let ctx := mkProbeCtx (default DEFAULT_TIMEOUT_MS (bp_timeout_ms (sc_base scenario)))
                   (default 0 (bp_retries (sc_base scenario))) (Some max_concurrent) in
      let encoder_config := effective_encoder_config scenario in
      Some (
        _ ← ensure_encoder_output_fits_sink encoder_config structured;
        fuser ← create_fuser (effective_fuser_config scenario);
        classifier ← create_classifier (effective_classifier_config scenario);
        probers ← create_probers (sc_probers scenario);
        mret {|
          rs_metadata := metadata; rs_plan := plan; rs_resume_base := resume_base;
          rs_targets_resolved := total_hosts plan; rs_scheduler := scheduler; rs_ctx := ctx;
          rs_encoder_config := encoder_config; rs_fuser := fuser; rs_classifier := classifier;
          rs_probers := probers;
          rs_unresolvable := target_display <$> unresolvable_targets plan;
          rs_writer := (λ config, with_resume_base resume_base
            (writer_new config metadata (resume_fingerprint scenario) (dns_pins plan))) <$> checkpoint;
          rs_stream := skip_done resume_base (into_stream plan) |})
  end.

Definition with_unresolvable (targets : list Str) (s : DiscoverySummary) : DiscoverySummary := {|
  ds_targets_resolved := ds_targets_resolved s; ds_probe_attempts := ds_probe_attempts s;
  ds_records_emitted := ds_records_emitted s; ds_links_emitted := ds_links_emitted s;
  ds_profiles_emitted := ds_profiles_emitted s; ds_unresolvable_targets := targets;
  ds_error_counts := ds_error_counts s; ds_probes_by_kind := ds_probes_by_kind s;
  ds_dlq_records := ds_dlq_records s;
  ds_dlq_records_by_type_and_class := ds_dlq_records_by_type_and_class s;
  ds_sink_type := ds_sink_type s; ds_cancelled := ds_cancelled s;
  ds_first_probe_error := ds_first_probe_error s; ds_elapsed := ds_elapsed s;
|}.

(** [stream_discovery] over what a finished scan sent, and the summary completed. *)
Definition core_stream (setup : RunSetup) (sink : Handle) (progress : option DiscoveryProgress)
    (scans : list TargetScan) (cancelled : bool) (w : W)
    : option (W * Result RastreoError DiscoverySummary) :=
  match stream_discovery (EN := create_encoder flag set_flag (rs_encoder_config setup)) sink
          (rs_classifier setup) (rs_metadata setup) ((λ p, prober_kind p) <$> rs_probers setup)
          (rs_targets_resolved setup) (rs_resume_base setup) (rs_fuser setup) (rs_writer setup)
          progress scans cancelled w with
  | None => None
  | Some (p, r) => Some (pi_world p, with_unresolvable (rs_unresolvable setup) <$> r)
  end.

(** ** [run_discovery] *)

Record RunOptions : Type := mkRunOptions {
  ro_scenario : DiscoverScenarioConfig;
  ro_resolver : option ResolverOps;
  ro_sink : option Handle;
  ro_progress : option DiscoveryProgress;
  ro_checkpoint : option CheckpointConfig;
}.

(** [HickoryResolver::from_system], and [create_sink] with the sink boxed in the world. *)
Context (system_resolver : Result RastreoError ResolverOps).
Context (open_sink : SinkConfig → W → W * Result RastreoError Handle).
Context {KL : KafkaLib W}.

(** What is settled before [run_discovery_core]: the checkpoint to resume from, the
    resolver and the sink, in the order the code asks for them. *)
Definition run_prepare (opts : RunOptions) (w : W)
    : W * Result RastreoError (option Checkpoint * ResolverOps * Handle) :=
  let scenario := ro_scenario opts in
  match
    _ ← scenario_validate scenario;
    resume_from ← match ro_checkpoint opts with
                  | Some config => map_err EResume (preflight_checkpoint_request scenario config w)
                  | None => Ok None
                  end;
    resolver ← match ro_resolver opts with Some r => Ok r | None => system_resolver end;
    mret (resume_from, resolver)
  with
  | Err e => (w, Err e)
  | Ok (resume_from, resolver) =>
      match ro_sink opts with
      | Some sink => (w, Ok (resume_from, resolver, sink))
      | None =>
          let sink_config := default CfgStdout (bp_sink (sc_base scenario)) in
          match ensure_encoder_output_fits_sink (effective_encoder_config scenario)
                  (config_requires_structured_records sink_config) with
          | Err e => (w, Err e)
          | Ok _ =>
              let '(w, sink) := open_sink sink_config w in
              (w, (λ sink, (resume_from, resolver, sink)) <$> sink)
          end
      end
  end.

(** The whole run. The identifier and the clock reading a fresh scan takes, and what the
    scheduler sends with the cancel flag when it ends, are the environment's; [None] is a
    panic. *)
Definition run_discovery (scan_id : Str) (now : SystemTime)
    (run_scan : RunSetup → W → W * (list TargetScan * bool)) (opts : RunOptions) (w : W)
    : option (W * Result RastreoError DiscoverySummary) :=
  match run_prepare opts w with
  | (w, Err e) => Some (w, Err e)
  | (w, Ok (resume_from, resolver, sink)) =>
      match core_setup (ro_scenario opts) resolver (h_requires_structured_records sink w)
              (ro_checkpoint opts) resume_from scan_id now with
      | None => None
      | Some (Err e) => Some (w, Err e)
      | Some (Ok setup) =>
          let '(w, (scans, cancelled)) := run_scan setup w in
          core_stream setup sink (ro_progress opts) scans cancelled w
      end
  end.
End run.
