(* ===== verification/Plan.v ===== *)
(** * The plan of a run: [plan.rs] and [RunOptions::plan]

    What a scenario would do, rendered without probing: the stages a scenario alone
    determines, and the plan that counts a resolution onto them. *)

From S2P Require Import Prelude Net F64 Model FuserCore Fuser Classifier Resolver Sink Tee.
From S2P Require Import Kafka Nats SinkConfig GnmiPath ProberConfig Encoder Config Pipeline Run.

Record PlanKnobs : Type := mkPlanKnobs {
  kn_max_concurrent : Z;
  kn_probe_rate : option Z;
  kn_retries : Z;
  kn_timeout_ms : Z;
}.

Record ScenarioPlan : Type := mkScenarioPlan {
  pl_scenario : Str;
  pl_probers : list Str;
  pl_fuser : Str;
  pl_classifier : Str;
  pl_encoder : Str;
  pl_sink : Str;
  pl_knobs : PlanKnobs;
}.

Inductive TargetResolution : Type :=
  | TrResolved (addresses : ResolvedAddresses)
  | TrUnresolvable
  | TrError (error : Str).

Record PlannedTarget : Type := mkPlannedTarget {
  pt_target : Str;
  pt_resolution : TargetResolution;
}.

(** The stages, with the targets and the counts a resolution adds. *)
Record DiscoveryPlan : Type := mkDiscoveryPlan {
  dpl_stages : ScenarioPlan;
  dpl_targets : list PlannedTarget;
  dpl_total_probes : Z;
  dpl_refusal : option Str;
}.

(** ** Rendering *)

Definition format_ports (ports : list Z) : Str := join (s! ", ") (fmt_dec <$> ports).

(** The derived [Debug] of the fieldless enums. *)
Definition udp_protocol_debug (p : UdpProtocol) : Str :=
  match p with
  | UdpNtp => s! "Ntp" | SipOptions => s! "SipOptions"
  | MemcachedStats => s! "MemcachedStats" | StunBinding => s! "StunBinding"
  end.

Definition snmp_version_debug (v : SnmpVersion) : Str :=
  match v with SnmpV1 => s! "V1" | SnmpV2c => s! "V2c" | SnmpV3 => s! "V3" end.

Definition render_prober `{PL : ProberLib} (config : ProberConfig) : Str :=
  match config with
  | CfgTcpConnect ports => s! "tcp_connect (ports " ++ format_ports ports ++ s! ")"
  | CfgHttp ports _ _ _ _ => s! "http (ports " ++ format_ports ports ++ s! ")"
  | CfgDns ports query_names _ _ _ =>
      s! "dns (ports " ++ format_ports ports ++ s! ", queries " ++ join (s! ", ") query_names ++ s! ")"
  | CfgUdp ports protocol =>
      s! "udp (ports " ++ format_ports ports ++ s! ", protocol " ++ udp_protocol_debug protocol ++ s! ")"
  | CfgSnmp ports version _ _ =>
      s! "snmp (ports " ++ format_ports ports ++ s! ", " ++ snmp_version_debug version ++ s! ")"
  | CfgLldp ports version _ _ _ =>
      s! "lldp (ports " ++ format_ports ports ++ s! ", " ++ snmp_version_debug version ++ s! ")"
  | CfgArp interface => s! "arp (interface " ++ str_debug interface ++ s! ")"
  | CfgNdp interface => s! "ndp (interface " ++ str_debug interface ++ s! ")"
  | CfgSsh ports => s! "ssh (ports " ++ format_ports ports ++ s! ")"
  | CfgIcmp count interval_ms =>
      s! "icmp (count " ++ fmt_dec count ++ s! ", interval_ms " ++ fmt_dec interval_ms ++ s! ")"
  | CfgTls ports => s! "tls (ports " ++ format_ports ports ++ s! ")"
  | CfgGnmi ports plaintext _ _ _ _ =>
      s! "gnmi (ports " ++ format_ports ports ++ s! ", " ++
      (if plaintext then s! "plaintext" else s! "tls") ++ s! ")"
  | CfgReverseDns resolvers =>
      if is_empty resolvers then s! "reverse_dns (system resolvers)"
      else s! "reverse_dns (resolvers " ++ join (s! ", ") (ip_display <$> resolvers) ++ s! ")"
  end.

Definition inner_fuser (config : FuserConfig) : option FuserConfig :=
  match config with
  | CDirect _ _ _ => None
  | CMibEnrichment _ inner => Some inner
  | CIdentity _ inner => Some inner
  end.

Definition bool_display (b : bool) : Str := if b then s! "true" else s! "false".

Definition render_fuser_layer `{FD : F64Display} (config : FuserConfig) : Str :=
  match config with
  | CDirect include_unreachable baseline per_signal =>
      s! "direct (include_unreachable " ++
      bool_display (default DEFAULT_INCLUDE_UNREACHABLE include_unreachable) ++
      s! ", confidence_baseline " ++ f64_display (default DEFAULT_CONFIDENCE_BASELINE baseline) ++
      s! ", confidence_per_signal " ++
      f64_display (default DEFAULT_CONFIDENCE_PER_SIGNAL per_signal) ++ s! ")"
  | CMibEnrichment data_path _ =>
      match data_path with
      | Some path =>
          if is_empty path then s! "mib_enrichment (bundled table)"
          else s! "mib_enrichment (table " ++ path ++ s! ")"
      | None => s! "mib_enrichment (bundled table)"
      end
  | CIdentity hints _ =>
      if is_empty (ih_vrrp_groups hints) then s! "identity"
      else s! "identity (" ++ fmt_dec (Z.of_nat (length (ih_vrrp_groups hints))) ++ s! " vrrp groups)"
  end.

(** The loop from the outermost layer inwards, by the nesting of the configuration. *)
Fixpoint render_layers `{FD : F64Display} (out : Str) (layer : FuserConfig) : Str :=
  let out := (if is_empty out then out else out ++ s! " over ") ++ render_fuser_layer layer in
  match layer with
  | CDirect _ _ _ => out
  | CMibEnrichment _ inner => render_layers out inner
  | CIdentity _ inner => render_layers out inner
  end.

Definition render_fuser_chain `{FD : F64Display} (config : FuserConfig) : Str := render_layers [] config.

Definition render_fuser `{FD : F64Display, FT : Features} (fuser : option FuserConfig) : Str :=
  match fuser with
  | Some config => render_fuser_chain config
  | None => render_fuser_chain default_fuser_config
  end.

Definition render_classifier_config (config : ClassifierConfig) : Str :=
  match config with
  | CNoop => s! "noop"
  | CRules merge_mode platform_rules role_rules =>
      s! "rules (merge_mode " ++ merge_mode_label merge_mode ++ s! ", platform_rules " ++
      fmt_dec (Z.of_nat (length platform_rules)) ++ s! ", role_rules " ++
      fmt_dec (Z.of_nat (length role_rules)) ++ s! ")"
  end.

Definition render_classifier (classifier : option ClassifierConfig) : Str :=
  match classifier with
  | Some config => render_classifier_config config
  | None => render_classifier_config default_classifier_config
  end.

Definition render_encoder (encoder : EncoderConfig) : Str :=
  match encoder with EncNdjson => s! "ndjson" | EncTable _ => s! "table" end.

Definition render_sink (sink : option SinkConfig) : Str :=
  match sink with
  | None => s! "stdout (default)"
  | Some sink =>
      let label := sink_type_label (config_sink_type sink) in
      match sink with
      | CfgStdout | CfgMemory => label
      | CfgFile path => label ++ s! ": " ++ path
      | CfgKafka brokers topic _ _ _ _ _ _ _ =>
          label ++ s! ": brokers=" ++ join (s! ",") brokers ++ s! " topic=" ++ topic
      | CfgNats servers subject stream _ _ _ _ _ _ =>
          label ++ s! ": servers=" ++ redacted_server_list servers ++ s! " subject=" ++ subject ++
          s! " stream=" ++ stream
      end
  end.

Definition render_destinations (destinations : list SinkType) : Str :=
  if is_empty destinations then s! "<none>"
  else foldl (λ out d, (if is_empty out then out else out ++ s! ", ") ++ sink_type_label d) [] destinations.

Definition format_prober_line (probers : list Str) : Str :=
  if is_empty probers then s! "<none>" else join (s! ", ") probers.

Definition format_addresses (a : ResolvedAddresses) : Str :=
  let held := length (ra_sample a) in
  let complete := ra_total a <=? Z.of_nat held in
  let shown := if complete then held else 3%nat in
  let buf := foldl (λ buf ip, (if is_empty buf then buf else buf ++ s! ", ") ++ ip_display ip) []
               (take shown (ra_sample a)) in
  if complete then buf else buf ++ s! ", ... (" ++ fmt_dec (ra_total a) ++ s! " addresses)".

(** The arrow of a target's line. *)
Definition arrow : Str := s! " " ++ [8594] ++ s! " ".

Definition render_target (p : PlannedTarget) : Str :=
  s! "      " ++ pt_target p ++ arrow ++
  match pt_resolution p with
  | TrResolved addresses => format_addresses addresses
  | TrUnresolvable => s! "<unresolvable: no addresses>"
  | TrError err => s! "<error: " ++ err ++ s! ">"
  end.

(** [Display for DiscoveryPlan], as its lines. *)
Definition plan_lines (p : DiscoveryPlan) : list Str :=
  let s := dpl_stages p in
  let k := pl_knobs s in
  [s! "  scenario: " ++ pl_scenario s; s! "    targets:"] ++
  (render_target <$> dpl_targets p) ++
  [s! "    probers: " ++ format_prober_line (pl_probers s);
   s! "    fuser: " ++ pl_fuser s;
   s! "    classifier: " ++ pl_classifier s;
   s! "    encoder: " ++ pl_encoder s;
   s! "    sink: " ++ pl_sink s;
   s! "    concurrency: " ++ fmt_dec (kn_max_concurrent k);
   match kn_probe_rate k with
   | Some rate => s! "    rate: " ++ fmt_dec rate ++ s! "/sec"
   | None => s! "    rate: unlimited"
   end;
   s! "    retries: " ++ fmt_dec (kn_retries k);
   s! "    timeout_ms: " ++ fmt_dec (kn_timeout_ms k)].

Definition plan_display (p : DiscoveryPlan) : Str := mjoin ((λ l, l ++ [10]) <$> plan_lines p).

(** ** Building *)

Section plan.
Context `{NL : IpNetLib, UC : UnicodeCase, FD : F64Display, FE : ForeignErrors, MS : MibSource,
  HO : HashOrder, FT : Features}.
Context {RL : RegexLib} {PL : ProberLib} {ED : ErrorDisplay}.
Context {W : Type} {KL : KafkaLib W} {SS : SinkStore W}.

(** [ScenarioPlan::build]; the run checks the scenario the same way. *)
Definition build_plan (scenario : Str) (config : DiscoverScenarioConfig) (knobs : PlanKnobs)
    (destinations : option (list SinkType)) : Result RastreoError ScenarioPlan :=
  _ ← scenario_validate config;
  Ok {|
    pl_scenario := scenario;
    pl_probers := render_prober <$> sc_probers config;
    pl_fuser := render_fuser (bp_fuser (sc_base config));
    pl_classifier := render_classifier (bp_classifier (sc_base config));
    pl_encoder := render_encoder (effective_encoder_config config);
    pl_sink := match destinations with
               | Some destinations => render_destinations destinations
               | None => render_sink (bp_sink (sc_base config))
               end;
    pl_knobs := knobs;
  |}.

Definition planned_target (e : Target * Result RastreoError SpecContribution) : PlannedTarget := {|
  pt_target := target_display e.1;
  pt_resolution := match e.2 with
                   | Ok (Addresses addresses) => TrResolved addresses
                   | Ok Unresolvable => TrUnresolvable
                   | Err err => TrError (rastreo_error_display err)
                   end;
|}.

(** [ScenarioPlan::resolve]. *)
Definition plan_resolve (stages : ScenarioPlan) (resolution : ScenarioResolution) : DiscoveryPlan := {|
  dpl_stages := stages;
  dpl_targets := planned_target <$> sr_entries resolution;
  dpl_total_probes := saturating_mul USIZE_MAX (scenario_total_hosts resolution)
                        (Z.of_nat (length (pl_probers stages)));
  dpl_refusal := rastreo_error_display <$> refusal resolution;
|}.

(** [RunOptions::plan]. *)
Definition run_plan (opts : RunOptions) (label : Str) (knobs : PlanKnobs) (w : W)
    : Result RastreoError ScenarioPlan :=
  build_plan label (ro_scenario opts) knobs ((λ sink, h_destinations sink w) <$> ro_sink opts).
End plan.
