(* ===== verification/RunTheorems.v ===== *)
(** * Validation is complete, and resuming continues where the scan stopped *)

From S2P Require Import Prelude Net Resolver ResolverFacts ResolverTheorems F64 Model FuserCore.
From S2P Require Import UnionFind Identity IdentityFacts CorrelateFacts.
From S2P Require Import IdentityTheorems Fuser Topology Classifier Sink Tee Kafka Nats.
From S2P Require Import KafkaTheorems Scheduler CollectionProfile Encoder GnmiPath SinkConfig.
From S2P Require Import ProberConfig Config Checkpoint Pipeline PipelineFacts Run.
From S2P Require Import Plan.

Section run.
Context `{NL : IpNetLib, UC : UnicodeCase, FD : F64Display, FE : ForeignErrors, MS : MibSource,
  HO : HashOrder, FT : Features}.
Context {RL : RegexLib} {PL : ProberLib} {W : Type} {KL : KafkaLib W} {SC : ScanCodec}.

(** ** Validation *)

Lemma create_probers_total configs :
  try_for_each (λ p, (λ _, tt) <$> create_prober p) configs = Ok tt →
  ∃ ps, create_probers configs = Ok ps ∧ length ps = length configs.
Proof using Type.
  induction configs as [|c configs IH]; simpl; [by exists []|].
  destruct (create_prober c) as [p|e]; simpl; [|done]. intros (ps & -> & Hl)%IH.
  exists (p :: ps). simpl. split; [done|lia].
Qed.

(** C37. Validation is complete: for a scenario [validate] accepts, building a run
    cannot fail in its fuser, its classifier or any of its probers. What is left to
    refuse it is the plan (names, caps, allow-lists) and an encoder the sink handed in
    cannot carry, and the run built has one prober per configured one. *)
Theorem validated_run_builds scenario resolver structured checkpoint resume_from scan_id now r :
  scenario_validate scenario = Ok tt →
  core_setup scenario resolver structured checkpoint resume_from scan_id now = Some r →
  match r with
  | Err e =>
      scan_origin scenario resolver scan_id now resume_from = Err e ∨
      ensure_encoder_output_fits_sink (effective_encoder_config scenario) structured = Err e
  | Ok setup =>
      length (rs_probers setup) = length (sc_probers scenario) ∧ sc_probers scenario ≠ [] ∧
      create_fuser (effective_fuser_config scenario) = Ok (rs_fuser setup) ∧
      create_classifier (effective_classifier_config scenario) = Ok (rs_classifier setup)
  end.
Proof using Type.
  unfold scenario_validate, core_setup. intros Hv Hs. inv_ok.
  assert (sc_probers scenario ≠ []) as Hne by (by intros Hn; rewrite Hn in *).
  repeat match goal with x : unit |- _ => destruct x end.
  match goal with H : try_for_each _ (sc_probers _) = Ok _ |- _ =>
    destruct (create_probers_total _ H) as (ps & Hcp & Hl) end.
  match goal with H : create_fuser _ = Ok _ |- _ => rewrite H in * end.
  match goal with H : create_classifier _ = Ok _ |- _ => rewrite H in * end.
  destruct (scan_origin _ _ _ _ _) as [[[md plan] base]|e]; [|by simplify_eq; left].
  destruct (with_probe_rate _ _) as [sched|]; simpl in Hs; [|done]. injection Hs as <-.
  destruct (ensure_encoder_output_fits_sink _ structured) as [[]|e]; simpl; [|by right].
  rewrite Hcp. simpl. done.
Qed.

(** ** Resuming *)

(** A plan whose pins rebuild it. *)
Definition replayable (targets : list Target) (p : ResolvedPlan) : Prop :=
  ∀ now, from_pinned now targets (dns_pins p) = Ok (mkPlan (specs p) now).

(** A resolver whose plans are replayed by their pins. *)
Class ReplayableResolver (resolver : ResolverOps) : Prop :=
  plan_replays : ∀ now targets p, op_plan resolver now targets = Ok p → replayable targets p.

#[export] Instance hickory_replayable h : ReplayableResolver (hickory h).
Proof using Type. intros now targets p Hp now'. exact (from_pinned_replays h now now' targets p Hp). Qed.

#[export] Instance guarded_replayable g :
  ReplayableResolver (g_inner g) → ReplayableResolver (guarded g).
Proof using Type.
  intros Hg now targets p Hp. simpl in Hp. unfold guarded_plan in Hp. inv_ok. subst.
  by eapply Hg.
Qed.

Lemma pinned_specs_replay targets pins ss :
  pinned_specs targets pins = Ok ss → pinned_specs targets (omap dns_pin ss) = Ok ss.
Proof using Type.
  revert pins ss. induction targets as [|t targets IH]; intros pins ss; simpl; [by intros [= <-]|].
  destruct t as [ip|net|a b|name].
  - intros H. inv_ok. subst. simpl. erewrite IH by done. done.
  - destruct (cidr_bounds net) as [[first last] n]. intros H. inv_ok. subst. simpl. erewrite IH by done. done.
  - destruct (range_bounds a b) as [[[first last] n]|e]; simpl; [|done]. intros H. inv_ok. subst. simpl.
    erewrite IH by done. done.
  - destruct pins as [|[t ips] pins]; [done|]. case_bool_decide; [done|]. intros H'. inv_ok. subst. simpl.
    rewrite bool_decide_eq_false_2 by naive_solver. erewrite IH by done. done.
Qed.

Lemma pinned_replayable now targets pins p : from_pinned now targets pins = Ok p → replayable targets p.
Proof using Type.
  unfold from_pinned. intros H now'. inv_ok. subst. unfold from_pinned, dns_pins. simpl.
  erewrite pinned_specs_replay by done. done.
Qed.

Lemma origin_replayable `{RR : !ReplayableResolver resolver} scenario scan_id now from m plan base :
  scan_origin scenario resolver scan_id now from = Ok (m, plan, base) →
  replayable (sc_targets scenario) plan.
Proof using Type.
  unfold scan_origin. destruct from as [c|]; intros H; inv_ok; simplify_eq.
  - by eapply pinned_replayable.
  - by eapply RR.
Qed.

(** What a target is, apart from when it was resolved. *)
Definition target_identity (t : ResolvedTarget) : IpAddr * Target := (rt_ip t, rt_original t).

Lemma stream_clock ss now now' :
  target_identity <$> into_stream (mkPlan ss now) = target_identity <$> into_stream (mkPlan ss now').
Proof using Type.
  unfold into_stream. cbn [specs resolved_at]. induction ss as [|s ss IH]; [done|].
  assert (∀ n, mjoin ((λ x, spec_into_stream x n) <$> s :: ss) =
    spec_into_stream s n ++ mjoin ((λ x, spec_into_stream x n) <$> ss)) as Hcons by done.
  rewrite !Hcons, !fmap_app, IH. f_equal.
  destruct s; simpl; unfold block_stream; by rewrite <-!list_fmap_compose.
Qed.

Lemma skip_done_drop base l : 0 ≤ base → skip_done base l = drop (Z.to_nat base) l.
Proof using Type.
  intros Hb. unfold skip_done. destruct (Z.ltb_spec 0 base); [done|].
  by assert (base = 0) as -> by lia.
Qed.

(** C36. A resume continues the scan where it stopped, without a gap. Take any run
    built for a scenario, itself fresh or resumed, and the checkpoint its writer
    records after [k] of its targets. Building a run from that checkpoint succeeds with
    the scan's identity, host count and unresolvable names, however DNS would answer
    now, and its stream is the rest of the first one's from the [k]th target on, that
    target included: each target is among the first [k] or probed again. *)
Theorem resume_continues (resolver : ResolverOps) `{RR : !ReplayableResolver resolver} scenario structured
    config1 config2 resume_from id1 id2 now1 now2 setup1 (k : nat) :
  core_setup scenario resolver structured (Some config1) resume_from id1 now1 = Some (Ok setup1) →
  0 ≤ rs_resume_base setup1 → (1 ≤ k ≤ length (rs_stream setup1))%nat →
  Z.of_nat (length (into_stream (rs_plan setup1))) < 2 ^ 64 →
  ∃ cw setup2,
    rs_writer setup1 = Some cw ∧
    core_setup scenario resolver structured (Some config2)
      (Some (checkpoint_of (record_index (Z.of_nat k) cw) cw)) id2 now2 = Some (Ok setup2) ∧
    target_identity <$> rs_stream setup2 = target_identity <$> drop (k - 1) (rs_stream setup1) ∧
    rs_resume_base setup2 = rs_resume_base setup1 + Z.of_nat k - 1 ∧
    rs_targets_resolved setup2 = rs_targets_resolved setup1 ∧
    rs_unresolvable setup2 = rs_unresolvable setup1 ∧
    sm_scan_id (rs_metadata setup2) = sm_scan_id (rs_metadata setup1) ∧
    sm_initiated_at (rs_metadata setup2) = sm_initiated_at (rs_metadata setup1) ∧
    (dns_pins (rs_plan setup2) = dns_pins (rs_plan setup1)).
Proof using Type.
  unfold core_setup. intros Hs Hb Hk Hlen.
  destruct (scan_origin scenario resolver id1 now1 resume_from) as [[[m plan] base]|e] eqn:Ho; [|done].
  pose proof (origin_replayable _ _ _ _ _ _ _ Ho) as Hrep.
  destruct (with_probe_rate _ _) as [sched|]; simpl in Hs; [|done]. injection Hs as Hs.
  apply Result_bind_Ok in Hs as (u1 & He & Hs). apply Result_bind_Ok in Hs as (f & Hf & Hs).
  apply Result_bind_Ok in Hs as (cl & Hc & Hs). apply Result_bind_Ok in Hs as (ps & Hp & Hs).
  injection Hs as <-. simpl in *. rewrite skip_done_drop in Hk by done. rewrite length_drop in Hk.
  set (cw := with_resume_base _ _).
  assert (record_index (Z.of_nat k) cw = base + Z.of_nat k - 1) as Hidx.
  { unfold record_index, cw. simpl. unfold wrap. rewrite Z.mod_small by lia. lia. }
  exists cw. rewrite Hidx. unfold scan_origin. 
  change (cw_dns_pins cw) with (dns_pins plan).
  rewrite (Hrep now2). simpl.
  rewrite He, Hf, Hc. simpl. rewrite Hp. simpl. eexists. split; [done|]. split; [reflexivity|]. simpl.
  split_and!; try done.
  rewrite !skip_done_drop by lia. rewrite drop_drop, !fmap_drop. f_equal; [lia|].
  rewrite (stream_clock _ now2 (resolved_at plan)). by destruct plan.
Qed.
End run.

(** ** Witnesses *)

Section witnesses.
#[local] Existing Instance sample_ipnet.
#[local] Existing Instance sample_errors.
#[local] Existing Instance ascii_case.
#[local] Existing Instance reversed.
#[local] Existing Instance plain_display.
#[local] Existing Instance no_mib.
#[local] Existing Instance no_regex.
#[local] Existing Instance index_codec.
#[local] Existing Instance sample_kafka.
Definition all_features : Features := true.
#[local] Existing Instance all_features.

Definition no_probing : ProberLib := {|
  HttpClient := unit; DnsResolver := unit; http_client_build _ := Ok tt; interface_names := [];
  metadata_value_valid _ := true; system_resolver_load := Ok tt; system_resolver_build := Ok tt;
  custom_resolver_build _ := Ok tt; str_debug s := s;
|}.
#[local] Existing Instance no_probing.

(** A block, a range and a name, probed on one port, written to a file. *)
Definition sample_scenario : DiscoverScenarioConfig :=
  mkScenario (mkBaseProbeConfig (Some (s! "lab")) None None None None None
    (Some (CDirect None None None)) (Some CNoop) (Some (CfgFile (s! "out.ndjson"))) None)
    sample_targets [CfgTcpConnect [22]].

Definition sample_setup :=
  core_setup sample_scenario (hickory sample_hickory) false
    (Some (mkCheckpointConfig (s! "scan.ckpt") 1 false)) None (s! "id") 0.

(** What the witnesses read off a setup. *)
Definition setup_facts (r : option (Result RastreoError RunSetup)) : option (nat * nat * Z) :=
  match r with
  | Some (Ok s) => Some (length (rs_stream s), length (into_stream (rs_plan s)), rs_resume_base s)
  | _ => None
  end.

Lemma sample_setup_ok : ∃ s, sample_setup = Some (Ok s) ∧ length (rs_stream s) = 11%nat ∧
  length (into_stream (rs_plan s)) = 11%nat ∧ rs_resume_base s = 0.
Proof.
  assert (setup_facts sample_setup = Some (11%nat, 11%nat, 0)) as H by (by vm_compute).
  destruct sample_setup as [[s|e]|]; [|done|done]. simpl in H. injection H as H1 H2 H3. by exists s.
Qed.

Lemma validated_run_builds_witness : ∃ s,
  scenario_validate (W := SampleWorld) sample_scenario = Ok tt ∧ sample_setup = Some (Ok s) ∧
  length (rs_probers s) = 1%nat.
Proof.
  destruct sample_setup_ok as (s & Hs & _). exists s.
  assert (scenario_validate (W := SampleWorld) sample_scenario = Ok tt) as Hv by reflexivity.
  split; [exact Hv|]. split; [exact Hs|].
  exact (proj1 (validated_run_builds _ _ _ _ _ _ _ _ Hv Hs)).
Defined.

(** Eight of eleven targets done: the resumed run probes the last four. *)
Lemma resume_continues_witness : ∃ s1 s2,
  sample_setup = Some (Ok s1) ∧ rs_resume_base s2 = 7 ∧ length (rs_stream s2) = 4%nat ∧
  target_identity <$> rs_stream s2 = target_identity <$> drop 7 (rs_stream s1).
Proof.
  destruct sample_setup_ok as (s1 & Hs & Hl & Hp & Hb).
  destruct (resume_continues (hickory sample_hickory) sample_scenario false
    (mkCheckpointConfig (s! "scan.ckpt") 1 false) (mkCheckpointConfig (s! "scan.ckpt") 5 true)
    None (s! "id") (s! "other") 0 99 s1 8 Hs) as (cw & s2 & _ & _ & Hst & Hbase & _); [lia|lia|lia|].
  exists s1, s2. split; [exact Hs|]. split; [rewrite Hbase, Hb; reflexivity|]. split; [|exact Hst].
  apply (f_equal length) in Hst. rewrite !length_fmap, length_drop, Hl in Hst. exact Hst.
Defined.
End witnesses.

(** * A dry run predicts the run *)

Section plan.
Context `{NL : IpNetLib, UC : UnicodeCase, FD : F64Display, FE : ForeignErrors, MS : MibSource,
  HO : HashOrder, FT : Features}.
Context {RL : RegexLib} {PL : ProberLib} {ED : ErrorDisplay} {W : Type} {KL : KafkaLib W} {SC : ScanCodec}.

Lemma saturating_product m l k :
  0 ≤ m → 0 ≤ l → 0 ≤ k → saturating_mul m (Z.min m l) k = Z.min m (l * k).
Proof using Type.
  unfold saturating_mul. intros Hm Hl Hk. destruct (Z.le_gt_cases l m); [by rewrite (Z.min_r m l)|].
  rewrite (Z.min_l m l) by lia. destruct (Z.eq_dec k 0) as [->|]; [lia|]. nia.
Qed.

(** The targets a plan marks as having no addresses. *)
Definition marked_unresolvable (p : DiscoveryPlan) : list Str :=
  pt_target <$> List.filter (λ t, match pt_resolution t with TrUnresolvable => true | _ => false end)
                  (dpl_targets p).

Lemma marked_attributed stages p now :
  marked_unresolvable (plan_resolve stages (mkScenarioResolution (attribute p) (Ok p) now)) =
  target_display <$> unresolvable_targets p.
Proof using Type.
  rewrite <-attributed_unresolvable. unfold marked_unresolvable, scenario_unresolvable_targets. simpl.
  induction (attribute p) as [|[t r] l IH]; [done|]. rewrite fmap_cons. cbn [List.filter].
  destruct r as [[a|]|e]; [exact IH|exact (f_equal (cons _) IH)|exact IH].
Qed.

Lemma build_plan_probers label scenario knobs dest stages :
  build_plan label scenario knobs dest = Ok stages →
  scenario_validate scenario = Ok tt ∧ length (pl_probers stages) = length (sc_probers scenario).
Proof using Type.
  unfold build_plan. intros H. inv_ok. subst. destruct x. split; [done|apply length_fmap].
Qed.

(** A dry run predicts the run. For a scenario whose plan could be built, when the
    run's construction succeeds the plan has no refusal, its probe count is the number of
    targets the run streams times its probers (up to saturation at [usize::MAX]) and it
    marks as unresolvable exactly the targets the run's summary reports; when the run is
    refused, the plan carries that refusal and counts no probe, unless what was refused is
    the encoder for the sink handed in. *)
Theorem dry_run_predicts_run (resolver : ResolverOps) `{LR : !LawfulResolver resolver} scenario structured
    checkpoint scan_id now label knobs dest stages r :
  Forall target_wf (sc_targets scenario) →
  build_plan label scenario knobs dest = Ok stages →
  core_setup scenario resolver structured checkpoint None scan_id now = Some r →
  let plan := plan_resolve stages (resolve_scenario resolver now (sc_targets scenario)) in
  match r with
  | Ok setup =>
      dpl_refusal plan = None ∧
      dpl_total_probes plan =
        Z.min USIZE_MAX (Z.of_nat (length (rs_stream setup)) * Z.of_nat (length (rs_probers setup))) ∧
      marked_unresolvable plan = rs_unresolvable setup
  | Err e =>
      dpl_refusal plan = Some (rastreo_error_display e) ∧ dpl_total_probes plan = 0 ∨
      ensure_encoder_output_fits_sink (effective_encoder_config scenario) structured = Err e
  end.
Proof using Type.
  intros Hwf Hb Hs. apply build_plan_probers in Hb as [Hv Hlen].
  unfold core_setup, scan_origin in Hs. unfold resolve_scenario. cbv zeta.
  destruct (op_plan resolver now (sc_targets scenario)) as [p|e] eqn:Hp; simpl in Hs.
  - destruct (with_probe_rate _ _) as [sched|]; simpl in Hs; [|done]. injection Hs as <-.
    destruct (ensure_encoder_output_fits_sink _ structured) as [[]|e]; [|by right]. simpl.
    unfold scenario_validate in Hv. inv_ok. repeat match goal with x : unit |- _ => destruct x end.
    match goal with H : try_for_each _ (sc_probers _) = Ok _ |- _ =>
      destruct (create_probers_total _ H) as (ps & Hcp & Hl) end.
    match goal with H : create_fuser _ = Ok _ |- _ => rewrite H end.
    match goal with H : create_classifier _ = Ok _ |- _ => rewrite H end.
    simpl. rewrite Hcp. simpl. split; [done|].
    split; [|apply marked_attributed].
    rewrite Hlen, Hl. unfold scenario_total_hosts. simpl.
    rewrite (exact_total_hosts p) by eauto using lr_spec_exact.
    unfold saturating_sub. rewrite Z.sub_0_r, Z.max_r by (unfold USIZE_MAX, U64_MAX; lia).
    apply saturating_product; unfold USIZE_MAX, U64_MAX; lia.
  - simplify_eq. by left.
Qed.
End plan.

(** ** A concrete scenario *)

Section witnesses.
#[local] Existing Instance sample_ipnet.
#[local] Existing Instance sample_ipnet_laws.
#[local] Existing Instance sample_errors.
#[local] Existing Instance ascii_case.
#[local] Existing Instance reversed.
#[local] Existing Instance plain_display.
#[local] Existing Instance no_mib.
#[local] Existing Instance no_regex.
#[local] Existing Instance index_codec.
#[local] Existing Instance sample_kafka.
#[local] Existing Instance no_probing.
#[local] Existing Instance all_features.
#[local] Instance silent_errors : ErrorDisplay := λ _, [].

Definition sample_knobs : PlanKnobs := mkPlanKnobs 64 None 0 1000.

Definition sample_stages :=
  build_plan (W := SampleWorld) (s! "lab") sample_scenario sample_knobs None.

(** Eleven addresses and one prober. *)
Lemma dry_run_predicts_run_witness : ∃ stages s,
  sample_stages = Ok stages ∧ sample_setup = Some (Ok s) ∧
  dpl_total_probes (plan_resolve stages
    (resolve_scenario (hickory sample_hickory) 0 (sc_targets sample_scenario))) =
  Z.min USIZE_MAX (Z.of_nat (length (rs_stream s)) * Z.of_nat (length (rs_probers s))) ∧
  length (rs_stream s) = 11%nat.
Proof.
  destruct sample_setup_ok as (s & Hs & Hl & _).
  destruct (is_ok_Ok sample_stages ltac:(by vm_compute)) as [stages Hst].
  exists stages, s. split; [exact Hst|]. split; [exact Hs|]. split; [|exact Hl].
  exact (proj1 (proj2 (dry_run_predicts_run (W := SampleWorld) (hickory sample_hickory)
    (LR := hickory_lawful _ sample_hickory_wf) sample_scenario false _ (s! "id") 0 (s! "lab") sample_knobs None
    stages (Ok s) sample_targets_wf Hst Hs))).
Defined.
End witnesses.
