(* ===== verification/Env.v ===== *)
(** * Configuration from the environment

    [env.rs], the parsers of [observability/otlp_config.rs], the exporter settings of
    [observability/otlp.rs] and the settings of the server ([rastreo-server/src/state.rs],
    read in the order of [main.rs]). An environment is a value, as in the code: a reader
    is a function of it. *)

From S2P Require Import Prelude Net Resolver Sink.

(** ** [env.rs] *)

Inductive VarError : Type := NotPresent | NotUnicode.

(** A value of the environment: text, or bytes that are not UTF-8. *)
Inductive OsString : Type :=
  | OsText (s : Str)
  | OsRaw (raw : Bytes).

(** [trait Env]. *)
Class Env (E : Type) := env_var : E → Str → Result VarError Str.

Definition into_string (value : OsString) : Result VarError Str :=
  match value with OsText s => Ok s | OsRaw _ => Err NotUnicode end.

(** [MapEnv], the environment the tests (and the examples here) use. *)
Abbreviation MapEnv := (gmap Str OsString).

Definition map_env_set (env : MapEnv) (key : Str) (value : OsString) : MapEnv := <[key := value]> env.

Definition map_env_var (env : MapEnv) (key : Str) : Result VarError Str :=
  match env !! key with
  | None => Err NotPresent
  | Some value => into_string value
  end.

#[global] Instance map_env : Env MapEnv := map_env_var.

(** ** [observability/otlp_config.rs] *)

(** The ways [u64::from_str] fails. *)
Inductive ParseIntError : Type := IntEmpty | IntInvalidDigit | IntPosOverflow.

Inductive OtlpEnvError : Type :=
  | UnknownProtocol (name value : Str)
  | NotBoolean (name value : Str)
  | NotU64 (name value : Str) (source : ParseIntError)
  | MalformedHeaders (name : Str) (position : nat)
  | NotUtf8 (name : Str).

Inductive OtlpProtocol : Type := ProtoGrpc | ProtoHttpProtobuf.

(** [from_str] of an unsigned integer: an optional [+], then at least one digit; the first
    bad digit or the first overflow is reported. *)
Fixpoint parse_digits (max acc : Z) (s : Str) : Result ParseIntError Z :=
  match s with
  | [] => Ok acc
  | c :: rest =>
      if is_ascii_digit c then
        let acc := acc * 10 + (c - 48) in
        if max <? acc then Err IntPosOverflow else parse_digits max acc rest
      else Err IntInvalidDigit
  end.

Definition parse_uint (max : Z) (s : Str) : Result ParseIntError Z :=
  match s with
  | [] => Err IntEmpty
  | [c] => if (c =? 43) || (c =? 45) then Err IntInvalidDigit else parse_digits max 0 [c]
  | c :: rest => if c =? 43 then parse_digits max 0 rest else parse_digits max 0 s
  end.

Definition parse_u64 (s : Str) : Result ParseIntError Z := parse_uint U64_MAX s.

(** The settings read from an environment fail with one of these; the code keeps the text
    of an [anyhow] error, the model what it is about. *)
Inductive StartupError : Type :=
  | BadVariable (e : OtlpEnvError)
  | BadUtf8 (name : Str)
  | ReservedScenarioLabel (label : Str)
  | BadAllowlistEntry (entry : Str)
  | MissingOtlpEndpoint
  | MissingApiToken.

Section readers.
Context {E : Type} `{Env E} (env : E).

Definition parse_env_protocol (name : Str) (dflt : OtlpProtocol) : Result OtlpEnvError OtlpProtocol :=
  match env_var env name with
  | Ok raw =>
      let value := to_ascii_lowercase (trim raw) in
      if bool_decide (value = s! "grpc") then Ok ProtoGrpc
      else if bool_decide (value ∈ [s! "http-protobuf"; s! "http"]) then Ok ProtoHttpProtobuf
      else Err (UnknownProtocol name value)
  | Err NotPresent => Ok dflt
  | Err NotUnicode => Err (NotUtf8 name)
  end.

Definition parse_env_bool (name : Str) (dflt : bool) : Result OtlpEnvError bool :=
  match env_var env name with
  | Ok raw =>
      let value := to_ascii_lowercase (trim raw) in
      if bool_decide (value ∈ [s! "true"; s! "1"; s! "yes"; s! "on"]) then Ok true
      else if bool_decide (value ∈ [s! "false"; s! "0"; s! "no"; s! "off"]) then Ok false
      else Err (NotBoolean name raw)
  | Err NotPresent => Ok dflt
  | Err NotUnicode => Err (NotUtf8 name)
  end.

Definition parse_env_u64 (name : Str) (dflt : Z) : Result OtlpEnvError Z :=
  match env_var env name with
  | Ok raw => map_err (NotU64 name raw) (parse_u64 raw)
  | Err NotPresent => Ok dflt
  | Err NotUnicode => Err (NotUtf8 name)
  end.

Definition is_header_name_token (name : Str) : bool :=
  negb (is_empty name) &&
  forallb (λ b, ((97 <=? b) && (b <=? 122)) || is_ascii_digit b ||
                bool_decide (b ∈ lit "!#$%&'*+-.^_`|~")) name.

(** The loop over the comma-separated entries; [index] counts them from zero. *)
Fixpoint header_entries (name : Str) (index : nat) (entries : list Str)
    : Result OtlpEnvError (list (Str * Str)) :=
  match entries with
  | [] => Ok []
  | entry :: rest =>
      let entry := trim entry in
      if is_empty entry then header_entries name (S index) rest
      else
        match split_once 61 entry with
        | None => Err (MalformedHeaders name (index + 1))
        | Some (raw_key, raw_value) =>
            let key := to_ascii_lowercase (trim raw_key) in
            if is_empty key || negb (is_header_name_token key)
            then Err (MalformedHeaders name (index + 1))
            else headers ← header_entries name (S index) rest; Ok ((key, trim raw_value) :: headers)
        end
  end.

Definition parse_env_headers (name : Str) : Result OtlpEnvError (list (Str * Str)) :=
  match env_var env name with
  | Ok raw => header_entries name 0 (split_on 44 raw)
  | Err NotPresent => Ok []
  | Err NotUnicode => Err (NotUtf8 name)
  end.
End readers.

(** [str::ends_with]. *)
Definition str_ends_with (suffix s : Str) : bool :=
  bool_decide (is_Some (strip_prefix (rev suffix) (rev s))).

Definition http_endpoint_for_signal (base signal_path : Str) : Str :=
  let trimmed := trim_end_matches 47 base in
  if str_ends_with signal_path trimmed then trimmed else trimmed ++ signal_path.

(** ** [OtlpConfig::from_env] *)

Definition DEFAULT_METRICS_INTERVAL_SECS : Z := 30.

Record OtlpConfig : Type := mkOtlpConfig {
  oc_endpoint : Str;
  oc_protocol : OtlpProtocol;
  oc_metrics_enabled : bool;
  oc_logs_enabled : bool;
  oc_traces_enabled : bool;
  oc_metrics_interval_secs : Z;
  oc_service_name : Str;
  oc_headers : list (Str * Str);
}.

(** ** The server's settings: [state.rs] *)

Record MetricsConfig : Type := mkMetricsConfig {
  mc_scenario_allowlist : gset Str;
  mc_scenario_max_length : Z;
}.

Definition metrics_config_default : MetricsConfig := mkMetricsConfig ∅ 64.

Definition RESERVED_SCENARIO_LABELS : list Str := [s! "_all"; s! "other"].

(** Durations of the settings are whole seconds. *)
Record ReadinessConfig : Type := mkReadinessConfig {
  rc_max_inflight_scans : Z;
  rc_sink_error_quarantine : Z;
  rc_scan_error_quarantine : Z;
}.

Definition readiness_config_default : ReadinessConfig := mkReadinessConfig 100 30 30.

Record ShutdownConfig : Type := mkShutdownConfig { sh_timeout : Z }.

Definition DEFAULT_MAX_TOTAL_HOSTS : Z := 262144.
Definition DEFAULT_MAX_BODY_BYTES : Z := 1048576.
Definition DEFAULT_MAX_RESULT_BYTES : Z := 33554432.

Record TargetGuardConfig `{IpNetLib} : Type := mkTargetGuardConfig {
  tg_allowlist : option (list IpNet);
  tg_max_total_hosts : option Z;
  tg_max_body_bytes : Z;
}.
Arguments mkTargetGuardConfig {_}.

Record SinkProbeConfig : Type := mkSinkProbeConfig {
  sp_config_path : option Str;
  sp_probe_interval : Z;
  sp_probe_timeout : Z;
}.

Inductive AuthConfig : Type :=
  | AuthDisabled
  | AuthEnabled (token : Str).

(** The parsers of [ipnet] and of its host networks. *)
Class IpNetParse `{IpNetLib} := {
  ip_net_from_str : Str → option IpNet;
  ip_net_of_addr : IpAddr → IpNet;
}.

(** [raw.split(',').map(str::trim).filter(|s| !s.is_empty())]. *)
Definition comma_entries (raw : Str) : list Str :=
  List.filter (λ s, negb (is_empty s)) (trim <$> split_on 44 raw).

Section settings.
Context {E : Type} `{Env E} (env : E).

Definition env_u64 (name : Str) (dflt : Z) : Result StartupError Z :=
  map_err BadVariable (parse_env_u64 env name dflt).
Definition env_bool (name : Str) (dflt : bool) : Result StartupError bool :=
  map_err BadVariable (parse_env_bool env name dflt).

(** The text of an endpoint, of a path or of the API token, trimmed: blank counts as missing. The
    match is written out in each [from_env] of the source that reads such a variable. *)
Definition env_nonblank (name : Str) : Result StartupError (option Str) :=
  match env_var env name with
  | Ok raw => Ok (if is_empty (trim raw) then None else Some (trim raw))
  | Err NotPresent => Ok None
  | Err NotUnicode => Err (BadUtf8 name)
  end.

Definition otlp_config_from_env (default_service_name : Str) (metrics_supported : bool)
    : Result StartupError (option OtlpConfig) :=
  metrics_enabled ← (if metrics_supported then env_bool (s! "RASTREO_OTLP_METRICS_ENABLED") false
                     else Ok false);
  logs_enabled ← env_bool (s! "RASTREO_OTLP_LOGS_ENABLED") false;
  traces_enabled ← env_bool (s! "RASTREO_OTLP_TRACES_ENABLED") false;
  if negb metrics_enabled && negb logs_enabled && negb traces_enabled then Ok None
  else
    endpoint ← env_nonblank (s! "RASTREO_OTLP_ENDPOINT");
    endpoint ← ok_or endpoint MissingOtlpEndpoint;
    protocol ← map_err BadVariable (parse_env_protocol env (s! "RASTREO_OTLP_PROTOCOL") ProtoGrpc);
    interval ← (if metrics_supported
                then env_u64 (s! "RASTREO_OTLP_METRICS_INTERVAL_SECS") DEFAULT_METRICS_INTERVAL_SECS
                else Ok DEFAULT_METRICS_INTERVAL_SECS);
    let service_name :=
      match result_ok (env_var env (s! "RASTREO_OTLP_SERVICE_NAME")) with
      | Some s => if is_empty (trim s) then default_service_name else trim s
      | None => default_service_name
      end in
    headers ← map_err BadVariable (parse_env_headers env (s! "RASTREO_OTLP_HEADERS"));
    Ok (Some (mkOtlpConfig endpoint protocol metrics_enabled logs_enabled traces_enabled interval
                service_name headers)).

(** The first reserved name that the allow-list contains. *)
Definition reject_reserved (allowlist : gset Str) : Result StartupError unit :=
  match find_map (λ l, if bool_decide (l ∈ allowlist) then Some l else None)
          RESERVED_SCENARIO_LABELS with
  | Some reserved => Err (ReservedScenarioLabel reserved)
  | None => Ok tt
  end.

Definition metrics_config_from_env : Result StartupError MetricsConfig :=
  allowlist ← match env_var env (s! "RASTREO_SCENARIO_LABEL_ALLOWLIST") with
              | Ok raw => Ok (list_to_set (comma_entries raw))
              | Err NotPresent => Ok ∅
              | Err NotUnicode => Err (BadUtf8 (s! "RASTREO_SCENARIO_LABEL_ALLOWLIST"))
              end;
  _ ← reject_reserved allowlist;
  max_length ← env_u64 (s! "RASTREO_SCENARIO_LABEL_MAX_LENGTH") 64;
  Ok (mkMetricsConfig allowlist (Z.max (as_usize max_length) 1)).

Definition readiness_config_from_env : Result StartupError ReadinessConfig :=
  let dflt := readiness_config_default in
  max ← env_u64 (s! "RASTREO_MAX_INFLIGHT_SCANS") (rc_max_inflight_scans dflt);
  sink ← env_u64 (s! "RASTREO_SINK_ERROR_QUARANTINE_SECS") (rc_sink_error_quarantine dflt);
  scan ← env_u64 (s! "RASTREO_SCAN_ERROR_QUARANTINE_SECS") (rc_scan_error_quarantine dflt);
  Ok (mkReadinessConfig max sink scan).

Definition shutdown_config_from_env : Result StartupError ShutdownConfig :=
  secs ← env_u64 (s! "RASTREO_SHUTDOWN_TIMEOUT_SECS") 60;
  Ok (mkShutdownConfig (Z.max secs 1)).

Definition max_result_bytes_from_env : Result StartupError Z :=
  n ← env_u64 (s! "RASTREO_MAX_RESULT_BYTES") DEFAULT_MAX_RESULT_BYTES;
  Ok (as_usize n).

Section allowlist.
Context `{IP : IpNetParse}.

Definition allowlist_entry (entry : Str) : Result StartupError IpNet :=
  match ip_net_from_str entry with
  | Some net => Ok net
  | None => ok_or (ip_net_of_addr <$> ip_from_str entry) (BadAllowlistEntry entry)
  end.

Definition target_allowlist_from_env : Result StartupError (option (list IpNet)) :=
  match env_var env (s! "RASTREO_TARGET_ALLOWLIST") with
  | Ok raw =>
      nets ← mapM allowlist_entry (comma_entries raw);
      Ok (if is_empty nets then None else Some nets)
  | Err NotPresent => Ok None
  | Err NotUnicode => Err (BadUtf8 (s! "RASTREO_TARGET_ALLOWLIST"))
  end.

Definition target_guard_config_from_env : Result StartupError TargetGuardConfig :=
  allowlist ← target_allowlist_from_env;
  hosts ← env_u64 (s! "RASTREO_MAX_TOTAL_HOSTS") DEFAULT_MAX_TOTAL_HOSTS;
  body ← env_u64 (s! "RASTREO_MAX_BODY_BYTES") DEFAULT_MAX_BODY_BYTES;
  Ok (mkTargetGuardConfig allowlist (if hosts =? 0 then None else Some (as_usize hosts))
        (as_usize body)).
End allowlist.

Definition sink_probe_config_from_env : Result StartupError SinkProbeConfig :=
  config_path ← env_nonblank (s! "RASTREO_SINK_CONFIG_PATH");
  interval ← env_u64 (s! "RASTREO_SINK_PROBE_INTERVAL_SECS") 10;
  timeout ← env_u64 (s! "RASTREO_SINK_PROBE_TIMEOUT_SECS") 5;
  Ok (mkSinkProbeConfig config_path (Z.max interval 1) (Z.max timeout 1)).

Definition auth_config_from_env : Result StartupError AuthConfig :=
  token ← env_nonblank (s! "RASTREO_API_TOKEN");
  match token with
  | Some token => Ok (AuthEnabled token)
  | None =>
      disabled ← env_bool (s! "RASTREO_AUTH_DISABLED") false;
      if (disabled : bool) then Ok AuthDisabled else Err MissingApiToken
  end.

(** What [main] reads before it builds anything, in its order. *)
Record ServerConfig `{IpNetLib} : Type := mkServerConfig {
  sv_otlp : option OtlpConfig;
  sv_guard : TargetGuardConfig;
  sv_readiness : ReadinessConfig;
  sv_metrics : MetricsConfig;
  sv_auth : AuthConfig;
  sv_sink_probe : SinkProbeConfig;
  sv_shutdown : ShutdownConfig;
  sv_max_result_bytes : Z;
}.
Arguments mkServerConfig {_}.

Definition server_config_from_env `{IP : IpNetParse} : Result StartupError ServerConfig :=
  otlp ← otlp_config_from_env (s! "rastreo-server") true;
  guard ← target_guard_config_from_env;
  readiness ← readiness_config_from_env;
  metrics ← metrics_config_from_env;
  auth ← auth_config_from_env;
  sink_probe ← sink_probe_config_from_env;
  shutdown ← shutdown_config_from_env;
  max_result_bytes ← max_result_bytes_from_env;
  Ok (mkServerConfig otlp guard readiness metrics auth sink_probe shutdown max_result_bytes).
End settings.

Example parse_u64_examples :
  parse_u64 (s! "18446744073709551615") = Ok U64_MAX ∧
  parse_u64 (s! "18446744073709551616") = Err IntPosOverflow ∧
  parse_u64 (s! "+7") = Ok 7 ∧ parse_u64 (s! "-7") = Err IntInvalidDigit ∧
  parse_u64 (s! " 7") = Err IntInvalidDigit ∧ parse_u64 [] = Err IntEmpty.
Proof. by vm_compute. Qed.

Example http_endpoint_examples :
  http_endpoint_for_signal (s! "http://c:4318/") (s! "/v1/logs") = s! "http://c:4318/v1/logs" ∧
  http_endpoint_for_signal (s! "http://c:4318/v1/logs/") (s! "/v1/logs") = s! "http://c:4318/v1/logs".
Proof. by vm_compute. Qed.
