(* ===== verification/Secrets.v ===== *)
(** * Secrets in configuration files: [config/secrets.rs], with the file parsers of [config/mod.rs]

    A YAML tree is read, the [${VAR}] references and [!file] tags of its string scalars are
    replaced, and the result is deserialized. Offsets into a string are offsets into its
    characters: every offset the scan slices at is that of an ASCII character, which is a
    boundary in either encoding. *)

From S2P Require Import Prelude Net F64 Model Resolver FuserCore Classifier Encoder Sink SinkConfig.
From S2P Require Import ProberConfig Config Env.

(** ** [serde_yaml_ng::Value] *)

(** Mappings keep their entries in order; a number is kept as its text. *)
Inductive YamlValue : Type :=
  | YNull
  | YBool (b : bool)
  | YNumber (n : Str)
  | YString (s : Str)
  | YSequence (items : list YamlValue)
  | YMapping (entries : list (YamlValue * YamlValue))
  | YTagged (tag : Str) (value : YamlValue).

(** [Tag]'s equality does not see a leading exclamation mark. *)
Definition nobang (tag : Str) : Str :=
  match tag with
  | 33 :: c :: rest => c :: rest
  | _ => tag
  end.

Definition is_file_tag (tag : Str) : bool := bool_decide (nobang tag = s! "file").

Definition yaml_type_name (v : YamlValue) : Str :=
  match v with
  | YNull => s! "null"
  | YBool _ => s! "bool"
  | YNumber _ => s! "number"
  | YString _ => s! "string"
  | YSequence _ => s! "sequence"
  | YMapping _ => s! "mapping"
  | YTagged _ _ => s! "tagged"
  end.

Inductive SecretSource : Type := Scenario | SinkConfigFile.

Definition reference_label (source : SecretSource) : Str :=
  match source with Scenario => s! "scenario" | SinkConfigFile => s! "sink config" end.

Definition shape_label (source : SecretSource) : Str :=
  match source with Scenario => s! "scenario" | SinkConfigFile => s! "sink" end.

(** ** References in a string *)

Definition DOLLAR : Z := 36.
Definition LBRACE : Z := 123.
Definition RBRACE : Z := 125.

Definition is_ascii_alphabetic (c : Z) : bool :=
  ((65 <=? c) && (c <=? 90)) || ((97 <=? c) && (c <=? 122)).

Definition is_ascii_alphanumeric (c : Z) : bool := is_ascii_alphabetic c || is_ascii_digit c.

Definition is_valid_identifier (name : Str) : bool :=
  match name with
  | c :: rest =>
      (is_ascii_alphabetic c || (c =? 95)) &&
      forallb (λ c, is_ascii_alphanumeric c || (c =? 95)) rest
  | [] => false
  end.

(** [bytes.get(i) == Some(c)]. *)
Definition char_at (s : Str) (i : nat) (c : Z) : bool := bool_decide (s !! i = Some c).

(** The loop of [find_ref_end] from [j]; the fuel is what is left of the string. *)
Fixpoint find_brace (fuel : nat) (s : Str) (j : nat) : option nat :=
  match fuel with
  | O => None
  | S fuel =>
      if (j <? length s)%nat then
        if char_at s j RBRACE then Some j else find_brace fuel s (S j)
      else None
  end.

Definition find_ref_end (s : Str) (start : nat) : option nat :=
  if negb (char_at s start DOLLAR) || negb (char_at s (start + 1) LBRACE) then None
  else find_brace (length s) s (start + 2).

(** [&input[lo..hi]]. *)
Definition str_slice (s : Str) (lo hi : nat) : Str := take (hi - lo) (drop lo s).

Section interpolation.
Context {E : Type} {EN : Env E}.

Definition unset_variable (name : Str) (source : SecretSource) : ConfigError :=
  InvalidValue (s! "environment variable " ++ name ++ s! " referenced in " ++
    reference_label source ++ s! " is not set").

(** One turn of the scan at [i]: where it stands next, or an unset variable. *)
Inductive ScanTurn : Type :=
  | Advance
  | Replace (text : Str) (next : nat)
  | Unset (name : Str).

Definition scan_turn (input : Str) (env : E) (i : nat) : ScanTurn :=
  if negb (char_at input i DOLLAR) then Advance
  else
    match
      (if (i + 2 <? length input)%nat && char_at input (i + 1) DOLLAR && char_at input (i + 2) LBRACE
       then find_ref_end input (i + 1) else None)
    with
    | Some end_ => Replace (str_slice input (i + 1) (end_ + 1)) (end_ + 1)
    | None =>
        match
          (if (i + 1 <? length input)%nat && char_at input (i + 1) LBRACE
           then find_ref_end input i else None)
        with
        | Some end_ =>
            let name := str_slice input (i + 2) end_ in
            if is_valid_identifier name then
              match env_var env name with
              | Ok value => Replace value (end_ + 1)
              | Err _ => Unset name
              end
            else Advance
        | None => Advance
        end
    end.

(** The loop of [interpolate_env]: every turn moves [i] forward. *)
Fixpoint interpolate_loop (fuel : nat) (input : Str) (source : SecretSource) (env : E)
    (out : Str) (copy_start i : nat) : option (Result ConfigError Str) :=
  if (i <? length input)%nat then
    match fuel with
    | O => None
    | S fuel =>
        match scan_turn input env i with
        | Advance => interpolate_loop fuel input source env out copy_start (i + 1)
        | Replace text next =>
            interpolate_loop fuel input source env
              (out ++ str_slice input copy_start i ++ text) next next
        | Unset name => Some (Err (unset_variable name source))
        end
    end
  else Some (Ok (out ++ drop copy_start input)).

Definition interpolate_env (input : Str) (source : SecretSource) (env : E)
    : Result ConfigError Str :=
  default (Ok input) (interpolate_loop (length input) input source env [] 0 0).

End interpolation.

(** ** The tree *)

Definition trim_end (s : Str) : Str := rev (drop_while is_whitespace (rev s)).

(** [str::contains] with a literal. *)
Fixpoint str_contains (needle s : Str) : bool :=
  match strip_prefix needle s with
  | Some _ => true
  | None => match s with [] => false | _ :: rest => str_contains needle rest end
  end.

(** ** Scenario files *)

Inductive ScenarioKind : Type := Discovery.

Inductive ScenarioEntry `{NL : IpNetLib} : Type := Discover (cfg : DiscoverScenarioConfig).
Arguments Discover {_}.

Record ScenarioFile `{NL : IpNetLib} : Type := mkScenarioFile {
  sf_version : Z;
  sf_kind : ScenarioKind;
  sf_defaults : BaseProbeConfig;
  sf_scenarios : list ScenarioEntry;
}.
Arguments mkScenarioFile {_}.

Section expansion.
Context `{FE : ForeignErrors} {IE : IoErrors} {E : Type} {EN : Env E}.
(** [std::fs::read_to_string], on the files as they stand while one configuration is read. *)
Context (read_to_string : Str → Result IoError Str).

Definition read_file_secret (path : Str) : Result ConfigError Str :=
  match read_to_string path with
  | Ok contents => Ok (trim_end contents)
  | Err err =>
      Err (InvalidValue
        match io_error_kind err with
        | NotFound => s! "file secret " ++ path ++ s! " not found"
        | AccessDenied => s! "file secret " ++ path ++ s! " not readable: permission denied"
        | _ => s! "file secret " ++ path ++ s! " could not be read: " ++ io_error_display err
        end)
  end.

(** [secrets::expand]. *)
Fixpoint expand (value : YamlValue) (source : SecretSource) (env : E)
    : Result ConfigError YamlValue :=
  match value with
  | YString s => YString <$> interpolate_env s source env
  | YTagged tag inner =>
      if is_file_tag tag then
        match inner with
        | YString path => YString <$> read_file_secret path
        | other => Err (InvalidValue (s! "!file tag expects a string scalar path, got " ++
                                      yaml_type_name other))
        end
      else YTagged tag <$> expand inner source env
  | YSequence items =>
      YSequence <$> (fix elements vs := match vs with
        | [] => Ok []
        | v :: rest => v' ← expand v source env; rest' ← elements rest; Ok (v' :: rest')
        end) items
  | YMapping entries =>
      YMapping <$> (fix values es := match es with
        | [] => Ok []
        | (key, v) :: rest => v' ← expand v source env; rest' ← values rest; Ok ((key, v') :: rest')
        end) entries
  | other => Ok other
  end.

Fixpoint reference_form (value : YamlValue) : YamlValue :=
  match value with
  | YTagged tag inner =>
      match inner with
      | YString path =>
          if is_file_tag tag then YString (s! "!file " ++ path)
          else YTagged tag (reference_form inner)
      | _ => YTagged tag (reference_form inner)
      end
  | YSequence items => YSequence (map reference_form items)
  | YMapping entries => YMapping (map (λ e, (e.1, reference_form e.2)) entries)
  | other => other
  end.

Fixpoint contains_secret_reference (value : YamlValue) : bool :=
  match value with
  | YString s => str_contains (s! "${") s
  | YTagged tag inner => is_file_tag tag || contains_secret_reference inner
  | YSequence items => existsb contains_secret_reference items
  | YMapping entries => existsb (λ e, contains_secret_reference e.2) entries
  | _ => false
  end.

Definition REFERENCE_FORM_NOTE : Str :=
  s! "(references resolved; quoted as written, never as the value produced; expansion substitutes a string, so a reference can only fill a field that accepts one)".

(** ** Deserializing the expanded tree *)

(** [Mapping::get] with a string key. *)
Definition yaml_get (key : Str) (entries : list (YamlValue * YamlValue)) : option YamlValue :=
  find_map (λ e : YamlValue * YamlValue,
    match e.1 with
    | YString k => if bool_decide (k = key) then Some e.2 else None
    | _ => None
    end) entries.

Definition retired_yaml_tag (entries : list (YamlValue * YamlValue)) : option Str :=
  match yaml_get (s! "type") entries with
  | Some (YString tag) => retired_type_tag_message tag
  | _ => None
  end.

Fixpoint ensure_no_retired_type_tags_yaml (value : YamlValue) : Result ConfigError unit :=
  match value with
  | YMapping entries =>
      match retired_yaml_tag entries with
      | Some message => Err (InvalidValue message)
      | None =>
          (fix values es := match es with
             | [] => Ok tt
             | (_, v) :: rest => _ ← ensure_no_retired_type_tags_yaml v; values rest
             end) entries
      end
  | YSequence items =>
      (fix elements vs := match vs with
         | [] => Ok tt
         | v :: rest => _ ← ensure_no_retired_type_tags_yaml v; elements rest
         end) items
  | _ => Ok tt
  end.

Section deserialize.
(** [serde_yaml_ng::from_value] at the type read, with the text of its error. *)
Context {T : Type} (from_value : YamlValue → Result Str T).

Definition shape_failure_detail (raw : YamlValue) : Str :=
  match from_value (reference_form raw) with
  | Err err =>
      if contains_secret_reference raw then err ++ s! " " ++ REFERENCE_FORM_NOTE else err
  | Ok _ =>
      s! "a value substituted from a `${VAR}` reference or an `!file` tag does not fit its field (the substituted value is not shown)"
  end.

Definition deserialize_expanded (raw : YamlValue) (source : SecretSource) (env : E)
    : Result ConfigError T :=
  expanded ← expand raw source env;
  _ ← ensure_no_retired_type_tags_yaml expanded;
  map_err (λ _ : Str, InvalidValue (shape_label source ++
    s! " shape validation failed after secret expansion: " ++ shape_failure_detail raw))
    (from_value expanded).

End deserialize.

(** ** The two files *)

Section files.
Context `{NL : IpNetLib}.
(** [serde_yaml_ng::from_str] into a tree, with the text of its error. *)
Context (from_str : Str → Result Str YamlValue).
Context (scenario_from_value : YamlValue → Result Str ScenarioFile).
Context (sink_from_value : YamlValue → Result Str SinkConfig).

Definition parse_yaml (input : Str) : Result ConfigError YamlValue :=
  map_err (λ e, InvalidValue (s! "invalid YAML: " ++ e)) (from_str input).

Definition check_base (base : BaseProbeConfig) : Result ConfigError unit :=
  _ ← ensure_no_retired_fields base;
  ensure_retries_within_bound base.

Fixpoint check_entries (entries : list ScenarioEntry) : Result ConfigError unit :=
  match entries with
  | [] => Ok tt
  | Discover cfg :: rest => _ ← check_base (sc_base cfg); check_entries rest
  end.

Definition parse_scenario_file (input : Str) (env : E) : Result RastreoError ScenarioFile :=
  map_err EConfig (
    raw ← parse_yaml input;
    file ← deserialize_expanded scenario_from_value raw Scenario env;
    _ ← check_base (sf_defaults file);
    _ ← check_entries (sf_scenarios file);
    Ok file).

Definition parse_sink_config (input : Str) (env : E) : Result RastreoError SinkConfig :=
  map_err EConfig (
    raw ← parse_yaml input;
    deserialize_expanded sink_from_value raw SinkConfigFile env).

End files.
End expansion.

(** ** Redacted values: [prober/redacted.rs] *)

Section redacted.
(** The digest of the hash library. *)
Context (sha256 : Bytes → Bytes).

Definition short_hash (s : Str) : Str := hex_lower (take 4 (sha256 (as_bytes s))).

(** What [Debug] and [Serialize] write of a [Community] or a [Password]. *)
Definition redacted (s : Str) : Str := s! "<redacted:" ++ short_hash s ++ s! ">".

End redacted.
