(* ===== verification/SecretsTheorems.v ===== *)
(** * Expanding secrets

    The scan of a string against the grammar it implements, the shape of an expanded tree
    against the tree as written, and what an error can tell of the values it read. *)

From S2P Require Import Prelude Net F64 Model Resolver FuserCore Classifier Encoder Sink SinkConfig.
From S2P Require Import ProberConfig Config CheckpointTheorems Env Secrets.

(** ** The grammar of a string *)

Definition escape_of (name rest : Str) : Str :=
  DOLLAR :: DOLLAR :: LBRACE :: name ++ RBRACE :: rest.
Definition reference_of (name rest : Str) : Str := DOLLAR :: LBRACE :: name ++ RBRACE :: rest.

Definition starts_escape (s : Str) : Prop :=
  ∃ name rest, RBRACE ∉ name ∧ s = escape_of name rest.
Definition starts_reference (s : Str) : Prop :=
  ∃ name rest, is_valid_identifier name = true ∧ s = reference_of name rest.

Section grammar.
Context {E : Type} {EN : Env E} (env : E) (source : SecretSource).

(** A string and what it expands to: an escaped reference loses its first dollar, a
    reference becomes its value, which is not read again, anything else stays. *)
Inductive Expands : Str → Result ConfigError Str → Prop :=
  | ex_nil : Expands [] (Ok [])
  | ex_escape name rest r :
      RBRACE ∉ name → Expands rest r →
      Expands (escape_of name rest) (app (reference_of name []) <$> r)
  | ex_value name rest value r :
      is_valid_identifier name = true → env_var env name = Ok value → Expands rest r →
      Expands (reference_of name rest) (app value <$> r)
  | ex_unset name rest e :
      is_valid_identifier name = true → env_var env name = Err e →
      Expands (reference_of name rest) (Err (unset_variable name source))
  | ex_char c rest r :
      ¬ starts_escape (c :: rest) → ¬ starts_reference (c :: rest) → Expands rest r →
      Expands (c :: rest) (cons c <$> r).

Lemma valid_identifier_no_brace name : is_valid_identifier name = true → RBRACE ∉ name.
Proof using Type.
  destruct name as [|c name]; [done|]. cbn. intros [Hc Hn]%andb_true_iff.
  rewrite not_elem_of_cons. split.
  - intros <-. done.
  - rewrite forallb_forall in Hn. intros Hin%list_elem_of_In%Hn. done.
Qed.

Lemma app_brace_inj (a b ra rb : Str) :
  RBRACE ∉ a → RBRACE ∉ b → a ++ RBRACE :: ra = b ++ RBRACE :: rb → a = b ∧ ra = rb.
Proof using Type.
  revert b. induction a as [|x a IH]; intros [|y b]; cbn; rewrite ?not_elem_of_cons.
  - by intros _ _ [=].
  - intros _ [Hy _] [= <- _]. done.
  - intros [Hx _] _ [= -> _]. done.
  - intros [_ Ha] [_ Hb] [= -> H]. by destruct (IH b Ha Hb H) as [-> ->].
Qed.

Lemma escape_inj name rest name' rest' :
  RBRACE ∉ name → RBRACE ∉ name' → escape_of name rest = escape_of name' rest' →
  name = name' ∧ rest = rest'.
Proof using Type. unfold escape_of. intros Hn Hn' [= H]. by apply app_brace_inj. Qed.

Lemma reference_inj name rest name' rest' :
  is_valid_identifier name = true → is_valid_identifier name' = true →
  reference_of name rest = reference_of name' rest' → name = name' ∧ rest = rest'.
Proof using Type.
  unfold reference_of. intros Hn%valid_identifier_no_brace Hn'%valid_identifier_no_brace [= H].
  by apply app_brace_inj.
Qed.

(** How a string that expands begins. *)
Lemma Expands_inv s r :
  Expands s r →
  (s = [] ∧ r = Ok []) ∨
  (∃ name rest r', RBRACE ∉ name ∧ Expands rest r' ∧ s = escape_of name rest ∧
     r = (app (reference_of name []) <$> r')) ∨
  (∃ name rest, is_valid_identifier name = true ∧ s = reference_of name rest ∧
     ((∃ value r', env_var env name = Ok value ∧ Expands rest r' ∧ r = (app value <$> r')) ∨
      (∃ e, env_var env name = Err e ∧ r = Err (unset_variable name source)))) ∨
  (∃ c rest r', ¬ starts_escape s ∧ ¬ starts_reference s ∧ Expands rest r' ∧ s = c :: rest ∧
     r = (cons c <$> r')).
Proof using Type.
  intros [|name rest r' Hn H|name rest v r' Hn Hv H|name rest e Hn Hv|c rest r' He Hr H].
  - by left.
  - right; left. eauto 10.
  - right; right; left. exists name, rest. split_and!; [done..|]. left. eauto.
  - right; right; left. exists name, rest. split_and!; [done..|]. right. eauto.
  - right; right; right. eauto 10.
Qed.

Lemma Expands_det s r r' : Expands s r → Expands s r' → r = r'.
Proof using Type.
  intros H. revert r'.
  induction H as [|name rest r Hn _ IH|name rest v r Hn Hv _ IH|name rest e Hn Hv|c rest r He Hr _ IH];
    intros r' [[Heq ->]|[(n & t & q & Hn' & Hq & Heq & ->)
      |[(n & t & Hn' & Heq & [(w & q & Hw & Hq & ->)|(e' & Hw & ->)])
      |(d & t & q & He' & Hr' & Hq & Heq & ->)]]]%Expands_inv; try done.
  - apply escape_inj in Heq as [-> ->]; [|done..]. by rewrite (IH _ Hq).
  - destruct He'. by exists name, rest.
  - apply reference_inj in Heq as [-> ->]; [|done..]. rewrite Hv in Hw. injection Hw as <-. by rewrite (IH _ Hq).
  - apply reference_inj in Heq as [-> ->]; [|done..]. congruence.
  - destruct Hr'. by exists name, rest.
  - apply reference_inj in Heq as [-> ->]; [|done..]. congruence.
  - by apply reference_inj in Heq as [-> ->].
  - destruct Hr'. by exists name, rest.
  - destruct He. by exists n, t.
  - destruct Hr. by exists n, t.
  - destruct Hr. by exists n, t.
  - simplify_eq. by rewrite (IH _ Hq).
Qed.

(** ** The scan *)

Lemma char_at_drop (s : Str) i c : char_at s i c = true ↔ ∃ rest, drop i s = c :: rest.
Proof using Type.
  unfold char_at. rewrite bool_decide_eq_true. split.
  - intros H. exists (drop (S i) s). by apply drop_S.
  - intros [rest H]. replace i with (i + 0)%nat by lia. rewrite <- lookup_drop, H. done.
Qed.

Lemma drop_tail (s : Str) i c rest : drop i s = c :: rest → drop (S i) s = rest.
Proof using Type.
  intros H. rewrite <- Nat.add_1_r, <- drop_drop, H. done.
Qed.

Lemma find_brace_Some fuel (s : Str) j k :
  find_brace fuel s j = Some k →
  ∃ name rest, drop j s = name ++ RBRACE :: rest ∧ RBRACE ∉ name ∧ k = (j + length name)%nat.
Proof using Type.
  revert j. induction fuel as [|fuel IH]; intros j; cbn [find_brace]; [done|].
  destruct (Nat.ltb_spec j (length s)) as [Hj|]; [|done].
  destruct (char_at s j RBRACE) eqn:Hc.
  - apply char_at_drop in Hc as [rest Hd]. intros [= <-].
    exists [], rest. split_and!; [done|apply not_elem_of_nil|cbn; lia].
  - intros (name & rest & Hd & Hn & ->)%IH. apply lookup_lt_is_Some in Hj as [c Hl].
    exists (c :: name), rest. rewrite (drop_S _ _ _ Hl), Hd. split_and!; [done| |cbn; lia].
    rewrite not_elem_of_cons. split; [|done]. intros <-.
    unfold char_at in Hc. by rewrite bool_decide_eq_false in Hc.
Qed.

Lemma find_brace_intro fuel (s : Str) j name rest :
  drop j s = name ++ RBRACE :: rest → RBRACE ∉ name → (length name < fuel)%nat →
  find_brace fuel s j = Some (j + length name)%nat.
Proof using Type.
  revert j name. induction fuel as [|fuel IH]; intros j name Hd Hn Hf; [lia|]. cbn [find_brace].
  assert (Hlen : length (drop j s) = (length name + S (length rest))%nat)
    by (rewrite Hd, length_app; done).
  rewrite length_drop in Hlen.
  destruct (Nat.ltb_spec j (length s)) as [Hj|]; [|lia].
  destruct name as [|c name].
  - assert (char_at s j RBRACE = true) as -> by (apply char_at_drop; by exists rest).
    f_equal. cbn. lia.
  - apply not_elem_of_cons in Hn as [Hc Hn].
    destruct (char_at s j RBRACE) eqn:Hb.
    { apply char_at_drop in Hb as [r Hr]. rewrite Hr in Hd. by simplify_eq/=. }
    rewrite (IH (S j) name); [f_equal; cbn; lia| |done|cbn in Hf; lia].
    by apply (drop_tail s j c).
Qed.

Lemma find_ref_end_spec (s : Str) i k :
  find_ref_end s i = Some k ↔
  ∃ name rest, drop i s = reference_of name rest ∧ RBRACE ∉ name ∧ k = (i + 2 + length name)%nat.
Proof using Type.
  unfold find_ref_end, reference_of. split.
  - destruct (char_at s i DOLLAR) eqn:H1; [|done]. destruct (char_at s (i + 1) LBRACE) eqn:H2; [|done].
    cbn. intros (name & rest & Hd & Hn & ->)%find_brace_Some.
    apply char_at_drop in H1 as [r1 H1]. apply char_at_drop in H2 as [r2 H2].
    exists name, rest. split_and!; [|done|lia].
    rewrite H1. pose proof (drop_tail _ _ _ _ H1) as E1. rewrite <- Nat.add_1_r, H2 in E1. subst r1.
    pose proof (drop_tail _ _ _ _ H2) as E2. replace (S (i + 1)) with (i + 2)%nat in E2 by lia.
    by rewrite E2 in Hd; subst.
  - intros (name & rest & Hd & Hn & ->).
    pose proof (drop_tail _ _ _ _ Hd) as Hd1. pose proof (drop_tail _ _ _ _ Hd1) as Hd2.
    assert (char_at s i DOLLAR = true) as -> by (apply char_at_drop; eauto).
    assert (char_at s (i + 1) LBRACE = true) as ->
      by (apply char_at_drop; rewrite Nat.add_1_r; eauto).
    cbn. replace (S (S i)) with (i + 2)%nat in Hd2 by lia.
    rewrite (find_brace_intro _ _ _ name rest Hd2 Hn); [done|].
    pose proof (f_equal length Hd2) as Hl. rewrite length_drop, length_app in Hl. cbn in Hl. lia.
Qed.

Lemma find_ref_end_drop (s : Str) i name rest :
  drop i s = reference_of name rest → RBRACE ∉ name →
  find_ref_end s i = Some (i + 2 + length name)%nat.
Proof using Type. intros Hd Hn. apply find_ref_end_spec. eauto. Qed.

(** The tests before the search are implied by its success. *)
Lemma reference_guard (s : Str) i :
  (if (i + 1 <? length s)%nat && char_at s (i + 1) LBRACE then find_ref_end s i else None) =
  find_ref_end s i.
Proof using Type.
  destruct (find_ref_end s i) as [k|] eqn:Hf; [|by destruct (_ && _)].
  apply find_ref_end_spec in Hf as (name & rest & Hd & _ & ->).
  pose proof (drop_tail _ _ _ _ Hd) as Hd1. rewrite <- Nat.add_1_r in Hd1.
  assert (char_at s (i + 1) LBRACE = true) as -> by (apply char_at_drop; eauto).
  pose proof (f_equal length Hd1) as Hl. rewrite length_drop in Hl. cbn in Hl.
  by destruct (Nat.ltb_spec (i + 1) (length s)); [|lia].
Qed.

Lemma escape_guard (s : Str) i :
  (if (i + 2 <? length s)%nat && char_at s (i + 1) DOLLAR && char_at s (i + 2) LBRACE
   then find_ref_end s (i + 1) else None) = find_ref_end s (i + 1).
Proof using Type.
  rewrite <- (reference_guard s (i + 1)). replace (i + 1 + 1)%nat with (i + 2)%nat by lia.
  destruct (i + 2 <? length s)%nat; [|done]. destruct (char_at s (i + 2) LBRACE); cbn; [|by rewrite andb_false_r].
  rewrite andb_true_r. destruct (char_at s (i + 1) DOLLAR) eqn:Hc; [done|].
  unfold find_ref_end. by rewrite Hc.
Qed.

Lemma slice_drop (s : Str) lo n : str_slice s lo (lo + n) = take n (drop lo s).
Proof using Type. unfold str_slice. f_equal. lia. Qed.

Lemma take_name (name rest : Str) : take (length name) (name ++ rest) = name.
Proof using Type. by rewrite take_app_length. Qed.

(** What one turn of the scan does with what is left of the string. *)
Lemma scan_turn_spec input i :
  (∃ name rest, RBRACE ∉ name ∧ drop i input = escape_of name rest ∧
     scan_turn input env i = Replace (reference_of name []) (i + 4 + length name)) ∨
  (∃ name rest, is_valid_identifier name = true ∧ drop i input = reference_of name rest ∧
     scan_turn input env i = match env_var env name with
                             | Ok value => Replace value (i + 3 + length name)
                             | Err _ => Unset name
                             end) ∨
  (¬ starts_escape (drop i input) ∧ ¬ starts_reference (drop i input) ∧
   scan_turn input env i = Advance).
Proof using Type.
  unfold scan_turn. rewrite escape_guard, reference_guard.
  destruct (char_at input i DOLLAR) eqn:Hc; cbn [negb].
  2:{ right; right. split_and!; [| |done]; intros (name & rest & _ & Hd);
      (assert (char_at input i DOLLAR = true) by (apply char_at_drop; rewrite Hd; eexists; done)); congruence. }
  destruct (find_ref_end input (i + 1)) as [k|] eqn:Hf.
  { apply find_ref_end_spec in Hf as (name & rest & Hd & Hn & ->). left. exists name, rest.
    apply char_at_drop in Hc as [r Hr]. pose proof (drop_tail _ _ _ _ Hr) as Hr'.
    rewrite <- Nat.add_1_r, Hd in Hr'. subst r. split_and!; [done|done|].
    replace (i + 1 + 2 + length name + 1)%nat with (i + 1 + (3 + length name))%nat by lia.
    rewrite slice_drop, Hd. f_equal; [|lia]. unfold reference_of.
    change (take (3 + length name) (DOLLAR :: LBRACE :: name ++ RBRACE :: rest))
      with (DOLLAR :: LBRACE :: take (S (length name)) (name ++ RBRACE :: rest)).
    rewrite <- Nat.add_1_r, take_app_add. done. }
  assert (Hno : ¬ starts_escape (drop i input)).
  { intros (name & rest & Hn & Hd). pose proof (drop_tail _ _ _ _ Hd) as Hd1.
    rewrite <- Nat.add_1_r in Hd1. by rewrite (find_ref_end_drop _ _ name rest Hd1 Hn) in Hf. }
  destruct (find_ref_end input i) as [k|] eqn:Hg.
  - apply find_ref_end_spec in Hg as (name & rest & Hd & Hn & ->).
    assert (str_slice input (i + 2) (i + 2 + length name) = name) as ->.
    { rewrite slice_drop. replace (i + 2)%nat with (S (S i)) by lia.
      rewrite (drop_tail _ (S i) LBRACE (name ++ RBRACE :: rest)), take_name; [done|].
      by apply (drop_tail _ _ DOLLAR). }
    destruct (is_valid_identifier name) eqn:Hv.
    + right; left. exists name, rest. split_and!; [done..|].
      destruct (env_var env name); [|done]. f_equal. lia.
    + right; right. split_and!; [done| |done]. intros (name' & rest' & Hn' & Hd').
      rewrite Hd in Hd'. unfold reference_of in Hd'. injection Hd' as Hd'.
      apply app_brace_inj in Hd' as [-> _]; [congruence|done|by apply valid_identifier_no_brace].
  - right; right. split_and!; [done| |done]. intros (name & rest & Hn & Hd).
    by rewrite (find_ref_end_drop _ _ name rest Hd (valid_identifier_no_brace _ Hn)) in Hg.
Qed.

Lemma slice_snoc (s : Str) lo i c rest :
  (lo ≤ i)%nat → drop i s = c :: rest → str_slice s lo (i + 1) = str_slice s lo i ++ [c].
Proof using Type.
  intros Hlo Hd. unfold str_slice. replace (i + 1 - lo)%nat with (S (i - lo)) by lia.
  apply take_S_r. rewrite lookup_drop. replace (lo + (i - lo))%nat with (i + 0)%nat by lia.
  by rewrite <- lookup_drop, Hd.
Qed.

Lemma slice_split (s : Str) lo i : (lo ≤ i)%nat → str_slice s lo i ++ drop i s = drop lo s.
Proof using Type.
  intros Hlo. unfold str_slice. replace (drop i s) with (drop (i - lo) (drop lo s)); [apply take_drop|].
  rewrite drop_drop. f_equal. lia.
Qed.

Lemma drop_past (s : Str) i n head rest :
  drop i s = head ++ rest → n = (i + length head)%nat → drop n s = rest.
Proof using Type. intros Hd ->. by rewrite <- drop_drop, Hd, drop_app_length. Qed.

Lemma interpolate_loop_expands fuel input out copy_start i :
  (copy_start ≤ i)%nat → (length input ≤ i + fuel)%nat →
  ∃ r, Expands (drop i input) r ∧
    interpolate_loop fuel input source env out copy_start i =
      Some (app (out ++ str_slice input copy_start i) <$> r).
Proof using Type.
  revert out copy_start i. induction fuel as [|fuel IH]; intros out copy_start i Hc Hf;
    cbn [interpolate_loop]; destruct (Nat.ltb_spec i (length input)) as [Hi|Hi]; try lia.
  1,3: exists (Ok []); rewrite drop_ge by lia; split; [constructor|]; cbn;
    rewrite app_nil_r, <- (slice_split input copy_start i), (drop_ge input i), app_nil_r by lia; done.
  destruct (scan_turn_spec input i)
    as [(name & rest & Hn & Hd & ->)|[(name & rest & Hn & Hd & ->)|(He & Hr & ->)]].
  - assert (Hrest : drop (i + 4 + length name) input = rest).
    { apply (drop_past _ i _ (DOLLAR :: DOLLAR :: LBRACE :: name ++ [RBRACE])).
      - rewrite Hd. unfold escape_of. cbn. by rewrite <- app_assoc.
      - cbn. rewrite length_app. cbn. lia. }
    destruct (IH (out ++ str_slice input copy_start i ++ reference_of name [])
                (i + 4 + length name)%nat (i + 4 + length name)%nat) as (r & Hex & ->); [lia..|].
    rewrite Hrest in Hex. exists (app (reference_of name []) <$> r). rewrite Hd.
    split; [by constructor|]. destruct r; cbn [fmap Result_fmap]; [|done]. unfold str_slice at 2.
    by rewrite Nat.sub_diag, take_0, app_nil_r, <- !app_assoc.
  - assert (Hrest : drop (i + 3 + length name) input = rest).
    { apply (drop_past _ i _ (DOLLAR :: LBRACE :: name ++ [RBRACE])).
      - rewrite Hd. unfold reference_of. cbn. by rewrite <- app_assoc.
      - cbn. rewrite length_app. cbn. lia. }
    destruct (env_var env name) as [value|e] eqn:Hv.
    + destruct (IH (out ++ str_slice input copy_start i ++ value)
                  (i + 3 + length name)%nat (i + 3 + length name)%nat) as (r & Hex & ->); [lia..|].
      rewrite Hrest in Hex. exists (app value <$> r). rewrite Hd.
      split; [by econstructor|]. destruct r; cbn [fmap Result_fmap]; [|done]. unfold str_slice at 2.
      by rewrite Nat.sub_diag, take_0, app_nil_r, <- !app_assoc.
    + exists (Err (unset_variable name source)). rewrite Hd. split; [by econstructor|done].
  - apply lookup_lt_is_Some in Hi as [c Hl]. pose proof (drop_S _ _ _ Hl) as Hd.
    destruct (IH out copy_start (i + 1)%nat) as (r & Hex & ->); [lia..|].
    rewrite Nat.add_1_r in Hex. rewrite Hd in He, Hr |- *. exists (cons c <$> r).
    split; [by constructor|]. rewrite (slice_snoc _ _ _ c _ Hc Hd).
    destruct r; cbn; [|done]. by rewrite <- !app_assoc.
Qed.

Lemma interpolate_expands s : Expands s (interpolate_env s source env).
Proof using Type.
  unfold interpolate_env.
  destruct (interpolate_loop_expands (length s) s [] 0 0) as (r & Hex & ->); [lia..|].
  cbn. destruct r; done.
Qed.

End grammar.

(** ** The tree *)

(** The induction principle of a tree nested in lists. *)
Section yaml_induction.
Context (P : YamlValue → Prop).
Context (Hnull : P YNull) (Hbool : ∀ b, P (YBool b)) (Hnumber : ∀ n, P (YNumber n)).
Context (Hstring : ∀ s, P (YString s)) (Htagged : ∀ tag v, P v → P (YTagged tag v)).
Context (Hseq : ∀ items, Forall P items → P (YSequence items)).
Context (Hmap : ∀ entries, Forall (λ e, P e.2) entries → P (YMapping entries)).

Fixpoint yaml_tree_ind (v : YamlValue) : P v :=
  match v with
  | YNull => Hnull
  | YBool b => Hbool b
  | YNumber n => Hnumber n
  | YString s => Hstring s
  | YTagged tag v => Htagged tag v (yaml_tree_ind v)
  | YSequence items =>
      Hseq items ((fix go items : Forall P items := match items with
        | [] => List.Forall_nil _
        | v :: rest => List.Forall_cons _ _ _ (yaml_tree_ind v) (go rest)
        end) items)
  | YMapping entries =>
      Hmap entries ((fix go es : Forall (λ e, P e.2) es := match es with
        | [] => List.Forall_nil _
        | (k, v) :: rest => List.Forall_cons _ (k, v) _ (yaml_tree_ind v) (go rest)
        end) entries)
  end.
End yaml_induction.

(** A tree without the contents of its string values. *)
Fixpoint shape (v : YamlValue) : YamlValue :=
  match v with
  | YString _ => YString []
  | YTagged tag v => YTagged tag (shape v)
  | YSequence items => YSequence (map shape items)
  | YMapping entries => YMapping (map (λ e, (e.1, shape e.2)) entries)
  | other => other
  end.

(** Two results that differ only in a value: both values, or the same error. *)
Definition alike {F A} (R : A → A → Prop) (x y : Result F A) : Prop :=
  match x, y with
  | Ok a, Ok b => R a b
  | Err e, Err e' => e = e'
  | _, _ => False
  end.

Definition any_values {A} (_ _ : A) : Prop := True.

Definition same_shape (v w : YamlValue) : Prop := shape v = shape w.

Lemma alike_map {F A B} (R : A → A → Prop) (Q : B → B → Prop) (f g : A → B) (x y : Result F A) :
  (∀ a b, R a b → Q (f a) (g b)) → alike R x y → alike Q (f <$> x) (g <$> y).
Proof. destruct x, y; cbn; naive_solver. Qed.

Lemma alike_bind {F A B} (R : A → A → Prop) (Q : B → B → Prop) (f g : A → Result F B)
    (x y : Result F A) :
  alike R x y → (∀ a b, R a b → alike Q (f a) (g b)) → alike Q (x ≫= f) (y ≫= g).
Proof. destruct x, y; cbn; naive_solver. Qed.

Lemma alike_mapM {F A B C} (f g : A → Result F B) (h : B → C) (l : list A) :
  Forall (λ x, alike (λ a b, h a = h b) (f x) (g x)) l →
  alike (λ a b, map h a = map h b) (mapM f l) (mapM g l).
Proof.
  induction 1 as [|x l Hx _ IH]; [done|]. cbn [mapM].
  eapply alike_bind; [exact Hx|]. intros a b Hab. eapply alike_bind; [exact IH|].
  intros l1 l2 Hl. cbn. by rewrite Hab, Hl.
Qed.

Section trees.
Context `{FE : ForeignErrors} {IE : IoErrors} {E : Type} {EN : Env E}.
Context (source : SecretSource).

Section one_run.
Context (read_to_string : Str → Result IoError Str) (env : E).
Abbreviation expand := (λ v, expand read_to_string v source env).

Lemma expand_sequence items : expand (YSequence items) = (YSequence <$> mapM expand items).
Proof using Type.
  reflexivity.
Qed.

Lemma expand_mapping entries :
  expand (YMapping entries) =
  (YMapping <$> mapM (λ e : YamlValue * YamlValue, pair e.1 <$> expand e.2) entries).
Proof using Type.
  cbn [Secrets.expand]. f_equal.
  induction entries as [|[k v] entries IH]; [done|].
  rewrite IH. cbn [mapM fst snd]. by destruct (Secrets.expand _ v _ _).
Qed.

Lemma expand_shape v w : expand v = Ok w → same_shape w (reference_form v).
Proof using Type.
  revert w. induction v as [| | |s|tag v IH|items IH|entries IH] using yaml_tree_ind; intros w.
  1-3: by intros [= <-].
  - cbn. destruct (interpolate_env _ _ _); cbn; [|done]. by intros [= <-].
  - destruct (is_file_tag tag) eqn:Ht.
    + cbn [Secrets.expand reference_form]. rewrite Ht. destruct v; try done.
      destruct (read_file_secret _ _); cbn; [|done]. by intros [= <-].
    + assert (reference_form (YTagged tag v) = YTagged tag (reference_form v)) as ->
        by (destruct v; cbn; rewrite ?Ht; done).
      cbn [Secrets.expand]. rewrite Ht.
      destruct (Secrets.expand _ v _ _) as [v'|e] eqn:Hv; cbn; [|done]. intros [= <-].
      unfold same_shape. cbn. f_equal. by apply IH.
  - rewrite expand_sequence. destruct (mapM _ _) as [l|] eqn:Hl; [|done]. cbn. intros [= <-].
    unfold same_shape. cbn. f_equal. apply mapM_Ok in Hl. rewrite map_map.
    induction Hl as [|v w items l Hvw _ IHl]; [done|]. inversion_clear IH as [|?? Hv Hr]. cbn. f_equal; [by apply Hv|by apply IHl].
  - rewrite expand_mapping. destruct (mapM _ _) as [l|] eqn:Hl; [|done]. cbn. intros [= <-].
    unfold same_shape. cbn. f_equal. apply mapM_Ok in Hl. rewrite map_map.
    induction Hl as [|[k v] w entries l Hvw _ IHl]; [done|]. inversion_clear IH as [|?? Hv Hr].
    cbn in *. destruct (Secrets.expand _ v _ _) as [v'|] eqn:Hx; [|done]. cbn in Hvw. simplify_eq.
    cbn. f_equal; [f_equal; by apply Hv|by apply IHl].
Qed.
End one_run.

(** ** Two runs that read different secrets *)

(** Two environments that set the same variables, and two file systems that hold the same
    files and fail alike on the others. *)
Definition env_alike (env env' : E) : Prop :=
  ∀ name, is_ok (env_var env name) = is_ok (env_var env' name).

Definition files_alike (read read' : Str → Result IoError Str) : Prop :=
  ∀ path, alike any_values (read path) (read' path).

Lemma Expands_alike env env' s r :
  env_alike env env' → Expands env source s r →
  ∃ r', Expands env' source s r' ∧ alike any_values r r'.
Proof using Type.
  intros Ha. induction 1 as [|name rest r Hn _ (r' & Hx & Hr)|name rest v r Hn Hv _ (r' & Hx & Hr)
    |name rest e Hn Hv|c rest r He Hr _ (r' & Hx & Hr')].
  - exists (Ok []). split; [constructor|done].
  - eexists. split; [by constructor|]. by eapply alike_map.
  - specialize (Ha name). rewrite Hv in Ha. destruct (env_var env' name) as [v'|] eqn:Hv'; [|done].
    eexists. split; [by econstructor|]. by eapply alike_map.
  - specialize (Ha name). rewrite Hv in Ha. destruct (env_var env' name) as [v'|] eqn:Hv'; [done|].
    eexists. split; [by econstructor|done].
  - eexists. split; [by constructor|]. by eapply alike_map.
Qed.

Lemma interpolate_alike env env' s :
  env_alike env env' → alike any_values (interpolate_env s source env) (interpolate_env s source env').
Proof using Type.
  intros Ha. destruct (Expands_alike env env' s _ Ha (interpolate_expands env source s)) as (r' & Hx & Hr).
  by rewrite (Expands_det _ _ _ _ _ (interpolate_expands env' source s) Hx).
Qed.

Lemma expand_alike read read' env env' v :
  env_alike env env' → files_alike read read' →
  alike same_shape (expand read v source env) (expand read' v source env').
Proof using Type.
  intros He Hf. induction v as [| | |s|tag v IH|items IH|entries IH] using yaml_tree_ind.
  1-3: done.
  - cbn. eapply alike_map, (interpolate_alike env env' s He). done.
  - cbn. destruct (is_file_tag tag).
    + destruct v; try done. eapply (alike_map any_values); [done|]. unfold read_file_secret.
      specialize (Hf s). destruct (read s), (read' s); cbn in *; naive_solver.
    + eapply alike_map, IH. unfold same_shape. cbn. congruence.
  - rewrite !expand_sequence. eapply alike_map, (alike_mapM _ _ shape), IH.
    unfold same_shape. cbn. congruence.
  - rewrite !expand_mapping.
    eapply alike_map, (alike_mapM _ _ (λ e : YamlValue * YamlValue, (e.1, shape e.2))).
    + unfold same_shape. cbn. congruence.
    + eapply Forall_impl; [exact IH|]. intros [k w] Hw. eapply alike_map, Hw.
      unfold same_shape. cbn. congruence.
Qed.

Definition retired_error (e : ConfigError) : Prop :=
  ∃ tag message, retired_type_tag_message tag = Some message ∧ e = InvalidValue message.

Lemma retired_yaml_error v e : ensure_no_retired_type_tags_yaml v = Err e → retired_error e.
Proof using Type.
  revert e. induction v as [| | |s|tag v IH|items IH|entries IH] using yaml_tree_ind; intros e; try done.
  - cbn. induction IH as [|v items Hv _ IHl]; [done|].
    destruct (ensure_no_retired_type_tags_yaml v) as [[]|] eqn:Hx; cbn; [exact IHl|]. intros [= <-]. by apply Hv.
  - cbn [ensure_no_retired_type_tags_yaml]. destruct (retired_yaml_tag entries) as [message|] eqn:Hm.
    + intros [= <-]. unfold retired_yaml_tag in Hm. destruct (yaml_get _ _) as [[]|]; try done. by eexists _, _.
    + clear Hm. induction IH as [|[k v] entries Hv _ IHl]; [done|].
      destruct (ensure_no_retired_type_tags_yaml v) as [[]|] eqn:Hx; cbn; [exact IHl|].
      intros [= <-]. by apply Hv.
Qed.

End trees.

(** ** Properties *)

(** C19. Scanning a string for references terminates and computes exactly what its grammar
    says: an escaped reference [$${...}] loses its first dollar, a [${NAME}] with an
    identifier for a name becomes the variable's value (which is not scanned again), the
    first reference to an unset variable is the error, and every other character stays. *)
Theorem interpolation_grammar {E} {EN : Env E} (env : E) source s r :
  interpolate_env s source env = r ↔ Expands env source s r.
Proof.
  split.
  - intros <-. apply interpolate_expands.
  - intros Hr. by eapply Expands_det; [apply interpolate_expands|].
Qed.

(** C20. What reading a configuration file fails with does not depend on the secrets it
    substitutes: two environments that set the same variables and two file systems that hold
    the same files make expansion fail alike or give trees of the shape of the tree as
    written, and when deserializing fails for both, the two errors are the same, unless one
    is the fixed message for a retired type tag. *)
Theorem secrets_not_quoted `{IE : IoErrors} {E} {EN : Env E} {T} (from_value : YamlValue → Result Str T)
    read read' (env env' : E) source raw :
  env_alike env env' → files_alike read read' →
  alike (λ v v', same_shape v (reference_form raw) ∧ same_shape v' (reference_form raw))
    (expand read raw source env) (expand read' raw source env') ∧
  ∀ e e', deserialize_expanded read from_value raw source env = Err e →
    deserialize_expanded read' from_value raw source env' = Err e' →
    e = e' ∨ retired_error e ∨ retired_error e'.
Proof.
  intros He Hf. pose proof (expand_alike source read read' env env' raw He Hf) as Ha.
  unfold deserialize_expanded.
  destruct (expand read raw source env) as [v|e1] eqn:Hv,
    (expand read' raw source env') as [v'|e2] eqn:Hv'; cbn in Ha; try done.
  - split; [split; by eapply expand_shape|]. cbn. intros e e'.
    destruct (ensure_no_retired_type_tags_yaml v) as [[]|e3] eqn:H3; cbn.
    2:{ intros [= <-] _. right; left. by eapply retired_yaml_error. }
    destruct (ensure_no_retired_type_tags_yaml v') as [[]|e4] eqn:H4; cbn.
    2:{ intros _ [= <-]. right; right. by eapply retired_yaml_error. }
    destruct (from_value v), (from_value v'); cbn; try done. intros [= <-] [= <-]. by left.
  - subst e2. split; [done|]. cbn. intros e e' [= <-] [= <-]. by left.
Qed.

#[local] Existing Instance sample_errors.
#[local] Existing Instance plain_io.

(** A field that takes at most three characters, and quotes what it refuses. *)
Definition short_field (v : YamlValue) : Result Str Str :=
  match v with
  | YSequence [YString s] =>
      if (length s <=? 3)%nat then Ok s else Err (s! "too long: " ++ s)
  | _ => Err (s! "not a field")
  end.

Definition no_files (path : Str) : Result IoError Str := Err (io_error_new NotFound path).

Definition secret_env (value : Str) : MapEnv := {[ s! "PW" := OsText value ]}.

(** ** Redacted values *)

(** What is printed of a credential has the same length for all of them, depends on nothing but the first four
    bytes of its digest, and changes with those: a rotated credential changes the hash of a configuration. *)
Lemma redacted_marker (sha256 : Bytes → Bytes) (s s' : Str) :
  (∀ b, length (sha256 b) = 32%nat ∧ Forall (λ x, 0 ≤ x < 256) (sha256 b)) →
  length (redacted sha256 s) = 19%nat ∧
  (redacted sha256 s = redacted sha256 s' ↔ take 4 (sha256 (as_bytes s)) = take 4 (sha256 (as_bytes s'))).
Proof.
  intros Hsha. unfold redacted, short_hash. split.
  - rewrite !length_app. destruct (Hsha (as_bytes s)) as [Hl _].
    destruct (sha256 (as_bytes s)) as [|a [|b [|c [|d l]]]]; done.
  - split; [|by intros ->]. intros H%app_inv_head%app_inv_tail.
    apply hex_lower_inj in H; [done|apply Forall_take, Hsha..].
Qed.

Lemma secret_env_alike v v' : env_alike (secret_env v) (secret_env v').
Proof.
  intros name. unfold env_var, map_env, map_env_var, secret_env.
  destruct (decide (name = s! "PW")) as [->|Hn].
  - by rewrite !lookup_singleton_eq.
  - by rewrite !lookup_singleton_ne.
Qed.

Example interpolation_examples :
  interpolate_env (s! "a$${PW}b${PW}c${}$") Scenario (secret_env (s! "${PW}"))
  = Ok (s! "a${PW}b${PW}c${}$") ∧
  interpolate_env (s! "${HOME}") Scenario (secret_env [])
  = Err (unset_variable (s! "HOME") Scenario).
Proof. split; vm_compute; reflexivity. Qed.

Lemma retired_error_text e :
  retired_error e → e = InvalidValue (default [] (retired_type_tag_message (s! "oui_enrichment"))).
Proof.
  intros (tag & m & Hm & ->). f_equal. revert Hm. unfold retired_type_tag_message, RETIRED_TYPE_TAGS.
  cbn [find_map fst snd]. destruct (bool_decide (_ = tag)) eqn:Ht; [|done]. by intros [= <-].
Qed.

Lemma secrets_not_quoted_witness :
  ∃ e, deserialize_expanded no_files short_field (YSequence [YString (s! "${PW}")]) SinkConfigFile
         (secret_env (s! "hunter2")) = Err e ∧
       deserialize_expanded no_files short_field (YSequence [YString (s! "${PW}")]) SinkConfigFile
         (secret_env (s! "swordfish")) = Err e.
Proof.
  destruct (secrets_not_quoted short_field no_files no_files (secret_env (s! "hunter2"))
    (secret_env (s! "swordfish")) SinkConfigFile (YSequence [YString (s! "${PW}")])) as [_ H].
  - apply secret_env_alike.
  - by intros path.
  - match goal with |- ∃ e, ?x = Err e ∧ ?y = Err e =>
      assert (Hx : ∃ e, x = Err e ∧ ¬ retired_error e);
      [|assert (Hy : ∃ e, y = Err e ∧ ¬ retired_error e)] end.
    1,2: eexists; split; [vm_compute; reflexivity|by intros Hr%retired_error_text].
    destruct Hx as (e & Hx & Hnx), Hy as (e' & Hy & Hny). exists e. split; [done|].
    by destruct (H e e' Hx Hy) as [->|[?|?]].
Defined.
