(* ===== verification/Cli.v ===== *)
(** * The command line: [rastreo/src/cli/discover.rs], [probe_args.rs] and [catalog.rs]

    The flags of [rastreo discover] as the parser delivers them, the scenario they describe,
    and how they override the scenarios of a file. What is printed along the way (hints,
    banners, progress) is left out; texts that are returned or stored are kept. *)

From S2P Require Import Prelude Net Resolver F64 Model FuserCore UnionFind Identity IdentityFacts.
From S2P Require Import CorrelateFacts IdentityTheorems Fuser Topology.
From S2P Require Import Classifier Sink Tee Kafka Nats Scheduler CollectionProfile Encoder GnmiPath.
From S2P Require Import SinkConfig ProberConfig Selection Config Checkpoint Pipeline Run Plan Env.
From S2P Require Import Secrets.

(** [anyhow::Error]: a message, or an error of the core or of the system, under contexts. *)
Inductive CliError `{ForeignErrors} : Type :=
  | CliMessage (msg : Str)
  | CliConfig (e : ConfigError)
  | CliCore (e : RastreoError)
  | CliIo (e : IoError)
  | CliReport (path : Str) (source : IoError)
  | CliContext (context : Str) (source : CliError).
Arguments CliMessage {_}.
Arguments CliConfig {_}.
Arguments CliCore {_}.
Arguments CliIo {_}.
Arguments CliReport {_}.
Arguments CliContext {_}.

Definition context `{ForeignErrors} {A} (text : Str) (r : Result CliError A) : Result CliError A :=
  map_err (CliContext text) r.

(** ** Values of flags *)

(** [Display for ParseIntError]. *)
Definition parse_int_error_display (e : ParseIntError) : Str :=
  match e with
  | IntEmpty => s! "cannot parse integer from empty string"
  | IntInvalidDigit => s! "invalid digit found in string"
  | IntPosOverflow => s! "number too large to fit in target type"
  end.

Definition parse_checkpoint_interval (s : Str) : Result Str Z :=
  match parse_uint USIZE_MAX s with
  | Ok n => if 1 <=? n then Ok n else Err (s! "must be at least 1")
  | Err e => Err (s! "not a positive integer: " ++ parse_int_error_display e)
  end.

Definition parse_positive_usize (s : Str) : Result Str Z :=
  n ← map_err (λ e, s! "not a non-negative integer: " ++ parse_int_error_display e) (parse_uint USIZE_MAX s);
  if n =? 0 then Err (s! "must be >= 1") else Ok n.

Section probe_args.
Context `{FE : ForeignErrors} {PF : ProbeFeatures} {PL : ProberLib}.
(** The [Display] of the core's errors. *)
Context (error_display : RastreoError → Str).

Definition probe_kind_from_token (token : Str) : Result Str ProbeKind :=
  selection ← map_err error_display (parse_probe_selection [token]);
  ok_or (head (sel_named selection)) (s! "'" ++ token ++ s! "' names no single probe kind").

Definition parse_port (port : Str) : Result Str Z :=
  let port := trim port in
  map_err (λ err, s! "invalid port " ++ str_debug port ++ s! ": " ++ parse_int_error_display err)
    (parse_uint U16_MAX port).

Definition parse_probe_ports (raw : Str) : Result Str (ProbeKind * list Z) :=
  '(name, ports) ← ok_or (split_once 61 raw)
      (s! "expected <kind>=<port>[,<port>...], got " ++ str_debug raw);
  kind ← probe_kind_from_token (trim name);
  ports ← mapM parse_port (split_on 44 ports);
  Ok (kind, ports).

End probe_args.

(** ** The flags *)

Inductive OutputFormat : Type := FormatTable | FormatJson.
Inductive SinkKind : Type := KindStdout | KindFile | KindKafka.

#[global] Instance OutputFormat_eq_dec : EqDecision OutputFormat.
Proof. solve_decision. Defined.
#[global] Instance SinkKind_eq_dec : EqDecision SinkKind.
Proof. solve_decision. Defined.

Record DiscoverArgs : Type := mkDiscoverArgs {
  da_target : list Str;
  da_port : list Z;
  da_probe : list Str;
  da_probe_ports : list (ProbeKind * list Z);
  da_udp_protocol : option UdpProtocol;
  da_dns_query : list Str;
  da_dns_query_type : option DnsQueryType;
  da_snmp_community : option Str;
  da_snmp_version : option SnmpVersion;
  da_http_path : option Str;
  da_icmp_count : option Z;
  da_interface : option Str;
  da_file : option Str;
  da_format : option OutputFormat;
  da_sink : option SinkKind;
  da_output : option Str;
  da_brokers : list Str;
  da_topic : option Str;
  da_kafka_flush_per_record : bool;
  da_kafka_batch_threshold : option Z;
  da_concurrency : option Z;
  da_rate : option Z;
  da_retries : option Z;
  da_timeout_ms : option Z;
  da_dry_run : bool;
  da_dry_run_format : option Str;
  da_checkpoint : option Str;
  da_checkpoint_interval : option Z;
  da_resume : bool;
  da_run_report : option Str;
}.

Definition CLI_DEFAULT_CONCURRENCY : Z := 64.
Definition CLI_DEFAULT_TIMEOUT_MS : Z := 1000.
Definition DEFAULT_CHECKPOINT_INTERVAL : Z := 5000.

(** ** Where records go, and in which format *)

Definition encoder_for_format (format : OutputFormat) (table_width : Z) : EncoderConfig :=
  match format with FormatTable => EncTable table_width | FormatJson => EncNdjson end.

Definition record_encoder (format : option OutputFormat) (writes_to_stdout : bool) (table_width : Z)
    : EncoderConfig :=
  match format with
  | Some format => encoder_for_format format table_width
  | None => if writes_to_stdout then encoder_for_format FormatTable table_width else EncNdjson
  end.

Definition writes_to_stdout (sink : option SinkConfig) : bool :=
  match sink with None | Some CfgStdout => true | _ => false end.

(** The sink a run will write to, or none when only the scenario file knows. *)
Definition effective_sink_kind (args : DiscoverArgs) : option SinkKind :=
  match da_sink args with
  | Some kind => Some kind
  | None => if bool_decide (is_Some (da_file args)) then None else Some KindStdout
  end.

Definition stdout_carries_the_payload (args : DiscoverArgs) : bool :=
  da_dry_run args ||
  match effective_sink_kind args with None | Some KindStdout => true | _ => false end.

Definition dry_run_plan_format (args : DiscoverArgs) : OutputFormat := default FormatTable (da_format args).

Section flags.
Context `{FE : ForeignErrors}.

Definition RETIRED_DRY_RUN_FORMAT : Str :=
  s! "--dry-run-format was retired: use --format, which now sets the dry-run plan and the record stream alike. Pass --format table where you passed text, or --format json where you passed json.".

Definition ensure_no_retired_flags (args : DiscoverArgs) : Result CliError unit :=
  match da_dry_run_format args with
  | Some _ => Err (CliMessage RETIRED_DRY_RUN_FORMAT)
  | None => Ok tt
  end.

Record SinkFlag : Type := mkSinkFlag { fl_flag : Str; fl_sink : SinkKind; fl_supplied : bool }.

Definition sink_flags (args : DiscoverArgs) : list SinkFlag := [
  mkSinkFlag (s! "--output") KindFile (bool_decide (is_Some (da_output args)));
  mkSinkFlag (s! "--brokers") KindKafka (negb (is_empty (da_brokers args)));
  mkSinkFlag (s! "--topic") KindKafka (bool_decide (is_Some (da_topic args)));
  mkSinkFlag (s! "--kafka-flush-per-record") KindKafka (da_kafka_flush_per_record args);
  mkSinkFlag (s! "--kafka-batch-threshold") KindKafka
    (bool_decide (is_Some (da_kafka_batch_threshold args)))
].

Definition sink_kind_value (kind : SinkKind) : Str :=
  match kind with KindStdout => s! "stdout" | KindFile => s! "file" | KindKafka => s! "kafka" end.

Definition sink_kind_label (kind : SinkKind) : Str :=
  match kind with KindStdout => s! "stdout" | KindFile => s! "a file" | KindKafka => s! "kafka" end.

Definition destination_label (args : DiscoverArgs) : Str :=
  match effective_sink_kind args with
  | Some kind => sink_kind_label kind
  | None => s! "the destination named in the scenario file"
  end.

Definition sink_flag_mismatch (flag : SinkFlag) (destination : Str) : Str :=
  let sink := sink_kind_value (fl_sink flag) in
  fl_flag flag ++ s! " only applies to --sink " ++ sink ++ s! ", and this run writes to " ++
  destination ++ s! ". Add --sink " ++ sink ++ s! ", or drop " ++ fl_flag flag ++ s! ".".

Definition ensure_sink_flags_reach_their_sink (args : DiscoverArgs) : Result CliError unit :=
  match find_map (λ flag, if fl_supplied flag && negb (bool_decide (da_sink args = Some (fl_sink flag)))
                          then Some flag else None) (sink_flags args) with
  | Some flag => Err (CliMessage (sink_flag_mismatch flag (destination_label args)))
  | None => Ok tt
  end.

Definition build_sink_config_for_kind (kind : SinkKind) (args : DiscoverArgs) : Result CliError SinkConfig :=
  match kind with
  | KindStdout => Ok CfgStdout
  | KindFile =>
      path ← ok_or (da_output args) (CliMessage (s! "--sink file requires --output <path>"));
      Ok (CfgFile path)
  | KindKafka =>
      if is_empty (da_brokers args) then
        Err (CliMessage (s! "--sink kafka requires --brokers <broker[,broker...]>"))
      else
        topic ← ok_or (da_topic args) (CliMessage (s! "--sink kafka requires --topic <name>"));
        let flush_mode :=
          if da_kafka_flush_per_record args then KafkaPerRecord
          else match da_kafka_batch_threshold args with
               | Some bytes => KafkaBatched bytes
               | None => kafka_flush_mode_default
               end in
        Ok (CfgKafka (da_brokers args) topic None None flush_mode None None None sink_retry_default)
  end.

End flags.

(** ** Targets *)

Section targets.
Context `{NP : IpNetParse} {PL : ProberLib}.
(** The [Display] of [ipnet]'s parse error. *)
Context (net_error_display : Str).

Definition parse_target (input : Str) : Result ConfigError Target :=
  let s := trim input in
  if is_empty s then Err (InvalidValue (s! "target cannot be empty"))
  else if bool_decide (47 ∈ s) then
    match ip_net_from_str s with
    | Some net => Ok (TCidr net)
    | None => Err (InvalidValue (s! "CIDR " ++ str_debug s ++ s! ": " ++ net_error_display))
    end
  else
    match ip_from_str s with
    | Some ip => Ok (TIp ip)
    | None =>
        match split_once 45 s with
        | Some (lhs, rhs) =>
            match ip_from_str (trim lhs), ip_from_str (trim rhs) with
            | Some start, Some stop => Ok (TRange start stop)
            | _, _ => Ok (TDnsName s)
            end
        | None => Ok (TDnsName s)
        end
    end.
End targets.

(** ** The probes of a flag-driven run *)

Section probes.
Context `{FE : ForeignErrors} {PF : ProbeFeatures}.

Definition DEFAULT_PROBE_TOKEN : Str := s! "default".

Record SelectedProbes : Type := mkSelectedProbes {
  sp_kinds : list ProbeKind;
  sp_dropped : list ProbeKind;
}.

Definition select_probe_kinds_with (args : DiscoverArgs) (runnable : ProbeKind → bool)
    : Result RastreoError SelectedProbes :=
  let values := if is_empty (da_probe args) then [DEFAULT_PROBE_TOKEN] else da_probe args in
  selection ← parse_probe_selection values;
  let kinds := apply_runnability_filter selection runnable in
  Ok (mkSelectedProbes kinds (base.filter (λ k, k ∉ kinds) (sel_defaulted selection))).

(** [IcmpProber::is_runnable], asked of the system. *)
Definition probe_is_runnable (icmp_is_runnable : bool) (kind : ProbeKind) : bool :=
  match kind with
  | Icmp => if probe_compiled_in Icmp then icmp_is_runnable else true
  | _ => true
  end.

Definition reject_uncompiled_probe_ports (args : DiscoverArgs) : Result RastreoError unit :=
  match find_map (λ e : ProbeKind * list Z, if negb (probe_compiled_in e.1) then Some e.1 else None)
          (da_probe_ports args) with
  | Some kind => Err (probe_kind_not_compiled kind)
  | None => Ok tt
  end.

(** Collecting into a map: a later entry replaces an earlier one of its kind. *)
Definition collect_ports (entries : list (ProbeKind * list Z)) : list (ProbeKind * list Z) :=
  foldl (λ m e, e :: base.filter (λ f : ProbeKind * list Z, f.1 ≠ e.1) m) [] entries.

Definition SNMP_COMMUNITY_ENV : Str := s! "RASTREO_SNMP_COMMUNITY".

Definition snmp_community {E} {EN : Env E} (args : DiscoverArgs) (env : E) : option Str :=
  let community := match da_snmp_community args with
                   | Some community => Some community
                   | None => result_ok (env_var env SNMP_COMMUNITY_ENV)
                   end in
  match community with
  | Some community => if is_empty community then None else Some community
  | None => None
  end.

(** The flags of a kind that is not compiled in do not exist. *)
Definition probe_options {E} {EN : Env E} (args : DiscoverArgs) (env : E) : ProbeSelectionOptions :=
  let options := probe_selection_options_default in {|
    po_ports := da_port args;
    po_ports_by_kind := collect_ports (da_probe_ports args);
    po_dns_query_names := da_dns_query args;
    po_dns_query_type := default (po_dns_query_type options) (da_dns_query_type args);
    po_snmp_community := default (po_snmp_community options) (snmp_community args env);
    po_snmp_version := default (po_snmp_version options) (da_snmp_version args);
    po_http_scheme := po_http_scheme options;
    po_http_path := default (po_http_path options) (da_http_path args);
    po_icmp_count := default (po_icmp_count options) (da_icmp_count args);
    po_interface := default (po_interface options) (da_interface args);
    po_udp_protocol := da_udp_protocol args;
  |}.

(** ** Notes on flags that had no effect *)

Record ParameterFlag : Type := mkParameterFlag {
  pf_flag : Str;
  pf_consumers : list ProbeKind;
  pf_supplied : bool;
}.

Definition parameter_flag_new (flag : Str) (consumers : list ProbeKind) (supplied : bool) : ParameterFlag :=
  mkParameterFlag flag (base.filter (λ k, probe_compiled_in k = true) consumers) supplied.

Definition SNMP_PARAMETER_READERS : list ProbeKind := [Snmp; Lldp].

Definition join_ports (ports : list Z) : Str := join (s! ",") (fmt_dec <$> ports).

Definition parameter_flags (args : DiscoverArgs) : list ParameterFlag :=
  [parameter_flag_new (s! "--udp-protocol") [Udp] (bool_decide (is_Some (da_udp_protocol args)));
   parameter_flag_new (s! "--dns-query") [Dns] (negb (is_empty (da_dns_query args)));
   parameter_flag_new (s! "--dns-query-type") [Dns] (bool_decide (is_Some (da_dns_query_type args)));
   parameter_flag_new (s! "--snmp-community") SNMP_PARAMETER_READERS
     (bool_decide (is_Some (da_snmp_community args)));
   parameter_flag_new (s! "--snmp-version") SNMP_PARAMETER_READERS
     (bool_decide (is_Some (da_snmp_version args)));
   parameter_flag_new (s! "--http-path") [Http] (bool_decide (is_Some (da_http_path args)));
   parameter_flag_new (s! "--icmp-count") [Icmp] (bool_decide (is_Some (da_icmp_count args)));
   parameter_flag_new (s! "--interface") [Arp; Ndp] (bool_decide (is_Some (da_interface args)))] ++
  ((λ e : ProbeKind * list Z,
     parameter_flag_new (s! "--probe-ports " ++ probe_kind_label e.1 ++ s! "=" ++ join_ports e.2) [e.1] true)
    <$> da_probe_ports args).

Definition join_or (parts : list Str) : Str := join (s! " or ") parts.

(** The dash of the notes. *)
Definition em_dash : Str := s! " " ++ [8212] ++ s! " ".

Definition unused_flag_note (flag : ParameterFlag) : Str :=
  pf_flag flag ++ s! " had no effect" ++ em_dash ++ s! "no " ++
  join_or (probe_kind_label <$> pf_consumers flag) ++ s! " probe in this run. Add " ++
  join_or ((λ k, s! "--probe " ++ probe_kind_label k) <$> pf_consumers flag) ++ s! ".".

Definition unused_parameter_notes (args : DiscoverArgs) (selected : list ProbeKind) : list Str :=
  unused_flag_note <$>
    base.filter (λ flag, pf_supplied flag &&
      negb (existsb (λ consumer, bool_decide (consumer ∈ selected)) (pf_consumers flag)) = true)
      (parameter_flags args).

Definition unrunnable_reason (kind : ProbeKind) : Str :=
  match kind with
  | Icmp => s! "cannot open an ICMP socket here"
  | _ => s! "its runtime precondition is not met here"
  end.

Definition dropped_kind_note (kind : ProbeKind) : Str :=
  let label := probe_kind_label kind in
  label ++ s! " dropped from the default set" ++ em_dash ++ unrunnable_reason kind ++
  s! ". Run with --probe " ++ label ++ s! " to attempt it anyway.".

Definition labels (kinds : list ProbeKind) : Str := join (s! ", ") (probe_kind_label <$> kinds).

Definition port_scope_note (port_takers others : list ProbeKind) : Str :=
  s! "--port applies to " ++ labels port_takers ++ s! "; the default probe set also runs " ++
  labels others ++ s! ". Use --probe tcp_connect for a port-only scan.".

Definition unused_port_note (kinds : list ProbeKind) : Str :=
  s! "--port had no effect" ++ em_dash ++ s! "none of the selected probes (" ++ labels kinds ++
  s! ") read a shared port list. Use --probe-ports <kind>=<port> to retarget one.".

Definition selection_notes (args : DiscoverArgs) (selected : SelectedProbes) : list Str :=
  let notes := (dropped_kind_note <$> sp_dropped selected) ++
               unused_parameter_notes args (sp_kinds selected) in
  if is_empty (da_port args) then notes
  else
    let port_takers := base.filter (λ k, consumes_shared_ports k = true) (sp_kinds selected) in
    let others := base.filter (λ k, consumes_shared_ports k = false) (sp_kinds selected) in
    if is_empty port_takers then notes ++ [unused_port_note others]
    else if is_empty (da_probe args) && negb (is_empty others) then
      notes ++ [port_scope_note port_takers others]
    else notes.

(** ** Hints for refused selections *)

Definition missing_param_flag (kind : Str) : option Str :=
  if bool_decide (kind = s! "udp") then Some (s! "--udp-protocol <PROTOCOL>")
  else if bool_decide (kind = s! "dns") then Some (s! "--dns-query <NAME>")
  else None.

End probes.

(** ** The scenario of the flags *)

Section scenario.
Context `{NP : IpNetParse} `{FE : ForeignErrors} {PF : ProbeFeatures} {PL : ProberLib}.
Context {E : Type} {EN : Env E} (env : E).
Context (net_error_display : Str) (stdout_table_width : Z) (icmp_is_runnable : bool).

Definition parse_target_flag (s : Str) : Result CliError Target :=
  context (s! "invalid --target " ++ str_debug s) (map_err CliConfig (parse_target net_error_display s)).

(** [BaseProbeConfig::new]. *)
Definition base_probe_config_new : BaseProbeConfig :=
  mkBaseProbeConfig None None None None None None None None None None.

Definition build_scenario_with_notes (args : DiscoverArgs)
    : Result CliError (DiscoverScenarioConfig * list Str) :=
  targets ← mapM parse_target_flag (da_target args);
  let sink_kind := default KindStdout (da_sink args) in
  sink_config ← build_sink_config_for_kind sink_kind args;
  selected ← map_err CliCore (select_probe_kinds_with args (probe_is_runnable icmp_is_runnable));
  _ ← map_err CliCore (reject_uncompiled_probe_ports args);
  probers ← map_err CliCore (expand_probe_selection (sp_kinds selected) (probe_options args env));
  let notes := selection_notes args selected in
  let base := {|
    bp_name := None;
    bp_max_concurrent := Some (default CLI_DEFAULT_CONCURRENCY (da_concurrency args));
    bp_probe_rate := da_rate args;
    bp_retries := da_retries args;
    bp_timeout_ms := Some (default CLI_DEFAULT_TIMEOUT_MS (da_timeout_ms args));
    bp_encoder := Some (record_encoder (da_format args) (writes_to_stdout (Some sink_config))
                          stdout_table_width);
    bp_fuser := None;
    bp_classifier := None;
    bp_sink := Some sink_config;
    bp_rate_limit := None;
  |} in
  Ok (mkScenario base targets probers, notes).

(** ** The scenarios of a file, under its defaults and the flags *)

Definition or_default {A} (own fallback : option A) : option A :=
  match own with None => fallback | Some _ => own end.

Definition merge_defaults (base defaults : BaseProbeConfig) : BaseProbeConfig := {|
  bp_name := or_default (bp_name base) (bp_name defaults);
  bp_max_concurrent := or_default (bp_max_concurrent base) (bp_max_concurrent defaults);
  bp_probe_rate := or_default (bp_probe_rate base) (bp_probe_rate defaults);
  bp_retries := or_default (bp_retries base) (bp_retries defaults);
  bp_timeout_ms := or_default (bp_timeout_ms base) (bp_timeout_ms defaults);
  bp_encoder := or_default (bp_encoder base) (bp_encoder defaults);
  bp_fuser := or_default (bp_fuser base) (bp_fuser defaults);
  bp_classifier := or_default (bp_classifier base) (bp_classifier defaults);
  bp_sink := or_default (bp_sink base) (bp_sink defaults);
  bp_rate_limit := bp_rate_limit base;
|}.

Definition apply_cli_overrides (base : BaseProbeConfig) (args : DiscoverArgs)
    (cli_sink : option SinkConfig) (cli_encoder : option EncoderConfig) : BaseProbeConfig :=
  let sink := or_default cli_sink (bp_sink base) in {|
    bp_name := bp_name base;
    bp_max_concurrent := or_default (da_concurrency args) (bp_max_concurrent base);
    bp_probe_rate := or_default (da_rate args) (bp_probe_rate base);
    bp_retries := or_default (da_retries args) (bp_retries base);
    bp_timeout_ms := or_default (da_timeout_ms args) (bp_timeout_ms base);
    bp_encoder := match cli_encoder with
                  | Some encoder => Some encoder
                  | None =>
                      match bp_encoder base with
                      | None => Some (record_encoder None (writes_to_stdout sink) stdout_table_width)
                      | Some encoder => Some encoder
                      end
                  end;
    bp_fuser := bp_fuser base;
    bp_classifier := bp_classifier base;
    bp_sink := sink;
    bp_rate_limit := bp_rate_limit base;
  |}.

Definition build_cli_sink_override (args : DiscoverArgs) : Result CliError (option SinkConfig) :=
  match da_sink args with
  | None => Ok None
  | Some kind => Some <$> build_sink_config_for_kind kind args
  end.

Definition build_cli_encoder_override (args : DiscoverArgs) : option EncoderConfig :=
  (λ format, encoder_for_format format stdout_table_width) <$> da_format args.

(** ** Labels and knobs *)

Definition of_total (idx total : nat) : Str :=
  fmt_dec (Z.of_nat idx + 1) ++ s! " of " ++ fmt_dec (Z.of_nat total).

Definition cli_scenario_label (base : BaseProbeConfig) (idx total : nat) : Str :=
  match bp_name base with
  | Some n => s! "scenario '" ++ n ++ s! "' (" ++ of_total idx total ++ s! ")"
  | None => s! "scenario " ++ of_total idx total
  end.

Definition machine_scenario_label (base : BaseProbeConfig) : Str := default (s! "unnamed") (bp_name base).

Definition dry_run_scenario_label (base : BaseProbeConfig) (idx total : nat) : Str :=
  match bp_name base with
  | Some n => s! "'" ++ n ++ s! "' (" ++ of_total idx total ++ s! ")"
  | None => of_total idx total
  end.

Definition scenario_plan_label (base : BaseProbeConfig) (idx total : nat) (format : OutputFormat) : Str :=
  match format with
  | FormatTable => dry_run_scenario_label base idx total
  | FormatJson => machine_scenario_label base
  end.

Definition effective_knobs (scenario : DiscoverScenarioConfig) (args : DiscoverArgs) : PlanKnobs :=
  let base := sc_base scenario in {|
    kn_max_concurrent := Z.max (default (default CLI_DEFAULT_CONCURRENCY (da_concurrency args))
                                 (bp_max_concurrent base)) 1;
    kn_probe_rate := or_default (bp_probe_rate base) (da_rate args);
    kn_retries := default 0 (or_default (bp_retries base) (da_retries args));
    kn_timeout_ms := default (default CLI_DEFAULT_TIMEOUT_MS (da_timeout_ms args)) (bp_timeout_ms base);
  |}.

Definition checkpoint_config (args : DiscoverArgs) : option CheckpointConfig :=
  (λ path, mkCheckpointConfig path (default DEFAULT_CHECKPOINT_INTERVAL (da_checkpoint_interval args))
             (da_resume args)) <$> da_checkpoint args.

End scenario.

(** * Runs of the command line: [cli/discover.rs], [cli/validate.rs], [cli/catalog.rs],
      [run_report.rs] and the totals of [cli/output/banner.rs]

    A file of scenarios is run (or rehearsed) scenario by scenario; every scenario the run
    reaches is reported with how it ended, and the run fails when one failed or when none
    was run. The run of one scenario is the core's [run_discovery], taken as a function of
    the world. *)

(** ** [cli/catalog.rs] *)

Definition CATALOG_DIR_ENV : Str := s! "RASTREO_CATALOG_DIR".
Definition XDG_CONFIG_HOME_ENV : Str := s! "XDG_CONFIG_HOME".
Definition HOME_ENV : Str := s! "HOME".
Definition ETC_CATALOG_DIR : Str := s! "/etc/rastreo/catalog".
Definition MAX_LISTED_NAMES_PER_DIR : nat := 20.

(** [PathBuf::join] with a relative component. *)
Definition path_join (dir leaf : Str) : Str :=
  match rev dir with
  | [] => leaf
  | 47 :: _ => dir ++ leaf
  | _ => dir ++ s! "/" ++ leaf
  end.

(** [str::strip_suffix]. *)
Definition strip_suffix (suffix s : Str) : option Str := (λ r, rev r) <$> strip_prefix (rev suffix) (rev s).

Definition yaml_stem (name : Str) : option Str :=
  match strip_suffix (s! ".yml") name with
  | Some stem => Some stem
  | None => strip_suffix (s! ".yaml") name
  end.

Definition strip_yaml_suffix (name : Str) : Str := default name (yaml_stem name).

(** [names.sort(); names.dedup()]. *)
Definition sort_names (names : list Str) : list Str := vec_dedup (merge_sort str_le names).

Record DirEntry : Type := mkDirEntry { de_name : option Str; de_is_file : bool }.

Section catalog.
Context {E : Type} {EN : Env E} (env : E).
(** [Path::is_file], [Path::is_dir] and [read_dir], which fails or lists the entries. *)
Context (is_file is_dir : Str → bool) (read_dir : Str → option (list DirEntry)).
Context {PL : ProberLib} `{FE : ForeignErrors}.

Definition nonempty_var (name : Str) : option Str :=
  match env_var env name with
  | Ok s => if is_empty s then None else Some s
  | Err _ => None
  end.

Definition search_dirs : list Str :=
  match env_var env CATALOG_DIR_ENV with
  | Ok raw => base.filter (λ s, is_empty s = false) (split_on 58 raw)
  | Err _ =>
      match nonempty_var XDG_CONFIG_HOME_ENV with
      | Some xdg => [path_join (path_join xdg (s! "rastreo")) (s! "catalog"); ETC_CATALOG_DIR]
      | None =>
          match nonempty_var HOME_ENV with
          | Some home =>
              [path_join (path_join (path_join home (s! ".config")) (s! "rastreo")) (s! "catalog");
               ETC_CATALOG_DIR]
          | None => [ETC_CATALOG_DIR]
          end
      end
  end.

Definition list_catalog_names (dir : Str) : list Str :=
  match read_dir dir with
  | None => []
  | Some entries =>
      sort_names (omap (λ entry,
        if de_is_file entry then de_name entry ≫= yaml_stem else None) entries)
  end.

Definition listed_in (dir : Str) : Str :=
  let names := list_catalog_names dir in
  [10] ++ s! "available in " ++ dir ++ s! ":" ++
  mjoin ((λ n, [10] ++ s! "  - @" ++ n) <$> take MAX_LISTED_NAMES_PER_DIR names) ++
  if (MAX_LISTED_NAMES_PER_DIR <? length names)%nat then
    [10] ++ s! "  ... and " ++ fmt_dec (Z.of_nat (length names - MAX_LISTED_NAMES_PER_DIR)) ++ s! " more"
  else [].

Definition not_found_message (name : Str) (dirs : list Str) : Str :=
  let existing_dirs := base.filter (λ d, is_dir d = true) dirs in
  let msg := s! "catalog scenario '@" ++ name ++ s! "' not found" ++ [10] ++ s! "searched directories:" ++
    mjoin ((λ dir, [10] ++ s! "  - " ++ dir ++ (if is_dir dir then [] else s! " (missing)")) <$> dirs) in
  if is_empty existing_dirs then
    msg ++ [10] ++ s! "no catalog directories exist; create `~/.config/rastreo/catalog/` and add scenario YAML files there"
  else
    let holding := base.filter (λ d, is_empty (list_catalog_names d) = false) existing_dirs in
    let msg := msg ++ mjoin (listed_in <$> holding) in
    if is_empty holding then
      msg ++ [10] ++ s! "no scenario YAML files present in any searched directory"
    else msg.

(** The candidates in the order they are tried. *)
Definition catalog_candidates (stem : Str) (dirs : list Str) : list Str :=
  mjoin ((λ dir, (λ ext, path_join dir (stem ++ s! "." ++ ext)) <$> [s! "yml"; s! "yaml"]) <$> dirs).

Definition resolve_catalog_name (name : Str) : Result CliError Str :=
  if is_empty name then Err (CliMessage (s! "catalog name may not be empty"))
  else if bool_decide (47 ∈ name) || bool_decide (92 ∈ name) then
    Err (CliMessage (s! "catalog name may not contain path separators: " ++ str_debug name))
  else
    let stem := strip_yaml_suffix name in
    match find_map (λ candidate, if is_file candidate then Some candidate else None)
            (catalog_candidates stem search_dirs) with
    | Some candidate => Ok candidate
    | None => Err (CliMessage (not_found_message stem search_dirs))
    end.

(** The set of all names, resolved back one by one. *)
Definition list_catalog : list (Str * Str) :=
  omap (λ name, (λ path, (name, path)) <$> result_ok (resolve_catalog_name name))
    (sort_names (mjoin (list_catalog_names <$> search_dirs))).

Definition none_found_message (dirs : list Str) : Str :=
  s! "no catalog scenarios found (searched: " ++ join (s! ", ") dirs ++ s! ")".

(** [{handle:<width$}]: padded by characters, though the width counts bytes. *)
Definition format_listing (entries : list (Str * Str)) : Str :=
  let width := max_list ((λ e : Str * Str, (length (as_bytes e.1) + 1)%nat) <$> entries) in
  mjoin ((λ e : Str * Str,
    let handle := s! "@" ++ e.1 in
    handle ++ replicate (width - length handle) 32 ++ s! "  ->  " ++ e.2 ++ [10]) <$> entries).

Definition resolve_scenario_source (input : Str) : Result CliError Str :=
  match strip_prefix (s! "@") input with
  | Some name => resolve_catalog_name name
  | None => Ok input
  end.

End catalog.

(** ** [run_report.rs] *)

Definition RUN_REPORT_VERSION : Z := 1.

Inductive ScenarioOutcome : Type := Completed | Failed | Skipped.

#[global] Instance ScenarioOutcome_eq_dec : EqDecision ScenarioOutcome.
Proof. solve_decision. Defined.

Record ScenarioReport : Type := mkScenarioReport {
  sre_scenario : Str;
  sre_outcome : ScenarioOutcome;
  sre_summary : option DiscoverySummary;
}.

Record ScenarioTally : Type := mkScenarioTally {
  ty_total : nat;
  ty_completed : nat;
  ty_failed : nat;
  ty_skipped : nat;
}.

Definition tally_entry (t : ScenarioTally) (entry : ScenarioReport) : ScenarioTally :=
  match sre_outcome entry with
  | Completed => mkScenarioTally (ty_total t) (S (ty_completed t)) (ty_failed t) (ty_skipped t)
  | Failed => mkScenarioTally (ty_total t) (ty_completed t) (S (ty_failed t)) (ty_skipped t)
  | Skipped => mkScenarioTally (ty_total t) (ty_completed t) (ty_failed t) (S (ty_skipped t))
  end.

Definition tally_over (scenarios : list ScenarioReport) (total : nat) : ScenarioTally :=
  foldl tally_entry (mkScenarioTally total 0 0 0) scenarios.

Record RunAggregate : Type := mkRunAggregate {
  ra_scenario_counts : ScenarioTally;
  ra_summary : DiscoverySummary;
}.

Record RunReport : Type := mkRunReport {
  rr_report_version : Z;
  rr_scenarios : list ScenarioReport;
  rr_aggregate : RunAggregate;
}.

Definition run_report_new (scenarios : list ScenarioReport) (total : nat) (summary : DiscoverySummary)
    : RunReport :=
  mkRunReport RUN_REPORT_VERSION scenarios (mkRunAggregate (tally_over scenarios total) summary).

(** ** [accumulate] *)

Definition discovery_summary_default : DiscoverySummary :=
  mkDiscoverySummary 0 0 0 0 0 [] ∅ [] 0 [] None false None 0.

Fixpoint add_probe_kind (l : list ProbeKindSummary) (entry : ProbeKindSummary) : list ProbeKindSummary :=
  match l with
  | [] => [entry]
  | e :: rest =>
      if bool_decide (pk_kind e = pk_kind entry) then
        mkProbeKindSummary (pk_kind e) (pk_attempted e + pk_attempted entry)%nat
          (pk_errored e + pk_errored entry)%nat :: rest
      else e :: add_probe_kind rest entry
  end.

Fixpoint add_dlq (l : Attribution) (entry : SinkType * SinkErrorClass * Z) : Attribution :=
  match l with
  | [] => [entry]
  | e :: rest =>
      if bool_decide (e.1 = entry.1) then (e.1, wrap 64 (e.2 + entry.2)) :: rest
      else e :: add_dlq rest entry
  end.

(** The counters are machine words that wrap; the others cannot reach their bounds. *)
Definition accumulate (agg scenario : DiscoverySummary) : DiscoverySummary := {|
  ds_targets_resolved := wrap 64 (ds_targets_resolved agg + ds_targets_resolved scenario);
  ds_probe_attempts := (ds_probe_attempts agg + ds_probe_attempts scenario)%nat;
  ds_records_emitted := (ds_records_emitted agg + ds_records_emitted scenario)%nat;
  ds_links_emitted := (ds_links_emitted agg + ds_links_emitted scenario)%nat;
  ds_profiles_emitted := (ds_profiles_emitted agg + ds_profiles_emitted scenario)%nat;
  ds_unresolvable_targets := ds_unresolvable_targets agg ++ ds_unresolvable_targets scenario;
  ds_error_counts := union_with (λ a b, Some (a + b)%nat) (ds_error_counts agg) (ds_error_counts scenario);
  ds_probes_by_kind := foldl add_probe_kind (ds_probes_by_kind agg) (ds_probes_by_kind scenario);
  ds_dlq_records := wrap 64 (ds_dlq_records agg + ds_dlq_records scenario);
  ds_dlq_records_by_type_and_class :=
    foldl add_dlq (ds_dlq_records_by_type_and_class agg) (ds_dlq_records_by_type_and_class scenario);
  ds_sink_type := ds_sink_type agg;
  ds_cancelled := ds_cancelled agg || ds_cancelled scenario;
  ds_first_probe_error := or_default (ds_first_probe_error agg) (ds_first_probe_error scenario);
  ds_elapsed := ds_elapsed agg + ds_elapsed scenario;
|}.

Definition cancel_aggregate (agg : DiscoverySummary) : DiscoverySummary :=
  mkDiscoverySummary (ds_targets_resolved agg) (ds_probe_attempts agg) (ds_records_emitted agg)
    (ds_links_emitted agg) (ds_profiles_emitted agg) (ds_unresolvable_targets agg)
    (ds_error_counts agg) (ds_probes_by_kind agg) (ds_dlq_records agg)
    (ds_dlq_records_by_type_and_class agg) (ds_sink_type agg) true (ds_first_probe_error agg)
    (ds_elapsed agg).

(** ** The runs *)

Section runs.
Context `{NL : IpNetLib, UC : UnicodeCase, FD : F64Display, FE : ForeignErrors, MS : MibSource,
  HO : HashOrder, FT : Features}.
Context {NP : IpNetParse} {PF : ProbeFeatures}.
Context {RL : RegexLib} {PL : ProberLib} {IE : IoErrors} {ED : ErrorDisplay} {ES : ErrorSources}.
Context {W : Type} {FS : FsLib W} {SC : ScanCodec} {SS : SinkStore W} {KL : KafkaLib W}.
Context {E : Type} {EN : Env E} (env : E).
(** The terminal's width, the ICMP socket test, the texts of [ipnet]'s errors, and the report
    as JSON. *)
Context (net_error_display : Str) (stdout_table_width : Z) (icmp_is_runnable : bool).
Context (report_to_vec : RunReport → Bytes).
(** Where scenario files are, and how they are read. *)
Context (is_file is_dir : Str → bool) (read_dir : Str → option (list DirEntry)).
Context (read_to_string : Str → Result IoError Str).
Context (from_str : Str → Result Str YamlValue) (scenario_from_value : YamlValue → Result Str ScenarioFile).
(** The core: the system resolver, the clock, and the run of one scenario. *)
Context (system_resolver : Result RastreoError ResolverOps) (now : Z).
Context (run_discovery : RunOptions → W → W * Result RastreoError DiscoverySummary).
(** The cancel flag, as the loop over the scenarios reads it. *)
Context (cancelled : W → bool).

Abbreviation resolve_scenario_source := (resolve_scenario_source env is_file is_dir read_dir).

Definition load_scenario_file (path : Str) : Result CliError ScenarioFile :=
  contents ← context (s! "failed to read scenario file '" ++ path ++ s! "'")
      (map_err CliIo (read_to_string path));
  context (s! "failed to parse scenario file '" ++ path ++ s! "'")
    (map_err CliCore (parse_scenario_file read_to_string from_str scenario_from_value contents env)).

(** The checks every use of a file begins with; only one scenario kind exists. *)
Definition check_file (file : ScenarioFile) (path : Str) : Result CliError unit :=
  if negb (sf_version file =? 1) then
    Err (CliMessage (s! "unsupported scenario file version " ++ fmt_dec (sf_version file) ++
                     s! ": only version 1 is supported"))
  else if is_empty (sf_scenarios file) then
    Err (CliMessage (s! "scenario file '" ++ path ++ s! "' has no scenarios"))
  else Ok tt.

Definition ensure_checkpoint_is_single_scenario (args : DiscoverArgs) (file : ScenarioFile) (path : Str)
    : Result CliError unit :=
  if negb (bool_decide (is_Some (da_checkpoint args))) || (length (sf_scenarios file) <? 2)%nat then Ok tt
  else
    Err (CliMessage (s! "--checkpoint supports a single-scenario run; '" ++ path ++ s! "' has " ++
      fmt_dec (Z.of_nat (length (sf_scenarios file))) ++
      s! " scenarios. One checkpoint path cannot record several scenarios' progress, so a checkpoint written here could not be resumed.")).

Definition ensure_not_every_scenario_was_skipped (skipped total : nat) (path : Str) : Result CliError unit :=
  if (skipped =? 0)%nat || (skipped <? total)%nat then Ok tt
  else Err (CliMessage (s! "every scenario in '" ++ path ++
         s! "' was skipped for having no probers; there is nothing to probe")).

Definition refuse_nothing_to_probe (targets : nat) (unresolvable : list Str) : Result CliError unit :=
  if is_empty unresolvable || (length unresolvable <? targets)%nat then Ok tt
  else Err (CliMessage (s! "every target is unresolvable (" ++ join (s! ", ") unresolvable ++
         s! "); there is nothing to probe")).

Definition run_options (scenario : DiscoverScenarioConfig) (args : DiscoverArgs) : RunOptions :=
  mkRunOptions scenario None None None (checkpoint_config args).

Definition write_run_report (path : option Str) (report : RunReport) (w : W) : W * Result CliError unit :=
  match path with
  | None => (w, Ok tt)
  | Some path =>
      if is_empty (rr_scenarios report) then (w, Ok tt)
      else
        let '(w, r) := write_atomically path (report_to_vec report) w in
        (w, map_err (λ failure, CliReport (wf_path failure) (wf_source failure)) r)
  end.

(** [scan.and(report_write)]. *)
Definition run_outcome (scan report_write : Result CliError unit) : Result CliError unit :=
  match scan with Ok _ => report_write | Err e => Err e end.

Definition scan_outcome_of (scan : Result CliError unit) : ScenarioOutcome :=
  match scan with Ok _ => Completed | Err _ => Failed end.

(** ** A run of the flags *)

Definition FLAG_DRIVEN_LABEL : Str := s! "discover".

Definition scan_from_flags (scenario : DiscoverScenarioConfig) (args : DiscoverArgs) (w : W)
    : W * (Result CliError unit * option DiscoverySummary) :=
  let opts := run_options scenario args in
  match run_plan opts FLAG_DRIVEN_LABEL (effective_knobs scenario args) w with
  | Err err => (w, (Err (CliCore err), None))
  | Ok _ =>
      let '(w, r) := run_discovery opts w in
      match r with
      | Ok summary =>
          (w, (refuse_nothing_to_probe (length (sc_targets scenario)) (ds_unresolvable_targets summary),
               Some summary))
      | Err err => (w, (Err (CliCore err), None))
      end
  end.

Definition flags_report (scan : Result CliError unit) (summary : option DiscoverySummary) : RunReport :=
  let aggregate := match summary with
                   | Some summary => accumulate discovery_summary_default summary
                   | None => discovery_summary_default
                   end in
  run_report_new [mkScenarioReport FLAG_DRIVEN_LABEL (scan_outcome_of scan) summary] 1 aggregate.

Definition scenario_from_flags (args : DiscoverArgs) : Result CliError DiscoverScenarioConfig :=
  fst <$> build_scenario_with_notes env net_error_display stdout_table_width icmp_is_runnable args.

Definition run_legacy (args : DiscoverArgs) (w : W) : W * Result CliError unit :=
  match scenario_from_flags args with
  | Err e => (w, Err e)
  | Ok scenario =>
      let '(w, (scan, summary)) := scan_from_flags scenario args w in
      let '(w, written) := write_run_report (da_run_report args) (flags_report scan summary) w in
      (w, run_outcome scan written)
  end.

(** ** A run of a file *)

(** A scenario of a file as the run sees it. *)
Definition effective_scenario (file : ScenarioFile) (args : DiscoverArgs) (cli_sink : option SinkConfig)
    (entry : ScenarioEntry) : DiscoverScenarioConfig :=
  match entry with
  | Discover cfg =>
      mkScenario (apply_cli_overrides stdout_table_width (merge_defaults (sc_base cfg) (sf_defaults file))
                    args cli_sink (build_cli_encoder_override stdout_table_width args))
        (sc_targets cfg) (sc_probers cfg)
  end.

(** One scenario: its report, and the summary that joins the totals. *)
Definition run_scenario (args : DiscoverArgs) (idx total : nat) (cfg : DiscoverScenarioConfig) (w : W)
    : W * ScenarioReport :=
  let name := machine_scenario_label (sc_base cfg) in
  if is_empty (sc_probers cfg) then (w, mkScenarioReport name Skipped None)
  else
    let opts := run_options cfg args in
    match run_plan opts (cli_scenario_label (sc_base cfg) idx total) (effective_knobs cfg args) w with
    | Err _ => (w, mkScenarioReport name Failed None)
    | Ok _ =>
        let '(w, r) := run_discovery opts w in
        match r with
        | Ok summary =>
            let scan := refuse_nothing_to_probe (length (sc_targets cfg)) (ds_unresolvable_targets summary) in
            (w, mkScenarioReport name (scan_outcome_of scan) (Some summary))
        | Err _ => (w, mkScenarioReport name Failed None)
        end
    end.

Definition add_summary (aggregate : DiscoverySummary) (report : ScenarioReport) : DiscoverySummary :=
  match sre_summary report with
  | Some summary => accumulate aggregate summary
  | None => aggregate
  end.

Fixpoint run_scenarios (args : DiscoverArgs) (idx total : nat) (cfgs : list DiscoverScenarioConfig)
    (scenarios : list ScenarioReport) (aggregate : DiscoverySummary) (w : W)
    : W * (list ScenarioReport * DiscoverySummary) :=
  match cfgs with
  | [] => (w, (scenarios, aggregate))
  | cfg :: rest =>
      if cancelled w then (w, (scenarios, cancel_aggregate aggregate))
      else
        let '(w, report) := run_scenario args idx total cfg w in
        run_scenarios args (S idx) total rest (scenarios ++ [report]) (add_summary aggregate report) w
  end.

Definition scenario_loop_outcome (tally : ScenarioTally) (total : nat) (path : Str) : Result CliError unit :=
  if (0 <? ty_failed tally)%nat then
    Err (CliMessage (fmt_dec (Z.of_nat (ty_failed tally)) ++ s! " of " ++ fmt_dec (Z.of_nat total) ++
           s! " scenario(s) failed; see individual errors above"))
  else ensure_not_every_scenario_was_skipped (ty_skipped tally) total path.

(** What is settled before the first scenario. *)
Definition open_file (args : DiscoverArgs) (raw : Str)
    : Result CliError (Str * ScenarioFile * option SinkConfig) :=
  path ← resolve_scenario_source raw;
  file ← load_scenario_file path;
  _ ← check_file file path;
  _ ← ensure_checkpoint_is_single_scenario args file path;
  cli_sink ← build_cli_sink_override args;
  Ok (path, file, cli_sink).

Definition run_from_file (args : DiscoverArgs) (raw : Str) (w : W) : W * Result CliError RunReport :=
  match open_file args raw with
  | Err e => (w, Err e)
  | Ok (path, file, cli_sink) =>
      let total := length (sf_scenarios file) in
      let '(w, (scenarios, aggregate)) :=
        run_scenarios args 0 total (effective_scenario file args cli_sink <$> sf_scenarios file)
          [] discovery_summary_default w in
      let report := run_report_new scenarios total aggregate in
      let '(w, written) := write_run_report (da_run_report args) report w in
      (w, (λ _, report) <$>
            run_outcome (scenario_loop_outcome (ra_scenario_counts (rr_aggregate report)) total path) written)
  end.

(** ** Rehearsals *)

Definition dry_run_checkpoint_preflight (scenario : DiscoverScenarioConfig) (args : DiscoverArgs) (w : W)
    : Result RastreoError (option Checkpoint) :=
  match checkpoint_config args with
  | None => Ok None
  | Some config => map_err EResume (preflight_checkpoint_request scenario config w)
  end.

Definition rehearsed_resolution (scenario : DiscoverScenarioConfig) (args : DiscoverArgs)
    (resolver : ResolverOps) (w : W) : Result RastreoError ScenarioResolution :=
  checkpoint ← dry_run_checkpoint_preflight scenario args w;
  match checkpoint with
  | Some checkpoint =>
      resolve_pinned_scenario now (sc_targets scenario) (ck_dns_pins checkpoint)
        (ck_highest_flushed_index checkpoint)
  | None => Ok (resolve_scenario resolver now (sc_targets scenario))
  end.

Definition ensure_a_target_resolved (resolution : ScenarioResolution) (targets : nat) : Result CliError unit :=
  match refusal resolution with
  | Some _ => Ok tt
  | None =>
      refuse_nothing_to_probe targets (target_display <$> scenario_unresolvable_targets resolution)
  end.

(** The core's [RunOptions::plan], counted onto a resolution. *)
Definition build_resolved_plan (label : Str) (scenario : DiscoverScenarioConfig)
    (resolution : ScenarioResolution) (args : DiscoverArgs) (w : W) : Result RastreoError DiscoveryPlan :=
  stages ← run_plan (run_options scenario args) label (effective_knobs scenario args) w;
  Ok (plan_resolve stages resolution).

Definition write_dry_run_header (scenario_count : nat) : Str :=
  s! "[dry-run] would run " ++ fmt_dec (Z.of_nat scenario_count) ++ s! " " ++
  (if (scenario_count =? 1)%nat then s! "scenario" else s! "scenarios") ++ [10].

Definition write_totals (total_probes : Z) : Str :=
  s! "total probes: " ++ fmt_dec total_probes ++ [10].

Definition render_dry_run_text (plans : list DiscoveryPlan) : Str :=
  write_dry_run_header (length plans) ++ mjoin (plan_display <$> plans) ++
  write_totals (foldl (λ n p, wrap 64 (n + dpl_total_probes p)) 0 plans).

(** One scenario of a rehearsal: the plan it renders, and how it counts. *)
Definition rehearse_scenario (args : DiscoverArgs) (resolver : ResolverOps) (label : Str)
    (cfg : DiscoverScenarioConfig) (w : W) : option DiscoveryPlan * ScenarioOutcome :=
  if is_empty (sc_probers cfg) then (None, Skipped)
  else
    match scenario_validate cfg with
    | Err _ => (None, Failed)
    | Ok _ =>
        match rehearsed_resolution cfg args resolver w with
        | Err _ => (None, Failed)
        | Ok resolution =>
            match build_resolved_plan label cfg resolution args w with
            | Err _ => (None, Failed)
            | Ok plan =>
                (Some plan,
                 match refusal resolution with
                 | Some _ => Failed
                 | None => scan_outcome_of (ensure_a_target_resolved resolution (length (sc_targets cfg)))
                 end)
            end
        end
    end.

Fixpoint rehearse_scenarios (args : DiscoverArgs) (resolver : ResolverOps) (format : OutputFormat)
    (idx total : nat) (cfgs : list DiscoverScenarioConfig) (w : W)
    : list (option DiscoveryPlan * ScenarioOutcome) :=
  match cfgs with
  | [] => []
  | cfg :: rest =>
      rehearse_scenario args resolver (scenario_plan_label (sc_base cfg) idx total format) cfg w ::
      rehearse_scenarios args resolver format (S idx) total rest w
  end.

Definition count_outcome (o : ScenarioOutcome) (l : list (option DiscoveryPlan * ScenarioOutcome)) : nat :=
  length (base.filter (λ e : option DiscoveryPlan * ScenarioOutcome, e.2 = o) l).

(** The plans printed, and how the rehearsal ends. *)
Definition run_dry_run_from_file (args : DiscoverArgs) (raw : Str) (resolver : ResolverOps) (w : W)
    : list DiscoveryPlan * Result CliError unit :=
  match open_file args raw with
  | Err e => ([], Err e)
  | Ok (path, file, cli_sink) =>
      let total := length (sf_scenarios file) in
      let rehearsed := rehearse_scenarios args resolver (dry_run_plan_format args) 0 total
                         (effective_scenario file args cli_sink <$> sf_scenarios file) w in
      (omap fst rehearsed,
       scenario_loop_outcome
         (mkScenarioTally total (count_outcome Completed rehearsed) (count_outcome Failed rehearsed)
            (count_outcome Skipped rehearsed)) total path)
  end.

(** The error and its causes on one line. *)
Definition render_error_chain (err : RastreoError) : Str :=
  join (s! ": ") (rastreo_error_display err :: error_sources err).

Definition refuse_on_resolution_error (resolution : ScenarioResolution) : Result CliError unit :=
  match refusal resolution with
  | Some err => Err (CliMessage (render_error_chain err))
  | None => Ok tt
  end.

Definition run_dry_run (args : DiscoverArgs) (w : W) : list DiscoveryPlan * Result CliError unit :=
  match system_resolver with
  | Err e => ([], Err (CliCore e))
  | Ok resolver =>
      match da_file args with
      | Some raw => run_dry_run_from_file args raw resolver w
      | None =>
          match
            scenario ← scenario_from_flags args;
            resolution ← map_err CliCore (rehearsed_resolution scenario args resolver w);
            plan ← map_err CliCore (build_resolved_plan (s! "discovery") scenario resolution args w);
            Ok (scenario, resolution, plan)
          with
          | Err e => ([], Err e)
          | Ok (scenario, resolution, plan) =>
              ([plan],
               _ ← refuse_on_resolution_error resolution;
               ensure_a_target_resolved resolution (length (sc_targets scenario)))
          end
      end
  end.

(** ** [discover::run] and [validate::run] *)

Definition run (args : DiscoverArgs) (w : W) : W * list DiscoveryPlan * Result CliError unit :=
  match
    _ ← ensure_no_retired_flags args;
    ensure_sink_flags_reach_their_sink args
  with
  | Err e => (w, [], Err e)
  | Ok _ =>
      if da_dry_run args then let '(plans, r) := run_dry_run args w in (w, plans, r)
      else
        match da_file args with
        | Some raw => let '(w, r) := run_from_file args raw w in (w, [], (λ _, tt) <$> r)
        | None => let '(w, r) := run_legacy args w in (w, [], r)
        end
  end.

Definition merged_scenario (file : ScenarioFile) (entry : ScenarioEntry) : DiscoverScenarioConfig :=
  match entry with
  | Discover cfg =>
      mkScenario (merge_defaults (sc_base cfg) (sf_defaults file)) (sc_targets cfg) (sc_probers cfg)
  end.

Definition validate_run (raw : Str) : Result CliError unit :=
  path ← resolve_scenario_source raw;
  file ← load_scenario_file path;
  _ ← check_file file path;
  let total := length (sf_scenarios file) in
  let invalid := length (base.filter (λ entry, is_ok (scenario_validate (merged_scenario file entry)) = false)
                   (sf_scenarios file)) in
  if (invalid =? 0)%nat then Ok tt
  else Err (CliMessage (fmt_dec (Z.of_nat invalid) ++ s! " of " ++ fmt_dec (Z.of_nat total) ++
         s! " scenario(s) invalid")).

End runs.
