(* ===== verification/ServerState.v ===== *)
(** * The server's shared state: [rastreo-server/src/state.rs]

    Counters, histograms, readiness, the cached reachability of the sink and the slot that
    holds the sink once it is built. Every [Arc] of the code is shared by all clones of an
    [AppState], so one value of [AppState] here is what all of them see; an atomic counter
    is a [u64] that wraps. Instants and durations are nanoseconds of the monotonic clock. *)

From S2P Require Import Prelude Net F64 Model Resolver Sink Codec Tee Pipeline Env ProberConfig.

(** [AtomicU64::fetch_add] and [fetch_sub], the new value. *)
Definition fetch_add (n c : Z) : Z := wrap 64 (c + n).
Definition fetch_sub (n c : Z) : Z := wrap 64 (c - n).

Definition NANOS_PER_SEC : Z := 1000000000.

(** [Duration::as_secs_f64]. *)
Definition as_secs_f64 (nanos : Z) : f64 :=
  f64_add (f64_of_Z (nanos / NANOS_PER_SEC))
          (SFdiv f64_prec f64_emax (f64_of_Z (nanos mod NANOS_PER_SEC)) (f64_of_Z NANOS_PER_SEC)).

Definition as_millis (nanos : Z) : Z := nanos / 1000000.
Definition from_secs (secs : Z) : Z := secs * NANOS_PER_SEC.

(** ** Histograms *)

(** [sum_bits] holds the bits of the sum; the model keeps the number. *)
Record HistogramShard : Type := mkHistogramShard {
  hs_buckets : list Z;
  hs_plus_inf : Z;
  hs_sum : f64;
  hs_count : Z;
}.

Definition BUCKET_BOUNDS : list f64 :=
  [f64_ratio 5 1000; f64_ratio 1 100; f64_ratio 25 1000; f64_ratio 5 100; f64_ratio 1 10;
   f64_ratio 25 100; f64_ratio 5 10; f64_of_Z 1; f64_ratio 25 10; f64_of_Z 5; f64_of_Z 10].

Definition shard_new : HistogramShard := mkHistogramShard (replicate 11 0) 0 f64_zero 0.

(** The compare-and-swap loop adds to whatever sum it finds when it succeeds, so its effect
    is one atomic addition. *)
Definition shard_observe (seconds : f64) (h : HistogramShard) : HistogramShard := {|
  hs_buckets := zip_with (λ bound n, if f64_le seconds bound then fetch_add 1 n else n)
                  BUCKET_BOUNDS (hs_buckets h);
  hs_plus_inf := fetch_add 1 (hs_plus_inf h);
  hs_sum := f64_add (hs_sum h) seconds;
  hs_count := fetch_add 1 (hs_count h);
|}.

(** ** Scenario labels *)

Record ScenarioHistograms : Type := mkScenarioHistograms {
  sh_all : HistogramShard;
  sh_per_scenario : gmap Str HistogramShard;
  sh_allowlist : gset Str;
  sh_other : HistogramShard;
  sh_max_length : Z;
}.

Definition scenario_histograms_new (allowlist : gset Str) (max_length : Z) : ScenarioHistograms :=
  mkScenarioHistograms shard_new (gset_to_gmap shard_new allowlist) allowlist shard_new max_length.

Definition resolve_label (h : ScenarioHistograms) (scenario : Str) : option Str :=
  let trimmed := if sh_max_length h <? str_len scenario
                 then floor_char_prefix (sh_max_length h) scenario else scenario in
  if bool_decide (trimmed ∈ sh_allowlist h) then Some trimmed else None.

Definition histograms_observe (seconds : f64) (scenario : Str) (h : ScenarioHistograms)
    : ScenarioHistograms :=
  let all := shard_observe seconds (sh_all h) in
  match resolve_label h scenario with
  | Some label =>
      let shard := default shard_new (sh_per_scenario h !! label) in
      mkScenarioHistograms all (<[label := shard_observe seconds shard]> (sh_per_scenario h))
        (sh_allowlist h) (sh_other h) (sh_max_length h)
  | None =>
      mkScenarioHistograms all (sh_per_scenario h) (sh_allowlist h)
        (shard_observe seconds (sh_other h)) (sh_max_length h)
  end.

(** ** Metrics *)

(** The counters per kind, read through [ProbeKind::index]. *)
Record ProbeKindCounters : Type := mkProbeKindCounters {
  pc_succeeded : list Z;
  pc_errored : list Z;
}.

Definition probe_counters_new : ProbeKindCounters :=
  mkProbeKindCounters (replicate PROBE_KIND_COUNT 0) (replicate PROBE_KIND_COUNT 0).

Record DlqRecordsCounter : Type := mkDlqRecordsCounter {
  dq_kafka : list Z;
  dq_nats : list Z;
}.

Definition dlq_counter_new : DlqRecordsCounter :=
  mkDlqRecordsCounter (replicate SINK_ERROR_CLASS_COUNT 0) (replicate SINK_ERROR_CLASS_COUNT 0).

(** [me_otlp] is what an attached exporter histogram was given: the seconds and the label
    of every record call. *)
Record Metrics : Type := mkMetrics {
  me_started_at : Z;
  me_scans_total_success : Z;
  me_scans_total_error : Z;
  me_scans_total_cancelled : Z;
  me_records_emitted_total : Z;
  me_probes : ProbeKindCounters;
  me_sink_errors : list Z;
  me_dlq : DlqRecordsCounter;
  me_scan_duration : ScenarioHistograms;
  me_sink_probe_success : Z;
  me_sink_probe_failure : Z;
  me_otlp : option (list (f64 * Str));
}.

Definition metrics_with_config (started_at : Z) (config : MetricsConfig) : Metrics := {|
  me_started_at := started_at;
  me_scans_total_success := 0;
  me_scans_total_error := 0;
  me_scans_total_cancelled := 0;
  me_records_emitted_total := 0;
  me_probes := probe_counters_new;
  me_sink_errors := replicate SINK_ERROR_CLASS_COUNT 0;
  me_dlq := dlq_counter_new;
  me_scan_duration :=
    scenario_histograms_new (mc_scenario_allowlist config) (mc_scenario_max_length config);
  me_sink_probe_success := 0;
  me_sink_probe_failure := 0;
  me_otlp := None;
|}.

(** One field of the metrics changed, the others kept. *)
Definition on_success (f : Z → Z) '(mkMetrics t s e c r p se d sd ps pf o) : Metrics :=
  mkMetrics t (f s) e c r p se d sd ps pf o.
Definition on_error (f : Z → Z) '(mkMetrics t s e c r p se d sd ps pf o) : Metrics :=
  mkMetrics t s (f e) c r p se d sd ps pf o.
Definition on_cancelled (f : Z → Z) '(mkMetrics t s e c r p se d sd ps pf o) : Metrics :=
  mkMetrics t s e (f c) r p se d sd ps pf o.
Definition on_records (f : Z → Z) '(mkMetrics t s e c r p se d sd ps pf o) : Metrics :=
  mkMetrics t s e c (f r) p se d sd ps pf o.
Definition on_probes (f : ProbeKindCounters → ProbeKindCounters)
    '(mkMetrics t s e c r p se d sd ps pf o) : Metrics :=
  mkMetrics t s e c r (f p) se d sd ps pf o.
Definition on_sink_errors (f : list Z → list Z) '(mkMetrics t s e c r p se d sd ps pf o) : Metrics :=
  mkMetrics t s e c r p (f se) d sd ps pf o.
Definition on_dlq (f : DlqRecordsCounter → DlqRecordsCounter)
    '(mkMetrics t s e c r p se d sd ps pf o) : Metrics :=
  mkMetrics t s e c r p se (f d) sd ps pf o.
Definition on_duration (f : ScenarioHistograms → ScenarioHistograms)
    '(mkMetrics t s e c r p se d sd ps pf o) : Metrics :=
  mkMetrics t s e c r p se d (f sd) ps pf o.
Definition on_probe_success (f : Z → Z) '(mkMetrics t s e c r p se d sd ps pf o) : Metrics :=
  mkMetrics t s e c r p se d sd (f ps) pf o.
Definition on_probe_failure (f : Z → Z) '(mkMetrics t s e c r p se d sd ps pf o) : Metrics :=
  mkMetrics t s e c r p se d sd ps (f pf) o.
Definition on_otlp (f : list (f64 * Str) → list (f64 * Str))
    '(mkMetrics t s e c r p se d sd ps pf o) : Metrics :=
  mkMetrics t s e c r p se d sd ps pf (f <$> o).

Definition record_sink_probe_success (m : Metrics) : Metrics := on_probe_success (fetch_add 1) m.
Definition record_sink_probe_failure (m : Metrics) : Metrics := on_probe_failure (fetch_add 1) m.

(** The cell is written once; a second histogram is handed back. *)
Definition attach_otlp_scan_duration '(mkMetrics t s e c r p se d sd ps pf o) : Metrics * bool :=
  match o with
  | Some _ => (mkMetrics t s e c r p se d sd ps pf o, false)
  | None => (mkMetrics t s e c r p se d sd ps pf (Some []), true)
  end.

Definition record_otlp_scan_duration (seconds : f64) (scenario : Str) (m : Metrics) : Metrics :=
  let label := default (s! "other") (resolve_label (me_scan_duration m) scenario) in
  on_otlp (λ recorded, recorded ++ [(seconds, s! "_all"); (seconds, label)]) m.

Definition record_dlq (sink_type : SinkType) (class : SinkErrorClass) (count : Z) (m : Metrics)
    : Metrics :=
  let add := alter (fetch_add count) (sink_error_class_index class) in
  match sink_type with
  | StKafka => on_dlq (λ d, mkDlqRecordsCounter (add (dq_kafka d)) (dq_nats d)) m
  | StNats => on_dlq (λ d, mkDlqRecordsCounter (dq_kafka d) (add (dq_nats d))) m
  | _ => m
  end.

(** The body of the loop over [probes_by_kind]; the counts are [usize] and so is their
    saturating difference. *)
Definition record_kind (pk : ProbeKindSummary) (m : Metrics) : Metrics :=
  let succeeded := Z.of_nat (pk_attempted pk - pk_errored pk) in
  let idx := probe_kind_index (pk_kind pk) in
  on_probes (λ p, mkProbeKindCounters (alter (fetch_add succeeded) idx (pc_succeeded p))
                    (alter (fetch_add (Z.of_nat (pk_errored pk))) idx (pc_errored p))) m.

Definition observe_duration (nanos : Z) (scenario : Str) (m : Metrics) : Metrics :=
  let seconds := as_secs_f64 nanos in
  record_otlp_scan_duration seconds scenario
    (on_duration (histograms_observe seconds scenario) m).

Definition record_scan_completion (summary : DiscoverySummary) (scenario : Str) (m : Metrics) : Metrics :=
  let m := if ds_cancelled summary then on_cancelled (fetch_add 1) m else on_success (fetch_add 1) m in
  let m := on_records (fetch_add (Z.of_nat (ds_records_emitted summary))) m in
  let m := foldl (λ m pk, record_kind pk m) m (ds_probes_by_kind summary) in
  let m := foldl (λ m e, record_dlq e.1.1 e.1.2 e.2 m) m (ds_dlq_records_by_type_and_class summary) in
  observe_duration (ds_elapsed summary) scenario m.

Definition metrics_record_scan_error (elapsed : Z) (sink_class : option SinkErrorClass) (scenario : Str)
    (m : Metrics) : Metrics :=
  let m := on_error (fetch_add 1) m in
  let m := match sink_class with
           | Some class => on_sink_errors (alter (fetch_add 1) (sink_error_class_index class)) m
           | None => m
           end in
  observe_duration elapsed scenario m.

Definition record_scan_cancelled (elapsed : Z) (scenario : Str) (m : Metrics) : Metrics :=
  observe_duration elapsed scenario (on_cancelled (fetch_add 1) m).

(** ** Stamps on the monotonic clock *)

Record MonotonicStamp : Type := mkMonotonicStamp {
  ms_base : Z;
  ms_since_base_ms : Z;
}.

Definition UNSTAMPED : Z := 0.

Definition encode_stamp (since_base : Z) : Z :=
  let ms := as_millis since_base in
  saturating_add U64_MAX (if ms <=? U64_MAX then ms else U64_MAX - 1) 1.

Definition decode_stamp (raw : Z) : option Z :=
  if raw =? UNSTAMPED then None else Some ((raw - 1) * 1000000).

Definition unstamped (now : Z) : MonotonicStamp := mkMonotonicStamp now UNSTAMPED.

(** [stamp], with the clock reading [now]; [Instant::elapsed] saturates at zero. *)
Definition stamp (now : Z) (s : MonotonicStamp) : MonotonicStamp :=
  mkMonotonicStamp (ms_base s) (encode_stamp (saturating_sub now (ms_base s))).

Definition stamped (now : Z) : MonotonicStamp := stamp now (unstamped now).

Definition stamp_age (now : Z) (s : MonotonicStamp) : option Z :=
  (λ since, saturating_sub (saturating_sub now (ms_base s)) since) <$>
    decode_stamp (ms_since_base_ms s).

Definition age_secs (now : Z) (s : MonotonicStamp) : option f64 := as_secs_f64 <$> stamp_age now s.

(** ** Readiness *)

Record ReadinessState : Type := mkReadinessState {
  rd_inflight_scans : Z;
  rd_last_sink_error : MonotonicStamp;
  rd_last_scan_error : MonotonicStamp;
  rd_config : ReadinessConfig;
}.

Definition readiness_new (now : Z) (config : ReadinessConfig) : ReadinessState :=
  mkReadinessState 0 (unstamped now) (unstamped now) config.

Definition readiness_record_scan_error (now : Z) (is_sink_error : bool) (r : ReadinessState)
    : ReadinessState :=
  mkReadinessState (rd_inflight_scans r)
    (if is_sink_error then stamp now (rd_last_sink_error r) else rd_last_sink_error r)
    (stamp now (rd_last_scan_error r)) (rd_config r).

Definition on_inflight (f : Z → Z) (r : ReadinessState) : ReadinessState :=
  mkReadinessState (f (rd_inflight_scans r)) (rd_last_sink_error r) (rd_last_scan_error r) (rd_config r).

(** ** The reachability of the sink *)

Record SinkReachability : Type := mkSinkReachability {
  sr_reachable : bool;
  sr_last_probe : MonotonicStamp;
  sr_last_tick : MonotonicStamp;
  sr_ticks : Z;
  sr_last_error : option Str;
  sr_sink_type : option SinkType;
  sr_configured : bool;
  sr_probe_interval : Z;
  sr_probe_timeout : Z;
}.

Definition not_configured (now : Z) : SinkReachability :=
  mkSinkReachability false (unstamped now) (unstamped now) 0 None None false 10 5.

Definition reachability_configured (now : Z) (sink_type : SinkType) (interval timeout : Z)
    : SinkReachability :=
  mkSinkReachability false (unstamped now) (unstamped now) 0 None (Some sink_type) true interval timeout.

Definition construction_failed (now : Z) (sink_type : option SinkType) (error : Str)
    (interval timeout : Z) : SinkReachability :=
  mkSinkReachability false (stamped now) (unstamped now) 0 (Some error) sink_type true interval timeout.

Definition set_sink_type (t : SinkType) (r : SinkReachability) : SinkReachability :=
  mkSinkReachability (sr_reachable r) (sr_last_probe r) (sr_last_tick r) (sr_ticks r) (sr_last_error r)
    (Some t) (sr_configured r) (sr_probe_interval r) (sr_probe_timeout r).

Definition record_tick (now : Z) (r : SinkReachability) : SinkReachability :=
  mkSinkReachability (sr_reachable r) (sr_last_probe r) (stamp now (sr_last_tick r))
    (fetch_add 1 (sr_ticks r)) (sr_last_error r) (sr_sink_type r) (sr_configured r)
    (sr_probe_interval r) (sr_probe_timeout r).

Definition record_success (now : Z) (r : SinkReachability) : SinkReachability :=
  mkSinkReachability true (stamp now (sr_last_probe r)) (sr_last_tick r) (sr_ticks r) None
    (sr_sink_type r) (sr_configured r) (sr_probe_interval r) (sr_probe_timeout r).

Definition record_failure (now : Z) (message : Str) (r : SinkReachability) : SinkReachability :=
  mkSinkReachability false (stamp now (sr_last_probe r)) (sr_last_tick r) (sr_ticks r) (Some message)
    (sr_sink_type r) (sr_configured r) (sr_probe_interval r) (sr_probe_timeout r).

Definition reach_type_label (r : SinkReachability) : option Str :=
  match sr_sink_type r with
  | Some t => Some (sink_type_label t)
  | None => if sr_configured r then Some (s! "unknown") else None
  end.

(** ** The state of the application *)

Section app.
Context `{NL : IpNetLib, FE : ForeignErrors} {W : Type} {SS : SinkStore W}.

(** [SinkSlot]: a cell that is written once. *)
Abbreviation SinkSlot := (option Handle).

Definition slot_attach (sink : Handle) (slot : SinkSlot) : SinkSlot :=
  match slot with Some held => Some held | None => Some sink end.

Definition slot_attached (sink : Handle) : SinkSlot := slot_attach sink None.

Record AppState : Type := mkAppState {
  as_resolver : ResolverOps;
  as_metrics : Metrics;
  as_readiness : ReadinessState;
  as_sink : SinkSlot;
  as_sink_reachability : SinkReachability;
  as_auth : AuthConfig;
  as_max_body_bytes : Z;
  as_max_result_bytes : Z;
}.

Definition app_with_config (now : Z) (resolver : ResolverOps) (readiness : ReadinessConfig)
    (metrics : MetricsConfig) : AppState :=
  mkAppState resolver (metrics_with_config now metrics) (readiness_new now readiness) None
    (not_configured now) AuthDisabled DEFAULT_MAX_BODY_BYTES DEFAULT_MAX_RESULT_BYTES.

Definition app_with_readiness (now : Z) (resolver : ResolverOps) (config : ReadinessConfig) : AppState :=
  app_with_config now resolver config metrics_config_default.

Definition app_new (now : Z) (resolver : ResolverOps) : AppState :=
  app_with_readiness now resolver readiness_config_default.

Definition with_sink_slot (sink : SinkSlot) (reach : SinkReachability) '(mkAppState r m rd _ _ a b x)
    : AppState := mkAppState r m rd sink reach a b x.
Definition with_sink (sink : option Handle) (reach : SinkReachability) (s : AppState) : AppState :=
  with_sink_slot (match sink with Some h => slot_attached h | None => None end) reach s.
Definition with_auth (auth : AuthConfig) '(mkAppState r m rd k sr _ b x) : AppState :=
  mkAppState r m rd k sr auth b x.
Definition with_body_limit (max_body_bytes : Z) '(mkAppState r m rd k sr a _ x) : AppState :=
  mkAppState r m rd k sr a max_body_bytes x.
Definition with_result_limit (max_result_bytes : Z) '(mkAppState r m rd k sr a b _) : AppState :=
  mkAppState r m rd k sr a b max_result_bytes.

(** The shared parts changed by a handler or by the probe task. *)
Definition on_metrics (f : Metrics → Metrics) '(mkAppState r m rd k sr a b x) : AppState :=
  mkAppState r (f m) rd k sr a b x.
Definition on_readiness (f : ReadinessState → ReadinessState) '(mkAppState r m rd k sr a b x) : AppState :=
  mkAppState r m (f rd) k sr a b x.
End app.
