(* ===== verification/ServerHttp.v ===== *)
(** * Errors, authentication and readiness of the server

    [rastreo-server/src/error.rs], [routes/auth.rs] and [routes/health.rs]. *)

From S2P Require Import Prelude Net F64 Model Resolver Sink Tee Pipeline Env ServerState.

(** ** [error.rs] *)

(** The status codes the server answers with. *)
Definition OK : Z := 200.
Definition BAD_REQUEST : Z := 400.
Definition UNAUTHORIZED : Z := 401.
Definition FORBIDDEN : Z := 403.
Definition TOO_MANY_REQUESTS : Z := 429.
Definition INTERNAL_SERVER_ERROR : Z := 500.
Definition SERVICE_UNAVAILABLE : Z := 503.

(** [StatusCode::is_client_error] and [is_server_error]. *)
Definition is_client_error (status : Z) : bool := (400 <=? status) && (status <? 500).
Definition is_server_error (status : Z) : bool := (500 <=? status) && (status <? 600).

Definition REDACTED_SERVER_ERROR : Str := s! "internal server error".

Record AppError : Type := mkAppError {
  ae_status : Z;
  ae_message : Str;
}.

Definition too_many_requests (message : Str) : AppError := mkAppError TOO_MANY_REQUESTS message.
Definition unauthorized_error (message : Str) : AppError := mkAppError UNAUTHORIZED message.

Definition status_for `{ForeignErrors} (err : RastreoError) : Z :=
  match err with
  | EConfig _ => BAD_REQUEST
  | EClassifier _ => BAD_REQUEST
  | EResolver inner =>
      match inner with
      | DnsLookupFailed _ _ => SERVICE_UNAVAILABLE
      | TargetNotAllowed _ => FORBIDDEN
      | _ => BAD_REQUEST
      end
  | EProbe _ => INTERNAL_SERVER_ERROR
  | EEncoder _ => INTERNAL_SERVER_ERROR
  | ESink _ => INTERNAL_SERVER_ERROR
  | ERuntime _ => INTERNAL_SERVER_ERROR
  | EResume _ => INTERNAL_SERVER_ERROR
  | EReport _ _ => INTERNAL_SERVER_ERROR
  end.

(** ** [routes/auth.rs] *)

(** Whether the caller proved to be authenticated; the default withholds. *)
Record ErrorDisclosure : Type := mkErrorDisclosure { caller_authenticated : bool }.

Definition disclosure_default : ErrorDisclosure := mkErrorDisclosure false.

(** Of the [http] and [subtle] crates: the text of a header value, when it is visible
    ASCII, and the comparison in constant time. *)
Class HttpLib := {
  header_to_str : Bytes → option Str;
  ct_eq : Bytes → Bytes → bool;
}.

Class HttpLaws (L : HttpLib) : Prop := {
  header_to_str_bytes raw text : header_to_str raw = Some text → as_bytes text = raw;
  ct_eq_spec a b : ct_eq a b = true ↔ a = b;
}.

Section errors.
Context `{FE : ForeignErrors} {ED : ErrorDisplay} {ES : ErrorSources}.

Definition error_chain (err : RastreoError) : Str :=
  foldl (λ rendered source, rendered ++ s! ": " ++ source) (rastreo_error_display err)
    (error_sources err).

Definition response_message (err : RastreoError) (status : Z) (disclose : bool) : Str :=
  if is_client_error status then rastreo_error_display err
  else if disclose then error_chain err
  else REDACTED_SERVER_ERROR.

Definition from_rastreo (err : RastreoError) (disclosure : ErrorDisclosure) : AppError :=
  let status := status_for err in
  mkAppError status (response_message err status (caller_authenticated disclosure)).
End errors.

(** A request as the scan route sees it: its header, the parameter and the body. *)
Record Request (B : Type) : Type := mkRequest {
  rq_authorization : option Bytes;
  rq_dry_run : bool;
  rq_body : B;
}.
Arguments mkRequest {B}.
Arguments rq_authorization {B}.
Arguments rq_dry_run {B}.
Arguments rq_body {B}.

(** What is sent back: the status, the challenge of a refusal, and a body. *)
Record Response (B : Type) : Type := mkResponse {
  rp_status : Z;
  rp_www_authenticate : option Str;
  rp_body : Str + B;
}.
Arguments mkResponse {B}.
Arguments rp_status {B}.
Arguments rp_www_authenticate {B}.
Arguments rp_body {B}.

(** [IntoResponse for AppError]: the message is the body. *)
Definition error_response {B} (err : AppError) : Response B :=
  mkResponse (ae_status err) None (inl (ae_message err)).

Definition into_response {B} (r : Result AppError B) : Response B :=
  match r with
  | Ok body => mkResponse OK None (inr body)
  | Err err => error_response err
  end.

Definition unauthorized {B} : Response B :=
  let err := unauthorized_error (s! "missing or invalid bearer token") in
  mkResponse (ae_status err) (Some (s! "Bearer")) (inl (ae_message err)).

Section auth.
Context {HL : HttpLib} {B R S X : Type}.

Definition authenticated (token : Str) (header : option Bytes) : bool :=
  match
    value ← header;
    value ← header_to_str value;
    strip_prefix (s! "Bearer ") value
  with
  | Some candidate => ct_eq (as_bytes candidate) (as_bytes token)
  | None => false
  end.

(** The middleware in front of [next], the handler with the disclosure it extracts;
    [refuse] ends the request with a response of the middleware. *)
Definition require_bearer (auth : AuthConfig) (next : ErrorDisclosure → Request B → S → S * X)
    (refuse : Response R → X) (request : Request B) (s : S) : S * X :=
  match auth with
  | AuthDisabled => next disclosure_default request s
  | AuthEnabled token =>
      if authenticated token (rq_authorization request)
      then next (mkErrorDisclosure true) request s
      else (s, refuse unauthorized)
  end.
End auth.

(** ** [routes/health.rs] *)

Record ReadinessSignals : Type := mkReadinessSignals {
  sg_inflight : Z;
  sg_max_inflight : Z;
  sg_sink_reachable : option bool;
  sg_seconds_since_sink_error : option f64;
  sg_sink_quarantine_secs : f64;
  sg_seconds_since_scan_error : option f64;
  sg_scan_quarantine_secs : f64;
  sg_seconds_since_last_probe_tick : option f64;
  sg_probe_stale_after_secs : f64;
}.

Definition reachability_state (reach : SinkReachability) : option bool :=
  if negb (sr_configured reach) then None else Some (sr_reachable reach).

(** The arguments are durations in nanoseconds. *)
Definition longest_legitimate_cycle_secs (probe_interval probe_timeout : Z) : f64 :=
  f64_add (as_secs_f64 probe_interval) (f64_mul (f64_of_Z 3) (as_secs_f64 probe_timeout)).

Definition probe_stale_after_secs (probe_interval probe_timeout : Z) : f64 :=
  f64_mul (f64_of_Z 3) (longest_legitimate_cycle_secs probe_interval probe_timeout).

Definition sink_probe_is_stalled (s : ReadinessSignals) : bool :=
  match sg_seconds_since_last_probe_tick s with
  | None => false
  | Some age => bool_decide (is_Some (sg_sink_reachable s)) && f64_lt (sg_probe_stale_after_secs s) age
  end.

(** A quarantine that is not disabled and not over. *)
Definition within_quarantine (quarantine : f64) (age : option f64) : bool :=
  f64_lt f64_zero quarantine &&
  match age with Some s => f64_lt s quarantine | None => false end.

Definition readyz_classify (s : ReadinessSignals) : option Str :=
  if (0 <? sg_max_inflight s) && (sg_max_inflight s <=? sg_inflight s)
  then Some (s! "inflight_scan_limit_exceeded")
  else if sink_probe_is_stalled s then Some (s! "sink_probe_stalled")
  else if bool_decide (sg_sink_reachable s = Some false) then Some (s! "sink_unreachable")
  else if within_quarantine (sg_sink_quarantine_secs s) (sg_seconds_since_sink_error s)
  then Some (s! "sink_error_within_quarantine")
  else if within_quarantine (sg_scan_quarantine_secs s) (sg_seconds_since_scan_error s)
  then Some (s! "scan_error_within_quarantine")
  else None.

Record ReadyBody : Type := mkReadyBody {
  rb_status : Str;
  rb_reason : option Str;
  rb_inflight_scans : Z;
  rb_max_inflight_scans : Z;
  rb_seconds_since_sink_error : option f64;
  rb_seconds_since_scan_error : option f64;
  rb_sink_reachable : option bool;
  rb_sink_attached : option bool;
  rb_sink_type : option Str;
  rb_seconds_since_last_probe : option f64;
  rb_seconds_since_last_probe_tick : option f64;
  rb_last_probe_error : option Str;
}.

Section readyz.
Context `{NL : IpNetLib, FE : ForeignErrors} {W : Type} {SS : SinkStore W}.

(** What [readyz] gathers; [now] is the reading of the clock it measures ages with. *)
Definition readiness_signals (now : Z) (state : AppState) : ReadinessSignals :=
  let readiness := as_readiness state in
  let reach := as_sink_reachability state in
  {| sg_inflight := rd_inflight_scans readiness;
     sg_max_inflight := rc_max_inflight_scans (rd_config readiness);
     sg_sink_reachable := reachability_state reach;
     sg_seconds_since_sink_error := age_secs now (rd_last_sink_error readiness);
     sg_sink_quarantine_secs := as_secs_f64 (from_secs (rc_sink_error_quarantine (rd_config readiness)));
     sg_seconds_since_scan_error := age_secs now (rd_last_scan_error readiness);
     sg_scan_quarantine_secs := as_secs_f64 (from_secs (rc_scan_error_quarantine (rd_config readiness)));
     sg_seconds_since_last_probe_tick := age_secs now (sr_last_tick reach);
     sg_probe_stale_after_secs :=
       probe_stale_after_secs (from_secs (sr_probe_interval reach)) (from_secs (sr_probe_timeout reach)) |}.

Definition readyz (now : Z) (state : AppState) : Z * ReadyBody :=
  let s := readiness_signals now state in
  let reach := as_sink_reachability state in
  let reason := readyz_classify s in
  let body status :=
    {| rb_status := status; rb_reason := reason;
       rb_inflight_scans := sg_inflight s; rb_max_inflight_scans := sg_max_inflight s;
       rb_seconds_since_sink_error := sg_seconds_since_sink_error s;
       rb_seconds_since_scan_error := sg_seconds_since_scan_error s;
       rb_sink_reachable := sg_sink_reachable s;
       rb_sink_attached := if sr_configured reach then Some (bool_decide (is_Some (as_sink state))) else None;
       rb_sink_type := reach_type_label reach;
       rb_seconds_since_last_probe := age_secs now (sr_last_probe reach);
       rb_seconds_since_last_probe_tick := sg_seconds_since_last_probe_tick s;
       rb_last_probe_error := sr_last_error reach |} in
  match reason with
  | None => (OK, body (s! "ready"))
  | Some _ => (SERVICE_UNAVAILABLE, body (s! "not_ready"))
  end.
End readyz.

(** [healthz] and its alias. *)
Definition healthz : Str := s! "ok".
Definition health : Str := healthz.
