(* ===== verification/SinkProbe.v ===== *)
(** * The sink and its reachability: [rastreo-server/src/sink_probe.rs]

    The server builds its sink at start, or later if it could not, and probes it every
    interval. A cycle is a function of the world; the calls it awaits are bounded by a
    deadline and may panic. *)

From S2P Require Import Prelude Net F64 Model Resolver Sink Tee Kafka Nats SinkConfig Pipeline Env.
From S2P Require Import ServerState ServerHttp.

(** ** Awaiting with a deadline *)

(** How an awaited call ends: with its value, by its deadline, or unwinding. *)
Inductive Awaited (A : Type) : Type :=
  | Returned (a : A)
  | TimedOutAt
  | Unwound.
Arguments Returned {A}.
Arguments TimedOutAt {A}.
Arguments Unwound {A}.

(** Tokio: the clock, [timeout_at] with an absolute deadline in nanoseconds, and taking the
    lock of a shared sink before one. *)
Class Runtime (W : Type) := {
  clock : W → Z;
  await_until : ∀ {A : Type}, Z → (W → W * A) → W → W * Awaited A;
  lock_until : Z → W → W * bool;
}.

(** ** Failures to build the sink *)

Record ConstructionFailures : Type := mkConstructionFailures {
  cf_attempts : Z;
  cf_last_error : option Str;
}.

Definition construction_failures_default : ConstructionFailures := mkConstructionFailures 0 None.

Inductive FailureVolume : Type := VolumeWarn | VolumeDebug.

#[global] Instance FailureVolume_eq_dec : EqDecision FailureVolume.
Proof. solve_decision. Defined.

(** [u32::is_power_of_two]. *)
Definition is_power_of_two (n : Z) : bool := (0 <? n) && (Z.land n (n - 1) =? 0).

Definition failures_observe (detail : Str) (f : ConstructionFailures)
    : ConstructionFailures * FailureVolume :=
  let attempts := saturating_add U32_MAX (cf_attempts f) 1 in
  let changed := bool_decide (cf_last_error f ≠ Some detail) in
  (mkConstructionFailures attempts (Some detail),
   if changed || is_power_of_two attempts then VolumeWarn else VolumeDebug).

Record ConstructError : Type := mkConstructError {
  ce_hint : option SinkType;
  ce_detail : Str;
}.

Definition construction_timed_out (timeout_secs : Z) (hint : option SinkType) : ConstructError :=
  let label := default (s! "unknown") (sink_type_label <$> hint) in
  mkConstructError hint
    (s! "sink construction timed out after " ++ fmt_dec timeout_secs ++ s! "s: " ++ label).

Definition construction_error (detail : Str) : Str := s! "sink construction failed: " ++ detail.

(** ** Cycles *)

Section probe.
Context `{NL : IpNetLib, FE : ForeignErrors} {IE : IoErrors} {ED : ErrorDisplay} {ES : ErrorSources}.
Context {W : Type} {SS : SinkStore W} {RT : Runtime W}.
(** [tokio::fs::read_to_string], [parse_sink_config] in the server's environment and
    [create_sink] with the sink boxed in the world. *)
Context (read_to_string : Str → W → W * Result IoError Str).
Context (parse_sink_config : Str → Result RastreoError SinkConfig).
Context (open_sink : SinkConfig → W → W * Result RastreoError Handle).

(** What the probe task and the handlers share, and what the task keeps. *)
Record ProbeState : Type := mkProbeState {
  ps_slot : option Handle;
  ps_reach : SinkReachability;
  ps_metrics : Metrics;
  ps_failures : ConstructionFailures;
}.

Definition on_slot (f : option Handle → option Handle) '(mkProbeState s r m x) : ProbeState :=
  mkProbeState (f s) r m x.
Definition on_reach (f : SinkReachability → SinkReachability) '(mkProbeState s r m x) : ProbeState :=
  mkProbeState s (f r) m x.
Definition on_probe_metrics (f : Metrics → Metrics) '(mkProbeState s r m x) : ProbeState :=
  mkProbeState s r (f m) x.
Definition on_failures (f : ConstructionFailures → ConstructionFailures) '(mkProbeState s r m x)
    : ProbeState := mkProbeState s r m (f x).

(** One deadline bounds the reading and the building; [None] is a panic. *)
Definition load_and_construct_sink (path : Str) (timeout_secs : Z) (w : W)
    : W * option (Result ConstructError Handle) :=
  let deadline := clock w + from_secs timeout_secs in
  let '(w, raw) := await_until deadline (read_to_string path) w in
  match raw with
  | Unwound => (w, None)
  | TimedOutAt => (w, Some (Err (construction_timed_out timeout_secs None)))
  | Returned (Err e) =>
      (w, Some (Err (mkConstructError None
        (s! "failed to read sink config at " ++ path ++ s! ": " ++ io_error_display e))))
  | Returned (Ok raw) =>
      match parse_sink_config raw with
      | Err e =>
          (w, Some (Err (mkConstructError None
            (s! "failed to parse sink config at " ++ path ++ s! ": " ++ error_chain e))))
      | Ok config =>
          let hint := Some (config_sink_type config) in
          let '(w, built) := await_until deadline (open_sink config) w in
          match built with
          | Unwound => (w, None)
          | TimedOutAt => (w, Some (Err (construction_timed_out timeout_secs hint)))
          | Returned (Ok sink) => (w, Some (Ok sink))
          | Returned (Err e) =>
              (w, Some (Err (mkConstructError hint
                (s! "failed to build sink from " ++ path ++ s! ": " ++ error_chain e))))
          end
      end
  end.

(** What became of a cycle, which the code does not return: the sink was found reachable or
    not, nothing was measured because an operation held the sink, or the cycle panicked. *)
Inductive Verdict : Type := VSuccess | VFailure | VSkipped | VPanicked.

Definition verdict_success (w : W) (s : ProbeState) : ProbeState * Verdict :=
  (on_probe_metrics record_sink_probe_success (on_reach (record_success (clock w)) s), VSuccess).

Definition verdict_failure (message : Str) (w : W) (s : ProbeState) : ProbeState * Verdict :=
  (on_probe_metrics record_sink_probe_failure (on_reach (record_failure (clock w) message) s), VFailure).

Definition run_probe (sink : Handle) (timeout_secs : Z) (s : ProbeState) (w : W)
    : W * (ProbeState * Verdict) :=
  let '(w, locked) := lock_until (clock w + from_secs timeout_secs) w in
  if negb locked then (w, (s, VSkipped))
  else
    let '(w, probed) := await_until (clock w + from_secs timeout_secs) (h_probe sink) w in
    match probed with
    | Returned (Ok _) => (w, verdict_success w s)
    | Returned (Err err) => (w, verdict_failure (io_error_display err) w s)
    | TimedOutAt =>
        (w, verdict_failure (s! "sink probe timed out after " ++
               fmt_dec (as_millis (from_secs timeout_secs)) ++ s! "ms") w s)
    | Unwound => (w, (s, VPanicked))
    end.

(** The volume is where the failure is logged; it has no other effect. *)
Definition failures_log (detail : Str) (s : ProbeState) : ProbeState :=
  on_failures (λ f, (failures_observe detail f).1) s.

Definition retry_construction (config : SinkProbeConfig) (s : ProbeState) (w : W)
    : W * (ProbeState * (Verdict + Handle)) :=
  match sp_config_path config with
  | None => (w, (s, inl VSkipped))
  | Some path =>
      let '(w, built) := load_and_construct_sink path (sp_probe_timeout config) w in
      match built with
      | Some (Ok sink) => (w, (on_reach (set_sink_type (h_kind sink w)) s, inr sink))
      | Some (Err (mkConstructError hint detail)) =>
          let s := failures_log detail s in
          let s := match hint with Some t => on_reach (set_sink_type t) s | None => s end in
          let '(s, v) := verdict_failure (construction_error detail) w s in
          (w, (s, inl v))
      | None => (w, (s, inl VPanicked))
      end
  end.

Definition probe_tick (config : SinkProbeConfig) (s : ProbeState) (w : W) : W * (ProbeState * Verdict) :=
  let s := on_reach (record_tick (clock w)) s in
  match ps_slot s with
  | Some sink => run_probe sink (sp_probe_timeout config) s w
  | None =>
      let '(w, (s, built)) := retry_construction config s w in
      match built with
      | inr sink => run_probe sink (sp_probe_timeout config) (on_slot (slot_attach sink) s) w
      | inl verdict => (w, (s, verdict))
      end
  end.

(** The cycle [spawn_sink_probe] runs itself, before the task exists. It is not guarded
    against panics: one stops the server ([None]). *)
Definition startup_cycle (path : Str) (config : SinkProbeConfig) (metrics : Metrics) (w : W)
    : W * option (ProbeState * Verdict) :=
  let timeout := sp_probe_timeout config in
  let '(w, built) := load_and_construct_sink path timeout w in
  match built with
  | Some (Ok sink) =>
      let reach := reachability_configured (clock w) (h_kind sink w) (sp_probe_interval config) timeout in
      let s := mkProbeState (slot_attach sink None) reach metrics construction_failures_default in
      let '(w, (s, v)) := run_probe sink timeout s w in
      (w, match v with
          | VPanicked => None
          | _ => Some (on_reach (record_tick (clock w)) s, v)
          end)
  | Some (Err (mkConstructError hint detail)) =>
      let reach := construction_failed (clock w) hint (construction_error detail)
                     (sp_probe_interval config) timeout in
      let s := failures_log detail (mkProbeState None reach metrics construction_failures_default) in
      (w, Some (on_reach (record_tick (clock w)) (on_probe_metrics record_sink_probe_failure s), VFailure))
  | None => (w, None)
  end.

(** The task: one guarded cycle per interval until the shutdown; [waits] is what the world
    does between two cycles. The verdicts are listed in order. *)
Fixpoint probe_cycles (config : SinkProbeConfig) (waits : list (W → W)) (s : ProbeState) (w : W)
    : W * (ProbeState * list Verdict) :=
  match waits with
  | [] => (w, (s, []))
  | wait :: rest =>
      let '(w, (s, v)) := probe_tick config s (wait w) in
      let '(w, (s, vs)) := probe_cycles config rest s w in
      (w, (s, v :: vs))
  end.

(** [spawn_sink_probe]: the state with the slot and the reachability, and what the task
    goes on from. *)
Definition spawn_sink_probe (config : SinkProbeConfig) (state : AppState) (w : W)
    : W * option (AppState * option ProbeState) :=
  match sp_config_path config with
  | None => (w, Some (state, None))
  | Some path =>
      let '(w, started) := startup_cycle path config (as_metrics state) w in
      (w, (λ '(s, _), (on_metrics (λ _, ps_metrics s) (with_sink_slot (ps_slot s) (ps_reach s) state),
                       Some s)) <$> started)
  end.
End probe.
