(* ===== verification/Scans.v ===== *)
(** * The scan route: [rastreo-server/src/routes/scans.rs]

    The handler in front of [run_discovery], cut where another task can run in between:
    at each access to a shared atomic and at each await. A request is a phase; a step of
    one request changes its phase and the state all requests share. The future of a
    request can be dropped at an await, which runs the destructors of its guards: when the
    client went away nobody is answered, when the request timed out the timeout layer of
    [lib.rs] answers in its place. *)

From S2P Require Import Prelude Net F64 Model FuserCore UnionFind Identity IdentityFacts.
From S2P Require Import CorrelateFacts IdentityTheorems Fuser Topology.
From S2P Require Import Classifier Resolver Sink Tee Kafka Nats SinkConfig GnmiPath ProberConfig.
From S2P Require Import CollectionProfile Encoder Scheduler Config Checkpoint Pipeline Run Plan.
From S2P Require Import Env ServerState ServerHttp SinkProbe.

Definition SCAN_DEFAULT_CONCURRENCY : Z := 64.
Definition SCAN_DEFAULT_TIMEOUT_MS : Z := 1000.

(** ** [hints.rs] *)

Definition hint_for_error_kind (kind : ProbeErrorKind) : option Str :=
  let dash := [8212] in
  match kind with
  | PermissionDenied => Some (s! "the probe was denied a local socket operation " ++ dash ++ s! " grant CAP_NET_RAW (ARP/NDP/ICMP) or check local egress policy (a firewall REJECT in the OUTPUT chain).")
  | DnsFailed => Some (s! "DNS resolution failed for the target " ++ dash ++ s! " check the resolver configuration and that the DNS server is reachable.")
  | DecodeFailed => Some (s! "the target answered with a reply the prober could not parse " ++ dash ++ s! " check the protocol version, the credentials, and that the expected service is on the port.")
  | AuthFailed => Some (s! "the probe's authentication was rejected " ++ dash ++ s! " verify the credentials (SNMP community, USM user/keys, or SSH credentials).")
  | OtherFault => None
  end.

(** ** The handler *)

Definition should_log_progress (p : DiscoveryProgress) : bool :=
  (0 <? dp_targets_total p) && (dp_targets_completed p <? dp_targets_total p).

(** [MemorySinkHandle::ndjson_lines]; [lossy] is [String::from_utf8_lossy]. *)
Definition ndjson_lines (lossy : Bytes → Str) (m : MemoryInner) : list Str :=
  List.filter (λ l, negb (is_empty l)) (split_on 10 (lossy (mem_buffer m))).

Record ScanResponse : Type := mkScanResponse {
  sn_summary : DiscoverySummary;
  sn_records : list DeviceRecord;
  sn_truncated : bool;
  sn_hint : option Str;
}.

(** What a request is answered with that no error ended: the plan, the scan, or nothing at
    all when the timeout layer answered. *)
Inductive ScanBody : Type :=
  | BodyPlan (plan : DiscoveryPlan)
  | BodyScan (response : ScanResponse)
  | BodyEmpty.

(** [serde_json] and [String::from_utf8_lossy], as the handler uses them. *)
Class ScanJson `{IpNetLib} := {
  scenario_from_value : JsonValue → Result Str DiscoverScenarioConfig;
  record_from_str : Str → option DeviceRecord;
  from_utf8_lossy : Bytes → Str;
}.

Section scans.
Context `{NL : IpNetLib, UC : UnicodeCase, FD : F64Display, FE : ForeignErrors, MS : MibSource,
  HO : HashOrder, FT : Features}.
Context {RL : RegexLib} {PL : ProberLib} {IE : IoErrors} {ED : ErrorDisplay} {ES : ErrorSources}.
Context {W : Type} {FS : FsLib W} {SC : ScanCodec} {SS : SinkStore W} {EL : Elapsed W}.
Context {JW : JsonWriter} {KL : KafkaLib W} {SJ : ScanJson} {HL : HttpLib}.
Context (flag : W → bool) (set_flag : bool → W → W).
Context (system_resolver : Result RastreoError ResolverOps).
Context (open_sink : SinkConfig → W → W * Result RastreoError Handle).
(** Boxing a tee over an owned memory sink and the shared one: the handle of the tee, and
    the memory sink as its own handle reads it. *)
Context (box_scan_sink : MemoryInner → option Handle → W → W * Handle).
Context (captured : Handle → W → MemoryInner).

Definition parse_discover_scenario_json (body : JsonValue) : Result RastreoError DiscoverScenarioConfig :=
  _ ← map_err EConfig (ensure_no_retired_type_tags body);
  map_err (λ e, EConfig (InvalidValue (s! "invalid scenario body: " ++ e))) (scenario_from_value body).

Definition scenario_from_body (body : JsonValue) (disclosure : ErrorDisclosure)
    : Result AppError DiscoverScenarioConfig :=
  map_err (λ err, from_rastreo err disclosure) (parse_discover_scenario_json body).

Definition scenario_label (scenario : DiscoverScenarioConfig) : Str :=
  default (s! "unnamed") (bp_name (sc_base scenario)).

Definition pin_server_destination (scenario : DiscoverScenarioConfig) : DiscoverScenarioConfig :=
  let b := sc_base scenario in
  mkScenario (mkBaseProbeConfig (bp_name b) (bp_max_concurrent b) (bp_probe_rate b) (bp_retries b)
    (bp_timeout_ms b) (Some EncNdjson) (bp_fuser b) (bp_classifier b) None (bp_rate_limit b))
    (sc_targets scenario) (sc_probers scenario).

Definition knobs_for (scenario : DiscoverScenarioConfig) : PlanKnobs := {|
  kn_max_concurrent := Z.max (default SCAN_DEFAULT_CONCURRENCY (bp_max_concurrent (sc_base scenario))) 1;
  kn_probe_rate := bp_probe_rate (sc_base scenario);
  kn_retries := default 0 (bp_retries (sc_base scenario));
  kn_timeout_ms := default SCAN_DEFAULT_TIMEOUT_MS (bp_timeout_ms (sc_base scenario));
|}.

(** An out-of-allow-list target is answered in the plan. *)
Definition refusal_earning_a_status (err : RastreoError) : option RastreoError :=
  match err with
  | EResolver (TargetNotAllowed _) => None
  | _ => Some err
  end.

(** [ScanSink::build]. *)
Definition build_scan_sink (state : AppState) (w : W) : W * Handle :=
  box_scan_sink (memory_with_max_bytes (as_max_result_bytes state)) (as_sink state) w.

(** [scan_options], with the progress channel of [run_scan]. *)
Definition scan_options (state : AppState) (scenario : DiscoverScenarioConfig) (sink : Handle)
    (progress : option DiscoveryProgress) : RunOptions :=
  mkRunOptions scenario (Some (as_resolver state)) (Some sink) progress None.

Definition dry_run_plan (state : AppState) (scenario : DiscoverScenarioConfig) (label : Str)
    (disclosure : ErrorDisclosure) (now : Z) (w : W) : W * Result AppError DiscoveryPlan :=
  let resolution := resolve_scenario (as_resolver state) now (sc_targets scenario) in
  let '(w, sink) := build_scan_sink state w in
  (w,
   stages ← map_err (λ err, from_rastreo err disclosure)
              (run_plan (scan_options state scenario sink None) label (knobs_for scenario) w);
   match refusal resolution ≫= refusal_earning_a_status with
   | Some err => Err (from_rastreo err disclosure)
   | None => Ok (plan_resolve stages resolution)
   end).

(** Counts a failed scan; readiness changes only when the server owns the failure. *)
Definition record_scan_failure (err : RastreoError) (start now : Z) (label : Str)
    (disclosure : ErrorDisclosure) (state : AppState) : AppState * AppError :=
  let sink_class := sink_error_class err in
  let state := on_metrics (metrics_record_scan_error (saturating_sub now start) sink_class label) state in
  let failure := from_rastreo err disclosure in
  (if is_server_error (ae_status failure)
   then on_readiness (readiness_record_scan_error now (bool_decide (is_Some sink_class))) state
   else state,
   failure).

(** ** [run_discovery], as what it may return

    The probes and their timing are the scheduler's and the network's: any scans may have
    been sent when the stream ends. *)
Inductive run_discovery_returns (opts : RunOptions) (w : W)
    : W → Result RastreoError DiscoverySummary → Prop :=
  | returns_unprepared w' e :
      run_prepare system_resolver open_sink opts w = (w', Err e) →
      run_discovery_returns opts w w' (Err e)
  | returns_refused w' from resolver sink id now e :
      run_prepare system_resolver open_sink opts w = (w', Ok (from, resolver, sink)) →
      core_setup (ro_scenario opts) resolver (h_requires_structured_records sink w') (ro_checkpoint opts)
        from id now = Some (Err e) →
      run_discovery_returns opts w w' (Err e)
  | returns_streamed w1 w2 w' from resolver sink id now setup scans cancelled r :
      run_prepare system_resolver open_sink opts w = (w1, Ok (from, resolver, sink)) →
      core_setup (ro_scenario opts) resolver (h_requires_structured_records sink w1) (ro_checkpoint opts)
        from id now = Some (Ok setup) →
      core_stream flag set_flag setup sink (ro_progress opts) scans cancelled w2 = Some (w', r) →
      run_discovery_returns opts w w' r.

(** ** A request between two awaits *)

(** What the future of an admitted scan holds: the guards, the sink it writes to. *)
Record Running : Type := mkRunning {
  rn_scenario : DiscoverScenarioConfig;
  rn_start : Z;
  rn_label : Str;
  rn_disclosure : ErrorDisclosure;
  rn_sink : Handle;
}.

(** How a request ended. *)
Inductive Ending : Type :=
  | EndUnauthorized | EndMalformed | EndInvalid | EndPlanned | EndSaturated | EndScanned
  | EndTimedOut | EndDropped.

Inductive Phase : Type :=
  (** the request is here, its handler has not run *)
  | Arrived (request : Request JsonValue)
  (** a dry run awaits the resolver *)
  | Planning (scenario : DiscoverScenarioConfig) (label : Str) (disclosure : ErrorDisclosure)
  (** the counter was incremented and [prior] is what it held *)
  | Speculated (prior : Z) (scenario : DiscoverScenarioConfig) (start : Z) (label : Str)
      (disclosure : ErrorDisclosure)
  (** admitted, [run_discovery] awaited *)
  | Scanning (run : Running)
  (** the outcome is recorded, the in-flight guard is dropped next *)
  | Releasing (how : Ending) (response : option (Response ScanBody))
  | Ended (how : Ending) (counted : bool) (response : option (Response ScanBody)).

(** Why the future of a request is dropped before it returned. *)
Inductive DropCause : Type := RequestTimeout | ClientGone.

(** [TimeoutLayer::with_status_code] answers a request that ran out of time: the status it
    was built with, and an empty body. *)
Definition timeout_response : Response ScanBody := mkResponse SERVICE_UNAVAILABLE None (inr BodyEmpty).

Definition dropped_ending (cause : DropCause) : Ending :=
  match cause with RequestTimeout => EndTimedOut | ClientGone => EndDropped end.

Definition dropped_response (cause : DropCause) : option (Response ScanBody) :=
  match cause with RequestTimeout => Some timeout_response | ClientGone => None end.

(** [InflightGuard::try_acquire]: the increment, then the comparison. *)
Definition acquire_fetch (r : ReadinessState) : ReadinessState * Z :=
  (on_inflight (fetch_add 1) r, rd_inflight_scans r).

Definition over_cap (max_inflight prior : Z) : bool :=
  (0 <? max_inflight) && (max_inflight <? wrap 64 (prior + 1)).

(** The guard's [drop], and the roll back of a refused increment. *)
Definition release_inflight (r : ReadinessState) : ReadinessState := on_inflight (fetch_sub 1) r.

(** [create_scan] up to its first await or its first shared access. *)
Definition begin_scan (now : Z) (disclosure : ErrorDisclosure) (request : Request JsonValue)
    (state : AppState) : AppState * Phase :=
  match scenario_from_body (rq_body request) disclosure with
  | Err err => (state, Ended EndMalformed false (Some (error_response err)))
  | Ok scenario =>
      let label := scenario_label scenario in
      let scenario := pin_server_destination scenario in
      match scenario_validate scenario with
      | Err err =>
          let '(state, failure) := record_scan_failure err now now label disclosure state in
          (state, Ended EndInvalid true (Some (error_response failure)))
      | Ok _ =>
          if rq_dry_run request then (state, Planning scenario label disclosure)
          else
            let '(readiness, prior) := acquire_fetch (as_readiness state) in
            (on_readiness (λ _, readiness) state, Speculated prior scenario now label disclosure)
      end
  end.

(** The route: the bearer check in front of the handler. *)
Definition enter (now : Z) (request : Request JsonValue) (state : AppState) : AppState * Phase :=
  require_bearer (as_auth state) (begin_scan now)
    (λ response, Ended EndUnauthorized false (Some response)) request state.

Definition saturated_error : AppError :=
  too_many_requests (s! "inflight scan limit reached; retry once running scans complete").

(** The rest of [try_acquire] and the start of [run_scan]. *)
Definition admission (prior : Z) (scenario : DiscoverScenarioConfig) (start : Z) (label : Str)
    (disclosure : ErrorDisclosure) (state : AppState) (w : W) : AppState * W * Phase :=
  if over_cap (rc_max_inflight_scans (rd_config (as_readiness state))) prior
  then (on_readiness release_inflight state, w,
        Ended EndSaturated false (Some (error_response saturated_error)))
  else
    let '(w, sink) := build_scan_sink state w in
    (state, w, Scanning (mkRunning scenario start label disclosure sink)).

Definition running_options (state : AppState) (run : Running) : RunOptions :=
  scan_options state (rn_scenario run) (rn_sink run) (Some (mkDiscoveryProgress 0 0 0 0 0)).

(** [run_scan] after the await: the outcome is recorded and the guard disarmed. *)
Definition conclude (now : Z) (run : Running) (w : W) (r : Result RastreoError DiscoverySummary)
    (state : AppState) : AppState * Response ScanBody :=
  match r with
  | Ok summary =>
      let memory := captured (rn_sink run) w in
      (on_metrics (record_scan_completion summary (rn_label run)) state,
       into_response (Ok (BodyScan {|
         sn_summary := summary;
         sn_records := omap record_from_str (ndjson_lines from_utf8_lossy memory);
         sn_truncated := mem_truncated memory;
         sn_hint := ds_first_probe_error summary ≫= (λ fault, hint_for_error_kind (pf_kind fault)) |})))
  | Err err =>
      let '(state, failure) :=
        record_scan_failure err (rn_start run) now (rn_label run) (rn_disclosure run) state in
      (state, error_response failure)
  end.

(** The destructor of the armed outcome guard. *)
Definition abandon (now : Z) (run : Running) (state : AppState) : AppState :=
  on_metrics (record_scan_cancelled (saturating_sub now (rn_start run)) (rn_label run)) state.

(** ** The server: all requests and the probe task *)

(** [sv_probe] is what the task of [spawn_sink_probe] keeps, when there is one. *)
Record Server : Type := mkServer {
  sv_state : AppState;
  sv_world : W;
  sv_requests : list Phase;
  sv_probe : option (SinkProbeConfig * ConstructionFailures);
}.

(** One request moves: its phase becomes another and the shared state follows. *)
Inductive moves : AppState → W → Phase → AppState → W → Phase → Prop :=
  | move_enter now request state w state' p :
      enter now request state = (state', p) →
      moves state w (Arrived request) state' w p
  | move_admission prior scenario start label disclosure state w state' w' p :
      admission prior scenario start label disclosure state w = (state', w', p) →
      moves state w (Speculated prior scenario start label disclosure) state' w' p
  | move_plan now scenario label disclosure state w w' r :
      dry_run_plan state scenario label disclosure now w = (w', r) →
      moves state w (Planning scenario label disclosure)
        state w' (Ended EndPlanned false (Some (into_response (BodyPlan <$> r))))
  | move_conclude now run state w w0 w' r state' response :
      run_discovery_returns (running_options state run) w0 w' r →
      conclude now run w' r state = (state', response) →
      moves state w (Scanning run) state' w' (Releasing EndScanned (Some response))
  | move_abandon now cause run state w :
      moves state w (Scanning run) (abandon now run state) w
        (Releasing (dropped_ending cause) (dropped_response cause))
  | move_release how response state w :
      moves state w (Releasing how response) (on_readiness release_inflight state) w
        (Ended how true response)
  | move_drop_arrived cause request state w :
      moves state w (Arrived request) state w
        (Ended (dropped_ending cause) false (dropped_response cause))
  | move_drop_planning cause scenario label disclosure state w :
      moves state w (Planning scenario label disclosure) state w
        (Ended (dropped_ending cause) false (dropped_response cause)).

Context {RT : Runtime W}.
Context (read_to_string : Str → W → W * Result IoError Str).
Context (parse_sink_config : Str → Result RastreoError SinkConfig).

(** What the probe task sees of the state, and the state after its cycle. *)
Definition probe_view (state : AppState) (failures : ConstructionFailures) : ProbeState :=
  mkProbeState (as_sink state) (as_sink_reachability state) (as_metrics state) failures.

Definition probe_absorb (s : ProbeState) (state : AppState) : AppState :=
  on_metrics (λ _, ps_metrics s) (with_sink_slot (ps_slot s) (ps_reach s) state).

Inductive server_step : Server → Server → Prop :=
  | step_arrive request state w requests probe :
      server_step (mkServer state w requests probe)
        (mkServer state w (requests ++ [Arrived request]) probe)
  | step_request state w before p after probe state' w' p' :
      moves state w p state' w' p' →
      server_step (mkServer state w (before ++ p :: after) probe)
        (mkServer state' w' (before ++ p' :: after) probe)
  | step_probe state w requests config failures w' s v :
      probe_tick read_to_string parse_sink_config open_sink config (probe_view state failures) w =
        (w', (s, v)) →
      server_step (mkServer state w requests (Some (config, failures)))
        (mkServer (probe_absorb s state) w' requests (Some (config, ps_failures s)))
  | step_world state w requests probe w' :
      server_step (mkServer state w requests probe) (mkServer state w' requests probe).

(** A server that has answered no request yet. *)
Definition server_fresh (s : Server) : Prop :=
  sv_requests s = [] ∧ rd_inflight_scans (as_readiness (sv_state s)) = 0 ∧
  me_scans_total_success (as_metrics (sv_state s)) = 0 ∧
  me_scans_total_error (as_metrics (sv_state s)) = 0 ∧
  me_scans_total_cancelled (as_metrics (sv_state s)) = 0 ∧
  hs_count (sh_all (me_scan_duration (as_metrics (sv_state s)))) = 0.

Definition server_reaches : Server → Server → Prop := rtc server_step.

(** Whatever the scheduler sends, what the run of [Run] returns is among the outcomes a
    request can have. *)
Lemma run_discovery_returned scan_id now run_scan opts w w' r :
  run_discovery flag set_flag system_resolver open_sink scan_id now run_scan opts w = Some (w', r) →
  run_discovery_returns opts w w' r.
Proof using Type.
  unfold run_discovery. destruct (run_prepare _ _ opts w) as [w1 [[[from resolver] sink]|e]] eqn:Hp.
  - destruct (core_setup _ _ _ _ _ _ _) as [[setup|e]|] eqn:Hs; [| |done].
    + destruct (run_scan setup w1) as [w2 [scans cancelled]]. intros. by eapply returns_streamed.
    + intros [= <- <-]. by eapply returns_refused.
  - intros [= <- <-]. by apply returns_unprepared.
Qed.
End scans.
