(* ===== verification/ServerMetrics.v ===== *)
(** * The metrics endpoint: [metrics_defs.rs] and [routes/metrics.rs]

    The table of metrics, each with the reader of its samples, and the Prometheus text they
    are written as. Writing to a [String] does not fail, so the text is a function. *)

From S2P Require Import Prelude Net F64 Model Topology Resolver Sink Tee Pipeline Env ServerState.

Inductive MetricValue : Type :=
  | MvU64 (n : Z)
  | MvF64 (x : f64).

Inductive MetricKind : Type := CounterU64 | GaugeU64 | GaugeF64.

Definition prometheus_type (k : MetricKind) : Str :=
  match k with
  | CounterU64 => s! "counter"
  | GaugeU64 | GaugeF64 => s! "gauge"
  end.

Abbreviation Label := (Str * Str)%type.

Record MetricContext : Type := mkMetricContext {
  mx_metrics : Metrics;
  mx_reachability : SinkReachability;
  mx_now : Z;
  mx_version : Str;
}.

(** What a reader hands to its callback, in order. *)
Abbreviation Samples := (list (list Label * MetricValue)).

Record MetricDescriptor : Type := mkMetricDescriptor {
  md_name : Str;
  md_help : Str;
  md_kind : MetricKind;
  md_read : MetricContext → Samples;
}.

(** ** Readers *)

Definition read_scans_total (ctx : MetricContext) : Samples :=
  let m := mx_metrics ctx in
  [([(s! "outcome", s! "success")], MvU64 (me_scans_total_success m));
   ([(s! "outcome", s! "error")], MvU64 (me_scans_total_error m));
   ([(s! "outcome", s! "cancelled")], MvU64 (me_scans_total_cancelled m))].

(** An array read at an index it has. *)
Definition counter_at (counters : list Z) (i : nat) : Z := default 0 (counters !! i).

Definition read_probes_total (ctx : MetricContext) : Samples :=
  let p := me_probes (mx_metrics ctx) in
  mjoin ((λ kind,
    [([(s! "outcome", s! "success"); (s! "probe_kind", probe_kind_label kind)],
      MvU64 (counter_at (pc_succeeded p) (probe_kind_index kind)));
     ([(s! "outcome", s! "error"); (s! "probe_kind", probe_kind_label kind)],
      MvU64 (counter_at (pc_errored p) (probe_kind_index kind)))]) <$> probe_kind_all).

Definition read_records_emitted_total (ctx : MetricContext) : Samples :=
  [([], MvU64 (me_records_emitted_total (mx_metrics ctx)))].

Definition read_sink_errors_total (ctx : MetricContext) : Samples :=
  (λ class, ([(s! "error_class", sink_error_class_label class)],
    MvU64 (counter_at (me_sink_errors (mx_metrics ctx)) (sink_error_class_index class))))
  <$> sink_error_class_all.

Definition read_dlq_records_total (ctx : MetricContext) : Samples :=
  let d := me_dlq (mx_metrics ctx) in
  mjoin ((λ '(sink, bucket),
    (λ class, ([(s! "sink_type", sink_type_label sink); (s! "error_class", sink_error_class_label class)],
      MvU64 (counter_at bucket (sink_error_class_index class)))) <$> sink_error_class_all)
    <$> [(StKafka, dq_kafka d); (StNats, dq_nats d)]).

(** The series of the sink are absent when none is configured. *)
Definition with_sink_label (ctx : MetricContext) (emit : Str → Samples) : Samples :=
  match reach_type_label (mx_reachability ctx) with
  | Some sink_label => emit sink_label
  | None => []
  end.

Definition read_sink_reachability_probe_total (ctx : MetricContext) : Samples :=
  with_sink_label ctx (λ sink_label,
    [([(s! "outcome", s! "success"); (s! "sink_type", sink_label)],
      MvU64 (me_sink_probe_success (mx_metrics ctx)));
     ([(s! "outcome", s! "failure"); (s! "sink_type", sink_label)],
      MvU64 (me_sink_probe_failure (mx_metrics ctx)))]).

Definition read_sink_probe_ticks_total (ctx : MetricContext) : Samples :=
  with_sink_label ctx (λ sink_label,
    [([(s! "sink_type", sink_label)], MvU64 (sr_ticks (mx_reachability ctx)))]).

Definition read_sink_reachable (ctx : MetricContext) : Samples :=
  with_sink_label ctx (λ sink_label,
    [([(s! "sink_type", sink_label)], MvU64 (if sr_reachable (mx_reachability ctx) then 1 else 0))]).

Definition read_uptime_seconds (ctx : MetricContext) : Samples :=
  [([], MvF64 (as_secs_f64 (saturating_sub (mx_now ctx) (me_started_at (mx_metrics ctx)))))].

Definition read_build_info (ctx : MetricContext) : Samples :=
  [([(s! "version", mx_version ctx)], MvU64 1)].

Definition descriptors : list MetricDescriptor := [
  mkMetricDescriptor (s! "rastreo_server_scans_total")
    (s! "POST /scans requests served, partitioned by outcome.") CounterU64 read_scans_total;
  mkMetricDescriptor (s! "rastreo_server_probes_total")
    (s! "Probes executed across all scans, partitioned by outcome and probe kind.") CounterU64
    read_probes_total;
  mkMetricDescriptor (s! "rastreo_server_records_emitted_total")
    (s! "DeviceRecords emitted across all scans.") CounterU64 read_records_emitted_total;
  mkMetricDescriptor (s! "rastreo_server_sink_errors_total")
    (s! "Internal sink errors surfaced via POST /scans, partitioned by error class.") CounterU64
    read_sink_errors_total;
  mkMetricDescriptor (s! "rastreo_server_dlq_records_total")
    (s! "Records delivered to a dead-letter destination, partitioned by sink type and error class.")
    CounterU64 read_dlq_records_total;
  mkMetricDescriptor (s! "rastreo_server_sink_reachability_probe_total")
    (s! "Server-side sink reachability probes, partitioned by outcome and sink type.") CounterU64
    read_sink_reachability_probe_total;
  mkMetricDescriptor (s! "rastreo_server_sink_probe_ticks_total")
    (s! "Sink reachability probe cycles started, partitioned by sink type. A cycle that skips its probe still counts.")
    CounterU64 read_sink_probe_ticks_total;
  mkMetricDescriptor (s! "rastreo_server_sink_reachable")
    (s! "1 when the last sink probe succeeded, 0 otherwise.") GaugeU64 read_sink_reachable;
  mkMetricDescriptor (s! "rastreo_server_uptime_seconds")
    (s! "Seconds since rastreo-server started.") GaugeF64 read_uptime_seconds;
  mkMetricDescriptor (s! "rastreo_server_build_info")
    (s! "Build info (version label always 1).") GaugeU64 read_build_info
].

(** ** Text *)

Definition QUOTE : Z := 34.
Definition BACKSLASH : Z := 92.
Definition LINE_FEED : Z := 10.

Definition escape_char (c : Z) : Str :=
  if c =? BACKSLASH then [BACKSLASH; BACKSLASH]
  else if c =? QUOTE then [BACKSLASH; QUOTE]
  else if c =? LINE_FEED then [BACKSLASH; 110]
  else [c].

Definition escape_label (value : Str) : Str := mjoin (escape_char <$> value).

Section text.
Context {FD : F64Display}.

Definition value_text (v : MetricValue) : Str :=
  match v with MvU64 n => fmt_dec n | MvF64 x => f64_display x end.

(** [key="value"]. *)
Definition label_text (l : Label) : Str := l.1 ++ [61; QUOTE] ++ escape_label l.2 ++ [QUOTE].

Definition label_set (labels : list Label) : Str :=
  match labels with
  | [] => []
  | first :: rest => [123] ++ label_text first ++ mjoin ((λ l, [44] ++ label_text l) <$> rest) ++ [125]
  end.

Definition write_sample (name : Str) (labels : list Label) (v : MetricValue) : Str :=
  name ++ label_set labels ++ [32] ++ value_text v ++ [LINE_FEED].

Definition write_metric_header (desc : MetricDescriptor) : Str :=
  s! "# HELP " ++ md_name desc ++ s! " " ++ md_help desc ++ [LINE_FEED] ++
  s! "# TYPE " ++ md_name desc ++ s! " " ++ prometheus_type (md_kind desc) ++ [LINE_FEED].

(** The header is written with the first sample. *)
Definition write_metric (desc : MetricDescriptor) (ctx : MetricContext) : Str :=
  match md_read desc ctx with
  | [] => []
  | samples => write_metric_header desc ++
               mjoin ((λ '(labels, v), write_sample (md_name desc) labels v) <$> samples)
  end.

(** One line of the histogram: its label values are written as they are. *)
Definition duration_line (series : string) (scenario : Str) (le : option Str) (value : Str) : Str :=
  s! "rastreo_server_scan_duration_seconds_" ++ lit series ++ s! "{scenario=" ++ [QUOTE] ++ scenario ++ [QUOTE] ++
  match le with Some bound => s! ",le=" ++ [QUOTE] ++ bound ++ [QUOTE] | None => [] end ++
  s! "} " ++ value ++ [LINE_FEED].

Definition write_scan_duration_histogram (h : HistogramShard) (scenario : Str) : Str :=
  mjoin (zip_with (λ bound n, duration_line "bucket" scenario (Some (f64_display bound)) (fmt_dec n))
           BUCKET_BOUNDS (hs_buckets h)) ++
  duration_line "bucket" scenario (Some (s! "+Inf")) (fmt_dec (hs_plus_inf h)) ++
  duration_line "sum" scenario None (f64_display (hs_sum h)) ++
  duration_line "count" scenario None (fmt_dec (hs_count h)).

Definition sorted_names (h : ScenarioHistograms) : list Str :=
  merge_sort str_le (elements (dom (sh_per_scenario h))).

Definition write_scan_duration_seconds (h : ScenarioHistograms) : Str :=
  s! "# HELP rastreo_server_scan_duration_seconds Duration of POST /scans request handling, partitioned by scenario."
    ++ [LINE_FEED] ++
  s! "# TYPE rastreo_server_scan_duration_seconds histogram" ++ [LINE_FEED] ++
  write_scan_duration_histogram (sh_all h) (s! "_all") ++
  write_scan_duration_histogram (sh_other h) (s! "other") ++
  mjoin ((λ name, match sh_per_scenario h !! name with
                  | Some shard => write_scan_duration_histogram shard name
                  | None => []
                  end) <$> sorted_names h).

Definition HISTOGRAM_SUCCESSOR : Str := s! "rastreo_server_uptime_seconds".

Definition get_metrics (ctx : MetricContext) : Str :=
  mjoin ((λ desc,
    (if bool_decide (md_name desc = HISTOGRAM_SUCCESSOR)
     then write_scan_duration_seconds (me_scan_duration (mx_metrics ctx)) else []) ++
    write_metric desc ctx) <$> descriptors).
End text.
