(* ===== verification/ServerFacts.v ===== *)
(** * A concrete server, at which the theorems are evaluated *)

From S2P Require Import Prelude Net Resolver ResolverFacts ResolverTheorems F64 Model FuserCore.
From S2P Require Import UnionFind Identity IdentityFacts CorrelateFacts IdentityTheorems Fuser.
From S2P Require Import Topology Classifier Sink Tee Kafka Nats Scheduler CollectionProfile Encoder.
From S2P Require Import GnmiPath SinkConfig ProberConfig Config Checkpoint Pipeline PipelineFacts.
From S2P Require Import Run Plan RunTheorems Env ServerState ServerHttp SinkProbe Scans.

#[export] Existing Instance sample_ipnet.
#[export] Existing Instance sample_errors.
#[export] Existing Instance ascii_case.
#[export] Existing Instance reversed.
#[export] Existing Instance plain_display.
#[export] Existing Instance no_mib.
#[export] Existing Instance no_regex.
#[export] Existing Instance index_codec.
#[export] Existing Instance no_probing.
#[export] Existing Instance all_features.
#[export] Existing Instance disk_errors.
#[export] Existing Instance disk_store.
#[export] Existing Instance disk_fs.
#[export] Existing Instance silent_errors.
#[export] Existing Instance no_clock.

(** No broker is reached. *)
#[export] Instance no_kafka : KafkaLib Disk := {|
  KafkaClient := unit; PartitionClient := unit; ClientConfig := unit; KafkaError := unit;
  DateTime := unit; Certificate := unit; RootStore := unit;
  kafka_error_display _ := []; utc_now _ := tt; to_rfc3339 _ := [];
  pem_certificates _ := Ok []; webpki_roots := tt; add_parsable_certificates _ _ := (tt, 1);
  verifying_config _ := tt; accept_any_config := tt;
  client_build _ _ _ w := (w, Err tt);
  client_partition _ _ _ w := (w, Err tt);
  produce _ _ w := (w, Err tt);
  get_offset _ w := (w, Err tt);
|}.

#[export] Instance empty_json : JsonWriter := {|
  device_to_json _ := Ok []; link_to_json _ := Ok []; profile_to_json _ := Ok [];
|}.

#[export] Instance no_sources : ErrorSources := λ _, [].

(** Header values are visible ASCII. *)
Definition visible_ascii (b : Z) : bool := (32 <=? b) && (b <? 127).

#[export] Instance ascii_http : HttpLib := {|
  header_to_str raw := if forallb visible_ascii raw then Some raw else None;
  ct_eq a b := bool_decide (a = b);
|}.

#[export] Instance ascii_http_laws : HttpLaws ascii_http.
Proof.
  split; simpl.
  - intros raw text. destruct (forallb visible_ascii raw) eqn:Hv; [|done]. intros [= <-].
    induction raw as [|b raw IH]; [done|]. simpl in Hv. apply andb_true_iff in Hv as [Hb Hv].
    unfold as_bytes in *. rewrite fmap_cons, mjoin_cons, IH by done.
    unfold visible_ascii in Hb. break_bool. unfold utf8_char.
    destruct (Z.ltb_spec b 128); [done|lia].
  - intros a b. apply bool_decide_eq_true.
Qed.

(** Every body is the sample scenario. *)
#[export] Instance sample_json : ScanJson := {|
  scenario_from_value v := match v with JNull => Err (s! "null") | _ => Ok sample_scenario end;
  record_from_str _ := None;
  from_utf8_lossy b := b;
|}.

(** Calls return at once. *)
#[export] Instance prompt : Runtime Disk := {|
  clock _ := 5000000000;
  await_until A _ f w := let '(w, a) := f w in (w, Returned a);
  lock_until _ w := (w, true);
|}.

Definition no_flag (_ : Disk) : bool := false.
Definition keep_flag (_ : bool) (w : Disk) : Disk := w.
Definition disk_open (_ : SinkConfig) (w : Disk) : Disk * Result RastreoError Handle := (w, Ok tt).
Definition disk_box (_ : MemoryInner) (_ : option Handle) (w : Disk) : Disk * Handle := (w, tt).
Definition disk_captured (_ : Handle) (_ : Disk) : MemoryInner := memory_new.
Definition disk_read (_ : Str) (w : Disk) : Disk * Result IoError Str := (w, Ok []).
Definition stdout_config (_ : Str) : Result RastreoError SinkConfig := Ok CfgStdout.

Definition sample_resolver : ResolverOps := hickory sample_hickory.

(** One scan at a time, behind a token. *)
Definition sample_state : AppState :=
  with_auth (AuthEnabled (s! "secret"))
    (app_with_readiness 0 sample_resolver (mkReadinessConfig 1 30 30)).

Definition sample_request : Request JsonValue :=
  mkRequest (Some (s! "Bearer secret")) false (JObject []).

Definition sample_server (requests : list Phase) (state : AppState) : Server :=
  mkServer state disk_empty requests None.

Definition sample_steps :=
  server_step no_flag keep_flag (Ok sample_resolver) disk_open disk_box disk_captured disk_read
    stdout_config.
Definition sample_reaches :=
  server_reaches no_flag keep_flag (Ok sample_resolver) disk_open disk_box disk_captured disk_read
    stdout_config.

(** ** Scripted runs *)

Inductive Event : Type :=
  | EvArrive (request : Request JsonValue)
  | EvEnter (i : nat) (now : Z)
  | EvAdmit (i : nat)
  | EvAbandon (i : nat) (now : Z) (cause : DropCause)
  | EvRelease (i : nat)
  | EvPlan (i : nat) (now : Z).

Definition set_phase (i : nat) (s : Server) (r : AppState * Disk * Phase) : Server :=
  mkServer r.1.1 r.1.2 (take i (sv_requests s) ++ r.2 :: drop (S i) (sv_requests s)) (sv_probe s).

Definition replay_event (e : Event) (s : Server) : option Server :=
  match e with
  | EvArrive request =>
      Some (mkServer (sv_state s) (sv_world s) (sv_requests s ++ [Arrived request]) (sv_probe s))
  | EvEnter i now =>
      match sv_requests s !! i with
      | Some (Arrived request) =>
          let r := enter (W := Disk) now request (sv_state s) in Some (set_phase i s (r.1, sv_world s, r.2))
      | _ => None
      end
  | EvAdmit i =>
      match sv_requests s !! i with
      | Some (Speculated prior scenario start label disclosure) =>
          Some (set_phase i s (admission disk_box prior scenario start label disclosure (sv_state s) (sv_world s)))
      | _ => None
      end
  | EvAbandon i now cause =>
      match sv_requests s !! i with
      | Some (Scanning run) =>
          Some (set_phase i s (abandon (W := Disk) now run (sv_state s), sv_world s,
                  Releasing (dropped_ending cause) (dropped_response cause)))
      | _ => None
      end
  | EvRelease i =>
      match sv_requests s !! i with
      | Some (Releasing how response) =>
          Some (set_phase i s (on_readiness release_inflight (sv_state s), sv_world s,
                  Ended how true response))
      | _ => None
      end
  | EvPlan i now =>
      match sv_requests s !! i with
      | Some (Planning scenario label disclosure) =>
          let r := dry_run_plan disk_box (sv_state s) scenario label disclosure now (sv_world s) in
          Some (set_phase i s (sv_state s, r.1,
                  Ended EndPlanned false (Some (into_response (BodyPlan <$> r.2)))))
      | _ => None
      end
  end.

Fixpoint replay (es : list Event) (s : Server) : option Server :=
  match es with
  | [] => Some s
  | e :: rest => s ← replay_event e s; replay rest s
  end.

Lemma set_phase_step i s p r :
  sv_requests s !! i = Some p →
  moves no_flag keep_flag (Ok sample_resolver) disk_open disk_box disk_captured (sv_state s) (sv_world s) p
    r.1.1 r.1.2 r.2 →
  sample_steps s (set_phase i s r).
Proof.
  intros Hp Hm. destruct s as [state w requests probe]. simpl in *.
  unfold set_phase. simpl. rewrite <-(take_drop_middle requests i p Hp) at 1.
  by apply step_request.
Qed.

Lemma replay_event_sound e s s' : replay_event e s = Some s' → sample_steps s s'.
Proof.
  destruct e as [request|i now|i|i now cause|i|i now]; cbn [replay_event].
  - intros [= <-]. destruct s. apply step_arrive.
  - destruct (sv_requests s !! i) as [[]|] eqn:Hp; try discriminate. intros [= <-].
    eapply set_phase_step; [exact Hp|]. cbn [fst snd]. eapply move_enter. apply surjective_pairing.
  - destruct (sv_requests s !! i) as [[]|] eqn:Hp; try discriminate. intros [= <-].
    eapply set_phase_step; [exact Hp|]. apply move_admission. by destruct (admission _ _ _ _ _ _ _ _) as [[]].
  - destruct (sv_requests s !! i) as [[]|] eqn:Hp; try discriminate. intros [= <-].
    eapply set_phase_step; [exact Hp|]. apply move_abandon.
  - destruct (sv_requests s !! i) as [[]|] eqn:Hp; try discriminate. intros [= <-].
    eapply set_phase_step; [exact Hp|]. apply move_release.
  - destruct (sv_requests s !! i) as [[]|] eqn:Hp; try discriminate. intros [= <-].
    eapply set_phase_step; [exact Hp|]. apply (move_plan _ _ _ _ _ _ now). reflexivity.
Qed.

Lemma replay_sound es s s' : replay es s = Some s' → sample_reaches s s'.
Proof.
  revert s. induction es as [|e es IH]; intros s; cbn [replay]; [intros [= ->]; apply rtc_refl|].
  destruct (replay_event e s) as [s1|] eqn:He; [|done]. intros Hd.
  eapply rtc_l; [exact (replay_event_sound _ _ _ He)|exact (IH _ Hd)].
Qed.

(** Two requests race for the only place, both increments before either comparison; the
    admitted scan runs out of time. *)
Definition race : option Server :=
  replay [EvArrive sample_request; EvArrive sample_request; EvEnter 0 7; EvEnter 1 8; EvAdmit 0; EvAdmit 1]
    (sample_server [] sample_state).

Definition race_over : option Server := race ≫= replay [EvAbandon 0 9 RequestTimeout; EvRelease 0].

(** * What the server's operations do to its counters *)

(** Arithmetic on counters that wrap at 64 bits. *)
Ltac wrap_lia :=
  unfold fetch_add, fetch_sub, wrap in *;
  change (2 ^ 64) with 18446744073709551616 in *;
  Z.to_euclidean_division_equations; lia.

(** The number of elements that pass a test. *)
Definition tally {A} (test : A → bool) (l : list A) : Z := Z.of_nat (length (List.filter test l)).

Definition one (b : bool) : Z := if b then 1 else 0.

Lemma tally_app {A} (test : A → bool) l k : tally test (l ++ k) = tally test l + tally test k.
Proof. unfold tally. rewrite List.filter_app, length_app. lia. Qed.

Lemma tally_cons {A} (test : A → bool) x l : tally test (x :: l) = one (test x) + tally test l.
Proof. unfold tally, one. simpl. destruct (test x); simpl; lia. Qed.

Lemma tally_nil {A} (test : A → bool) : tally test [] = 0.
Proof. done. Qed.

Lemma tally_le {A} (p q : A → bool) l :
  (∀ x, p x = true → q x = true) → tally p l ≤ tally q l.
Proof.
  intros Hpq. induction l as [|x l IH]; [done|]. rewrite !tally_cons.
  specialize (Hpq x). unfold one. destruct (p x), (q x); naive_solver lia.
Qed.

Lemma tally_bounds {A} (test : A → bool) l : 0 ≤ tally test l ≤ Z.of_nat (length l).
Proof. unfold tally. pose proof (filter_length_le test l). lia. Qed.

(** ** Metrics *)

(** The scans counted so far: over the outcomes, and in the aggregate histogram. *)
Definition scans_counted (m : Metrics) : Z * Z :=
  (wrap 64 (me_scans_total_success m + me_scans_total_error m + me_scans_total_cancelled m),
   wrap 64 (hs_count (sh_all (me_scan_duration m)))).

(** One more scan. *)
Definition one_more (c : Z * Z) : Z * Z := (wrap 64 (c.1 + 1), wrap 64 (c.2 + 1)).

Lemma record_kind_counted pk m : scans_counted (record_kind pk m) = scans_counted m.
Proof. by destruct m. Qed.

Lemma record_dlq_counted t c n m : scans_counted (record_dlq t c n m) = scans_counted m.
Proof. destruct m, t; done. Qed.

Lemma foldl_counted {A} (f : Metrics → A → Metrics) l m :
  (∀ m x, scans_counted (f m x) = scans_counted m) → scans_counted (foldl f m l) = scans_counted m.
Proof. intros Hf. revert m. induction l as [|x l IH]; intros m; simpl; [done|]. by rewrite IH, Hf. Qed.

Lemma observe_duration_counted nanos scenario m :
  scans_counted (observe_duration nanos scenario m) =
  ((scans_counted m).1, wrap 64 ((scans_counted m).2 + 1)).
Proof.
  destruct m as [t s e c r p se d sd ps pf o]. unfold scans_counted, observe_duration. simpl.
  assert (wrap 64 (hs_count (sh_all (histograms_observe (as_secs_f64 nanos) scenario sd))) =
          wrap 64 (wrap 64 (hs_count (sh_all sd)) + 1)) as Hh.
  { unfold histograms_observe. destruct (resolve_label sd scenario); simpl; wrap_lia. }
  destruct o; simpl; by rewrite Hh.
Qed.

Lemma completion_counted summary scenario m :
  scans_counted (record_scan_completion summary scenario m) = one_more (scans_counted m).
Proof.
  unfold record_scan_completion. rewrite observe_duration_counted.
  rewrite foldl_counted by (intros; apply record_dlq_counted).
  rewrite foldl_counted by (intros; apply record_kind_counted).
  destruct m, (ds_cancelled summary); unfold scans_counted, one_more; simpl; f_equal; wrap_lia.
Qed.

Lemma error_counted elapsed class scenario m :
  scans_counted (metrics_record_scan_error elapsed class scenario m) = one_more (scans_counted m).
Proof.
  unfold metrics_record_scan_error. rewrite observe_duration_counted.
  destruct m, class; unfold scans_counted, one_more; simpl; f_equal; wrap_lia.
Qed.

Lemma cancelled_counted elapsed scenario m :
  scans_counted (record_scan_cancelled elapsed scenario m) = one_more (scans_counted m).
Proof.
  unfold record_scan_cancelled. rewrite observe_duration_counted.
  destruct m; unfold scans_counted, one_more; simpl; f_equal; wrap_lia.
Qed.

Ltac tally_simpl := rewrite ?tally_app, ?tally_cons, ?tally_nil in *.

(** ** The shared state *)

Section state.
Context `{NL : IpNetLib, UC : UnicodeCase, FD : F64Display, FE : ForeignErrors, MS : MibSource,
  HO : HashOrder, FT : Features}.
Context {RL : RegexLib} {PL : ProberLib} {IE : IoErrors} {ED : ErrorDisplay} {ES : ErrorSources}.
Context {W : Type} {FS : FsLib W} {SC : ScanCodec} {SS : SinkStore W} {EL : Elapsed W}.
Context {JW : JsonWriter} {KL : KafkaLib W} {SJ : ScanJson} {HL : HttpLib} {RT : Runtime W}.

Abbreviation inflight s := (rd_inflight_scans (as_readiness s)).
Abbreviation max_inflight s := (rc_max_inflight_scans (rd_config (as_readiness s))).
Abbreviation counted s := (scans_counted (as_metrics s)).

Lemma record_scan_failure_effects err start now label disclosure (s : AppState) :
  let s' := (record_scan_failure err start now label disclosure s).1 in
  inflight s' = inflight s ∧ rd_config (as_readiness s') = rd_config (as_readiness s) ∧
  counted s' = one_more (counted s).
Proof using Type.
  unfold record_scan_failure. simpl. destruct s as [r m rd k sr a b x].
  destruct (is_server_error _); simpl; rewrite error_counted; done.
Qed.

Lemma conclude_effects captured now run w r (s : AppState) :
  let s' := (conclude (W := W) captured now run w r s).1 in
  inflight s' = inflight s ∧ rd_config (as_readiness s') = rd_config (as_readiness s) ∧
  counted s' = one_more (counted s).
Proof using Type.
  destruct r as [summary|err]; simpl.
  - destruct s. simpl. by rewrite completion_counted.
  - exact (record_scan_failure_effects err (rn_start run) now (rn_label run) (rn_disclosure run) s).
Qed.

Lemma abandon_effects now run (s : AppState) :
  let s' := abandon (W := W) now run s in
  inflight s' = inflight s ∧ rd_config (as_readiness s') = rd_config (as_readiness s) ∧
  counted s' = one_more (counted s).
Proof using Type. destruct s. simpl. by rewrite cancelled_counted. Qed.

Section probe.
Context (read_to_string : Str → W → W * Result IoError Str).
Context (parse_sink_config : Str → Result RastreoError SinkConfig).
Context (open_sink : SinkConfig → W → W * Result RastreoError Handle).

Lemma run_probe_counted sink timeout (s : ProbeState) (w w' : W) s' v :
  run_probe sink timeout s w = (w', (s', v)) →
  scans_counted (ps_metrics s') = scans_counted (ps_metrics s).
Proof using Type.
  unfold run_probe. destruct (lock_until _ _) as [w1 []]; simpl; [|naive_solver].
  destruct (await_until _ _ _) as [w2 [[[]|e]| |]]; intros [= <- <- <-]; destruct s as [? ? [] ?]; done.
Qed.

Lemma probe_tick_counted config (s : ProbeState) (w w' : W) s' v :
  probe_tick read_to_string parse_sink_config open_sink config s w = (w', (s', v)) →
  scans_counted (ps_metrics s') = scans_counted (ps_metrics s).
Proof using Type.
  unfold probe_tick. destruct s as [[sink|] reach m f]; simpl; [intros H; by apply run_probe_counted in H|].
  unfold retry_construction. destruct (sp_config_path config) as [path|]; [|naive_solver].
  destruct (load_and_construct_sink _ _ _ _ _ _) as [w1 [[sink|[hint detail]]|]].
  - intros H. by apply run_probe_counted in H.
  - intros [= <- <- <-]. destruct hint, m; done.
  - naive_solver.
Qed.
End probe.
End state.
