(* ===== verification/ServerTheorems.v ===== *)
(** * The server's promises: admission, accounting, authentication and readiness *)

From S2P Require Import Prelude Net Resolver F64 Model FuserCore UnionFind Identity IdentityFacts.
From S2P Require Import CorrelateFacts IdentityTheorems Fuser Topology.
From S2P Require Import Classifier Sink Tee Kafka Nats Scheduler CollectionProfile Encoder.
From S2P Require Import GnmiPath SinkConfig ProberConfig Config Checkpoint Pipeline.
From S2P Require Import PipelineFacts Run Plan Env ServerState ServerHttp SinkProbe Scans.
From S2P Require Import ServerFacts.

(** ** What a phase stands for *)

Section phases.
Context `{NL : IpNetLib, UC : UnicodeCase, FD : F64Display, FE : ForeignErrors, MS : MibSource,
  HO : HashOrder, FT : Features}.
Context {RL : RegexLib} {PL : ProberLib} {IE : IoErrors} {ED : ErrorDisplay} {ES : ErrorSources}.
Context {W : Type} {FS : FsLib W} {SC : ScanCodec} {SS : SinkStore W} {EL : Elapsed W}.
Context {JW : JsonWriter} {KL : KafkaLib W} {SJ : ScanJson} {HL : HttpLib} {RT : Runtime W}.
Context (flag : W → bool) (set_flag : bool → W → W).
Context (system_resolver : Result RastreoError ResolverOps).
Context (open_sink : SinkConfig → W → W * Result RastreoError Handle).
Context (box_scan_sink : MemoryInner → option Handle → W → W * Handle).
Context (captured : Handle → W → MemoryInner).

Abbreviation moves := (moves flag set_flag system_resolver open_sink box_scan_sink captured).
(** The request has incremented the in-flight counter and not decremented it. *)
Definition occupies (p : Phase) : bool :=
  match p with Speculated _ _ _ _ _ | Scanning _ | Releasing _ _ => true | _ => false end.

(** The scan runs, or is going to. *)
Definition admitted (max : Z) (p : Phase) : bool :=
  match p with
  | Speculated prior _ _ _ _ => negb (over_cap max prior)
  | Scanning _ | Releasing _ _ => true
  | _ => false
  end.

(** The scan is running. *)
Definition is_scanning (p : Phase) : bool := match p with Scanning _ => true | _ => false end.

(** The request's outcome is in the metrics. *)
Definition is_counted (p : Phase) : bool :=
  match p with Releasing _ _ => true | Ended _ counted _ => counted | _ => false end.

Abbreviation inflight s := (rd_inflight_scans (as_readiness s)).
Abbreviation max_inflight s := (rc_max_inflight_scans (rd_config (as_readiness s))).
Abbreviation counted s := (scans_counted (as_metrics s)).

Lemma admitted_occupies max p : admitted max p = true → occupies p = true.
Proof using Type. by destruct p. Qed.

(** What a move does to the counters. *)
Record accounted (state : AppState) (p : Phase) (state' : AppState) (p' : Phase) : Prop := {
  ac_config : rd_config (as_readiness state') = rd_config (as_readiness state);
  ac_inflight : inflight state' = inflight state ∧ occupies p' = occupies p ∨
    inflight state' = wrap 64 (inflight state + one (occupies p') - one (occupies p));
  ac_counted : (is_counted p' = is_counted p ∧ counted state' = counted state) ∨
    (is_counted p = false ∧ is_counted p' = true ∧ counted state' = one_more (counted state));
  ac_admitted : admitted (max_inflight state) p' = true →
    admitted (max_inflight state) p = true ∨
    occupies p = false ∧ over_cap (max_inflight state) (inflight state) = false;
}.

Lemma begin_scan_accounted now disclosure request state request' :
  accounted state (Arrived request') (begin_scan (W := W) now disclosure request state).1
    (begin_scan (W := W) now disclosure request state).2.
Proof using Type.
  unfold begin_scan. destruct (scenario_from_body _ _) as [scenario|err]; [|split; auto].
  destruct (scenario_validate _) as [[]|err].
  - destruct (rq_dry_run request), state; split; simpl; auto.
    + right. by rewrite Z.sub_0_r.
    + intros Hc%negb_true_iff. auto.
  - destruct (record_scan_failure_effects err now now (scenario_label scenario) disclosure state) as (H1 & H2 & H3).
    destruct (record_scan_failure _ _ _ _ _ _) as [state' failure]. split; simpl; auto.
Qed.

Lemma enter_accounted now request state :
  accounted state (Arrived request) (enter (W := W) now request state).1
    (enter (W := W) now request state).2.
Proof using Type.
  unfold enter, require_bearer. destruct (as_auth state) as [|token]; [apply begin_scan_accounted|].
  destruct (authenticated _ _); [apply begin_scan_accounted|split; auto].
Qed.

Lemma moves_accounted state w p state' w' p' :
  moves state w p state' w' p' → accounted state p state' p'.
Proof using Type.
  destruct 1 as [now request state w state' p He|prior scenario start label disclosure state w state' w' p Ha
    | |now run state w w0 w' r state' response _ Hc|now cause run state w|how response state w| |].
  - pose proof (enter_accounted now request state) as H. rewrite He in H. exact H.
  - unfold admission in Ha. destruct (over_cap _ _) eqn:Ho.
    + simplify_eq. destruct state. split; simpl; auto; [|done]. right. unfold fetch_sub. f_equal. lia.
    + destruct (build_scan_sink _ _ _). simplify_eq. split; simpl; auto. rewrite Ho. auto.
  - split; auto.
  - pose proof (conclude_effects captured now run w' r state) as H. rewrite Hc in H.
    destruct H as (H1 & H2 & H3). split; simpl; auto.
  - destruct (abandon_effects now run state) as (H1 & H2 & H3). split; simpl; auto.
  - destruct state. split; simpl; auto. right. unfold fetch_sub. f_equal. lia.
  - split; auto.
  - split; auto.
Qed.

(** ** The invariant *)

Record server_inv (max : Z) (s : Server) : Prop := {
  iv_max : max_inflight (sv_state s) = max;
  iv_inflight : inflight (sv_state s) = wrap 64 (tally occupies (sv_requests s));
  iv_counted : counted (sv_state s) =
    (wrap 64 (tally is_counted (sv_requests s)), wrap 64 (tally is_counted (sv_requests s)));
  iv_admitted : 0 < max → Z.of_nat (length (sv_requests s)) < 2 ^ 64 →
    tally (admitted max) (sv_requests s) ≤ max;
}.

Lemma moves_preserve max state w before p after probe state' w' p' :
  moves state w p state' w' p' →
  server_inv max (mkServer state w (before ++ p :: after) probe) →
  server_inv max (mkServer state' w' (before ++ p' :: after) probe).
Proof using Type.
  intros [Hc Hi Hn Ha]%moves_accounted [I1 I2 I3 I4]. simpl in *. subst max. split; simpl.
  - by rewrite Hc.
  - tally_simpl. rewrite I2 in Hi. destruct Hi as [[-> ->]| ->]; [done|wrap_lia].
  - tally_simpl. destruct Hn as [[Hp ->]|(Hp & Hp' & ->)]; rewrite I3; [by rewrite Hp|].
    rewrite Hp, Hp'. unfold one_more. simpl. f_equal; wrap_lia.
  - intros Hm Hlen. rewrite !length_app in *. cbn [length] in *. specialize (I4 Hm Hlen).
    tally_simpl. destruct (admitted _ p') eqn:Hp'; [|unfold one in *; destruct (admitted _ p); lia].
    destruct (Ha eq_refl) as [Hp|[Hp Hcap]]; [rewrite Hp in I4; exact I4|].
    rewrite Hp in I2. unfold over_cap in Hcap. apply andb_false_iff in Hcap as [?|Hcap]; [break_bool; lia|].
    pose proof (tally_le (admitted (max_inflight state)) occupies before (admitted_occupies _)).
    pose proof (tally_le (admitted (max_inflight state)) occupies after (admitted_occupies _)).
    pose proof (tally_bounds occupies before). pose proof (tally_bounds occupies after).
    break_bool. rewrite I2, !wrap_small in Hcap; unfold one in *; rewrite ?wrap_small by lia; lia.
Qed.

Context (read_to_string : Str → W → W * Result IoError Str).
Context (parse_sink_config : Str → Result RastreoError SinkConfig).

Abbreviation server_step :=
  (server_step flag set_flag system_resolver open_sink box_scan_sink captured read_to_string parse_sink_config).
Abbreviation server_reaches :=
  (server_reaches flag set_flag system_resolver open_sink box_scan_sink captured read_to_string
     parse_sink_config).

Lemma step_preserves max s s' : server_step s s' → server_inv max s → server_inv max s'.
Proof using Type.
  destruct 1 as [request state w requests probe|state w before p after probe state' w' p' Hm
    |state w requests config failures w' s v Ht|]; intros I.
  - destruct I as [I1 I2 I3 I4]. simpl in *.
    split; simpl; tally_simpl; simpl; rewrite ?Z.add_0_r; auto.
    rewrite length_app. intros. apply I4; lia.
  - by eapply moves_preserve.
  - apply probe_tick_counted in Ht. destruct I as [I1 I2 I3 I4], state as [r m rd k sr a b x], s as [sl re me fa].
    simpl in *. split; simpl; auto. by rewrite Ht.
  - destruct I as [I1 I2 I3 I4]. by split.
Qed.

(** C38. Admission and accounting of scans, under every interleaving of requests, of the
    probe task and of dropped connections, as long as fewer than 2^64 requests arrived:
    when a cap is set no more than that many scans run at once; the in-flight gauge counts
    exactly the requests between their increment and their decrement, so it returns to the
    number of running scans and never leaks; and the success, error and cancelled counters
    add up, like the count of the aggregate histogram, to the number of requests whose
    outcome was recorded, each once: scans that returned, scans that were dropped while
    running and scenarios that failed validation. *)
Theorem scans_admitted_and_counted s0 s :
  server_fresh s0 → server_reaches s0 s → Z.of_nat (length (sv_requests s)) < 2 ^ 64 →
  (0 < max_inflight (sv_state s0) → tally is_scanning (sv_requests s) ≤ max_inflight (sv_state s0)) ∧
  inflight (sv_state s) = tally occupies (sv_requests s) ∧
  counted (sv_state s) = (tally is_counted (sv_requests s), tally is_counted (sv_requests s)).
Proof using Type.
  intros (F1 & F2 & F3 & F4 & F5 & F6) Hr Hlen.
  assert (server_inv (max_inflight (sv_state s0)) s) as [I1 I2 I3 I4].
  { revert Hr. apply (rtc_ind_r _ s0).
    - split; [done| | |]; rewrite F1; simpl; [by rewrite F2|unfold scans_counted; by rewrite F3, F4, F5, F6|].
      intros. unfold tally. simpl. lia.
    - intros. by eapply step_preserves. }
  pose proof (tally_bounds occupies (sv_requests s)). pose proof (tally_bounds is_counted (sv_requests s)).
  split_and!.
  - intros Hm. etrans; [|apply (I4 Hm Hlen)]. apply tally_le. by intros [].
  - by rewrite I2, wrap_small by lia.
  - by rewrite I3, wrap_small by lia.
Qed.

(** ** Who may know what failed *)

(** The server, and not the caller, has to act on these. *)
Definition server_owned (err : RastreoError) : bool :=
  match err with
  | EConfig _ | EClassifier _ => false
  | EResolver inner => match inner with DnsLookupFailed _ _ => true | _ => false end
  | _ => true
  end.

Lemma status_owned err : is_server_error (status_for err) = server_owned err.
Proof using Type. by destruct err as [| |[]| | | | | |]. Qed.

Lemma server_error_range status : is_server_error status = true ↔ 500 ≤ status < 600.
Proof using Type. unfold is_server_error. rewrite andb_true_iff, Z.leb_le, Z.ltb_lt. done. Qed.

(** A response that says nothing about what failed in the server. *)
Definition undisclosing (r : Response ScanBody) : Prop :=
  is_server_error (rp_status r) = true → rp_body r = inl (s! "internal server error").

(** A request that ran out of time is answered 503 with an empty body, any other with a
    redacted response; a client that went away is not answered. *)
Definition withholds (how : Ending) (response : option (Response ScanBody)) : Prop :=
  match how, response with
  | EndTimedOut, answer => answer = Some (mkResponse 503 None (inr BodyEmpty))
  | EndDropped, answer => answer = None
  | _, Some r => undisclosing r
  | _, None => False
  end.

Definition phase_withholds (p : Phase) : Prop :=
  match p with
  | Arrived _ => True
  | Planning _ _ disclosure | Speculated _ _ _ _ disclosure => disclosure = disclosure_default
  | Scanning run => rn_disclosure run = disclosure_default
  | Releasing how response | Ended how _ response => withholds how response
  end.

Lemma from_rastreo_withholds err :
  undisclosing (error_response (from_rastreo err disclosure_default)).
Proof using Type.
  unfold undisclosing. simpl. unfold response_message. destruct (is_client_error _) eqn:Hc; [|done].
  unfold is_client_error, is_server_error in *. intros. break_bool. lia.
Qed.

Lemma record_scan_failure_withholds err start now label (state : AppState) :
  undisclosing (error_response (record_scan_failure err start now label disclosure_default state).2).
Proof using Type. exact (from_rastreo_withholds err). Qed.

Lemma scenario_from_body_withholds body err :
  scenario_from_body body disclosure_default = Err err → undisclosing (error_response err).
Proof using Type.
  unfold scenario_from_body. destruct (parse_discover_scenario_json body) as [|e]; [done|].
  intros [= <-]. apply from_rastreo_withholds.
Qed.

Lemma begin_scan_withholds now request (state : AppState) :
  phase_withholds (begin_scan (W := W) now disclosure_default request state).2.
Proof using Type.
  unfold begin_scan. destruct (scenario_from_body _ _) as [scenario|err] eqn:Hb;
    [|by apply scenario_from_body_withholds in Hb].
  destruct (scenario_validate _) as [[]|err]; [by destruct (rq_dry_run request)|].
  pose proof (record_scan_failure_withholds err now now (scenario_label scenario) state) as H.
  destruct (record_scan_failure _ _ _ _ _ _). exact H.
Qed.

Lemma dry_run_plan_withholds state scenario label now w :
  undisclosing (into_response (BodyPlan <$>
    (dry_run_plan box_scan_sink state scenario label disclosure_default now w).2)).
Proof using Type.
  unfold dry_run_plan. destruct (build_scan_sink _ _ _) as [w' sink].
  destruct (run_plan _ _ _ _) as [stages|e]; cbn; [|apply from_rastreo_withholds].
  case_match; [apply from_rastreo_withholds|done].
Qed.

Lemma conclude_withholds now run w r state :
  rn_disclosure run = disclosure_default → undisclosing (conclude captured now run w r state).2.
Proof using Type.
  intros Hd. destruct r as [summary|err]; [done|]. unfold conclude. rewrite Hd.
  pose proof (record_scan_failure_withholds err (rn_start run) now (rn_label run) state) as H.
  destruct (record_scan_failure _ _ _ _ _ _). exact H.
Qed.

Lemma moves_auth state w p state' w' p' : moves state w p state' w' p' → as_auth state' = as_auth state.
Proof using Type.
  assert (∀ err start now label d s, as_auth (record_scan_failure (W := W) err start now label d s).1 = as_auth s)
    as Hf.
  { intros. unfold record_scan_failure. simpl. destruct s, (is_server_error _); done. }
  assert (∀ now d request s, as_auth (begin_scan (W := W) now d request s).1 = as_auth s) as Hb.
  { intros. unfold begin_scan. destruct (scenario_from_body _ _) as [sc|]; [|done].
    destruct (scenario_validate _) as [|err]; [destruct (rq_dry_run _), s; done|].
    specialize (Hf err now now (scenario_label sc) d s).
    destruct (record_scan_failure _ _ _ _ _ _). exact Hf. }
  destruct 1 as [now request s w s' p He|prior sc start label d s w s' w' p Ha| |now run s w w0 w' r s' resp _ Hc| | | |];
    try done.
  - unfold enter, require_bearer in He. pose proof (Hb now) as Hb'.
    destruct (as_auth s) eqn:Ha; [|destruct (authenticated _ _); [|congruence]];
    match type of He with begin_scan _ ?d _ _ = _ => specialize (Hb' d request s) end;
    rewrite He in Hb'; simpl in Hb'; congruence.
  - unfold admission in Ha. destruct (over_cap _ _); [by destruct s; simplify_eq|].
    destruct (build_scan_sink _ _ _). by simplify_eq.
  - destruct r as [summary|err]; unfold conclude in Hc; [by destruct s; simplify_eq|].
    specialize (Hf err (rn_start run) now (rn_label run) (rn_disclosure run) s).
    destruct (record_scan_failure _ _ _ _ _ _). simpl in *. by simplify_eq.
  - by destruct state.
  - by destruct state.
Qed.

Lemma moves_withhold state w p state' w' p' :
  moves state w p state' w' p' → as_auth state = AuthDisabled → phase_withholds p → phase_withholds p'.
Proof using Type.
  destruct 1 as [now request s w s' p He|prior sc start label d s w s' w' p Ha|now sc label d s w w' r Hp
    |now run s w w0 w' r s' resp _ Hc|now [] run s w| |[]|[]]; intros Hauth Hp0; try done.
  - unfold enter, require_bearer in He. rewrite Hauth in He.
    pose proof (begin_scan_withholds now request s) as H. by rewrite He in H.
  - unfold admission in Ha. destruct (over_cap _ _); [by simplify_eq|].
    destruct (build_scan_sink _ _ _). by simplify_eq.
  - simpl in Hp0. subst d. pose proof (dry_run_plan_withholds s sc label now w) as H. by rewrite Hp in H.
  - pose proof (conclude_withholds now run w' r s Hp0) as H. by rewrite Hc in H.
Qed.

(** C40. On a server without authentication the scan route tells a caller nothing of what
    went wrong inside the server. In every state the server can reach, a request that ran
    out of time was answered by the timeout layer with 503 and an empty body; a client that
    went away got no answer; every other request that ended got one, and when its status is
    5xx its body is the text "internal server error" and nothing else, whether the failure
    came from a sink, an encoder, a resolver or a dry run. Every failure but those the caller
    can act on (a configuration, a classifier rule, a target it asked for) has such a status. This is about POST /scans only:
    redaction does not apply to GET /readyz, whose 503 publishes the last error of the sink
    probe verbatim to any caller ([readyz], [rb_last_probe_error]), as the documentation of
    the server says. *)
Theorem server_errors_withheld s0 s :
  sv_requests s0 = [] → as_auth (sv_state s0) = AuthDisabled → server_reaches s0 s →
  (∀ how c answer, Ended how c answer ∈ sv_requests s →
   match how with
   | EndTimedOut => answer = Some (mkResponse 503 None (inr BodyEmpty))
   | EndDropped => answer = None
   | _ => ∃ response, answer = Some response ∧
       (500 ≤ rp_status response < 600 → rp_body response = inl (s! "internal server error"))
   end) ∧
  (∀ err disclosure, server_owned err = true ↔ 500 ≤ ae_status (from_rastreo err disclosure) < 600).
Proof using Type.
  intros F1 F2 Hr. split; [|intros; rewrite <-status_owned; apply server_error_range].
  assert (as_auth (sv_state s) = AuthDisabled ∧ Forall phase_withholds (sv_requests s)) as [_ Hall].
  { revert Hr. apply (rtc_ind_r (λ s, as_auth (sv_state s) = AuthDisabled ∧ Forall phase_withholds (sv_requests s)) s0);
      [by rewrite F1|].
    intros s1 s2 _ Hstep [Ha Hall].
    destruct Hstep as [request state w requests probe|state w before p after probe state' w' p' Hm
      |state w requests config failures w' ps v Ht|]; simpl in *.
    - split; [done|]. apply Forall_app. by split; [|constructor].
    - split; [by rewrite (moves_auth _ _ _ _ _ _ Hm)|].
      apply Forall_app in Hall as [Hb [Hp Hafter]%Forall_cons]. apply Forall_app. split; [done|].
      constructor; [by eapply moves_withhold|done].
    - split; [by destruct state|done].
    - done. }
  intros how c answer Hin. rewrite Forall_forall in Hall. specialize (Hall _ Hin). simpl in Hall.
  destruct how, answer; try done; eexists; (split; [reflexivity|]); intros; apply Hall; by apply server_error_range.
Qed.
End phases.

(** * Authentication and readiness of the server *)

(** ** Authentication *)

Lemma authenticated_header {L : HttpLib} {HL : HttpLaws L} token header :
  authenticated token header = true → header = Some (as_bytes (s! "Bearer " ++ token)).
Proof.
  unfold authenticated. destruct header as [raw|]; [|done]. cbn [mbind option_bind].
  destruct (header_to_str raw) as [text|] eqn:Ht; [|done]. cbn [mbind option_bind].
  destruct (strip_prefix _ text) as [candidate|] eqn:Hs; [|done].
  intros Heq%ct_eq_spec. apply header_to_str_bytes in Ht as <-. apply strip_prefix_Some in Hs as ->.
  by rewrite !as_bytes_app, Heq.
Qed.

Section route.
Context `{NL : IpNetLib, UC : UnicodeCase, FD : F64Display, FE : ForeignErrors, MS : MibSource,
  HO : HashOrder, FT : Features}.
Context {RL : RegexLib} {PL : ProberLib} {IE : IoErrors} {ED : ErrorDisplay} {ES : ErrorSources}.
Context {W : Type} {FS : FsLib W} {SC : ScanCodec} {SS : SinkStore W} {EL : Elapsed W}.
Context {JW : JsonWriter} {KL : KafkaLib W} {SJ : ScanJson} {HT : HttpLib} {HL : HttpLaws HT}.

(** C39. The scan endpoint is never silently open. A server starts without authentication
    only when no token is configured and an operator wrote an affirmative
    [RASTREO_AUTH_DISABLED]; with a token, which is then not blank, a request whose header
    is not exactly the bearer token is answered 401 before its body is parsed, and changes
    nothing the server shares: no counter, no gauge, no readiness. *)
Theorem scan_route_fails_closed {E} `{Env E} (env : E) auth now request (state : AppState) :
  auth_config_from_env env = Ok auth → as_auth state = auth →
  match auth with
  | AuthDisabled =>
      env_nonblank env (s! "RASTREO_API_TOKEN") = Ok None ∧
      ∃ raw, env_var env (s! "RASTREO_AUTH_DISABLED") = Ok raw ∧
        to_ascii_lowercase (trim raw) ∈ [s! "true"; s! "1"; s! "yes"; s! "on"]
  | AuthEnabled token =>
      token ≠ [] ∧
      (rq_authorization request ≠ Some (as_bytes (s! "Bearer " ++ token)) →
       enter now request state =
         (state, Ended EndUnauthorized false (Some (mkResponse 401 (Some (s! "Bearer"))
           (inl (s! "missing or invalid bearer token"))))))
  end.
Proof using HL.
  intros Hauth Hstate. unfold auth_config_from_env in Hauth.
  apply Result_bind_Ok in Hauth as ([token|] & Htok & Hauth).
  - injection Hauth as <-. split.
    + unfold env_nonblank in Htok. destruct (env_var _ _) as [raw|[]]; [|done|done].
      destruct (is_empty (trim raw)) eqn:Hb; [done|]. injection Htok as <-. intros Hn. by rewrite Hn in Hb.
    + intros Hne. unfold enter, require_bearer. rewrite Hstate.
      destruct (authenticated token (rq_authorization request)) eqn:Ha; [|done].
      by apply authenticated_header in Ha.
  - apply Result_bind_Ok in Hauth as ([] & Hd & Hauth); [|done]. injection Hauth as <-. split; [done|].
    unfold env_bool, parse_env_bool in Hd. apply map_err_Ok in Hd.
    destruct (env_var _ _) as [raw|[]]; [|done|done]. exists raw. split; [done|].
    revert Hd. case_bool_decide; [done|]. by case_bool_decide.
Qed.

(** ** Readiness *)

(** Stamps hold whole milliseconds, so an age is over by less than one of them. *)
Lemma stamp_age_accurate base t now s :
  ms_base s = base → base ≤ t ≤ now → as_millis (t - base) < U64_MAX →
  ∃ age, stamp_age now (stamp t s) = Some age ∧ now - t ≤ age < now - t + 1000000.
Proof using Type.
  intros Hb Ht Hm. unfold stamp_age, stamp, decode_stamp, encode_stamp, UNSTAMPED. simpl. rewrite Hb.
  unfold saturating_sub, saturating_add, as_millis in *. rewrite (Z.max_r 0 (t - base)) by lia.
  assert (0 ≤ (t - base) / 1000000) by (apply Z.div_pos; lia).
  destruct (Z.leb_spec ((t - base) / 1000000) U64_MAX); [|lia].
  rewrite Z.min_r by lia. destruct (Z.eqb_spec ((t - base) / 1000000 + 1) 0); [lia|].
  eexists. split; [reflexivity|]. Z.to_euclidean_division_equations; lia.
Qed.

(** Only failures the server owns take it out of rotation. A scan that fails on what the
    caller sent leaves readiness as it is, so every later readiness answer is the one it
    would have been; a failure of the server (a name server it cannot reach, a sink, an
    encoder, its own tasks) makes the age of the last scan error that of the failure, a sink
    failure that of the last sink error too, each less than a millisecond too old and
    never too young; the in-flight gauge and the other stamp stay. *)
Theorem failures_and_readiness err start t now label disclosure (state : AppState) :
  let r := as_readiness state in
  ms_base (rd_last_scan_error r) ≤ t ≤ now → ms_base (rd_last_sink_error r) ≤ t →
  as_millis (t - ms_base (rd_last_scan_error r)) < U64_MAX →
  as_millis (t - ms_base (rd_last_sink_error r)) < U64_MAX →
  let state' := (record_scan_failure err start t label disclosure state).1 in
  let r' := as_readiness state' in
  if server_owned err then
    rd_inflight_scans r' = rd_inflight_scans r ∧
    (∃ age, stamp_age now (rd_last_scan_error r') = Some age ∧ now - t ≤ age < now - t + 1000000) ∧
    match err with
    | ESink _ => ∃ age, stamp_age now (rd_last_sink_error r') = Some age ∧ now - t ≤ age < now - t + 1000000
    | _ => rd_last_sink_error r' = rd_last_sink_error r
    end
  else readyz now state' = readyz now state.
Proof using Type.
  intros r Hscan Hsink Hm1 Hm2 state' r'.
  pose proof (status_owned err) as Hs.
  unfold r', state', r in *. unfold record_scan_failure. cbn [from_rastreo ae_status fst]. rewrite Hs.
  destruct (server_owned err) eqn:Ho; [|by destruct state].
  destruct state as [res m [inf lk lc cfg] k sr a b x]. cbn in *. split; [done|].
  split; [by eapply stamp_age_accurate|]. destruct err; try done. eapply stamp_age_accurate; [reflexivity|lia|done].
Qed.
End route.

(** ** Witnesses *)

(** Over the race of two requests for one place: one scan runs, the other was refused. *)
Lemma scans_admitted_and_counted_witness : ∃ s,
  race = Some s ∧ tally is_scanning (sv_requests s) ≤ 1 ∧
  rd_inflight_scans (as_readiness (sv_state s)) = tally occupies (sv_requests s) ∧
  tally occupies (sv_requests s) = 1.
Proof.
  assert ((λ s, (length (sv_requests s), tally occupies (sv_requests s))) <$> race = Some (2%nat, 1)) as Hv
    by (by vm_compute).
  destruct race as [s|] eqn:Hr; [|discriminate Hv]. exists s.
  cbn [fmap option_fmap option_map] in Hv. injection Hv as Hlen Hocc.
  destruct (scans_admitted_and_counted no_flag keep_flag (Ok sample_resolver) disk_open disk_box disk_captured
    disk_read stdout_config (sample_server [] sample_state) s) as (Hcap & Hgauge & _).
  - split_and!; reflexivity.
  - exact (replay_sound _ _ _ Hr).
  - rewrite Hlen. reflexivity.
  - split; [reflexivity|]. split; [exact (Hcap eq_refl)|]. split; [exact Hgauge|exact Hocc].
Defined.

(** A request without a header, at a server with a token. *)
Lemma scan_route_fails_closed_witness :
  auth_config_from_env (map_env_set ∅ (s! "RASTREO_API_TOKEN") (OsText (s! " secret "))) =
    Ok (AuthEnabled (s! "secret")) ∧
  enter (W := Disk) 7 (mkRequest None false (JObject [])) sample_state =
    (sample_state, Ended EndUnauthorized false (Some (mkResponse 401 (Some (s! "Bearer"))
       (inl (s! "missing or invalid bearer token"))))).
Proof.
  assert (auth_config_from_env (map_env_set ∅ (s! "RASTREO_API_TOKEN") (OsText (s! " secret "))) =
    Ok (AuthEnabled (s! "secret"))) as Hauth by (by vm_compute).
  split; [exact Hauth|].
  apply (proj2 (scan_route_fails_closed _ _ 7 (mkRequest None false (JObject [])) sample_state Hauth eq_refl)).
  discriminate.
Defined.

(** A refused address keeps the server ready. *)
Lemma failures_and_readiness_witness :
  readyz (W := Disk) 9
    (record_scan_failure (EResolver (TargetNotAllowed (V4 1))) 7 8 (s! "lab") disclosure_default sample_state).1 =
  readyz 9 sample_state.
Proof.
  apply (failures_and_readiness (EResolver (TargetNotAllowed (V4 1))) 7 8 9 (s! "lab") disclosure_default
    sample_state); vm_compute; intuition discriminate.
Defined.

(** A server without authentication whose name server does not answer: a dry run is
    answered 503 with the fixed text, a scan that runs out of time 503 with no body. *)
Definition unreachable_dns : ResolverOps :=
  mkResolver (λ _ _, Err (EResolver (DnsLookupFailed (s! "sw1") 1%nat)))
    (λ _ _, Err (EResolver (DnsLookupFailed (s! "sw1") 1%nat))).

Definition open_state : AppState := app_new 0 unreachable_dns.

Definition open_run : option Server :=
  replay [EvArrive (mkRequest None true (JObject [])); EvEnter 0 7; EvPlan 0 8;
          EvArrive (mkRequest None false (JObject [])); EvEnter 1 9; EvAdmit 1;
          EvAbandon 1 10 RequestTimeout; EvRelease 1] (sample_server [] open_state).

Definition answered (p : Phase) : option (Ending * Z) :=
  match p with Ended how _ (Some r) => Some (how, rp_status r) | _ => None end.

Lemma server_errors_withheld_witness : ∃ s,
  open_run = Some s ∧ answered <$> sv_requests s = [Some (EndPlanned, 503); Some (EndTimedOut, 503)] ∧
  ∀ how c answer, Ended how c answer ∈ sv_requests s →
  match how with
  | EndTimedOut => answer = Some (mkResponse 503 None (inr BodyEmpty))
  | EndDropped => answer = None
  | _ => ∃ response, answer = Some response ∧
      (500 ≤ rp_status response < 600 → rp_body response = inl (s! "internal server error"))
  end.
Proof.
  assert ((λ s, answered <$> sv_requests s) <$> open_run =
    Some [Some (EndPlanned, 503); Some (EndTimedOut, 503)]) as Hv by (by vm_compute).
  destruct open_run as [s|] eqn:Hr; [|discriminate Hv]. exists s.
  cbn [fmap option_fmap option_map] in Hv. injection Hv as Hst.
  split; [reflexivity|]. split; [exact Hst|].
  apply (server_errors_withheld no_flag keep_flag (Ok sample_resolver) disk_open disk_box disk_captured
    disk_read stdout_config (sample_server [] open_state) s); [reflexivity|reflexivity|].
  exact (replay_sound _ _ _ Hr).
Defined.
