(* ===== verification/ProbeTheorems.v ===== *)
(** * The sink probe reports its latest measurement, and counts every cycle *)

From S2P Require Import Prelude Net F64 Model Resolver Sink Tee Kafka Nats SinkConfig ProberConfig.
From S2P Require Import Pipeline PipelineFacts RunTheorems Env ServerState ServerHttp SinkProbe Scans.
From S2P Require Import ServerFacts.

(** ** Verdicts *)

Definition is_success (v : Verdict) : bool := match v with VSuccess => true | _ => false end.
Definition is_failure (v : Verdict) : bool := match v with VFailure => true | _ => false end.
Definition measured_nothing (v : Verdict) : bool :=
  match v with VSkipped | VPanicked => true | _ => false end.

(** The latest measurement, if any. *)
Definition latest_verdict (last : option bool) (v : Verdict) : option bool :=
  match v with VSuccess => Some true | VFailure => Some false | _ => last end.

Lemma verdicts_partition vs :
  Z.of_nat (length vs) = tally is_success vs + tally is_failure vs + tally measured_nothing vs.
Proof.
  induction vs as [|v vs IH]; [done|]. rewrite !tally_cons. cbn [length]. rewrite Nat2Z.inj_succ, IH.
  destruct v; unfold one; simpl; lia.
Qed.

Section probe.
Context `{NL : IpNetLib, FE : ForeignErrors} {IE : IoErrors} {ED : ErrorDisplay} {ES : ErrorSources}.
Context {W : Type} {SS : SinkStore W} {RT : Runtime W}.
Context (read_to_string : Str → W → W * Result IoError Str).
Context (parse_sink_config : Str → Result RastreoError SinkConfig).
Context (open_sink : SinkConfig → W → W * Result RastreoError Handle).

Abbreviation startup_cycle := (startup_cycle read_to_string parse_sink_config open_sink).
Abbreviation probe_tick := (probe_tick read_to_string parse_sink_config open_sink).
Abbreviation probe_cycles := (probe_cycles read_to_string parse_sink_config open_sink).

(** ** What a state says after the verdicts so far *)

Record reports (ticks succ fail : Z) (last : option bool) (s : ProbeState) : Prop := {
  rp_ticks : sr_ticks (ps_reach s) = wrap 64 ticks;
  rp_success : me_sink_probe_success (ps_metrics s) = wrap 64 succ;
  rp_failure : me_sink_probe_failure (ps_metrics s) = wrap 64 fail;
  rp_reachable : sr_reachable (ps_reach s) = bool_decide (last = Some true);
  rp_error : bool_decide (sr_last_error (ps_reach s) = None) = bool_decide (last ≠ Some false);
  rp_attached : last = Some true → is_Some (ps_slot s);
  rp_configured : sr_configured (ps_reach s) = true;
}.

Lemma wrap_succ n : fetch_add 1 (wrap 64 n) = wrap 64 (n + 1).
Proof using Type. wrap_lia. Qed.

Lemma run_probe_reports ticks succ fail last sink timeout s (w w' : W) s' v :
  run_probe sink timeout s w = (w', (s', v)) → ps_slot s = Some sink →
  reports ticks succ fail last s →
  reports ticks (succ + one (is_success v)) (fail + one (is_failure v)) (latest_verdict last v) s' ∧
  ps_slot s' = ps_slot s.
Proof using Type.
  unfold run_probe. destruct (lock_until _ _) as [w1 []]; simpl;
    [|intros [= <- <- <-] ? ?; simpl; by rewrite !Z.add_0_r].
  intros Hr Hslot [R1 R2 R3 R4 R5 R6 R7].
  destruct s as [sl [] [] fa].
  destruct (await_until _ _ _) as [w2 [[[]|e]| |]]; injection Hr as <- <- <-; simpl in *;
    (split; [|done]); rewrite ?Z.add_0_r; split; simpl; subst; rewrite ?wrap_succ; eauto.
Qed.

Lemma tick_reports ticks succ fail last now s :
  reports ticks succ fail last s → reports (ticks + 1) succ fail last (on_reach (record_tick now) s).
Proof using Type.
  intros [R1 R2 R3 R4 R5 R6 R7]. destruct s as [sl [] m fa]. simpl in *. split; simpl; auto.
  by rewrite R1, wrap_succ.
Qed.

Lemma failures_log_reports ticks succ fail last d s :
  reports ticks succ fail last s → reports ticks succ fail last (failures_log d s).
Proof using Type. intros [R1 R2 R3 R4 R5 R6 R7]. destruct s. by split. Qed.

Lemma sink_type_reports ticks succ fail last t s :
  reports ticks succ fail last s → reports ticks succ fail last (on_reach (set_sink_type t) s).
Proof using Type. intros [R1 R2 R3 R4 R5 R6 R7]. destruct s as [sl [] m fa]. by split. Qed.

Lemma attach_reports ticks succ fail last h s :
  reports ticks succ fail last s → reports ticks succ fail last (on_slot (slot_attach h) s).
Proof using Type.
  intros [R1 R2 R3 R4 R5 R6 R7]. destruct s as [sl r m fa]. split; simpl; auto. intros. by destruct sl.
Qed.

Lemma failure_reports ticks succ fail last message (w : W) s :
  reports ticks succ fail last s → reports ticks succ (fail + 1) (Some false) (verdict_failure message w s).1.
Proof using Type.
  intros [R1 R2 R3 R4 R5 R6 R7]. destruct s as [sl [] [] fa]. simpl in *. split; simpl; auto; [|done].
  by rewrite R3, wrap_succ.
Qed.

Lemma probe_tick_reports ticks succ fail last config s (w w' : W) s' v :
  probe_tick config s w = (w', (s', v)) →
  reports ticks succ fail last s →
  reports (ticks + 1) (succ + one (is_success v)) (fail + one (is_failure v)) (latest_verdict last v) s' ∧
  (∀ h, ps_slot s = Some h → ps_slot s' = Some h).
Proof using Type.
  unfold probe_tick. intros Ht R. apply (tick_reports _ _ _ _ (clock w)) in R.
  assert (ps_slot (on_reach (record_tick (clock w)) s) = ps_slot s) as Hs0 by by destruct s.
  set (s1 := on_reach _ s) in *. rewrite <-Hs0. clearbody s1. clear Hs0 s.
  destruct (ps_slot s1) as [sink|] eqn:Hslot.
  { destruct (run_probe_reports _ _ _ _ _ _ _ _ _ _ _ Ht Hslot R) as [R' ->]. by rewrite Hslot. }
  revert Ht. unfold retry_construction. destruct (sp_config_path config) as [path|];
    [|intros [= <- <- <-]; simpl; rewrite !Z.add_0_r; naive_solver].
  destruct (load_and_construct_sink _ _ _ _ _ _) as [w1 [[sink|[hint detail]]|]]; cbn beta iota.
  - intros Ht. eapply (run_probe_reports (ticks + 1) succ fail last) in Ht as [R' _];
      [split; [exact R'|done]|by destruct s1 as [[]]|].
    by apply attach_reports, sink_type_reports.
  - intros [= <- <- <-]. split; [|done]. simpl. rewrite Z.add_0_r. apply (failure_reports _ _ _ last).
    apply (failures_log_reports _ _ _ _ detail) in R.
    destruct hint; [by apply sink_type_reports|done].
  - intros [= <- <- <-]. simpl. rewrite !Z.add_0_r. naive_solver.
Qed.

Lemma probe_cycles_report ticks succ fail last config waits s (w w' : W) s' vs :
  probe_cycles config waits s w = (w', (s', vs)) →
  reports ticks succ fail last s →
  reports (ticks + Z.of_nat (length vs)) (succ + tally is_success vs) (fail + tally is_failure vs)
    (foldl latest_verdict last vs) s' ∧
  (∀ h, ps_slot s = Some h → ps_slot s' = Some h).
Proof using Type.
  revert ticks succ fail last s w vs.
  induction waits as [|wait waits IH]; intros ticks succ fail last s w vs; simpl.
  - intros [= <- <- <-] R. simpl. rewrite !tally_nil, !Z.add_0_r. by split.
  - destruct (SinkProbe.probe_tick _ _ _ _ _ _) as [w1 [s1 v]] eqn:Ht.
    destruct (SinkProbe.probe_cycles _ _ _ _ _ _ _) as [w2 [s2 vs']] eqn:Hc. intros [= <- <- <-] R.
    destruct (probe_tick_reports _ _ _ _ _ _ _ _ _ _ Ht R) as [R1 Hslot1].
    destruct (IH _ _ _ _ _ _ _ Hc R1) as [R2 Hslot2]. split; [|by eauto].
    rewrite !tally_cons. cbn [length foldl]. rewrite Nat2Z.inj_succ.
    replace (ticks + Z.succ (Z.of_nat (length vs'))) with (ticks + 1 + Z.of_nat (length vs')) by lia.
    by rewrite !Z.add_assoc.
Qed.

Lemma startup_reports path config metrics (w w' : W) s v :
  startup_cycle path config metrics w = (w', Some (s, v)) →
  me_sink_probe_success metrics = 0 → me_sink_probe_failure metrics = 0 →
  reports 1 (one (is_success v)) (one (is_failure v)) (latest_verdict None v) s.
Proof using Type.
  unfold startup_cycle. intros Hs H1 H2.
  destruct (load_and_construct_sink _ _ _ _ _ _) as [w1 [[sink|[hint detail]]|]]; [| |done].
  - destruct (run_probe _ _ _ _) as [w2 [s2 v2]] eqn:Hr.
    eapply (run_probe_reports 0 0 0 None) in Hr as [R _]; [|done|by split].
    destruct v2; simplify_eq; exact (tick_reports 0 _ _ _ _ _ R).
  - simplify_eq. apply (tick_reports 0 0 1 (Some false)).
    destruct metrics. simpl in *. split; simpl; subst; done.
Qed.

(** What the sink probe publishes is its latest measurement, and every cycle is counted.
    After the cycle at start and any number of further ones, in which building the sink,
    taking its lock and probing it may succeed, fail, time out or panic: the tick counter
    is the number of cycles, the probe counters are the numbers of cycles that found the
    sink reachable and not, so what is missing are exactly the cycles that measured
    nothing; [reachable] and the presence of an error follow the last cycle that measured
    something; a reachable sink is attached; and a sink that is attached is never replaced. *)
Theorem probe_reports_latest path config metrics waits (w w1 w2 : W) s1 v1 s2 vs :
  me_sink_probe_success metrics = 0 → me_sink_probe_failure metrics = 0 →
  startup_cycle path config metrics w = (w1, Some (s1, v1)) →
  probe_cycles config waits s1 w1 = (w2, (s2, vs)) →
  let cycles := v1 :: vs in
  let last := foldl latest_verdict None cycles in
  Z.of_nat (length cycles) < 2 ^ 64 →
  sr_ticks (ps_reach s2) = Z.of_nat (length cycles) ∧
  me_sink_probe_success (ps_metrics s2) = tally is_success cycles ∧
  me_sink_probe_failure (ps_metrics s2) = tally is_failure cycles ∧
  sr_ticks (ps_reach s2) - me_sink_probe_success (ps_metrics s2) - me_sink_probe_failure (ps_metrics s2) =
    tally measured_nothing cycles ∧
  sr_reachable (ps_reach s2) = bool_decide (last = Some true) ∧
  (sr_last_error (ps_reach s2) = None ↔ last ≠ Some false) ∧
  (last = Some true → is_Some (ps_slot s2)) ∧
  (∀ h, ps_slot s1 = Some h → ps_slot s2 = Some h).
Proof using Type.
  intros H1 H2 Hs Hc cycles last Hlen. pose proof (startup_reports _ _ _ _ _ _ _ Hs H1 H2) as R.
  destruct (probe_cycles_report _ _ _ _ _ _ _ _ _ _ _ Hc R) as [[R1 R2 R3 R4 R5 R6 R7] Hslot].
  pose proof (verdicts_partition cycles) as Hp.
  assert (∀ t : Verdict → bool, one (t v1) + tally t vs = tally t cycles) as Ht.
  { intros t. unfold cycles. by rewrite tally_cons. }
  rewrite Ht in R2, R3.
  assert (1 + Z.of_nat (length vs) = Z.of_nat (length cycles)) as Hl by (unfold cycles; simpl; lia).
  rewrite Hl in R1. pose proof (tally_bounds is_success cycles). pose proof (tally_bounds is_failure cycles).
  rewrite wrap_small in R1, R2, R3 by lia.
  split_and!; [done|done|done|lia|exact R4| |exact R6|exact Hslot].
  change (foldl latest_verdict (latest_verdict None v1) vs) with last in R5.
  split; [intros E|intros E]; [rewrite bool_decide_eq_true_2 in R5 by done|
    rewrite (bool_decide_eq_true_2 (last ≠ _)) in R5 by done].
  - symmetry in R5. by apply bool_decide_eq_true in R5.
  - by apply bool_decide_eq_true in R5.
Qed.
End probe.

(** ** How loudly failures are logged *)

(** The volumes of a run of failures. *)
Fixpoint log_volumes (details : list Str) (f : ConstructionFailures) : list FailureVolume :=
  match details with
  | [] => []
  | d :: rest => let '(f, v) := failures_observe d f in v :: log_volumes rest f
  end.

Definition is_warn (v : FailureVolume) : bool := match v with VolumeWarn => true | _ => false end.

Lemma power_of_two_log2 n : 0 < n → is_power_of_two n = true ↔ n = 2 ^ Z.log2 n.
Proof.
  intros Hn. unfold is_power_of_two. rewrite andb_true_iff, Z.ltb_lt, Z.eqb_eq.
  pose proof (Z.log2_spec n Hn) as Hlog. pose proof (Z.log2_nonneg n) as H0. split.
  - intros [_ Hland]. destruct (Z.eq_dec n (2 ^ Z.log2 n)) as [|Hne]; [done|]. exfalso.
    assert (Z.log2 (n - 1) = Z.log2 n) as Hl by (apply Z.log2_unique; lia).
    assert (Z.testbit (Z.land n (n - 1)) (Z.log2 n) = true) as Hb.
    { rewrite Z.land_spec, Z.bit_log2 by lia. rewrite <-Hl at 1. rewrite Z.bit_log2; [done|].
      pose proof (Z.pow_pos_nonneg 2 (Z.log2 n)). lia. }
    by rewrite Hland, Z.testbit_0_l in Hb.
  - intros Heq. split; [done|]. rewrite Heq.
    replace (2 ^ Z.log2 n - 1) with (Z.ones (Z.log2 n)) by (rewrite Z.ones_equiv; lia).
    by rewrite Z.land_ones, Z.mod_same by lia.
Qed.

(** The logarithm steps up exactly at the powers of two. *)
Lemma log2_step n : 0 < n → Z.log2 (n + 1) = Z.log2 n + one (is_power_of_two (n + 1)).
Proof.
  intros Hn. pose proof (Z.log2_spec n Hn) as Hlog. pose proof (Z.log2_nonneg n).
  destruct (Z.eq_dec (n + 1) (2 ^ Z.succ (Z.log2 n))) as [Heq|Hne].
  - assert (Z.log2 (n + 1) = Z.succ (Z.log2 n)) as Hl by (rewrite Heq; apply Z.log2_pow2; lia).
    assert (is_power_of_two (n + 1) = true) as ->; [|unfold one; lia].
    apply power_of_two_log2; [lia|]. by rewrite Hl.
  - assert (Z.log2 (n + 1) = Z.log2 n) as Hl by (apply Z.log2_unique; lia).
    destruct (is_power_of_two (n + 1)) eqn:Hp; [|unfold one; lia].
    apply power_of_two_log2 in Hp; [|lia]. rewrite Hl in Hp. lia.
Qed.

Lemma volumes_repeat n a d :
  0 < a → a + Z.of_nat n ≤ U32_MAX →
  tally is_warn (log_volumes (replicate n d) (mkConstructionFailures a (Some d))) =
  Z.log2 (a + Z.of_nat n) - Z.log2 a.
Proof.
  revert a. induction n as [|n IH]; intros a Ha Hn; simpl; [rewrite Z.add_0_r; unfold tally; simpl; lia|].
  unfold failures_observe. simpl. rewrite bool_decide_eq_false_2 by naive_solver. simpl.
  unfold saturating_add. rewrite Z.min_r by lia. rewrite tally_cons, IH by lia.
  replace (a + 1 + Z.of_nat n) with (a + Z.of_nat (S n)) by lia.
  rewrite (log2_step a Ha). destruct (is_power_of_two (a + 1)); cbn [is_warn one]; lia.
Qed.

(** A long outage stays visible without one warning per cycle: [n] failures in a row with
    the same cause, up to 2^32 - 1 of them, are logged as [1 + log2 n] warnings, at attempts
    1, 2, 4, 8 and so on; a failure with another cause is always a warning. *)
Theorem outage_warnings n d d' f :
  (1 ≤ n)%nat → Z.of_nat n ≤ U32_MAX →
  tally is_warn (log_volumes (replicate n d) construction_failures_default) = 1 + Z.log2 (Z.of_nat n) ∧
  (cf_last_error f ≠ Some d' → log_volumes [d'] f = [VolumeWarn]).
Proof.
  intros H1 Hn. split.
  - destruct n as [|n]; [lia|]. cbn [replicate log_volumes]. unfold failures_observe at 1.
    cbn [construction_failures_default cf_attempts cf_last_error]. unfold saturating_add.
    rewrite Z.min_r by (unfold U32_MAX; lia). rewrite tally_cons, volumes_repeat by lia.
    replace (0 + 1 + Z.of_nat n) with (Z.of_nat (S n)) by lia.
    change (Z.log2 (0 + 1)) with 0. cbn [is_warn one bool_decide orb].
    rewrite bool_decide_eq_true_2 by done. cbn [is_warn one orb]. lia.
  - intros Hd. simpl. unfold failures_observe. by rewrite bool_decide_eq_true_2 by done.
Qed.

(** ** Witnesses *)

(** A sink that builds and answers at once: the start and two cycles. *)
Definition sample_probe_config : SinkProbeConfig := mkSinkProbeConfig (Some (s! "sink.yaml")) 10 5.

Definition sample_started : Disk * option (ProbeState * Verdict) :=
  startup_cycle disk_read stdout_config disk_open (s! "sink.yaml") sample_probe_config
    (metrics_with_config 0 metrics_config_default) disk_empty.

Lemma probe_reports_latest_witness : ∃ w1 s1 v1 w2 s2 vs,
  sample_started = (w1, Some (s1, v1)) ∧
  probe_cycles disk_read stdout_config disk_open sample_probe_config [id; id] s1 w1 = (w2, (s2, vs)) ∧
  sr_ticks (ps_reach s2) = 3 ∧ sr_ticks (ps_reach s2) = Z.of_nat (length (v1 :: vs)).
Proof.
  assert (match sample_started.2 with
          | Some (s, _) =>
              let r := probe_cycles disk_read stdout_config disk_open sample_probe_config [id; id] s
                         sample_started.1 in
              Some (sr_ticks (ps_reach r.2.1), length r.2.2)
          | None => None
          end = Some (3, 2%nat)) as Hv by (by vm_compute).
  destruct sample_started as [w1 [[s1 v1]|]] eqn:Hs; [|discriminate Hv]. cbn [fst snd] in Hv.
  destruct (probe_cycles _ _ _ _ _ s1 w1) as [w2 [s2 vs]] eqn:Hc. cbn [fst snd] in Hv.
  injection Hv as Ht Hl. exists w1, s1, v1, w2, s2, vs. split; [done|]. split; [done|]. split; [exact Ht|].
  apply (probe_reports_latest disk_read stdout_config disk_open (s! "sink.yaml") sample_probe_config
    (metrics_with_config 0 metrics_config_default) [id; id] disk_empty w1 w2 s1 v1 s2 vs eq_refl eq_refl Hs Hc).
  cbn [length]. rewrite Hl. reflexivity.
Defined.

Lemma outage_warnings_witness :
  tally is_warn (log_volumes (replicate 100 (s! "refused")) construction_failures_default) = 7.
Proof.
  apply (outage_warnings 100 (s! "refused") [] construction_failures_default); [lia|unfold U32_MAX; lia].
Defined.
