(* ===== verification/MetricsTheorems.v ===== *)
(** * The metrics: histograms count what was observed, and samples can be read back *)

From S2P Require Import Prelude Net F64 Model Topology Resolver Sink Tee ProberConfig Pipeline.
From S2P Require Import PipelineFacts Env ServerState SinkProbe Scans ServerFacts ServerMetrics.

(** ** Histograms *)

(** What a histogram of some observations is, counted over all of them at once. *)
Definition shard_of (xs : list f64) : HistogramShard := {|
  hs_buckets := (λ bound, tally (λ x, f64_le x bound) xs) <$> BUCKET_BOUNDS;
  hs_plus_inf := Z.of_nat (length xs);
  hs_sum := foldl f64_add f64_zero xs;
  hs_count := Z.of_nat (length xs);
|}.

Lemma zip_with_fmap_self {A B C} (f : A → B → C) (g : A → B) l :
  zip_with f l (g <$> l) = (λ x, f x (g x)) <$> l.
Proof. induction l as [|x l IH]; [done|]. rewrite !fmap_cons. simpl. by rewrite IH. Qed.

Lemma shard_observe_of xs x :
  Z.of_nat (length xs) + 1 < 2 ^ 64 → shard_observe x (shard_of xs) = shard_of (xs ++ [x]).
Proof.
  intros Hlen. unfold shard_observe, shard_of. cbn [hs_buckets hs_plus_inf hs_sum hs_count].
  rewrite zip_with_fmap_self, length_app, foldl_app. cbn [length foldl].
  unfold fetch_add. rewrite !wrap_small by lia. f_equal; [|lia|lia].
  apply list_fmap_ext. intros _ bound _. rewrite tally_app, tally_cons, tally_nil.
  pose proof (tally_bounds (λ y, f64_le y bound) xs).
  destruct (f64_le x bound); unfold one; rewrite ?wrap_small by lia; lia.
Qed.

(** ** Observations by scenario *)

Abbreviation Observation := (f64 * Str)%type.

Definition observe_all (obs : list Observation) (h : ScenarioHistograms) : ScenarioHistograms :=
  foldl (λ h o, histograms_observe o.1 o.2 h) h obs.

(** The seconds of the observations a label gets ([None]: the catch-all). *)
Definition labelled (h : ScenarioHistograms) (label : option Str) (obs : list Observation) : list f64 :=
  fst <$> List.filter (λ o, bool_decide (resolve_label h o.2 = label)) obs.

Lemma labelled_snoc h label obs o :
  labelled h label (obs ++ [o]) =
  labelled h label obs ++ (if bool_decide (resolve_label h o.2 = label) then [o.1] else []).
Proof. unfold labelled. rewrite List.filter_app, fmap_app. simpl. by destruct (bool_decide _). Qed.

Lemma labelled_length h label obs : (length (labelled h label obs) ≤ length obs)%nat.
Proof. unfold labelled. rewrite length_fmap. apply filter_length_le. Qed.

Lemma resolve_label_allowed h scenario label :
  resolve_label h scenario = Some label → label ∈ sh_allowlist h.
Proof. unfold resolve_label. case_bool_decide; [by intros [= <-]|done]. Qed.

(** The histograms of some observations, each shard counted at once. *)
Definition histograms_of (allowlist : gset Str) (max_length : Z) (obs : list Observation)
    : ScenarioHistograms :=
  let empty := scenario_histograms_new allowlist max_length in
  mkScenarioHistograms (shard_of (fst <$> obs))
    (map_imap (λ label (_ : HistogramShard), Some (shard_of (labelled empty (Some label) obs)))
       (gset_to_gmap shard_new allowlist))
    allowlist (shard_of (labelled empty None obs)) max_length.

Lemma lookup_per_scenario allowlist max_length obs label :
  sh_per_scenario (histograms_of allowlist max_length obs) !! label =
  if bool_decide (label ∈ allowlist)
  then Some (shard_of (labelled (scenario_histograms_new allowlist max_length) (Some label) obs)) else None.
Proof.
  simpl. rewrite map_lookup_imap. case_bool_decide as Hl.
  - by rewrite (proj2 (lookup_gset_to_gmap_Some shard_new allowlist label shard_new)).
  - by rewrite (proj2 (lookup_gset_to_gmap_None shard_new allowlist label)).
Qed.

Lemma observe_of allowlist max_length obs o :
  Z.of_nat (length obs) + 1 < 2 ^ 64 →
  histograms_observe o.1 o.2 (histograms_of allowlist max_length obs) =
  histograms_of allowlist max_length (obs ++ [o]).
Proof.
  intros Hlen. set (empty := scenario_histograms_new allowlist max_length).
  assert (∀ label, Z.of_nat (length (labelled empty label obs)) + 1 < 2 ^ 64) as Hl.
  { intros label. pose proof (labelled_length empty label obs). lia. }
  unfold histograms_observe.
  change (resolve_label (histograms_of allowlist max_length obs) o.2) with (resolve_label empty o.2).
  destruct (resolve_label empty o.2) as [label|] eqn:Hr.
  - pose proof (resolve_label_allowed _ _ _ Hr) as Ha. change (sh_allowlist empty) with allowlist in Ha.
    rewrite lookup_per_scenario, bool_decide_eq_true_2 by done. cbn [default from_option id].
    fold empty. rewrite shard_observe_of by apply Hl.
    symmetry. unfold histograms_of at 1. fold empty. symmetry. f_equal.
    + simpl. rewrite shard_observe_of by (by rewrite length_fmap). by rewrite fmap_app.
    + apply map_eq. intros l.
      pose proof (lookup_per_scenario allowlist max_length (obs ++ [o]) l) as Hnew. simpl in Hnew.
      fold empty in Hnew. rewrite Hnew, labelled_snoc, Hr.
      destruct (decide (l = label)) as [->|Hne].
      * rewrite lookup_insert_eq. by rewrite !bool_decide_eq_true_2 by done.
      * rewrite lookup_insert_ne by done. rewrite lookup_per_scenario. fold empty.
        rewrite (bool_decide_eq_false_2 (Some label = Some l)) by congruence. by rewrite app_nil_r.
    + simpl. by rewrite labelled_snoc, Hr, app_nil_r.
  - symmetry. unfold histograms_of at 1. fold empty. symmetry. f_equal.
    + simpl. rewrite shard_observe_of by (by rewrite length_fmap). by rewrite fmap_app.
    + apply map_eq. intros l.
      pose proof (lookup_per_scenario allowlist max_length (obs ++ [o]) l) as Hnew. simpl in Hnew.
      fold empty in Hnew. rewrite Hnew, labelled_snoc, Hr, lookup_per_scenario. fold empty.
      by rewrite (bool_decide_eq_false_2 (None = Some l)), app_nil_r.
    + simpl. fold empty. rewrite shard_observe_of by apply Hl.
      by rewrite labelled_snoc, Hr, bool_decide_eq_true_2.
Qed.

(** ** Cumulative buckets *)

Lemma f64_le_not_nan x y : f64_le x y = true → is_nan x = false ∧ is_nan y = false.
Proof. destruct x as [[]|[]| |[] ? ?], y as [[]|[]| |[] ? ?]; done. Qed.

Lemma f64_le_trans x y z : f64_le x y = true → f64_le y z = true → f64_le x z = true.
Proof.
  intros H1 H2. destruct (f64_le_not_nan _ _ H1) as [Hx Hy], (f64_le_not_nan _ _ H2) as [_ Hz].
  apply f64_le_key in H1; [|done|done]. apply f64_le_key in H2; [|done|done].
  apply f64_le_key; [done|done|]. unfold key_lt in *. lia.
Qed.

Lemma bounds_increase : Sorted (λ a b, f64_le a b = true) BUCKET_BOUNDS.
Proof. repeat first [apply Sorted_nil|apply Sorted_cons|apply HdRel_nil|apply HdRel_cons]; by vm_compute. Qed.

Lemma buckets_increase xs : Sorted Z.le (hs_buckets (shard_of xs)).
Proof.
  simpl. change (Sorted Z.le ((λ bound, tally (λ x, f64_le x bound) xs) <$> BUCKET_BOUNDS)).
  induction bounds_increase as [|a l _ IH Hhd]; [constructor|]. rewrite fmap_cons. constructor; [done|].
  destruct Hhd as [|b l Hab]; [constructor|]. rewrite fmap_cons. constructor.
  apply tally_le. intros x Hx. by eapply f64_le_trans.
Qed.

(** The duration histograms are exact and their labels bounded. After any sequence of
    observations, fewer than 2^64 of them, the state the server keeps by increments equals
    the one counted over all of them: each bucket holds the observations at or under its
    bound, so buckets grow with their bounds; every observation is in the aggregate and in
    exactly one other shard, that of its scenario when the (possibly cut) name is allowed
    and the catch-all otherwise; and the labels are those of the allow-list and no others. *)
Theorem durations_partitioned allowlist max_length obs :
  Z.of_nat (length obs) < 2 ^ 64 →
  let h := observe_all obs (scenario_histograms_new allowlist max_length) in
  h = histograms_of allowlist max_length obs ∧
  dom (sh_per_scenario h) = allowlist ∧
  Sorted Z.le (hs_buckets (sh_all h)) ∧
  hs_count (sh_all h) = Z.of_nat (length obs).
Proof.
  intros Hlen. cbv zeta.
  assert (observe_all obs (scenario_histograms_new allowlist max_length) =
          histograms_of allowlist max_length obs) as ->.
  { revert Hlen. induction obs as [|o obs IH] using rev_ind; intros Hlen.
    - unfold observe_all, histograms_of, scenario_histograms_new. simpl. f_equal.
      apply map_eq. intros l. rewrite map_lookup_imap. by destruct (gset_to_gmap _ _ !! l) eqn:E;
        [apply lookup_gset_to_gmap_Some in E as [_ <-]|].
    - rewrite length_app in Hlen. cbn [length] in Hlen. unfold observe_all in *. rewrite foldl_app. cbn [foldl].
      rewrite IH by lia. apply observe_of. lia. }
  split_and!; [done| |apply buckets_increase|simpl; by rewrite length_fmap].
  apply set_eq. intros l. rewrite elem_of_dom, lookup_per_scenario.
  case_bool_decide; split; naive_solver.
Qed.

(** ** Reading samples back *)

(** The value of an escape in the exposition format. *)
Definition unescape_char (c : Z) : Z := if c =? 110 then LINE_FEED else c.

(** A label value up to its closing quote, and what follows it. *)
Fixpoint read_quoted (s : Str) : option (Str * Str) :=
  match s with
  | [] => None
  | c :: rest =>
      if c =? QUOTE then Some ([], rest)
      else if c =? BACKSLASH then
        match rest with
        | [] => None
        | e :: rest => '(value, tail) ← read_quoted rest; Some (unescape_char e :: value, tail)
        end
      else '(value, tail) ← read_quoted rest; Some (c :: value, tail)
  end.

(** Labels up to the closing brace. *)
Fixpoint read_labels (fuel : nat) (s : Str) : option (list Label * Str) :=
  match fuel with
  | O => None
  | S fuel =>
      '(key, rest) ← split_once 61 s;
      match rest with
      | q :: rest =>
          if q =? QUOTE then
            '(value, rest) ← read_quoted rest;
            match rest with
            | c :: rest =>
                if c =? 44 then '(labels, tail) ← read_labels fuel rest; Some ((key, value) :: labels, tail)
                else if c =? 125 then Some ([(key, value)], rest)
                else None
            | [] => None
            end
          else None
      | [] => None
      end
  end.

(** A sample line: the name, the labels and the text of the value. *)
Definition read_sample (line : Str) : option (Str * list Label * Str) :=
  '(line, rest) ← split_once LINE_FEED line;
  if negb (is_empty rest) then None
  else
    match split_once 123 line with
    | Some (name, rest) =>
        '(labels, rest) ← read_labels (length rest) rest;
        match rest with
        | c :: value => if c =? 32 then Some (name, labels, value) else None
        | [] => None
        end
    | None => '(name, value) ← split_once 32 line; Some (name, [], value)
    end.

Lemma read_quoted_escape e s :
  read_quoted (BACKSLASH :: e :: s) = '(value, tail) ← read_quoted s; Some (unescape_char e :: value, tail).
Proof. done. Qed.

Lemma read_quoted_plain c s :
  c ≠ QUOTE → c ≠ BACKSLASH →
  read_quoted (c :: s) = '(value, tail) ← read_quoted s; Some (c :: value, tail).
Proof. intros Hq%Z.eqb_neq Hb%Z.eqb_neq. cbn [read_quoted]. by rewrite Hq, Hb. Qed.

Lemma read_quoted_escaped v tail : read_quoted (escape_label v ++ QUOTE :: tail) = Some (v, tail).
Proof.
  induction v as [|c v IH]; [done|]. unfold escape_label in *. rewrite fmap_cons, mjoin_cons, <-app_assoc.
  unfold escape_char at 1.
  destruct (Z.eqb_spec c BACKSLASH) as [->|Hb]; [cbn [app]; by rewrite read_quoted_escape, IH|].
  destruct (Z.eqb_spec c QUOTE) as [->|Hq]; [cbn [app]; by rewrite read_quoted_escape, IH|].
  destruct (Z.eqb_spec c LINE_FEED) as [->|Hl]; [cbn [app]; by rewrite read_quoted_escape, IH|].
  cbn [app]. by rewrite read_quoted_plain, IH.
Qed.

(** The text after the opening brace. *)
Definition labels_tail (l : Label) (rest : list Label) (tail : Str) : Str :=
  label_text l ++ mjoin ((λ l, [44] ++ label_text l) <$> rest) ++ [125] ++ tail.

Lemma read_labels_written fuel l rest tail :
  (length rest < fuel)%nat → Forall (λ l : Label, 61 ∉ l.1) (l :: rest) →
  read_labels fuel (labels_tail l rest tail) = Some (l :: rest, tail).
Proof.
  revert fuel l. induction rest as [|l' rest IH]; intros fuel [k v] Hf Hk; destruct fuel as [|fuel]; try (cbn in Hf; lia);
    apply Forall_cons in Hk as [Hk Hrest]; unfold labels_tail; unfold label_text at 1;
    cbn [fst snd]; rewrite <-!app_assoc; cbn [read_labels app]; rewrite split_once_app by done;
    cbn [mbind option_bind]; rewrite Z.eqb_refl.
  - rewrite read_quoted_escaped. done.
  - rewrite fmap_cons, mjoin_cons, read_quoted_escaped. cbn [mbind option_bind app].
    change (44 =? 44) with true. cbn [length] in Hf.
    specialize (IH fuel l' ltac:(lia) Hrest). unfold labels_tail in IH. cbn [app] in IH. rewrite <-!app_assoc.
    cbn iota. rewrite IH. done.
Qed.

(** A name or a label key: not one of the characters that end it. *)
Definition plain_name (s : Str) : Prop := 61 ∉ s ∧ 123 ∉ s ∧ 32 ∉ s ∧ 10 ∉ s.

Lemma escape_label_no_newline v : LINE_FEED ∉ escape_label v.
Proof.
  unfold escape_label. intros Hin. apply list_elem_of_join in Hin as (e & Hin & He).
  apply list_elem_of_fmap in He as (c & -> & _). revert Hin. unfold escape_char.
  destruct (Z.eqb_spec c BACKSLASH); [by vm_compute; set_solver|].
  destruct (Z.eqb_spec c QUOTE); [by vm_compute; set_solver|].
  destruct (Z.eqb_spec c LINE_FEED); [by vm_compute; set_solver|]. set_solver.
Qed.

Lemma label_text_no_newline l : plain_name l.1 → LINE_FEED ∉ label_text l.
Proof.
  intros (_ & _ & _ & Hk). unfold label_text. rewrite !not_elem_of_app.
  split_and!; [done|by vm_compute; set_solver|apply escape_label_no_newline|by vm_compute; set_solver].
Qed.

Lemma label_set_no_newline labels :
  Forall (λ l : Label, plain_name l.1) labels → LINE_FEED ∉ label_set labels.
Proof.
  destruct 1 as [|l labels Hl Hall]; [apply not_elem_of_nil|]. unfold label_set. rewrite !not_elem_of_app.
  split_and!; [by vm_compute; set_solver|by apply label_text_no_newline| |by vm_compute; set_solver].
  induction Hall as [|l' labels Hl' _ IH]; [apply not_elem_of_nil|].
  rewrite fmap_cons, mjoin_cons, !not_elem_of_app.
  split_and!; [by vm_compute; set_solver|by apply label_text_no_newline|done].
Qed.

(** A sample can be read back whatever its labels hold: reading the line written for a
    metric, with a name and label keys free of the format's delimiters and a value that
    writes as one line without a brace, as numbers do, returns the name, the labels and the value, also when label values
    contain quotes, backslashes or line feeds; the line has one line feed, at its end. *)
Theorem sample_round_trip {FD : F64Display} name labels v :
  plain_name name → Forall (λ l : Label, plain_name l.1) labels →
  LINE_FEED ∉ value_text v → 123 ∉ value_text v →
  read_sample (write_sample name labels v) = Some (name, labels, value_text v).
Proof.
  intros (Hn1 & Hn2 & Hn3 & Hn4) Hl Hv Hb. unfold read_sample, write_sample.
  rewrite !app_assoc, split_once_app.
  2:{ rewrite !not_elem_of_app. split_and!; [done|by apply label_set_no_newline| |done].
      by vm_compute; set_solver. }
  cbn [mbind option_bind is_empty negb]. rewrite <-!app_assoc.
  destruct Hl as [|l labels Hl Hall]; cbn [label_set app].
  - rewrite (proj2 (split_once_None 123 _)); [by rewrite split_once_app|].
    rewrite not_elem_of_app, not_elem_of_cons. done.
  - rewrite split_once_app by done. rewrite <-!app_assoc. cbn [app].
    change (label_text l ++ mjoin ((λ l0, 44 :: label_text l0) <$> labels) ++ 125 :: 32 :: value_text v)
      with (labels_tail l labels (32 :: value_text v)).
    rewrite read_labels_written; [done| |].
    + unfold labels_tail, label_text at 1. rewrite !length_app.
      assert (Nat.le (length labels) (length (mjoin ((λ l0, [44] ++ label_text l0) <$> labels)))).
      { clear. induction labels as [|l labels IH]; [done|].
        rewrite fmap_cons, mjoin_cons, !length_app. cbn [length]. lia. }
      cbn [length]. lia.
    + apply Forall_cons. split; [apply Hl|]. eapply Forall_impl; [exact Hall|]. by intros l' [].
Qed.

(** Of the histogram's lines that is not so: a scenario name goes into them unescaped, and
    one with a quote cannot be read back. *)
Example duration_line_unescaped :
  read_sample (duration_line "count" (s! "lab" ++ [QUOTE; 125]) None (s! "3")) = None.
Proof. by vm_compute. Qed.

(** ** Witnesses *)

Definition sample_obs : list Observation :=
  [(f64_ratio 3 10, s! "lab"); (f64_of_Z 7, s! "unknown"); (f64_ratio 1 1000, s! "laboratory")].

Lemma durations_partitioned_witness :
  observe_all sample_obs (scenario_histograms_new {[s! "lab"]} 3) =
    histograms_of {[s! "lab"]} 3 sample_obs ∧
  (hs_count <$> sh_per_scenario (histograms_of {[s! "lab"]} 3 sample_obs) !! s! "lab") = Some 2.
Proof.
  split; [|by vm_compute].
  apply (durations_partitioned {[s! "lab"]} 3 sample_obs). reflexivity.
Defined.

Lemma sample_round_trip_witness :
  read_sample (write_sample (FD := plain_display) (s! "up")
    [(s! "version", [QUOTE; LINE_FEED; BACKSLASH])] (MvU64 42)) =
  Some (s! "up", [(s! "version", [QUOTE; LINE_FEED; BACKSLASH])], s! "42").
Proof.
  apply (sample_round_trip (FD := plain_display) (s! "up")
    [(s! "version", [QUOTE; LINE_FEED; BACKSLASH])] (MvU64 42)).
  - split_and!; apply (bool_decide_unpack _); by vm_compute.
  - repeat constructor; apply (bool_decide_unpack _); by vm_compute.
  - apply (bool_decide_unpack _); by vm_compute.
  - apply (bool_decide_unpack _); by vm_compute.
Defined.
