(* ===== verification/Output.v ===== *)
(** * What the command line prints besides records: [src/rastreo/src/cli/output/]

    Verbosity and where the records land decide what may be printed; durations, counts and rates
    for people; hints, banners, the progress line. A printer gives the lines it writes, each with
    its stream. The colours are a third-party library's: a parameter. Durations are nanoseconds. *)

From S2P Require Import Prelude Net F64 Model Sink SinkConfig Encoder Codec Pipeline Plan ServerState Scans Cli Timestamp.

(** ** Streams *)

Inductive Channel : Type := Stdout | Stderr.
Definition Line : Type := Channel * Str.

(** ** Numbers for people: [humanize.rs] *)

(** [{:02}]. *)
Definition fmt_02 (n : Z) : Str := if n <? 10 then 48 :: fmt_dec n else fmt_dec n.

Definition duration (d : Z) : Str :=
  let ms := d / 1000000 in
  if ms <? 1000 then fmt_dec ms ++ s! "ms"
  else
    let tenths := (ms + 50) / 100 in
    if tenths <? 600 then fmt_dec (tenths / 10) ++ s! "." ++ fmt_dec (tenths mod 10) ++ s! "s"
    else
      let secs := (ms + 500) / 1000 in
      if secs <? 3600 then fmt_dec (secs / 60) ++ s! "m" ++ fmt_02 (secs mod 60) ++ s! "s"
      else
        let mins := (secs + 30) / 60 in
        fmt_dec (mins / 60) ++ s! "h" ++ fmt_02 (mins mod 60) ++ s! "m".

(** The loop of [count]: a comma before every third digit from [lead]. *)
Fixpoint group_digits (i lead : nat) (digits : Str) : Str :=
  match digits with
  | [] => []
  | c :: rest =>
      (if (0 <? i)%nat && (i mod 3 =? lead)%nat then [44] else []) ++ c :: group_digits (S i) lead rest
  end.

Definition count (n : Z) : Str :=
  let digits := fmt_dec n in group_digits 0 (length digits mod 3) digits.

(** A finite non-negative number as a fraction. *)
Definition f64_fraction (x : f64) : Z * Z :=
  match x with
  | S754_finite _ m e => (Zpos m * 2 ^ Z.max e 0, 2 ^ Z.max (- e) 0)
  | _ => (0, 1)
  end.

(** [f64::round], half away from zero, [as usize], which saturates. *)
Definition f64_round_usize (x : f64) : Z :=
  match x with
  | S754_infinity false => USIZE_MAX
  | _ => let '(num, den) := f64_fraction x in Z.min USIZE_MAX ((2 * num + den) / (2 * den))
  end.

(** The nearest integer to a fraction, the even one of two. *)
Definition half_even (num den : Z) : Z :=
  let q := num / den in
  let r := 2 * (num mod den) in
  if r <? den then q else if den <? r then q + 1 else if Z.even q then q else q + 1.

(** [{:.1}]. *)
Definition f64_one_decimal (x : f64) : Str :=
  let '(num, den) := f64_fraction x in
  let tenths := half_even (num * 10) den in
  fmt_dec (tenths / 10) ++ s! "." ++ fmt_dec (tenths mod 10).

Definition rate (n d : Z) : Str :=
  let secs := as_secs_f64 d in
  if f64_le secs f64_zero then s! "-"
  else
    let per_sec := SFdiv f64_prec f64_emax (f64_of_Z n) secs in
    if f64_le (f64_of_Z 10) per_sec then count (f64_round_usize per_sec) ++ s! "/s"
    else f64_one_decimal per_sec ++ s! "/s".

(** ** Where the records land: [destination.rs], [width.rs] *)

Inductive RecordDestination : Type := Separate | SharedTerminal | SharedCapture.

#[global] Instance RecordDestination_eq_dec : EqDecision RecordDestination.
Proof. solve_decision. Defined.

Definition is_shared (d : RecordDestination) : bool := negb (bool_decide (d = Separate)).

(** [classify]. *)
Definition classify_destination (records_on_stdout one_file stderr_is_terminal : bool) : RecordDestination :=
  if negb records_on_stdout || negb one_file then Separate
  else if stderr_is_terminal then SharedTerminal else SharedCapture.

Definition one_file (identity : option bool) : bool := default true identity.

(** Devices and inodes of the two streams, where they can be read. *)
Definition same_file (a b : option (Z * Z)) : option bool := a ← a; b ← b; Some (bool_decide (a = b)).

(** What the process sees of its streams. *)
Record Streams : Type := mkStreams {
  st_stdout_id : option (Z * Z);
  st_stderr_id : option (Z * Z);
  st_stderr_terminal : bool;
}.

Definition record_destination (s : Streams) (records_on_stdout : bool) : RecordDestination :=
  classify_destination records_on_stdout (one_file (same_file (st_stdout_id s) (st_stderr_id s))) (st_stderr_terminal s).

Definition table_width (measured : option Z) : Z := default (Z.of_nat default_width) measured.

(** ** What may be printed: [mod.rs] *)

Inductive Verbosity : Type := Quiet | Normal | Verbose.

#[global] Instance Verbosity_eq_dec : EqDecision Verbosity.
Proof. solve_decision. Defined.

Definition from_flags (quiet : bool) (verbose : Z) : Verbosity :=
  if quiet then Quiet else if 0 <? verbose then Verbose else Normal.

Definition verbosity_prints_chrome (v : Verbosity) : bool := negb (bool_decide (v = Quiet)).
Definition verbosity_prints_detail (v : Verbosity) : bool := bool_decide (v = Verbose).

Record OutputMode : Type := mkOutputMode {
  om_verbosity : Verbosity;
  om_machine_output : bool;
  om_destination : RecordDestination;
}.

Definition output_mode_new (verbosity : Verbosity) (machine_output : bool) : OutputMode :=
  mkOutputMode verbosity machine_output Separate.

Definition with_record_destination (mode : OutputMode) (destination : RecordDestination) : OutputMode :=
  mkOutputMode (om_verbosity mode) (om_machine_output mode) destination.

Definition would_land_in_the_record_stream (mode : OutputMode) : bool :=
  om_machine_output mode && bool_decide (om_destination mode = SharedCapture).

Definition prints_chrome (mode : OutputMode) : bool :=
  verbosity_prints_chrome (om_verbosity mode) && negb (would_land_in_the_record_stream mode) &&
  (negb (om_machine_output mode) || bool_decide (om_verbosity mode = Verbose)).

Definition prints_advisories (mode : OutputMode) : bool :=
  verbosity_prints_chrome (om_verbosity mode) && negb (would_land_in_the_record_stream mode).

Definition prints_refusal_hints (mode : OutputMode) : bool := verbosity_prints_chrome (om_verbosity mode).

Definition prints_detail (mode : OutputMode) : bool := verbosity_prints_detail (om_verbosity mode).

(** ** The log filter: [main.rs] *)

Definition default_level (verbose : Z) (quiet : bool) : Str :=
  if quiet then s! "error" else if verbose =? 0 then s! "info" else if verbose =? 1 then s! "debug" else s! "trace".

(** [parses] is whether the filter library accepts a directive. *)
Definition filter_directive (parses : Str → bool) (verbose : Z) (quiet : bool) (rust_log : option Str) : Str :=
  match rust_log with
  | Some directive =>
      if negb quiet && (verbose =? 0) && negb (is_empty directive) && parses directive
      then directive else default_level verbose quiet
  | None => default_level verbose quiet
  end.

(** ** Colours and glyphs: [theme.rs] *)

Inductive Role : Type := RLabel | RValue | RName | ROk | RDone | RWarn | RErr.

Record Glyphs : Type := mkGlyphs { gl_start : Str; gl_done : Str; gl_warn : Str; gl_bullet : Str; gl_arrow : Str }.

Definition UNICODE : Glyphs := mkGlyphs [9654] [9632] [9888] [8226] [8594].
Definition ASCII : Glyphs := mkGlyphs (s! ">") (s! "#") (s! "!") (s! "*") (s! "->").

(** [str::contains]. *)
Fixpoint str_contains (needle s : Str) : bool :=
  bool_decide (needle `prefix_of` s) || match s with [] => false | _ :: rest => str_contains needle rest end.

Definition glyphs_for (ascii_override locale : option Str) : Glyphs :=
  let ascii := match ascii_override with
               | Some v => negb (is_empty v) && negb (bool_decide (v = s! "0"))
               | None => false
               end in
  if ascii then ASCII
  else match locale with
       | None => UNICODE
       | Some l =>
           let l := to_ascii_lowercase l in
           if str_contains (s! "utf-8") l || str_contains (s! "utf8") l then UNICODE else ASCII
       end.

(** [glyphs]: the first locale variable that is set and not empty. *)
Definition glyphs (env : Str → option Str) : Glyphs :=
  let locale := find_map (λ k, v ← env k; if is_empty v then None else Some v)
                  [s! "LC_ALL"; s! "LC_CTYPE"; s! "LANG"] in
  glyphs_for (env (s! "RASTREO_ASCII")) locale.

Definition ERASE_LINE : Str := [13; 27; 91; 75].

(** ** The texts of errors: [error.rs], [sink/mod.rs] *)

Section error_text.
(** The message of a foreign error and those of its sources. *)
Context `{FE : ForeignErrors} (net_levels : NetError → Str * list Str) (io_levels : IoError → Str * list Str)
  (json_levels : JsonError → Str * list Str) (regex_levels : RegexError → Str * list Str).

(** The first level that does not contain the text of the one below. *)
Fixpoint first_non_restating_level (level : Str) (below : list Str) : Str * list Str :=
  match below with
  | next :: rest => if str_contains next level then first_non_restating_level next rest else (level, below)
  | [] => (level, [])
  end.

(** [DnsFailure]: its text and its sources. *)
Definition dns_failure_levels (err : NetError) : list Str :=
  let '(level, below) := net_levels err in
  let '(level, below) := first_non_restating_level level below in level :: below.

Definition chain (levels : Str * list Str) : list Str := levels.1 :: levels.2.

Definition config_error_text (e : ConfigError) : Str :=
  match e with
  | InvalidValue msg => msg
  | UnknownProbeKind name available =>
      s! "unknown probe kind '" ++ name ++ s! "'; available in this build: " ++ available
  | ProbeKindNotCompiled kind feature =>
      s! "probe kind '" ++ kind ++ s! "' requires the '" ++ feature ++
      s! "' Cargo feature, which this binary was not built with"
  | ProbeKindMissingParam kind param => s! "probe kind '" ++ kind ++ s! "' requires " ++ param
  | EmptyProbeSelection => s! "no probe kinds selected"
  | UnknownFuserKind name available => s! "unknown fuser '" ++ name ++ s! "'; available in this build: " ++ available
  | FuserKindNotCompiled kind feature =>
      s! "fuser '" ++ kind ++ s! "' requires the '" ++ feature ++
      s! "' Cargo feature, which this binary was not built with"
  | UnknownClassifierKind name available => s! "unknown classifier '" ++ name ++ s! "'; available: " ++ available
  end.

(** The text of an error and those of its sources. *)
Definition resolver_error_levels (e : ResolverError) : Str * list Str :=
  match e with
  | DnsLookupFailed name source => (s! "DNS lookup failed for " ++ name, dns_failure_levels source)
  | DnsNoRecords name => (s! "DNS lookup returned no records for " ++ name, [])
  | UnqueryableTargetName name =>
      (s! "target name " ++ name ++ s! " is neither a DNS name nor an IP address, so it was never looked up", [])
  | CidrTooLarge cidr hosts limit =>
      (s! "CIDR " ++ cidr ++ s! " expands to " ++ fmt_dec hosts ++ s! " hosts; exceeds the configured limit of " ++
       fmt_dec limit, [])
  | RangeTooLarge start stop hosts limit =>
      (s! "IP range " ++ start ++ s! "..=" ++ stop ++ s! " spans " ++ fmt_dec hosts ++
       s! " addresses; exceeds the configured limit of " ++ fmt_dec limit, [])
  | InvalidRange start stop => (s! "IP range is invalid: start " ++ start ++ s! " > end " ++ stop, [])
  | MixedFamilyRange start stop => (s! "IP range mixes IPv4 and IPv6: start " ++ start ++ s! " end " ++ stop, [])
  | TargetNotAllowed ip => (s! "target " ++ ip_display ip ++ s! " is outside the configured allow-list", [])
  | AggregateHostCapExceeded hosts limit =>
      (s! "scan resolves to " ++ fmt_dec hosts ++ s! " hosts; exceeds the configured aggregate limit of " ++
       fmt_dec limit, [])
  end.

Definition encoder_error_levels (e : EncoderError) : Str * list Str :=
  match e with
  | SerializationFailed source => (s! "serialization failed", chain (json_levels source))
  | NotSupported msg | OtherEncoder msg => (msg, [])
  end.

Definition runtime_error_text (e : RuntimeError) : Str :=
  match e with
  | TaskPanicked reason => s! "task panicked: " ++ reason
  | TaskAborted reason => s! "task aborted: " ++ reason
  end.

Definition classifier_error_levels (e : ClassifierError) : Str * list Str :=
  match e with
  | InvalidRegex pattern source => (s! "invalid regex `" ++ pattern ++ s! "`", chain (regex_levels source))
  | InvalidPlatformRule msg => (s! "invalid platform rule: " ++ msg, [])
  | InvalidRoleRule msg => (s! "invalid role rule: " ++ msg, [])
  end.

Definition resume_error_levels (e : ResumeError) : Str * list Str :=
  match e with
  | IdentityFuserNotResumable =>
      (s! "scenario is not resume-safe: the identity fuser correlates records across the whole scan, which cannot be reconstructed from a partial checkpoint prefix", [])
  | SecondStreamProberNotResumable kind =>
      (s! "scenario is not resume-safe: the " ++ kind ++
       s! " prober feeds a second stream that cannot be replayed from a checkpoint", [])
  | SinkNotResumable sink =>
      (s! "scenario is not resume-safe: the " ++ sink ++
       s! " sink has no durable append destination to resume into", [])
  | FingerprintMismatch =>
      (s! "checkpoint does not match the current scenario: the target sequence or append destination changed, so resuming would produce a different scan or append to the wrong destination", [])
  | NoCheckpointToResume path =>
      (s! "no checkpoint to resume at " ++ path ++
       s! "; resuming continues a checkpoint an earlier run wrote to this path", [])
  | CorruptCheckpoint path =>
      (s! "checkpoint at " ++ path ++ s! " is unreadable or corrupt; delete it to restart the scan from zero", [])
  | UnknownVersion found expected =>
      (s! "checkpoint has version " ++ fmt_dec found ++ s! ", but this build understands version " ++
       fmt_dec expected ++ s! "; delete the checkpoint file to restart the scan from zero", [])
  | CheckpointExists path =>
      (s! "a checkpoint already exists at " ++ path ++ s! "; remove it to start a fresh scan", [])
  | Persist path source => (s! "checkpoint could not be written to " ++ path, chain (io_levels source))
  end.

(** Every variant is transparent: its text and its sources are those of the error it holds. *)
Definition rastreo_error_levels (e : RastreoError) : Str * list Str :=
  match e with
  | EConfig e => (config_error_text e, [])
  | EProbe msg => (msg, [])
  | EResolver e => resolver_error_levels e
  | EEncoder e => encoder_error_levels e
  | ESink e => (s! "output sink failed", chain (io_levels (se_source e)))
  | ERuntime e => (runtime_error_text e, [])
  | EClassifier e => classifier_error_levels e
  | EResume e => resume_error_levels e
  | EReport path source => (s! "run report could not be written to " ++ path, chain (io_levels source))
  end.

(** What stands for the texts of errors elsewhere. *)
Definition display_levels : ErrorDisplay := λ e, (rastreo_error_levels e).1.
Definition source_levels : ErrorSources := λ e, (rastreo_error_levels e).2.
End error_text.

(** ** Hints: [hints.rs], with [scan_error_hint] of [discover.rs] *)

Definition FEATURE_GATED_VARIANTS : list (Str * Str) :=
  (λ name, (name, name)) <$>
  [s! "http"; s! "snmp"; s! "arp"; s! "ndp"; s! "ssh"; s! "icmp"; s! "tls"; s! "mib_enrichment"].

Definition RELEASE_BUNDLED_FEATURES : Str := s! "kafka, http, snmp, arp, ndp, nats, ssh, icmp, tls, gnmi, lldp".

Definition DNS_RESOLUTION_HINT : Str :=
  s! "DNS resolution failed for the target. Check the resolver configuration or the target's hostname.".

Definition SCAN_ERROR_HINT_PATTERNS : list (Str * Str) :=
  [(s! "dns lookup failed", DNS_RESOLUTION_HINT); (s! "no records", DNS_RESOLUTION_HINT)].

Definition enrich_scan_error_hint `{UnicodeCase} (error_msg : Str) : option Str :=
  let lower := str_to_lowercase error_msg in
  find_map (λ '(needle, hint), if str_contains needle lower then Some hint else None) SCAN_ERROR_HINT_PATTERNS.

Definition resume_hint `{ForeignErrors} (err : RastreoError) : option Str :=
  match err with
  | EResume (NoCheckpointToResume _) =>
      Some (s! "--resume continues a checkpoint an earlier --checkpoint run wrote. Drop --resume to scan from zero.")
  | _ => None
  end.

Definition scan_error_hint `{UnicodeCase} `{FE : ForeignErrors} `{ED : !ErrorDisplay} `{ES : !ErrorSources} (err : RastreoError) : option Str :=
  match resume_hint err with
  | Some hint => Some hint
  | None => enrich_scan_error_hint (render_error_chain err)
  end.

Definition runtime_probe_hint (summary : DiscoverySummary) : option Str :=
  fault ← ds_first_probe_error summary; hint_for_error_kind (pf_kind fault).

Definition ZERO_RECORDS_HINT : Str :=
  s! "0 records emitted " ++ [8212] ++
  s! " no probe reached an open port. Check target reachability and port list.".

Definition runtime_hint_line (summary : DiscoverySummary) : option Str :=
  if ds_cancelled summary then None
  else match ds_first_probe_error summary with
       | Some _ => runtime_probe_hint summary
       | None =>
           if (ds_records_emitted summary =? 0)%nat && (0 <? ds_probe_attempts summary)%nat
           then Some ZERO_RECORDS_HINT else None
       end.

Definition rebuild_hint (name feature : Str) : Str :=
  s! "'" ++ name ++ s! "' requires the '" ++ feature ++ s! "' Cargo feature. Rebuild with --features " ++ feature ++
  s! " or use the release Docker image which bundles " ++ RELEASE_BUNDLED_FEATURES ++ s! ".".

(** What follows the first occurrence of a needle. *)
Fixpoint after_needle (needle s : Str) : option Str :=
  match strip_prefix needle s with
  | Some rest => Some rest
  | None => match s with [] => None | _ :: rest => after_needle needle rest end
  end.

(** What is before the first of a character, when there is one. *)
Fixpoint before_char (c : Z) (s : Str) : option Str :=
  match s with
  | [] => None
  | c' :: rest => if c' =? c then Some [] else cons c' <$> before_char c rest
  end.

Definition enrich_feature_hint (error_msg : Str) : option Str :=
  rest ← after_needle (s! "unknown variant `") error_msg;
  variant ← before_char 96 rest;
  feature ← find_map (λ '(name, feat), if bool_decide (name = variant) then Some feat else None) FEATURE_GATED_VARIANTS;
  Some (rebuild_hint variant feature).

Definition NOTHING_TO_PROBE_HINT : Str :=
  s! "Either the network answered that these names have no addresses, or they are not names a DNS query can carry: a port, brackets, or a zone suffix in a hostname. Check the target list for typos, then the resolver configuration.".

Section printers.
(** [if_supports_color] of the colour library, and the glyphs of the environment. *)
Context (paint : Role → Str → Str) (g : Glyphs).

Definition sep : Str := paint RLabel (s! " | ").

Definition hint_line (hint : Str) : Str := paint RWarn (gl_warn g) ++ s! " " ++ paint RLabel (s! "hint:") ++ s! " " ++ hint.
Definition note_line (note : Str) : Str := paint RLabel (gl_bullet g) ++ s! " " ++ paint RLabel (s! "note:") ++ s! " " ++ note.

Definition print_hint (hint : Str) (mode : OutputMode) : list Line :=
  if prints_advisories mode then [(Stderr, hint_line hint)] else [].

Definition print_refusal_hint (hint : Str) (mode : OutputMode) : list Line :=
  if prints_refusal_hints mode then [(Stderr, hint_line hint)] else [].

Definition print_runtime_hints (summary : DiscoverySummary) (mode : OutputMode) : list Line :=
  match runtime_hint_line summary with Some hint => print_hint hint mode | None => [] end.

Definition print_note (note : Str) (mode : OutputMode) : list Line :=
  if prints_advisories mode then [(Stderr, note_line note)] else [].

(** ** Banners: [banner.rs] *)

Definition DETAIL_LABEL_WIDTH : nat := 14.

Definition segment (label value : Str) : Str := paint RLabel label ++ s! " " ++ paint RValue value.

Definition start_line (plan : ScenarioPlan) (target_specs : nat) : Str :=
  let probers := if is_empty (pl_probers plan) then s! "<none>" else join (s! ", ") (pl_probers plan) in
  let segments :=
    [segment (s! "targets:") (fmt_dec (Z.of_nat target_specs));
     segment (s! "probes:") probers;
     segment (s! "concurrency:") (fmt_dec (kn_max_concurrent (pl_knobs plan)));
     segment (s! "timeout:") (fmt_dec (kn_timeout_ms (pl_knobs plan)) ++ s! "ms");
     segment (s! "sink:") (pl_sink plan)] in
  paint ROk (gl_start g) ++ s! " " ++ paint RName (pl_scenario plan) ++ s! "  " ++ join sep segments.

Definition needs_attention (summary : DiscoverySummary) : bool :=
  ds_cancelled summary || (0 <? ds_dlq_records summary) || negb (is_empty (ds_unresolvable_targets summary)).

(** The sum of the values of a map. *)
Definition fault_count (counts : gmap ProbeErrorKind nat) : nat := map_fold (λ _ n acc, n + acc)%nat 0%nat counts.

Definition when {A} (b : bool) (x : A) : list A := if b then [x] else [].
Definition count_nat (n : nat) : Str := count (Z.of_nat n).

Definition completion_line (label : Str) (summary : DiscoverySummary) (skipped_scenarios : nat) (attention : bool) : Str :=
  let glyph := paint (if attention then RWarn else RDone) (gl_done g) in
  let verb := if ds_cancelled summary then s! "cancelled after" else s! "completed in" in
  let faults := fault_count (ds_error_counts summary) in
  let segments :=
    [segment verb (duration (ds_elapsed summary));
     segment (s! "hosts:") (count (ds_targets_resolved summary));
     segment (s! "records:") (count_nat (ds_records_emitted summary));
     segment (s! "probes:") (count_nat (ds_probe_attempts summary));
     segment (s! "faults:") (count_nat faults)] ++
    when (0 <? skipped_scenarios)%nat (segment (s! "skipped:") (count_nat skipped_scenarios)) ++
    when (negb (is_empty (ds_unresolvable_targets summary)))
      (segment (s! "unresolvable:") (count_nat (length (ds_unresolvable_targets summary)))) ++
    when (0 <? ds_links_emitted summary)%nat (segment (s! "links:") (count_nat (ds_links_emitted summary))) ++
    when (0 <? ds_profiles_emitted summary)%nat (segment (s! "profiles:") (count_nat (ds_profiles_emitted summary))) ++
    when (0 <? ds_dlq_records summary)
      (paint RLabel (s! "dlq:") ++ s! " " ++ paint RErr (count (ds_dlq_records summary))) ++
    match ds_sink_type summary with Some sink => [segment (s! "sink:") (sink_type_label sink)] | None => [] end in
  glyph ++ s! " " ++ paint RName label ++ s! "  " ++ join sep segments.

Definition complete_line (label : Str) (summary : DiscoverySummary) : Str :=
  completion_line label summary 0 (needs_attention summary).

Definition aggregate_label (tally : ScenarioTally) : Str :=
  if (ty_completed tally =? ty_total tally)%nat then fmt_dec (Z.of_nat (ty_total tally)) ++ s! " scenarios"
  else fmt_dec (Z.of_nat (ty_completed tally)) ++ s! " of " ++ fmt_dec (Z.of_nat (ty_total tally)) ++ s! " scenarios".

Definition aggregate_line (tally : ScenarioTally) (summary : DiscoverySummary) : Str :=
  completion_line (aggregate_label tally) summary (ty_skipped tally)
    (needs_attention summary || (0 <? ty_failed tally)%nat || (0 <? ty_skipped tally)%nat).

Definition failed_line (label error : Str) : Str :=
  paint RErr (gl_done g) ++ s! " " ++ paint RName label ++ s! "  " ++ paint RErr (s! "failed") ++ s! " " ++
  paint RLabel (gl_arrow g) ++ s! " " ++ error.

(** [{label:<14}]: padded on the right. *)
Definition detail_line (label body : Str) : Str :=
  let padded := label ++ replicate (DETAIL_LABEL_WIDTH - length label) 32 in
  s! "  " ++ paint RLabel (gl_bullet g) ++ s! " " ++ paint RLabel padded ++ s! " " ++ body.

(** [ProbeErrorKind::as_label], and the order of the variants. *)
Definition probe_error_kind_label (k : ProbeErrorKind) : Str :=
  match k with
  | AuthFailed => s! "auth_failed" | PermissionDenied => s! "permission_denied" | DnsFailed => s! "dns_failed"
  | DecodeFailed => s! "decode_failed" | OtherFault => s! "other"
  end.
Definition probe_error_kinds : list ProbeErrorKind := [AuthFailed; PermissionDenied; DnsFailed; DecodeFailed; OtherFault].

(** A [BTreeMap] in its order. *)
Definition error_count_list (counts : gmap ProbeErrorKind nat) : list (ProbeErrorKind * nat) :=
  omap (λ k, pair k <$> counts !! k) probe_error_kinds.

Definition detail_lines (summary : DiscoverySummary) : list Str :=
  when (negb (is_empty (ds_probes_by_kind summary)))
    (detail_line (s! "probes by kind")
       (join sep ((λ e, paint RValue (probe_kind_label (pk_kind e)) ++ s! " " ++ count_nat (pk_attempted e) ++ s! " (" ++
                        count_nat (pk_errored e) ++ s! " err)") <$> ds_probes_by_kind summary))) ++
  when (negb (bool_decide (ds_error_counts summary = ∅)))
    (detail_line (s! "faults by kind")
       (join sep ((λ '(kind, n), paint RValue (probe_error_kind_label kind) ++ s! " " ++ count_nat n) <$>
                  error_count_list (ds_error_counts summary)))) ++
  when (negb (is_empty (ds_unresolvable_targets summary)))
    (detail_line (s! "unresolvable") (join sep (paint RValue <$> ds_unresolvable_targets summary))) ++
  match ds_first_probe_error summary with
  | Some fault =>
      [detail_line (s! "first fault")
         (paint RValue (probe_error_kind_label (pf_kind fault)) ++ s! " " ++ paint RLabel (gl_arrow g) ++ s! " " ++ pf_detail fault)]
  | None => []
  end ++
  when (negb (is_empty (ds_dlq_records_by_type_and_class summary)))
    (detail_line (s! "dlq")
       (join sep ((λ '(sink, class, n), paint RValue (sink_type_label sink ++ s! "/" ++ sink_error_class_label class) ++ s! " " ++
                        count (Z.min USIZE_MAX n)) <$> ds_dlq_records_by_type_and_class summary))).

Definition print_start (plan : ScenarioPlan) (target_specs : nat) (mode : OutputMode) : list Line :=
  if prints_chrome mode then [(Stderr, start_line plan target_specs)] else [].

Definition print_detail (summary : DiscoverySummary) (mode : OutputMode) : list Line :=
  if prints_detail mode then pair Stderr <$> detail_lines summary else [].

Definition print_complete (label : Str) (summary : DiscoverySummary) (mode : OutputMode) : list Line :=
  if prints_chrome mode then (Stderr, complete_line label summary) :: print_detail summary mode else [].

Definition print_aggregate (tally : ScenarioTally) (summary : DiscoverySummary) (mode : OutputMode) : list Line :=
  if prints_chrome mode then (Stderr, aggregate_line tally summary) :: print_detail summary mode else [].

Definition print_blank (mode : OutputMode) : list Line := if prints_chrome mode then [(Stderr, [])] else [].

Definition print_failed (label error : Str) : list Line := [(Stderr, failed_line label error)].

Definition print_notice (text : Str) (mode : OutputMode) : list Line :=
  if prints_advisories mode then [(Stderr, paint RLabel (gl_bullet g) ++ s! " " ++ paint RLabel text)] else [].

(** ** Results of the other subcommands: [report.rs] *)

Definition print_catalog_empty (message : Str) (mode : OutputMode) : list Line :=
  if prints_advisories mode then [(Stderr, message)] else [].

Definition print_scenario_valid (label : Str) (mode : OutputMode) : list Line :=
  if prints_chrome mode then [(Stdout, label ++ s! ": ok")] else [].

Definition print_validated (total : nat) (mode : OutputMode) : list Line :=
  if prints_chrome mode then [(Stdout, fmt_dec (Z.of_nat total) ++ s! " scenario(s) validated: all valid")] else [].

Definition print_scenario_invalid (label reason : Str) : list Line := [(Stderr, label ++ s! ": " ++ reason)].

(** ** Progress: [progress.rs] *)

Definition TTY_REDRAW_INTERVAL : Z := 250 * 1000000.
Definition PLAIN_REDRAW_INTERVAL : Z := 5 * 1000000000.
Definition ETA_MIN_COMPLETED : Z := 3.

Inductive ProgressStyle : Type := InPlace | Lines | Silent.

#[global] Instance ProgressStyle_eq_dec : EqDecision ProgressStyle.
Proof. solve_decision. Defined.

Definition style_for (stderr_is_terminal : bool) (destination : RecordDestination) : ProgressStyle :=
  if is_shared destination then Silent else if stderr_is_terminal then InPlace else Lines.

Definition redraw_interval (style : ProgressStyle) : Z :=
  match style with InPlace => TTY_REDRAW_INTERVAL | Lines | Silent => PLAIN_REDRAW_INTERVAL end.

Definition should_redraw (last_draw : option Z) (now interval : Z) : bool :=
  match last_draw with None => true | Some t => interval <=? Z.max 0 (now - t) end.

Definition eta (p : DiscoveryProgress) : option Z :=
  let done_ := dp_targets_completed p in
  let total := dp_targets_total p in
  if (done_ <? ETA_MIN_COMPLETED) || (total <=? done_) then None
  else
    let remaining := total - done_ in
    let ms := Z.min U128_MAX (dp_elapsed_ms p * remaining) / done_ in
    Some (Z.min U64_MAX ms * 1000000).

Definition format_progress_line (p : DiscoveryProgress) : Str :=
  let done_ := dp_targets_completed p in
  let total := dp_targets_total p in
  let pct := if total =? 0 then 0 else Z.min USIZE_MAX (done_ * 100) / total in
  let elapsed := Z.min U64_MAX (dp_elapsed_ms p) * 1000000 in
  let segments :=
    [segment (s! "hosts:") (count done_ ++ s! "/" ++ count total ++ s! " (" ++ fmt_dec pct ++ s! "%)");
     segment (s! "records:") (count_nat (dp_records_emitted p));
     segment (s! "rate:") (rate done_ elapsed);
     segment (s! "elapsed:") (duration elapsed)] ++
    match eta p with Some remaining => [segment (s! "eta:") (duration remaining)] | None => [] end in
  s! "  " ++ join sep segments.

Definition render_progress (style : ProgressStyle) (p : DiscoveryProgress) : list Line :=
  match style with
  | InPlace => [(Stderr, ERASE_LINE ++ format_progress_line p)]
  | Lines => [(Stderr, format_progress_line p)]
  | Silent => []
  end.

Definition finalize_progress_line (style : ProgressStyle) : list Line :=
  if bool_decide (style = InPlace) then [(Stderr, ERASE_LINE)] else [].

(** The snapshots the display is woken for, with the time of each: those that are drawn. *)
Fixpoint drawn (interval : Z) (last_draw : option Z) (changes : list (Z * DiscoveryProgress))
    : list (Z * DiscoveryProgress) :=
  match changes with
  | [] => []
  | (now, snapshot) :: rest =>
      if (dp_targets_total snapshot =? 0) || negb (should_redraw last_draw now interval)
      then drawn interval last_draw rest
      else (now, snapshot) :: drawn interval (Some now) rest
  end.

Definition progress_display_loop (style : ProgressStyle) (mode : OutputMode) (start : Z)
    (changes : list (Z * DiscoveryProgress)) : list Line :=
  if negb (prints_chrome mode) || bool_decide (style = Silent) then []
  else
    let last_draw := if bool_decide (style = Lines) then Some start else None in
    (drawn (redraw_interval style) last_draw changes ≫= λ c, render_progress style c.2) ++ finalize_progress_line style.

(** ** A scenario, from its start to its end: [run_from_file] and [run_discovery_reporting_progress] *)

Section scenario.
Context `{UC : UnicodeCase} `{FE : ForeignErrors} `{ED : !ErrorDisplay} `{ES : !ErrorSources}.

Definition report_scenario_failure (label : Str) (err : RastreoError) (mode : OutputMode) : list Line :=
  print_failed label (render_error_chain err) ++
  match scan_error_hint err with Some hint => print_refusal_hint hint mode | None => [] end.

(** What is printed about a scenario that was planned, given the streams, when its progress changed, and how it ended. *)
Definition scenario_display (streams : Streams) (mode : OutputMode) (sink : option SinkConfig) (label : Str)
    (plan : ScenarioPlan) (targets : nat) (start : Z) (changes : list (Z * DiscoveryProgress))
    (result : Result RastreoError DiscoverySummary) : list Line :=
  let mode := with_record_destination mode (record_destination streams (writes_to_stdout sink)) in
  print_start plan targets mode ++
  progress_display_loop (style_for (st_stderr_terminal streams) (om_destination mode)) mode start changes ++
  match result with
  | Ok summary =>
      print_complete label summary mode ++ print_runtime_hints summary mode ++
      match refuse_nothing_to_probe targets (ds_unresolvable_targets summary) with
      | Err (CliMessage msg) => print_refusal_hint NOTHING_TO_PROBE_HINT mode ++ print_failed label msg
      | _ => []
      end
  | Err err => report_scenario_failure label err mode
  end.
End scenario.
End printers.

(** ** What an error is hinted with *)

Lemma str_contains_infix needle a b : str_contains needle (a ++ needle ++ b).
Proof.
  induction a as [|c a IH]; cbn [app].
  - assert (needle `prefix_of` needle ++ b) as Hp by (by apply prefix_app_r).
    destruct (needle ++ b); cbn [str_contains]; apply orb_True; left; by apply bool_decide_pack.
  - cbn [str_contains]. apply orb_True. by right.
Qed.

(** What is shown of a DNS failure is the end of its chain of errors, whose first level does not contain the text of the
    second. *)
Lemma first_non_restating_spec level below l' b' :
  first_non_restating_level level below = (l', b') →
  (∃ skipped, level :: below = skipped ++ l' :: b') ∧ (∀ next, head b' = Some next → str_contains next l' = false).
Proof.
  revert level. induction below as [|next rest IH]; intros level; cbn [first_non_restating_level].
  { intros [= <- <-]. split; [by exists []|done]. }
  destruct (str_contains next level) eqn:Hc.
  - intros [[skipped Hs] Hn]%IH. split; [|done]. exists (level :: skipped). by rewrite Hs.
  - intros [= <- <-]. split; [by exists []|]. by intros ? [= <-].
Qed.

Lemma join_starts sep x l : ∃ r, join sep (x :: l) = x ++ r.
Proof. destruct l as [|y l]; [exists []; by rewrite app_nil_r|]. by eexists. Qed.

Section hinted.
Context `{UL : UnicodeCaseLaws} `{FE : ForeignErrors} (net_levels : NetError → Str * list Str)
  (io_levels : IoError → Str * list Str) (json_levels : JsonError → Str * list Str)
  (regex_levels : RegexError → Str * list Str).

Definition error_line (e : RastreoError) : Str :=
  @render_error_chain FE (display_levels net_levels io_levels json_levels regex_levels)
    (source_levels net_levels io_levels json_levels regex_levels) e.

(** The needles of the hints are found in the texts they are meant for: every failed or empty lookup of an
    ASCII name is reported with the hint about resolution. *)
Lemma dns_errors_hinted (name : Str) (e : RastreoError) :
  (∃ source, e = EResolver (DnsLookupFailed name source)) ∨ e = EResolver (DnsNoRecords name) →
  Forall (λ c, 0 ≤ c < 128) (error_line e) →
  enrich_scan_error_hint (error_line e) = Some DNS_RESOLUTION_HINT.
Proof.
  intros He Ha. unfold enrich_scan_error_hint. rewrite str_to_lowercase_ascii by done.
  assert (∃ a needle b, to_ascii_lowercase (error_line e) = a ++ needle ++ b ∧
    (needle = s! "dns lookup failed" ∨ needle = s! "no records")) as (a & needle & b & -> & Hn).
  { unfold error_line, render_error_chain. destruct He as [[source ->]| ->].
    - destruct (join_starts (s! ": ") (s! "DNS lookup failed for " ++ name) (dns_failure_levels net_levels source)) as [r Hj].
      exists [], (s! "dns lookup failed"), (to_ascii_lowercase (s! " for " ++ name ++ r)). split; [|by left].
      change (to_ascii_lowercase (join (s! ": ") ((s! "DNS lookup failed for " ++ name) :: dns_failure_levels net_levels source)) =
        s! "dns lookup failed" ++ to_ascii_lowercase (s! " for " ++ name ++ r)). rewrite Hj.
      unfold to_ascii_lowercase. rewrite !fmap_app. by vm_compute.
    - exists (s! "dns lookup returned "), (s! "no records"), (to_ascii_lowercase (s! " for " ++ name)). split; [|by right].
      change (to_ascii_lowercase (s! "DNS lookup returned no records for " ++ name) =
        s! "dns lookup returned " ++ s! "no records" ++ to_ascii_lowercase (s! " for " ++ name)).
      unfold to_ascii_lowercase. rewrite !fmap_app. by vm_compute. }
  pose proof (str_contains_infix needle a b) as Hc. unfold SCAN_ERROR_HINT_PATTERNS. cbn [find_map].
  destruct (str_contains (s! "dns lookup failed") _) eqn:H1; [done|].
  destruct (str_contains (s! "no records") _) eqn:H2; [done|]. destruct Hn as [-> | ->]; [by rewrite H1 in Hc|by rewrite H2 in Hc].
Qed.
End hinted.

(** The filter always parses when the levels do, and a flag that was typed wins over the environment. *)
Lemma filter_directive_parses parses verbose quiet rust_log :
  Forall (λ l, parses l = true) [s! "error"; s! "info"; s! "debug"; s! "trace"] →
  parses (filter_directive parses verbose quiet rust_log) = true ∧
  (quiet = true ∨ verbose ≠ 0 → filter_directive parses verbose quiet rust_log = default_level verbose quiet).
Proof.
  intros Hl. rewrite !Forall_cons in Hl. destruct Hl as (? & ? & ? & ? & _).
  assert (parses (default_level verbose quiet) = true) as Hd by (unfold default_level; repeat case_match; done).
  unfold filter_directive. destruct rust_log as [d|]; [|done].
  destruct (negb quiet && (verbose =? 0) && negb (is_empty d) && parses d) eqn:Hc; [|done].
  rewrite !andb_true_iff, negb_true_iff, Z.eqb_eq in Hc. naive_solver.
Qed.

(** ** Reading numbers back *)

Lemma dec_value_snoc s c : dec_value (s ++ [c]) = dec_value s * 10 + (c - 48).
Proof. unfold dec_value. by rewrite foldl_app. Qed.

Lemma digits_go_value fuel n acc :
  0 ≤ n < 10 ^ Z.of_nat fuel → (0 < fuel)%nat →
  ∃ ds, digits_go 10 fuel n acc = ds ++ acc ∧ ds ≠ [] ∧ Forall (λ d, 0 ≤ d < 10) ds ∧ dec_value (digit_char <$> ds) = n.
Proof.
  revert n acc. induction fuel as [|fuel IH]; intros n acc Hn Hf; [lia|]. cbn [digits_go].
  rewrite Nat2Z.inj_succ, Z.pow_succ_r in Hn by lia.
  assert (digit_char (n mod 10) = 48 + n mod 10) as Hd.
  { unfold digit_char. pose proof (Z.mod_pos_bound n 10). by rewrite (proj2 (Z.ltb_lt _ _)) by lia. }
  destruct (Z.eqb_spec (n / 10) 0) as [Hz|Hz].
  - exists [n mod 10]. split_and!; [done..|repeat constructor; Z.to_euclidean_division_equations; lia|].
    cbn [fmap list_fmap]. rewrite Hd. unfold dec_value. cbn [foldl]. Z.to_euclidean_division_equations; lia.
  - destruct (IH (n / 10) (n mod 10 :: acc)) as (ds & -> & Hne & Hr & Hv).
    { Z.to_euclidean_division_equations; lia. } { destruct fuel; [|lia]. change (10 ^ Z.of_nat 0) with 1 in Hn. rewrite Z.div_small in Hz by lia. lia. }
    exists (ds ++ [n mod 10]). rewrite <-app_assoc. split_and!; [done|by destruct ds|..].
    + apply Forall_app. split; [done|]. repeat constructor; Z.to_euclidean_division_equations; lia.
    + rewrite fmap_app. cbn [fmap list_fmap]. rewrite dec_value_snoc, Hv, Hd. Z.to_euclidean_division_equations; lia.
Qed.

(** Numbers the widest integer type holds. *)
Definition printable (n : Z) : Prop := 0 ≤ n < 10 ^ 39.

Lemma fmt_dec_digits n : printable n →
  fmt_dec n ≠ [] ∧ Forall (λ c, is_digit c) (fmt_dec n) ∧ dec_value (fmt_dec n) = n.
Proof.
  intros Hn. unfold fmt_dec. destruct (digits_go_value 39 n []) as (ds & -> & Hne & Hr & Hv); [done|lia|].
  rewrite app_nil_r. split_and!; [by destruct ds| |done]. apply Forall_fmap. eapply Forall_impl; [exact Hr|].
  intros d Hd. cbn beta in Hd. unfold compose, digit_char, is_digit. rewrite (proj2 (Z.ltb_lt _ _)) by lia.
  apply andb_True. split; apply Is_true_true, Z.leb_le; lia.
Qed.

Lemma span_all ds r : Forall (λ c, is_digit c) ds → (∀ c r', r = c :: r' → is_digit c = false) →
  span_digits (ds ++ r) = (ds, r).
Proof.
  intros Hd Hr. induction Hd as [|c s Hc _ IH]; cbn [span_digits app].
  - destruct r as [|c r']; [done|]. cbn [span_digits]. by rewrite (Hr c r').
  - rewrite (Is_true_true_1 _ Hc). by rewrite IH.
Qed.

(** The number at the start of a text, and the rest. *)
Definition read_digits_off (s : Str) : Z * Str := let '(ds, r) := span_digits s in (dec_value ds, r).

Lemma read_fmt_dec n c r : printable n → is_digit c = false → read_digits_off (fmt_dec n ++ c :: r) = (n, c :: r).
Proof.
  intros Hn Hc. destruct (fmt_dec_digits n Hn) as (_ & Hd & Hv). unfold read_digits_off.
  rewrite span_all; [by rewrite Hv|done|]. by intros ?? [= -> ->].
Qed.

Lemma read_fmt_02 n c r : printable n → is_digit c = false → read_digits_off (fmt_02 n ++ c :: r) = (n, c :: r).
Proof.
  intros Hn Hc. unfold fmt_02. destruct (n <? 10); [|by apply read_fmt_dec].
  destruct (fmt_dec_digits n Hn) as (_ & Hd & Hv). unfold read_digits_off.
  rewrite (span_all (48 :: fmt_dec n)); [|by constructor|by intros ?? [= -> ->]].
  change (dec_value (48 :: fmt_dec n)) with (dec_value (fmt_dec n)). by rewrite Hv.
Qed.

(** ** Durations *)

(** The milliseconds a duration says, and its unit; fields above are below sixty. *)
Definition read_duration (s : Str) : option (Z * Z) :=
  let '(a, r) := read_digits_off s in
  if bool_decide (r = s! "ms") then Some (a, 1)
  else
    match r with
    | c :: r =>
        let '(b, r) := read_digits_off r in
        if (c =? 46) && bool_decide (r = s! "s") && (a <? 60) && (b <? 10) then Some (a * 1000 + b * 100, 100)
        else if (c =? 109) && bool_decide (r = s! "s") && (a <? 60) && (b <? 60) then Some (a * 60000 + b * 1000, 1000)
        else if (c =? 104) && bool_decide (r = s! "m") && (b <? 60) then Some (a * 3600000 + b * 60000, 60000)
        else None
    | [] => None
    end.

(** What is shown of so many milliseconds. *)
Definition shown_ms (ms : Z) : Z * Z :=
  if ms <? 1000 then (ms, 1)
  else if (ms + 50) / 100 <? 600 then ((ms + 50) / 100 * 100, 100)
  else if (ms + 500) / 1000 <? 3600 then ((ms + 500) / 1000 * 1000, 1000)
  else (((ms + 500) / 1000 + 30) / 60 * 60000, 60000).

Lemma fmt_02_not_empty n t : printable n → fmt_02 n ++ t ≠ t.
Proof.
  intros Hn H%(f_equal length). rewrite length_app in H. destruct (fmt_dec_digits n Hn) as (Hne & _).
  unfold fmt_02 in H. destruct (n <? 10); [cbn in H; lia|]. destruct (fmt_dec n); [done|cbn in H; lia].
Qed.

(** The two fields of a duration of more than a second. *)
Ltac duration_fields :=
  rewrite read_fmt_dec by (done || match goal with H : ∀ x, _ → printable x |- _ => apply H end;
                           Z.to_euclidean_division_equations; lia);
  rewrite bool_decide_false by
    first [done | intros Heq%(f_equal tail); revert Heq; refine (fmt_02_not_empty _ [115] _);
                  match goal with H : ∀ x, _ → printable x |- _ => apply H end;
                  Z.to_euclidean_division_equations; lia];
  rewrite ?read_fmt_02, ?read_fmt_dec by (done || match goal with H : ∀ x, _ → printable x |- _ => apply H end;
                           Z.to_euclidean_division_equations; lia);
  cbn [Z.eqb Pos.eqb andb]; rewrite bool_decide_true by done; cbn [andb];
  rewrite ?(proj2 (Z.ltb_lt _ _)) by (Z.to_euclidean_division_equations; lia);
  cbn [andb]; do 2 f_equal; Z.to_euclidean_division_equations; lia.

Lemma duration_read d : 0 ≤ d < 10 ^ 39 → read_duration (duration d) = Some (shown_ms (d / 1000000)).
Proof.
  intros Hd. unfold duration, shown_ms. assert (0 ≤ d / 1000000 < 10 ^ 34) as Hms.
  { change (10 ^ 39) with (10 ^ 34 * 100000) in Hd. Z.to_euclidean_division_equations; lia. }
  generalize dependent (d / 1000000). clear d Hd. intros ms Hms.
  assert (∀ x, 0 ≤ x ≤ ms + 1000 → printable x) as Hp by (unfold printable; lia).
  destruct (Z.ltb_spec ms 1000); [|destruct (Z.ltb_spec ((ms + 50) / 100) 600);
    [|destruct (Z.ltb_spec ((ms + 500) / 1000) 3600)]]; unfold read_duration.
  - change (s! "ms") with (109 :: [115]). rewrite read_fmt_dec by (done || apply Hp; lia). done.
  - change (s! "." ++ ?r ++ s! "s") with (46 :: r ++ 115 :: []).
    duration_fields.
  - change (s! "m" ++ ?r ++ s! "s") with (109 :: r ++ 115 :: []).
    duration_fields.
  - change (s! "h" ++ ?r ++ s! "m") with (104 :: r ++ 109 :: []).
    duration_fields.
Qed.
(** What a duration says is within half its unit of the truth (a little more in minutes, which are rounded from
    rounded seconds), exact below a second, and longer durations never say less. *)
Lemma duration_faithful d d' : 0 ≤ d ≤ d' → d' < 10 ^ 39 →
  ∃ v u v' u', read_duration (duration d) = Some (v, u) ∧ read_duration (duration d') = Some (v', u') ∧
    2 * Z.abs (v - d / 1000000) ≤ u + u / 60 ∧ (u = 1 → v = d / 1000000) ∧ v ≤ v'.
Proof.
  intros Hd Hd'. rewrite !duration_read by lia. assert (0 ≤ d / 1000000 ≤ d' / 1000000) as Hle.
  { split; [apply Z.div_pos; lia|apply Z.div_le_mono; lia]. }
  destruct (shown_ms (d / 1000000)) as [v u] eqn:Hv, (shown_ms (d' / 1000000)) as [v' u'] eqn:Hv'.
  exists v, u, v', u'. split; [done|]. split; [done|]. revert Hv Hv'. unfold shown_ms.
  generalize dependent (d / 1000000). generalize dependent (d' / 1000000). clear d d' Hd Hd'. intros m' m Hle.
  repeat case_match; intros [= <- <-] [= <- <-]; rewrite ?Z.ltb_lt, ?Z.ltb_ge in *;
    Z.to_euclidean_division_equations; lia.
Qed.

(** ** Counts *)

Lemma mod3 (n : nat) : (n = 3 * (n / 3) + n mod 3 ∧ n mod 3 < 3)%nat.
Proof. split; [apply Nat.div_mod_eq|apply Nat.mod_upper_bound; lia]. Qed.

(** Whether a comma goes before a digit depends on how many digits are left. *)
Lemma group_digits_left i ds :
  group_digits i ((i + length ds) mod 3) ds =
  match ds with
  | [] => []
  | c :: rest => (if (0 <? i)%nat && (length ds mod 3 =? 0)%nat then [44] else []) ++
                 c :: group_digits (S i) ((S i + length rest) mod 3) rest
  end.
Proof.
  destruct ds as [|c rest]; [done|]. cbn [group_digits length]. rewrite Nat.add_succ_r. cbn [Nat.add].
  assert ((i mod 3 =? S (i + length rest) mod 3)%nat = (S (length rest) mod 3 =? 0)%nat) as ->; [|done].
  apply eq_bool_prop_intro. rewrite !Is_true_true, !Nat.eqb_eq.
  pose proof (mod3 i). pose proof (mod3 (S (i + length rest))). pose proof (mod3 (S (length rest))). lia.
Qed.

Definition without_commas (s : Str) : Str := filter (λ c, c ≠ 44) s.

(** A count is its decimal digits with a comma wherever a multiple of three of them is left, and nowhere else. *)
Lemma group_digits_spec i ds : 44 ∉ ds →
  let text := group_digits i ((i + length ds) mod 3) ds in
  without_commas text = ds ∧
  (∀ a b, text = a ++ 44 :: b → b ≠ [] ∧ (length (without_commas b) mod 3 = 0)%nat) ∧
  length text = (length ds + (length ds - (if (0 <? i)%nat then 0 else 1)) / 3)%nat.
Proof.
  revert i. induction ds as [|c ds IH]; intros i Hn text; unfold text.
  { cbn. split_and!; [done|by intros [|??] ? [=]|by case_match]. }
  apply not_elem_of_cons in Hn as [Hc Hn]. rewrite group_digits_left. destruct (IH (S i) Hn) as (Hf & Hs & Hl).
  change (0 <? S i)%nat with true in Hl.
  set (rest := group_digits (S i) ((S i + length ds) mod 3) ds) in *.
  assert (∀ a b, c :: rest = a ++ 44 :: b → b ≠ [] ∧ (length (without_commas b) mod 3 = 0)%nat) as Htail.
  { intros [|x a] b [= Hx Hr]; [congruence|]. by apply (Hs a). }
  assert (without_commas (c :: rest) = c :: ds) as Hfc by (unfold without_commas in *; rewrite filter_cons_True by done; by rewrite Hf).
  destruct ((0 <? i)%nat && (length (c :: ds) mod 3 =? 0)%nat) eqn:Hcomma; cbn [app].
  - apply andb_true_iff in Hcomma as [Hi Hm%Nat.eqb_eq]. split_and!.
    + unfold without_commas in *. by rewrite filter_cons_False by (intros Hx; by apply Hx).
    + intros [|x a] b Heq; [injection Heq as Hr; rewrite <-Hr; split; [done|by rewrite Hfc]|].
      injection Heq as Hx Hr. by apply (Htail a).
    + rewrite Hi. cbn [length] in *. rewrite Hl.
      pose proof (mod3 (S (length ds))). pose proof (mod3 (S (length ds) - 0)). pose proof (mod3 (length ds - 0)). lia.
  - split_and!; [done|done|]. cbn [length] in *. rewrite Hl. apply andb_false_iff in Hcomma.
    destruct (0 <? i)%nat.
    + destruct Hcomma as [|Hm%Nat.eqb_neq]; [done|].
      pose proof (mod3 (S (length ds))). pose proof (mod3 (S (length ds) - 0)). pose proof (mod3 (length ds - 0)). lia.
    + by rewrite Nat.sub_0_r, Nat.sub_succ, Nat.sub_0_r.
Qed.

Lemma count_grouped n : printable n →
  without_commas (count n) = fmt_dec n ∧
  (∀ a b, count n = a ++ 44 :: b → b ≠ [] ∧ (length (without_commas b) mod 3 = 0)%nat) ∧
  length (count n) = (length (fmt_dec n) + (length (fmt_dec n) - 1) / 3)%nat.
Proof.
  intros Hn. apply (group_digits_spec 0 (fmt_dec n)). destruct (fmt_dec_digits n Hn) as (_ & Hd & _).
  intros Hin. rewrite Forall_forall in Hd. by apply Hd in Hin.
Qed.

(** ** Progress *)

(** Draws that keep an interval between them, from a first one on. *)
Fixpoint paced (interval : Z) (last_draw : option Z) (draws : list (Z * DiscoveryProgress)) : Prop :=
  match draws with
  | [] => True
  | (now, _) :: rest =>
      (match last_draw with Some t => t + interval ≤ now | None => True end) ∧ paced interval (Some now) rest
  end.

Lemma drawn_paced interval last_draw changes : 0 < interval →
  paced interval last_draw (drawn interval last_draw changes) ∧
  Forall (λ c, c ∈ changes ∧ dp_targets_total c.2 ≠ 0) (drawn interval last_draw changes).
Proof.
  intros Hi. revert last_draw. induction changes as [|[now snapshot] rest IH]; intros last_draw; cbn [drawn]; [done|].
  assert (∀ l, Forall (λ c, c ∈ rest ∧ dp_targets_total c.2 ≠ 0) l →
    Forall (λ c, c ∈ (now, snapshot) :: rest ∧ dp_targets_total c.2 ≠ 0) l) as Hmono.
  { intros l Hl. eapply Forall_impl; [exact Hl|]. intros c [??]. split; [by right|done]. }
  destruct (Z.eqb_spec (dp_targets_total snapshot) 0); cbn [orb]; [destruct (IH last_draw); auto|].
  destruct (should_redraw last_draw now interval) eqn:Hr; cbn [negb]; [|destruct (IH last_draw); auto].
  destruct (IH (Some now)) as [Hp Hf]. split; [split; [|exact Hp]|].
  - destruct last_draw as [t|]; [|done]. apply Z.leb_le in Hr. lia.
  - constructor; [split; [by left|done]|auto].
Qed.

(** ** The record stream *)

Section discipline.
Context (paint : Role → Str → Str) (g : Glyphs).
Context `{UC : UnicodeCase} `{FE : ForeignErrors} `{ED : !ErrorDisplay} `{ES : !ErrorSources}.

(** The lines a scenario ends with when it was not what was asked for: its failure, and a hint. *)
Definition failure_lines (label : Str) (targets : nat) (mode : OutputMode) (result : Result RastreoError DiscoverySummary)
    : list Line :=
  match result with
  | Ok summary =>
      match refuse_nothing_to_probe targets (ds_unresolvable_targets summary) with
      | Err (CliMessage msg) => print_refusal_hint paint g NOTHING_TO_PROBE_HINT mode ++ print_failed paint g label msg
      | _ => []
      end
  | Err err => report_scenario_failure paint g label err mode
  end.

Lemma printers_on_stderr streams mode sink label plan targets start changes result :
  Forall (λ l, l.1 = Stderr) (scenario_display paint g streams mode sink label plan targets start changes result).
Proof using Type.
  unfold scenario_display. repeat (apply Forall_app; split).
  - unfold print_start. case_match; repeat constructor.
  - unfold progress_display_loop. case_match; [constructor|]. apply Forall_app. split.
    + apply Forall_bind, Forall_true. intros c. unfold render_progress. case_match; repeat constructor.
    + unfold finalize_progress_line. case_match; repeat constructor.
  - destruct result as [summary|err].
    + repeat (apply Forall_app; split).
      * unfold print_complete, print_detail. case_match; [|constructor]. constructor; [done|].
        case_match; [|constructor]. by apply Forall_fmap, Forall_true.
      * unfold print_runtime_hints, print_hint. repeat case_match; repeat constructor.
      * unfold print_refusal_hint, print_failed. repeat case_match; repeat constructor.
    + unfold report_scenario_failure, print_refusal_hint, print_failed. repeat case_match; repeat constructor.
Qed.
Lemma destination_separate streams records :
  record_destination streams records = Separate ↔
  records = false ∨ ∃ a b, st_stdout_id streams = Some a ∧ st_stderr_id streams = Some b ∧ a ≠ b.
Proof using Type.
  unfold record_destination, classify_destination, one_file, same_file.
  destruct records, (st_stdout_id streams) as [a|], (st_stderr_id streams) as [b|]; cbn [negb orb mbind option_bind default from_option id];
    try case_bool_decide; destruct (st_stderr_terminal streams); naive_solver.
Qed.

(** Printing about a scenario whose lines may not go out comes down to its failure. *)
Lemma display_without_chrome streams mode sink label plan targets start changes result :
  let mode' := with_record_destination mode (record_destination streams (writes_to_stdout sink)) in
  prints_advisories mode' = false →
  scenario_display paint g streams mode sink label plan targets start changes result =
  failure_lines label targets mode' result.
Proof using Type.
  intros mode' Ha. assert (prints_chrome mode' = false) as Hc.
  { unfold prints_chrome, prints_advisories in *. by rewrite Ha. }
  unfold scenario_display, failure_lines. fold mode'.
  unfold print_start, progress_display_loop, print_complete, print_runtime_hints, print_hint. rewrite Hc, Ha.
  cbn [negb orb app]. destruct result as [summary|err]; [|done]. by destruct (runtime_hint_line summary).
Qed.

(** C31. What is printed about a scenario never mixes with its records. Every line goes to the error stream. The
    streams count as one unless the records go elsewhere or the streams are known to be different files. Under machine output
    captured together with the records, and under [-q], nothing is printed but a failure and its hint; where records share the
    destination no progress is drawn; and a plain log gets a progress line at most every five seconds, from five seconds
    after the start, each for a change of the progress there was. *)
Theorem output_keeps_streams_apart (streams : Streams) (mode : OutputMode) (sink : option SinkConfig) (label : Str)
    (plan : ScenarioPlan) (targets : nat) (start : Z) (changes : list (Z * DiscoveryProgress))
    (result : Result RastreoError DiscoverySummary) :
  let dest := record_destination streams (writes_to_stdout sink) in
  let mode' := with_record_destination mode dest in
  let display start changes := scenario_display paint g streams mode sink label plan targets start changes result in
  Forall (λ l, l.1 = Stderr) (display start changes) ∧
  (dest = Separate ↔ writes_to_stdout sink = false ∨
     ∃ a b, st_stdout_id streams = Some a ∧ st_stderr_id streams = Some b ∧ a ≠ b) ∧
  (om_machine_output mode = true ∧ dest = SharedCapture ∨ om_verbosity mode = Quiet →
     display start changes = failure_lines label targets mode' result) ∧
  (dest ≠ Separate → ∀ start' changes', display start changes = display start' changes') ∧
  (prints_chrome mode' = true → dest = Separate → st_stderr_terminal streams = false →
     ∃ draws before after, paced PLAIN_REDRAW_INTERVAL (Some start) draws ∧ Forall (λ c, c ∈ changes) draws ∧
       display start changes = before ++ ((λ c, (Stderr, format_progress_line paint c.2)) <$> draws) ++ after ∧
       ∀ start', display start' [] = before ++ after).
Proof using Type.
  intros dest mode' display. split_and!.
  - apply printers_on_stderr.
  - apply destination_separate.
  - intros Hq. apply display_without_chrome. unfold prints_advisories, would_land_in_the_record_stream. cbn [om_verbosity om_machine_output om_destination with_record_destination].
    destruct Hq as [[-> Hd] | -> ]; [|done]. fold dest. rewrite Hd. by destruct (om_verbosity mode).
  - intros Hd start' changes'. unfold display, scenario_display. fold dest. fold mode'. do 2 f_equal.
    assert (style_for (st_stderr_terminal streams) (om_destination mode') = Silent) as ->.
    { unfold style_for, is_shared. change (om_destination mode') with dest. by rewrite bool_decide_false by done. }
    unfold progress_display_loop. by rewrite bool_decide_true, orb_true_r by done.
  - intros Hc Hd Ht. destruct (drawn_paced PLAIN_REDRAW_INTERVAL (Some start) changes) as [Hp Hf]; [done|].
    eexists (drawn PLAIN_REDRAW_INTERVAL (Some start) changes), (print_start paint g plan targets mode'), _.
    split; [done|]. split; [eapply Forall_impl; [exact Hf|]; naive_solver|].
    unfold display, scenario_display. fold dest. fold mode'.
    assert (style_for (st_stderr_terminal streams) (om_destination mode') = Lines) as ->.
    { unfold style_for, is_shared. change (om_destination mode') with dest. by rewrite Hd, Ht. }
    unfold progress_display_loop. rewrite Hc. cbn [negb orb]. rewrite (bool_decide_false (Lines = Silent)) by done.
    rewrite (bool_decide_true (Lines = Lines)) by done. change (finalize_progress_line Lines) with (@nil Line).
    change (redraw_interval Lines) with PLAIN_REDRAW_INTERVAL. rewrite app_nil_r.
    split; reflexivity.
Qed.
End discipline.

Example humanized_samples :
  (duration <$> [0; 820 * 1000000; 999 * 1000000; 1000 * 1000000; 4200 * 1000000; 59960 * 1000000; 63 * 1000000000;
                 3599600 * 1000000; 7200 * 1000000000]) =
    [s! "0ms"; s! "820ms"; s! "999ms"; s! "1.0s"; s! "4.2s"; s! "1m00s"; s! "1m03s"; s! "1h00m"; s! "2h00m"] ∧
  (count <$> [0; 7; 999; 1000; 1778; 12345; 1234567]) =
    [s! "0"; s! "7"; s! "999"; s! "1,000"; s! "1,778"; s! "12,345"; s! "1,234,567"] ∧
  [rate 10 0; rate 3 2000000000; rate 1778 2000000000; rate 24000 2000000000] =
    [s! "-"; s! "1.5/s"; s! "889/s"; s! "12,000/s"].
Proof. by vm_compute. Qed.
