(* ===== verification/CliTheorems.v ===== *)
(** * Runs of the command line: what a file's run reports, and what its rehearsal predicts *)

From S2P Require Import Prelude Net Resolver ResolverFacts ResolverTheorems F64 Model FuserCore.
From S2P Require Import UnionFind Identity IdentityFacts CorrelateFacts.
From S2P Require Import IdentityTheorems Fuser Topology Classifier Sink Tee Kafka Nats Scheduler.
From S2P Require Import CollectionProfile Encoder GnmiPath SinkConfig ProberConfig Selection Config.
From S2P Require Import Checkpoint Pipeline PipelineFacts Run RunTheorems Plan Env.
From S2P Require Import Secrets Cli ServerState ServerHttp SinkProbe Scans ServerFacts.

(** ** The tally *)

Definition count_of (o : ScenarioOutcome) (reports : list ScenarioReport) : nat :=
  length (base.filter (λ r, sre_outcome r = o) reports).

Lemma count_of_cons o r reports :
  count_of o (r :: reports) = ((if bool_decide (sre_outcome r = o) then 1 else 0) + count_of o reports)%nat.
Proof. unfold count_of. rewrite filter_cons. case_bool_decide; by case_decide. Qed.

Lemma tally_from reports t :
  foldl tally_entry t reports =
  mkScenarioTally (ty_total t) (ty_completed t + count_of Completed reports)
    (ty_failed t + count_of Failed reports) (ty_skipped t + count_of Skipped reports).
Proof.
  revert t. induction reports as [|r reports IH]; intros t; cbn [foldl].
  { destruct t. cbn. f_equal; lia. }
  rewrite IH, !count_of_cons. unfold tally_entry. destruct (sre_outcome r); repeat case_bool_decide; try done; cbn; f_equal; lia.
Qed.

Lemma tally_over_counts reports total :
  tally_over reports total =
  mkScenarioTally total (count_of Completed reports) (count_of Failed reports) (count_of Skipped reports).
Proof. unfold tally_over. by rewrite tally_from. Qed.

Lemma counts_total reports :
  (count_of Completed reports + count_of Failed reports + count_of Skipped reports = length reports)%nat.
Proof.
  induction reports as [|r reports IH]; [done|]. rewrite !count_of_cons. cbn [length].
  destruct (sre_outcome r); repeat case_bool_decide; try done; lia.
Qed.

Lemma count_of_none o reports : count_of o reports = 0%nat ↔ Forall (λ r, sre_outcome r ≠ o) reports.
Proof.
  unfold count_of. rewrite length_zero_iff_nil, Forall_forall. split.
  - intros H r Hr Ho. assert (r ∈ base.filter (λ r, sre_outcome r = o) reports) as Hin
      by (by apply list_elem_of_filter). rewrite H in Hin. by apply elem_of_nil in Hin.
  - intros H. destruct (base.filter _ _) as [|r l] eqn:Hf; [done|].
    assert (r ∈ base.filter (λ r, sre_outcome r = o) reports) as [Ho Hr]%list_elem_of_filter
      by (rewrite Hf; left). by destruct (H r Hr).
Qed.

Lemma count_of_all o reports : count_of o reports = length reports ↔ Forall (λ r, sre_outcome r = o) reports.
Proof.
  unfold count_of. split.
  - induction reports as [|r reports IH]; [by constructor|]. rewrite filter_cons. case_decide; cbn.
    + intros [= H1]. constructor; auto.
    + intros H1. pose proof (length_filter (λ r, sre_outcome r = o) reports). lia.
  - intros H. induction H as [|r reports Hr _ IH]; [done|]. rewrite filter_cons_True by done. cbn. by f_equal.
Qed.

(** ** The loop over the scenarios *)

Section loop.
Context `{NL : IpNetLib, UC : UnicodeCase, FD : F64Display, FE : ForeignErrors, MS : MibSource,
  HO : HashOrder, FT : Features}.
Context {RL : RegexLib} {PL : ProberLib} {IE : IoErrors} {ED : ErrorDisplay}.
Context {W : Type} {FS : FsLib W} {SC : ScanCodec} {SS : SinkStore W} {KL : KafkaLib W}.
Context (run_discovery : RunOptions → W → W * Result RastreoError DiscoverySummary).
Context (cancelled : W → bool).
Abbreviation run_scenario := (run_scenario run_discovery).
Abbreviation run_scenarios := (run_scenarios run_discovery cancelled).

(** Every target of a scenario is one that names no address. *)
Definition nothing_to_probe (targets : nat) (unresolvable : list Str) : Prop :=
  unresolvable ≠ [] ∧ (targets ≤ length unresolvable)%nat.

Lemma refuse_nothing targets unresolvable :
  is_ok (refuse_nothing_to_probe targets unresolvable) = false ↔ nothing_to_probe targets unresolvable.
Proof using Type.
  unfold refuse_nothing_to_probe, nothing_to_probe. destruct unresolvable as [|x l]; [naive_solver|].
  cbn [is_empty orb]. destruct (Nat.ltb_spec (length (x :: l)) targets); cbn [is_ok]; (split; [|try (intros [_ ?]; lia)]); try done.
Qed.

Lemma run_plan_validates opts label knobs w :
  is_ok (run_plan opts label knobs w) = is_ok (scenario_validate (ro_scenario opts)).
Proof using Type. unfold run_plan, build_plan. by destruct (scenario_validate _) as [[]|]. Qed.

(** How one scenario ends: skipped when it has no probers; failed, with nothing run, when its
    configuration is invalid; failed when the core's run of it fails; otherwise with the summary
    of that run, and complete unless every target was unresolvable. *)
Inductive scenario_ends (args : DiscoverArgs) (cfg : DiscoverScenarioConfig) (w : W)
    : W → ScenarioOutcome → option DiscoverySummary → Prop :=
  | ends_skipped : sc_probers cfg = [] → scenario_ends args cfg w w Skipped None
  | ends_invalid e : sc_probers cfg ≠ [] → scenario_validate cfg = Err e →
      scenario_ends args cfg w w Failed None
  | ends_failed w' e : sc_probers cfg ≠ [] → scenario_validate cfg = Ok tt →
      run_discovery (mkRunOptions cfg None None None (checkpoint_config args)) w = (w', Err e) →
      scenario_ends args cfg w w' Failed None
  | ends_unresolvable w' summary : sc_probers cfg ≠ [] → scenario_validate cfg = Ok tt →
      run_discovery (mkRunOptions cfg None None None (checkpoint_config args)) w = (w', Ok summary) →
      nothing_to_probe (length (sc_targets cfg)) (ds_unresolvable_targets summary) →
      scenario_ends args cfg w w' Failed (Some summary)
  | ends_completed w' summary : sc_probers cfg ≠ [] → scenario_validate cfg = Ok tt →
      run_discovery (mkRunOptions cfg None None None (checkpoint_config args)) w = (w', Ok summary) →
      ¬ nothing_to_probe (length (sc_targets cfg)) (ds_unresolvable_targets summary) →
      scenario_ends args cfg w w' Completed (Some summary).

Lemma run_scenario_ends args idx total cfg w :
  let '(w', r) := run_scenario args idx total cfg w in
  sre_scenario r = machine_scenario_label (sc_base cfg) ∧
  scenario_ends args cfg w w' (sre_outcome r) (sre_summary r).
Proof using Type.
  unfold Cli.run_scenario. destruct (sc_probers cfg) as [|pr prs] eqn:Hp; cbn [is_empty].
  { split; [done|]. by constructor. }
  assert (sc_probers cfg ≠ []) as Hne by (by rewrite Hp).
  pose proof (run_plan_validates (run_options cfg args) (cli_scenario_label (sc_base cfg) idx total)
    (effective_knobs cfg args) w) as Hplan. cbn [run_options ro_scenario] in Hplan.
  destruct (scenario_validate cfg) as [[]|e] eqn:Hv, (run_plan _ _ _ w); cbn [is_ok] in Hplan; try done; last first.
  { split; [done|]. by eapply ends_invalid. }
  destruct (run_discovery _ w) as [w' [summary|e]] eqn:Hr; cbn; (split; [done|]); [|by eapply ends_failed].
  pose proof (refuse_nothing (length (sc_targets cfg)) (ds_unresolvable_targets summary)) as Hn.
  destruct (refuse_nothing_to_probe _ _); cbn in Hn |- *.
  - eapply ends_completed; [done|done|exact Hr|]. by rewrite <-Hn.
  - eapply ends_unresolvable; [done|done|exact Hr|]. by apply Hn.
Qed.

(** The reports of a run of scenarios, one after the other, each from the world the one before
    left; only a cancellation seen before a scenario ends the run early. *)
Inductive scenarios_run (args : DiscoverArgs)
    : list DiscoverScenarioConfig → W → list ScenarioReport → W → Prop :=
  | run_over w : scenarios_run args [] w [] w
  | run_cancelled cfg rest w : cancelled w = true → scenarios_run args (cfg :: rest) w [] w
  | run_next cfg rest w w1 r reports w' : cancelled w = false →
      sre_scenario r = machine_scenario_label (sc_base cfg) →
      scenario_ends args cfg w w1 (sre_outcome r) (sre_summary r) →
      scenarios_run args rest w1 reports w' →
      scenarios_run args (cfg :: rest) w (r :: reports) w'.

Lemma scenarios_run_length args cfgs w reports w' :
  scenarios_run args cfgs w reports w' → (length reports ≤ length cfgs)%nat ∧
    ((length reports < length cfgs)%nat → cancelled w' = true).
Proof using Type. induction 1 as [|w|cfg rest w w1 r reports w' ? ? ? ? [IH1 IH2]]; cbn; [lia|by split; [lia|]|]. split; [lia|]. intros. apply IH2. lia. Qed.

Lemma add_summaries aggregate reports :
  foldl add_summary aggregate reports = foldl accumulate aggregate (omap sre_summary reports).
Proof using Type.
  revert aggregate. induction reports as [|r reports IH]; intros aggregate; [done|].
  cbn [foldl omap list_omap]. rewrite IH. unfold add_summary. by destruct (sre_summary r).
Qed.

Lemma run_scenarios_spec args total cfgs idx scenarios aggregate w :
  ∃ reports w',
    run_scenarios args idx total cfgs scenarios aggregate w =
      (w', (scenarios ++ reports,
            (if (length reports <? length cfgs)%nat then cancel_aggregate else (λ agg, agg))
              (foldl add_summary aggregate reports))) ∧
    scenarios_run args cfgs w reports w'.
Proof using Type.
  revert idx scenarios aggregate w. induction cfgs as [|cfg cfgs IH]; intros idx scenarios aggregate w.
  { exists [], w. cbn. rewrite app_nil_r. split; [done|constructor]. }
  cbn [Cli.run_scenarios]. destruct (cancelled w) eqn:Hc.
  { exists [], w. cbn. rewrite app_nil_r. split; [done|by constructor]. }
  pose proof (run_scenario_ends args idx total cfg w) as Hr.
  destruct (Cli.run_scenario run_discovery args idx total cfg w) as [w1 r].
  destruct (IH (S idx) (scenarios ++ [r]) (add_summary aggregate r) w1) as (reports & w' & Hrun & Hs).
  exists (r :: reports), w'. rewrite Hrun, <-app_assoc. split; [done|]. destruct Hr. by econstructor.
Qed.
End loop.

(** ** How a file's run ends *)

Section outcome.
Context `{NL : IpNetLib, UC : UnicodeCase, FD : F64Display, FE : ForeignErrors, MS : MibSource,
  HO : HashOrder, FT : Features}.
Context {RL : RegexLib} {PL : ProberLib} {IE : IoErrors} {ED : ErrorDisplay}.
Context {W : Type} {FS : FsLib W} {SC : ScanCodec} {SS : SinkStore W} {KL : KafkaLib W}.
Context {E : Type} {EN : Env E} (env : E).
Context (stdout_table_width : Z) (report_to_vec : RunReport → Bytes).
Context (is_file is_dir : Str → bool) (read_dir : Str → option (list DirEntry)).
Context (read_to_string : Str → Result IoError Str).
Context (from_str : Str → Result Str YamlValue) (scenario_from_value : YamlValue → Result Str ScenarioFile).
Context (run_discovery : RunOptions → W → W * Result RastreoError DiscoverySummary).
Context (cancelled : W → bool).
Abbreviation open_file :=
  (open_file env is_file is_dir read_dir read_to_string from_str scenario_from_value).
Abbreviation run_from_file :=
  (run_from_file env stdout_table_width report_to_vec is_file is_dir read_dir read_to_string from_str
     scenario_from_value run_discovery cancelled).

Lemma open_file_nonempty args raw path file cli_sink :
  open_file args raw = Ok (path, file, cli_sink) → sf_scenarios file ≠ [].
Proof using Type.
  unfold Cli.open_file. intros H. inv_ok. simplify_eq.
  match goal with H : check_file _ _ = Ok _ |- _ => unfold check_file in H end.
  destruct (negb _); [done|]. by destruct (sf_scenarios _).
Qed.

(** The scenarios of a run, or none of them, failed; or every one was skipped. *)
Definition run_succeeds (total : nat) (reports : list ScenarioReport) : Prop :=
  Forall (λ r, sre_outcome r ≠ Failed) reports ∧
  ¬ (length reports = total ∧ Forall (λ r, sre_outcome r = Skipped) reports).

Lemma loop_outcome_succeeds reports total path :
  (0 < total)%nat → (length reports ≤ total)%nat →
  scenario_loop_outcome (tally_over reports total) total path = Ok tt ↔ run_succeeds total reports.
Proof using Type.
  intros Ht Hl. rewrite tally_over_counts. unfold scenario_loop_outcome, run_succeeds. cbn [ty_failed ty_skipped].
  rewrite <- count_of_none, <- count_of_all. pose proof (counts_total reports) as Hc.
  destruct (Nat.ltb_spec 0 (count_of Failed reports)) as [Hf|Hf]; [split; [done|lia]|].
  unfold ensure_not_every_scenario_was_skipped.
  destruct (Nat.eqb_spec (count_of Skipped reports) 0), (Nat.ltb_spec (count_of Skipped reports) total);
    cbn; split; try done; lia.
Qed.

(** C21. Running a file of scenarios. Every scenario reached is reported, in the order of the
    file, under its name: skipped exactly when it has no probers, failed when its configuration
    is invalid, when the core's run of it fails or when every target is unresolvable, and
    completed otherwise, with the summary of its run. A scenario that fails does not keep the
    next ones from running; only a cancellation ends the loop early, and it marks the totals. The
    report counts the scenarios of each outcome, adding up to the scenarios reached, and accumulates
    their summaries. The
    report is written whatever the outcome, and the run succeeds exactly when no scenario
    failed, not every scenario was skipped, and the report could be written; a failure to
    write it never replaces the failure of a scenario. *)
Theorem file_run_outcome args raw path file cli_sink w :
  open_file args raw = Ok (path, file, cli_sink) →
  let cfgs := effective_scenario stdout_table_width file args cli_sink <$> sf_scenarios file in
  ∃ reports w1,
    let cancel := (length reports <? length cfgs)%nat in
    let totals := foldl accumulate discovery_summary_default (omap sre_summary reports) in
    let tally := mkScenarioTally (length cfgs) (count_of Completed reports) (count_of Failed reports)
                   (count_of Skipped reports) in
    let report := mkRunReport RUN_REPORT_VERSION reports
                    (mkRunAggregate tally (if cancel then cancel_aggregate totals else totals)) in
    let '(w2, written) := write_run_report report_to_vec (da_run_report args) report w1 in
    scenarios_run run_discovery cancelled args cfgs w reports w1 ∧
    (cancel = true → cancelled w1 = true ∧ ds_cancelled (ra_summary (rr_aggregate report)) = true) ∧
    (ty_completed tally + ty_failed tally + ty_skipped tally)%nat = length reports ∧
    (length reports ≤ ty_total tally)%nat ∧ ty_total tally = length cfgs ∧
    ∃ result, run_from_file args raw w = (w2, result) ∧
      (result = Ok report ↔ run_succeeds (length cfgs) reports ∧ written = Ok tt) ∧
      (run_succeeds (length cfgs) reports → ∀ e, written = Err e → result = Err e) ∧
      (¬ run_succeeds (length cfgs) reports → ∃ msg, result = Err (CliMessage msg)).
Proof using Type.
  intros Ho cfgs. pose proof (open_file_nonempty _ _ _ _ _ Ho) as Hne.
  unfold Cli.run_from_file. rewrite Ho.
  replace (length (sf_scenarios file)) with (length cfgs) by apply length_fmap. fold cfgs.
  destruct (run_scenarios_spec run_discovery cancelled args (length cfgs) cfgs 0 [] discovery_summary_default w)
    as (reports & w1 & Hrun & Hreports).
  destruct (scenarios_run_length _ _ _ _ _ _ _ Hreports) as [Hlen Hcan].
  exists reports, w1. rewrite Hrun, add_summaries. cbn zeta. cbn [app].
  unfold run_report_new. rewrite tally_over_counts.
  set (totals := foldl accumulate _ _).
  replace ((if (length reports <? length cfgs)%nat then cancel_aggregate else (λ agg, agg))
             totals)
    with (if (length reports <? length cfgs)%nat then cancel_aggregate totals else totals)
    by (by destruct (_ <? _)%nat).
  destruct (write_run_report _ _ _ w1) as [w2 written].
  assert (Ht : (0 < length cfgs)%nat)
    by (unfold cfgs; rewrite length_fmap; destruct (sf_scenarios file); [done|cbn; lia]).
  pose proof (loop_outcome_succeeds reports (length cfgs) path Ht Hlen) as Hs.
  cbn [rr_aggregate ra_scenario_counts]. rewrite tally_over_counts in *.
  cbn [ty_completed ty_failed ty_skipped ty_total].
  split_and!; [exact Hreports| |apply counts_total|exact Hlen|done|].
  { intros Hb. rewrite Hb. apply Nat.ltb_lt in Hb. split; [by apply Hcan|done]. }
  eexists. split; [reflexivity|].
  destruct (scenario_loop_outcome _ _ _) as [[]|e] eqn:Hl; cbn [run_outcome].
  - assert (run_succeeds (length cfgs) reports) as Hok by (by apply Hs).
    split_and!.
    + destruct written as [[]|e]; split; [done|done|done|by intros [_ ?]].
    + by intros _ e ->.
    + by intros [].
  - assert (¬ run_succeeds (length cfgs) reports) as Hno by (rewrite <- Hs; done).
    split_and!; [split; [done|by intros [? _]]|done|]. intros _.
    unfold scenario_loop_outcome, ensure_not_every_scenario_was_skipped in Hl.
    repeat (destruct (_ <? _)%nat in Hl || destruct (_ || _) in Hl); simplify_eq; eexists; done.
Qed.
End outcome.

(** ** What a rehearsal predicts *)

Section rehearsal.
Context `{NL : IpNetLib, UC : UnicodeCase, FD : F64Display, FE : ForeignErrors, MS : MibSource,
  HO : HashOrder, FT : Features}.
Context {RL : RegexLib} {PL : ProberLib} {IE : IoErrors} {ED : ErrorDisplay} {JW : JsonWriter}.
Context {W : Type} {FS : FsLib W} {SC : ScanCodec} {SS : SinkStore W} {EL : Elapsed W} {KL : KafkaLib W}.
Context (flag : W → bool) (set_flag : bool → W → W).
Context (resolver : ResolverOps) (now : Z) (scan_id : Str).
Context (run_scan : RunSetup → W → W * (list TargetScan * bool)).
Context (open_sink : SinkConfig → W → W * Result RastreoError Handle).
Abbreviation core_run :=
  (Run.run_discovery flag set_flag (Ok resolver) open_sink scan_id now run_scan).

(** The core's run as the command line sees it when it does not panic. *)
Context (run_discovery : RunOptions → W → W * Result RastreoError DiscoverySummary).














End rehearsal.

(** * Concrete runs of the command line *)

(** Every target of the run is sent with no answer to any probe. *)
Definition silent_scan (setup : RunSetup) (w : Disk) : Disk * (list TargetScan * bool) :=
  (w, (imap (λ i _, mkTargetScan i []) (rs_stream setup), false)).

Definition sample_core : RunOptions → Disk → option (Disk * Result RastreoError DiscoverySummary) :=
  Run.run_discovery no_flag keep_flag (Ok sample_resolver) disk_open (s! "id") 0 silent_scan.

(** The core's run, the process being gone when it panics. *)
Definition plain_run (opts : RunOptions) (w : Disk) : Disk * Result RastreoError DiscoverySummary :=
  default (w, Err (EConfig EmptyProbeSelection)) (sample_core opts w).

(** A file with the sample scenario and one without probers, and the flags that run it. *)
Definition sample_file : ScenarioFile :=
  mkScenarioFile 1 Discovery base_probe_config_new
    [Discover sample_scenario; Discover (mkScenario base_probe_config_new [] [])].

Definition sample_args : DiscoverArgs :=
  mkDiscoverArgs [] [] [] [] None [] None None None None None None (Some (s! "lab.yaml")) None None None
    [] None false None (Some 8) None None None false None None None false (Some (s! "report.json")).

Abbreviation sample_open :=
  (open_file (∅ : MapEnv) (λ _, true) (λ _, true) (λ _, None) (λ _, Ok []) (λ _, Ok YNull) (λ _, Ok sample_file)
     sample_args (s! "lab.yaml")).
Abbreviation sample_run :=
  (run_from_file (∅ : MapEnv) 80 (λ _, [1]) (λ _, true) (λ _, true) (λ _, None) (λ _, Ok []) (λ _, Ok YNull)
     (λ _, Ok sample_file) plain_run (λ _, false) sample_args (s! "lab.yaml") disk_empty).

Lemma file_run_outcome_witness :
  ∃ reports w2 report, length reports = 2%nat ∧ sample_run = (w2, Ok report) ∧
    rr_scenarios report = reports ∧ run_succeeds 2 reports.
Proof.
  assert (Ho : sample_open = Ok (s! "lab.yaml", sample_file, None)) by reflexivity.
  destruct (file_run_outcome (∅ : MapEnv) 80 (λ _, [1]) (λ _, true) (λ _, true) (λ _, None) (λ _, Ok [])
    (λ _, Ok YNull) (λ _, Ok sample_file) plain_run (λ _, false) sample_args (s! "lab.yaml")
    (s! "lab.yaml") sample_file None disk_empty Ho) as (reports & w1 & H).
  cbn zeta in H. destruct (write_run_report _ _ _ w1) as [w2 written].
  destruct H as (_ & Hcan & _ & Hle & Ht & result & Hrun & Hok & Hw & Hbad). rewrite Ht in Hle. cbn in Hle.
  assert (Hres : is_ok (sample_run).2 = true) by (vm_compute; reflexivity).
  destruct (Nat.ltb_spec (length reports) 2) as [Hlt|Hge].
  { destruct (Hcan ltac:(by apply Nat.ltb_lt)) as [Hc _]. done. }
  assert (Hl : length reports = 2%nat) by lia.
  rewrite Hrun in Hres. destruct result as [report|e]; [|done].
  assert (Hdec : run_succeeds 2 reports).
  { clear -Hbad Hl. destruct (decide (Forall (λ r, sre_outcome r ≠ Failed) reports)) as [Hf|Hf].
    - destruct (decide (Forall (λ r, sre_outcome r = Skipped) reports)) as [Hs|Hs].
      + destruct Hbad as [msg Hm]; [|discriminate Hm]. intros [_ Hn]. exact (Hn (conj Hl Hs)).
      + split; [exact Hf|]. intros [_ Hn]. exact (Hs Hn).
    - destruct Hbad as [msg Hm]; [|discriminate Hm]. intros [Hn _]. exact (Hf Hn). }
  destruct written as [[]|e].
  - destruct Hok as [_ Hok]. pose proof (Hok (conj Hdec eq_refl)) as [= ->].
    eexists reports, w2, _. split_and!; [done|exact Hrun|done|done].
  - by pose proof (Hw Hdec e eq_refl).
Defined.



(** A checkpoint request that the run would refuse is refused by the rehearsal. *)
Example rehearsal_refuses_resume :
  (rehearse_scenario 0 (mkDiscoverArgs [] [] [] [] None [] None None None None None None (Some (s! "lab.yaml")) None
     None None [] None false None (Some 8) None None None false None (Some (s! "none.ckpt")) None true None)
     sample_resolver (s! "lab") sample_scenario disk_empty).2 = Failed.
Proof. by vm_compute. Qed.

(** A scenario file whose name ends in two suffixes is listed under a name that leads to
    another file, and no name leads to it. *)
Example catalog_double_suffix :
  let env : MapEnv := {[ CATALOG_DIR_ENV := OsText (s! "/c") ]} in
  let files := [s! "/c/site.yml"; s! "/c/site.yml.yaml"] in
  list_catalog env (λ p, bool_decide (p ∈ files)) (λ _, true)
    (λ _, Some [mkDirEntry (Some (s! "site.yml")) true; mkDirEntry (Some (s! "site.yml.yaml")) true]) =
  [(s! "site", s! "/c/site.yml"); (s! "site.yml", s! "/c/site.yml")].
Proof. vm_compute. reflexivity. Qed.
